(* ===== verification/_CoqProject ===== *)
-Q . S2P
Prelude.v
Config.v
BlockManager.v
BlockIds.v
KvCache.v
Transformer.v
PrefixCache.v
Types.v
Rationals.v
Admission.v
Batch.v
Scheduler.v
Frame.v
Ledger.v
Prefill.v
Engine.v
EngineProps.v
Liveness.v
Baseline.v
Text.v
Tokenizer.v
Streaming.v
Metrics.v
Server.v
Replica.v
Service.v
Discovery.v
Lifecycle.v
Data.v
Http.v
Workload.v
BenchMetrics.v
Runner.v
Quant.v
Train.v
Generate.v
Sampling.v
Chaos.v
Scenarios.v
Waste.v
