(* ===== verification/Prelude.v ===== *)
(** * nanoserve: a verification development

    nanoserve is an inference server for a small language model: a transformer, a paged
    KV cache with shared prefixes, a scheduler that batches requests continuously, and
    HTTP and RPC front ends that stream text.  This library models its Python code as
    executable definitions and proves what makes the parts, and their composition,
    correct.  Paths below are relative to src/.

    ** The program and how its parts meet

    A request (engine/types.py) enters through the HTTP front end (engine/server.py) or a
    replica's RPC service (engine/replica.py), is tokenized (model/tokenizer.py), offered
    to admission control (engine/admission.py) and queued in the engine
    (engine/scheduler.py).  Each iteration of the engine applies cancellations, admits
    from the queue, prefills admitted prompts through the prefix cache
    (engine/prefix_cache.py), and runs one decode pass over the batch.  Keys and values
    live in blocks of a pool (engine/block_manager.py); the transformer
    (model/transformer.py) sees them only through the cache protocol, which the contiguous
    caches (engine/kv_cache.py) and the growing one implement as well.  Tokens leave
    through per-connection queues and are streamed as text.  engine/baseline.py is the
    sequential engine the batched one is compared with, engine/discovery.py registers a
    replica in etcd, engine/metrics.py counts, engine/quant.py shrinks weights,
    model/train/data.py prepares the corpus, model/train/train.py trains on it, stopping
    and resuming, and model/generate.py samples from one prompt.  bench/ generates
    workloads, replays them against either engine and summarises what it measured;
    bench/chaos/ starts a cluster of replicas, injects faults and judges what clients saw.

    ** Files

    - Prelude: results and exceptions, the state-and-exception monad [M] with its weakest
      precondition [wp], lists, numbers, and the tactics every file uses.
    - Config (model/config.py): [NanoConfig], its validation, sizes.
    - BlockManager (engine/block_manager.py): [BlockAllocator.t], [Pool] and [Cache] are
      the three classes' attributes; [PagedKVCache] and [PagedCachePool] are modules with a
      definition per method.  A method of a sequence's cache runs on the pair of the pool
      and that cache.
    - BlockIds (engine/block_manager.py, BlockAllocator): the allocator with ids as Python's
      integers, negative ones included, and a simulation between it and the one over
      natural numbers; the other files use the latter, since all ids they pass on come from
      [allocate].
    - KvCache (engine/kv_cache.py, DynamicCache and the KVCache protocol of
      model/transformer.py): the class [KVCache] is the protocol, [KVCacheLaws] what the
      attention layers rely on; the paged, the growing and the contiguous cache are its
      instances.
    - Transformer (model/transformer.py): the forward pass, per layer and per row.
    - PrefixCache (engine/prefix_cache.py): chained hashes, lookup, registration, eviction
      by least recent use, attaching cached blocks to a new sequence.
    - Rationals: sums, windows and rounding over [Qc], shared by every file with times.
    - Types, Admission (engine/types.py, engine/admission.py).
    - Batch (engine/scheduler.py, BatchedPagedCache): one decode pass over a ragged batch.
    - Scheduler (engine/scheduler.py, ContinuousBatchingEngine): requests in a store, named
      by reference from the queue, the batch and the outcome lists; a definition per
      method, loops included.
    - Frame, Ledger: what an engine operation leaves alone, and that what it emits is what
      it adds to the outputs, each as a predicate on programs closed under the monad.
    - Prefill, Engine, EngineProps, Liveness: the theory of the engine, from the content of
      registered blocks to the engine invariant, its preservation by every method, the
      properties and termination.
    - Baseline (engine/baseline.py), over an interface [Backend] with three instances.
    - Text, Tokenizer (model/tokenizer.py): code points, UTF-8, a regular-expression
      matcher; byte-pair encoding, its training and its saved form.
    - Streaming, Server, Http (engine/server.py), Replica (engine/replica.py): the
      background task and the handlers share one event loop, so a handler is a function of
      the turns other tasks take at its awaits.  GET /health, GET /stats and the metrics
      sample are in Http.
    - Lifecycle (engine/replica.py [serve], with ReplicaRegistration and AsyncEngine's start
      and stop): the coroutine, the engine task, the handlers, the renewal thread and the
      registration's stop as machines that take one operation at a time, interleaved in any
      order; etcd is the class [Registry], its behaviour [RegistryLaws], [ToyEtcd] an
      instance.  A revocation takes time, up to five seconds per endpoint.
    - Service (engine/server.py over engine/scheduler.py): everything from a request's
      arrival to the tokens its client takes, as events in any order; the engine's [step],
      which runs in a worker thread, is taken in four parts with events in between.
    - Metrics, Discovery, Data, Quant: engine/metrics.py, engine/discovery.py,
      model/train/data.py, engine/quant.py.  In Discovery the registration is written against
      the class [Etcd]; [client_etcd] is the instance the modelled client gives, and its laws
      are proved from those of the servers ([EtcdServerLaws]).
    - Train (model/train/train.py, scripts/train.py): the trainer's state and the directory
      of checkpoints, with every state the directory passes through; Generate
      (model/generate.py); Sampling (engine/scheduler.py [_sample]): temperature, top-k and
      top-p, over the class of scalars of the model.
    - Workload, BenchMetrics, Runner (bench/workload.py, bench/metrics.py,
      bench/runner.py): the generator, the summaries, and the open-loop driver over an
      abstract engine.
    - Chaos, Scenarios (bench/chaos/harness.py, bench/chaos/scenarios.py,
      scripts/chaos.py): the event-stream client, the ways its connection can end, and its
      statistics, the fault proxy as
      threads, the cluster over an abstract machine, the seven scenarios with their
      verdicts and cleanup, and the command that runs them.
    - Waste (scripts/measure_kv_waste.py, over KvCache and BlockManager): a workload's
      lengths replayed through both pools, and one abstract machine that both refine.

    ** What is shown

    - Every client gets its own answer.  [service_exact]: whatever the order of events
      between the four parts of a step nothing raises and streams are not mixed up; as long
      as nothing was preempted a client gets its request's output, for a greedy request the
      reference's.  [service_finishes]: in bounded time, if every request fits the pool
      beside all cacheable prompts.  [fanout_overtaken] is a run of what can go wrong when
      threads take turns inside a part of a step, [preemption_reemits] one of what a
      preemption does to a stream.
    - The engine is correct and finishes.  [step_sound]: an iteration keeps the invariant
      (block tables hold their requests' rows, references account for every block, the
      prefix cache tells the truth, every output is a prefix of the reference) and never
      raises.  [run_total]: a queue of requests that fit the pool is served within an
      explicit number of iterations, every request once, with the tokens of greedy decoding
      without any cache, whatever was preempted.  [cancel_exact]: cancelling ends exactly
      the requests named.  [baseline_exact]: the sequential engine
      without a block pool serves each request in one step, greedy ones with the same tokens.
    - Caching is invisible.  [cached_forward_equals_full] for every lawful cache,
      [batched_decode_equals_full] for the padded batch, [prefill_transparent] for reused
      prefixes; [pass_refines_append]: the paged cache with copy-on-write refines appending
      to a list; [match_attach_shares] (a registry of token prefixes, with no hashes in it,
      says what is found), [evict_lru], [ensure_free_exact] for the prefix cache.
    - Memory is accounted for: [allocator_consistent] (for ids that are any integers), [fork_shares], [failed_pass_free],
      [can_fit_exact], [fragmentation_bound], [static_pool_books].
    - Text survives: [train_exact] (incremental counting computes byte-pair encoding),
      [encode_decode], [save_load], [stream_text], [stream_exact], [prepare_exact],
      [batch_windows].
    - The service keeps its contracts: [admit_exact] (against the speed observed over the
      whole history), [admission_accounts], [http_generate_exact], [token_stream_contract] and
      [generate_contract] (a response takes what is queued for it, in order, and says it),
      [renew_heals] (through the client, while replies are whole), [post_rotates],
      [range_end_exact], [metrics_account].
    - [quantize_error] (scales are the largest magnitudes over 127, errors half a step),
      [quantize_model_once].
    - [resume_exact]: a training run stopped between any two operations on its checkpoint
      directory, any number of times, ends as one that never was; [prune_exact].
      [generate_greedy]: what the single-sequence generator samples; [sample_nucleus]: the
      candidates that survive the filters are the most likely ones, never none.
    - [listed_means_serving]: while a replica's key is in the registry the replica listens
      and its engine task runs, with the exceptions that are named; [shutdown_bounded].
      [refuses_while_listed], [late_announcement], [failed_engine_stays_listed] and
      [terminated_stays_listed] are runs of the exceptions.
    - The tools measure what they say.  [workload_well_formed], [summary_consistent],
      [bench_run_exact] (every request of a trace is submitted once, not before it is due,
      and reported), [client_reads_stream], [proxy_relays], [scenarios_sound] (a scenario
      leaves none of the processes it started running, and passes only if it injected a
      fault and every outcome its clients recorded after it is of a request that was
      served; [silent_cluster_passes] and [dying_clients_pass] are passes with no outcomes).  [replay_exact],
      [replay_paged_exact] and [measure_reports]: the samples of cache waste add up to what
      the lengths say, and when the replays end; [paged_bound_exact].
    - Where the code does not do what it means to, that is a theorem or an example too:
      [oversized_head_livelocks], [outgrown_pool_restarts], [preemption_reemits],
      [cached_prompt_starves], [stale_free_evicts_owner], [prefill_leaks],
      [resumed_budget_exceeded], [duplicate_is_cancelled], [negative_id_returns],
      [cut_reply_ends_renewal], [slow_revocation], [split_character_repeats], [replay_paged_deadlocks],
      [replay_without_slots], and the underscore in [encode_decode].

    ** Numbers, time and fuel

    Python integers are [Z], or [nat] where they count; 16-bit and 8-bit storage is bounded
    explicitly; floats that carry times and rates are rationals.  A clock is a function from
    the number of readings so far to a time, a random source one from the number of draws.
    The loops that are not structural take fuel, and the theorems about them show it is
    enough: the admission loop runs at most once per queued request, a merge loop at most
    once per byte, the pattern matcher's scan at most once per character, the corpus reader
    at most once per character, the renewal loop as long as the outage, the training loop
    once per step that is left, the cache replays once per token, and [run] at most
    [(n + 1) * (limit + 2) * (max_batch_size + 1)] iterations for [n] requests of at most
    [limit] tokens.  The polling loops of the chaos harness take a number of rounds and are
    bounded by their timeouts when every round sleeps; the benchmark's drive loop is
    bounded by its own timeout likewise.  The machines of Lifecycle and of the fault proxy
    take no fuel: their theorems are about every sequence of steps.

    ** Parameters

    What the code gets from elsewhere is a parameter with the laws it is used under, each
    instantiated by an example: torch's scalar arithmetic and fused attention (a row of the
    result depends on the rows its mask admits), sampling ([SamplerLaws]: with temperature
    zero the argmax), Python's [hash] (no collision among the prompts served), the Unicode
    tables ([UnicodeLaws]), the JSON library and the network, the etcd servers ([EtcdServerLaws],
    [RegistryLaws]), torch's
    gradients, optimizer and generators ([TrainingLaws]), numpy's generator and statistics,
    the machine that runs the cluster's processes, and the order in which tasks and threads
    take turns.

    ** Not modelled

    The Go router, which is another program; code generated by protoc; the scripts that
    parse arguments, plot, time kernels or write reports (scripts/make_report.py,
    plot_*.py, run_bench.py, cluster.py and the like), which only call the parts above and
    format; the wiring in [build_app] that constructs the engine; the start of the FastAPI
    application; formatting ([to_dict], [__repr__], JSON and log lines); error messages;
    weight initialisation; rounding of 32-bit floats.  In Service, threads taking turns within a
    part of a step are left out; in Lifecycle, a second interrupt during the shutdown and
    malformed replies of etcd (Discovery has them), and the timeout of [urlopen], which
    bounds each operation on a socket, is taken as that of a request; in the fault proxy,
    the length of a delay. *)

From Stdlib Require Import ssreflect.
From stdpp Require Import prelude gmap gmultiset strings sorting list.
#[global] Open Scope general_if_scope.

(** ** Exceptions, results and the effect monad

    A Python method that mutates an object and may raise is a function from the
    object's state to a result and the state it leaves behind: a [raise] does
    not roll back the mutations that preceded it, so the state survives on both
    branches.  Error messages are not modelled, only the exception class. *)

Inductive exn :=
  | OutOfBlocks
  | RuntimeError
  | IndexError
  | KeyError
  | ValueError
  | EtcdError
  | TimeoutError
  | ZeroDivisionError
  | AttributeError
  | OverflowError
  | TypeError
  | FileNotFoundError
  | OSError
  | TimeoutExpired
  | SystemExit
  | HTTPException.

#[export] Instance exn_eq_dec : EqDecision exn.
Proof. solve_decision. Defined.

Inductive result (A : Type) :=
  | Ok (a : A)
  | Raise (e : exn).
Arguments Ok {A} a.
Arguments Raise {A} e.

#[export] Instance result_eq_dec `{EqDecision A} : EqDecision (result A).
Proof. solve_decision. Defined.

Definition M (S A : Type) : Type := S → result A * S.

Definition ret {S A} (a : A) : M S A := λ s, (Ok a, s).
Definition raise {S A} (e : exn) : M S A := λ s, (Raise e, s).
Definition bind {S A B} (m : M S A) (k : A → M S B) : M S B := λ s,
  match m s with
  | (Ok a, s') => k a s'
  | (Raise e, s') => (Raise e, s')
  end.
Definition get {S} : M S S := λ s, (Ok s, s).
Definition gets {S A} (f : S → A) : M S A := λ s, (Ok (f s), s).
Definition modify {S} (f : S → S) : M S unit := λ s, (Ok tt, f s).

(** Running an operation of a component inside the state that holds it. *)
Definition zoom {S T A} (proj : S → T) (inj : T → S → S) (m : M T A) : M S A := λ s,
  match m (proj s) with (r, t) => (r, inj t s) end.

(** [try: m except e: h], for the one exception class [h] handles. *)
Definition catch {S A} (m : M S A) (e : exn) (h : M S A) : M S A := λ s,
  match m s with
  | (Raise e', s') => if decide (e' = e) then h s' else (Raise e', s')
  | r => r
  end.

(** [try: m except (...): h], for the classes of exceptions that [p] holds of. *)
Definition catch_when {S A} (p : exn → bool) (m : M S A) (h : M S A) : M S A := λ s,
  match m s with
  | (Raise e, s') => if p e then h s' else (Raise e, s')
  | r => r
  end.

(** [try: m finally: f]. *)
Definition finally {S A} (m : M S A) (f : M S unit) : M S A := λ s,
  match m s with
  | (r, s1) => match f s1 with
               | (Ok _, s2) => (r, s2)
               | (Raise e, s2) => (Raise e, s2)
               end
  end.

(** [for x in l: f x]. *)
Fixpoint for_each {S A} (l : list A) (f : A → M S unit) : M S unit :=
  match l with
  | [] => ret tt
  | x :: l' => bind (f x) (λ _, for_each l' f)
  end.

(** [[f(x) for x in l]]. *)
Fixpoint for_list {S A B} (l : list A) (f : A → M S B) : M S (list B) :=
  match l with
  | [] => ret []
  | x :: l' => bind (f x) (λ y, bind (for_list l' f) (λ ys, ret (y :: ys)))
  end.

Declare Scope py_scope.
Delimit Scope py_scope with py.
Notation "'let*' x ':=' m 'in' k" := (bind m (λ x, k))
  (at level 10, x pattern, m at level 100, k at level 200, only parsing) : py_scope.
Notation "'do*' m 'in' k" := (bind m (λ _, k))
  (at level 10, m at level 100, k at level 200, only parsing) : py_scope.
#[global] Open Scope py_scope.

(** ** Reasoning about effects

    [wp m Q E s]: running [m] in [s] either returns a value and a state in [Q],
    or raises an exception and leaves a state in [E]. *)
Definition wp {S A} (m : M S A) (Q : A → S → Prop) (E : exn → S → Prop) (s : S) : Prop :=
  match m s with
  | (Ok a, s') => Q a s'
  | (Raise e, s') => E e s'
  end.

Definition never {S} : exn → S → Prop := λ _ _, False.

Section wp.
Context {S A B : Type}.
Implicit Types (Q : A → S → Prop) (E : exn → S → Prop).

Lemma wp_ret (a : A) Q E s : Q a s → wp (ret a) Q E s.
Proof. done. Qed.

Lemma wp_raise (e : exn) Q E s : E e s → wp (raise e) Q E s.
Proof. done. Qed.

Lemma wp_get (Q : S → S → Prop) E s : Q s s → wp get Q E s.
Proof. done. Qed.

Lemma wp_gets (f : S → A) Q E s : Q (f s) s → wp (gets f) Q E s.
Proof. done. Qed.

Lemma wp_modify (f : S → S) (Q : unit → S → Prop) E s : Q tt (f s) → wp (modify f) Q E s.
Proof. done. Qed.

Lemma wp_bind (m : M S B) (k : B → M S A) Q E s :
  wp m (λ b, wp (k b) Q E) E s → wp (bind m k) Q E s.
Proof. rw /wp /bind. by destruct (m s) as [[]]. Qed.

Lemma wp_mono (m : M S A) Q Q' E E' s :
  wp m Q E s → (∀ a s', Q a s' → Q' a s') → (∀ e s', E e s' → E' e s') → wp m Q' E' s.
Proof. rw /wp. destruct (m s) as [[]]; auto. Qed.

Lemma wp_ok (m : M S A) (a : A) Q E s s' : m s = (Ok a, s') → wp m Q E s → Q a s'.
Proof. by rw /wp => ->. Qed.

Lemma wp_raised (m : M S A) e Q E s s' : m s = (Raise e, s') → wp m Q E s → E e s'.
Proof. by rw /wp => ->. Qed.

Lemma wp_conj (m : M S A) Q1 Q2 E1 E2 s :
  wp m Q1 E1 s → wp m Q2 E2 s → wp m (λ a s', Q1 a s' ∧ Q2 a s') (λ e s', E1 e s' ∧ E2 e s') s.
Proof. rw /wp. destruct (m s) as [[]]; auto. Qed.

Lemma wp_never (m : M S A) Q s : wp m Q never s ↔ ∃ a s', m s = (Ok a, s') ∧ Q a s'.
Proof.
  rw /wp /never. destruct (m s) as [[a|e] s']; [|naive_solver].
  split; [eauto|]. intros (? & ? & Heq & ?). by simplify_eq.
Qed.

Lemma wp_catch (m h : M S A) e Q E s :
  wp m Q (λ e' s', if decide (e' = e) then wp h Q E s' else E e' s') s →
  wp (catch m e h) Q E s.
Proof. rw /wp /catch. destruct (m s) as [[a|e'] s']; [done|]. by case_decide. Qed.

Lemma wp_catch_when (m h : M S A) (p : exn → bool) Q E s :
  wp m Q (λ e s', if p e then wp h Q E s' else E e s') s → wp (catch_when p m h) Q E s.
Proof. rw /wp /catch_when. destruct (m s) as [[a|e] s']; [done|]. by destruct (p e). Qed.
End wp.

Lemma wp_zoom {S T A} (proj : S → T) inj (m : M T A) Q E s :
  wp m (λ a t, Q a (inj t s)) (λ e t, E e (inj t s)) (proj s) → wp (zoom proj inj m) Q E s.
Proof. rw /wp /zoom. by destruct (m (proj s)) as [[]]. Qed.

Lemma wp_finally {S A} (m : M S A) (f : M S unit) Q E s :
  wp m (λ a s1, wp f (λ _ s2, Q a s2) E s1) (λ e s1, wp f (λ _ s2, E e s2) E s1) s → wp (finally m f) Q E s.
Proof.
  rw /wp /finally. destruct (m s) as [[a|e] s1]; destruct (f s1) as [[]]; done.
Qed.

(** The loop rule: [Inv] holds of what is left to do. *)
Lemma wp_for_each {S A} (Inv : list A → S → Prop) (f : A → M S unit) l E s :
  Inv l s →
  (∀ x l' s, Inv (x :: l') s → wp (f x) (λ _, Inv l') E s) →
  wp (for_each l f) (λ _, Inv []) E s.
Proof.
  intros Hl Hstep. revert s Hl. induction l as [|x l IH]; intros s Hl; [done|].
  apply wp_bind. eapply wp_mono; [apply Hstep, Hl|..]; naive_solver.
Qed.

Lemma wp_for_each_app {S A} (l1 l2 : list A) (f : A → M S unit) Q E s :
  wp (for_each l1 f) (λ _, wp (for_each l2 f) Q E) E s → wp (for_each (l1 ++ l2) f) Q E s.
Proof.
  revert s. induction l1 as [|x l1 IH]; intros s H; [done|]. cbn [app for_each] in *. apply wp_bind.
  rw /wp /bind in H. rw /wp. destruct (f x s) as [[u|e] s1]; [|done]. by apply IH.
Qed.

Lemma wp_for_list {S A B} (I : S → Prop) (P : A → B → Prop) (f : A → M S B) l s :
  I s → (∀ x s, x ∈ l → I s → wp (f x) (λ y s', P x y ∧ I s') never s) →
  wp (for_list l f) (λ ys s', Forall2 P l ys ∧ I s') never s.
Proof.
  intros Hs Hf. revert s Hs. induction l as [|x l IH]; intros s Hs; [done|].
  apply wp_bind. eapply wp_mono; [apply Hf; [by left|done]| |done]. intros y s1 [Hy Hs1].
  apply wp_bind. eapply wp_mono; [apply IH; [|done]; intros z s2 Hz; apply Hf; by right| |done].
  intros ys s2 [Hys Hs2]. split; [by constructor|done].
Qed.

Lemma bind_assoc {S A B C} (m : M S A) (k : A → M S B) (h : B → M S C) s :
  bind (bind m k) h s = bind m (λ a, bind (k a) h) s.
Proof. rw /bind. by destruct (m s) as [[]]. Qed.

(** Peels the head of a monadic program off a [wp] goal. *)
Ltac wp_step :=
  lazymatch goal with
  | |- wp (bind _ _) _ _ _ => apply wp_bind
  | |- wp (for_each [] _) _ _ _ => apply wp_ret
  | |- wp (for_each (_ :: _) _) _ _ _ => apply wp_bind
  | |- wp (for_list [] _) _ _ _ => apply wp_ret
  | |- wp (for_list (_ :: _) _) _ _ _ => apply wp_bind
  | |- wp (ret _) _ _ _ => apply wp_ret
  | |- wp (raise _) _ _ _ => apply wp_raise
  | |- wp get _ _ _ => apply wp_get
  | |- wp (gets _) _ _ _ => apply wp_gets
  | |- wp (modify _) _ _ _ => apply wp_modify
  | |- wp (catch _ _ _) _ _ _ => apply wp_catch
  | |- wp (zoom _ _ _) _ _ _ => apply wp_zoom
  | |- wp (if ?b then _ else _) _ _ _ => destruct b eqn:?
  | |- wp (match ?x with _ => _ end) _ _ _ => destruct x eqn:?
  end.
Ltac wp_steps := repeat wp_step.

(** ** Python integers *)

(** [-(-a // b)], the code's ceiling division; [//] floors. *)
Definition ceil_div (a b : nat) : nat := Z.to_nat (- ((- Z.of_nat a) / Z.of_nat b)).

Lemma ceil_div_le a b m : 0 < b → ceil_div a b ≤ m ↔ a ≤ m * b.
Proof.
  intros Hb. unfold ceil_div.
  pose proof (Z.div_mod (- Z.of_nat a) (Z.of_nat b) ltac:(lia)) as Hd.
  pose proof (Z.mod_pos_bound (- Z.of_nat a) (Z.of_nat b) ltac:(lia)) as Hm.
  set (q := (- Z.of_nat a `div` Z.of_nat b)%Z) in *.
  split; intros H; [|]; nia.
Qed.

Lemma ceil_div_mul_ge a b : 0 < b → a ≤ ceil_div a b * b.
Proof. intros Hb. by apply ceil_div_le. Qed.

Lemma ceil_div_mul_lt a b : 0 < b → ceil_div a b * b < a + b.
Proof.
  intros Hb. destruct (ceil_div a b) as [|c] eqn:E; [lia|].
  destruct (decide (S c * b < a + b)) as [|Hn]; [done|].
  assert (ceil_div a b ≤ c) by (apply ceil_div_le; [done|nia]). lia.
Qed.

Lemma ceil_div_unique a b m : 0 < b → a ≤ m * b → m * b < a + b → ceil_div a b = m.
Proof.
  intros Hb H1 H2. apply ceil_div_le in H1; [|done].
  pose proof (ceil_div_mul_ge a b Hb). nia.
Qed.

Lemma ceil_div_0 b : ceil_div 0 b = 0.
Proof. unfold ceil_div. destruct b; [done|]. by rw Z.div_0_l; [|lia]. Qed.

Lemma ceil_div_eq a b : 0 < b → ceil_div a b = if a mod b =? 0 then a / b else S (a / b).
Proof.
  intros Hb. pose proof (Nat.div_mod_eq a b). pose proof (Nat.mod_upper_bound a b ltac:(lia)).
  destruct (Nat.eqb_spec (a mod b) 0); apply ceil_div_unique; nia.
Qed.

(** ** Python lists *)

(** [l.pop()]: the last element and the list without it. *)
Definition py_pop {A} (l : list A) : option (A * list A) :=
  match rev l with
  | [] => None
  | x :: r => Some (x, rev r)
  end.

(** [reversed(l)]. *)
Definition reversed {A} (l : list A) : list A := rev l.

Lemma py_pop_None {A} (l : list A) : py_pop l = None ↔ l = [].
Proof.
  unfold py_pop. destruct (rev l) eqn:E.
  - split; [|done]. intros _. by rw -(rev_involutive l) E.
  - split; [done|]. by intros ->.
Qed.

Lemma py_pop_Some {A} (l : list A) x l' : py_pop l = Some (x, l') ↔ l = l' ++ [x].
Proof.
  unfold py_pop. destruct (rev l) as [|y r] eqn:E.
  - apply (f_equal (@rev A)) in E. rw rev_involutive in E. subst l. simpl.
    split; [done|]. by destruct l'.
  - apply (f_equal (@rev A)) in E. rw rev_involutive in E. subst l. simpl. split.
    + by intros [= -> <-].
    + by intros [-> ->]%app_inj_tail.
Qed.

(** A set has no more elements than a list of them. *)
Lemma size_list_le (l : list nat) : size (list_to_set l : gset nat) ≤ length l.
Proof.
  induction l as [|x l IH]; [done|]. cbn [list_to_set length]. rw size_union_alt size_singleton.
  assert (size ((list_to_set l : gset nat) ∖ {[x]}) ≤ size (list_to_set l : gset nat)); [|lia].
  apply subseteq_size. set_solver.
Qed.

(** Gather, [t[idx]] for an index tensor: every index must be in range. *)
Definition index_select {A} (t : list A) (idx : list nat) : option (list A) :=
  mapM (λ i, t !! i) idx.

(** Scatter, [t[idx] = vals] for distinct indices. *)
Fixpoint scatter {A} (t : list A) (idx : list nat) (vals : list A) : list A :=
  match idx, vals with
  | i :: idx', v :: vals' => scatter (<[i := v]> t) idx' vals'
  | _, _ => t
  end.

Section gather_scatter.
Context {A : Type}.
Implicit Types (t : list A) (idx : list nat) (vals : list A).

Lemma length_scatter t idx vals : length (scatter t idx vals) = length t.
Proof.
  revert t vals. induction idx as [|i idx IH]; intros t [|v vals]; simpl; try done.
  by rw IH length_insert.
Qed.

Lemma scatter_lookup_ne t idx vals s : s ∉ idx → scatter t idx vals !! s = t !! s.
Proof.
  revert t vals. induction idx as [|i idx IH]; intros t [|v vals] Hs; simpl; try done.
  rw not_elem_of_cons in Hs. destruct Hs as [Hne Hs].
  rw IH //. by rw list_lookup_insert_ne.
Qed.

Lemma index_select_Some t idx r :
  index_select t idx = Some r ↔ Forall2 (λ i x, t !! i = Some x) idx r.
Proof. apply mapM_Some. Qed.

Lemma index_select_length t idx r : index_select t idx = Some r → length r = length idx.
Proof. intros H%index_select_Some. by apply Forall2_length in H. Qed.

Lemma index_select_app t i1 i2 r1 r2 :
  index_select t i1 = Some r1 → index_select t i2 = Some r2 →
  index_select t (i1 ++ i2) = Some (r1 ++ r2).
Proof. rw !index_select_Some. apply Forall2_app. Qed.

Lemma index_select_ext t t' idx :
  (∀ i, i ∈ idx → t !! i = t' !! i) → index_select t idx = index_select t' idx.
Proof.
  intros H. unfold index_select. induction idx as [|i idx IH]; [done|]; simpl.
  rw H; [|by left]. destruct (t' !! i); simpl; [|done].
  by rw IH; [|intros ??; apply H; by right].
Qed.

Lemma index_select_total t idx :
  (∀ i, i ∈ idx → i < length t) → ∃ r, index_select t idx = Some r.
Proof.
  intros H. unfold index_select. apply mapM_is_Some, Forall_forall.
  intros i Hi. by apply lookup_lt_is_Some, H.
Qed.

Lemma scatter_select t idx vals :
  NoDup idx → (∀ i, i ∈ idx → i < length t) → length idx = length vals →
  index_select (scatter t idx vals) idx = Some vals.
Proof.
  rw index_select_Some. revert t vals.
  induction idx as [|i idx IH]; intros t [|v vals] Hnd Hlt Hlen; try done.
  apply NoDup_cons in Hnd as [Hi Hnd]. simpl in Hlen. constructor.
  - simpl. rw scatter_lookup_ne //. apply list_lookup_insert_eq, Hlt. by left.
  - simpl. apply IH; [done| |lia]. intros j Hj. rw length_insert. apply Hlt. by right.
Qed.
End gather_scatter.

(** ** Multisets of references held by lists *)

Lemma multiplicity_list_cons (x y : nat) l :
  multiplicity x (list_to_set_disj (y :: l) : gmultiset nat) =
  (if decide (x = y) then 1 else 0) + multiplicity x (list_to_set_disj l : gmultiset nat).
Proof. rw list_to_set_disj_cons multiplicity_disj_union multiplicity_singleton. done. Qed.

Lemma list_to_set_disj_snoc (x : nat) l :
  list_to_set_disj (l ++ [x]) = {[+ x +]} ⊎ list_to_set_disj l :> gmultiset nat.
Proof. rw list_to_set_disj_app. multiset_solver. Qed.

Lemma Forall2_compose {A B C} (P : A → B → Prop) (Q : B → C → Prop) (R : A → C → Prop) l1 l2 l3 :
  (∀ x y z, P x y → Q y z → R x z) → Forall2 P l1 l2 → Forall2 Q l2 l3 → Forall2 R l1 l3.
Proof.
  intros H H12. revert l3. induction H12; intros l3 H23; inv H23; constructor; eauto.
Qed.

Lemma Forall2_diag_1 {A} (P : A → A → Prop) l : Forall2 P l l → Forall (λ x, P x x) l.
Proof. induction l; inv 1; constructor; auto. Qed.

Lemma Forall2_lookup_intro {A B} (P : A → B → Prop) l k :
  length l = length k → (∀ i x y, l !! i = Some x → k !! i = Some y → P x y) → Forall2 P l k.
Proof. intros Hl H. by apply Forall2_same_length_lookup. Qed.

Lemma multiplicity_NoDup (x : nat) l :
  NoDup l → multiplicity x (list_to_set_disj l : gmultiset nat) = if decide (x ∈ l) then 1 else 0.
Proof.
  induction 1 as [|y l Hy Hl IH]; [done|]. rw multiplicity_list_cons IH.
  destruct (decide (x = y)) as [->|Hne].
  - rw decide_False // decide_True //. by left.
  - destruct (decide (x ∈ l)) as [Hx|Hx].
    + rw decide_True //. by right.
    + rw decide_False //. set_solver.
Qed.

(** A block with a single reference sits at a single table index. *)
Lemma multiplicity_1_index (b : nat) l i j :
  multiplicity b (list_to_set_disj l : gmultiset nat) ≤ 1 →
  l !! i = Some b → l !! j = Some b → i = j.
Proof.
  revert i j. induction l as [|x l IH]; intros i j Hm Hi Hj; [done|].
  rw multiplicity_list_cons in Hm.
  assert (∀ k : nat, l !! k = Some b → 0 < multiplicity b (list_to_set_disj l : gmultiset nat)) as Hpos.
  { intros k Hk. apply elem_of_multiplicity, elem_of_list_to_set_disj.
    by eapply list_elem_of_lookup_2. }
  destruct i as [|i], j as [|j]; simpl in *; simplify_eq; [done|..].
  - rw decide_True in Hm; [|done]. apply Hpos in Hj. lia.
  - rw decide_True in Hm; [|done]. apply Hpos in Hi. lia.
  - f_equal. apply IH; [|done|done]. lia.
Qed.

Lemma list_filter_ext_in {A} (P Q : A → Prop) `{!∀ x, Decision (P x), !∀ x, Decision (Q x)} (l : list A) :
  (∀ x, x ∈ l → P x ↔ Q x) → filter P l = filter Q l.
Proof.
  induction l as [|x l IH]; intros HPQ; [done|]. rw !filter_cons.
  rw IH; [|intros ??; apply HPQ; by right]. specialize (HPQ x ltac:(by left)).
  by repeat case_decide; try tauto.
Qed.

Lemma list_filter_id {A} (P : A → Prop) `{!∀ x, Decision (P x)} (l : list A) :
  (∀ x, x ∈ l → P x) → filter P l = l.
Proof.
  induction l as [|x l IH]; intros HP; [done|]. rw filter_cons decide_True; [|apply HP; by left].
  f_equal. apply IH. intros y Hy. apply HP. by right.
Qed.

Lemma list_filter_none {A} (P : A → Prop) `{!∀ x, Decision (P x)} (l : list A) :
  (∀ x, x ∈ l → ¬ P x) → filter P l = [].
Proof.
  induction l as [|x l IH]; intros HP; [done|]. rw filter_cons decide_False; [|apply HP; by left].
  apply IH. intros y Hy. apply HP. by right.
Qed.

(** ** Python dictionaries

    A dict as the list of its items in insertion order, keys distinct: assignment
    to an existing key keeps its place, a new key goes to the end. *)
Section dict.
Context {K V : Type} `{EqDecision K}.
Implicit Types (d : list (K * V)).

Fixpoint dget (k : K) d : option V :=
  match d with
  | [] => None
  | (k', v) :: d => if decide (k' = k) then Some v else dget k d
  end.

Fixpoint dset (k : K) (v : V) d : list (K * V) :=
  match d with
  | [] => [(k, v)]
  | (k', v') :: d => if decide (k' = k) then (k, v) :: d else (k', v') :: dset k v d
  end.

Fixpoint ddel (k : K) d : list (K * V) :=
  match d with
  | [] => []
  | (k', v') :: d => if decide (k' = k) then d else (k', v') :: ddel k d
  end.

Lemma dget_Some_elem k v d : dget k d = Some v → (k, v) ∈ d.
Proof.
  induction d as [|[k' v'] d IH]; [done|]; simpl. case_decide; [intros [= ->]; subst; by left|].
  intros Hin%IH. by right.
Qed.

Lemma dget_None k d : dget k d = None ↔ k ∉ d.*1.
Proof.
  induction d as [|[k' v'] d IH]; [set_solver|]; simpl. rw not_elem_of_cons. case_decide; naive_solver.
Qed.

Lemma elem_dget k v d : NoDup d.*1 → (k, v) ∈ d → dget k d = Some v.
Proof.
  induction d as [|[k' v'] d IH]; [by intros _ ?%not_elem_of_nil|].
  intros [Hn Hd]%NoDup_cons [[= -> ->]|Hin]%elem_of_cons; simpl; [by rw decide_True|].
  rw decide_False; [by apply IH|]. intros ->. apply Hn. by apply (list_elem_of_fmap_2 fst) in Hin.
Qed.

Lemma dget_dset_eq k v d : dget k (dset k v d) = Some v.
Proof.
  induction d as [|[k' v'] d IH]; simpl; [by rw decide_True|].
  case_decide; simpl; [by rw decide_True|]. by rw decide_False.
Qed.

Lemma dget_dset_ne k k' v d : k ≠ k' → dget k (dset k' v d) = dget k d.
Proof.
  intros Hne. induction d as [|[k2 v2] d IH]; simpl; [by rw decide_False|].
  case_decide; simpl; [subst; by rw !decide_False|]. by case_decide.
Qed.

(** Assigning a present key keeps the key list; an absent one extends it. *)
Lemma dset_keys_in k v d : k ∈ d.*1 → (dset k v d).*1 = d.*1.
Proof.
  induction d as [|[k' v'] d IH]; [by intros ?%not_elem_of_nil|]; simpl.
  intros [->|Hin]%elem_of_cons; [by rw decide_True|]. case_decide; simpl; [by subst|].
  f_equal. by apply IH.
Qed.

Lemma dset_notin k v d : k ∉ d.*1 → dset k v d = d ++ [(k, v)].
Proof.
  induction d as [|[k' v'] d IH]; [done|]; simpl.
  intros [Hne Hn]%not_elem_of_cons. rw decide_False //. by rw IH.
Qed.

Lemma ddel_split k v d : dget k d = Some v →
  ∃ d1 d2, d = d1 ++ (k, v) :: d2 ∧ ddel k d = d1 ++ d2.
Proof.
  induction d as [|[k' v'] d IH]; [done|]; simpl. case_decide as Hk.
  - intros [= ->]. subst. by exists [], d.
  - intros (d1 & d2 & -> & ->)%IH. by exists ((k', v') :: d1), d2.
Qed.

Lemma dset_split k v v0 d : dget k d = Some v0 →
  ∃ d1 d2, d = d1 ++ (k, v0) :: d2 ∧ dset k v d = d1 ++ (k, v) :: d2.
Proof.
  induction d as [|[k' v'] d IH]; [done|]; simpl. case_decide as Hk.
  - intros [= ->]. subst. by exists [], d.
  - intros (d1 & d2 & -> & ->)%IH. by exists ((k', v') :: d1), d2.
Qed.
End dict.

(** [l.sort()] and [sorted(l)] for a total order. *)
Definition py_sort {A} (R : A → A → Prop) `{!RelDecision R} (l : list A) : list A := merge_sort R l.
