(* ===== verification/Config.v ===== *)
(** * Model configuration (model/config.py)

    [NanoConfig] with its validation, the derived sizes the KV pools are
    dimensioned with, and the analytic parameter count.  Integers are [Z] with
    Python's flooring division; the float fields are carried as rationals and
    enter no computation of this file. *)

From Stdlib Require Import ssreflect QArith Qcanon.
From stdpp Require Import prelude gmap gmultiset strings list.
From S2P Require Import Prelude.

Local Open Scope Z_scope.

Record NanoConfig := mkNanoConfig {
  vocab_size : Z;
  hidden_size : Z;
  num_hidden_layers : Z;
  num_attention_heads : Z;
  num_key_value_heads : Z;
  intermediate_size : Z;
  max_position_embeddings : Z;
  rms_norm_eps : Qc;
  rope_theta : Qc;
  initializer_range : Qc;
  tie_word_embeddings : bool;
  attention_bias : bool;
  mlp_bias : bool;
}.

(** [hidden_size // num_attention_heads]. *)
Definition head_dim (cfg : NanoConfig) : Z := hidden_size cfg / num_attention_heads cfg.

(** [num_attention_heads // num_key_value_heads]. *)
Definition n_rep (cfg : NanoConfig) : Z := num_attention_heads cfg / num_key_value_heads cfg.

(** [__post_init__]: the three checks in order; [%] by zero raises. *)
Definition post_init (cfg : NanoConfig) : result NanoConfig :=
  if num_attention_heads cfg =? 0 then Raise ZeroDivisionError
  else if negb (hidden_size cfg mod num_attention_heads cfg =? 0) then Raise ValueError
  else if num_key_value_heads cfg =? 0 then Raise ZeroDivisionError
  else if negb (num_attention_heads cfg mod num_key_value_heads cfg =? 0) then Raise ValueError
  else if negb (head_dim cfg mod 2 =? 0) then Raise ValueError
  else Ok cfg.

Definition kv_bytes_per_token (cfg : NanoConfig) : Z :=
  let per_layer := 2 * num_key_value_heads cfg * head_dim cfg * 2 in
  per_layer * num_hidden_layers cfg.

Definition NANO_27M : NanoConfig :=
  mkNanoConfig 8192 512 8 8 2 1408 1024
    (Q2Qc (1 # 100000)%Q) (Q2Qc (10000 # 1)%Q) (Q2Qc (2 # 100)%Q) true false false.

Definition TINY : NanoConfig :=
  mkNanoConfig 256 64 2 4 2 176 128
    (Q2Qc (1 # 100000)%Q) (Q2Qc (10000 # 1)%Q) (Q2Qc (2 # 100)%Q) true false false.

Record ParamCount := mkParamCount {
  pc_embedding : Z;
  pc_per_layer : Z;
  pc_layers : Z;
  pc_final_norm : Z;
  pc_lm_head : Z;
  pc_total : Z;
  pc_non_embedding : Z;
}.

Definition count_parameters (cfg : NanoConfig) : ParamCount :=
  let h := hidden_size cfg in
  let ffn := intermediate_size cfg in
  let v := vocab_size cfg in
  let kv_h := num_key_value_heads cfg * head_dim cfg in
  let embed := v * h in
  let attn := h * h + 2 * (h * kv_h) + h * h in
  let mlp := 3 * (h * ffn) in
  let norms := 2 * h in
  let per_layer := attn + mlp + norms in
  let body := num_hidden_layers cfg * per_layer + h in
  let head := if tie_word_embeddings cfg then 0 else v * h in
  mkParamCount embed per_layer (num_hidden_layers cfg * per_layer) h head
    (embed + body + head) body.

Lemma post_init_ok (cfg cfg' : NanoConfig) :
  post_init cfg = Ok cfg' →
  cfg' = cfg ∧ num_attention_heads cfg ≠ 0 ∧ num_key_value_heads cfg ≠ 0 ∧
  hidden_size cfg = num_attention_heads cfg * head_dim cfg ∧
  num_attention_heads cfg = num_key_value_heads cfg * n_rep cfg ∧
  (2 | head_dim cfg).
Proof.
  unfold post_init.
  destruct (Z.eqb_spec (num_attention_heads cfg) 0) as [|Hh]; [done|].
  destruct (Z.eqb_spec (hidden_size cfg mod num_attention_heads cfg) 0) as [Hd|]; [|done].
  destruct (Z.eqb_spec (num_key_value_heads cfg) 0) as [|Hk]; [done|].
  destruct (Z.eqb_spec (num_attention_heads cfg mod num_key_value_heads cfg) 0) as [Hr|]; [|done].
  destruct (Z.eqb_spec (head_dim cfg mod 2) 0) as [He|]; [|done].
  intros [= <-]. unfold n_rep.
  pose proof (Z.div_mod (hidden_size cfg) (num_attention_heads cfg) Hh).
  pose proof (Z.div_mod (num_attention_heads cfg) (num_key_value_heads cfg) Hk).
  unfold head_dim at 1. repeat split; [done|done|lia|lia|].
  by apply Z.mod_divide.
Qed.
