(* ===== verification/BlockManager.v ===== *)
(** * Paged KV cache (engine/block_manager.py)

    The reference-counted block allocator, the physical pool, one sequence's
    block table with copy-on-write, and the accounting snapshot.  The type [T]
    stands for one token's key (or value) slice, a [(heads, head_dim)] tensor;
    everything the code does to it is a copy. *)

From Stdlib Require Import ssreflect.
From stdpp Require Import prelude gmap gmultiset strings list.
From S2P Require Import Prelude Config.

Definition DEFAULT_BLOCK_SIZE : nat := 16.

(** ** BlockAllocator *)

Module BlockAllocator.

Record t := mk {
  num_blocks : nat;
  _free : list nat;  (* Python order: [pop] and [append] act on the end *)
  _refs : list nat;
}.

Definition init (num_blocks : nat) : t :=
  mk num_blocks (reversed (seq 0 num_blocks)) (replicate num_blocks 0).

Definition set_free (l : list nat) (a : t) : t := mk (num_blocks a) l (_refs a).
Definition set_refs (l : list nat) (a : t) : t := mk (num_blocks a) (_free a) l.

(** [self._refs[block]] as a read and as an assignment target. *)
Definition get_ref (block : nat) : M t nat := λ a,
  match _refs a !! block with
  | Some r => (Ok r, a)
  | None => (Raise IndexError, a)
  end.
Definition set_ref (block r : nat) : M t unit := λ a,
  if block <? length (_refs a) then (Ok tt, set_refs (<[block := r]> (_refs a)) a)
  else (Raise IndexError, a).

Definition allocate : M t (option nat) :=
  let* a := get in
  match py_pop (_free a) with
  | None => ret None
  | Some (block, rest) =>
      do* modify (set_free rest) in
      do* set_ref block 1 in
      ret (Some block)
  end.

Definition allocate_many (n : nat) : M t (option (list (option nat))) :=
  let* a := get in
  if length (_free a) <? n then ret None
  else let* blocks := for_list (seq 0 n) (λ _, allocate) in ret (Some blocks).

Definition incref (block : nat) : M t unit :=
  let* r := get_ref block in
  if r <=? 0 then raise RuntimeError
  else set_ref block (r + 1).

Definition decref (block : nat) : M t bool :=
  let* r := get_ref block in
  if r <=? 0 then raise RuntimeError
  else
    do* set_ref block (r - 1) in
    let* r' := get_ref block in
    if r' =? 0 then
      do* modify (λ a, set_free (_free a ++ [block]) a) in
      ret true
    else ret false.

Definition ref_count (block : nat) : M t nat := get_ref block.

Definition num_free (a : t) : nat := length (_free a).
Definition num_allocated (a : t) : Z := Z.of_nat (num_blocks a) - Z.of_nat (length (_free a)).
Definition num_shared (a : t) : nat := length (filter (λ r, 1 < r) (_refs a)).

End BlockAllocator.

(** ** Physical storage and one sequence's view of it *)

Section storage.
Context {T : Type}.

(** [PagedCachePool]: [k] and [v] hold, per layer, one slice per slot. *)
Record Pool := mkPool {
  block_size : nat;
  num_hidden_layers : nat;
  allocator : BlockAllocator.t;
  pool_k : list (list T);
  pool_v : list (list T);
}.

(** [PagedKVCache]: the block table, and the physical slot of every position. *)
Record Cache := mkCache {
  block_table : list nat;
  num_tokens : nat;
  _start : nat;
  _slots : list nat;
}.

(** The state a cache method runs in: the shared pool and its own object. *)
Definition PC : Type := Pool * Cache.

Definition set_allocator (a : BlockAllocator.t) (p : Pool) : Pool :=
  mkPool (block_size p) (num_hidden_layers p) a (pool_k p) (pool_v p).
Definition set_k (k : list (list T)) (p : Pool) : Pool :=
  mkPool (block_size p) (num_hidden_layers p) (allocator p) k (pool_v p).
Definition set_v (v : list (list T)) (p : Pool) : Pool :=
  mkPool (block_size p) (num_hidden_layers p) (allocator p) (pool_k p) v.

Definition set_block_table (l : list nat) (c : Cache) : Cache :=
  mkCache l (num_tokens c) (_start c) (_slots c).
Definition set_num_tokens (n : nat) (c : Cache) : Cache :=
  mkCache (block_table c) n (_start c) (_slots c).
Definition set_start (n : nat) (c : Cache) : Cache :=
  mkCache (block_table c) (num_tokens c) n (_slots c).
Definition set_slots (l : list nat) (c : Cache) : Cache :=
  mkCache (block_table c) (num_tokens c) (_start c) l.

Definition on_allocator {A} (m : M BlockAllocator.t A) : M Pool A := zoom allocator set_allocator m.
Definition on_pool {A} (m : M Pool A) : M PC A := zoom fst (λ p s, (p, s.2)) m.
Definition on_cache {A} (m : M Cache A) : M PC A := zoom snd (λ c s, (s.1, c)) m.

(** [dst[d : d + n] = src], torch's slice assignment: the shapes must agree, or
    [src] must have one row to broadcast. *)
Definition slice_assign (dst : list T) (d n : nat) (src : list T) : result (list T) :=
  let target := take n (drop d dst) in
  if length src =? length target then Ok (take d dst ++ src ++ drop (d + length target) dst)
  else match src with
       | [x] => Ok (take d dst ++ replicate (length target) x ++ drop (d + length target) dst)
       | _ => Raise RuntimeError
       end.

(** [t[slots] = vals], torch's index assignment. *)
Definition index_assign (t : list T) (slots : list nat) (vals : list T) : result (list T) :=
  if forallb (λ i, i <? length t) slots then
    if length slots =? length vals then Ok (scatter t slots vals)
    else match vals with
         | [x] => Ok (scatter t slots (replicate (length slots) x))
         | _ => Raise RuntimeError
         end
  else Raise IndexError.

(** [buf[layer] = f(buf[layer])] for one of the two per-layer buffers. *)
Definition layer_update (buf : list (list T)) (layer : nat) (f : list T → result (list T)) :
    result (list (list T)) :=
  match buf !! layer with
  | None => Raise IndexError
  | Some t => match f t with
              | Ok t' => Ok (<[layer := t']> buf)
              | Raise e => Raise e
              end
  end.

Definition assign_k (f : list (list T) → result (list (list T))) : M Pool unit := λ p,
  match f (pool_k p) with
  | Ok b => (Ok tt, set_k b p)
  | Raise e => (Raise e, p)
  end.
Definition assign_v (f : list (list T) → result (list (list T))) : M Pool unit := λ p,
  match f (pool_v p) with
  | Ok b => (Ok tt, set_v b p)
  | Raise e => (Raise e, p)
  end.

(** [buf[layer][idx]]. *)
Definition gather (buf : list (list T)) (layer : nat) (idx : list nat) : M Pool (list T) :=
  match buf !! layer with
  | None => raise IndexError
  | Some t => match index_select t idx with
              | None => raise IndexError
              | Some r => ret r
              end
  end.

End storage.
Arguments Pool : clear implicits.
Arguments PC : clear implicits.

(** ** PagedCachePool: storage operations *)

Module PagedCachePool.
Section pool.
Context {T : Type} (zero : T).

(** [__init__]: [num_hidden_layers] zero-filled buffers over
    [num_blocks * block_size] slots. *)
Definition init (n_layers num_blocks block_size : nat) : Pool T :=
  let n_slots := num_blocks * block_size in
  mkPool block_size n_layers (BlockAllocator.init num_blocks)
    (replicate n_layers (replicate n_slots zero))
    (replicate n_layers (replicate n_slots zero)).

Definition copy_block (src dst : nat) : M (Pool T) unit :=
  let* p := get in
  let bs := block_size p in
  let s := src * bs in
  let d := dst * bs in
  for_each (seq 0 (num_hidden_layers p)) (λ layer,
    do* assign_k (λ b, layer_update b layer (λ t, slice_assign t d bs (take bs (drop s t)))) in
    assign_v (λ b, layer_update b layer (λ t, slice_assign t d bs (take bs (drop s t))))).

Definition can_fit (n_tokens : nat) (p : Pool T) : bool :=
  let needed := ceil_div n_tokens (block_size p) in
  needed <=? BlockAllocator.num_free (allocator p).

Definition reset : M (Pool T) unit :=
  modify (λ p, set_allocator (BlockAllocator.init (BlockAllocator.num_blocks (allocator p))) p).

End pool.
End PagedCachePool.

(** ** PagedKVCache *)

Module PagedKVCache.
Section cache.
Context {T : Type}.

Definition init : Cache := mkCache [] 0 0 [].

Definition num_blocks (c : Cache) : nat := length (block_table c).

Definition _append_block (block : nat) : M (PC T) unit :=
  let* (p, c) := get in
  let bs := block_size p in
  let base := block * bs in
  let slots := seq base bs in
  do* on_cache (modify (λ c, set_slots (_slots c ++ slots) c)) in
  on_cache (modify (λ c, set_block_table (block_table c ++ [block]) c)).

Definition _ensure_capacity (n_new : nat) : M (PC T) unit :=
  let* (p, c) := get in
  let bs := block_size p in
  let needed := ceil_div (num_tokens c + n_new) bs in
  for_each (seq 0 (needed - length (block_table c))) (λ _,
    let* block := on_pool (on_allocator BlockAllocator.allocate) in
    match block with
    | None => raise OutOfBlocks
    | Some block => _append_block block
    end).

(** [l[-1] = x] and [l[-n:] = vals]. *)
Definition set_last (x : nat) (l : list nat) : list nat := take (length l - 1) l ++ [x].
Definition set_tail (n : nat) (vals l : list nat) : list nat := take (length l - n) l ++ vals.

Definition _unshare_tail : M (PC T) unit :=
  let* (p, c) := get in
  match last (block_table c) with
  | None => ret tt
  | Some tail =>
      let* r := on_pool (on_allocator (BlockAllocator.ref_count tail)) in
      if r <=? 1 then ret tt
      else
        let* fresh := on_pool (on_allocator BlockAllocator.allocate) in
        match fresh with
        | None => raise OutOfBlocks
        | Some fresh =>
            do* on_pool (PagedCachePool.copy_block tail fresh) in
            do* on_pool (on_allocator (BlockAllocator.decref tail)) in
            do* on_cache (modify (λ c, set_block_table (set_last fresh (block_table c)) c)) in
            let bs := block_size p in
            let base := fresh * bs in
            on_cache (modify (λ c, set_slots (set_tail bs (seq base bs) (_slots c)) c))
        end
  end.

(** [update] in its two halves: the position advances on layer 0 only ... *)
Definition update_begin (n : nat) : M (PC T) unit :=
  do* on_cache (modify (λ c, set_start (num_tokens c) c)) in
  let* (p, c) := get in
  do* (if negb (num_tokens c mod block_size p =? 0) then _unshare_tail else ret tt) in
  do* _ensure_capacity n in
  on_cache (modify (λ c, set_num_tokens (num_tokens c + n) c)).

(** ... and every layer scatters its rows and gathers the whole sequence. *)
Definition update_write (layer_idx : nat) (k v : list T) : M (PC T) (list T * list T) :=
  let n := length k in
  let* (_, c) := get in
  let start := _start c in
  let end_ := _start c + n in
  let slots := take (end_ - start) (drop start (_slots c)) in
  do* on_pool (assign_k (λ b, layer_update b layer_idx (λ t, index_assign t slots k))) in
  do* on_pool (assign_v (λ b, layer_update b layer_idx (λ t, index_assign t slots v))) in
  let live := take end_ (_slots c) in
  let* (p, _) := get in
  let* kk := on_pool (gather (pool_k p) layer_idx live) in
  let* vv := on_pool (gather (pool_v p) layer_idx live) in
  ret (kk, vv).

Definition update (layer_idx : nat) (k v : list T) : M (PC T) (list T * list T) :=
  let n := length k in
  do* (if layer_idx =? 0 then update_begin n else ret tt) in
  update_write layer_idx k v.

(** [fork] returns the child; the parent object is unchanged. *)
Definition fork : M (PC T) Cache :=
  let* (_, c) := get in
  do* for_each (block_table c) (λ block, on_pool (on_allocator (BlockAllocator.incref block))) in
  ret (mkCache (block_table c) (num_tokens c) 0 (_slots c)).

Definition free : M (PC T) unit :=
  let* (_, c) := get in
  do* for_each (block_table c) (λ block,
        do* on_pool (on_allocator (BlockAllocator.decref block)) in ret tt) in
  on_cache (modify (λ c, mkCache [] 0 (_start c) [])).

End cache.
End PagedKVCache.

(** [PagedCachePool.allocate]: a fresh sequence, or [None] when no block is free. *)
Definition pool_allocate {T} (p : Pool T) : option Cache :=
  if BlockAllocator.num_free (allocator p) =? 0 then None else Some PagedKVCache.init.

(** ** Accounting *)

Record BlockStats := mkBlockStats {
  bst_total : Z;
  bst_allocated : Z;
  bst_block_size : Z;
  bst_tokens_used : Z;
  bst_shared : Z;
  bst_bytes_per_token : Z;
}.

Definition bst_free (s : BlockStats) : Z := bst_total s - bst_allocated s.
Definition bst_tokens_allocated (s : BlockStats) : Z := bst_allocated s * bst_block_size s.
Definition bst_internal_fragmentation (s : BlockStats) : Z :=
  Z.max 0 (bst_tokens_allocated s - bst_tokens_used s).
Definition bst_external_fragmentation (s : BlockStats) : Z := 0.

(** [bytes_per_token] and [total_bytes] of a pool built for [cfg] with a dtype of
    [itemsize] bytes. *)
Definition bytes_per_token (cfg : NanoConfig) (itemsize : Z) : Z :=
  let per_layer := (2 * num_key_value_heads cfg * head_dim cfg)%Z in
  (per_layer * Config.num_hidden_layers cfg * itemsize)%Z.
Definition total_bytes {T} (cfg : NanoConfig) (itemsize : Z) (p : Pool T) : Z :=
  (Z.of_nat (BlockAllocator.num_blocks (allocator p)) * Z.of_nat (block_size p)
   * bytes_per_token cfg itemsize)%Z.

Definition stats {T} (cfg : NanoConfig) (itemsize : Z) (tokens_used : Z) (p : Pool T) : BlockStats :=
  mkBlockStats (Z.of_nat (BlockAllocator.num_blocks (allocator p)))
    (BlockAllocator.num_allocated (allocator p)) (Z.of_nat (block_size p)) tokens_used
    (Z.of_nat (BlockAllocator.num_shared (allocator p))) (bytes_per_token cfg itemsize).

Definition blocks_for_budget (cfg : NanoConfig) (budget_bytes : Z) (block_size : Z) (itemsize : Z) : Z :=
  let per_layer := (2 * num_key_value_heads cfg * head_dim cfg)%Z in
  let bpt := (per_layer * Config.num_hidden_layers cfg * itemsize)%Z in
  Z.max 0 (budget_bytes / (bpt * block_size)).

(** * Theorems *)

(** ** The allocator against a multiset of references

    [accounted a X]: the allocator's books agree with [X], the multiset of all
    block references held outside it.  Every lemma below says how an operation
    changes [X]; well-formedness of the free list is a consequence. *)

Record accounted (a : BlockAllocator.t) (X : gmultiset nat) : Prop := {
  acc_len : length (BlockAllocator._refs a) = BlockAllocator.num_blocks a;
  acc_nodup : NoDup (BlockAllocator._free a);
  acc_free b : b ∈ BlockAllocator._free a ↔ b < BlockAllocator.num_blocks a ∧ b ∉ X;
  acc_refs b : b < BlockAllocator.num_blocks a →
    BlockAllocator._refs a !! b = Some (multiplicity b X);
  acc_bound b : b ∈ X → b < BlockAllocator.num_blocks a;
}.

Section allocator.
Import BlockAllocator.
Implicit Types (a : t) (X : gmultiset nat) (b : nat).

Lemma accounted_init n : accounted (init n) ∅.
Proof.
  split; simpl.
  - by rw length_replicate.
  - rw /reversed. apply NoDup_ListNoDup, NoDup_rev, NoDup_ListNoDup, NoDup_seq.
  - intros b. rw /reversed list_elem_of_In -in_rev -list_elem_of_In elem_of_seq.
    multiset_solver.
  - intros b Hb. rw multiplicity_empty. by apply lookup_replicate_2.
  - multiset_solver.
Qed.

Lemma acc_ref_bound a X b r : accounted a X → _refs a !! b = Some r → b < num_blocks a ∧ r = multiplicity b X.
Proof.
  intros HA Hb. assert (b < num_blocks a) as Hlt.
  { rw -(acc_len _ _ HA). by eapply lookup_lt_Some. }
  split; [done|]. rw (acc_refs _ _ HA _ Hlt) in Hb. by simplify_eq.
Qed.

Lemma acc_lookup a X b : accounted a X → b ∈ X → _refs a !! b = Some (multiplicity b X).
Proof. intros HA Hb. by apply (acc_refs _ _ HA), (acc_bound _ _ HA). Qed.

Lemma get_ref_spec a X b Q E :
  accounted a X → b ∈ X → Q (multiplicity b X) a → wp (get_ref b) Q E a.
Proof. intros HA Hb HQ. by rw /wp /get_ref (acc_lookup _ _ _ HA Hb). Qed.

Lemma set_ref_spec a X b r Q E :
  accounted a X → b < num_blocks a →
  Q tt (set_refs (<[b := r]> (_refs a)) a) → wp (set_ref b r) Q E a.
Proof.
  intros HA Hb HQ. rw /wp /set_ref. rw -(acc_len _ _ HA) in Hb.
  by destruct (Nat.ltb_spec b (length (_refs a))); [|lia].
Qed.

(** [allocate] hands out a block nobody holds, or reports an empty free list. *)
Lemma allocate_spec a X :
  accounted a X →
  wp allocate (λ o a', match o with
                       | None => a' = a ∧ _free a = []
                       | Some b => accounted a' ({[+ b +]} ⊎ X) ∧ b ∉ X ∧
                                   b < num_blocks a ∧ num_blocks a' = num_blocks a ∧
                                   S (num_free a') = num_free a
                       end) never a.
Proof.
  intros HA. rw /allocate. wp_step. wp_step.
  destruct (py_pop (_free a)) as [[b rest]|] eqn:E; last first.
  { apply py_pop_None in E. by wp_step. }
  apply py_pop_Some in E. assert (b ∈ _free a) as Hb by (rw E; set_solver).
  apply (acc_free _ _ HA) in Hb as [Hlt HbX].
  pose proof (acc_nodup _ _ HA) as Hnd. rw E NoDup_app in Hnd.
  destruct Hnd as (Hnd & Hdisj & _).
  do 3 wp_step. rw /wp /set_ref /=.
  destruct (Nat.ltb_spec b (length (_refs a))) as [|Hge]; last first.
  { rw (acc_len _ _ HA) in Hge. lia. }
  simpl. split_and!; [split; simpl|done|done|done|].
  - rw length_insert. by apply acc_len in HA.
  - done.
  - intros b'. pose proof (acc_free _ _ HA b') as Hf. rw E in Hf.
    assert (b' ∈ rest → b' ≠ b) by (intros ? ->; by eapply Hdisj; [done|constructor]).
    destruct (decide (b' = b)); [|]; set_unfold; multiset_solver.
  - intros b' Hb'. destruct (decide (b' = b)) as [->|Hne].
    + rw list_lookup_insert_eq //. f_equal.
      rw multiplicity_disj_union multiplicity_singleton_eq.
      apply not_elem_of_multiplicity in HbX. lia.
    + rw list_lookup_insert_ne //. rw (acc_refs _ _ HA _ Hb').
      rw multiplicity_disj_union multiplicity_singleton_ne //.
  - intros b' [?%gmultiset_elem_of_singleton|]%gmultiset_elem_of_disj_union; [by subst|].
    by apply (acc_bound _ _ HA).
  - rw /num_free /= E length_app /=. lia.
Qed.

(** [incref] succeeds exactly on held blocks and adds one reference. *)
Lemma incref_spec a X b :
  accounted a X → b ∈ X →
  wp (incref b) (λ _ a', accounted a' ({[+ b +]} ⊎ X) ∧ num_blocks a' = num_blocks a ∧
                         _free a' = _free a) never a.
Proof.
  intros HA Hb. rw /incref. wp_step. eapply get_ref_spec; [done..|].
  assert (0 < multiplicity b X) by (by apply elem_of_multiplicity).
  destruct (Nat.leb_spec (multiplicity b X) 0); [lia|].
  eapply set_ref_spec; [done|by apply (acc_bound _ _ HA)|].
  split_and!; [split; simpl|done|done].
  - rw length_insert. by apply acc_len in HA.
  - by apply acc_nodup in HA.
  - intros b'. rw (acc_free _ _ HA b'). multiset_solver.
  - intros b' Hb'. destruct (decide (b' = b)) as [->|Hne].
    + rw list_lookup_insert_eq; [|by rw (acc_len _ _ HA)]. f_equal.
      rw multiplicity_disj_union multiplicity_singleton_eq. lia.
    + rw list_lookup_insert_ne // (acc_refs _ _ HA _ Hb').
      rw multiplicity_disj_union multiplicity_singleton_ne //.
  - intros b' [?%gmultiset_elem_of_singleton|]%gmultiset_elem_of_disj_union; [subst|];
      by apply (acc_bound _ _ HA).
Qed.

(** [decref] gives one reference back; the block is free exactly when it was the last. *)
Lemma decref_spec a X b :
  accounted a ({[+ b +]} ⊎ X) →
  wp (decref b) (λ r a', accounted a' X ∧ num_blocks a' = num_blocks a ∧
                         r = bool_decide (b ∉ X) ∧
                         _free a' = _free a ++ (if bool_decide (b ∉ X) then [b] else [])) never a.
Proof.
  intros HA. assert (b ∈ {[+ b +]} ⊎ X) as Hb by multiset_solver.
  pose proof (acc_bound _ _ HA _ Hb) as Hlt.
  rw /decref. wp_step. eapply get_ref_spec; [done..|].
  rw multiplicity_disj_union multiplicity_singleton_eq.
  destruct (Nat.leb_spec (1 + multiplicity b X) 0); [lia|].
  replace (1 + multiplicity b X - 1) with (multiplicity b X) by lia.
  wp_step. eapply set_ref_spec; [done..|]. wp_step.
  rw {1}/wp /get_ref /=. rw list_lookup_insert_eq; [|by rw (acc_len _ _ HA)].
  assert (∀ b', b' < num_blocks a →
    (<[b:=multiplicity b X]> (_refs a)) !! b' = Some (multiplicity b' X)) as Hrefs.
  { intros b' Hb'. destruct (decide (b' = b)) as [->|Hne].
    - rw list_lookup_insert_eq //. by rw (acc_len _ _ HA).
    - rw list_lookup_insert_ne // (acc_refs _ _ HA _ Hb').
      rw multiplicity_disj_union multiplicity_singleton_ne //. }
  destruct (Nat.eqb_spec (multiplicity b X) 0) as [Hz|Hz].
  - assert (b ∉ X) as HbX by (by apply not_elem_of_multiplicity).
    wp_step. wp_step. wp_step. rw bool_decide_true //.
    split_and!; [split; simpl|done|done|done].
    + rw length_insert. by apply acc_len in HA.
    + apply NoDup_app; split_and!; [by eapply acc_nodup|..|apply NoDup_singleton].
      intros x Hx%(acc_free _ _ HA) ->%list_elem_of_singleton. multiset_solver.
    + intros b'. rw elem_of_app list_elem_of_singleton (acc_free _ _ HA b').
      destruct (decide (b' = b)); multiset_solver.
    + exact Hrefs.
    + intros b' ?. apply (acc_bound _ _ HA). multiset_solver.
  - assert (b ∈ X) by (apply elem_of_multiplicity; lia).
    wp_step. rw bool_decide_false; [|tauto]. rw app_nil_r.
    split_and!; [split; simpl|done|done|done].
    + rw length_insert. by apply acc_len in HA.
    + by eapply acc_nodup.
    + intros b'. rw (acc_free _ _ HA b'). multiset_solver.
    + exact Hrefs.
    + intros b' ?. apply (acc_bound _ _ HA). multiset_solver.
Qed.

(** Conservation: every block is either on the free list or held by somebody. *)
Lemma accounted_num_free a X :
  accounted a X → num_free a + size (dom X : gset nat) = num_blocks a.
Proof.
  intros HA. rw /num_free -(size_list_to_set (C:=gset nat) (_free a)); [|by eapply acc_nodup].
  rw -size_union; last first.
  { intros b Hb%elem_of_list_to_set%(acc_free _ _ HA) Hx%gmultiset_elem_of_dom. tauto. }
  replace (list_to_set (_free a) ∪ dom X) with (set_seq 0 (num_blocks a) : gset nat).
  { apply size_set_seq. }
  apply set_eq. intros b.
  rw elem_of_union elem_of_list_to_set (acc_free _ _ HA) gmultiset_elem_of_dom elem_of_set_seq.
  pose proof (acc_bound _ _ HA b). destruct (decide (b ∈ X)); lia || tauto || naive_solver lia.
Qed.

Lemma allocate_loop_spec n : ∀ a X,
  accounted a X → n ≤ num_free a →
  ∀ (l : list nat), length l = n →
  wp (for_list l (λ _, allocate))
     (λ os a', ∃ bs, os = Some <$> bs ∧ length bs = n ∧ NoDup bs ∧ (∀ b, b ∈ bs → b ∉ X) ∧
        accounted a' (list_to_set_disj bs ⊎ X) ∧ num_blocks a' = num_blocks a ∧
        num_free a' + n = num_free a) never a.
Proof.
  induction n as [|n IH]; intros a X HA Hn [|x l] Hl; try done.
  { wp_step. exists []. rw gmultiset_disj_union_left_id. split_and!; [done..|constructor|set_solver|done|done|lia]. }
  wp_step. eapply wp_mono; [by apply allocate_spec|..|done].
  intros [b|] a1; last by (rw /num_free; intros [_ Hf]; rw /num_free Hf /= in Hn; lia).
  intros (HA1 & Hb & _ & Hnb & Hf). wp_step. simpl in Hl.
  eapply wp_mono; [apply (IH a1 _ HA1 ltac:(lia) l ltac:(lia))|..|done].
  intros os a2 (bs & -> & Hlen & Hnd & Hfresh & HA2 & Hnb2 & Hf2). wp_step.
  exists (b :: bs). split_and!; [done|simpl; lia| |..].
  - constructor; [|done]. intros Hin%Hfresh. multiset_solver.
  - intros b' [->|Hin%Hfresh]%elem_of_cons; multiset_solver.
  - rw list_to_set_disj_cons.
    by replace ({[+ b +]} ⊎ list_to_set_disj bs ⊎ X) with (list_to_set_disj bs ⊎ ({[+ b +]} ⊎ X))
      by multiset_solver.
  - congruence.
  - lia.
Qed.

Lemma incref_loop_spec l : ∀ a X,
  accounted a X → (∀ b, b ∈ l → b ∈ X) →
  wp (for_each l incref)
     (λ _ a', accounted a' (list_to_set_disj l ⊎ X) ∧ num_blocks a' = num_blocks a ∧
        _free a' = _free a) never a.
Proof.
  induction l as [|b l IH]; intros a X HA Hl.
  { wp_step. by rw gmultiset_disj_union_left_id. }
  wp_step. eapply wp_mono; [apply incref_spec; [done|by apply Hl; left]|..|done].
  intros _ a1 (HA1 & Hn & Hf). eapply wp_mono; [apply (IH a1 _ HA1)|..|done].
  { intros b' Hb'. apply gmultiset_elem_of_disj_union. right. apply Hl. by right. }
  intros _ a2 (HA2 & Hn2 & Hf2). rw list_to_set_disj_cons. split_and!; [|congruence..].
  by replace ({[+ b +]} ⊎ list_to_set_disj l ⊎ X) with (list_to_set_disj l ⊎ ({[+ b +]} ⊎ X))
    by multiset_solver.
Qed.

Lemma decref_loop_spec l : ∀ a X,
  accounted a (list_to_set_disj l ⊎ X) →
  wp (for_each l (λ b, do* decref b in ret tt))
     (λ _ a', accounted a' X ∧ num_blocks a' = num_blocks a) never a.
Proof.
  induction l as [|b l IH]; intros a X HA.
  { wp_step. by rw gmultiset_disj_union_left_id in HA. }
  rw list_to_set_disj_cons -assoc in HA. wp_step. wp_step.
  eapply wp_mono; [by apply decref_spec|..|done]. intros r a1 (HA1 & Hn & _). wp_step.
  eapply wp_mono; [by apply IH|..|done]. intros _ a2 [? ?]. split; [done|congruence].
Qed.
End allocator.

(** ** Well-formed pools and block tables *)

(** The physical slots of a block table, in token order. *)
Definition slots_of (bs : nat) (table : list nat) : list nat := table ≫= λ b, seq (b * bs) bs.

Record pool_wf {T} (p : Pool T) : Prop := {
  pwf_bs : 0 < block_size p;
  pwf_k : length (pool_k p) = num_hidden_layers p;
  pwf_v : length (pool_v p) = num_hidden_layers p;
  pwf_k_len l t : pool_k p !! l = Some t →
    length t = BlockAllocator.num_blocks (allocator p) * block_size p;
  pwf_v_len l t : pool_v p !! l = Some t →
    length t = BlockAllocator.num_blocks (allocator p) * block_size p;
}.

(** The pool together with one cache and [Y], the references everybody else holds. *)
Record owned {T} (s : PC T) (Y : gmultiset nat) : Prop := {
  own_wf : pool_wf s.1;
  own_acc : accounted (allocator s.1) (list_to_set_disj (block_table s.2) ⊎ Y);
  own_slots : _slots s.2 = slots_of (block_size s.1) (block_table s.2);
}.

(** No block beyond the ones the tokens need: what holds between operations. *)
Definition tight {T} (s : PC T) : Prop :=
  length (block_table s.2) = ceil_div (num_tokens s.2) (block_size s.1).

Section slots.
Implicit Types (bs : nat) (table : list nat).

Lemma length_slots_of bs table : length (slots_of bs table) = length table * bs.
Proof.
  induction table as [|b l IH]; [done|]. unfold slots_of in *.
  rw bind_cons length_app length_seq IH /=. lia.
Qed.

Lemma slots_of_app bs t1 t2 : slots_of bs (t1 ++ t2) = slots_of bs t1 ++ slots_of bs t2.
Proof. apply bind_app. Qed.

Lemma slots_of_singleton bs b : slots_of bs [b] = seq (b * bs) bs.
Proof. rw /slots_of /=. apply app_nil_r. Qed.

Lemma slots_of_lookup bs table i s :
  0 < bs → slots_of bs table !! i = Some s →
  ∃ b, table !! (i / bs) = Some b ∧ s = b * bs + i mod bs.
Proof.
  intros Hbs. revert i. induction table as [|b l IH]; intros i; [done|].
  rw /slots_of bind_cons. destruct (decide (i < bs)) as [Hi|Hi].
  - rw lookup_app_l; [|by rw length_seq]. rw lookup_seq. intros [-> _].
    exists b. rw Nat.div_small // Nat.mod_small //.
  - rw lookup_app_r length_seq; [|lia]. intros (b' & Hb' & ->)%IH.
    exists b'. replace i with ((i - bs) + 1 * bs) at 1 3 by lia.
    rw Nat.div_add; [|lia]. rw Nat.Div0.mod_add. split; [|done].
    by rw Nat.add_comm.
Qed.

Lemma slots_of_block bs table s :
  0 < bs → s ∈ slots_of bs table → s / bs ∈ table.
Proof.
  intros Hbs (i & Hi)%list_elem_of_lookup.
  apply slots_of_lookup in Hi as (b & Hb & ->); [|done].
  rw Nat.div_add_l; [|lia]. rw (Nat.div_small (i mod bs)); [|by apply Nat.mod_upper_bound; lia].
  rw Nat.add_0_r. by eapply list_elem_of_lookup_2.
Qed.

Lemma slot_block bs b i : 0 < bs → (b * bs + i mod bs) / bs = b.
Proof.
  intros Hbs. rw Nat.div_add_l; [|lia].
  rw (Nat.div_small (i mod bs)); [lia|apply Nat.mod_upper_bound; lia].
Qed.

(** A slot of a singly referenced block has one position. *)
Lemma slots_of_inj bs table i i' a b :
  0 < bs → slots_of bs table !! i = Some a → slots_of bs table !! i' = Some a →
  table !! (i / bs) = Some b → multiplicity b (list_to_set_disj table : gmultiset nat) ≤ 1 → i = i'.
Proof.
  intros Hbs Hi Hi' Hb Hm.
  apply slots_of_lookup in Hi as (b1 & Hb1 & ->); [|done]. rw Hb in Hb1. simplify_eq.
  apply slots_of_lookup in Hi' as (b2 & Hb2 & Heq); [|done].
  assert (b2 = b1) as -> by (by rw -(slot_block bs b1 i) // Heq slot_block).
  pose proof (multiplicity_1_index b1 table _ _ Hm Hb Hb2).
  pose proof (Nat.div_mod_eq i bs). pose proof (Nat.div_mod_eq i' bs). nia.
Qed.

Lemma slots_of_NoDup bs table : 0 < bs → NoDup table → NoDup (slots_of bs table).
Proof.
  intros Hbs. induction 1 as [|b l Hb Hl IH]; [constructor|].
  rw /slots_of bind_cons NoDup_app. split_and!; [apply NoDup_seq| |done].
  intros s Hs Hs'. apply elem_of_seq in Hs. apply (slots_of_block bs l) in Hs'; [|done].
  replace (s / bs) with b in Hs'; [done|].
  apply Nat.div_unique with (s - b * bs); lia.
Qed.

Lemma slots_of_cons bs b table : slots_of bs (b :: table) = seq (b * bs) bs ++ slots_of bs table.
Proof. done. Qed.

Lemma slots_of_take bs table j : take (j * bs) (slots_of bs table) = slots_of bs (take j table).
Proof.
  revert j. induction table as [|b l IH]; intros [|j]; try by rw ?take_nil.
  rw firstn_cons !slots_of_cons take_app_ge length_seq; [|lia].
  replace (S j * bs - bs) with (j * bs) by lia. by rw IH.
Qed.

Lemma slots_of_drop bs table j : drop (j * bs) (slots_of bs table) = slots_of bs (drop j table).
Proof.
  revert j. induction table as [|b l IH]; intros [|j]; try by rw ?drop_nil.
  rw skipn_cons slots_of_cons drop_app_ge length_seq; [|lia].
  replace (S j * bs - bs) with (j * bs) by lia. by rw IH.
Qed.
End slots.

(** ** Copying a block *)

Section copy.
Context {T : Type}.

(** The effect of [copy_block] on one buffer row. *)
Definition copied (bs src dst : nat) (t : list T) : list T :=
  take (dst * bs) t ++ take bs (drop (src * bs) t) ++ drop (dst * bs + bs) t.

Lemma length_take_drop_in (t : list T) n bs b :
  length t = n * bs → b < n → length (take bs (drop (b * bs) t)) = bs.
Proof. intros Ht Hb. rw length_take length_drop. nia. Qed.

Lemma slice_assign_copied (t : list T) n bs src dst :
  length t = n * bs → src < n → dst < n →
  slice_assign t (dst * bs) bs (take bs (drop (src * bs) t)) = Ok (copied bs src dst t).
Proof.
  intros Ht Hs Hd. unfold slice_assign.
  rw !(length_take_drop_in t n bs) // Nat.eqb_refl. done.
Qed.

Lemma length_copied (t : list T) n bs src dst :
  length t = n * bs → src < n → dst < n → length (copied bs src dst t) = length t.
Proof.
  intros Ht Hs Hd. rw /copied !length_app (length_take_drop_in t n) // length_take length_drop. nia.
Qed.

Lemma copied_lookup_ne (t : list T) n bs src dst s :
  0 < bs → length t = n * bs → src < n → dst < n →
  s / bs ≠ dst → copied bs src dst t !! s = t !! s.
Proof.
  intros Hbs Ht Hs Hd Hne. rw /copied.
  pose proof (Nat.div_mod_eq s bs). pose proof (Nat.mod_upper_bound s bs ltac:(lia)).
  destruct (decide (s < dst * bs)) as [Hlt|Hge].
  { rw lookup_app_l; [|rw length_take; nia]. by rw lookup_take_lt. }
  assert (dst < s / bs) by nia.
  rw lookup_app_r length_take; [|nia]. rw lookup_app_r (length_take_drop_in t n) //; [|nia].
  rw lookup_drop. f_equal. nia.
Qed.

Lemma copied_lookup_eq (t : list T) n bs src dst i :
  0 < bs → length t = n * bs → src < n → dst < n → i < bs →
  copied bs src dst t !! (dst * bs + i) = t !! (src * bs + i).
Proof.
  intros Hbs Ht Hs Hd Hi. rw /copied.
  rw lookup_app_r length_take; [|nia]. rw lookup_app_l; [|rw (length_take_drop_in t n) //; nia].
  replace (dst * bs + i - (dst * bs) `min` length t) with i by nia.
  by rw lookup_take_lt // lookup_drop.
Qed.

Lemma layer_update_ok (buf : list (list T)) layer t f t' :
  buf !! layer = Some t → f t = Ok t' → layer_update buf layer f = Ok (<[layer := t']> buf).
Proof. intros Hb Hf. by rw /layer_update Hb Hf. Qed.

(** Updating every row from [i] on, as the layer loop does. *)
Definition map_from (i : nat) (f : list T → list T) (buf : list (list T)) : list (list T) :=
  take i buf ++ (f <$> drop i buf).

Lemma map_from_0 f (buf : list (list T)) : map_from 0 f buf = f <$> buf.
Proof. done. Qed.

Lemma map_from_end f (buf : list (list T)) i : length buf ≤ i → map_from i f buf = buf.
Proof. intros. rw /map_from take_ge // drop_ge // app_nil_r. done. Qed.

Lemma map_from_S f (buf : list (list T)) i t :
  buf !! i = Some t → map_from (S i) f (<[i := f t]> buf) = map_from i f buf.
Proof.
  intros Hi. pose proof (lookup_lt_Some _ _ _ Hi). rw /map_from (drop_S buf t i) //.
  rw (take_S_r _ _ (f t)); [|by apply list_lookup_insert_eq].
  rw take_insert_ge // drop_insert_lt; [|lia]. by rw -assoc.
Qed.

(** [copy_block] copies block [src] onto block [dst] in every layer and never raises. *)
Lemma copy_block_spec (p : Pool T) src dst :
  pool_wf p → src < BlockAllocator.num_blocks (allocator p) →
  dst < BlockAllocator.num_blocks (allocator p) →
  wp (PagedCachePool.copy_block src dst)
     (λ _ p', p' = set_v (copied (block_size p) src dst <$> pool_v p)
                     (set_k (copied (block_size p) src dst <$> pool_k p) p)) never p.
Proof.
  intros Hwf Hs Hd. rw /PagedCachePool.copy_block. wp_step. wp_step.
  set (f := copied (block_size p) src dst).
  eapply wp_mono.
  - apply (wp_for_each (λ ls p', ∃ i, ls = seq i (num_hidden_layers p - i) ∧
        i ≤ num_hidden_layers p ∧ block_size p' = block_size p ∧
        num_hidden_layers p' = num_hidden_layers p ∧ allocator p' = allocator p ∧
        pool_wf p' ∧
        map_from i f (pool_k p') = f <$> pool_k p ∧ map_from i f (pool_v p') = f <$> pool_v p)).
    + exists 0. rw Nat.sub_0_r. split_and!; auto; lia.
    + intros l ls p' (i & Hls & Hi & Hbs & HL & Ha & Hwf' & Hk & Hv).
      destruct (num_hidden_layers p - i) as [|m] eqn:Hm; [done|]. simpl in Hls. simplify_eq.
      destruct (lookup_lt_is_Some_2 (pool_k p') i) as [tk Htk]; [by rw (pwf_k _ Hwf'); lia|].
      destruct (lookup_lt_is_Some_2 (pool_v p') i) as [tv Htv]; [by rw (pwf_v _ Hwf'); lia|].
      pose proof (pwf_k_len _ Hwf' _ _ Htk) as Hlk. pose proof (pwf_v_len _ Hwf' _ _ Htv) as Hlv.
      rw Ha Hbs in Hlk. rw Ha Hbs in Hlv.
      apply wp_bind. rw {1}/wp /assign_k.
      rw (layer_update_ok _ _ _ _ _ Htk (slice_assign_copied _ _ _ _ _ Hlk Hs Hd)).
      rw {1}/wp /assign_v /=.
      rw (layer_update_ok _ _ _ _ _ Htv (slice_assign_copied _ _ _ _ _ Hlv Hs Hd)).
      exists (S i). split_and!; simpl; auto; [f_equal; lia|lia| | |].
      * pose proof (pwf_bs _ Hwf'). split; simpl; [done|by rw length_insert (pwf_k _ Hwf')|
          by rw length_insert (pwf_v _ Hwf')| |];
        intros l t [(<- & <- & _)|[_ ?]]%list_lookup_insert_Some;
        rw ?(length_copied _ _ _ _ _ Hlk Hs Hd) ?(length_copied _ _ _ _ _ Hlv Hs Hd) ?Hlk ?Hlv ?Ha ?Hbs //.
        -- rw (pwf_k_len _ Hwf' _ _ H0). by rw Ha Hbs.
        -- rw (pwf_v_len _ Hwf' _ _ H0). by rw Ha Hbs.
      * by rw (map_from_S f _ _ tk).
      * by rw (map_from_S f _ _ tv).
  - intros _ p' (i & Hls & Hi & Hbs & HL & Ha & Hwf' & Hk & Hv).
    assert (i = num_hidden_layers p) as -> by (destruct (num_hidden_layers p - i) eqn:?; [lia|done]).
    rw map_from_end in Hk; [|by rw (pwf_k _ Hwf'); lia].
    rw map_from_end in Hv; [|by rw (pwf_v _ Hwf'); lia].
    destruct p'. simpl in *. rw /set_v /set_k /=. by subst.
  - done.
Qed.
End copy.

(** ** Growing and un-sharing a block table *)

(** The storage half of a pool is untouched by allocator bookkeeping. *)
Definition same_storage {T} (p p' : Pool T) : Prop :=
  block_size p' = block_size p ∧ num_hidden_layers p' = num_hidden_layers p ∧
  pool_k p' = pool_k p ∧ pool_v p' = pool_v p ∧
  BlockAllocator.num_blocks (allocator p') = BlockAllocator.num_blocks (allocator p).

Lemma same_storage_wf {T} (p p' : Pool T) : same_storage p p' → pool_wf p → pool_wf p'.
Proof.
  intros (Hb & Hl & Hk & Hv & Hn) []. split; rw ?Hb ?Hl ?Hk ?Hv ?Hn //.
Qed.

Lemma same_storage_refl {T} (p : Pool T) : same_storage p p.
Proof. done. Qed.

Lemma same_storage_trans {T} (p1 p2 p3 : Pool T) :
  same_storage p1 p2 → same_storage p2 p3 → same_storage p1 p3.
Proof. unfold same_storage. intros (?&?&?&?&?) (?&?&?&?&?). split_and!; congruence. Qed.

Section growth.
Context {T : Type}.
Implicit Types (p : Pool T) (c : Cache) (s : PC T) (Y X : gmultiset nat).

Lemma owned_wf p c Y : owned (p, c) Y → pool_wf p.
Proof. apply own_wf. Qed.

(** Allocating one block from inside a cache method. *)
Lemma cache_allocate_spec s X :
  accounted (allocator s.1) X →
  wp (on_pool (on_allocator BlockAllocator.allocate))
     (λ o s', s'.2 = s.2 ∧ same_storage s.1 s'.1 ∧
        match o with
        | None => s' = s ∧ BlockAllocator.num_free (allocator s.1) = 0
        | Some b => accounted (allocator s'.1) ({[+ b +]} ⊎ X) ∧ b ∉ X ∧
            b < BlockAllocator.num_blocks (allocator s.1) ∧
            S (BlockAllocator.num_free (allocator s'.1)) = BlockAllocator.num_free (allocator s.1)
        end) never s.
Proof.
  intros HA. destruct s as [p c]. rw /on_pool /on_allocator. do 2 wp_step.
  eapply wp_mono; [by apply allocate_spec|..|done].
  intros [b|] a'; simpl.
  - intros (HA' & Hb & Hlt & Hn & Hf). by split_and!.
  - intros [-> Hf]. destruct p. split_and!; [done|done|done|]. by rw /BlockAllocator.num_free Hf.
Qed.

Lemma append_block_spec s b (Q : unit → PC T → Prop) E :
  Q tt (s.1, mkCache (block_table s.2 ++ [b]) (num_tokens s.2) (_start s.2)
                (_slots s.2 ++ seq (b * block_size s.1) (block_size s.1))) →
  wp (PagedKVCache._append_block b) Q E s.
Proof. by destruct s as [p []]. Qed.

(** What [_ensure_capacity] and [_unshare_tail] leave alone. *)
Definition grown s s' (news : list nat) : Prop :=
  same_storage s.1 s'.1 ∧
  block_table s'.2 = block_table s.2 ++ news ∧
  num_tokens s'.2 = num_tokens s.2 ∧ _start s'.2 = _start s.2.

Lemma owned_append s s' Y b :
  owned s Y → same_storage s.1 s'.1 → s'.2 = s.2 →
  accounted (allocator s'.1) ({[+ b +]} ⊎ (list_to_set_disj (block_table s.2) ⊎ Y)) →
  owned (s'.1, mkCache (block_table s.2 ++ [b]) (num_tokens s.2) (_start s.2)
                 (_slots s.2 ++ seq (b * block_size s'.1) (block_size s'.1))) Y.
Proof.
  intros HO Hst Hc HA. split; simpl.
  - eapply same_storage_wf; [done|apply HO].
  - rw list_to_set_disj_snoc.
    by replace ({[+ b +]} ⊎ list_to_set_disj (block_table s.2) ⊎ Y)
      with ({[+ b +]} ⊎ (list_to_set_disj (block_table s.2) ⊎ Y)) by multiset_solver.
  - rw slots_of_app slots_of_singleton (own_slots _ _ HO). by destruct Hst as (-> & _).
Qed.

Lemma grow_loop_spec s Y (l : list nat) :
  owned s Y →
  wp (for_each l (λ _,
        let* block := on_pool (on_allocator BlockAllocator.allocate) in
        match block with
        | None => raise OutOfBlocks
        | Some block => PagedKVCache._append_block block
        end))
     (λ _ s', owned s' Y ∧ ∃ news, grown s s' news ∧ length news = length l ∧ NoDup news ∧
        (∀ b, b ∈ news → b ∉ block_table s.2 ∧ b ∉ Y) ∧
        BlockAllocator.num_free (allocator s'.1) + length l = BlockAllocator.num_free (allocator s.1))
     (λ e s', e = OutOfBlocks ∧ owned s' Y ∧ ∃ news, grown s s' news ∧
        BlockAllocator.num_free (allocator s.1) < length l) s.
Proof.
  revert s. induction l as [|x l IH]; intros s HO.
  { wp_step. split; [done|]. exists []. rw /grown app_nil_r.
    split_and!; [apply same_storage_refl|done|done|done|done|constructor|set_solver|simpl; lia]. }
  wp_step. wp_step. eapply wp_mono; [by apply cache_allocate_spec, HO|..|done].
  intros [b|] s1 (Hc1 & Hst1 & Ho); last first.
  { destruct Ho as [-> Hf]. wp_step. split_and!; [done|done|]. exists [].
    rw /grown app_nil_r. split_and!; [apply same_storage_refl|done|done|done|simpl; lia]. }
  destruct Ho as (HA & Hb & Hlt & Hf).
  apply append_block_spec. eapply wp_mono.
  - apply IH. rw Hc1. by apply owned_append.
  - intros _ s2 (HO2 & news & (Hst2 & Htab & Hnt & Hs) & Hlen & Hnd & Hfresh & Hfree).
    simpl in *. split; [done|]. exists (b :: news). rw Hc1 in Htab, Hnt, Hs. simpl in *.
    rw /grown. split_and!.
    + by eapply same_storage_trans.
    + rw Htab -assoc //.
    + done.
    + done.
    + lia.
    + constructor; [|done]. intros Hin. destruct (Hfresh _ Hin) as [Hn _]. apply Hn.
      apply elem_of_app. right. by left.
    + intros b' [->|Hin]%elem_of_cons.
      * rw gmultiset_elem_of_disj_union elem_of_list_to_set_disj in Hb. tauto.
      * destruct (Hfresh _ Hin) as [Hn ?]. rw Hc1 elem_of_app in Hn. tauto.
    + lia.
  - intros e s2 (-> & HO2 & news & (Hst2 & Htab & Hnt & Hs) & Hfree). simpl in *.
    split_and!; [done|done|]. exists (b :: news). rw Hc1 in Htab, Hnt, Hs.
    rw /grown. split_and!; [by eapply same_storage_trans|by rw Htab -assoc|done|done|lia].
Qed.

(** [_ensure_capacity]: exactly the missing blocks are taken, all fresh; it
    raises only when the free list is shorter than what is missing. *)
Lemma ensure_capacity_spec s Y n :
  owned s Y →
  let missing := ceil_div (num_tokens s.2 + n) (block_size s.1) - length (block_table s.2) in
  wp (PagedKVCache._ensure_capacity n)
     (λ _ s', owned s' Y ∧ ∃ news, grown s s' news ∧ length news = missing ∧ NoDup news ∧
        (∀ b, b ∈ news → b ∉ block_table s.2 ∧ b ∉ Y) ∧
        BlockAllocator.num_free (allocator s'.1) + missing = BlockAllocator.num_free (allocator s.1))
     (λ e s', e = OutOfBlocks ∧ owned s' Y ∧ ∃ news, grown s s' news ∧
        BlockAllocator.num_free (allocator s.1) < missing) s.
Proof.
  intros HO missing. rw /PagedKVCache._ensure_capacity. wp_step. wp_step.
  destruct s as [p c]. simpl in *.
  pose proof (grow_loop_spec (p, c) Y (seq 0 missing) HO) as H.
  rw length_seq in H. apply H.
Qed.
End growth.

(** ** Writing through a block table *)

(** One buffer row before and after an operation: the rows of [Y]'s blocks are
    untouched, and the slots [sl'] now hold what [sl] held. *)
Definition row_keep {T} (bs : nat) (Y : gmultiset nat) (sl sl' : list nat) (t t' : list T) : Prop :=
  length t' = length t ∧
  (∀ a, a / bs ∈ Y → t' !! a = t !! a) ∧
  Forall2 (λ a a', t' !! a' = t !! a) sl sl'.

(** Blocks from table index [j0] on are referenced by this table entry alone. *)
Definition excl_from {T} (s : PC T) (Y : gmultiset nat) (j0 : nat) : Prop :=
  ∀ j b, j0 ≤ j → block_table s.2 !! j = Some b →
    multiplicity b (list_to_set_disj (block_table s.2) ⊎ Y) = 1.

Lemma row_keep_refl {T} bs Y sl (t : list T) : row_keep bs Y sl sl t t.
Proof. split_and!; [done|done|]. by apply Forall_Forall2_diag, Forall_true. Qed.

Lemma row_keep_take {T} bs Y sl sl' (t t' : list T) n :
  row_keep bs Y sl sl' t t' → row_keep bs Y (take n sl) (take n sl') t t'.
Proof. intros (?&?&?). split_and!; [done|done|by apply Forall2_take]. Qed.

Lemma row_keep_trans {T} bs Y sl sl' sl'' (t t' t'' : list T) :
  row_keep bs Y sl sl' t t' → row_keep bs Y sl' sl'' t' t'' → row_keep bs Y sl sl'' t t''.
Proof.
  intros (Hl & HY & Hs) (Hl' & HY' & Hs'). split_and!; [congruence| |].
  - intros a Ha. rw HY' // HY //.
  - eapply Forall2_compose; [|done|done]. simpl. congruence.
Qed.

Lemma row_keep_select {T} bs Y sl sl' (t t' : list T) r :
  row_keep bs Y sl sl' t t' → index_select t sl = Some r → index_select t' sl' = Some r.
Proof.
  intros (_ & _ & Hs) Hr%index_select_Some. apply index_select_Some.
  revert r Hr. induction Hs as [|a a' sl sl' Haa Hs IH]; intros r Hr; inv Hr; constructor.
  - congruence.
  - by apply IH.
Qed.

(** Copying [tail] to a block nobody holds keeps every held row. *)
Lemma row_keep_copied {T} bs n (t : list T) (tbl : list nat) tail fresh Y :
  0 < bs → length t = n * bs → tail < n → fresh < n → fresh ∉ Y → fresh ∉ tbl →
  row_keep bs Y (slots_of bs (tbl ++ [tail])) (slots_of bs (tbl ++ [fresh])) t
    (copied bs tail fresh t).
Proof.
  intros Hbs Hlen Ht Hf HY Htbl. split_and!.
  - by eapply length_copied.
  - intros a Ha. eapply copied_lookup_ne; eauto. by intros <-.
  - rw !slots_of_app !slots_of_singleton. apply Forall2_app.
    + apply Forall_Forall2_diag, Forall_forall. intros a Ha%slots_of_block; [|done].
      eapply copied_lookup_ne; eauto. by intros <-.
    + apply Forall2_lookup_intro; [by rw !length_seq|].
      intros i a a' [-> Hi]%lookup_seq [-> _]%lookup_seq. by eapply copied_lookup_eq.
Qed.

(** Both buffers, row by row. *)
Definition rows_keep {T} (Y : gmultiset nat) (sl sl' : list nat) (p p' : Pool T) : Prop :=
  Forall2 (row_keep (block_size p) Y sl sl') (pool_k p) (pool_k p') ∧
  Forall2 (row_keep (block_size p) Y sl sl') (pool_v p) (pool_v p').

(** Sizes and layer counts never change. *)
Definition same_shape {T} (p p' : Pool T) : Prop :=
  block_size p' = block_size p ∧ num_hidden_layers p' = num_hidden_layers p ∧
  BlockAllocator.num_blocks (allocator p') = BlockAllocator.num_blocks (allocator p).

Section write.
Context {T : Type}.
Implicit Types (p : Pool T) (c : Cache) (s : PC T) (Y X : gmultiset nat).

Lemma rows_keep_wf Y sl sl' p p' : rows_keep Y sl sl' p p' → same_shape p p' → pool_wf p → pool_wf p'.
Proof.
  intros [Hk Hv] (Hb & Hl & Hn) [Hbs Hlk Hlv Hk' Hv'].
  split; rw ?Hb ?Hl ?Hn //.
  - by rw -(Forall2_length _ _ _ Hk).
  - by rw -(Forall2_length _ _ _ Hv).
  - intros l t' Ht'. destruct (Forall2_lookup_r _ _ _ _ _ Hk Ht') as (t & Ht & Hlen & _).
    rw Hlen. by eapply Hk'.
  - intros l t' Ht'. destruct (Forall2_lookup_r _ _ _ _ _ Hv Ht') as (t & Ht & Hlen & _).
    rw Hlen. by eapply Hv'.
Qed.

Lemma rows_keep_refl Y sl p : rows_keep Y sl sl p p.
Proof. split; apply Forall_Forall2_diag, Forall_true; intros t; apply row_keep_refl. Qed.

Lemma rows_keep_same_storage Y sl sl' p p1 p2 :
  rows_keep Y sl sl' p p1 → same_storage p1 p2 → rows_keep Y sl sl' p p2.
Proof. by intros [Hk Hv] (_ & _ & Hk' & Hv' & _); rw /rows_keep Hk' Hv'. Qed.

Lemma rows_keep_take Y sl sl' p p' n : rows_keep Y sl sl' p p' → rows_keep Y (take n sl) (take n sl') p p'.
Proof.
  intros [Hk Hv]; split; (eapply Forall2_impl; [eassumption|]); intros t t'; apply row_keep_take.
Qed.

Lemma rows_keep_nil Y sl sl' p p' : rows_keep Y sl sl' p p' → rows_keep Y [] [] p p'.
Proof. apply (rows_keep_take Y sl sl' p p' 0). Qed.

Lemma same_storage_shape p p' : same_storage p p' → same_shape p p'.
Proof. intros (?&?&?&?&?). by split_and!. Qed.

Lemma same_shape_trans p1 p2 p3 : same_shape p1 p2 → same_shape p2 p3 → same_shape p1 p3.
Proof. intros (?&?&?) (?&?&?). split_and!; congruence. Qed.

Lemma set_last_snoc x y l : PagedKVCache.set_last x (l ++ [y]) = l ++ [x].
Proof.
  rw /PagedKVCache.set_last length_app /=. replace (length l + 1 - 1) with (length l) by lia.
  by rw take_app_length.
Qed.

Lemma set_tail_slots bs tbl x y :
  PagedKVCache.set_tail bs (seq (x * bs) bs) (slots_of bs (tbl ++ [y])) = slots_of bs (tbl ++ [x]).
Proof.
  rw /PagedKVCache.set_tail !slots_of_app !slots_of_singleton length_app length_seq.
  replace (length (slots_of bs tbl) + bs - bs) with (length (slots_of bs tbl)) by lia.
  by rw take_app_length.
Qed.

(** What un-sharing guarantees about the tail block. *)
Definition unshared s Y s' : Prop :=
  owned s' Y ∧ same_shape s.1 s'.1 ∧ num_tokens s'.2 = num_tokens s.2 ∧ _start s'.2 = _start s.2 ∧
  length (block_table s'.2) = length (block_table s.2) ∧
  excl_from s' Y (length (block_table s.2) - 1) ∧
  rows_keep Y (_slots s.2) (_slots s'.2) s.1 s'.1 ∧
  take (length (block_table s.2) - 1) (block_table s'.2)
  = take (length (block_table s.2) - 1) (block_table s.2).

Lemma excl_from_last s Y tbl b :
  block_table s.2 = tbl ++ [b] → multiplicity b (list_to_set_disj (block_table s.2) ⊎ Y) = 1 →
  excl_from s Y (length (block_table s.2) - 1).
Proof.
  intros Ht Hm j b' Hj Hb'. pose proof (lookup_lt_Some _ _ _ Hb') as Hlt.
  rw Ht length_app /= in Hj, Hlt. rw Ht lookup_app_r in Hb'; [|lia].
  replace (j - length tbl) with 0 in Hb' by lia. simpl in Hb'. by simplify_eq.
Qed.

(** The pool after the copy-on-write of block [src] into [dst]. *)
Definition cow p a src dst : Pool T :=
  set_allocator a (set_v (copied (block_size p) src dst <$> pool_v p)
                     (set_k (copied (block_size p) src dst <$> pool_k p) p)).

Lemma cow_rows p a tbl tail fresh Y :
  pool_wf p → tail < BlockAllocator.num_blocks (allocator p) →
  fresh < BlockAllocator.num_blocks (allocator p) → fresh ∉ Y → fresh ∉ tbl →
  rows_keep Y (slots_of (block_size p) (tbl ++ [tail])) (slots_of (block_size p) (tbl ++ [fresh]))
    p (cow p a tail fresh).
Proof.
  intros Hwf Ht Hf HY Htbl. pose proof (pwf_bs _ Hwf).
  split; simpl; apply Forall2_fmap_r, Forall_Forall2_diag, Forall_lookup;
    intros l t Hlt'; eapply row_keep_copied; eauto.
  - by eapply (pwf_k_len _ Hwf).
  - by eapply (pwf_v_len _ Hwf).
Qed.

Lemma unshared_cow p c Y tbl tail fresh a :
  owned (p, c) Y → block_table c = tbl ++ [tail] →
  fresh < BlockAllocator.num_blocks (allocator p) → fresh ∉ tbl → fresh ∉ Y →
  BlockAllocator.num_blocks a = BlockAllocator.num_blocks (allocator p) →
  accounted a ({[+ fresh +]} ⊎ (list_to_set_disj tbl ⊎ Y)) →
  unshared (p, c) Y (cow p a tail fresh,
    mkCache (tbl ++ [fresh]) (num_tokens c) (_start c) (slots_of (block_size p) (tbl ++ [fresh]))).
Proof.
  intros HO Ht Hf Hft HfY Hn HA. pose proof (own_wf _ _ HO) as Hwf. simpl in Hwf.
  assert (tail < BlockAllocator.num_blocks (allocator p)) as Htlt.
  { apply (acc_bound _ _ (own_acc _ _ HO)). simpl. rw Ht list_to_set_disj_snoc. multiset_solver. }
  pose proof (cow_rows p a tbl tail fresh Y Hwf Htlt Hf HfY Hft) as Hrows.
  assert (same_shape p (cow p a tail fresh)) as Hshape by (split_and!; done).
  rw /unshared. split_and!; simpl; try done.
  - split; simpl; [by eapply rows_keep_wf|..|done]. by rw list_to_set_disj_snoc -assoc.
  - by rw Ht !length_app.
  - replace (length (block_table c) - 1) with (length (tbl ++ [fresh]) - 1) by (by rw Ht !length_app).
    apply (excl_from_last (_, mkCache _ _ _ _) Y tbl fresh); [done|]. simpl.
    rw list_to_set_disj_snoc !multiplicity_disj_union multiplicity_singleton_eq.
    rw (proj1 (not_elem_of_multiplicity fresh Y)) //.
    rw (proj1 (not_elem_of_multiplicity fresh (list_to_set_disj tbl))) //.
    by rw elem_of_list_to_set_disj.
  - by rw (own_slots _ _ HO) /= Ht.
  - rw Ht length_app /=. replace (length tbl + 1 - 1) with (length tbl) by lia. by rw !take_app_length.
Qed.

(** The shared branch of [_unshare_tail], from the allocation on. *)
Lemma unshare_shared_spec p c Y tbl tail :
  owned (p, c) Y → block_table c = tbl ++ [tail] →
  1 < multiplicity tail (list_to_set_disj (block_table c) ⊎ Y) →
  wp (let* fresh := on_pool (on_allocator BlockAllocator.allocate) in
      match fresh with
      | None => raise OutOfBlocks
      | Some fresh =>
          do* on_pool (PagedCachePool.copy_block tail fresh) in
          do* on_pool (on_allocator (BlockAllocator.decref tail)) in
          do* on_cache (modify (λ c, set_block_table (PagedKVCache.set_last fresh (block_table c)) c)) in
          on_cache (modify (λ c, set_slots (PagedKVCache.set_tail (block_size p)
            (seq (fresh * block_size p) (block_size p)) (_slots c)) c))
      end)
     (λ _ s', unshared (p, c) Y s' ∧
        S (BlockAllocator.num_free (allocator s'.1)) = BlockAllocator.num_free (allocator p))
     (λ e s', e = OutOfBlocks ∧ s' = (p, c) ∧ BlockAllocator.num_free (allocator p) = 0) (p, c).
Proof.
  intros HO Ht Hgt. pose proof (own_acc _ _ HO) as HA. simpl in HA.
  rw Ht list_to_set_disj_snoc in Hgt. rw Ht list_to_set_disj_snoc in HA.
  rw !multiplicity_disj_union multiplicity_singleton_eq in Hgt.
  assert (tail < BlockAllocator.num_blocks (allocator p)) as Htlt
    by (apply (acc_bound _ _ HA); multiset_solver).
  wp_step. eapply wp_mono; [eapply (cache_allocate_spec (p, c)), HA| |done].
  intros [fresh|] [p1 c1] (Hc1 & Hst & Ho); simpl in Hc1; subst c1; last first.
  { destruct Ho as [[= ->] Hf]. by wp_step. }
  destruct Ho as (HA1 & Hfr & Hlt & Hf). simpl in *.
  assert (pool_wf p1) as Hwf1 by (eapply same_storage_wf; [done|apply HO]).
  destruct p1 as [bs1 nl1 a1 k1 v1], p as [bs nl a k v], Hst as (Hb & Hl & Hk & Hv & Hn).
  simpl in *. subst bs1 nl1 k1 v1. wp_step. rw {1}/on_pool. wp_step.
  eapply wp_mono; [apply copy_block_spec; [done|simpl; lia|simpl; lia]| |done].
  intros _ ? ->. wp_step. rw /on_pool /on_allocator. do 2 wp_step.
  eapply wp_mono; [apply (decref_spec _ ({[+ fresh +]} ⊎ (list_to_set_disj tbl ⊎ Y)))| |done].
  { simpl. by replace ({[+ tail +]} ⊎ ({[+ fresh +]} ⊎ (list_to_set_disj tbl ⊎ Y)))
      with ({[+ fresh +]} ⊎ ({[+ tail +]} ⊎ list_to_set_disj tbl ⊎ Y)) by multiset_solver. }
  intros b a2 (HA2 & Hn2 & _ & Hf2). simpl in *.
  rw bool_decide_false in Hf2; last first.
  { intros Hno%not_elem_of_multiplicity. rw !multiplicity_disj_union in Hno. lia. }
  rw app_nil_r in Hf2.
  rw !gmultiset_elem_of_disj_union elem_of_list_to_set_disj in Hfr.
  rw /on_cache. repeat wp_step. simpl.
  rw Ht set_last_snoc (own_slots _ _ HO) /= Ht set_tail_slots. split.
  - apply (unshared_cow (mkPool bs nl a k v) c Y tbl tail fresh a2); simpl; try tauto. congruence.
  - rw /BlockAllocator.num_free Hf2. rw /BlockAllocator.num_free in Hf. done.
Qed.

(** [_unshare_tail] on a non-empty table: afterwards the tail is exclusively
    owned, the sequence reads the same, and nobody else's blocks moved.  It takes
    one block exactly when the tail was shared. *)
Lemma unshare_tail_spec s Y tbl tail :
  owned s Y → block_table s.2 = tbl ++ [tail] →
  let shared := bool_decide (1 < multiplicity tail (list_to_set_disj (block_table s.2) ⊎ Y)) in
  wp PagedKVCache._unshare_tail
     (λ _ s', unshared s Y s' ∧
        BlockAllocator.num_free (allocator s'.1) + (if shared then 1 else 0)
        = BlockAllocator.num_free (allocator s.1))
     (λ e s', e = OutOfBlocks ∧ s' = s ∧ shared = true ∧
        BlockAllocator.num_free (allocator s.1) = 0) s.
Proof.
  intros HO Ht shared. destruct s as [p c]. pose proof (own_acc _ _ HO) as HA. simpl in *.
  assert (tail ∈ list_to_set_disj (block_table c) ⊎ Y) as Htail.
  { rw Ht list_to_set_disj_snoc. multiset_solver. }
  rw /PagedKVCache._unshare_tail. do 2 wp_step. rw Ht last_snoc.
  wp_step. rw {1}/on_pool {1}/on_allocator /BlockAllocator.ref_count. do 2 wp_step.
  eapply get_ref_spec; [done..|]. simpl.
  replace (set_allocator (allocator p) p) with p by (by destruct p).
  assert (0 < multiplicity tail (list_to_set_disj (block_table c) ⊎ Y))
    by (by apply elem_of_multiplicity).
  destruct (Nat.leb_spec (multiplicity tail (list_to_set_disj (block_table c) ⊎ Y)) 1) as [Hle|Hgt].
  - wp_step. subst shared. rw bool_decide_false; [|lia]. split; [|simpl; lia].
    rw /unshared. split_and!; try done; [|apply rows_keep_refl].
    apply excl_from_last with tbl tail; simpl; [done|lia].
  - subst shared. rw bool_decide_true //.
    eapply wp_mono; [by eapply unshare_shared_spec|..].
    + intros _ s' [? ?]. split; [done|simpl; lia].
    + naive_solver.
Qed.
(** A table extended by fresh blocks. *)
Lemma excl_from_grown s s' Y news :
  owned s Y → grown s s' news → NoDup news →
  (∀ b, b ∈ news → b ∉ block_table s.2 ∧ b ∉ Y) →
  ∀ j0, j0 ≤ length (block_table s.2) → excl_from s Y j0 → excl_from s' Y j0.
Proof.
  intros HO (_ & Htab & _) Hnd Hfresh j0 Hj0 Hex j b Hj Hb. rw Htab in Hb. rw Htab.
  rw list_to_set_disj_app !multiplicity_disj_union (multiplicity_NoDup b news) //.
  apply lookup_app_Some in Hb as [Hb|[Hge Hb]].
  - specialize (Hex j b Hj Hb). rw multiplicity_disj_union in Hex.
    rw decide_False; [lia|]. intros Hin%Hfresh. apply (proj1 Hin). by eapply list_elem_of_lookup_2.
  - apply list_elem_of_lookup_2 in Hb. destruct (Hfresh _ Hb) as [H1 H2].
    rw decide_True //. rw (proj1 (not_elem_of_multiplicity b Y) H2).
    rw (proj1 (not_elem_of_multiplicity b (list_to_set_disj (block_table s.2)))); [done|].
    by rw elem_of_list_to_set_disj.
Qed.

Lemma excl_from_end s Y j : length (block_table s.2) ≤ j → excl_from s Y j.
Proof. intros Hj i b Hi Hb. apply lookup_lt_Some in Hb. lia. Qed.

(** The tail of a partially filled table, and whether it needs copying. *)
Definition tail_shared s Y : bool :=
  match last (block_table s.2) with
  | Some tail => bool_decide (1 < multiplicity tail (list_to_set_disj (block_table s.2) ⊎ Y))
  | None => false
  end.

(** Blocks a pass of [n] tokens takes from the free list. *)
Definition pass_cost s Y n : nat :=
  (if negb (num_tokens s.2 mod block_size s.1 =? 0) && tail_shared s Y then 1 else 0)
  + (ceil_div (num_tokens s.2 + n) (block_size s.1) - length (block_table s.2)).

(** The state after the copy-on-write step of [update_begin]. *)
Definition begun s Y s' : Prop :=
  owned s' Y ∧ same_shape s.1 s'.1 ∧ num_tokens s'.2 = num_tokens s.2 ∧
  _start s'.2 = num_tokens s.2 ∧ length (block_table s'.2) = length (block_table s.2) ∧
  excl_from s' Y (num_tokens s.2 / block_size s.1) ∧
  rows_keep Y (_slots s.2) (_slots s'.2) s.1 s'.1.

Lemma owned_set_start s Y n : owned s Y → owned (s.1, set_start n s.2) Y.
Proof. by intros []. Qed.

Lemma begin_cow_spec s Y :
  owned s Y → tight s →
  let partial := negb (num_tokens s.2 mod block_size s.1 =? 0) in
  wp (if partial then PagedKVCache._unshare_tail else ret tt)
     (λ _ s', begun s Y s' ∧
        BlockAllocator.num_free (allocator s'.1) + (if partial && tail_shared s Y then 1 else 0)
        = BlockAllocator.num_free (allocator s.1))
     (λ e s', e = OutOfBlocks ∧ s' = (s.1, set_start (num_tokens s.2) s.2) ∧
        BlockAllocator.num_free (allocator s.1) = 0 ∧ partial && tail_shared s Y = true)
     (s.1, set_start (num_tokens s.2) s.2).
Proof.
  intros HO Ht partial. pose proof (pwf_bs _ (own_wf _ _ HO)) as Hbs.
  rw /tight ceil_div_eq // in Ht.
  assert (owned (s.1, set_start (num_tokens s.2) s.2) Y) as HO' by by apply owned_set_start.
  subst partial. destruct (Nat.eqb_spec (num_tokens s.2 mod block_size s.1) 0) as [Hz|Hz]; simpl.
  { wp_step. split; [|simpl; lia]. rw /begun /=. split_and!; try done; [|apply rows_keep_refl].
    apply excl_from_end. simpl. lia. }
  destruct (block_table s.2) as [|tail tbl _] eqn:Htab using rev_ind; [simpl in Ht; lia|].
  rw length_app /= in Ht.
  eapply wp_mono; [eapply (unshare_tail_spec _ _ tbl tail HO'); simpl; done|..]; simpl.
  - intros _ s' ((HO2 & Hsh & Hnt & Hst & Hlen & Hex & Hrows & _) & Hf). simpl in *.
    rw /tail_shared Htab last_snoc -Htab. split; [|lia].
    rw Htab length_app /= in Hlen. rw Htab length_app /= in Hex.
    rw /begun. split_and!; try done.
    + rw Htab length_app /=. lia.
    + by replace (num_tokens s.2 / block_size s.1) with (length tbl + 1 - 1) by lia.
  - rw /tail_shared Htab last_snoc -Htab. naive_solver.
Qed.
(** The state in which a pass of [n] tokens writes its layers. *)
Definition in_pass s Y n : Prop :=
  owned s Y ∧ tight s ∧ num_tokens s.2 = _start s.2 + n ∧
  excl_from s Y (_start s.2 / block_size s.1).

(** [update_begin] either prepares the pass, taking exactly [pass_cost] blocks,
    or raises [OutOfBlocks] because the free list is shorter than that. *)
Lemma update_begin_spec s Y n :
  owned s Y → tight s →
  wp (PagedKVCache.update_begin n)
     (λ _ s', in_pass s' Y n ∧ same_shape s.1 s'.1 ∧ _start s'.2 = num_tokens s.2 ∧
        rows_keep Y (take (num_tokens s.2) (_slots s.2)) (take (num_tokens s.2) (_slots s'.2)) s.1 s'.1 ∧
        BlockAllocator.num_free (allocator s'.1) + pass_cost s Y n
        = BlockAllocator.num_free (allocator s.1))
     (λ e s', e = OutOfBlocks ∧ owned s' Y ∧ same_shape s.1 s'.1 ∧
        rows_keep Y [] [] s.1 s'.1 ∧
        BlockAllocator.num_free (allocator s.1) < pass_cost s Y n) s.
Proof.
  intros HO Ht. pose proof (pwf_bs _ (own_wf _ _ HO)) as Hbs.
  rw /PagedKVCache.update_begin {1}/on_cache. do 4 wp_step. wp_step. simpl. wp_step.
  eapply wp_mono; [by apply begin_cow_spec|..].
  2:{ intros e s' (-> & -> & Hf & Hsh). split_and!; [done|by apply owned_set_start|done| |].
      - apply rows_keep_refl.
      - rw /pass_cost Hsh. lia. }
  intros _ s1 ((HO1 & Hsh & Hnt & Hst & Hlen & Hex & Hrows) & Hf).
  pose proof Hsh as (Hb & _ & _). wp_step.
  eapply wp_mono; [by apply ensure_capacity_spec|..]; rw Hnt Hlen Hb.
  - intros _ s2 (HO2 & news & Hgr & Hln & Hnd & Hfresh & Hf2).
    pose proof Hgr as (Hss & Htab & Hnt2 & Hst2). pose proof Hss as (Hb2 & _).
    rw /on_cache. do 2 wp_step. simpl. rw Hnt2 Hnt Hst2 Hst. split_and!; simpl.
    + rw /in_pass. split_and!; simpl; [by destruct HO2|..]; rw ?Hb2 ?Hb ?Hst2 ?Hst ?Hnt2 //.
      * rw /tight /= Htab length_app Hlen Hln Ht Hb2 Hb.
        pose proof (ceil_div_le (num_tokens s.2) (block_size s.1)
          (ceil_div (num_tokens s.2 + n) (block_size s.1)) Hbs).
        pose proof (ceil_div_mul_ge (num_tokens s.2 + n) (block_size s.1) Hbs). lia.
      * assert (excl_from s2 Y (num_tokens s.2 / block_size s.1)) as Hex2.
        { apply (excl_from_grown s1 s2 Y news); try done.
          rw Hlen Ht ceil_div_eq //. destruct (_ =? 0); lia. }
        done.
    + eapply same_shape_trans; [done|by apply same_storage_shape].
    + done.
    + eapply rows_keep_same_storage; [|done].
      rw (own_slots _ _ HO2) Htab slots_of_app Hb2.
      rw take_app_le; last first.
      { rw length_slots_of Hlen Ht Hb. by apply ceil_div_mul_ge. }
      rw -(own_slots _ _ HO1). by apply rows_keep_take.
    + rw /pass_cost. lia.
  - intros e s2 (-> & HO2 & news & Hgr & Hlt). pose proof Hgr as (Hss & _).
    split_and!; [done|done|..].
    + eapply same_shape_trans; [done|by apply same_storage_shape].
    + eapply rows_keep_same_storage; [|done]. by eapply rows_keep_nil.
    + rw /pass_cost. lia.
Qed.

(** The slots a pass writes: distinct, in range, in nobody else's blocks, and
    disjoint from the sequence's earlier slots. *)
Lemma write_slots s Y n :
  in_pass s Y n →
  let w := take n (drop (_start s.2) (_slots s.2)) in
  length w = n ∧ NoDup w ∧
  (∀ a, a ∈ w → a < BlockAllocator.num_blocks (allocator s.1) * block_size s.1) ∧
  (∀ a, a ∈ w → a / block_size s.1 ∉ Y) ∧
  (∀ a, a ∈ w → a ∉ take (_start s.2) (_slots s.2)).
Proof.
  intros (HO & Ht & Hn & Hex) w. pose proof (pwf_bs _ (own_wf _ _ HO)) as Hbs.
  pose proof (own_slots _ _ HO) as Hsl. set (bs := block_size s.1) in *.
  assert (length (_slots s.2) = length (block_table s.2) * bs) as Hlen by (by rw Hsl length_slots_of).
  pose proof (ceil_div_mul_ge (num_tokens s.2) bs Hbs) as Hcap. rw /tight -/bs in Ht. rw -Ht in Hcap.
  assert (∀ i a, w !! i = Some a → i < n ∧ _slots s.2 !! (_start s.2 + i) = Some a ∧
      ∃ b, block_table s.2 !! ((_start s.2 + i) / bs) = Some b ∧
      a = b * bs + (_start s.2 + i) mod bs ∧
      multiplicity b (list_to_set_disj (block_table s.2)) = 1 ∧ b ∉ Y) as Hw.
  { intros i a (Hi & Hin)%lookup_take_Some. rw lookup_drop in Hi. split_and!; [done|done|].
    rw Hsl in Hi. apply slots_of_lookup in Hi as (b & Hb & ->); [|done]. exists b.
    assert (_start s.2 / bs ≤ (_start s.2 + i) / bs) as Hj by (apply Nat.Div0.div_le_mono; lia).
    pose proof (Hex _ _ Hj Hb) as Hm. rw multiplicity_disj_union in Hm.
    assert (0 < multiplicity b (list_to_set_disj (block_table s.2) : gmultiset nat)).
    { apply elem_of_multiplicity, elem_of_list_to_set_disj. by eapply list_elem_of_lookup_2. }
    split_and!; [done|done|lia|]. apply not_elem_of_multiplicity. lia. }
  assert (∀ i i' a, w !! i = Some a → _slots s.2 !! i' = Some a → _start s.2 + i = i') as Hinj.
  { intros i i' a Hi Hi'. destruct (Hw _ _ Hi) as (_ & Hpos & b & Hb & _ & Hm & _).
    rw Hsl in Hpos, Hi'. eapply (slots_of_inj bs); eauto. lia. }
  split_and!.
  - subst w. rw length_take length_drop Hlen. lia.
  - apply NoDup_alt. intros i i' a Hi Hi'. destruct (Hw _ _ Hi') as (_ & Hpos & _).
    pose proof (Hinj _ _ _ Hi Hpos). lia.
  - intros a (i & Hi)%list_elem_of_lookup. destruct (Hw _ _ Hi) as (_ & _ & b & Hb & -> & _).
    assert (b < BlockAllocator.num_blocks (allocator s.1)).
    { apply (acc_bound _ _ (own_acc _ _ HO)), gmultiset_elem_of_disj_union. left.
      apply elem_of_list_to_set_disj. by eapply list_elem_of_lookup_2. }
    pose proof (Nat.mod_upper_bound (_start s.2 + i) bs ltac:(lia)). nia.
  - intros a (i & Hi)%list_elem_of_lookup. destruct (Hw _ _ Hi) as (_ & _ & b & Hb & -> & _ & HY).
    by rw slot_block.
  - intros a (i & Hi)%list_elem_of_lookup (i' & Hi')%list_elem_of_lookup.
    apply lookup_take_Some in Hi' as [Hi' Hlt]. pose proof (Hinj _ _ _ Hi Hi'). lia.
Qed.
(** What slots [sl] of layer [l] hold. *)
Definition view (buf : list (list T)) (sl : list nat) (l : nat) : option (list T) :=
  t ← buf !! l; index_select t sl.

Lemma rows_keep_view_k Y sl sl' p p' l r :
  rows_keep Y sl sl' p p' → view (pool_k p) sl l = Some r → view (pool_k p') sl' l = Some r.
Proof.
  intros [Hk _]. rw /view. destruct (pool_k p !! l) as [t|] eqn:Ht; [|done]; simpl.
  destruct (Forall2_lookup_l _ _ _ _ _ Hk Ht) as (t' & -> & Hr). by apply (row_keep_select _ _ _ _ _ _ _ Hr).
Qed.

Lemma rows_keep_view_v Y sl sl' p p' l r :
  rows_keep Y sl sl' p p' → view (pool_v p) sl l = Some r → view (pool_v p') sl' l = Some r.
Proof.
  intros [_ Hv]. rw /view. destruct (pool_v p !! l) as [t|] eqn:Ht; [|done]; simpl.
  destruct (Forall2_lookup_l _ _ _ _ _ Hv Ht) as (t' & -> & Hr). by apply (row_keep_select _ _ _ _ _ _ _ Hr).
Qed.

(** The references of another cache are among [Y], so its slots are in [Y]'s blocks. *)
Lemma rows_keep_other Y sl sl' p p' tbl m :
  0 < block_size p → rows_keep Y sl sl' p p' → (list_to_set_disj tbl : gmultiset nat) ⊆ Y →
  rows_keep Y (take m (slots_of (block_size p) tbl)) (take m (slots_of (block_size p) tbl)) p p'.
Proof.
  intros Hbs [Hk Hv] Hsub.
  assert (∀ t t' : list T, row_keep (block_size p) Y sl sl' t t' →
    row_keep (block_size p) Y (take m (slots_of (block_size p) tbl))
      (take m (slots_of (block_size p) tbl)) t t') as H.
  { intros t t' (Hl & HY & _). split_and!; [done|done|].
    apply Forall_Forall2_diag, Forall_take, Forall_forall. intros a Ha. apply HY.
    apply slots_of_block in Ha; [|done]. eapply gmultiset_elem_of_subseteq; [|done].
    by apply elem_of_list_to_set_disj. }
  split; (eapply Forall2_impl; [eassumption|]); done.
Qed.

(** Writing distinct slots of one row. *)
Lemma index_assign_ok (t : list T) w vals :
  (∀ a, a ∈ w → a < length t) → length w = length vals →
  index_assign t w vals = Ok (scatter t w vals).
Proof.
  intros Hw Hlen. rw /index_assign.
  assert (forallb (λ i, i <? length t) w = true) as ->.
  { apply List.forallb_forall. intros a Ha%list_elem_of_In. by apply Nat.ltb_lt, Hw. }
  by rw Hlen Nat.eqb_refl.
Qed.

Lemma row_keep_scatter bs Y sl w (t vals : list T) :
  (∀ a, a ∈ w → a / bs ∉ Y) → (∀ a, a ∈ w → a ∉ sl) →
  row_keep bs Y sl sl t (scatter t w vals).
Proof.
  intros HY Hsl. split_and!.
  - apply length_scatter.
  - intros a Ha. apply scatter_lookup_ne. by intros Hw%HY.
  - apply Forall_Forall2_diag, Forall_forall. intros a Ha. apply scatter_lookup_ne. by intros Hw%Hsl.
Qed.

Lemma rows_insert (R : list T → list T → Prop) (buf : list (list T)) l t t' :
  (∀ u, R u u) → buf !! l = Some t → R t t' → Forall2 R buf (<[l := t']> buf).
Proof.
  intros Hrefl Hl HR. apply Forall2_lookup_intro; [by rw length_insert|].
  intros i x y Hx Hy. apply list_lookup_insert_Some in Hy as [(<- & <- & _)|[_ Hy]];
    simplify_eq; [done|]. apply Hrefl.
Qed.
(** One buffer through the scatter and gather of a pass. *)
Lemma write_row s Y n (t r vals : list T) :
  in_pass s Y n → length t = BlockAllocator.num_blocks (allocator s.1) * block_size s.1 →
  length vals = n → index_select t (take (_start s.2) (_slots s.2)) = Some r →
  let w := take n (drop (_start s.2) (_slots s.2)) in
  index_assign t w vals = Ok (scatter t w vals) ∧
  row_keep (block_size s.1) Y (take (_start s.2) (_slots s.2)) (take (_start s.2) (_slots s.2))
    t (scatter t w vals) ∧
  index_select (scatter t w vals) (take (_start s.2 + n) (_slots s.2)) = Some (r ++ vals).
Proof.
  intros Hin Ht Hv Hr w. destruct (write_slots s Y n Hin) as (Hlen & Hnd & Hlt & HY & Hold).
  fold w in Hlen, Hnd, Hlt, HY, Hold. rw -Ht in Hlt.
  assert (row_keep (block_size s.1) Y (take (_start s.2) (_slots s.2)) (take (_start s.2) (_slots s.2))
    t (scatter t w vals)) as Hkeep by by apply row_keep_scatter.
  split_and!; [apply index_assign_ok; [done|congruence]|done|].
  rw -(take_take_drop _ (_start s.2)). apply index_select_app; [by eapply row_keep_select|].
  apply scatter_select; [done|done|]. by transitivity n.
Qed.

Lemma gather_spec (buf : list (list T)) l idx t r (Q : list T → Pool T → Prop) E p :
  buf !! l = Some t → index_select t idx = Some r → Q r p → wp (gather buf l idx) Q E p.
Proof. intros Hl Hr HQ. by rw /gather Hl Hr. Qed.

(** [update_write] on any layer of a pass: it returns the sequence's earlier rows
    of that layer followed by the new ones, changes no other layer, and leaves the
    allocator, the table and everybody else's blocks alone. *)
Lemma update_write_spec s Y n l k v ck cv :
  in_pass s Y n → length k = n → length v = n → l < num_hidden_layers s.1 →
  view (pool_k s.1) (take (_start s.2) (_slots s.2)) l = Some ck →
  view (pool_v s.1) (take (_start s.2) (_slots s.2)) l = Some cv →
  wp (PagedKVCache.update_write l k v)
     (λ r s', r = (ck ++ k, cv ++ v) ∧ s'.2 = s.2 ∧ in_pass s' Y n ∧ same_shape s.1 s'.1 ∧
        allocator s'.1 = allocator s.1 ∧
        rows_keep Y (take (_start s.2) (_slots s.2)) (take (_start s.2) (_slots s.2)) s.1 s'.1 ∧
        (∀ l', l' ≠ l → pool_k s'.1 !! l' = pool_k s.1 !! l' ∧ pool_v s'.1 !! l' = pool_v s.1 !! l') ∧
        view (pool_k s'.1) (take (num_tokens s.2) (_slots s.2)) l = Some (ck ++ k) ∧
        view (pool_v s'.1) (take (num_tokens s.2) (_slots s.2)) l = Some (cv ++ v)) never s.
Proof.
  intros Hin Hk Hv Hl Hck Hcv. pose proof Hin as (HO & Hti & Hnt & Hex).
  pose proof (own_wf _ _ HO) as Hwf. destruct s as [p c]. cbn [fst snd] in *.
  unfold view in Hck, Hcv.
  destruct (pool_k p !! l) as [tk|] eqn:Htk; [|done]. destruct (pool_v p !! l) as [tv|] eqn:Htv; [|done].
  cbn [option_bind mbind] in Hck, Hcv.
  destruct (write_row (p, c) Y n tk ck k Hin (pwf_k_len _ Hwf _ _ Htk) Hk Hck) as (Hak & Hrk & Hsk).
  destruct (write_row (p, c) Y n tv cv v Hin (pwf_v_len _ Hwf _ _ Htv) Hv Hcv) as (Hav & Hrv & Hsv).
  cbn [fst snd] in *. set (w := take n (drop (_start c) (_slots c))) in *.
  rw /PagedKVCache.update_write Hk /on_pool. do 3 wp_step. wp_step.
  replace (_start c + n - _start c) with n by lia. fold w.
  rw {1}/wp /assign_k (layer_update_ok _ _ _ _ _ Htk Hak). do 2 wp_step.
  pose proof (lookup_lt_Some _ _ _ Htk). pose proof (lookup_lt_Some _ _ _ Htv).
  rw {1}/wp /assign_v (layer_update_ok _ _ _ _ _ Htv Hav). cbn [fst snd]. do 4 wp_step.
  eapply gather_spec; [by apply list_lookup_insert_eq|done|]. do 2 wp_step.
  eapply gather_spec; [by apply list_lookup_insert_eq|done|]. wp_step. cbn [fst snd].
  set (p' := set_v _ _).
  assert (rows_keep Y (take (_start c) (_slots c)) (take (_start c) (_slots c)) p p') as Hrows.
  { split; simpl; (eapply rows_insert; [intros; apply row_keep_refl|done|done]). }
  assert (same_shape p p') as Hsh by done.
  split_and!; simpl; auto.
  - split_and!; [|done|done|done]. destruct HO. split; [by eapply rows_keep_wf|done|done].
  - intros l' Hl'. by rw !list_lookup_insert_ne.
  - by rw /view list_lookup_insert_eq // Hnt.
  - by rw /view list_lookup_insert_eq // Hnt.
Qed.

(** ** A forward pass over the layers

    [pass_inv s Y n d K V]: a pass of [n] tokens is under way and has written
    layers [0 .. d-1]; [K] and [V] hold, per layer, the rows the sequence reads. *)
Definition reads (buf : list (list T)) (c : Cache) (d : nat) (R : list (list T)) : Prop :=
  length R = length buf ∧
  ∀ l r, R !! l = Some r →
    view buf (take (if l <? d then num_tokens c else _start c) (_slots c)) l = Some r.

Definition pass_inv s Y n d (K V : list (list T)) : Prop :=
  in_pass s Y n ∧ reads (pool_k s.1) s.2 d K ∧ reads (pool_v s.1) s.2 d V.

(** Between passes every layer reads [num_tokens] rows. *)
Definition idle s Y (K V : list (list T)) : Prop :=
  owned s Y ∧ tight s ∧
  (length K = length (pool_k s.1) ∧ ∀ l r, K !! l = Some r →
     view (pool_k s.1) (take (num_tokens s.2) (_slots s.2)) l = Some r) ∧
  (length V = length (pool_v s.1) ∧ ∀ l r, V !! l = Some r →
     view (pool_v s.1) (take (num_tokens s.2) (_slots s.2)) l = Some r).

Lemma pass_inv_idle s Y n K V :
  pass_inv s Y n (num_hidden_layers s.1) K V → idle s Y K V.
Proof.
  intros ((HO & Ht & _) & [HlK HK] & [HlV HV]). pose proof (own_wf _ _ HO) as Hwf.
  split_and!; try done.
  - intros l r Hl. specialize (HK _ _ Hl). pose proof (lookup_lt_Some _ _ _ Hl) as Hlt.
    rw HlK (pwf_k _ Hwf) in Hlt. by rw (proj2 (Nat.ltb_lt _ _) Hlt) in HK.
  - intros l r Hl. specialize (HV _ _ Hl). pose proof (lookup_lt_Some _ _ _ Hl) as Hlt.
    rw HlV (pwf_v _ Hwf) in Hlt. by rw (proj2 (Nat.ltb_lt _ _) Hlt) in HV.
Qed.

Lemma reads_write buf buf' c l R r r' :
  reads buf c l R → R !! l = Some r → length buf' = length buf →
  (∀ l', l' ≠ l → buf' !! l' = buf !! l') →
  view buf' (take (num_tokens c) (_slots c)) l = Some r' →
  reads buf' c (S l) (<[l := r']> R).
Proof.
  intros [Hlen HR] Hl Hlen' Hother Hview. split; [by rw length_insert Hlen|].
  intros l' x [(<- & <- & _)|[Hne Hx]]%list_lookup_insert_Some.
  - by rw (proj2 (Nat.ltb_lt _ _)); [|lia].
  - specialize (HR _ _ Hx). rw /view Hother // -/(view buf _ l').
    by replace (l' <? S l) with (l' <? l)
      by (destruct (Nat.ltb_spec l' l), (Nat.ltb_spec l' (S l)); [done|lia|lia|done]).
Qed.

Lemma rows_keep_lengths Y sl sl' p p' :
  rows_keep Y sl sl' p p' → length (pool_k p') = length (pool_k p) ∧ length (pool_v p') = length (pool_v p).
Proof. intros [Hk%Forall2_length Hv%Forall2_length]. lia. Qed.

(** Layer [l] of the pass. *)
Lemma pass_layer_spec s Y n l k v K V ck cv :
  pass_inv s Y n l K V → length k = n → length v = n → K !! l = Some ck → V !! l = Some cv →
  wp (PagedKVCache.update_write l k v)
     (λ r s', r = (ck ++ k, cv ++ v) ∧ s'.2 = s.2 ∧
        pass_inv s' Y n (S l) (<[l := ck ++ k]> K) (<[l := cv ++ v]> V) ∧
        same_shape s.1 s'.1 ∧ allocator s'.1 = allocator s.1 ∧ rows_keep Y [] [] s.1 s'.1) never s.
Proof.
  intros (Hin & HK & HV) Hk Hv HKl HVl. pose proof Hin as (HO & _).
  pose proof (proj2 HK _ _ HKl) as Hck. pose proof (proj2 HV _ _ HVl) as Hcv.
  rw Nat.ltb_irrefl in Hck, Hcv.
  eapply wp_mono; [eapply (update_write_spec s Y n l k v ck cv)|..]; try done.
  { pose proof (lookup_lt_Some _ _ _ HKl) as Hlt. rw (proj1 HK) (pwf_k _ (own_wf _ _ HO)) in Hlt. done. }
  intros r s' (-> & Hc & Hin' & Hsh & Ha & Hrows & Hother & Hvk & Hvv).
  destruct (rows_keep_lengths _ _ _ _ _ Hrows) as [Hlk Hlv].
  split_and!; try done; [|by eapply rows_keep_nil].
  split_and!; [done|..]; rw Hc.
  - eapply reads_write; eauto. intros l' Hl'. apply (Hother _ Hl').
  - eapply reads_write; eauto. intros l' Hl'. apply (Hother _ Hl').
Qed.

(** Opening the pass. *)
Lemma pass_begin_spec s Y n K V :
  idle s Y K V →
  wp (PagedKVCache.update_begin n)
     (λ _ s', pass_inv s' Y n 0 K V ∧ same_shape s.1 s'.1 ∧ rows_keep Y [] [] s.1 s'.1 ∧
        num_tokens s'.2 = num_tokens s.2 + n ∧
        BlockAllocator.num_free (allocator s'.1) + pass_cost s Y n
        = BlockAllocator.num_free (allocator s.1))
     (λ e s', e = OutOfBlocks ∧ owned s' Y ∧ same_shape s.1 s'.1 ∧ rows_keep Y [] [] s.1 s'.1 ∧
        BlockAllocator.num_free (allocator s.1) < pass_cost s Y n) s.
Proof.
  intros (HO & Ht & [HlK HK] & [HlV HV]).
  eapply wp_mono; [by apply update_begin_spec|..|done].
  intros _ s' (Hin & Hsh & Hst & Hrows & Hcost). pose proof Hin as (_ & _ & Hnt & _).
  destruct (rows_keep_lengths _ _ _ _ _ Hrows) as [Hlk Hlv].
  split_and!; [|done|by eapply rows_keep_nil|by rw Hnt Hst|done].
  split_and!; [done|split..].
  - by rw HlK Hlk.
  - intros l r Hl. change (l <? 0) with false. cbn iota. rw Hst. eapply rows_keep_view_k; eauto.
  - by rw HlV Hlv.
  - intros l r Hl. change (l <? 0) with false. cbn iota. rw Hst. eapply rows_keep_view_v; eauto.
Qed.

(** The layers of one forward pass, in the order [NanoForCausalLM] visits them:
    layer [l], [l + 1], ... each call [update] with their own rows. *)
Fixpoint update_layers (l : nat) (kvs : list (list T * list T)) : M (PC T) (list (list T * list T)) :=
  match kvs with
  | [] => ret []
  | (k, v) :: kvs' =>
      let* r := PagedKVCache.update l k v in
      let* rs := update_layers (S l) kvs' in
      ret (r :: rs)
  end.

(** [R] with the rows of [news] appended, layer by layer, from layer [d] on. *)
Definition append_rows (d : nat) (R news : list (list T)) : list (list T) :=
  take d R ++ zip_with app (drop d R) news.

Lemma append_rows_nil R : append_rows (length R) R [] = R.
Proof. by rw /append_rows take_ge // drop_ge //= app_nil_r. Qed.

Lemma append_rows_cons d R r x news :
  R !! d = Some r → append_rows (S d) (<[d := r ++ x]> R) news = append_rows d R (x :: news).
Proof.
  intros Hd. pose proof (lookup_lt_Some _ _ _ Hd). rw /append_rows (drop_S R r d) //.
  rw (take_S_r _ _ (r ++ x)); [|by apply list_lookup_insert_eq].
  rw take_insert_ge // drop_insert_lt; [|lia]. by rw -assoc.
Qed.

(** What a pass leaves everybody else: shapes, and the rows of [Y]'s blocks. *)
Definition apart Y s s' : Prop := same_shape s.1 s'.1 ∧ rows_keep Y [] [] s.1 s'.1.

Lemma apart_refl Y s : apart Y s s.
Proof. split; [done|apply rows_keep_refl]. Qed.

Lemma apart_trans Y s1 s2 s3 : apart Y s1 s2 → apart Y s2 s3 → apart Y s1 s3.
Proof.
  intros [Hs Hr] [Hs' Hr']. split; [by eapply same_shape_trans|].
  destruct Hs as (Hb & _), Hr as [Hk Hv], Hr' as [Hk' Hv']. rw Hb in Hk', Hv'.
  split; (eapply Forall2_compose; [|eassumption|eassumption]); intros ???; apply row_keep_trans.
Qed.

Lemma pass_layers_spec kvs : ∀ s Y n d K V,
  pass_inv s Y n (S d) K V → S d + length kvs = num_hidden_layers s.1 →
  Forall (λ kv, length kv.1 = n ∧ length kv.2 = n) kvs →
  wp (update_layers (S d) kvs)
     (λ r s', r = zip (zip_with app (drop (S d) K) kvs.*1) (zip_with app (drop (S d) V) kvs.*2) ∧
        idle s' Y (append_rows (S d) K kvs.*1) (append_rows (S d) V kvs.*2) ∧ apart Y s s' ∧
        s'.2 = s.2 ∧ allocator s'.1 = allocator s.1) never s.
Proof.
  induction kvs as [|[k v] kvs IH]; intros s Y n d K V HI Hlen Hkv; cbn [update_layers fmap list_fmap].
  - wp_step. pose proof HI as ((HO & _) & [HlK _] & [HlV _]). pose proof (own_wf _ _ HO) as Hwf.
    simpl in Hlen. rw (pwf_k _ Hwf) in HlK. rw (pwf_v _ Hwf) in HlV.
    rw drop_ge /=; [|lia]. replace (S d) with (length K) at 1 by lia. replace (S d) with (length V) by lia.
    rw !append_rows_nil. split_and!; try done; [|apply apart_refl].
    eapply pass_inv_idle. by replace (num_hidden_layers s.1) with (S d) by lia.
  - apply Forall_cons in Hkv as [[Hk Hv] Hkv]. pose proof HI as ((HO & _) & [HlK _] & [HlV _]).
    pose proof (own_wf _ _ HO) as Hwf. simpl in Hlen.
    destruct (lookup_lt_is_Some_2 K (S d)) as [ck Hck]; [rw HlK (pwf_k _ Hwf); lia|].
    destruct (lookup_lt_is_Some_2 V (S d)) as [cv Hcv]; [rw HlV (pwf_v _ Hwf); lia|].
    wp_step. rw /PagedKVCache.update. wp_step. wp_step; [done|]. wp_step.
    eapply wp_mono; [by eapply pass_layer_spec|..|done].
    intros r s1 (-> & Hc & HI1 & Hsh & Ha & Hrows). wp_step.
    pose proof Hsh as (_ & HL & _).
    eapply wp_mono; [by eapply IH; [done|rw HL; lia|done]|..|done].
    intros rs s2 (-> & Hidle & Hap & Hc2 & Ha2). wp_step.
    rw (drop_S K ck) // (drop_S V cv) // !drop_insert_lt; [|lia..]. cbn [zip_with].
    rw -!(append_rows_cons (S d) _ _ _ _ Hck) -!(append_rows_cons (S d) _ _ _ _ Hcv).
    split_and!; try done; [by eapply apart_trans; [split|]|congruence|congruence].
Qed.

(** A whole pass from an idle cache: every layer reads what it held followed by
    its new rows, or the pass raises before writing anything. *)
Lemma forward_pass_spec s Y n K V k v kvs :
  idle s Y K V → S (length kvs) = num_hidden_layers s.1 →
  Forall (λ kv, length kv.1 = n ∧ length kv.2 = n) ((k, v) :: kvs) →
  wp (update_layers 0 ((k, v) :: kvs))
     (λ r s', r = zip (zip_with app K (k :: kvs.*1)) (zip_with app V (v :: kvs.*2)) ∧
        idle s' Y (zip_with app K (k :: kvs.*1)) (zip_with app V (v :: kvs.*2)) ∧ apart Y s s' ∧
        num_tokens s'.2 = num_tokens s.2 + n ∧
        BlockAllocator.num_free (allocator s'.1) + pass_cost s Y n
        = BlockAllocator.num_free (allocator s.1))
     (λ e s', e = OutOfBlocks ∧ owned s' Y ∧ apart Y s s' ∧
        BlockAllocator.num_free (allocator s.1) < pass_cost s Y n) s.
Proof.
  intros Hid Hlen Hkv. apply Forall_cons in Hkv as [[Hk Hv] Hkv]. simpl in Hk, Hv.
  cbn [update_layers]. wp_step. rw /PagedKVCache.update Nat.eqb_refl Hk. wp_step.
  eapply wp_mono; [by eapply pass_begin_spec| |].
  2:{ intros e s' (-> & HO & Hsh & Hrows & Hlt). by split_and!; [..|split|]. }
  intros _ s1 (HI & Hsh & Hrows & Hnt & Hcost). pose proof HI as ((HO & _) & [HlK _] & [HlV _]).
  pose proof (own_wf _ _ HO) as Hwf. pose proof Hsh as (_ & HL & _).
  destruct K as [|ck K]; [simpl in HlK; rw (pwf_k _ Hwf) in HlK; lia|].
  destruct V as [|cv V]; [simpl in HlV; rw (pwf_v _ Hwf) in HlV; lia|].
  eapply wp_mono; [by eapply pass_layer_spec|..|done].
  intros r s2 (-> & Hc & HI2 & Hsh2 & Ha & Hrows2). pose proof Hsh2 as (_ & HL2 & _). wp_step.
  eapply wp_mono; [eapply pass_layers_spec; [done|rw HL2; lia|done]|..|done].
  intros rs s3 (-> & Hid3 & Hap & Hc3 & Ha3). wp_step.
  split_and!; [done|done| |congruence|congruence].
  by eapply apart_trans; [|done]; eapply apart_trans; split.
Qed.

(** ** Every live cache of a pool *)

(** The rows cache [c] reads from layer [l]: the abstraction of the block table. *)
Definition contents p c (l : nat) : option (list T * list T) :=
  rk ← view (pool_k p) (take (num_tokens c) (_slots c)) l;
  rv ← view (pool_v p) (take (num_tokens c) (_slots c)) l;
  Some (rk, rv).

Definition refs_of (cs : list Cache) : gmultiset nat := list_to_set_disj (cs ≫= block_table).

Record cache_wf p c : Prop := {
  cwf_slots : _slots c = slots_of (block_size p) (block_table c);
  cwf_tight : tight (p, c);
}.

(** The invariant of the paged cache: [cs] are the live sequences, [Z] the block
    references held by anyone else (the prefix cache). *)
Record heap p (cs : list Cache) Z : Prop := {
  heap_wf : pool_wf p;
  heap_acc : accounted (allocator p) (refs_of cs ⊎ Z);
  heap_caches : Forall (cache_wf p) cs;
}.

Lemma refs_of_cons c cs : refs_of (c :: cs) = list_to_set_disj (block_table c) ⊎ refs_of cs.
Proof. by rw /refs_of bind_cons list_to_set_disj_app. Qed.

Lemma refs_of_delete cs i c :
  cs !! i = Some c → refs_of cs = list_to_set_disj (block_table c) ⊎ refs_of (delete i cs).
Proof.
  revert i. induction cs as [|c' cs IH]; intros [|i] Hi; simplify_eq/=; rw !refs_of_cons //.
  rw (IH _ Hi). multiset_solver.
Qed.

Lemma refs_of_insert cs i c c' :
  cs !! i = Some c →
  refs_of (<[i := c']> cs) = list_to_set_disj (block_table c') ⊎ refs_of (delete i cs).
Proof.
  revert i. induction cs as [|c2 cs IH]; intros [|i] Hi; simplify_eq/=; rw !refs_of_cons //.
  rw (IH _ Hi). multiset_solver.
Qed.

(** The references of everybody but cache [i]. *)
Definition others (cs : list Cache) (i : nat) Z : gmultiset nat := refs_of (delete i cs) ⊎ Z.

Lemma heap_owned p cs Z i c :
  heap p cs Z → cs !! i = Some c → owned (p, c) (others cs i Z) ∧ tight (p, c).
Proof.
  intros [Hwf HA Hcs] Hi. destruct (Forall_lookup_1 _ _ _ _ Hcs Hi) as [Hsl Hti].
  split; [|done]. split; [done| |done]. simpl. rw (refs_of_delete _ _ _ Hi) in HA.
  by rw /others assoc.
Qed.

Lemma others_table cs i Z j c :
  cs !! j = Some c → i ≠ j → (list_to_set_disj (block_table c) : gmultiset nat) ⊆ others cs i Z.
Proof.
  intros Hj Hne. rw /others. destruct (decide (i < j)).
  - assert (delete i cs !! (j - 1) = Some c) as Hj'.
    { rw list_lookup_delete_ge; [|lia]. by replace (S (j - 1)) with j by lia. }
    rw (refs_of_delete _ _ _ Hj'). multiset_solver.
  - assert (delete i cs !! j = Some c) as Hj' by (rw list_lookup_delete_lt //; lia).
    rw (refs_of_delete _ _ _ Hj'). multiset_solver.
Qed.

Lemma cache_wf_shape p p' c : same_shape p p' → cache_wf p c → cache_wf p' c.
Proof. by intros (Hb & _) [H1 H2]; split; rw /tight /= Hb. Qed.

Lemma owned_heap p cs Z i c p' c' :
  heap p cs Z → cs !! i = Some c → owned (p', c') (others cs i Z) → tight (p', c') →
  same_shape p p' → heap p' (<[i := c']> cs) Z.
Proof.
  intros [Hwf HA Hcs] Hi [Hwf' HA' Hsl'] Ht Hsh. split; [done|..].
  - rw (refs_of_insert _ _ _ _ Hi). simpl in HA'. by rw /others assoc in HA'.
  - apply Forall_insert; [|by split].
    eapply Forall_impl; [done|]. intros ?. by apply cache_wf_shape.
Qed.

(** Rows of blocks in [Y] are untouched, hence so is any table inside [Y]. *)
Lemma rows_keep_view Y p p' tbl m l :
  0 < block_size p → rows_keep Y [] [] p p' → (list_to_set_disj tbl : gmultiset nat) ⊆ Y →
  let sl := take m (slots_of (block_size p) tbl) in
  view (pool_k p') sl l = view (pool_k p) sl l ∧ view (pool_v p') sl l = view (pool_v p) sl l.
Proof.
  intros Hbs Hrows Hsub sl.
  destruct (rows_keep_other Y [] [] p p' tbl m Hbs Hrows Hsub) as [Hk Hv]. fold sl in Hk, Hv.
  assert (∀ t t' : list T, row_keep (block_size p) Y sl sl t t' →
    index_select t' sl = index_select t sl) as Hsel.
  { intros t t' (_ & _ & Hs%Forall2_diag_1). apply index_select_ext. by apply Forall_forall. }
  assert (∀ buf buf', Forall2 (row_keep (block_size p) Y sl sl) buf buf' →
    view buf' sl l = view buf sl l) as Hvw.
  { intros buf buf' HF. rw /view. destruct (buf !! l) as [t|] eqn:Ht; simpl.
    - destruct (Forall2_lookup_l _ _ _ _ _ HF Ht) as (t' & -> & Hr). by apply Hsel.
    - apply lookup_ge_None in Ht. rw (Forall2_length _ _ _ HF) in Ht.
      by rw (proj2 (lookup_ge_None _ _) Ht). }
  by rw (Hvw _ _ Hk) (Hvw _ _ Hv).
Qed.

Lemma apart_contents p p' c c1 c2 Y l :
  0 < block_size p → apart Y (p, c1) (p', c2) → cache_wf p c →
  (list_to_set_disj (block_table c) : gmultiset nat) ⊆ Y → contents p' c l = contents p c l.
Proof.
  intros Hbs [_ Hrows] [Hsl _] Hsub. simpl in Hrows.
  destruct (rows_keep_view Y p p' (block_table c) (num_tokens c) l Hbs Hrows Hsub) as [Hk Hv].
  by rw /contents Hsl Hk Hv.
Qed.

(** ** Forking and freeing *)

Definition with_allocator (a : BlockAllocator.t) s : PC T := (set_allocator a s.1, s.2).

(** A loop of allocator operations seen from the cache. *)
Lemma wp_for_each_alloc (f : nat → M (PC T) unit) (g : nat → M BlockAllocator.t unit) Q l : ∀ s,
  (∀ b Q' s, wp (g b) (λ u a, Q' u (with_allocator a s)) never (allocator s.1) → wp (f b) Q' never s) →
  wp (for_each l g) (λ u a, Q u (with_allocator a s)) never (allocator s.1) →
  wp (for_each l f) Q never s.
Proof.
  induction l as [|b l IH]; intros s Hf Hg; simpl in *.
  - rw /wp /= /with_allocator in Hg. wp_step. by destruct s as [[] ].
  - apply wp_bind, Hf. rw /wp /bind in Hg. rw /wp.
    destruct (g b (allocator s.1)) as [[u|e] a1]; [|done].
    apply IH; [done|]. by rw /wp.
Qed.

Lemma with_allocator_shape a s :
  BlockAllocator.num_blocks a = BlockAllocator.num_blocks (allocator s.1) →
  same_shape s.1 (with_allocator a s).1.
Proof. by rw /same_shape. Qed.

Lemma pool_wf_allocator a p :
  BlockAllocator.num_blocks a = BlockAllocator.num_blocks (allocator p) →
  pool_wf p → pool_wf (set_allocator a p).
Proof. intros Hn []. by split; simpl; rw ?Hn. Qed.

Lemma fork_spec p c Y :
  owned (p, c) Y →
  wp PagedKVCache.fork
     (λ child s', s'.2 = c ∧ child = mkCache (block_table c) (num_tokens c) 0 (_slots c) ∧
        ∃ a, s'.1 = set_allocator a p ∧
        BlockAllocator.num_blocks a = BlockAllocator.num_blocks (allocator p) ∧
        BlockAllocator._free a = BlockAllocator._free (allocator p) ∧
        accounted a (list_to_set_disj (block_table c) ⊎ (list_to_set_disj (block_table c) ⊎ Y)))
     never (p, c).
Proof.
  intros HO. rw /PagedKVCache.fork. do 3 wp_step.
  apply (wp_for_each_alloc _ BlockAllocator.incref).
  { intros b Q' s H. rw /on_pool /on_allocator. do 2 wp_step. exact H. }
  eapply wp_mono; [apply (incref_loop_spec _ _ (list_to_set_disj (block_table c) ⊎ Y))|..|done].
  - apply HO.
  - intros b Hb. apply gmultiset_elem_of_disj_union. left. by apply elem_of_list_to_set_disj.
  - intros _ a (HA & Hn & Hf). wp_step. split_and!; [done..|]. by exists a.
Qed.

Lemma free_spec p c Y :
  owned (p, c) Y →
  wp PagedKVCache.free
     (λ _ s', s'.2 = mkCache [] 0 (_start c) [] ∧
        ∃ a, s'.1 = set_allocator a p ∧
        BlockAllocator.num_blocks a = BlockAllocator.num_blocks (allocator p) ∧ accounted a Y)
     never (p, c).
Proof.
  intros HO. rw /PagedKVCache.free. do 3 wp_step.
  apply (wp_for_each_alloc _ (λ b, do* BlockAllocator.decref b in ret tt)).
  { intros b Q' s H. rw /on_pool /on_allocator. do 3 wp_step. rw /wp /bind in H. rw /wp.
    by destruct (BlockAllocator.decref b (allocator s.1)) as [[]]. }
  eapply wp_mono; [apply (decref_loop_spec _ _ Y)|..|done]; [apply HO|].
  intros _ a (HA & Hn). rw /on_cache. do 2 wp_step. split; [done|]. by exists a.
Qed.

Lemma owned_idle p c Y : owned (p, c) Y → tight (p, c) →
  ∀ l, l < num_hidden_layers p → ∃ ck cv, contents p c l = Some (ck, cv).
Proof.
  intros HO Ht l Hl. pose proof (own_wf _ _ HO) as Hwf. simpl in Hwf.
  assert (∀ t : list T, length t = BlockAllocator.num_blocks (allocator p) * block_size p →
    ∃ r, index_select t (take (num_tokens c) (_slots c)) = Some r) as Hsel.
  { intros t Hlt. apply index_select_total. intros a (i & Ha%list_elem_of_lookup_2 & _)%elem_of_take.
    rw (own_slots _ _ HO) /= in Ha.
    pose proof (pwf_bs _ Hwf). apply slots_of_block in Ha; [|done].
    assert (a / block_size p < BlockAllocator.num_blocks (allocator p)).
    { apply (acc_bound _ _ (own_acc _ _ HO)), gmultiset_elem_of_disj_union. left.
      by apply elem_of_list_to_set_disj. }
    rw Hlt. pose proof (Nat.div_mod_eq a (block_size p)).
    pose proof (Nat.mod_upper_bound a (block_size p) ltac:(lia)). nia. }
  destruct (lookup_lt_is_Some_2 (pool_k p) l) as [tk Htk]; [by rw (pwf_k _ Hwf)|].
  destruct (lookup_lt_is_Some_2 (pool_v p) l) as [tv Htv]; [by rw (pwf_v _ Hwf)|].
  destruct (Hsel tk) as [rk Hrk]; [by eapply pwf_k_len|].
  destruct (Hsel tv) as [rv Hrv]; [by eapply pwf_v_len|].
  exists rk, rv. by rw /contents /view Htk Htv /= Hrk Hrv.
Qed.
End write.

(** ** Arbitrary use of the allocator *)

Inductive alloc_cmd :=
  | CAllocate
  | CAllocateMany (n : nat)
  | CIncref (b : nat)
  | CDecref (b : nat).

Definition run_cmd (c : alloc_cmd) (a : BlockAllocator.t) : BlockAllocator.t :=
  match c with
  | CAllocate => (BlockAllocator.allocate a).2
  | CAllocateMany n => (BlockAllocator.allocate_many n a).2
  | CIncref b => (BlockAllocator.incref b a).2
  | CDecref b => (BlockAllocator.decref b a).2
  end.

(** The free list holds each unreferenced block once, and nothing else. *)
Record consistent (a : BlockAllocator.t) : Prop := {
  con_nodup : NoDup (BlockAllocator._free a);
  con_free b : b ∈ BlockAllocator._free a ↔ BlockAllocator._refs a !! b = Some 0;
  con_count : BlockAllocator.num_allocated a
    = Z.of_nat (length (filter (λ r, 0 < r) (BlockAllocator._refs a)));
}.

Section misuse.
Import BlockAllocator.
Implicit Types (a : t) (X : gmultiset nat).

Lemma wp_state {A} (m : M t A) (P : t → Prop) a :
  wp m (λ _, P) (λ _, P) a → P (m a).2.
Proof. rw /wp. by destruct (m a) as [[]]. Qed.

Lemma allocate_many_spec a X n :
  accounted a X →
  wp (allocate_many n)
     (λ r a', match r with
              | None => num_free a < n ∧ a' = a
              | Some os => ∃ bs, os = Some <$> bs ∧ length bs = n ∧ NoDup bs ∧ (∀ b, b ∈ bs → b ∉ X) ∧
                  accounted a' (list_to_set_disj bs ⊎ X) ∧ num_blocks a' = num_blocks a ∧
                  num_free a' + n = num_free a
              end) never a.
Proof.
  intros HA. rw /allocate_many. do 2 wp_step. destruct (Nat.ltb_spec (length (_free a)) n) as [Hlt|Hge].
  - by wp_step.
  - wp_step. eapply wp_mono; [apply (allocate_loop_spec n a X HA Hge); by rw length_seq|..|done].
    intros os a' H. by wp_step.
Qed.

Lemma run_cmd_accounted c a :
  (∃ X, accounted a X) → ∃ X, accounted (run_cmd c a) X.
Proof.
  intros [X HA]. destruct c as [|n|b|b]; simpl.
  - apply (wp_state allocate (λ a', ∃ X, accounted a' X)).
    eapply wp_mono; [by eapply allocate_spec| |done].
    intros [b|] a'; [intros (? & _); by eexists|intros [-> _]; by eexists].
  - apply (wp_state (allocate_many n) (λ a', ∃ X, accounted a' X)).
    eapply wp_mono; [by eapply allocate_many_spec| |done].
    intros [os|] a'; [intros (? & ? & ? & ? & ? & ? & _); by eexists|intros [_ ->]; by eexists].
  - destruct (_refs a !! b) as [[|r]|] eqn:Hb.
    + exists X. by rw /incref /bind /get_ref Hb.
    + apply (wp_state (incref b) (λ a', ∃ X, accounted a' X)).
      destruct (acc_ref_bound _ _ _ _ HA Hb) as [_ Hr].
      eapply wp_mono; [eapply incref_spec; [done|apply elem_of_multiplicity; lia]| |done].
      intros _ a' [? _]. by eexists.
    + exists X. by rw /incref /bind /get_ref Hb.
  - destruct (_refs a !! b) as [[|r]|] eqn:Hb.
    + exists X. by rw /decref /bind /get_ref Hb.
    + apply (wp_state (decref b) (λ a', ∃ X, accounted a' X)).
      destruct (acc_ref_bound _ _ _ _ HA Hb) as [_ Hr].
      assert (b ∈ X) as HbX by (apply elem_of_multiplicity; lia).
      eapply wp_mono; [apply (decref_spec _ (X ∖ {[+ b +]}))| |done].
      { by rw -gmultiset_disj_union_difference'. }
      intros ? a' [? _]. by eexists.
    + exists X. by rw /decref /bind /get_ref Hb.
Qed.

(** The held blocks, counted in the reference array. *)
Lemma length_filter_zip (refs : list nat) (k : nat) :
  length (filter (λ r, 0 < r) refs)
  = length (filter (λ i, 0 < default 0 (refs !! (i - k))) (seq k (length refs))).
Proof.
  revert k. induction refs as [|r refs IH]; intros k; [done|]. simpl.
  assert (filter (λ i, 0 < default 0 (refs !! (i - S k))) (seq (S k) (length refs))
    = filter (λ i, 0 < default 0 ((r :: refs) !! (i - k))) (seq (S k) (length refs))) as Heq.
  { apply list_filter_ext_in. intros x [Hx _]%elem_of_seq.
    by replace (x - k) with (S (x - S k)) by lia. }
  rw !filter_cons -Heq Nat.sub_diag /=. specialize (IH (S k)).
  destruct (decide (0 < r)); simpl; by rw IH.
Qed.

Lemma accounted_consistent a X : accounted a X → consistent a.
Proof.
  intros HA. split.
  - by eapply acc_nodup.
  - intros b. rw (acc_free _ _ HA). split.
    + intros [Hlt Hn%not_elem_of_multiplicity]. rw (acc_refs _ _ HA _ Hlt). by rw Hn.
    + intros Hb. destruct (acc_ref_bound _ _ _ _ HA Hb) as [Hlt Hm]. split; [done|].
      apply not_elem_of_multiplicity. lia.
  - pose proof (accounted_num_free _ _ HA) as Hc. rw /num_allocated. rw /num_free in Hc.
    assert (length (filter (λ r, 0 < r) (_refs a)) = size (dom X : gset nat)); [|lia].
    rw (length_filter_zip _ 0). rw -(size_list_to_set (C:=gset nat)); last first.
    { apply NoDup_filter, NoDup_seq. }
    f_equal. apply set_eq. intros b.
    rw elem_of_list_to_set list_elem_of_filter elem_of_seq gmultiset_elem_of_dom Nat.sub_0_r.
    rw (acc_len _ _ HA). split.
    + intros [Hb [_ Hlt]]. simpl in Hlt. rw (acc_refs _ _ HA _ Hlt) in Hb. by apply elem_of_multiplicity.
    + intros Hb. pose proof (acc_bound _ _ HA _ Hb) as Hlt. rw (acc_refs _ _ HA _ Hlt).
      split; [by apply elem_of_multiplicity|lia].
Qed.
End misuse.

(** ** Properties *)

Section heap_lemmas.
Context {T : Type}.
Implicit Types (p : Pool T) (c : Cache) (s : PC T) (cs : list Cache) (Y Z : gmultiset nat).

Lemma heap_init (zero : T) layers blocks bs :
  0 < bs → heap (PagedCachePool.init zero layers blocks bs) [PagedKVCache.init] ∅.
Proof.
  intros Hbs. split.
  - split; simpl; [done|by rw length_replicate|by rw length_replicate|..];
      intros l t [-> _]%lookup_replicate; by rw length_replicate.
  - apply accounted_init.
  - constructor; [|done]. split; [done|]. by rw /tight /= ceil_div_0.
Qed.

(** The caches other than [i] read the same rows after an operation apart from them. *)
Definition undisturbed p p' cs i : Prop :=
  ∀ j c l, j ≠ i → cs !! j = Some c → contents p' c l = contents p c l.

Lemma apart_undisturbed p cs Z i c s' :
  heap p cs Z → apart (others cs i Z) (p, c) s' → undisturbed p s'.1 cs i.
Proof.
  intros HH Hap j c' l Hne Hj. destruct s' as [p' c1].
  eapply apart_contents; [|done|by eapply Forall_lookup_1; [apply HH|]|by eapply others_table].
  apply (pwf_bs _ (heap_wf _ _ _ HH)).
Qed.

Lemma set_allocator_undisturbed a p cs i : undisturbed p (set_allocator a p) cs i.
Proof. done. Qed.

(** The per-layer rows of a cache as two lists. *)
Lemma heap_idle p cs Z i c :
  heap p cs Z → cs !! i = Some c →
  ∃ K V, idle (p, c) (others cs i Z) K V ∧
    ∀ l ck cv, contents p c l = Some (ck, cv) ↔ K !! l = Some ck ∧ V !! l = Some cv.
Proof.
  intros HH Hi. destruct (heap_owned _ _ _ _ _ HH Hi) as [HO Ht].
  pose proof (heap_wf _ _ _ HH) as Hwf.
  set (sl := take (num_tokens c) (_slots c)).
  set (K := (λ l, default [] (view (pool_k p) sl l)) <$> seq 0 (num_hidden_layers p)).
  set (V := (λ l, default [] (view (pool_v p) sl l)) <$> seq 0 (num_hidden_layers p)).
  assert (∀ l, l < num_hidden_layers p → ∃ ck cv, view (pool_k p) sl l = Some ck ∧
    view (pool_v p) sl l = Some cv ∧ K !! l = Some ck ∧ V !! l = Some cv) as HKV.
  { intros l Hl. destruct (owned_idle _ _ _ HO Ht l Hl) as (ck & cv & Hc).
    rw /contents -/sl in Hc. destruct (view (pool_k p) sl l) as [rk|] eqn:Hk; [|done].
    destruct (view (pool_v p) sl l) as [rv|] eqn:Hv; [|done]. simpl in Hc. simplify_eq.
    exists ck, cv. split_and!; [done..|subst K|subst V];
      rw list_lookup_fmap lookup_seq_lt // /= ?Hk ?Hv //. }
  exists K, V. split.
  - split_and!; [done|done|..]; simpl.
    + subst K. by rw length_fmap length_seq (pwf_k _ Hwf).
    + intros l r Hl. pose proof (lookup_lt_Some _ _ _ Hl) as Hlt.
      subst K. rw length_fmap length_seq in Hlt. destruct (HKV _ Hlt) as (? & ? & ? & ? & ? & ?).
      simplify_eq. done.
    + subst V. by rw length_fmap length_seq (pwf_v _ Hwf).
    + intros l r Hl. pose proof (lookup_lt_Some _ _ _ Hl) as Hlt.
      subst V. rw length_fmap length_seq in Hlt. destruct (HKV _ Hlt) as (? & ? & ? & ? & ? & ?).
      simplify_eq. done.
  - intros l ck cv. destruct (decide (l < num_hidden_layers p)) as [Hl|Hl].
    + destruct (HKV _ Hl) as (ck' & cv' & Hk & Hv & -> & ->). rw /contents -/sl Hk Hv /=. naive_solver.
    + rw /contents /view (lookup_ge_None_2 (pool_k p)); [|rw (pwf_k _ Hwf); lia]. simpl.
      rw (lookup_ge_None_2 K); [naive_solver|]. subst K. rw length_fmap length_seq. lia.
Qed.

Lemma idle_contents s Y K V l ck cv :
  idle s Y K V → K !! l = Some ck → V !! l = Some cv → contents s.1 s.2 l = Some (ck, cv).
Proof. intros (_ & _ & [_ HK] & [_ HV]) Hk Hv. by rw /contents (HK _ _ Hk) (HV _ _ Hv). Qed.
End heap_lemmas.

(** C8: a forward pass refines appending.  In a well-formed heap, running [update]
    on every layer of cache [i] with [n] new tokens per layer either raises
    [OutOfBlocks], exactly when the free list is shorter than the blocks the pass
    needs (copy-on-write included), or returns, per layer, the rows the cache held
    followed by the new ones, keeps the heap well formed and takes exactly those
    blocks; in both cases no other cache of the pool sees any of its rows change. *)
Theorem pass_refines_append {T} (p : Pool T) cs Z i c n kvs :
  heap p cs Z → cs !! i = Some c → 0 < num_hidden_layers p →
  length kvs = num_hidden_layers p → Forall (λ kv, length kv.1 = n ∧ length kv.2 = n) kvs →
  let cost := pass_cost (p, c) (others cs i Z) n in
  wp (update_layers 0 kvs)
     (λ r s', heap s'.1 (<[i := s'.2]> cs) Z ∧ num_tokens s'.2 = num_tokens c + n ∧
        (∀ l ck cv k v, contents p c l = Some (ck, cv) → kvs !! l = Some (k, v) →
           r !! l = Some (ck ++ k, cv ++ v) ∧ contents s'.1 s'.2 l = Some (ck ++ k, cv ++ v)) ∧
        undisturbed p s'.1 cs i ∧
        BlockAllocator.num_free (allocator s'.1) + cost = BlockAllocator.num_free (allocator p))
     (λ e s', e = OutOfBlocks ∧ BlockAllocator.num_free (allocator p) < cost ∧
        undisturbed p s'.1 cs i) (p, c).
Proof.
  intros HH Hi HL Hlen Hkv cost. destruct (heap_idle _ _ _ _ _ HH Hi) as (K & V & Hid & HKV).
  destruct kvs as [|[k v] kvs]; [simpl in Hlen; lia|].
  eapply wp_mono; [by eapply forward_pass_spec|..].
  - intros r s' (-> & Hid' & Hap & Hnt & Hcost). split_and!; try done.
    + destruct s' as [p' c']. destruct Hid' as (HO' & Ht' & _).
      eapply owned_heap; [done..|]. apply Hap.
    + intros l ck cv kl vl [Hk Hv]%HKV Hl.
      assert (zip_with app K (k :: kvs.*1) !! l = Some (ck ++ kl)) as HK'.
      { apply lookup_zip_with_Some. exists ck, kl. split_and!; [done..|].
        change (k :: kvs.*1) with (((k, v) :: kvs).*1). by rw list_lookup_fmap Hl. }
      assert (zip_with app V (v :: kvs.*2) !! l = Some (cv ++ vl)) as HV'.
      { apply lookup_zip_with_Some. exists cv, vl. split_and!; [done..|].
        change (v :: kvs.*2) with (((k, v) :: kvs).*2). by rw list_lookup_fmap Hl. }
      split; [|by eapply idle_contents].
      apply lookup_zip_with_Some. by exists (ck ++ kl), (cv ++ vl).
    + by eapply apart_undisturbed.
  - intros e s' (-> & _ & Hap & Hlt). split_and!; [done|done|by eapply apart_undisturbed].
Qed.

Lemma pass_refines_append_witness :
  let p := PagedCachePool.init 0 2 4 2 in
  let kvs := [([1; 2; 3], [4; 5; 6]); ([7; 8; 9], [10; 11; 12])] in
  (update_layers 0 kvs (p, PagedKVCache.init)).1 = Ok kvs ∧
  wp (update_layers 0 kvs) (λ r s', heap s'.1 [s'.2] ∅) (λ _ _, True) (p, PagedKVCache.init).
Proof.
  intros p kvs. split; [vm_compute; reflexivity|].
  eapply wp_mono.
  - apply (pass_refines_append p [PagedKVCache.init] ∅ 0 PagedKVCache.init 3 kvs).
    + apply heap_init. lia.
    + reflexivity.
    + simpl. lia.
    + reflexivity.
    + repeat constructor.
  - intros r s' [H _]. exact H.
  - intros e s' _. exact I.
Defined.

(** C19: [fork] shares and copies nothing.  The child reads the parent's rows on
    every layer, no block leaves the free list, no cache sees a change, and the heap
    with the child added is well formed, so later writes to either are isolated. *)
Theorem fork_shares {T} (p : Pool T) cs Z i c :
  heap p cs Z → cs !! i = Some c →
  wp PagedKVCache.fork
     (λ child s', s'.2 = c ∧ heap s'.1 (cs ++ [child]) Z ∧
        (∀ l, contents s'.1 child l = contents p c l) ∧
        (∀ j c' l, cs !! j = Some c' → contents s'.1 c' l = contents p c' l) ∧
        BlockAllocator.num_free (allocator s'.1) = BlockAllocator.num_free (allocator p))
     never (p, c).
Proof.
  intros HH Hi. destruct (heap_owned _ _ _ _ _ HH Hi) as [HO Ht].
  eapply wp_mono; [by eapply fork_spec|..|done].
  intros child [p' c'] (Hc & -> & a & Hp & Hn & Hf & HA). simpl in Hc, Hp. subst p' c'.
  split_and!; try done; [|by rw /BlockAllocator.num_free /= Hf].
  split; simpl.
  - apply pool_wf_allocator; [done|apply HH].
  - rw /refs_of bind_app list_to_set_disj_app /= app_nil_r -/(refs_of cs) (refs_of_delete _ _ _ Hi).
    rw /others in HA. by rw (comm (⊎) _ (list_to_set_disj (block_table c))) -!assoc.
  - apply Forall_app. split; [|constructor; [|done]].
    + eapply Forall_impl; [apply (heap_caches _ _ _ HH)|]. intros ? []. by split.
    + split; [apply HO|done].
Qed.

Lemma fork_shares_witness :
  let p := PagedCachePool.init 0 1 4 2 in
  wp PagedKVCache.fork (λ child s', heap s'.1 ([PagedKVCache.init] ++ [child]) ∅) never
    (p, PagedKVCache.init).
Proof.
  intros p. eapply wp_mono.
  - apply (fork_shares p [PagedKVCache.init] ∅ 0 PagedKVCache.init); [apply heap_init; lia|reflexivity].
  - intros child s' (_ & H & _). exact H.
  - intros e s' H. exact H.
Defined.

(** C20: [free] leaks nothing, even after a pass that ran out of blocks half way.
    From the state left by an [OutOfBlocks] (or from no pass at all), [free] gives
    the sequence's references back: the heap without it is well formed, the other
    caches read the same rows, and when nobody else holds a block the whole pool is
    free again. *)
Theorem failed_pass_free {T} (p : Pool T) cs Z i c n kvs e s' :
  heap p cs Z → cs !! i = Some c → 0 < num_hidden_layers p →
  length kvs = num_hidden_layers p → Forall (λ kv, length kv.1 = n ∧ length kv.2 = n) kvs →
  (update_layers 0 kvs (p, c) = (Raise e, s') ∨ s' = (p, c)) →
  wp PagedKVCache.free
     (λ _ s'', heap s''.1 (delete i cs) Z ∧ undisturbed p s''.1 cs i ∧
        (delete i cs = [] → Z = ∅ → BlockAllocator.num_free (allocator s''.1)
           = BlockAllocator.num_blocks (allocator p)))
     never s'.
Proof.
  intros HH Hi HL Hlen Hkv Hs'.
  assert (owned s' (others cs i Z) ∧ apart (others cs i Z) (p, c) s') as [HO Hap].
  { destruct Hs' as [Hrun| ->].
    - destruct (heap_idle _ _ _ _ _ HH Hi) as (K & V & Hid & _).
      destruct kvs as [|[k v] kvs]; [simpl in Hlen; lia|].
      assert (S (length kvs) = num_hidden_layers (p, c).1) as Hlen' by done.
      by destruct (wp_raised _ _ _ _ _ _ Hrun (forward_pass_spec _ _ _ _ _ _ _ _ Hid Hlen' Hkv))
        as (_ & ? & ? & _).
    - split; [by eapply heap_owned|apply apart_refl]. }
  destruct s' as [p1 c1]. eapply wp_mono; [by eapply free_spec|..|done].
  intros _ [p2 c2] (_ & a & Hp & Hn & HA). simpl in Hp. subst p2. simpl.
  destruct Hap as [Hsh Hrows]. simpl in Hsh. split_and!.
  - split; simpl.
    + apply pool_wf_allocator; [done|]. apply (own_wf _ _ HO).
    + done.
    + apply Forall_delete. eapply Forall_impl; [apply (heap_caches _ _ _ HH)|].
      intros c' Hc'. apply (cache_wf_shape _ _ _ Hsh) in Hc' as []. by split.
  - intros j c' l Hne Hj. change (contents (set_allocator a p1) c' l) with (contents p1 c' l).
    by eapply (apart_undisturbed p cs Z i c (p1, c1)).
  - intros Hd ->. rw /others Hd in HA. pose proof (accounted_num_free _ _ HA) as Hc.
    rw right_id_L in Hc. replace (dom (refs_of [])) with (∅ : gset nat) in Hc by set_solver.
    rw size_empty Nat.add_0_r in Hc. destruct Hsh as (_ & _ & <-). by rw Hc Hn.
Qed.

Lemma failed_pass_free_witness :
  let p := PagedCachePool.init 0 1 1 2 in
  let kvs := [([1; 2; 3], [4; 5; 6])] in
  let s' := (update_layers 0 kvs (p, PagedKVCache.init)).2 in
  length (block_table s'.2) = 1 ∧
  wp PagedKVCache.free (λ _ s'', BlockAllocator.num_free (allocator s''.1) = 1) never s'.
Proof.
  intros p kvs s'. split; [vm_compute; reflexivity|]. eapply wp_mono.
  - apply (failed_pass_free p [PagedKVCache.init] ∅ 0 PagedKVCache.init 3 kvs OutOfBlocks s').
    + apply heap_init. lia.
    + reflexivity.
    + simpl. lia.
    + reflexivity.
    + repeat constructor.
    + left. vm_compute. reflexivity.
  - intros _ s'' (_ & _ & H). exact (H eq_refl eq_refl).
  - intros e s'' H. exact H.
Defined.

(** Any sequence of calls, misuse included, leaves an accounted allocator. *)
Lemma run_cmds_accounted (n : nat) (cmds : list alloc_cmd) :
  ∃ X, accounted (foldl (λ a c, run_cmd c a) (BlockAllocator.init n) cmds) X.
Proof.
  assert (∃ X, accounted (BlockAllocator.init n) X) as Ha by (eexists; apply accounted_init).
  revert Ha. generalize (BlockAllocator.init n). induction cmds as [|c cmds IH]; intros a Ha; [done|].
  by apply IH, run_cmd_accounted.
Qed.

(** [allocate_many] is all or nothing: it returns [n] distinct blocks that
    nobody held, or [None], exactly when fewer than [n] are free, changing nothing. *)
Theorem allocate_many_atomic (a : BlockAllocator.t) (X : gmultiset nat) n :
  accounted a X →
  (n ≤ BlockAllocator.num_free a ∧ ∃ bs a', BlockAllocator.allocate_many n a = (Ok (Some (Some <$> bs)), a') ∧
     length bs = n ∧ NoDup bs ∧ (∀ b, b ∈ bs → b ∉ X) ∧ accounted a' (list_to_set_disj bs ⊎ X)) ∨
  (BlockAllocator.num_free a < n ∧ BlockAllocator.allocate_many n a = (Ok None, a)).
Proof.
  intros HA. apply (allocate_many_spec a X n), wp_never in HA as (r & a' & Hrun & HQ). rw Hrun.
  destruct r as [os|].
  - destruct HQ as (bs & -> & Hlen & Hnd & Hfr & HA & _ & Hf). left. split; [lia|]. by exists bs, a'.
  - destruct HQ as [Hlt ->]. by right.
Qed.

Lemma allocate_many_atomic_witness :
  BlockAllocator.allocate_many 2 (BlockAllocator.init 3)
  = (Ok (Some [Some 0; Some 1]), BlockAllocator.mk 3 [2] [1; 1; 0]) ∧
  ∃ bs a', BlockAllocator.allocate_many 2 (BlockAllocator.init 3) = (Ok (Some (Some <$> bs)), a') ∧ NoDup bs.
Proof.
  split; [vm_compute; reflexivity|].
  destruct (allocate_many_atomic (BlockAllocator.init 3) ∅ 2 (accounted_init 3))
    as [(_ & bs & a' & H & _ & Hnd & _)|[H _]].
  - exists bs, a'. split; assumption.
  - vm_compute in H. lia.
Defined.

(** [can_fit] is exact.  A sequence that holds no block can run a pass of [n]
    tokens if and only if [can_fit(n)] says so. *)
Theorem can_fit_exact {T} (p : Pool T) cs Z i n kvs :
  heap p cs Z → cs !! i = Some PagedKVCache.init → 0 < num_hidden_layers p →
  length kvs = num_hidden_layers p → Forall (λ kv, length kv.1 = n ∧ length kv.2 = n) kvs →
  PagedCachePool.can_fit n p = true ↔
  ∃ r s', update_layers 0 kvs (p, PagedKVCache.init) = (Ok r, s').
Proof.
  intros HH Hi HL Hlen Hkv. destruct (heap_idle _ _ _ _ _ HH Hi) as (K & V & Hid & _).
  destruct kvs as [|[k v] kvs]; [simpl in Hlen; lia|].
  pose proof (forward_pass_spec (p, PagedKVCache.init) _ n K V k v kvs Hid Hlen Hkv) as Hwp.
  assert (pass_cost (p, PagedKVCache.init) (others cs i Z) n = ceil_div n (block_size p)) as Hcost.
  { rw /pass_cost /= Nat.Div0.mod_0_l /=. lia. }
  rw /PagedCachePool.can_fit Nat.leb_le -Hcost. rw /wp in Hwp.
  destruct (update_layers 0 ((k, v) :: kvs) (p, PagedKVCache.init)) as [[r|e] s'].
  - destruct Hwp as (_ & _ & _ & _ & Hf). simpl in Hf. split; [by eauto|lia].
  - destruct Hwp as (_ & _ & _ & Hf). simpl in Hf. split; [lia|]. by intros (? & ? & ?).
Qed.

Lemma can_fit_exact_witness :
  let p := PagedCachePool.init 0 1 1 2 in
  PagedCachePool.can_fit 3 p = false ∧
  ¬ ∃ r s', update_layers 0 [([1; 2; 3], [4; 5; 6])] (p, PagedKVCache.init) = (Ok r, s').
Proof.
  intros p. split; [vm_compute; reflexivity|]. intros Hrun.
  assert (PagedCachePool.can_fit 3 p = true) as H; [|vm_compute in H; discriminate].
  apply (can_fit_exact p [PagedKVCache.init] ∅ 0 3 [([1; 2; 3], [4; 5; 6])]).
  - apply heap_init. lia.
  - reflexivity.
  - simpl. lia.
  - reflexivity.
  - repeat constructor.
  - exact Hrun.
Defined.

(** ** Accounting *)

Lemma size_dom_list (l : list nat) : size (dom (list_to_set_disj l : gmultiset nat) : gset nat) ≤ length l.
Proof.
  induction l as [|x l IH]; [done|].
  replace (dom (list_to_set_disj (x :: l) : gmultiset nat)) with ({[x]} ∪ dom (list_to_set_disj l : gmultiset nat)).
  - rw size_union_alt size_singleton. simpl.
    assert (dom (list_to_set_disj l : gmultiset nat) ∖ {[x]} ⊆ dom (list_to_set_disj l : gmultiset nat))
      as Hs%subseteq_size by set_solver. lia.
  - apply set_eq. intros y.
    rw elem_of_union elem_of_singleton !gmultiset_elem_of_dom !elem_of_list_to_set_disj elem_of_cons. done.
Qed.

Definition sum_tokens (cs : list Cache) : nat := sum_list_with num_tokens cs.

Lemma table_slack {T} (p : Pool T) cs :
  0 < block_size p → Forall (cache_wf p) cs →
  length (cs ≫= block_table) * block_size p ≤ sum_tokens cs + length cs * (block_size p - 1) ∧
  sum_tokens cs ≤ length (cs ≫= block_table) * block_size p.
Proof.
  intros Hbs. rw /sum_tokens. induction 1 as [|c cs [_ Ht] _ IH]; [simpl; lia|].
  rw bind_cons length_app /=. rw /tight /= in Ht.
  pose proof (ceil_div_mul_lt (num_tokens c) (block_size p) Hbs).
  pose proof (ceil_div_mul_ge (num_tokens c) (block_size p) Hbs). rw -Ht in H, H0. nia.
Qed.

(** Paging wastes less than one block per sequence.  With no foreign
    references the reported [internal_fragmentation] (reserved minus used slots) is
    at most [block_size - 1] per live sequence, shared blocks or not, and
    [external_fragmentation] is zero. *)
Theorem fragmentation_bound {T} (p : Pool T) cs cfg itemsize :
  heap p cs ∅ →
  let st := stats cfg itemsize (Z.of_nat (sum_tokens cs)) p in
  (0 ≤ bst_internal_fragmentation st ≤ Z.of_nat (length cs) * (Z.of_nat (block_size p) - 1))%Z ∧
  bst_external_fragmentation st = 0%Z ∧ (bst_allocated st + bst_free st = bst_total st)%Z.
Proof.
  intros [Hwf HA Hcs] st. pose proof (pwf_bs _ Hwf) as Hbs.
  destruct (table_slack p cs Hbs Hcs) as [Hle _].
  rw right_id_L in HA. pose proof (accounted_num_free _ _ HA) as Hn.
  pose proof (size_dom_list (cs ≫= block_table)) as Hs. rw -/(refs_of cs) in Hs.
  rw /BlockAllocator.num_free in Hn.
  subst st. rw /bst_internal_fragmentation /bst_tokens_allocated /bst_free /BlockAllocator.num_allocated /=.
  split_and!; [lia| |done|lia]. rw /BlockAllocator.num_allocated. nia.
Qed.

Lemma fragmentation_bound_witness :
  let p := PagedCachePool.init 0 1 4 2 in
  (0 ≤ bst_internal_fragmentation (stats TINY 2 0 p) ≤ 1)%Z.
Proof.
  intros p. destruct (fragmentation_bound p [PagedKVCache.init] TINY 2) as [H _].
  - apply heap_init. lia.
  - exact H.
Defined.

(** [blocks_for_budget] sizes the largest pool that fits: the pool built with
    that many blocks stays within the byte budget and one more block would not. *)
Theorem blocks_for_budget_maximal {T} (zero : T) cfg budget bs itemsize :
  (0 ≤ budget)%Z → (0 < bytes_per_token cfg itemsize)%Z → 0 < bs →
  let n := Z.to_nat (blocks_for_budget cfg budget (Z.of_nat bs) itemsize) in
  let layers := Z.to_nat (Config.num_hidden_layers cfg) in
  (total_bytes cfg itemsize (PagedCachePool.init zero layers n bs) ≤ budget
   < total_bytes cfg itemsize (PagedCachePool.init zero layers (S n) bs))%Z.
Proof.
  intros Hb Hbpt Hbs n layers. rw /total_bytes /=.
  assert (blocks_for_budget cfg budget (Z.of_nat bs) itemsize
    = Z.max 0 (budget / (bytes_per_token cfg itemsize * Z.of_nat bs)))%Z as Heq by done.
  set (u := bytes_per_token cfg itemsize) in *.
  pose proof (Z.div_mod budget (u * Z.of_nat bs) ltac:(nia)) as Hd.
  pose proof (Z.mod_pos_bound budget (u * Z.of_nat bs) ltac:(nia)) as Hm.
  pose proof (Z.div_pos budget (u * Z.of_nat bs) Hb ltac:(nia)) as Hp.
  subst n. rw Heq Z.max_r // Z2Nat.id //. rw Nat2Z.inj_succ Z2Nat.id //. nia.
Qed.

Lemma blocks_for_budget_maximal_witness :
  blocks_for_budget NANO_27M 10000000 16 2 = 152%Z ∧
  (total_bytes NANO_27M 2 (PagedCachePool.init 0 8 152 16) ≤ 10000000)%Z.
Proof.
  split; [vm_compute; reflexivity|].
  apply (blocks_for_budget_maximal 0 NANO_27M 10000000 16 2).
  - lia.
  - vm_compute. reflexivity.
  - lia.
Defined.
