(* ===== verification/BlockIds.v ===== *)
(** * Block ids as integers (engine/block_manager.py, BlockAllocator)

    Python lists accept negative indices, so that the allocator's methods accept any
    integer: [-1] names the last block.  [RawAllocator] is the class with such ids, and
    it is related, call by call, to the allocator over natural numbers that the rest of
    the development uses: reading every id as the block it names, the two agree. *)

From Stdlib Require Import ssreflect.
From stdpp Require Import prelude gmap gmultiset strings list.
From S2P Require Import Prelude Config BlockManager.
#[local] Open Scope Z_scope.

(** The position [l[i]] refers to in a list of length [n]. *)
Definition py_index (n : nat) (i : Z) : option nat :=
  if bool_decide (0 ≤ i < Z.of_nat n) then Some (Z.to_nat i)
  else if bool_decide (- Z.of_nat n ≤ i < 0) then Some (Z.to_nat (i + Z.of_nat n))
  else None.

Module RawAllocator.

Record t := mk {
  num_blocks : nat;
  _free : list Z;
  _refs : list nat;
}.

Definition init (num_blocks : nat) : t :=
  mk num_blocks (reversed (Z.of_nat <$> seq 0 num_blocks)) (replicate num_blocks 0%nat).

Definition set_free (l : list Z) (a : t) : t := mk (num_blocks a) l (_refs a).
Definition set_refs (l : list nat) (a : t) : t := mk (num_blocks a) (_free a) l.

(** [self._refs[block]] as a read and as an assignment target. *)
Definition get_ref (block : Z) : M t nat := λ a,
  match py_index (length (_refs a)) block ≫= (λ i, _refs a !! i) with
  | Some r => (Ok r, a)
  | None => (Raise IndexError, a)
  end.
Definition set_ref (block : Z) (r : nat) : M t unit := λ a,
  match py_index (length (_refs a)) block with
  | Some i => (Ok tt, set_refs (<[i := r]> (_refs a)) a)
  | None => (Raise IndexError, a)
  end.

Definition allocate : M t (option Z) :=
  let* a := get in
  match py_pop (_free a) with
  | None => ret None
  | Some (block, rest) =>
      do* modify (set_free rest) in
      do* set_ref block 1 in
      ret (Some block)
  end.

(** [range(n)] is empty for a negative [n]. *)
Definition allocate_many (n : Z) : M t (option (list (option Z))) :=
  let* a := get in
  if bool_decide (Z.of_nat (length (_free a)) < n) then ret None
  else let* blocks := for_list (seq 0 (Z.to_nat n)) (λ _, allocate) in ret (Some blocks).

Definition incref (block : Z) : M t unit :=
  let* r := get_ref block in
  if (r <=? 0)%nat then raise RuntimeError
  else set_ref block (r + 1).

Definition decref (block : Z) : M t bool :=
  let* r := get_ref block in
  if (r <=? 0)%nat then raise RuntimeError
  else
    do* set_ref block (r - 1) in
    let* r' := get_ref block in
    if (r' =? 0)%nat then
      do* modify (λ a, set_free (_free a ++ [block]) a) in
      ret true
    else ret false.

Definition ref_count (block : Z) : M t nat := get_ref block.
Definition num_allocated (a : t) : Z := Z.of_nat (num_blocks a) - Z.of_nat (length (_free a)).
End RawAllocator.

(** ** Calls *)

Inductive raw_call :=
  | RAllocate
  | RAllocateMany (n : Z)
  | RIncref (b : Z)
  | RDecref (b : Z).

Definition run_raw (c : raw_call) (a : RawAllocator.t) : RawAllocator.t :=
  match c with
  | RAllocate => (RawAllocator.allocate a).2
  | RAllocateMany n => (RawAllocator.allocate_many n a).2
  | RIncref b => (RawAllocator.incref b a).2
  | RDecref b => (RawAllocator.decref b a).2
  end.

(** The ids a call names. *)
Definition names (c : raw_call) : list Z :=
  match c with RIncref b | RDecref b => [b] | _ => [] end.

(** ** The simulation *)

Section simulation.
(** The number of blocks, which no call changes. *)
Context (n : nat).
Implicit Types (a : RawAllocator.t) (b : BlockAllocator.t).

(** The block an id names; ids out of range are read as a block there is not. *)
Definition named (i : Z) : nat := default n (py_index n i).

(** Same counts, and the same free blocks in the same order, up to their names. *)
Record same_blocks a b : Prop := {
  sb_num : RawAllocator.num_blocks a = n;
  sb_num' : BlockAllocator.num_blocks b = n;
  sb_refs : BlockAllocator._refs b = RawAllocator._refs a;
  sb_len : length (RawAllocator._refs a) = n;
  sb_free : Forall2 (λ i k, py_index n i = Some k) (RawAllocator._free a) (BlockAllocator._free b);
}.

(** Two programs that do the same, with related results. *)
Definition same_run {A B} (P : A → B → Prop) (m : M RawAllocator.t A) (k : M BlockAllocator.t B) : Prop :=
  ∀ a b, same_blocks a b →
    match m a, k b with
    | (Ok x, a'), (Ok y, b') => P x y ∧ same_blocks a' b'
    | (Raise e, a'), (Raise e', b') => e = e' ∧ same_blocks a' b'
    | _, _ => False
    end.

Lemma py_index_lt i k : py_index n i = Some k → (k < n)%nat.
Proof. rw /py_index. case_bool_decide; [intros [= <-]; lia|]. case_bool_decide; [intros [= <-]; lia|done]. Qed.

Lemma py_index_nat k : (k < n)%nat → py_index n (Z.of_nat k) = Some k.
Proof. intros Hk. rw /py_index bool_decide_true; [by rw Nat2Z.id|lia]. Qed.

Lemma same_bind {A B C D} (P : A → B → Prop) (Q : C → D → Prop) m k f g :
  same_run P m k → (∀ x y, P x y → same_run Q (f x) (g y)) → same_run Q (bind m f) (bind k g).
Proof.
  intros Hm Hf a b Hab. specialize (Hm a b Hab). rw /bind. destruct (m a) as [[x|e] a'], (k b) as [[y|e'] b']; try done.
  destruct Hm as [HP Hab']. by apply Hf.
Qed.

Lemma same_ret {A B} (P : A → B → Prop) x y : P x y → same_run P (ret x) (ret y).
Proof. by intros HP a b Hab. Qed.
Lemma same_raise {A B} (P : A → B → Prop) e : same_run P (raise e) (raise e).
Proof. by intros a b Hab. Qed.

Lemma same_get_ref i : same_run eq (RawAllocator.get_ref i) (BlockAllocator.get_ref (named i)).
Proof.
  intros a b Hab. pose proof Hab as [_ _ Hr Hl _]. rw /RawAllocator.get_ref /BlockAllocator.get_ref Hr Hl /named.
  destruct (py_index n i) as [k|] eqn:Hi; cbn; [by destruct (_ !! k)|]. by rw (proj2 (lookup_ge_None _ n)) ?Hl.
Qed.

Lemma same_set_ref i r : same_run eq (RawAllocator.set_ref i r) (BlockAllocator.set_ref (named i) r).
Proof.
  intros a b Hab. pose proof Hab as [H1 H2 Hr Hl Hf]. rw /RawAllocator.set_ref /BlockAllocator.set_ref Hr Hl /named.
  destruct (py_index n i) as [k|] eqn:Hi; cbn [default].
  - rw (proj2 (Nat.ltb_lt k n)); [|by eapply py_index_lt]. split; [done|]. split; cbn; [done..|by rw length_insert|done].
  - by rw Nat.ltb_irrefl.
Qed.

Lemma same_allocate :
  same_run (λ x y, match x, y with Some i, Some k => py_index n i = Some k | None, None => True | _, _ => False end)
    RawAllocator.allocate BlockAllocator.allocate.
Proof.
  intros a b Hab. pose proof Hab as [H1 H2 Hr Hl Hf]. rw /RawAllocator.allocate /BlockAllocator.allocate /bind /get /modify.
  destruct (py_pop (RawAllocator._free a)) as [[i rest]|] eqn:Hp.
  - apply py_pop_Some in Hp. rw Hp in Hf. apply Forall2_app_inv_l in Hf as (l1 & l2 & Hf1 & Hf2 & Hb).
    apply Forall2_cons_inv_l in Hf2 as (k & l & Hk & Hnil & ->). apply Forall2_nil_inv_l in Hnil as ->.
    rw (proj2 (py_pop_Some (BlockAllocator._free b) k l1)) //.
    assert (same_blocks (RawAllocator.set_free rest a) (BlockAllocator.set_free l1 b)) as Hab1 by by split.
    pose proof (same_set_ref i 1 _ _ Hab1) as Hs. rw /named Hk /= in Hs.
    destruct (RawAllocator.set_ref i 1 _) as [[[]|e] a'], (BlockAllocator.set_ref k 1 _) as [[[]|e'] b']; try done.
    by destruct Hs.
  - apply py_pop_None in Hp. rw Hp in Hf. apply Forall2_nil_inv_l in Hf. by rw Hf.
Qed.

Lemma same_for_list {A B C} (P : A → B → Prop) (l : list C) f g :
  (∀ x, same_run P (f x) (g x)) → same_run (Forall2 P) (for_list l f) (for_list l g).
Proof.
  intros Hf. induction l as [|x l IH]; [by apply same_ret|]. cbn. eapply same_bind; [apply Hf|]. intros y z Hyz.
  eapply same_bind; [exact IH|]. intros ys zs Hys. apply same_ret. by constructor.
Qed.

Lemma same_allocate_many m :
  same_run (λ _ _, True) (RawAllocator.allocate_many m) (BlockAllocator.allocate_many (Z.to_nat m)).
Proof.
  intros a b Hab. pose proof (Forall2_length _ _ _ (sb_free _ _ Hab)) as Hlen.
  rw /RawAllocator.allocate_many /BlockAllocator.allocate_many /bind /get -Hlen.
  destruct (Nat.ltb_spec (length (RawAllocator._free a)) (Z.to_nat m)) as [Hlt|Hge]; case_bool_decide; try lia; [done|].
  pose proof (same_for_list _ (seq 0 (Z.to_nat m)) _ _ (λ _, same_allocate) a b Hab) as H1.
  destruct (for_list _ (λ _, RawAllocator.allocate) a) as [[]], (for_list _ (λ _, BlockAllocator.allocate) b) as [[]]; try done.
  by destruct H1.
Qed.

Lemma same_incref i : same_run (λ _ _, True) (RawAllocator.incref i) (BlockAllocator.incref (named i)).
Proof.
  eapply same_bind; [apply same_get_ref|]. intros r _ <-. destruct (r <=? 0)%nat; [apply same_raise|].
  intros a b Hab. pose proof (same_set_ref i (r + 1) a b Hab) as H.
  destruct (RawAllocator.set_ref _ _ a) as [[]], (BlockAllocator.set_ref _ _ b) as [[]]; try done. by destruct H.
Qed.

Lemma same_decref i : same_run eq (RawAllocator.decref i) (BlockAllocator.decref (named i)).
Proof.
  destruct (py_index n i) as [k|] eqn:Hi.
  - eapply same_bind; [apply same_get_ref|]. intros r _ <-. destruct (r <=? 0)%nat; [apply same_raise|].
    eapply same_bind; [apply same_set_ref|]. intros _ _ _. eapply same_bind; [apply same_get_ref|]. intros r' _ <-.
    destruct (r' =? 0)%nat; [|by apply same_ret]. intros a b [H1 H2 Hr Hl Hf]. rw /bind /modify /ret. split; [done|].
    split; cbn; try done. apply Forall2_app; [done|]. constructor; [|constructor]. by rw /named Hi.
  - intros a b Hab. pose proof (same_get_ref i a b Hab) as H. rw /RawAllocator.decref /BlockAllocator.decref /bind.
    rw /RawAllocator.get_ref /BlockAllocator.get_ref in H |- *. pose proof Hab as [_ _ Hr Hl _].
    rw Hr Hl /named Hi /= in H |- *. by rw (proj2 (lookup_ge_None (RawAllocator._refs a) n)) ?Hl.
Qed.

(** What a call is in terms of blocks. *)
Definition abstract_call (c : raw_call) : alloc_cmd :=
  match c with
  | RAllocate => CAllocate
  | RAllocateMany m => CAllocateMany (Z.to_nat m)
  | RIncref i => CIncref (named i)
  | RDecref i => CDecref (named i)
  end.

Lemma run_raw_same c a b : same_blocks a b → same_blocks (run_raw c a) (run_cmd (abstract_call c) b).
Proof.
  intros Hab. assert (∀ A B P (m : M RawAllocator.t A) (k : M BlockAllocator.t B), same_run P m k → same_blocks (m a).2 (k b).2) as Hst.
  { intros A B P m k H. specialize (H a b Hab). destruct (m a) as [[]], (k b) as [[]]; by destruct H. }
  destruct c; [exact (Hst _ _ _ _ _ same_allocate)|exact (Hst _ _ _ _ _ (same_allocate_many _))|exact (Hst _ _ _ _ _ (same_incref _))|exact (Hst _ _ _ _ _ (same_decref _))].
Qed.

Lemma init_same : same_blocks (RawAllocator.init n) (BlockAllocator.init n).
Proof.
  split; cbn; [done|done|done|by rw length_replicate|]. rw /reversed -map_rev. apply Forall2_fmap_l, Forall2_same_length_lookup.
  split; [done|]. intros i x y Hx Hy. assert (x = y) as -> by congruence. apply py_index_nat.
  apply list_elem_of_lookup_2, list_elem_of_In, in_rev, list_elem_of_In, elem_of_seq in Hy. lia.
Qed.

Lemma runs_same cs : ∀ a b, same_blocks a b →
  same_blocks (foldl (λ a c, run_raw c a) a cs) (foldl (λ b c, run_cmd c b) b (abstract_call <$> cs)).
Proof. induction cs as [|c cs IH]; intros a b Hab; [done|]. by apply IH, run_raw_same. Qed.
End simulation.

(** ** Ids stay natural when the callers' are *)

Definition nat_ids_only (a : RawAllocator.t) : Prop := Forall (λ i, 0 ≤ i) (RawAllocator._free a).

Lemma keep_nat_ids {A} (m : M RawAllocator.t A) a :
  wp m (λ _, nat_ids_only) (λ _, nat_ids_only) a → nat_ids_only (m a).2.
Proof. rw /wp. by destruct (m a) as [[]]. Qed.

Lemma get_ref_ids i a (Q : nat → RawAllocator.t → Prop) : nat_ids_only a → (∀ r, Q r a) → wp (RawAllocator.get_ref i) Q (λ _, nat_ids_only) a.
Proof. intros Ha HQ. rw /wp /RawAllocator.get_ref. by destruct (_ ≫= _). Qed.
Lemma set_ref_ids i r a : nat_ids_only a → wp (RawAllocator.set_ref i r) (λ _, nat_ids_only) (λ _, nat_ids_only) a.
Proof. intros Ha. rw /wp /RawAllocator.set_ref. by destruct (py_index _ _). Qed.

Lemma allocate_ids a : nat_ids_only a → wp RawAllocator.allocate (λ _, nat_ids_only) (λ _, nat_ids_only) a.
Proof.
  intros Ha. rw /RawAllocator.allocate. do 2 wp_step. destruct (py_pop (RawAllocator._free a)) as [[i rest]|] eqn:Hp; [|by wp_step].
  apply py_pop_Some in Hp. rw /nat_ids_only Hp in Ha. apply Forall_app in Ha as [Ha _]. do 3 wp_step.
  eapply wp_mono; [by apply set_ref_ids| |done]. by intros u a' Ha'.
Qed.

Lemma allocate_each_ids (l : list nat) : ∀ a, nat_ids_only a →
  wp (for_list l (λ _, RawAllocator.allocate)) (λ _, nat_ids_only) (λ _, nat_ids_only) a.
Proof.
  induction l as [|x l IH]; intros a Ha; [by apply wp_ret|]. cbn. apply wp_bind.
  eapply wp_mono; [by apply allocate_ids| |done]. intros y a1 H1. apply wp_bind.
  eapply wp_mono; [by apply IH| |done]. by intros ys a2 H2.
Qed.

Lemma run_raw_ids c a : Forall (λ i, 0 ≤ i) (names c) → nat_ids_only a → nat_ids_only (run_raw c a).
Proof.
  intros Hc Ha. destruct c as [|m|i|i]; cbn [run_raw]; apply keep_nat_ids; [by apply allocate_ids|..].
  - rw /RawAllocator.allocate_many. do 2 wp_step. wp_step; [by wp_step|]. wp_step.
    apply (wp_mono _ (λ _, nat_ids_only) _ (λ _, nat_ids_only)); [|by intros|done]. by apply allocate_each_ids.
  - rw /RawAllocator.incref. wp_step. apply get_ref_ids; [done|]. intros r. wp_step; [by wp_step|]. by apply set_ref_ids.
  - rw /RawAllocator.decref. wp_step. apply get_ref_ids; [done|]. intros r. wp_step; [by wp_step|]. wp_step.
    eapply wp_mono; [by apply set_ref_ids| |done]. intros u a1 H1. wp_step. apply get_ref_ids; [done|]. intros r'.
    wp_step; [|by wp_step]. do 3 wp_step. apply Forall_app. split; [done|]. cbn in Hc. by constructor; [apply Forall_inv in Hc|].
Qed.

(** C18: the allocator stays consistent under any sequence of calls, whatever integers
    they name, misuse included (double frees, increments of free blocks, ids that are
    negative or out of range).  Every entry of the free list names a block; reading an
    id as the block it names, the free list holds exactly the unreferenced blocks, each
    once, and [num_allocated] counts the referenced ones.  As long as no caller names a
    block by a negative index, no negative id is ever handed out. *)
Theorem allocator_consistent (n : nat) (calls : list raw_call) :
  let a := foldl (λ a c, run_raw c a) (RawAllocator.init n) calls in
  ∃ blocks, Forall2 (λ i k, py_index n i = Some k) (RawAllocator._free a) blocks ∧ NoDup blocks ∧
    (∀ k, k ∈ blocks ↔ RawAllocator._refs a !! k = Some 0%nat) ∧
    RawAllocator.num_allocated a = Z.of_nat (length (filter (λ r, 0 < r)%nat (RawAllocator._refs a))) ∧
    (Forall (λ i, 0 ≤ i) (calls ≫= names) → RawAllocator._free a = Z.of_nat <$> blocks).
Proof.
  intros a. pose proof (runs_same n calls _ _ (init_same n)) as Hs. rw -/a in Hs.
  destruct (run_cmds_accounted n (abstract_call n <$> calls)) as [X HX]. apply accounted_consistent in HX.
  set (b := foldl _ (BlockAllocator.init n) _) in *. destruct Hs as [H1 H2 Hr Hl Hf], HX as [Hnd Hfree Hcount].
  exists (BlockAllocator._free b). split; [done|]. split; [done|]. rw -Hr. split; [done|]. split.
  - rw -Hcount /RawAllocator.num_allocated /BlockAllocator.num_allocated H1 H2 (Forall2_length _ _ _ Hf) //.
  - intros Hids. assert (nat_ids_only a) as Ha.
    { subst a. clear -Hids. assert (nat_ids_only (RawAllocator.init n)) as Hi.
      { apply Forall_forall. intros i Hi%list_elem_of_In%in_rev%list_elem_of_In. apply list_elem_of_fmap in Hi as (k & -> & _). lia. }
      revert Hi. generalize (RawAllocator.init n). induction calls as [|c calls IH]; intros a Ha; [done|].
      rw bind_cons Forall_app in Hids. destruct Hids as [Hc Hcs]. apply IH; [done|]. by apply run_raw_ids. }
    clear -Hf Ha. rw /nat_ids_only in Ha. induction Hf as [|i k l l' Hi Hf IH]; [done|]. apply Forall_cons in Ha as [Hi0 Ha].
    rw fmap_cons IH //. f_equal. rw /py_index in Hi. case_bool_decide; [injection Hi as <-; lia|]. case_bool_decide; [lia|done].
Qed.

(** A caller that does hands the name to the next one: the last block, freed as [-1], is
    allocated as [-1]. *)
Example negative_id_returns :
  let a := foldl (λ a c, run_raw c a) (RawAllocator.init 2) [RAllocate; RAllocate; RDecref (-1)] in
  RawAllocator._free a = [-1] ∧ (RawAllocator.allocate a).1 = Ok (Some (-1)).
Proof. vm_compute. done. Qed.
