(* ===== verification/KvCache.v ===== *)
(** * Contiguous KV caches (engine/kv_cache.py, model/transformer.py)

    The [KVCache] protocol the attention layers are written against, the growing
    [DynamicCache], and the statically pre-allocated [StaticCachePool] with its
    per-sequence [StaticKVCache] views.  Cache objects of the static pool live in
    an object list and are named by their index, so that the [_live] dictionary
    and a caller's handle denote the same object. *)

From Stdlib Require Import ssreflect QArith Qcanon.
From stdpp Require Import prelude gmap gmultiset strings list.
From S2P Require Import Prelude Config BlockManager.

(** ** DynamicCache *)

Module DynamicCache.
Section dynamic.
Context {T : Type}.

Record t := mk {
  keys : list (option (list T));
  values : list (option (list T));
}.

Definition init : t := mk [] [].

(** [while len(self.keys) <= layer_idx: append None to both]; the loop runs
    [layer_idx + 1 - len(self.keys)] times. *)
Definition extend (layer_idx : nat) (c : t) : t :=
  let pad := replicate (S layer_idx - length (keys c)) None in
  mk (keys c ++ pad) (values c ++ pad).

Definition update (layer_idx : nat) (k v : list T) : M t (list T * list T) :=
  do* modify (extend layer_idx) in
  let* c := get in
  match keys c !! layer_idx, values c !! layer_idx with
  | Some None, Some _ =>
      do* modify (λ c, mk (<[layer_idx := Some k]> (keys c)) (<[layer_idx := Some v]> (values c))) in
      ret (k, v)
  | Some (Some prev_k), Some (Some prev_v) =>
      let k' := prev_k ++ k in
      let v' := prev_v ++ v in
      do* modify (λ c, mk (<[layer_idx := Some k']> (keys c)) (<[layer_idx := Some v']> (values c))) in
      ret (k', v')
  | Some (Some _), Some None => raise RuntimeError  (* torch.cat of None *)
  | _, _ => raise IndexError
  end.

Definition len (c : t) : nat :=
  match keys c with
  | Some k :: _ => length k
  | _ => 0
  end.
End dynamic.
Arguments t : clear implicits.
End DynamicCache.

(** ** StaticCachePool *)

(** One cache object: the slot it writes, tokens written, start of the pass. *)
Record SCache := mkSCache { sc_slot : nat; sc_pos : nat; sc_start : nat }.

Section static_state.
Context {T : Type}.

(** [sp_k] and [sp_v] are indexed by layer, slot and position. *)
Record SPool := mkSPool {
  num_slots : nat;
  max_seq_len : nat;
  sp_k : list (list (list T));
  sp_v : list (list (list T));
  sp_free : list nat;
  sp_live : gmap nat nat;      (* slot -> cache object *)
  sp_expected : gmap nat nat;  (* slot -> expected final length *)
  sp_objs : list SCache;
}.

Definition set_sp_k (k : list (list (list T))) (p : SPool) : SPool :=
  mkSPool (num_slots p) (max_seq_len p) k (sp_v p) (sp_free p) (sp_live p) (sp_expected p) (sp_objs p).
Definition set_sp_v (v : list (list (list T))) (p : SPool) : SPool :=
  mkSPool (num_slots p) (max_seq_len p) (sp_k p) v (sp_free p) (sp_live p) (sp_expected p) (sp_objs p).
Definition set_sp_books (free : list nat) (live expected : gmap nat nat) (p : SPool) : SPool :=
  mkSPool (num_slots p) (max_seq_len p) (sp_k p) (sp_v p) free live expected (sp_objs p).
Definition set_sp_objs (objs : list SCache) (p : SPool) : SPool :=
  mkSPool (num_slots p) (max_seq_len p) (sp_k p) (sp_v p) (sp_free p) (sp_live p) (sp_expected p) objs.
End static_state.
Arguments SPool : clear implicits.

Module StaticKVCache.
Section static.
Context {T : Type}.

Definition this (o : nat) : M (SPool T) SCache := λ p,
  match sp_objs p !! o with
  | Some c => (Ok c, p)
  | None => (Raise IndexError, p)
  end.
Definition set_this (o : nat) (c : SCache) : M (SPool T) unit :=
  modify (λ p, set_sp_objs (<[o := c]> (sp_objs p)) p).

(** [buf[layer_idx][slot, :, start:end] = src]. *)
Definition store (buf : list (list (list T))) (layer_idx slot start n : nat) (src : list T) :
    result (list (list (list T))) :=
  match buf !! layer_idx with
  | None => Raise IndexError
  | Some slab =>
      match slab !! slot with
      | None => Raise IndexError
      | Some row => match slice_assign row start n src with
                    | Ok row' => Ok (<[layer_idx := <[slot := row']> slab]> buf)
                    | Raise e => Raise e
                    end
      end
  end.

Definition store_k (layer_idx slot start n : nat) (src : list T) : M (SPool T) unit := λ p,
  match store (sp_k p) layer_idx slot start n src with
  | Ok b => (Ok tt, set_sp_k b p)
  | Raise e => (Raise e, p)
  end.
Definition store_v (layer_idx slot start n : nat) (src : list T) : M (SPool T) unit := λ p,
  match store (sp_v p) layer_idx slot start n src with
  | Ok b => (Ok tt, set_sp_v b p)
  | Raise e => (Raise e, p)
  end.

(** [buf[layer_idx][slot : slot + 1, :, :end]]. *)
Definition prefix_of (buf : list (list (list T))) (layer_idx slot end_ : nat) : M (SPool T) (list T) :=
  match buf !! layer_idx with
  | None => raise IndexError
  | Some slab => ret (default [] (take end_ <$> slab !! slot))
  end.

(** The position advances on layer 0; the capacity check follows the assignment. *)
Definition advance (o n : nat) : M (SPool T) unit :=
  let* c := this o in
  do* set_this o (mkSCache (sc_slot c) (sc_pos c) (sc_pos c)) in
  let* c := this o in
  do* set_this o (mkSCache (sc_slot c) (sc_pos c + n) (sc_start c)) in
  let* c := this o in
  let* p := get in
  if max_seq_len p <? sc_pos c then raise RuntimeError else ret tt.

Definition update (o layer_idx : nat) (k v : list T) : M (SPool T) (list T * list T) :=
  let n := length k in
  do* (if layer_idx =? 0 then advance o n else ret tt) in
  let* c := this o in
  let start := sc_start c in
  let end_ := sc_start c + n in
  do* store_k layer_idx (sc_slot c) start (end_ - start) k in
  do* store_v layer_idx (sc_slot c) start (end_ - start) v in
  let* p := get in
  let* kk := prefix_of (sp_k p) layer_idx (sc_slot c) end_ in
  let* vv := prefix_of (sp_v p) layer_idx (sc_slot c) end_ in
  ret (kk, vv).

Definition len (o : nat) (p : SPool T) : nat :=
  match sp_objs p !! o with Some c => sc_pos c | None => 0 end.
End static.
End StaticKVCache.

Module StaticCachePool.
Section pool.
Context {T : Type} (zero : T).

(** [max_seq_len or cfg.max_position_embeddings]: [None] and [0] take the default. *)
Definition or_default (x : option nat) (d : nat) : nat :=
  match x with Some (S n) => S n | _ => d end.

Definition init (cfg : NanoConfig) (slots : nat) (max_len : option nat) : SPool T :=
  let msl := or_default max_len (Z.to_nat (max_position_embeddings cfg)) in
  let slab := replicate slots (replicate msl zero) in
  let layers := Z.to_nat (Config.num_hidden_layers cfg) in
  mkSPool slots msl (replicate layers slab) (replicate layers slab) (seq 0 slots) ∅ ∅ [].

Definition allocate (expected_len : option nat) : M (SPool T) (option nat) :=
  let* p := get in
  match py_pop (sp_free p) with
  | None => ret None
  | Some (slot, rest) =>
      let o := length (sp_objs p) in
      do* modify (set_sp_objs (sp_objs p ++ [mkSCache slot 0 0])) in
      do* modify (set_sp_books rest (<[slot := o]> (sp_live p))
            (<[slot := or_default expected_len (max_seq_len p) `min` max_seq_len p]> (sp_expected p))) in
      ret (Some o)
  end.

Definition free (o : nat) : M (SPool T) unit :=
  let* c := StaticKVCache.this o in
  let* p := get in
  match sp_live p !! sc_slot c with
  | Some _ =>
      modify (λ p, set_sp_books (sp_free p ++ [sc_slot c]) (delete (sc_slot c) (sp_live p))
                     (delete (sc_slot c) (sp_expected p)) p)
  | None => ret tt
  end.

Definition reset : M (SPool T) unit :=
  modify (λ p, set_sp_books (seq 0 (num_slots p)) ∅ ∅ p).
End pool.
End StaticCachePool.

(** ** PoolStats *)

Record PoolStats := mkPoolStats {
  ps_slots_total : Z;
  ps_slots_allocated : Z;
  ps_tokens_per_slot : Z;
  ps_tokens_used : Z;
  ps_tokens_reserved : Z;
  ps_bytes_per_token : Z;
}.

Section pool_stats.
Local Open Scope Z_scope.
Implicit Types s : PoolStats.

Definition ps_tokens_capacity s : Z := ps_slots_total s * ps_tokens_per_slot s.
Definition ps_tokens_allocated s : Z := ps_slots_allocated s * ps_tokens_per_slot s.
Definition ps_internal_fragmentation s : Z :=
  Z.max 0 (ps_tokens_allocated s - ps_tokens_used s - ps_tokens_reserved s).
Definition ps_external_fragmentation s : Z :=
  (ps_slots_total s - ps_slots_allocated s) * ps_tokens_per_slot s.

(** Ratios as exact rationals. *)
Definition ps_utilization s : Qc :=
  if ps_tokens_allocated s =? 0 then 0%Qc
  else (Q2Qc (inject_Z (ps_tokens_used s)) / Q2Qc (inject_Z (ps_tokens_allocated s)))%Qc.
Definition ps_occupancy s : Qc :=
  if ps_tokens_capacity s =? 0 then 0%Qc
  else (Q2Qc (inject_Z (ps_tokens_used s)) / Q2Qc (inject_Z (ps_tokens_capacity s)))%Qc.
Definition ps_waste_fraction s : Qc := (1 - ps_utilization s)%Qc.
End pool_stats.

(** [sum(len(c) for c in self._live.values())] and the reserved remainder. *)
Definition live_used {T} (p : SPool T) : nat :=
  sum_list_with (λ '(_, o), StaticKVCache.len o p) (map_to_list (sp_live p)).
Definition live_reserved {T} (p : SPool T) : result nat :=
  if forallb (λ '(slot, _), bool_decide (is_Some (sp_expected p !! slot))) (map_to_list (sp_live p))
  then Ok (sum_list_with (λ '(slot, o), default 0 (sp_expected p !! slot) - StaticKVCache.len o p)
             (map_to_list (sp_live p)))
  else Raise KeyError.

Definition static_total_bytes {T} (cfg : NanoConfig) (itemsize : Z) (p : SPool T) : Z :=
  (Z.of_nat (num_slots p) * Z.of_nat (max_seq_len p) * bytes_per_token cfg itemsize)%Z.

Definition static_stats {T} (cfg : NanoConfig) (itemsize : Z) (p : SPool T) : result PoolStats :=
  match live_reserved p with
  | Ok reserved =>
      Ok (mkPoolStats (Z.of_nat (num_slots p)) (Z.of_nat (size (sp_live p))) (Z.of_nat (max_seq_len p))
            (Z.of_nat (live_used p)) (Z.of_nat reserved) (bytes_per_token cfg itemsize))
  | Raise e => Raise e
  end.

Definition slots_for_budget (cfg : NanoConfig) (budget_bytes : Z) (max_len : option nat) (itemsize : Z) : Z :=
  let msl := Z.of_nat (StaticCachePool.or_default max_len (Z.to_nat (max_position_embeddings cfg))) in
  let per_layer := (2 * num_key_value_heads cfg * head_dim cfg)%Z in
  let bpt := (per_layer * Config.num_hidden_layers cfg * itemsize)%Z in
  Z.max 0 (budget_bytes / (bpt * msl)).

(** * The protocol *)

(** [KVCache(Protocol)]: [update] and [__len__]. *)
Class KVCache (T St : Type) := {
  kv_update : nat → list T → list T → M St (list T * list T);
  kv_len : St → nat;
}.

(** What a cache for [L] layers promises.  [kv_idle st K V]: between passes, layer
    [l] holds the key rows [K !! l] and the value rows [V !! l].  [kv_busy st n d K V]:
    inside a pass of [n] tokens whose layers below [d] have been updated.
    [kv_room st n]: a pass of [n] tokens fits. *)
Class KVCacheLaws (T St : Type) `{KVCache T St} (L : nat) := {
  kv_idle : St → list (list T) → list (list T) → Prop;
  kv_busy : St → nat → nat → list (list T) → list (list T) → Prop;
  kv_room : St → nat → Prop;
  kv_idle_shape st K V : kv_idle st K V → length K = L ∧ length V = L;
  kv_busy_shape st n d K V : kv_busy st n d K V → length K = L ∧ length V = L;
  kv_idle_len st K V r : kv_idle st K V → K !! 0 = Some r → kv_len st = length r;
  kv_begin st k v K V ck cv :
    kv_idle st K V → kv_room st (length k) → length v = length k →
    K !! 0 = Some ck → V !! 0 = Some cv →
    wp (kv_update 0 k v)
       (λ r st', r = (ck ++ k, cv ++ v) ∧
          kv_busy st' (length k) 1 (<[0 := ck ++ k]> K) (<[0 := cv ++ v]> V)) never st;
  kv_step st l k v K V ck cv :
    kv_busy st (length k) (S l) K V → length v = length k →
    K !! S l = Some ck → V !! S l = Some cv →
    wp (kv_update (S l) k v)
       (λ r st', r = (ck ++ k, cv ++ v) ∧
          kv_busy st' (length k) (S (S l)) (<[S l := ck ++ k]> K) (<[S l := cv ++ v]> V)) never st;
  kv_finish st n K V : kv_busy st n L K V → kv_idle st K V;
}.

(** ** The paged cache keeps the promise *)

Section paged_instance.
Context {T : Type}.

#[export] Instance paged_cache : KVCache T (PC T) := {|
  kv_update := PagedKVCache.update;
  kv_len s := num_tokens s.2;
|}.

(** Relative to the state [s0] it started from, the cache also leaves everybody
    else's rows alone. *)
#[local] Program Instance paged_laws (s0 : PC T) (Y : gmultiset nat) (L : nat) : KVCacheLaws T (PC T) L := {|
  kv_idle s K V := idle s Y K V ∧ num_hidden_layers s.1 = L ∧ apart Y s0 s;
  kv_busy s n d K V := pass_inv s Y n d K V ∧ num_hidden_layers s.1 = L ∧ apart Y s0 s;
  kv_room s n := pass_cost s Y n ≤ BlockAllocator.num_free (allocator s.1);
|}.
Next Obligation.
  intros s0 Y L s K V [(HO & _ & [HK _] & [HV _]) [<- _]]. pose proof (own_wf _ _ HO) as Hwf.
  by rw HK HV (pwf_k _ Hwf) (pwf_v _ Hwf).
Qed.
Next Obligation.
  intros s0 Y L s n d K V [((HO & _) & [HK _] & [HV _]) [<- _]]. pose proof (own_wf _ _ HO) as Hwf.
  by rw HK HV (pwf_k _ Hwf) (pwf_v _ Hwf).
Qed.
Next Obligation.
  intros s0 Y L s K V r [(HO & Ht & [_ HK] & _) _] Hr. specialize (HK _ _ Hr). rw /view in HK. simpl.
  destruct (pool_k s.1 !! 0) as [t|]; [|done]. apply index_select_length in HK.
  rw HK length_take (own_slots _ _ HO) length_slots_of Ht.
  pose proof (ceil_div_mul_ge (num_tokens s.2) (block_size s.1) (pwf_bs _ (own_wf _ _ HO))). lia.
Qed.
Next Obligation.
  intros s0 Y L s k v K V ck cv (Hid & HL & Hap) Hroom Hv HK HV. simpl in *.
  rw /PagedKVCache.update Nat.eqb_refl. apply wp_bind.
  eapply wp_mono; [by eapply pass_begin_spec|..].
  - intros _ s1 (HI & Hsh & Hrw & _). eapply wp_mono; [by eapply pass_layer_spec|..|done].
    intros r s2 (-> & _ & HI2 & Hsh2 & _ & Hrw2). split_and!; [done|done|..].
    + destruct Hsh2 as (_ & -> & _), Hsh as (_ & -> & _). done.
    + eapply apart_trans; [done|]. eapply apart_trans; by split.
  - intros e s1 (_ & _ & _ & _ & Hlt). lia.
Qed.
Next Obligation.
  intros s0 Y L s l k v K V ck cv (HI & HL & Hap) Hv HK HV. simpl in *. rw /PagedKVCache.update.
  apply wp_bind. wp_step; [done|]. wp_step. eapply wp_mono; [by eapply pass_layer_spec|..|done].
  intros r s2 (-> & _ & HI2 & Hsh2 & _ & Hrw2). split_and!; [done|done|by destruct Hsh2 as (_ & -> & _)|].
  eapply apart_trans; [done|]. by split.
Qed.
Next Obligation.
  intros s0 Y L s n K V (HI & HL & Hap). split_and!; [|done|done]. eapply pass_inv_idle. by rw HL.
Qed.
End paged_instance.

(** ** DynamicCache keeps the promise, with unbounded room *)

Section dynamic_instance.
Context {T : Type}.
Implicit Types (c : DynamicCache.t T).

#[export] Instance dynamic_cache : KVCache T (DynamicCache.t T) := {|
  kv_update := DynamicCache.update;
  kv_len := DynamicCache.len;
|}.

Definition dyn_row (l : nat) (rows : list (option (list T))) : list T := default [] (mjoin (rows !! l)).

Record dyn_ok (L : nat) c (K V : list (list T)) : Prop := {
  dyn_K : length K = L;
  dyn_V : length V = L;
  dyn_same : Forall2 (λ k v, is_Some k ↔ is_Some v) (DynamicCache.keys c) (DynamicCache.values c);
  dyn_k l r : K !! l = Some r → dyn_row l (DynamicCache.keys c) = r;
  dyn_v l r : V !! l = Some r → dyn_row l (DynamicCache.values c) = r;
}.

Lemma dyn_init L : dyn_ok L DynamicCache.init (replicate L []) (replicate L []).
Proof.
  split; [by rw length_replicate..|constructor| |];
    intros l r [-> _]%lookup_replicate; done.
Qed.

Lemma dyn_extend L l c K V : dyn_ok L c K V → dyn_ok L (DynamicCache.extend l c) K V.
Proof.
  intros [HK HV HS Hk Hv]. rw /DynamicCache.extend. set (m := S l - _).
  assert (∀ rows l, dyn_row l (rows ++ replicate m None) = dyn_row l rows) as Hpad.
  { intros rows l'. rw /dyn_row. destruct (decide (l' < length rows)) as [Hlt|Hge].
    - by rw lookup_app_l.
    - rw lookup_app_r; [|lia]. rw (lookup_ge_None_2 rows); [|lia].
      destruct (replicate m None !! (l' - length rows)) as [o|] eqn:Ho; [|done].
      by apply lookup_replicate in Ho as [-> _]. }
  split; simpl; try done.
  - apply Forall2_app; [done|]. apply Forall_Forall2_diag, Forall_true. done.
  - intros. rw Hpad. by apply Hk.
  - intros. rw Hpad. by apply Hv.
Qed.

Lemma dyn_update_spec L l k v c K V ck cv :
  dyn_ok L c K V → K !! l = Some ck → V !! l = Some cv →
  wp (DynamicCache.update l k v)
     (λ r c', r = (ck ++ k, cv ++ v) ∧ dyn_ok L c' (<[l := ck ++ k]> K) (<[l := cv ++ v]> V)) never c.
Proof.
  intros Hok HKl HVl. rw /DynamicCache.update. do 4 wp_step.
  apply (dyn_extend L l) in Hok.
  assert (l < length (DynamicCache.keys (DynamicCache.extend l c))) as Hlt.
  { rw /DynamicCache.extend /= length_app length_replicate. lia. }
  set (c1 := DynamicCache.extend l c) in *. destruct Hok as [HK HV HS Hk Hv].
  destruct (lookup_lt_is_Some_2 _ _ Hlt) as [ok Hok].
  destruct (Forall2_lookup_l _ _ _ _ _ HS Hok) as (ov & Hov & Hiff).
  pose proof (Hk _ _ HKl) as Hck. pose proof (Hv _ _ HVl) as Hcv.
  rw /dyn_row Hok /= in Hck. rw /dyn_row Hov /= in Hcv. rw Hok Hov.
  assert (∀ nk nv, nk = ck ++ k → nv = cv ++ v →
    dyn_ok L (DynamicCache.mk (<[l:=Some nk]> (DynamicCache.keys c1)) (<[l:=Some nv]> (DynamicCache.values c1)))
      (<[l := ck ++ k]> K) (<[l := cv ++ v]> V)) as Hnew.
  { intros nk nv -> ->. split; simpl; [by rw length_insert..| | |].
    - apply Forall2_insert; [done|]. split; eauto.
    - intros l' r [(<- & <- & _)|[Hne Hl']]%list_lookup_insert_Some; rw /dyn_row.
      + by rw list_lookup_insert_eq.
      + rw list_lookup_insert_ne //. by apply Hk.
    - intros l' r [(<- & <- & _)|[Hne Hl']]%list_lookup_insert_Some; rw /dyn_row.
      + rw list_lookup_insert_eq //. by eapply lookup_lt_Some.
      + rw list_lookup_insert_ne //. by apply Hv. }
  destruct ok as [pk|], ov as [pv|]; simpl in Hck, Hcv; subst.
  - do 3 wp_step. split; [done|by apply Hnew].
  - exfalso. destruct (proj1 Hiff ltac:(eauto)); done.
  - exfalso. destruct (proj2 Hiff ltac:(eauto)); done.
  - do 3 wp_step. split; [done|by apply Hnew].
Qed.

#[export] Program Instance dynamic_laws (L : nat) : KVCacheLaws T (DynamicCache.t T) L := {|
  kv_idle c K V := dyn_ok L c K V;
  kv_busy c _ _ K V := dyn_ok L c K V;
  kv_room _ _ := True;
|}.
Next Obligation. by intros L c K V []. Qed.
Next Obligation. by intros L c n d K V []. Qed.
Next Obligation.
  intros L c K V r [] Hr. rw -(dyn_k0 _ _ Hr) /= /DynamicCache.len /dyn_row.
  by destruct (DynamicCache.keys c) as [|[] ].
Qed.
Next Obligation. intros. by apply dyn_update_spec. Qed.
Next Obligation. intros. by apply dyn_update_spec. Qed.
Next Obligation. done. Qed.
End dynamic_instance.

(** ** The static cache keeps the promise *)

Section static_instance.
Context {T : Type}.
Implicit Types (p : SPool T) (c : SCache) (K V : list (list T)).

Record slab_shape (slots len L : nat) (buf : list (list (list T))) : Prop := {
  ss_layers : length buf = L;
  ss_slots l slab : buf !! l = Some slab → length slab = slots;
  ss_len l slab s row : buf !! l = Some slab → slab !! s = Some row → length row = len;
}.

Definition pool_shape p L : Prop :=
  slab_shape (num_slots p) (max_seq_len p) L (sp_k p) ∧
  slab_shape (num_slots p) (max_seq_len p) L (sp_v p).

Definition srow (buf : list (list (list T))) (l slot : nat) : option (list T) :=
  slab ← buf !! l; slab !! slot.

(** Layer [l] of [slot] holds [R !! l] in its first [upto l] positions. *)
Definition sreads (buf : list (list (list T))) (slot : nat) (upto : nat → nat) (R : list (list T)) : Prop :=
  length R = length buf ∧
  ∀ l r, R !! l = Some r → ∃ row, srow buf l slot = Some row ∧ take (upto l) row = r.

(** Everything in a pool that one cache object does not own. *)
Definition foreign p p' (slot : nat) : Prop :=
  num_slots p' = num_slots p ∧ max_seq_len p' = max_seq_len p ∧
  sp_free p' = sp_free p ∧ sp_live p' = sp_live p ∧ sp_expected p' = sp_expected p ∧
  ∀ l s, s ≠ slot → srow (sp_k p') l s = srow (sp_k p) l s ∧ srow (sp_v p') l s = srow (sp_v p) l s.

Definition sbusy (L o : nat) p (n d : nat) K V : Prop :=
  pool_shape p L ∧ ∃ c, sp_objs p !! o = Some c ∧ sc_slot c < num_slots p ∧
    sc_pos c = sc_start c + n ∧ sc_pos c ≤ max_seq_len p ∧
    sreads (sp_k p) (sc_slot c) (λ l, if l <? d then sc_pos c else sc_start c) K ∧
    sreads (sp_v p) (sc_slot c) (λ l, if l <? d then sc_pos c else sc_start c) V.

Definition sidle (L o : nat) p K V : Prop :=
  pool_shape p L ∧ ∃ c, sp_objs p !! o = Some c ∧ sc_slot c < num_slots p ∧
    sc_pos c ≤ max_seq_len p ∧
    sreads (sp_k p) (sc_slot c) (λ _, sc_pos c) K ∧ sreads (sp_v p) (sc_slot c) (λ _, sc_pos c) V.

(** One buffer through the slice assignment of a pass. *)
Definition wrote (row src : list T) (start : nat) : list T :=
  take start row ++ src ++ drop (start + length src) row.

Lemma slice_assign_wrote (row src : list T) start :
  start + length src ≤ length row →
  slice_assign row start (length src) src = Ok (wrote row src start).
Proof.
  intros Hle. rw /slice_assign. assert (length (take (length src) (drop start row)) = length src) as ->.
  { rw length_take length_drop. lia. }
  by rw Nat.eqb_refl.
Qed.

Lemma length_wrote (row src : list T) start :
  start + length src ≤ length row → length (wrote row src start) = length row.
Proof. intros. rw /wrote !length_app length_take length_drop. lia. Qed.

Lemma take_wrote (row src : list T) start :
  start + length src ≤ length row → take (start + length src) (wrote row src start) = take start row ++ src.
Proof.
  intros Hle. rw /wrote assoc take_app_le; [|rw length_app length_take; lia].
  rw take_ge //. rw length_app length_take. lia.
Qed.

Lemma store_spec slots len L buf l slot start src row :
  slab_shape slots len L buf → srow buf l slot = Some row → start + length src ≤ len →
  ∃ slab, buf !! l = Some slab ∧ slab !! slot = Some row ∧
  StaticKVCache.store buf l slot start (length src) src
    = Ok (<[l := <[slot := wrote row src start]> slab]> buf) ∧
  slab_shape slots len L (<[l := <[slot := wrote row src start]> slab]> buf).
Proof.
  intros [HL Hs Hlen] Hrow Hle. rw /srow in Hrow. destruct (buf !! l) as [slab|] eqn:Hl; [|done].
  simpl in Hrow. exists slab. pose proof (Hlen _ _ _ _ Hl Hrow) as Hr. split_and!; [done|done|..].
  - by rw /StaticKVCache.store Hl Hrow slice_assign_wrote ?Hr.
  - split; [by rw length_insert|..].
    + intros l' slab' [(<- & <- & _)|[_ Hl']]%list_lookup_insert_Some; [rw length_insert|]; eauto.
    + intros l' slab' s row' [(<- & <- & _)|[_ Hl']]%list_lookup_insert_Some; [|by eauto].
      intros [(<- & <- & _)|[_ Hs']]%list_lookup_insert_Some; [|by eauto].
      by rw length_wrote ?Hr.
Qed.

Lemma srow_insert buf l slab slot row' l' s' :
  buf !! l = Some slab → slot < length slab →
  srow (<[l := <[slot := row']> slab]> buf) l' s'
  = if decide (l' = l ∧ s' = slot) then Some row' else srow buf l' s'.
Proof.
  intros Hl Hs. pose proof (lookup_lt_Some _ _ _ Hl). rw /srow.
  destruct (decide (l' = l)) as [->|Hne].
  - rw list_lookup_insert_eq //=. rw Hl /=. destruct (decide (s' = slot)) as [->|Hns].
    + rw list_lookup_insert_eq // decide_True //.
    + rw list_lookup_insert_ne // decide_False //. tauto.
  - rw list_lookup_insert_ne // decide_False //. tauto.
Qed.

Lemma sreads_write buf l slab slot start src row R r n :
  buf !! l = Some slab → slab !! slot = Some row → length src = n → start + n ≤ length row →
  sreads buf slot (λ i, if i <? l then start + n else start) R → R !! l = Some r →
  sreads (<[l := <[slot := wrote row src start]> slab]> buf) slot
    (λ i, if i <? S l then start + n else start) (<[l := r ++ src]> R) ∧
  take (start + n) (wrote row src start) = r ++ src.
Proof.
  intros Hl Hs Hn Hle [HlR HR] Hr. pose proof (lookup_lt_Some _ _ _ Hs) as Hslt.
  assert (take (start + n) (wrote row src start) = r ++ src) as Htk.
  { rw -Hn take_wrote; [|lia]. f_equal. destruct (HR _ _ Hr) as (row' & Hrow & Htake).
    rw Nat.ltb_irrefl in Htake. rw /srow Hl /= Hs in Hrow. by simplify_eq. }
  split; [|done]. split; [by rw !length_insert|].
  intros l' x [(<- & <- & _)|[Hne Hx]]%list_lookup_insert_Some.
  - exists (wrote row src start). rw srow_insert // decide_True //.
    by rw (proj2 (Nat.ltb_lt _ _)); [|lia].
  - destruct (HR _ _ Hx) as (row' & Hrow & Htake). exists row'.
    rw srow_insert // decide_False; [|naive_solver]. split; [done|].
    by replace (l' <? S l) with (l' <? l)
      by (destruct (Nat.ltb_spec l' l), (Nat.ltb_spec l' (S l)); [done|lia|lia|done]).
Qed.

(** [update] after the position has been advanced. *)
Lemma static_write_spec L o p n l k v K V ck cv c :
  sbusy L o p n l K V → sp_objs p !! o = Some c → length k = n → length v = n →
  K !! l = Some ck → V !! l = Some cv →
  wp (let* c := StaticKVCache.this o in
      let start := sc_start c in
      let end_ := sc_start c + n in
      do* StaticKVCache.store_k l (sc_slot c) start (end_ - start) k in
      do* StaticKVCache.store_v l (sc_slot c) start (end_ - start) v in
      let* p := get in
      let* kk := StaticKVCache.prefix_of (sp_k p) l (sc_slot c) end_ in
      let* vv := StaticKVCache.prefix_of (sp_v p) l (sc_slot c) end_ in
      ret (kk, vv))
     (λ r p', r = (ck ++ k, cv ++ v) ∧ sbusy L o p' n (S l) (<[l := ck ++ k]> K) (<[l := cv ++ v]> V) ∧
        foreign p p' (sc_slot c) ∧ sp_objs p' = sp_objs p) never p.
Proof.
  intros ([Hsk Hsv] & c0 & Hc0 & Hslot & Hpos & Hmax & HK & HV) Hc <- Hv HKl HVl.
  assert (c0 = c) as -> by congruence. wp_step. rw {1}/wp /StaticKVCache.this Hc. cbv zeta.
  destruct (proj2 HK _ _ HKl) as (rk & Hrk & _). destruct (proj2 HV _ _ HVl) as (rv & Hrv & _).
  replace (sc_start c + length k - sc_start c) with (length k) by lia.
  destruct (store_spec _ _ _ _ l (sc_slot c) (sc_start c) k rk Hsk Hrk ltac:(lia)) as (sk & Hlk & Hssk & Hstk & Hshk).
  destruct (store_spec _ _ _ _ l (sc_slot c) (sc_start c) v rv Hsv Hrv ltac:(lia)) as (sv & Hlv & Hssv & Hstv & Hshv).
  rw Hv in Hstv.
  pose proof (ss_len _ _ _ _ Hsk _ _ _ _ Hlk Hssk) as Hlenk.
  pose proof (ss_len _ _ _ _ Hsv _ _ _ _ Hlv Hssv) as Hlenv.
  rw Hpos in HK, HV.
  destruct (sreads_write (sp_k p) l sk (sc_slot c) (sc_start c) k rk K ck (length k)) as [HK' Htk]; auto; [lia|].
  destruct (sreads_write (sp_v p) l sv (sc_slot c) (sc_start c) v rv V cv (length k)) as [HV' Htv]; auto; [lia|].
  pose proof (lookup_lt_Some _ _ _ Hlk). pose proof (lookup_lt_Some _ _ _ Hlv).
  pose proof (lookup_lt_Some _ _ _ Hssk). pose proof (lookup_lt_Some _ _ _ Hssv).
  wp_step. rw {1}/wp /StaticKVCache.store_k Hstk. wp_step. rw {1}/wp /StaticKVCache.store_v /= Hstv.
  do 2 wp_step. wp_step. rw {1}/StaticKVCache.prefix_of /=.
  rw list_lookup_insert_eq //. wp_step. wp_step. rw {1}/StaticKVCache.prefix_of /=.
  rw list_lookup_insert_eq //. do 2 wp_step.
  rw !list_lookup_insert_eq //= Htk Htv. split_and!; [done| | |done].
  - split; [done|]. exists c. rw /= Hpos. split_and!; try done. lia.
  - rw /foreign /=. split_and!; try done. intros l' s' Hne.
    rw !srow_insert // !decide_False //; tauto.
Qed.

Lemma sreads_ext buf slot f g R : (∀ l, l < length buf → f l = g l) → sreads buf slot f R → sreads buf slot g R.
Proof.
  intros Hfg [Hl HR]. split; [done|]. intros l r Hr. rw -Hfg; [by apply HR|].
  rw -Hl. by eapply lookup_lt_Some.
Qed.

Lemma advance_spec L o p n K V c :
  sidle L o p K V → sp_objs p !! o = Some c →
  wp (StaticKVCache.advance o n)
     (λ _ p', sc_pos c + n ≤ max_seq_len p ∧ sbusy L o p' n 0 K V ∧
        p' = set_sp_objs (<[o := mkSCache (sc_slot c) (sc_pos c + n) (sc_pos c)]> (sp_objs p)) p)
     (λ e p', e = RuntimeError ∧ max_seq_len p < sc_pos c + n ∧
        p' = set_sp_objs (<[o := mkSCache (sc_slot c) (sc_pos c + n) (sc_pos c)]> (sp_objs p)) p) p.
Proof.
  intros (Hsh & c0 & Hc0 & Hslot & Hmax & HK & HV) Hc.
  assert (c0 = c) as -> by congruence.
  pose proof (lookup_lt_Some _ _ _ Hc) as Hlt.
  rw /StaticKVCache.advance. wp_step. rw {1}/wp /StaticKVCache.this Hc.
  wp_step. rw /StaticKVCache.set_this. wp_step. wp_step. rw {1}/wp /= list_lookup_insert_eq //=.
  wp_step. wp_step. wp_step. rw {1}/wp /=. rw list_lookup_insert_eq ?length_insert //=.
  do 2 wp_step. cbn. rw !list_insert_insert_eq.
  wp_step; [apply Nat.ltb_lt in Heqb|apply Nat.ltb_ge in Heqb]; simpl in Heqb; wp_step.
  - by split_and!.
  - split_and!; [done| |done]. split; [done|]. eexists. cbn. by rw list_lookup_insert_eq.
Qed.

Lemma this_update L o p n d K V : sbusy L o p n d K V → ∃ c, sp_objs p !! o = Some c.
Proof. intros (_ & c & ? & _). eauto. Qed.

#[export] Instance static_cache (o : nat) : KVCache T (SPool T) | 10 := {|
  kv_update := StaticKVCache.update o;
  kv_len := StaticKVCache.len o;
|}.

#[export] Program Instance static_laws (o L : nat) : KVCacheLaws T (SPool T) (H := static_cache o) L | 10 := {|
  kv_idle p K V := sidle L o p K V;
  kv_busy p n d K V := sbusy L o p n d K V;
  kv_room p n := StaticKVCache.len o p + n ≤ max_seq_len p;
|}.
Next Obligation.
  intros o L p K V ([[Hk _ _] [Hv _ _]] & c & _ & _ & _ & [HK _] & [HV _]). by rw HK HV.
Qed.
Next Obligation.
  intros o L p n d K V ([[Hk _ _] [Hv _ _]] & c & _ & _ & _ & _ & [HK _] & [HV _]). by rw HK HV.
Qed.
Next Obligation.
  intros o L p K V r ([Hk _] & c & Hc & Hslot & Hmax & [_ HK] & _) Hr. simpl.
  destruct (HK _ _ Hr) as (row & Hrow & <-). rw /StaticKVCache.len Hc length_take.
  rw /srow in Hrow. destruct (sp_k p !! 0) as [slab|] eqn:Hl; [|done].
  rw (ss_len _ _ _ _ Hk _ _ _ _ Hl Hrow). lia.
Qed.
Next Obligation.
  intros o L p k v K V ck cv Hid Hroom Hv HK HV. simpl in *.
  pose proof Hid as (_ & c & Hc & _). rw /StaticKVCache.update Nat.eqb_refl. wp_step.
  rw /StaticKVCache.len Hc in Hroom.
  eapply wp_mono; [by eapply advance_spec|..].
  - intros _ p1 (_ & Hb & _). destruct (this_update _ _ _ _ _ _ _ Hb) as [c1 Hc1].
    eapply wp_mono; [by eapply static_write_spec|naive_solver|done].
  - intros e p1 (_ & Hlt & _). lia.
Qed.
Next Obligation.
  intros o L p l k v K V ck cv Hb Hv HK HV. simpl in *. rw /StaticKVCache.update.
  wp_step. wp_step; [done|]. wp_step. destruct (this_update _ _ _ _ _ _ _ Hb) as [c1 Hc1].
  eapply wp_mono; [by eapply static_write_spec|naive_solver|done].
Qed.
Next Obligation.
  intros o L p n K V (Hsh & c & Hc & Hs & Hp & Hm & HK & HV). pose proof Hsh as [[HLk _ _] [HLv _ _]].
  split; [done|]. exists c. split_and!; try done.
  - eapply sreads_ext; [|done]. simpl. intros l Hl. by rw (proj2 (Nat.ltb_lt _ _)); [|lia].
  - eapply sreads_ext; [|done]. simpl. intros l Hl. by rw (proj2 (Nat.ltb_lt _ _)); [|lia].
Qed.
End static_instance.

(** ** The slot allocator's books *)

Section books.
Context {T : Type}.
Implicit Types (p : SPool T).

(** Free and live slots partition the pool, every live entry names an object that
    writes that slot, and every live slot has a bounded expected length. *)
Record books p : Prop := {
  bk_nodup : NoDup (sp_free p);
  bk_free s : s ∈ sp_free p ↔ s < num_slots p ∧ sp_live p !! s = None;
  bk_live s o : sp_live p !! s = Some o →
    s < num_slots p ∧ ∃ c, sp_objs p !! o = Some c ∧ sc_slot c = s;
  bk_dom : dom (sp_expected p) = dom (sp_live p);
  bk_expected s e : sp_expected p !! s = Some e → e ≤ max_seq_len p;
}.

Inductive static_cmd :=
  | SAllocate (expected_len : option nat)
  | SFree (o : nat)
  | SReset
  | SUpdate (o layer_idx : nat) (k v : list T).

Definition run_static (cmd : static_cmd) p : SPool T :=
  match cmd with
  | SAllocate e => (StaticCachePool.allocate e p).2
  | SFree o => (StaticCachePool.free o p).2
  | SReset => (StaticCachePool.reset p).2
  | SUpdate o l k v => (StaticKVCache.update o l k v p).2
  end.

(** Same books, same slots per object: all [update] may change is the rest. *)
Definition same_books p p' : Prop :=
  num_slots p' = num_slots p ∧ max_seq_len p' = max_seq_len p ∧ sp_free p' = sp_free p ∧
  sp_live p' = sp_live p ∧ sp_expected p' = sp_expected p ∧
  sc_slot <$> sp_objs p' = sc_slot <$> sp_objs p.

Lemma same_books_trans p1 p2 p3 : same_books p1 p2 → same_books p2 p3 → same_books p1 p3.
Proof. intros (?&?&?&?&?&?) (?&?&?&?&?&?). split_and!; congruence. Qed.

Lemma same_books_ok p p' : same_books p p' → books p → books p'.
Proof.
  intros (Hn & Hm & Hf & Hl & He & Ho) [H1 H2 H3 H4 H5].
  split; rw ?Hn ?Hm ?Hf ?Hl ?He //.
  intros s o Hs. destruct (H3 s o Hs) as (Hlt & c & Hc & Hsc). split; [done|].
  apply (f_equal (lookup o)) in Ho. rw !list_lookup_fmap Hc /= in Ho.
  destruct (sp_objs p' !! o) as [c'|] eqn:Hc'; [|done]. exists c'. simpl in Ho. naive_solver.
Qed.

Lemma this_books o p Q : (∀ c, sp_objs p !! o = Some c → Q c p) →
  wp (StaticKVCache.this o) Q (λ _ p', same_books p p') p.
Proof. intros HQ. rw /wp /StaticKVCache.this. destruct (sp_objs p !! o); [by apply HQ|done]. Qed.

Lemma set_this_books o p c c' :
  sp_objs p !! o = Some c → sc_slot c' = sc_slot c → same_books p (set_sp_objs (<[o := c']> (sp_objs p)) p).
Proof.
  intros Hc Hs. split_and!; try done. simpl. rw list_fmap_insert Hs.
  apply list_insert_id. by rw list_lookup_fmap Hc.
Qed.

Lemma advance_books o n p :
  wp (StaticKVCache.advance o n) (λ _ p', same_books p p') (λ _ p', same_books p p') p.
Proof.
  rw /StaticKVCache.advance. wp_step. apply this_books. intros c Hc.
  pose proof (lookup_lt_Some _ _ _ Hc) as Hlt.
  wp_step. rw /StaticKVCache.set_this. wp_step. wp_step. rw {1}/wp /StaticKVCache.this /=.
  rw list_lookup_insert_eq //=. wp_step. wp_step. wp_step. rw {1}/wp /=.
  rw list_lookup_insert_eq ?length_insert //=. do 2 wp_step. cbn. rw list_insert_insert_eq.
  wp_step; wp_step; by eapply (set_this_books o p c).
Qed.

Lemma update_books o l k v p :
  wp (StaticKVCache.update o l k v) (λ _ p', same_books p p') (λ _ p', same_books p p') p.
Proof.
  rw /StaticKVCache.update. wp_step.
  assert (wp (if l =? 0 then StaticKVCache.advance o (length k) else ret tt)
    (λ _ p', same_books p p') (λ _ p', same_books p p') p) as H.
  { wp_step; [apply advance_books|by wp_step]. }
  eapply wp_mono; [exact H| |done]. intros [] p1 H1. wp_step.
  eapply wp_mono; [apply (this_books o p1 (λ c p', p' = p1)); done| |].
  2:{ intros e p2 ?. by eapply same_books_trans. }
  simpl. intros c p2 ->. cbv zeta. wp_step. rw {1}/wp /StaticKVCache.store_k.
  destruct (StaticKVCache.store _ _ _ _ _ k) as [b|]; [|done].
  wp_step. rw {1}/wp /StaticKVCache.store_v. cbn [sp_v set_sp_k].
  destruct (StaticKVCache.store _ _ _ _ _ v) as [b'|]; [|done].
  do 3 wp_step. rw /StaticKVCache.prefix_of. wp_step; wp_step; [|done]. wp_step. wp_step; wp_step; [|done].
  by wp_step.
Qed.

Lemma books_init zero cfg slots max_len : books (StaticCachePool.init zero cfg slots max_len : SPool T).
Proof.
  split; simpl; [apply NoDup_seq| | |by rw !dom_empty_L|].
  - intros s. rw elem_of_seq lookup_empty. naive_solver lia.
  - intros s o. by rw lookup_empty.
  - intros s e. by rw lookup_empty.
Qed.

Lemma allocate_books e p : books p → books (StaticCachePool.allocate e p).2.
Proof.
  intros Hb. rw /StaticCachePool.allocate /bind /get. destruct (py_pop (sp_free p)) as [[s rest]|] eqn:Hpop; [|done].
  apply py_pop_Some in Hpop. destruct Hb as [Hnd Hf Hl Hd He]. rw Hpop in Hnd, Hf.
  apply NoDup_app in Hnd as (Hnd & Hdis & _).
  assert (s ∉ rest) as Hs. { intros Hin. apply (Hdis _ Hin). by left. }
  assert (s < num_slots p) as Hlt. { apply Hf. apply elem_of_app. right. by left. }
  split; simpl.
  - done.
  - intros s'. destruct (decide (s' = s)) as [->|Hne].
    + rw lookup_insert_eq. naive_solver.
    + rw lookup_insert_ne // -Hf elem_of_app list_elem_of_singleton. naive_solver.
  - intros s' o [[<- <-]|[Hne Hs']]%lookup_insert_Some.
    + split; [done|]. eexists. split; [by apply list_lookup_middle|done].
    + destruct (Hl _ _ Hs') as (? & c & Hc & ?). split; [done|]. exists c. split; [|done].
      by apply lookup_app_l_Some.
  - by rw !dom_insert_L Hd.
  - intros s' e' [[<- <-]|[Hne Hs']]%lookup_insert_Some; [lia|by eapply He].
Qed.

Lemma free_books o p : books p → books (StaticCachePool.free o p).2.
Proof.
  intros Hb. rw /StaticCachePool.free /bind /StaticKVCache.this.
  destruct (sp_objs p !! o) as [c|] eqn:Hc; [|done]. simpl. rw /get.
  destruct (sp_live p !! sc_slot c) as [o'|] eqn:Ho; [|done]. destruct Hb as [Hnd Hf Hl Hd He].
  destruct (Hl _ _ Ho) as [Hlt _]. split; simpl.
  - apply NoDup_app. split_and!; [done| |apply NoDup_singleton].
    intros s Hs%Hf ->%list_elem_of_singleton. naive_solver.
  - intros s. rw elem_of_app list_elem_of_singleton Hf. destruct (decide (s = sc_slot c)) as [->|Hne].
    + rw lookup_delete_eq. naive_solver.
    + rw lookup_delete_ne //. naive_solver.
  - intros s o1 [Hne Hs]%lookup_delete_Some. by apply Hl.
  - by rw !dom_delete_L Hd.
  - intros s e [Hne Hs]%lookup_delete_Some. by eapply He.
Qed.

Lemma run_static_books cmd p : books p → books (run_static cmd p).
Proof.
  intros Hb. destruct cmd as [e|o| |o l k v]; simpl.
  - by apply allocate_books.
  - by apply free_books.
  - split; simpl; [apply NoDup_seq| | |by rw !dom_empty_L|].
    + intros s. rw elem_of_seq lookup_empty. naive_solver lia.
    + intros s o. by rw lookup_empty.
    + intros s e. by rw lookup_empty.
  - pose proof (update_books o l k v p) as H. rw /wp in H.
    destruct (StaticKVCache.update o l k v p) as [[r|e] p']; by eapply same_books_ok.
Qed.
End books.

(** ** Properties *)

(** C21: the contiguous pool's books stay right under any sequence of allocations,
    frees (repeated ones included), resets and updates, whatever they raise: free
    and live slots partition the pool, each free slot is listed once, every live
    slot is written by the object registered for it, and two live slots are never
    owned by the same object. *)
Theorem static_pool_books {T} (zero : T) cfg slots max_len (cmds : list static_cmd) :
  let p := foldl (λ p cmd, run_static cmd p) (StaticCachePool.init zero cfg slots max_len) cmds in
  books p ∧ (∀ s s' o, sp_live p !! s = Some o → sp_live p !! s' = Some o → s = s').
Proof.
  intros p. assert (books p) as Hb.
  { subst p. generalize (books_init zero cfg slots max_len).
    generalize (StaticCachePool.init zero cfg slots max_len).
    induction cmds as [|cmd cmds IH]; intros p Hp; [done|]. by apply IH, run_static_books. }
  split; [done|]. intros s s' o Hs Hs'.
  destruct (bk_live _ Hb _ _ Hs) as (_ & c & Hc & <-), (bk_live _ Hb _ _ Hs') as (_ & c' & Hc' & <-). congruence.
Qed.

Lemma sum_list_with_bound {A} (f g h : A → nat) (m : nat) (l : list A) :
  (∀ x, x ∈ l → f x ≤ m ∧ h x = g x - f x ∧ g x ≤ m) →
  sum_list_with f l + sum_list_with h l ≤ length l * m.
Proof.
  induction l as [|x l IH]; intros H; simpl; [lia|].
  destruct (H x ltac:(by left)) as (? & ? & ?). specialize (IH ltac:(intros ??; apply H; by right)). lia.
Qed.

(** The contiguous pool's waste decomposes exactly.  When no live sequence has
    overrun its slot, [stats] succeeds, the handed-out tokens are the used, the
    reserved and the internally fragmented ones, with no clamping, and the handed-out
    and the externally fragmented ones make up the whole capacity. *)
Theorem static_waste_decomposes {T} (p : SPool T) cfg itemsize :
  books p → (∀ s o, sp_live p !! s = Some o → StaticKVCache.len o p ≤ max_seq_len p) →
  ∃ st, static_stats cfg itemsize p = Ok st ∧
    (ps_tokens_allocated st
     = ps_tokens_used st + ps_tokens_reserved st + ps_internal_fragmentation st)%Z ∧
    (ps_tokens_capacity st = ps_tokens_allocated st + ps_external_fragmentation st)%Z ∧
    (0 ≤ ps_internal_fragmentation st)%Z.
Proof.
  intros Hb Hlen. rw /static_stats /live_reserved.
  assert (forallb (λ '(slot, _), bool_decide (is_Some (sp_expected p !! slot))) (map_to_list (sp_live p)) = true) as ->.
  { apply List.forallb_forall. intros [s o] Hin%list_elem_of_In%elem_of_map_to_list.
    apply bool_decide_eq_true, elem_of_dom. rw (bk_dom _ Hb). by apply elem_of_dom_2 in Hin. }
  eexists. split; [done|].
  rw /ps_internal_fragmentation /ps_external_fragmentation /ps_tokens_allocated /ps_tokens_capacity /=.
  pose proof (sum_list_with_bound (λ '(_, o), StaticKVCache.len o p)
    (λ '(slot, _), default 0 (sp_expected p !! slot))
    (λ '(slot, o), default 0 (sp_expected p !! slot) - StaticKVCache.len o p)
    (max_seq_len p) (map_to_list (sp_live p))) as Hsum.
  rw length_map_to_list in Hsum. rw /live_used.
  lapply Hsum; [intros Hle; split_and!; lia|].
  intros [s o] Hin%elem_of_map_to_list. split_and!; [by eapply Hlen|done|].
  destruct (sp_expected p !! s) as [e|] eqn:He; simpl; [by eapply (bk_expected _ Hb)|lia].
Qed.

Lemma static_waste_decomposes_witness :
  let p := (StaticCachePool.allocate (Some 3) (StaticCachePool.init 0 TINY 2 (Some 8))).2 in
  ∃ st, static_stats TINY 2 p = Ok st ∧ ps_tokens_reserved st = 3%Z ∧
    (ps_tokens_allocated st
     = ps_tokens_used st + ps_tokens_reserved st + ps_internal_fragmentation st)%Z.
Proof.
  intros p. destruct (static_waste_decomposes p TINY 2) as (st & Hst & Hdec & _).
  - apply allocate_books, books_init.
  - intros s o Hs. unfold StaticKVCache.len. simpl.
    destruct o as [|[|o]]; simpl; lia.
  - exists st. vm_compute in Hst. injection Hst as <-. split; [vm_compute; reflexivity|].
    split; [reflexivity|exact Hdec].
Defined.

(** A handle freed twice, with its slot handed out again in between, releases the
    new owner's slot: [free] looks the slot up and not the object. *)
Example stale_free_evicts_owner :
  let p0 := StaticCachePool.init 0 TINY 1 (Some 8) in
  let p := foldl (λ p cmd, run_static cmd p) p0 [SAllocate None; SFree 0; SAllocate None; SFree 0] in
  sp_objs p = [mkSCache 0 0 0; mkSCache 0 0 0] ∧ sp_live p = ∅ ∧ sp_free p = [0].
Proof. vm_compute. done. Qed.
