(* ===== verification/Transformer.v ===== *)
(** * The transformer over the cache protocol (model/transformer.py)

    [Attention], [DecoderLayer], [NanoModel] and [NanoForCausalLM.forward] for a
    batch of one sequence, the shape the serving engine uses.  A tensor of hidden
    states is the list of its rows, one per position; a cached row is the list of
    its heads.  Torch's scalar arithmetic, the linear layers and the fused
    attention kernel are parameters; masks, regimes, positions, head layout and
    the order of cache updates are the code's. *)

From Stdlib Require Import ssreflect.
From stdpp Require Import prelude gmap gmultiset strings list.
From S2P Require Import Prelude KvCache.

(** Scalar operations of torch that the code calls. *)
Class Torch (R : Type) := {
  t_add : R → R → R;
  t_mul : R → R → R;
  t_neg : R → R;
  t_cos : R → R;
  t_sin : R → R;
  t_rsqrt : R → R;
  t_silu : R → R;
  t_float : R → R;      (* .float() *)
  t_to_dtype : R → R;   (* .to(x.dtype) *)
  t_mean : list R → R;
  t_arange : nat → R;   (* torch.arange(...)[i] in float32 *)
}.

Section model.
Context {R : Type} `{Torch R}.
#[local] Notation "'Vec'" := (list R).

Definition vadd (a b : Vec) : Vec := zip_with t_add a b.
Definition vmul (a b : Vec) : Vec := zip_with t_mul a b.

(** ** Normalisation and feed-forward *)

Record RMSNorm := mkRMSNorm { rms_eps : R; rms_weight : Vec }.

Definition rms_forward (m : RMSNorm) (x : Vec) : Vec :=
  let x := t_float <$> x in
  let rms := t_rsqrt (t_add (t_mean ((λ a, t_mul a a) <$> x)) (rms_eps m)) in
  vmul ((λ a, t_to_dtype (t_mul a rms)) <$> x) (rms_weight m).

(** An [nn.Linear] acts on the last dimension, one row at a time. *)
Record SwiGLU := mkSwiGLU { gate_proj : Vec → Vec; up_proj : Vec → Vec; down_proj : Vec → Vec }.

Definition swiglu_forward (m : SwiGLU) (x : Vec) : Vec :=
  down_proj m (vmul (t_silu <$> gate_proj m x) (up_proj m x)).

(** ** Rotary embeddings *)

Record Rotary := mkRotary {
  inv_freq : Vec;
  max_positions : nat;
  cos_cached : list Vec;
  sin_cached : list Vec;
}.

(** One row of [emb = cat((freqs, freqs))]. *)
Definition rope_angles (inv : Vec) (t : nat) : Vec :=
  let freqs := (λ f, t_mul (t_arange t) f) <$> inv in freqs ++ freqs.

Definition build_tables (n : nat) (r : Rotary) : Rotary :=
  let emb := rope_angles (inv_freq r) <$> seq 0 n in
  mkRotary (inv_freq r) n ((λ e, t_cos <$> e) <$> emb) ((λ e, t_sin <$> e) <$> emb).

Definition rotary_init (inv : Vec) (n : nat) : Rotary := build_tables n (mkRotary inv 0 [] []).

Definition ensure_capacity (max_position : nat) (r : Rotary) : Rotary :=
  if max_positions r <? max_position then build_tables max_position r else r.

(** [self.cos_cached[position_ids], self.sin_cached[position_ids]]. *)
Definition rotary_forward (position_ids : list nat) (r : Rotary) : result (list (Vec * Vec)) :=
  match index_select (cos_cached r) position_ids, index_select (sin_cached r) position_ids with
  | Some c, Some s => Ok (zip c s)
  | _, _ => Raise IndexError
  end.

Definition rotate_half (x : Vec) : Vec :=
  let half := length x / 2 in (t_neg <$> drop half x) ++ take half x.

(** [apply_rotary] on one head. *)
Definition apply_rotary (cs : Vec * Vec) (x : Vec) : Vec :=
  vadd (vmul x cs.1) (vmul (rotate_half x) cs.2).

(** [cos.to(x.dtype), sin.to(x.dtype)]. *)
Definition cast_cs (cs : Vec * Vec) : Vec * Vec := (t_to_dtype <$> cs.1, t_to_dtype <$> cs.2).

(** ** Attention *)

(** [.view(b, t, n, d).transpose(1, 2)], one position. *)
Definition heads (n d : nat) (row : Vec) : list Vec :=
  (λ h, take d (drop (h * d) row)) <$> seq 0 n.

(** [repeat_kv], one position: every KV head [n_rep] times. *)
Definition repeat_kv (n_rep : nat) (x : list Vec) : list Vec :=
  if n_rep =? 1 then x else x ≫= λ h, replicate n_rep h.

Definition offset_causal_mask (q_len kv_len : nat) : list (list bool) :=
  (λ i, (λ k, Z.of_nat k <=? Z.of_nat kv_len - Z.of_nat q_len + Z.of_nat i)%Z <$> seq 0 kv_len)
    <$> seq 0 q_len.

Record Attention := mkAttention {
  n_heads : nat;
  n_kv_heads : nat;
  a_head_dim : nat;
  a_n_rep : nat;
  q_proj : Vec → Vec;
  k_proj : Vec → Vec;
  v_proj : Vec → Vec;
  o_proj : Vec → Vec;
}.

(** [F.scaled_dot_product_attention(q, k, v, attn_mask, is_causal, scale)] on lists
    of positions, each a list of heads. *)
Variable sdpa : list (list Vec) → list (list Vec) → list (list Vec) →
  option (list (list bool)) → bool → list (list Vec).

Section cached.
Context {St : Type} `{KVCache (list Vec) St}.

(** The query, key and value rows of one position. *)
Definition q_row (m : Attention) (x : Vec) (cs : Vec * Vec) : list Vec :=
  apply_rotary cs <$> heads (n_heads m) (a_head_dim m) (q_proj m x).
Definition k_row (m : Attention) (x : Vec) (cs : Vec * Vec) : list Vec :=
  apply_rotary cs <$> heads (n_kv_heads m) (a_head_dim m) (k_proj m x).
Definition v_row (m : Attention) (x : Vec) : list Vec := heads (n_kv_heads m) (a_head_dim m) (v_proj m x).

(** The three regimes: prefill, decode, chunked prefill. *)
Definition regime (attn_mask : option (list (list bool))) (t kv_len : nat) : option (list (list bool)) * bool :=
  match attn_mask with
  | None => if 1 <? t then
              if t =? kv_len then (None, true) else (Some (offset_causal_mask t kv_len), false)
            else (None, false)
  | Some _ => (attn_mask, false)
  end.

(** [cache] is [None] when [use_cache] is false. *)
Definition attention_forward (m : Attention) (layer_idx : nat) (x : list Vec) (cs : list (Vec * Vec))
    (use_cache : bool) (attn_mask : option (list (list bool))) : M St (list Vec) :=
  let q := zip_with (q_row m) x cs in
  let k := zip_with (k_row m) x cs in
  let v := v_row m <$> x in
  let* (k, v) := (if use_cache then kv_update layer_idx k v else ret (k, v)) in
  let k := repeat_kv (a_n_rep m) <$> k in
  let v := repeat_kv (a_n_rep m) <$> v in
  let (mask, is_causal) := regime attn_mask (length x) (length k) in
  let out := sdpa q k v mask is_causal in
  ret ((λ o, o_proj m (mjoin o)) <$> out).

Record DecoderLayer := mkDecoderLayer {
  self_attn : Attention;
  mlp : SwiGLU;
  input_layernorm : RMSNorm;
  post_attention_layernorm : RMSNorm;
}.

Definition decoder_forward (m : DecoderLayer) (layer_idx : nat) (x : list Vec) (cs : list (Vec * Vec))
    (use_cache : bool) (attn_mask : option (list (list bool))) : M St (list Vec) :=
  let* a := attention_forward (self_attn m) layer_idx (rms_forward (input_layernorm m) <$> x) cs
              use_cache attn_mask in
  let x := zip_with vadd x a in
  ret ((λ r, vadd r (swiglu_forward (mlp m) (rms_forward (post_attention_layernorm m) r))) <$> x).

(** [for layer in self.layers: x = layer(x, ...)]; [layer_idx] is the layer's index. *)
Fixpoint layers_forward (ls : list DecoderLayer) (layer_idx : nat) (x : list Vec) (cs : list (Vec * Vec))
    (use_cache : bool) (attn_mask : option (list (list bool))) : M St (list Vec) :=
  match ls with
  | [] => ret x
  | m :: ls =>
      let* x := decoder_forward m layer_idx x cs use_cache attn_mask in
      layers_forward ls (S layer_idx) x cs use_cache attn_mask
  end.

(** The weights; the rotary tables are mutable state. *)
Record NanoForCausalLM := mkNano {
  embed_tokens : list Vec;
  layers : list DecoderLayer;
  final_norm : RMSNorm;
  lm_head : Vec → Vec;
}.

Definition MSt : Type := Rotary * St.
Definition lift {S A} (r : result A) : M S A := λ s, (r, s).
Definition on_kv {A} (m : M St A) : M MSt A := zoom snd (λ c s, (s.1, c)) m.

Definition nano_forward (w : NanoForCausalLM) (input_ids : list nat) (position_ids : option (list nat))
    (use_cache : bool) (attn_mask : option (list (list bool))) : M MSt (list Vec) :=
  let t := length input_ids in
  let* (_, c) := get in
  let* position_ids :=
    match position_ids with
    | Some p => ret p
    | None =>
        let past := if use_cache then kv_len c else 0 in
        do* modify (λ s, (ensure_capacity (past + t) s.1, s.2)) in
        ret (seq past t)
    end in
  let* x := lift (match index_select (embed_tokens w) input_ids with
                  | Some x => Ok x
                  | None => Raise IndexError
                  end) in
  let* (r, _) := get in
  let* cs := lift (rotary_forward position_ids r) in
  let cs := cast_cs <$> cs in
  let* x := on_kv (layers_forward (layers w) 0 x cs use_cache attn_mask) in
  ret (rms_forward (final_norm w) <$> x).

(** [NanoForCausalLM.forward] without labels: the logits. *)
Definition lm_forward (w : NanoForCausalLM) (input_ids : list nat) (position_ids : option (list nat))
    (use_cache : bool) (attn_mask : option (list (list bool))) : M MSt (list Vec) :=
  let* hidden := nano_forward w input_ids position_ids use_cache attn_mask in
  ret (lm_head w <$> hidden).

End cached.
End model.

(** * Cached and uncached forward passes agree *)

(** The entries of [l] at the positions [f] allows. *)
Fixpoint keep {A} (f : nat → bool) (l : list A) : list A :=
  match l with
  | [] => []
  | x :: l => if f 0 then x :: keep (λ j, f (S j)) l else keep (λ j, f (S j)) l
  end.

(** Whether query [i] may look at key [j], per the kernel's documentation: an
    explicit boolean mask, or the causal one, or everything. *)
Definition allowed (mask : option (list (list bool))) (is_causal : bool) (i j : nat) : bool :=
  match mask with
  | Some m => default false (m !! i ≫= λ row, row !! j)
  | None => if is_causal then j <=? i else true
  end.

Lemma keep_ext {A} (f g : nat → bool) (l : list A) :
  (∀ j, j < length l → f j = g j) → keep f l = keep g l.
Proof.
  revert f g. induction l as [|x l IH]; intros f g Hfg; [done|]; simpl.
  rw (Hfg 0); [|simpl; lia]. rw (IH (λ j, f (S j)) (λ j, g (S j))) //.
  intros j Hj. apply Hfg. simpl. lia.
Qed.

Lemma keep_lt {A} (n : nat) (l : list A) : keep (λ j, j <? n) l = take n l.
Proof.
  revert n. induction l as [|x l IH]; intros [|n]; try done; simpl.
  - rw (keep_ext _ (λ j, j <? 0)) // IH //.
  - by rw -IH.
Qed.

Lemma take_imap {A B} (f : nat → A → B) l n : take n (imap f l) = imap f (take n l).
Proof.
  revert f n. induction l as [|x l IH]; intros f [|n]; try done; simpl. by rw IH.
Qed.

Lemma drop_imap {A B} (f : nat → A → B) l n :
  drop n (imap f l) = imap (λ i, f (n + i)) (drop n l).
Proof.
  revert f n. induction l as [|x l IH]; intros f [|n]; try done. simpl. apply IH.
Qed.

Lemma zip_with_seq {A B C} (f : A → B → C) (g : nat → B) l n :
  zip_with f l (g <$> seq n (length l)) = imap (λ i x, f x (g (n + i))) l.
Proof.
  revert n. induction l as [|x l IH]; intros n; [done|]. cbn. rw Nat.add_0_r. f_equal.
  rw IH. apply imap_ext. intros i y _. cbn. by rw Nat.add_succ_r.
Qed.

Section equivalence.
Context {R : Type} `{HT : Torch R}.
#[local] Notation "'Vec'" := (list R).

(** The kernel, and what its documentation says of it: output row [i] is a function
    of query [i] and of the keys and values it is allowed to look at, in order. *)
Context (sdpa : list (list Vec) → list (list Vec) → list (list Vec) →
                option (list (list bool)) → bool → list (list Vec)).
Context (attend : list Vec → list (list Vec) → list (list Vec) → list Vec).
Hypothesis sdpa_rows : ∀ q k v mask c,
  sdpa q k v mask c = imap (λ i qi, attend qi (keep (allowed mask c i) k) (keep (allowed mask c i) v)) q.

(** All three regimes are one rule: query [i] of the new rows sees the past and the
    new rows up to its own. *)
Lemma regime_uniform q k v past :
  length k = past + length q → length v = length k →
  let (mask, c) := regime None (length q) (length k) in
  sdpa q k v mask c = imap (λ i qi, attend qi (take (past + S i) k) (take (past + S i) v)) q.
Proof.
  intros Hk Hv. destruct (regime None (length q) (length k)) as [mask c] eqn:Hr. rw sdpa_rows.
  apply imap_ext. intros i qi Hi. apply lookup_lt_Some in Hi.
  assert (∀ j, j < length k → allowed mask c i j = (j <? past + S i)) as Hall.
  { intros j Hj. rw /regime in Hr. destruct (Nat.ltb_spec 1 (length q)) as [Hq|Hq].
    - destruct (Nat.eqb_spec (length q) (length k)) as [He|Hne]; simplify_eq/=.
      + destruct (Nat.leb_spec j i), (Nat.ltb_spec j (past + S i)); try done; lia.
      + rw /offset_causal_mask list_lookup_fmap lookup_seq_lt //=.
        rw list_lookup_fmap lookup_seq_lt //=.
        destruct (Z.leb_spec (Z.of_nat j) (Z.of_nat (length k) - Z.of_nat (length q) + Z.of_nat i)),
          (Nat.ltb_spec j (past + S i)); try done; lia.
    - simplify_eq/=. destruct (Nat.ltb_spec j (past + S i)); [done|lia]. }
  rw -!keep_lt. f_equal; apply keep_ext; intros j Hj; apply Hall; [done|by rw -Hv].
Qed.

Section reference.
Variable inv : Vec.  (* inverse frequencies *)

(** The rotation of position [t], whatever table it is read from. *)
Definition rot (t : nat) : Vec * Vec :=
  cast_cs (t_cos <$> rope_angles inv t, t_sin <$> rope_angles inv t).

Definition krows (m : DecoderLayer) (x : list Vec) : list (list Vec) :=
  imap (λ i xi, k_row (self_attn m) (rms_forward (input_layernorm m) xi) (rot i)) x.
Definition vrows (m : DecoderLayer) (x : list Vec) : list (list Vec) :=
  (λ xi, v_row (self_attn m) (rms_forward (input_layernorm m) xi)) <$> x.

(** Residual, output projection and feed-forward of one position. *)
Definition finish_row (m : DecoderLayer) (xi : Vec) (o : list Vec) : Vec :=
  let r := vadd xi (o_proj (self_attn m) (mjoin o)) in
  vadd r (swiglu_forward (mlp m) (rms_forward (post_attention_layernorm m) r)).

(** Row [i] of a layer given all key and value rows. *)
Definition ref_row (m : DecoderLayer) (K V : list (list Vec)) (i : nat) (xi : Vec) : Vec :=
  let a := self_attn m in
  finish_row m xi (attend (q_row a (rms_forward (input_layernorm m) xi) (rot i))
    (take (S i) (repeat_kv (a_n_rep a) <$> K)) (take (S i) (repeat_kv (a_n_rep a) <$> V))).

(** One layer and the whole stack over a complete sequence, no cache. *)
Definition ref_layer (m : DecoderLayer) (x : list Vec) : list Vec :=
  imap (ref_row m (krows m x) (vrows m x)) x.
Definition ref_layers (ls : list DecoderLayer) (x : list Vec) : list Vec :=
  foldl (λ x m, ref_layer m x) x ls.

Lemma length_ref_layer m x : length (ref_layer m x) = length x.
Proof. by rw /ref_layer length_imap. Qed.

Lemma length_ref_layers ls : ∀ x, length (ref_layers ls x) = length x.
Proof.
  induction ls as [|m ls IH]; intros x; [done|]. cbn. rw -/(ref_layers ls _) IH. apply length_ref_layer.
Qed.

Lemma krows_app m x y : take (length x) (krows m (x ++ y)) = krows m x.
Proof. by rw /krows take_imap take_app_length. Qed.
Lemma vrows_app m x y : take (length x) (vrows m (x ++ y)) = vrows m x.
Proof. by rw /vrows -fmap_take take_app_length. Qed.

(** Causality: a layer's rows over a prefix do not depend on what follows. *)
Lemma ref_layer_causal m x y : take (length x) (ref_layer m (x ++ y)) = ref_layer m x.
Proof.
  rw /ref_layer take_imap take_app_length. apply imap_ext. intros i xi Hi%lookup_lt_Some.
  rw /ref_row. rw -(krows_app m x y) -(vrows_app m x y) !fmap_take !take_take.
  by replace (S i `min` length x) with (S i) by lia.
Qed.

(** The key and value rows every layer holds after a sequence of hidden states. *)
Fixpoint kcaches (ls : list DecoderLayer) (x : list Vec) : list (list (list Vec)) :=
  match ls with [] => [] | m :: ls => krows m x :: kcaches ls (ref_layer m x) end.
Fixpoint vcaches (ls : list DecoderLayer) (x : list Vec) : list (list (list Vec)) :=
  match ls with [] => [] | m :: ls => vrows m x :: vcaches ls (ref_layer m x) end.

Lemma length_kcaches ls x : length (kcaches ls x) = length ls.
Proof. revert x. induction ls; intros; simpl; auto. Qed.
Lemma length_vcaches ls x : length (vcaches ls x) = length ls.
Proof. revert x. induction ls; intros; simpl; auto. Qed.

(** Causality of the whole stack: the rows of a prefix are the prefix of the rows. *)
Lemma ref_layer_take m x n : take n (ref_layer m x) = ref_layer m (take n x).
Proof.
  destruct (decide (n ≤ length x)) as [Hn|Hn].
  - rw -{1}(take_drop n x). rw -{1}(length_take_le x n Hn). apply ref_layer_causal.
  - rw !take_ge ?length_ref_layer //; lia.
Qed.

Lemma kcaches_take ls : ∀ x n, (take n <$> kcaches ls x) = kcaches ls (take n x).
Proof.
  induction ls as [|m ls IH]; intros x n; [done|]. cbn. rw IH ref_layer_take. f_equal. by rw /krows take_imap.
Qed.
Lemma vcaches_take ls : ∀ x n, (take n <$> vcaches ls x) = vcaches ls (take n x).
Proof.
  induction ls as [|m ls IH]; intros x n; [done|]. cbn. rw IH ref_layer_take. f_equal. by rw /vrows fmap_take.
Qed.

Lemma kcaches_row_length ls : ∀ x l K, kcaches ls x !! l = Some K → length K = length x.
Proof.
  induction ls as [|m ls IH]; intros x [|l] K HK; simplify_eq/=; [by rw length_imap|].
  rw (IH _ _ _ HK). apply length_ref_layer.
Qed.
Lemma vcaches_row_length ls : ∀ x l V, vcaches ls x !! l = Some V → length V = length x.
Proof.
  induction ls as [|m ls IH]; intros x [|l] V HV; simplify_eq/=; [by rw length_fmap|].
  rw (IH _ _ _ HV). apply length_ref_layer.
Qed.

Lemma imap_drop_app {A} (f : nat → Vec → A) x y :
  imap (λ i, f (length x + i)) y = drop (length x) (imap f (x ++ y)).
Proof. by rw drop_imap drop_app_length. Qed.

Lemma krows_split m x y :
  krows m x ++ zip_with (k_row (self_attn m)) (rms_forward (input_layernorm m) <$> y)
                  (rot <$> seq (length x) (length y)) = krows m (x ++ y).
Proof.
  rw -{1}(krows_app m x y) -{2}(take_drop (length x) (krows m (x ++ y))). f_equal.
  rw /krows -imap_drop_app.
  replace (length y) with (length (rms_forward (input_layernorm m) <$> y)) by by rw length_fmap.
  rw zip_with_seq imap_fmap. by apply imap_ext.
Qed.

Lemma vrows_split m x y :
  vrows m x ++ (v_row (self_attn m) <$> (rms_forward (input_layernorm m) <$> y)) = vrows m (x ++ y).
Proof. by rw /vrows fmap_app -list_fmap_compose. Qed.

(** A layer that sees the past's key and value rows computes the rows of the
    complete sequence. *)
Lemma layer_rows m x y :
  let a := self_attn m in
  let norm := rms_forward (input_layernorm m) in
  let K := repeat_kv (a_n_rep a) <$> krows m (x ++ y) in
  let V := repeat_kv (a_n_rep a) <$> vrows m (x ++ y) in
  let q := zip_with (q_row a) (norm <$> y) (rot <$> seq (length x) (length y)) in
  let (mask, c) := regime None (length y) (length K) in
  (λ r, vadd r (swiglu_forward (mlp m) (rms_forward (post_attention_layernorm m) r))) <$>
    zip_with vadd y ((λ o, o_proj a (mjoin o)) <$> sdpa q K V mask c)
  = drop (length x) (ref_layer m (x ++ y)).
Proof.
  intros a norm K V q.
  assert (q = imap (λ i yi, q_row a (norm yi) (rot (length x + i))) y) as Hq.
  { subst q. replace (length y) with (length (norm <$> y)) by by rw length_fmap.
    rw zip_with_seq imap_fmap. by apply imap_ext. }
  assert (length q = length y) as Hlq by by rw Hq length_imap.
  pose proof (regime_uniform q K V (length x)) as Hreg. rw Hlq in Hreg.
  destruct (regime None (length y) (length K)) as [mask c]. rw Hreg.
  - rw Hq. rw /ref_layer -imap_drop_app. clear Hreg Hlq Hq q.
    apply list_eq. intros i.
    rw list_lookup_fmap list_lookup_imap lookup_zip_with list_lookup_fmap !list_lookup_imap. destruct (y !! i) as [yi|]; [|done]. cbn.
    rw /ref_row /finish_row. by rw -Nat.add_succ_r.
  - subst K. rw !length_fmap /krows length_imap length_app. lia.
  - subst K V. by rw !length_fmap /krows length_imap.
Qed.

Section simulation.
Context {St : Type} `{HC : KVCache (list Vec) St}.

(** Without a cache. *)
Lemma layers_full ls : ∀ l (x : list Vec) (st : St),
  layers_forward sdpa ls l x (rot <$> seq 0 (length x)) false None st = (Ok (ref_layers ls x), st).
Proof.
  induction ls as [|m ls IH]; intros l x st; [done|].
  cbn [layers_forward]. rw /bind /decoder_forward /attention_forward /bind /ret.
  pose proof (layer_rows m [] x) as Hrow. cbn [app length] in Hrow. rw drop_0 in Hrow.
  assert (zip_with (k_row (self_attn m)) (rms_forward (input_layernorm m) <$> x) (rot <$> seq 0 (length x))
    = krows m x) as Hk by apply (krows_split m [] x).
  assert (v_row (self_attn m) <$> (rms_forward (input_layernorm m) <$> x) = vrows m x) as Hv
    by apply (vrows_split m [] x).
  rw Hk Hv !length_fmap. rw !length_fmap in Hrow.
  destruct (regime None (length x) (length (krows m x))) as [mask c]. rw Hrow.
  rw -{1}(length_ref_layer m x). apply IH.
Qed.

Context (L : nat) `{HL : !KVCacheLaws (list Vec) St L}.

(** One layer over a cache that holds the past's rows. *)
Lemma decoder_cached m l x y (Q : list Vec → St → Prop) st :
  wp (kv_update l (zip_with (k_row (self_attn m)) (rms_forward (input_layernorm m) <$> y)
                     (rot <$> seq (length x) (length y)))
        (v_row (self_attn m) <$> (rms_forward (input_layernorm m) <$> y)))
     (λ r st', r = (krows m (x ++ y), vrows m (x ++ y)) ∧
        Q (drop (length x) (ref_layer m (x ++ y))) st') never st →
  wp (decoder_forward sdpa m l y (rot <$> seq (length x) (length y)) true None) Q never st.
Proof.
  intros Hup. rw /decoder_forward /attention_forward. wp_step. wp_step.
  eapply wp_mono; [exact Hup| |done]. intros [k v] st' [[= -> ->] HQ].
  pose proof (layer_rows m x y) as Hrow. cbn zeta in Hrow. rw !length_fmap. rw !length_fmap in Hrow.
  destruct (regime None (length y) (length (krows m (x ++ y)))) as [mask c]. do 2 wp_step. by rw Hrow.
Qed.

Lemma caches_step m x y :
  ref_layer m x ++ drop (length x) (ref_layer m (x ++ y)) = ref_layer m (x ++ y).
Proof. by rw -{1}(ref_layer_causal m x y) take_drop. Qed.

Lemma length_drop_ref m x y : length (drop (length x) (ref_layer m (x ++ y))) = length y.
Proof. rw length_drop length_ref_layer length_app. lia. Qed.

Lemma kv_rows_length m y n :
  length (zip_with (k_row (self_attn m)) (rms_forward (input_layernorm m) <$> y)
            (rot <$> seq n (length y))) = length y ∧
  length (v_row (self_attn m) <$> (rms_forward (input_layernorm m) <$> y)) = length y.
Proof. rw length_zip_with !length_fmap length_seq. lia. Qed.

Lemma drop_insert_cons {A} (l : list A) d x y r : drop d l = x :: r → drop (S d) (<[d := y]> l) = r.
Proof.
  intros Hd. rw drop_insert_lt; [|lia]. rw -Nat.add_1_r -drop_drop Hd. done.
Qed.

Lemma take_insert_app {A} (l : list A) d x y r k :
  drop d l = x :: r → take (S d) (<[d := y]> l) ++ k = take d l ++ y :: k.
Proof.
  intros Hd. assert (d < length l) as Hlt.
  { apply (f_equal length) in Hd. rw length_drop /= in Hd. lia. }
  rw (take_S_r _ _ y); [|by apply list_lookup_insert_eq]. by rw take_insert_ge // -assoc.
Qed.

Lemma layers_cached ls : ∀ l x y st K V,
  kv_busy st (length y) (S l) K V → S l + length ls = L →
  drop (S l) K = kcaches ls x → drop (S l) V = vcaches ls x →
  wp (layers_forward sdpa ls (S l) y (rot <$> seq (length x) (length y)) true None)
     (λ r st', r = drop (length x) (ref_layers ls (x ++ y)) ∧
        kv_idle st' (take (S l) K ++ kcaches ls (x ++ y)) (take (S l) V ++ vcaches ls (x ++ y)))
     never st.
Proof.
  induction ls as [|m ls IH]; intros l x y st K V Hb Hl HK HV; cbn [layers_forward kcaches vcaches].
  - wp_step. split; [by rw drop_app_length|]. simpl in HK, HV.
    assert (S l = L) as Hll by (simpl in Hl; lia).
    destruct (kv_busy_shape _ _ _ _ _ Hb) as [HlK HlV].
    rw !app_nil_r !take_ge; [|lia|lia]. rw Hll in Hb. by eapply kv_finish.
  - wp_step. destruct (kv_rows_length m y (length x)) as [Hlk Hlv].
    simpl in HK, HV, Hl.
    pose proof (lookup_drop K (S l) 0) as HKl. rw HK Nat.add_0_r /= in HKl.
    pose proof (lookup_drop V (S l) 0) as HVl. rw HV Nat.add_0_r /= in HVl.
    apply decoder_cached.
    eapply wp_mono; [eapply kv_step; [by rw Hlk|congruence|done|done]| |done].
    intros r st' [-> Hb']. rw krows_split vrows_split Hlk in Hb'. rw krows_split vrows_split. split; [done|].
    replace (seq (length x) (length y))
      with (seq (length (ref_layer m x)) (length (drop (length x) (ref_layer m (x ++ y)))))
      by (by rw length_ref_layer length_drop_ref).
    eapply wp_mono; [eapply (IH (S l) (ref_layer m x))| |done].
    + by rw length_drop_ref.
    + lia.
    + by eapply drop_insert_cons.
    + by eapply drop_insert_cons.
    + intros r' st2 [-> Hid]. rw caches_step in Hid.
      rw (take_insert_app _ _ _ _ _ _ HK) (take_insert_app _ _ _ _ _ _ HV) in Hid.
      split; [|done]. by rw length_ref_layer caches_step.
Qed.

(** ** The rotary tables *)

Definition rot_ok (r : Rotary) : Prop := inv_freq r = inv ∧ r = build_tables (max_positions r) r.

Lemma rotary_init_ok n : rot_ok (rotary_init inv n).
Proof. done. Qed.

Lemma ensure_capacity_ok n r :
  rot_ok r → rot_ok (ensure_capacity n r) ∧ n ≤ max_positions (ensure_capacity n r).
Proof.
  intros [Hi Hr]. rw /ensure_capacity. destruct (Nat.ltb_spec (max_positions r) n); [|by split].
  split; [by rw /rot_ok /build_tables /= Hi|done].
Qed.

Lemma index_select_table {A} (f : nat → A) n a t :
  a + t ≤ n → index_select (f <$> seq 0 n) (seq a t) = Some (f <$> seq a t).
Proof.
  intros Hle. apply index_select_Some, Forall2_lookup_intro; [by rw length_fmap|].
  intros i j x [-> Hi]%lookup_seq Hx. rw list_lookup_fmap lookup_seq_lt // in Hx. simplify_eq/=.
  by rw list_lookup_fmap lookup_seq_lt /=; [|lia].
Qed.

(** Reading any table that is large enough gives the position's own rotation. *)
Lemma rotary_forward_ok r a t :
  rot_ok r → a + t ≤ max_positions r →
  ∃ cs, rotary_forward (seq a t) r = Ok cs ∧ cast_cs <$> cs = rot <$> seq a t.
Proof.
  intros [Hi Hr] Hle. rw /rotary_forward Hr /= Hi.
  rw -!list_fmap_compose !index_select_table //. eexists. split; [done|].
  clear. induction (seq a t) as [|j l IH]; [done|]. cbn. f_equal. exact IH.
Qed.

(** ** The simulation *)

(** The cache of [s] holds the key and value rows of the tokens [past]. *)
Definition represents (w : NanoForCausalLM) (s : Rotary * St) (past : list nat) : Prop :=
  rot_ok s.1 ∧ length (layers w) = L ∧ 0 < L ∧
  ∃ x, index_select (embed_tokens w) past = Some x ∧
       kv_idle s.2 (kcaches (layers w) x) (vcaches (layers w) x).

Lemma stack_cached ls x y st :
  ls ≠ [] → length ls = L → kv_idle st (kcaches ls x) (vcaches ls x) → kv_room st (length y) →
  wp (layers_forward sdpa ls 0 y (rot <$> seq (length x) (length y)) true None)
     (λ r st', r = drop (length x) (ref_layers ls (x ++ y)) ∧
        kv_idle st' (kcaches ls (x ++ y)) (vcaches ls (x ++ y))) never st.
Proof.
  intros Hne Hl Hid Hroom. destruct ls as [|m ls]; [done|]. cbn [layers_forward kcaches vcaches] in *.
  destruct (kv_rows_length m y (length x)) as [Hlk Hlv]. wp_step. apply decoder_cached.
  eapply wp_mono; [eapply kv_begin; [done|by rw Hlk|congruence|done|done]| |done].
  intros r st' [-> Hb']. rw krows_split vrows_split Hlk in Hb'. rw krows_split vrows_split. split; [done|].
  replace (seq (length x) (length y))
    with (seq (length (ref_layer m x)) (length (drop (length x) (ref_layer m (x ++ y)))))
    by (by rw length_ref_layer length_drop_ref).
  eapply wp_mono; [eapply (layers_cached ls 0 (ref_layer m x)); [by rw length_drop_ref|done|done|done]| |done].
  intros r' st2 [-> Hid2]. rw caches_step in Hid2. split; [|done]. by rw length_ref_layer caches_step.
Qed.

(** The logits of a complete sequence. *)
Definition ref_logits (w : NanoForCausalLM) (x : list Vec) : list Vec :=
  lm_head w <$> (rms_forward (final_norm w) <$> ref_layers (layers w) x).

Lemma lm_full_eq w ids x r (st : St) :
  rot_ok r → index_select (embed_tokens w) ids = Some x →
  lm_forward sdpa w ids None false None (r, st) = (Ok (ref_logits w x), (ensure_capacity (length ids) r, st)).
Proof.
  intros Hr Hx. destruct (ensure_capacity_ok (length ids) r Hr) as [Hr' Hcap].
  destruct (rotary_forward_ok _ 0 (length ids) Hr' Hcap) as (cs & Hcs & Hcast).
  rw /lm_forward /nano_forward /bind /= Hx /= Hcs Hcast /on_kv /zoom /=.
  rw -(index_select_length _ _ _ Hx). by rw layers_full.
Qed.

Lemma lm_full w ids x r (st : St) :
  rot_ok r → index_select (embed_tokens w) ids = Some x →
  (lm_forward sdpa w ids None false None (r, st)).1 = Ok (ref_logits w x).
Proof. intros. by rw (lm_full_eq w ids x). Qed.

Lemma lm_cached w s past ids x y :
  represents w s past → index_select (embed_tokens w) past = Some x →
  index_select (embed_tokens w) ids = Some y → kv_room s.2 (length ids) →
  wp (lm_forward sdpa w ids None true None)
     (λ logits s', logits = drop (length past) (ref_logits w (x ++ y)) ∧ represents w s' (past ++ ids))
     never s.
Proof.
  intros (Hr & HlL & Hpos & x' & Hx' & Hid) Hx Hy Hroom. rw Hx in Hx'. simplify_eq.
  destruct s as [r st]. cbn [fst snd] in *.
  assert (length x' = length past) as Hlx by by eapply index_select_length.
  assert (length y = length ids) as Hly by by eapply index_select_length.
  assert (kv_len st = length past) as Hlen.
  { destruct (layers w) as [|m ls]; [simpl in HlL; lia|].
    rw (kv_idle_len _ _ _ (krows m x') Hid eq_refl) /krows length_imap. done. }
  destruct (ensure_capacity_ok (length past + length ids) r Hr) as [Hr' Hcap].
  destruct (rotary_forward_ok _ _ _ Hr' Hcap) as (cs & Hcs & Hcast).
  rw /lm_forward /nano_forward. wp_step. do 2 wp_step. wp_step. rw Hlen. do 3 wp_step. wp_step.
  rw {1}/wp /lift Hy. do 3 wp_step. rw {1}/wp Hcs Hcast /on_kv. wp_step. wp_step.
  rw -Hlx -Hly.
  eapply wp_mono; [eapply stack_cached; [|done|done|by rw Hly]| |done].
  { intros Hn. rw Hn /= in HlL. lia. }
  intros h st' [-> Hid']. do 2 wp_step. rw /ref_logits !fmap_drop. split; [done|].
  split_and!; [by rw /= Hlx Hly|done|done|]. exists (x' ++ y). split; [by apply index_select_app|done].
Qed.
(** The same with positions supplied by the caller, who has grown the tables. *)
Lemma lm_cached_at w s past ids x y :
  represents w s past → index_select (embed_tokens w) past = Some x →
  index_select (embed_tokens w) ids = Some y → kv_room s.2 (length ids) →
  length past + length ids ≤ max_positions s.1 →
  wp (lm_forward sdpa w ids (Some (seq (length past) (length ids))) true None)
     (λ logits s', logits = drop (length past) (ref_logits w (x ++ y)) ∧ s'.1 = s.1 ∧
        represents w s' (past ++ ids)) never s.
Proof.
  intros (Hr & HlL & Hpos & x' & Hx' & Hid) Hx Hy Hroom Hcap. rw Hx in Hx'. simplify_eq.
  destruct s as [r st]. cbn [fst snd] in *.
  assert (length x' = length past) as Hlx by by eapply index_select_length.
  assert (length y = length ids) as Hly by by eapply index_select_length.
  destruct (rotary_forward_ok _ _ _ Hr Hcap) as (cs & Hcs & Hcast).
  rw /lm_forward /nano_forward. do 5 wp_step. wp_step.
  rw {1}/wp /lift Hy. do 3 wp_step. rw {1}/wp Hcs Hcast /on_kv. wp_step. wp_step.
  rw -Hlx -Hly.
  eapply wp_mono; [eapply stack_cached; [|done|done|by rw Hly]| |done].
  { intros Hn. rw Hn /= in HlL. lia. }
  intros h st' [-> Hid']. do 2 wp_step. rw /ref_logits !fmap_drop. split_and!; [done|done|].
  split_and!; [done|done|done|]. exists (x' ++ y). split; [by apply index_select_app|done].
Qed.
End simulation.
End reference.
End equivalence.

(** ** Properties *)

(** C6: cached inference computes what uncached inference computes.  For any cache
    that keeps the protocol's promise (the paged, the static and the growing one do)
    and any kernel that is causal the way torch documents it: if the cache holds the
    rows of the tokens [past] and has room, then feeding it [ids] in one pass, be
    that a prefill, a chunk of one or a single decode step, returns exactly the last
    rows of the logits a full forward over [past ++ ids] without a cache returns,
    never raises, and leaves the cache holding the rows of [past ++ ids]. *)
Theorem cached_forward_equals_full {R} `{Torch R} sdpa attend
    (sdpa_rows : ∀ (q k v : list (list (list R))) mask c,
       sdpa q k v mask c
       = imap (λ i qi, attend qi (keep (allowed mask c i) k) (keep (allowed mask c i) v)) q)
    inv {St} `{KVCache (list (list R)) St} L `{!KVCacheLaws (list (list R)) St L}
    w (s : Rotary * St) past ids :
  represents attend inv L w s past → kv_room s.2 (length ids) →
  Forall (λ i, i < length (embed_tokens w)) ids →
  ∃ full, (lm_forward sdpa w (past ++ ids) None false None s).1 = Ok full ∧
    wp (lm_forward sdpa w ids None true None)
       (λ logits s', logits = drop (length past) full ∧ represents attend inv L w s' (past ++ ids))
       never s.
Proof.
  intros Hrep Hroom Hids. pose proof Hrep as (Hr & _ & _ & x & Hx & _).
  destruct (index_select_total (embed_tokens w) ids) as [y Hy].
  { intros i Hi. by eapply Forall_forall in Hids. }
  exists (ref_logits attend inv w (x ++ y)). split; [|by eapply lm_cached].
  destruct s as [r st]. eapply lm_full; [done|exact Hr|by apply index_select_app].
Qed.

(** Integer arithmetic in place of torch's, a two-head layer, a summing kernel. *)
Module Toy.
#[global] Instance toy_torch : Torch Z := {|
  t_add := Z.add; t_mul := Z.mul; t_neg := Z.opp; t_cos := λ x, (x + 1)%Z; t_sin := λ x, x;
  t_rsqrt := λ _, 1%Z; t_silu := λ x, x; t_float := λ x, x; t_to_dtype := λ x, x;
  t_mean := λ _, 0%Z; t_arange := Z.of_nat;
|}.
Definition attend (q : list (list Z)) (k v : list (list (list Z))) : list (list Z) :=
  imap (λ h qh, foldr (zip_with Z.add) [0; 0]%Z
    (zip_with (λ kj vj, (λ a, (a * foldr Z.add 0 (zip_with Z.mul qh (nth h kj [])))%Z) <$> nth h vj []) k v)) q.
Definition sdpa (q k v : list (list (list Z))) (mask : option (list (list bool))) (c : bool) :=
  imap (λ i qi, attend qi (keep (allowed mask c i) k) (keep (allowed mask c i) v)) q.
Definition layer : DecoderLayer :=
  mkDecoderLayer (mkAttention 2 1 2 2 (λ x, x) (take 2) (drop 2) (λ x, x))
    (mkSwiGLU (λ x, x) (λ x, x) (λ x, x)) (mkRMSNorm 1 [1; 1; 1; 1])%Z (mkRMSNorm 1 [1; 1; 1; 1])%Z.
Definition weights : NanoForCausalLM :=
  mkNano [[1; 2; 3; 4]; [2; 0; 1; 5]; [1; 1; 0; 2]]%Z [layer; layer] (mkRMSNorm 1 [1; 1; 1; 1])%Z (λ x, x).
End Toy.

Lemma cached_forward_equals_full_witness :
  let s := (rotary_init [1%Z] 1, DynamicCache.init : DynamicCache.t (list (list Z))) in
  let s1 := (lm_forward Toy.sdpa Toy.weights [0; 2] None true None s).2 in
  (∃ logits, (lm_forward Toy.sdpa Toy.weights [0; 2; 1] None false None s).1 = Ok logits ∧
     (lm_forward Toy.sdpa Toy.weights [1] None true None s1).1 = Ok (drop 2 logits)) ∧
  ∃ full, (lm_forward Toy.sdpa Toy.weights [0; 2] None false None s).1 = Ok full ∧
    wp (lm_forward Toy.sdpa Toy.weights [0; 2] None true None) (λ logits _, logits = full) never s.
Proof.
  intros s s1. split.
  - eexists. split; vm_compute; reflexivity.
  - destruct (cached_forward_equals_full Toy.sdpa Toy.attend (λ _ _ _ _ _, eq_refl) [1%Z] 2
      Toy.weights s [] [0; 2]) as (full & Hfull & Hwp).
    + split; [done|]. split; [done|]. split; [lia|]. exists []. split; [done|]. apply (dyn_init 2).
    + exact I.
    + repeat constructor; simpl; lia.
    + exists full. split; [exact Hfull|]. eapply wp_mono; [exact Hwp| |done].
      intros logits s' [Hl _]. exact Hl.
Defined.
