(* ===== verification/PrefixCache.v ===== *)
(** * Content-addressed prefix cache (engine/prefix_cache.py)

    [_entries] is an insertion-ordered dictionary from chained hash to entry;
    methods run on the pool together with the cache's own state.  Python's [hash]
    of a [(parent, tokens)] pair is a parameter. *)

From Stdlib Require Import ssreflect QArith Qcanon.
From stdpp Require Import prelude gmap gmultiset strings sorting list.
From S2P Require Import Prelude BlockManager.

Definition ROOT_HASH : Z := 0x9E3779B97F4A7C15.

Record CacheEntry := mkEntry {
  block_id : nat;
  parent_hash : Z;
  last_used : nat;
  depth : nat;
}.

Record PrefixCacheStats := mkPCStats {
  queries : nat;
  hit_blocks : nat;
  query_blocks : nat;
  evictions : nat;
  entries_count : nat;
}.

Definition block_hit_rate (s : PrefixCacheStats) : Qc :=
  if query_blocks s =? 0 then 0%Qc
  else (Q2Qc (inject_Z (Z.of_nat (hit_blocks s))) / Q2Qc (inject_Z (Z.of_nat (query_blocks s))))%Qc.
Definition tokens_saved (s : PrefixCacheStats) : nat := hit_blocks s.
(** ["prefill_tokens_saved"] of [to_dict]. *)
Definition prefill_tokens_saved (s : PrefixCacheStats) (block_size : nat) : nat := hit_blocks s * block_size.

Record PCache := mkPCache {
  enabled : bool;
  _entries : list (Z * CacheEntry);
  _by_block : gmap nat Z;
  _clock : nat;
  pc_stats : PrefixCacheStats;
}.

Definition set_entries (es : list (Z * CacheEntry)) (c : PCache) : PCache :=
  mkPCache (enabled c) es (_by_block c) (_clock c) (pc_stats c).
Definition set_by_block (m : gmap nat Z) (c : PCache) : PCache :=
  mkPCache (enabled c) (_entries c) m (_clock c) (pc_stats c).
Definition set_clock (n : nat) (c : PCache) : PCache :=
  mkPCache (enabled c) (_entries c) (_by_block c) n (pc_stats c).
Definition set_pc_stats (s : PrefixCacheStats) (c : PCache) : PCache :=
  mkPCache (enabled c) (_entries c) (_by_block c) (_clock c) s.

Definition touch (n : nat) (e : CacheEntry) : CacheEntry :=
  mkEntry (block_id e) (parent_hash e) n (depth e).

(** [range(0, stop, step)]. *)
Definition range_step (stop step : nat) : list nat := (λ i, i * step) <$> seq 0 (ceil_div stop step).

(** Order of the tuples [(last_used, -depth, h)]. *)
Definition evict_key : Type := nat * Z * Z.
Definition evict_le (a b : evict_key) : Prop :=
  let '(l1, d1, h1) := a in
  let '(l2, d2, h2) := b in
  (l1 < l2) ∨ (l1 = l2 ∧ ((d1 < d2)%Z ∨ (d1 = d2 ∧ (h1 ≤ h2)%Z))).
#[export] Instance evict_le_dec : RelDecision evict_le.
Proof. intros [[l1 d1] h1] [[l2 d2] h2]. rw /evict_le. apply _. Defined.

Module PrefixCache.
Section prefix.
Context {T : Type} (hash : Z → list Z → Z).

(** The pool the cache was built over, and the cache object. *)
Definition PS : Type := Pool T * PCache.
Definition alloc_of {A} (m : M BlockAllocator.t A) : M PS A :=
  zoom (λ s, allocator s.1) (λ a s, (set_allocator a s.1, s.2)) m.
Definition on_self {A} (m : M PCache A) : M PS A := zoom snd (λ c s, (s.1, c)) m.

Definition init (enabled : bool) : PCache := mkPCache enabled [] ∅ 0 (mkPCStats 0 0 0 0 0).

Definition block_hash (parent : Z) (tokens : list Z) : Z := hash parent tokens.

(** The loop body of [hash_chain], over the block starts. *)
Fixpoint chain_from (bs : nat) (token_ids : list Z) (parent : Z) (starts : list nat) : list Z :=
  match starts with
  | [] => []
  | start :: starts =>
      let h := block_hash parent (take bs (drop start token_ids)) in
      h :: chain_from bs token_ids h starts
  end.

Definition hash_chain (bs : nat) (token_ids : list Z) : list Z :=
  chain_from bs token_ids ROOT_HASH
    (range_step (Z.to_nat (Z.of_nat (length token_ids) - Z.of_nat bs + 1)) bs).

(** [self._clock += 1; entry.last_used = self._clock]. *)
Definition refresh (h : Z) (entry : CacheEntry) : M PS unit :=
  do* on_self (modify (λ c, set_clock (S (_clock c)) c)) in
  on_self (modify (λ c, set_entries (dset h (touch (_clock c) entry) (_entries c)) c)).

Fixpoint match_loop (hashes : list Z) (matched : list nat) : M PS (list nat) :=
  match hashes with
  | [] => ret matched
  | h :: hashes =>
      let* (_, c) := get in
      match dget h (_entries c) with
      | None => ret matched
      | Some entry =>
          do* refresh h entry in
          do* alloc_of (BlockAllocator.incref (block_id entry)) in
          match_loop hashes (matched ++ [block_id entry])
      end
  end.

Definition match_ (token_ids : list Z) : M PS (list nat) :=
  let* (p, c) := get in
  if negb (enabled c) then ret []
  else
    let hashes := hash_chain (block_size p) token_ids in
    do* on_self (modify (λ c, set_pc_stats
          (let s := pc_stats c in
           mkPCStats (S (queries s)) (hit_blocks s) (query_blocks s + length hashes) (evictions s) (entries_count s)) c)) in
    let* matched := match_loop hashes [] in
    do* on_self (modify (λ c, set_pc_stats
          (let s := pc_stats c in
           mkPCStats (queries s) (hit_blocks s + length matched) (query_blocks s) (evictions s) (entries_count s)) c)) in
    ret matched.

(** [self.stats.entries = len(self._entries)]. *)
Definition count_entries : M PS unit :=
  on_self (modify (λ c, set_pc_stats
    (let s := pc_stats c in
     mkPCStats (queries s) (hit_blocks s) (query_blocks s) (evictions s) (length (_entries c))) c)).

(** [for depth, h in enumerate(hashes)], with [prev] the hash one level up. *)
Fixpoint insert_loop (block_table : list nat) (d : nat) (prev : Z) (hashes : list Z) : M PS unit :=
  match hashes with
  | [] => ret tt
  | h :: hashes =>
      match block_table !! d with
      | None => ret tt
      | Some block =>
          let* (_, c) := get in
          do* match dget h (_entries c) with
              | Some existing => refresh h existing
              | None =>
                  match _by_block c !! block with
                  | Some _ => ret tt
                  | None =>
                      do* alloc_of (BlockAllocator.incref block) in
                      do* on_self (modify (λ c, set_clock (S (_clock c)) c)) in
                      do* on_self (modify (λ c,
                            set_entries (dset h (mkEntry block prev (_clock c) d) (_entries c)) c)) in
                      on_self (modify (λ c, set_by_block (<[block := h]> (_by_block c)) c))
                  end
              end in
          insert_loop block_table (S d) h hashes
      end
  end.

Definition insert (token_ids : list Z) (block_table : list nat) : M PS unit :=
  let* (p, c) := get in
  if negb (enabled c) then ret tt
  else
    let hashes := hash_chain (block_size p) token_ids in
    do* insert_loop block_table 0 ROOT_HASH hashes in
    count_entries.

(** The comprehension of [evict]: one [ref_count] per entry. *)
Fixpoint evictable_of (es : list (Z * CacheEntry)) : M PS (list evict_key) :=
  match es with
  | [] => ret []
  | (h, e) :: es =>
      let* r := alloc_of (BlockAllocator.ref_count (block_id e)) in
      let* rest := evictable_of es in
      ret (if r =? 1 then (last_used e, (- Z.of_nat (depth e))%Z, h) :: rest else rest)
  end.

(** [entry = self._entries.pop(h)] and what follows. *)
Definition evict_one (h : Z) : M PS unit :=
  let* (_, c) := get in
  match dget h (_entries c) with
  | None => raise KeyError
  | Some entry =>
      do* on_self (modify (λ c, set_entries (ddel h (_entries c)) c)) in
      do* on_self (modify (λ c, set_by_block (delete (block_id entry) (_by_block c)) c)) in
      do* alloc_of (BlockAllocator.decref (block_id entry)) in
      ret tt
  end.

Definition evict (num_blocks : nat) : M PS nat :=
  let* (_, c) := get in
  let* evictable := evictable_of (_entries c) in
  match evictable with
  | [] => ret 0
  | _ :: _ =>
      let chosen := take num_blocks (py_sort evict_le evictable) in
      do* for_each chosen (λ '(_, _, h), evict_one h) in
      let freed := length chosen in
      do* on_self (modify (λ c, set_pc_stats
            (let s := pc_stats c in
             mkPCStats (queries s) (hit_blocks s) (query_blocks s) (evictions s + freed) (entries_count s)) c)) in
      do* count_entries in
      ret freed
  end.

(** The [while] of [ensure_free]; every round but the last removes an entry, so
    one round per entry and one more are enough. *)
Fixpoint ensure_free_loop (fuel : nat) (num_blocks : nat) : M PS bool :=
  let* (p, _) := get in
  if BlockAllocator.num_free (allocator p) <? num_blocks then
    match fuel with
    | O => raise RuntimeError
    | S fuel =>
        let* n := evict (num_blocks - BlockAllocator.num_free (allocator p)) in
        if n =? 0 then ret false else ensure_free_loop fuel num_blocks
    end
  else ret true.

Definition ensure_free (num_blocks : nat) : M PS bool :=
  let* (_, c) := get in
  ensure_free_loop (S (length (_entries c))) num_blocks.

Definition clear : M PS unit :=
  let* (_, c) := get in
  do* for_each (_entries c) (λ '(h, entry),
        do* alloc_of (BlockAllocator.decref (block_id entry)) in
        on_self (modify (λ c, set_entries (ddel h (_entries c)) c))) in
  do* on_self (modify (set_by_block ∅)) in
  on_self (modify (λ c, set_pc_stats
    (let s := pc_stats c in
     mkPCStats (queries s) (hit_blocks s) (query_blocks s) (evictions s) 0) c)).

(** [attach] runs on a sequence's cache, whose pool is this one. *)
Definition attach (blocks : list nat) : M (PC T) nat :=
  match blocks with
  | [] => ret 0
  | _ :: _ =>
      do* for_each blocks PagedKVCache._append_block in
      let* (p, _) := get in
      do* on_cache (modify (set_num_tokens (length blocks * block_size p))) in
      gets (λ s, num_tokens s.2)
  end.

End prefix.
End PrefixCache.

(** * Reference accounting *)

Section prefix_refs.
Context {T : Type}.
Implicit Types (s : @PrefixCache.PS T) (c : PCache) (W : gmultiset nat).
Import PrefixCache.

(** The references the cache itself holds. *)
Definition held c : gmultiset nat := list_to_set_disj ((λ he, block_id he.2) <$> _entries c).

(** The block registered under a hash. *)
Definition bid c (h : Z) : option nat := block_id <$> dget h (_entries c).

Record pc_wf c : Prop := {
  pw_keys : NoDup (_entries c).*1;
  pw_by_block b h : _by_block c !! b = Some h ↔ bid c h = Some b;
}.

(** The cache and the allocator agree, [W] being everybody else's references. *)
Record pc_ok s W : Prop := {
  po_wf : pc_wf s.2;
  po_acc : accounted (allocator s.1) (held s.2 ⊎ W);
}.

Lemma bid_held c h b : bid c h = Some b → b ∈ held c.
Proof.
  rw /bid /held. destruct (dget h (_entries c)) as [e|] eqn:He; [|done]. intros [= <-].
  apply elem_of_list_to_set_disj, list_elem_of_fmap. exists (h, e). split; [done|by apply dget_Some_elem].
Qed.

Lemma held_bid c b : pc_wf c → b ∈ held c → ∃ h, bid c h = Some b.
Proof.
  intros Hwf. rw /held elem_of_list_to_set_disj list_elem_of_fmap. intros ([h e] & -> & Hin).
  exists h. rw /bid (elem_dget h e) //. apply Hwf.
Qed.

Lemma bid_inj c h h' b : pc_wf c → bid c h = Some b → bid c h' = Some b → h = h'.
Proof. intros Hwf Hh Hh'. apply (pw_by_block _ Hwf) in Hh, Hh'. congruence. Qed.

(** Replacing an entry by one for the same block. *)
Lemma dset_same_block c h e e' :
  dget h (_entries c) = Some e → block_id e' = block_id e →
  (dset h e' (_entries c)).*1 = (_entries c).*1 ∧
  (λ he, block_id he.2) <$> dset h e' (_entries c) = (λ he, block_id he.2) <$> _entries c ∧
  ∀ h', block_id <$> dget h' (dset h e' (_entries c)) = block_id <$> dget h' (_entries c).
Proof.
  intros Hh Hb. split_and!.
  - apply dset_keys_in. apply dget_Some_elem in Hh. by apply (list_elem_of_fmap_2 fst) in Hh.
  - destruct (dset_split h e' e _ Hh) as (d1 & d2 & -> & ->). by rw !fmap_app /= Hb.
  - intros h'. destruct (decide (h' = h)) as [->|Hne]; [by rw dget_dset_eq Hh /= Hb|by rw dget_dset_ne].
Qed.

(** Two cache states registering the same blocks under the same hashes. *)
Definition same_entries c c' : Prop :=
  enabled c' = enabled c ∧ (_entries c').*1 = (_entries c).*1 ∧ held c' = held c ∧
  (∀ h, bid c' h = bid c h) ∧ _by_block c' = _by_block c.

Lemma same_entries_wf c c' : same_entries c c' → pc_wf c → pc_wf c'.
Proof. intros (_ & Hk & _ & Hb & Hm) []. split; rw ?Hk // => b h. rw Hm Hb //. Qed.

Lemma same_entries_trans c1 c2 c3 : same_entries c1 c2 → same_entries c2 c3 → same_entries c1 c3.
Proof. intros (?&?&?&?&?) (?&?&?&?&?). split_and!; congruence. Qed.

Lemma refresh_spec h e s Q E :
  dget h (_entries s.2) = Some e →
  (∀ c', same_entries s.2 c' → length (_entries c') = length (_entries s.2) → Q tt (s.1, c')) →
  wp (refresh h e) Q E s.
Proof.
  intros Hh HQ. rw /refresh /on_self. do 4 wp_step. cbn. apply HQ.
  - destruct (dset_same_block s.2 h e (touch (S (_clock s.2)) e) Hh eq_refl) as (H1 & H2 & H3).
    split_and!; try done. by rw /held /= H2.
  - destruct (dset_split h (touch (S (_clock s.2)) e) e _ Hh) as (d1 & d2 & H1 & H2).
    rw /= H2 H1 !length_app. done.
Qed.

(** Allocator calls seen from the prefix cache. *)
Lemma alloc_of_spec {A} (m : M BlockAllocator.t A) s Q :
  wp m (λ r a, Q r (set_allocator a s.1, s.2)) never (allocator s.1) → wp (alloc_of m) Q never s.
Proof. intros H. rw /alloc_of. by wp_step. Qed.

(** The storage is never touched. *)
Definition kept s s' : Prop := same_storage s.1 s'.1.

Lemma set_allocator_kept a s c :
  BlockAllocator.num_blocks a = BlockAllocator.num_blocks (allocator s.1) → kept s (set_allocator a s.1, c).
Proof. intros Hn. by split_and!. Qed.

Lemma kept_trans s1 s2 s3 : kept s1 s2 → kept s2 s3 → kept s1 s3.
Proof. apply same_storage_trans. Qed.

(** ** Lookup *)

(** The longest chain of registered hashes, as blocks. *)
Fixpoint longest (c : PCache) (hashes : list Z) : list nat :=
  match hashes with
  | [] => []
  | h :: hashes => match bid c h with Some b => b :: longest c hashes | None => [] end
  end.

Lemma longest_same c c' hs : same_entries c c' → longest c' hs = longest c hs.
Proof. intros Hs. induction hs as [|h hs IH]; [done|]; simpl. by rw (proj1 (proj2 (proj2 (proj2 Hs)))) IH. Qed.

Lemma match_loop_spec hs : ∀ acc s W,
  pc_ok s W →
  wp (match_loop hs acc)
     (λ r s', r = acc ++ longest s.2 hs ∧ pc_ok s' (list_to_set_disj (longest s.2 hs) ⊎ W) ∧
        same_entries s.2 s'.2 ∧ kept s s' ∧
        BlockAllocator._free (allocator s'.1) = BlockAllocator._free (allocator s.1)) never s.
Proof.
  induction hs as [|h hs IH]; intros acc s W [Hwf HA]; cbn [match_loop longest].
  { wp_step. rw app_nil_r gmultiset_disj_union_left_id. by split_and!. }
  wp_step. wp_step. destruct s as [p c]. simpl in *. rw /bid.
  destruct (dget h (_entries c)) as [e|] eqn:Hh; simpl; last first.
  { wp_step. rw app_nil_r gmultiset_disj_union_left_id. by split_and!. }
  wp_step. eapply refresh_spec; [done|]. intros c' Hs _. wp_step. apply alloc_of_spec. simpl.
  eapply wp_mono; [eapply incref_spec; [done|]|..|done].
  { apply gmultiset_elem_of_disj_union. left. apply (bid_held c h). by rw /bid Hh. }
  intros _ a (HA' & Hn & Hf).
  eapply wp_mono; [apply (IH _ (set_allocator a p, c') ({[+ block_id e +]} ⊎ W))| |done].
  - split; simpl; [by eapply same_entries_wf|]. destruct Hs as (_ & _ & -> & _).
    by replace (held c ⊎ ({[+ block_id e +]} ⊎ W)) with ({[+ block_id e +]} ⊎ (held c ⊎ W)) by multiset_solver.
  - intros r s' (-> & Hok & Hs' & Hk & Hf'). simpl in *. rw (longest_same c c') // in Hok |- *.
    split_and!.
    + by rw -assoc.
    + by replace ({[+ block_id e +]} ⊎ list_to_set_disj (longest c hs) ⊎ W)
        with (list_to_set_disj (longest c hs) ⊎ ({[+ block_id e +]} ⊎ W)) by multiset_solver.
    + by eapply same_entries_trans.
    + eapply kept_trans; [|done]. by apply set_allocator_kept.
    + congruence.
Qed.

Lemma pc_ok_stats p c st W : pc_ok (p, c) W → pc_ok (p, set_pc_stats st c) W.
Proof. intros [[] ?]. split; [by split|done]. Qed.

Lemma match_spec hash ids s W :
  pc_ok s W →
  let found := if enabled s.2 then longest s.2 (hash_chain hash (block_size s.1) ids) else [] in
  wp (match_ hash ids)
     (λ r s', r = found ∧ pc_ok s' (list_to_set_disj found ⊎ W) ∧ same_entries s.2 s'.2 ∧ kept s s' ∧
        BlockAllocator._free (allocator s'.1) = BlockAllocator._free (allocator s.1)) never s.
Proof.
  intros Hok found. rw /match_. do 2 wp_step. destruct s as [p c]. simpl in *. subst found.
  destruct (enabled c) eqn:He; simpl.
  - rw {1}/on_self. do 4 wp_step. simpl.
    eapply wp_mono; [apply (match_loop_spec _ [] _ W)| |done]; [by apply pc_ok_stats|].
    intros r s' (-> & Hok' & Hs & Hk & Hf). rw /on_self. do 4 wp_step. simpl in *.
    rw (longest_same c) // in Hok' |- *.
    split_and!; try done. destruct s' as [p' c']. by apply pc_ok_stats.
  - wp_step. rw gmultiset_disj_union_left_id. by split_and!.
Qed.

(** ** Insertion *)

(** The cache after registering block [b] under the absent hash [h]. *)
Lemma register_wf c h e n :
  pc_wf c → dget h (_entries c) = None → _by_block c !! block_id e = None →
  let c' := set_by_block (<[block_id e := h]> (_by_block c))
              (set_entries (dset h e (_entries c)) (set_clock n c)) in
  pc_wf c' ∧ held c' = {[+ block_id e +]} ⊎ held c ∧
  ∀ h', bid c' h' = if decide (h' = h) then Some (block_id e) else bid c h'.
Proof.
  intros [Hk Hb] Hh Hblk c'. pose proof (proj1 (dget_None h _) Hh) as Hnot.
  assert (∀ h', bid c' h' = if decide (h' = h) then Some (block_id e) else bid c h') as Hbid.
  { intros h'. rw /bid /=. case_decide; [subst; by rw dget_dset_eq|by rw dget_dset_ne]. }
  split_and!; [split|..|done].
  - simpl. rw dset_notin // fmap_app /=. apply NoDup_app. split_and!; [done| |apply NoDup_singleton].
    intros x Hx ->%list_elem_of_singleton. done.
  - intros b h'. rw Hbid /=. destruct (decide (b = block_id e)) as [->|Hne].
    + rw lookup_insert_eq. case_decide; [naive_solver|]. rw -Hb Hblk. naive_solver.
    + rw lookup_insert_ne // Hb. case_decide; [subst|done]. rw /bid Hh /=. naive_solver.
  - rw /held /= dset_notin // fmap_app /= list_to_set_disj_snoc //.
Qed.

Lemma insert_loop_spec table hs : ∀ d prev s W,
  pc_ok s W → (∀ b, b ∈ table → b ∈ W) →
  wp (insert_loop table d prev hs)
     (λ _ s', pc_ok s' W ∧ kept s s' ∧ enabled s'.2 = enabled s.2 ∧
        BlockAllocator._free (allocator s'.1) = BlockAllocator._free (allocator s.1) ∧
        (∀ h b, bid s.2 h = Some b → bid s'.2 h = Some b) ∧
        (∀ h b, bid s'.2 h = Some b → bid s.2 h = Some b ∨
           ∃ i, hs !! i = Some h ∧ table !! (d + i) = Some b)) never s.
Proof.
  induction hs as [|h hs IH]; intros d prev s W [Hwf HA] HW; cbn [insert_loop].
  { wp_step. split_and!; try done. naive_solver. }
  destruct (table !! d) as [block|] eqn:Hd; [|wp_step; split_and!; try done; naive_solver].
  wp_step. wp_step. destruct s as [p c]. simpl in *.
  (* one iteration *)
  apply (wp_bind _ _ _ _ _). eapply (wp_mono _ (λ _ s1, pc_ok s1 W ∧ kept (p, c) s1 ∧
      enabled s1.2 = enabled c ∧
      BlockAllocator._free (allocator s1.1) = BlockAllocator._free (allocator p) ∧
      (∀ h b, bid c h = Some b → bid s1.2 h = Some b) ∧
      (∀ h' b, bid s1.2 h' = Some b → bid c h' = Some b ∨ (h' = h ∧ b = block))) _ never _); [| |done].
  - destruct (dget h (_entries c)) as [e|] eqn:Hh.
    { eapply refresh_spec; [done|]. intros c' Hs _. pose proof Hs as (He & _ & Hheld & Hbid & _).
      split_and!; simpl; try done.
      - split; simpl; [by eapply same_entries_wf|by rw Hheld].
      - intros. by rw Hbid.
      - intros. rw -Hbid. by left. }
    destruct (_by_block c !! block) as [h'|] eqn:Hblk.
    { wp_step. split_and!; simpl; try done. naive_solver. }
    wp_step. apply alloc_of_spec. simpl. eapply wp_mono; [eapply incref_spec; [done|]| |done].
    { apply gmultiset_elem_of_disj_union. right. apply HW. by eapply list_elem_of_lookup_2. }
    intros _ a (HA' & Hn & Hf). rw /on_self. do 6 wp_step. cbn.
    set (e := mkEntry block prev (S (_clock c)) d).
    destruct (register_wf c h e (S (_clock c)) Hwf Hh Hblk) as (Hwf' & Hheld & Hbid).
    set (c' := set_by_block _ _) in Hwf', Hheld, Hbid.
    assert (pc_ok (set_allocator a p, c') W) as Hok' by (split; [done|]; by rw /= Hheld -assoc).
    split_and!; simpl; try done.
    + intros h1 b Hb. etransitivity; [exact (Hbid h1)|]. case_decide; [subst; by rw /bid Hh in Hb|done].
    + intros h1 b Hb. pose proof (eq_trans (eq_sym (Hbid h1)) Hb) as Hb'. simpl in Hb'.
      case_decide; naive_solver.
  - intros _ s1 (Hok1 & Hk1 & He1 & Hf1 & Hmono1 & Hnew1).
    eapply wp_mono; [by apply (IH (S d) h s1 W)| |done].
    intros _ s2 (Hok2 & Hk2 & He2 & Hf2 & Hmono2 & Hnew2). split_and!; try done.
    + by eapply kept_trans.
    + congruence.
    + congruence.
    + intros. by apply Hmono2, Hmono1.
    + intros h1 b [Hb|(i & Hi & Ht)]%Hnew2.
      * apply Hnew1 in Hb as [Hb|[-> ->]]; [by left|]. right. exists 0. by rw Nat.add_0_r.
      * right. exists (S i). by rw Nat.add_succ_r.
Qed.

Lemma insert_spec hash ids table s W :
  pc_ok s W → (∀ b, b ∈ table → b ∈ W) →
  wp (insert hash ids table)
     (λ _ s', pc_ok s' W ∧ kept s s' ∧ enabled s'.2 = enabled s.2 ∧
        BlockAllocator._free (allocator s'.1) = BlockAllocator._free (allocator s.1) ∧
        (∀ h b, bid s.2 h = Some b → bid s'.2 h = Some b) ∧
        (∀ h b, bid s'.2 h = Some b → bid s.2 h = Some b ∨
           ∃ i, hash_chain hash (block_size s.1) ids !! i = Some h ∧ table !! i = Some b)) never s.
Proof.
  intros Hok HW. rw /insert. do 2 wp_step. destruct s as [p c]. simpl.
  destruct (enabled c) eqn:He; simpl; [|wp_step; split_and!; try done; naive_solver].
  wp_step. eapply wp_mono; [by apply insert_loop_spec| |done].
  intros _ s1 (Hok1 & Hk1 & He1 & Hf1 & Hmono1 & Hnew1). rw /count_entries /on_self. do 2 wp_step.
  destruct s1 as [p1 c1]. simpl in *. split_and!; try done; [by apply pc_ok_stats|congruence].
Qed.

(** ** Eviction *)

Definition key_of (he : Z * CacheEntry) : evict_key :=
  (last_used he.2, (- Z.of_nat (depth he.2))%Z, he.1).

(** The entries nobody but the cache refers to. *)
Definition evictable c W : list (Z * CacheEntry) := filter (λ he, block_id he.2 ∉ W) (_entries c).

Lemma entry_multiplicity c h e :
  pc_wf c → (h, e) ∈ _entries c → multiplicity (block_id e) (held c) = 1.
Proof.
  intros Hwf Hin. pose proof (elem_dget h e _ (pw_keys _ Hwf) Hin) as Hh.
  apply list_elem_of_split in Hin as (d1 & d2 & Heq). rw /held Heq fmap_app /=.
  rw list_to_set_disj_app list_to_set_disj_cons !multiplicity_disj_union multiplicity_singleton_eq.
  assert (∀ d, (∀ he, he ∈ d → he ∈ _entries c ∧ he.1 ≠ h) →
    multiplicity (block_id e) (list_to_set_disj ((λ he, block_id he.2) <$> d) : gmultiset nat) = 0) as Hz.
  { intros d Hd. apply not_elem_of_multiplicity. rw elem_of_list_to_set_disj list_elem_of_fmap.
    intros ([h' e'] & Hb & Hin). destruct (Hd _ Hin) as [Hin' Hne]. apply Hne. simpl.
    eapply (bid_inj c _ _ (block_id e)); [done|..]; rw /bid ?Hh //.
    rw (elem_dget h' e') //; [by rw Hb|apply Hwf]. }
  pose proof (pw_keys _ Hwf) as Hnd. rw Heq fmap_app /= in Hnd. apply NoDup_app in Hnd as (Hn1 & Hdis & Hn2).
  apply NoDup_cons in Hn2 as [Hn2 _]. rw !Hz //.
  - intros [h' e'] Hin. split; [rw Heq; apply elem_of_app; right; by right|]. simpl. intros ->.
    apply Hn2. by apply (list_elem_of_fmap_2 fst) in Hin.
  - intros [h' e'] Hin. split; [rw Heq; apply elem_of_app; by left|]. simpl. intros ->.
    apply (list_elem_of_fmap_2 fst) in Hin. apply (Hdis _ Hin). by left.
Qed.

Lemma evictable_of_spec es s W :
  pc_ok s W → (∀ he, he ∈ es → he ∈ _entries s.2) →
  wp (evictable_of es)
     (λ r s', s' = s ∧ r = key_of <$> filter (λ he, block_id he.2 ∉ W) es) never s.
Proof.
  intros [Hwf HA]. induction es as [|[h e] es IH]; intros Hes; cbn [evictable_of]; [by wp_step|].
  assert ((h, e) ∈ _entries s.2) as Hin by (apply Hes; by left).
  pose proof (entry_multiplicity _ _ _ Hwf Hin) as Hm.
  wp_step. apply alloc_of_spec. rw /BlockAllocator.ref_count. eapply get_ref_spec; [done|..].
  { apply gmultiset_elem_of_disj_union. left. apply elem_of_multiplicity. lia. }
  replace (set_allocator (allocator s.1) s.1, s.2) with s by (by destruct s as [[] ]).
  wp_step. eapply wp_mono; [apply IH; intros ??; apply Hes; by right| |done].
  intros r s' [-> ->]. wp_step. split; [done|]. rw filter_cons multiplicity_disj_union Hm /=.
  destruct (Nat.eqb_spec (multiplicity (block_id e) W) 0) as [He|He].
  - rw decide_True //. by apply not_elem_of_multiplicity.
  - rw decide_False //. by intros H%not_elem_of_multiplicity.
Qed.

(** Removing one unshared entry. *)
Lemma evict_one_spec s W h e :
  pc_ok s W → (h, e) ∈ _entries s.2 → block_id e ∉ W →
  wp (evict_one h)
     (λ _ s', pc_ok s' W ∧ kept s s' ∧ _entries s'.2 = ddel h (_entries s.2) ∧ enabled s'.2 = enabled s.2 ∧
        BlockAllocator.num_free (allocator s'.1) = S (BlockAllocator.num_free (allocator s.1))) never s.
Proof.
  intros [Hwf HA] Hin HW. rw /evict_one. do 2 wp_step. destruct s as [p c]. simpl in *.
  pose proof (elem_dget h e _ (pw_keys _ Hwf) Hin) as Hh. rw Hh.
  destruct (ddel_split h e _ Hh) as (d1 & d2 & Heq & Hdel).
  rw /on_self. do 4 wp_step. cbn. wp_step. apply alloc_of_spec. simpl.
  set (c' := set_by_block (delete (block_id e) (_by_block c)) (set_entries (ddel h (_entries c)) c)).
  assert (held c = {[+ block_id e +]} ⊎ held c') as Hheld.
  { rw /held /= Hdel Heq !fmap_app /= !list_to_set_disj_app /=. multiset_solver. }
  assert (∀ h', bid c' h' = if decide (h' = h) then None else bid c h') as Hbid.
  { intros h'. pose proof (pw_keys _ Hwf) as Hnd. rw Heq fmap_app /= in Hnd.
    rw /bid /= Hdel Heq. clear -Hnd. induction d1 as [|[h1 e1] d1 IH]; simpl in *.
    - apply NoDup_cons in Hnd as [Hnd _]. case_decide; [subst|].
      + by rw (proj2 (dget_None _ d2)).
      + by rw decide_False.
    - apply NoDup_cons in Hnd as [Hn1 Hnd]. specialize (IH Hnd).
      destruct (decide (h1 = h')) as [->|H1]; [|exact IH].
      rw decide_False //. intros ->. apply Hn1. apply elem_of_app. right. by left. }
  pose proof (entry_multiplicity _ _ _ Hwf Hin) as Hm.
  assert (block_id e ∉ held c') as Hnot.
  { rw Hheld multiplicity_disj_union multiplicity_singleton_eq in Hm. apply not_elem_of_multiplicity. lia. }
  eapply wp_mono; [apply (decref_spec _ (held c' ⊎ W))| |done].
  { by rw assoc -Hheld. }
  intros r a (HA' & Hn & _ & Hf). wp_step. split_and!; try done; [split; [split|]|].
  - simpl. rw Hdel. pose proof (pw_keys _ Hwf) as Hnd. rw Heq !fmap_app /= in Hnd. rw fmap_app.
    apply NoDup_app in Hnd as (H1 & H2 & [_ H3]%NoDup_cons). apply NoDup_app. split_and!; try done.
    intros x Hx Hx2. apply (H2 _ Hx). by right.
  - intros b h'. change (delete (block_id e) (_by_block c) !! b = Some h' ↔ bid c' h' = Some b). rw Hbid.
    assert (bid c h = Some (block_id e)) as Hbh by by rw /bid Hh.
    destruct (decide (b = block_id e)) as [->|Hne].
    + rw lookup_delete_eq. split; [done|]. destruct (decide (h' = h)) as [->|Hd]; [discriminate|].
      intros Hb. by destruct Hd; apply (bid_inj _ _ _ _ Hwf Hb Hbh).
    + rw lookup_delete_ne // (pw_by_block _ Hwf).
      destruct (decide (h' = h)) as [->|]; [|done]. rw Hbh. naive_solver.
  - exact HA'.
  - simpl. rw /BlockAllocator.num_free Hf bool_decide_true; [rw length_app /=; lia|].
    rw gmultiset_elem_of_disj_union. tauto.
Qed.

(** Entries whose hash is not among [ks]. *)
Definition without (ks : list evict_key) (es : list (Z * CacheEntry)) : list (Z * CacheEntry) :=
  filter (λ he, he.1 ∉ ks.*2) es.

Lemma ddel_filter h (es : list (Z * CacheEntry)) :
  NoDup es.*1 → ddel h es = filter (λ he, he.1 ≠ h) es.
Proof.
  induction es as [|[h' e] es IH]; [done|]. intros [Hn Hnd]%NoDup_cons. rw filter_cons /=.
  destruct (decide (h' = h)) as [->|Hne].
  - rw decide_False; [|tauto]. rw list_filter_id //. intros [h2 e2] Hin. simpl. intros ->.
    apply Hn. by apply (list_elem_of_fmap_2 fst) in Hin.
  - rw decide_True //. by rw IH.
Qed.

Lemma NoDup_filter_keys (P : Z * CacheEntry → Prop) `{!∀ x, Decision (P x)} es :
  NoDup es.*1 → NoDup (filter P es).*1.
Proof.
  induction es as [|he es IH]; [done|]. intros [Hn Hnd]%NoDup_cons. rw filter_cons. case_decide; [|by apply IH].
  constructor; [|by apply IH]. intros (x & Heq & [_ Hx]%list_elem_of_filter)%list_elem_of_fmap.
  apply Hn. rw Heq. by apply list_elem_of_fmap_2.
Qed.

Lemma without_length ks es :
  NoDup es.*1 → NoDup ks.*2 → (∀ k, k ∈ ks → k.2 ∈ es.*1) →
  length (without ks es) + length ks = length es.
Proof.
  intros Hnd Hks Hin. rw -(length_fmap snd ks) -(length_fmap fst es) -(length_fmap fst (without ks es)) -length_app.
  apply Permutation_length, NoDup_Permutation; [|done|].
  - apply NoDup_app. split_and!; [by apply NoDup_filter_keys| |done].
    intros h (he & -> & [Hn _]%list_elem_of_filter)%list_elem_of_fmap. done.
  - intros h. rw elem_of_app. split.
    + intros [(he & -> & [_ H]%list_elem_of_filter)%list_elem_of_fmap|(k & -> & H)%list_elem_of_fmap].
      * by apply list_elem_of_fmap_2.
      * by apply Hin.
    + intros (he & -> & H)%list_elem_of_fmap. destruct (decide (he.1 ∈ ks.*2)) as [|Hno]; [by right|].
      left. by apply list_elem_of_fmap_2, list_elem_of_filter.
Qed.

Lemma evict_loop_spec ks : ∀ s W,
  pc_ok s W → NoDup ks.*2 → (∀ k, k ∈ ks → ∃ e, (k.2, e) ∈ _entries s.2 ∧ block_id e ∉ W) →
  wp (for_each ks (λ '(_, _, h), evict_one h))
     (λ _ s', pc_ok s' W ∧ kept s s' ∧ _entries s'.2 = without ks (_entries s.2) ∧
        enabled s'.2 = enabled s.2 ∧
        BlockAllocator.num_free (allocator s'.1) = BlockAllocator.num_free (allocator s.1) + length ks) never s.
Proof.
  induction ks as [|[[l d] h] ks IH]; intros s W Hok Hnd Hks.
  { wp_step. rw /without list_filter_id; [|by intros ? _ ?%not_elem_of_nil].
    by split_and!. }
  apply NoDup_cons in Hnd as [Hn Hnd]. wp_step. destruct (Hks (l, d, h)) as (e & Hin & HW); [by left|].
  eapply wp_mono; [by eapply evict_one_spec| |done].
  intros _ s1 (Hok1 & Hk1 & He1 & Hen1 & Hf1). pose proof (pw_keys _ (po_wf _ _ Hok)) as Hkeys.
  rw ddel_filter // in He1.
  eapply wp_mono; [apply (IH s1 W Hok1 Hnd)| |done].
  - intros k Hk. destruct (Hks k) as (e' & Hin' & HW'); [by right|]. exists e'. split; [|done].
    rw He1. apply list_elem_of_filter. split; [|done]. simpl. intros Heq. apply Hn. simpl.
    rw -Heq. by apply list_elem_of_fmap_2.
  - intros _ s2 (Hok2 & Hk2 & He2 & Hen2 & Hf2). split_and!; try done.
    + by eapply kept_trans.
    + rw He2 He1 /without list_filter_filter. apply list_filter_iff. intros he. simpl.
      rw not_elem_of_cons. naive_solver.
    + congruence.
    + simpl. lia.
Qed.

(** The keys [evict n] removes: the [n] smallest of the evictable ones. *)
Definition victims c W (n : nat) : list evict_key := take n (py_sort evict_le (key_of <$> evictable c W)).

Lemma victims_sub c W n k :
  k ∈ victims c W n → ∃ e, (k.2, e) ∈ _entries c ∧ block_id e ∉ W ∧ k = key_of (k.2, e).
Proof.
  intros (i & Hi%list_elem_of_lookup_2 & _)%elem_of_take. rw /py_sort merge_sort_Permutation in Hi.
  apply list_elem_of_fmap in Hi as ([h e] & -> & [HW Hin]%list_elem_of_filter). by exists e.
Qed.

Lemma victims_NoDup c W n : pc_wf c → NoDup (victims c W n).*2.
Proof.
  intros Hwf. rw /victims fmap_take. eapply sublist_NoDup; [|apply sublist_take].
  assert ((py_sort evict_le (key_of <$> evictable c W)).*2 ≡ₚ (evictable c W).*1) as ->.
  { rw /py_sort merge_sort_Permutation -list_fmap_compose. done. }
  apply NoDup_filter_keys, Hwf.
Qed.

Lemma length_victims c W n : length (victims c W n) = n `min` length (evictable c W).
Proof. rw /victims length_take /py_sort merge_sort_Permutation length_fmap. done. Qed.

Lemma evict_spec n s W :
  pc_ok s W →
  wp (evict n)
     (λ freed s', pc_ok s' W ∧ kept s s' ∧ enabled s'.2 = enabled s.2 ∧
        freed = n `min` length (evictable s.2 W) ∧
        _entries s'.2 = without (victims s.2 W n) (_entries s.2) ∧
        BlockAllocator.num_free (allocator s'.1) = BlockAllocator.num_free (allocator s.1) + freed) never s.
Proof.
  intros Hok. rw /evict. do 2 wp_step. destruct s as [p c] eqn:Hs. wp_step.
  eapply wp_mono; [apply (evictable_of_spec (_entries c) (p, c) W Hok); done| |done].
  intros r s' [-> ->]. rw -/(evictable c W). simpl.
  destruct (key_of <$> evictable c W) as [|k ks] eqn:Hev.
  { apply fmap_nil_inv in Hev. wp_step. rw Hev Nat.min_0_r. split_and!; try done; simpl.
    rw /without /victims Hev /= take_nil list_filter_id //. by intros ? _ ?%not_elem_of_nil. }
  rw -Hev. wp_step. rw -/(victims c W n).
  eapply wp_mono; [apply (evict_loop_spec _ (p, c) W Hok)| |done].
  - by apply victims_NoDup, Hok.
  - intros k' (e & ? & ? & _)%victims_sub. eauto.
  - intros _ s1 (Hok1 & Hk1 & He1 & Hen1 & Hf1). rw /count_entries /on_self. do 4 wp_step.
    wp_step. wp_step. wp_step. destruct s1 as [p1 c1]. simpl in *. rw length_victims in Hf1 |- *.
    split_and!; try done. by apply (pc_ok_stats _ (set_pc_stats _ c1)), pc_ok_stats.
Qed.

Lemma evictable_without c c' W n :
  pc_wf c → _entries c' = without (victims c W n) (_entries c) →
  length (evictable c' W) + n `min` length (evictable c W) = length (evictable c W) ∧
  length (_entries c') + n `min` length (evictable c W) = length (_entries c).
Proof.
  intros Hwf He. rw -length_victims. split.
  - assert (evictable c' W = without (victims c W n) (evictable c W)) as ->.
    { rw /evictable He /without !list_filter_filter. apply list_filter_iff. naive_solver. }
    apply without_length; [apply NoDup_filter_keys, Hwf|by apply victims_NoDup|].
    intros k (e & Hin & HW & _)%victims_sub. apply list_elem_of_fmap. exists (k.2, e).
    split; [done|]. by apply list_elem_of_filter.
  - rw He. apply without_length; [apply Hwf|by apply victims_NoDup|].
    intros k (e & Hin & _ & _)%victims_sub. by apply (list_elem_of_fmap_2 fst) in Hin.
Qed.

Lemma ensure_free_loop_spec fuel n : ∀ s W,
  pc_ok s W → length (_entries s.2) < fuel →
  wp (ensure_free_loop fuel n)
     (λ r s', pc_ok s' W ∧ kept s s' ∧ enabled s'.2 = enabled s.2 ∧
        (∀ h b, bid s'.2 h = Some b → bid s.2 h = Some b) ∧
        r = (n <=? BlockAllocator.num_free (allocator s.1) + length (evictable s.2 W)) ∧
        (r = true → n ≤ BlockAllocator.num_free (allocator s'.1)) ∧
        BlockAllocator.num_free (allocator s.1) ≤ BlockAllocator.num_free (allocator s'.1)) never s.
Proof.
  induction fuel as [|fuel IH]; intros s W Hok Hfuel; [lia|]. cbn [ensure_free_loop].
  do 2 wp_step. destruct s as [p c] eqn:Hs. simpl in Hfuel.
  destruct (Nat.ltb_spec (BlockAllocator.num_free (allocator p)) n) as [Hlt|Hge]; last first.
  { wp_step. simpl. split_and!; try done. symmetry. apply Nat.leb_le. lia. }
  wp_step. eapply wp_mono; [by apply evict_spec| |done].
  intros freed s1 (Hok1 & Hk1 & Hen1 & Hfr & He1 & Hf1). simpl in *.
  destruct (evictable_without c s1.2 W _ (po_wf _ _ Hok) He1) as [Hev Hlen].
  assert (∀ h b, bid s1.2 h = Some b → bid c h = Some b) as Hsub.
  { intros h b. rw /bid He1. destruct (dget h (without _ _)) as [e|] eqn:Hg; [|done]. intros [= <-].
    apply dget_Some_elem, list_elem_of_filter in Hg as [_ Hg].
    by rw (elem_dget h e); [|apply (po_wf _ _ Hok)|]. }
  destruct (Nat.eqb_spec freed 0) as [Hz|Hz].
  - wp_step. split_and!; try done; [|lia]. symmetry. apply Nat.leb_gt. lia.
  - eapply wp_mono; [apply (IH s1 W Hok1)| |done]; [lia|].
    intros r s2 (Hok2 & Hk2 & Hen2 & Hsub2 & -> & Hr2 & Hf2). split_and!; try done.
    + by eapply kept_trans.
    + congruence.
    + eauto.
    + f_equal. lia.
    + lia.
Qed.
End prefix_refs.

(** ** Properties *)

Section prefix_heap.
Context {T : Type}.
Implicit Types (p : Pool T) (c : PCache) (cs : list Cache).
Import PrefixCache.

(** A pool, its live sequences and its prefix cache. *)
Definition pc_heap p c cs : Prop := heap p cs (held c) ∧ pc_wf c.

Lemma pc_heap_ok p c cs : pc_heap p c cs → pc_ok (p, c) (refs_of cs).
Proof. intros [[_ HA _] Hwf]. split; [done|]. simpl. by rw comm. Qed.

Lemma same_storage_cache_wf p p' (c : Cache) : same_storage p p' → cache_wf p c → cache_wf p' c.
Proof. intros Hs. apply cache_wf_shape. by apply same_storage_shape. Qed.

Lemma same_storage_contents p p' (c : Cache) l : same_storage p p' → contents p' c l = contents p c l.
Proof. intros (_ & _ & Hk & Hv & _). by rw /contents Hk Hv. Qed.

Lemma pc_ok_heap p c cs p' c' :
  pc_heap p c cs → kept (p, c) (p', c') → pc_ok (p', c') (refs_of cs) → pc_heap p' c' cs.
Proof.
  intros [[Hwf _ Hcs] _] Hk [Hwf' HA]. simpl in *. split; [|done]. split.
  - by eapply same_storage_wf.
  - by rw comm.
  - eapply Forall_impl; [done|]. intros ?. by apply same_storage_cache_wf.
Qed.

(** Appending already referenced blocks to a fresh table. *)
Lemma attach_loop_spec blocks : ∀ (s : PC T),
  wp (for_each blocks PagedKVCache._append_block)
     (λ _ s', s' = (s.1, mkCache (block_table s.2 ++ blocks) (num_tokens s.2) (_start s.2)
        (_slots s.2 ++ slots_of (block_size s.1) blocks))) never s.
Proof.
  induction blocks as [|b blocks IH]; intros s.
  { wp_step. rw !app_nil_r. by destruct s as [? []]. }
  wp_step. apply append_block_spec. eapply wp_mono; [apply IH| |done].
  intros _ s' ->. simpl. by rw -!assoc.
Qed.

Lemma attach_spec p blocks :
  wp (attach blocks)
     (λ n s', n = length blocks * block_size p ∧
        s' = (p, mkCache blocks (length blocks * block_size p) 0 (slots_of (block_size p) blocks)))
     never (p, PagedKVCache.init).
Proof.
  rw /attach. destruct blocks as [|b blocks]; [by apply wp_ret|]. wp_step.
  eapply wp_mono; [apply attach_loop_spec| |done]. intros _ s' ->. rw /on_cache. do 5 wp_step. done.
Qed.

(** The heap once [match]'s references have become a new sequence's table. *)
Lemma attached_heap p c cs p1 c1 found :
  pc_heap p c cs → pc_ok (p1, c1) (list_to_set_disj found ⊎ refs_of cs) → kept (p, c) (p1, c1) →
  pc_heap p1 c1 (cs ++ [mkCache found (length found * block_size p1) 0 (slots_of (block_size p1) found)]).
Proof.
  intros [[Hwf HA Hcs] Hpc] [Hwf1 HA1] Hk. simpl in *. pose proof Hk as (Hb & _). simpl in Hb.
  split; [split|done].
  - by eapply same_storage_wf.
  - rw /refs_of bind_app list_to_set_disj_app /= app_nil_r -/(refs_of cs).
    by replace (refs_of cs ⊎ list_to_set_disj found ⊎ held c1)
      with (held c1 ⊎ (list_to_set_disj found ⊎ refs_of cs)) by multiset_solver.
  - apply Forall_app. split; [|constructor; [|done]].
    + eapply Forall_impl; [done|]. intros ?. by apply same_storage_cache_wf.
    + pose proof (pwf_bs _ Hwf). split; [done|]. rw /tight /= Hb. symmetry. apply ceil_div_unique; lia.
Qed.

Lemma evict_le_trans : Transitive evict_le.
Proof. intros [[l1 d1] h1] [[l2 d2] h2] [[l3 d3] h3]. rw /evict_le. lia. Qed.

Lemma evict_le_total : Total evict_le.
Proof. intros [[l1 d1] h1] [[l2 d2] h2]. rw /evict_le. lia. Qed.

Lemma victims_least c W n k k' :
  pc_wf c → k ∈ victims c W n → k' ∈ key_of <$> evictable c W → k' ∉ victims c W n → evict_le k k'.
Proof.
  intros Hwf Hk Hk' Hn. rw /victims in Hk, Hn. set (l := py_sort evict_le (key_of <$> evictable c W)) in *.
  assert (StronglySorted evict_le l) as Hs.
  { apply (@StronglySorted_merge_sort _ evict_le _ evict_le_trans evict_le_total). }
  assert (k' ∈ drop n l) as Hd.
  { assert (k' ∈ l) as Hl by by rw /l /py_sort merge_sort_Permutation.
    rw -(take_drop n l) elem_of_app in Hl. tauto. }
  rw -(take_drop n l) in Hs. by eapply StronglySorted_app_1_elem_of.
Qed.
End prefix_heap.

(** ** The hash chain *)

Section chain.
Context (hash : Z → list Z → Z).

(** The key of block [i], by recursion on the chain. *)
Fixpoint chain_key (bs : nat) (ids : list Z) (i : nat) : Z :=
  hash (match i with O => ROOT_HASH | S i => chain_key bs ids i end) (take bs (drop (i * bs) ids)).

Lemma chain_from_lookup bs ids starts : ∀ parent k,
  (parent = match k with O => ROOT_HASH | S k => chain_key bs ids k end) →
  starts = (λ i, i * bs) <$> seq k (length starts) →
  ∀ i h, PrefixCache.chain_from hash bs ids parent starts !! i = Some h ↔
         i < length starts ∧ h = chain_key bs ids (k + i).
Proof.
  induction starts as [|st starts IH]; intros parent k Hp Hs i h; cbn in *.
  { split; [done|lia]. }
  injection Hs as -> Hs. destruct i as [|i]; cbn.
  - rw Nat.add_0_r Hp /PrefixCache.block_hash. destruct k; cbn; (split; [intros [= <-]; split; [lia|done]|by intros [_ ->]]).
  - rw (IH _ (S k)) //; [|rw Hp /PrefixCache.block_hash; by destruct k].
    rw Nat.add_succ_r /=. split; intros []; split; try done; lia.
Qed.

(** [hash_chain] has one key per full block. *)
Lemma hash_chain_lookup bs ids i h :
  0 < bs →
  PrefixCache.hash_chain hash bs ids !! i = Some h ↔ S i * bs ≤ length ids ∧ h = chain_key bs ids i.
Proof.
  intros Hbs. rw /PrefixCache.hash_chain (chain_from_lookup _ _ _ _ 0) //; last first.
  { by rw /range_step length_fmap length_seq. }
  rw /range_step length_fmap length_seq Nat.add_0_l.
  set (n := Z.to_nat (Z.of_nat (length ids) - Z.of_nat bs + 1)).
  assert (i < ceil_div n bs ↔ S i * bs ≤ length ids) as ->; [|done].
  rw Nat.lt_nge (ceil_div_le n bs i Hbs). lia.
Qed.

(** A key depends only on the tokens up to the end of its block. *)
Lemma chain_key_ext bs ids ids' i :
  take (S i * bs) ids = take (S i * bs) ids' → chain_key bs ids i = chain_key bs ids' i.
Proof.
  induction i as [|i IH]; intros Ht; cbn [chain_key].
  - rw Nat.mul_0_l !drop_0. rw Nat.mul_1_l in Ht. by rw Ht.
  - rw IH; last first.
    { apply (f_equal (take (S i * bs))) in Ht. rw !take_take in Ht.
      by replace ((S i * bs) `min` (S (S i) * bs)) with (S i * bs) in Ht by nia. }
    f_equal. apply (f_equal (drop (S i * bs))) in Ht. rw !skipn_firstn_comm in Ht.
    by replace (S (S i) * bs - S i * bs) with bs in Ht by lia.
Qed.
End chain.

Lemma longest_lookup c hs i b : longest c hs !! i = Some b → ∃ h, hs !! i = Some h ∧ bid c h = Some b.
Proof.
  revert i. induction hs as [|h hs IH]; intros i Hi; [done|]. cbn in Hi.
  destruct (bid c h) as [b'|] eqn:Hh; [|done]. destruct i as [|i]; simplify_eq/=; eauto.
Qed.

(** ** The registry of prefixes

    What the cache stands for, with no hashes in it: a map from token sequences, whole
    numbers of blocks long, to the block that holds their last [bs] positions. *)

Section registry.
Context (hash : Z → list Z → Z) (bs : nat).
Implicit Types (R : gmap (list Z) nat) (c : PCache) (u ids : list Z).

Definition represents c R : Prop :=
  (∀ u b, R !! u = Some b → ∃ k, length u = S k * bs ∧ bid c (chain_key hash bs u k) = Some b) ∧
  (∀ h b, bid c h = Some b → ∃ u k, R !! u = Some b ∧ length u = S k * bs ∧ h = chain_key hash bs u k).

(** Chained hashes of different prefixes differ, among the prefixes in [P]. *)
Definition no_collision (P : list Z → Prop) : Prop := ∀ u u' k k', P u → P u' →
  length u = S k * bs → length u' = S k' * bs → chain_key hash bs u k = chain_key hash bs u' k' → u = u'.

(** [found] are the blocks of the longest prefix of [ids] all of whose blocks are
    registered. *)
Definition longest_cached R ids (found : list nat) : Prop :=
  (∀ i b, found !! i = Some b → S i * bs ≤ length ids ∧ R !! take (S i * bs) ids = Some b) ∧
  (S (length found) * bs ≤ length ids → R !! take (S (length found) * bs) ids = None).

Lemma represents_lookup c R ids i : 0 < bs →
  represents c R → no_collision (λ u, is_Some (R !! u) ∨ u `prefix_of` ids) → S i * bs ≤ length ids →
  bid c (chain_key hash bs ids i) = R !! take (S i * bs) ids.
Proof.
  intros Hbs [H1 H2] Hnc Hi. assert (length (take (S i * bs) ids) = S i * bs) as Hlen by (rw length_take; lia).
  assert (chain_key hash bs (take (S i * bs) ids) i = chain_key hash bs ids i) as Hk by (apply chain_key_ext; by rw take_take Nat.min_id).
  destruct (R !! take (S i * bs) ids) as [b|] eqn:HR.
  - destruct (H1 _ _ HR) as (k & Hk1 & Hb). assert (k = i) as -> by nia. by rw -Hk.
  - destruct (bid c (chain_key hash bs ids i)) as [b|] eqn:Hb; [|done]. destruct (H2 _ _ Hb) as (u & k & Hu & Hlu & Hc).
    assert (u = take (S i * bs) ids) as ->; [|congruence]. eapply (Hnc _ _ k i); [left; by rw Hu|right; apply prefix_take|done|done|congruence].
Qed.

(** What a lookup finds is the longest registered prefix. *)
Lemma longest_found c R ids : 0 < bs →
  represents c R → no_collision (λ u, is_Some (R !! u) ∨ u `prefix_of` ids) →
  longest_cached R ids (longest c (PrefixCache.hash_chain hash bs ids)).
Proof.
  intros Hbs HR Hnc. set (hs := PrefixCache.hash_chain hash bs ids).
  assert (∀ i h, hs !! i = Some h → S i * bs ≤ length ids ∧ bid c h = R !! take (S i * bs) ids) as Hh.
  { intros i h [Hi ->]%hash_chain_lookup; [|done]. split; [done|]. by apply represents_lookup. }
  assert (∀ i, S i * bs ≤ length ids → is_Some (hs !! i)) as Hfull.
  { intros i Hi. eexists. by apply hash_chain_lookup. }
  split.
  - intros i b (h & Hi & Hb)%longest_lookup. destruct (Hh _ _ Hi) as [? Hr]. split; [done|]. congruence.
  - intros Hnext. destruct (Hfull _ Hnext) as [h Hi]. destruct (Hh _ _ Hi) as [_ <-]. clear -Hi. revert Hi.
    generalize hs. clear hs. intros hs. induction hs as [|h0 hs IH]; [done|]. cbn. destruct (bid c h0) eqn:H0; cbn; [apply IH|]. by intros [= <-].
Qed.

Lemma represents_same c c' R : same_entries c c' → represents c R → represents c' R.
Proof.
  intros (_ & _ & _ & Hb & _) [H1 H2]. split.
  - intros u b Hu. destruct (H1 _ _ Hu) as (k & ? & ?). exists k. by rw Hb.
  - intros h b. rw Hb. apply H2.
Qed.

Lemma represents_init b : represents (PrefixCache.init b) ∅.
Proof. split; [intros u b'; by rw lookup_empty|]. by intros h b'. Qed.
End registry.

(** Registering a sequence adds prefixes of it to the registry, each for the block at its
    place in the table, and forgets nothing. *)
Lemma insert_represents {T} (hash : Z → list Z → Z) (ids : list Z) (table : list nat) (s : PrefixCache.PS (T := T)) (W : gmultiset nat) (R : gmap (list Z) nat) :
  0 < block_size s.1 → pc_ok s W → (∀ b, b ∈ table → b ∈ W) → represents hash (block_size s.1) s.2 R →
  no_collision hash (block_size s.1) (λ u, is_Some (R !! u) ∨ u `prefix_of` ids) →
  wp (PrefixCache.insert hash ids table)
     (λ _ s', ∃ R', represents hash (block_size s.1) s'.2 R' ∧ R ⊆ R' ∧
        ∀ u b, R' !! u = Some b → R !! u = Some b ∨
          ∃ i, S i * block_size s.1 ≤ length ids ∧ u = take (S i * block_size s.1) ids ∧ table !! i = Some b) never s.
Proof.
  intros Hbs Hok HW HR Hnc. eapply wp_mono; [by apply insert_spec| |done]. intros _ s' (_ & _ & _ & _ & Hmono & Hnew).
  set (bs := block_size s.1) in *. set (n := length ids / bs).
  set (add := omap (λ i, b ← bid s'.2 (chain_key hash bs ids i); Some (take (S i * bs) ids, b)) (seq 0 n)).
  assert (∀ i, i < n ↔ S i * bs ≤ length ids) as Hn.
  { intros i. subst n. rw -Nat.le_succ_l. split; intros Hi; [|apply Nat.div_le_lower_bound; lia].
    pose proof (Nat.Div0.mul_div_le (length ids) bs). nia. }
  assert (∀ u b, list_to_map (M := gmap (list Z) nat) add !! u = Some b →
    ∃ i, S i * bs ≤ length ids ∧ u = take (S i * bs) ids ∧ bid s'.2 (chain_key hash bs ids i) = Some b) as Hadd.
  { intros u b (i & Hi & Hs)%elem_of_list_to_map_2%list_elem_of_omap. apply elem_of_seq in Hi. exists i.
    destruct (bid s'.2 _) as [b'|] eqn:Hb; [|done]. injection Hs as <- <-. split; [apply Hn; lia|done]. }
  assert (∀ i b, S i * bs ≤ length ids → bid s'.2 (chain_key hash bs ids i) = Some b →
    list_to_map (M := gmap (list Z) nat) add !! take (S i * bs) ids = Some b) as Hadd'.
  { intros i b Hi Hb. assert ((take (S i * bs) ids, b) ∈ add) as Hin.
    { apply list_elem_of_omap. exists i. split; [apply elem_of_seq; apply Hn in Hi; lia|]. by rw Hb. }
    destruct (list_to_map (M := gmap (list Z) nat) add !! take (S i * bs) ids) as [b'|] eqn:Hl.
    - destruct (Hadd _ _ Hl) as (j & Hj & Ht & Hbj). apply (f_equal length) in Ht. rw !length_take in Ht.
      assert (j = i) as -> by nia. congruence.
    - exfalso. apply not_elem_of_list_to_map_2 in Hl. apply Hl. by apply (list_elem_of_fmap_2 fst) in Hin. }
  exists (R ∪ list_to_map add). split; [split|split].
  - intros u b [Hu|[_ Hu]]%lookup_union_Some_raw.
    + destruct HR as [H1 _]. destruct (H1 _ _ Hu) as (k & ? & ?). exists k. split; [done|]. by apply Hmono.
    + destruct (Hadd _ _ Hu) as (i & Hi & -> & Hb). exists i. split; [rw length_take; lia|].
      rw -Hb. f_equal. apply chain_key_ext. by rw take_take Nat.min_id.
  - intros h b Hb. destruct (Hnew _ _ Hb) as [Hb0|(i & Hi & Ht)].
    + destruct HR as [_ H2]. destruct (H2 _ _ Hb0) as (u & k & Hu & ? & ?). exists u, k. split; [|done]. by apply lookup_union_Some_l.
    + apply hash_chain_lookup in Hi as [Hi ->]; [|done]. exists (take (S i * bs) ids), i. split.
      * destruct (R !! take (S i * bs) ids) as [b'|] eqn:Hr.
        -- assert (bid s.2 (chain_key hash bs ids i) = Some b') as Hb' by by rw (represents_lookup hash bs s.2 R).
           apply Hmono in Hb'. rw (lookup_union_Some_l _ _ _ _ Hr). congruence.
        -- rw lookup_union_r //. by apply Hadd'.
      * split; [rw length_take; lia|]. apply chain_key_ext. by rw take_take Nat.min_id.
  - apply map_union_subseteq_l.
  - intros u b [Hu|[Hr Hu]]%lookup_union_Some_raw; [by left|]. right. destruct (Hadd _ _ Hu) as (i & Hi & -> & Hb).
    exists i. split; [done|]. split; [done|]. destruct (Hnew _ _ Hb) as [Hb0|(j & Hj & Ht)].
    + exfalso. rw (represents_lookup hash bs s.2 R) // in Hb0. congruence.
    + apply hash_chain_lookup in Hj as [Hj Hc]; [|done].
      assert (take (S i * bs) ids = take (S j * bs) ids) as Heq.
      { eapply (Hnc _ _ i j); [right; apply prefix_take..|rw length_take; lia|rw length_take; lia|].
        etransitivity; [|etransitivity; [exact Hc|]]; apply chain_key_ext; by rw take_take Nat.min_id. }
      apply (f_equal length) in Heq. rw !length_take in Heq. assert (j = i) as -> by nia. done.
Qed.

(** C15: looking a prompt up shares exactly its longest cached prefix.  When the cache
    represents a registry of token prefixes, and the chained hashes of the registered
    prefixes and of the prompt's own do not collide, [match] returns the blocks registered
    for the successive prefixes of the prompt, up to the first that is not registered or
    not whole; [attach] makes them the table of a fresh sequence that starts after their
    tokens, one reference each: the heap with the new sequence is well formed, the registry
    is unchanged, no block is taken from the free list, and every other sequence reads the
    rows it read before.  A disabled cache shares nothing. *)
Theorem match_attach_shares {T} (hash : Z → list Z → Z) (p : Pool T) (c : PCache) (cs : list Cache) (ids : list Z) (R : gmap (list Z) nat) :
  pc_heap p c cs → represents hash (block_size p) c R →
  no_collision hash (block_size p) (λ u, is_Some (R !! u) ∨ u `prefix_of` ids) →
  ∃ found, (if enabled c then longest_cached (block_size p) R ids found else found = []) ∧
  wp (PrefixCache.match_ hash ids)
     (λ blocks s', blocks = found ∧ represents hash (block_size p) s'.2 R ∧
        wp (PrefixCache.attach blocks)
           (λ n s'', n = length found * block_size p ∧ num_tokens s''.2 = n ∧
              block_table s''.2 = found ∧
              pc_heap s''.1 s'.2 (cs ++ [s''.2]) ∧
              (∀ i c' l, cs !! i = Some c' → contents s''.1 c' l = contents p c' l) ∧
              BlockAllocator._free (allocator s''.1) = BlockAllocator._free (allocator p))
           never (s'.1, PagedKVCache.init)) never (p, c).
Proof.
  intros HH HR Hnc. pose proof (pwf_bs _ (heap_wf _ _ _ (proj1 HH))) as Hbs.
  exists (if enabled c then longest c (PrefixCache.hash_chain hash (block_size p) ids) else []).
  split; [destruct (enabled c); [by apply longest_found|done]|]. set (found := if enabled c then _ else _).
  eapply wp_mono; [by apply match_spec, pc_heap_ok| |done]. rw -/found.
  intros blocks [p1 c1] (-> & Hok & Hs & Hk & Hf). split; [done|]. split; [by eapply represents_same|].
  eapply wp_mono; [apply attach_spec| |done]. intros n s'' [-> ->]. simpl.
  pose proof (attached_heap _ _ _ _ _ _ HH Hok Hk) as HH1.
  pose proof Hk as (Hb & _). simpl in Hb, HH1. rw Hb in HH1 |- *. split_and!; try done.
  intros i c' l _. by apply same_storage_contents.
Qed.

(** A polynomial hash for the examples. *)
Definition poly_hash (a : Z) (l : list Z) : Z := foldl (λ h t, h * 31 + t)%Z a l.

(** C16: eviction is least-recently-used and never touches live data.  [evict(n)]
    removes exactly [min n (evictable)] entries and frees that many blocks; none of
    the removed blocks is in a live sequence's table, and every removed entry comes
    before every evictable entry that stays, by last use and then by depth. *)
Theorem evict_lru {T} (p : Pool T) c cs n :
  pc_heap p c cs →
  wp (PrefixCache.evict n)
     (λ freed s', pc_heap s'.1 s'.2 cs ∧ freed = n `min` length (evictable c (refs_of cs)) ∧
        BlockAllocator.num_free (allocator s'.1) = BlockAllocator.num_free (allocator p) + freed ∧
        (∀ l c' i, cs !! i = Some c' → contents s'.1 c' l = contents p c' l) ∧
        (∀ h e, (h, e) ∈ _entries c → (h, e) ∉ _entries s'.2 →
           Forall (λ c', block_id e ∉ block_table c') cs ∧
           ∀ h' e', (h', e') ∈ _entries s'.2 → block_id e' ∉ refs_of cs →
             evict_le (key_of (h, e)) (key_of (h', e')))) never (p, c).
Proof.
  intros HH. pose proof (pc_heap_ok _ _ _ HH) as Hok. pose proof HH as [_ Hwf].
  eapply wp_mono; [by apply evict_spec| |done].
  intros freed [p1 c1] (Hok1 & Hk & Hen & Hfr & He & Hf). simpl in *. split_and!; try done.
  - by eapply pc_ok_heap.
  - intros l c' i _. by apply same_storage_contents.
  - intros h e Hin Hout. rw He in Hout.
    assert ((key_of (h, e)) ∈ victims c (refs_of cs) n) as Hv.
    { destruct (decide (h ∈ (victims c (refs_of cs) n).*2)) as [Hin2|Hno].
      - apply list_elem_of_fmap in Hin2 as (k & -> & Hk2).
        destruct (victims_sub _ _ _ _ Hk2) as (e' & Hin' & _ & Heq).
        assert (e' = e) as ->; [|by rw -Heq].
        pose proof (elem_dget _ _ _ (pw_keys _ Hwf) Hin). pose proof (elem_dget _ _ _ (pw_keys _ Hwf) Hin').
        congruence.
      - exfalso. apply Hout. apply list_elem_of_filter. done. }
    split.
    + destruct (victims_sub _ _ _ _ Hv) as (e' & Hin' & HW & Heq).
      assert (e' = e) as ->.
      { pose proof (elem_dget _ _ _ (pw_keys _ Hwf) Hin). pose proof (elem_dget _ _ _ (pw_keys _ Hwf) Hin').
        simpl in *. congruence. }
      apply Forall_forall. intros c' Hc' Hb. apply HW. rw /refs_of elem_of_list_to_set_disj.
      apply list_elem_of_bind. eauto.
    + intros h' e' Hin' HW. rw He in Hin'. apply list_elem_of_filter in Hin' as [Hno Hin'].
      change (evict_le (key_of (h, e)) (key_of (h', e'))).
      eapply victims_least; [done|done|..].
      * apply list_elem_of_fmap_2, list_elem_of_filter. done.
      * intros Hv'. apply Hno. by apply (list_elem_of_fmap_2 snd) in Hv'.
Qed.

Lemma pc_heap_init {T} (zero : T) layers blocks bs b :
  0 < bs → pc_heap (PagedCachePool.init zero layers blocks bs) (PrefixCache.init b) [PagedKVCache.init].
Proof.
  intros Hbs. split; [by apply heap_init|]. split; [constructor|].
  intros b' h. rw /PrefixCache.init /= lookup_empty. done.
Qed.

(** A pool with one cached block nobody else refers to. *)
Definition one_cached : Pool nat * PCache :=
  let p0 := PagedCachePool.init 0 1 2 2 in
  let a1 := (BlockAllocator.allocate (allocator p0)).2 in
  let s2 := (PrefixCache.insert poly_hash [5; 6]%Z [0] (set_allocator a1 p0, PrefixCache.init true)).2 in
  let a := (BlockAllocator.decref 0 (allocator s2.1)).2 in
  (set_allocator a s2.1, s2.2).

Lemma one_cached_heap : pc_heap one_cached.1 one_cached.2 [PagedKVCache.init].
Proof.
  set (p0 := PagedCachePool.init 0 1 2 2).
  destruct (heap_init 0 1 2 2 ltac:(lia)) as [Hwf0 _ Hcs]. fold p0 in Hwf0, Hcs.
  set (a1 := BlockAllocator.mk 2 [1] [1; 0]).
  assert (BlockAllocator.allocate (allocator p0) = (Ok (Some 0), a1)) as Hrun1 by reflexivity.
  destruct (wp_ok _ _ _ _ _ _ Hrun1 (allocate_spec (allocator p0) ∅ (accounted_init 2))) as (Ha1 & _).
  assert (pc_ok (set_allocator a1 p0, PrefixCache.init true) {[+ 0 +]}) as Hok0.
  { split; [split; [constructor|]|].
    - intros b h. by rw /= lookup_empty.
    - rw /= /held /= left_id. by rw right_id in Ha1. }
  set (s2 := (PrefixCache.insert poly_hash [5; 6]%Z [0] (set_allocator a1 p0, PrefixCache.init true)).2).
  assert (pc_ok s2 {[+ 0 +]} ∧ kept (set_allocator a1 p0, PrefixCache.init true) s2) as [Hok2 Hk2].
  { pose proof (insert_spec poly_hash [5; 6]%Z [0] _ {[+ 0 +]} Hok0) as Hins.
    assert (PrefixCache.insert poly_hash [5; 6]%Z [0] (set_allocator a1 p0, PrefixCache.init true)
      = (Ok tt, s2)) as Hrun2 by (vm_compute; reflexivity).
    by destruct (wp_ok _ _ _ _ _ _ Hrun2 (Hins ltac:(set_solver))) as (? & ? & _). }
  destruct Hok2 as [Hwf2 HA2]. rw comm in HA2.
  assert (BlockAllocator.decref 0 (allocator s2.1) = (Ok false, a1)) as Hrun3 by (vm_compute; reflexivity).
  destruct (wp_ok _ _ _ _ _ _ Hrun3 (decref_spec _ _ _ HA2)) as (Ha & Hn & _).
  split; [|exact Hwf2]. split.
  - apply pool_wf_allocator; [done|]. eapply same_storage_wf; [exact Hk2|]. by apply pool_wf_allocator.
  - rw /refs_of /= left_id. exact Ha.
  - eapply Forall_impl; [exact Hcs|]. intros c. apply cache_wf_shape. split_and!; reflexivity.
Qed.

(** It stands for the one prefix that was registered. *)
Lemma one_cached_represents : represents poly_hash 2 one_cached.2 {[ [5; 6]%Z := 0 ]}.
Proof.
  split.
  - intros u b [<- <-]%lookup_singleton_Some. exists 0. split; vm_compute; reflexivity.
  - intros h b Hb. exists [5; 6]%Z, 0. change (bid one_cached.2 h) with (block_id <$> (if decide (chain_key poly_hash 2 [5; 6]%Z 0 = h)
      then Some (mkEntry 0 ROOT_HASH 1 0) else None)) in Hb. case_decide as Hh; [|done]. injection Hb as <-. by rw lookup_singleton_eq.
Qed.

Lemma match_attach_shares_witness :
  let p := one_cached.1 in
  (PrefixCache.match_ poly_hash [5; 6; 7; 8; 9]%Z one_cached).1 = Ok [0] ∧
  ∃ found, longest_cached 2 {[ [5; 6]%Z := 0 ]} [5; 6; 7; 8; 9]%Z found ∧
    wp (PrefixCache.match_ poly_hash [5; 6; 7; 8; 9]%Z) (λ blocks _, blocks = found) never (p, one_cached.2).
Proof.
  intros p. split; [vm_compute; reflexivity|].
  destruct (match_attach_shares poly_hash p one_cached.2 [PagedKVCache.init] [5; 6; 7; 8; 9]%Z {[ [5; 6]%Z := 0 ]})
    as (found & Hf & Hwp).
  - apply one_cached_heap.
  - apply one_cached_represents.
  - assert (∀ u, (is_Some (({[ [5; 6]%Z := 0 ]} : gmap (list Z) nat) !! u) ∨ u `prefix_of` [5; 6; 7; 8; 9]%Z) → u = take (length u) [5; 6; 7; 8; 9]%Z) as Hp.
    { intros u [[b [<- _]%lookup_singleton_Some]|[v Hv]]; [reflexivity|]. rw Hv take_app_length //. }
    intros u u' k k' Hu%Hp Hu'%Hp Hl Hl' Hk. rw Hl in Hu. rw Hl' in Hu'. rw Hu Hu'. rw Hu Hu' in Hk, Hl, Hl'.
    rw length_take /= in Hl, Hl'. change (block_size p) with 2 in *.
    destruct k as [|[|k]], k' as [|[|k']]; try (exfalso; cbn in Hl, Hl'; lia); try reflexivity; vm_compute in Hk; discriminate.
  - exists found. split; [exact Hf|]. eapply wp_mono; [exact Hwp| |]; [intros blocks s' [H _]; exact H|intros e s' H; exact H].
Defined.

Lemma evict_lru_witness :
  (PrefixCache.evict 3 one_cached).1 = Ok 1 ∧
  wp (PrefixCache.evict 3) (λ freed s', pc_heap s'.1 s'.2 [PagedKVCache.init] ∧
    BlockAllocator.num_free (allocator s'.1) = BlockAllocator.num_free (allocator one_cached.1) + freed)
    never (one_cached.1, one_cached.2).
Proof.
  split; [vm_compute; reflexivity|]. eapply wp_mono.
  - apply (evict_lru one_cached.1 one_cached.2 [PagedKVCache.init] 3). apply one_cached_heap.
  - intros freed s' (H1 & _ & H2 & _). split; assumption.
  - intros e s' H. exact H.
Defined.

(** C17: [ensure_free] terminates and is exact.  Its loop ends within one round per
    entry, never raises, and answers [true] precisely when the free blocks plus the
    evictable cached ones reach the demand; then the demand is met by the free list.
    Live sequences keep their rows. *)
Theorem ensure_free_exact {T} (p : Pool T) c cs n :
  pc_heap p c cs →
  wp (PrefixCache.ensure_free n)
     (λ r s', r = (n <=? BlockAllocator.num_free (allocator p) + length (evictable c (refs_of cs))) ∧
        (r = true → n ≤ BlockAllocator.num_free (allocator s'.1)) ∧
        pc_heap s'.1 s'.2 cs ∧
        (∀ i c' l, cs !! i = Some c' → contents s'.1 c' l = contents p c' l)) never (p, c).
Proof.
  intros HH. rw /PrefixCache.ensure_free. do 2 wp_step.
  eapply wp_mono; [apply (ensure_free_loop_spec _ n (p, c) (refs_of cs)); [by apply pc_heap_ok|simpl; lia]| |done].
  intros r [p1 c1] (Hok & Hk & _ & _ & -> & Hr & _). split_and!; try done.
  - by eapply pc_ok_heap.
  - intros i c' l _. by apply same_storage_contents.
Qed.

Lemma ensure_free_exact_witness :
  (PrefixCache.ensure_free 2 one_cached).1 = Ok true ∧
  wp (PrefixCache.ensure_free 2)
    (λ r s', r = (2 <=? BlockAllocator.num_free (allocator one_cached.1)
                    + length (evictable one_cached.2 (refs_of [PagedKVCache.init]))))
    never (one_cached.1, one_cached.2).
Proof.
  split; [vm_compute; reflexivity|]. eapply wp_mono.
  - apply (ensure_free_exact one_cached.1 one_cached.2 [PagedKVCache.init] 2). apply one_cached_heap.
  - intros r s' (H & _). exact H.
  - intros e s' H. exact H.
Defined.
