(* ===== verification/Types.v ===== *)
(** * Requests and engine snapshots (engine/types.py)

    Times are rationals; a call that reads the clock takes the reading as its
    [now] argument. *)

From Stdlib Require Import ssreflect QArith Qcanon.
From stdpp Require Import prelude gmap gmultiset strings list.
From S2P Require Import Prelude.

Inductive FinishReason := EOS | LENGTH | CANCELLED | REJECTED | PREEMPTED.

#[export] Instance FinishReason_eq_dec : EqDecision FinishReason.
Proof. solve_decision. Defined.

Record SamplingParams := mkParams {
  max_tokens : Z;
  temperature : Qc;
  top_k : option Z;
  top_p : option Qc;
  ignore_eos : bool;
}.

Definition default_params : SamplingParams := mkParams 128 0%Qc None None false.

Definition greedy (p : SamplingParams) : bool := bool_decide (temperature p = 0%Qc).

Record Request := mkRequest {
  prompt_token_ids : list Z;
  params : SamplingParams;
  request_id : string;
  arrival_time : Qc;
  deadline : option Qc;
  scheduled_time : option Qc;
  first_token_time : option Qc;
  finish_time : option Qc;
  token_times : list Qc;
  output_token_ids : list Z;
  finish_reason : option FinishReason;
  rejection_reason : string;
}.

(** A request as its dataclass constructor leaves it. *)
Definition new_request (prompt : list Z) (p : SamplingParams) (id : string) (arrival : Qc)
    (dl : option Qc) : Request :=
  mkRequest prompt p id arrival dl None None None [] [] None "".

Definition set_scheduled (t : option Qc) (r : Request) : Request :=
  mkRequest (prompt_token_ids r) (params r) (request_id r) (arrival_time r) (deadline r) t
    (first_token_time r) (finish_time r) (token_times r) (output_token_ids r) (finish_reason r)
    (rejection_reason r).
Definition set_output (first : option Qc) (times : list Qc) (out : list Z) (r : Request) : Request :=
  mkRequest (prompt_token_ids r) (params r) (request_id r) (arrival_time r) (deadline r)
    (scheduled_time r) first (finish_time r) times out (finish_reason r) (rejection_reason r).
Definition set_finish (t : option Qc) (fr : option FinishReason) (r : Request) : Request :=
  mkRequest (prompt_token_ids r) (params r) (request_id r) (arrival_time r) (deadline r)
    (scheduled_time r) (first_token_time r) t (token_times r) (output_token_ids r) fr
    (rejection_reason r).
Definition set_rejection (s : string) (r : Request) : Request :=
  mkRequest (prompt_token_ids r) (params r) (request_id r) (arrival_time r) (deadline r)
    (scheduled_time r) (first_token_time r) (finish_time r) (token_times r) (output_token_ids r)
    (finish_reason r) s.

Definition prompt_len (r : Request) : nat := length (prompt_token_ids r).
Definition output_len (r : Request) : nat := length (output_token_ids r).
Definition total_len (r : Request) : nat := prompt_len r + output_len r.
Definition total_len_estimate (r : Request) : Z := Z.of_nat (prompt_len r) + max_tokens (params r).

Definition record_token (token_id : Z) (now : Qc) (r : Request) : Request :=
  let first := match output_token_ids r with [] => Some now | _ => first_token_time r end in
  set_output first (token_times r ++ [now]) (output_token_ids r ++ [token_id]) r.

Definition finish (reason : FinishReason) (now : Qc) (r : Request) : Request :=
  set_finish (Some now) (Some reason) r.

Definition ttft (r : Request) : option Qc := (λ t, (t - arrival_time r)%Qc) <$> first_token_time r.
Definition queue_time (r : Request) : option Qc := (λ t, (t - arrival_time r)%Qc) <$> scheduled_time r.
Definition e2e_latency (r : Request) : option Qc := (λ t, (t - arrival_time r)%Qc) <$> finish_time r.

(** [[b - a for a, b in zip(self.token_times, self.token_times[1:])]]. *)
Definition inter_token_latencies (r : Request) : list Qc :=
  zip_with (λ a b, (b - a)%Qc) (token_times r) (drop 1 (token_times r)).

Definition met_deadline (r : Request) : bool :=
  match finish_reason r with
  | Some EOS | Some LENGTH =>
      match deadline r with
      | None => true
      | Some d => match finish_time r with
                  | Some t => bool_decide (t <= d)%Qc
                  | None => false
                  end
      end
  | _ => false
  end.

Record EngineStats := mkEngineStats {
  timestamp : Qc;
  num_running : nat;
  num_waiting : nat;
  num_finished_ : nat;
  kv_blocks_used : Z;
  kv_blocks_total : Z;
  prefix_cache_hits : nat;
  prefix_cache_queries : nat;
}.

Definition qdiv (a b : Z) : Qc := (Q2Qc (inject_Z a) / Q2Qc (inject_Z b))%Qc.

Definition kv_utilization (s : EngineStats) : Qc :=
  if (kv_blocks_total s =? 0)%Z then 0%Qc else qdiv (kv_blocks_used s) (kv_blocks_total s).
Definition prefix_hit_rate (s : EngineStats) : Qc :=
  if prefix_cache_queries s =? 0 then 0%Qc
  else qdiv (Z.of_nat (prefix_cache_hits s)) (Z.of_nat (prefix_cache_queries s)).

(** * Timelines *)

Definition qsum (l : list Qc) : Qc := foldr Qcplus 0%Qc l.

(** Recorded outputs and timestamps go together. *)
Record timeline (r : Request) : Prop := {
  tl_len : length (token_times r) = length (output_token_ids r);
  tl_first : first_token_time r = head (token_times r);
}.

Lemma record_token_timeline token now r : timeline r → timeline (record_token token now r).
Proof.
  intros [Hl Hf]. split; simpl; [by rw !length_app Hl|].
  destruct (output_token_ids r) as [|x l]; simpl in *.
  - by apply nil_length_inv in Hl as ->.
  - rw Hf. by destruct (token_times r).
Qed.

Lemma gaps_telescope (t : Qc) (l : list Qc) :
  qsum (zip_with (λ a b, (b - a)%Qc) (t :: l) l) = (List.last l t - t)%Qc.
Proof.
  revert t. induction l as [|x l IH]; intros t; [simpl; ring|].
  change (zip_with _ (t :: x :: l) (x :: l)) with ((x - t)%Qc :: zip_with (λ a b, (b - a)%Qc) (x :: l) l).
  cbn [qsum foldr]. rw -/(qsum _) IH. destruct l as [|y l]; [simpl; ring|].
  replace (List.last (x :: y :: l) t) with (List.last (y :: l) x); [ring|].
  change (List.last (x :: y :: l) t) with (List.last (y :: l) t). clear.
  revert y. induction l as [|z l IH]; intros y; [done|]. apply (IH z).
Qed.

(** Feeding a request the tokens [toks], each with its time. *)
Definition record_all (toks : list (Z * Qc)) (r : Request) : Request :=
  foldl (λ r tk, record_token tk.1 tk.2 r) r toks.

Lemma record_all_app toks r :
  token_times (record_all toks r) = token_times r ++ toks.*2 ∧
  output_token_ids (record_all toks r) = output_token_ids r ++ toks.*1 ∧
  arrival_time (record_all toks r) = arrival_time r ∧
  (timeline r → timeline (record_all toks r)).
Proof.
  revert r. induction toks as [|[t n] toks IH]; intros r; [by rw /= !app_nil_r|].
  change (record_all ((t, n) :: toks) r) with (record_all toks (record_token t n r)).
  destruct (IH (record_token t n r)) as (-> & -> & -> & Hm). simpl. rw -!assoc.
  split_and!; try done. intros Ht. by apply Hm, record_token_timeline.
Qed.

(** Time to first token and inter-token latencies partition the stream's
    latency.  For a fresh request that receives tokens one by one, [ttft] plus the sum
    of [inter_token_latencies] is the time from arrival to the last token; there is
    one latency fewer than tokens, and the first token is in none of them. *)
Theorem latency_decomposes prompt p id arrival dl tok now toks :
  let r := record_all ((tok, now) :: toks) (new_request prompt p id arrival dl) in
  output_token_ids r = tok :: toks.*1 ∧
  length (inter_token_latencies r) = length toks ∧
  ∃ f, ttft r = Some f ∧ (f + qsum (inter_token_latencies r) = List.last toks.*2 now - arrival)%Qc.
Proof.
  intros r. destruct (record_all_app ((tok, now) :: toks) (new_request prompt p id arrival dl))
    as (Ht & Ho & Ha & Hm). fold r in Ht, Ho, Ha, Hm. simpl in Ht, Ho, Ha.
  destruct (Hm ltac:(by split)) as [_ Hf]. rw Ht in Hf. split_and!; [done|..].
  - rw /inter_token_latencies Ht length_zip_with skipn_cons drop_0.
    cbn [length]. rw length_fmap. lia.
  - rw /ttft Hf Ha /=. eexists. split; [done|]. rw /inter_token_latencies Ht skipn_cons drop_0 gaps_telescope.
    change (list_fmap (Z * Qc)%type Qc snd toks) with (toks.*2). ring.
Qed.
