(* ===== verification/Rationals.v ===== *)
(** * Linear arithmetic on times and rates

    Times, rates and fractions are canonical rationals.  [qc_lra] decides linear goals
    over them by moving to [Q]; the lemmas give the order facts the statistics need:
    sums, quotients, extrema and means. *)

From Stdlib Require Import ssreflect QArith Qround Qcanon Lqa.
From stdpp Require Import prelude sorting list.
From S2P Require Import Prelude Types.

Lemma this_plus (x y : Qc) : (this (x + y)%Qc == this x + this y)%Q.
Proof. apply Qred_correct. Qed.
Lemma this_opp (x : Qc) : (this (- x)%Qc == - this x)%Q.
Proof. apply Qred_correct. Qed.
Lemma this_minus (x y : Qc) : (this (x - y)%Qc == this x - this y)%Q.
Proof. unfold Qcminus, Qminus. rw this_plus this_opp. reflexivity. Qed.
Lemma this_mult (x y : Qc) : (this (x * y)%Qc == this x * this y)%Q.
Proof. apply Qred_correct. Qed.
Lemma this_Q2Qc (q : Q) : (this (Q2Qc q) == q)%Q.
Proof. apply Qred_correct. Qed.

Lemma qc_eq_iff (x y : Qc) : x = y ↔ (this x == this y)%Q.
Proof. split; [by intros ->|apply Qc_is_canon]. Qed.

Ltac qc_push :=
  repeat first
    [ setoid_rewrite this_plus | setoid_rewrite this_minus | setoid_rewrite this_opp
    | setoid_rewrite this_mult | setoid_rewrite this_Q2Qc ].
Ltac qc_push_in H :=
  repeat first
    [ setoid_rewrite this_plus in H | setoid_rewrite this_minus in H | setoid_rewrite this_opp in H
    | setoid_rewrite this_mult in H | setoid_rewrite this_Q2Qc in H ].

(** Linear arithmetic over [Qc]. *)
Ltac qc_lra :=
  intros;
  repeat match goal with
  | H : (_ ∧ _)%type |- _ => destruct H
  end;
  repeat match goal with
  | H : @eq Qc _ _ |- _ => apply qc_eq_iff in H
  | H : Qcle _ _ |- _ => unfold Qcle in H
  | H : Qclt _ _ |- _ => unfold Qclt in H
  | H : ¬ Qcle _ _ |- _ => apply Qcnot_le_lt in H
  | H : ¬ Qclt _ _ |- _ => apply Qcnot_lt_le in H
  end;
  try apply Qc_is_canon; unfold Qcle, Qclt;
  repeat match goal with
  | H : Qle _ _ |- _ => progress qc_push_in H
  | H : Qlt _ _ |- _ => progress qc_push_in H
  | H : Qeq _ _ |- _ => progress qc_push_in H
  end;
  qc_push; lra.

Definition qc_of_Z (z : Z) : Qc := Q2Qc (inject_Z z).
Definition qc_of_nat (n : nat) : Qc := qc_of_Z (Z.of_nat n).
Definition qc_min (x y : Qc) : Qc := if bool_decide (x <= y)%Qc then x else y.
Definition qc_max (x y : Qc) : Qc := if bool_decide (x <= y)%Qc then y else x.

(** Sum, mean and extrema of an array; the extrema of a non-empty one are given its first element. *)
Definition qmean (l : list Qc) : Qc := (qsum l / qc_of_nat (length l))%Qc.
Definition qmaximum (x : Qc) (l : list Qc) : Qc := foldr qc_max x l.
Definition qminimum (x : Qc) (l : list Qc) : Qc := foldr qc_min x l.

Lemma qc_of_Z_le a b : (qc_of_Z a <= qc_of_Z b)%Qc ↔ (a ≤ b)%Z.
Proof. rw /Qcle /qc_of_Z !this_Q2Qc. by rw -Zle_Qle. Qed.
Lemma qc_of_Z_lt a b : (qc_of_Z a < qc_of_Z b)%Qc ↔ (a < b)%Z.
Proof. rw /Qclt /qc_of_Z !this_Q2Qc. by rw -Zlt_Qlt. Qed.
Lemma qc_of_Z_add a b : qc_of_Z (a + b) = (qc_of_Z a + qc_of_Z b)%Qc.
Proof. rw qc_eq_iff /qc_of_Z this_plus !this_Q2Qc inject_Z_plus. reflexivity. Qed.
Lemma qc_of_Z_inj a b : qc_of_Z a = qc_of_Z b → a = b.
Proof. rw qc_eq_iff /qc_of_Z !this_Q2Qc. apply inject_Z_injective. Qed.

Lemma qc_of_nat_le a b : (qc_of_nat a <= qc_of_nat b)%Qc ↔ a ≤ b.
Proof. rw /qc_of_nat qc_of_Z_le. lia. Qed.
Lemma qc_of_nat_pos a : 0 < a → (0 < qc_of_nat a)%Qc.
Proof. intros Ha. change 0%Qc with (qc_of_Z 0). apply qc_of_Z_lt. lia. Qed.
Lemma qc_of_nat_nonneg a : (0 <= qc_of_nat a)%Qc.
Proof. change 0%Qc with (qc_of_nat 0). apply qc_of_nat_le. lia. Qed.
Lemma qc_of_nat_S n : qc_of_nat (S n) = (1 + qc_of_nat n)%Qc.
Proof. rw /qc_of_nat Nat2Z.inj_succ -Z.add_1_l qc_of_Z_add. done. Qed.

(** Quotients by a positive number. *)
Lemma qc_pos_ne (x : Qc) : (0 < x)%Qc → x ≠ 0%Qc.
Proof. intros Hx ->. by apply (Qclt_not_eq 0 0). Qed.

Lemma qc_div_mul (x y : Qc) : (0 < y)%Qc → (x / y * y = x)%Qc.
Proof. intros Hy. rw Qcmult_comm. by apply Qcmult_div_r, qc_pos_ne. Qed.

Lemma qc_div_self (x : Qc) : (0 < x)%Qc → (x / x = 1)%Qc.
Proof. intros Hx. by apply Qcmult_inv_r, qc_pos_ne. Qed.

Lemma qc_div_le (x y z : Qc) : (0 < z)%Qc → (x <= y)%Qc → (x / z <= y / z)%Qc.
Proof. intros Hz Hxy. apply Qcmult_le_compat_r; [done|]. apply Qclt_le_weak. by apply Qcinv_pos. Qed.

Lemma qc_div_nonneg (x z : Qc) : (0 < z)%Qc → (0 <= x)%Qc → (0 <= x / z)%Qc.
Proof. intros Hz Hx. apply (qc_div_le 0 x z Hz) in Hx. by rw /Qcdiv Qcmult_0_l in Hx. Qed.

(** A quotient below, or at most, a bound. *)
Lemma qc_div_le_iff (x y z : Qc) : (0 < z)%Qc → (x / z <= y)%Qc ↔ (x <= y * z)%Qc.
Proof. intros Hz. rw (Qcmult_le_mono_pos_r _ _ z Hz). by rw qc_div_mul. Qed.

Lemma qc_le_div_iff (x y z : Qc) : (0 < z)%Qc → (y <= x / z)%Qc ↔ (y * z <= x)%Qc.
Proof. intros Hz. rw (Qcmult_le_mono_pos_r _ _ z Hz). by rw qc_div_mul. Qed.

(** A count of some among a positive count of all is a fraction. *)
Lemma qc_fraction (a b : nat) : 0 < b → a ≤ b → (0 <= qc_of_nat a / qc_of_nat b <= 1)%Qc.
Proof.
  intros Hb Hab. pose proof (qc_of_nat_pos b Hb) as Hp. split.
  - apply qc_div_nonneg; [done|apply qc_of_nat_nonneg].
  - apply qc_div_le_iff; [done|]. rw Qcmult_1_l. by apply qc_of_nat_le.
Qed.

Lemma qsum_app l1 l2 : qsum (l1 ++ l2) = (qsum l1 + qsum l2)%Qc.
Proof. induction l1 as [|x l IH]; cbn; [by rw /qsum /= Qcplus_0_l|]. rw /qsum /= -!/(qsum _) IH. ring. Qed.

Lemma qsum_div l (z : Qc) : qsum ((λ x, (x / z)%Qc) <$> l) = (qsum l / z)%Qc.
Proof.
  induction l as [|x l IH]; cbn; [by rw /qsum /= /Qcdiv Qcmult_0_l|].
  rw /qsum /= -!/(qsum _) IH /Qcdiv. ring.
Qed.

Lemma qsum_pos l : l ≠ [] → Forall (λ t, 0 < t)%Qc l → (0 < qsum l)%Qc.
Proof.
  intros Hne H. induction H as [|x l Hx Hl IH]; [done|]. rw /qsum /= -/(qsum l).
  destruct l as [|y l]; [by rw /qsum /= Qcplus_0_r|]. by apply Qcplus_pos_pos; [|apply IH].
Qed.

Lemma qsum_bounds (lo hi : Qc) l : Forall (λ x, lo <= x ∧ x <= hi)%Qc l →
  (lo * qc_of_nat (length l) <= qsum l ∧ qsum l <= hi * qc_of_nat (length l))%Qc.
Proof.
  induction 1 as [|x l [Hlo Hhi] Hl [IH1 IH2]]; cbn [length qsum foldr].
  - change (qc_of_nat 0) with 0%Qc. rw !Qcmult_0_r. split; apply Qcle_refl.
  - rw -/(qsum l) qc_of_nat_S !Qcmult_plus_distr_r !Qcmult_1_r. split; by apply Qcplus_le_compat.
Qed.

Lemma qmean_bounds (lo hi : Qc) l : l ≠ [] → Forall (λ x, lo <= x ∧ x <= hi)%Qc l → (lo <= qmean l ∧ qmean l <= hi)%Qc.
Proof.
  intros Hne Hl. pose proof (qsum_bounds lo hi l Hl) as [H1 H2].
  assert (0 < qc_of_nat (length l))%Qc as Hp by (apply qc_of_nat_pos; destruct l; cbn; [done|lia]).
  rw /qmean qc_le_div_iff // qc_div_le_iff //.
Qed.

Lemma qc_max_spec x y : (x <= qc_max x y ∧ y <= qc_max x y)%Qc ∧ (qc_max x y = x ∨ qc_max x y = y).
Proof. rw /qc_max. case_bool_decide as H; split; [|by right| |by left]; split; try done; try apply Qcle_refl. apply Qclt_le_weak. by apply Qcnot_le_lt. Qed.
Lemma qc_min_spec x y : (qc_min x y <= x ∧ qc_min x y <= y)%Qc ∧ (qc_min x y = x ∨ qc_min x y = y).
Proof. rw /qc_min. case_bool_decide as H; split; [|by left| |by right]; split; try done; try apply Qcle_refl. apply Qclt_le_weak. by apply Qcnot_le_lt. Qed.

Lemma qmaximum_spec x l : Forall (λ y, y <= qmaximum x l)%Qc (x :: l) ∧ qmaximum x l ∈ x :: l.
Proof.
  induction l as [|y l [IH1 IH2]]; cbn [qmaximum foldr]; [split; [repeat constructor; apply Qcle_refl|by left]|].
  fold (qmaximum x l). destruct (qc_max_spec y (qmaximum x l)) as [[H1 H2] Hor]. split.
  - apply Forall_cons in IH1 as [Hx Hl]. repeat constructor; [exact (Qcle_trans _ _ _ Hx H2)|done|]. eapply Forall_impl; [exact Hl|]. intros z Hz. exact (Qcle_trans _ _ _ Hz H2).
  - destruct Hor as [->| ->]; [right; by left|]. apply elem_of_cons in IH2 as [->|Hin]; [by left|right; by right].
Qed.

Lemma qminimum_spec x l : Forall (λ y, qminimum x l <= y)%Qc (x :: l) ∧ qminimum x l ∈ x :: l.
Proof.
  induction l as [|y l [IH1 IH2]]; cbn [qminimum foldr]; [split; [repeat constructor; apply Qcle_refl|by left]|].
  fold (qminimum x l). destruct (qc_min_spec y (qminimum x l)) as [[H1 H2] Hor]. split.
  - apply Forall_cons in IH1 as [Hx Hl]. repeat constructor; [exact (Qcle_trans _ _ _ H2 Hx)|done|]. eapply Forall_impl; [exact Hl|]. intros z Hz. exact (Qcle_trans _ _ _ H2 Hz).
  - destruct Hor as [->| ->]; [right; by left|]. apply elem_of_cons in IH2 as [->|Hin]; [by left|right; by right].
Qed.

Lemma qmean_between x l : (qminimum x l <= qmean (x :: l) ∧ qmean (x :: l) <= qmaximum x l)%Qc.
Proof.
  apply qmean_bounds; [done|]. destruct (qmaximum_spec x l) as [H1 _], (qminimum_spec x l) as [H2 _].
  rw Forall_forall in H1; rw Forall_forall in H2. apply Forall_forall. intros z Hz. split; [by apply H2|by apply H1].
Qed.

(** Python's [round(x, digits)]: to the nearest multiple of [10 ** -digits], ties to the
    even one. *)
Definition round_half_even (x : Q) : Z :=
  let f := Qfloor x in
  match (x - inject_Z f ?= 1 # 2)%Q with
  | Lt => f
  | Gt => (f + 1)%Z
  | Eq => if Z.even f then f else (f + 1)%Z
  end.
Definition py_round (x : Qc) (digits : nat) : Qc :=
  let scale := inject_Z (10 ^ Z.of_nat digits) in
  Q2Qc (inject_Z (round_half_even (this x * scale)) / scale).

Lemma round_half_even_near (x : Q) : (inject_Z (round_half_even x) - (1 # 2) <= x <= inject_Z (round_half_even x) + (1 # 2))%Q.
Proof.
  rw /round_half_even. set (f := Qfloor x). pose proof (Qfloor_le x) as Hlo. pose proof (Qlt_floor x) as Hhi. fold f in Hlo, Hhi.
  rw inject_Z_plus in Hhi. change (inject_Z 1) with 1%Q in Hhi.
  assert (inject_Z (f + 1) == inject_Z f + 1)%Q as Hs by (rw inject_Z_plus; reflexivity).
  destruct (x - inject_Z f ?= 1 # 2)%Q eqn:Hc.
  - apply Qeq_alt in Hc. destruct (Z.even f); rw ?Hs; lra.
  - apply Qlt_alt in Hc. lra.
  - apply Qgt_alt in Hc. rw Hs. lra.
Qed.

(** Half-even rounding of an integer is that integer, and it never leaves an integer interval. *)
Lemma round_half_even_Z (z : Z) : round_half_even (inject_Z z) = z.
Proof. rw /round_half_even Qfloor_Z. assert (inject_Z z - inject_Z z == 0)%Q as -> by ring. done. Qed.

Lemma round_half_even_bounds (x : Q) (a b : Z) : (inject_Z a <= x <= inject_Z b)%Q → (a ≤ round_half_even x ≤ b)%Z.
Proof.
  intros [Ha Hb]. pose proof (round_half_even_near x) as [H1 H2].
  assert (inject_Z a < inject_Z (round_half_even x + 1))%Q as Hl by (rw inject_Z_plus; change (inject_Z 1) with 1%Q; lra).
  assert (inject_Z (round_half_even x) < inject_Z (b + 1))%Q as Hu by (rw inject_Z_plus; change (inject_Z 1) with 1%Q; lra).
  rw -Zlt_Qlt in Hl. rw -Zlt_Qlt in Hu. lia.
Qed.

(** Rounding keeps a fraction a fraction. *)
Lemma py_round_fraction (x : Qc) digits : (0 <= x <= 1)%Qc → (0 <= py_round x digits <= 1)%Qc.
Proof.
  intros [H0 H1]. rw /py_round. set (n := (10 ^ Z.of_nat digits)%Z). assert (0 < n)%Z as Hn by (apply Z.pow_pos_nonneg; lia).
  assert (0 < inject_Z n)%Q as HnQ by (change 0%Q with (inject_Z 0); by rw -Zlt_Qlt).
  unfold Qcle in H0, H1. change (this 0%Qc) with 0%Q in H0. change (this 1%Qc) with 1%Q in H1.
  destruct (round_half_even_bounds (this x * inject_Z n) 0 n) as [Hlo Hhi]; [change (inject_Z 0) with 0%Q; split; nra|].
  unfold Qcle. rw !this_Q2Qc. set (z := round_half_even _) in *. split.
  - apply Qle_shift_div_l; [done|]. change (this 0%Qc) with 0%Q. rw Zle_Qle in Hlo. change (inject_Z 0) with 0%Q in Hlo. lra.
  - apply Qle_shift_div_r; [done|]. rw Zle_Qle in Hhi. change (this 1%Qc) with 1%Q. lra.
Qed.
