(* ===== verification/Admission.v ===== *)
(** * Admission control (engine/admission.py)

    The controller's windows are Python [deque]s with a maximum length; rates and
    times are rationals. *)

From Stdlib Require Import ssreflect QArith Qcanon.
From stdpp Require Import prelude gmap gmultiset strings list.
From S2P Require Import Prelude Types Rationals.

Record AdmissionConfig := mkAdmissionConfig {
  max_queue_depth : option nat;
  enforce_deadlines : bool;
  slack : Qc;
  window : nat;
  initial_step_seconds : Qc;
  min_observations : nat;
}.

Definition default_admission : AdmissionConfig :=
  mkAdmissionConfig (Some 64) true (Q2Qc (125 # 100)) 50 (Q2Qc (2 # 100)) 10.

Record AdmissionStats := mkAdmissionStats {
  offered : nat;
  admitted : nat;
  rejected_queue_full : nat;
  rejected_deadline : nat;
}.

Definition rejected (s : AdmissionStats) : nat := rejected_queue_full s + rejected_deadline s.
Definition rejection_rate (s : AdmissionStats) : Qc :=
  if offered s =? 0 then 0%Qc else qdiv (Z.of_nat (rejected s)) (Z.of_nat (offered s)).

Record AdmissionController := mkController {
  a_cfg : AdmissionConfig;
  a_stats : AdmissionStats;
  _step_times : list Qc;
  _batch_sizes : list Z;
}.

Definition controller_init (cfg : AdmissionConfig) : AdmissionController :=
  mkController cfg (mkAdmissionStats 0 0 0 0) [] [].

(** [d.append(x)] on a [deque(maxlen=m)]: the oldest element falls off. *)
Definition deque_append {A} (m : nat) (x : A) (d : list A) : list A :=
  let d' := d ++ [x] in drop (length d' - m) d'.

Definition record_step (seconds : Qc) (batch_size : Z) (c : AdmissionController) : AdmissionController :=
  if bool_decide (0 < seconds)%Qc then
    mkController (a_cfg c) (a_stats c)
      (deque_append (window (a_cfg c)) seconds (_step_times c))
      (deque_append (window (a_cfg c)) (Z.max 1 batch_size) (_batch_sizes c))
  else c.

Definition seconds_per_step (c : AdmissionController) : Qc :=
  match _step_times c with
  | [] => initial_step_seconds (a_cfg c)
  | _ => (qsum (_step_times c) / Q2Qc (inject_Z (Z.of_nat (length (_step_times c)))))%Qc
  end.

Definition is_warm (c : AdmissionController) : bool :=
  min_observations (a_cfg c) <=? length (_step_times c).

Definition qof (z : Z) : Qc := Q2Qc (inject_Z z).

(** [a / b] on floats. *)
Definition py_div (a b : Qc) : result Qc :=
  if bool_decide (b = 0%Qc) then Raise ZeroDivisionError else Ok (a / b)%Qc.

Definition tokens_per_second (c : AdmissionController) : result Qc :=
  match _step_times c with
  | [] => py_div 1 (initial_step_seconds (a_cfg c))
  | _ =>
      match py_div (qof (foldr Z.add 0%Z (_batch_sizes c))) (qof (Z.of_nat (length (_batch_sizes c)))) with
      | Ok mean_batch => py_div mean_batch (seconds_per_step c)
      | Raise e => Raise e
      end
  end.

Definition qmax (a b : Qc) : Qc := if bool_decide (a < b)%Qc then b else a.

Definition project_finish (req : Request) (queued_tokens running_tokens : Z) (now : Qc)
    (c : AdmissionController) : result Qc :=
  let ahead := (queued_tokens + running_tokens)%Z in
  let own := max_tokens (params req) in
  match tokens_per_second c with
  | Raise e => Raise e
  | Ok tps =>
      let rate := qmax tps (Q2Qc (1 # 1000000)) in
      Ok (now + qof (ahead + own) / rate)%Qc
  end.

Definition set_a_stats (s : AdmissionStats) (c : AdmissionController) : AdmissionController :=
  mkController (a_cfg c) s (_step_times c) (_batch_sizes c).

Definition admit_ (req : Request) (queue_depth : nat) (queued_tokens running_tokens : Z) (now : Qc) :
    M AdmissionController (bool * string) :=
  do* modify (λ c, let s := a_stats c in
        set_a_stats (mkAdmissionStats (S (offered s)) (admitted s) (rejected_queue_full s) (rejected_deadline s)) c) in
  let* c := get in
  let cfg := a_cfg c in
  if (match max_queue_depth cfg with Some d => d <=? queue_depth | None => false end) then
    do* modify (λ c, let s := a_stats c in
          set_a_stats (mkAdmissionStats (offered s) (admitted s) (S (rejected_queue_full s)) (rejected_deadline s)) c) in
    ret (false, "queue_full")
  else
    let warm := min_observations cfg <=? length (_step_times c) in
    let accept :=
      do* modify (λ c, let s := a_stats c in
            set_a_stats (mkAdmissionStats (offered s) (S (admitted s)) (rejected_queue_full s) (rejected_deadline s)) c) in
      ret (true, "") in
    match deadline req with
    | Some dl =>
        if enforce_deadlines cfg && warm then
          match project_finish req queued_tokens running_tokens now c with
          | Raise e => raise e
          | Ok fin =>
              if bool_decide ((dl - now) * slack cfg < fin - now)%Qc then
                do* modify (λ c, let s := a_stats c in
                      set_a_stats (mkAdmissionStats (offered s) (admitted s) (rejected_queue_full s)
                                     (S (rejected_deadline s))) c) in
                ret (false, "deadline_exceeded")
              else accept
          end
        else accept
    | None => accept
    end.

(** * Invariant and decisions *)

Inductive adm_event :=
  | EStep (seconds : Qc) (batch_size : Z)
  | EAdmit (req : Request) (queue_depth : nat) (queued_tokens running_tokens : Z) (now : Qc).

Definition run_event (e : adm_event) (c : AdmissionController) : AdmissionController :=
  match e with
  | EStep s b => record_step s b c
  | EAdmit r d q k n => (admit_ r d q k n c).2
  end.

(** Every offer has one outcome; the two windows move together, stay within their
    bound and hold positive values. *)
Record adm_inv (c : AdmissionController) : Prop := {
  ai_offers : offered (a_stats c) = admitted (a_stats c) + rejected (a_stats c);
  ai_windows : length (_step_times c) = length (_batch_sizes c);
  ai_bound : length (_step_times c) ≤ window (a_cfg c);
  ai_times : Forall (λ t, 0 < t)%Qc (_step_times c);
  ai_sizes : Forall (λ b, 1 ≤ b)%Z (_batch_sizes c);
}.

Lemma length_deque_append {A} m (x : A) d : length (deque_append m x d) = S (length d) `min` m.
Proof. rw /deque_append length_drop !length_app. cbn [length]. lia. Qed.

Lemma Forall_deque_append {A} (P : A → Prop) m x d : Forall P d → P x → Forall P (deque_append m x d).
Proof. intros. rw /deque_append. apply Forall_drop, Forall_app. by split; [|constructor]. Qed.

Lemma record_step_inv s b c : adm_inv c → adm_inv (record_step s b c).
Proof.
  intros [H1 H2 H3 H4 H5]. rw /record_step. case_bool_decide as Hs; [|by split].
  split; simpl; [done|by rw !length_deque_append H2|rw length_deque_append; lia|..];
    apply Forall_deque_append; try done; simpl; lia.
Qed.

Lemma qof_pos z : (0 < z)%Z → (0 < qof z)%Qc.
Proof.
  intros Hz. rw /qof /Qclt. cbn [this Q2Qc]. setoid_rewrite Qred_correct. rw /Qlt. simpl. lia.
Qed.

Lemma Qc_pos_ne x : (0 < x)%Qc → x ≠ 0%Qc.
Proof. intros Hx ->. by apply Qclt_nge in Hx. Qed.

(** The measured rate exists once anything has been measured. *)
Lemma tokens_per_second_ok c :
  adm_inv c → initial_step_seconds (a_cfg c) ≠ 0%Qc → ∃ r, tokens_per_second c = Ok r.
Proof.
  intros [_ Hw _ Ht _] Hi. rw /tokens_per_second /seconds_per_step /py_div.
  destruct (_step_times c) as [|t ts] eqn:Hs; [rw bool_decide_false //; eauto|].
  rw bool_decide_false; last first.
  { apply Qc_pos_ne, qof_pos. rw -Hw /=. lia. }
  rw bool_decide_false; [eauto|]. apply Qc_pos_ne. rw /Qcdiv. apply Qcmult_pos_pos.
  - by apply qsum_pos.
  - apply Qcinv_pos, (qof_pos (Z.of_nat (length (t :: ts)))). simpl. lia.
Qed.

(** The three guards of [admit]. *)
Definition queue_full (c : AdmissionController) (queue_depth : nat) : bool :=
  match max_queue_depth (a_cfg c) with Some d => d <=? queue_depth | None => false end.

(** Estimated service time of the request behind the work ahead of it. *)
Definition projected (c : AdmissionController) (rate : Qc) (req : Request) (queued running : Z) : Qc :=
  (qof (queued + running + max_tokens (params req)) / qmax rate (Q2Qc (1 # 1000000)))%Qc.

Definition too_late (c : AdmissionController) (rate : Qc) (req : Request) (queued running : Z) (now : Qc) : bool :=
  match deadline req with
  | Some dl => enforce_deadlines (a_cfg c) && is_warm c
               && bool_decide ((dl - now) * slack (a_cfg c) < projected c rate req queued running)%Qc
  | None => false
  end.

Lemma admit_spec c rate req depth queued running now :
  tokens_per_second c = Ok rate →
  wp (admit_ req depth queued running now)
     (λ r c', r = (if queue_full c depth then (false, "queue_full")
                   else if too_late c rate req queued running now then (false, "deadline_exceeded")
                   else (true, "")) ∧
        a_cfg c' = a_cfg c ∧ _step_times c' = _step_times c ∧ _batch_sizes c' = _batch_sizes c ∧
        offered (a_stats c') = S (offered (a_stats c)) ∧
        admitted (a_stats c') + rejected (a_stats c')
        = S (admitted (a_stats c) + rejected (a_stats c)) ∧
        (admitted (a_stats c') = S (admitted (a_stats c)) ↔ r.1 = true)) never c.
Proof.
  intros Hrate. rw /admit_. do 4 wp_step. cbn. rw -/(queue_full c depth).
  destruct (queue_full c depth).
  { do 3 wp_step. rw /rejected /=. split_and!; try done; lia. }
  rw /too_late. destruct (deadline req) as [dl|]; last first.
  { do 3 wp_step. rw /rejected /=. split_and!; try done; lia. }
  rw -/(is_warm c). destruct (enforce_deadlines (a_cfg c) && is_warm c); simpl; last first.
  { do 3 wp_step. rw /rejected /=. split_and!; try done; lia. }
  rw /project_finish. change (tokens_per_second (set_a_stats _ c)) with (tokens_per_second c). rw Hrate.
  replace (now + qof (queued + running + max_tokens (params req)) / qmax rate (Q2Qc (1 # 1000000)) - now)%Qc
    with (projected c rate req queued running) by (rw /projected; ring).
  case_bool_decide; do 3 wp_step; rw /rejected /=; split_and!; try done; lia.
Qed.

(** Admission control accounts for every offer.  Starting from a fresh
    controller with a non-zero assumed step time, after any interleaving of offers
    and observed steps every offer was either admitted or rejected for one reason,
    the two observation windows have the same bounded length and positive entries,
    and the next offer is decided without raising. *)
Theorem admission_accounts cfg events :
  initial_step_seconds cfg ≠ 0%Qc →
  let c := foldl (λ c e, run_event e c) (controller_init cfg) events in
  adm_inv c ∧ ∀ req d q k now, ∃ r c', admit_ req d q k now c = (Ok r, c').
Proof.
  intros Hi c. assert (adm_inv c ∧ a_cfg c = cfg) as [Hc Hcfg].
  { assert (adm_inv (controller_init cfg) ∧ a_cfg (controller_init cfg) = cfg) as H.
    { split; [|done]. split; simpl; [done|done|lia|constructor|constructor]. }
    subst c. revert H. generalize (controller_init cfg). induction events as [|e es IH]; intros c0 H0; [done|].
    simpl. apply IH. destruct H0 as [H0 <-], e as [s b|r d q k n]; simpl.
    - split; [by apply record_step_inv|]. rw /record_step. by case_bool_decide.
    - destruct (tokens_per_second_ok c0 H0 Hi) as [rate Hr].
      destruct (proj1 (wp_never _ _ _) (admit_spec c0 rate r d q k n Hr)) as (r' & c' & -> & H). simpl.
      destruct H as (_ & Hc & Hs & Hb & Ho & Ha & _), H0 as [H1 H2 H3 H4 H5].
      split; [|done]. split; rw ?Hs ?Hb ?Hc ?Ho //. lia. }
  split; [done|]. intros req d q k now.
  destruct (tokens_per_second_ok c Hc ltac:(by rw Hcfg)) as [rate Hr].
  destruct (proj1 (wp_never _ _ _) (admit_spec c rate req d q k now Hr)) as (r' & c' & ? & _). eauto.
Qed.

Lemma admission_accounts_witness :
  adm_inv (foldl (λ c e, run_event e c) (controller_init default_admission)
    [EStep (Q2Qc (1 # 50)) 4; EAdmit (new_request [1%Z] default_params "r" 0 None) 64 0 0 0]).
Proof.
  apply (admission_accounts default_admission). vm_compute. discriminate.
Defined.

(** ** The rules, from the history *)

(** The controller after a history of steps and offers. *)
Definition after (cfg : AdmissionConfig) (events : list adm_event) : AdmissionController :=
  foldl (λ c e, run_event e c) (controller_init cfg) events.

(** The steps that count: those that took time, the last [window] of them, each with its
    duration and the sequences it advanced. *)
Definition counted (e : adm_event) : option (Qc * Z) :=
  match e with
  | EStep seconds batch => if bool_decide (0 < seconds)%Qc then Some (seconds, Z.max 1 batch) else None
  | EAdmit _ _ _ _ _ => None
  end.
Definition last_n {A} (n : nat) (l : list A) : list A := drop (length l - n) l.
Definition observed (cfg : AdmissionConfig) (events : list adm_event) : list (Qc * Z) :=
  last_n (window cfg) (omap counted events).

(** Tokens per second: all the tokens of the observed steps over all their time, the
    assumed step rate before any; never below a millionth. *)
Definition speed (cfg : AdmissionConfig) (obs : list (Qc * Z)) (r : Qc) : Prop :=
  ∃ r0, r = qmax r0 (Q2Qc (1 # 1000000)) ∧
    match obs with
    | [] => (r0 * initial_step_seconds cfg = 1)%Qc
    | _ => (r0 * qsum obs.*1 = qof (foldr Z.add 0%Z obs.*2))%Qc
    end.

Definition below_cap (cfg : AdmissionConfig) (depth : nat) : Prop := ∀ d, max_queue_depth cfg = Some d → depth < d.
(** The deadline an offer is held to, if any. *)
Definition held_to (cfg : AdmissionConfig) (obs : list (Qc * Z)) (req : Request) (t : Qc) : Prop :=
  deadline req = Some t ∧ enforce_deadlines cfg = true ∧ min_observations cfg ≤ length obs.

(** What becomes of an offer with [work] tokens ahead of its end, and how many it adds to
    the admitted, the refused for the queue and the refused for the deadline. *)
Inductive ruling (cfg : AdmissionConfig) (obs : list (Qc * Z)) (req : Request) (depth : nat) (work : Z) (now : Qc) :
    result (bool * string) → nat * nat * nat → Prop :=
  | ruled_full d : max_queue_depth cfg = Some d → d ≤ depth →
      ruling cfg obs req depth work now (Ok (false, "queue_full")) (0, 1, 0)
  | ruled_late t r : below_cap cfg depth → held_to cfg obs req t → speed cfg obs r →
      ((t - now) * slack cfg * r < qof work)%Qc →
      ruling cfg obs req depth work now (Ok (false, "deadline_exceeded")) (0, 0, 1)
  | ruled_in_time t r : below_cap cfg depth → held_to cfg obs req t → speed cfg obs r →
      (qof work <= (t - now) * slack cfg * r)%Qc →
      ruling cfg obs req depth work now (Ok (true, "")) (1, 0, 0)
  | ruled_free : below_cap cfg depth → (∀ t, ¬ held_to cfg obs req t) →
      ruling cfg obs req depth work now (Ok (true, "")) (1, 0, 0)
  | ruled_fault t : below_cap cfg depth → held_to cfg obs req t → obs = [] → initial_step_seconds cfg = 0%Qc →
      ruling cfg obs req depth work now (Raise ZeroDivisionError) (0, 0, 0).

(** The counters after an offer. *)
Definition tally (k : nat * nat * nat) (c : AdmissionController) : AdmissionController :=
  let s := a_stats c in
  set_a_stats (mkAdmissionStats (S (offered s)) (k.1.1 + admitted s) (k.1.2 + rejected_queue_full s) (k.2 + rejected_deadline s)) c.

Lemma last_n_snoc {A} n (l : list A) x : deque_append n x (last_n n l) = last_n n (l ++ [x]).
Proof.
  rw /deque_append /last_n. rw -drop_app_le; [|lia]. rw drop_drop length_drop length_app /=. f_equal. lia.
Qed.

Lemma last_n_fmap {A B} (f : A → B) n l : f <$> last_n n l = last_n n (f <$> l).
Proof. by rw /last_n fmap_drop length_fmap. Qed.

Lemma after_snoc cfg events e : after cfg (events ++ [e]) = run_event e (after cfg events).
Proof. by rw /after foldl_app. Qed.

Lemma admit_keeps req d q k n c :
  let c' := (admit_ req d q k n c).2 in
  a_cfg c' = a_cfg c ∧ _step_times c' = _step_times c ∧ _batch_sizes c' = _batch_sizes c.
Proof.
  intros c'. subst c'. rw /admit_ /bind /modify /get /ret /raise /=. destruct (match max_queue_depth (a_cfg c) with Some _ => _ | None => _ end); [done|].
  destruct (deadline req); [|done]. destruct (_ && _); [|done]. destruct (project_finish _ _ _ _ _); [|done]. by case_bool_decide.
Qed.

(** The controller's two windows are the observed steps. *)
Lemma after_windows cfg events :
  a_cfg (after cfg events) = cfg ∧ _step_times (after cfg events) = (observed cfg events).*1 ∧
  _batch_sizes (after cfg events) = (observed cfg events).*2.
Proof.
  rw /observed. induction events as [|e events IH] using rev_ind; [done|].
  destruct IH as (Hc & Ht & Hb). rw after_snoc omap_app !last_n_fmap. destruct e as [seconds batch|req d q k n]; simpl.
  - rw /record_step. case_bool_decide as Hs; simpl.
    + rw !fmap_app /= -!last_n_snoc -!last_n_fmap -Ht -Hb Hc. done.
    + rw app_nil_r -!last_n_fmap. done.
  - rw app_nil_r -!last_n_fmap. destruct (admit_keeps req d q k n (after cfg events)) as (-> & -> & ->). done.
Qed.

Lemma observed_pos cfg events : Forall (λ o, 0 < o.1)%Qc (observed cfg events).
Proof.
  apply Forall_drop, Forall_forall. intros o (e & _ & He)%list_elem_of_omap. destruct e; simpl in He; [|done].
  case_bool_decide; [|done]. by injection He as <-.
Qed.

Lemma qmax_pos x y : (0 < y)%Qc → (0 < qmax x y)%Qc.
Proof. intros Hy. rw /qmax. case_bool_decide as H; [done|]. apply Qcnot_lt_le in H. by eapply Qclt_le_trans. Qed.

(** The measured rate is the one of the specification, or there is none. *)
Lemma tokens_per_second_speed cfg obs c :
  a_cfg c = cfg → _step_times c = obs.*1 → _batch_sizes c = obs.*2 → Forall (λ o, 0 < o.1)%Qc obs →
  match tokens_per_second c with
  | Ok r0 => speed cfg obs (qmax r0 (Q2Qc (1 # 1000000)))
  | Raise e => e = ZeroDivisionError ∧ obs = [] ∧ initial_step_seconds cfg = 0%Qc
  end.
Proof.
  intros <- Ht Hb Hpos. rw /tokens_per_second /seconds_per_step Ht Hb /py_div. destruct obs as [|o obs]; simpl.
  { case_bool_decide as Hi; [done|]. eexists. split; [done|]. by field. }
  set (n := qof (Z.of_nat (length (o :: obs).*2))).
  assert (0 < n)%Qc as Hn by (apply qof_pos; rw length_fmap /=; lia).
  assert (0 < qsum (o :: obs).*1)%Qc as Hsum by (apply qsum_pos; [done|by apply Forall_fmap]).
  assert (qof (Z.of_nat (length (o :: obs).*1)) = n) as Hn1 by by rw /n !length_fmap.
  cbn [fmap list_fmap length] in Hn1. rw /qof in Hn1. cbn [fmap list_fmap length] in n. fold n. rw Hn1.
  rw bool_decide_false; [|by apply Qc_pos_ne]. rw bool_decide_false.
  - eexists. split; [done|]. set (t := qsum (o :: obs).*1) in Hsum. set (b := qof (foldr Z.add 0%Z (o :: obs).*2)).
    change ((b / n / (t / n) * t)%Qc = b). clearbody t b n. field. split; by apply Qc_pos_ne.
  - apply Qc_pos_ne. change (o.1 :: _) with (o :: obs).*1. rw /Qcdiv. apply Qcmult_pos_pos; [done|]. by apply Qcinv_pos.
Qed.

Lemma late_iff (work lim r : Qc) : (0 < r)%Qc → (lim < work / r)%Qc ↔ (lim * r < work)%Qc.
Proof.
  intros Hr. pose proof (qc_div_le_iff work lim r Hr) as H. split; intros Hlt; apply Qcnot_le_lt; intros Hle; apply H in Hle; by apply Qclt_not_le in Hlt.
Qed.
Lemma speed_unique cfg obs r r' : Forall (λ o, 0 < o.1)%Qc obs → speed cfg obs r → speed cfg obs r' → r = r'.
Proof.
  intros Hpos (a & -> & Ha) (b & -> & Hb). f_equal.
  assert (∀ x y : Qc, (a * x = y)%Qc → (b * x = y)%Qc → x ≠ 0%Qc → a = b) as Hinj.
  { intros x y H1 H2 Hx. assert (a * x * / x = b * x * / x)%Qc as H by by rw H1 H2.
    by rw -!Qcmult_assoc Qcmult_inv_r // !Qcmult_1_r in H. }
  destruct obs as [|o obs].
  - eapply Hinj; [done|done|]. intros H0. rw H0 Qcmult_0_r in Ha. done.
  - eapply Hinj; [done|done|]. apply Qc_pos_ne, qsum_pos; [done|]. by apply Forall_fmap.
Qed.

Lemma speed_none cfg r : initial_step_seconds cfg = 0%Qc → ¬ speed cfg [] r.
Proof. intros H0 (a & _ & Ha). rw H0 Qcmult_0_r in Ha. done. Qed.

(** At most one rule applies, with one outcome. *)
Lemma ruling_unique cfg obs req depth work now res k res' k' : Forall (λ o, 0 < o.1)%Qc obs →
  ruling cfg obs req depth work now res k → ruling cfg obs req depth work now res' k' → res' = res ∧ k' = k.
Proof.
  intros Hpos H1 H2.
  assert (∀ d, max_queue_depth cfg = Some d → d ≤ depth → below_cap cfg depth → False) as Hcap.
  { intros d Hd Hle Hb. apply Hb in Hd. lia. }
  assert (∀ t t', held_to cfg obs req t → held_to cfg obs req t' → t = t') as Hdl by (intros t t' [? _] [? _]; congruence).
  destruct H1, H2; try done; try (exfalso; by eapply Hcap); try (by exfalso; naive_solver);
    try (by subst; exfalso; eapply speed_none);
    repeat match goal with
    | Ha : held_to _ _ _ ?t, Hb : held_to _ _ _ ?t' |- _ => pose proof (Hdl _ _ Ha Hb); subst t'; clear Hb
    | Ha : speed _ _ ?r, Hb : speed _ _ ?r' |- _ => pose proof (speed_unique _ _ _ _ Hpos Ha Hb); subst r'; clear Hb
    end; try done; exfalso; by eapply Qclt_not_le.
Qed.

(** C22: the admission decision is exact.  After any history of steps and offers, an offer
    has exactly one ruling and [admit] gives it: ["queue_full"] when the queue is at its
    cap; otherwise ["deadline_exceeded"] when the request has a deadline, deadlines are
    enforced, enough steps were observed, and the tokens ahead of the end of the request
    exceed what the observed speed (the tokens of the last steps over their total time)
    does in the remaining time scaled by the slack; otherwise it is admitted.  An offer
    that has to be projected raises exactly when no step was observed and the assumed step
    time is zero.  The counters move by the offer and by the one outcome, and nothing else
    of the controller changes. *)
Theorem admit_exact cfg events req depth queued running now :
  let c := after cfg events in
  let rules := ruling cfg (observed cfg events) req depth (queued + running + max_tokens (params req)) now in
  ∃ res k, admit_ req depth queued running now c = (res, tally k c) ∧ rules res k ∧
    ∀ res' k', rules res' k' → res' = res ∧ k' = k.
Proof.
  intros c rules. destruct (after_windows cfg events) as (Hcfg & Ht & Hb). pose proof (observed_pos cfg events) as Hpos.
  subst c rules. set (obs := observed cfg events) in *. set (c := after cfg events) in *. set (work := (_ + _)%Z).
  assert (∃ res k, admit_ req depth queued running now c = (res, tally k c) ∧ ruling cfg obs req depth work now res k)
    as (res & k & H1 & H2); [|exists res, k; split_and!; [done|done|intros res' k' H; by eapply ruling_unique]].
  pose proof (tokens_per_second_speed cfg obs c Hcfg Ht Hb Hpos) as Hrate.
  rw /admit_ /bind /modify /get /ret /raise. cbn [a_cfg set_a_stats _step_times]. rw Hcfg Ht length_fmap.
  destruct (match max_queue_depth cfg with Some d => d <=? depth | None => false end) eqn:Hfull.
  { exists (Ok (false, "queue_full")), (0, 1, 0). split; [done|]. destruct (max_queue_depth cfg) as [d|] eqn:Hd; [|done].
    eapply ruled_full; [done|]. by apply Nat.leb_le. }
  assert (below_cap cfg depth) as Hcap by (intros d Hd; rw Hd in Hfull; by apply Nat.leb_gt).
  destruct (deadline req) as [t|] eqn:Hdl; last first.
  { exists (Ok (true, "")), (1, 0, 0). split; [done|]. apply ruled_free; [done|]. by intros t [Hx _]; congruence. }
  destruct (enforce_deadlines cfg && (min_observations cfg <=? length obs)) eqn:Hgate; last first.
  { exists (Ok (true, "")), (1, 0, 0). split; [done|]. apply ruled_free; [done|]. intros t' (_ & He & Hm).
    rw He in Hgate. apply Nat.leb_le in Hm. by rw Hm in Hgate. }
  apply andb_prop in Hgate as [He Hm]. apply Nat.leb_le in Hm. assert (held_to cfg obs req t) as Hheld by done.
  rw /project_finish. change (tokens_per_second (set_a_stats _ c)) with (tokens_per_second c).
  destruct (tokens_per_second c) as [r0|e]; last first.
  { destruct Hrate as (-> & Ho & Hi). exists (Raise ZeroDivisionError), (0, 0, 0). split; [done|]. by eapply ruled_fault. }
  set (r := qmax r0 _) in *. assert (0 < r)%Qc as Hr by (apply qmax_pos; vm_compute; reflexivity).
  replace (now + qof (queued + running + max_tokens (params req)) / r - now)%Qc with (qof work / r)%Qc by (subst work; ring).
  case_bool_decide as Hlate.
  - exists (Ok (false, "deadline_exceeded")), (0, 0, 1). split; [done|]. eapply ruled_late; [done|done|done|]. by apply late_iff.
  - exists (Ok (true, "")), (1, 0, 0). split; [done|]. eapply ruled_in_time; [done|done|done|]. apply Qcnot_lt_le. intros H.
    by apply Hlate, late_iff.
Qed.

(** Four observed steps of a second that advanced two sequences each: ten tokens take five
    seconds, so that a deadline in four is refused and one in six is not. *)
Example admit_by_speed :
  let cfg := mkAdmissionConfig None true 1 4 1 3 in
  let steps := replicate 4 (EStep 1 2) in
  let req t := new_request [1%Z] (mkParams 10 0 None None false) "r" 0 (Some (qof t)) in
  (admit_ (req 4%Z) 0 0 0 0 (after cfg steps)).1 = Ok (false, "deadline_exceeded") ∧
  (admit_ (req 6%Z) 0 0 0 0 (after cfg steps)).1 = Ok (true, "") ∧
  (admit_ (req 4%Z) 0 0 0 0 (after cfg [])).1 = Ok (true, "").
Proof. vm_compute. done. Qed.

(** The slack widens the deadline, it does not scale the projection: with slack 2, a
    request projected to take 3 seconds and due in 2 is admitted, although twice the
    projection is past the deadline. *)
Example slack_scales_deadline :
  let cfg := mkAdmissionConfig None true (qof 2) 4 1 0 in
  let req := new_request [1%Z] (mkParams 3 0 None None false) "r" 0 (Some (qof 2)) in
  (admit_ req 0 0 0 0 (controller_init cfg)).1 = Ok (true, "").
Proof. vm_compute. reflexivity. Qed.
