(* ===== verification/Batch.v ===== *)
(** * One decode pass over a batch (engine/scheduler.py, BatchedPagedCache)

    [BatchedPagedCache] grows every sequence of the batch by one token, scatters
    one row per sequence and layer and gathers every sequence padded to the batch
    maximum; the mask removes the padding.  The batched forward is the transformer
    over a batch of single positions, each element attending to its own rows. *)

From Stdlib Require Import ssreflect.
From stdpp Require Import prelude gmap gmultiset strings list.
From S2P Require Import Prelude BlockManager KvCache Transformer.

Section batch.
Context {T : Type}.

(** The pool and the caches of the batch's sequences, in batch order. *)
Definition BSt : Type := Pool T * list Cache.

Record Prepared := mkPrepared {
  write_slots : list nat;
  read_index : list (list nat);
  bmask : list (list bool);
}.

(** Running a method of the [i]-th cache. *)
Definition on_seq {A} (i : nat) (m : M (PC T) A) : M BSt A := λ s,
  match s.2 !! i with
  | None => (Raise IndexError, s)
  | Some c => match m (s.1, c) with
              | (r, (p, c')) => (r, (p, <[i := c']> s.2))
              end
  end.

(** Phase one: count the blocks the whole batch needs. *)
Fixpoint count_need (cs : list Cache) : M BSt nat :=
  match cs with
  | [] => ret 0
  | cache :: cs =>
      let* (p, _) := get in
      let bs := block_size p in
      let* one :=
        (if num_tokens cache mod bs =? 0 then ret 1
         else match last (block_table cache) with
              | None => ret 0
              | Some tail =>
                  let* r := zoom fst (λ p s, (p, s.2)) (on_allocator (BlockAllocator.ref_count tail)) in
                  ret (if 1 <? r then 1 else 0)
              end) in
      let* rest := count_need cs in
      ret (one + rest)
  end.

(** Phase two, one sequence: grow and return the slot of its new token. *)
Definition grow_one : M (PC T) nat :=
  let* (p, c) := get in
  let bs := block_size p in
  do* (if negb (num_tokens c mod bs =? 0) then PagedKVCache._unshare_tail else ret tt) in
  do* PagedKVCache._ensure_capacity 1 in
  let* (_, c) := get in
  let pos := num_tokens c in
  do* on_cache (modify (set_num_tokens (pos + 1))) in
  match block_table c !! (pos / bs) with
  | Some b => ret (b * bs + pos mod bs)
  | None => raise IndexError
  end.

Definition max_list_nat (l : list nat) : nat := foldr Nat.max 0 l.

(** [pad_sequence(rows, batch_first=True, padding_value=0)]. *)
Definition pad_rows (rows : list (list nat)) : list (list nat) :=
  let m := max_list_nat (length <$> rows) in
  (λ r, r ++ replicate (m - length r) 0) <$> rows.

Definition prepare : M BSt Prepared :=
  let* (_, cs) := get in
  let* need := count_need cs in
  let* (p, _) := get in
  if BlockAllocator.num_free (allocator p) <? need then raise OutOfBlocks
  else
    let* write := for_list (seq 0 (length cs)) (λ i, on_seq i grow_one) in
    let* (_, cs) := get in
    let lengths := num_tokens <$> cs in
    let max_len := max_list_nat lengths in
    let read := pad_rows ((λ c, take (num_tokens c) (_slots c)) <$> cs) in
    let mask := (λ len, (λ j, j <? len) <$> seq 0 max_len) <$> lengths in
    ret (mkPrepared write read mask).

(** [pool.k[layer][read_index]], one row list per sequence. *)
Definition gather_rows (buf : list (list T)) (layer : nat) (idx : list (list nat)) : M (Pool T) (list (list T)) :=
  for_list idx (λ row, gather buf layer row).

(** One scatter and one gather for the whole batch. *)
Definition scatter_gather (b : Prepared) (layer_idx : nat) (k v : list T) :
    M (Pool T) (list (list T) * list (list T)) :=
  do* assign_k (λ buf, layer_update buf layer_idx (λ t, index_assign t (write_slots b) k)) in
  do* assign_v (λ buf, layer_update buf layer_idx (λ t, index_assign t (write_slots b) v)) in
  let* p := get in
  let* kk := gather_rows (pool_k p) layer_idx (read_index b) in
  let* vv := gather_rows (pool_v p) layer_idx (read_index b) in
  ret (kk, vv).

(** The batch object: what it refers to, and its tensors once [_prepared]. *)
Definition BC : Type := BSt * option Prepared.
Definition on_bst {A} (m : M BSt A) : M BC A := zoom fst (λ s b, (s, b.2)) m.
Definition prepare_batch : M BC unit := let* b := on_bst prepare in modify (λ s, (s.1, Some b)).

(** [update].  Without tensors there is nothing to index with; the layers below the
    first rely on the first having prepared. *)
Definition batch_update (layer_idx : nat) (k v : list T) : M BC (list (list T) * list (list T)) :=
  let* s := get in
  do* match s.2 with None => if layer_idx =? 0 then prepare_batch else ret tt | Some _ => ret tt end in
  let* s := get in
  match s.2 with
  | None => raise RuntimeError
  | Some b => on_bst (zoom fst (λ p s, (p, s.2)) (scatter_gather b layer_idx k v))
  end.

(** [len(cache)]. *)
Definition batch_len (s : BC) : nat := max_list_nat (num_tokens <$> s.1.2).

(** [cache_mask(cache)] prepares the batch before the model runs. *)
Definition cache_mask : M BC (option (list (list bool))) :=
  let* s := get in
  do* match s.2 with None => prepare_batch | Some _ => ret tt end in
  gets (λ s, bmask <$> s.2).

(** [cache = BatchedPagedCache(self.pool, batch)], used by [m] and dropped. *)
Definition with_batch {A} (m : M BC A) : M BSt A := λ s,
  match m (s, None) with (r, (s, _)) => (r, s) end.
End batch.

(** Token ids as indices of the embedding table. *)
Definition to_index (t : Z) : option nat := if (t <? 0)%Z then None else Some (Z.to_nat t).
Definition to_indices (ids : list Z) : result (list nat) :=
  match mapM to_index ids with Some l => Ok l | None => Raise IndexError end.

(** ** The model over a batch of single positions *)

Section forward.
Context {R : Type} `{Torch R}.
#[local] Notation "'Vec'" := (list R).
Context (sdpa : list (list Vec) → list (list Vec) → list (list Vec) →
                option (list (list bool)) → bool → list (list Vec)).

(** [F.scaled_dot_product_attention] treats batch elements independently: element
    [i] has one query, its own keys and values and its own mask row. *)
Definition sdpa_batch (q : list (list Vec)) (k v : list (list (list Vec))) (attn_mask : option (list (list bool))) :
    list (list Vec) :=
  let rows := match attn_mask with Some mask => (λ m, Some [m]) <$> mask | None => replicate (length q) None end in
  zip_with (λ q '(k, v, m), default [] (sdpa [q] k v m false !! 0)) q (zip (zip k v) rows).

Definition attention_batch (m : Attention) (layer_idx : nat) (x : list Vec) (cs : list (Vec * Vec))
    (attn_mask : option (list (list bool))) : M (BC (T := list Vec)) (list Vec) :=
  let q := zip_with (q_row m) x cs in
  let k := zip_with (k_row m) x cs in
  let v := v_row m <$> x in
  let* (k, v) := batch_update layer_idx k v in
  let k := (λ r : list (list Vec), repeat_kv (a_n_rep m) <$> r) <$> k in
  let v := (λ r : list (list Vec), repeat_kv (a_n_rep m) <$> r) <$> v in
  let out := sdpa_batch q k v attn_mask in
  ret ((λ o : list Vec, o_proj m (mjoin o)) <$> out).

Definition decoder_batch (m : DecoderLayer) (layer_idx : nat) (x : list Vec) (cs : list (Vec * Vec))
    (attn_mask : option (list (list bool))) : M (BC (T := list Vec)) (list Vec) :=
  let* a := attention_batch (self_attn m) layer_idx (rms_forward (input_layernorm m) <$> x) cs attn_mask in
  let x := zip_with vadd x a in
  ret ((λ r, vadd r (swiglu_forward (mlp m) (rms_forward (post_attention_layernorm m) r))) <$> x).

Fixpoint layers_batch (ls : list DecoderLayer) (layer_idx : nat) (x : list Vec) (cs : list (Vec * Vec))
    (attn_mask : option (list (list bool))) : M (BC (T := list Vec)) (list Vec) :=
  match ls with
  | [] => ret x
  | m :: ls =>
      let* x := decoder_batch m layer_idx x cs attn_mask in
      layers_batch ls (S layer_idx) x cs attn_mask
  end.

(** [self.model(tokens, position_ids, cache, attn_mask)] for [(B, 1)] tokens and
    positions; the result is [logits[:, -1]]. *)
Definition lm_batch (w : NanoForCausalLM) (r : Rotary) (tokens : list Z) (positions : list nat)
    (attn_mask : option (list (list bool))) : M (BC (T := list Vec)) (list Vec) :=
  let* tokens := lift (to_indices tokens) in
  let* x := lift (match index_select (embed_tokens w) tokens with
                  | Some x => Ok x
                  | None => Raise IndexError
                  end) in
  let* cs := lift (rotary_forward positions r) in
  let cs := cast_cs <$> cs in
  let* x := layers_batch (layers w) 0 x cs attn_mask in
  ret (lm_head w <$> (rms_forward (final_norm w) <$> x)).

(** The decode pass of [step]: the mask is an argument of the call, so the batch is
    prepared before the model looks at the tokens. *)
Definition forward_batch (w : NanoForCausalLM) (r : Rotary) (tokens : list Z) (positions : list nat) :
    M (BSt (T := list Vec)) (list Vec) :=
  with_batch (let* attn_mask := cache_mask in lm_batch w r tokens positions attn_mask).
End forward.

(** * Preparing a batch *)

Section prepare.
Context {T : Type}.
Implicit Types (p : Pool T) (c : Cache) (s : PC T) (cs : list Cache) (Y Z : gmultiset nat).

(** The sequence in the state [update_begin 1] would leave it in. *)
Definition one_pass s (n : nat) : PC T := (s.1, set_start n s.2).

(** What growing one sequence by one token guarantees. *)
Record grew s Y s' (slot : nat) : Prop := {
  gr_pass : in_pass (one_pass s' (num_tokens s.2)) Y 1;
  gr_shape : same_shape s.1 s'.1;
  gr_rows : rows_keep Y (take (num_tokens s.2) (_slots s.2)) (take (num_tokens s.2) (_slots s'.2)) s.1 s'.1;
  gr_slot : _slots s'.2 !! num_tokens s.2 = Some slot;
  gr_table b : b ∈ Y → multiplicity b (list_to_set_disj (block_table s'.2) : gmultiset nat)
                       ≤ multiplicity b (list_to_set_disj (block_table s.2) : gmultiset nat);
  gr_free : BlockAllocator.num_free (allocator s'.1) + pass_cost s Y 1
            = BlockAllocator.num_free (allocator s.1);
}.

(** The copy-on-write step of [grow_one]. *)
Lemma grow_cow_spec s Y :
  owned s Y → tight s →
  let j := num_tokens s.2 / block_size s.1 in
  let partial := negb (num_tokens s.2 mod block_size s.1 =? 0) in
  wp (if partial then PagedKVCache._unshare_tail else ret tt)
     (λ _ s', owned s' Y ∧ same_shape s.1 s'.1 ∧ num_tokens s'.2 = num_tokens s.2 ∧
        length (block_table s'.2) = length (block_table s.2) ∧ excl_from s' Y j ∧
        rows_keep Y (_slots s.2) (_slots s'.2) s.1 s'.1 ∧
        take j (block_table s'.2) = take j (block_table s.2) ∧
        BlockAllocator.num_free (allocator s'.1) + (if partial && tail_shared s Y then 1 else 0)
        = BlockAllocator.num_free (allocator s.1))
     (λ e s', e = OutOfBlocks ∧ BlockAllocator.num_free (allocator s.1) = 0 ∧
        partial && tail_shared s Y = true) s.
Proof.
  intros HO Ht j partial. pose proof (pwf_bs _ (own_wf _ _ HO)) as Hbs.
  rw /tight ceil_div_eq // -/j in Ht.
  subst partial. destruct (Nat.eqb_spec (num_tokens s.2 mod block_size s.1) 0) as [Hz|Hz]; simpl.
  { wp_step. split_and!; try done; [apply excl_from_end; lia|apply rows_keep_refl]. }
  destruct (block_table s.2) as [|tail tbl _] eqn:Htab using rev_ind; [simpl in Ht; lia|].
  rw length_app /= in Ht.
  eapply wp_mono; [eapply (unshare_tail_spec _ _ tbl tail HO Htab)|..]; simpl.
  - intros _ s' ((HO2 & Hsh & Hnt & Hst & Hlen & Hex & Hrows & Htk) & Hf). simpl in *.
    rw /tail_shared Htab last_snoc -Htab. rw Htab length_app /= in Hlen.
    replace (length (block_table s.2) - 1) with j in Hex, Htk by (rw Htab length_app /=; lia).
    split_and!; try done; by rw ?Htab ?length_app.
  - rw /tail_shared Htab last_snoc -Htab. naive_solver.
Qed.

Lemma grow_one_spec s Y :
  owned s Y → tight s →
  wp grow_one (λ slot s', grew s Y s' slot)
     (λ e s', e = OutOfBlocks ∧ BlockAllocator.num_free (allocator s.1) < pass_cost s Y 1) s.
Proof.
  intros HO Ht. pose proof (pwf_bs _ (own_wf _ _ HO)) as Hbs.
  destruct s as [p c]. rw /grow_one. do 3 wp_step.
  eapply wp_mono; [by apply (grow_cow_spec (p, c))|..].
  2:{ intros e s' (-> & Hf & Hsh). split; [done|]. rw /pass_cost Hsh. simpl. simpl in Hf. lia. }
  intros _ s1 (HO1 & Hsh & Hnt & Hlen & Hex & Hrows & Htk & Hf). simpl in *.
  pose proof Hsh as (Hb & _ & _). wp_step.
  eapply wp_mono; [by apply ensure_capacity_spec|..]; rw Hnt Hlen Hb; last first.
  { intros e s2 (-> & _ & news & _ & Hlt). split; [done|]. rw /pass_cost /=. lia. }
  intros _ s2 (HO2 & news & Hgr & Hln & Hnd & Hfresh & Hf2).
  pose proof Hgr as (Hss & Htab & Hnt2 & _). pose proof Hss as (Hb2 & _).
  do 2 wp_step. destruct s2 as [p2 c2]. simpl in *. rw /on_cache. do 3 wp_step. cbn.
  rw /tight /= in Ht.
  assert (num_tokens c2 = num_tokens c) as Hn2 by congruence. rw Hn2.
  set (bs := block_size p) in *. set (n := num_tokens c) in *.
  assert (length (block_table c2) = ceil_div (n + 1) bs) as Hlen2.
  { rw Htab length_app Hlen Hln Ht. pose proof (ceil_div_le n bs (ceil_div (n + 1) bs) Hbs).
    pose proof (ceil_div_mul_ge (n + 1) bs Hbs). lia. }
  assert (n / bs < length (block_table c2)) as Hidx.
  { rw Hlen2. pose proof (ceil_div_mul_ge (n + 1) bs Hbs). apply Nat.Div0.div_lt_upper_bound. nia. }
  destruct (lookup_lt_is_Some_2 _ _ Hidx) as [b Hbk]. rw Hbk. wp_step.
  assert (excl_from (p2, c2) Y (n / bs)) as Hex2.
  { apply (excl_from_grown s1 (p2, c2) Y news); try done. rw Hlen Ht ceil_div_eq //. destruct (_ =? 0); lia. }
  assert (block_size p2 = bs) as Hbs2 by congruence.
  split; simpl.
  - split_and!; simpl; [by destruct HO2|by rw /tight /= Hlen2 Hbs2|lia|by rw /excl_from /= Hbs2].
  - eapply same_shape_trans; [done|by apply same_storage_shape].
  - eapply rows_keep_same_storage; [|done]. rw (own_slots _ _ HO2) /= Htab slots_of_app Hbs2.
    rw take_app_le; last first. { rw length_slots_of Hlen Ht. by apply ceil_div_mul_ge. }
    replace (slots_of bs (block_table s1.2)) with (_slots s1.2); [by apply rows_keep_take|].
    rw (own_slots _ _ HO1). by rw Hb.
  - rw (own_slots _ _ HO2) /= Hbs2. fold n.
    assert (n < length (slots_of bs (block_table c2))) as Hlt.
    { rw length_slots_of. pose proof (Nat.div_mod_eq n bs). pose proof (Nat.mod_upper_bound n bs ltac:(lia)). nia. }
    destruct (lookup_lt_is_Some_2 _ _ Hlt) as [a Ha]. rw Ha.
    apply slots_of_lookup in Ha as (b' & Hb' & ->); [|done]. by simplify_eq.
  - intros b' Hb'. rw -{1}(take_drop (n / bs) (block_table c2)) list_to_set_disj_app multiplicity_disj_union.
    assert (take (n / bs) (block_table c2) = take (n / bs) (block_table c)) as ->.
    { rw Htab take_app_le //. rw Hlen Ht ceil_div_eq //. destruct (_ =? 0); lia. }
    rw (proj1 (not_elem_of_multiplicity b' (list_to_set_disj (drop (n / bs) (block_table c2))))).
    + rw -{2}(take_drop (n / bs) (block_table c)) list_to_set_disj_app multiplicity_disj_union. lia.
    + rw elem_of_list_to_set_disj. intros (j & Hj)%list_elem_of_lookup. rw lookup_drop in Hj.
      pose proof (Hex2 _ _ (Nat.le_add_r _ _) Hj) as Hm. rw multiplicity_disj_union in Hm. simpl in Hm.
      assert (0 < multiplicity b' (list_to_set_disj (block_table c2) : gmultiset nat)).
      { apply elem_of_multiplicity, elem_of_list_to_set_disj. by eapply list_elem_of_lookup_2. }
      pose proof (proj1 (elem_of_multiplicity b' Y) Hb'). simpl in *. lia.
  - rw /pass_cost. subst bs n. simpl in *. lia.
Qed.

(** Blocks one sequence needs for its next token, [X] being all references. *)
Definition unit_cost p (X : gmultiset nat) c : nat :=
  if num_tokens c mod block_size p =? 0 then 1
  else match last (block_table c) with
       | None => 0
       | Some tail => if 1 <? multiplicity tail X then 1 else 0
       end.

Lemma refs_total cs i c Z :
  cs !! i = Some c → list_to_set_disj (block_table c) ⊎ others cs i Z = refs_of cs ⊎ Z.
Proof. intros Hi. by rw /others assoc -(refs_of_delete _ _ _ Hi). Qed.

Lemma pass_cost_unit p cs Z i c :
  heap p cs Z → cs !! i = Some c →
  pass_cost (p, c) (others cs i Z) 1 = unit_cost p (refs_of cs ⊎ Z) c.
Proof.
  intros HH Hi. destruct (heap_owned _ _ _ _ _ HH Hi) as [HO Ht].
  pose proof (pwf_bs _ (heap_wf _ _ _ HH)) as Hbs. rw /tight /= in Ht.
  rw /pass_cost /unit_cost /tail_shared /= Ht (refs_total _ _ _ _ Hi).
  set (n := num_tokens c). set (bs := block_size p) in *.
  pose proof (Nat.div_mod_eq n bs). pose proof (Nat.mod_upper_bound n bs ltac:(lia)).
  rw (ceil_div_eq n) //. destruct (Nat.eqb_spec (n mod bs) 0) as [Hz|Hz]; simpl.
  - rw (ceil_div_unique (n + 1) bs (S (n / bs))) //; nia.
  - rw (ceil_div_unique (n + 1) bs (S (n / bs))) //; [|nia|nia]. rw Nat.sub_diag Nat.add_0_r.
    destruct (last (block_table c)) as [tail|]; [|done].
    destruct (Nat.ltb_spec 1 (multiplicity tail (refs_of cs ⊎ Z))); [by rw bool_decide_true|].
    rw bool_decide_false //. lia.
Qed.

Lemma count_need_spec cs : ∀ (s : BSt) X,
  accounted (allocator s.1) X → (∀ c, c ∈ cs → (list_to_set_disj (block_table c) : gmultiset nat) ⊆ X) →
  wp (count_need cs) (λ n (s' : BSt), s' = s ∧ n = sum_list_with (unit_cost s.1 X) cs) never s.
Proof.
  induction cs as [|c cs IH]; intros s X HA Hcs; cbn [count_need]; [by wp_step|].
  do 2 wp_step. destruct s as [p cs0]. simpl in *.
  assert (wp (count_need cs) (λ n (s' : BSt), s' = (p, cs0) ∧ n = sum_list_with (unit_cost p X) cs) never (p, cs0)) as Hrest.
  { apply (IH (p, cs0) X); [done|]. intros ??. apply Hcs. by right. }
  wp_step. destruct (num_tokens c mod block_size p =? 0) eqn:Hm.
  { wp_step. wp_step. eapply wp_mono; [exact Hrest| |done]. intros n s' [-> ->]. wp_step. by rw /unit_cost /= Hm. }
  destruct (last (block_table c)) as [tail|] eqn:Hl; last first.
  { wp_step. wp_step. eapply wp_mono; [exact Hrest| |done]. intros n s' [-> ->]. wp_step. by rw /unit_cost /= Hm Hl. }
  wp_step. wp_step. rw /on_allocator. wp_step. rw /BlockAllocator.ref_count. eapply get_ref_spec; [done|..].
  { eapply gmultiset_elem_of_subseteq; [|apply Hcs; by left]. apply elem_of_list_to_set_disj.
    apply last_Some_elem_of in Hl. done. }
  simpl. replace (set_allocator (allocator p) p) with p by (by destruct p).
  wp_step. wp_step. eapply wp_mono; [exact Hrest| |done]. intros n s' [-> ->]. wp_step. by rw /unit_cost /= Hm Hl.
Qed.

(** Sequence [j] has been grown: its last token's slot is exclusively its own. *)
Definition seq_ready p cs Z j c : Prop :=
  1 ≤ num_tokens c ∧ in_pass (p, set_start (num_tokens c - 1) c) (others cs j Z) 1.

(** One sequence grown inside the heap. *)
Record step_ok p cs Z i c p' c' slot : Prop := {
  st_heap : heap p' (<[i := c']> cs) Z;
  st_shape : same_shape p p';
  st_foreign : rows_keep Z [] [] p p';
  st_tokens : num_tokens c' = num_tokens c + 1;
  st_ready : seq_ready p' (<[i := c']> cs) Z i c';
  st_slot : _slots c' !! num_tokens c = Some slot;
  st_view l : view (pool_k p') (take (num_tokens c) (_slots c')) l
              = view (pool_k p) (take (num_tokens c) (_slots c)) l ∧
              view (pool_v p') (take (num_tokens c) (_slots c')) l
              = view (pool_v p) (take (num_tokens c) (_slots c)) l;
  st_other j c2 m l : j ≠ i → cs !! j = Some c2 →
    view (pool_k p') (take m (_slots c2)) l = view (pool_k p) (take m (_slots c2)) l ∧
    view (pool_v p') (take m (_slots c2)) l = view (pool_v p) (take m (_slots c2)) l;
  st_refs j c2 b : j ≠ i → cs !! j = Some c2 → b ∈ block_table c2 →
    multiplicity b (refs_of (<[i := c']> cs) ⊎ Z) ≤ multiplicity b (refs_of cs ⊎ Z);
  st_free : BlockAllocator.num_free (allocator p') + unit_cost p (refs_of cs ⊎ Z) c
            = BlockAllocator.num_free (allocator p);
}.

Lemma others_insert cs i c c' Z : cs !! i = Some c → others (<[i := c']> cs) i Z = others cs i Z.
Proof.
  intros Hi. rw /others. f_equal. f_equal. clear. revert i. induction cs; intros []; simpl; f_equal; auto.
Qed.

Lemma rows_keep_sub Y Y' sl sl' p p' : Y' ⊆ Y → rows_keep Y sl sl' p p' → rows_keep Y' sl sl' p p'.
Proof.
  intros Hs [Hk Hv]. split; (eapply Forall2_impl; [eassumption|]); intros t t' (? & HY & ?);
    (split_and!; [done| |done]); intros a Ha; apply HY; by eapply gmultiset_elem_of_subseteq.
Qed.

Lemma view_keep_eq Y sl sl' p p' l :
  rows_keep Y sl sl' p p' →
  (∀ t, pool_k p !! l = Some t → is_Some (index_select t sl)) →
  (∀ t, pool_v p !! l = Some t → is_Some (index_select t sl)) →
  view (pool_k p') sl' l = view (pool_k p) sl l ∧ view (pool_v p') sl' l = view (pool_v p) sl l.
Proof.
  intros Hr Hk Hv. destruct (rows_keep_lengths _ _ _ _ _ Hr) as [Hlk Hlv]. split.
  - destruct (pool_k p !! l) as [t|] eqn:Ht.
    + destruct (Hk _ eq_refl) as [r Hrr]. assert (view (pool_k p) sl l = Some r) as Hview by by rw /view Ht.
      by rw Hview (rows_keep_view_k _ _ _ _ _ _ _ Hr Hview).
    + apply lookup_ge_None in Ht. rw /view !(proj2 (lookup_ge_None _ _)) //; lia.
  - destruct (pool_v p !! l) as [t|] eqn:Ht.
    + destruct (Hv _ eq_refl) as [r Hrr]. assert (view (pool_v p) sl l = Some r) as Hview by by rw /view Ht.
      by rw Hview (rows_keep_view_v _ _ _ _ _ _ _ Hr Hview).
    + apply lookup_ge_None in Ht. rw /view !(proj2 (lookup_ge_None _ _)) //; lia.
Qed.

Lemma grow_step p cs Z i c p' c' slot :
  heap p cs Z → cs !! i = Some c → grew (p, c) (others cs i Z) (p', c') slot →
  step_ok p cs Z i c p' c' slot.
Proof.
  intros HH Hi [Hpass Hsh Hrows Hslot Htab Hfree]. simpl in *.
  destruct (heap_owned _ _ _ _ _ HH Hi) as [HO Ht].
  destruct Hpass as (HO' & Ht' & Hn & Hex). simpl in *.
  pose proof (pwf_bs _ (heap_wf _ _ _ HH)) as Hbs.
  assert (rows_keep (others cs i Z) [] [] p p') as Hnil by by eapply rows_keep_nil.
  assert (owned (p', c') (others cs i Z)) as HO2 by by destruct HO'.
  split.
  - by eapply (owned_heap p).
  - done.
  - eapply rows_keep_sub; [|done]. rw /others. multiset_solver.
  - done.
  - split; [lia|]. rw (others_insert _ _ _ _ _ Hi).
    replace (num_tokens c' - 1) with (num_tokens c) by lia. by split_and!.
  - done.
  - intros l. eapply view_keep_eq; [done|..]; intros t Htl.
    all: apply index_select_total; intros a (k & Ha%list_elem_of_lookup_2 & _)%elem_of_take;
      rw (own_slots _ _ HO) /= in Ha; apply slots_of_block in Ha; [|done];
      assert (a / block_size p < BlockAllocator.num_blocks (allocator p)) by
        (apply (acc_bound _ _ (own_acc _ _ HO)), gmultiset_elem_of_disj_union; left;
         by apply elem_of_list_to_set_disj);
      rw ?(pwf_k_len _ (heap_wf _ _ _ HH) _ _ Htl) ?(pwf_v_len _ (heap_wf _ _ _ HH) _ _ Htl);
      pose proof (Nat.div_mod_eq a (block_size p));
      pose proof (Nat.mod_upper_bound a (block_size p) ltac:(lia)); nia.
  - intros j c2 m l Hne Hj. rw (cwf_slots _ _ (Forall_lookup_1 _ _ _ _ (heap_caches _ _ _ HH) Hj)).
    apply (rows_keep_view (others cs i Z)); [done|done|]. by apply others_table with j.
  - intros j c2 b Hne Hj Hb.
    assert (b ∈ others cs i Z) as HbY.
    { eapply gmultiset_elem_of_subseteq; [|by apply (others_table _ i Z j c2)]. by apply elem_of_list_to_set_disj. }
    specialize (Htab _ HbY). rw (refs_of_insert _ _ _ _ Hi) (refs_of_delete _ _ _ Hi).
    rw !multiplicity_disj_union. lia.
  - by rw -(pass_cost_unit p cs Z i c HH Hi).
Qed.

Lemma ready_stable p cs Z i c p' c' slot j c2 :
  cs !! i = Some c → step_ok p cs Z i c p' c' slot → j ≠ i → cs !! j = Some c2 →
  seq_ready p cs Z j c2 → seq_ready p' (<[i := c']> cs) Z j c2.
Proof.
  intros Hi Hst Hne Hj [H1 (_ & Ht & Hn & Hex)]. simpl in *.
  assert (<[i := c']> cs !! j = Some c2) as Hj' by by rw list_lookup_insert_ne.
  destruct (heap_owned _ _ _ _ _ (st_heap _ _ _ _ _ _ _ _ Hst) Hj') as [HO' Ht'].
  pose proof (st_shape _ _ _ _ _ _ _ _ Hst) as (Hb & _).
  split; [done|]. split_and!; simpl; [by apply (owned_set_start (p', c2))|done|done|].
  rw Hb. intros k b Hk Hbk. simpl in *. rw (refs_total _ _ _ _ Hj').
  assert (b ∈ block_table c2) as Hin by by eapply list_elem_of_lookup_2.
  pose proof (st_refs _ _ _ _ _ _ _ _ Hst j c2 b Hne Hj Hin) as Hle.
  specialize (Hex k b Hk Hbk). simpl in Hex. rw (refs_total _ _ _ _ Hj) in Hex.
  assert (0 < multiplicity b (refs_of (<[i := c']> cs) ⊎ Z)); [|lia].
  apply (proj1 (elem_of_multiplicity _ _)). rw -(refs_total _ _ _ _ Hj') gmultiset_elem_of_disj_union. left.
  by apply elem_of_list_to_set_disj.
Qed.

Lemma unit_cost_le p cs Z i c p' c' slot j c2 :
  step_ok p cs Z i c p' c' slot → j ≠ i → cs !! j = Some c2 →
  unit_cost p' (refs_of (<[i := c']> cs) ⊎ Z) c2 ≤ unit_cost p (refs_of cs ⊎ Z) c2.
Proof.
  intros Hst Hne Hj. pose proof (st_shape _ _ _ _ _ _ _ _ Hst) as (Hb & _). rw /unit_cost Hb.
  destruct (_ =? 0); [done|]. destruct (last (block_table c2)) as [tail|] eqn:Hl; [|done].
  pose proof (st_refs _ _ _ _ _ _ _ _ Hst j c2 tail Hne Hj (last_Some_elem_of _ _ Hl)).
  destruct (Nat.ltb_spec 1 (multiplicity tail (refs_of (<[i:=c']> cs) ⊎ Z))),
    (Nat.ltb_spec 1 (multiplicity tail (refs_of cs ⊎ Z))); lia.
Qed.

Lemma sum_list_with_le {A} (f g : A → nat) l : (∀ x, x ∈ l → f x ≤ g x) → sum_list_with f l ≤ sum_list_with g l.
Proof.
  induction l as [|x l IH]; intros H; simpl; [lia|]. specialize (IH ltac:(intros ??; apply H; by right)).
  pose proof (H x ltac:(by left)). lia.
Qed.

(** How one sequence came through the growth of the batch. *)
Record came p c p' c' slot : Prop := {
  cm_tokens : num_tokens c' = num_tokens c + 1;
  cm_slot : _slots c' !! num_tokens c = Some slot;
  cm_view l : view (pool_k p') (take (num_tokens c) (_slots c')) l
              = view (pool_k p) (take (num_tokens c) (_slots c)) l ∧
              view (pool_v p') (take (num_tokens c) (_slots c')) l
              = view (pool_v p) (take (num_tokens c) (_slots c)) l;
}.

Definition kept_seq p c p' : Prop := ∀ m l,
  view (pool_k p') (take m (_slots c)) l = view (pool_k p) (take m (_slots c)) l ∧
  view (pool_v p') (take m (_slots c)) l = view (pool_v p) (take m (_slots c)) l.

Definition batch_frame p cs Z p' cs' : Prop :=
  heap p' cs' Z ∧ length cs' = length cs ∧ same_shape p p' ∧ rows_keep Z [] [] p p'.

Lemma rows_keep_nil_trans Y p1 p2 p3 :
  same_shape p1 p2 → rows_keep Y [] [] p1 p2 → rows_keep Y [] [] p2 p3 → rows_keep Y [] [] p1 p3.
Proof.
  intros (Hb & _) [Hk Hv] [Hk' Hv']. rw Hb in Hk', Hv'.
  split; (eapply Forall2_compose; [|eassumption|eassumption]); intros ???; apply row_keep_trans.
Qed.

Lemma grow_loop_batch m : ∀ i p cs Z,
  heap p cs Z → i + m = length cs →
  (∀ j c, j < i → cs !! j = Some c → seq_ready p cs Z j c) →
  sum_list_with (unit_cost p (refs_of cs ⊎ Z)) (drop i cs) ≤ BlockAllocator.num_free (allocator p) →
  wp (for_list (seq i m) (λ i, on_seq i grow_one))
     (λ ws (s' : BSt), batch_frame p cs Z s'.1 s'.2 ∧ length ws = m ∧
        (∀ j c, s'.2 !! j = Some c → seq_ready s'.1 s'.2 Z j c) ∧
        (∀ j c, j < i → cs !! j = Some c → s'.2 !! j = Some c ∧ kept_seq p c s'.1) ∧
        (∀ j c, cs !! (i + j) = Some c →
           ∃ c' slot, s'.2 !! (i + j) = Some c' ∧ ws !! j = Some slot ∧ came p c s'.1 c' slot)) never (p, cs).
Proof.
  induction m as [|m IH]; intros i p cs Z HH Hlen Hready Hsum; cbn [seq].
  { wp_step. rw /batch_frame. split_and!; try done; [apply rows_keep_refl| |].
    - intros j c Hj. apply Hready; [|done]. apply lookup_lt_Some in Hj. simpl in Hj. lia.
    - intros j c Hj. apply lookup_lt_Some in Hj. lia. }
  destruct (lookup_lt_is_Some_2 cs i) as [c Hi]; [lia|].
  destruct (heap_owned _ _ _ _ _ HH Hi) as [HO Ht].
  rw (drop_S _ c) // in Hsum. cbn [sum_list_with] in Hsum.
  wp_step. rw {1}/wp /on_seq /= Hi. pose proof (grow_one_spec (p, c) _ HO Ht) as Hg. rw /wp in Hg.
  destruct (grow_one (p, c)) as [[slot|e] [p1 c1]]; last first.
  { destruct Hg as [_ Hlt]. simpl in Hlt. rw (pass_cost_unit _ _ _ _ _ HH Hi) in Hlt. lia. }
  pose proof (grow_step _ _ _ _ _ _ _ _ HH Hi Hg) as Hst. clear Hg.
  set (cs1 := <[i := c1]> cs) in *.
  assert (∀ j, j ≠ i → cs1 !! j = cs !! j) as Hne1 by (intros; by apply list_lookup_insert_ne).
  assert (cs1 !! i = Some c1) as Hi1 by (apply list_lookup_insert_eq; lia).
  wp_step. eapply wp_mono; [apply (IH (S i) p1 cs1 Z)| |done].
  - apply Hst.
  - rw length_insert. lia.
  - intros j c2 Hj Hj2. destruct (decide (j = i)) as [->|Hne]; [simplify_eq; apply Hst|].
    rw Hne1 // in Hj2. apply (ready_stable p cs Z i c p1 c1 slot); try done. apply Hready; [lia|done].
  - pose proof (st_free _ _ _ _ _ _ _ _ Hst) as Hf.
    assert (sum_list_with (unit_cost p1 (refs_of cs1 ⊎ Z)) (drop (S i) cs1)
      ≤ sum_list_with (unit_cost p (refs_of cs ⊎ Z)) (drop (S i) cs)); [|lia].
    rw drop_insert_lt; [|lia]. apply sum_list_with_le. intros c2 (j & Hj)%list_elem_of_lookup.
    rw lookup_drop in Hj. eapply (unit_cost_le _ _ _ _ _ _ _ _ (S i + j)); [done|lia|done].
  - intros ws [p2 cs2] ((HH2 & Hl2 & Hsh2 & Hz2) & Hlw & Hr2 & Hold & Hnew). simpl in *. wp_step.
    pose proof (st_shape _ _ _ _ _ _ _ _ Hst) as Hsh1.
    rw /batch_frame. split_and!; simpl.
    + done.
    + by rw Hl2 length_insert.
    + by eapply same_shape_trans.
    + eapply rows_keep_nil_trans; [done|apply Hst|done].
    + lia.
    + done.
    + intros j c2 Hj Hj2. destruct (Hold j c2) as [Hj' Hk']; [lia|by rw Hne1; [|lia]|]. split; [done|].
      intros k l. destruct (Hk' k l) as [-> ->]. eapply (st_other _ _ _ _ _ _ _ _ Hst j); [lia|done].
    + intros [|j] c2 Hj2.
      * rw Nat.add_0_r in Hj2 |- *. simplify_eq. destruct (Hold i c1) as [Hi2 Hk2]; [lia|done|].
        exists c1, slot. split_and!; [done|done|]. split; [apply Hst|apply Hst|].
        intros l. destruct (Hk2 (num_tokens c) l) as [-> ->]. apply Hst.
      * rw -Nat.add_succ_comm in Hj2 |- *. destruct (Hnew j c2) as (c' & sl & Hc' & Hsl & [Hc1 Hc2 Hc3]).
        { rw Hne1 //. lia. }
        exists c', sl. split_and!; [done|done|]. split; [done|done|]. intros l.
        destruct (Hc3 l) as [-> ->]. eapply (st_other _ _ _ _ _ _ _ _ Hst (S i + j)); [lia|done].
Qed.

(** ** The prepared batch *)

Definition last_slot c : option nat := _slots c !! (num_tokens c - 1).

(** The index tensors built from the grown caches. *)
Record tensors cs (b : Prepared) : Prop := {
  tn_write : Forall2 (λ c w, last_slot c = Some w) cs (write_slots b);
  tn_read : read_index b = pad_rows ((λ c, take (num_tokens c) (_slots c)) <$> cs);
  tn_mask : bmask b = (λ c, (λ j, j <? num_tokens c) <$> seq 0 (max_list_nat (num_tokens <$> cs))) <$> cs;
}.

(** Two-phase growth: enough blocks for the whole batch, or nothing happens. *)
Lemma prepare_spec p cs Z :
  heap p cs Z →
  let need := sum_list_with (unit_cost p (refs_of cs ⊎ Z)) cs in
  wp prepare
     (λ b (s' : BSt), need ≤ BlockAllocator.num_free (allocator p) ∧
        batch_frame p cs Z s'.1 s'.2 ∧ tensors s'.2 b ∧
        (∀ j c, s'.2 !! j = Some c → seq_ready s'.1 s'.2 Z j c) ∧
        (∀ j c, cs !! j = Some c → ∃ c' slot, s'.2 !! j = Some c' ∧ came p c s'.1 c' slot))
     (λ e (s' : BSt), e = OutOfBlocks ∧ s' = (p, cs) ∧ BlockAllocator.num_free (allocator p) < need) (p, cs).
Proof.
  intros HH need. rw /prepare. do 3 wp_step.
  eapply wp_mono; [apply (count_need_spec cs (p, cs) (refs_of cs ⊎ Z))| |done].
  { apply HH. }
  { intros c (i & Hi)%list_elem_of_lookup. rw -(refs_total _ _ _ _ Hi). multiset_solver. }
  intros n s' [-> ->]. do 2 wp_step. simpl. fold need.
  destruct (Nat.ltb_spec (BlockAllocator.num_free (allocator p)) need) as [Hlt|Hge]; [by wp_step|].
  wp_step. eapply wp_mono; [apply (grow_loop_batch (length cs) 0 p cs Z HH)| |done].
  - done.
  - intros j c Hj. lia.
  - by rw drop_0.
  - intros ws [p1 cs1] (Hfr & Hlw & Hr & _ & Hnew). simpl in *. do 3 wp_step. simpl.
    pose proof Hfr as (_ & Hl1 & _). split_and!; try done.
    + split; simpl; [|done|by rw -list_fmap_compose].
      apply Forall2_lookup_intro; [lia|]. intros j c' w Hj Hw.
      destruct (lookup_lt_is_Some_2 cs j) as [c Hc]; [rw -Hl1; by eapply lookup_lt_Some|].
      destruct (Hnew j c Hc) as (c2 & sl & Hc2 & Hsl & [Hn Hs _]). simplify_eq.
      rw /last_slot Hn. by replace (num_tokens c + 1 - 1) with (num_tokens c) by lia.
    + intros j c Hj. destruct (Hnew j c Hj) as (c2 & sl & ? & ? & ?). by exists c2, sl.
Qed.

(** A batch in the middle of a pass: sequence [j] has written its layers below [d]. *)
Definition batch_inv p cs Z d (Ks Vs : list (list (list T))) : Prop :=
  heap p cs Z ∧ length Ks = length cs ∧ length Vs = length cs ∧
  ∀ j c K V, cs !! j = Some c → Ks !! j = Some K → Vs !! j = Some V →
    1 ≤ num_tokens c ∧
    pass_inv (p, set_start (num_tokens c - 1) c) (others cs j Z) 1 d K V.

(** The facts about one write slot of the batch. *)
Lemma last_slot_facts p cs Z j c w :
  seq_ready p cs Z j c → last_slot c = Some w →
  w < BlockAllocator.num_blocks (allocator p) * block_size p ∧
  w / block_size p ∉ others cs j Z ∧ w / block_size p ∈ block_table c ∧
  w ∉ take (num_tokens c - 1) (_slots c) ∧
  take (num_tokens c) (_slots c) = take (num_tokens c - 1) (_slots c) ++ [w].
Proof.
  intros [H1 Hin] Hw. pose proof (BlockManager.write_slots _ _ _ Hin) as (_ & _ & Hlt & HY & Hold). simpl in *.
  rw /last_slot in Hw. rw (drop_S _ w) //= in Hlt, HY, Hold. rw take_0 in Hlt, HY, Hold.
  pose proof Hin as (HO & _). pose proof (pwf_bs _ (own_wf _ _ HO)) as Hbs. simpl in Hbs.
  split_and!; [apply Hlt; by left|apply HY; by left| |apply Hold; by left|].
  - apply (slots_of_block _ _ _ Hbs). rw -(own_slots _ _ HO). by eapply list_elem_of_lookup_2.
  - rw -(take_S_r _ _ w) //. f_equal. lia.
Qed.

Lemma batch_writes_disjoint p cs Z ws :
  (∀ j c, cs !! j = Some c → seq_ready p cs Z j c) → Forall2 (λ c w, last_slot c = Some w) cs ws →
  NoDup ws ∧ (∀ w, w ∈ ws → w < BlockAllocator.num_blocks (allocator p) * block_size p) ∧
  (∀ w, w ∈ ws → w / block_size p ∉ Z) ∧
  (∀ w j c, w ∈ ws → cs !! j = Some c → w ∉ take (num_tokens c - 1) (_slots c)).
Proof.
  intros Hr HF.
  assert (∀ i w, ws !! i = Some w → ∃ c, cs !! i = Some c ∧ last_slot c = Some w) as Hws.
  { intros i w Hi. destruct (Forall2_lookup_r _ _ _ _ _ HF Hi) as (c & ? & ?). eauto. }
  assert (∀ i w j c, ws !! i = Some w → cs !! j = Some c → w / block_size p ∈ block_table c → i = j) as Hone.
  { intros i w j c Hi Hj Hb. destruct (Hws _ _ Hi) as (ci & Hci & Hl).
    destruct (last_slot_facts _ _ _ _ _ _ (Hr _ _ Hci) Hl) as (_ & HY & _).
    destruct (decide (i = j)) as [|Hne]; [done|]. exfalso. apply HY.
    eapply gmultiset_elem_of_subseteq; [|by apply (others_table _ i Z j c)]. by apply elem_of_list_to_set_disj. }
  split_and!.
  - apply NoDup_alt. intros i j w Hi Hj. destruct (Hws _ _ Hj) as (cj & Hcj & Hl).
    destruct (last_slot_facts _ _ _ _ _ _ (Hr _ _ Hcj) Hl) as (_ & _ & Hb & _). by eapply Hone.
  - intros w (i & Hi)%list_elem_of_lookup. destruct (Hws _ _ Hi) as (c & Hc & Hl).
    by destruct (last_slot_facts _ _ _ _ _ _ (Hr _ _ Hc) Hl).
  - intros w (i & Hi)%list_elem_of_lookup HZ. destruct (Hws _ _ Hi) as (c & Hc & Hl).
    destruct (last_slot_facts _ _ _ _ _ _ (Hr _ _ Hc) Hl) as (_ & HY & _). apply HY. rw /others. multiset_solver.
  - intros w j c (i & Hi)%list_elem_of_lookup Hj Hin.
    destruct (Hr _ _ Hj) as (_ & HO & _). pose proof (own_wf _ _ HO) as Hwf. simpl in Hwf.
    assert (w / block_size p ∈ block_table c) as Hb.
    { apply (slots_of_block _ _ _ (pwf_bs _ Hwf)). rw -(own_slots _ _ HO) /=.
      apply elem_of_take in Hin as (k & Hk & _). by eapply list_elem_of_lookup_2. }
    assert (i = j) as -> by by eapply Hone. destruct (Hws _ _ Hi) as (c' & Hc' & Hl). simplify_eq.
    destruct (last_slot_facts _ _ _ _ _ _ (Hr _ _ Hj) Hl) as (_ & _ & _ & Hno & _). done.
Qed.

(** ** One layer of the batch *)

Lemma scatter_lookup_eq {A} (t : list A) ws vals j w v :
  NoDup ws → (∀ w, w ∈ ws → w < length t) → length ws = length vals →
  ws !! j = Some w → vals !! j = Some v → scatter t ws vals !! w = Some v.
Proof.
  intros Hnd Hlt Hlen Hw Hv. pose proof (scatter_select t ws vals Hnd Hlt Hlen) as Hs.
  apply index_select_Some in Hs. by destruct (Forall2_lookup_lr _ _ _ _ _ _ Hs Hw Hv).
Qed.

(** One buffer row of layer [l] through the batch's scatter. *)
Lemma batch_row p cs Z ws (t vals : list T) :
  (∀ j c, cs !! j = Some c → seq_ready p cs Z j c) → Forall2 (λ c w, last_slot c = Some w) cs ws →
  length t = BlockAllocator.num_blocks (allocator p) * block_size p → length vals = length cs →
  index_assign t ws vals = Ok (scatter t ws vals) ∧
  row_keep (block_size p) Z [] [] t (scatter t ws vals) ∧
  ∀ j c v r, cs !! j = Some c → vals !! j = Some v →
    index_select t (take (num_tokens c - 1) (_slots c)) = Some r →
    index_select (scatter t ws vals) (take (num_tokens c) (_slots c)) = Some (r ++ [v]).
Proof.
  intros Hr HF Ht Hv. pose proof (Forall2_length _ _ _ HF) as Hl.
  destruct (batch_writes_disjoint _ _ _ _ Hr HF) as (Hnd & Hlt & HZ & Hold). rw -Ht in Hlt. split_and!.
  - apply index_assign_ok; [done|lia].
  - apply row_keep_scatter; [done|set_solver].
  - intros j c v r Hj Hvj Hsel. destruct (Forall2_lookup_l _ _ _ _ _ HF Hj) as (w & Hw & Hlw).
    destruct (last_slot_facts _ _ _ _ _ _ (Hr _ _ Hj) Hlw) as (_ & _ & _ & _ & ->).
    apply index_select_app.
    + rw -Hsel. apply index_select_ext. intros a Ha. apply scatter_lookup_ne. intros Hw'.
      by apply (Hold _ _ _ Hw' Hj).
    + rw /index_select /=. rw (scatter_lookup_eq t ws vals j w v) //. lia.
Qed.

(** Rows gathered for sequence [j]: its own, then padding. *)
Definition gathered (rows : list T) (total : nat) (g : list T) : Prop :=
  length g = total ∧ take (length rows) g = rows.

Lemma gather_rows_spec (t : list T) (buf : list (list T)) l idx (rows : list (list T)) total (p0 : Pool T) :
  buf !! l = Some t → 0 < length t →
  Forall2 (λ sl r, index_select t sl = Some r ∧ length sl ≤ total) idx rows →
  wp (gather_rows buf l ((λ sl, sl ++ replicate (total - length sl) 0) <$> idx))
     (λ g p', p' = p0 ∧ Forall2 (λ r g, gathered r total g) rows g) never p0.
Proof.
  intros Hl Ht HF. rw /gather_rows. induction HF as [|sl r idx rows [Hsel Hle] HF IH]; cbn [fmap list_fmap].
  { wp_step. split; [done|constructor]. }
  destruct (index_select_total t (replicate (total - length sl) 0)) as [pad Hpad].
  { intros a [-> _]%elem_of_replicate. done. }
  wp_step. eapply gather_spec; [done|by apply index_select_app|]. wp_step.
  eapply wp_mono; [exact IH| |done]. intros g p' [-> Hg]. wp_step. split; [done|]. constructor; [|done].
  split; [|by rw take_app_length]. rw length_app (index_select_length _ _ _ Hsel) (index_select_length _ _ _ Hpad).
  rw length_replicate. lia.
Qed.

Lemma list_alter_insert {A} (f : A → A) (l : list A) i x : l !! i = Some x → alter f i l = <[i := f x]> l.
Proof.
  revert i. induction l as [|y l IH]; intros [|i] Hi; simplify_eq/=; [done|]. f_equal. by apply IH.
Qed.

(** Every sequence's layer-[d] rows with its new row appended. *)
Definition push_rows (d : nat) (Ks : list (list (list T))) (k : list T) : list (list (list T)) :=
  zip_with (λ K x, alter (λ r, r ++ [x]) d K) Ks k.

Lemma push_rows_lookup d Ks k j K' :
  push_rows d Ks k !! j = Some K' →
  ∃ K x, Ks !! j = Some K ∧ k !! j = Some x ∧ K' = alter (λ r, r ++ [x]) d K.
Proof. intros (K & x & ? & ? & ?)%lookup_zip_with_Some. eauto. Qed.

Lemma length_push_rows d Ks k : length k = length Ks → length (push_rows d Ks k) = length Ks.
Proof. intros Hl. rw length_zip_with. lia. Qed.

Lemma batch_inv_ready p cs Z d Ks Vs j c :
  batch_inv p cs Z d Ks Vs → cs !! j = Some c → seq_ready p cs Z j c.
Proof.
  intros (_ & HlK & HlV & Hall) Hj. pose proof (lookup_lt_Some _ _ _ Hj) as Hlt.
  destruct (lookup_lt_is_Some_2 Ks j ltac:(lia)) as [K HK].
  destruct (lookup_lt_is_Some_2 Vs j ltac:(lia)) as [V HV].
  destruct (Hall _ _ _ _ Hj HK HV) as [H1 [Hin _]]. by split.
Qed.

(** Both buffers after the scatter of layer [d]. *)
Definition scattered p (d : nat) ws (k v : list T) tk tv : Pool T :=
  set_v (<[d := scatter tv ws v]> (pool_v p)) (set_k (<[d := scatter tk ws k]> (pool_k p)) p).

Lemma heap_same_tables p p' cs Z :
  heap p cs Z → pool_wf p' → same_shape p p' → allocator p' = allocator p → heap p' cs Z.
Proof.
  intros [Hwf HA Hcs] Hwf' Hsh Ha. split; [done|by rw Ha|].
  eapply Forall_impl; [done|]. intros ?. by apply cache_wf_shape.
Qed.

Lemma batch_layer_inv p cs Z d ws Ks Vs k v tk tv :
  batch_inv p cs Z d Ks Vs → Forall2 (λ c w, last_slot c = Some w) cs ws →
  pool_k p !! d = Some tk → pool_v p !! d = Some tv → length k = length cs → length v = length cs →
  let p' := scattered p d ws k v tk tv in
  index_assign tk ws k = Ok (scatter tk ws k) ∧ index_assign tv ws v = Ok (scatter tv ws v) ∧
  same_shape p p' ∧ rows_keep Z [] [] p p' ∧
  batch_inv p' cs Z (S d) (push_rows d Ks k) (push_rows d Vs v) ∧
  ∀ j c K V x y r r', cs !! j = Some c → Ks !! j = Some K → Vs !! j = Some V → k !! j = Some x → v !! j = Some y →
    K !! d = Some r → V !! d = Some r' →
    index_select (scatter tk ws k) (take (num_tokens c) (_slots c)) = Some (r ++ [x]) ∧
    index_select (scatter tv ws v) (take (num_tokens c) (_slots c)) = Some (r' ++ [y]).
Proof.
  intros Hinv HF Htk Htv Hk Hv p'. pose proof Hinv as (HH & HlK & HlV & Hall).
  pose proof (heap_wf _ _ _ HH) as Hwf.
  assert (∀ j c, cs !! j = Some c → seq_ready p cs Z j c) as Hr by (intros; by eapply batch_inv_ready).
  destruct (batch_row p cs Z ws tk k Hr HF (pwf_k_len _ Hwf _ _ Htk) Hk) as (Hak & Hkk & Hsk).
  destruct (batch_row p cs Z ws tv v Hr HF (pwf_v_len _ Hwf _ _ Htv) Hv) as (Hav & Hkv & Hsv).
  pose proof (lookup_lt_Some _ _ _ Htk) as Hdk. pose proof (lookup_lt_Some _ _ _ Htv) as Hdv.
  assert (same_shape p p') as Hsh by done.
  assert (rows_keep Z [] [] p p') as Hrows.
  { split; simpl; (eapply rows_insert; [intros; apply row_keep_refl|done|done]). }
  assert (pool_wf p') as Hwf' by by eapply rows_keep_wf.
  assert (heap p' cs Z) as HH' by by eapply heap_same_tables.
  assert (∀ j c K V x y r r', cs !! j = Some c → Ks !! j = Some K → Vs !! j = Some V → k !! j = Some x → v !! j = Some y →
    K !! d = Some r → V !! d = Some r' →
    index_select (scatter tk ws k) (take (num_tokens c) (_slots c)) = Some (r ++ [x]) ∧
    index_select (scatter tv ws v) (take (num_tokens c) (_slots c)) = Some (r' ++ [y])) as Hsel.
  { intros j c K V x y r r' Hj HKj HVj Hx Hy Hrd Hrd'.
    destruct (Hall _ _ _ _ Hj HKj HVj) as (_ & _ & [_ HK] & [_ HV]). simpl in *.
    specialize (HK _ _ Hrd). specialize (HV _ _ Hrd'). rw Nat.ltb_irrefl in HK, HV.
    rw /view Htk /= in HK. rw /view Htv /= in HV. eauto. }
  split_and!; try done. split_and!; [done|rw length_push_rows; lia..|].
  intros j c K' V' Hj HK' HV'.
  destruct (push_rows_lookup _ _ _ _ _ HK') as (K & x & HKj & Hx & ->).
  destruct (push_rows_lookup _ _ _ _ _ HV') as (V & y & HVj & Hy & ->).
  destruct (Hall _ _ _ _ Hj HKj HVj) as (H1 & (HO & Ht & Hn & Hex) & HK & HV). simpl in *.
  destruct (lookup_lt_is_Some_2 K d) as [r Hrd]; [rw (proj1 HK); done|].
  destruct (lookup_lt_is_Some_2 V d) as [r' Hrd']; [rw (proj1 HV); done|].
  destruct (Hsel _ _ _ _ _ _ _ _ Hj HKj HVj Hx Hy Hrd Hrd') as [Hselk Hselv].
  destruct (heap_owned _ _ _ _ _ HH' Hj) as [HO' Ht'].
  split; [done|]. split_and!; [split_and!; try done; by apply (owned_set_start (p', c))|..]; simpl.
  - rw (list_alter_insert _ _ _ _ Hrd). eapply reads_write; [done|done|by rw length_insert|..].
    + intros l' Hl'. by rw list_lookup_insert_ne.
    + by rw /view list_lookup_insert_eq.
  - rw (list_alter_insert _ _ _ _ Hrd'). eapply reads_write; [done|done|by rw length_insert|..].
    + intros l' Hl'. by rw list_lookup_insert_ne.
    + by rw /view list_lookup_insert_eq.
Qed.

Definition total_len cs : nat := max_list_nat (num_tokens <$> cs).

Lemma max_list_nat_ge l n : n ∈ l → n ≤ max_list_nat l.
Proof. induction l as [|x l IH]; [by intros ?%not_elem_of_nil|]. intros [->|H%IH]%elem_of_cons; simpl; lia. Qed.

Lemma heap_slots_length p cs Z j c :
  heap p cs Z → cs !! j = Some c → length (take (num_tokens c) (_slots c)) = num_tokens c.
Proof.
  intros HH Hj. destruct (Forall_lookup_1 _ _ _ _ (heap_caches _ _ _ HH) Hj) as [Hsl Ht]. rw /tight /= in Ht.
  rw length_take Hsl length_slots_of Ht.
  pose proof (ceil_div_mul_ge (num_tokens c) (block_size p) (pwf_bs _ (heap_wf _ _ _ HH))). lia.
Qed.

Lemma read_index_heap p cs Z :
  heap p cs Z →
  pad_rows ((λ c, take (num_tokens c) (_slots c)) <$> cs)
  = (λ sl, sl ++ replicate (total_len cs - length sl) 0) <$> ((λ c, take (num_tokens c) (_slots c)) <$> cs).
Proof.
  intros HH. rw /pad_rows. assert (length <$> ((λ c, take (num_tokens c) (_slots c)) <$> cs) = num_tokens <$> cs) as ->; [|done].
  rw -list_fmap_compose. apply list_eq. intros j. rw !list_lookup_fmap. destruct (cs !! j) as [c|] eqn:Hj; [|done].
  simpl. f_equal. by eapply heap_slots_length.
Qed.

(** [update] on layer [d] of a prepared batch: sequence [j] gets its own rows of the
    layer, the new one last, padded to the batch maximum. *)
Lemma scatter_gather_spec p cs Z d b Ks Vs k v :
  batch_inv p cs Z d Ks Vs → tensors cs b → d < num_hidden_layers p → cs ≠ [] →
  length k = length cs → length v = length cs →
  wp (scatter_gather b d k v)
     (λ r p', batch_inv p' cs Z (S d) (push_rows d Ks k) (push_rows d Vs v) ∧
        same_shape p p' ∧ rows_keep Z [] [] p p' ∧ allocator p' = allocator p ∧
        length r.1 = length cs ∧ length r.2 = length cs ∧
        ∀ j c K V x y rk rv, cs !! j = Some c → Ks !! j = Some K → Vs !! j = Some V →
          k !! j = Some x → v !! j = Some y → K !! d = Some rk → V !! d = Some rv →
          ∃ gk gv, r.1 !! j = Some gk ∧ r.2 !! j = Some gv ∧
            gathered (rk ++ [x]) (total_len cs) gk ∧ gathered (rv ++ [y]) (total_len cs) gv) never p.
Proof.
  intros Hinv [Hw Hrd Hmk] Hd Hne Hk Hv. pose proof Hinv as (HH & HlK & HlV & Hall).
  pose proof (heap_wf _ _ _ HH) as Hwf.
  destruct (lookup_lt_is_Some_2 (pool_k p) d) as [tk Htk]; [by rw (pwf_k _ Hwf)|].
  destruct (lookup_lt_is_Some_2 (pool_v p) d) as [tv Htv]; [by rw (pwf_v _ Hwf)|].
  destruct (batch_layer_inv p cs Z d _ Ks Vs k v tk tv Hinv Hw Htk Htv Hk Hv)
    as (Hak & Hav & Hsh & Hrows & Hinv' & Hsel).
  set (p' := scattered p d (write_slots b) k v tk tv) in *.
  set (rows_of := λ (Ks : list (list (list T))) (k : list T), zip_with (λ K x, default [] (K !! d) ++ [x]) Ks k).
  assert (∀ j c, cs !! j = Some c → ∃ K V x y rk rv, Ks !! j = Some K ∧ Vs !! j = Some V ∧
    k !! j = Some x ∧ v !! j = Some y ∧ K !! d = Some rk ∧ V !! d = Some rv) as Hget.
  { intros j c Hj. pose proof (lookup_lt_Some _ _ _ Hj) as Hlt.
    destruct (lookup_lt_is_Some_2 Ks j ltac:(lia)) as [K HK].
    destruct (lookup_lt_is_Some_2 Vs j ltac:(lia)) as [V HV].
    destruct (lookup_lt_is_Some_2 k j ltac:(lia)) as [x Hx].
    destruct (lookup_lt_is_Some_2 v j ltac:(lia)) as [y Hy].
    destruct (Hall _ _ _ _ Hj HK HV) as (_ & _ & [HlK' _] & [HlV' _]). simpl in *.
    destruct (lookup_lt_is_Some_2 K d) as [rk ?]; [by rw HlK' (pwf_k _ Hwf)|].
    destruct (lookup_lt_is_Some_2 V d) as [rv ?]; [by rw HlV' (pwf_v _ Hwf)|]. eauto 12. }
  assert (∀ (t : list T) Ks k, length Ks = length cs → length k = length cs →
    (∀ j c K x, cs !! j = Some c → Ks !! j = Some K → k !! j = Some x →
       index_select t (take (num_tokens c) (_slots c)) = Some (default [] (K !! d) ++ [x])) →
    Forall2 (λ sl r, index_select t sl = Some r ∧ length sl ≤ total_len cs)
      ((λ c, take (num_tokens c) (_slots c)) <$> cs) (rows_of Ks k)) as Hrowsel.
  { intros t Ks' k' HlK' Hlk' Hs. apply Forall2_lookup_intro; [rw length_fmap length_zip_with; lia|].
    intros j sl r (c & -> & Hj)%list_lookup_fmap_Some (K & x & -> & HK & Hx)%lookup_zip_with_Some.
    split; [by eapply Hs|]. rw (heap_slots_length _ _ _ _ _ HH Hj).
    apply max_list_nat_ge. apply list_elem_of_lookup_2 in Hj. by apply list_elem_of_fmap_2. }
  assert (0 < length tk ∧ 0 < length tv) as [Hpk Hpv].
  { rw (pwf_k_len _ Hwf _ _ Htk) (pwf_v_len _ Hwf _ _ Htv). destruct cs as [|c cs']; [done|].
    pose proof (batch_inv_ready _ _ _ _ _ _ 0 c Hinv eq_refl) as Hr.
    destruct (Forall2_lookup_l _ _ _ 0 c Hw eq_refl) as (w & _ & Hlw).
    destruct (last_slot_facts _ _ _ _ _ _ Hr Hlw) as (Hlt & _). lia. }
  pose proof (lookup_lt_Some _ _ _ Htk) as Hdk. pose proof (lookup_lt_Some _ _ _ Htv) as Hdv.
  rw /scatter_gather. wp_step. rw {1}/wp /assign_k (layer_update_ok _ _ _ _ _ Htk Hak).
  wp_step. rw {1}/wp /assign_v (layer_update_ok _ _ _ _ _ Htv Hav). fold p'. do 2 wp_step.
  wp_step. rw Hrd (read_index_heap _ _ _ HH).
  eapply wp_mono; [eapply (gather_rows_spec (scatter tk (write_slots b) k)); [by apply list_lookup_insert_eq|
    by rw length_scatter|apply (Hrowsel _ Ks k); [done|done|]]| |done].
  { intros j c K x Hj HK Hx. destruct (Hget _ _ Hj) as (? & V & ? & y & rk & rv & ? & HV & ? & Hy & Hrk & Hrv).
    simplify_eq. rw Hrk. by destruct (Hsel _ _ _ _ _ _ _ _ Hj HK HV Hx Hy Hrk Hrv). }
  intros gk p1 [-> Hgk]. wp_step.
  eapply wp_mono; [eapply (gather_rows_spec (scatter tv (write_slots b) v)); [by apply list_lookup_insert_eq|
    by rw length_scatter|apply (Hrowsel _ Vs v); [done|done|]]| |done].
  { intros j c V y Hj HV Hy. destruct (Hget _ _ Hj) as (K & ? & x & ? & rk & rv & HK & ? & Hx & ? & Hrk & Hrv).
    simplify_eq. rw Hrv. by destruct (Hsel _ _ _ _ _ _ _ _ Hj HK HV Hx Hy Hrk Hrv). }
  intros gv p1 [-> Hgv]. wp_step. simpl.
  pose proof (Forall2_length _ _ _ Hgk) as Hl1. pose proof (Forall2_length _ _ _ Hgv) as Hl2.
  rw length_zip_with in Hl1. rw length_zip_with in Hl2. split_and!; try done; [lia|lia|].
  intros j c K V x y rk rv Hj HK HV Hx Hy Hrk Hrv.
  destruct (Forall2_lookup_l _ _ _ j (rk ++ [x]) Hgk) as (gk' & ? & ?).
  { apply lookup_zip_with_Some. exists K, x. by rw Hrk. }
  destruct (Forall2_lookup_l _ _ _ j (rv ++ [y]) Hgv) as (gv' & ? & ?).
  { apply lookup_zip_with_Some. exists V, y. by rw Hrv. }
  by exists gk', gv'.
Qed.

(** What a pass of a prepared batch leaves: another pool, the same caches and tensors. *)
Definition passed cs (b : Prepared) (Q : Pool T → Prop) : BC (T := T) → Prop :=
  λ bc, ∃ p, bc = ((p, cs), Some b) ∧ Q p.

Lemma batch_update_prepared p cs b d k v Q :
  wp (scatter_gather b d k v) Q never p →
  wp (batch_update d k v) (λ r, passed cs b (Q r)) never ((p, cs), Some b).
Proof.
  intros Hw. rw /batch_update. do 3 wp_step. cbn. do 2 wp_step. cbn. rw /on_bst. do 2 wp_step.
  eapply wp_mono; [exact Hw| |done]. intros r p' HQ. by exists p'.
Qed.
End prepare.

(** * The batched pass computes each sequence's own pass *)

Section batch_equiv.
Context {R : Type} `{HT : Torch R}.
#[local] Notation "'Vec'" := (list R).
Context (sdpa : list (list Vec) → list (list Vec) → list (list Vec) →
                option (list (list bool)) → bool → list (list Vec)).
Context (attend : list Vec → list (list Vec) → list (list Vec) → list Vec).
Hypothesis sdpa_rows : ∀ q k v mask c,
  sdpa q k v mask c = imap (λ i qi, attend qi (keep (allowed mask c i) k) (keep (allowed mask c i) v)) q.
Context (inv : Vec).
Implicit Types (p : Pool (list Vec)) (cs : list Cache) (Z : gmultiset nat) (hs : list (list Vec)) (xs : list Vec).

(** The row a layer adds to history [h] for the new row [x]. *)
Definition new_row (m : DecoderLayer) (h : list Vec) (x : Vec) : Vec :=
  ref_row attend inv m (krows inv m (h ++ [x])) (vrows m (h ++ [x])) (length h) x.

Lemma ref_layer_snoc m h x : ref_layer attend inv m (h ++ [x]) = ref_layer attend inv m h ++ [new_row m h x].
Proof.
  rw -(caches_step attend inv m h [x]). f_equal. rw /ref_layer drop_imap drop_app_length /=.
  by rw Nat.add_0_r.
Qed.

Lemma krows_snoc m h x :
  krows inv m (h ++ [x])
  = krows inv m h ++ [k_row (self_attn m) (rms_forward (input_layernorm m) x) (rot inv (length h))].
Proof. by rw -(krows_split inv m h [x]). Qed.

Lemma vrows_snoc m h x :
  vrows m (h ++ [x]) = vrows m h ++ [v_row (self_attn m) (rms_forward (input_layernorm m) x)].
Proof. by rw -(vrows_split m h [x]). Qed.

(** One element of the batched kernel: the padding mask keeps exactly the rows. *)
Lemma sdpa_padded q (rep : list Vec → list Vec) (rk rv gk gv : list (list Vec)) n total :
  gathered rk total gk → gathered rv total gv → length rk = n → length rv = n → n ≤ total →
  default [] (sdpa [q] (rep <$> gk) (rep <$> gv) (Some [(λ j, j <? n) <$> seq 0 total]) false !! 0)
  = attend q (rep <$> rk) (rep <$> rv).
Proof.
  intros [Hlk Htk] [Hlv Htv] Hk Hv Hn. rw sdpa_rows /=.
  assert (∀ g r : list (list Vec), length g = total → take n g = r →
    keep (allowed (Some [(λ j, j <? n) <$> seq 0 total]) false 0) (rep <$> g) = rep <$> r) as Hkeep.
  { intros g r Hl <-. rw fmap_take -keep_lt. apply keep_ext. intros j Hj. rw length_fmap Hl in Hj.
    by rw /= list_lookup_fmap lookup_seq_lt. }
  rw (Hkeep gk rk Hlk); [|by rw -Hk]. by rw (Hkeep gv rv Hlv); [|by rw -Hv].
Qed.

(** The state of a batch whose sequences have hidden histories [hs] at layer [d]. *)
Definition histories cs hs (m : DecoderLayer) (d : nat) (Ks Vs : list (list (list (list Vec)))) : Prop :=
  length hs = length cs ∧
  ∀ j c h K V, cs !! j = Some c → hs !! j = Some h → Ks !! j = Some K → Vs !! j = Some V →
    num_tokens c = S (length h) ∧ K !! d = Some (krows inv m h) ∧ V !! d = Some (vrows m h).

Lemma decoder_batch_spec p cs Z d b Ks Vs m hs xs :
  batch_inv p cs Z d Ks Vs → tensors cs b → d < num_hidden_layers p → cs ≠ [] →
  histories cs hs m d Ks Vs → length xs = length cs →
  wp (decoder_batch sdpa m d xs (rot inv <$> (length <$> hs)) (Some (bmask b)))
     (λ ys, passed cs b (λ p', ys = zip_with (new_row m) hs xs ∧
        (∃ k v, length k = length cs ∧ length v = length cs ∧
           batch_inv p' cs Z (S d) (push_rows d Ks k) (push_rows d Vs v) ∧
           ∀ j h x, hs !! j = Some h → xs !! j = Some x →
             k !! j = Some (k_row (self_attn m) (rms_forward (input_layernorm m) x) (rot inv (length h))) ∧
             v !! j = Some (v_row (self_attn m) (rms_forward (input_layernorm m) x))) ∧
        same_shape p p' ∧ rows_keep Z [] [] p p' ∧ allocator p' = allocator p)) never ((p, cs), Some b).
Proof.
  intros Hinv Htn Hd Hne [Hlh Hhist] Hlx. pose proof Hinv as (HH & HlK & HlV & Hall).
  rw /decoder_batch /attention_batch.
  set (norm := rms_forward (input_layernorm m)). set (a := self_attn m) in *.
  set (q := zip_with (q_row a) (norm <$> xs) (rot inv <$> (length <$> hs))).
  set (k := zip_with (k_row a) (norm <$> xs) (rot inv <$> (length <$> hs))).
  set (v := v_row a <$> (norm <$> xs)).
  assert (length k = length cs) as Hk.
  { subst k. rw length_zip_with !length_fmap. lia. }
  assert (length v = length cs) as Hv by (subst v; by rw !length_fmap).
  assert (∀ j h x, hs !! j = Some h → xs !! j = Some x →
    q !! j = Some (q_row a (norm x) (rot inv (length h))) ∧
    k !! j = Some (k_row a (norm x) (rot inv (length h))) ∧ v !! j = Some (v_row a (norm x))) as Hqkv.
  { intros j h x Hh Hx. subst q k v. rw !lookup_zip_with !list_lookup_fmap Hh Hx /=. done. }
  clearbody q k v.
  wp_step. wp_step. eapply wp_mono; [by apply batch_update_prepared, (scatter_gather_spec p cs Z d b Ks Vs k v)| |done].
  intros [gk gv] s' (p' & -> & Hinv' & Hsh & Hrows & Ha & Hl1 & Hl2 & Hg). simpl in Hl1, Hl2, Hg.
  do 2 wp_step. exists p'. split; [done|]. split_and!; try done; [|exists k, v; split_and!; try done; intros j h x Hh Hx; by destruct (Hqkv j h x Hh Hx) as (_ & ? & ?)].
  apply list_eq. intros j.
  rw list_lookup_fmap lookup_zip_with list_lookup_fmap /sdpa_batch !lookup_zip_with !list_lookup_fmap.
  destruct (xs !! j) as [x|] eqn:Hx; simpl; last first.
  { destruct (hs !! j); done. }
  pose proof (lookup_lt_Some _ _ _ Hx) as Hlt.
  destruct (lookup_lt_is_Some_2 cs j) as [c Hc]; [lia|].
  destruct (lookup_lt_is_Some_2 hs j) as [h Hh]; [lia|].
  destruct (lookup_lt_is_Some_2 Ks j) as [K HK]; [lia|].
  destruct (lookup_lt_is_Some_2 Vs j) as [V HV]; [lia|].
  destruct (Hqkv j h x Hh Hx) as (Hqj & Hkj & Hvj). rw Hqj Hh /=.
  destruct (Hhist j c h K V Hc Hh HK HV) as (Hn & HKd & HVd).
  destruct (Hg j c K V _ _ _ _ Hc HK HV Hkj Hvj HKd HVd) as (gkj & gvj & Hgk & Hgv & Hgak & Hgav).
  rw Hgk Hgv /= (tn_mask _ _ Htn) !list_lookup_fmap Hc /=.
  rw -/(total_len cs).
  rw (sdpa_padded _ _ (krows inv m (h ++ [x])) (vrows m (h ++ [x])) _ _ (num_tokens c)).
  - rw /new_row /ref_row /finish_row -/a -/norm.
    rw !(take_ge _ (S (length h))) //; rw length_fmap ?length_imap ?length_fmap length_app /=; lia.
  - by rw krows_snoc.
  - by rw vrows_snoc.
  - rw /krows length_imap length_app Hn /=. lia.
  - rw /vrows length_fmap length_app Hn /=. lia.
  - apply max_list_nat_ge, list_elem_of_fmap_2. by eapply list_elem_of_lookup_2.
Qed.

Lemma push_rows_lookup_2 {T} d (Ks : list (list (list T))) k j K x :
  Ks !! j = Some K → k !! j = Some x → push_rows d Ks k !! j = Some (alter (λ r, r ++ [x]) d K).
Proof. intros HK Hx. apply lookup_zip_with_Some. eauto. Qed.

Lemma drop_alter_cons {A} (f : A → A) (l : list A) d x r : drop d l = x :: r → drop (S d) (alter f d l) = r.
Proof.
  intros Hd. pose proof (lookup_drop l d 0) as Hl. rw Hd Nat.add_0_r /= in Hl.
  rw (list_alter_insert _ _ _ x) //. by eapply drop_insert_cons.
Qed.

Lemma take_alter_app {A} (f : A → A) (l : list A) d x r k :
  drop d l = x :: r → take (S d) (alter f d l) ++ k = take d l ++ f x :: k.
Proof.
  intros Hd. pose proof (lookup_drop l d 0) as Hl. rw Hd Nat.add_0_r /= in Hl.
  rw (list_alter_insert _ _ _ x) //. by eapply take_insert_app.
Qed.

Lemma layers_batch_spec ls : ∀ p cs Z d b Ks Vs hs xs,
  batch_inv p cs Z d Ks Vs → tensors cs b → d + length ls = num_hidden_layers p → cs ≠ [] →
  length hs = length cs → length xs = length cs →
  (∀ j c h K V, cs !! j = Some c → hs !! j = Some h → Ks !! j = Some K → Vs !! j = Some V →
     num_tokens c = S (length h) ∧ drop d K = kcaches attend inv ls h ∧ drop d V = vcaches attend inv ls h) →
  wp (layers_batch sdpa ls d xs (rot inv <$> (length <$> hs)) (Some (bmask b)))
     (λ ys, passed cs b (λ p', length ys = length cs ∧
        (∀ j h x, hs !! j = Some h → xs !! j = Some x →
           ∃ y, ys !! j = Some y ∧ drop (length h) (ref_layers attend inv ls (h ++ [x])) = [y]) ∧
        (∃ Ks' Vs', batch_inv p' cs Z (num_hidden_layers p) Ks' Vs' ∧
           ∀ j K V h x, Ks !! j = Some K → Vs !! j = Some V → hs !! j = Some h → xs !! j = Some x →
             Ks' !! j = Some (take d K ++ kcaches attend inv ls (h ++ [x])) ∧
             Vs' !! j = Some (take d V ++ vcaches attend inv ls (h ++ [x]))) ∧
        same_shape p p' ∧ rows_keep Z [] [] p p' ∧ allocator p' = allocator p)) never ((p, cs), Some b).
Proof.
  induction ls as [|m ls IH]; intros p cs Z d b Ks Vs hs xs Hinv Htn Hd Hne Hlh Hlx Hall; cbn [layers_batch].
  { wp_step. simpl in Hd. exists p. split; [done|]. split_and!; try done; [| |apply rows_keep_refl].
    - intros j h x Hh Hx. exists x. by rw /= drop_app_length.
    - exists Ks, Vs. rw -Hd Nat.add_0_r. split; [done|]. intros j K V h x HK HV Hh Hx.
      destruct (lookup_lt_is_Some_2 cs j) as [c Hc]; [rw -Hlh; by eapply lookup_lt_Some|].
      destruct (Hall _ _ _ _ _ Hc Hh HK HV) as (_ & HdK & HdV). simpl in *.
      pose proof (take_drop d K) as HtK. pose proof (take_drop d V) as HtV.
      rw HdK in HtK. rw HdV in HtV. by rw HtK HtV. }
  simpl in Hd. wp_step. eapply wp_mono; [eapply (decoder_batch_spec p cs Z d b Ks Vs m hs xs); try done; [lia|]| |done].
  { split; [done|]. intros j c h K V Hc Hh HK HV. destruct (Hall _ _ _ _ _ Hc Hh HK HV) as (Hn & HdK & HdV).
    split_and!; [done|..].
    - pose proof (lookup_drop K d 0) as Hl. rw HdK Nat.add_0_r /= in Hl. done.
    - pose proof (lookup_drop V d 0) as Hl. rw HdV Nat.add_0_r /= in Hl. done. }
  intros ys s1 (p1 & -> & -> & (k & v & Hlk & Hlv & Hinv1 & Hkv) & Hsh1 & Hrows1 & Ha1).
  pose proof Hsh1 as (_ & HL1 & _).
  replace (rot inv <$> (length <$> hs)) with (rot inv <$> (length <$> (ref_layer attend inv m <$> hs))); last first.
  { f_equal. rw -list_fmap_compose. apply list_fmap_ext. intros j h _. apply length_ref_layer. }
  eapply wp_mono; [apply (IH p1 cs Z (S d) b _ _ (ref_layer attend inv m <$> hs) (zip_with (new_row m) hs xs) Hinv1 Htn)| |done].
  - rw HL1. lia.
  - done.
  - by rw length_fmap.
  - rw length_zip_with. lia.
  - intros j c h' K' V' Hc (h & -> & Hh)%list_lookup_fmap_Some HK' HV'. rw length_ref_layer.
    destruct (push_rows_lookup _ _ _ _ _ HK') as (K & xk & HK & Hxk & ->).
    destruct (push_rows_lookup _ _ _ _ _ HV') as (V & xv & HV & Hxv & ->).
    destruct (Hall _ _ _ _ _ Hc Hh HK HV) as (Hn & HdK & HdV). cbn [kcaches vcaches] in HdK, HdV.
    split_and!; [done|by eapply drop_alter_cons|by eapply drop_alter_cons].
  - intros ys s2 (p2 & -> & Hly & Hys & (Ks' & Vs' & Hinv2 & Hfin) & Hsh2 & Hrows2 & Ha2). exists p2. split; [done|].
    assert (∀ j h x, hs !! j = Some h → xs !! j = Some x →
      (ref_layer attend inv m <$> hs) !! j = Some (ref_layer attend inv m h) ∧
      zip_with (new_row m) hs xs !! j = Some (new_row m h x)) as Hnext.
    { intros j h x Hh Hx. rw list_lookup_fmap Hh lookup_zip_with Hh Hx. done. }
    split_and!; try done.
    + intros j h x Hh Hx. destruct (Hnext _ _ _ Hh Hx) as [Hh' Hx'].
      destruct (Hys _ _ _ Hh' Hx') as (y & Hy & Hdrop). exists y. split; [done|].
      rw -ref_layer_snoc length_ref_layer in Hdrop. done.
    + exists Ks', Vs'. rw HL1 in Hinv2. split; [done|]. intros j K V h x HK HV Hh Hx.
      destruct (Hnext _ _ _ Hh Hx) as [Hh' Hx']. destruct (Hkv _ _ _ Hh Hx) as [Hkj Hvj].
      destruct (lookup_lt_is_Some_2 cs j) as [c Hc]; [rw -Hlh; by eapply lookup_lt_Some|].
      destruct (Hall _ _ _ _ _ Hc Hh HK HV) as (Hn & HdK & HdV). cbn [kcaches vcaches] in HdK, HdV.
      destruct (Hfin j _ _ _ _ (push_rows_lookup_2 _ _ _ _ _ _ HK Hkj) (push_rows_lookup_2 _ _ _ _ _ _ HV Hvj) Hh' Hx')
        as [-> ->].
      rw (take_alter_app _ _ _ _ _ _ HdK) (take_alter_app _ _ _ _ _ _ HdV).
      rw -ref_layer_snoc -krows_snoc -vrows_snoc. done.
    + by eapply same_shape_trans.
    + by eapply rows_keep_nil_trans.
    + congruence.
Qed.

(** The cache [c] holds the key and value rows of the tokens [past]. *)
Definition holds (w : NanoForCausalLM) p (c : Cache) (past : list nat) : Prop :=
  num_tokens c = length past ∧
  ∃ x, index_select (embed_tokens w) past = Some x ∧
    ∀ l K V, kcaches attend inv (layers w) x !! l = Some K → vcaches attend inv (layers w) x !! l = Some V →
      contents p c l = Some (K, V).

Lemma contents_views p (c : Cache) l K V :
  contents p c l = Some (K, V) ↔
  view (pool_k p) (take (num_tokens c) (_slots c)) l = Some K ∧
  view (pool_v p) (take (num_tokens c) (_slots c)) l = Some V.
Proof.
  rw /contents. destruct (view (pool_k p) _ l), (view (pool_v p) _ l); simpl; naive_solver.
Qed.

(** The grown batch is ready for layer 0 with the histories' rows. *)
Lemma batch_inv_start w p cs Z p' cs' pasts :
  heap p cs Z → length (layers w) = num_hidden_layers p →
  batch_frame p cs Z p' cs' → (∀ j c, cs' !! j = Some c → seq_ready p' cs' Z j c) →
  (∀ j c, cs !! j = Some c → ∃ c' slot, cs' !! j = Some c' ∧ came p c p' c' slot) →
  Forall2 (λ c past, holds w p c past) cs pasts →
  ∃ xs : list (list Vec), Forall2 (λ past x, index_select (embed_tokens w) past = Some x) pasts xs ∧
    batch_inv p' cs' Z 0 (kcaches attend inv (layers w) <$> xs) (vcaches attend inv (layers w) <$> xs).
Proof.
  intros HH HL (HH' & Hlen & Hsh & _) Hready Hcame Hholds.
  assert (∃ xs : list (list Vec), mapM (index_select (embed_tokens w)) pasts = Some xs) as [xs Hxs%mapM_Some].
  { apply mapM_is_Some. eapply Forall2_Forall_r; [exact Hholds|]. apply Forall_true.
    intros c past (_ & x & Hx & _). by exists x. }
  exists xs. split; [done|]. pose proof (Forall2_length _ _ _ Hholds) as Hl1.
  pose proof (Forall2_length _ _ _ Hxs) as Hl2.
  split_and!; [done|rw length_fmap; lia|rw length_fmap; lia|].
  intros j c' K V Hj (x & -> & Hx)%list_lookup_fmap_Some (x' & -> & Hx')%list_lookup_fmap_Some. simplify_eq.
  destruct (Hready _ _ Hj) as [H1 Hin]. split; [done|]. pose proof Hsh as (Hb & HLp & _).
  destruct (lookup_lt_is_Some_2 cs j) as [c Hc]; [rw -Hlen; by eapply lookup_lt_Some|].
  destruct (Hcame _ _ Hc) as (c2 & slot & Hj2 & [Hn Hs Hv]). simplify_eq.
  destruct (Forall2_lookup_l _ _ _ _ _ Hholds Hc) as (past & Hpast & _ & x2 & Hx2 & Hcont).
  destruct (Forall2_lookup_l _ _ _ _ _ Hxs Hpast) as (x3 & Hx3 & Hsel). simplify_eq.
  pose proof (heap_wf _ _ _ HH') as Hwf'.
  assert (num_tokens c' - 1 = num_tokens c) as Hn1 by lia. rw Hn1.
  assert (∀ l, l < length (layers w) → ∃ K V, kcaches attend inv (layers w) x !! l = Some K ∧
    vcaches attend inv (layers w) x !! l = Some V) as Hkv.
  { intros l Hl. destruct (lookup_lt_is_Some_2 (kcaches attend inv (layers w) x) l) as [K ?]; [by rw length_kcaches|].
    destruct (lookup_lt_is_Some_2 (vcaches attend inv (layers w) x) l) as [V ?]; [by rw length_vcaches|]. eauto. }
  split_and!; [by rw -Hn1|split..]; simpl.
  - by rw length_kcaches (pwf_k _ Hwf') HLp.
  - intros l K Hl. destruct (Hkv l) as (K' & V' & HK' & HV').
    { apply lookup_lt_Some in Hl. by rw length_kcaches in Hl. }
    assert (K' = K) as -> by congruence. pose proof (Hcont _ _ _ HK' HV') as [HK _]%contents_views.
    change (l <? 0) with false. cbn iota. by rw (proj1 (Hv l)).
  - by rw length_vcaches (pwf_v _ Hwf') HLp.
  - intros l V Hl. destruct (Hkv l) as (K' & V' & HK' & HV').
    { apply lookup_lt_Some in Hl. by rw length_vcaches in Hl. }
    assert (V' = V) as -> by congruence. pose proof (Hcont _ _ _ HK' HV') as [_ HV]%contents_views.
    change (l <? 0) with false. cbn iota. by rw (proj2 (Hv l)).
Qed.

Lemma index_select_table_at {A} (f : nat → A) n (l : list nat) :
  Forall (λ i, i < n) l → index_select (f <$> seq 0 n) l = Some (f <$> l).
Proof.
  intros Hl. apply index_select_Some, Forall2_lookup_intro; [by rw length_fmap|].
  intros i j x Hj Hx. rw list_lookup_fmap Hj in Hx. simplify_eq/=.
  pose proof (Forall_lookup_1 _ _ _ _ Hl Hj). by rw list_lookup_fmap lookup_seq_lt.
Qed.

Lemma rotary_at r (l : list nat) :
  rot_ok inv r → Forall (λ i, i < max_positions r) l →
  ∃ css, rotary_forward l r = Ok css ∧ cast_cs <$> css = rot inv <$> l.
Proof.
  intros [Hi Hr] Hl. rw /rotary_forward Hr /= Hi. rw -!list_fmap_compose !index_select_table_at //.
  eexists. split; [done|]. clear. induction l as [|j l IH]; [done|]. cbn. f_equal. exact IH.
Qed.

Lemma wp_with_batch {T A} (m : M (BC (T := T)) A) Q E s :
  wp m (λ a s', Q a s'.1) (λ e s', E e s'.1) (s, None) → wp (with_batch m) Q E s.
Proof. rw /wp /with_batch. by destruct (m (s, None)) as [[] []]. Qed.

Lemma cache_mask_fresh {T} Q E (s : BSt (T := T)) :
  wp prepare (λ b s', Q (Some (bmask b)) (s', Some b)) (λ e s', E e (s', None)) s → wp cache_mask Q E (s, None).
Proof. intros Hw. rw /cache_mask /prepare_batch /on_bst. do 3 wp_step. cbn. do 2 wp_step. eapply wp_mono; [exact Hw| |done]. intros b s' HQ. by do 2 wp_step. Qed.

(** The batched decode step, with the final state of every sequence. *)
Lemma forward_batch_spec w r p cs Z pasts ids tokens ys :
  heap p cs Z → cs ≠ [] → length (layers w) = num_hidden_layers p →
  rot_ok inv r → Forall (λ past, length past < max_positions r) pasts →
  Forall2 (λ c past, holds w p c past) cs pasts → length tokens = length cs →
  to_indices ids = Ok tokens → index_select (embed_tokens w) tokens = Some ys →
  let need := sum_list_with (unit_cost p (refs_of cs ⊎ Z)) cs in
  wp (forward_batch sdpa w r ids (length <$> pasts))
     (λ logits (s' : BSt), need ≤ BlockAllocator.num_free (allocator p) ∧
        batch_frame p cs Z s'.1 s'.2 ∧ length logits = length cs ∧
        ∀ j past t, pasts !! j = Some past → tokens !! j = Some t →
          ∃ x y c', index_select (embed_tokens w) past = Some x ∧ embed_tokens w !! t = Some y ∧
            s'.2 !! j = Some c' ∧ holds w s'.1 c' (past ++ [t]) ∧
            logits !! j = last (ref_logits attend inv w (x ++ [y])))
     (λ e (s' : BSt), e = OutOfBlocks ∧ s' = (p, cs) ∧ BlockAllocator.num_free (allocator p) < need) (p, cs).
Proof.
  intros HH Hne HL Hr Hpos Hholds Hlt Hids Hys need. rw /forward_batch. apply wp_with_batch. wp_step.
  apply cache_mask_fresh. eapply wp_mono; [by apply prepare_spec| |done].
  intros b [p1 cs1] (Hneed & Hfr & Htn & Hready & Hcame). simpl in *.
  destruct (batch_inv_start w p cs Z p1 cs1 pasts HH HL Hfr Hready Hcame Hholds) as (xs & Hxs & Hinv).
  pose proof Hfr as (HH1 & Hl1 & Hsh1 & Hz1). pose proof Hsh1 as (_ & HLp & _).
  pose proof (Forall2_length _ _ _ Hholds) as Hlp. pose proof (Forall2_length _ _ _ Hxs) as Hlxs.
  pose proof (index_select_length _ _ _ Hys) as Hlys.
  rw /lm_batch. wp_step. rw {1}/wp /lift Hids. wp_step. rw {1}/wp Hys. wp_step.
  destruct (rotary_at r (length <$> pasts) Hr) as (css & Hcss & Hcast).
  { apply Forall_fmap. eapply Forall_impl; [exact Hpos|]. done. }
  rw {1}/wp Hcss Hcast.
  assert (length <$> pasts = length <$> xs) as Hlens.
  { clear -Hxs. induction Hxs as [|past x pasts xs Hs Hxs IH]; [done|]. cbn. f_equal; [|exact IH].
    by rw (index_select_length _ _ _ Hs). }
  rw Hlens. wp_step.
  eapply wp_mono; [apply (layers_batch_spec (layers w) p1 cs1 Z 0 b _ _ xs ys Hinv Htn)| |done].
  - rw HLp. done.
  - intros ->. by destruct cs.
  - lia.
  - lia.
  - intros j c h K V Hc Hh (x & -> & Hx)%list_lookup_fmap_Some (x' & -> & Hx')%list_lookup_fmap_Some. simplify_eq.
    rw !drop_0. split_and!; try done.
    destruct (lookup_lt_is_Some_2 cs j) as [c0 Hc0]; [rw -Hl1; by eapply lookup_lt_Some|].
    destruct (Hcame _ _ Hc0) as (c2 & slot & Hj2 & [Hn _ _]). simplify_eq.
    destruct (Forall2_lookup_l _ _ _ _ _ Hholds Hc0) as (past & Hpast & Hnt & _).
    destruct (Forall2_lookup_l _ _ _ _ _ Hxs Hpast) as (x3 & Hx3 & Hsel). simplify_eq.
    rw Hn Hnt (index_select_length _ _ _ Hsel). lia.
  - intros out s2 (p2 & -> & Hlo & Hout & (Ks' & Vs' & Hinv2 & Hfin) & Hsh2 & Hrows2 & Ha2).
    wp_step. simpl. split_and!; try done.
    + rw /batch_frame. split_and!; [apply Hinv2|done|by eapply same_shape_trans|by eapply rows_keep_nil_trans].
    + rw !length_fmap. lia.
    + intros j past t Hpast Ht. destruct (Forall2_lookup_l _ _ _ _ _ Hxs Hpast) as (x & Hx & Hsel).
      pose proof (proj1 (index_select_Some _ _ _) Hys) as HF.
      destruct (Forall2_lookup_l _ _ _ _ _ HF Ht) as (y & Hy & Hemb). simpl in Hemb.
      destruct (lookup_lt_is_Some_2 cs1 j) as [c' Hc']; [rw Hl1 Hlp; by eapply lookup_lt_Some|].
      exists x, y, c'. split_and!; try done.
      * destruct (lookup_lt_is_Some_2 cs j) as [c0 Hc0]; [rw -Hl1; by eapply lookup_lt_Some|].
        destruct (Hcame _ _ Hc0) as (c2 & slot & Hj2 & [Hn _ _]). simplify_eq.
        destruct (Forall2_lookup_l _ _ _ _ _ Hholds Hc0) as (past' & Hpast' & Hnt & _). simplify_eq.
        split; [rw Hn Hnt length_app //|]. exists (x ++ [y]). split.
        { apply index_select_app; [done|]. by rw /index_select /= Hemb. }
        destruct (Hfin j (kcaches attend inv (layers w) x) (vcaches attend inv (layers w) x) x y) as [HKs HVs].
        { by rw list_lookup_fmap Hx. } { by rw list_lookup_fmap Hx. } { done. } { done. }
        rw !take_0 /= in HKs, HVs. destruct Hinv2 as (HH2 & _ & _ & Hall2).
        destruct (Hall2 _ _ _ _ Hc' HKs HVs) as (H1 & Hpass).
        assert (num_hidden_layers p1 = num_hidden_layers p2) as HL2 by (by destruct Hsh2 as (_ & -> & _)).
        rw HL2 in Hpass. apply (pass_inv_idle (p2, set_start (num_tokens c' - 1) c')) in Hpass
          as (_ & _ & [_ HK] & [_ HV]). simpl in *.
        intros l K V HKl HVl. apply contents_views. split; [by apply HK|by apply HV].
      * destruct (Hout _ _ _ Hx Hy) as (yo & Hyo & Hdrop).
        rw !list_lookup_fmap Hyo /= /ref_logits !fmap_last.
        rw -(take_drop (length x) (ref_layers attend inv (layers w) (x ++ [y]))) Hdrop last_snoc. done.
Qed.
End batch_equiv.

Lemma to_indices_of_nat l : to_indices (Z.of_nat <$> l) = Ok l.
Proof.
  rw /to_indices. assert (mapM to_index (Z.of_nat <$> l) = Some l) as ->; [|done].
  apply mapM_Some. induction l as [|t l IH]; constructor; [|exact IH].
  rw /to_index. destruct (Z.ltb_spec (Z.of_nat t) 0); [lia|]. by rw Nat2Z.id.
Qed.

(** ** Properties *)

(** C5: a decode step over a batch computes, for every sequence, what that sequence
    alone would compute.  If each cache of the batch holds the rows of its own tokens,
    one batched pass either raises [OutOfBlocks] and leaves the pool and every cache
    exactly as they were, precisely when the free list is shorter than the blocks the
    whole batch needs, or returns for sequence [j] the last row of the logits of an
    uncached forward over its tokens and its new one, whatever the other sequences and
    the padding are, and leaves each cache holding its tokens and the new one; blocks
    held outside the batch keep their rows. *)
Theorem batched_decode_equals_full {R} `{Torch R} sdpa attend
    (sdpa_rows : ∀ (q k v : list (list (list R))) mask c,
       sdpa q k v mask c
       = imap (λ i qi, attend qi (keep (allowed mask c i) k) (keep (allowed mask c i) v)) q)
    inv w r (p : Pool (list (list R))) cs Z pasts tokens :
  heap p cs Z → cs ≠ [] → length (layers w) = num_hidden_layers p →
  rot_ok inv r → Forall (λ past, length past < max_positions r) pasts →
  Forall2 (λ c past, holds attend inv w p c past) cs pasts → length tokens = length cs →
  Forall (λ t, t < length (embed_tokens w)) tokens →
  let need := sum_list_with (unit_cost p (refs_of cs ⊎ Z)) cs in
  wp (forward_batch sdpa w r (Z.of_nat <$> tokens) (length <$> pasts))
     (λ logits (s' : BSt), need ≤ BlockAllocator.num_free (allocator p) ∧
        heap s'.1 s'.2 Z ∧ rows_keep Z [] [] p s'.1 ∧ length logits = length cs ∧
        ∀ j past t, pasts !! j = Some past → tokens !! j = Some t →
          ∃ c' full, s'.2 !! j = Some c' ∧ holds attend inv w s'.1 c' (past ++ [t]) ∧
            (lm_forward sdpa w (past ++ [t]) None false None (r, DynamicCache.init)).1 = Ok full ∧
            logits !! j = last full)
     (λ e (s' : BSt), e = OutOfBlocks ∧ s' = (p, cs) ∧ BlockAllocator.num_free (allocator p) < need) (p, cs).
Proof.
  intros HH Hne HL Hr Hpos Hholds Hlt Htok need.
  destruct (index_select_total (embed_tokens w) tokens) as [ys Hys].
  { intros i Hi. by eapply Forall_forall in Htok. }
  eapply wp_mono; [by eapply (forward_batch_spec sdpa attend sdpa_rows inv w r p cs Z pasts _ tokens ys); try done; apply to_indices_of_nat| |done].
  intros logits s' (Hneed & (HH' & _ & _ & Hz) & Hlog & Hall). split_and!; try done.
  intros j past t Hp Ht. destruct (Hall _ _ _ Hp Ht) as (x & y & c' & Hx & Hy & Hc' & Hh & Hl).
  exists c', (ref_logits attend inv w (x ++ [y])). split_and!; try done.
  eapply lm_full; [done|done|]. apply index_select_app; [done|]. by rw /index_select /= Hy.
Qed.

Lemma batched_decode_equals_full_witness :
  let p := PagedCachePool.init ([] : list (list Z)) 2 4 2 in
  let r := rotary_init [1%Z] 8 in
  wp (forward_batch Toy.sdpa Toy.weights r [2%Z] [0])
     (λ logits _, length logits = 1) (λ _ _, True) (p, [PagedKVCache.init]).
Proof.
  intros p r. eapply wp_mono.
  - apply (batched_decode_equals_full Toy.sdpa Toy.attend (λ _ _ _ _ _, eq_refl) [1%Z] Toy.weights r p
      [PagedKVCache.init] ∅ [[]] [2]).
    + apply heap_init. lia.
    + discriminate.
    + reflexivity.
    + split; reflexivity.
    + constructor; [simpl; lia|constructor].
    + constructor; [|constructor]. split; [reflexivity|]. exists []. split; [reflexivity|].
      intros [|[|l]] K V HK HV; simpl in HK, HV; simplify_eq; reflexivity.
    + reflexivity.
    + constructor; [simpl; lia|constructor].
  - intros logits s' (_ & _ & _ & H & _). exact H.
  - intros e s' _. exact I.
Defined.
