(* ===== verification/Scheduler.v ===== *)
(** * Continuous batching (engine/scheduler.py)

    The engine's mutable objects: requests live in a store and are named by
    reference, so the queue, the batch and the outcome lists share them; a running
    sequence carries its own block table and an identity.  Every clock read takes
    the next reading of [perf_counter]; every random draw the next seed. *)

From Stdlib Require Import ssreflect QArith Qcanon.
From stdpp Require Import prelude gmap gmultiset strings sorting list.
From S2P Require Import Prelude Config BlockManager KvCache Transformer PrefixCache Types Admission Batch.

(** Torch operations of the sampler. *)
Class TorchSampling (R : Type) := {
  ts_div : R → Qc → R;
  ts_lt : R → R → bool;
  ts_neg_inf : R;
  ts_sub : R → R → R;
  ts_gt : R → Qc → bool;
  ts_softmax : list R → list R;
  ts_cumsum : list R → list R;
  ts_sort_desc : list R → list R * list nat;   (* values and indices *)
  ts_argmax : list R → Z;
  ts_multinomial : nat → list R → Z;           (* seed, probabilities *)
}.

Section sampler.
Context {R : Type} `{TorchSampling R}.

Definition masked_fill (mask : list bool) (x : list R) : list R :=
  zip_with (λ (m : bool) a, if m then ts_neg_inf else a) mask x.

(** The [top_k] filter: [if p.top_k: ...]. *)
Definition top_k_filter (k : option Z) (scaled : list R) : result (list R) :=
  match k with
  | None | Some 0%Z => Ok scaled
  | Some k =>
      let k := Z.min k (Z.of_nat (length scaled)) in
      if (k <=? 0)%Z then Raise RuntimeError
      else match (ts_sort_desc scaled).1 !! (Z.to_nat k - 1) with
           | Some threshold => Ok (masked_fill ((λ a, ts_lt a threshold) <$> scaled) scaled)
           | None => Raise RuntimeError
           end
  end.

(** The [top_p] filter; [drop.scatter(-1, index, drop)] un-sorts the mask. *)
Definition top_p_filter (top_p : option Qc) (scaled : list R) : list R :=
  match top_p with
  | Some p =>
      if bool_decide (p < 1)%Qc then
        let '(ordered, index) := ts_sort_desc scaled in
        let probs := ts_softmax ordered in
        let drop := zip_with (λ c q, ts_gt (ts_sub c q) p) (ts_cumsum probs) probs in
        masked_fill (scatter drop index drop) scaled
      else scaled
  | None => scaled
  end.

Definition _sample_with_params (seed : nat) (logits : list R) (p : SamplingParams) : result Z :=
  let scaled := (λ x, ts_div x (temperature p)) <$> logits in
  match top_k_filter (top_k p) scaled with
  | Raise e => Raise e
  | Ok scaled => Ok (ts_multinomial seed (ts_softmax (top_p_filter (top_p p) scaled)))
  end.
End sampler.

(** [_pinned]'s bucket: the next power of two, at least 16. *)
Definition pinned_key (size : Z) : Z := Z.shiftl 1 (Z.max 4 (Z.log2_up size)).

Record Sequence := mkSeq {
  s_uid : nat;
  s_req : nat;
  s_cache : Cache;
  next_token : Z;
  s_finished : bool;
  s_finish_reason : option FinishReason;
}.

Definition position (s : Sequence) : nat := num_tokens (s_cache s).

Record EngineCfg := mkEngineCfg {
  eos_token_id : Z;
  max_batch_size : nat;
  reserve_blocks : nat;
  history : nat;
}.

Section engine.
Context {R : Type} `{Torch R} `{TorchSampling R}.
#[local] Notation "'Vec'" := (list R).
#[local] Notation "'KV'" := (list (list R)).

Record Engine := mkEngine {
  e_pool : Pool KV;
  e_prefix : PCache;
  e_rotary : Rotary (R := R);
  e_admission : option AdmissionController;
  e_waiting : list nat;
  e_running : list Sequence;
  e_done : list nat;          (* [finished], the bounded history *)
  e_num_finished : nat;
  e_newly : list nat;
  e_cancel : gset string;
  e_emitted : list (nat * Z);
  e_preemptions : nat;
  e_reqs : gmap nat Request;
  e_ticks : nat;
  e_seed : nat;
  e_uid : nat;
}.

Definition set_pool p e := mkEngine p (e_prefix e) (e_rotary e) (e_admission e) (e_waiting e) (e_running e) (e_done e) (e_num_finished e) (e_newly e) (e_cancel e) (e_emitted e) (e_preemptions e) (e_reqs e) (e_ticks e) (e_seed e) (e_uid e).
Definition set_prefix c e := mkEngine (e_pool e) c (e_rotary e) (e_admission e) (e_waiting e) (e_running e) (e_done e) (e_num_finished e) (e_newly e) (e_cancel e) (e_emitted e) (e_preemptions e) (e_reqs e) (e_ticks e) (e_seed e) (e_uid e).
Definition set_rotary r e := mkEngine (e_pool e) (e_prefix e) r (e_admission e) (e_waiting e) (e_running e) (e_done e) (e_num_finished e) (e_newly e) (e_cancel e) (e_emitted e) (e_preemptions e) (e_reqs e) (e_ticks e) (e_seed e) (e_uid e).
Definition set_admission a e := mkEngine (e_pool e) (e_prefix e) (e_rotary e) a (e_waiting e) (e_running e) (e_done e) (e_num_finished e) (e_newly e) (e_cancel e) (e_emitted e) (e_preemptions e) (e_reqs e) (e_ticks e) (e_seed e) (e_uid e).
Definition set_waiting l e := mkEngine (e_pool e) (e_prefix e) (e_rotary e) (e_admission e) l (e_running e) (e_done e) (e_num_finished e) (e_newly e) (e_cancel e) (e_emitted e) (e_preemptions e) (e_reqs e) (e_ticks e) (e_seed e) (e_uid e).
Definition set_running l e := mkEngine (e_pool e) (e_prefix e) (e_rotary e) (e_admission e) (e_waiting e) l (e_done e) (e_num_finished e) (e_newly e) (e_cancel e) (e_emitted e) (e_preemptions e) (e_reqs e) (e_ticks e) (e_seed e) (e_uid e).
Definition set_outcomes d n l e := mkEngine (e_pool e) (e_prefix e) (e_rotary e) (e_admission e) (e_waiting e) (e_running e) d n l (e_cancel e) (e_emitted e) (e_preemptions e) (e_reqs e) (e_ticks e) (e_seed e) (e_uid e).
Definition set_cancel s e := mkEngine (e_pool e) (e_prefix e) (e_rotary e) (e_admission e) (e_waiting e) (e_running e) (e_done e) (e_num_finished e) (e_newly e) s (e_emitted e) (e_preemptions e) (e_reqs e) (e_ticks e) (e_seed e) (e_uid e).
Definition set_emitted l e := mkEngine (e_pool e) (e_prefix e) (e_rotary e) (e_admission e) (e_waiting e) (e_running e) (e_done e) (e_num_finished e) (e_newly e) (e_cancel e) l (e_preemptions e) (e_reqs e) (e_ticks e) (e_seed e) (e_uid e).
Definition set_preemptions n e := mkEngine (e_pool e) (e_prefix e) (e_rotary e) (e_admission e) (e_waiting e) (e_running e) (e_done e) (e_num_finished e) (e_newly e) (e_cancel e) (e_emitted e) n (e_reqs e) (e_ticks e) (e_seed e) (e_uid e).
Definition set_reqs m e := mkEngine (e_pool e) (e_prefix e) (e_rotary e) (e_admission e) (e_waiting e) (e_running e) (e_done e) (e_num_finished e) (e_newly e) (e_cancel e) (e_emitted e) (e_preemptions e) m (e_ticks e) (e_seed e) (e_uid e).
Definition set_counters t s u e := mkEngine (e_pool e) (e_prefix e) (e_rotary e) (e_admission e) (e_waiting e) (e_running e) (e_done e) (e_num_finished e) (e_newly e) (e_cancel e) (e_emitted e) (e_preemptions e) (e_reqs e) t s u.

Definition EM (A : Type) : Type := M Engine A.

(** The model, Python's [hash], the clock, and the engine's settings. *)
Context (sdpa : list KV → list KV → list KV → option (list (list bool)) → bool → list KV).
Context (w : NanoForCausalLM (R := R)).
Context (hash : Z → list Z → Z) (perf_counter : nat → Qc).
Context (cfg : EngineCfg).

(** ** Objects and clocks *)

Definition now : EM Qc := λ e,
  (Ok (perf_counter (e_ticks e)), set_counters (S (e_ticks e)) (e_seed e) (e_uid e) e).
Definition next_seed : EM nat := λ e,
  (Ok (e_seed e), set_counters (e_ticks e) (S (e_seed e)) (e_uid e) e).
Definition fresh_uid : EM nat := λ e,
  (Ok (e_uid e), set_counters (e_ticks e) (e_seed e) (S (e_uid e)) e).

Definition get_req (r : nat) : EM Request := λ e,
  match e_reqs e !! r with
  | Some q => (Ok q, e)
  | None => (Raise KeyError, e)
  end.
Definition upd_req (r : nat) (f : Request → Request) : EM unit :=
  modify (λ e, set_reqs (alter f r (e_reqs e)) e).

(** [req.finish(reason)] and [req.record_token(t)] read the clock. *)
Definition finish_req (r : nat) (reason : FinishReason) : EM unit :=
  let* t := now in upd_req r (finish reason t).
Definition record_token_req (r : nat) (token : Z) : EM unit :=
  let* t := now in upd_req r (record_token token t).

Definition on_epool {A} (m : M (Pool KV) A) : EM A := zoom e_pool set_pool m.
Definition on_prefix {A} (m : M (PrefixCache.PS (T := KV)) A) : EM A :=
  zoom (λ e, (e_pool e, e_prefix e)) (λ s e, set_prefix s.2 (set_pool s.1 e)) m.

(** [cache.free()] on a cache that is dropped afterwards. *)
Definition free_cache (c : Cache) : EM unit := λ e,
  match PagedKVCache.free (e_pool e, c) with (r, (p, _)) => (r, set_pool p e) end.

(** ** Queue *)

Definition _record_finished (r : nat) : EM unit :=
  modify (λ e, set_outcomes (deque_append (history cfg) r (e_done e)) (S (e_num_finished e)) (e_newly e ++ [r]) e).

Definition req_max_tokens (e : Engine) (r : nat) : Z :=
  match e_reqs e !! r with Some q => max_tokens (params q) | None => 0 end.
Definition req_output_len (e : Engine) (r : nat) : Z :=
  match e_reqs e !! r with Some q => Z.of_nat (output_len q) | None => 0 end.

Definition queued_tokens (e : Engine) : Z := foldr (λ r a, req_max_tokens e r + a)%Z 0%Z (e_waiting e).
Definition running_tokens (e : Engine) : Z :=
  foldr (λ s a, req_max_tokens e (s_req s) - req_output_len e (s_req s) + a)%Z 0%Z (e_running e).

(** [self.admission.admit(...)], on the controller the engine holds. *)
Definition on_admission {A} (c : AdmissionController) (m : M AdmissionController A) : EM A :=
  zoom (λ _, c) (λ c e, set_admission (Some c) e) m.

Definition add_request (r : nat) : EM unit :=
  let* e := get in
  match e_admission e with
  | Some c =>
      let* q := get_req r in
      let* t := now in
      let* (ok, reason) :=
        on_admission c (admit_ q (length (e_waiting e)) (queued_tokens e) (running_tokens e) t) in
      if negb ok then
        do* finish_req r REJECTED in
        do* upd_req r (set_rejection reason) in
        _record_finished r
      else modify (λ e, set_waiting (e_waiting e ++ [r]) e)
  | None => modify (λ e, set_waiting (e_waiting e ++ [r]) e)
  end.

Definition request_cancel (id : string) : EM unit := modify (λ e, set_cancel ({[id]} ∪ e_cancel e) e).

(** [l.remove(x)]: the first occurrence. *)
Fixpoint remove_first {A} (f : A → bool) (l : list A) : list A :=
  match l with
  | [] => []
  | x :: l => if f x then l else x :: remove_first f l
  end.

Definition req_id (e : Engine) (r : nat) : string :=
  match e_reqs e !! r with Some q => request_id q | None => "" end.

Definition apply_cancellations : EM (list nat) :=
  let* e := get in
  if bool_decide (e_cancel e = ∅) then ret []
  else
    let wanted := e_cancel e in
    do* modify (set_cancel ∅) in
    let* e := get in
    let victims := filter (λ s, req_id e (s_req s) ∈ wanted) (e_running e) in
    let* d1 := for_list victims (λ s,
        do* free_cache (s_cache s) in
        do* finish_req (s_req s) CANCELLED in
        do* _record_finished (s_req s) in
        do* modify (λ e, set_running (remove_first (λ s', s_uid s' =? s_uid s) (e_running e)) e) in
        ret (s_req s)) in
    let* e := get in
    let queued := filter (λ r, req_id e r ∈ wanted) (e_waiting e) in
    let* d2 := for_list queued (λ r,
        do* modify (λ e, set_waiting (remove_first (λ r', r' =? r) (e_waiting e)) e) in
        do* finish_req r CANCELLED in
        do* _record_finished r in
        ret r) in
    ret (d1 ++ d2).

Definition cancel (id : string) : EM bool :=
  do* request_cancel id in
  let* d := apply_cancellations in
  ret (match d with [] => false | _ => true end).

Definition drain_emitted : EM (list (nat * Z)) :=
  let* e := get in do* modify (set_emitted []) in ret (e_emitted e).

Definition drain_finished : EM (list nat) :=
  let* e := get in
  do* modify (λ e, set_outcomes (e_done e) (e_num_finished e) [] e) in
  ret (e_newly e).

Definition has_work (e : Engine) : bool :=
  match e_waiting e, e_running e with [], [] => false | _, _ => true end.

Definition engine_stats : EM EngineStats :=
  let* t := now in
  gets (λ e, let a := allocator (e_pool e) in
    mkEngineStats t (length (e_running e)) (length (e_waiting e)) (e_num_finished e)
      (BlockAllocator.num_allocated a) (Z.of_nat (BlockAllocator.num_blocks a))
      (hit_blocks (pc_stats (e_prefix e))) (query_blocks (pc_stats (e_prefix e)))).

(** ** Scheduling *)

Definition _blocks_needed (q : Request) (e : Engine) : nat := ceil_div (prompt_len q) (block_size (e_pool e)).

(** A method that works on one sequence's cache: the engine and that cache. *)
Definition EC : Type := Engine * Cache.
Definition on_engine {A} (m : EM A) : M EC A := zoom fst (λ e s, (e, s.2)) m.
Definition on_paged {A} (m : M (PC KV) A) : M EC A :=
  zoom (λ s, (e_pool s.1, s.2)) (λ pc s, (set_pool pc.1 s.1, pc.2)) m.
Definition on_model {A} (m : M (MSt (St := PC KV)) A) : M EC A :=
  zoom (λ s, (e_rotary s.1, (e_pool s.1, s.2)))
       (λ rs s, (set_rotary rs.1 (set_pool rs.2.1 s.1), rs.2.2)) m.

(** An empty list makes a float tensor, which the embedding refuses. *)
Definition token_tensor (ids : list Z) : result (list nat) :=
  match ids with [] => Raise RuntimeError | _ => to_indices ids end.

Definition _prefill (q : Request) : M EC (list Vec) :=
  let ids := prompt_token_ids q in
  let reusable := take (length ids - 1) ids in
  let* blocks := on_engine (on_prefix (PrefixCache.match_ hash reusable)) in
  let* n_cached := on_paged (PrefixCache.attach blocks) in
  let suffix := drop n_cached ids in
  do* on_engine (modify (λ e, set_rotary (ensure_capacity (length ids + 1) (e_rotary e)) e)) in
  let* tokens := lift (token_tensor suffix) in
  let positions := seq n_cached (length suffix) in
  let* logits := on_model (lm_forward sdpa w tokens (Some positions) true None) in
  let* (_, cache) := get in
  do* on_engine (on_prefix (PrefixCache.insert hash ids (block_table cache))) in
  ret logits.

(** [_sample] on one row of logits. *)
Definition _sample (logits : Vec) (q : Request) : EM Z :=
  if greedy (params q) then ret (ts_argmax logits)
  else
    let* seed := next_seed in
    lift (_sample_with_params seed logits (params q)).

(** [logits[:, -1]]. *)
Definition last_row (logits : list Vec) : result Vec :=
  match last logits with Some row => Ok row | None => Raise IndexError end.

Definition set_seq_token (t : Z) (s : Sequence) : Sequence :=
  mkSeq (s_uid s) (s_req s) (s_cache s) t (s_finished s) (s_finish_reason s).
Definition set_seq_cache (c : Cache) (s : Sequence) : Sequence :=
  mkSeq (s_uid s) (s_req s) c (next_token s) (s_finished s) (s_finish_reason s).
Definition set_seq_finish (r : FinishReason) (s : Sequence) : Sequence :=
  mkSeq (s_uid s) (s_req s) (s_cache s) (next_token s) true (Some r).

Definition _accept_token (s : Sequence) (token_id : Z) : EM Sequence :=
  let* q := get_req (s_req s) in
  if (token_id =? eos_token_id cfg)%Z && negb (ignore_eos (params q)) then ret (set_seq_finish EOS s)
  else
    do* record_token_req (s_req s) token_id in
    let* q := get_req (s_req s) in
    if (max_tokens (params q) <=? Z.of_nat (output_len q))%Z then ret (set_seq_finish LENGTH s)
    else ret s.

Definition _retire (s : Sequence) : EM nat :=
  do* free_cache (s_cache s) in
  do* finish_req (s_req s) (default LENGTH (s_finish_reason s)) in
  do* _record_finished (s_req s) in
  ret (s_req s).

(** Accept a sampled token, emit it if it was recorded, and say whether the
    sequence goes on; the tail of the loop bodies of [_admit] and [step]. *)
Definition accept_and_emit (s : Sequence) : EM Sequence :=
  let* q := get_req (s_req s) in
  let before := output_len q in
  let* s := _accept_token s (next_token s) in
  let* q := get_req (s_req s) in
  do* (if before <? output_len q then modify (λ e, set_emitted (e_emitted e ++ [(s_req s, next_token s)]) e)
       else ret tt) in
  ret s.

(** The [try] of [_admit]: the first token, or [None] once the handler has freed the
    cache and reported the request as preempted. *)
Definition try_prefill (r : nat) (q : Request) : M EC (option Z) :=
  catch (let* logits := _prefill q in
         let* row := lift (last_row logits) in
         let* token := on_engine (_sample row q) in
         ret (Some token))
        OutOfBlocks
        (do* on_paged PagedKVCache.free in
         do* on_engine (finish_req r PREEMPTED) in
         do* on_engine (_record_finished r) in
         ret None).

(** A block of code that owns a fresh cache. *)
Definition with_cache {A} (c : Cache) (m : M EC A) : EM (A * Cache) := λ e,
  match m (e, c) with
  | (Ok a, (e, c)) => (Ok (a, c), e)
  | (Raise x, (e, _)) => (Raise x, e)
  end.

Definition popleft : EM unit := modify (λ e, set_waiting (tail (e_waiting e)) e).

(** The [while] of [_admit].  Every round that goes on removes one waiting request,
    so as many rounds as there are waiting requests exhaust the queue. *)
Fixpoint admit_loop (fuel : nat) (admitted : list Sequence) (done : list nat) : EM (list Sequence * list nat) :=
  match fuel with
  | O => ret (admitted, done)
  | S fuel =>
      let* e := get in
      match e_waiting e with
      | [] => ret (admitted, done)
      | r :: _ =>
          if negb (length (e_running e) + length admitted <? max_batch_size cfg) then ret (admitted, done)
          else
            let* q := get_req r in
            let need := _blocks_needed q e + 1 in
            let reserve := Nat.max (reserve_blocks cfg) (length (e_running e) + length admitted + 1) in
            let* room := (if BlockAllocator.num_free (allocator (e_pool e)) <? need + reserve
                          then on_prefix (PrefixCache.ensure_free (need + reserve))
                          else ret true) in
            if negb room then ret (admitted, done)
            else if (match e_running e, admitted with [], [] => true | _, _ => false end)
                    && (BlockAllocator.num_blocks (allocator (e_pool e)) <? need + reserve) then
              do* popleft in
              do* finish_req r REJECTED in
              do* _record_finished r in
              admit_loop fuel admitted (done ++ [r])
            else
              do* popleft in
              let* t := now in
              do* upd_req r (set_scheduled (Some t)) in
              let* e := get in
              match pool_allocate (e_pool e) with
              | None =>
                  do* modify (λ e, set_waiting (r :: e_waiting e) e) in
                  ret (admitted, done)
              | Some cache =>
                  let* (token, cache) := with_cache cache (try_prefill r q) in
                  match token with
                  | None => admit_loop fuel admitted (done ++ [r])
                  | Some token =>
                      let* u := fresh_uid in
                      let* s := accept_and_emit (mkSeq u r cache token false None) in
                      if s_finished s then
                        let* r' := _retire s in
                        admit_loop fuel admitted (done ++ [r'])
                      else admit_loop fuel (admitted ++ [s]) done
                  end
              end
      end
  end.

Definition _admit : EM (list Sequence * list nat) :=
  let* e := get in admit_loop (length (e_waiting e)) [] [].

(** [req.output_token_ids.clear(); ...]: what preemption erases. *)
Definition clear_progress (q : Request) : Request := set_scheduled None (set_output None [] [] q).

Definition _preempt_newest : EM unit :=
  let* e := get in
  match py_pop (e_running e) with
  | None => raise OutOfBlocks
  | Some (victim, rest) =>
      do* modify (set_running rest) in
      do* free_cache (s_cache victim) in
      do* upd_req (s_req victim) clear_progress in
      do* modify (λ e, set_preemptions (S (e_preemptions e)) e) in
      modify (λ e, set_waiting (s_req victim :: e_waiting e) e)
  end.

(** ** Execution *)

Definition _sample_batch (logits : list Vec) (batch : list Sequence) : EM (list Z) :=
  let* qs := for_list batch (λ s, get_req (s_req s)) in
  if forallb (λ q, greedy (params q)) qs then ret (ts_argmax <$> logits)
  else for_list (zip logits qs) (λ '(row, q), _sample row q).

(** The batched pass mutates the running sequences' caches in place. *)
Definition on_batch {A} (m : M (BSt (T := KV)) A) : EM A :=
  zoom (λ e, (e_pool e, s_cache <$> e_running e))
       (λ s e, set_running (zip_with (λ q c, set_seq_cache c q) (e_running e) s.2) (set_pool s.1 e)) m.

(** The loop over [zip(batch, next_ids)]: outcomes and survivors. *)
Fixpoint accept_loop (l : list (Sequence * Z)) (done : list nat) (still : list Sequence) :
    EM (list nat * list Sequence) :=
  match l with
  | [] => ret (done, still)
  | (s, token_id) :: l =>
      let* s := accept_and_emit (set_seq_token token_id s) in
      if s_finished s then
        let* r := _retire s in
        accept_loop l (done ++ [r]) still
      else accept_loop l done (still ++ [s])
  end.

Definition step : EM (list nat) :=
  let* cancelled := apply_cancellations in
  let* (new_seqs, done_in_admit) := _admit in
  let done_in_admit := cancelled ++ done_in_admit in
  do* modify (λ e, set_running (e_running e ++ new_seqs) e) in
  let* e := get in
  match e_running e with
  | [] => ret done_in_admit
  | batch =>
      let positions := position <$> batch in
      do* modify (λ e, set_rotary (ensure_capacity (max_list_nat positions + 1) (e_rotary e)) e) in
      let* e := get in
      let* started := now in
      let* logits :=
        catch (let* l := on_batch (forward_batch sdpa w (e_rotary e) (next_token <$> batch) positions) in ret (Some l))
          OutOfBlocks (do* _preempt_newest in ret None) in
      match logits with
      | None => ret done_in_admit
      | Some logits =>
          let* e := get in
          let batch := e_running e in
          let* next_ids := _sample_batch logits batch in
          do* match e_admission e with
              | Some c => let* t := now in
                  modify (set_admission (Some (record_step (t - started)%Qc (Z.of_nat (length batch)) c)))
              | None => ret tt
              end in
          let* (done, still) := accept_loop (zip batch next_ids) done_in_admit [] in
          do* modify (set_running still) in
          ret done
      end
  end.

(** The parts of [step] after the cancellations: admission; the decode pass, which gives no
    logits when there is nothing to decode or the pool ran dry; sampling and accepting. *)
Definition step_admit (cancelled : list nat) : EM (list nat) :=
  let* (new_seqs, done_in_admit) := _admit in
  do* modify (λ e, set_running (e_running e ++ new_seqs) e) in
  ret (cancelled ++ done_in_admit).

Definition step_decode : EM (option (list (list R) * Qc)) :=
  let* e := get in
  match e_running e with
  | [] => ret None
  | batch =>
      let positions := position <$> batch in
      do* modify (λ e, set_rotary (ensure_capacity (max_list_nat positions + 1) (e_rotary e)) e) in
      let* e := get in
      let* started := now in
      catch (let* l := on_batch (forward_batch sdpa w (e_rotary e) (next_token <$> batch) positions) in ret (Some (l, started)))
        OutOfBlocks (do* _preempt_newest in ret None)
  end.

Definition step_accept (logits : list (list R)) (started : Qc) (done_in_admit : list nat) : EM (list nat) :=
  let* e := get in
  let batch := e_running e in
  let* next_ids := _sample_batch logits batch in
  do* match e_admission e with
      | Some c => let* t := now in
          modify (set_admission (Some (record_step (t - started)%Qc (Z.of_nat (length batch)) c)))
      | None => ret tt
      end in
  let* (done, still) := accept_loop (zip batch next_ids) done_in_admit [] in
  do* modify (set_running still) in
  ret done.

(** [run]: [None] when [fuel] rounds were not enough. *)
Fixpoint run_loop (fuel : nat) (out : list nat) : EM (option (list nat)) :=
  let* e := get in
  if has_work e then
    match fuel with
    | O => ret None
    | S fuel =>
        do* step in
        do* modify (set_emitted []) in
        let* l := drain_finished in
        run_loop fuel (out ++ l)
    end
  else
    let* l := drain_finished in ret (Some (out ++ l)).

Definition run (fuel : nat) (requests : list nat) : EM (option (list nat)) :=
  do* for_each requests add_request in run_loop fuel [].

(** [__init__] over a pool and a model. *)
Definition engine_init (p : Pool KV) (rotary : Rotary (R := R)) (enable_prefix_cache : bool)
    (admission : option AdmissionConfig) (reqs : gmap nat Request) : Engine :=
  mkEngine p (PrefixCache.init enable_prefix_cache) rotary (controller_init <$> admission)
    [] [] [] 0 [] ∅ [] 0 reqs 0 0 0.

Lemma step_in_parts e : step e =
  (let* cancelled := apply_cancellations in
   let* done_in_admit := step_admit cancelled in
   let* decoded := step_decode in
   match decoded with
   | Some (logits, started) => step_accept logits started done_in_admit
   | None => ret done_in_admit
   end) e.
Proof.
  rw /step /step_admit /step_decode /bind. destruct (apply_cancellations e) as [[c|x] e1]; [|done].
  destruct (_admit e1) as [[[new dn]|x] e2]; [|done]. cbn -[_preempt_newest]. destruct (e_running e2 ++ new); [done|].
  rw /catch /bind. cbn -[_preempt_newest]. destruct (on_batch _ _) as [[logits|x] e3]; cbn -[_preempt_newest]; [done|]. case_decide; [|done].
  by destruct (_preempt_newest e3) as [[] ?].
Qed.
End engine.
