(* ===== verification/Frame.v ===== *)
(** * What the engine leaves alone (engine/scheduler.py)

    The callers of the engine keep references to the requests they submit and read
    them back afterwards.  Whatever the engine does, it only touches requests that were
    submitted to it; it never changes what the client asked; and every time it writes
    into a request is a reading of the clock taken during the call. *)

From Stdlib Require Import ssreflect QArith Qcanon.
From stdpp Require Import prelude gmap gmultiset strings sorting list.
From S2P Require Import Prelude Config BlockManager KvCache Transformer PrefixCache Types Admission Batch Scheduler.

(** The times recorded in a request. *)
Definition stamps (q : Request) : list Qc :=
  option_list (scheduled_time q) ++ option_list (first_token_time q) ++ option_list (finish_time q) ++ token_times q.

(** What the client asked for. *)
Record same_ask (q q' : Request) : Prop := {
  sa_prompt : prompt_token_ids q' = prompt_token_ids q;
  sa_params : params q' = params q;
  sa_id : request_id q' = request_id q;
  sa_arrival : arrival_time q' = arrival_time q;
  sa_deadline : deadline q' = deadline q;
}.

#[export] Instance same_ask_preorder : PreOrder same_ask.
Proof. split; [by split|]. intros x y z [] []. split; congruence. Qed.

Lemma remove_first_subset {A} (f : A → bool) l x : x ∈ remove_first f l → x ∈ l.
Proof. induction l as [|y l IH]; cbn; [done|]. destruct (f y); set_solver. Qed.

Create HintDb frame.

Section frame.
Context {R : Type} `{HT : Torch R} `{HS : TorchSampling R}.
#[local] Notation "'KV'" := (list (list R)).
Context (sdpa : list KV → list KV → list KV → option (list (list bool)) → bool → list KV).
Context (w : NanoForCausalLM (R := R)) (hash : Z → list Z → Z) (clock : nat → Qc) (cfg : EngineCfg).
Context (X : gset nat) (plain : bool).
Implicit Types (e : Engine (R := R)).

(** Between the readings [a] and [b] of the clock. *)
Definition read_in (a b : nat) (t : Qc) : Prop := ∃ n, a ≤ n ∧ n < b ∧ t = clock n.

Definition moved (a b : nat) (q q' : Request) : Prop :=
  same_ask q q' ∧ ∀ t, t ∈ stamps q' → t ∈ stamps q ∨ read_in a b t.

(** The requests the engine holds. *)
Definition owned e : gset nat := list_to_set (e_waiting e ++ (s_req <$> e_running e)).

(** From the reading [a] of the clock to [b], the store only changes at requests of [X], and each as [moved]. *)
Definition store_moves (a b : nat) (m m' : gmap nat Request) : Prop :=
  ∀ r, match m !! r, m' !! r with
       | Some q, Some q' => moved a b q q' ∧ (r ∉ X → q' = q)
       | None, None => True
       | _, _ => False
       end.

(** Only requests of [X], and, if [plain], no admission control. *)
Definition inside e : Prop := owned e ⊆ X ∧ (plain = true → e_admission e = None).

Record evolves e e' : Prop := {
  ev_owned : inside e';
  ev_ticks : e_ticks e ≤ e_ticks e';
  ev_store : store_moves (e_ticks e) (e_ticks e') (e_reqs e) (e_reqs e');
}.

Lemma moved_refl a b q : moved a b q q.
Proof. split; [done|auto]. Qed.

Lemma moved_trans a b c q1 q2 q3 : a ≤ b → b ≤ c → moved a b q1 q2 → moved b c q2 q3 → moved a c q1 q3.
Proof.
  intros Hab Hbc [H1 Ht1] [H2 Ht2]. split; [by etrans|]. intros t Ht.
  destruct (Ht2 t Ht) as [Hin|(n & ? & ? & ->)]; [|right; exists n; split_and!; [lia|lia|done]].
  destruct (Ht1 t Hin) as [|(n & ? & ? & ->)]; [auto|right; exists n; split_and!; [lia|lia|done]].
Qed.

Lemma store_moves_refl a b m : store_moves a b m m.
Proof. intros r. destruct (m !! r); [|done]. split; [by apply moved_refl|done]. Qed.

Lemma store_moves_trans a b c m1 m2 m3 : a ≤ b → b ≤ c →
  store_moves a b m1 m2 → store_moves b c m2 m3 → store_moves a c m1 m3.
Proof.
  intros Hab Hbc H1 H2 r. specialize (H1 r). specialize (H2 r).
  destruct (m1 !! r), (m2 !! r), (m3 !! r); try done. destruct H1 as [Hm1 Hx1], H2 as [Hm2 Hx2].
  split; [by eapply moved_trans|]. intros Hx. by rw Hx2 // Hx1.
Qed.

Lemma evolves_refl e : inside e → evolves e e.
Proof. intros Ho. split; [done|lia|apply store_moves_refl]. Qed.

Lemma evolves_trans e1 e2 e3 : evolves e1 e2 → evolves e2 e3 → evolves e1 e3.
Proof. intros [Ho1 Ht1 Hs1] [Ho2 Ht2 Hs2]. split; [done|lia|by eapply store_moves_trans]. Qed.

(** Changes that move no request and no clock. *)
Lemma evolves_quiet e e' : inside e' → e_reqs e' = e_reqs e → e_ticks e' = e_ticks e → evolves e e'.
Proof. intros Ho Hr Ht. split; [done|lia|]. rw Hr. apply store_moves_refl. Qed.

(** [m] keeps the frame from every state whose engine, [π s], holds only requests of [X], and returns
    values in [P]. *)
Definition keeps {S A} (π : S → Engine) (P : A → Prop) (m : M S A) : Prop :=
  ∀ s, inside (π s) → wp m (λ a s', P a ∧ evolves (π s) (π s')) (λ _ s', evolves (π s) (π s')) s.

Section rules.
Context {S : Type} (π : S → Engine (R := R)).

Lemma keeps_mono {A} (P Q : A → Prop) (m : M S A) : keeps π P m → (∀ a, P a → Q a) → keeps π Q m.
Proof. intros Hm HPQ s Ho. eapply wp_mono; [by apply Hm| |done]. naive_solver. Qed.

Lemma keeps_any {A} (P : A → Prop) (m : M S A) : keeps π P m → keeps π (λ _, True) m.
Proof. intros Hm. by eapply keeps_mono. Qed.

Lemma keeps_ret {A} (P : A → Prop) (a : A) : P a → keeps π P (ret a).
Proof. intros Ha s Ho. split; [done|by apply evolves_refl]. Qed.

Lemma keeps_raise {A} (P : A → Prop) x : keeps π P (raise x).
Proof. intros s Ho. by apply evolves_refl. Qed.

Lemma keeps_get : keeps π (λ s, inside (π s)) get.
Proof. intros s Ho. split; [done|by apply evolves_refl]. Qed.

Lemma keeps_bind {A B} (P : A → Prop) (Q : B → Prop) (m : M S A) (k : A → M S B) :
  keeps π P m → (∀ a, P a → keeps π Q (k a)) → keeps π Q (bind m k).
Proof.
  intros Hm Hk s Ho. apply wp_bind. eapply wp_mono; [by apply Hm| |done].
  intros a s1 [Ha He1]. eapply wp_mono; [apply (Hk a Ha), (ev_owned _ _ He1)|..].
  - intros b s2 [Hb He2]. split; [done|by eapply evolves_trans].
  - intros x s2 He2. by eapply evolves_trans.
Qed.

Lemma keeps_catch {A} (P : A → Prop) (m h : M S A) x : keeps π P m → keeps π P h → keeps π P (catch m x h).
Proof.
  intros Hm Hh s Ho. apply wp_catch. eapply wp_mono; [by apply Hm|done|].
  intros x' s1 He1. cbn. case_decide; [|done]. eapply wp_mono; [apply Hh, (ev_owned _ _ He1)|..].
  - intros b s2 [Hb He2]. split; [done|exact (evolves_trans _ _ _ He1 He2)].
  - intros y s2 He2. exact (evolves_trans _ _ _ He1 He2).
Qed.

Lemma keeps_for_list {A B} (P : B → Prop) (l : list A) (f : A → M S B) :
  (∀ a, a ∈ l → keeps π P (f a)) → keeps π (Forall P) (for_list l f).
Proof.
  induction l as [|a l IH]; intros Hf; [by apply keeps_ret; constructor|]. cbn [for_list].
  eapply keeps_bind; [apply Hf; by left|]. intros b Hb.
  eapply keeps_bind; [apply IH; intros ??; apply Hf; by right|]. intros bs Hbs. apply keeps_ret. by constructor.
Qed.

Lemma keeps_lift {A} (r : result A) : keeps π (λ _, True) (lift r).
Proof. intros s Ho. destruct r; cbn; [split; [done|]|]; by apply evolves_refl. Qed.

(** Working on a part of the state that is neither a request nor the clock. *)
Lemma keeps_zoom_quiet {T A} proj (inj : T → S → S) (m : M T A) :
  (∀ t s, inside (π s) → inside (π (inj t s)) ∧ e_reqs (π (inj t s)) = e_reqs (π s) ∧ e_ticks (π (inj t s)) = e_ticks (π s)) →
  keeps π (λ _, True) (zoom proj inj m).
Proof.
  intros Hq s Ho. apply wp_zoom. rw /wp. destruct (m (proj s)) as [[a|x] t]; destruct (Hq t s Ho) as (? & ? & ?);
    [split; [done|]|]; by apply evolves_quiet.
Qed.
End rules.

(** Changes of the engine's own fields. *)
Lemma keeps_modify (f : Engine → Engine) :
  (∀ e, inside e → inside (f e) ∧ e_reqs (f e) = e_reqs e ∧ e_ticks (f e) = e_ticks e) →
  keeps id (λ _, True) (modify f).
Proof. intros Hf e Ho. destruct (Hf e Ho) as (? & ? & ?). split; [done|]. by apply evolves_quiet. Qed.

(** The requests of the engine's lists. *)
Lemma owned_waiting e r : inside e → r ∈ e_waiting e → r ∈ X.
Proof. intros Ho Hr. apply Ho. rw /owned. set_solver. Qed.
Lemma owned_running e s : inside e → s ∈ e_running e → s_req s ∈ X.
Proof. intros Ho Hs. apply Ho. rw /owned elem_of_list_to_set. apply elem_of_app. right. by apply list_elem_of_fmap_2. Qed.
Lemma owned_intro e : (∀ r, r ∈ e_waiting e → r ∈ X) → (∀ s, s ∈ e_running e → s_req s ∈ X) →
  (plain = true → e_admission e = None) → inside e.
Proof.
  intros Hw Hr Ha. split; [|done]. intros r. rw /owned elem_of_list_to_set elem_of_app. intros [Hin|Hin]; [by apply Hw|].
  apply list_elem_of_fmap in Hin as (s & -> & Hs). by apply Hr.
Qed.

(** Writing one request, with the clock moved on. *)
Lemma evolves_write e e' r f :
  r ∈ X → inside e' → e_reqs e' = alter f r (e_reqs e) → e_ticks e ≤ e_ticks e' →
  (∀ q, moved (e_ticks e) (e_ticks e') q (f q)) → evolves e e'.
Proof.
  intros Hr Ho Hrq Ht Hm. split; [done|done|]. intros r'. rw Hrq. destruct (decide (r' = r)) as [->|Hne].
  - rw lookup_alter_eq. destruct (e_reqs e !! r); [by split|done].
  - rw lookup_alter_ne //. destruct (e_reqs e !! r'); [|done]. split; [by apply moved_refl|done].
Qed.

(** Reading the clock and writing the reading into a request. *)
Lemma keeps_stamp r (f : Qc → Request → Request) :
  r ∈ X → (∀ t q, same_ask q (f t q) ∧ ∀ t', t' ∈ stamps (f t q) → t' = t ∨ t' ∈ stamps q) →
  keeps id (λ _, True) (let* t := now clock in upd_req r (f t)).
Proof.
  intros Hr Hf e Ho. rw /wp /=. split; [done|]. eapply (evolves_write e _ r (f (clock (e_ticks e)))); try done; [cbn; lia|].
  intros q. destruct (Hf (clock (e_ticks e)) q) as [Ha Hs]. split; [done|]. intros t [->|]%Hs; [|auto].
  right. exists (e_ticks e). split_and!; [done|cbn; lia|done].
Qed.

(** Writes that record no new time. *)
Lemma keeps_upd r (f : Request → Request) :
  r ∈ X → (∀ q, same_ask q (f q) ∧ ∀ t, t ∈ stamps (f q) → t ∈ stamps q) → keeps id (λ _, True) (upd_req r f).
Proof.
  intros Hr Hf e Ho. rw /wp /=. split; [done|]. eapply (evolves_write e _ r f); try done.
  intros q. destruct (Hf q) as [Ha Hs]. split; [done|]. auto.
Qed.

Lemma keeps_ext {S A} (π : S → Engine) (P : A → Prop) (m m' : M S A) : (∀ s, m s = m' s) → keeps π P m' → keeps π P m.
Proof. intros Heq Hm s Ho. rw /wp Heq. by apply Hm. Qed.

Lemma keeps_now : keeps id (λ _, True) (now clock).
Proof.
  intros e Ho. cbn. split; [done|]. split; cbn; [done|lia|apply store_moves_refl].
Qed.

Lemma keeps_on_engine {A} (P : A → Prop) (m : EM A) : keeps id P m → keeps fst P (on_engine m).
Proof. intros Hm [e c] Ho. apply wp_zoom. by apply (Hm e). Qed.

Lemma keeps_with_cache {A} (P : A → Prop) c (m : M EC A) : keeps fst P m → keeps id (λ ac, P ac.1) (with_cache c m).
Proof.
  intros Hm e Ho. specialize (Hm (e, c) Ho). rw /wp in Hm. rw /wp /with_cache. by destruct (m (e, c)) as [[] []].
Qed.

(** The requests of a batch. *)
Definition mine (s : Sequence) : Prop := s_req s ∈ X.

Lemma owned_running_all e : inside e → Forall mine (e_running e).
Proof. intros Ho. apply Forall_forall. intros s. by apply owned_running. Qed.

Lemma owned_set_running l e : Forall mine l → inside e → inside (set_running l e).
Proof.
  intros Hl Ho. apply owned_intro; cbn; [intros r; by apply owned_waiting|by apply Forall_forall|apply Ho].
Qed.

Lemma owned_set_waiting l e : (∀ r, r ∈ l → r ∈ X) → inside e → inside (set_waiting l e).
Proof. intros Hl Ho. apply owned_intro; cbn; [done| |apply Ho]. intros s. by apply owned_running. Qed.

(** ** The engine's operations *)

#[local] Hint Extern 1 (keeps _ _ (ret _)) => apply keeps_ret : frame.
#[local] Hint Resolve keeps_raise keeps_get keeps_lift keeps_now keeps_on_engine : frame.

Lemma get_req_keeps r : keeps id (λ _, True) (get_req r).
Proof. intros e Ho. rw /wp /get_req. destruct (e_reqs e !! r); [split; [done|]|]; by apply evolves_refl. Qed.

Lemma finish_req_keeps r fr : r ∈ X → keeps id (λ _, True) (finish_req clock r fr).
Proof.
  intros Hr. apply keeps_stamp; [done|]. intros t q. split; [by split|]. intros t'. rw /stamps /=. set_solver.
Qed.

Lemma record_token_req_keeps r tok : r ∈ X → keeps id (λ _, True) (record_token_req clock r tok).
Proof.
  intros Hr. apply keeps_stamp; [done|]. intros t q. split; [by split|]. intros t'. rw /stamps /=.
  destruct (output_token_ids q); set_solver.
Qed.

Lemma on_prefix_keeps {A} (m : M (PrefixCache.PS (T := KV)) A) : keeps id (λ _, True) (on_prefix m).
Proof. by apply keeps_zoom_quiet. Qed.

Lemma free_cache_keeps c : keeps id (λ _, True) (free_cache c).
Proof.
  intros e Ho. rw /wp /free_cache. destruct (PagedKVCache.free _) as [[] []]; [split; [done|]|]; by apply evolves_quiet.
Qed.

Lemma record_finished_keeps r : keeps id (λ _, True) (_record_finished cfg r).
Proof. by apply keeps_modify. Qed.

Lemma popleft_keeps : keeps id (λ _, True) popleft.
Proof.
  apply keeps_modify. intros e Ho. split_and!; [|done|done]. apply owned_set_waiting; [|done].
  intros r Hr. eapply owned_waiting; [done|]. destruct (e_waiting e); [done|by right].
Qed.
#[local] Hint Resolve get_req_keeps finish_req_keeps record_token_req_keeps on_prefix_keeps free_cache_keeps
  record_finished_keeps popleft_keeps : frame.

(** Sequencing with nothing to remember of the first value. *)
Lemma keeps_seq {S A B} (π : S → Engine) (Q : B → Prop) (m : M S A) (k : A → M S B) :
  keeps π (λ _, True) m → (∀ a, keeps π Q (k a)) → keeps π Q (bind m k).
Proof. intros Hm Hk. eapply keeps_bind; [exact Hm|]. auto. Qed.

#[local] Ltac keep1 :=
  lazymatch goal with
  | |- keeps _ _ (bind get _) => eapply keeps_bind; [apply keeps_get|let H := fresh "Ho" in intros ?e H; unfold id in H]
  | |- keeps _ _ (bind _ _) => eapply keeps_seq; [solve [eauto with frame]|intros ?]
  | |- keeps _ _ (if ?b then _ else _) => destruct b eqn:?
  | |- keeps _ _ (match ?x with _ => _ end) => destruct x eqn:?
  | |- keeps _ _ (ret _) => apply keeps_ret
  | |- keeps _ _ (raise _) => apply keeps_raise
  end.
#[local] Ltac keep := repeat keep1; try solve [eauto with frame].

Lemma sample_keeps logits q : keeps id (λ _, True) (_sample logits q).
Proof. rw /_sample. keep. eapply keeps_seq; [|intros ?; keep]. intros e Ho. cbn. split; [done|]. by apply evolves_quiet. Qed.
#[local] Hint Resolve sample_keeps : frame.

Lemma accept_token_keeps s t : mine s → keeps id mine (_accept_token clock cfg s t).
Proof. intros Hs. rw /_accept_token. keep. Qed.

Lemma accept_and_emit_keeps s : mine s → keeps id mine (accept_and_emit clock cfg s).
Proof.
  intros Hs. rw /accept_and_emit. keep. eapply keeps_bind; [by apply accept_token_keeps|]. intros s' Hs'. keep.
  eapply keeps_seq; [|intros ?; keep]. case_match; [|keep]. by apply keeps_modify.
Qed.

Lemma retire_keeps s : mine s → keeps id (λ r, r ∈ X) (_retire clock cfg s).
Proof. intros Hs. rw /_retire. keep. Qed.

Lemma on_paged_keeps {A} (m : M (PC KV) A) : keeps (S := EC (R := R)) fst (λ _, True) (on_paged m).
Proof. by apply keeps_zoom_quiet. Qed.
Lemma on_model_keeps {A} (m : M (MSt (St := PC KV)) A) : keeps (S := EC (R := R)) fst (λ _, True) (on_model m).
Proof. by apply keeps_zoom_quiet. Qed.
#[local] Hint Resolve on_paged_keeps on_model_keeps : frame.

Lemma prefill_keeps q : keeps (S := EC (R := R)) fst (λ _, True) (_prefill sdpa w hash q).
Proof.
  rw /_prefill. do 2 keep1. cbn zeta. eapply keeps_seq; [by apply keeps_on_engine, keeps_modify|]. intros ?. keep.
Qed.
#[local] Hint Resolve prefill_keeps : frame.

Lemma try_prefill_keeps r q : r ∈ X → keeps (S := EC (R := R)) fst (λ _, True) (try_prefill sdpa w hash clock cfg r q).
Proof. intros Hr. rw /try_prefill. apply keeps_catch; keep. Qed.

Lemma admit_loop_keeps fuel : ∀ admitted done, Forall mine admitted → Forall (.∈ X) done →
  keeps id (λ res, Forall mine res.1 ∧ Forall (.∈ X) res.2) (admit_loop sdpa w hash clock cfg fuel admitted done).
Proof.
  induction fuel as [|fuel IH]; intros admitted done Ha Hd; cbn [admit_loop]; [by keep|]. keep1.
  destruct (e_waiting e) as [|r rest] eqn:Hwt; [by keep|].
  assert (r ∈ X) as Hr by (eapply owned_waiting; [done|rw Hwt; by left]).
  destruct (negb _); [by keep|]. keep1. cbn zeta.
  eapply keeps_seq; [case_match; keep; done|]. intros room.
  destruct (negb room); [by keep|]. destruct (_ && _).
  { do 3 keep1. apply IH; [done|]. apply Forall_app_2; [done|by constructor]. }
  keep1. eapply keeps_ext; [intros e'; symmetry; apply bind_assoc|].
  eapply keeps_seq; [apply (keeps_stamp r (λ t, set_scheduled (Some t))); [done|];
    intros t q; split; [by split|]; intros t'; rw /stamps /=; set_solver|].
  intros _. keep1. destruct (pool_allocate _) as [cache|].
  - eapply keeps_seq; [eapply keeps_any, (keeps_with_cache (λ _, True)), try_prefill_keeps, Hr|].
    intros [[token|] cache']; [|apply IH; [done|]; apply Forall_app_2; [done|by constructor]].
    eapply keeps_seq; [intros e2 Ho2; cbn; split; [done|]; by apply evolves_quiet|]. intros u.
    eapply keeps_bind; [by apply accept_and_emit_keeps|]. intros s Hs. destruct (s_finished s).
    + eapply keeps_bind; [by apply retire_keeps|]. intros r' Hr'. apply IH; [done|]. apply Forall_app_2; [done|by constructor].
    + apply IH; [|done]. apply Forall_app_2; [done|by constructor].
  - eapply keeps_seq; [|intros ?; keep; done]. apply keeps_modify. intros e2 Ho2. split_and!; [|done|done].
    apply owned_set_waiting; [|done]. intros r' [->|Hin]%elem_of_cons; [done|]. by eapply owned_waiting.
Qed.

Lemma preempt_newest_keeps : keeps id (λ _, True) (_preempt_newest (R := R)).
Proof.
  rw /_preempt_newest. keep1. destruct (py_pop _) as [[v rest]|] eqn:Hp; [|by keep]. apply py_pop_Some in Hp.
  pose proof (owned_running_all e Ho) as Hall. rw Hp in Hall. apply Forall_app in Hall as [Hrest [Hv _]%Forall_cons].
  eapply keeps_seq; [apply keeps_modify; intros e2 Ho2; split_and!; [by apply owned_set_running|done|done]|]. intros _.
  keep1. eapply keeps_seq; [apply keeps_upd; [exact Hv|]; intros q; split; [by split|]; intros t; rw /stamps /=; set_solver|].
  intros _. eapply keeps_seq; [by apply keeps_modify|]. intros _. apply keeps_modify. intros e2 Ho2. split_and!; [|done|done].
  apply owned_set_waiting; [|done]. intros r' [->|Hin]%elem_of_cons; [done|]. by eapply owned_waiting.
Qed.

Lemma apply_cancellations_keeps : keeps id (λ _, True) (apply_cancellations clock cfg).
Proof.
  rw /apply_cancellations. keep1. destruct (bool_decide _); [by keep|]. cbn zeta.
  eapply keeps_seq; [by apply keeps_modify|]. intros _. keep1.
  eapply keeps_seq; [eapply keeps_any, (keeps_for_list id (λ _, True))|].
  { intros s [_ Hs]%list_elem_of_filter. assert (mine s) as Hm by by eapply owned_running. keep1.
    eapply keeps_seq; [by apply finish_req_keeps|]. intros _. keep1.
    eapply keeps_seq; [|intros ?; keep; done]. apply keeps_modify. intros e2 Ho2. split_and!; [|done|done].
    apply owned_set_running; [|done]. apply Forall_forall. intros s' Hs'. eapply owned_running; [exact Ho2|].
    by eapply remove_first_subset. }
  intros d1. keep1. eapply keeps_seq; [eapply keeps_any, (keeps_for_list id (λ _, True))|intros ?; keep; done].
  intros r [_ Hr]%list_elem_of_filter. assert (r ∈ X) as Hm by by eapply owned_waiting.
  eapply keeps_seq; [|intros ?; keep; done]. apply keeps_modify. intros e2 Ho2. split_and!; [|done|done].
  apply owned_set_waiting; [|done]. intros r' Hr'. eapply owned_waiting; [exact Ho2|]. by eapply remove_first_subset.
Qed.

Lemma sample_batch_keeps logits batch : keeps id (λ _, True) (_sample_batch logits batch).
Proof.
  rw /_sample_batch. eapply keeps_seq; [eapply keeps_any, (keeps_for_list id (λ _, True)); intros; keep|]. intros qs.
  keep. eapply keeps_any, (keeps_for_list id (λ _, True)). intros [row q] _. keep.
Qed.

Lemma on_batch_keeps {A} (m : M (BSt (T := KV)) A) : keeps id (λ _, True) (on_batch m).
Proof.
  apply keeps_zoom_quiet. intros s e Ho. split_and!; [|done|done].
  apply (owned_set_running _ (set_pool s.1 e)); [|done]. apply Forall_forall. intros x Hx.
  apply elem_of_lookup_zip_with in Hx as (i & q & c & -> & Hq & _).
  apply (owned_running e q Ho). by eapply list_elem_of_lookup_2.
Qed.

Lemma accept_loop_keeps l : ∀ done still, Forall (λ st, mine st.1) l → Forall mine still →
  keeps id (λ res, Forall mine res.2) (accept_loop clock cfg l done still).
Proof.
  induction l as [|[s t] l IH]; intros done still Hl Hs; cbn [accept_loop]; [by keep|].
  apply Forall_cons in Hl as [Hm Hl]. eapply keeps_bind; [by apply accept_and_emit_keeps|].
  intros s' Hs'. destruct (s_finished s').
  - eapply keeps_bind; [by apply retire_keeps|]. intros r Hr. by apply IH.
  - apply IH; [done|]. apply Forall_app_2; [done|by constructor].
Qed.

(** One iteration of the engine, in its parts. *)
Lemma step_admit_keeps cancelled : keeps id (λ _, True) (step_admit sdpa w hash clock cfg cancelled).
Proof.
  rw /step_admit. eapply keeps_bind.
  { rw /_admit. keep1. by apply admit_loop_keeps. }
  intros [new dn] [Hnew _]. eapply keeps_seq; [|intros ?; by keep].
  apply keeps_modify. intros e Ho. split_and!; [|done|done]. apply owned_set_running; [|done].
  apply Forall_app_2; [by apply owned_running_all|done].
Qed.

Lemma step_decode_keeps : keeps id (λ _, True) (step_decode sdpa w clock (R := R)).
Proof.
  rw /step_decode. keep1. destruct (e_running e) as [|s0 batch0]; [by keep|]. cbn zeta.
  eapply keeps_seq; [by apply keeps_modify|]. intros _. keep1. keep1. rename a into started. apply keeps_catch.
  - eapply keeps_seq; [apply on_batch_keeps|]. intros l. by keep.
  - eapply keeps_seq; [apply preempt_newest_keeps|]. intros []. by keep.
Qed.

Lemma step_accept_keeps logits started dn : keeps id (λ _, True) (step_accept clock cfg logits started dn).
Proof.
  rw /step_accept. keep1. cbn zeta. pose proof (owned_running_all _ Ho) as Hb.
  eapply keeps_seq; [apply sample_batch_keeps|]. intros ids. eapply keeps_seq.
  { destruct (e_admission e) eqn:Hadm; [|by keep]. keep1. apply keeps_modify. intros e2 [Ho2 Hp2]. split_and!; [|done|done].
    split; [done|]. intros Hp. destruct Ho as [_ Hno]. rw Hno in Hadm; done. }
  intros _. eapply keeps_bind.
  { apply accept_loop_keeps; [|done]. apply Forall_forall. intros [s t] Hin. apply elem_of_zip_l in Hin.
    rw Forall_forall in Hb. by apply Hb. }
  intros [done still] Hst. eapply keeps_seq; [|intros ?; by keep].
  apply keeps_modify. intros e2 Ho2. split_and!; [by apply owned_set_running|done|done].
Qed.

Lemma step_keeps : keeps id (λ _, True) (step sdpa w hash clock cfg).
Proof.
  eapply keeps_ext; [apply step_in_parts|]. eapply keeps_seq; [apply apply_cancellations_keeps|]. intros c.
  eapply keeps_seq; [apply step_admit_keeps|]. intros dn. eapply keeps_seq; [apply step_decode_keeps|].
  intros [[logits started]|]; [apply step_accept_keeps|by keep].
Qed.

Lemma add_request_keeps r : r ∈ X → keeps id (λ _, True) (add_request clock cfg r).
Proof.
  intros Hr. rw /add_request. keep1.
  assert (keeps id (λ _, True) (modify (λ e, set_waiting (e_waiting e ++ [r]) e))) as Henq.
  { apply keeps_modify. intros e2 Ho2. split_and!; [|done|done]. apply owned_set_waiting; [|done].
    intros r' [Hin| ->%list_elem_of_singleton]%elem_of_app; [by eapply owned_waiting|done]. }
  destruct (e_admission e) as [c|] eqn:Hadm; [|done]. do 2 keep1. eapply keeps_seq.
  { apply keeps_zoom_quiet. intros c' e2 [Ho2 _]. split_and!; [|done|done]. split; [done|]. intros Hp.
    destruct Ho as [_ Hno]. rw Hno in Hadm; done. }
  intros [ok reason]. destruct (negb ok); [|done]. keep1.
  eapply keeps_seq; [apply keeps_upd; [done|]; intros q; split; [by split|]; intros t; rw /stamps /=; set_solver|].
  intros _. keep.
Qed.
End frame.
