(* ===== verification/Ledger.v ===== *)
(** * What the engine emits (engine/scheduler.py)

    The engine keeps a request's output in the request and sends each token it accepts to
    an outbox as well.  As long as nothing is preempted the two agree: what an operation
    adds to a request's output is what it emits for it, in order.  A preemption erases
    the output and counts. *)

From Stdlib Require Import ssreflect QArith Qcanon.
From stdpp Require Import prelude gmap gmultiset strings list.
From S2P Require Import Prelude Config BlockManager KvCache Transformer PrefixCache Types Admission Batch Scheduler Frame.

(** The output of a request, and the tokens emitted for it. *)
Definition outs (m : gmap nat Request) (r : nat) : list Z := match m !! r with Some q => output_token_ids q | None => [] end.
Definition emitted_for (r : nat) (l : list (nat * Z)) : list Z := (filter (λ rt, rt.1 = r) l).*2.

Lemma emitted_for_app r l1 l2 : emitted_for r (l1 ++ l2) = emitted_for r l1 ++ emitted_for r l2.
Proof. by rw /emitted_for filter_app fmap_app. Qed.

Section ledger.
Context {R : Type} `{HT : Torch R} `{HS : TorchSampling R}.
#[local] Notation "'KV'" := (list (list R)).
Context (sdpa : list KV → list KV → list KV → option (list (list bool)) → bool → list KV).
Context (w : NanoForCausalLM (R := R)) (hash : Z → list Z → Z) (clock : nat → Qc) (cfg : EngineCfg).
Implicit Types (e : Engine (R := R)).

(** Decides offers without raising. *)
Definition offers_ok e : Prop :=
  match e_admission e with Some c => adm_inv c ∧ initial_step_seconds (a_cfg c) ≠ 0%Qc | None => True end.

Record booked e e' : Prop := {
  bo_offers : offers_ok e → offers_ok e';
  bo_plain : e_admission e = None → e_admission e' = None;
  bo_preempt : e_preemptions e ≤ e_preemptions e';
  bo_dom : dom (e_reqs e') = dom (e_reqs e);
  bo_cancel : e_cancel e = ∅ → e_cancel e' = ∅;
  bo_emitted : ∃ new, e_emitted e' = e_emitted e ++ new ∧ Forall (λ rt, rt.1 ∈ dom (e_reqs e)) new ∧
    (e_preemptions e' = e_preemptions e → ∀ r, outs (e_reqs e') r = outs (e_reqs e) r ++ emitted_for r new);
}.

Lemma booked_refl e : booked e e.
Proof. split; [done..|]. exists []. rw app_nil_r. split_and!; [done|done|]. intros _ r. by rw app_nil_r. Qed.

Lemma booked_trans e1 e2 e3 : booked e1 e2 → booked e2 e3 → booked e1 e3.
Proof.
  intros [Ha1 Hn1 Hp1 Hd1 Hc1 (n1 & He1 & Hf1 & Ho1)] [Ha2 Hn2 Hp2 Hd2 Hc2 (n2 & He2 & Hf2 & Ho2)]. split; [auto|auto|lia|congruence|auto|]. exists (n1 ++ n2).
  rw He2 He1 assoc. split_and!; [done| |].
  - apply Forall_app. split; [done|]. by rw -Hd1.
  - intros Hp r. by rw Ho2 ?Ho1 ?emitted_for_app ?assoc //; lia.
Qed.

(** Writes that neither emit nor touch an output. *)
Lemma booked_quiet e e' : e_admission e' = e_admission e → e_preemptions e' = e_preemptions e → e_emitted e' = e_emitted e → dom (e_reqs e') = dom (e_reqs e) →
  (e_cancel e = ∅ → e_cancel e' = ∅) → (∀ r, outs (e_reqs e') r = outs (e_reqs e) r) → booked e e'.
Proof. intros Ha Hp He Hd Hc Ho. split; [by rw /offers_ok Ha|by rw Ha|lia|done|done|]. exists []. rw app_nil_r. split_and!; [done|done|]. intros _ r. by rw app_nil_r. Qed.

(** An observation goes to the controller that was there. *)
Lemma booked_record e e1 c x y t u v : booked e e1 → e_admission e = Some c →
  booked e (set_admission (Some (record_step x y c)) (set_counters t u v e1)).
Proof.
  intros [_ _ Hp Hd Hcn Hn] Hc. split; [|by rw Hc|done..]. rw /offers_ok Hc /=. intros [Hi Ha]. split; [by apply record_step_inv|].
  rw /record_step. by case_bool_decide.
Qed.

Lemma outs_alter f m r' : (∀ q, output_token_ids (f q) = output_token_ids q) → ∀ r, outs (alter f r' m) r = outs m r.
Proof.
  intros Hf r. rw /outs. destruct (decide (r = r')) as [->|Hne]; [rw lookup_alter_eq|by rw lookup_alter_ne].
  destruct (m !! r') as [q|]; [apply Hf|done].
Qed.

Definition books {S A} (π : S → Engine) (m : M S A) : Prop :=
  ∀ s, wp m (λ _ s', booked (π s) (π s')) (λ _ s', booked (π s) (π s')) s.

Section rules.
Context {S : Type} (π : S → Engine (R := R)).

Lemma books_ret {A} (a : A) : books π (ret a).
Proof. intros s. apply booked_refl. Qed.
Lemma books_raise {A} x : books π (raise x : M S A).
Proof. intros s. apply booked_refl. Qed.
Lemma books_get : books π get.
Proof. intros s. apply booked_refl. Qed.
Lemma books_lift {A} (r : result A) : books π (lift r).
Proof. intros s. destruct r; apply booked_refl. Qed.

Lemma books_bind {A B} (m : M S A) (k : A → M S B) : books π m → (∀ a, books π (k a)) → books π (bind m k).
Proof.
  intros Hm Hk s. apply wp_bind. eapply wp_mono; [apply Hm| |done]. intros a s1 H1.
  eapply wp_mono; [apply (Hk a)|..]; intros ? s2 H2; exact (booked_trans _ _ _ H1 H2).
Qed.

Lemma books_catch {A} (m h : M S A) x : books π m → books π h → books π (catch m x h).
Proof.
  intros Hm Hh s. apply wp_catch. eapply wp_mono; [apply Hm|done|]. intros x' s1 H1. cbn. case_decide; [|done].
  eapply wp_mono; [apply Hh|..]; intros ? s2 H2; exact (booked_trans _ _ _ H1 H2).
Qed.

Lemma books_for_list {A B} (l : list A) (f : A → M S B) : (∀ a, books π (f a)) → books π (for_list l f).
Proof.
  intros Hf. induction l as [|a l IH]; [apply books_ret|]. cbn [for_list].
  apply books_bind; [apply Hf|]. intros b. apply books_bind; [apply IH|]. intros bs. apply books_ret.
Qed.

Lemma books_ext {A} (m m' : M S A) : (∀ s, m s = m' s) → books π m' → books π m.
Proof. intros Heq Hm s. rw /wp Heq. apply Hm. Qed.

(** Working on a part of the state that holds neither requests nor the outbox. *)
Lemma books_zoom {T A} proj (inj : T → S → S) (m : M T A) :
  (∀ t s, e_admission (π (inj t s)) = e_admission (π s) ∧ e_preemptions (π (inj t s)) = e_preemptions (π s) ∧ e_emitted (π (inj t s)) = e_emitted (π s) ∧ e_reqs (π (inj t s)) = e_reqs (π s) ∧ e_cancel (π (inj t s)) = e_cancel (π s)) →
  books π (zoom proj inj m).
Proof.
  intros Hq s. apply wp_zoom. rw /wp. destruct (m (proj s)) as [[a|x] t]; destruct (Hq t s) as (? & ? & ? & Hr & Hc);
    apply booked_quiet; try done; by rw ?Hr ?Hc.
Qed.
End rules.

Lemma books_modify (f : Engine → Engine) :
  (∀ e, e_admission (f e) = e_admission e ∧ e_preemptions (f e) = e_preemptions e ∧ e_emitted (f e) = e_emitted e ∧ e_reqs (f e) = e_reqs e ∧ (e_cancel e = ∅ → e_cancel (f e) = ∅)) → books id (modify f).
Proof. intros Hf e. destruct (Hf e) as (? & ? & ? & Hr & ?). apply booked_quiet; try done; by rw /id Hr. Qed.

Lemma books_upd r f : (∀ q, output_token_ids (f q) = output_token_ids q) → books id (upd_req r f).
Proof. intros Hf e. apply booked_quiet; [done|done|done|apply dom_alter_L|done|by apply outs_alter]. Qed.

Lemma books_now : books id (now clock).
Proof. intros e. by apply booked_quiet. Qed.

Lemma books_on_engine {A} (m : EM A) : books id m → books fst (on_engine m).
Proof. intros Hm [e c]. apply wp_zoom. apply (Hm e). Qed.

Lemma books_with_cache {A} c (m : M EC A) : books fst m → books id (with_cache c m).
Proof.
  intros Hm e. specialize (Hm (e, c)). rw /wp in Hm. rw /wp /with_cache. by destruct (m (e, c)) as [[] []].
Qed.

Create HintDb ledger.
#[local] Hint Resolve books_ret books_raise books_get books_lift books_now books_on_engine : ledger.

Lemma get_req_books r : books id (get_req r).
Proof. intros e. rw /wp /get_req. destruct (e_reqs e !! r); apply booked_refl. Qed.
Lemma finish_req_books r fr : books id (finish_req clock r fr).
Proof. apply books_bind; [apply books_now|]. intros t. by apply books_upd. Qed.
Lemma on_prefix_books {A} (m : M (PrefixCache.PS (T := KV)) A) : books id (on_prefix m).
Proof. by apply books_zoom. Qed.
Lemma free_cache_books c : books id (free_cache c).
Proof. intros e. rw /wp /free_cache. destruct (PagedKVCache.free _) as [[] []]; by apply booked_quiet. Qed.
Lemma record_finished_books r : books id (_record_finished cfg r).
Proof. by apply books_modify. Qed.
Lemma popleft_books : books id popleft.
Proof. by apply books_modify. Qed.
Lemma on_paged_books {A} (m : M (PC KV) A) : books (S := EC (R := R)) fst (on_paged m).
Proof. by apply books_zoom. Qed.
Lemma on_model_books {A} (m : M (MSt (St := PC KV)) A) : books (S := EC (R := R)) fst (on_model m).
Proof. by apply books_zoom. Qed.
Lemma on_batch_books {A} (m : M (BSt (T := KV)) A) : books id (on_batch m).
Proof. by apply books_zoom. Qed.
#[local] Hint Resolve get_req_books finish_req_books on_prefix_books free_cache_books record_finished_books popleft_books
  on_paged_books on_model_books on_batch_books : ledger.

#[local] Ltac book1 :=
  lazymatch goal with
  | |- books _ (bind _ _) => apply books_bind; [solve [eauto with ledger]|intros ?]
  | |- books _ (if ?b then _ else _) => destruct b eqn:?
  | |- books _ (match ?x with _ => _ end) => destruct x eqn:?
  end.
#[local] Ltac book := repeat book1; try solve [eauto with ledger].

(** ** Accepting a token emits it *)

Lemma accept_and_emit_books s : books id (accept_and_emit clock cfg s).
Proof.
  intros e. rw /accept_and_emit. wp_step. rw {1}/wp /get_req. destruct (e_reqs e !! s_req s) as [q|] eqn:Hq; [|apply booked_refl].
  wp_step. rw /_accept_token. wp_step. rw {1}/wp /get_req Hq. destruct (_ && _).
  - wp_step. wp_step. rw {1}/wp /get_req /= Hq Nat.ltb_irrefl. do 3 wp_step. apply booked_refl.
  - rw /record_token_req. do 2 wp_step. rw {1}/wp /now. rw /upd_req. wp_step.
    assert (∀ s' : Sequence, next_token s' = next_token s → s_req s' = s_req s → wp (let* q0 := get_req (s_req s') in
      do* (if output_len q <? output_len q0 then modify (λ e, set_emitted (e_emitted e ++ [(s_req s', next_token s')]) e) else ret tt) in ret s')
      (λ _ e', booked e e') (λ _ e', booked e e')
      (set_reqs (alter (record_token (next_token s) (clock (e_ticks e))) (s_req s) (e_reqs e)) (set_counters (S (e_ticks e)) (e_seed e) (e_uid e) e))) as Hend.
    { intros s' Hn Hr. wp_step. rw {1}/wp /get_req /= Hr lookup_alter_eq Hq /=.
      assert (output_len q <? output_len (record_token (next_token s) (clock (e_ticks e)) q) = true) as ->.
      { apply Nat.ltb_lt. rw /output_len /= length_app /=. lia. }
      do 3 wp_step. split; cbn; [done|done|done|apply dom_alter_L|done|]. exists [(s_req s, next_token s)]. rw Hn. split_and!; [done| |].
      - constructor; [by apply elem_of_dom|constructor].
      - intros _ r. rw /outs /emitted_for filter_cons /=. destruct (decide (s_req s = r)) as [<-|Hne].
        + by rw lookup_alter_eq Hq.
        + rw lookup_alter_ne // app_nil_r //. }
    wp_step. rw {1}/wp /get_req /= lookup_alter_eq Hq /=. destruct (_ <=? _)%Z; wp_step; by apply Hend.
Qed.
#[local] Hint Resolve accept_and_emit_books : ledger.

Lemma sample_books logits q : books id (_sample logits q).
Proof. rw /_sample. book. apply books_bind; [intros e; by apply booked_quiet|]. intros ?. book. Qed.
#[local] Hint Resolve sample_books : ledger.

Lemma retire_books s : books id (_retire clock cfg s).
Proof. rw /_retire. book. Qed.
#[local] Hint Resolve retire_books : ledger.

Lemma prefill_books q : books (S := EC (R := R)) fst (_prefill sdpa w hash q).
Proof.
  rw /_prefill. do 2 book1. cbn zeta. apply books_bind; [by apply books_on_engine, books_modify|]. intros ?. book1. book1. book.
Qed.
#[local] Hint Resolve prefill_books : ledger.

Lemma try_prefill_books r q : books (S := EC (R := R)) fst (try_prefill sdpa w hash clock cfg r q).
Proof. rw /try_prefill. apply books_catch; book. Qed.

Lemma fresh_uid_books : books id fresh_uid.
Proof. intros e. by apply booked_quiet. Qed.

Lemma admit_loop_books fuel : ∀ admitted done, books id (admit_loop sdpa w hash clock cfg fuel admitted done).
Proof.
  induction fuel as [|fuel IH]; intros admitted done; cbn [admit_loop]; [by book|]. book1.
  destruct (e_waiting a) as [|r rest] eqn:Hwt; [by book|].
  destruct (negb _); [by book|]. book1. cbn zeta. apply books_bind; [case_match; book|]. intros room.
  destruct (negb room); [by book|]. destruct (_ && _).
  { do 3 book1. apply IH. }
  book1. eapply books_ext; [intros e'; symmetry; apply bind_assoc|].
  apply books_bind; [apply books_bind; [apply books_now|intros t; by apply books_upd]|]. intros _. book1. destruct (pool_allocate _) as [cache|].
  - apply books_bind; [apply books_with_cache, try_prefill_books|]. intros [[token|] cache']; [|apply IH].
    apply books_bind; [apply fresh_uid_books|]. intros u. apply books_bind; [apply accept_and_emit_books|]. intros s'.
    destruct (s_finished s'); [|apply IH]. apply books_bind; [apply retire_books|]. intros r'. apply IH.
  - apply books_bind; [by apply books_modify|]. intros ?. book.
Qed.

(** Preemption erases the output and is counted; a batch that cannot be split is left alone. *)
Lemma preempt_newest_books : books id (_preempt_newest (R := R)).
Proof.
  rw /_preempt_newest. book1. destruct (py_pop _) as [[v rest]|]; [|by book].
  apply books_bind; [by apply books_modify|]. intros _. book1. intros e. rw /wp /=. split; cbn; [done|done|lia|apply dom_alter_L|done|].
  exists []. rw app_nil_r. split_and!; [done|done|]. intros Hp. lia.
Qed.

(** The requests to cancel are taken out at once. *)
Lemma apply_cancellations_after e : ∃ m, books id m ∧
  apply_cancellations clock cfg e = (if bool_decide (e_cancel e = ∅) then ret [] else bind (modify (set_cancel ∅)) (λ _, m)) e.
Proof.
  eexists. split; last first.
  { rw /apply_cancellations {1}/bind {1}/get. destruct (bool_decide _); reflexivity. }
  book1. apply books_bind; [apply books_for_list|].
  { intros s. do 3 book1. apply books_bind; [by apply books_modify|]. intros ?. book. }
  intros d1. book1. apply books_bind; [apply books_for_list|intros ?; book].
  intros r. apply books_bind; [by apply books_modify|]. intros ?. book.
Qed.

Lemma apply_cancellations_books : books id (apply_cancellations clock cfg).
Proof.
  intros e. destruct (apply_cancellations_after e) as (m & Hm & Heq). rw /wp Heq. destruct (bool_decide _); [apply booked_refl|].
  assert (books id (let* _ := modify (set_cancel ∅) in m)) as Hb by (apply books_bind; [by apply books_modify|done]). apply (Hb e).
Qed.

Lemma apply_cancellations_clears e : wp (apply_cancellations clock cfg) (λ _ e', e_cancel e' = ∅) (λ _ _, True) e.
Proof.
  destruct (apply_cancellations_after e) as (m & Hm & Heq). rw /wp Heq. case_bool_decide as Hc; [done|].
  specialize (Hm (set_cancel ∅ e)). rw /bind /modify. rw /wp in Hm. destruct (m (set_cancel ∅ e)) as [[d|x] e']; [|done].
  destruct Hm as [_ _ _ _ Hcl _]. by apply Hcl.
Qed.

Lemma sample_batch_books logits batch : books id (_sample_batch logits batch).
Proof.
  rw /_sample_batch. apply books_bind; [apply books_for_list; intros; book|]. intros qs.
  book. apply books_for_list. intros [row q]. book.
Qed.

Lemma accept_loop_books l : ∀ done still, books id (accept_loop clock cfg l done still).
Proof.
  induction l as [|[s t] l IH]; intros done still; cbn [accept_loop]; [by book|].
  apply books_bind; [apply accept_and_emit_books|]. intros s'. destruct (s_finished s'); [|apply IH].
  apply books_bind; [apply retire_books|]. intros r. apply IH.
Qed.

(** One iteration of the engine, in its parts. *)
Lemma step_admit_books cancelled : books id (step_admit sdpa w hash clock cfg cancelled).
Proof.
  rw /step_admit. apply books_bind; [rw /_admit; book1; apply admit_loop_books|]. intros [new dn].
  apply books_bind; [by apply books_modify|]. intros _. book.
Qed.

Lemma step_decode_books : books id (step_decode sdpa w clock (R := R)).
Proof.
  rw /step_decode. book1. destruct (e_running a) as [|s0 batch0]; [by book|]. cbn zeta.
  apply books_bind; [by apply books_modify|]. intros _. do 2 book1. apply books_catch.
  - apply books_bind; [apply on_batch_books|intros l; book].
  - apply books_bind; [apply preempt_newest_books|]. intros []. by book.
Qed.

Lemma step_accept_books logits started dn : books id (step_accept clock cfg logits started dn).
Proof.
  rw /step_accept. intros e. do 2 wp_step. cbn zeta. apply wp_bind.
  eapply wp_mono; [apply (sample_batch_books logits (e_running e))| |done]. intros ids e1 H1. cbv beta delta [id] in H1. apply wp_bind.
  assert (∀ e2, booked e e2 → wp (let* (done, still) := accept_loop clock cfg (zip (e_running e) ids) dn [] in
    do* modify (set_running still) in ret done) (λ _ e3, booked e e3) (λ _ e3, booked e e3) e2) as Hend.
  { intros e2 H2. apply wp_bind. eapply wp_mono; [apply (accept_loop_books (zip (e_running e) ids))|..]; intros x e3 H3; [|exact (booked_trans _ _ _ H2 H3)].
    destruct x as [done still]. do 3 wp_step. eapply booked_trans; [exact H2|]. eapply booked_trans; [exact H3|]. by apply booked_quiet. }
  destruct (e_admission e) as [c|] eqn:Hc; [|wp_step; by apply Hend].
  apply wp_bind. rw {1}/wp /now. wp_step. apply Hend. by eapply booked_record.
Qed.

(** A step without its cancellations. *)
Definition step_rest (cancelled : list nat) : EM (list nat) :=
  let* done_in_admit := step_admit sdpa w hash clock cfg cancelled in
  let* decoded := step_decode sdpa w clock in
  match decoded with
  | Some (logits, started) => step_accept clock cfg logits started done_in_admit
  | None => ret done_in_admit
  end.

Lemma step_rest_books cancelled : books id (step_rest cancelled).
Proof.
  apply books_bind; [apply step_admit_books|]. intros dn. apply books_bind; [apply step_decode_books|].
  intros [[logits started]|]; [apply step_accept_books|by book].
Qed.

Lemma step_books : books id (step sdpa w hash clock cfg).
Proof. eapply books_ext; [apply step_in_parts|]. apply books_bind; [apply apply_cancellations_books|apply step_rest_books]. Qed.

Lemma step_clears e : wp (step sdpa w hash clock cfg) (λ _ e', e_cancel e' = ∅) (λ _ _, True) e.
Proof.
  rw /wp step_in_parts -/(wp (S := Engine) _ _ _ _). apply wp_bind. eapply wp_mono; [apply apply_cancellations_clears| |done].
  intros c e1 H1. eapply wp_mono; [apply (step_rest_books c e1)| |done]. intros d e2 [_ _ _ _ Hcl _]. by apply Hcl.
Qed.
End ledger.
