(* ===== verification/Prefill.v ===== *)
(** * Prefill through the prefix cache (engine/scheduler.py, [_prefill])

    What the registered blocks hold, and that a prompt served from them gets the
    logits an uncached forward would give it. *)

From Stdlib Require Import ssreflect QArith Qcanon.
From stdpp Require Import prelude gmap gmultiset strings sorting list.
From S2P Require Import Prelude Config BlockManager KvCache Transformer PrefixCache Types Admission Batch Scheduler.

Lemma last_drop_lt {A} (l : list A) n : n < length l → last (drop n l) = last l.
Proof.
  intros Hn. rw -{2}(take_drop n l) last_app. destruct (last (drop n l)) eqn:E; [done|].
  apply last_None in E. apply (f_equal length) in E. rw length_drop /= in E. lia.
Qed.

(** ** What a registered block holds *)

Section content.
Context {R : Type} `{HT : Torch R}.
#[local] Notation "'Vec'" := (list R).
#[local] Notation "'KV'" := (list (list R)).
Context (attend : list Vec → list (list Vec) → list (list Vec) → list Vec) (inv : Vec).
Context (w : NanoForCausalLM (R := R)) (hash : Z → list Z → Z).
(** The prompts the engine is ever given. *)
Context (seen : list Z → Prop).

(** Token ids as embedding indices. *)
Definition nat_ids (ids : list Z) : list nat := Z.to_nat <$> ids.

Definition in_vocab (ids : list Z) : Prop := Forall (λ t, 0 ≤ t < Z.of_nat (length (embed_tokens w)))%Z ids.

(** Embedding rows. *)
Definition embed (ids : list Z) : list Vec := (λ t, default [] (embed_tokens w !! Z.to_nat t)) <$> ids.

Lemma embed_select ids : in_vocab ids → index_select (embed_tokens w) (nat_ids ids) = Some (embed ids).
Proof.
  intros Hv. apply index_select_Some. induction Hv as [|t ids Ht Hv IH]; constructor; [|exact IH].
  destruct (lookup_lt_is_Some_2 (embed_tokens w) (Z.to_nat t)) as [x Hx]; [lia|]. by rw Hx.
Qed.

(** The rows layer [l] caches for a token sequence. *)
Definition krows_of (l : nat) (ids : list Z) : list KV := default [] (kcaches attend inv (layers w) (embed ids) !! l).
Definition vrows_of (l : nat) (ids : list Z) : list KV := default [] (vcaches attend inv (layers w) (embed ids) !! l).

Lemma krows_of_take l ids n : krows_of l (take n ids) = take n (krows_of l ids).
Proof.
  rw /krows_of /embed fmap_take -kcaches_take list_lookup_fmap.
  destruct (kcaches attend inv (layers w) _ !! l); [done|]. cbn. by rw take_nil.
Qed.
Lemma vrows_of_take l ids n : vrows_of l (take n ids) = take n (vrows_of l ids).
Proof.
  rw /vrows_of /embed fmap_take -vcaches_take list_lookup_fmap.
  destruct (vcaches attend inv (layers w) _ !! l); [done|]. cbn. by rw take_nil.
Qed.

Lemma krows_of_lookup l ids : l < length (layers w) →
  kcaches attend inv (layers w) (embed ids) !! l = Some (krows_of l ids) ∧ length (krows_of l ids) = length ids.
Proof.
  intros Hl. rw /krows_of. destruct (lookup_lt_is_Some_2 (kcaches attend inv (layers w) (embed ids)) l) as [K HK].
  { by rw length_kcaches. }
  rw HK. split; [done|]. cbn. rw (kcaches_row_length _ _ _ _ _ _ HK) /embed length_fmap //.
Qed.
Lemma vrows_of_lookup l ids : l < length (layers w) →
  vcaches attend inv (layers w) (embed ids) !! l = Some (vrows_of l ids) ∧ length (vrows_of l ids) = length ids.
Proof.
  intros Hl. rw /vrows_of. destruct (lookup_lt_is_Some_2 (vcaches attend inv (layers w) (embed ids)) l) as [K HK].
  { by rw length_vcaches. }
  rw HK. split; [done|]. cbn. rw (vcaches_row_length _ _ _ _ _ _ HK) /embed length_fmap //.
Qed.

(** Block [b] of the pool holds the rows of positions [i*bs .. (i+1)*bs) of [ids]. *)
Definition block_holds (p : Pool KV) (b i : nat) (ids : list Z) : Prop :=
  let bs := block_size p in
  ∀ l, l < length (layers w) →
    view (pool_k p) (seq (b * bs) bs) l = Some (take bs (drop (i * bs) (krows_of l ids))) ∧
    view (pool_v p) (seq (b * bs) bs) l = Some (take bs (drop (i * bs) (vrows_of l ids))).

(** The content invariant of the prefix cache: the block under a key holds the rows
    of a prompt whose chain has that key at that block. *)
Definition entries_ok (p : Pool KV) (c : PCache) : Prop :=
  ∀ h b, bid c h = Some b → ∃ ids i, seen ids ∧ in_vocab ids ∧
    PrefixCache.hash_chain hash (block_size p) ids !! i = Some h ∧ block_holds p b i ids.

(** No two prompts reach the same key unless their whole contexts up to that block
    agree. *)
Definition collision_free (bs : nat) : Prop := ∀ ids ids' i i' h,
  seen ids → seen ids' →
  PrefixCache.hash_chain hash bs ids !! i = Some h →
  PrefixCache.hash_chain hash bs ids' !! i' = Some h →
  i = i' ∧ take (S i * bs) ids = take (S i * bs) ids'.

Lemma view_app (buf : list (list KV)) sl1 sl2 l r1 r2 :
  view buf sl1 l = Some r1 → view buf sl2 l = Some r2 → view buf (sl1 ++ sl2) l = Some (r1 ++ r2).
Proof. rw /view. destruct (buf !! l); [|done]. apply index_select_app. Qed.

Lemma view_take_drop (buf : list (list KV)) sl l r n m :
  view buf sl l = Some r → view buf (take m (drop n sl)) l = Some (take m (drop n r)).
Proof.
  rw /view. destruct (buf !! l) as [t|]; [|done]. cbn. rw !index_select_Some.
  intros HF. by apply Forall2_take, Forall2_drop.
Qed.

(** Rows of same-content prefixes. *)
Lemma block_holds_ext p b i ids ids' :
  take (S i * block_size p) ids = take (S i * block_size p) ids' → block_holds p b i ids → block_holds p b i ids'.
Proof.
  intros Ht Hb l Hl. destruct (Hb l Hl) as [HK HV].
  assert (∀ (f : list Z → list KV), (∀ n x, f (take n x) = take n (f x)) →
    take (block_size p) (drop (i * block_size p) (f ids)) = take (block_size p) (drop (i * block_size p) (f ids'))) as Heq.
  { intros f Hf. apply (f_equal f) in Ht. rw !Hf in Ht.
    apply (f_equal (drop (i * block_size p))) in Ht. rw !skipn_firstn_comm in Ht.
    by replace (S i * block_size p - i * block_size p) with (block_size p) in Ht by lia. }
  rw HK HV. split; f_equal; apply Heq; intros; [apply krows_of_take|apply vrows_of_take].
Qed.

(** A table whose blocks hold the successive blocks of [ids] reads its prefix. *)
Lemma blocks_view p ids found l :
  l < length (layers w) → l < length (pool_k p) → l < length (pool_v p) →
  length found * block_size p ≤ length ids →
  (∀ i b, found !! i = Some b → block_holds p b i ids) →
  view (pool_k p) (slots_of (block_size p) found) l = Some (take (length found * block_size p) (krows_of l ids)) ∧
  view (pool_v p) (slots_of (block_size p) found) l = Some (take (length found * block_size p) (vrows_of l ids)).
Proof.
  intros Hl Hk Hv. induction found as [|b found IH] using rev_ind; intros Hlen Hb.
  { cbn. rw /view. destruct (lookup_lt_is_Some_2 _ _ Hk) as [? ->], (lookup_lt_is_Some_2 _ _ Hv) as [? ->].
    by rw !take_0. }
  rw length_app /= in Hlen |- *. rw slots_of_app slots_of_singleton.
  destruct (Hb (length found) b) with (l := l) as [HK HV]; [by rw lookup_app_r // Nat.sub_diag|done|].
  set (bs := block_size p) in *.
  assert (∀ X : list KV, take ((length found + 1) * bs) X = take (length found * bs) X ++ take bs (drop (length found * bs) X)) as Hsplit.
  { intros X. rw take_take_drop. f_equal. lia. }
  rw !Hsplit. destruct IH as [IHk IHv].
  - lia.
  - intros i b' Hi. apply Hb. by apply lookup_app_l_Some.
  - split; by apply view_app.
Qed.

(** What a lookup of the reusable part of a prompt finds. *)
Lemma found_blocks p c ids n :
  0 < block_size p → entries_ok p c → collision_free (block_size p) → seen ids →
  let found := longest c (PrefixCache.hash_chain hash (block_size p) (take n ids)) in
  length found * block_size p ≤ length (take n ids) ∧
  ∀ i b, found !! i = Some b → block_holds p b i ids.
Proof.
  intros Hbs He Hcf Hs found.
  assert (∀ i b, found !! i = Some b → S i * block_size p ≤ length (take n ids) ∧ block_holds p b i ids) as Hf.
  { intros i b (h & Hh & Hb)%longest_lookup. apply hash_chain_lookup in Hh as [Hi Hk]; [|done].
    destruct (He _ _ Hb) as (ids' & i' & Hs' & Hv' & Hh' & Hbl). split; [done|].
    assert (PrefixCache.hash_chain hash (block_size p) ids !! i = Some h) as Hh.
    { apply hash_chain_lookup; [done|]. rw length_take in Hi. split; [lia|]. rw Hk. apply chain_key_ext.
      rw take_take. f_equal. lia. }
    destruct (Hcf _ _ _ _ _ Hs Hs' Hh Hh') as [<- Ht]. by eapply block_holds_ext; [symmetry|]. }
  split; [|intros i b Hi; by apply Hf].
  clearbody found. destruct found as [|b found _] using rev_ind; [cbn; lia|].
  destruct (Hf (length found) b) as [Hle _]; [by rw lookup_app_r // Nat.sub_diag|].
  rw length_app /=. lia.
Qed.

(** Rows of blocks held by others survive. *)
Lemma rows_keep_block Y p p' b i ids :
  0 < block_size p → same_shape p p' → rows_keep Y [] [] p p' → b ∈ Y → block_holds p b i ids → block_holds p' b i ids.
Proof.
  intros Hbs (Hb & _) Hrows HY Hh l Hl. rw Hb. destruct (Hh l Hl) as [HK HV].
  destruct (rows_keep_view Y p p' [b] (block_size p) l Hbs Hrows) as [Hk Hv].
  { cbn. intros x. rw right_id_L. revert x. by apply gmultiset_singleton_subseteq_l. }
  rw slots_of_singleton take_ge in Hk, Hv; [|by rw length_seq..]. by rw Hk Hv.
Qed.

Lemma entries_ok_kept p p' c Y :
  0 < block_size p → same_shape p p' → rows_keep Y [] [] p p' → held c ⊆ Y → entries_ok p c → entries_ok p' c.
Proof.
  intros Hbs Hsh Hrows Hsub He h b Hb. destruct (He h b Hb) as (ids & i & ? & ? & ? & ?).
  exists ids, i. pose proof Hsh as (-> & _). split_and!; try done.
  eapply rows_keep_block; try done. eapply gmultiset_elem_of_subseteq; [|done]. by eapply bid_held.
Qed.

Lemma entries_ok_bids p c c' : (∀ h b, bid c' h = Some b → bid c h = Some b) → entries_ok p c → entries_ok p c'.
Proof. intros Hb He h b Hh. by apply He, Hb. Qed.

Lemma block_holds_storage p p' b i ids : same_storage p p' → block_holds p b i ids → block_holds p' b i ids.
Proof. intros (Hb & _ & Hk & Hv & _). rw /block_holds Hb Hk Hv. done. Qed.

Lemma entries_ok_storage p p' c : same_storage p p' → entries_ok p c → entries_ok p' c.
Proof.
  intros Hs He h b Hb. destruct (He h b Hb) as (ids & i & ? & ? & ? & ?). exists ids, i.
  pose proof Hs as (-> & _). split_and!; try done. by eapply block_holds_storage.
Qed.

(** [holds] in terms of the token ids. *)
Lemma holds_intro p c ids :
  in_vocab ids → num_tokens c = length ids → length (layers w) = num_hidden_layers p →
  (∀ l, l < length (layers w) → contents p c l = Some (krows_of l ids, vrows_of l ids)) →
  holds attend inv w p c (nat_ids ids).
Proof.
  intros Hv Hn HL Hc. split; [by rw /nat_ids length_fmap|]. exists (embed ids). split; [by apply embed_select|].
  intros l K V HK HV. pose proof (lookup_lt_Some _ _ _ HK) as Hl. rw length_kcaches in Hl.
  destruct (krows_of_lookup l ids Hl) as [HK' _]. destruct (vrows_of_lookup l ids Hl) as [HV' _].
  rw (Hc l Hl). congruence.
Qed.

Lemma holds_elim p c ids l :
  in_vocab ids → holds attend inv w p c (nat_ids ids) → l < length (layers w) →
  contents p c l = Some (krows_of l ids, vrows_of l ids).
Proof.
  intros Hv (Hn & x & Hx & Hc) Hl. rw embed_select // in Hx. simplify_eq. apply Hc.
  - by apply krows_of_lookup.
  - by apply vrows_of_lookup.
Qed.

(** The block [i] of a cache that holds [ids]. *)
Lemma holds_block p c ids i b :
  cache_wf p c → in_vocab ids → holds attend inv w p c (nat_ids ids) →
  S i * block_size p ≤ length ids → block_table c !! i = Some b → block_holds p b i ids.
Proof.
  intros [Hsl _] Hv Hh Hi Hb l Hl. pose proof Hh as (Hn & _). rw /nat_ids length_fmap in Hn.
  pose proof (holds_elim _ _ _ _ Hv Hh Hl) as [HK HV]%contents_views.
  assert (take (block_size p) (drop (i * block_size p) (take (num_tokens c) (_slots c))) = seq (b * block_size p) (block_size p)) as Hsel.
  { rw Hn Hsl skipn_firstn_comm take_take Nat.min_l; [|lia]. rw slots_of_drop (drop_S _ b) //.
    rw slots_of_cons take_app_le ?length_seq // take_ge // length_seq //. }
  split; rw -Hsel; by apply view_take_drop.
Qed.

Lemma holds_idle p c Y ids :
  owned (p, c) Y → tight (p, c) → length (layers w) = num_hidden_layers p → in_vocab ids →
  holds attend inv w p c (nat_ids ids) →
  idle (p, c) Y (kcaches attend inv (layers w) (embed ids)) (vcaches attend inv (layers w) (embed ids)).
Proof.
  intros HO Ht HL Hv Hh. pose proof (own_wf _ _ HO) as Hwf. split_and!; try done; cbn in *.
  - by rw length_kcaches (pwf_k _ Hwf).
  - intros l r Hr. pose proof (lookup_lt_Some _ _ _ Hr) as Hl. rw length_kcaches in Hl.
    pose proof (holds_elim _ _ _ _ Hv Hh Hl) as [HK HV]%contents_views.
    pose proof (proj1 (krows_of_lookup l ids Hl)). congruence.
  - by rw length_vcaches (pwf_v _ Hwf).
  - intros l r Hr. pose proof (lookup_lt_Some _ _ _ Hr) as Hl. rw length_vcaches in Hl.
    pose proof (holds_elim _ _ _ _ Hv Hh Hl) as [HK HV]%contents_views.
    pose proof (proj1 (vrows_of_lookup l ids Hl)). congruence.
Qed.

Lemma idle_holds p c Y ids :
  idle (p, c) Y (kcaches attend inv (layers w) (embed ids)) (vcaches attend inv (layers w) (embed ids)) →
  length (layers w) = num_hidden_layers p → 0 < length (layers w) → in_vocab ids →
  holds attend inv w p c (nat_ids ids).
Proof.
  intros Hid HL HL0 Hv. apply holds_intro; try done.
  - pose proof Hid as (HO & Ht & [_ HK] & _).
    destruct (krows_of_lookup 0 ids HL0) as [H0 Hlen]. specialize (HK _ _ H0). cbn in HK. rw /view in HK.
    destruct (pool_k p !! 0); [|done]. cbn in HK. apply index_select_length in HK.
    rw Hlen length_take (own_slots _ _ HO) length_slots_of Ht /= in HK.
    pose proof (ceil_div_mul_ge (num_tokens c) (block_size p) (pwf_bs _ (own_wf _ _ HO))). lia.
  - intros l Hl. eapply (idle_contents (p, c)); [done|by apply krows_of_lookup|by apply vrows_of_lookup].
Qed.
End content.

(** ** The prefill *)

Section prefill.
Context {R : Type} `{HT : Torch R} `{HS : TorchSampling R}.
#[local] Notation "'Vec'" := (list R).
#[local] Notation "'KV'" := (list (list R)).
Context (sdpa : list KV → list KV → list KV → option (list (list bool)) → bool → list KV).
Context (attend : list Vec → list (list Vec) → list (list Vec) → list Vec).
Hypothesis sdpa_rows : ∀ q k v mask c,
  sdpa q k v mask c = imap (λ i qi, attend qi (keep (allowed mask c i) k) (keep (allowed mask c i) v)) q.
Context (inv : Vec) (w : NanoForCausalLM (R := R)) (hash : Z → list Z → Z) (seen : list Z → Prop).
#[local] Abbreviation holds := (holds attend inv w).
#[local] Abbreviation entries_ok := (entries_ok attend inv w hash seen).
#[local] Abbreviation embed := (embed w).
#[local] Abbreviation in_vocab := (in_vocab w).

Lemma holds_apart p p' c Y past :
  0 < block_size p → apart Y (p, c) (p', c) → cache_wf p c →
  (list_to_set_disj (block_table c) : gmultiset nat) ⊆ Y → holds p c past → holds p' c past.
Proof.
  intros Hbs Hap Hwf Hsub (Hn & x & Hx & Hc). split; [done|]. exists x. split; [done|].
  intros l K V HK HV. rw -(Hc l K V HK HV). by eapply apart_contents.
Qed.

Lemma holds_storage p p' c past : same_storage p p' → holds p c past → holds p' c past.
Proof.
  intros Hs (Hn & x & Hx & Hc). split; [done|]. exists x. split; [done|]. intros l K V HK HV.
  rw (same_storage_contents p p' c l Hs). by apply Hc.
Qed.

Lemma to_indices_ok ids : in_vocab ids → to_indices ids = Ok (nat_ids ids).
Proof.
  intros Hv. rw /to_indices.
  assert (mapM to_index ids = Some (nat_ids ids)) as ->; [|done].
  apply mapM_Some. induction Hv as [|t ids Ht Hv IH]; constructor; [|exact IH].
  rw /to_index. destruct (Z.ltb_spec t 0); [lia|done].
Qed.

(** The pool, prefix cache and rotary tables change; the rest of the engine does not. *)
Definition only_storage (e e' : Engine (R := R)) : Prop :=
  e' = set_pool (e_pool e') (set_prefix (e_prefix e') (set_rotary (e_rotary e') e)).

(** Running the model over the suffix of a prompt whose prefix the cache holds. *)
Lemma suffix_forward p c pre suf r Y :
  owned (p, c) Y → tight (p, c) → length (layers w) = num_hidden_layers p → 0 < length (layers w) →
  in_vocab pre → in_vocab suf → suf ≠ [] → holds p c (nat_ids pre) → rot_ok inv r →
  length (pre ++ suf) ≤ max_positions r →
  pass_cost (p, c) Y (length suf) ≤ BlockAllocator.num_free (allocator p) →
  wp (lm_forward sdpa w (nat_ids suf) (Some (seq (length pre) (length suf))) true None)
     (λ logits s', last logits = last (ref_logits attend inv w (embed (pre ++ suf))) ∧ logits ≠ [] ∧ s'.1 = r ∧
        owned s'.2 Y ∧ tight s'.2 ∧ apart Y (p, c) s'.2 ∧ holds s'.2.1 s'.2.2 (nat_ids (pre ++ suf)))
     never (r, (p, c)).
Proof.
  intros HO Ht HL HL0 Hvp Hvs Hne Hh Hr Hcap Hroom.
  pose proof (lm_cached_at sdpa attend sdpa_rows inv (St := PC KV) (length (layers w))
    (HL := paged_laws (p, c) Y (length (layers w))) w (r, (p, c)) (nat_ids pre) (nat_ids suf) (embed pre) (embed suf)) as Hlm.
  rw /nat_ids !length_fmap in Hlm. rw -/(nat_ids pre) -/(nat_ids suf) in Hlm.
  eapply wp_mono; [apply Hlm| |done]; clear Hlm.
  - split_and!; try done. exists (embed pre). split; [by apply embed_select|].
    split_and!; [by apply holds_idle|done|apply apart_refl].
  - by apply embed_select.
  - by apply embed_select.
  - done.
  - by rw length_app in Hcap.
  - intros logits [r' [p' c']] (-> & Hr' & (_ & _ & _ & x & Hx & Hid & HL' & Hap)). cbn in *.
    rw /nat_ids -fmap_app -/(nat_ids (pre ++ suf)) embed_select in Hx; [|by apply Forall_app]. simplify_eq.
    assert (embed pre ++ embed suf = embed (pre ++ suf)) as -> by by rw /embed fmap_app.
    set (full := ref_logits attend inv w (embed (pre ++ suf))).
    assert (length full = length (pre ++ suf)) as Hlf.
    { rw /full /ref_logits !length_fmap length_ref_layers. by rw /embed length_fmap. }
    rw length_app in Hlf. destruct suf as [|t suf]; [done|]. cbn in Hlf.
    split_and!; try done.
    + apply last_drop_lt. lia.
    + intros Hd. apply (f_equal length) in Hd. rw length_drop /= in Hd. lia.
    + apply Hid.
    + apply Hid.
    + eapply idle_holds; [done|done|done|]. by apply Forall_app.
Qed.

(** The attached prefix holds the prompt's first blocks. *)
Lemma attached_holds p found ids :
  pool_wf p → length (layers w) = num_hidden_layers p → in_vocab ids →
  length found * block_size p ≤ length ids →
  (∀ i b, found !! i = Some b → block_holds attend inv w p b i ids) →
  holds p (mkCache found (length found * block_size p) 0 (slots_of (block_size p) found))
    (nat_ids (take (length found * block_size p) ids)).
Proof.
  intros Hwf HL Hv Hlen Hb. apply holds_intro; [by apply Forall_take|by rw /= length_take_le|done|].
  intros l Hl. apply contents_views. cbn.
  rw take_ge; [|by rw length_slots_of]. rw krows_of_take vrows_of_take.
  apply blocks_view; rw ?(pwf_k _ Hwf) ?(pwf_v _ Hwf) -?HL //.
Qed.

(** A new sequence takes no more blocks than its table has. *)
Lemma free_grown (p p' : Pool KV) c c' cs x :
  pc_heap p c cs → pc_heap p' c' (cs ++ [x]) →
  BlockAllocator.num_blocks (allocator p') = BlockAllocator.num_blocks (allocator p) →
  (∀ h b, bid c' h = Some b → bid c h = Some b ∨ b ∈ block_table x) →
  BlockAllocator.num_free (allocator p) ≤ BlockAllocator.num_free (allocator p') + length (block_table x).
Proof.
  intros [[_ HA _] _] [[_ HA' _] Hwf'] Hnb Hnew.
  pose proof (accounted_num_free _ _ HA) as H1. pose proof (accounted_num_free _ _ HA') as H2.
  assert (dom (refs_of (cs ++ [x]) ⊎ held c') ⊆ dom (refs_of cs ⊎ held c) ∪ (list_to_set (block_table x) : gset nat)) as Hsub.
  { intros b Hb. apply gmultiset_elem_of_dom, gmultiset_elem_of_disj_union in Hb.
    rw elem_of_union gmultiset_elem_of_dom gmultiset_elem_of_disj_union elem_of_list_to_set.
    destruct Hb as [Hb|Hb].
    - rw /refs_of bind_app elem_of_list_to_set_disj elem_of_app /= app_nil_r in Hb.
      rw /refs_of elem_of_list_to_set_disj. tauto.
    - rw /held elem_of_list_to_set_disj in Hb. apply list_elem_of_fmap in Hb as ([h en] & -> & Hin). cbn.
      destruct (Hnew h (block_id en)) as [Hb|Hb]; [|left; right; by eapply bid_held|by right].
      rw /bid (elem_dget h en) //. apply Hwf'. }
  apply subseteq_size in Hsub. rw size_union_alt in Hsub.
  assert (size ((list_to_set (block_table x) : gset nat) ∖ dom (refs_of cs ⊎ held c)) ≤ length (block_table x)) as Hle.
  { etrans; [apply subseteq_size, subseteq_difference_l; reflexivity|apply size_list_le]. }
  lia.
Qed.

Lemma prefill_spec e q cs :
  let p := e_pool e in
  let ids := prompt_token_ids q in
  pc_heap p (e_prefix e) cs → length (layers w) = num_hidden_layers p → 0 < length (layers w) →
  rot_ok inv (e_rotary e) → entries_ok p (e_prefix e) → collision_free hash seen (block_size p) →
  seen ids → in_vocab ids → ids ≠ [] →
  ceil_div (length ids) (block_size p) ≤ BlockAllocator.num_free (allocator p) →
  wp (_prefill sdpa w hash q)
     (λ logits s', last logits = last (ref_logits attend inv w (embed ids)) ∧ logits ≠ [] ∧
        only_storage e s'.1 ∧ rot_ok inv (e_rotary s'.1) ∧
        pc_heap (e_pool s'.1) (e_prefix s'.1) (cs ++ [s'.2]) ∧ same_shape p (e_pool s'.1) ∧
        entries_ok (e_pool s'.1) (e_prefix s'.1) ∧ holds (e_pool s'.1) s'.2 (nat_ids ids) ∧
        (∀ c past, c ∈ cs → holds p c past → holds (e_pool s'.1) c past) ∧
        BlockAllocator.num_free (allocator p) ≤
          BlockAllocator.num_free (allocator (e_pool s'.1)) + ceil_div (length ids) (block_size p)) never (e, PagedKVCache.init).
Proof.
  intros p ids HH HL HL0 Hr He Hcf Hs Hv Hne Hroom. rw /_prefill -/ids. wp_step.
  rw /on_engine /on_prefix. do 2 wp_step. cbn.
  eapply wp_mono; [by apply match_spec, pc_heap_ok| |done].
  intros blocks [p1 c1] (-> & Hok & Hsame & Hk & Hf). cbn in *. fold p in Hk.
  set (found := if enabled (e_prefix e) then _ else _) in *.
  pose proof (attached_heap _ _ _ _ _ _ HH Hok Hk) as HH1.
  wp_step. rw /on_paged. wp_step. cbn. eapply wp_mono; [apply attach_spec| |done]. intros n s2 [-> ->]. cbn.
  do 3 wp_step. cbn.
  pose proof Hk as (Hb1 & HL1 & _ & _ & Hnb1). cbn in Hb1, HL1, Hnb1.
  pose proof (pwf_bs _ (heap_wf _ _ _ (proj1 HH))) as Hbs.
  assert (entries_ok p1 (e_prefix e)) as He1 by by eapply entries_ok_storage.
  assert (length found * block_size p1 ≤ length (take (length ids - 1) ids) ∧
    ∀ i b, found !! i = Some b → block_holds attend inv w p1 b i ids) as [Hlen Hblk].
  { subst found. destruct (enabled (e_prefix e)); [|cbn; split; [lia|done]]. fold p. rw -Hb1.
    eapply found_blocks; rw ?Hb1 //. }
  rw length_take in Hlen. assert (0 < length ids) as Hpos by (destruct ids; [done|cbn; lia]).
  set (k := length found * block_size p1) in *.
  set (pre := take k ids). set (suf := drop k ids).
  assert (pre ++ suf = ids) as Hps by apply take_drop.
  assert (length pre = k) as Hlp by (rw /pre length_take; lia).
  assert (suf ≠ []) as Hsuf. { intros Hn. apply (f_equal length) in Hn. rw /suf length_drop /= in Hn. lia. }
  assert (in_vocab pre ∧ in_vocab suf) as [Hvp Hvs] by (rw -Forall_app Hps //).
  wp_step. rw {1}/wp /lift. replace (token_tensor suf) with (to_indices suf) by (by destruct suf).
  rw to_indices_ok //. wp_step. rw /on_model. wp_step. cbn.
  set (r1 := ensure_capacity (length ids + 1) (e_rotary e)).
  destruct (ensure_capacity_ok inv (length ids + 1) (e_rotary e) Hr) as [Hr1 Hcap]. fold r1 in Hr1, Hcap.
  set (c0 := mkCache found k 0 (slots_of (block_size p1) found)) in *.
  set (cs1 := cs ++ [c0]) in *. set (Y := others cs1 (length cs) (held c1)).
  assert (cs1 !! length cs = Some c0) as Hlk by by rw /cs1 lookup_app_r // Nat.sub_diag.
  destruct (heap_owned _ _ _ _ _ (proj1 HH1) Hlk) as [HO Ht]. fold Y in HO.
  assert (delete (length cs) cs1 = cs) as Hdel by by rw /cs1 delete_middle app_nil_r.
  rw -{1}Hlp. eapply wp_mono; [eapply (suffix_forward p1 c0 pre suf r1 Y)| |done]; try done.
  { by rw HL1. }
  { apply attached_holds; try done; [apply HO|by rw HL1|lia]. }
  { rw Hps. lia. }
  { rw /pass_cost. cbn [fst snd num_tokens block_table c0].
    assert (k mod block_size p1 = 0) as -> by (rw /k; apply Nat.Div0.mod_mul).
    assert (k + length suf = length ids) as -> by (rw /suf length_drop; lia).
    rw Hb1. cbn. rw /BlockAllocator.num_free Hf. rw /BlockAllocator.num_free in Hroom. subst p. lia. }
  intros logits [r' [p2 c2]] (Hlast & Hnl & Hr' & HO2 & Ht2 & Hap & Hh2). cbn in *. subst r'. rw Hps in Hlast, Hh2.
  assert (pc_heap p2 c1 (cs ++ [c2])) as HH2.
  { split; [|apply HH1]. assert (cs ++ [c2] = <[length cs := c2]> cs1) as ->.
    { by rw /cs1 insert_app_r_alt // Nat.sub_diag. }
    eapply owned_heap; [apply HH1|done|done|done|]. apply Hap. }
  pose proof (pwf_bs _ (own_wf _ _ HO)) as Hbs1. cbn in Hbs1.
  do 2 wp_step. wp_step. do 2 wp_step. cbn.
  eapply wp_mono; [apply (insert_spec hash ids (block_table c2) (p2, c1) (refs_of (cs ++ [c2])))| |done].
  { by apply pc_heap_ok. }
  { intros b Hb. rw /refs_of bind_app elem_of_list_to_set_disj elem_of_app /= app_nil_r. by right. }
  intros _ [p3 c3] (Hok3 & Hk3 & _ & _ & _ & Hnew). cbn in *.
  pose proof Hap as [Hsh2 Hrw2]. cbn in Hsh2, Hrw2. pose proof Hsh2 as (Hb2 & HL2 & Hnb2).
  pose proof (pc_ok_heap _ _ _ _ _ HH2 Hk3 Hok3) as HH3. pose proof Hk3 as (Hb3 & HL3 & _ & _ & Hnb3).
  cbn in Hb3, HL3, Hnb3.
  split_and!; try done.
  - rw /same_shape. split_and!; congruence.
  - eapply (entries_ok_storage _ _ _ _ _ p2); [exact Hk3|]. intros h b [Hb|(i & Hi & Hb)]%Hnew.
    + revert h b Hb. eapply (entries_ok_kept _ _ _ _ _ p1 p2 c1 Y); try done.
      { subst Y. rw /others. apply gmultiset_disj_union_subseteq_r. }
      eapply entries_ok_bids; [|exact He1]. intros h b. by rw (proj1 (proj2 (proj2 (proj2 Hsame)))).
    + exists ids, i. split_and!; try done.
      apply hash_chain_lookup in Hi as [Hi _]; [|by rw Hb2]. eapply holds_block; try done.
      destruct HO2 as [_ _ Hsl]. by split.
  - by eapply (holds_storage p2 p3).
  - intros c past Hc Hh. eapply (holds_storage p2 p3); [exact Hk3|].
    apply (holds_storage p p1) in Hh; [|exact Hk].
    eapply (holds_apart p1 p2 c Y); try done.
    + eapply Forall_forall; [apply HH1|]. subst cs1. apply elem_of_app. by left.
    + subst Y. rw /others Hdel. apply list_elem_of_lookup in Hc as [j Hj].
      rw (refs_of_delete _ _ _ Hj) -assoc. apply gmultiset_disj_union_subseteq_l.
  - assert (length (block_table c2) = ceil_div (length ids) (block_size p)) as <-.
    { destruct Hh2 as [Hn _]. rw /nat_ids length_fmap in Hn. rw /tight /= Hn in Ht2. by rw Ht2 Hb2 Hb1. }
    eapply (free_grown p p3 (e_prefix e) c3 cs c2); [done|done|congruence|].
    intros h b [Hb|(i & _ & Hb)]%Hnew; [left|right; by eapply list_elem_of_lookup_2].
    by rw -(proj1 (proj2 (proj2 (proj2 Hsame)))).
Qed.
End prefill.
