(* ===== verification/Engine.v ===== *)
(** * Correctness of the continuous-batching engine (engine/scheduler.py)

    The reference a request's output is measured against is token-by-token greedy
    decoding with the uncached model.  The engine invariant ties every live sequence
    to it; every method of the engine preserves the invariant and never raises. *)

From Stdlib Require Import ssreflect QArith Qcanon.
From stdpp Require Import prelude gmap gmultiset strings sorting list.
From S2P Require Import Prelude Config BlockManager KvCache Transformer PrefixCache Types Admission Batch Scheduler Prefill.

(** What torch documents of the sampling operations: results are indices of the row
    and shapes are kept. *)
Class SamplerLaws (R : Type) `{TorchSampling R} := {
  argmax_range l : l ≠ [] → (0 ≤ ts_argmax l < Z.of_nat (length l))%Z;
  multinomial_range seed l : l ≠ [] → (0 ≤ ts_multinomial seed l < Z.of_nat (length l))%Z;
  softmax_length l : length (ts_softmax l) = length l;
  cumsum_length l : length (ts_cumsum l) = length l;
  sort_length l : length (ts_sort_desc l).1 = length l;
}.

Section sampler_laws.
Context {R : Type} `{HL : SamplerLaws R}.

Lemma length_masked_fill m (x : list R) : length m = length x → length (masked_fill m x) = length x.
Proof. intros Hm. rw /masked_fill length_zip_with. lia. Qed.

Lemma top_k_filter_ok k (x : list R) :
  x ≠ [] → match k with Some k => (0 ≤ k)%Z | None => True end →
  ∃ y, top_k_filter k x = Ok y ∧ length y = length x.
Proof.
  intros Hx Hk. rw /top_k_filter. destruct k as [[|k|k]|]; [by eauto| |lia|by eauto].
  assert (0 < length x) by (destruct x; [done|cbn; lia]).
  destruct (Z.leb_spec (Z.min (Z.pos k) (Z.of_nat (length x))) 0) as [|Hpos]; [lia|].
  destruct (lookup_lt_is_Some_2 (ts_sort_desc x).1 (Z.to_nat (Z.min (Z.pos k) (Z.of_nat (length x))) - 1)) as [th ->].
  { rw sort_length. lia. }
  eexists. split; [done|]. apply length_masked_fill. by rw length_fmap.
Qed.

Lemma length_top_p_filter p (x : list R) : length (top_p_filter p x) = length x.
Proof.
  rw /top_p_filter. destruct p as [p|]; [|done]. destruct (bool_decide _); [|done].
  destruct (ts_sort_desc x) as [o i] eqn:Hs. apply length_masked_fill.
  pose proof (sort_length x) as Hl. rw Hs /= in Hl.
  rw length_scatter length_zip_with cumsum_length softmax_length. lia.
Qed.

Lemma sample_with_params_ok seed (x : list R) p :
  x ≠ [] → match top_k p with Some k => (0 ≤ k)%Z | None => True end →
  ∃ t, _sample_with_params seed x p = Ok t ∧ (0 ≤ t < Z.of_nat (length x))%Z.
Proof.
  intros Hx Hk. rw /_sample_with_params.
  destruct (top_k_filter_ok (top_k p) ((λ x, ts_div x (temperature p)) <$> x)) as (y & -> & Hy); [by destruct x|done|].
  eexists. split; [done|]. rw length_fmap in Hy.
  assert (length (ts_softmax (top_p_filter (top_p p) y)) = length x) as <-.
  { by rw softmax_length length_top_p_filter. }
  apply multinomial_range. intros Hn. apply (f_equal length) in Hn.
  rw softmax_length length_top_p_filter Hy in Hn. by destruct x.
Qed.
End sampler_laws.

(** ** The reference: greedy decoding without any cache *)

Section reference.
Context {R : Type} `{HT : Torch R} `{HS : TorchSampling R}.
#[local] Notation "'Vec'" := (list R).
#[local] Notation "'KV'" := (list (list R)).
Context (sdpa : list KV → list KV → list KV → option (list (list bool)) → bool → list KV).
Context (inv : Vec) (w : NanoForCausalLM (R := R)).

(** The arg-max of the last logits of one full, uncached forward pass. *)
Definition greedy_next (ids : list Z) : Z :=
  match (lm_forward sdpa w (nat_ids ids) None false None (rotary_init inv 0, DynamicCache.init)).1 with
  | Ok logits => match last logits with Some row => ts_argmax row | None => 0%Z end
  | Raise _ => 0%Z
  end.

(** At most [n] tokens, stopping before an end-of-sequence token. *)
Fixpoint greedy_gen (eos : Z) (ignore : bool) (n : nat) (ids : list Z) : list Z * FinishReason :=
  match n with
  | O => ([], LENGTH)
  | S n =>
      let t := greedy_next ids in
      if (t =? eos)%Z && negb ignore then ([], EOS)
      else let (out, r) := greedy_gen eos ignore n (ids ++ [t]) in (t :: out, r)
  end.
End reference.

(** The token budget: one token is always produced. *)
Definition budget (q : Request) : nat := Z.to_nat (Z.max 1 (max_tokens (params q))).

Section requests.
Context {R : Type} `{HT : Torch R} `{HS : TorchSampling R}.
#[local] Notation "'KV'" := (list (list R)).
Context (sdpa : list KV → list KV → list KV → option (list (list bool)) → bool → list KV).
Context (inv : list R) (w : NanoForCausalLM (R := R)) (seen : list Z → Prop) (cfg : EngineCfg).
(** The reasons, other than completion, for which requests may end. *)
Context (may : FinishReason → Prop).

#[local] Abbreviation gen q := (greedy_gen sdpa inv w (eos_token_id cfg) (ignore_eos (params q))).

(** A request the engine can serve. *)
Record good (q : Request) : Prop := {
  good_prompt : prompt_token_ids q ≠ [];
  good_vocab : in_vocab w (prompt_token_ids q);
  good_seen : seen (prompt_token_ids q);
  good_top_k : match top_k (params q) with Some k => (0 ≤ k)%Z | None => True end;
}.

Definition fresh (q : Request) : Prop := output_token_ids q = [] ∧ finish_reason q = None.

(** The output so far is a proper part of the reference output. *)
Definition partial (q : Request) : Prop :=
  output_len q < budget q ∧ in_vocab w (output_token_ids q) ∧
  (greedy (params q) = true →
   let rest := gen q (budget q - output_len q) (prompt_token_ids q ++ output_token_ids q) in
   gen q (budget q) (prompt_token_ids q) = (output_token_ids q ++ rest.1, rest.2)).

(** The output is complete. *)
Definition settled (q : Request) (fr : FinishReason) : Prop :=
  output_len q ≤ budget q ∧ (fr = LENGTH → output_len q = budget q) ∧
  (greedy (params q) = true → gen q (budget q) (prompt_token_ids q) = (output_token_ids q, fr)).

Definition outcome_ok (q : Request) : Prop :=
  match finish_reason q with
  | None => True
  | Some EOS => settled q EOS
  | Some LENGTH => settled q LENGTH
  | Some fr => may fr ∧ partial q
  end.

Lemma fresh_partial q : output_token_ids q = [] → partial q.
Proof.
  intros Ho. rw /partial /output_len Ho /=. split_and!; [rw /budget; lia|constructor|].
  intros _. rw Nat.sub_0_r app_nil_r. by destruct (gen q _ _).
Qed.

(** Accepting the next token. *)
Lemma partial_eos q :
  partial q → (greedy (params q) = true → greedy_next sdpa inv w (prompt_token_ids q ++ output_token_ids q) = eos_token_id cfg) →
  ignore_eos (params q) = false → settled q EOS.
Proof.
  intros (Hlt & _ & Hg) Hn Hi. split_and!; [lia|done|]. intros Hgr. rw (Hg Hgr).
  destruct (budget q - output_len q) as [|n] eqn:Hb; [lia|]. cbn.
  by rw Hn // Z.eqb_refl Hi /= app_nil_r.
Qed.

Lemma partial_token q t now :
  partial q → (0 ≤ t < Z.of_nat (length (embed_tokens w)))%Z →
  (greedy (params q) = true → greedy_next sdpa inv w (prompt_token_ids q ++ output_token_ids q) = t) →
  (t =? eos_token_id cfg)%Z && negb (ignore_eos (params q)) = false →
  let q' := record_token t now q in
  if (max_tokens (params q) <=? Z.of_nat (output_len q'))%Z then settled q' LENGTH else partial q'.
Proof.
  intros (Hlt & Hv & Hg) Ht Hn Hi q'.
  assert (output_len q' = S (output_len q)) as Hl by (rw /output_len /= length_app /=; lia).
  assert (greedy (params q) = true →
    let rest := gen q (budget q - S (output_len q)) (prompt_token_ids q ++ (output_token_ids q ++ [t])) in
    gen q (budget q) (prompt_token_ids q) = ((output_token_ids q ++ [t]) ++ rest.1, rest.2)) as Hgen.
  { intros Hgr. cbn. rw (Hg Hgr). destruct (budget q - output_len q) as [|n] eqn:Hb; [lia|].
    replace (budget q - S (output_len q)) with n by lia. cbn. rw Hn // Hi assoc.
    destruct (gen q n _) as [o r]. cbn. by rw -assoc. }
  assert (in_vocab w (output_token_ids q')) as Hv' by (apply Forall_app; split; [done|by constructor]).
  destruct (Z.leb_spec (max_tokens (params q)) (Z.of_nat (output_len q'))) as [Hm|Hm]; rw Hl in Hm.
  - assert (S (output_len q) = budget q) as Hbud by (rw /budget in Hlt |- *; lia).
    split_and!; [rw Hl; change (budget q') with (budget q); lia|rw Hl //|].
    intros Hgr. change (budget q') with (budget q). cbn. rw Hgen // Hbud Nat.sub_diag /= app_nil_r //.
  - split_and!; [rw Hl; change (budget q') with (budget q); rw /budget; lia|done|].
    intros Hgr. rw Hl. change (budget q') with (budget q). by apply Hgen.
Qed.
End requests.

(** ** The engine invariant *)

Lemma alter_at (m : gmap nat Request) f r q : m !! r = Some q → alter f r m = <[r := f q]> m.
Proof.
  intros Hr. apply map_eq. intros i. destruct (decide (i = r)) as [->|Hne].
  - by rw lookup_alter_eq lookup_insert_eq Hr.
  - by rw lookup_alter_ne // lookup_insert_ne.
Qed.


Section invariant.
Context {R : Type} `{HT : Torch R} `{HS : TorchSampling R} `{HSL : !SamplerLaws R}.
#[local] Notation "'Vec'" := (list R).
#[local] Notation "'KV'" := (list (list R)).
Context (sdpa : list KV → list KV → list KV → option (list (list bool)) → bool → list KV).
Context (attend : list Vec → list (list Vec) → list (list Vec) → list Vec).
Hypothesis sdpa_rows : ∀ q k v mask c,
  sdpa q k v mask c = imap (λ i qi, attend qi (keep (allowed mask c i) k) (keep (allowed mask c i) v)) q.
Context (inv : Vec) (w : NanoForCausalLM (R := R)).
(** The model has a layer, and its head one logit per vocabulary entry. *)
Hypothesis some_layer : 0 < length (layers w).
Hypothesis head_width : ∀ v, length (lm_head w v) = length (embed_tokens w).
Hypothesis some_vocab : embed_tokens w ≠ [].
Context (hash : Z → list Z → Z) (perf_counter : nat → Qc) (seen : list Z → Prop) (cfg : EngineCfg).
(** The prompt and parameters each request was submitted with. *)
Context (asked : nat → list Z → SamplingParams → Prop) (may : FinishReason → Prop).
(** Outcomes already collected by the engine's caller. *)
Context (drained : list nat).

Implicit Types (e : Engine (R := R)) (live : list Sequence) (extra : list Cache) (fl all : list nat).
#[local] Abbreviation holds := (holds attend inv w).
#[local] Abbreviation partial := (partial sdpa inv w cfg).
#[local] Abbreviation settled := (settled sdpa inv w cfg).
#[local] Abbreviation outcome_ok := (outcome_ok sdpa inv w cfg may).
#[local] Abbreviation good := (good w seen).
#[local] Abbreviation next := (greedy_next sdpa inv w).
#[local] Abbreviation context q := (prompt_token_ids q ++ output_token_ids q).

(** A running sequence: its cache holds everything but the last token, which the
    next pass feeds. *)
Record running_ok (p : Pool KV) (s : Sequence) (q : Request) : Prop := {
  ro_live : s_finished s = false ∧ finish_reason q = None;
  ro_partial : partial q;
  ro_split : ∃ out, output_token_ids q = out ++ [next_token s] ∧
                    holds p (s_cache s) (nat_ids (prompt_token_ids q ++ out));
}.

(** The parts of the engine the invariant speaks of, with the live sequences [live],
    caches [extra] not yet owned by a sequence, requests [fl] being handled, and
    [all] the requests accounted for. *)
Record inv_of (p : Pool KV) (c : PCache) (rotary : Rotary (R := R)) (waiting : list nat)
    (reqs : gmap nat Request) (newly : list nat) (uid : nat) (canc : gset string)
    (live : list Sequence) (extra : list Cache) (fl all : list nat) : Prop := {
  ei_heap : pc_heap p c ((s_cache <$> live) ++ extra);
  ei_layers : length (layers w) = num_hidden_layers p;
  ei_rot : rot_ok inv rotary;
  ei_entries : entries_ok attend inv w hash seen p c;
  ei_cf : collision_free hash seen (block_size p);
  ei_good r q : reqs !! r = Some q → good q ∧ outcome_ok q ∧ asked r (prompt_token_ids q) (params q);
  ei_nodup : NoDup (waiting ++ (s_req <$> live) ++ fl);
  ei_waiting r : r ∈ waiting → ∃ q, reqs !! r = Some q ∧ fresh q;
  ei_live s : s ∈ live → ∃ q, reqs !! s_req s = Some q ∧ running_ok p s q;
  ei_newly r : r ∈ newly → ∃ q, reqs !! r = Some q ∧ finish_reason q ≠ None;
  ei_uids : NoDup (s_uid <$> live) ∧ ∀ s, s ∈ live → s_uid s < uid;
  ei_all : waiting ++ (s_req <$> live) ++ fl ++ newly ≡ₚ all;
  ei_cancel : may CANCELLED ∨ canc = ∅;
}.

Definition EI (e : Engine) live extra fl all : Prop :=
  inv_of (e_pool e) (e_prefix e) (e_rotary e) (e_waiting e) (e_reqs e) (drained ++ e_newly e) (e_uid e) (e_cancel e) live extra fl all.

(** The engine between steps. *)
Definition engine_ok (e : Engine) (all : list nat) : Prop := EI e (e_running e) [] [] all.

Lemma refs_of_perm cs cs' : cs ≡ₚ cs' → refs_of cs = refs_of cs'.
Proof. intros Hp. rw /refs_of. by rw Hp. Qed.

Lemma pc_heap_perm (p : Pool KV) c cs cs' : cs ≡ₚ cs' → pc_heap p c cs → pc_heap p c cs'.
Proof.
  intros Hp [[Hwf HA Hcs] Hpc]. split; [|done]. split; [done|by rw -(refs_of_perm _ _ Hp)|by rw -Hp].
Qed.

Lemma EI_perm e live live' extra extra' fl fl' all :
  live ≡ₚ live' → extra ≡ₚ extra' → fl ≡ₚ fl' → EI e live extra fl all → EI e live' extra' fl' all.
Proof.
  intros Hl He Hf [Hh ?? ?? ? Hn ? Hli ? [Hu Hu2] Ha]. split; try done.
  - eapply pc_heap_perm; [|done]. by rw Hl He.
  - by rw -Hl -Hf.
  - intros s Hs. apply Hli. by rw Hl.
  - split; [by rw -Hl|]. intros s Hs. apply Hu2. by rw Hl.
  - by rw -Hl -Hf.
Qed.

Lemma next_row ids row :
  in_vocab w ids → last (ref_logits attend inv w (embed w ids)) = Some row → next ids = ts_argmax row.
Proof.
  intros Hv Hl. rw /greedy_next.
  by rw (lm_full sdpa attend sdpa_rows inv w (nat_ids ids) (embed w ids)) // ?Hl //; [apply embed_select].
Qed.

Lemma last_row_width ids row :
  last (ref_logits attend inv w (embed w ids)) = Some row → length row = length (embed_tokens w) ∧ row ≠ [].
Proof.
  intros Hl. apply last_Some in Hl as [l Hl].
  assert (row ∈ ref_logits attend inv w (embed w ids)) as Hin by (rw Hl; apply elem_of_app; right; by left).
  rw /ref_logits in Hin. apply list_elem_of_fmap in Hin as (v & -> & _). rw head_width. split; [done|].
  intros Hn. apply (f_equal length) in Hn. rw head_width in Hn. by destruct (embed_tokens w).
Qed.

(** ** Requests in flight *)

(** Changing the record of a request being handled. *)
Lemma inv_of_update p c ro wt reqs newly uid canc live extra fl all r q q' :
  inv_of p c ro wt reqs newly uid canc live extra (r :: fl) all →
  reqs !! r = Some q → prompt_token_ids q' = prompt_token_ids q → params q' = params q →
  outcome_ok q' → finish_reason q = None →
  inv_of p c ro wt (<[r := q']> reqs) newly uid canc live extra (r :: fl) all.
Proof.
  intros [? ???? Hg Hn Hw Hl Hnew Hu Ha] Hr Hpr Hpa Hoq Hnf.
  destruct (Hg _ _ Hr) as ([] & _ & Hask).
  apply NoDup_app in Hn as (Hn1 & Hn2 & Hn3). pose proof Hn3 as (_ & Hn4 & _)%NoDup_app.
  split; try done.
  - intros r' q2. rw lookup_insert. case_decide; [|apply Hg]. intros [= <-]. subst r'. split_and!; [split|done|]; by rw ?Hpr ?Hpa.
  - apply NoDup_app. done.
  - intros r' Hr'. rw lookup_insert_ne; [by apply Hw|]. intros ->. apply (Hn2 _ Hr').
    apply elem_of_app. right. by left.
  - intros s Hs. rw lookup_insert_ne; [by apply Hl|]. intros ->.
    apply (Hn4 (s_req s)); [|by left]. by apply list_elem_of_fmap_2.
  - intros r' Hr'. destruct (Hnew _ Hr') as (q2 & Hq2 & Hf2). rw lookup_insert_ne; [by eauto|]. naive_solver.
Qed.

(** A request being handled becomes an outcome. *)
Lemma inv_of_close p c ro wt reqs newly uid canc live extra fl all r q :
  inv_of p c ro wt reqs newly uid canc live extra (r :: fl) all →
  reqs !! r = Some q → finish_reason q ≠ None →
  inv_of p c ro wt reqs (newly ++ [r]) uid canc live extra fl all.
Proof.
  intros [? ???? Hg Hn Hw Hl Hnew Hu Ha] Hr Hf. split; try done.
  - assert (wt ++ (s_req <$> live) ++ r :: fl ≡ₚ r :: wt ++ (s_req <$> live) ++ fl) as Hp by solve_Permutation.
    rw Hp in Hn. by apply NoDup_cons in Hn as [_ ?].
  - intros r' [Hr'| ->%list_elem_of_singleton]%elem_of_app; [by apply Hnew|eauto].
  - rw -Ha. solve_Permutation.
Qed.

(** A waiting request is taken up, and put back. *)
Lemma inv_of_open p c ro wt reqs newly uid canc live extra fl all r :
  inv_of p c ro (r :: wt) reqs newly uid canc live extra fl all → inv_of p c ro wt reqs newly uid canc live extra (r :: fl) all.
Proof.
  intros [? ???? Hg Hn Hw Hl Hnew Hu Ha]. split; try done.
  - assert (wt ++ (s_req <$> live) ++ r :: fl ≡ₚ (r :: wt) ++ (s_req <$> live) ++ fl) as -> by solve_Permutation. done.
  - intros r' Hr'. apply Hw. by right.
  - rw -Ha. solve_Permutation.
Qed.

Lemma inv_of_requeue p c ro wt reqs newly uid canc live extra fl all r q :
  inv_of p c ro wt reqs newly uid canc live extra (r :: fl) all → reqs !! r = Some q → fresh q →
  inv_of p c ro (r :: wt) reqs newly uid canc live extra fl all.
Proof.
  intros [? ???? Hg Hn Hw Hl Hnew Hu Ha] Hr Hf. split; try done.
  - assert ((r :: wt) ++ (s_req <$> live) ++ fl ≡ₚ wt ++ (s_req <$> live) ++ r :: fl) as -> by solve_Permutation. done.
  - intros r' [->|Hr']%elem_of_cons; [by eauto|by apply Hw].
  - rw -Ha. solve_Permutation.
Qed.

(** A sequence leaves the live ones, and joins them. *)
Lemma inv_of_take p c ro wt reqs newly uid canc live extra fl all s :
  inv_of p c ro wt reqs newly uid canc (s :: live) extra fl all →
  inv_of p c ro wt reqs newly uid canc live (s_cache s :: extra) (s_req s :: fl) all.
Proof.
  intros [Hh ???? Hg Hn Hw Hl Hnew [Hu Hu2] Ha]. split; try done.
  - eapply pc_heap_perm; [|done]. cbn. solve_Permutation.
  - assert (wt ++ (s_req <$> live) ++ s_req s :: fl ≡ₚ wt ++ (s_req <$> s :: live) ++ fl) as ->; [|done].
    cbn. solve_Permutation.
  - intros s' Hs'. apply Hl. by right.
  - apply NoDup_cons in Hu as [_ Hu]. split; [done|]. intros s' Hs'. apply Hu2. by right.
  - rw -Ha. cbn. solve_Permutation.
Qed.

Lemma inv_of_join p c ro wt reqs newly uid canc live extra fl all s q :
  inv_of p c ro wt reqs newly uid canc live (s_cache s :: extra) (s_req s :: fl) all →
  reqs !! s_req s = Some q → running_ok p s q → s_uid s < uid → s_uid s ∉ s_uid <$> live →
  inv_of p c ro wt reqs newly uid canc (s :: live) extra fl all.
Proof.
  intros [Hh ???? Hg Hn Hw Hl Hnew [Hu Hu2] Ha] Hr Hok Hlt Hni. split; try done.
  - eapply pc_heap_perm; [|done]. cbn. solve_Permutation.
  - assert (wt ++ (s_req <$> s :: live) ++ fl ≡ₚ wt ++ (s_req <$> live) ++ s_req s :: fl) as ->; [|done].
    cbn. solve_Permutation.
  - intros s' [->|Hs']%elem_of_cons; [by eauto|by apply Hl].
  - split; [by apply NoDup_cons|]. intros s' [->|Hs']%elem_of_cons; [done|by apply Hu2].
  - rw -Ha. cbn. solve_Permutation.
Qed.

(** Allocator bookkeeping that leaves the buffers alone. *)
Lemma inv_of_storage p p' c c' ro wt reqs newly uid canc live extra extra' fl all :
  inv_of p c ro wt reqs newly uid canc live extra fl all → same_storage p p' →
  pc_heap p' c' ((s_cache <$> live) ++ extra') → (∀ h b, bid c' h = Some b → bid c h = Some b) →
  inv_of p' c' ro wt reqs newly uid canc live extra' fl all.
Proof.
  intros [Hh HL ? He Hcf Hg Hn Hw Hl Hnew Hu Ha] Hs Hh' Hb. pose proof Hs as (Hbs & HL' & _). split; try done.
  - by rw HL'.
  - eapply entries_ok_storage; [done|]. by eapply entries_ok_bids.
  - by rw Hbs.
  - intros s Hs'. destruct (Hl _ Hs') as (q & Hq & [? ? (out & ? & ?)]). exists q. split; [done|]. split; [done..|].
    exists out. split; [done|]. by eapply holds_storage.
Qed.

Lemma inv_of_free p c ro wt reqs newly uid canc live extra fl all x :
  inv_of p c ro wt reqs newly uid canc live (x :: extra) fl all →
  wp PagedKVCache.free
     (λ _ s', same_storage p s'.1 ∧ inv_of s'.1 c ro wt reqs newly uid canc live extra fl all) never (p, x).
Proof.
  intros HI. pose proof (ei_heap _ _ _ _ _ _ _ _ _ _ _ _ HI) as Hh.
  assert (pc_heap p c (x :: ((s_cache <$> live) ++ extra))) as Hh2.
  { eapply pc_heap_perm; [|done]. solve_Permutation. }
  destruct (heap_owned p _ (held c) 0 x (proj1 Hh2) eq_refl) as [HO _].
  eapply wp_mono; [by eapply free_spec| |done].
  intros _ [p' x'] (_ & a & -> & Hn & HA). cbn [fst].
  assert (same_storage p (set_allocator a p)) as Hs by by split_and!.
  split; [done|]. eapply inv_of_storage; [done|done| |done].
  destruct Hh2 as [[Hwf _ Hcs] Hpc]. split; [|done]. split; [by eapply same_storage_wf|exact HA|].
  apply Forall_cons in Hcs as [_ Hcs]. eapply Forall_impl; [done|]. intros ?. by apply same_storage_cache_wf.
Qed.

(** ** Operations on one request *)

(** The fields a request's bookkeeping leaves alone. *)
Definition calm (e e' : Engine (R := R)) : Prop :=
  e_running e' = e_running e ∧ e_uid e' = e_uid e ∧ e_waiting e' = e_waiting e ∧
  same_storage (e_pool e) (e_pool e') ∧ e_prefix e' = e_prefix e ∧ e_admission e' = e_admission e ∧
  e_rotary e' = e_rotary e.

Lemma calm_trans e1 e2 e3 : calm e1 e2 → calm e2 e3 → calm e1 e3.
Proof.
  intros (?&?&?&?&?&?&?) (?&?&?&?&?&?&?). split_and!; try congruence. by eapply same_storage_trans.
Qed.

Lemma free_cache_spec e live extra fl all x :
  EI e live (x :: extra) fl all →
  wp (free_cache x) (λ _ e', EI e' live extra fl all ∧ calm e e' ∧ e_reqs e' = e_reqs e) never e.
Proof.
  intros HI. rw /free_cache /wp. pose proof (inv_of_free _ _ _ _ _ _ _ _ _ _ _ _ _ HI) as Hf. rw /wp in Hf.
  destruct (PagedKVCache.free (e_pool e, x)) as [[a|ex] [p' x']]; [|done]. destruct Hf as [Hs HI'].
  split_and!; try done. 
Qed.

Lemma get_req_spec e r q (Q : Request → Engine → Prop) E :
  e_reqs e !! r = Some q → Q q e → wp (get_req (R := R) r) Q E e.
Proof. intros Hr HQ. rw /wp /get_req Hr. done. Qed.

Lemma finish_req_spec e live extra fl all r q reason :
  EI e live extra (r :: fl) all → e_reqs e !! r = Some q → finish_reason q = None →
  match reason with EOS | LENGTH => settled q reason | fr => may fr ∧ partial q end →
  wp (finish_req perf_counter r reason)
     (λ _ e', EI e' live extra (r :: fl) all ∧ calm e e' ∧
        ∃ t, e_reqs e' = <[r := finish reason t q]> (e_reqs e)) never e.
Proof.
  intros HI Hr Hf Hs. rw /finish_req /upd_req /now. rw /wp /bind. cbn.
  assert (alter (finish reason (perf_counter (e_ticks e))) r (e_reqs e)
    = <[r := finish reason (perf_counter (e_ticks e)) q]> (e_reqs e)) as Halt.
  { by apply alter_at. }
  split_and!; [|done..|by eexists].
  rw /EI. cbn. rw Halt. eapply inv_of_update; [done|done|done|done| |done].
  rw /Engine.outcome_ok /=. by destruct reason.
Qed.

Lemma record_finished_spec e live extra fl all r q :
  EI e live extra (r :: fl) all → e_reqs e !! r = Some q → finish_reason q ≠ None →
  wp (_record_finished cfg r) (λ _ e', EI e' live extra fl all ∧ calm e e' ∧ e_reqs e' = e_reqs e) never e.
Proof.
  intros HI Hr Hf. rw /_record_finished /wp /modify. split_and!; try done.
  rw /EI /= assoc. by eapply inv_of_close.
Qed.

Lemma retire_spec e live extra fl all s q fr :
  EI e live (s_cache s :: extra) (s_req s :: fl) all → e_reqs e !! s_req s = Some q →
  finish_reason q = None → s_finish_reason s = Some fr → settled q fr → fr = EOS ∨ fr = LENGTH →
  wp (_retire perf_counter cfg s) (λ r e', r = s_req s ∧ EI e' live extra fl all ∧ calm e e' ∧
        ∃ t, e_reqs e' = <[s_req s := finish fr t q]> (e_reqs e)) never e.
Proof.
  intros HI Hr Hf Hfr Hs Hc. rw /_retire. wp_step. eapply wp_mono; [by eapply free_cache_spec| |done].
  intros _ e1 (HI1 & Hc1 & Hr1). wp_step. rw Hfr /=.
  eapply wp_mono; [eapply finish_req_spec; [done|by rw Hr1|done|by destruct Hc as [->| ->]]| |done].
  intros _ e2 (HI2 & Hc2 & t & Hr2). wp_step.
  eapply wp_mono; [eapply record_finished_spec; [done|by rw Hr2 lookup_insert_eq|done]| |done].
  intros _ e3 (HI3 & Hc3 & Hr3). wp_step. split_and!; [done|done| |].
  - eapply calm_trans; [done|]. by eapply calm_trans.
  - exists t. by rw Hr3 Hr2 Hr1.
Qed.

(** A sampled token for a sequence whose cache holds the whole context. *)
Record pending e live extra fl all (s : Sequence) (q : Request) : Prop := {
  pd_inv : EI e live (s_cache s :: extra) (s_req s :: fl) all;
  pd_req : e_reqs e !! s_req s = Some q;
  pd_live : s_finished s = false ∧ finish_reason q = None;
  pd_partial : partial q;
  pd_holds : holds (e_pool e) (s_cache s) (nat_ids (context q));
  pd_token : (0 ≤ next_token s < Z.of_nat (length (embed_tokens w)))%Z;
  pd_greedy : greedy (params q) = true → next (context q) = next_token s;
}.

(** The two ways a pending token ends. *)
Definition accepted e live extra fl all (s s' : Sequence) : Prop :=
  s_cache s' = s_cache s ∧ s_req s' = s_req s ∧ s_uid s' = s_uid s ∧
  EI e live (s_cache s :: extra) (s_req s :: fl) all ∧
  ∃ q', e_reqs e !! s_req s = Some q' ∧ finish_reason q' = None ∧
    if s_finished s' then ∃ fr, s_finish_reason s' = Some fr ∧ settled q' fr ∧ (fr = EOS ∨ fr = LENGTH)
    else s' = s ∧ running_ok (e_pool e) s q'.

(** Requests other than [r] keep their records. *)
Definition untouched (r : nat) e e' : Prop := ∀ r', r' ≠ r → e_reqs e' !! r' = e_reqs e !! r'.

(** The tokens a request has produced. *)
Definition outlen e (r : nat) : option nat := output_len <$> e_reqs e !! r.
Definition one_more (r : nat) e e' : Prop := ∃ n, outlen e r = Some n ∧ outlen e' r = Some (S n).

Lemma outlen_ext e e' r : e_reqs e' !! r = e_reqs e !! r → outlen e' r = outlen e r.
Proof. by rw /outlen => ->. Qed.

Lemma record_token_req_spec e r token (Q : unit → Engine → Prop) E :
  Q tt (set_reqs (alter (record_token token (perf_counter (e_ticks e))) r (e_reqs e))
          (set_counters (S (e_ticks e)) (e_seed e) (e_uid e) e)) →
  wp (record_token_req perf_counter r token) Q E e.
Proof. done. Qed.

Lemma accept_token_spec e live extra fl all s q :
  pending e live extra fl all s q →
  wp (_accept_token perf_counter cfg s (next_token s))
     (λ s' e', accepted e' live extra fl all s s' ∧ calm e e' ∧ e_pool e' = e_pool e ∧
        untouched (s_req s) e e' ∧ next_token s' = next_token s ∧
        (s_finished s' = false → one_more (s_req s) e e')) never e.
Proof.
  intros [HI Hr [Hsf Hf] Hp Hh Ht Hg]. rw /_accept_token. wp_step. eapply get_req_spec; [done|].
  destruct ((next_token s =? eos_token_id cfg)%Z && negb (ignore_eos (params q))) eqn:Heos.
  { wp_step. apply andb_true_iff in Heos as [He Hi]. apply Z.eqb_eq in He. apply negb_true_iff in Hi.
    split_and!; try done. rw /accepted. split_and!; try done. exists q. split_and!; try done. cbn. exists EOS. split; [done|]. split; [|by left].
    apply partial_eos; [done| |done]. intros Hgr. by rw Hg. }
  wp_step. apply record_token_req_spec.
  set (t := perf_counter (e_ticks e)). set (q' := record_token (next_token s) t q).
  set (e1 := set_reqs _ _).
  assert (EI e1 live (s_cache s :: extra) (s_req s :: fl) all) as HI1.
  { rw /EI /e1. cbn. rw (alter_at _ _ _ q) //.
    eapply inv_of_update; [done|done|done|done| |done]. by rw /Engine.outcome_ok /= Hf. }
  assert (untouched (s_req s) e e1) as Hun. { intros r' Hne. by rw /e1 /= lookup_alter_ne. }
  assert (e_reqs e1 !! s_req s = Some q') as Hr1 by by rw /e1 /= (alter_at _ _ _ q) // lookup_insert_eq.
  wp_step. eapply get_req_spec; [done|]. change (params q') with (params q).
  pose proof (partial_token sdpa inv w cfg q (next_token s) t Hp Ht Hg Heos) as Hpt. cbv zeta in Hpt.
  assert (one_more (s_req s) e e1) as Hmore.
  { exists (output_len q). rw /outlen Hr Hr1. cbn. by rw /output_len /= length_app Nat.add_1_r. }
  fold q' in Hpt. revert Hpt. destruct (max_tokens (params q) <=? Z.of_nat (output_len q'))%Z; intros Hpt; wp_step.
  - split_and!; try done. rw /accepted. split_and!; try done. exists q'. split_and!; try done. exists LENGTH. auto.
  - split_and!; try done. rw /accepted. split_and!; try done. exists q'. split_and!; try done. rw Hsf. split; [done|]. split; [done|done|].
    by exists (output_token_ids q).
Qed.

Lemma accept_and_emit_spec e live extra fl all s q :
  pending e live extra fl all s q →
  wp (accept_and_emit perf_counter cfg s)
     (λ s' e', accepted e' live extra fl all s s' ∧ calm e e' ∧ e_pool e' = e_pool e ∧ untouched (s_req s) e e' ∧
        (s_finished s' = false → one_more (s_req s) e e')) never e.
Proof.
  intros Hp. rw /accept_and_emit. wp_step. eapply get_req_spec; [apply Hp|]. wp_step.
  eapply wp_mono; [by eapply accept_token_spec| |done]. intros s' e' (Ha & Hc & Hpool & Hun & Hnt & Hmore).
  pose proof Ha as (Hsc & Hsr & Hsu & HI & q' & Hr' & Hf' & Hcase).
  wp_step. rw Hsr. eapply (get_req_spec _ _ q'); [done|]. wp_step.
  destruct (output_len q <? output_len q'); wp_step; try wp_step; (split_and!; [exact Ha|done|done|exact Hun|exact Hmore]).
Qed.

(** Sampling from a row of logits. *)
Lemma sample_spec e row q :
  row ≠ [] → good q →
  wp (_sample row q)
     (λ t e', (0 ≤ t < Z.of_nat (length row))%Z ∧ (greedy (params q) = true → t = ts_argmax row) ∧
        ∃ n, e' = set_counters (e_ticks e) n (e_uid e) e) never e.
Proof.
  intros Hrow Hg. rw /_sample. destruct (greedy (params q)) eqn:Hgr.
  - wp_step. split_and!; [by apply argmax_range|by apply argmax_range|done|]. exists (e_seed e). by destruct e.
  - wp_step. rw /next_seed {1}/wp. destruct (sample_with_params_ok (e_seed e) row (params q) Hrow) as (t & Ht & Hr).
    { apply Hg. }
    rw /lift /wp Ht. split_and!; [lia|lia|done|]. eexists. done.
Qed.

(** ** Admission of one request *)

Lemma try_prefill_spec e live fl all r q :
  EI e live [] fl all → good q →
  ceil_div (prompt_len q) (block_size (e_pool e)) ≤ BlockAllocator.num_free (allocator (e_pool e)) →
  wp (try_prefill sdpa w hash perf_counter cfg r q)
     (λ t s', ∃ tok, t = Some tok ∧ (0 ≤ tok < Z.of_nat (length (embed_tokens w)))%Z ∧
        (greedy (params q) = true → next (prompt_token_ids q) = tok) ∧
        EI s'.1 live [s'.2] fl all ∧ holds (e_pool s'.1) s'.2 (nat_ids (prompt_token_ids q)) ∧
        e_running s'.1 = e_running e ∧ e_waiting s'.1 = e_waiting e ∧ e_reqs s'.1 = e_reqs e ∧
        e_uid s'.1 = e_uid e ∧ e_admission s'.1 = e_admission e ∧ same_shape (e_pool e) (e_pool s'.1) ∧
        BlockAllocator.num_free (allocator (e_pool e)) ≤
          BlockAllocator.num_free (allocator (e_pool s'.1)) + ceil_div (prompt_len q) (block_size (e_pool e)))
     never (e, PagedKVCache.init).
Proof.
  intros HI Hg Hroom. rw /try_prefill. wp_step. wp_step.
  pose proof HI as [Hh HL Hr He Hcf Hgd Hnd Hw Hl Hnew Hu Ha]. rw app_nil_r in Hh.
  eapply wp_mono; [apply (prefill_spec sdpa attend sdpa_rows inv w hash seen e q (s_cache <$> live)); try done; apply Hg| |done].
  intros logits [e1 c1] (Hlast & Hne & Hst & Hr1 & HH1 & Hsh & He1 & Hh1 & Hfr & Hfree). cbn [fst snd] in *.
  wp_step. rw {1}/wp /lift /last_row. destruct (last logits) as [row|] eqn:Hrow; [|by apply last_None in Hrow].
  symmetry in Hlast. destruct (last_row_width _ _ Hlast) as [Hwd Hrn].
  wp_step. rw /on_engine. wp_step. cbn [fst snd].
  eapply wp_mono; [by apply sample_spec| |done]. intros t e2 (Ht & Hgt & n & ->). wp_step.
  exists t. rw Hwd in Ht. split_and!; try done; try lia; try (by rw Hst).
  - intros Hgr. rw Hgt //. apply next_row; [apply Hg|done].
  - rw /EI. cbn.
    assert (e_waiting e1 = e_waiting e ∧ e_reqs e1 = e_reqs e ∧ e_newly e1 = e_newly e ∧ e_uid e1 = e_uid e ∧
      e_cancel e1 = e_cancel e) as (-> & -> & -> & -> & ->) by by rw Hst.
    split; try done.
    + destruct Hsh as (_ & -> & _). done.
    + destruct Hsh as (-> & _). done.
    + intros s Hs. destruct (Hl _ Hs) as (q2 & Hq2 & [? ? (out & ? & ?)]). exists q2. split; [done|].
      split; [done..|]. exists out. split; [done|]. apply Hfr; [|done]. by apply list_elem_of_fmap_2.
Qed.

(** What admitting changes outside the invariant's reach. *)
Definition framed e e' : Prop :=
  e_running e' = e_running e ∧ e_admission e' = e_admission e ∧ same_shape (e_pool e) (e_pool e').

Lemma framed_refl e : framed e e.
Proof. by split_and!. Qed.

Lemma framed_trans e1 e2 e3 : framed e1 e2 → framed e2 e3 → framed e1 e3.
Proof. intros (?&?&?) (?&?&?). split_and!; try congruence. by eapply same_shape_trans. Qed.

Lemma calm_framed e e' : calm e e' → framed e e'.
Proof. intros (?&_&_&?&_&?&_). split_and!; try done. by apply same_storage_shape. Qed.

(** Reserving room: the code's check of the free list, falling back on eviction. *)
Lemma make_room_spec e live fl all n :
  EI e live [] fl all →
  wp (if BlockAllocator.num_free (allocator (e_pool e)) <? n
      then on_prefix (PrefixCache.ensure_free n) else ret true)
     (λ room e', EI e' live [] fl all ∧ framed e e' ∧ e_reqs e' = e_reqs e ∧ e_waiting e' = e_waiting e ∧
        room = (n <=? BlockAllocator.num_free (allocator (e_pool e))
                  + length (evictable (e_prefix e) (refs_of (s_cache <$> live)))) ∧
        (room = true → n ≤ BlockAllocator.num_free (allocator (e_pool e'))) ∧
        BlockAllocator.num_free (allocator (e_pool e)) ≤ BlockAllocator.num_free (allocator (e_pool e'))) never e.
Proof.
  intros HI. destruct (Nat.ltb_spec (BlockAllocator.num_free (allocator (e_pool e))) n) as [Hlt|Hge]; last first.
  { wp_step. split_and!; try done. symmetry. apply Nat.leb_le. lia. }
  rw /on_prefix. wp_step. rw /PrefixCache.ensure_free. do 2 wp_step.
  pose proof (ei_heap _ _ _ _ _ _ _ _ _ _ _ _ HI) as Hh. rw app_nil_r in Hh.
  eapply wp_mono; [apply (ensure_free_loop_spec _ n (e_pool e, e_prefix e) (refs_of (s_cache <$> live)))| |done].
  { by apply pc_heap_ok. } { cbn. lia. }
  intros room [p' c'] (Hok & Hk & _ & Hb & -> & Hr & Hge). cbn in *. split_and!; try done.
  - rw /EI. cbn. eapply inv_of_storage; [done|done| |done]. rw app_nil_r. by eapply pc_ok_heap.
  - split_and!; try done; by destruct Hk as (?&?&_&_&?).
Qed.

(** Fewer blocks in use, more blocks free. *)
Lemma accounted_free_le (a a' : BlockAllocator.t) X X' :
  accounted a X → accounted a' X' → BlockAllocator.num_blocks a' = BlockAllocator.num_blocks a →
  X' ⊆ X → BlockAllocator.num_free a ≤ BlockAllocator.num_free a'.
Proof.
  intros HA HA' Hnb Hsub. pose proof (accounted_num_free _ _ HA). pose proof (accounted_num_free _ _ HA').
  assert (size (dom X' : gset nat) ≤ size (dom X : gset nat)); [|lia].
  apply subseteq_size. intros b. rw !gmultiset_elem_of_dom. multiset_solver.
Qed.

(** What admitting one request takes: it alone changes, and its prompt's blocks. *)
Definition took (r : nat) (q : Request) e e' : Prop :=
  framed e e' ∧ e_waiting e' = e_waiting e ∧ untouched r e e' ∧
  BlockAllocator.num_free (allocator (e_pool e)) ≤
    BlockAllocator.num_free (allocator (e_pool e')) + ceil_div (prompt_len q) (block_size (e_pool e)).

(** From a fresh cache to a running sequence or an outcome. *)
Lemma admit_one_spec {A} e live all r q q2 (kN : EM A) (k1 : nat → EM A) (k2 : Sequence → EM A) Q :
  EI e live [] [r] all → e_reqs e !! r = Some q2 → fresh q2 → good q →
  prompt_token_ids q2 = prompt_token_ids q → params q2 = params q →
  ceil_div (prompt_len q) (block_size (e_pool e)) ≤ BlockAllocator.num_free (allocator (e_pool e)) →
  (∀ e', EI e' live [] [] all → took r q e e' → wp (k1 r) Q never e') →
  (∀ s e', EI e' (s :: live) [] [] all → s_req s = r → took r q e e' → wp (k2 s) Q never e') →
  wp (let* (token, cache) := with_cache PagedKVCache.init (try_prefill sdpa w hash perf_counter cfg r q) in
      match token with
      | None => kN
      | Some token =>
          let* u := fresh_uid in
          let* s := accept_and_emit perf_counter cfg (mkSeq u r cache token false None) in
          if s_finished s then let* r' := _retire perf_counter cfg s in k1 r' else k2 s
      end) Q never e.
Proof.
  intros HI Hr2 [Ho2 Hf2] Hg Hpq Hps Hroom H1 H2. wp_step.
  pose proof (try_prefill_spec e live [r] all r q HI Hg Hroom) as Htp.
  rw /wp in Htp. rw {1}/wp /with_cache.
  destruct (try_prefill _ _ _ _ _ _ _ _) as [[t|ex] [e1 c1]]; [|done].
  destruct Htp as (tok & -> & Htok & Hgt & HI1 & Hh1 & Hrun & Hwt & Hrq & Huid & Had & Hsh & Hfree). cbn [fst snd] in *.
  wp_step. rw /fresh_uid {1}/wp. wp_step.
  set (e2 := set_counters _ _ _ _). set (s := mkSeq _ _ _ _ _ _).
  assert (EI e2 live [s_cache s] [s_req s] all) as HI2.
  { destruct HI1 as [? ??????????]. split; try done. split; [by apply ei_uids0|].
    intros s' Hs'. cbn. pose proof (proj2 ei_uids0 _ Hs'). lia. }
  assert (s_uid s ∉ s_uid <$> live) as Hni.
  { intros (s' & Heq & Hs')%list_elem_of_fmap. pose proof (proj2 (ei_uids _ _ _ _ _ _ _ _ _ _ _ _ HI1) _ Hs').
    rw /s /= in Heq. lia. }
  eapply wp_mono; [apply (accept_and_emit_spec e2 live [] [] all s q2)| |done].
  { split; try done.
    - by rw /= Hrq.
    - by apply fresh_partial.
    - by rw Ho2 app_nil_r Hpq.
    - rw Hps Ho2 app_nil_r Hpq. done. }
  intros s' e3 ((Hsc & Hsr & Hsu & HI3 & q3 & Hr3 & Hf3 & Hcase) & Hc3 & Hp3 & Hun3 & _).
  pose proof Hc3 as (Hru3 & Hui3 & Hwt3 & _ & _ & Had3 & _).
  assert (framed e e3) as Hfr.
  { split_and!; [by rw Hru3 /= Hrun|by rw Had3 /= Had|by rw Hp3]. }
  assert (took r q e e3) as Htk.
  { split_and!; [done|by rw Hwt3 /= Hwt| |by rw Hp3]. intros r' Hne. rw Hun3 //= Hrq //. }
  destruct (s_finished s').
  - destruct Hcase as (fr & Hfr' & Hset & Hfc). wp_step.
    eapply wp_mono; [eapply (retire_spec e3 live [] [] all s' q3 fr); [by rw Hsc Hsr|by rw Hsr|done..]| |done].
    intros r' e4 (-> & HI4 & Hc4 & tm & Hr4). rw Hsr. apply H1; [done|].
    destruct Htk as (_ & Hw3 & Hu3 & Hf4). pose proof Hc4 as (_ & _ & Hwt4 & Hst4 & Hpx4 & _). split_and!.
    + eapply framed_trans; [done|by apply calm_framed].
    + by rw Hwt4.
    + intros r' Hne. rw Hr4 Hsr lookup_insert_ne //. by apply Hu3.
    + etrans; [exact Hf4|]. apply Nat.add_le_mono_r.
      eapply accounted_free_le; [apply (heap_acc _ _ _ (proj1 (ei_heap _ _ _ _ _ _ _ _ _ _ _ _ HI3)))|
        apply (heap_acc _ _ _ (proj1 (ei_heap _ _ _ _ _ _ _ _ _ _ _ _ HI4)))|by destruct Hst4 as (_&_&_&_&?)|].
      rw Hpx4 /refs_of !bind_app /= !app_nil_r list_to_set_disj_app. multiset_solver.
  - destruct Hcase as [-> Hro]. apply H2; [|done|done].
    eapply inv_of_join; [done|done|done|rw Hui3 /=; lia|done].
Qed.

Lemma finish_outcome_spec {A} e live extra fl all r q reason (k : EM A) Q :
  EI e live extra (r :: fl) all → e_reqs e !! r = Some q → finish_reason q = None →
  reason ≠ EOS → reason ≠ LENGTH → may reason → partial q →
  (∀ e', EI e' live extra fl all → calm e e' → (∃ t, e_reqs e' = <[r := finish reason t q]> (e_reqs e)) → wp k Q never e') →
  wp (do* finish_req perf_counter r reason in do* _record_finished cfg r in k) Q never e.
Proof.
  intros HI Hr Hf Hn1 Hn2 Hm Hp Hk. wp_step.
  eapply wp_mono; [eapply finish_req_spec; [done|done|done|by destruct reason]| |done].
  intros _ e2 (HI2 & Hc2 & t & Hr2). wp_step.
  eapply wp_mono; [eapply record_finished_spec; [done|by rw Hr2 lookup_insert_eq|done]| |done].
  intros _ e3 (HI3 & Hc3 & Hr3). apply Hk; [done|by eapply calm_trans|]. exists t. by rw Hr3.
Qed.

Lemma set_scheduled_spec e live extra fl all r q (t : Qc) :
  EI e live extra (r :: fl) all → e_reqs e !! r = Some q → finish_reason q = None →
  wp (upd_req (R := R) r (set_scheduled (Some t)))
     (λ _ e', EI e' live extra (r :: fl) all ∧ e' = set_reqs (<[r := set_scheduled (Some t) q]> (e_reqs e)) e) never e.
Proof.
  intros HI Hr Hf. rw /upd_req. wp_step. rw (alter_at _ _ _ q) //. split; [|done].
  eapply inv_of_update; [done|done|done|done| |done]. by rw /Engine.outcome_ok /= Hf.
Qed.

(** ** The admission loop *)

#[local] Abbreviation frees e := (BlockAllocator.num_free (allocator (e_pool e))).

(** Why the loop takes nothing from a non-empty queue: the batch is full, or the head's
    demand exceeds what is free or evictable. *)
Definition stuck (fuel : nat) e (adm : list Sequence) : Prop :=
  match fuel, e_waiting e with
  | S _, r :: _ =>
      max_batch_size cfg ≤ length (e_running e) + length adm ∨
      ∃ q, e_reqs e !! r = Some q ∧
        frees e + length (evictable (e_prefix e) (refs_of (s_cache <$> e_running e ++ adm)))
          < _blocks_needed q e + 1 + Nat.max (reserve_blocks cfg) (length (e_running e) + length adm + 1)
  | _, _ => True
  end.

(** What the loop takes: a prefix [popped] of the queue, of which [new] go on; the other
    requests are as they were, and a block is left for every sequence of the batch. *)
Definition admitted_from (fuel : nat) e (adm adm' : list Sequence) e' : Prop :=
  ∃ popped new, adm' = adm ++ new ∧ e_waiting e = popped ++ e_waiting e' ∧ length new ≤ length popped ∧
    (∀ r, r ∉ popped → e_reqs e' !! r = e_reqs e !! r) ∧
    (popped ≠ [] ∨ length (e_running e) + length adm ≤ frees e → length (e_running e) + length adm' ≤ frees e') ∧
    (popped = [] → stuck fuel e adm).

Lemma admitted_none fuel e adm e' : e_waiting e' = e_waiting e → e_reqs e' = e_reqs e → frees e ≤ frees e' →
  stuck fuel e adm → admitted_from fuel e adm adm e'.
Proof.
  intros Hw Hr Hf Hs. exists [], []. rw app_nil_r Hw Hr. split_and!; try done. intros [|]; [done|lia].
Qed.

(** One request taken, then the rest. *)
Lemma admitted_one fuel fuel' e e1 adm adm1 adm' e' r new1 :
  e_waiting e = r :: e_waiting e1 → e_running e1 = e_running e → untouched r e e1 →
  adm1 = adm ++ new1 → length new1 ≤ 1 → length (e_running e) + length adm1 ≤ frees e1 →
  admitted_from fuel e1 adm1 adm' e' → admitted_from fuel' e adm adm' e'.
Proof.
  intros Hw Hru Hun -> Hn Hf (popped & new & -> & Hw1 & Hlen & Hr & Hfree & _).
  exists (r :: popped), (new1 ++ new). rw Hru in Hfree. split_and!; [by rw assoc|by rw Hw Hw1|rw length_app /=; lia| | |done].
  - intros r' [Hne Hni]%not_elem_of_cons. rw Hr // Hun //.
  - intros _. apply Hfree. by right.
Qed.

Lemma admit_loop_spec fuel : ∀ e adm done all,
  EI e (e_running e ++ adm) [] [] all →
  length (e_running e) + length adm ≤ max_batch_size cfg →
  wp (admit_loop sdpa w hash perf_counter cfg fuel adm done)
     (λ '(adm', _) e', EI e' (e_running e ++ adm') [] [] all ∧ framed e e' ∧
        length (e_running e) + length adm' ≤ max_batch_size cfg ∧ admitted_from fuel e adm adm' e') never e.
Proof.
  induction fuel as [|fuel IH]; intros e adm dn all HI Hmax; cbn [admit_loop].
  { wp_step. split_and!; try done. by apply admitted_none. }
  do 2 wp_step. destruct (e_waiting e) as [|r wt] eqn:Hwt.
  { wp_step. split_and!; try done. apply admitted_none; try done. by rw /stuck Hwt. }
  destruct (Nat.ltb_spec (length (e_running e) + length adm) (max_batch_size cfg)) as [Hlt|Hge]; cbn [negb]; last first.
  { wp_step. split_and!; try done. apply admitted_none; try done. rw /stuck Hwt. by left. }
  destruct (ei_waiting _ _ _ _ _ _ _ _ _ _ _ _ HI r) as (q & Hq & Hfresh); [rw Hwt; by left|].
  destruct (ei_good _ _ _ _ _ _ _ _ _ _ _ _ HI _ _ Hq) as [Hg _].
  wp_step. eapply get_req_spec; [done|]. wp_step.
  eapply wp_mono; [by apply make_room_spec| |done].
  intros room e1 (HI1 & Hfr1 & Hrq1 & Hwt1 & Hroom1 & Hroom & Hmono). pose proof Hfr1 as (Hru1 & Had1 & Hsh1).
  destruct room; cbn [negb]; last first.
  { wp_step. split_and!; try done. apply admitted_none; try done. rw /stuck Hwt. right. exists q. split; [done|].
    symmetry in Hroom1. by apply Nat.leb_gt in Hroom1. }
  specialize (Hroom eq_refl). rw /EI Hwt1 Hwt in HI1. apply inv_of_open in HI1.
  assert (∀ e2 adm2 dn2 new2, EI e2 (e_running e ++ adm2) [] [] all → framed e1 e2 →
    length (e_running e) + length adm2 ≤ max_batch_size cfg →
    e_waiting e2 = wt → untouched r e e2 → adm2 = adm ++ new2 → length new2 ≤ 1 →
    length (e_running e) + length adm2 ≤ frees e2 →
    wp (admit_loop sdpa w hash perf_counter cfg fuel adm2 dn2)
     (λ '(adm', _) e', EI e' (e_running e ++ adm') [] [] all ∧ framed e e' ∧
        length (e_running e) + length adm' ≤ max_batch_size cfg ∧ admitted_from (S fuel) e adm adm' e') never e2) as Hrec.
  { intros e2 adm2 dn2 new2 HI2 Hfr2 Hm2 Hw2 Hu2 Hadm2 Hnew2 Hf2. assert (e_running e2 = e_running e) as Hru2.
    { destruct Hfr2 as [-> _]. done. }
    eapply wp_mono; [apply (IH e2 adm2 dn2 all); by rw Hru2| |done]. rw Hru2.
    intros [adm' ?] e3 (? & ? & ? & Hfrom). split_and!; try done.
    - eapply framed_trans; [done|]. by eapply framed_trans.
    - apply (admitted_one fuel (S fuel) e e2 adm adm2 adm' e3 r new2); [by rw Hwt Hw2|done|done|done|done|done|exact Hfrom]. }
  destruct (_ && _) eqn:Hdead.
  - apply andb_true_iff in Hdead as [_ Hdead%Nat.ltb_lt].
    pose proof (accounted_num_free _ _ (heap_acc _ _ _ (proj1 (ei_heap _ _ _ _ _ _ _ _ _ _ _ _ HI1)))) as Hacc.
    destruct Hsh1 as (_ & _ & Hnb). lia.
  - rw /popleft. do 2 wp_step. wp_step. rw /now {1}/wp. wp_step.
    eapply wp_mono; [eapply (set_scheduled_spec _ _ [] [])| |done].
    { rw /EI /= Hwt1 Hwt. done. } { by rw /= Hrq1. } { apply Hfresh. }
    intros _ e2 [HI2 ->]. do 2 wp_step. rw /pool_allocate. cbn [e_pool set_reqs set_counters set_waiting].
    destruct (Nat.eqb_spec (frees e1) 0) as [Hz|Hnz]; [lia|].
    assert (∀ e3, took r q (set_reqs (<[r := set_scheduled (Some (perf_counter (e_ticks (set_waiting wt e1)))) q]> (e_reqs e1))
        (set_counters (S (e_ticks e1)) (e_seed e1) (e_uid e1) (set_waiting wt e1))) e3 →
      framed e1 e3 ∧ e_waiting e3 = wt ∧ untouched r e e3 ∧ length (e_running e) + length adm + 1 ≤ frees e3) as Htook.
    { intros e3 (Hfr3 & Hw3 & Hu3 & Hf3). cbn in Hw3, Hf3. split_and!; [done|done| |].
      - intros r' Hne. rw Hu3 //= lookup_insert_ne // Hrq1 //.
      - destruct Hsh1 as (Hbs1 & _). rw Hbs1 in Hf3. rw /_blocks_needed in Hroom. lia. }
    eapply (admit_one_spec _ _ _ _ q); [exact HI2|by rw /= lookup_insert_eq|by destruct Hfresh|done|done|done|..].
    + cbn. destruct Hsh1 as (-> & _). rw /_blocks_needed in Hroom. lia.
    + rw Hwt1 Hwt. intros e3 HI3 (Hfr3 & Hw3 & Hu3 & Hf3)%Htook. apply (Hrec e3 adm _ []); try done; try (cbn; lia). by rw app_nil_r.
    + rw Hwt1 Hwt. intros s e3 HI3 _ (Hfr3 & Hw3 & Hu3 & Hf3)%Htook. apply (Hrec e3 (adm ++ [s]) _ [s]); try done; try (rw ?length_app /=; lia).
      eapply EI_perm; [|done|done|done]. solve_Permutation.
Qed.

(** ** Cancellation *)

Lemma remove_first_filter {A} (f : A → nat) (n : nat) (l : list A) :
  NoDup (f <$> l) → remove_first (λ x, f x =? n) l = filter (λ x, f x ≠ n) l.
Proof.
  induction l as [|x l IH]; intros Hn; [done|]. cbn in Hn. cbn [remove_first]. apply NoDup_cons in Hn as [Hx Hn].
  destruct (Nat.eqb_spec (f x) n) as [He|Hne].
  - rw filter_cons_False; [|naive_solver]. symmetry. apply list_filter_id. intros y Hy <-. apply Hx.
    rw He. by apply list_elem_of_fmap_2.
  - rw filter_cons_True // IH //.
Qed.

Lemma filter_out_perm {A} (f : A → nat) (l : list A) x :
  NoDup (f <$> l) → x ∈ l → l ≡ₚ x :: filter (λ y, f y ≠ f x) l.
Proof.
  induction l as [|y l IH]; intros Hn Hx; [by apply not_elem_of_nil in Hx|].
  cbn in Hn. apply NoDup_cons in Hn as [Hy Hn]. apply elem_of_cons in Hx as [->|Hx].
  - rw filter_cons_False; [|naive_solver]. f_equiv. symmetry. erewrite list_filter_id; [done|].
    intros z Hz He. apply Hy. rw -He. by apply list_elem_of_fmap_2.
  - rw filter_cons_True; last first. { intros He. apply Hy. rw He. by apply list_elem_of_fmap_2. }
    rw {1}(IH Hn Hx). solve_Permutation.
Qed.

(** The requests keep their identity when they are finished. *)
Definition same_ids (m m' : gmap nat Request) : Prop := ∀ r, request_id <$> m' !! r = request_id <$> m !! r.

Lemma same_ids_insert m r q t reason :
  m !! r = Some q → same_ids m (<[r := finish reason t q]> m).
Proof. intros Hr r'. rw lookup_insert. case_decide; [subst; by rw Hr|done]. Qed.

Lemma cancel_running_spec all l : ∀ e,
  EI e (e_running e) [] [] all → may CANCELLED → (∀ s, s ∈ l → s ∈ e_running e) → NoDup (s_uid <$> l) →
  wp (for_list l (λ s,
        do* free_cache (s_cache s) in
        do* finish_req perf_counter (s_req s) CANCELLED in
        do* _record_finished cfg (s_req s) in
        do* modify (λ e, set_running (remove_first (λ s', s_uid s' =? s_uid s) (e_running e)) e) in
        ret (s_req s)))
     (λ d e', EI e' (e_running e') [] [] all ∧ d = s_req <$> l ∧
        e_running e' = filter (λ s, s_uid s ∉ s_uid <$> l) (e_running e) ∧ e_waiting e' = e_waiting e ∧
        e_admission e' = e_admission e ∧ same_shape (e_pool e) (e_pool e') ∧ same_ids (e_reqs e) (e_reqs e')) never e.
Proof.
  induction l as [|s l IH]; intros e HI Hmay Hin Hnd.
  { wp_step. split_and!; try done. symmetry. apply list_filter_id. intros x _. apply not_elem_of_nil. }
  cbn in Hnd. apply NoDup_cons in Hnd as [Hs Hnd]. wp_step. wp_step.
  pose proof (ei_uids _ _ _ _ _ _ _ _ _ _ _ _ HI) as [Hu _].
  pose proof (filter_out_perm s_uid (e_running e) s Hu (Hin _ ltac:(by left))) as Hperm.
  set (rest := filter _ _) in Hperm.
  destruct (ei_live _ _ _ _ _ _ _ _ _ _ _ _ HI s) as (q & Hq & [[_ Hfr] Hpart _]); [apply Hin; by left|].
  eapply EI_perm in HI; [|exact Hperm|done|done]. apply inv_of_take in HI.
  eapply wp_mono; [by eapply free_cache_spec| |done]. intros _ e1 (HI1 & Hc1 & Hr1).
  eapply finish_outcome_spec; [done|by rw Hr1|done|done|done|done|done|].
  intros e2 HI2 Hc2 (t & Hr2). wp_step. wp_step. wp_step. set (e3 := set_running _ e2).
  pose proof (calm_trans _ _ _ Hc1 Hc2) as Hc. pose proof Hc as (Hru & _ & Hwt & Hst & _ & Had & _).
  assert (e_running e3 = rest) as Hru3. { rw /e3 /= Hru. by apply remove_first_filter. }
  wp_step. eapply wp_mono; [apply (IH e3)| |done].
  - by rw Hru3.
  - done.
  - intros s' Hs'. rw Hru3. apply list_elem_of_filter. split; [|apply Hin; by right].
    intros He. apply Hs. rw -He. by apply list_elem_of_fmap_2.
  - done.
  - intros d e4 (HI4 & -> & Hru4 & Hwt4 & Had4 & Hsh4 & Hids). wp_step. split_and!; try done.
    + rw Hru4 Hru3 /rest list_filter_filter. apply list_filter_iff. intros x. cbn. rw not_elem_of_cons. tauto.
    + by rw Hwt4.
    + by rw Had4.
    + eapply same_shape_trans; [by apply same_storage_shape|done].
    + intros r'. rw Hids /e3 /= Hr2. rw (same_ids_insert _ _ _ _ _ _ r') ?Hr1 //.
Qed.

Lemma cancel_waiting_spec all l : ∀ e,
  EI e (e_running e) [] [] all → may CANCELLED → (∀ r, r ∈ l → r ∈ e_waiting e) → NoDup l →
  wp (for_list l (λ r,
        do* modify (λ e, set_waiting (remove_first (λ r', r' =? r) (e_waiting e)) e) in
        do* finish_req perf_counter r CANCELLED in
        do* _record_finished cfg r in
        ret r))
     (λ d e', EI e' (e_running e') [] [] all ∧ d = l ∧
        e_waiting e' = filter (λ r, r ∉ l) (e_waiting e) ∧ e_running e' = e_running e ∧
        e_admission e' = e_admission e ∧ same_shape (e_pool e) (e_pool e')) never e.
Proof.
  induction l as [|r l IH]; intros e HI Hmay Hin Hnd.
  { wp_step. split_and!; try done. symmetry. apply list_filter_id. intros x _. apply not_elem_of_nil. }
  apply NoDup_cons in Hnd as [Hs Hnd]. wp_step. wp_step. wp_step.
  pose proof (ei_nodup _ _ _ _ _ _ _ _ _ _ _ _ HI) as (Hu & _)%NoDup_app.
  assert (NoDup ((λ r : nat, r) <$> e_waiting e)) as Hu' by by rw list_fmap_id.
  pose proof (filter_out_perm (λ r, r) (e_waiting e) r Hu' (Hin _ ltac:(by left))) as Hperm.
  destruct (ei_waiting _ _ _ _ _ _ _ _ _ _ _ _ HI r) as (q & Hq & [Hout Hfr]); [apply Hin; by left|].
  rw (remove_first_filter (λ r, r) r) //. set (rest := filter _ _) in *.
  assert (EI (set_waiting rest e) (e_running e) [] [r] all) as HI1.
  { rw /EI /=. apply inv_of_open. destruct HI as [? ???? ? Hn Hw ? ? ? Ha]. split; try done.
    - by rw -Hperm.
    - intros r' Hr'. apply Hw. by rw Hperm.
    - by rw -Hperm. }
  eapply finish_outcome_spec; [done|done|done|done|done|done|by apply fresh_partial|].
  intros e2 HI2 Hc2 _. wp_step. wp_step. pose proof Hc2 as (Hru & _ & Hwt & Hst & _ & Had & _).
  eapply wp_mono; [apply (IH e2)| |done].
  - by rw Hru.
  - done.
  - intros r' Hr'. rw Hwt. apply list_elem_of_filter. split; [naive_solver|apply Hin; by right].
  - done.
  - intros d e4 (HI4 & -> & Hwt4 & Hru4 & Had4 & Hsh4). wp_step. split_and!; try done.
    + rw Hwt4 Hwt /= /rest list_filter_filter. apply list_filter_iff. intros x. cbn. rw not_elem_of_cons. tauto.
    + by rw Hru4 Hru.
    + by rw Had4 Had.
    + eapply same_shape_trans; [by apply same_storage_shape|done].
Qed.

(** Who is cancelled. *)
Definition spared e (r : nat) : Prop := req_id e r ∉ e_cancel e.
#[local] Instance spared_dec e r : Decision (spared e r).
Proof. rw /spared. apply _. Defined.

Lemma filter_fmap_NoDup {A B} (f : A → B) (P : A → Prop) `{!∀ x, Decision (P x)} (l : list A) :
  NoDup (f <$> l) → NoDup (f <$> filter P l).
Proof.
  induction l as [|x l IH]; intros Hn; [done|]. cbn in Hn. apply NoDup_cons in Hn as [Hx Hn].
  destruct (decide (P x)); [rw filter_cons_True //|by rw filter_cons_False //; apply IH].
  cbn. apply NoDup_cons. split; [|by apply IH]. intros (y & He & [_ Hy]%list_elem_of_filter)%list_elem_of_fmap.
  apply Hx. rw He. by apply list_elem_of_fmap_2.
Qed.

Lemma filter_by_key {A} (f : A → nat) (P : A → Prop) `{!∀ x, Decision (P x)} (l : list A) :
  NoDup (f <$> l) → filter (λ x, f x ∉ f <$> filter P l) l = filter (λ x, ¬ P x) l.
Proof.
  intros Hn. apply list_filter_ext_in. intros x Hx. split; intros Hnot HP; apply Hnot.
  - apply list_elem_of_fmap_2. by apply list_elem_of_filter.
  - apply list_elem_of_fmap in HP as (y & He & [HPy Hy]%list_elem_of_filter).
    apply list_elem_of_lookup in Hx as [i Hi], Hy as [j Hj].
    assert (i = j) as <-; [|naive_solver].
    eapply (NoDup_lookup (f <$> l)); [done|by rw list_lookup_fmap Hi|]. rw list_lookup_fmap Hj /=. by rw He.
Qed.

Lemma apply_cancellations_spec e all :
  EI e (e_running e) [] [] all →
  wp (apply_cancellations perf_counter cfg)
     (λ d e', EI e' (e_running e') [] [] all ∧
        e_running e' = filter (λ s, spared e (s_req s)) (e_running e) ∧
        e_waiting e' = filter (λ r, spared e r) (e_waiting e) ∧
        d = (s_req <$> filter (λ s, ¬ spared e (s_req s)) (e_running e)) ++ filter (λ r, ¬ spared e r) (e_waiting e) ∧
        e_admission e' = e_admission e ∧ same_shape (e_pool e) (e_pool e') ∧ (e_cancel e = ∅ → e' = e)) never e.
Proof.
  intros HI. rw /apply_cancellations. do 2 wp_step.
  destruct (bool_decide (e_cancel e = ∅)) eqn:Hc.
  { wp_step. apply bool_decide_eq_true in Hc.
    assert (∀ r, spared e r) as Hsp by (intros r; rw /spared Hc; apply not_elem_of_empty).
    split_and!; try done.
    - symmetry. by apply list_filter_id.
    - symmetry. by apply list_filter_id.
    - rw !list_filter_none //; naive_solver. }
  destruct (ei_cancel _ _ _ _ _ _ _ _ _ _ _ _ HI) as [Hmay|Hno]; [|by rw bool_decide_true in Hc].
  assert (EI (set_cancel ∅ e) (e_running e) [] [] all) as HI0 by (destruct HI; split; auto).
  do 4 wp_step. cbn [e_running e_waiting set_cancel]. wp_step.
  pose proof (ei_uids _ _ _ _ _ _ _ _ _ _ _ _ HI) as [Hu _].
  pose proof (ei_nodup _ _ _ _ _ _ _ _ _ _ _ _ HI) as (Hw & _)%NoDup_app.
  eapply wp_mono; [apply (cancel_running_spec all _ (set_cancel ∅ e) HI0 Hmay)| |done].
  { by intros s [_ ?]%list_elem_of_filter. } { by apply filter_fmap_NoDup. }
  intros d1 e1 (HI1 & -> & Hru1 & Hwt1 & Had1 & Hsh1 & Hids). do 3 wp_step.
  assert (∀ r, req_id e1 r = req_id e r) as Hid.
  { intros r. specialize (Hids r). cbn in Hids. rw /req_id.
    destruct (e_reqs e1 !! r), (e_reqs e !! r); by simplify_eq/=. }
  assert (filter (λ r, req_id e1 r ∈ e_cancel e) (e_waiting e1) = filter (λ r, ¬ spared e r) (e_waiting e)) as Hq.
  { rw Hwt1. apply list_filter_iff. intros r. rw Hid /spared. destruct (decide (req_id e r ∈ e_cancel e)); tauto. }
  rw Hq. eapply wp_mono; [apply (cancel_waiting_spec all _ e1 HI1 Hmay)| |done].
  { rw Hwt1. by intros s [_ ?]%list_elem_of_filter. } { by apply NoDup_filter. }
  intros d2 e2 (HI2 & -> & Hwt2 & Hru2 & Had2 & Hsh2). wp_step. split_and!; try done.
  - rw Hru2 Hru1 /=. rw filter_by_key //. 
  - rw Hwt2 Hwt1 /=. 
    pose proof (filter_by_key (λ r : nat, r) (λ r, ¬ spared e r) (e_waiting e)) as Hk. rw !list_fmap_id in Hk.
    rw Hk //. apply list_filter_iff. intros r. destruct (decide (spared e r)); tauto.
  - f_equal. cbn. f_equal. apply list_filter_iff. intros s.
    change (req_id (set_cancel ∅ e) (s_req s)) with (req_id e (s_req s)).
    rw /spared. destruct (decide (req_id e (s_req s) ∈ e_cancel e)); tauto.
  - by rw Had2 Had1.
  - by eapply same_shape_trans.
  - intros He. by rw He bool_decide_true in Hc.
Qed.

(** ** Preemption *)

Lemma preempt_spec e all :
  EI e (e_running e) [] [] all → e_running e ≠ [] →
  wp _preempt_newest
     (λ _ e', EI e' (e_running e') [] [] all ∧ e_admission e' = e_admission e ∧ same_shape (e_pool e) (e_pool e') ∧
        ∃ s, e_running e = e_running e' ++ [s] ∧ e_waiting e' = s_req s :: e_waiting e ∧ untouched (s_req s) e e') never e.
Proof.
  intros HI Hne. rw /_preempt_newest. do 2 wp_step.
  destruct (py_pop (e_running e)) as [[victim rest]|] eqn:Hpop; [|by apply py_pop_None in Hpop].
  apply py_pop_Some in Hpop. do 2 wp_step.
  destruct (ei_live _ _ _ _ _ _ _ _ _ _ _ _ HI victim) as (q & Hq & [[_ Hf] _ _]).
  { rw Hpop. apply elem_of_app. right. by left. }
  rw Hpop in HI. eapply (EI_perm _ _ (victim :: rest)) in HI; [|solve_Permutation|done|done].
  apply inv_of_take in HI. wp_step. eapply wp_mono; [by apply free_cache_spec| |done].
  intros _ e1 (HI1 & Hc1 & Hr1). pose proof Hc1 as (Hru & _ & Hwt & Hst & _ & Had & _).
  wp_step. rw /upd_req. wp_step. wp_step. wp_step. wp_step. cbn.
  split_and!; try done.
  - rw /EI /= Hru /= (alter_at _ _ _ q) ?Hr1 //.
    eapply inv_of_requeue; [|by rw lookup_insert_eq|done].
    eapply inv_of_update; [by rw -Hr1|done|done|done| |done]. by rw /Engine.outcome_ok /= Hf.
  - by apply same_storage_shape.
  - exists victim. rw Hru Hwt. split_and!; [done|done|]. intros r Hnr. cbn. rw lookup_alter_ne // Hr1 //.
Qed.

(** ** Sampling a batch *)

Lemma for_list_get_req e (l : list Sequence) (qs : list Request) :
  Forall2 (λ s q, e_reqs e !! s_req s = Some q) l qs →
  for_list l (λ s, get_req (R := R) (s_req s)) e = (Ok qs, e).
Proof.
  induction 1 as [|s q l qs Hs _ IH]; [done|]. cbn. rw /bind {1}/get_req Hs. by rw IH.
Qed.

Definition sampled (logits : list Vec) (qs : list Request) (ids : list Z) : Prop :=
  length ids = length logits ∧
  ∀ j row q t, logits !! j = Some row → qs !! j = Some q → ids !! j = Some t →
    (0 ≤ t < Z.of_nat (length row))%Z ∧ (greedy (params q) = true → t = ts_argmax row).

Lemma sample_rows_spec (l : list (Vec * Request)) : ∀ e,
  Forall (λ rq, rq.1 ≠ [] ∧ good rq.2) l →
  wp (for_list l (λ '(row, q), _sample row q))
     (λ ids e', sampled l.*1 l.*2 ids ∧ ∃ n, e' = set_counters (e_ticks e) n (e_uid e) e) never e.
Proof.
  induction l as [|[row q] l IH]; intros e Hl.
  { wp_step. split; [done|]. exists (e_seed e). by destruct e. }
  apply Forall_cons in Hl as [[Hrow Hg] Hl]. wp_step.
  eapply wp_mono; [by apply sample_spec| |done]. intros t e1 (Ht & Hgt & n & ->). wp_step.
  eapply wp_mono; [by apply IH| |done]. intros ids e2 ([Hlen Hs] & n' & ->). wp_step. split.
  - split; [by rw /= Hlen|]. intros [|j] row' q' t' Hr Hq Ht'; simplify_eq/=; [done|by eapply Hs].
  - exists n'. done.
Qed.

Lemma sample_batch_spec e (batch : list Sequence) (qs : list Request) (logits : list Vec) :
  Forall2 (λ s q, e_reqs e !! s_req s = Some q) batch qs → Forall good qs →
  Forall (λ row, row ≠ []) logits → length logits = length batch →
  wp (_sample_batch logits batch)
     (λ ids e', sampled logits qs ids ∧ ∃ n, e' = set_counters (e_ticks e) n (e_uid e) e) never e.
Proof.
  intros HF Hg Hrow Hlen. pose proof (Forall2_length _ _ _ HF) as Hl2.
  rw /_sample_batch. wp_step. rw {1}/wp (for_list_get_req _ _ _ HF).
  destruct (forallb _ qs) eqn:Hall.
  - wp_step. split; [|exists (e_seed e); by destruct e]. split; [by rw length_fmap|].
    intros j row q t Hr Hq Ht. rw list_lookup_fmap Hr in Ht. simplify_eq/=. split; [|done].
    apply argmax_range. by eapply Forall_lookup_1 in Hrow.
  - eapply wp_mono; [apply sample_rows_spec| |done].
    { apply Forall_lookup_2. intros j [row q] (r' & q' & Hz & Hr & Hq)%lookup_zip_with_Some. simplify_eq.
      split; [by eapply Forall_lookup_1 in Hrow|by eapply Forall_lookup_1 in Hg]. }
    rw fst_zip; [|lia]. rw snd_zip; [|lia]. done.
Qed.

(** ** The decode pass *)

(** A sequence whose cache holds its whole context, with its next token. *)
Definition ready e (st : Sequence * Z) : Prop :=
  ∃ q, e_reqs e !! s_req st.1 = Some q ∧ s_finished st.1 = false ∧ finish_reason q = None ∧ partial q ∧
    holds (e_pool e) (s_cache st.1) (nat_ids (context q)) ∧
    (0 ≤ st.2 < Z.of_nat (length (embed_tokens w)))%Z ∧
    (greedy (params q) = true → next (context q) = st.2).

Lemma running_ready_stable e e' r st :
  untouched r e e' → same_storage (e_pool e) (e_pool e') → s_req st.1 ≠ r → ready e st → ready e' st.
Proof.
  intros Hun Hst Hne (q & Hq & ? & ? & ? & Hh & Hr). exists q. rw Hun //. do 4 (split; [done|]).
  split; [by eapply holds_storage|done].
Qed.

Lemma Forall2_with_l {A B} (P : A → B → Prop) (Q : A → Prop) l k :
  Forall2 P l k → Forall Q l → Forall2 (λ x y, P x y ∧ Q x) l k.
Proof. induction 1; intros HQ; [constructor|]. apply Forall_cons in HQ as [? ?]. constructor; auto. Qed.

(** A sequence that goes on with one more token. *)
Definition advanced e e' (s s' : Sequence) : Prop := s_req s' = s_req s ∧ one_more (s_req s) e e'.

(** What the loop leaves: someone is done, or everyone went on. *)
Definition accepted_all e (l still still' : list Sequence) e' : Prop :=
  e_waiting e' = e_waiting e ∧ (∀ r, r ∉ s_req <$> l → e_reqs e' !! r = e_reqs e !! r) ∧
  length still' ≤ length l + length still ∧
  (length still' < length l + length still ∨ ∃ new, still' = still ++ new ∧ Forall2 (advanced e e') l new).

Lemma accepted_retired e e1 s l still still' e' :
  e_waiting e1 = e_waiting e → untouched (s_req s) e e1 →
  accepted_all e1 l still still' e' → accepted_all e (s :: l) still still' e'.
Proof.
  intros Hw Hu (Hw' & Hr & Hle & _). split_and!; [congruence| |cbn; lia|left; cbn; lia].
  intros r [Hne Hni]%not_elem_of_cons. rw Hr // Hu //.
Qed.

Lemma accepted_kept e e1 s s1 l still still' e' :
  e_waiting e1 = e_waiting e → untouched (s_req s) e e1 → s_req s ∉ s_req <$> l → s_req s1 = s_req s →
  one_more (s_req s) e e1 →
  accepted_all e1 l (still ++ [s1]) still' e' → accepted_all e (s :: l) still still' e'.
Proof.
  intros Hw Hu Hni Hs1 (n & Hn & Hn1) (Hw' & Hr & Hle & Hcase). rw length_app /= in Hle, Hcase.
  split_and!; [congruence| |cbn; lia|].
  { intros r [Hne Hni']%not_elem_of_cons. rw Hr // Hu //. }
  destruct Hcase as [|(new & -> & HF)]; [left; cbn; lia|]. right. exists (s1 :: new). split; [by rw -assoc|].
  constructor.
  - split; [done|]. exists n. split; [done|]. rw (outlen_ext e1) // Hr //.
  - eapply Forall2_impl; [apply Forall2_with_l; [exact HF|apply (Forall_forall (λ s', s_req s' ≠ s_req s))]|].
    + intros s' Hs' Heq. apply Hni. rw -Heq. by apply list_elem_of_fmap_2.
    + intros s' s2 [[Hsr (m & Hm & Hm')] Hne]. split; [done|]. exists m. split; [|done]. rw -Hm. symmetry. apply outlen_ext, Hu, Hne.
Qed.

Lemma accept_loop_spec l : ∀ e dn still all,
  EI e still (s_cache <$> l.*1) (s_req <$> l.*1) all →
  NoDup ((s_uid <$> l.*1) ++ (s_uid <$> still)) → (∀ st, st ∈ l → s_uid st.1 < e_uid e ∧ ready e st) →
  wp (accept_loop perf_counter cfg l dn still)
     (λ '(_, still') e', EI e' still' [] [] all ∧ framed e e' ∧ accepted_all e l.*1 still still' e') never e.
Proof.
  induction l as [|[s t] l IH]; intros e dn still all HI Hu Hall; cbn [accept_loop].
  { wp_step. rw /accepted_all. split_and!; try done. right. exists []. by rw app_nil_r. }
  cbn in HI, Hu. apply NoDup_cons in Hu as [Hus Hu].
  destruct (Hall (s, t)) as (Hlt & q & Hq & Hsf & Hf & Hp & Hh & Ht & Hg); [by left|]. cbn [fst snd] in *.
  pose proof (ei_nodup _ _ _ _ _ _ _ _ _ _ _ _ HI) as (_ & _ & (_ & _ & Hnr)%NoDup_app)%NoDup_app.
  apply NoDup_cons in Hnr as [Hnr _].
  assert (∀ st, st ∈ l → s_req st.1 ≠ s_req s) as Hne.
  { intros st Hst He. apply Hnr. rw -He -list_fmap_compose. by apply (list_elem_of_fmap_2 (s_req ∘ fst)). }
  set (s1 := set_seq_token t s). wp_step.
  eapply wp_mono; [apply (accept_and_emit_spec e still (s_cache <$> l.*1) (s_req <$> l.*1) all s1 q)| |done].
  { by split. }
  intros s' e1 ((Hsc & Hsr & Hsu & HI1 & q1 & Hr1 & Hf1 & Hcase) & Hc1 & Hp1 & Hun1 & Hmore1).
  pose proof Hc1 as (Hru1 & Hui1 & Hwt1 & Hst1 & _ & Had1 & _).
  assert (∀ st, st ∈ l → s_uid st.1 < e_uid e1 ∧ ready e1 st) as Hall1.
  { intros st Hst. destruct (Hall st) as [? Hrd]; [by right|]. split; [by rw Hui1|].
    eapply running_ready_stable; [exact Hun1|done|by apply Hne|done]. }
  destruct (s_finished s').
  - destruct Hcase as (fr & Hfr & Hset & Hfc). wp_step.
    eapply wp_mono; [eapply (retire_spec e1 still _ _ all s' q1 fr); [by rw Hsc Hsr|by rw Hsr|done..]| |done].
    intros r' e2 (_ & HI2 & Hc2 & tm & Hr2). pose proof Hc2 as (Hru2 & Hui2 & Hwt2 & Hst2 & _ & Had2 & _).
    eapply wp_mono; [apply (IH e2 _ still all); [done| |]| |done].
    + apply NoDup_app in Hu as (? & ? & ?). by apply NoDup_app.
    + intros st Hst. destruct (Hall1 st Hst) as [? Hrd]. split; [by rw Hui2|].
      eapply (running_ready_stable e1 e2 (s_req s)); [|done|by apply Hne|done].
      intros r2 Hr2'. rw Hr2 Hsr lookup_insert_ne //.
    + intros [dn' still'] e3 (HI3 & Hfr3 & Hl3). split_and!; [done| |].
      * eapply framed_trans; [by apply calm_framed|]. by eapply framed_trans; [apply calm_framed|].
      * eapply accepted_retired; [|..|exact Hl3]; [by rw Hwt2|]. intros r2 Hne2. rw Hr2 Hsr lookup_insert_ne //. by apply Hun1.
  - destruct Hcase as [-> Hro].
    assert (EI e1 (s1 :: still) (s_cache <$> l.*1) (s_req <$> l.*1) all) as HI2.
    { eapply inv_of_join; [done|done|done|by rw Hui1|]. intros Hin. apply Hus, elem_of_app. by right. }
    eapply wp_mono; [apply (IH e1 _ (still ++ [s1]) all); [|..]| |done].
    + eapply EI_perm; [|done|done|done]. solve_Permutation.
    + rw fmap_app assoc Permutation_app_comm. apply NoDup_cons. done.
    + done.
    + intros [dn' still'] e3 (HI3 & Hfr3 & Hl3). split_and!; [done| |].
      * by eapply framed_trans; [apply calm_framed|].
      * eapply (accepted_kept e e1 s s1); [done|exact Hun1|exact Hnr|done|by apply Hmore1|exact Hl3].
Qed.

Lemma inv_of_take_all p c ro wt reqs newly uid canc l : ∀ live extra fl all,
  inv_of p c ro wt reqs newly uid canc (l ++ live) extra fl all →
  inv_of p c ro wt reqs newly uid canc live ((s_cache <$> l) ++ extra) ((s_req <$> l) ++ fl) all.
Proof.
  induction l as [|s l IH]; intros live extra fl all HI; [done|]. apply inv_of_take in HI.
  apply IH in HI. cbn. destruct HI as [Hh ???? ? Hn ? ? ? ? Ha]. split; try done.
  - eapply pc_heap_perm; [|done]. solve_Permutation.
  - assert (wt ++ (s_req <$> live) ++ s_req s :: (s_req <$> l) ++ fl ≡ₚ wt ++ (s_req <$> live) ++ (s_req <$> l) ++ s_req s :: fl) as ->;
      [solve_Permutation|done].
  - rw -Ha. solve_Permutation.
Qed.

(** The requests of the batch, in batch order. *)
Lemma batch_requests e live extra fl all :
  EI e live extra fl all →
  ∃ qs, Forall2 (λ s q, e_reqs e !! s_req s = Some q ∧ running_ok (e_pool e) s q) live qs ∧ Forall good qs.
Proof.
  intros HI. pose proof (ei_live _ _ _ _ _ _ _ _ _ _ _ _ HI) as Hl. pose proof (ei_good _ _ _ _ _ _ _ _ _ _ _ _ HI) as Hg.
  clear HI. induction live as [|s l IH]; [by exists []|].
  destruct IH as (qs & HF & HG); [intros s' Hs'; apply Hl; by right|].
  destruct (Hl s) as (q & Hq & Hro); [by left|]. exists (q :: qs). split; [by constructor|].
  constructor; [|done]. by destruct (Hg _ _ Hq).
Qed.

(** What a sequence's cache held before the pass. *)
Definition past_of (q : Request) : list Z := prompt_token_ids q ++ take (output_len q - 1) (output_token_ids q).

Lemma running_past p s q : running_ok p s q → good q →
  holds p (s_cache s) (nat_ids (past_of q)) ∧ in_vocab w (past_of q) ∧
  (0 ≤ next_token s < Z.of_nat (length (embed_tokens w)))%Z ∧ context q = past_of q ++ [next_token s].
Proof.
  intros [_ (_ & Hv & _) (out & Ho & Hh)] Hg. rw /past_of /output_len Ho length_app /= Nat.add_sub take_app_length.
  rw Ho in Hv. apply Forall_app in Hv as [Hv1 Hv2]. apply Forall_cons in Hv2 as [Ht _].
  split_and!; try done; [|lia..|by rw assoc]. apply Forall_app. split; [apply Hg|done].
Qed.

Lemma Forall2_with_r {A B} (P : A → B → Prop) (Q : B → Prop) l k :
  Forall2 P l k → Forall Q k → Forall2 (λ x y, P x y ∧ Q y) l k.
Proof. induction 1; intros HQ; [constructor|]. apply Forall_cons in HQ as [? ?]. constructor; auto. Qed.

Lemma fmap_Forall2_eq {A B C} (f : A → C) (g : B → C) l k :
  Forall2 (λ x y, f x = g y) l k → f <$> l = g <$> k.
Proof. induction 1; [done|]. cbn. by f_equal. Qed.

Lemma restore_caches (l : list Sequence) : zip_with (λ s c, set_seq_cache c s) l (s_cache <$> l) = l.
Proof. induction l as [|[] l IH]; [done|]. cbn. by rw IH. Qed.

Lemma moved_caches (l : list Sequence) (cs : list Cache) :
  length cs = length l →
  let l' := zip_with (λ s c, set_seq_cache c s) l cs in
  s_cache <$> l' = cs ∧ s_req <$> l' = s_req <$> l ∧ s_uid <$> l' = s_uid <$> l ∧ length l' = length l.
Proof.
  revert cs. induction l as [|s l IH]; intros [|c cs] Hl; try done. cbn in *.
  destruct (IH cs) as (H1 & H2 & H3 & H4); [lia|]. cbn in *. split_and!; congruence.
Qed.

(** What one batched pass leaves: every sequence holds its whole context, and its row
    of logits is the uncached model's. *)
Definition decoded e (logits : list Vec) : Prop :=
  length logits = length (e_running e) ∧
  ∀ j s, e_running e !! j = Some s → ∃ q row,
    e_reqs e !! s_req s = Some q ∧ logits !! j = Some row ∧
    s_finished s = false ∧ finish_reason q = None ∧ partial q ∧ in_vocab w (context q) ∧
    holds (e_pool e) (s_cache s) (nat_ids (context q)) ∧
    last (ref_logits attend inv w (embed w (context q))) = Some row.

Lemma unit_costs_le (p : Pool KV) X cs : sum_list_with (unit_cost p X) cs ≤ length cs.
Proof.
  induction cs as [|c cs IH]; [done|]. cbn. assert (unit_cost p X c ≤ 1); [|lia].
  rw /unit_cost. destruct (_ =? 0); [done|]. destruct (last _); [|lia]. by destruct (1 <? _); [|lia].
Qed.

Lemma decode_spec e all :
  EI e (e_running e) [] [] all → e_running e ≠ [] →
  (∀ s, s ∈ e_running e → position s < max_positions (e_rotary e)) →
  wp (on_batch (forward_batch sdpa w (e_rotary e) (next_token <$> e_running e) (position <$> e_running e)))
     (λ logits e', EI e' [] (s_cache <$> e_running e') (s_req <$> e_running e') all ∧ decoded e' logits ∧
        s_uid <$> e_running e' = s_uid <$> e_running e ∧ length (e_running e') = length (e_running e) ∧
        e_uid e' = e_uid e ∧ e_admission e' = e_admission e ∧
        e_reqs e' = e_reqs e ∧ same_shape (e_pool e) (e_pool e') ∧
        e_waiting e' = e_waiting e ∧ s_req <$> e_running e' = s_req <$> e_running e)
     (λ ex e', ex = OutOfBlocks ∧ e' = e ∧ frees e < length (e_running e)) e.
Proof.
  intros HI Hne Hpos. destruct (batch_requests _ _ _ _ _ HI) as (qs & HF & HG).
  assert (Forall2 (λ s q, e_reqs e !! s_req s = Some q ∧ running_ok (e_pool e) s q ∧ good q) (e_running e) qs) as HF2.
  { eapply Forall2_impl; [by apply Forall2_with_r|]. intros s q [[? ?] ?]. done. }
  set (pasts := (nat_ids ∘ past_of) <$> qs).
  assert (Forall2 (λ c past, holds (e_pool e) c past) (s_cache <$> e_running e) pasts) as Hholds.
  { apply Forall2_fmap. eapply Forall2_impl; [exact HF2|]. intros s q (_ & Hro & Hg). by apply (running_past _ _ _ Hro Hg). }
  assert (position <$> e_running e = length <$> pasts) as Hposq.
  { rw /pasts -list_fmap_compose. eapply fmap_Forall2_eq, Forall2_impl; [exact HF2|].
    intros s q (_ & Hro & Hg). by destruct (running_past _ _ _ Hro Hg) as [[Hn _] _]. }
  assert (in_vocab w (next_token <$> e_running e)) as Hvt.
  { apply Forall_fmap. eapply Forall2_Forall_l; [exact HF2|]. apply Forall_true.
    intros q s (_ & Hro & Hg). by destruct (running_past _ _ _ Hro Hg) as (_ & _ & ? & _). }
  pose proof (ei_heap _ _ _ _ _ _ _ _ _ _ _ _ HI) as [Hh Hpc]. rw app_nil_r in Hh.
  pose proof (Forall2_length _ _ _ HF2) as Hlq.
  rw /on_batch. wp_step. rw Hposq.
  eapply wp_mono; [eapply (forward_batch_spec sdpa attend sdpa_rows inv w (e_rotary e) (e_pool e)
    (s_cache <$> e_running e) (held (e_prefix e)) pasts _ (nat_ids (next_token <$> e_running e)) (embed w (next_token <$> e_running e)))|..].
  - done.
  - by destruct (e_running e).
  - apply HI.
  - apply HI.
  - apply Forall_lookup_2. intros j past Hj. assert ((length <$> pasts) !! j = Some (length past)) as Hj2 by by rw list_lookup_fmap Hj.
    rw -Hposq in Hj2. apply list_lookup_fmap_Some in Hj2 as (s & -> & Hs). apply Hpos. by eapply list_elem_of_lookup_2.
  - done.
  - by rw /nat_ids !length_fmap.
  - by apply (to_indices_ok w).
  - by apply embed_select.
  - intros logits [p' cs'] (_ & (HH' & Hlc & Hsh & Hrows) & Hll & Hall). cbn [fst snd] in *. rw length_fmap in Hlc, Hll.
    destruct (moved_caches (e_running e) cs' Hlc) as (Hm1 & Hm2 & Hm3 & Hm4). cbn zeta in *.
    set (l' := zip_with _ _ _) in *. cbn.
    assert (decoded (set_running l' (set_pool p' e)) logits) as Hdec.
    { split; [cbn; congruence|]. cbn. intros j s Hs.
      apply lookup_zip_with_Some in Hs as (s0 & c & -> & Hs0 & Hc).
      destruct (Forall2_lookup_l _ _ _ _ _ HF2 Hs0) as (q & Hq & Hrq & Hro & Hg).
      destruct (running_past _ _ _ Hro Hg) as (_ & Hvp & Ht & Hctx).
      destruct (Hall j (nat_ids (past_of q)) (Z.to_nat (next_token s0))) as (x & y & c' & Hx & Hy & Hc' & Hh' & Hl').
      { by rw /pasts list_lookup_fmap Hq. } { by rw /nat_ids !list_lookup_fmap Hs0. }
      rw embed_select // in Hx. simplify_eq.
      assert (embed w (past_of q) ++ [y] = embed w (context q)) as Hemb.
      { rw Hctx /embed fmap_app /= Hy //. }
      assert (nat_ids (past_of q) ++ [Z.to_nat (next_token s0)] = nat_ids (context q)) as Hnat.
      { by rw Hctx /nat_ids fmap_app. }
      rw Hemb in Hl'. rw Hnat in Hh'.
      destruct (lookup_lt_is_Some_2 logits j) as [row Hrow]; [rw Hll; by eapply lookup_lt_Some|].
      destruct Hro as [[? ?] ? _]. exists q, row. split_and!; try done.
      - rw Hctx. apply Forall_app. split; [done|]. by constructor.
      - congruence. }
    split_and!; try done.
    rw /EI. cbn. rw -(app_nil_r (e_running e)) in HI. apply inv_of_take_all in HI.
    rw app_nil_r in HI. rw Hm1 Hm2. rw app_nil_r in HI.
    destruct HI as [? HL ? He Hcf ?????? Ha]. split; try done.
    + by destruct Hsh as (_ & -> & _).
    + eapply entries_ok_kept; [|done|done|done|done]. apply (pwf_bs _ (heap_wf _ _ _ Hh)).
    + by destruct Hsh as (-> & _).
    + intros s Hs. by apply not_elem_of_nil in Hs.
  - intros ex s' (-> & -> & Hlt). split_and!; [done|cbn; rw restore_caches; by destruct e|].
    eapply Nat.lt_le_trans; [exact Hlt|]. rw -(length_fmap s_cache). apply unit_costs_le.
Qed.

(** From the logits of a pass to the next state. *)
Lemma step_accept_spec e logits dn started all :
  EI e [] (s_cache <$> e_running e) (s_req <$> e_running e) all → decoded e logits →
  NoDup (s_uid <$> e_running e) → (∀ s, s ∈ e_running e → s_uid s < e_uid e) →
  wp (step_accept perf_counter cfg logits started dn)
     (λ _ e', EI e' (e_running e') [] [] all ∧ accepted_all e (e_running e) [] (e_running e') e' ∧
        same_shape (e_pool e) (e_pool e')) never e.
Proof.
  intros HI [Hll Hdec] Hu Hlt. rw /step_accept. do 2 wp_step. cbn zeta.
  assert (∃ qs, Forall2 (λ s q, e_reqs e !! s_req s = Some q) (e_running e) qs ∧ Forall good qs) as (qs & HF & HG).
  { assert (∀ s, s ∈ e_running e → ∃ q, e_reqs e !! s_req s = Some q ∧ good q) as Hq.
    { intros s [j Hj]%list_elem_of_lookup. destruct (Hdec _ _ Hj) as (q & row & Hq & _). exists q. split; [done|].
      by apply (ei_good _ _ _ _ _ _ _ _ _ _ _ _ HI _ _ Hq). }
    clear -Hq. induction (e_running e) as [|s l IH]; [by exists []|].
    destruct IH as (qs & ? & ?); [intros; apply Hq; by right|]. destruct (Hq s) as (q & ? & ?); [by left|].
    exists (q :: qs). by split; constructor. }
  assert (∀ j row, logits !! j = Some row → ∃ s q, e_running e !! j = Some s ∧ qs !! j = Some q ∧
    length row = length (embed_tokens w) ∧ row ≠ [] ∧ (next (context q) = ts_argmax row) ∧
    (∀ t, (0 ≤ t < Z.of_nat (length row))%Z → (greedy (params q) = true → t = ts_argmax row) → ready e (s, t))) as Hrows.
  { intros j row Hrow. destruct (lookup_lt_is_Some_2 (e_running e) j) as [s Hs]; [rw -Hll; by eapply lookup_lt_Some|].
    destruct (Hdec _ _ Hs) as (q & row' & Hq & Hrow' & Hsf & Hf & Hp & Hv & Hh & Hl). simplify_eq.
    destruct (Forall2_lookup_l _ _ _ _ _ HF Hs) as (q' & Hq' & Hrq). simplify_eq. exists s, q.
    destruct (last_row_width _ _ Hl) as [Hw Hn]. split_and!; try done; [by apply next_row|].
    intros t Ht Hg. rw Hw in Ht. exists q. do 5 (split; [done|]). split; [done|]. intros Hgr. rw (Hg Hgr). by apply next_row. }
  wp_step. eapply wp_mono; [apply (sample_batch_spec e (e_running e) qs logits); try done| |done].
  { apply Forall_lookup_2. intros j row Hrow. by destruct (Hrows _ _ Hrow) as (s & q & ? & ? & ? & ? & _). }
  intros ids e1 ([Hli Hids] & n & ->).
  assert (∀ st, st ∈ zip (e_running e) ids → ready e st) as Hready.
  { intros st [j Hj]%list_elem_of_lookup. apply lookup_zip_with_Some in Hj as (s & t & -> & Hs & Ht).
    destruct (lookup_lt_is_Some_2 logits j) as [row Hrow]; [rw Hll; by eapply lookup_lt_Some|].
    destruct (Hrows _ _ Hrow) as (s' & q & Hs' & Hq & _ & _ & _ & Hrd). simplify_eq.
    destruct (Hids _ _ _ _ Hrow Hq Ht). by apply Hrd. }
  assert ((zip (e_running e) ids).*1 = e_running e) as Hfst by (apply fst_zip; lia).
  assert (∀ e2, EI e2 [] (s_cache <$> e_running e) (s_req <$> e_running e) all → e_reqs e2 = e_reqs e →
    e_pool e2 = e_pool e → e_uid e2 = e_uid e → e_waiting e2 = e_waiting e →
    wp (let* (done, still) := accept_loop perf_counter cfg (zip (e_running e) ids) dn [] in
        do* modify (set_running still) in ret done)
     (λ _ e', EI e' (e_running e') [] [] all ∧ accepted_all e (e_running e) [] (e_running e') e' ∧
        same_shape (e_pool e) (e_pool e')) never e2) as Hfin.
  { intros e2 HI2 Hrq2 Hp2 Hui2 Hwt2. wp_step.
    eapply wp_mono; [apply (accept_loop_spec _ e2 dn [] all)| |done]; rw ?Hfst //.
    - by rw app_nil_r.
    - intros st Hst. split.
      + rw Hui2. apply Hlt. rw -Hfst. by apply list_elem_of_fmap_2.
      + destruct (Hready _ Hst) as (q & ?). exists q. by rw Hrq2 Hp2.
    - intros [dn' still] e3 (HI3 & (_ & _ & Hsh3) & Hl3). do 3 wp_step. split_and!; [done| |by rw -Hp2].
      destruct Hl3 as (Hw3 & Hr3 & Hle3 & Hc3). split_and!; [by rw /= Hw3|by rw -Hrq2|done|].
      destruct Hc3 as [|(new & -> & HFn)]; [by left|]. right. exists new. split; [done|].
      eapply Forall2_impl; [exact HFn|]. intros s s' [? (m & Hm & Hm')]. split; [done|]. exists m. by rw /outlen -Hrq2. }
  wp_step. destruct (e_admission e) as [c|].
  - wp_step. rw /now {1}/wp. wp_step. by apply Hfin.
  - wp_step. by apply Hfin.
Qed.

(** ** One scheduling iteration *)

(** What one iteration achieves when nothing is cancelled: someone finished; or the
    batch decoded, its oldest sequence gaining a token; or the newest sequence was
    preempted because a block per sequence was not free; or nothing could start. *)
Definition stepped e all e' : Prop :=
  let work e := length (e_waiting e) + length (e_running e) in
  work e' < work e ∨
  (work e' = work e ∧ e_running e' ≠ [] ∧
     ∀ s, head (e_running e) = Some s → ∃ s', head (e_running e') = Some s' ∧ advanced e e' s s') ∨
  (∃ s, e_running e = e_running e' ++ [s] ∧ e_waiting e' = s_req s :: e_waiting e ∧
     (∀ s', s' ∈ e_running e' → outlen e' (s_req s') = outlen e (s_req s')) ∧
     ∃ e5, EI e5 (e_running e) [] [] all ∧ same_shape (e_pool e) (e_pool e5) ∧ frees e5 < length (e_running e)) ∨
  (e_running e = [] ∧ e_running e' = [] ∧ e_waiting e' = e_waiting e ∧ stuck (length (e_waiting e)) e []).

(** The state in which the batch is about to be decoded. *)
Record launched e (popped new : list _) e5 : Prop := {
  la_running : e_running e5 = e_running e ++ new;
  la_waiting : e_waiting e = popped ++ e_waiting e5;
  la_length : length new ≤ length popped;
  la_reqs r : r ∉ popped → e_reqs e5 !! r = e_reqs e !! r;
  la_free : popped ≠ [] → length (e_running e5) ≤ frees e5;
}.

Lemma live_apart e live all popped rest s :
  EI e live [] [] all → e_waiting e = popped ++ rest → s ∈ live → s_req s ∉ popped.
Proof.
  intros HI Hw Hs Hin. pose proof (ei_nodup _ _ _ _ _ _ _ _ _ _ _ _ HI) as (_ & Hd & _)%NoDup_app.
  apply (Hd (s_req s)); [rw Hw; apply elem_of_app; by left|]. apply elem_of_app. left. by apply list_elem_of_fmap_2.
Qed.

Lemma stepped_decoded e all popped new e5 e6 e' :
  EI e (e_running e) [] [] all → launched e popped new e5 → e_running e5 ≠ [] →
  e_waiting e6 = e_waiting e5 → s_req <$> e_running e6 = s_req <$> e_running e5 → e_reqs e6 = e_reqs e5 →
  accepted_all e6 (e_running e6) [] (e_running e') e' → stepped e all e'.
Proof.
  intros HI [Hru Hwt Hlen Hreq _] Hne Hw6 Hru6 Hrq6 (Hw' & _ & Hle & Hcase).
  assert (length (e_running e6) = length (e_running e) + length new) as Hl6.
  { rw -(length_fmap s_req) Hru6 length_fmap Hru length_app //. }
  apply (f_equal length) in Hwt as Hlw. rw length_app in Hlw. rw -Hw6 -Hw' in Hlw.
  destruct (decide (length (e_waiting e') + length (e_running e') < length (e_waiting e) + length (e_running e))) as [|Hge]; [by left|].
  right. left. cbn in Hle, Hcase. destruct Hcase as [Hlt|(new' & Heq & HF)]; [lia|]. cbn in Heq. subst new'.
  pose proof (Forall2_length _ _ _ HF) as Hl'. split_and!; [lia| |].
  { intros Hnil. rw Hnil /= in Hl'. apply length_zero_iff_nil in Hl'. rw Hl' in Hru6. by destruct (e_running e5). }
  intros s Hs. destruct (e_running e) as [|s0 L] eqn:HL; [done|]. cbn in Hs. simplify_eq.
  rw Hru in Hru6. destruct (e_running e6) as [|s6 L6]; [done|]. cbn in Hru6. injection Hru6 as Hs6 _.
  inversion HF as [|? s' ? ? [Hs' (n & Hn & Hn')] ? He1 He2]; subst. exists s'. split; [done|]. split; [congruence|].
  exists n. rw Hs6 in Hn, Hn'. split; [|done]. rw -Hn. symmetry. apply outlen_ext. rw Hrq6. apply Hreq.
  eapply live_apart; [exact HI|exact Hwt|by left].
Qed.

Lemma stepped_preempted e all popped new e5 s e' :
  EI e (e_running e) [] [] all → launched e popped new e5 → EI e5 (e_running e5) [] [] all →
  same_shape (e_pool e) (e_pool e5) → frees e5 < length (e_running e5) →
  e_running e5 = e_running e' ++ [s] → e_waiting e' = s_req s :: e_waiting e5 → untouched (s_req s) e5 e' → stepped e all e'.
Proof.
  intros HI [Hru Hwt Hlen Hreq Hfree] HI5 Hsh Hlt Hrun Hwait Hun.
  assert (popped = []) as -> by (destruct popped; [done|]; specialize (Hfree ltac:(done)); lia).
  destruct new; [|cbn in Hlen; lia]. rw app_nil_r in Hru. cbn in Hwt. right. right. left.
  exists s. rw -Hru. split_and!; [done|by rw Hwait Hwt| |].
  - intros s' Hs'. apply outlen_ext. rw Hun; [apply Hreq, not_elem_of_nil|].
    pose proof (ei_nodup _ _ _ _ _ _ _ _ _ _ _ _ HI5) as (_ & _ & Hnd)%NoDup_app. rw app_nil_r Hrun fmap_app in Hnd.
    apply NoDup_app in Hnd as (_ & Hd & _). intros Heq. apply (Hd (s_req s')); [by apply list_elem_of_fmap_2|].
    rw Heq. by left.
  - exists e5. done.
Qed.

Lemma stepped_idle e all popped new e2 e' :
  e_running e ++ new = [] → e_waiting e = popped ++ e_waiting e2 →
  e_running e' = [] → e_waiting e' = e_waiting e2 → (popped = [] → stuck (length (e_waiting e)) e []) → stepped e all e'.
Proof.
  intros [Hru Hnew]%app_nil Hwt Hru' Hwt' Hst. destruct popped as [|r popped].
  - right. right. right. cbn in Hwt. split_and!; [done|done|congruence|auto].
  - left. rw Hru' Hru Hwt' Hwt. cbn. rw length_app. lia.
Qed.

Lemma step_admit_spec e all cancelled :
  EI e (e_running e) [] [] all → length (e_running e) ≤ max_batch_size cfg →
  wp (step_admit sdpa w hash perf_counter cfg cancelled)
     (λ _ e', EI e' (e_running e') [] [] all ∧ length (e_running e') ≤ max_batch_size cfg ∧ same_shape (e_pool e) (e_pool e') ∧
        ∃ popped new, launched e popped new e' ∧ (popped = [] → stuck (length (e_waiting e)) e [])) never e.
Proof.
  intros HI Hmax. rw /step_admit /_admit. do 3 wp_step.
  eapply wp_mono; [apply (admit_loop_spec _ e [] [] all); [by rw app_nil_r|cbn; lia]| |done].
  intros [adm dn] e2 (HI2 & (Hru2 & _ & Hsh2) & Hmax2 & popped & new & Hadm & Hw2 & Hnew & Hrq2 & Hfr2 & Hst2).
  cbn in Hadm. subst new. do 3 wp_step. split_and!.
  - by rw /EI /= Hru2.
  - rw /= length_app Hru2. lia.
  - done.
  - exists popped, adm. split; [|exact Hst2]. split; try done; [by rw /= Hru2|]. intros Hp. rw /= length_app Hru2. apply Hfr2. by left.
Qed.

(** The state between the decode pass and the sampling. *)
Definition mid_step e all (logits : list Vec) : Prop :=
  EI e [] (s_cache <$> e_running e) (s_req <$> e_running e) all ∧ decoded e logits ∧
  NoDup (s_uid <$> e_running e) ∧ ∀ s, s ∈ e_running e → s_uid s < e_uid e.

Lemma step_decode_spec e all :
  EI e (e_running e) [] [] all → length (e_running e) ≤ max_batch_size cfg →
  wp (step_decode sdpa w perf_counter)
     (λ o e', same_shape (e_pool e) (e_pool e') ∧ length (e_running e') ≤ max_batch_size cfg ∧
        match o with
        | Some (logits, _) => mid_step e' all logits ∧ e_running e ≠ [] ∧ e_waiting e' = e_waiting e ∧
            s_req <$> e_running e' = s_req <$> e_running e ∧ e_reqs e' = e_reqs e
        | None => EI e' (e_running e') [] [] all ∧
            (e' = e ∧ e_running e = [] ∨
             ∃ s, frees e < length (e_running e) ∧ e_running e = e_running e' ++ [s] ∧ e_waiting e' = s_req s :: e_waiting e ∧
               untouched (s_req s) e e')
        end) never e.
Proof.
  intros HI Hmax. rw /step_decode. do 2 wp_step. destruct (e_running e) as [|s0 batch0] eqn:Hb.
  { wp_step. rw Hb. split_and!; try done. by left. }
  rw -Hb. rw -Hb in HI, Hmax. cbn zeta. do 2 wp_step. do 2 wp_step. set (e4 := set_rotary _ e).
  destruct (ensure_capacity_ok inv (max_list_nat (position <$> e_running e) + 1) (e_rotary e)) as [Hr4 Hcap]; [apply HI|].
  assert (EI e4 (e_running e4) [] [] all) as HI4 by (destruct HI as [? ??????????]; by split).
  wp_step. rw /now {1}/wp. set (e5 := set_counters _ _ _ e4). wp_step. wp_step.
  assert (e_running e5 ≠ []) as Hne5 by (change (e_running e5) with (e_running e); by rw Hb).
  eapply wp_mono; [apply (decode_spec e5 all HI4 Hne5)|..].
  - intros s Hs. assert (position s ≤ max_list_nat (position <$> e_running e)).
    { apply max_list_nat_ge. by apply list_elem_of_fmap_2. }
    change (e_rotary e5) with (ensure_capacity (max_list_nat (position <$> e_running e) + 1) (e_rotary e)). lia.
  - intros logits e6 (HI6 & Hdec & Hu6 & Hl6 & Hui6 & _ & Hrq6 & Hsh6 & Hw6 & Hreq6). wp_step.
    pose proof (ei_uids _ _ _ _ _ _ _ _ _ _ _ _ HI) as [Hnu Hlu].
    split; [done|]. split; [rw Hl6; exact Hmax|]. split; [|split_and!; [by rw Hb|done..]].
    split; [done|]. split; [done|]. split; [by rw Hu6|].
    intros s Hs. assert (s_uid s ∈ s_uid <$> e_running e) as (s' & -> & Hs')%list_elem_of_fmap.
    { change (e_running e) with (e_running e5). rw -Hu6. by apply list_elem_of_fmap_2. }
    rw Hui6. by apply Hlu.
  - intros ex e6 (-> & -> & Hlt). case_decide; [|done]. wp_step.
    eapply wp_mono; [apply (preempt_spec e5 all HI4 Hne5)| |done].
    intros _ e7 (HI7 & _ & Hsh7 & s & Hru7 & Hwt7 & Hun7). wp_step. change (e_running e5) with (e_running e) in Hru7.
    split; [done|]. split; [rw Hru7 length_app in Hmax; lia|]. split; [done|]. right. by exists s.
Qed.

Lemma step_spec e all :
  EI e (e_running e) [] [] all → length (e_running e) ≤ max_batch_size cfg →
  wp (step sdpa w hash perf_counter cfg)
     (λ _ e', EI e' (e_running e') [] [] all ∧ length (e_running e') ≤ max_batch_size cfg ∧
        same_shape (e_pool e) (e_pool e') ∧ (e_cancel e = ∅ → stepped e all e')) never e.
Proof.
  intros HI Hmax. rw /wp step_in_parts -/(wp (S := Engine) _ _ _ _). wp_step. eapply wp_mono; [by apply apply_cancellations_spec| |done].
  intros cancelled e1 (HI1 & Hru1 & _ & _ & _ & Hsh1 & Hnc).
  assert (length (e_running e1) ≤ max_batch_size cfg) as Hmax1.
  { rw Hru1. pose proof (length_filter (λ s, spared e (s_req s)) (e_running e)). lia. }
  wp_step. eapply wp_mono; [by apply step_admit_spec| |done]. intros dn e3 (HI3 & Hmax3 & Hsh3 & popped & adm & Hla & Hst).
  wp_step. eapply wp_mono; [by apply step_decode_spec| |done]. intros [[logits started]|] e6 (Hsh6 & Hmax6 & H6).
  - destruct H6 as ((HI6 & Hdec & Hnu & Hlu) & Hne & Hw6 & Hreq6 & Hrq6).
    eapply wp_mono; [by apply (step_accept_spec e6 logits _ _ all HI6 Hdec)| |done].
    intros r e7 (HI7 & Hacc & Hsh7). pose proof Hacc as (_ & _ & Hl7 & _). cbn in Hl7. split_and!; [done| | |].
    + rw Nat.add_0_r in Hl7. lia.
    + eapply same_shape_trans; [exact Hsh1|]. eapply same_shape_trans; [exact Hsh3|]. by eapply same_shape_trans.
    + intros Hc. rw -(Hnc Hc). by eapply stepped_decoded.
  - wp_step. destruct H6 as [HI6 H6]. split_and!; [done|done| |].
    + eapply same_shape_trans; [exact Hsh1|]. by eapply same_shape_trans.
    + intros Hc. rw -(Hnc Hc). destruct H6 as [[-> Hnil]|(s & Hlt & Hru & Hwt & Hun)].
      * rw (la_running _ _ _ _ Hla) in Hnil. eapply stepped_idle; [exact Hnil|apply Hla| |done|exact Hst]. by rw (la_running _ _ _ _ Hla).
      * eapply (stepped_preempted e1 all popped adm e3 s); try done.
Qed.
End invariant.
