(* ===== verification/EngineProps.v ===== *)
(** * What the engine guarantees (engine/scheduler.py)

    The properties of [step], [run], cancellation and admission that follow from the
    engine invariant, and the toy model the examples run on. *)

From Stdlib Require Import ssreflect QArith Qcanon.
From stdpp Require Import prelude gmap gmultiset strings sorting list.
From S2P Require Import Prelude Config BlockManager KvCache Transformer PrefixCache Types Admission Batch Scheduler Prefill Engine.

(** ** A toy model to run *)

Module ToyEngine.
Fixpoint argmax_from (i best bv : Z) (l : list Z) : Z :=
  match l with
  | [] => best
  | x :: l => if (bv <? x)%Z then argmax_from (i + 1) i x l else argmax_from (i + 1) best bv l
  end.
Definition argmax (l : list Z) : Z := match l with [] => 0%Z | x :: l => argmax_from 1 0 x l end.

#[global] Instance toy_sampling : TorchSampling Z := {|
  ts_div := λ x _, x; ts_lt := Z.ltb; ts_neg_inf := (-1000000)%Z; ts_sub := Z.sub; ts_gt := λ _ _, false;
  ts_softmax := λ l, l; ts_cumsum := λ l, l; ts_sort_desc := λ l, (rev (merge_sort Z.le l), seq 0 (length l));
  ts_argmax := argmax; ts_multinomial := λ _ l, argmax l;
|}.

Lemma argmax_from_range l : ∀ i best bv,
  (0 ≤ best < i)%Z → (0 ≤ argmax_from i best bv l < i + Z.of_nat (length l))%Z.
Proof.
  induction l as [|x l IH]; intros i best bv Hb; cbn [argmax_from length]; [lia|].
  destruct (bv <? x)%Z.
  - specialize (IH (i + 1)%Z i x). lia.
  - specialize (IH (i + 1)%Z best bv). lia.
Qed.

Lemma argmax_ok l : l ≠ [] → (0 ≤ argmax l < Z.of_nat (length l))%Z.
Proof.
  destruct l as [|x l]; [done|]. intros _. pose proof (argmax_from_range l 1 0 x ltac:(lia)).
  cbn [argmax length]. lia.
Qed.

#[global] Instance toy_laws : SamplerLaws Z.
Proof.
  split; try done.
  - apply argmax_ok.
  - intros seed. apply argmax_ok.
  - intros l. cbn. rw length_rev. by rw merge_sort_Permutation.
Qed.

(** The two-layer toy transformer with a three-token vocabulary. *)
Definition weights : NanoForCausalLM (R := Z) :=
  mkNano (embed_tokens Toy.weights) (layers Toy.weights) (final_norm Toy.weights)
    (λ x, (λ i, (nth i x 0 mod 3)%Z) <$> seq 0 3).
Definition clock (n : nat) : Qc := Q2Qc (inject_Z (Z.of_nat n)).
Definition cfg : EngineCfg := mkEngineCfg 99 4 1 10.
Definition ask (prompt : list Z) (n : Z) : Request :=
  new_request prompt (mkParams n 0%Qc None None true) "r" 0%Qc None.
Definition pool (n : nat) : Pool (list (list Z)) := PagedCachePool.init [] 2 n 2.
Definition engine (n : nat) (reqs : gmap nat Request) : Engine :=
  engine_init (pool n) (rotary_init [1%Z] 4) true None reqs.
End ToyEngine.

(** ** The setting *)

(** What the engine's theorems assume of torch and of the weights. *)
Record model_ok {R} `{Torch R}
    (sdpa : list (list (list R)) → list (list (list R)) → list (list (list R)) →
            option (list (list bool)) → bool → list (list (list R)))
    (attend : list (list R) → list (list (list R)) → list (list (list R)) → list (list R))
    (w : NanoForCausalLM (R := R)) : Prop := {
  mo_rows q k v mask c :
    sdpa q k v mask c = imap (λ i qi, attend qi (keep (allowed mask c i) k) (keep (allowed mask c i) v)) q;
  mo_layers : 0 < length (layers w);
  mo_head v : length (lm_head w v) = length (embed_tokens w);
  mo_vocab : embed_tokens w ≠ [];
}.

Lemma toy_model_ok : model_ok Toy.sdpa Toy.attend ToyEngine.weights.
Proof. split; [done|cbn; lia|done|done]. Qed.

Section props.
Context {R : Type} `{HT : Torch R} `{HS : TorchSampling R} `{HSL : !SamplerLaws R}.
#[local] Notation "'KV'" := (list (list R)).
Context (sdpa : list KV → list KV → list KV → option (list (list bool)) → bool → list KV).
Context (attend : list (list R) → list KV → list KV → list (list R)).
Context (inv : list R) (w : NanoForCausalLM (R := R)).
Context (hash : Z → list Z → Z) (perf_counter : nat → Qc) (seen : list Z → Prop) (cfg : EngineCfg).
Context (asked : nat → list Z → SamplingParams → Prop) (may : FinishReason → Prop) (HM : model_ok sdpa attend w).
Implicit Types (e : Engine (R := R)).
#[local] Abbreviation EI := (EI sdpa attend inv w hash seen cfg asked may).

(** ** Conservation in an idle engine *)

Lemma held_nodup c : pc_wf c → NoDup ((λ he : Z * CacheEntry, block_id he.2) <$> _entries c).
Proof.
  intros Hwf. apply NoDup_fmap_2_strong; [|apply (NoDup_fmap_1 fst), Hwf].
  intros [h e] [h' e'] Hin Hin' Hb. cbn in Hb.
  pose proof (elem_dget h e _ (pw_keys _ Hwf) Hin) as Hd. pose proof (elem_dget h' e' _ (pw_keys _ Hwf) Hin') as Hd'.
  assert (h = h') as <-; [|congruence]. eapply (bid_inj c _ _ (block_id e)); [done|by rw /bid Hd|by rw /bid Hd' /= Hb].
Qed.

Lemma idle_pool (p : Pool KV) c :
  pc_heap p c [] →
  BlockAllocator.num_free (allocator p) + length (_entries c) = BlockAllocator.num_blocks (allocator p).
Proof.
  intros [[_ HA _] Hwf]. rw -(accounted_num_free _ _ HA). f_equal.
  assert (refs_of [] ⊎ held c = held c) as -> by apply (left_id_L ∅ (⊎)).
  rw -(length_fmap (λ he : Z * CacheEntry, block_id he.2)). rw -(size_list_to_set (C := gset nat)); [|by apply held_nodup].
  f_equal. apply set_eq. intros b. by rw gmultiset_elem_of_dom elem_of_list_to_set /held elem_of_list_to_set_disj.
Qed.

Lemma evictable_idle c : length (evictable c (refs_of [])) = length (_entries c).
Proof. rw /evictable list_filter_id //. intros he _. cbn. set_solver. Qed.

(** ** Building an engine *)

Lemma engine_init_ok rotary (zero : KV) blocks bs enable reqs :
  0 < bs → rot_ok inv rotary → collision_free hash seen bs →
  (∀ r q, reqs !! r = Some q → good w seen q ∧ finish_reason q = None ∧ asked r (prompt_token_ids q) (params q)) →
  let e := engine_init (PagedCachePool.init zero (length (layers w)) blocks bs) rotary enable None reqs in
  EI [] e (e_running e) [] [] [].
Proof.
  intros Hbs Hr Hcf Hq e. split; cbn; try done.
  - split; [|split; [constructor|done]]. destruct (heap_init zero (length (layers w)) blocks bs Hbs) as [Hwf HA _].
    split; [done|done|constructor].
  - intros r q Hrq. destruct (Hq _ _ Hrq) as (Hg & Hf & Ha). split_and!; try done. by rw /outcome_ok Hf.
  - constructor.
  - intros r Hin. by apply not_elem_of_nil in Hin.
  - intros r Hin. by apply not_elem_of_nil in Hin.
  - intros r Hin. by apply not_elem_of_nil in Hin.
  - split; [constructor|]. intros s Hin. by apply not_elem_of_nil in Hin.
  - by right.
Qed.

Lemma add_request_spec drained e all r q :
  EI drained e (e_running e) [] [] all → e_admission e = None →
  r ∉ all → e_reqs e !! r = Some q → fresh q →
  wp (add_request perf_counter cfg r)
     (λ _ e', EI drained e' (e_running e') [] [] (r :: all) ∧ e' = set_waiting (e_waiting e ++ [r]) e) never e.
Proof.
  intros HI Had Hr Hq Hf. rw /add_request. do 2 wp_step. rw Had. wp_step. split; [|done].
  destruct HI as [? ???? ? Hn Hw ? ? ? Ha]. rw app_nil_r in Hn.
  assert (r ∉ e_waiting e ++ (s_req <$> e_running e)) as Hni.
  { intros Hin. apply Hr. rw -Ha. rw assoc. apply elem_of_app. by left. }
  split; try done; cbn.
  - rw app_nil_r. assert ((e_waiting e ++ [r]) ++ (s_req <$> e_running e) ≡ₚ r :: e_waiting e ++ (s_req <$> e_running e)) as ->
      by solve_Permutation. by apply NoDup_cons.
  - intros r' [Hr'| ->%list_elem_of_singleton]%elem_of_app; [by apply Hw|eauto].
  - rw -Ha. solve_Permutation.
Qed.

(** ** Draining a queue *)

Lemma drain_spec drained e all :
  EI drained e (e_running e) [] [] all →
  wp drain_finished
     (λ l e', l = e_newly e ∧ EI (drained ++ l) e' (e_running e') [] [] all ∧
        e' = set_outcomes (e_done e) (e_num_finished e) [] e) never e.
Proof.
  intros HI. rw /drain_finished. do 5 wp_step. split_and!; try done. rw /Engine.EI. cbn. by rw app_nil_r.
Qed.

Lemma run_loop_spec fuel : ∀ drained e all,
  EI drained e (e_running e) [] [] all → length (e_running e) ≤ max_batch_size cfg →
  wp (run_loop sdpa w hash perf_counter cfg fuel drained)
     (λ res e', match res with
                | None => has_work e' = true
                | Some out => has_work e' = false ∧ EI out e' [] [] [] all ∧ e_newly e' = []
                end) never e.
Proof.
  induction fuel as [|fuel IH]; intros drained e all HI Hmax; cbn [run_loop]; do 2 wp_step.
  all: destruct (has_work e) eqn:Hw; [|wp_step; eapply wp_mono; [by apply drain_spec| |done];
    intros l e' (-> & HI' & ->); wp_step; rw /has_work in Hw;
    destruct (e_waiting e) eqn:Hwt, (e_running e) eqn:Hru; try done;
    split_and!; [by rw /has_work /= Hwt Hru|by rw /= Hru in HI'|done]].
  - by wp_step.
  - wp_step. destruct HM as [????]. eapply wp_mono; [by eapply step_spec| |done].
    intros _ e1 (HI1 & Hmax1 & _). do 2 wp_step. wp_step. eapply wp_mono; [apply (drain_spec drained (set_emitted [] e1) all HI1)| |done].
    intros l e2 (-> & HI2 & ->). by apply IH.
Qed.

Lemma add_all_spec (rs : list nat) : ∀ e all,
  EI [] e (e_running e) [] [] all → e_admission e = None → e_running e = [] →
  NoDup (rs ++ all) → Forall (λ r, ∃ q, e_reqs e !! r = Some q ∧ fresh q) rs →
  wp (for_each rs (add_request perf_counter cfg))
     (λ _ e', ∃ all', all' ≡ₚ rs ++ all ∧ EI [] e' (e_running e') [] [] all' ∧ e_running e' = []) never e.
Proof.
  induction rs as [|r rs IH]; intros e all HI Had Hru Hn Hrs.
  { wp_step. by exists all. }
  apply Forall_cons in Hrs as [(q & Hq & Hf) Hrs]. cbn in Hn. apply NoDup_cons in Hn as [Hr Hn]. wp_step.
  eapply wp_mono; [eapply add_request_spec; [done|done| |done|done]| |done].
  { intros Hin. apply Hr, elem_of_app. by right. }
  intros _ e1 [HI1 ->]. eapply wp_mono; [apply (IH _ (r :: all)); try done| |done].
  - assert (rs ++ r :: all ≡ₚ r :: rs ++ all) as -> by solve_Permutation. by apply NoDup_cons.
  - intros _ e2 (all' & Hp & HI2 & Hru2). exists all'. split_and!; try done. rw Hp. solve_Permutation.
Qed.

(** ** A queue head that can never fit *)

(** What [_admit] asks for when nothing is running. *)
Definition demand e (q : Request) : nat := _blocks_needed q e + 1 + Nat.max (reserve_blocks cfg) 1.

Lemma idle_room drained e all q :
  EI drained e [] [] [] all →
  wp (if BlockAllocator.num_free (allocator (e_pool e)) <? demand e q
      then on_prefix (PrefixCache.ensure_free (demand e q)) else ret true)
     (λ room e', EI drained e' [] [] [] all ∧ framed e e' ∧ e_reqs e' = e_reqs e ∧ e_waiting e' = e_waiting e ∧
        e_newly e' = e_newly e ∧ e_cancel e' = e_cancel e ∧
        room = (demand e q <=? BlockAllocator.num_blocks (allocator (e_pool e)))) never e.
Proof.
  intros HI. pose proof (make_room_spec sdpa attend inv w (mo_layers _ _ _ HM) hash seen cfg asked may drained e [] [] all (demand e q) HI) as Hm.
  assert (∀ b : bool, wp (if b then on_prefix (PrefixCache.ensure_free (demand e q)) else ret true)
    (λ _ e', e_newly e' = e_newly e ∧ e_cancel e' = e_cancel e) (λ _ _, True) e) as Hn.
  { intros [|]; [|by wp_step]. rw /on_prefix /zoom /wp. by destruct (PrefixCache.ensure_free _ _) as [[]]. }
  eapply wp_mono; [apply (wp_conj _ _ _ _ _ _ Hm (Hn _))| |naive_solver].
  intros room e' [(HI' & Hfr & Hrq & Hwt & -> & _) [Hnw Hca]]. split_and!; try done.
  rw evictable_idle. f_equal. apply idle_pool. by destruct HI.
Qed.

(** The state of an engine whose queue head asks for more than the pool has. *)
Definition starved (r : nat) (q : Request) e : Prop :=
  e_running e = [] ∧ e_cancel e = ∅ ∧ e_newly e = [] ∧ (∃ rest, e_waiting e = r :: rest) ∧
  e_reqs e !! r = Some q ∧ BlockAllocator.num_blocks (allocator (e_pool e)) < demand e q.

Lemma starved_admit drained e all r q fuel :
  EI drained e [] [] [] all → starved r q e →
  wp (admit_loop sdpa w hash perf_counter cfg fuel [] [])
     (λ res e', res = ([], []) ∧ starved r q e' ∧ EI drained e' [] [] [] all ∧ e_reqs e' = e_reqs e ∧
        e_waiting e' = e_waiting e) never e.
Proof.
  intros HI Hst. pose proof Hst as (Hru & Hca & Hnew & (rest & Hwt) & Hq & Hbig).
  destruct fuel as [|fuel]; cbn [admit_loop]; [by wp_step|]. do 2 wp_step. rw Hwt.
  destruct (negb _); [by wp_step; rw -Hwt|]. wp_step. eapply get_req_spec; [done|]. wp_step.
  rw Hru. change (_blocks_needed q e + 1 + Nat.max (reserve_blocks cfg) (length (@nil Sequence) + length (@nil Sequence) + 1))
    with (demand e q).
  eapply wp_mono; [by apply idle_room| |done].
  intros room e1 (HI1 & (Hru1 & _ & Hsh1) & Hrq1 & Hwt1 & Hnw1 & Hca1 & ->).
  rw (proj2 (Nat.leb_gt _ _) Hbig). cbn [negb]. wp_step. split_and!; try done; [|by rw -Hwt].
  rw /starved Hru1 Hca1 Hnw1 Hwt1 Hrq1. split_and!; eauto.
  destruct Hsh1 as (Hb & _ & ->). rw /demand /_blocks_needed Hb. done.
Qed.

Lemma starved_step drained e all r q :
  EI drained e [] [] [] all → starved r q e →
  wp (step sdpa w hash perf_counter cfg)
     (λ dn e', dn = [] ∧ starved r q e' ∧ EI drained e' [] [] [] all ∧ e_reqs e' = e_reqs e ∧
        e_waiting e' = e_waiting e) never e.
Proof.
  intros HI Hst. pose proof Hst as (Hru & Hca & _). rw /step. wp_step.
  rw /apply_cancellations. do 2 wp_step. rw bool_decide_true //. do 2 wp_step. rw /_admit. do 2 wp_step.
  eapply wp_mono; [by apply starved_admit| |done].
  intros res e1 (-> & Hst1 & HI1 & Hrq1 & Hwt1). do 4 wp_step. cbn [e_running set_running].
  pose proof Hst1 as (Hru1 & ? & ? & ? & ? & ?). rw Hru1. cbn [app]. wp_step.
  by split_and!.
Qed.

Lemma starved_run drained e all r q fuel : ∀ out,
  EI drained e [] [] [] all → starved r q e →
  wp (run_loop sdpa w hash perf_counter cfg fuel out)
     (λ res e', res = None ∧ e_reqs e' = e_reqs e) never e.
Proof.
  revert drained e. induction fuel as [|fuel IH]; intros drained e out HI Hst; cbn [run_loop]; do 2 wp_step;
    pose proof Hst as (Hru & _ & _ & (rest & Hwt) & _); rw /has_work Hwt.
  - by wp_step.
  - wp_step. eapply wp_mono; [by eapply starved_step| |done].
    intros _ e1 (-> & Hst1 & HI1 & Hrq1 & _). do 2 wp_step. wp_step.
    pose proof Hst1 as (Hru1 & Hca1 & Hnw1 & Hwt1 & Hq1 & Hb1).
    eapply wp_mono; [apply (drain_spec drained (set_emitted [] e1) all); by rw /= Hru1| |done].
    intros l e2 (-> & HI2 & ->). cbn in HI2. rw Hru1 in HI2.
    eapply wp_mono; [eapply IH; [exact HI2|]| |done]; [done|].
    intros res e3 [-> Hrq3]. split; [done|]. by rw Hrq3.
Qed.
End props.

(** ** Properties *)

(** C4: one scheduling iteration is sound.  From any state satisfying the engine
    invariant, [step] (cancellations, admission through the prefix cache, one batched
    decode pass with preemption when the pool runs dry, acceptance and retirement)
    never raises and re-establishes the invariant: block accounting is exact over the
    running sequences and the prefix cache, every cached block holds the rows of the
    tokens it is keyed by, every running sequence's cache holds its own context and
    its output is a prefix of what the uncached model would generate, no request is
    lost or duplicated ([all] is unchanged), and every finished greedy request has
    exactly the reference output.  The batch never exceeds [max_batch_size]. *)
Theorem step_sound {R} `{Torch R, TorchSampling R, !SamplerLaws R} sdpa attend w inv hash clock seen cfg asked may
    drained (e : Engine (R := R)) all :
  model_ok sdpa attend w →
  engine_ok sdpa attend inv w hash seen cfg asked may drained e all →
  length (e_running e) ≤ max_batch_size cfg →
  wp (step sdpa w hash clock cfg)
     (λ _ e', engine_ok sdpa attend inv w hash seen cfg asked may drained e' all ∧
        length (e_running e') ≤ max_batch_size cfg ∧ same_shape (e_pool e) (e_pool e')) never e.
Proof.
  intros [] HI Hmax. eapply wp_mono; [by apply step_spec| |done]. by intros d e' (? & ? & ? & _).
Qed.

(** The single prompt of the examples, and that its two block keys do not collide. *)
Definition toy_prompt : list Z := [0; 1; 2; 1; 0]%Z.

Lemma toy_collision_free : collision_free poly_hash (λ ids, ids = toy_prompt) 2.
Proof.
  intros ids ids' i i' h -> -> Hi Hi'.
  assert (NoDup (PrefixCache.hash_chain poly_hash 2 toy_prompt)) as Hnd.
  { apply (bool_decide_unpack _). vm_compute. exact I. }
  split; [by eapply NoDup_lookup|done].
Qed.

(** The toy requests: all greedy, all with the same prompt. *)
Definition toy_reqs (ns : list Z) : gmap nat Request :=
  list_to_map (imap (λ i n, (i, ToyEngine.ask toy_prompt n)) ns).
Definition toy_asked (r : nat) (prompt : list Z) (p : SamplingParams) : Prop := prompt = toy_prompt.

Lemma toy_reqs_good ns r q :
  toy_reqs ns !! r = Some q →
  good ToyEngine.weights (λ ids, ids = toy_prompt) q ∧ fresh q ∧ finish_reason q = None ∧
  toy_asked r (prompt_token_ids q) (params q).
Proof.
  intros Hq%elem_of_list_to_map_2. apply elem_of_lookup_imap in Hq as (i & n & Heq & _). simplify_eq.
  split_and!; try done. split; try done. repeat constructor; cbn; lia.
Qed.

Lemma toy_engine_ok ns n :
  let e := ToyEngine.engine n (toy_reqs ns) in
  engine_ok Toy.sdpa Toy.attend [1%Z] ToyEngine.weights poly_hash (λ ids, ids = toy_prompt) ToyEngine.cfg
    toy_asked (λ _, False) [] e [].
Proof.
  apply (engine_init_ok Toy.sdpa Toy.attend [1%Z] ToyEngine.weights poly_hash); try done; [lia|..].
  - apply toy_collision_free.
  - intros r q Hq. apply toy_reqs_good in Hq as (? & ? & ? & ?). done.
Qed.

Definition toy_queued : Engine := set_waiting [0] (ToyEngine.engine 12 (toy_reqs [4%Z])).

Lemma toy_queued_ok :
  engine_ok Toy.sdpa Toy.attend [1%Z] ToyEngine.weights poly_hash (λ ids, ids = toy_prompt) ToyEngine.cfg
    toy_asked (λ _, False) [] toy_queued [0].
Proof.
  pose proof (add_request_spec Toy.sdpa Toy.attend [1%Z] ToyEngine.weights poly_hash ToyEngine.clock
    (λ ids, ids = toy_prompt) ToyEngine.cfg toy_asked (λ _, False) [] _ [] 0 (ToyEngine.ask toy_prompt 4)
    (toy_engine_ok [4%Z] 12) eq_refl (not_elem_of_nil 0) eq_refl ltac:(done)) as Hadd.
  by destruct Hadd as [HI _].
Qed.

Lemma step_sound_witness :
  (step Toy.sdpa ToyEngine.weights poly_hash ToyEngine.clock ToyEngine.cfg toy_queued).1 = Ok [] ∧
  wp (step Toy.sdpa ToyEngine.weights poly_hash ToyEngine.clock ToyEngine.cfg)
     (λ _ e', length (e_running e') ≤ 4) never toy_queued.
Proof.
  split; [vm_compute; reflexivity|]. eapply wp_mono.
  - apply (step_sound Toy.sdpa Toy.attend ToyEngine.weights [1%Z] poly_hash ToyEngine.clock
      (λ ids, ids = toy_prompt) ToyEngine.cfg toy_asked (λ _, False) [] toy_queued [0]).
    + apply toy_model_ok.
    + apply toy_queued_ok.
    + simpl. lia.
  - intros d e' (_ & H & _). exact H.
  - intros e s' H. exact H.
Defined.

(** Serving a queue gives every request the output of uncached greedy decoding.
    [run] over distinct, well-formed requests on a fresh engine (prefix cache on or
    off, any batch size and reserve, any pool size) never raises; when it returns,
    it returns every request exactly once, each finished by end-of-sequence or by its
    token budget and nothing else, with at most its budget of tokens and, if greedy,
    exactly the tokens the uncached model generates one by one; nothing is left
    running or queued and every block is free or held by the prefix cache.  When the
    given number of iterations did not suffice, work is left. *)
Lemma run_spec {R} `{Torch R, TorchSampling R, !SamplerLaws R} sdpa attend w inv hash clock seen cfg
    zero blocks bs rotary enable reqs rs fuel :
  model_ok sdpa attend w → 0 < bs → rot_ok inv rotary → collision_free hash seen bs → NoDup rs →
  (∀ r q, reqs !! r = Some q → good w seen q ∧ fresh q) → Forall (λ r, is_Some (reqs !! r)) rs →
  wp (run sdpa w hash clock cfg fuel rs)
     (λ res e',
        match res with
        | None => has_work e' = true
        | Some out =>
            out ≡ₚ rs ∧ has_work e' = false ∧
            BlockAllocator.num_free (allocator (e_pool e')) + length (_entries (e_prefix e'))
              = BlockAllocator.num_blocks (allocator (e_pool e')) ∧
            ∀ r q0, r ∈ rs → reqs !! r = Some q0 → ∃ q fr,
              e_reqs e' !! r = Some q ∧ finish_reason q = Some fr ∧ (fr = EOS ∨ fr = LENGTH) ∧
              output_len q ≤ budget q0 ∧
              (greedy (params q0) = true →
               greedy_gen sdpa inv w (eos_token_id cfg) (ignore_eos (params q0)) (budget q0) (prompt_token_ids q0)
               = (output_token_ids q, fr))
        end) never
     (engine_init (PagedCachePool.init zero (length (layers w)) blocks bs) rotary enable None reqs).
Proof.
  intros HM Hbs Hrot Hcf Hnd Hq Hrs. rw /run. wp_step.
  set (asked := λ r prompt p, ∃ q, reqs !! r = Some q ∧ prompt = prompt_token_ids q ∧ p = params q).
  set (e0 := engine_init _ _ _ _ _).
  assert (EI sdpa attend inv w hash seen cfg asked (λ _, False) [] e0 (e_running e0) [] [] []) as HI0.
  { apply engine_init_ok; try done. intros r q Hr. destruct (Hq _ _ Hr) as [? [? ?]]. split_and!; try done. by exists q. }
  eapply wp_mono; [eapply (add_all_spec sdpa attend inv w hash clock seen cfg asked _ rs e0 [] HI0); try done| |done].
  { by rw app_nil_r. }
  { eapply Forall_impl; [exact Hrs|]. intros r [q Hr]. exists q. split; [done|]. by apply (Hq _ _ Hr). }
  intros _ e1 (all & Hall & HI1 & Hru1). rw app_nil_r in Hall.
  eapply wp_mono; [eapply run_loop_spec; [exact HM|exact HI1|rw Hru1; cbn; lia]| |done].
  intros [out|] e2; [|done]. intros (Hw & HI2 & Hnew). pose proof HI2 as [Hh _ _ _ _ Hg _ _ _ Hn _ Ha _].
  rw Hnew app_nil_r in Hn, Ha. rw /has_work in Hw.
  destruct (e_waiting e2) eqn:Hwt; [|done]. destruct (e_running e2) eqn:Hru; [|done].
  cbn in Ha. split_and!; [by rw Ha Hall|by rw /has_work Hwt Hru|by apply idle_pool|].
  intros r q0 Hr Hq0. destruct (Hn r) as (q & Hrq & Hf); [by rw Ha Hall|].
  destruct (Hg _ _ Hrq) as (_ & Hok & (q0' & Hq0' & Hpr & Hpa)). simplify_eq.
  rw /outcome_ok in Hok. destruct (finish_reason q) as [fr|] eqn:Hfr; [|done].
  assert ((fr = EOS ∨ fr = LENGTH) ∧ settled sdpa inv w cfg q fr) as [Hcase (Hle & _ & Hgr)] by (destruct fr; naive_solver).
  assert (budget q = budget q0) as Hb by by rw /budget Hpa.
  exists q, fr. rw Hb in Hle, Hgr. rw Hpr Hpa in Hgr. done.
Qed.

(** C24: a queue head that asks for more blocks than the pool has blocks the engine
    for good.  When nothing runs and the head's prompt blocks, its growth block and
    the reserve exceed the whole pool, no number of iterations of [run] ever returns,
    and no request ever changes: the branch of [_admit] meant to reject such a request
    comes after the eviction check, which fails first. *)
Theorem oversized_head_livelocks {R} `{Torch R, TorchSampling R, !SamplerLaws R} sdpa attend w inv hash clock seen cfg
    asked may drained (e : Engine (R := R)) all r q fuel out :
  model_ok sdpa attend w →
  engine_ok sdpa attend inv w hash seen cfg asked may drained e all → starved cfg r q e →
  wp (run_loop sdpa w hash clock cfg fuel out) (λ res e', res = None ∧ e_reqs e' = e_reqs e) never e.
Proof.
  intros HM HI Hst. eapply starved_run; [done| |done]. rw /engine_ok in HI. pose proof Hst as (Hru & _). by rw Hru in HI.
Qed.

(** A pool of three blocks of two tokens; the prompt needs three and one to grow. *)
Definition toy_oversized : Engine := set_waiting [0] (ToyEngine.engine 3 (toy_reqs [4%Z])).

Lemma oversized_head_livelocks_witness :
  (run_loop Toy.sdpa ToyEngine.weights poly_hash ToyEngine.clock ToyEngine.cfg 5 [] toy_oversized).1 = Ok None ∧
  ∀ fuel, wp (run_loop Toy.sdpa ToyEngine.weights poly_hash ToyEngine.clock ToyEngine.cfg fuel [])
             (λ res e', res = None ∧ e_reqs e' = e_reqs toy_oversized) never toy_oversized.
Proof.
  split; [vm_compute; reflexivity|]. intros fuel.
  apply (oversized_head_livelocks Toy.sdpa Toy.attend ToyEngine.weights [1%Z] poly_hash ToyEngine.clock
    (λ ids, ids = toy_prompt) ToyEngine.cfg toy_asked (λ _, False) [] toy_oversized [0] 0 (ToyEngine.ask toy_prompt 4)).
  - apply toy_model_ok.
  - pose proof (add_request_spec Toy.sdpa Toy.attend [1%Z] ToyEngine.weights poly_hash ToyEngine.clock
      (λ ids, ids = toy_prompt) ToyEngine.cfg toy_asked (λ _, False) [] _ [] 0 (ToyEngine.ask toy_prompt 4)
      (toy_engine_ok [4%Z] 3) eq_refl (not_elem_of_nil 0) eq_refl ltac:(done)) as Hadd.
    destruct Hadd as [HI _]. exact HI.
  - split_and!; try reflexivity; [exists []; reflexivity|]. vm_compute. lia.
Defined.

(** C13: cancelling frees what it cancels and nothing else.  With no step in flight,
    [cancel] of a request id (any pending cancellations included) never raises, ends
    every running and every queued request with such an id as [CANCELLED], keeps all
    others in their order, reports whether there was any, and re-establishes the
    engine invariant, so the blocks the cancelled sequences held are free again
    unless someone else refers to them. *)
Theorem cancel_exact {R} `{Torch R, TorchSampling R, !SamplerLaws R} sdpa attend w inv hash clock seen cfg asked may
    drained (e : Engine (R := R)) all id :
  model_ok sdpa attend w → may CANCELLED →
  engine_ok sdpa attend inv w hash seen cfg asked may drained e all →
  let hit r := req_id e r = id ∨ req_id e r ∈ e_cancel e in
  wp (cancel clock cfg id)
     (λ b e', engine_ok sdpa attend inv w hash seen cfg asked may drained e' all ∧
        e_running e' = filter (λ s, ¬ hit (s_req s)) (e_running e) ∧
        e_waiting e' = filter (λ r, ¬ hit r) (e_waiting e) ∧
        (b = true ↔ (∃ s, s ∈ e_running e ∧ hit (s_req s)) ∨ ∃ r, r ∈ e_waiting e ∧ hit r)) never e.
Proof.
  intros HM Hmay HI hit. rw /cancel /request_cancel. do 3 wp_step. set (e1 := set_cancel _ e).
  assert (∀ r, spared e1 r ↔ ¬ hit r) as Hsp. { intros r. rw /spared /e1 /hit /= /req_id. set_solver. }
  assert (EI sdpa attend inv w hash seen cfg asked may drained e1 (e_running e1) [] [] all) as HI1.
  { destruct HI; split; auto. }
  eapply wp_mono; [eapply apply_cancellations_spec; [apply HM|exact HI1]| |done].
  intros d e2 (HI2 & Hru & Hwt & Hd & _). wp_step. split_and!; [done|..].
  - rw Hru. apply list_filter_iff. intros s. apply Hsp.
  - rw Hwt. apply list_filter_iff. intros r. apply Hsp.
  - assert (d ≠ [] ↔ (∃ s, s ∈ e_running e ∧ hit (s_req s)) ∨ ∃ r, r ∈ e_waiting e ∧ hit r) as <-.
    { rw Hd. split.
      - intros Hne. destruct (filter (λ s, ¬ spared e1 (s_req s)) (e_running e1)) as [|s l] eqn:Hf1.
        + cbn in Hne. destruct (filter (λ r, ¬ spared e1 r) (e_waiting e1)) as [|r l] eqn:Hf2; [done|]. right.
          assert (r ∈ filter (λ r, ¬ spared e1 r) (e_waiting e1)) as [Hn Hr]%list_elem_of_filter by (rw Hf2; by left).
          exists r. split; [done|]. rw Hsp in Hn. rw /hit in Hn |- *. destruct (decide (req_id e r = id)), (decide (req_id e r ∈ e_cancel e)); tauto.
        + left. assert (s ∈ filter (λ s, ¬ spared e1 (s_req s)) (e_running e1)) as [Hn Hs]%list_elem_of_filter by (rw Hf1; by left).
          exists s. split; [done|]. rw Hsp in Hn. rw /hit in Hn |- *.
          destruct (decide (req_id e (s_req s) = id)), (decide (req_id e (s_req s) ∈ e_cancel e)); tauto.
      - intros [(s & Hs & Hh)|(r & Hr & Hh)] Hnil; apply app_nil in Hnil as [Hn1 Hn2].
        + apply fmap_nil_inv in Hn1. eapply (not_elem_of_nil s). rw -Hn1. apply list_elem_of_filter. split; [rw Hsp; tauto|done].
        + eapply (not_elem_of_nil r). rw -Hn2. apply list_elem_of_filter. split; [rw Hsp; tauto|done]. }
    destruct d; naive_solver.
Qed.

Lemma cancel_exact_witness :
  (cancel ToyEngine.clock ToyEngine.cfg "r" toy_queued).1 = Ok true ∧
  wp (cancel ToyEngine.clock ToyEngine.cfg "r") (λ b e', e_waiting e' = []) never toy_queued.
Proof.
  split; [vm_compute; reflexivity|]. eapply wp_mono.
  - apply (cancel_exact Toy.sdpa Toy.attend ToyEngine.weights [1%Z] poly_hash ToyEngine.clock
      (λ ids, ids = toy_prompt) ToyEngine.cfg toy_asked (λ _, True) [] toy_queued [0] "r").
    + apply toy_model_ok.
    + exact I.
    + destruct toy_queued_ok. split; auto. intros r q Hr. destruct (ei_good r q Hr) as (Hg & _ & Ha).
      split; [exact Hg|]. split; [|exact Ha]. unfold outcome_ok.
      destruct (toy_reqs_good [4%Z] r q Hr) as (_ & _ & Hf & _). rw Hf. exact I.
  - intros b e' (_ & _ & H & _). rw H. vm_compute. reflexivity.
  - intros e s' H. exact H.
Defined.

(** C7: reusing cached blocks does not change what the model says.  In any state that
    satisfies the engine invariant and has room for the prompt's blocks, [_prefill]
    of a well-formed request (look up the prompt, attach the blocks found, run only
    the suffix at its own positions, register the full blocks) never raises, returns
    logits whose last row is the last row of an uncached forward over the whole
    prompt, leaves the new cache holding the prompt and the prefix cache's contents
    correct, and leaves every other sequence's cache holding what it held. *)
Theorem prefill_transparent {R} `{Torch R, TorchSampling R, !SamplerLaws R} sdpa attend w inv hash seen cfg asked may
    drained (e : Engine (R := R)) all q :
  model_ok sdpa attend w →
  engine_ok sdpa attend inv w hash seen cfg asked may drained e all → good w seen q →
  _blocks_needed q e ≤ BlockAllocator.num_free (allocator (e_pool e)) →
  ∃ full,
    (lm_forward sdpa w (nat_ids (prompt_token_ids q)) None false None (e_rotary e, DynamicCache.init)).1 = Ok full ∧
    wp (_prefill sdpa w hash q)
       (λ logits s', last logits = last full ∧
          pc_heap (e_pool s'.1) (e_prefix s'.1) ((s_cache <$> e_running e) ++ [s'.2]) ∧
          entries_ok attend inv w hash seen (e_pool s'.1) (e_prefix s'.1) ∧
          holds attend inv w (e_pool s'.1) s'.2 (nat_ids (prompt_token_ids q)) ∧
          ∀ s past, s ∈ e_running e → holds attend inv w (e_pool e) (s_cache s) past →
            holds attend inv w (e_pool s'.1) (s_cache s) past) never (e, PagedKVCache.init).
Proof.
  intros [Hrows HL Hhd Hvc] HI [Hp Hv Hs _] Hroom. pose proof HI as [Hh HLp Hr He Hcf _ _ _ _ _ _ _ _].
  rw app_nil_r in Hh. exists (ref_logits attend inv w (embed w (prompt_token_ids q))). split.
  - eapply lm_full; [done|exact Hr|by apply embed_select].
  - eapply wp_mono; [eapply (prefill_spec sdpa attend Hrows inv w hash seen e q (s_cache <$> e_running e)); done| |done].
    intros logits s' (Hl & _ & _ & _ & HH & _ & He' & Hh' & Hfr & _). split_and!; try done.
    intros s past Hs'. apply Hfr. by apply list_elem_of_fmap_2.
Qed.

Lemma prefill_transparent_witness :
  ∃ full,
    (lm_forward Toy.sdpa ToyEngine.weights [0; 1; 2; 1; 0] None false None (e_rotary toy_queued, DynamicCache.init)).1
      = Ok full ∧
    wp (_prefill Toy.sdpa ToyEngine.weights poly_hash (ToyEngine.ask toy_prompt 4))
       (λ logits _, last logits = last full) never (toy_queued, PagedKVCache.init).
Proof.
  destruct (prefill_transparent Toy.sdpa Toy.attend ToyEngine.weights [1%Z] poly_hash (λ ids, ids = toy_prompt)
    ToyEngine.cfg toy_asked (λ _, False) [] toy_queued [0] (ToyEngine.ask toy_prompt 4)) as (full & H1 & H2).
  - apply toy_model_ok.
  - apply toy_queued_ok.
  - apply (toy_reqs_good [4%Z] 0). reflexivity.
  - vm_compute. lia.
  - exists full. split; [exact H1|]. eapply wp_mono; [exact H2| |].
    + intros logits s' (H & _). exact H.
    + intros e s' H. exact H.
Defined.

(** ** Two behaviours under memory pressure *)

(** What a streaming transport sees: the tokens drained after each of [n] steps. *)
Fixpoint stream_steps {R} `{Torch R, TorchSampling R} sdpa w hash clock cfg (n : nat) : EM (R := R) (list (nat * Z)) :=
  match n with
  | O => ret []
  | S n =>
      do* step sdpa w hash clock cfg in
      let* l := drain_emitted in
      let* r := stream_steps sdpa w hash clock cfg n in
      ret (l ++ r)
  end.

Definition toy_stream (n blocks : nat) (budgets : list Z) : result (list (nat * Z)) * Engine :=
  stream_steps Toy.sdpa ToyEngine.weights poly_hash ToyEngine.clock ToyEngine.cfg n
    (set_waiting (seq 0 (length budgets)) (ToyEngine.engine blocks (toy_reqs budgets))).

(** Preemption streams tokens twice.  Two requests of twelve tokens on nine
    blocks: the second is preempted once and regenerated from its prompt; its request
    ends with twelve tokens, but the tokens emitted before the preemption are emitted
    again, eighteen in all. *)
Example preemption_reemits :
  let r := toy_stream 30 9 [12; 12]%Z in
  ∃ stream q, r.1 = Ok stream ∧ e_preemptions r.2 = 1 ∧ e_reqs r.2 !! 1 = Some q ∧
    output_len q = 12 ∧ finish_reason q = Some LENGTH ∧ length (filter (λ x, x.1 = 1) stream) = 18.
Proof. eexists _, _. repeat (split; [vm_compute; reflexivity|]). vm_compute. reflexivity. Qed.

(** A request that outgrows the pool is preempted by itself over and over.  One
    request of fourteen tokens on seven blocks of two is admitted, runs out of blocks,
    is put back and starts again: after sixty iterations it has been preempted six
    times, has no output, and is back in the queue. *)
Example outgrown_pool_restarts :
  let r := toy_stream 60 7 [14]%Z in
  ∃ q, e_reqs r.2 !! 0 = Some q ∧ e_preemptions r.2 = 6 ∧ output_len q = 0 ∧ finish_reason q = None ∧
    e_waiting r.2 = [0].
Proof. eexists. repeat (split; [vm_compute; reflexivity|]). vm_compute. reflexivity. Qed.
