(* ===== verification/Liveness.v ===== *)
(** * The engine finishes (engine/scheduler.py)

    [run] returns.  Requests keep their place: admission takes the front of the queue,
    preemption puts the newest sequence back there, so the oldest running sequence is
    never preempted while others run, and every iteration brings it a token, finishes
    someone, or preempts someone; an iteration that admits anyone leaves a free block for
    every sequence and cannot preempt.  What is left to show is that the oldest sequence,
    once alone, fits: the capacity condition. *)

From Stdlib Require Import ssreflect QArith Qcanon.
From stdpp Require Import prelude gmap gmultiset strings sorting list.
From S2P Require Import Prelude Config BlockManager KvCache Transformer PrefixCache Types Admission Batch Scheduler Prefill Engine EngineProps.

(** ** How much the prefix cache can hold *)

(** The full blocks of a list of prompts. *)
Definition cacheable (bs : nat) (prompts : list (list Z)) : nat := sum_list_with (λ ids, length ids / bs) prompts.

Lemma hash_chain_length hash bs ids : 0 < bs → length (PrefixCache.hash_chain hash bs ids) = length ids / bs.
Proof.
  intros Hbs. assert (∀ i, i < length (PrefixCache.hash_chain hash bs ids) ↔ i < length ids / bs) as Hiff.
  { intros i. rw -lookup_lt_is_Some. split.
    - intros [h Hh]. apply hash_chain_lookup in Hh as [Hi _]; [|done]. apply Nat.div_le_lower_bound; nia.
    - intros Hi. exists (chain_key hash bs ids i). apply hash_chain_lookup; [done|]. split; [|done].
      pose proof (Nat.Div0.mul_div_le (length ids) bs). nia. }
  destruct (Nat.lt_trichotomy (length (PrefixCache.hash_chain hash bs ids)) (length ids / bs)) as [Hl|[Heq|Hl]]; [|done|].
  - by apply Hiff in Hl; lia.
  - by apply Hiff in Hl; lia.
Qed.

Section capacity.
Context {R : Type} `{HT : Torch R}.
#[local] Notation "'KV'" := (list (list R)).
Context (attend : list (list R) → list KV → list KV → list (list R)) (inv : list R) (w : NanoForCausalLM (R := R)).
Context (hash : Z → list Z → Z) (seen : list Z → Prop) (prompts : list (list Z)) (Hseen : ∀ ids, seen ids → ids ∈ prompts).

Lemma entries_bound (p : Pool KV) c : 0 < block_size p → pc_wf c → entries_ok attend inv w hash seen p c →
  length (_entries c) ≤ cacheable (block_size p) prompts.
Proof.
  intros Hbs Hwf He. rw -(length_fmap fst).
  assert ((_entries c).*1 ⊆+ prompts ≫= PrefixCache.hash_chain hash (block_size p)) as Hsub.
  { apply NoDup_submseteq; [apply Hwf|]. intros h Hin. apply list_elem_of_fmap in Hin as ([h' en] & -> & Hin). cbn.
    destruct (He h' (block_id en)) as (ids & i & Hs & _ & Hi & _).
    { rw /bid (elem_dget h' en) //. apply Hwf. }
    apply list_elem_of_bind. exists ids. split; [by eapply list_elem_of_lookup_2|by apply Hseen]. }
  apply submseteq_length in Hsub. etrans; [exact Hsub|]. clear -Hbs. rw /cacheable.
  induction prompts as [|ids l IH]; [done|]. cbn. rw length_app hash_chain_length //. lia.
Qed.

(** A sequence alone in the pool, with no block free. *)
Lemma lone_full (p : Pool KV) c x : pc_heap p c [x] → entries_ok attend inv w hash seen p c →
  BlockAllocator.num_free (allocator p) = 0 →
  BlockAllocator.num_blocks (allocator p) ≤ ceil_div (num_tokens x) (block_size p) + cacheable (block_size p) prompts.
Proof.
  intros [[Hpwf HA Hcs] Hwf] He Hf. pose proof (accounted_num_free _ _ HA) as Hn. rw Hf /= in Hn. rw -Hn.
  apply Forall_cons in Hcs as [[_ Ht] _]. rw /tight /= in Ht. rw -Ht.
  etrans; [|apply Nat.add_le_mono_l, (entries_bound p c); [apply (pwf_bs _ Hpwf)|done|done]].
  rw -(length_fmap (λ he : Z * CacheEntry, block_id he.2)) -length_app.
  etrans; [|apply size_list_le]. apply subseteq_size. intros b. rw gmultiset_elem_of_dom gmultiset_elem_of_disj_union.
  rw elem_of_list_to_set elem_of_app /refs_of /held !elem_of_list_to_set_disj /= app_nil_r. done.
Qed.
End capacity.

(** ** The measure *)

Section liveness.
Context {R : Type} `{HT : Torch R} `{HS : TorchSampling R} `{HSL : !SamplerLaws R}.
#[local] Notation "'KV'" := (list (list R)).
Context (sdpa : list KV → list KV → list KV → option (list (list bool)) → bool → list KV).
Context (attend : list (list R) → list KV → list KV → list (list R)).
Context (inv : list R) (w : NanoForCausalLM (R := R)).
Context (hash : Z → list Z → Z) (perf_counter : nat → Qc) (seen : list Z → Prop) (cfg : EngineCfg).
Context (asked : nat → list Z → SamplingParams → Prop) (may : FinishReason → Prop) (HM : model_ok sdpa attend w).
Context (prompts : list (list Z)) (Hseen : ∀ ids, seen ids → ids ∈ prompts).
Context (B bs limit : nat) (Hbatch : 0 < max_batch_size cfg).
Implicit Types (e : Engine (R := R)).
#[local] Abbreviation EI := (EI sdpa attend inv w hash seen cfg asked may).
#[local] Abbreviation mb := (max_batch_size cfg).

(** A request the pool can serve: it can start when nothing runs, and it fits at full
    length beside whatever the prefix cache holds. *)
Record fits (q : Request) : Prop := {
  ft_start : ceil_div (prompt_len q) bs + 1 + Nat.max (reserve_blocks cfg) 1 ≤ B;
  ft_grow : ceil_div (prompt_len q + budget q) bs + cacheable bs prompts < B;
  ft_limit : budget q ≤ limit;
}.
Hypothesis Hfits : ∀ r q, asked r (prompt_token_ids q) (params q) → fits q.

Definition shaped e : Prop := block_size (e_pool e) = bs ∧ BlockAllocator.num_blocks (allocator (e_pool e)) = B.

Lemma shaped_same e e' : same_shape (e_pool e) (e_pool e') → shaped e → shaped e'.
Proof. intros (Hb & _ & Hn) [? ?]. split; congruence. Qed.

(** How far the oldest sequence is from its end. *)
Definition rank e : nat :=
  match head (e_running e) with None => S limit | Some s => limit - default 0 (outlen e (s_req s)) end.
Definition work e : nat := length (e_waiting e) + length (e_running e).
Definition measure e : nat := work e * ((limit + 2) * (mb + 1)) + rank e * (mb + 1) + length (e_running e).

Lemma rank_le e : rank e ≤ S limit.
Proof. rw /rank. destruct (head _); lia. Qed.

Lemma measure_le e : length (e_running e) ≤ mb → measure e ≤ S (work e) * ((limit + 2) * (mb + 1)).
Proof. intros Hmax. pose proof (rank_le e). rw /measure. nia. Qed.

Lemma running_outlen drained e all s : EI drained e (e_running e) [] [] all → s ∈ e_running e →
  ∃ q, e_reqs e !! s_req s = Some q ∧ outlen e (s_req s) = Some (output_len q) ∧ output_len q < budget q ∧ fits q ∧
    num_tokens (s_cache s) < prompt_len q + budget q.
Proof.
  intros HI Hs. pose proof HI as [_ _ _ _ _ Hgd _ _ Hli _ _ _ _].
  destruct (Hli s Hs) as (q & Hq & [_ (Hlt & _) (out & Ho & Hh & _)]). destruct (Hgd _ _ Hq) as (_ & _ & Ha).
  exists q. split_and!; [done|by rw /outlen Hq|done|by eapply Hfits|]. rw Hh /nat_ids length_fmap length_app.
  rw /output_len Ho length_app /= in Hlt. rw /prompt_len. lia.
Qed.

(** A sequence that is alone cannot run out of blocks. *)
Lemma lone_room drained e all s : EI drained e [s] [] [] all → e_running e = [s] → shaped e →
  0 < BlockAllocator.num_free (allocator (e_pool e)).
Proof.
  intros HI Hru [Hb Hn]. pose proof HI as [Hh _ _ He _ _ _ _ _ _ _ _ _]. destruct (decide (BlockAllocator.num_free (allocator (e_pool e)) = 0)) as [Hz|]; [|lia].
  destruct (running_outlen drained e all s) as (q & _ & _ & _ & [_ Hg _] & Hnt); [by rw Hru|rw Hru; by left|].
  pose proof (lone_full attend inv w hash seen prompts Hseen (e_pool e) (e_prefix e) (s_cache s)) as Hl.
  rw Hb Hn in Hl. pose proof (pwf_bs _ (heap_wf _ _ _ (proj1 Hh))) as Hbs. rw Hb in Hbs.
  assert (ceil_div (num_tokens (s_cache s)) bs ≤ ceil_div (prompt_len q + budget q) bs) as Hle.
  { apply ceil_div_le; [done|]. pose proof (ceil_div_mul_ge (prompt_len q + budget q) bs Hbs). lia. }
  assert (B ≤ ceil_div (num_tokens (s_cache s)) bs + cacheable bs prompts); [|lia].
  by apply Hl.
Qed.

Lemma stepped_decreases drained e all e' :
  EI drained e (e_running e) [] [] all → EI drained e' (e_running e') [] [] all → shaped e →
  length (e_running e') ≤ mb → has_work e = true →
  stepped sdpa attend inv w hash seen cfg asked may drained e all e' → measure e' < measure e.
Proof.
  intros HI HI' Hsh Hmax' Hw Hst. pose proof (rank_le e) as Hr. pose proof (rank_le e') as Hr'. rw /measure.
  destruct Hst as [Hlt|[(Heq & Hne & Hadv)|[(s & Hru & Hwt & Hout & e5 & HI5 & Hsh5 & Hfree)|(Hru & Hru' & Hwt & Hstuck)]]].
  - fold (work e) (work e') in Hlt. nia.
  - fold (work e) (work e') in Heq. rw Heq. assert (rank e' < rank e); [|nia].
    destruct (e_running e') as [|s' L'] eqn:HL'; [done|].
    destruct (running_outlen drained e' all s') as (q & Hq & Ho & Hlt & [_ _ Hlim] & _); [by rw HL'|rw HL'; by left|].
    rw /rank HL' /= Ho /=. destruct (e_running e) as [|s L] eqn:HL; cbn; [lia|].
    destruct (Hadv s eq_refl) as (s2 & [= <-] & Hsr & n & Hn & Hn'). rw -Hsr Ho in Hn'. rw Hn. simplify_eq/=. lia.
  - assert (work e' = work e) as -> by (rw /work Hwt Hru length_app /=; lia).
    assert (rank e' = rank e) as ->; [|rw Hru length_app /=; lia].
    rw /rank. destruct (e_running e') as [|s' L'] eqn:HL'.
    { cbn in Hru. rw Hru in HI5. rw Hru /= in Hfree. exfalso.
      pose proof (lone_room drained (set_running [s] e5) all s HI5 eq_refl) as Hl. cbn in Hl.
      assert (shaped (set_running [s] e5)) as Hs5 by by apply (shaped_same e). specialize (Hl Hs5). lia. }
    rw Hru /= (Hout s'); [done|by left].
  - exfalso. rw /has_work Hru in Hw. rw /stuck in Hstuck. destruct (e_waiting e) as [|r rest] eqn:HW; [done|].
    cbn in Hstuck. rw Hru /= in Hstuck. destruct Hstuck as [|(q & Hq & Hroom)]; [lia|].
    rw Hru in HI. pose proof HI as [Hh _ _ _ _ Hgd _ _ _ _ _ _ _]. destruct (Hgd _ _ Hq) as (_ & _ & Ha).
    destruct (Hfits _ _ Ha) as [Hstart _ _]. pose proof (idle_pool (e_pool e) (e_prefix e) Hh) as Hidle.
    rw (evictable_idle sdpa attend w HM) in Hroom. destruct Hsh as [Hb Hn]. rw /_blocks_needed Hb in Hroom. lia.
Qed.

Lemma run_loop_returns (Hno : ¬ may CANCELLED) fuel : ∀ drained e all,
  EI drained e (e_running e) [] [] all → length (e_running e) ≤ mb → shaped e → measure e ≤ fuel →
  wp (run_loop sdpa w hash perf_counter cfg fuel drained) (λ res _, res ≠ None) never e.
Proof.
  induction fuel as [|fuel IH]; intros drained e all HI Hmax Hsh Hm; cbn [run_loop]; do 2 wp_step.
  all: destruct (has_work e) eqn:Hw; [|wp_step; eapply wp_mono; [by eapply drain_spec| |done]; intros l e' _; by wp_step].
  - exfalso. rw /measure in Hm. assert (0 < work e); [|nia].
    rw /has_work in Hw. rw /work. destruct (e_waiting e), (e_running e); cbn; [done|lia..].
  - wp_step. pose proof HM as [????]. eapply wp_mono; [by eapply step_spec| |done].
    intros _ e1 (HI1 & Hmax1 & Hsh1 & Hst). do 2 wp_step. wp_step.
    eapply wp_mono; [eapply (drain_spec _ _ _ _ _ _ _ _ _ drained (set_emitted [] e1) all); exact HI1| |done].
    intros l e2 (-> & HI2 & ->). eapply IH; [exact HI2|exact Hmax1|by eapply shaped_same|].
    assert (measure e1 < measure e); [|change (measure e1 ≤ fuel); lia].
    eapply stepped_decreases; [exact HI|exact HI1|done|done|done|]. apply Hst.
    by destruct (ei_cancel _ _ _ _ _ _ _ _ _ _ _ _ _ _ _ _ _ _ _ _ _ HI).
Qed.
End liveness.

(** Without admission control, offering requests only queues them. *)
Lemma add_all_plain {R} `{Torch R, TorchSampling R} clock cfg rs : ∀ (e : Engine (R := R)), e_admission e = None →
  for_each rs (add_request clock cfg) e = (Ok tt, set_waiting (e_waiting e ++ rs) e).
Proof.
  induction rs as [|r rs IH]; intros e He; cbn [for_each]; [rw app_nil_r; by destruct e|].
  rw {1}/bind {1}/add_request /bind /get He /modify. rw IH //. by rw -assoc.
Qed.

(** C3: the engine serves every queue it has room for, and stops.  If every request can
    start in the idle pool (its prompt's blocks, a growth block and the reserve) and fits
    in it at full length beside the prompts the prefix cache can hold, [run] over a fresh
    engine needs at most [(n + 1) * (limit + 2) * (max_batch_size + 1)] iterations, where
    [limit] bounds the token budgets: whatever is preempted on the way, it returns all the
    requests, each finished by end-of-sequence or its budget and, if greedy, with exactly
    the tokens of uncached decoding; nothing is left running, queued or allocated except
    what the prefix cache keeps. *)
Theorem run_total {R} `{Torch R, TorchSampling R, !SamplerLaws R} sdpa attend w inv hash clock seen cfg
    zero blocks bs rotary enable reqs rs prompts limit fuel :
  model_ok sdpa attend w → 0 < bs → rot_ok inv rotary → collision_free hash seen bs → NoDup rs →
  (∀ r q, reqs !! r = Some q → good w seen q ∧ fresh q ∧ fits cfg prompts blocks bs limit q) →
  Forall (λ r, is_Some (reqs !! r)) rs → 0 < max_batch_size cfg → (∀ ids, seen ids → ids ∈ prompts) →
  S (length rs) * ((limit + 2) * (max_batch_size cfg + 1)) ≤ fuel →
  ∃ out e',
    run sdpa w hash clock cfg fuel rs
      (engine_init (PagedCachePool.init zero (length (layers w)) blocks bs) rotary enable None reqs) = (Ok (Some out), e') ∧
    out ≡ₚ rs ∧ has_work e' = false ∧
    BlockAllocator.num_free (allocator (e_pool e')) + length (_entries (e_prefix e'))
      = BlockAllocator.num_blocks (allocator (e_pool e')) ∧
    ∀ r q0, r ∈ rs → reqs !! r = Some q0 → ∃ q fr,
      e_reqs e' !! r = Some q ∧ finish_reason q = Some fr ∧ (fr = EOS ∨ fr = LENGTH) ∧ output_len q ≤ budget q0 ∧
      (greedy (params q0) = true →
       greedy_gen sdpa inv w (eos_token_id cfg) (ignore_eos (params q0)) (budget q0) (prompt_token_ids q0)
       = (output_token_ids q, fr)).
Proof.
  intros HM Hbs Hrot Hcf Hnd Hq Hrs Hmb Hseen Hfuel. set (e0 := engine_init _ _ _ _ _).
  assert (wp (run sdpa w hash clock cfg fuel rs) (λ res _, res ≠ None) never e0) as Hret.
  { rw /run. wp_step. set (asked := λ r prompt p, ∃ q, reqs !! r = Some q ∧ prompt = prompt_token_ids q ∧ p = params q).
    assert (EI sdpa attend inv w hash seen cfg asked (λ _, False) [] e0 (e_running e0) [] [] []) as HI0.
    { apply engine_init_ok; try done. intros r q Hr. destruct (Hq _ _ Hr) as (? & [? ?] & ?). split_and!; try done. by exists q. }
    eapply wp_mono; [eapply (wp_conj _ _ (λ _ e1, length (e_waiting e1) = length rs ∧ shaped blocks bs e1) _ never)| |naive_solver].
    - eapply (add_all_spec sdpa attend inv w hash clock seen cfg asked _ rs e0 [] HI0); try done; [by rw app_nil_r|].
      eapply Forall_impl; [exact Hrs|]. intros r [q Hr]. exists q. split; [done|]. by apply (Hq _ _ Hr).
    - by rw /wp add_all_plain.
    - cbn. intros _ e1 [(all & _ & HI1 & Hru1) [Hw1 Hsh1]].
      eapply (run_loop_returns sdpa attend inv w hash clock seen cfg asked (λ _, False) HM prompts Hseen blocks bs limit Hmb);
        [|by intros []|exact HI1|rw Hru1; cbn; lia|done|].
      + intros r q (q0 & Hr & Hp & Hpa). destruct (Hq _ _ Hr) as (_ & _ & [Hs Hg Hl]).
        split; [by rw /prompt_len Hp|by rw /prompt_len /budget Hp Hpa|by rw /budget Hpa].
      + rw /measure /work /rank Hru1 Hw1 /=. nia. }
  pose proof (run_spec sdpa attend w inv hash clock seen cfg zero blocks bs rotary enable reqs rs fuel HM Hbs Hrot Hcf Hnd) as Hrun.
  apply wp_never in Hret as (res & e' & Heq & Hres). destruct res as [out|]; [|done]. exists out, e'. split; [done|].
  rw /wp Heq in Hrun. apply Hrun; [|done]. intros r q Hr. by destruct (Hq _ _ Hr) as (? & ? & _).
Qed.

(** Two requests with the same prompt on twelve blocks of two. *)
Lemma run_total_witness :
  (run Toy.sdpa ToyEngine.weights poly_hash ToyEngine.clock ToyEngine.cfg 120 [0; 1]
     (ToyEngine.engine 12 (toy_reqs [4; 6]%Z))).1 = Ok (Some [0; 1]) ∧
  ∃ out e', run Toy.sdpa ToyEngine.weights poly_hash ToyEngine.clock ToyEngine.cfg 120 [0; 1]
     (ToyEngine.engine 12 (toy_reqs [4; 6]%Z)) = (Ok (Some out), e') ∧ out ≡ₚ [0; 1] ∧ has_work e' = false.
Proof.
  split; [vm_compute; reflexivity|].
  destruct (run_total Toy.sdpa Toy.attend ToyEngine.weights [1%Z] poly_hash ToyEngine.clock (λ ids, ids = toy_prompt)
    ToyEngine.cfg [] 12 2 (rotary_init [1%Z] 4) true (toy_reqs [4; 6]%Z) [0; 1] [toy_prompt] 6 120) as (out & e' & H1 & H2 & H3 & _).
  - apply toy_model_ok.
  - lia.
  - split; reflexivity.
  - apply toy_collision_free.
  - apply (bool_decide_unpack _). vm_compute. exact I.
  - intros r q H. pose proof H as H0. apply toy_reqs_good in H0. destruct H0 as (G1 & G2 & _). split; [exact G1|]. split; [exact G2|].
    apply elem_of_list_to_map_2, elem_of_lookup_imap in H as (i & n & Heq & Hn). injection Heq as _ ->.
    destruct i as [|[|i]]; [injection Hn as <-; split; vm_compute; lia|injection Hn as <-; split; vm_compute; lia|discriminate].
  - repeat constructor; eexists; reflexivity.
  - vm_compute. lia.
  - intros ids ->. left.
  - vm_compute. lia.
  - exists out, e'. split; [exact H1|]. split; [exact H2|exact H3].
Defined.

(** The part of the condition about cached prompts is needed.  On nine blocks of two, a
    request of five tokens asking for twelve more is served when it comes alone; when
    another prompt was served before, whose two blocks the prefix cache keeps, it runs out
    of blocks and is preempted by itself again and again: decoding never gives up a cached
    prefix, and admission only gives up what the prompt and the reserve need. *)
Example cached_prompt_starves :
  let reqs : gmap nat Request := {[0 := ToyEngine.ask [0; 1; 2; 1; 0]%Z 2; 1 := ToyEngine.ask [2; 2; 1; 0; 1]%Z 12]} in
  let serve rs := run Toy.sdpa ToyEngine.weights poly_hash ToyEngine.clock ToyEngine.cfg 120 rs (ToyEngine.engine 9 reqs) in
  (serve [1]).1 = Ok (Some [1]) ∧ (serve [0; 1]).1 = Ok None ∧ e_preemptions (serve [0; 1]).2 = 12.
Proof. vm_compute. repeat split. Qed.
