(* ===== verification/Baseline.v ===== *)
(** * The sequential engine (engine/baseline.py)

    One request at a time, run to completion.  The loop only knows the cache
    protocol; what differs between the three kinds of cache (growing, contiguous
    slots, block tables) is how one is obtained and given back, a [Backend]. *)

From Stdlib Require Import ssreflect QArith Qcanon.
From stdpp Require Import prelude gmap gmultiset strings sorting list.
From S2P Require Import Prelude Config BlockManager KvCache Transformer Types Batch Scheduler Prefill Engine EngineProps.

(** [pool.allocate(expected_len=...)], with the cache it hands out kept in the
    state, and the matching free. *)
Class Backend (T St : Type) `{KVCache T St} := {
  bk_allocate : Z → M St bool;
  bk_free : M St unit;
}.

Section backends.
Context {T : Type}.

(** [pool is None]: a fresh [DynamicCache] per request, dropped afterwards. *)
#[export] Instance dynamic_backend : Backend T (DynamicCache.t T) := {|
  bk_allocate _ := do* modify (λ _, DynamicCache.init) in ret true;
  bk_free := ret tt;
|}.

(** A [PagedCachePool] and the cache it handed out last. *)
#[export] Instance paged_backend : Backend T (PC T) := {|
  bk_allocate _ := λ s, match pool_allocate s.1 with
                        | Some c => (Ok true, (s.1, c))
                        | None => (Ok false, s)
                        end;
  bk_free := PagedKVCache.free;
|}.

(** A [StaticCachePool] and the cache object it handed out last. *)
Definition SP : Type := SPool T * nat.
#[export] Instance static_pair_cache : KVCache T SP := {|
  kv_update l k v := λ s, match StaticKVCache.update s.2 l k v s.1 with (r, p) => (r, (p, s.2)) end;
  kv_len s := StaticKVCache.len s.2 s.1;
|}.
#[export] Instance static_backend : Backend T SP := {|
  bk_allocate est := λ s, match StaticCachePool.allocate (Some (Z.to_nat est)) s.1 with
                          | (Ok (Some o), p) => (Ok true, (p, o))
                          | (Ok None, p) => (Ok false, (p, s.2))
                          | (Raise e, p) => (Raise e, (p, s.2))
                          end;
  bk_free := λ s, match StaticCachePool.free s.2 s.1 with (r, p) => (r, (p, s.2)) end;
|}.
End backends.

Section baseline.
Context {R : Type} `{Torch R} `{TorchSampling R}.
#[local] Notation "'Vec'" := (list R).
#[local] Notation "'KV'" := (list (list R)).
Context {St : Type} `{Backend (list (list R)) St}.

Record BEngine := mkBEngine {
  be_kv : St;
  be_rotary : Rotary (R := R);
  be_waiting : list nat;
  be_finished : list nat;
  be_tokens : nat;             (* [_tokens_generated] *)
  be_reqs : gmap nat Request;
  be_ticks : nat;
  be_seed : nat;
}.

Definition set_be_model (rs : Rotary (R := R) * St) (e : BEngine) : BEngine :=
  mkBEngine rs.2 rs.1 (be_waiting e) (be_finished e) (be_tokens e) (be_reqs e) (be_ticks e) (be_seed e).
Definition set_be_queue (wt fin : list nat) (e : BEngine) : BEngine :=
  mkBEngine (be_kv e) (be_rotary e) wt fin (be_tokens e) (be_reqs e) (be_ticks e) (be_seed e).
Definition set_be_reqs (m : gmap nat Request) (e : BEngine) : BEngine :=
  mkBEngine (be_kv e) (be_rotary e) (be_waiting e) (be_finished e) (be_tokens e) m (be_ticks e) (be_seed e).
Definition set_be_counts (n t s : nat) (e : BEngine) : BEngine :=
  mkBEngine (be_kv e) (be_rotary e) (be_waiting e) (be_finished e) n (be_reqs e) t s.

Definition BM (A : Type) : Type := M BEngine A.

Context (sdpa : list KV → list KV → list KV → option (list (list bool)) → bool → list KV).
Context (w : NanoForCausalLM (R := R)) (perf_counter : nat → Qc) (eos_token_id : Z) (use_cache : bool).

Definition b_now : BM Qc := λ e, (Ok (perf_counter (be_ticks e)), set_be_counts (be_tokens e) (S (be_ticks e)) (be_seed e) e).
Definition b_req (r : nat) : BM Request := λ e,
  match be_reqs e !! r with Some q => (Ok q, e) | None => (Raise KeyError, e) end.
Definition b_upd (r : nat) (f : Request → Request) : BM unit :=
  modify (λ e, set_be_reqs (alter f r (be_reqs e)) e).
Definition b_finish (r : nat) (reason : FinishReason) : BM unit := let* t := b_now in b_upd r (finish reason t).
Definition on_b_kv {A} (m : M St A) : BM A := zoom be_kv (λ st e, set_be_model (be_rotary e, st) e) m.
Definition on_b_model {A} (m : M (MSt (St := St)) A) : BM A := zoom (λ e, (be_rotary e, be_kv e)) set_be_model m.

Definition b_add_request (r : nat) : BM unit := modify (λ e, set_be_queue (be_waiting e ++ [r]) (be_finished e) e).
Definition b_has_work (e : BEngine) : bool := match be_waiting e with [] => false | _ => true end.

(** [_sample], the same chain of filters as the scheduler's. *)
Definition b_sample (logits : Vec) (q : Request) : BM Z :=
  if greedy (params q) then ret (ts_argmax logits)
  else
    let* seed := (λ e, (Ok (be_seed e), set_be_counts (be_tokens e) (be_ticks e) (S (be_seed e)) e)) in
    lift (_sample_with_params seed logits (params q)).

(** [self.model(ids, cache=cache)], and without a cache over a slice of the buffer. *)
Definition b_model (cached : bool) (ids : list Z) : BM (list Vec) :=
  let* tokens := lift (if cached then token_tensor ids else to_indices ids) in
  on_b_model (lm_forward sdpa w tokens None cached None).

(** [_generate]; [buffer] is the preallocated sequence of the uncached variant. *)
Fixpoint _generate (n : nat) (r : nat) (logits : list Vec) (buffer : list Z) : BM unit :=
  match n with
  | O => ret tt
  | S n =>
      let* q := b_req r in
      let* row := lift (last_row logits) in
      let* token_id := b_sample row q in
      if (token_id =? eos_token_id)%Z && negb (ignore_eos (params q)) then b_finish r EOS
      else
        let* t := b_now in
        do* b_upd r (record_token token_id t) in
        do* modify (λ e, set_be_counts (S (be_tokens e)) (be_ticks e) (be_seed e) e) in
        if use_cache then
          let* logits := b_model true [token_id] in
          _generate n r logits buffer
        else
          let* q := b_req r in
          let end_ := prompt_len q + output_len q in
          let* buffer := (match buffer !! (end_ - 1) with
                          | Some _ => ret (<[end_ - 1 := token_id]> buffer)
                          | None => raise IndexError
                          end) in
          let* logits := b_model false (take end_ buffer) in
          _generate n r logits buffer
  end.

(** [step]: the next queued request, run to completion. *)
Definition b_step : BM (list nat) :=
  let* e := get in
  match be_waiting e with
  | [] => ret []
  | r :: rest =>
      do* modify (λ e, set_be_queue rest (be_finished e) e) in
      let* t := b_now in
      do* b_upd r (set_scheduled (Some t)) in
      let* q := b_req r in
      let* have := (if use_cache then on_b_kv (bk_allocate (total_len_estimate q)) else ret true) in
      if negb have then
        do* modify (λ e, set_be_queue (r :: be_waiting e) (be_finished e) e) in
        ret []
      else
        let ids := prompt_token_ids q in
        (* an uncached run first allocates the whole buffer *)
        let* buffer := (if use_cache then ret []
                        else if (max_tokens (params q) <? 0)%Z then raise RuntimeError
                        else ret (ids ++ replicate (Z.to_nat (max_tokens (params q))) 0%Z)) in
        let* logits := b_model use_cache ids in
        do* finally
              (catch (_generate (Z.to_nat (max_tokens (params q))) r logits buffer)
                 OutOfBlocks (b_finish r PREEMPTED))
              (if use_cache then on_b_kv bk_free else ret tt) in
        let* q := b_req r in
        do* (match finish_reason q with None => b_finish r LENGTH | Some _ => ret tt end) in
        do* modify (λ e, set_be_queue (be_waiting e) (be_finished e ++ [r]) e) in
        ret [r]
  end.

(** [run]: one [step] per queued request, as long as none is put back. *)
Fixpoint b_run_loop (fuel : nat) (out : list nat) : BM (option (list nat)) :=
  let* e := get in
  if b_has_work e then
    match fuel with
    | O => ret None
    | S fuel => let* l := b_step in b_run_loop fuel (out ++ l)
    end
  else ret (Some out).

Definition b_run (fuel : nat) (requests : list nat) : BM (option (list nat)) :=
  do* for_each requests b_add_request in b_run_loop fuel [].

(** [stats] reads the pool through [usage], blocks used and total. *)
Definition b_stats (usage : St → Z * Z) : BM EngineStats :=
  let* t := b_now in
  gets (λ e, mkEngineStats t 0 (length (be_waiting e)) (length (be_finished e))
    (usage (be_kv e)).1 (usage (be_kv e)).2 0 0).
End baseline.

(** * The sequential engine computes the reference *)

Section exact.
Context {R : Type} `{HT : Torch R} `{HS : TorchSampling R} `{HSL : !SamplerLaws R}.
#[local] Notation "'Vec'" := (list R).
#[local] Notation "'KV'" := (list (list R)).
Context {St : Type} `{HK : KVCache KV St} `{HB : !Backend KV St} (L : nat) `{HL : !KVCacheLaws KV St L}.
Context (sdpa : list KV → list KV → list KV → option (list (list bool)) → bool → list KV).
Context (attend : list Vec → list (list Vec) → list (list Vec) → list Vec).
Context (inv : Vec) (w : NanoForCausalLM (R := R)) (HM : model_ok sdpa attend w).
Context (perf_counter : nat → Qc) (eos : Z) (use_cache : bool).
Implicit Types (e : BEngine (R := R) (St := St)).
#[local] Abbreviation context q := (prompt_token_ids q ++ output_token_ids q).
#[local] Abbreviation represents := (represents attend inv L w).

(** Up to [cap] tokens, a cache always has room for one more. *)
Context (cap : nat).
Hypothesis room_one : ∀ s past, represents s past → length past < cap → kv_room s.2 1.

(** The model and its cache have seen [ids]. *)
Definition model_at e (ids : list Z) : Prop :=
  in_vocab w ids ∧
  if use_cache then represents (be_rotary e, be_kv e) (nat_ids ids) ∧ length ids ≤ cap
  else rot_ok inv (be_rotary e).

Definition row_of (ids : list Z) (logits : list Vec) : Prop :=
  last logits = last (ref_logits attend inv w (embed w ids)) ∧ ids ≠ [].

Lemma row_of_Some ids logits : row_of ids logits → in_vocab w ids → ∃ row,
  last logits = Some row ∧ row ≠ [] ∧ length row = length (embed_tokens w) ∧ greedy_next sdpa inv w ids = ts_argmax row.
Proof.
  intros [Hl Hne] Hv. destruct HM as [Hrows HL0 Hhd Hvc].
  assert (length (ref_logits attend inv w (embed w ids)) = length ids) as Hlen.
  { rw /ref_logits !length_fmap length_ref_layers. by rw /embed length_fmap. }
  destruct (last (ref_logits attend inv w (embed w ids))) as [row|] eqn:Hlast; last first.
  { apply last_None in Hlast. rw Hlast in Hlen. by destruct ids. }
  destruct (last_row_width attend inv w Hhd Hvc ids row Hlast) as [Hw Hn].
  exists row. split_and!; try done. by eapply next_row.
Qed.

(** One more token through the cache, or the whole sequence without one. *)
Lemma feed_cached e ids t :
  use_cache = true → model_at e ids → ids ≠ [] → length ids < cap →
  (0 ≤ t < Z.of_nat (length (embed_tokens w)))%Z →
  wp (b_model sdpa w true [t])
     (λ logits e', row_of (ids ++ [t]) logits ∧ model_at e' (ids ++ [t]) ∧ ∃ rs, e' = set_be_model rs e) never e.
Proof.
  intros Huc [Hv Hm] Hne Hcap Ht. rw /model_at Huc in Hm |- *. destruct Hm as [Hrep _].
  assert (in_vocab w [t]) as Hvt by by constructor.
  assert (in_vocab w (ids ++ [t])) as Hv' by (by apply Forall_app).
  rw /b_model. wp_step. rw {1}/wp /lift /token_tensor (to_indices_ok w [t] Hvt) /on_b_model. wp_step.
  assert (length (nat_ids ids) = length ids) as Hln by by rw /nat_ids length_fmap.
  destruct HM as [Hrows _ _ _].
  eapply wp_mono; [eapply (lm_cached sdpa attend Hrows inv L w (be_rotary e, be_kv e) (nat_ids ids) (nat_ids [t])
    (embed w ids) (embed w [t])); [done|by apply embed_select|by apply embed_select|]| |done].
  { cbn. eapply (room_one (be_rotary e, be_kv e)); [exact Hrep|by rw Hln]. }
  intros logits s' [-> Hrep']. split_and!; [split| | | |by eexists].
  - rw Hln. assert (embed w ids ++ embed w [t] = embed w (ids ++ [t])) as -> by by rw /embed fmap_app.
    apply last_drop_lt. rw /ref_logits !length_fmap length_ref_layers /embed length_fmap length_app /=. lia.
  - by destruct ids.
  - done.
  - cbn. rw /nat_ids -fmap_app in Hrep'. by destruct s'.
  - rw length_app /=. lia.
Qed.

Lemma feed_full e ids :
  use_cache = false → rot_ok inv (be_rotary e) → in_vocab w ids → ids ≠ [] →
  wp (b_model sdpa w false ids)
     (λ logits e', row_of ids logits ∧ model_at e' ids ∧ ∃ rs, e' = set_be_model rs e) never e.
Proof.
  intros Huc Hr Hv Hne. rw /b_model. wp_step. rw {1}/wp /lift (to_indices_ok w ids Hv) /on_b_model. wp_step.
  destruct HM as [Hrows _ _ _].
  rw /wp (lm_full_eq sdpa attend Hrows inv w (nat_ids ids) (embed w ids)) //; [|by apply embed_select].
  split_and!; [by split| |by eexists]. rw /model_at Huc. split; [done|]. cbn. by apply ensure_capacity_ok.
Qed.

(** The request [q] after up to [n] more tokens. *)
Definition generated (n : nat) (q q' : Request) : Prop :=
  prompt_token_ids q' = prompt_token_ids q ∧ params q' = params q ∧
  (finish_reason q' = None ∨ finish_reason q' = Some EOS) ∧
  ∃ new, output_token_ids q' = output_token_ids q ++ new ∧ length new ≤ n ∧
    (finish_reason q' = None → length new = n) ∧
    (greedy (params q) = true →
     greedy_gen sdpa inv w eos (ignore_eos (params q)) n (context q) = (new, default LENGTH (finish_reason q'))).

Definition quiet (r : nat) e e' : Prop :=
  be_waiting e' = be_waiting e ∧ be_finished e' = be_finished e ∧
  (∀ r', r' ≠ r → be_reqs e' !! r' = be_reqs e !! r') ∧ rot_ok inv (be_rotary e').

Lemma b_req_spec e r q (Q : Request → BEngine → Prop) E :
  be_reqs e !! r = Some q → Q q e → wp (b_req r) Q E e.
Proof. intros Hr HQ. by rw /wp /b_req Hr. Qed.

Lemma b_sample_spec e row q :
  row ≠ [] → match top_k (params q) with Some k => (0 ≤ k)%Z | None => True end →
  wp (b_sample row q)
     (λ t e', (0 ≤ t < Z.of_nat (length row))%Z ∧ (greedy (params q) = true → t = ts_argmax row) ∧
        ∃ n, e' = set_be_counts (be_tokens e) (be_ticks e) n e) never e.
Proof.
  intros Hrow Hk. rw /b_sample. destruct (greedy (params q)) eqn:Hgr.
  - wp_step. split_and!; [by apply argmax_range|by apply argmax_range|done|]. exists (be_seed e). by destruct e.
  - wp_step. rw {1}/wp. destruct (sample_with_params_ok (be_seed e) row (params q) Hrow Hk) as (t & Ht & Hr).
    rw /lift /wp Ht. split_and!; [lia|lia|done|]. by eexists.
Qed.

Lemma model_at_rot e ids : model_at e ids → rot_ok inv (be_rotary e).
Proof. intros [_ Hm]. destruct use_cache; [by destruct Hm as [[] _]|done]. Qed.

Lemma generate_spec n : ∀ e r q logits buffer,
  be_reqs e !! r = Some q → finish_reason q = None →
  match top_k (params q) with Some k => (0 ≤ k)%Z | None => True end →
  model_at e (context q) → row_of (context q) logits → length (context q) + n ≤ cap →
  (use_cache = false → length buffer = length (context q) + n ∧ take (length (context q)) buffer = context q) →
  wp (_generate sdpa w perf_counter eos use_cache n r logits buffer)
     (λ _ e', quiet r e e' ∧ ∃ q', be_reqs e' !! r = Some q' ∧ generated n q q') never e.
Proof.
  induction n as [|n IH]; intros e r q logits buffer Hr Hf Hk Hm Hrow Hcap Hbuf; cbn [_generate].
  { wp_step. split; [split_and!; try done; by eapply model_at_rot|]. exists q. split; [done|]. split_and!; auto.
    exists []. rw app_nil_r Hf. split_and!; try done. }
  pose proof Hm as [Hv _]. pose proof (model_at_rot _ _ Hm) as Hrot.
  destruct (row_of_Some _ _ Hrow Hv) as (row & Hl & Hrn & Hrw & Hnext).
  wp_step. eapply b_req_spec; [exact Hr|]. wp_step. rw {1}/wp /lift /last_row Hl. wp_step.
  eapply wp_mono; [by apply b_sample_spec| |done]. intros t e1 (Ht & Hg & sd & ->). rw Hrw in Ht.
  assert (greedy (params q) = true → greedy_next sdpa inv w (context q) = t) as Hgn by (intros Hgr; by rw Hnext Hg).
  destruct ((t =? eos)%Z && negb (ignore_eos (params q))) eqn:Heos.
  { rw /b_finish /b_now /b_upd /wp /bind /=. split; [split_and!; try done|].
    - intros r' Hne. by rw lookup_alter_ne.
    - exists (finish EOS (perf_counter (be_ticks e)) q). split; [by rw lookup_alter_eq Hr|]. split_and!; try done; [by right|].
      exists []. rw app_nil_r. split_and!; try done; [cbn; lia|]. intros Hgr. cbn. by rw (Hgn Hgr) Heos. }
  wp_step. rw /b_now {1}/wp. wp_step. rw /b_upd. do 3 wp_step. set (e2 := set_be_counts _ _ _ _).
  set (q2 := record_token t (perf_counter (be_ticks e)) q).
  assert (be_reqs e2 !! r = Some q2) as Hr2 by by rw /e2 /= lookup_alter_eq Hr.
  assert (context q2 = context q ++ [t]) as Hctx by by rw /q2 /= assoc.
  assert (∀ e', quiet r e2 e' ∧ (∃ q', be_reqs e' !! r = Some q' ∧ generated n q2 q') →
    quiet r e e' ∧ ∃ q', be_reqs e' !! r = Some q' ∧ generated (S n) q q') as Hfin.
  { intros e' ((Hw & Hfi & Ho & Hro) & q' & Hq' & Hp & Hpa & Hfr & new & Hnew & Hln & Hl2 & Hgen).
    split; [split_and!; try done|].
    - intros r' Hne. rw Ho // /e2 /= lookup_alter_ne //.
    - exists q'. split; [done|]. split_and!; try done. exists (t :: new). split_and!.
      + by rw Hnew /q2 /= -assoc.
      + cbn. lia.
      + intros Hn. cbn. f_equal. by apply Hl2.
      + intros Hgr. cbn. rw (Hgn Hgr) Heos. rw Hctx in Hgen. specialize (Hgen Hgr). cbn in Hgen. by rw Hgen. }
  assert (model_at e2 (context q)) as Hm2 by exact Hm.
  destruct use_cache eqn:Huc; cbn iota.
  - wp_step. rw length_app in Hcap.
    eapply wp_mono; [apply (feed_cached e2 (context q) t); [done|done|by destruct Hrow|rw length_app; lia|done]| |done].
    intros logits2 e3 (Hrow3 & Hm3 & rs & ->). rw -Hctx in Hrow3, Hm3.
    eapply wp_mono; [apply (IH _ r q2 logits2 buffer); try done| |done].
    + rw Hctx !length_app /=. lia.
    + intros _ e4 (Hq4 & Hgen4). apply Hfin. done.
  - wp_step. eapply b_req_spec; [exact Hr2|]. wp_step. destruct Hbuf as [Hbl Hbt]; [done|].
    assert (prompt_len q2 + output_len q2 = S (length (context q))) as Hend.
    { rw /prompt_len /output_len /q2 /= !length_app /=. lia. }
    rw Hend /= Nat.sub_0_r. destruct (lookup_lt_is_Some_2 buffer (length (context q))) as [x Hx]; [lia|].
    rw Hx. wp_step. wp_step.
    assert (take (S (length (context q))) (<[length (context q) := t]> buffer) = context q2) as Htk.
    { rw (take_S_r _ _ t); [|apply list_lookup_insert_eq; lia]. rw take_insert_ge // Hbt. done. }
    rw Htk. eapply wp_mono; [apply (feed_full e2 (context q2)); [done|by eapply model_at_rot| |]| |done].
    + rw Hctx. apply Forall_app. split; [done|]. by constructor.
    + rw Hctx. by destruct (context q).
    + intros logits2 e3 (Hrow3 & Hm3 & rs & ->).
      eapply wp_mono; [apply (IH _ r q2 logits2 (<[length (context q) := t]> buffer)); try done| |done].
      * rw Hctx length_app /=. lia.
      * intros _. split; [rw length_insert Hbl Hctx !length_app /=; lia|].
        assert (length (context q2) = S (length (context q))) as -> by (rw Hctx length_app /=; lia). done.
      * intros _ e4 (Hq4 & Hgen4). apply Hfin. done.
Qed.
End exact.

Lemma caches_nil {R} `{Torch R} attend inv (ls : list (DecoderLayer (R := R))) :
  kcaches attend inv ls [] = replicate (length ls) [] ∧ vcaches attend inv ls [] = replicate (length ls) [].
Proof. induction ls as [|m ls [IH1 IH2]]; [done|]. cbn. split; f_equal; [exact IH1|exact IH2]. Qed.

(** What one [step] promises of the request it serves. *)
Definition served {R} `{Torch R, TorchSampling R} sdpa inv (w : NanoForCausalLM (R := R)) eos (q q' : Request) : Prop :=
  ∃ fr, finish_reason q' = Some fr ∧ (fr = EOS ∨ fr = LENGTH) ∧
    (Z.of_nat (output_len q') ≤ max_tokens (params q))%Z ∧
    (greedy (params q) = true →
     greedy_gen sdpa inv w eos (ignore_eos (params q)) (Z.to_nat (max_tokens (params q))) (prompt_token_ids q)
     = (output_token_ids q', fr)).

Section run.
Context {R : Type} `{HT : Torch R} `{HS : TorchSampling R} `{HSL : !SamplerLaws R}.
#[local] Notation "'KV'" := (list (list R)).
Context (sdpa : list KV → list KV → list KV → option (list (list bool)) → bool → list KV).
Context (attend : list (list R) → list KV → list KV → list (list R)).
Context (inv : list R) (w : NanoForCausalLM (R := R)) (HM : model_ok sdpa attend w).
Context (perf_counter : nat → Qc) (eos : Z) (use_cache : bool).
Implicit Types (e : BEngine (R := R) (St := DynamicCache.t KV)).
#[local] Abbreviation generated := (generated sdpa inv w eos).

(** A request ready to be served by this engine. *)
Definition queueable (q : Request) : Prop :=
  good w (λ _, True) q ∧ fresh q ∧ (0 ≤ max_tokens (params q))%Z.

(** The prompt's pass, with a growing cache or without one. *)
Lemma prompt_pass e ids cap :
  in_vocab w ids → ids ≠ [] → length ids ≤ cap → rot_ok inv (be_rotary e) →
  (use_cache = true → be_kv e = DynamicCache.init) →
  wp (b_model sdpa w use_cache ids)
     (λ logits e', row_of attend inv w ids logits ∧ model_at (length (layers w)) attend inv w use_cache cap e' ids ∧
        ∃ rs, e' = set_be_model rs e) never e.
Proof.
  intros Hv Hne Hcap Hr Hkv. destruct HM as [Hrows HL _ _]. rw /b_model /on_b_model. wp_step.
  assert (token_tensor ids = to_indices ids) as Htt by by destruct ids.
  destruct use_cache eqn:Huc.
  - rw {1}/wp /lift Htt (to_indices_ok w ids Hv). wp_step.
    eapply wp_mono; [eapply (lm_cached sdpa attend Hrows inv (length (layers w)) (HL := dynamic_laws _) w
      (be_rotary e, be_kv e) [] (nat_ids ids) [] (embed w ids))| |done].
    + split_and!; try done. exists []. split; [done|]. cbn. rw Hkv //. destruct (caches_nil attend inv (layers w)) as [-> ->].
      apply (dyn_init (length (layers w))).
    + done.
    + by apply embed_select.
    + done.
    + intros logits s' [-> Hrep]. split_and!; [by split| |by eexists]. split; [done|]. split; [|done]. by destruct s'.
  - rw {1}/wp /lift (to_indices_ok w ids Hv). wp_step.
    rw /wp (lm_full_eq sdpa attend Hrows inv w (nat_ids ids) (embed w ids)) //; [|by apply embed_select].
    split_and!; [by split| |by eexists]. split; [done|]. cbn. by apply ensure_capacity_ok.
Qed.

Lemma b_step_spec e r rest q :
  be_waiting e = r :: rest → be_reqs e !! r = Some q → queueable q → rot_ok inv (be_rotary e) →
  wp (b_step sdpa w perf_counter eos use_cache)
     (λ d e', d = [r] ∧ be_waiting e' = rest ∧ be_finished e' = be_finished e ++ [r] ∧ rot_ok inv (be_rotary e') ∧
        (∀ r', r' ≠ r → be_reqs e' !! r' = be_reqs e !! r') ∧
        ∃ q', be_reqs e' !! r = Some q' ∧ served sdpa inv w eos q q') never e.
Proof.
  intros Hwt Hq (Hg & [Hout Hfin] & Hmax) Hr. rw /b_step. do 2 wp_step. rw Hwt. do 2 wp_step. wp_step. rw /b_now {1}/wp.
  wp_step. rw /b_upd. wp_step. set (e1 := set_be_reqs _ _). set (q1 := set_scheduled (Some (perf_counter (be_ticks e))) q).
  assert (be_reqs e1 !! r = Some q1) as Hq1 by by rw /e1 /= lookup_alter_eq Hq.
  wp_step. eapply b_req_spec; [exact Hq1|]. wp_step.
  set (e2 := if use_cache then set_be_model (be_rotary e1, DynamicCache.init) e1 else e1).
  assert (∀ Q : bool → BEngine → Prop, Q true e2 →
    wp (if use_cache then on_b_kv (bk_allocate (total_len_estimate q1)) else ret true) Q never e1) as Halloc.
  { intros Q HQ. subst e2. destruct use_cache; [|by wp_step]. by rw /on_b_kv /wp /zoom /=. }
  apply Halloc. clear Halloc. cbn [negb]. wp_step.
  set (n := Z.to_nat (max_tokens (params q1))). set (ids := prompt_token_ids q1).
  set (buf := if use_cache then [] else ids ++ replicate n 0%Z).
  assert (∀ Q : list Z → BEngine → Prop, Q buf e2 →
    wp (if use_cache then ret [] else if (max_tokens (params q1) <? 0)%Z then raise RuntimeError
        else ret (ids ++ replicate n 0%Z)) Q never e2) as Hbuf.
  { intros Q HQ. subst buf. destruct use_cache; [by wp_step|]. destruct (Z.ltb_spec (max_tokens (params q1)) 0) as [Hlt|]; [|by wp_step].
    change (params q1) with (params q) in Hlt. lia. }
  apply Hbuf. clear Hbuf. wp_step.
  assert (be_reqs e2 = be_reqs e1 ∧ be_waiting e2 = rest ∧ be_finished e2 = be_finished e ∧ be_rotary e2 = be_rotary e) as (Hb1 & Hb2 & Hb3 & Hb4).
  { subst e2. by destruct use_cache. }
  eapply wp_mono; [apply (prompt_pass e2 ids (length ids + n))| |done].
  { apply Hg. } { apply Hg. } { lia. } { by rw Hb4. } { subst e2. by intros ->. }
  intros logits e3 (Hrow & Hm3 & rs & ->). wp_step. apply wp_finally. wp_step.
  assert (prompt_token_ids q1 ++ output_token_ids q1 = ids) as Hctx by (rw /q1 /= Hout app_nil_r //).
  eapply wp_mono; [eapply (generate_spec (length (layers w)) sdpa attend inv w HM perf_counter eos use_cache (length ids + n) _ n _ r q1)| |done].
  { by rw /= Hb1. } { done. } { apply Hg. } { rw Hctx. exact Hm3. } { by rw Hctx. } { rw Hctx. lia. }
  { rw Hctx. intros Huc. subst buf. rw Huc. rw length_app length_replicate. split; [done|by rw take_app_length]. }
  intros _ e4 ((Hw4 & Hf4 & Ho4 & Hr4) & q4 & Hq4 & Hp4 & Hpa4 & Hfr4 & new & Hnew & Hln & Hln2 & Hgen).
  assert (∀ Q : unit → BEngine → Prop, (∀ e5, be_reqs e5 = be_reqs e4 → be_waiting e5 = be_waiting e4 →
      be_finished e5 = be_finished e4 → be_rotary e5 = be_rotary e4 → Q tt e5) →
    wp (if use_cache then on_b_kv bk_free else ret tt) Q never e4) as Hfree.
  { intros Q HQ. destruct use_cache; [|wp_step; by apply HQ]. rw /on_b_kv /wp /zoom /=. by apply HQ. }
  apply Hfree. intros e5 He1 He2 He3 He4. clear Hfree. wp_step.
  rw Hout /= in Hnew. rw Hctx in Hgen. cbn in Hw4, Hf4.
  eapply b_req_spec; [by rw He1|]. wp_step.
  assert (∀ q5 e6, be_reqs e6 = <[r := q5]> (be_reqs e4) → be_waiting e6 = rest → be_finished e6 = be_finished e →
    be_rotary e6 = be_rotary e4 → output_token_ids q5 = new →
    finish_reason q5 = Some (default LENGTH (finish_reason q4)) →
    wp (do* modify (λ e, set_be_queue (be_waiting e) (be_finished e ++ [r]) e) in ret [r])
     (λ d e', d = [r] ∧ be_waiting e' = rest ∧ be_finished e' = be_finished e ++ [r] ∧ rot_ok inv (be_rotary e') ∧
        (∀ r', r' ≠ r → be_reqs e' !! r' = be_reqs e !! r') ∧
        ∃ q', be_reqs e' !! r = Some q' ∧ served sdpa inv w eos q q') never e6) as Hend.
  { intros q5 e6 Hr6 Hw6 Hf6 Hro6 Ho5 Hfr5. do 3 wp_step. cbn. split_and!; [done|done|by rw Hf6|by rw Hro6|..].
    - intros r' Hne. rw Hr6 lookup_insert_ne // Ho4 //= Hb1 /e1 /= lookup_alter_ne //.
    - exists q5. split; [by rw Hr6 lookup_insert_eq|]. exists (default LENGTH (finish_reason q4)). split_and!; try done.
      + destruct Hfr4 as [->| ->]; auto.
      + rw /output_len Ho5. subst n. change (params q1) with (params q) in Hln. lia.
      + rw Ho5. exact Hgen. }
  destruct (finish_reason q4) as [fr|] eqn:Hf4q.
  - wp_step. apply (Hend q4); [|congruence..|done|by rw Hf4q]. rw He1. symmetry. by apply insert_id.
  - rw /b_finish /b_now /b_upd. wp_step. rw {1}/wp. wp_step.
    apply (Hend (finish LENGTH (perf_counter (be_ticks e5)) q4)); cbn; try congruence.
    rw He1. by apply alter_at.
  Unshelve. done.
Qed.

(** A queue of distinct queueable requests is served in order, one step each. *)
Lemma b_run_loop_spec rs : ∀ e out,
  be_waiting e = rs → NoDup rs → Forall (λ r, ∃ q, be_reqs e !! r = Some q ∧ queueable q) rs → rot_ok inv (be_rotary e) →
  wp (b_run_loop sdpa w perf_counter eos use_cache (length rs) out)
     (λ res e', res = Some (out ++ rs) ∧ be_waiting e' = [] ∧ be_finished e' = be_finished e ++ rs ∧
        (∀ r, r ∉ rs → be_reqs e' !! r = be_reqs e !! r) ∧
        Forall (λ r, ∃ q q', be_reqs e !! r = Some q ∧ be_reqs e' !! r = Some q' ∧ served sdpa inv w eos q q') rs) never e.
Proof.
  induction rs as [|r rs IH]; intros e out Hwt Hnd Hqs Hr; cbn [b_run_loop length]; do 2 wp_step; rw /b_has_work Hwt.
  { wp_step. rw !app_nil_r. split_and!; try done. }
  apply NoDup_cons in Hnd as [Hnin Hnd]. apply Forall_cons in Hqs as [(q & Hq & Hqu) Hqs]. cbn [length]. wp_step.
  eapply wp_mono; [by apply (b_step_spec e r rs q)| |done].
  intros d e1 (-> & Hw1 & Hf1 & Hr1 & Ho1 & q1 & Hq1 & Hsv1).
  eapply wp_mono; [apply (IH e1 (out ++ [r])); [done|done| |done]| |done].
  { apply Forall_forall. intros r' Hin. rw Forall_forall in Hqs. destruct (Hqs _ Hin) as (q' & Hq' & Hu).
    exists q'. split; [|done]. rw Ho1 //. by intros ->. }
  intros res e2 (-> & Hw2 & Hf2 & Ho2 & Hall). rw -assoc in Hf2 |- *. split_and!; [done|done|by rw Hf2 Hf1 -assoc|..].
  - intros r' [Hne Hni]%not_elem_of_cons. rw Ho2 // Ho1 //.
  - constructor.
    + exists q, q1. split_and!; try done. by rw Ho2.
    + apply Forall_forall. intros r' Hin. rw Forall_forall in Hall. destruct (Hall _ Hin) as (q' & q2 & Hq' & Hq2 & Hs).
      exists q', q2. split_and!; try done. rw -Ho1 //. by intros ->.
Qed.
End run.

Definition b_init {R} `{Torch R} {St} (kv : St) (rotary : Rotary (R := R)) (reqs : gmap nat Request) : BEngine :=
  mkBEngine kv rotary [] [] 0 reqs 0 0.

Lemma b_add_all {R} `{Torch R} {St} rs : ∀ e : BEngine (R := R) (St := St),
  for_each rs b_add_request e = (Ok tt, set_be_queue (be_waiting e ++ rs) (be_finished e) e).
Proof.
  induction rs as [|r rs IH]; intros e; [cbn; rw app_nil_r; by destruct e|].
  transitivity (for_each rs b_add_request (set_be_queue (be_waiting e ++ [r]) (be_finished e) e)); [done|].
  rw IH. cbn. by rw -assoc.
Qed.

(** C14: the sequential engine without a block pool returns, and returns the reference.  On
    a fresh engine with a growing cache per request or none at all ([pool=None]; with a
    pool [prefill_leaks] shows otherwise), [run] over distinct well-formed
    requests needs exactly one [step] per request, raises nothing, returns them in the
    order they were queued, and leaves each finished by end-of-sequence or its token
    budget, never longer than the budget and, if greedy, with exactly the tokens
    uncached decoding gives. *)
Theorem baseline_exact {R} `{Torch R, TorchSampling R, !SamplerLaws R} sdpa attend inv (w : NanoForCausalLM (R := R))
    clock eos use_cache kv rotary reqs rs :
  model_ok sdpa attend w → rot_ok inv rotary → NoDup rs →
  Forall (λ r, ∃ q, reqs !! r = Some q ∧ queueable w q) rs →
  wp (b_run (St := DynamicCache.t (list (list R))) sdpa w clock eos use_cache (length rs) rs)
     (λ res e', res = Some rs ∧ be_waiting e' = [] ∧ be_finished e' = rs ∧
        Forall (λ r, ∃ q q', reqs !! r = Some q ∧ be_reqs e' !! r = Some q' ∧ served sdpa inv w eos q q') rs) never
     (b_init kv rotary reqs).
Proof.
  intros HM Hr Hnd Hqs. rw /b_run. wp_step. rw {1}/wp b_add_all.
  eapply wp_mono; [by eapply (b_run_loop_spec sdpa attend inv w HM clock eos use_cache rs)| |done].
  intros res e' (-> & Hw & Hf & _ & Hall). done.
Qed.

Definition toy_sequential {St} (kv : St) (budgets : list Z) : BEngine (R := Z) :=
  b_init kv (rotary_init [1%Z] 4) (toy_reqs budgets).

Lemma baseline_exact_witness :
  (b_run Toy.sdpa ToyEngine.weights ToyEngine.clock 99 true 2 [1; 0] (toy_sequential DynamicCache.init [4; 3]%Z)).1
    = Ok (Some [1; 0]) ∧
  wp (b_run Toy.sdpa ToyEngine.weights ToyEngine.clock 99 true 2 [1; 0])
     (λ res e', res = Some [1; 0] ∧ be_finished e' = [1; 0]) never (toy_sequential DynamicCache.init [4; 3]%Z).
Proof.
  split; [vm_compute; reflexivity|]. eapply wp_mono.
  - apply (baseline_exact Toy.sdpa Toy.attend [1%Z] ToyEngine.weights ToyEngine.clock 99 true
      DynamicCache.init (rotary_init [1%Z] 4) (toy_reqs [4; 3]%Z) [1; 0]).
    + apply toy_model_ok.
    + apply rotary_init_ok.
    + apply (bool_decide_unpack _). vm_compute. reflexivity.
    + repeat constructor; eexists; (split; [reflexivity|]).
      * destruct (toy_reqs_good [4; 3]%Z 1 _ eq_refl) as ([? ? ? ?] & ? & _). split; [split; auto|]. split; [done|cbn; lia].
      * destruct (toy_reqs_good [4; 3]%Z 0 _ eq_refl) as ([? ? ? ?] & ? & _). split; [split; auto|]. split; [done|cbn; lia].
  - intros res e' (? & _ & ? & _). done.
  - done.
Defined.

(** A prompt too long for the pool loses its request and its blocks.  With a pool
    of two blocks of two tokens, the prompt of five runs out of blocks in the first
    forward pass, which is outside the guarded region: [step] raises, the request is
    neither queued nor finished and has no finish reason, and both blocks stay
    allocated: the request behind it finds the pool full and goes back to the queue,
    with nothing left that could free a block. *)
Example prefill_leaks :
  let kv : PC (list (list Z)) := (ToyEngine.pool 2, PagedKVCache.init) in
  let st := b_step Toy.sdpa ToyEngine.weights ToyEngine.clock 99 true in
  let e0 := set_be_queue [0; 1] [] (toy_sequential kv [4; 3]%Z) in
  let e1 := (st e0).2 in
  (st e0).1 = Raise OutOfBlocks ∧ be_waiting e1 = [1] ∧ be_finished e1 = [] ∧
  (finish_reason <$> be_reqs e1 !! 0) = Some None ∧
  BlockAllocator.num_free (allocator (be_kv e1).1) = 0 ∧
  (st e1).1 = Ok [] ∧ be_waiting (st e1).2 = [1].
Proof. vm_compute. split_and!; reflexivity. Qed.
