(* ===== verification/Text.v ===== *)
(** * Text, bytes and patterns

    The parts of Python's [str], [bytes] and [re] the tokenizer rests on: a string
    is the list of its code points, a byte string the list of its values; the UTF-8
    codec with [errors="replace"]; and a backtracking matcher for the regular
    expressions the code compiles. *)

From Stdlib Require Import ssreflect.
From stdpp Require Import prelude gmap list.
From S2P Require Import Prelude.

(** ** UTF-8 *)

(** A code point that has an encoding: not a surrogate. *)
Definition scalar (c : Z) : bool :=
  ((0 <=? c) && (c <? 55296) || (57344 <=? c) && (c <? 1114112))%Z.

Definition utf8_char (c : Z) : list Z :=
  (if c <? 128 then [c]
   else if c <? 2048 then [192 + c / 64; 128 + c mod 64]
   else if c <? 65536 then [224 + c / 4096; 128 + (c / 64) mod 64; 128 + c mod 64]
   else [240 + c / 262144; 128 + (c / 4096) mod 64; 128 + (c / 64) mod 64; 128 + c mod 64])%Z.

(** [s.encode("utf-8")]; a lone surrogate raises [UnicodeEncodeError], a [ValueError]. *)
Definition utf8_encode (s : list Z) : result (list Z) :=
  if forallb scalar s then Ok (s ≫= utf8_char) else Raise ValueError.

Definition cont (b : Z) : bool := ((128 <=? b) && (b <? 192))%Z.

(** The second byte of a three- or four-byte form: no overlong forms, no surrogates,
    nothing beyond the last code point. *)
Definition second_ok (b0 b1 : Z) : bool :=
  (cont b1 && negb ((b0 =? 224) && (b1 <? 160)) && negb ((b0 =? 237) && (160 <=? b1))
   && negb ((b0 =? 240) && (b1 <? 144)) && negb ((b0 =? 244) && (144 <=? b1)))%Z.

Definition REPLACEMENT : Z := 65533.

(** [b.decode("utf-8", errors="replace")]: a maximal ill-formed prefix becomes one
    replacement character, and decoding resumes after it. *)
Fixpoint utf8_decode (bs : list Z) : list Z :=
  match bs with
  | [] => []
  | b0 :: r0 =>
      if (b0 <? 128)%Z then b0 :: utf8_decode r0
      else if (b0 <? 194)%Z then REPLACEMENT :: utf8_decode r0
      else if (b0 <? 224)%Z then
        match r0 with
        | [] => [REPLACEMENT]
        | b1 :: r1 =>
            if cont b1 then ((b0 - 192) * 64 + (b1 - 128))%Z :: utf8_decode r1
            else REPLACEMENT :: utf8_decode r0
        end
      else if (b0 <? 240)%Z then
        match r0 with
        | [] => [REPLACEMENT]
        | b1 :: r1 =>
            if second_ok b0 b1 then
              match r1 with
              | [] => [REPLACEMENT]
              | b2 :: r2 =>
                  if cont b2 then ((b0 - 224) * 4096 + (b1 - 128) * 64 + (b2 - 128))%Z :: utf8_decode r2
                  else REPLACEMENT :: utf8_decode r1
              end
            else REPLACEMENT :: utf8_decode r0
        end
      else if (b0 <? 245)%Z then
        match r0 with
        | [] => [REPLACEMENT]
        | b1 :: r1 =>
            if second_ok b0 b1 then
              match r1 with
              | [] => [REPLACEMENT]
              | b2 :: r2 =>
                  if cont b2 then
                    match r2 with
                    | [] => [REPLACEMENT]
                    | b3 :: r3 =>
                        if cont b3 then
                          ((b0 - 240) * 262144 + (b1 - 128) * 4096 + (b2 - 128) * 64 + (b3 - 128))%Z :: utf8_decode r3
                        else REPLACEMENT :: utf8_decode r2
                    end
                  else REPLACEMENT :: utf8_decode r1
              end
            else REPLACEMENT :: utf8_decode r0
        end
      else REPLACEMENT :: utf8_decode r0
  end.


#[local] Ltac Zify.zify_post_hook ::= Z.to_euclidean_division_equations.

Lemma utf8_decode_char c s : scalar c = true → utf8_decode (utf8_char c ++ s) = c :: utf8_decode s.
Proof.
  rw /scalar. intros Hc. unfold utf8_char.
  destruct (Z.ltb_spec c 128).
  { cbn [app utf8_decode]. destruct (Z.ltb_spec c 128); [done|lia]. }
  destruct (Z.ltb_spec c 2048).
  { cbn [app utf8_decode]. rw /cont.
    destruct (Z.ltb_spec (192 + c / 64) 128); [lia|]. destruct (Z.ltb_spec (192 + c / 64) 194); [lia|].
    destruct (Z.ltb_spec (192 + c / 64) 224); [|lia].
    destruct (Z.leb_spec 128 (128 + c mod 64)); [|lia]. destruct (Z.ltb_spec (128 + c mod 64) 192); [|lia].
    cbn [andb]. f_equal. lia. }
  destruct (Z.ltb_spec c 65536).
  { cbn [app utf8_decode].
    assert (second_ok (224 + c / 4096) (128 + (c / 64) mod 64) = true) as -> by (rw /second_ok /cont; lia).
    assert (cont (128 + c mod 64) = true) as -> by (rw /cont; lia).
    destruct (Z.ltb_spec (224 + c / 4096) 128); [lia|]. destruct (Z.ltb_spec (224 + c / 4096) 194); [lia|].
    destruct (Z.ltb_spec (224 + c / 4096) 224); [lia|]. destruct (Z.ltb_spec (224 + c / 4096) 240); [|lia].
    f_equal. lia. }
  cbn [app utf8_decode].
  assert (second_ok (240 + c / 262144) (128 + (c / 4096) mod 64) = true) as -> by (rw /second_ok /cont; lia).
  assert (cont (128 + c mod 64) = true) as -> by (rw /cont; lia).
  assert (cont (128 + (c / 64) mod 64) = true) as -> by (rw /cont; lia).
  destruct (Z.ltb_spec (240 + c / 262144) 128); [lia|]. destruct (Z.ltb_spec (240 + c / 262144) 194); [lia|].
  destruct (Z.ltb_spec (240 + c / 262144) 224); [lia|]. destruct (Z.ltb_spec (240 + c / 262144) 240); [lia|].
  destruct (Z.ltb_spec (240 + c / 262144) 245); [|lia]. f_equal. lia.
Qed.

Lemma utf8_encode_ok s : forallb scalar s = true → utf8_encode s = Ok (s ≫= utf8_char).
Proof. by rw /utf8_encode => ->. Qed.

Lemma utf8_roundtrip s : forallb scalar s = true → utf8_decode (s ≫= utf8_char) = s.
Proof.
  induction s as [|c s IH]; [done|]. cbn [forallb]. intros [Hc Hs]%andb_true_iff. cbn.
  rw utf8_decode_char //. f_equal. by apply IH.
Qed.

Lemma utf8_char_byte c : scalar c = true → Forall (λ b, (0 ≤ b < 256)%Z) (utf8_char c).
Proof.
  rw /scalar. intros Hc. unfold utf8_char.
  destruct (Z.ltb_spec c 128); [repeat constructor; lia|].
  destruct (Z.ltb_spec c 2048); [repeat constructor; lia|].
  destruct (Z.ltb_spec c 65536); repeat constructor; lia.
Qed.

Lemma utf8_bytes s : forallb scalar s = true → Forall (λ b, (0 ≤ b < 256)%Z) (s ≫= utf8_char).
Proof.
  induction s as [|c s IH]; [by constructor|]. cbn [forallb]. intros [Hc Hs]%andb_true_iff. cbn.
  apply Forall_app. split; [by apply utf8_char_byte|by apply IH].
Qed.

(** A byte string whose decoding does not end in a replacement character ends at a
    character boundary: what follows is decoded on its own. *)
Lemma utf8_decode_app b1 b2 :
  last (utf8_decode b1) ≠ Some REPLACEMENT → utf8_decode (b1 ++ b2) = utf8_decode b1 ++ utf8_decode b2.
Proof.
  remember (length b1) as n eqn:Hn. revert b1 Hn. induction (lt_wf n) as [n _ IH]. intros b1 -> Hlast.
  assert (∀ x r, length r < length b1 → last (x :: utf8_decode r) ≠ Some REPLACEMENT →
    x :: utf8_decode (r ++ b2) = (x :: utf8_decode r) ++ utf8_decode b2) as Hstep.
  { intros x r Hr Hl. cbn. f_equal. eapply IH; [exact Hr|done|]. by destruct (utf8_decode r). }
  destruct b1 as [|c0 r0]; [done|]. cbn [app utf8_decode] in Hlast |- *.
  destruct (c0 <? 128)%Z; [apply Hstep; [cbn; lia|done]|].
  destruct (c0 <? 194)%Z; [apply Hstep; [cbn; lia|done]|].
  destruct (c0 <? 224)%Z.
  { destruct r0 as [|c1 r1]; [done|]. cbn [app]. destruct (cont c1); apply (Hstep _ (_ :: _)) || apply Hstep; cbn; try lia; done. }
  destruct (c0 <? 240)%Z.
  { destruct r0 as [|c1 r1]; [done|]. cbn [app].
    destruct (second_ok c0 c1); [|apply (Hstep _ (c1 :: r1)); [cbn; lia|done]].
    destruct r1 as [|c2 r2]; [done|]. cbn [app].
    destruct (cont c2); [apply Hstep|apply (Hstep _ (c2 :: r2))]; cbn; try lia; done. }
  destruct (c0 <? 245)%Z; [|apply Hstep; [cbn; lia|done]].
  destruct r0 as [|c1 r1]; [done|]. cbn [app].
  destruct (second_ok c0 c1); [|apply (Hstep _ (c1 :: r1)); [cbn; lia|done]].
  destruct r1 as [|c2 r2]; [done|]. cbn [app].
  destruct (cont c2); [|apply (Hstep _ (c2 :: r2)); [cbn; lia|done]].
  destruct r2 as [|c3 r3]; [done|]. cbn [app].
  destruct (cont c3); [apply Hstep|apply (Hstep _ (c3 :: r3))]; cbn; try lia; done.
Qed.

(** ** Regular expressions *)

(** The constructs the compiled patterns use: character classes, greedy repetition
    of a class, an optional part, and a negative look-ahead at one class. *)
Inductive regex :=
  | Eps
  | Chr (p : Z → bool)
  | Plus (p : Z → bool)
  | Seq (r1 r2 : regex)
  | Alt (r1 r2 : regex)
  | Opt (r : regex)
  | NotAhead (p : Z → bool).

(** What is left after a greedy run of [p], longest run first. *)
Fixpoint plus_rests (p : Z → bool) (s : list Z) : list (list Z) :=
  match s with
  | [] => []
  | c :: s => if p c then plus_rests p s ++ [s] else []
  end.

(** Every way [r] matches a prefix of [s], by what is left, in the order a
    backtracking matcher tries them. *)
Fixpoint matches (r : regex) (s : list Z) : list (list Z) :=
  match r with
  | Eps => [s]
  | Chr p => match s with c :: s => if p c then [s] else [] | [] => [] end
  | Plus p => plus_rests p s
  | Seq r1 r2 => matches r1 s ≫= matches r2
  | Alt r1 r2 => matches r1 s ++ matches r2 s
  | Opt r => matches r s ++ [s]
  | NotAhead p => match s with c :: _ => if p c then [] else [s] | [] => [s] end
  end.

(** A literal, character by character. *)
Fixpoint Lit (l : list Z) : regex :=
  match l with [] => Eps | c :: l => Seq (Chr (Z.eqb c)) (Lit l) end.
Fixpoint alts (r : regex) (rs : list regex) : regex :=
  match rs with [] => r | r' :: rs => Alt r (alts r' rs) end.

(** The leftmost match at this very position: the text matched and what follows. *)
Definition match_at (r : regex) (s : list Z) : option (list Z * list Z) :=
  match matches r s with
  | [] => None
  | rest :: _ => Some (take (length s - length rest) s, rest)
  end.

(** [findall], for a pattern that never matches the empty string: scan from the left,
    step over a character no match starts at. *)
Fixpoint findall_from (fuel : nat) (r : regex) (s : list Z) : list (list Z) :=
  match fuel, s with
  | S fuel, c :: s' =>
      match match_at r s with
      | Some (piece, rest) => piece :: findall_from fuel r rest
      | None => findall_from fuel r s'
      end
  | _, _ => []
  end.
Definition findall (r : regex) (s : list Z) : list (list Z) := findall_from (length s) r s.

(** [split], for such a pattern inside one capturing group: the text between the
    matches and the matches, alternating. *)
Fixpoint split_from (fuel : nat) (r : regex) (acc s : list Z) : list (list Z) :=
  match fuel, s with
  | S fuel, c :: s' =>
      match match_at r s with
      | Some (piece, rest) => acc :: piece :: split_from fuel r [] rest
      | None => split_from fuel r (acc ++ [c]) s'
      end
  | _, _ => [acc]
  end.
Definition re_split (r : regex) (s : list Z) : list (list Z) := split_from (length s) r [] s.

(** ** Stripping and splitting *)

(** [s.lstrip()], [s.rstrip()] and [s.strip()], of the characters in a class. *)
Fixpoint lstrip (p : Z → bool) (s : list Z) : list Z :=
  match s with c :: s' => if p c then lstrip p s' else s | [] => [] end.
Definition rstrip (p : Z → bool) (s : list Z) : list Z := rev (lstrip p (rev s)).
Definition strip (p : Z → bool) (s : list Z) : list Z := rstrip p (lstrip p s).

(** [s.split(sep)]: at the occurrences of [sep] that do not overlap, from the left.
    [skip] characters still belong to the separator last found; [acc] is the part read
    so far. *)
Fixpoint str_split_from (sep : list Z) (skip : nat) (acc s : list Z) : list (list Z) :=
  match s with
  | [] => [acc]
  | c :: s' =>
      match skip with
      | S skip => str_split_from sep skip acc s'
      | O => if bool_decide (sep `prefix_of` s) then acc :: str_split_from sep (pred (length sep)) [] s'
             else str_split_from sep 0 (acc ++ [c]) s'
      end
  end.
Definition str_split (sep s : list Z) : list (list Z) := str_split_from sep 0 [] s.

(** A pattern that consumes at least one character, and only characters in [ok]. *)
Fixpoint eats (r : regex) : bool :=
  match r with
  | Eps | Opt _ | NotAhead _ => false
  | Chr _ | Plus _ => true
  | Seq r1 r2 => eats r1 || eats r2
  | Alt r1 r2 => eats r1 && eats r2
  end.
Fixpoint classes (r : regex) : list (Z → bool) :=
  match r with
  | Eps | NotAhead _ => []
  | Chr p | Plus p => [p]
  | Seq r1 r2 | Alt r1 r2 => classes r1 ++ classes r2
  | Opt r => classes r
  end.

Lemma plus_rests_elem p s rest :
  rest ∈ plus_rests p s → ∃ piece, s = piece ++ rest ∧ piece ≠ [] ∧ Forall (λ c, p c = true) piece.
Proof.
  revert rest. induction s as [|c s IH]; intros rest; cbn; [by intros ?%not_elem_of_nil|].
  destruct (p c) eqn:Hp; [|by intros ?%not_elem_of_nil].
  intros [Hin|Heq%list_elem_of_singleton]%elem_of_app.
  - destruct (IH _ Hin) as (piece & -> & _ & Hall). exists (c :: piece). split_and!; try done. by constructor.
  - subst rest. exists [c]. split_and!; try done. by repeat constructor.
Qed.

(** Matching splits the text; what is consumed comes from the pattern's classes. *)
Lemma matches_elem (ok : Z → Prop) r : (∀ p c, p ∈ classes r → p c = true → ok c) → ∀ s rest,
  rest ∈ matches r s → ∃ piece, s = piece ++ rest ∧ Forall ok piece ∧ (eats r = true → piece ≠ []).
Proof.
  induction r as [|p|p|r1 IH1 r2 IH2|r1 IH1 r2 IH2|r IH|p]; intros Hok s rest Hin; cbn in Hin |- *.
  - apply list_elem_of_singleton in Hin as ->. by exists [].
  - destruct s as [|c s]; [by apply not_elem_of_nil in Hin|]. destruct (p c) eqn:Hp; [|by apply not_elem_of_nil in Hin].
    apply list_elem_of_singleton in Hin as ->. exists [c]. split_and!; try done. repeat constructor.
    eapply Hok; [by left|done].
  - apply plus_rests_elem in Hin as (piece & -> & Hne & Hall). exists piece. split_and!; try done.
    eapply Forall_impl; [exact Hall|]. intros c Hc. eapply Hok; [by left|done].
  - apply list_elem_of_bind in Hin as (mid & Hr2 & Hr1).
    apply IH1 in Hr1 as (p1 & -> & Ho1 & He1); [|intros p c Hp; apply Hok; cbn; set_solver].
    apply IH2 in Hr2 as (p2 & -> & Ho2 & He2); [|intros p c Hp; apply Hok; cbn; set_solver].
    exists (p1 ++ p2). split_and!; [by rw assoc|by apply Forall_app|].
    intros [He|He]%orb_true_iff Hnil; apply app_nil in Hnil as [-> ->]; naive_solver.
  - rw elem_of_app in Hin. destruct Hin as [Hin|Hin].
    + apply IH1 in Hin as (piece & -> & Ho & He); [|intros p c Hp; apply Hok; cbn; set_solver].
      exists piece. split_and!; try done. intros [??]%andb_true_iff. auto.
    + apply IH2 in Hin as (piece & -> & Ho & He); [|intros p c Hp; apply Hok; cbn; set_solver].
      exists piece. split_and!; try done. intros [??]%andb_true_iff. auto.
  - rw elem_of_app in Hin. destruct Hin as [Hin|Heq%list_elem_of_singleton].
    + apply IH in Hin as (piece & -> & Ho & He); [|intros p c Hp; apply Hok; cbn; set_solver]. by exists piece.
    + subst rest. by exists [].
  - exists []. split_and!; try done. destruct s as [|c s]; cbn in Hin; [by apply list_elem_of_singleton in Hin as ->|].
    destruct (p c); [by apply not_elem_of_nil in Hin|by apply list_elem_of_singleton in Hin as ->].
Qed.

Lemma match_at_Some (ok : Z → Prop) r s piece rest :
  (∀ p c, p ∈ classes r → p c = true → ok c) →
  match_at r s = Some (piece, rest) → s = piece ++ rest ∧ Forall ok piece ∧ (eats r = true → piece ≠ []).
Proof.
  intros Hok. rw /match_at. destruct (matches r s) as [|rest' l] eqn:Hm; [done|]. intros [= <- ->].
  destruct (matches_elem ok r Hok s rest) as (piece & -> & Ho & He); [rw Hm; by left|].
  assert (take (length (piece ++ rest) - length rest) (piece ++ rest) = piece) as ->; [|done].
  rw length_app Nat.add_sub take_app_length //.
Qed.

(** A character some class accepts on its own starts a match. *)
Lemma matches_alt_l r1 r2 s : matches r1 s ≠ [] → matches (Alt r1 r2) s ≠ [].
Proof. cbn. intros H [? ?]%app_nil. done. Qed.
Lemma matches_alt_r r1 r2 s : matches r2 s ≠ [] → matches (Alt r1 r2) s ≠ [].
Proof. cbn. intros H [? ?]%app_nil. done. Qed.
Lemma matches_plus p c s : p c = true → matches (Plus p) (c :: s) ≠ [].
Proof. cbn. intros ->. by intros [_ ?]%app_nil. Qed.
Lemma matches_opt_seq r p c s : p c = true → matches (Seq (Opt r) (Plus p)) (c :: s) ≠ [].
Proof.
  cbn. intros Hp. rw bind_app. intros [_ H]%app_nil. cbn in H. rw Hp app_nil_r in H. by apply app_nil in H as [_ ?].
Qed.

(** Scanning partitions the text into the pieces found and the characters skipped,
    where [skips] decides which characters no match starts at. *)
Lemma findall_concat r (skip : Z → bool) :
  eats r = true →
  (∀ p c, p ∈ classes r → p c = true → skip c = false) →
  (∀ c s, skip c = false → matches r (c :: s) ≠ []) → ∀ n s,
  length s ≤ n → concat (findall_from n r s) = filter (λ c, skip c = false) s ∧ Forall (.≠ []) (findall_from n r s).
Proof.
  intros He Hcl Hstart n. induction n as [|n IH]; intros s Hs; [destruct s; [by split|cbn in Hs; lia]|].
  destruct s as [|c s]; [by split|]. cbn [findall_from].
  destruct (match_at r (c :: s)) as [[piece rest]|] eqn:Hm.
  - apply (match_at_Some (λ c, skip c = false)) in Hm as (Heq & Hok & Hne); [|done]. specialize (Hne He).
    destruct (IH rest) as [IHc IHn].
    { apply (f_equal length) in Heq. rw length_app in Heq. destruct piece; [done|]. cbn in Heq, Hs. lia. }
    split; [|by constructor]. cbn [concat]. rw Heq filter_app IHc. f_equal. symmetry. apply list_filter_id.
    intros x Hx. rw Forall_forall in Hok. by apply Hok.
  - assert (skip c = true) as Hsk.
    { destruct (skip c) eqn:Hc; [done|]. exfalso. apply (Hstart c s Hc). rw /match_at in Hm. by destruct (matches r (c :: s)). }
    rw filter_cons decide_False; [|congruence]. apply IH. cbn in Hs. lia.
Qed.

Lemma split_concat r : eats r = true → ∀ n acc s, length s ≤ n → concat (split_from n r acc s) = acc ++ s.
Proof.
  intros He n. induction n as [|n IH]; intros acc s Hs.
  { destruct s; [cbn; by rw !app_nil_r|cbn in Hs; lia]. }
  destruct s as [|c s]; [cbn; by rw !app_nil_r|]. cbn [split_from].
  destruct (match_at r (c :: s)) as [[piece rest]|] eqn:Hm.
  - apply (match_at_Some (λ _, True)) in Hm as (Heq & _ & Hne); [|done]. specialize (Hne He). cbn [concat].
    rw IH ?Heq //. apply (f_equal length) in Heq. rw length_app in Heq. destruct piece; [done|]. cbn in Heq, Hs. lia.
  - rw IH -?assoc //. cbn in Hs. lia.
Qed.

(** ** Splitting a text that arrives in pieces *)

Section split.
Context (sep : list Z) (Hsep : sep ≠ []).

(** No occurrence of the separator starts in [u] when [v] follows. *)
Definition clear_of (u v : list Z) : Prop :=
  ∀ a b, u = a ++ b → b ≠ [] → ¬ sep `prefix_of` b ++ v.

Lemma split_skip acc u s : ∀ n, n = length u → str_split_from sep n acc (u ++ s) = str_split_from sep 0 acc s.
Proof. induction u as [|c u IH]; intros n ->; [done|]. cbn. by apply IH. Qed.

Lemma split_clear acc u v : clear_of u v → str_split_from sep 0 acc (u ++ v) = str_split_from sep 0 (acc ++ u) v.
Proof.
  revert acc. induction u as [|c u IH]; intros acc Hc; [by rw app_nil_r|].
  cbn [app str_split_from]. rw bool_decide_false; [|by apply (Hc [] (c :: u))].
  rw IH -?assoc //. intros a b -> Hb. by apply (Hc (c :: a) b).
Qed.

Lemma split_found acc s : str_split_from sep 0 acc (sep ++ s) = acc :: str_split_from sep 0 [] s.
Proof.
  destruct sep as [|c sep'] eqn:Hs; [done|]. cbn [app str_split_from]. rw -Hs bool_decide_true.
  2: { rw Hs. by exists s. }
  f_equal. rw split_skip //. by rw Hs.
Qed.

(** The first occurrence, if there is one. *)
Lemma first_occurrence s : clear_of s [] ∨ ∃ u v, s = u ++ sep ++ v ∧ clear_of u (sep ++ v).
Proof.
  induction s as [|c s IH].
  { left. intros a b Hab Hb. destruct a, b; done. }
  destruct (decide (sep `prefix_of` c :: s)) as [[v Hv]|Hn].
  { right. exists [], v. split; [done|]. intros a b Hab Hb. destruct a, b; done. }
  destruct IH as [Hc|(u & v & -> & Hc)].
  - left. intros [|c' a] b Hab Hb; cbn in Hab; simplify_eq; [by rw app_nil_r|]. by apply (Hc a b).
  - right. exists (c :: u), v. split; [done|]. intros [|c' a] b Hab Hb; cbn in Hab; simplify_eq; [done|]. by apply (Hc a b).
Qed.

(** The parts before the first occurrence in [s] stay free of separators whatever follows. *)
Lemma clear_extend u v w : clear_of u (sep ++ v) → clear_of u (sep ++ v ++ w).
Proof.
  intros Hc a b Hab Hb Hp. apply (Hc a b Hab Hb). destruct Hp as [k Hk]. assert (sep = take (length sep) (b ++ sep)) as Ht.
  { rw -(take_app_le (b ++ sep) (v ++ w)); [|rw length_app; lia]. by rw -!app_assoc Hk take_app_length. }
  exists (drop (length sep) (b ++ sep) ++ v).
  by rw app_assoc -{1}(take_drop (length sep) (b ++ sep)) -Ht app_assoc.
Qed.

(** Splitting what is read so far, keeping the last part back and putting it in front
    of what is read next splits the whole: wherever the text was cut. *)
Lemma split_app s t :
  str_split sep (s ++ t) =
    take (pred (length (str_split sep s))) (str_split sep s) ++ str_split sep (default [] (last (str_split sep s)) ++ t).
Proof.
  rw /str_split. remember (length s) as n eqn:Hn. revert s Hn.
  induction (lt_wf n) as [n _ IH]; intros s ->. destruct (first_occurrence s) as [Hc|(u & v & -> & Hc)].
  - pose proof (split_clear [] s [] Hc) as Hs. rw app_nil_r in Hs. by rw Hs.
  - rw -!app_assoc (split_clear [] u (sep ++ v ++ t)); [|by apply clear_extend].
    rw (split_clear [] u (sep ++ v) Hc). cbn [app]. rw !split_found.
    rw (IH (length v)) //; [|rw !length_app; destruct sep; cbn; [done|lia]].
    cbn [length pred last]. destruct (str_split_from sep 0 [] v) as [|p ps] eqn:Hv.
    + exfalso. destruct (first_occurrence v) as [Hcv|(u' & v' & -> & Hcv)].
      * pose proof (split_clear [] v [] Hcv) as Hs. rw app_nil_r Hv in Hs. done.
      * rw split_clear // split_found in Hv. done.
    + done.
Qed.
End split.
