(* ===== verification/Tokenizer.v ===== *)
(** * The tokenizer (model/tokenizer.py)

    Byte-level BPE: the pre-tokenizing pattern, merges and the tables derived from
    them, training with incrementally maintained pair counts, encoding with its memo
    table, decoding, and the saved form.  The properties: decoding gives back the
    text; encoding a pre-token replays the merges in the order they were learned;
    training computes what recounting every pair before every merge would. *)

From Stdlib Require Import ssreflect.
From stdpp Require Import prelude gmap list sorting.
From S2P Require Import Prelude Text.

(** ** Pre-tokens *)

(** The character classes of Python's [re] on [str]: the Unicode tables behind
    [\w], [\d] and [\s], and what the pattern relies on. *)
Class Unicode := {
  is_word : Z → bool;
  is_digit : Z → bool;
  is_space : Z → bool;
}.
Class UnicodeLaws `{Unicode} := {
  digit_word c : is_digit c = true → is_word c = true;
  space_word c : is_space c = true → is_word c = false;
  underscore_word : is_word 95 = true;
  underscore_digit : is_digit 95 = false;
}.

(** The ASCII part of the tables. *)
#[export] Instance ascii_unicode : Unicode := {|
  is_word c := ((48 <=? c) && (c <=? 57) || (65 <=? c) && (c <=? 90) || (97 <=? c) && (c <=? 122) || (c =? 95))%Z;
  is_digit c := ((48 <=? c) && (c <=? 57))%Z;
  is_space c := ((9 <=? c) && (c <=? 13) || (28 <=? c) && (c <=? 32))%Z;
|}.
#[export] Instance ascii_laws : UnicodeLaws.
Proof. split; cbn; intros; try done; lia. Qed.

(** [END_OF_TEXT = "<|endoftext|>"]. *)
Definition END_OF_TEXT : list Z := [60; 124; 101; 110; 100; 111; 102; 116; 101; 120; 116; 124; 62]%Z.
Definition BYTE_VOCAB_SIZE : Z := 256.

Section pattern.
Context `{Unicode}.

Definition SPACE : Z → bool := Z.eqb 32.
Definition letter (c : Z) : bool := is_word c && negb (is_digit c) && negb (c =? 95)%Z.   (* [^\W\d_] *)
Definition symbol (c : Z) : bool := negb (is_space c) && negb (is_word c).                (* [^\s\w] *)

Definition SPLIT_PATTERN : regex :=
  alts
    (* 's 'd 'm 't 'll 've 're *)
    (Seq (Chr (Z.eqb 39)) (alts (Chr (λ c, bool_decide (c ∈ [115; 100; 109; 116]%Z)))
       [Lit [108; 108]%Z; Lit [118; 101]%Z; Lit [114; 101]%Z]))
    [Seq (Opt (Chr SPACE)) (Plus letter);
     Seq (Opt (Chr SPACE)) (Plus is_digit);
     Seq (Opt (Chr SPACE)) (Plus symbol);
     Seq (Plus is_space) (NotAhead (λ c, negb (is_space c)));
     Plus is_space].
End pattern.

(** ** Merges *)

(** [zip(ids, ids[1:])]. *)
Definition pairs (ids : list Z) : list (Z * Z) := zip ids (drop 1 ids).

(** [_apply_merge]: every non-overlapping occurrence of the pair, left to right. *)
Fixpoint _apply_merge (p : Z * Z) (new_id : Z) (ids : list Z) : list Z :=
  match ids with
  | x :: ((y :: rest) as tl) =>
      if (x =? p.1)%Z && (y =? p.2)%Z then new_id :: _apply_merge p new_id rest
      else x :: _apply_merge p new_id tl
  | _ => ids
  end.

(** The merges in insertion order, which is their rank. *)
Definition Merges : Type := list ((Z * Z) * Z).

Record BPETokenizer := mkTok {
  merges : Merges;
  special_tokens : list (list Z * Z);
  vocab : gmap Z (list Z);
  id_to_special : gmap Z (list Z);
  ranks : gmap (Z * Z) nat;
  _cache : gmap (list Z) (list Z);
  _special_re : option regex;
}.

Definition set_cache (m : gmap (list Z) (list Z)) (t : BPETokenizer) : BPETokenizer :=
  mkTok (merges t) (special_tokens t) (vocab t) (id_to_special t) (ranks t) m (_special_re t).

Definition byte_vocab : gmap Z (list Z) := list_to_map ((λ i, (Z.of_nat i, [Z.of_nat i])) <$> seq 0 256).

(** [self.vocab[new_id] = self.vocab[a] + self.vocab[b]], merge by merge. *)
Fixpoint add_merges (ms : Merges) (v : gmap Z (list Z)) : result (gmap Z (list Z)) :=
  match ms with
  | [] => Ok v
  | ((a, b), new_id) :: ms =>
      match v !! a, v !! b with
      | Some x, Some y => add_merges ms (<[new_id := x ++ y]> v)
      | _, _ => Raise KeyError
      end
  end.

Fixpoint add_specials (sp : list (list Z * Z)) (v : gmap Z (list Z)) : result (gmap Z (list Z)) :=
  match sp with
  | [] => Ok v
  | (text, tid) :: sp =>
      match utf8_encode text with
      | Ok b => add_specials sp (<[tid := b]> v)
      | Raise e => Raise e
      end
  end.

(** The constructor, [_rebuild] included. *)
Definition new_tokenizer (ms : Merges) (sp : list (list Z * Z)) : result BPETokenizer :=
  match add_merges ms byte_vocab with
  | Raise e => Raise e
  | Ok v =>
      match add_specials sp v with
      | Raise e => Raise e
      | Ok v =>
          Ok (mkTok ms sp v
            (foldl (λ m s, <[s.2 := s.1]> m) ∅ sp)
            (list_to_map (imap (λ i m, (m.1, i)) ms))
            ∅
            (match sp with [] => None | s :: sp' => Some (alts (Lit s.1) (Lit ∘ fst <$> sp')) end))
      end
  end.

Definition vocab_size (t : BPETokenizer) : nat := size (vocab t).
Definition eos_id (t : BPETokenizer) : result Z :=
  match dget END_OF_TEXT (special_tokens t) with Some i => Ok i | None => Raise KeyError end.

(** ** Encoding *)

(** The scan for the applicable merge of lowest rank. *)
Fixpoint best_rank (rk : gmap (Z * Z) nat) (ps : list (Z * Z)) (best : option ((Z * Z) * nat)) : option ((Z * Z) * nat) :=
  match ps with
  | [] => best
  | p :: ps =>
      let best :=
        match rk !! p with
        | Some rank =>
            match best with
            | Some (_, r) => if rank <? r then Some (p, rank) else best
            | None => Some (p, rank)
            end
        | None => best
        end in
      best_rank rk ps best
  end.

(** [while len(ids) > 1]; every round but the last shortens [ids]. *)
Fixpoint merge_loop (fuel : nat) (t : BPETokenizer) (ids : list Z) : result (list Z) :=
  match fuel with
  | O => Ok ids
  | S fuel =>
      if 1 <? length ids then
        match best_rank (ranks t) (pairs ids) None with
        | None => Ok ids
        | Some (p, _) =>
            match dget p (merges t) with
            | Some new_id => merge_loop fuel t (_apply_merge p new_id ids)
            | None => Raise KeyError
            end
        end
      else Ok ids
  end.

Definition lift_result {S A} (r : result A) : M S A := λ s, (r, s).

Definition _encode_piece (piece : list Z) : M BPETokenizer (list Z) :=
  let* t := get in
  match _cache t !! piece with
  | Some ids => ret ids
  | None =>
      let* ids := lift_result (merge_loop (length piece) t piece) in
      do* modify (λ t, set_cache (<[piece := ids]> (_cache t)) t) in
      ret ids
  end.

Section encode.
Context `{Unicode}.

Definition _encode_ordinary (text : list Z) : M BPETokenizer (list Z) :=
  let* out := for_list (findall SPLIT_PATTERN text) (λ piece,
    let* b := lift_result (utf8_encode piece) in _encode_piece b) in
  ret (concat out).

Definition encode (text : list Z) (allowed_special : bool) : M BPETokenizer (list Z) :=
  let* t := get in
  match (if allowed_special then _special_re t else None) with
  | None => _encode_ordinary text
  | Some re =>
      let* out := for_list (re_split re text) (λ chunk,
        match chunk with
        | [] => ret []
        | _ =>
            let* t := get in
            match dget chunk (special_tokens t) with
            | Some tid => ret [tid]
            | None => _encode_ordinary chunk
            end
        end) in
      ret (concat out)
  end.
End encode.

(** [decode]: the bytes are joined before they are decoded. *)
Definition id_bytes (t : BPETokenizer) (ids : list Z) : result (list Z) :=
  match mapM (λ i, vocab t !! i) ids with Some bs => Ok (concat bs) | None => Raise KeyError end.
Definition decode (t : BPETokenizer) (ids : list Z) : result (list Z) :=
  match id_bytes t ids with Ok b => Ok (utf8_decode b) | Raise e => Raise e end.

(** ** Training *)

(** [counts[piece.encode("utf-8")] += 1], for every pre-token of every text; words
    stay in the order they were first seen. *)
Definition count_piece (counts : list (list Z * Z)) (piece : list Z) : list (list Z * Z) :=
  dset piece (default 0 (dget piece counts) + 1)%Z counts.

Definition count_corpus `{Unicode} (corpus : list (list Z)) : result (list (list Z * Z)) :=
  foldl (λ acc piece,
    match acc, utf8_encode piece with
    | Ok counts, Ok b => Ok (count_piece counts b)
    | Raise e, _ => Raise e
    | _, Raise e => Raise e
    end) (Ok []) (corpus ≫= findall SPLIT_PATTERN).

(** The training state: [words], [pair_counts], [where]. *)
Record Trainer := mkTrainer {
  t_words : list (list Z);
  pair_counts : gmap (Z * Z) Z;
  t_where : gmap (Z * Z) (gset nat);
}.

Definition where_at (wh : gmap (Z * Z) (gset nat)) (p : Z * Z) : gset nat := default ∅ (wh !! p).

(** One pair of a word retracted, and one added. *)
Definition retract (wi : nat) (f : Z) (s : gmap (Z * Z) Z * gmap (Z * Z) (gset nat)) (p : Z * Z) :=
  let c := (default 0 (s.1 !! p) - f)%Z in
  (if (c <=? 0)%Z then delete p s.1 else <[p := c]> s.1,
   <[p := where_at s.2 p ∖ {[wi]}]> s.2).
Definition readd (wi : nat) (f : Z) (s : gmap (Z * Z) Z * gmap (Z * Z) (gset nat)) (p : Z * Z) :=
  (<[p := default 0 (s.1 !! p) + f]> s.1, <[p := where_at s.2 p ∪ {[wi]}]> s.2)%Z.

(** [max(pair_counts, key=lambda p: (pair_counts[p], p))]. *)
Definition pair_lt (p q : Z * Z) : bool := ((p.1 <? q.1) || (p.1 =? q.1) && (p.2 <? q.2))%Z.
Definition key_lt (a b : (Z * Z) * Z) : bool := ((a.2 <? b.2) || (a.2 =? b.2) && pair_lt a.1 b.1)%Z.
Definition max_pair (l : list ((Z * Z) * Z)) : option ((Z * Z) * Z) :=
  match l with [] => None | x :: l => Some (foldl (λ b y, if key_lt b y then y else b) x l) end.

Section train.
Context (freqs : list Z).
(** The order in which iterating over a set of word indices yields them. *)
Context (set_order : gset nat → list nat).

(** The loop body for one affected word: retract, rewrite, add back. *)
Definition rewrite_word (best : Z * Z) (next_id : Z) (tr : Trainer) (wi : nat) : Trainer :=
  match t_words tr !! wi, freqs !! wi with
  | Some word, Some f =>
      let s := foldl (retract wi f) (pair_counts tr, t_where tr) (pairs word) in
      let new_word := _apply_merge best next_id word in
      let s := foldl (readd wi f) s (pairs new_word) in
      mkTrainer (<[wi := new_word]> (t_words tr)) s.1 s.2
  | _, _ => tr
  end.

Definition merge_step (best : Z * Z) (next_id : Z) (tr : Trainer) : Trainer :=
  let tr := foldl (rewrite_word best next_id) tr (set_order (where_at (t_where tr) best)) in
  mkTrainer (t_words tr) (pair_counts tr) (delete best (t_where tr)).

(** [for step in range(n_merges)]. *)
Fixpoint train_loop (n : nat) (min_frequency next_id : Z) (ms : Merges) (tr : Trainer) : Merges * Z * Trainer :=
  match n with
  | O => (ms, next_id, tr)
  | S n =>
      match max_pair (map_to_list (pair_counts tr)) with
      | None => (ms, next_id, tr)
      | Some (best, c) =>
          if (c <? min_frequency)%Z then (ms, next_id, tr)
          else train_loop n min_frequency (next_id + 1) (dset best next_id ms) (merge_step best next_id tr)
      end
  end.

(** The initial index: word by word, pair by pair. *)
Definition index_words (words : list (list Z)) : Trainer :=
  let s := foldl (λ s wf, foldl (readd wf.1 wf.2.2) s (pairs wf.2.1)) (∅, ∅)
    (imap (λ i wf, (i, wf)) (zip words freqs)) in
  mkTrainer words s.1 s.2.
End train.

Definition train `{Unicode} (set_order : gset nat → list nat)
    (corpus : list (list Z)) (vocab_size : Z) (specials : list (list Z)) (min_frequency : Z) : result BPETokenizer :=
  let n_merges := (vocab_size - BYTE_VOCAB_SIZE - Z.of_nat (length specials))%Z in
  if (n_merges <? 0)%Z then Raise ValueError
  else
    match count_corpus corpus with
    | Raise e => Raise e
    | Ok counts =>
        match train_loop counts.*2 set_order (Z.to_nat n_merges) min_frequency BYTE_VOCAB_SIZE []
                (index_words counts.*2 counts.*1) with
        | (ms, next_id, _) =>
            new_tokenizer ms (foldl (λ d it, dset it.2 (next_id + Z.of_nat it.1)%Z d) [] (imap pair specials))
        end
    end.

(** ** The saved form *)

(** What [save] hands to [json.dumps] and [load] gets from [json.loads]. *)
Record Payload := mkPayload {
  version : Z;
  pl_vocab_size : nat;
  pl_special_tokens : list (list Z * Z);
  pl_merges : list (list Z);
}.

Section persistence.
(** The serializer, between payloads and file contents. *)
Context {File : Type} (dumps : Payload → File) (loads : File → result Payload).

Definition save (t : BPETokenizer) : File :=
  dumps (mkPayload 1 (vocab_size t) (special_tokens t) ((λ m, [m.1.1; m.1.2; m.2]) <$> merges t)).

Definition load (f : File) : result BPETokenizer :=
  match loads f with
  | Raise e => Raise e
  | Ok p =>
      if (version p =? 1)%Z then
        match mapM (λ m, match m with [a; b; i] => Some ((a, b), i) | _ => None end) (pl_merges p) with
        | Some ms => new_tokenizer (foldl (λ d m, dset m.1 m.2 d) [] ms) (pl_special_tokens p)
        | None => Raise ValueError
        end
      else Raise ValueError
  end.
End persistence.

(** * Proofs *)

(** ** The pattern loses underscores and nothing else *)

Section pattern_facts.
Context `{UnicodeLaws}.

Definition underscore (c : Z) : bool := (c =? 95)%Z.

Lemma split_eats : eats SPLIT_PATTERN = true.
Proof. done. Qed.

Lemma split_classes p c : p ∈ classes SPLIT_PATTERN → p c = true → underscore c = false.
Proof.
  intros Hp Hc. rw /underscore. apply Z.eqb_neq. intros ->.
  cbn in Hp. repeat (apply elem_of_cons in Hp as [->|Hp]); [..|by apply not_elem_of_nil in Hp]; try done.
  - rw /letter /= andb_false_r in Hc. done.
  - by rw underscore_digit in Hc.
  - by rw /symbol underscore_word /= andb_false_r in Hc.
  - apply space_word in Hc. by rw underscore_word in Hc.
  - apply space_word in Hc. by rw underscore_word in Hc.
Qed.

Lemma split_starts c s : underscore c = false → matches SPLIT_PATTERN (c :: s) ≠ [].
Proof.
  rw /underscore. intros Hu. rw /SPLIT_PATTERN. cbn [alts]. apply matches_alt_r.
  destruct (letter c) eqn:Hl; [by apply matches_alt_l, matches_opt_seq|]. apply matches_alt_r.
  destruct (is_digit c) eqn:Hd; [by apply matches_alt_l, matches_opt_seq|]. apply matches_alt_r.
  destruct (symbol c) eqn:Hs; [by apply matches_alt_l, matches_opt_seq|]. do 2 apply matches_alt_r.
  apply matches_plus. rw /letter Hd Hu /= !andb_true_r in Hl. rw /symbol Hl /= andb_true_r in Hs.
  by destruct (is_space c).
Qed.

Lemma findall_split text :
  concat (findall SPLIT_PATTERN text) = filter (λ c, underscore c = false) text ∧
  Forall (.≠ []) (findall SPLIT_PATTERN text).
Proof.
  apply findall_concat; [apply split_eats|apply split_classes|apply split_starts|done].
Qed.
End pattern_facts.

(** ** Applying a merge *)

Lemma list_ind2 {A} (P : list A → Prop) :
  P [] → (∀ x, P [x]) → (∀ x y l, P l → P (y :: l) → P (x :: y :: l)) → ∀ l, P l.
Proof.
  intros H0 H1 H2 l. enough (P l ∧ ∀ x, P (x :: l)) by tauto.
  induction l as [|y l [IH1 IH2]]; [by split|]. split; [done|]. intros x. auto.
Qed.

Lemma pairs_cons2 x y l : pairs (x :: y :: l) = (x, y) :: pairs (y :: l).
Proof. done. Qed.

Section merge.
Context (p : Z * Z) (new_id : Z).
#[local] Abbreviation merge := (_apply_merge p new_id).

Lemma merge_cons2 x y l :
  merge (x :: y :: l) = if decide ((x, y) = p) then new_id :: merge l else x :: merge (y :: l).
Proof.
  change (merge (x :: y :: l)) with
    (if (x =? p.1)%Z && (y =? p.2)%Z then new_id :: merge l else x :: merge (y :: l)).
  destruct p as [a b]. cbn. case_decide as Hd.
  - injection Hd as -> ->. by rw !Z.eqb_refl.
  - destruct (Z.eqb_spec x a), (Z.eqb_spec y b); cbn; try done. by subst.
Qed.

Lemma merge_head x l : ∃ y l', merge (x :: l) = y :: l' ∧ (y = new_id ∨ y = x).
Proof.
  destruct l as [|y l]; [by eexists _, _; split; [done|right]|]. rw merge_cons2.
  case_decide; eexists _, _; (split; [done|]); auto.
Qed.

Lemma merge_length l : length (merge l) ≤ length l ∧ (p ∈ pairs l → length (merge l) < length l).
Proof.
  induction l as [|x|x y l [IH1 IH1'] [IH2 IH2']] using list_ind2; cbn [length].
  - split; [done|]. by intros ?%not_elem_of_nil.
  - split; [done|]. by intros ?%not_elem_of_nil.
  - rw merge_cons2. case_decide as Hd; cbn [length] in *; [lia|]. split; [lia|].
    rw pairs_cons2. intros [->|Hin]%elem_of_cons; [done|]. specialize (IH2' Hin). lia.
Qed.

Lemma merge_id l : p ∉ pairs l → merge l = l.
Proof.
  induction l as [|x|x y l _ IH] using list_ind2; try done.
  rw pairs_cons2 not_elem_of_cons merge_cons2. intros [Hne Hn]. rw decide_False //. by rw IH.
Qed.

Lemma merge_elem l x : x ∈ merge l → x = new_id ∨ x ∈ l.
Proof.
  induction l as [|z|z y l IH1 IH2] using list_ind2; auto. rw merge_cons2. case_decide; intros Hx; set_solver.
Qed.

(** Two old neighbours were neighbours before. *)
Lemma merge_pairs_old l q : q ∈ pairs (merge l) → q.1 = new_id ∨ q.2 = new_id ∨ q ∈ pairs l.
Proof.
  induction l as [|x|x y l IH1 IH2] using list_ind2; auto.
  assert (∀ z l', q ∈ pairs (z :: merge l') →
    (∃ t l'', l' = t :: l'' ∧ (q = (z, new_id) ∨ q = (z, t))) ∨ q ∈ pairs (merge l')) as Hhead.
  { intros z [|t l'] Hq; [by apply not_elem_of_nil in Hq|]. destruct (merge_head t l') as (u & l2 & Heq & Hu). rw Heq in Hq |- *.
    rw pairs_cons2 in Hq. apply elem_of_cons in Hq as [->|Hq]; [left|by right].
    exists t, l'. split; [done|]. destruct Hu as [-> | ->]; auto. }
  rw merge_cons2. case_decide as Hd.
  - intros Hq. apply Hhead in Hq as [(t & l'' & -> & [->| ->])|Hq]; [by auto..|].
    destruct (IH1 Hq) as [?|[?|Hq']]; auto. right; right. rw pairs_cons2. right.
    destruct l as [|z l]; [by apply not_elem_of_nil in Hq'|]. rw pairs_cons2. by right.
  - intros Hq. apply Hhead in Hq as [(t & l'' & [= -> ->] & [->| ->])|Hq]; [by auto|..].
    + right; right. rw pairs_cons2. by left.
    + destruct (IH2 Hq) as [?|[?|Hq']]; auto. right; right. rw pairs_cons2. by right.
Qed.

(** No occurrence is left. *)
Lemma merge_pairs_gone l : new_id ≠ p.1 → new_id ≠ p.2 → p ∉ pairs (merge l).
Proof.
  intros H1 H2. induction l as [|x|x y l IH1 IH2] using list_ind2; [by intros ?%not_elem_of_nil..|].
  rw merge_cons2. case_decide as Hd.
  - destruct l as [|z l]; [by intros ?%not_elem_of_nil|]. destruct (merge_head z l) as (u & l2 & Heq & _).
    rw Heq in IH1 |- *. rw pairs_cons2 not_elem_of_cons. split; [|done]. intros ->. by apply H1.
  - destruct (merge_head y l) as (u & l2 & Heq & Hu). rw Heq in IH2 |- *. rw pairs_cons2 not_elem_of_cons.
    split; [|done]. intros ->. destruct Hu as [-> | ->]; [by apply H2|done].
Qed.

(** The bytes stay the same. *)
Lemma merge_bytes (v : gmap Z (list Z)) x y l bs :
  v !! p.1 = Some x → v !! p.2 = Some y → v !! new_id = Some (x ++ y) →
  mapM (λ i, v !! i) l = Some bs →
  ∃ bs', mapM (λ i, v !! i) (merge l) = Some bs' ∧ concat bs' = concat bs.
Proof.
  intros Hx Hy Hn. revert bs. induction l as [|z|z z' l IH1 IH2] using list_ind2; intros bs Hbs; [by exists bs..|].
  rw merge_cons2. apply mapM_Some in Hbs. inversion Hbs as [|? b1 ? bs1 Hb1 Hr1]; subst.
  case_decide as Hd.
  - inversion Hr1 as [|? b2 ? bs2 Hb2 Hr2]; subst.
    destruct (IH1 bs2) as (bs' & Hbs' & Hc); [by apply mapM_Some|].
    cbn in Hx, Hy. assert (b1 = x) as -> by congruence. assert (b2 = y) as -> by congruence.
    exists ((x ++ y) :: bs'). cbn. rw Hn Hbs' /= Hc assoc. done.
  - destruct (IH2 bs1) as (bs' & Hbs' & Hc); [by apply mapM_Some|].
    exists (b1 :: bs'). change (mapM (λ i, v !! i) (z :: merge (z' :: l))) with
      (b ← v !! z; k ← mapM (λ i, v !! i) (merge (z' :: l)); Some (b :: k)).
    rw Hb1 Hbs' /= Hc. done.
Qed.
End merge.

(** ** Encoding replays the merges in order *)

(** Merges as training numbers them: rank [i] defines id [256 + i] from smaller ids. *)
Definition wf_merges (ms : Merges) : Prop :=
  NoDup ms.*1 ∧
  ∀ i m, ms !! i = Some m →
    m.2 = (256 + Z.of_nat i)%Z ∧ (0 ≤ m.1.1 < m.2)%Z ∧ (0 ≤ m.1.2 < m.2)%Z.

(** The reference: each merge applied once, in the order it was learned. *)
Definition replay (ms : Merges) (ids : list Z) : list Z := foldl (λ l m, _apply_merge m.1 m.2 l) ids ms.

Definition rank_map (ms : Merges) : gmap (Z * Z) nat := list_to_map (imap (λ i m, (m.1, i)) ms).

Lemma rank_map_Some ms q r : NoDup ms.*1 → rank_map ms !! q = Some r ↔ ∃ n, ms !! r = Some (q, n).
Proof.
  intros Hnd. rw /rank_map -elem_of_list_to_map.
  - rw elem_of_lookup_imap. split.
    + intros (i & [q' n] & [= -> ->] & Hi). by exists n.
    + intros [n Hn]. by exists r, (q, n).
  - rw fmap_imap. replace (imap _ ms) with ms.*1; [done|].
    rw -(imap_const fst). by apply imap_ext.
Qed.

Lemma best_rank_spec rk ps : ∀ best,
  match best_rank rk ps best with
  | None => best = None ∧ ∀ q, q ∈ ps → rk !! q = None
  | Some (q, r) =>
      (best = Some (q, r) ∨ q ∈ ps ∧ rk !! q = Some r) ∧
      (∀ q' r', best = Some (q', r') → r ≤ r') ∧ ∀ q' r', q' ∈ ps → rk !! q' = Some r' → r ≤ r'
  end.
Proof.
  induction ps as [|p ps IH]; intros best; cbn [best_rank].
  { destruct best as [[q r]|]; split_and!; auto.
    - intros q' r' [= -> ->]. done.
    - by intros q' r' ?%not_elem_of_nil.
    - by intros q ?%not_elem_of_nil. }
  set (best' := match rk !! p with Some _ => _ | None => _ end). specialize (IH best').
  destruct (best_rank rk ps best') as [[q r]|].
  - destruct IH as (Hb & Hl & Hall). unfold best' in Hb, Hl. destruct (rk !! p) as [rank|] eqn:Hp.
    + destruct best as [[qb rb]|]; [destruct (Nat.ltb_spec rank rb)|]; split_and!.
      * destruct Hb as [[= <- <-]|[? ?]]; right; (split; [|done]); [by left|by right].
      * intros q' r' [= <- <-]. specialize (Hl _ _ eq_refl). lia.
      * intros q' r' [->|Hin]%elem_of_cons Hq'; [|by eapply Hall]. specialize (Hl _ _ eq_refl). congruence.
      * destruct Hb as [?|[? ?]]; [by left|right; split; [by right|done]].
      * done.
      * intros q' r' [->|Hin]%elem_of_cons Hq'; [|by eapply Hall]. specialize (Hl _ _ eq_refl).
        assert (r' = rank) as -> by congruence. lia.
      * destruct Hb as [[= <- <-]|[? ?]]; right; (split; [|done]); [by left|by right].
      * done.
      * intros q' r' [->|Hin]%elem_of_cons Hq'; [|by eapply Hall]. specialize (Hl _ _ eq_refl). congruence.
    + split_and!; [|done|].
      * destruct Hb as [?|[? ?]]; [by left|right; split; [by right|done]].
      * intros q' r' [->|Hin]%elem_of_cons Hq'; [congruence|by eapply Hall].
  - destruct IH as [Hb Hall]. unfold best' in Hb. destruct (rk !! p) as [rank|] eqn:Hp.
    + destruct best as [[qb rb]|]; [by destruct (rank <? rb)|done].
    + split; [done|]. intros q [->|Hin]%elem_of_cons; auto.
Qed.

Lemma replay_short ms l : length l ≤ 1 → replay ms l = l.
Proof.
  intros Hl. induction ms as [|m ms IH]; [done|]. cbn. destruct l as [|x [|y l]]; cbn in Hl; [done|done|lia].
Qed.

(** [done] has no occurrence left in [ids]. *)
Lemma merge_loop_replay t : wf_merges (merges t) → ranks t = rank_map (merges t) → ∀ todo done fuel ids,
  merges t = done ++ todo → (∀ q, q ∈ pairs ids → q ∉ done.*1) →
  length ids ≤ fuel → merge_loop fuel t ids = Ok (replay todo ids).
Proof.
  intros [Hnd Hwf] Hrk todo. induction todo as [|[p new_id] todo IH]; intros dn fuel ids Hms Hdn Hfuel.
  { destruct fuel as [|fuel]; [done|]. cbn [merge_loop]. destruct (1 <? length ids); [|done].
    pose proof (best_rank_spec (ranks t) (pairs ids) None) as Hb.
    destruct (best_rank (ranks t) (pairs ids) None) as [[q r]|]; [|done].
    destruct Hb as ([?|[Hq Hr]] & _ & _); [done|]. exfalso. apply (Hdn q Hq). rw app_nil_r in Hms. rw -Hms.
    rw Hrk rank_map_Some // in Hr. destruct Hr as [n Hn]. apply (list_elem_of_fmap_2 fst _ (q, n)).
    by eapply list_elem_of_lookup_2. }
  destruct (Hwf (length dn) (p, new_id)) as (Hn & Ha & Hb); [by rw Hms list_lookup_middle|]. cbn in Hn, Ha, Hb.
  assert (merges t = (dn ++ [(p, new_id)]) ++ todo) as Hms' by by rw -assoc.
  assert (∀ q, q ∈ pairs ids → q ≠ p → q ∉ (dn ++ [(p, new_id)]).*1) as Hdn'.
  { intros q Hq Hne. rw fmap_app elem_of_app. intros [?|Hin]; [by eapply Hdn|]. by apply list_elem_of_singleton in Hin. }
  cbn [replay foldl]. fold (replay todo (_apply_merge p new_id ids)).
  destruct (decide (p ∈ pairs ids)) as [Hp|Hp]; last first.
  { rw merge_id //. apply (IH (dn ++ [(p, new_id)])); [done| |done]. intros q Hq. apply Hdn'; [done|]. by intros ->. }
  destruct (merge_length p new_id ids) as [_ Hlt]. specialize (Hlt Hp).
  destruct fuel as [|fuel]; [lia|]. cbn [merge_loop].
  destruct (Nat.ltb_spec 1 (length ids)) as [Hlen|Hlen]; last first.
  { destruct ids as [|x [|y ids]]; cbn in Hlen; [by apply not_elem_of_nil in Hp..|lia]. }
  assert (ranks t !! p = Some (length dn)) as Hrp.
  { rw Hrk. apply rank_map_Some; [done|]. exists new_id. by rw Hms list_lookup_middle. }
  pose proof (best_rank_spec (ranks t) (pairs ids) None) as Hbr.
  destruct (best_rank (ranks t) (pairs ids) None) as [[q r]|]; [|destruct Hbr as [_ Hbr]; by rw Hbr in Hrp].
  destruct Hbr as ([?|[Hq Hr]] & _ & Hmin); [done|]. specialize (Hmin p _ Hp Hrp).
  assert (q = p) as ->.
  { rw Hrk rank_map_Some // in Hr. destruct Hr as [n Hr]. destruct (decide (r = length dn)) as [->|Hne].
    - rw Hms list_lookup_middle // in Hr. congruence.
    - exfalso. apply (Hdn q Hq). apply (list_elem_of_fmap_2 fst _ (q, n)). apply (list_elem_of_lookup_2 _ r).
      rw Hms lookup_app_l in Hr; [done|lia]. }
  rw (elem_dget p new_id) //; [|rw Hms elem_of_app; right; by left].
  apply (IH (dn ++ [(p, new_id)])); [done| |lia].
  intros q' Hq'. destruct (decide (q' = p)) as [->|Hne].
  { exfalso. eapply merge_pairs_gone; [..|exact Hq']; lia. }
  destruct (merge_pairs_old _ _ _ _ Hq') as [Hnew|[Hnew|Hold]]; [..|by apply Hdn'].
  - intros Hin. apply list_elem_of_fmap in Hin as ([q2 n2] & -> & Hin). apply list_elem_of_lookup in Hin as [i Hi].
    assert (i < length dn + 1) as Hi' by (apply lookup_lt_Some in Hi; rw length_app /= in Hi; lia).
    destruct (Hwf i (q2, n2)) as (? & ? & _); [rw Hms' lookup_app_l //; rw length_app /=; lia|]. cbn in *. lia.
  - intros Hin. apply list_elem_of_fmap in Hin as ([q2 n2] & -> & Hin). apply list_elem_of_lookup in Hin as [i Hi].
    assert (i < length dn + 1) as Hi' by (apply lookup_lt_Some in Hi; rw length_app /= in Hi; lia).
    destruct (Hwf i (q2, n2)) as (? & _ & ?); [rw Hms' lookup_app_l //; rw length_app /=; lia|]. cbn in *. lia.
Qed.

(** ** A well-formed tokenizer *)

(** Special tokens: distinct non-empty texts, distinct ids above all others. *)
Definition wf_specials (ms : Merges) (sp : list (list Z * Z)) : Prop :=
  NoDup sp.*2 ∧
  Forall (λ s, s.1 ≠ [] ∧ forallb scalar s.1 = true ∧ (256 + Z.of_nat (length ms) ≤ s.2)%Z) sp.

Record tok_ok (t : BPETokenizer) : Prop := {
  to_merges : wf_merges (merges t);
  to_specials : wf_specials (merges t) (special_tokens t);
  to_ranks : ranks t = rank_map (merges t);
  to_bytes b : (0 ≤ b < 256)%Z → vocab t !! b = Some [b];
  to_vocab m : m ∈ merges t → ∃ x y,
    vocab t !! m.1.1 = Some x ∧ vocab t !! m.1.2 = Some y ∧ vocab t !! m.2 = Some (x ++ y);
  to_special s : s ∈ special_tokens t → vocab t !! s.2 = Some (s.1 ≫= utf8_char);
  to_cache piece ids : _cache t !! piece = Some ids → ids = replay (merges t) piece;
  to_re : _special_re t = match special_tokens t with
                          | [] => None
                          | s :: sp => Some (alts (Lit s.1) (Lit ∘ fst <$> sp))
                          end;
}.

Lemma byte_vocab_lookup b : (0 ≤ b < 256)%Z → byte_vocab !! b = Some [b].
Proof.
  intros Hb. apply elem_of_list_to_map_1.
  - rw -list_fmap_compose. apply NoDup_fmap_2; [|apply NoDup_seq]. intros x y Hxy. cbn in Hxy. lia.
  - apply list_elem_of_fmap. exists (Z.to_nat b). rw Z2Nat.id; [|lia]. split; [done|]. apply elem_of_seq. lia.
Qed.

(** Building the table: old ids keep their bytes, the merges get theirs. *)
Lemma add_merges_ok ms : ∀ k v,
  (∀ i m, ms !! i = Some m → m.2 = (k + Z.of_nat i)%Z ∧ (0 ≤ m.1.1 < m.2)%Z ∧ (0 ≤ m.1.2 < m.2)%Z) →
  (∀ i, (0 ≤ i < k)%Z → is_Some (v !! i)) →
  ∃ v', add_merges ms v = Ok v' ∧ (∀ i, (i < k)%Z → v' !! i = v !! i) ∧
    ∀ m, m ∈ ms → ∃ x y, v' !! m.1.1 = Some x ∧ v' !! m.1.2 = Some y ∧ v' !! m.2 = Some (x ++ y).
Proof.
  induction ms as [|[[a b] n] ms IH]; intros k v Hms Hv; cbn [add_merges].
  { exists v. split_and!; try done. by intros m ?%not_elem_of_nil. }
  destruct (Hms 0 _ eq_refl) as (Hn & Ha & Hb). cbn in Hn, Ha, Hb.
  destruct (Hv a) as [x Hx]; [lia|]. destruct (Hv b) as [y Hy]; [lia|]. rw Hx Hy.
  destruct (IH (k + 1)%Z (<[n := x ++ y]> v)) as (v' & Hv' & Hold & Hnew).
  { intros i m Hi. destruct (Hms (S i) m Hi) as (? & ? & ?). split; [lia|done]. }
  { intros i Hi. destruct (decide (i = n)) as [->|Hne]; [rw lookup_insert_eq; by eexists|].
    rw lookup_insert_ne //. apply Hv. lia. }
  assert (∀ i, (i < k)%Z → v' !! i = v !! i) as Hk by (intros i Hi; rw Hold ?lookup_insert_ne //; lia).
  exists v'. split_and!; [done|done|]. intros m [->|Hin]%elem_of_cons; [|by apply Hnew].
  exists x, y. cbn. rw (Hk a); [|lia]. rw (Hk b); [|lia]. rw Hold; [|lia]. by rw lookup_insert_eq.
Qed.

Lemma add_specials_ok k sp : ∀ v,
  NoDup sp.*2 → Forall (λ s, s.1 ≠ [] ∧ forallb scalar s.1 = true ∧ (k ≤ s.2)%Z) sp →
  ∃ v', add_specials sp v = Ok v' ∧ (∀ i, i ∉ sp.*2 → v' !! i = v !! i) ∧
    ∀ s, s ∈ sp → v' !! s.2 = Some (s.1 ≫= utf8_char).
Proof.
  induction sp as [|[text tid] sp IH]; intros v Hnd Hall; cbn [add_specials].
  { exists v. split_and!; try done. by intros s ?%not_elem_of_nil. }
  apply NoDup_cons in Hnd as [Hnin Hnd]. apply Forall_cons in Hall as [(_ & Hsc & Hk) Hall]. cbn in Hsc, Hk.
  rw utf8_encode_ok //. destruct (IH (<[tid := text ≫= utf8_char]> v) Hnd Hall) as (v' & Hv' & Hold & Hnew).
  exists v'. split_and!; [done|..].
  - intros i [Hne Hi]%not_elem_of_cons. cbn in Hne. rw Hold // lookup_insert_ne //.
  - intros s [->|Hin]%elem_of_cons; [|by apply Hnew]. cbn. rw Hold // lookup_insert_eq //.
Qed.

Lemma new_tokenizer_ok ms sp : wf_merges ms → wf_specials ms sp →
  ∃ t, new_tokenizer ms sp = Ok t ∧ tok_ok t ∧ merges t = ms ∧ special_tokens t = sp ∧ _cache t = ∅.
Proof.
  intros Hm Hs. pose proof Hm as [Hnd Hwf]. pose proof Hs as [Hnd2 Hall].
  destruct (add_merges_ok ms 256 byte_vocab Hwf) as (v & Hv & Hvold & Hvnew).
  { intros i Hi. rw byte_vocab_lookup //. }
  destruct (add_specials_ok _ sp v Hnd2 Hall) as (v' & Hv' & Hold & Hnew).
  assert (∀ i, (i < 256 + Z.of_nat (length ms))%Z → v' !! i = v !! i) as Hlow.
  { intros i Hi. apply Hold. intros Hin. apply list_elem_of_fmap in Hin as (s & -> & Hin).
    rw Forall_forall in Hall. destruct (Hall _ Hin) as (_ & _ & ?). lia. }
  rw /new_tokenizer Hv Hv'. eexists. split; [reflexivity|]. split; [|done]. split; cbn; try done.
  - intros b Hb. rw Hlow; [|lia]. rw Hvold; [|lia]. by apply byte_vocab_lookup.
  - intros m Hin. destruct (Hvnew m Hin) as (x & y & ? & ? & ?). exists x, y.
    apply list_elem_of_lookup in Hin as [i Hi]. pose proof (lookup_lt_Some _ _ _ Hi). destruct (Hwf i m Hi) as (? & ? & ?).
    rw !Hlow //; lia.
Qed.

(** The bytes of a replayed piece are the piece's. *)
Lemma replay_bytes t ms l bs :
  (∀ m, m ∈ ms → ∃ x y, vocab t !! m.1.1 = Some x ∧ vocab t !! m.1.2 = Some y ∧ vocab t !! m.2 = Some (x ++ y)) →
  mapM (λ i, vocab t !! i) l = Some bs →
  ∃ bs', mapM (λ i, vocab t !! i) (replay ms l) = Some bs' ∧ concat bs' = concat bs.
Proof.
  revert l bs. induction ms as [|m ms IH]; intros l bs Hms Hl; [by exists bs|].
  destruct (Hms m) as (x & y & Hx & Hy & Hn); [by left|].
  destruct (merge_bytes m.1 m.2 _ x y l bs Hx Hy Hn Hl) as (bs1 & Hb1 & Hc1).
  destruct (IH (_apply_merge m.1 m.2 l) bs1) as (bs2 & Hb2 & Hc2); [|done|].
  { intros m' Hin. apply Hms. by right. }
  exists bs2. split; [done|]. congruence.
Qed.

Lemma bytes_lookup t piece : tok_ok t → Forall (λ b, (0 ≤ b < 256)%Z) piece →
  ∃ bs, mapM (λ i, vocab t !! i) piece = Some bs ∧ concat bs = piece.
Proof.
  intros Ht. induction 1 as [|b piece Hb Hp (bs & IH1 & IH2)]; [by exists []|].
  exists ([b] :: bs). cbn. rw (to_bytes _ Ht) // IH1 /= IH2. done.
Qed.

Lemma id_bytes_replay t piece : tok_ok t → Forall (λ b, (0 ≤ b < 256)%Z) piece →
  id_bytes t (replay (merges t) piece) = Ok piece.
Proof.
  intros Ht Hp. destruct (bytes_lookup t piece Ht Hp) as (bs & Hbs & Hc).
  destruct (replay_bytes t (merges t) piece bs (to_vocab _ Ht) Hbs) as (bs' & Hbs' & Hc').
  rw /id_bytes Hbs'. congruence.
Qed.

Lemma id_bytes_app t l1 l2 b1 b2 :
  id_bytes t l1 = Ok b1 → id_bytes t l2 = Ok b2 → id_bytes t (l1 ++ l2) = Ok (b1 ++ b2).
Proof.
  rw /id_bytes. destruct (mapM _ l1) as [x1|] eqn:H1; [|done]. destruct (mapM _ l2) as [x2|] eqn:H2; [|done].
  intros [= <-] [= <-]. assert (mapM (λ i, vocab t !! i) (l1 ++ l2) = Some (x1 ++ x2)) as ->.
  { apply mapM_Some. apply mapM_Some in H1, H2. by apply Forall2_app. }
  by rw concat_app.
Qed.

(** Two tokenizers that differ only in what they remember. *)
Definition same_tok (t t' : BPETokenizer) : Prop := t' = set_cache (_cache t') t.

Lemma same_tok_refl t : same_tok t t.
Proof. by destruct t. Qed.
Lemma same_tok_trans t1 t2 t3 : same_tok t1 t2 → same_tok t2 t3 → same_tok t1 t3.
Proof. rw /same_tok => H1 H2. rw H2 H1. by destruct t1. Qed.
Lemma same_tok_bytes t t' l : same_tok t t' → id_bytes t' l = id_bytes t l.
Proof. by rw /same_tok => ->. Qed.

Lemma encode_piece_spec t piece : tok_ok t →
  wp (_encode_piece piece) (λ ids t', ids = replay (merges t) piece ∧ tok_ok t' ∧ same_tok t t') never t.
Proof.
  intros Ht. rw /_encode_piece. do 2 wp_step. destruct (_cache t !! piece) as [ids|] eqn:Hc.
  { wp_step. split_and!; [by eapply to_cache|done|apply same_tok_refl]. }
  wp_step. rw {1}/wp /lift_result (merge_loop_replay t (to_merges _ Ht) (to_ranks _ Ht) (merges t) [] (length piece) piece) //.
  { do 3 wp_step. split_and!; [done| |by destruct t].
    destruct Ht. split; cbn; try done. intros piece' ids'. rw lookup_insert. case_decide as Hd; [subst piece'; by intros [= <-]|by eauto]. }
  intros q _. apply not_elem_of_nil.
Qed.

(** ** Decoding what was encoded *)

(** Encoding part by part, each part's ids standing for its bytes. *)
Lemma for_list_bytes {A} (f : A → M BPETokenizer (list Z)) (g : A → list Z) (l : list A) : ∀ t,
  tok_ok t →
  (∀ x t, x ∈ l → tok_ok t → wp (f x) (λ ids t', id_bytes t ids = Ok (g x) ∧ tok_ok t' ∧ same_tok t t') never t) →
  wp (for_list l f) (λ out t', id_bytes t (concat out) = Ok (l ≫= g) ∧ tok_ok t' ∧ same_tok t t') never t.
Proof.
  induction l as [|x l IH]; intros t Ht Hf; [by split_and!; [done|done|apply same_tok_refl]|].
  wp_step. eapply wp_mono; [apply Hf; [by left|done]| |done]. intros ids t1 (Hb1 & Ht1 & Hs1).
  wp_step. eapply wp_mono; [apply IH; [done|]| |done].
  { intros y t' Hy. apply Hf. by right. }
  intros out t2 (Hb2 & Ht2 & Hs2). wp_step. split_and!; [|done|by eapply same_tok_trans].
  rw (same_tok_bytes t t1) // in Hb2. by apply id_bytes_app.
Qed.

Section decode.
Context `{UnicodeLaws}.

Lemma bind_bytes (l : list (list Z)) : (l ≫= λ p, p ≫= utf8_char) = concat l ≫= utf8_char.
Proof. induction l as [|p l IH]; [done|]. cbn. by rw IH bind_app. Qed.

Lemma forallb_Forall {A} (f : A → bool) l : forallb f l = true ↔ Forall (λ x, f x = true) l.
Proof. rw forallb_forall Forall_forall. split; intros Hf x Hx; apply Hf; by apply list_elem_of_In. Qed.

Lemma scalar_filter (f : Z → bool) (text : list Z) :
  forallb scalar text = true → forallb scalar (filter (λ c, f c = false) text) = true.
Proof.
  rw !forallb_Forall !Forall_forall. intros Hs c [_ Hin]%list_elem_of_filter. by apply Hs.
Qed.

Lemma scalar_part (l : list (list Z)) part :
  forallb scalar (concat l) = true → part ∈ l → forallb scalar part = true.
Proof.
  rw !forallb_Forall. intros Hs Hin. induction l as [|x l IH]; [by apply not_elem_of_nil in Hin|].
  cbn in Hs. apply Forall_app in Hs as [Hx Hl]. apply elem_of_cons in Hin as [->|Hin]; auto.
Qed.

Lemma encode_ordinary_spec t text : tok_ok t → forallb scalar text = true →
  wp (_encode_ordinary text)
     (λ ids t', id_bytes t ids = Ok (filter (λ c, underscore c = false) text ≫= utf8_char) ∧ tok_ok t' ∧ same_tok t t')
     never t.
Proof.
  intros Ht Hsc. destruct (findall_split text) as [Hcat _]. pose proof (scalar_filter underscore text Hsc) as Hsf.
  rw -Hcat in Hsf |- *. rw /_encode_ordinary. wp_step.
  eapply wp_mono; [apply (for_list_bytes _ (λ p, p ≫= utf8_char)); [done|]| |done].
  - intros piece t1 Hin Ht1. pose proof (scalar_part _ _ Hsf Hin) as Hp.
    wp_step. rw {1}/wp /lift_result utf8_encode_ok //.
    eapply wp_mono; [by apply encode_piece_spec| |done]. intros ids t2 (-> & Ht2 & Hs2). split_and!; try done.
    apply id_bytes_replay; [done|]. by apply utf8_bytes.
  - intros out t' (Hb & Ht' & Hs). wp_step. rw -bind_bytes. done.
Qed.

Lemma lit_eats l : l ≠ [] → eats (Lit l) = true.
Proof. by destruct l. Qed.
Lemma alts_eats r rs : eats r = true → Forall (λ r, eats r = true) rs → eats (alts r rs) = true.
Proof.
  intros Hr Hrs. revert r Hr. induction Hrs as [|r' rs Hr' _ IH]; intros r Hr; [done|]. cbn. by rw Hr IH.
Qed.

Lemma encode_spec t text allowed : tok_ok t → forallb scalar text = true → (allowed = false ∨ 95%Z ∉ text) →
  wp (encode text allowed)
     (λ ids t', id_bytes t ids = Ok (filter (λ c, underscore c = false) text ≫= utf8_char) ∧ tok_ok t' ∧ same_tok t t')
     never t.
Proof.
  intros Ht Hsc Hu. rw /encode. do 2 wp_step.
  destruct (if allowed then _special_re t else None) as [re|] eqn:Hre; [|by apply encode_ordinary_spec].
  destruct allowed; [|done]. destruct Hu as [?|Hu]; [done|].
  assert (eats re = true) as He.
  { rw (to_re _ Ht) in Hre. destruct (to_specials _ Ht) as [_ Hsp]. destruct (special_tokens t) as [|s sp]; [done|].
    injection Hre as <-. apply Forall_cons in Hsp as [(Hs & _) Hsp]. apply alts_eats; [by apply lit_eats|].
    apply Forall_fmap. eapply Forall_impl; [exact Hsp|]. intros s' (Hs' & _). by apply lit_eats. }
  pose proof (split_concat re He (length text) [] text (le_n _)) as Hcat. cbn in Hcat.
  assert (∀ part, part ∈ re_split re text → filter (λ c, underscore c = false) part = part ∧ forallb scalar part = true) as Hpart.
  { intros part Hin. split; [|eapply scalar_part; [|exact Hin]; by rw /re_split Hcat].
    apply list_filter_id. intros c Hc. rw /underscore. apply Z.eqb_neq. intros ->. apply Hu. rw -Hcat.
    apply list_elem_of_In, in_concat. exists part. by rw -!list_elem_of_In. }
  assert (filter (λ c, underscore c = false) text = text) as ->.
  { apply list_filter_id. intros c Hc. rw /underscore. apply Z.eqb_neq. by intros ->. }
  rw -{2}Hcat. wp_step. eapply wp_mono; [apply (for_list_bytes _ (λ p, p ≫= utf8_char)); [done|]| |done].
  - intros chunk t1 Hin Ht1. destruct (Hpart chunk Hin) as [Hf Hs]. destruct chunk as [|c chunk].
    { wp_step. split_and!; [done|done|apply same_tok_refl]. }
    do 2 wp_step. destruct (dget (c :: chunk) (special_tokens t1)) as [tid|] eqn:Hd.
    + wp_step. split_and!; [|done|apply same_tok_refl]. apply dget_Some_elem in Hd.
      pose proof (to_special _ Ht1 _ Hd) as Hv. cbn in Hv. rw /id_bytes /= Hv /= app_nil_r. done.
    + eapply wp_mono; [by apply encode_ordinary_spec| |done]. intros ids t2. by rw Hf.
  - intros out t' (Hb & Ht' & Hs). wp_step. rw -bind_bytes. done.
Qed.
End decode.


(** ** A small tokenizer to run: [th], [the] and the end-of-text token. *)

Definition toy_merges : Merges := [((116, 104), 256); ((256, 101), 257)]%Z.
Definition toy_specials : list (list Z * Z) := [(END_OF_TEXT, 258%Z)].
Definition toy_tok : BPETokenizer :=
  match new_tokenizer toy_merges toy_specials with Ok t => t | Raise _ => mkTok [] [] ∅ ∅ ∅ ∅ None end.

Lemma toy_merges_wf : wf_merges toy_merges.
Proof.
  split; [apply (bool_decide_unpack _); by vm_compute|].
  intros [|[|i]] m Hm; cbn in Hm; [..|done]; injection Hm as <-; cbn; lia.
Qed.
Lemma toy_specials_wf : wf_specials toy_merges toy_specials.
Proof. split; [apply (bool_decide_unpack _); by vm_compute|]. repeat constructor; cbn; done. Qed.

Lemma toy_tok_ok : tok_ok toy_tok.
Proof.
  destruct (new_tokenizer_ok _ _ toy_merges_wf toy_specials_wf) as (t & Ht & Hok & _). by rw /toy_tok Ht.
Qed.

(** The text ["the_the"]. *)
Definition toy_text : list Z := [116; 104; 101; 95; 116; 104; 101]%Z.


(** ** Training keeps its counts exact *)

(** How often a pair occurs in a word, and in all words weighted by frequency. *)
Fixpoint occ (p : Z * Z) (l : list (Z * Z)) : Z :=
  match l with [] => 0 | q :: l => (if decide (q = p) then 1 else 0) + occ p l end%Z.
Definition total (freqs : list Z) (words : list (list Z)) (p : Z * Z) : Z :=
  foldr (λ wf acc, wf.2 * occ p (pairs wf.1) + acc)%Z 0%Z (zip words freqs).
Definition positive_count (c : Z) : option Z := if (0 <? c)%Z then Some c else None.

Lemma occ_nonneg p l : (0 ≤ occ p l)%Z.
Proof. induction l; cbn; [done|]. case_decide; lia. Qed.
Lemma occ_pos p l : p ∈ l ↔ (0 < occ p l)%Z.
Proof.
  induction l as [|q l IH]; cbn.
  - split; [by intros ?%not_elem_of_nil|lia].
  - pose proof (occ_nonneg p l). rw elem_of_cons IH. case_decide as Hq; [subst; split; [lia|by left]|].
    split; [intros [->|?]; [done|lia]|right; lia].
Qed.

Lemma positive_count_pos c : (0 < c)%Z → positive_count c = Some c.
Proof. intros Hc. rw /positive_count. by destruct (Z.ltb_spec 0 c); [|lia]. Qed.
Lemma positive_count_default c : (0 ≤ c)%Z → default 0%Z (positive_count c) = c.
Proof. intros Hc. rw /positive_count. destruct (Z.ltb_spec 0 c); cbn; lia. Qed.
Lemma positive_count_0 c : (c ≤ 0)%Z → positive_count c = None.
Proof. intros Hc. rw /positive_count. by destruct (Z.ltb_spec 0 c); [lia|]. Qed.

Lemma where_at_insert wh p X q : where_at (<[p := X]> wh) q = if decide (p = q) then X else where_at wh q.
Proof. rw /where_at lookup_insert. by case_decide. Qed.

Lemma retract_all wi f (base : Z * Z → Z) l : (0 < f)%Z → (∀ p, 0 ≤ base p)%Z → ∀ pc wh,
  (∀ p, pc !! p = positive_count (base p + f * occ p l)) →
  let s := foldl (retract wi f) (pc, wh) l in
  (∀ p, s.1 !! p = positive_count (base p)) ∧
  ∀ p i, i ∈ where_at s.2 p ↔ i ∈ where_at wh p ∧ ¬ (i = wi ∧ p ∈ l).
Proof.
  intros Hf Hb. induction l as [|q l IH]; intros pc wh Hpc; cbn [foldl].
  { split; [intros p; rw Hpc /=; f_equal; lia|]. intros p i. set_solver. }
  rw {2 4}/retract. cbn [fst snd].
  pose proof (occ_nonneg q l). pose proof (Hb q).
  assert (default 0 (pc !! q) - f = base q + f * occ q l)%Z as ->.
  { rw Hpc /= decide_True // positive_count_default; [|nia]. ring. }
  destruct (IH (if (base q + f * occ q l <=? 0)%Z then delete q pc else <[q := (base q + f * occ q l)%Z]> pc)
    (<[q := where_at wh q ∖ {[wi]}]> wh)) as [IH1 IH2].
  { intros p. destruct (decide (q = p)) as [->|Hne].
    - destruct (Z.leb_spec (base p + f * occ p l) 0).
      + rw lookup_delete_eq positive_count_0 //.
      + rw lookup_insert_eq positive_count_pos //.
    - destruct (Z.leb_spec (base q + f * occ q l) 0); [rw lookup_delete_ne //|rw lookup_insert_ne //];
        rw Hpc /= decide_False //. }
  split; [done|]. intros p i. rw IH2 where_at_insert. case_decide; set_solver.
Qed.

Lemma readd_all wi f (base : Z * Z → Z) l : (0 < f)%Z → (∀ p, 0 ≤ base p)%Z → ∀ pc wh,
  (∀ p, pc !! p = positive_count (base p)) →
  let s := foldl (readd wi f) (pc, wh) l in
  (∀ p, s.1 !! p = positive_count (base p + f * occ p l)) ∧
  ∀ p i, i ∈ where_at s.2 p ↔ i ∈ where_at wh p ∨ i = wi ∧ p ∈ l.
Proof.
  intros Hf. revert base. induction l as [|q l IH]; intros base Hb pc wh Hpc; cbn [foldl].
  { split; [intros p; rw Hpc /=; f_equal; lia|]. intros p i. set_solver. }
  rw {2 4}/readd. cbn [fst snd]. rw Hpc positive_count_default; [|apply Hb].
  destruct (IH (λ p, base p + if decide (q = p) then f else 0)%Z) with
    (pc := <[q := (base q + f)%Z]> pc) (wh := <[q := where_at wh q ∪ {[wi]}]> wh) as [IH1 IH2].
  { intros p. pose proof (Hb p). case_decide; lia. }
  { intros p. rw lookup_insert. case_decide as Hd; [subst q|by rw Z.add_0_r].
    rw positive_count_pos //. pose proof (Hb p). lia. }
  split.
  - intros p. rw IH1 /=. f_equal. case_decide; lia.
  - intros p i. rw IH2 where_at_insert. case_decide; set_solver.
Qed.

Lemma total_nonneg freqs words p : Forall (λ f, 0 < f)%Z freqs → (0 ≤ total freqs words p)%Z.
Proof.
  intros Hf. revert words. induction Hf as [|f fs Hf _ IH]; intros [|w ws]; try done.
  change (0 ≤ f * occ p (pairs w) + total fs ws p)%Z. specialize (IH ws). pose proof (occ_nonneg p (pairs w)). nia.
Qed.

Lemma total_insert freqs words p wi w f w' :
  words !! wi = Some w → freqs !! wi = Some f →
  (total freqs (<[wi := w']> words) p = total freqs words p - f * occ p (pairs w) + f * occ p (pairs w'))%Z.
Proof.
  revert freqs wi. induction words as [|v ws IH]; intros [|g fs] [|wi] Hw Hf; try done; cbn in Hw, Hf.
  - injection Hw as ->. injection Hf as ->.
    change (f * occ p (pairs w') + total fs ws p =
      f * occ p (pairs w) + total fs ws p - f * occ p (pairs w) + f * occ p (pairs w'))%Z. lia.
  - change (g * occ p (pairs v) + total fs (<[wi := w']> ws) p =
      g * occ p (pairs v) + total fs ws p - f * occ p (pairs w) + f * occ p (pairs w'))%Z. rw (IH fs wi) //. lia.
Qed.

Lemma total_part freqs words p wi w f : Forall (λ f, 0 < f)%Z freqs →
  words !! wi = Some w → freqs !! wi = Some f → (f * occ p (pairs w) ≤ total freqs words p)%Z.
Proof.
  intros Hall. revert words wi. induction Hall as [|g fs Hg Hall IH]; intros [|v ws] [|wi] Hw Hf; try done; cbn in Hw, Hf.
  - injection Hw as ->. injection Hf as ->. pose proof (total_nonneg fs ws p Hall). 
    change (f * occ p (pairs w) ≤ f * occ p (pairs w) + total fs ws p)%Z. lia.
  - specialize (IH ws wi Hw Hf). pose proof (occ_nonneg p (pairs v)).
    change (f * occ p (pairs w) ≤ g * occ p (pairs v) + total fs ws p)%Z. nia.
Qed.

Lemma total_pos freqs words p : length words = length freqs → Forall (λ f, 0 < f)%Z freqs →
  (0 < total freqs words p)%Z ↔ ∃ w, w ∈ words ∧ p ∈ pairs w.
Proof.
  intros Hlen Hall. split.
  - clear Hall. revert freqs Hlen. induction words as [|w ws IH]; intros [|f fs] Hlen; try done.
    change (0 < f * occ p (pairs w) + total fs ws p → ∃ w', w' ∈ w :: ws ∧ p ∈ pairs w')%Z.
    intros Hpos. destruct (decide (p ∈ pairs w)) as [|Hn]; [exists w; split; [by left|done]|].
    rw occ_pos in Hn. pose proof (occ_nonneg p (pairs w)). assert (occ p (pairs w) = 0)%Z as Ho by lia. rw Ho in Hpos.
    destruct (IH fs) as (w' & ? & ?); [by injection Hlen|lia|]. exists w'. split; [by right|done].
  - intros (w & Hin & Hp). apply list_elem_of_lookup in Hin as [i Hi].
    destruct (lookup_lt_is_Some_2 freqs i) as [f Hf]; [rw -Hlen; by eapply lookup_lt_Some|].
    pose proof (total_part freqs words p i w f Hall Hi Hf). apply occ_pos in Hp.
    rw Forall_forall in Hall. pose proof (Hall f ltac:(by eapply list_elem_of_lookup_2)). nia.
Qed.

(** The index agrees with the words. *)
Record tr_ok (freqs : list Z) (tr : Trainer) : Prop := {
  tk_len : length (t_words tr) = length freqs;
  tk_counts p : pair_counts tr !! p = positive_count (total freqs (t_words tr) p);
  tk_where p i : i ∈ where_at (t_where tr) p ↔ ∃ w, t_words tr !! i = Some w ∧ p ∈ pairs w;
}.

Section trainer.
Context (freqs : list Z) (Hpos : Forall (λ f, 0 < f)%Z freqs).
Context (set_order : gset nat → list nat) (Horder : ∀ X, set_order X ≡ₚ elements X).

Lemma rewrite_word_ok best next_id tr wi w :
  tr_ok freqs tr → t_words tr !! wi = Some w →
  let tr' := rewrite_word freqs best next_id tr wi in
  tr_ok freqs tr' ∧ t_words tr' = <[wi := _apply_merge best next_id w]> (t_words tr).
Proof.
  intros [Hlen Hc Hw] Hwi. destruct (lookup_lt_is_Some_2 freqs wi) as [f Hf]; [rw -Hlen; by eapply lookup_lt_Some|].
  rw /rewrite_word Hwi Hf. cbn zeta. split; [|done].
  assert (0 < f)%Z as Hf0 by (eapply (Forall_lookup_1 _ _ wi); [exact Hpos|exact Hf]).
  set (w' := _apply_merge best next_id w).
  set (base := λ p, (total freqs (t_words tr) p - f * occ p (pairs w))%Z).
  assert (∀ p, 0 ≤ base p)%Z as Hb.
  { intros p. rw /base. pose proof (total_part freqs (t_words tr) p wi w f Hpos Hwi Hf). lia. }
  destruct (retract_all wi f base (pairs w) Hf0 Hb (pair_counts tr) (t_where tr)) as [Hr1 Hr2].
  { intros p. rw Hc. f_equal. rw /base. lia. }
  destruct (foldl (retract wi f) (pair_counts tr, t_where tr) (pairs w)) as [pc wh]. cbn [fst snd] in Hr1, Hr2.
  destruct (readd_all wi f base (pairs w') Hf0 Hb pc wh Hr1) as [Ha1 Ha2].
  split; cbn [t_words pair_counts t_where].
  - by rw length_insert.
  - intros p. rw Ha1 (total_insert _ _ _ _ w f) //.
  - intros p i. rw Ha2 Hr2 Hw. destruct (decide (i = wi)) as [->|Hne].
    + rw list_lookup_insert_eq; [|by eapply lookup_lt_Some]. split.
      * intros [[(w2 & Hw2 & Hp) Hn]|[_ Hp]]; [|by exists w']. simplify_eq. exfalso. by apply Hn.
      * intros (w2 & [= <-] & Hp). by right.
    + rw list_lookup_insert_ne //. naive_solver.
Qed.

Lemma rewrite_words_ok best next_id l : NoDup l → ∀ tr,
  tr_ok freqs tr → (∀ i, i ∈ l → is_Some (t_words tr !! i)) →
  let tr' := foldl (rewrite_word freqs best next_id) tr l in
  tr_ok freqs tr' ∧
  ∀ i, t_words tr' !! i = (λ w, if decide (i ∈ l) then _apply_merge best next_id w else w) <$> t_words tr !! i.
Proof.
  induction 1 as [|wi l Hn Hnd IH]; intros tr Htr Hl; cbn [foldl].
  { split; [done|]. intros i. by destruct (t_words tr !! i). }
  destruct (Hl wi) as [w Hw]; [by left|].
  destruct (rewrite_word_ok best next_id tr wi w Htr Hw) as [Htr1 Hws]. set (tr1 := rewrite_word _ _ _ _ _) in *.
  destruct (IH tr1 Htr1) as [IH1 IH2].
  { intros i Hi. rw Hws. destruct (decide (i = wi)) as [->|Hne]; [done|]. rw list_lookup_insert_ne //. apply Hl. by right. }
  split; [done|]. intros i. rw IH2 Hws. destruct (decide (i = wi)) as [->|Hne].
  - rw list_lookup_insert_eq; [|by eapply lookup_lt_Some]. rw Hw. cbn. rw decide_False // decide_True //. by left.
  - rw list_lookup_insert_ne //. destruct (t_words tr !! i); [|done]. cbn. do 2 f_equal.
    assert (i ∈ l ↔ i ∈ wi :: l) as Hiff by (rw elem_of_cons; naive_solver).
    destruct (decide (i ∈ l)), (decide (i ∈ wi :: l)); try done; tauto.
Qed.

(** One merge: every word rewritten, the index exact again. *)
Lemma merge_step_ok best next_id tr :
  tr_ok freqs tr → next_id ≠ best.1 → next_id ≠ best.2 →
  let tr' := merge_step freqs set_order best next_id tr in
  tr_ok freqs tr' ∧ t_words tr' = _apply_merge best next_id <$> t_words tr.
Proof.
  intros Htr Hn1 Hn2. rw /merge_step. set (l := set_order _). cbn zeta.
  assert (∀ i, i ∈ l ↔ ∃ w, t_words tr !! i = Some w ∧ best ∈ pairs w) as Hl.
  { intros i. rw /l (Horder _) elem_of_elements. by apply (tk_where freqs). }
  destruct (rewrite_words_ok best next_id l) with (tr := tr) as [Htr' Hws]; [|done|..].
  { rw /l (Horder _). apply NoDup_elements. }
  { intros i (w & Hw & _)%Hl. by eexists. }
  set (tr1 := foldl _ _ _) in *.
  assert (t_words tr1 = _apply_merge best next_id <$> t_words tr) as Heq.
  { apply list_eq. intros i. rw Hws list_lookup_fmap. destruct (t_words tr !! i) as [w|] eqn:Hw; [|done]. cbn. f_equal.
    case_decide as Hd; [done|]. symmetry. apply merge_id. intros Hp. apply Hd, Hl. by exists w. }
  split; [|done]. destruct Htr' as [H1 H2 H3]. split; cbn; [done|done|]. intros p i.
  destruct (decide (p = best)) as [->|Hne].
  - rw /where_at lookup_delete_eq /=. split; [set_solver|]. intros (w & Hw & Hp).
    rw Heq list_lookup_fmap in Hw. destruct (t_words tr !! i); [|done]. injection Hw as <-.
    exfalso. eapply merge_pairs_gone; [..|exact Hp]; done.
  - rw /where_at lookup_delete_ne //. by apply H3.
Qed.

Lemma index_words_ok words : length words = length freqs → tr_ok freqs (index_words freqs words).
Proof.
  intros Hlen. rw /index_words.
  set (stp := λ s wf, foldl (readd wf.1 wf.2.2) s (pairs wf.2.1)).
  assert (∀ ws fs k pc wh (base : Z * Z → Z), length ws = length fs → Forall (λ f, 0 < f)%Z fs →
    (∀ p, 0 ≤ base p)%Z → (∀ p, pc !! p = positive_count (base p)) →
    let s := foldl stp (pc, wh) (imap (λ i wf, (k + i, wf)) (zip ws fs)) in
    (∀ p, s.1 !! p = positive_count (base p + total fs ws p)) ∧
    ∀ p i, i ∈ where_at s.2 p ↔ i ∈ where_at wh p ∨ ∃ j w, i = k + j ∧ ws !! j = Some w ∧ p ∈ pairs w) as Hloop.
  { induction ws as [|w ws IH]; intros [|f fs] k pc wh base Hl Hfs Hb Hpc; try done.
    { split; [intros p; rw Hpc; f_equal; cbn; lia|]. intros p i. split; [by left|]. intros [?|(j & w & _ & ? & _)]; done. }
    apply Forall_cons in Hfs as [Hf Hfs]. injection Hl as Hl.
    cbn [zip zip_with imap foldl]. rw {2 4}/stp. cbn [fst snd]. rw Nat.add_0_r.
    destruct (readd_all k f base (pairs w) Hf Hb pc wh Hpc) as [Ha1 Ha2].
    destruct (foldl (readd k f) (pc, wh) (pairs w)) as [pc1 wh1]. cbn [fst snd] in Ha1, Ha2.
    assert (imap ((λ (i : nat) wf, (k + i, wf)) ∘ S) (zip ws fs) = imap (λ i wf, (S k + i, wf)) (zip ws fs)) as ->.
    { apply imap_ext. intros i wf _. cbn. f_equal. lia. }
    destruct (IH fs (S k) pc1 wh1 (λ p, base p + f * occ p (pairs w))%Z Hl Hfs) as [IH1 IH2]; [|done|].
    { intros p. pose proof (Hb p). pose proof (occ_nonneg p (pairs w)). nia. }
    split.
    - intros p. rw IH1. f_equal. change (total (f :: fs) (w :: ws) p) with (f * occ p (pairs w) + total fs ws p)%Z. lia.
    - intros p i. rw IH2 Ha2. split.
      + intros [[?|[-> Hp]]|(j & w2 & -> & Hj & Hp)]; [by left|right; exists 0, w; split_and!; [lia|done|done]|].
        right. exists (S j), w2. split_and!; [lia|done|done].
      + intros [?|([|j] & w2 & -> & Hj & Hp)]; [by left; left|..].
        * left; right. cbn in Hj. injection Hj as ->. split; [lia|done].
        * right. exists j, w2. split_and!; [lia|done|done]. }
  destruct (Hloop words freqs 0 ∅ ∅ (λ _, 0%Z) Hlen Hpos) as [H1 H2]; [done|done|].
  cbn [Nat.add] in H1, H2. set (s := foldl _ _ _) in *. split; cbn; [done|exact H1|].
  intros p i. rw H2. rw /where_at lookup_empty /=. split.
  - intros [?|(j & w & -> & ? & ?)]; [set_solver|by exists w].
  - intros (w & ? & ?). right. by exists i, w.
Qed.
End trainer.

(** ** What training computes *)

Lemma key_lt_trans_false a b c : key_lt a b = true → key_lt a c = false → key_lt b c = false.
Proof. destruct a as [[??]?], b as [[??]?], c as [[??]?]. rw /key_lt /pair_lt /=. lia. Qed.
Lemma key_lt_irrefl a : key_lt a a = false.
Proof. destruct a as [[??]?]. rw /key_lt /pair_lt /=. lia. Qed.

Lemma max_pair_spec l m : max_pair l = Some m → m ∈ l ∧ ∀ y, y ∈ l → key_lt m y = false.
Proof.
  destruct l as [|x l]; [done|]. cbn. intros [= <-].
  assert (∀ seen b, b ∈ seen → (∀ y, y ∈ seen → key_lt b y = false) →
    let m := foldl (λ b y, if key_lt b y then y else b) b l in
    m ∈ seen ++ l ∧ ∀ y, y ∈ seen ++ l → key_lt m y = false) as Hf.
  { induction l as [|z l IH]; intros sn b Hb Hall; cbn; [by rw app_nil_r|].
    assert (∀ y, y ∈ sn ++ z :: l ↔ y ∈ (sn ++ [z]) ++ l) as Hiff by set_solver.
    destruct (key_lt b z) eqn:Hk.
    - destruct (IH (sn ++ [z]) z) as [IH1 IH2]; [set_solver| |split; [by apply Hiff|intros y ?%Hiff; by apply IH2]].
      intros y [Hy|Hy%list_elem_of_singleton]%elem_of_app; [|subst; by apply key_lt_irrefl]. eapply key_lt_trans_false; eauto.
    - destruct (IH (sn ++ [z]) b) as [IH1 IH2]; [set_solver| |split; [by apply Hiff|intros y ?%Hiff; by apply IH2]].
      intros y [Hy|Hy%list_elem_of_singleton]%elem_of_app; [by apply Hall|by subst]. }
  apply (Hf [x] x); [by left|]. intros y ->%list_elem_of_singleton. apply key_lt_irrefl.
Qed.

(** Byte-pair encoding as it is usually defined: as long as merges are left to learn and
    some pair is frequent enough, merge the most frequent one (of equally frequent
    ones the largest) everywhere, with frequencies counted afresh. *)
Section spec.
Context (freqs : list Z) (min_frequency : Z).

Definition most_frequent (words : list (list Z)) (best : Z * Z) : Prop :=
  (0 < total freqs words best)%Z ∧
  ∀ q, key_lt (best, total freqs words best) (q, total freqs words q) = false.

Inductive bpe_run : nat → Z → list (list Z) → Merges → list (list Z) → Prop :=
  | bpe_enough next_id words : bpe_run 0 next_id words [] words
  | bpe_rare n next_id words :
      (∀ p, (0 < total freqs words p → total freqs words p < min_frequency)%Z) →
      bpe_run n next_id words [] words
  | bpe_merge n next_id words best ms words' :
      most_frequent words best → (min_frequency ≤ total freqs words best)%Z →
      bpe_run n (next_id + 1) (_apply_merge best next_id <$> words) ms words' →
      bpe_run (S n) next_id words ((best, next_id) :: ms) words'.

(** The final words are the initial ones with the merges replayed on them. *)
Lemma bpe_run_replay n next_id words ms words' :
  bpe_run n next_id words ms words' → words' = replay ms <$> words.
Proof.
  induction 1 as [|n next words|n next words best ms words' _ _ _ IH]; try (symmetry; apply list_fmap_id).
  rw IH -list_fmap_compose. done.
Qed.

Lemma bpe_run_length n next_id words ms words' : bpe_run n next_id words ms words' → length ms ≤ n.
Proof. induction 1; cbn; lia. Qed.
End spec.

(** Ids below the next one, and no learned pair left. *)
Definition progress (next_id : Z) (ms : Merges) (words : list (list Z)) : Prop :=
  wf_merges ms ∧ next_id = (256 + Z.of_nat (length ms))%Z ∧
  Forall (Forall (λ i, 0 ≤ i < next_id)%Z) words ∧ ∀ w q, w ∈ words → q ∈ pairs w → q ∉ ms.*1.

Lemma pairs_elem (w : list Z) (q : Z * Z) : q ∈ pairs w → q.1 ∈ w ∧ q.2 ∈ w.
Proof.
  destruct q as [a b]. rw /pairs. intros Hq. pose proof (elem_of_zip_l _ _ _ _ Hq). pose proof (elem_of_zip_r _ _ _ _ Hq) as Hr.
  split; [done|]. cbn. destruct w; [by apply not_elem_of_nil in Hr|]. by right.
Qed.

Lemma progress_merge next_id ms words best w0 :
  progress next_id ms words → w0 ∈ words → best ∈ pairs w0 →
  progress (next_id + 1) (ms ++ [(best, next_id)]) (_apply_merge best next_id <$> words) ∧
  dset best next_id ms = ms ++ [(best, next_id)] ∧ next_id ≠ best.1 ∧ next_id ≠ best.2.
Proof.
  intros ([Hnd Hwf] & Hnext & Hids & Hgone) Hw0 Hbest.
  assert (best ∉ ms.*1) as Hnew by by eapply Hgone.
  assert ((0 ≤ best.1 < next_id)%Z ∧ (0 ≤ best.2 < next_id)%Z) as [Hb1 Hb2].
  { destruct (pairs_elem _ _ Hbest) as [? ?]. rw Forall_forall in Hids. specialize (Hids _ Hw0).
    rw Forall_forall in Hids. split; by apply Hids. }
  split_and!; [|by apply dset_notin|lia|lia]. split_and!.
  - split.
    + rw fmap_app. apply NoDup_app. split_and!; [done|set_solver|apply NoDup_singleton].
    + intros i m [Hi|[Hge Hi]]%lookup_app_Some; [by apply Hwf|].
      apply list_lookup_singleton_Some in Hi as [Hi <-]. cbn. assert (i = length ms) as -> by lia. lia.
  - rw length_app /=. lia.
  - apply Forall_fmap. eapply Forall_impl; [exact Hids|]. intros w Hw. apply Forall_forall. intros x Hx.
    rw Forall_forall in Hw. destruct (merge_elem _ _ _ _ Hx) as [->|Hin]; [lia|]. specialize (Hw _ Hin). cbn in Hw. lia.
  - intros w q Hw Hq. apply list_elem_of_fmap in Hw as (w' & -> & Hw'). rw fmap_app not_elem_of_app. split.
    + destruct (merge_pairs_old _ _ _ _ Hq) as [Hq1|[Hq2|Hq']]; [..|by eapply Hgone].
      * intros Hin. apply list_elem_of_fmap in Hin as (m & -> & Hm). apply list_elem_of_lookup in Hm as [i Hi].
        pose proof (lookup_lt_Some _ _ _ Hi). destruct (Hwf i m Hi) as (? & ? & _). lia.
      * intros Hin. apply list_elem_of_fmap in Hin as (m & -> & Hm). apply list_elem_of_lookup in Hm as [i Hi].
        pose proof (lookup_lt_Some _ _ _ Hi). destruct (Hwf i m Hi) as (? & _ & ?). lia.
    + intros ->%list_elem_of_singleton. cbn in Hq. eapply merge_pairs_gone; [..|exact Hq]; lia.
Qed.

Section train_loop.
Context (freqs : list Z) (Hpos : Forall (λ f, 0 < f)%Z freqs).
Context (set_order : gset nat → list nat) (Horder : ∀ X, set_order X ≡ₚ elements X).

Lemma max_pair_most_frequent tr best c :
  tr_ok freqs tr → max_pair (map_to_list (pair_counts tr)) = Some (best, c) →
  most_frequent freqs (t_words tr) best ∧ c = total freqs (t_words tr) best.
Proof.
  intros Htr Hm. apply max_pair_spec in Hm as [Hin Hmax].
  apply elem_of_map_to_list in Hin. rw (tk_counts _ _ Htr) /positive_count in Hin.
  destruct (Z.ltb_spec 0 (total freqs (t_words tr) best)) as [Hp|]; [|done]. injection Hin as <-.
  split; [|done]. split; [done|]. intros q. destruct (Z.ltb_spec 0 (total freqs (t_words tr) q)) as [Hq|Hq].
  - apply Hmax. apply elem_of_map_to_list. rw (tk_counts _ _ Htr) positive_count_pos //.
  - rw /key_lt /pair_lt /=. lia.
Qed.

Lemma train_loop_spec mf n : ∀ next_id ms tr,
  tr_ok freqs tr → progress next_id ms (t_words tr) →
  ∃ new tr', train_loop freqs set_order n mf next_id ms tr = (ms ++ new, next_id + Z.of_nat (length new), tr')%Z ∧
    bpe_run freqs mf n next_id (t_words tr) new (t_words tr') ∧ wf_merges (ms ++ new).
Proof.
  induction n as [|n IH]; intros next_id ms tr Htr Hpr; cbn [train_loop].
  { exists [], tr. rw app_nil_r Z.add_0_r. split_and!; [done|constructor|by destruct Hpr]. }
  destruct (max_pair (map_to_list (pair_counts tr))) as [[best c]|] eqn:Hm; last first.
  { exists [], tr. rw app_nil_r Z.add_0_r. split_and!; [done| |by destruct Hpr]. apply bpe_rare. intros p Hp.
    destruct (map_to_list (pair_counts tr)) as [|x l] eqn:Hl; [|done].
    apply map_to_list_empty_iff in Hl. pose proof (tk_counts _ _ Htr p) as Hc.
    rw Hl lookup_empty positive_count_pos // in Hc. }
  destruct (max_pair_most_frequent tr best c Htr Hm) as [Hmf ->].
  destruct (Z.ltb_spec (total freqs (t_words tr) best) mf) as [Hlt|Hge].
  { exists [], tr. rw app_nil_r Z.add_0_r. split_and!; [done| |by destruct Hpr]. apply bpe_rare. intros p Hp.
    destruct Hmf as [_ Hmax]. specialize (Hmax p). rw /key_lt /= in Hmax. lia. }
  destruct (proj1 (total_pos freqs (t_words tr) best (tk_len _ _ Htr) Hpos)) as (w0 & Hw0 & Hb0); [by destruct Hmf|].
  destruct (progress_merge next_id ms (t_words tr) best w0 Hpr Hw0 Hb0) as (Hpr' & -> & Hn1 & Hn2).
  destruct (merge_step_ok freqs Hpos set_order Horder best next_id tr Htr Hn1 Hn2) as [Htr' Hws].
  destruct (IH (next_id + 1)%Z (ms ++ [(best, next_id)]) (merge_step freqs set_order best next_id tr)) as (new & tr' & Heq & Hrun & Hwf).
  { done. } { by rw Hws. }
  exists ((best, next_id) :: new), tr'. rw Heq. rw -!assoc in Hwf |- *. split_and!; [|by econstructor; [..|rw -Hws]|done].
  do 2 f_equal. cbn [length]. lia.
Qed.
End train_loop.

(** The table of pre-tokens: every count positive, every key a byte string. *)
Definition counts_ok (counts : list (list Z * Z)) : Prop :=
  Forall (λ wc, Forall (λ b, 0 ≤ b < 256)%Z wc.1 ∧ (0 < wc.2)%Z) counts.

Lemma count_piece_ok counts b : counts_ok counts → Forall (λ x, 0 ≤ x < 256)%Z b → counts_ok (count_piece counts b).
Proof.
  intros Hc Hb. rw /count_piece. destruct (dget b counts) as [n|] eqn:Hd; cbn [default from_option id].
  - destruct (dset_split b (n + 1)%Z n counts Hd) as (d1 & d2 & Heq & ->). rw Heq in Hc.
    apply Forall_app in Hc as [H1 H2]. apply Forall_cons in H2 as [[? ?] H2]. apply Forall_app. split; [done|].
    constructor; [|done]. cbn in *. split; [done|lia].
  - rw dset_notin; [|by apply dget_None]. apply Forall_app. split; [done|]. constructor; [|constructor]. by split.
Qed.

Lemma count_corpus_ok `{UnicodeLaws} corpus : Forall (λ text, forallb scalar text = true) corpus →
  ∃ counts, count_corpus corpus = Ok counts ∧ counts_ok counts.
Proof.
  intros Hall. rw /count_corpus.
  assert (Forall (λ piece, forallb scalar piece = true) (corpus ≫= findall SPLIT_PATTERN)) as Hps.
  { apply Forall_forall. intros piece Hin. apply list_elem_of_bind in Hin as (text & Hin & Htext).
    rw Forall_forall in Hall. eapply scalar_part; [|exact Hin]. destruct (findall_split text) as [-> _].
    by apply scalar_filter, Hall. }
  clear Hall. assert (counts_ok []) as Hc by constructor. revert Hc. generalize (@nil (list Z * Z)).
  induction Hps as [|piece ps Hp _ IH]; intros counts Hc; [by exists counts|]. cbn [foldl].
  rw utf8_encode_ok //. apply IH, count_piece_ok; [done|by apply utf8_bytes].
Qed.

(** The special tokens get the ids after the last merge. *)
Lemma special_ids_ok (next_id : Z) (sps : list (list Z)) : NoDup sps → ∀ k d,
  (∀ s, s ∈ sps → s ∉ d.*1) →
  foldl (λ d it, dset it.2 (next_id + Z.of_nat it.1)%Z d) d (imap (λ i s, (k + i, s)) sps) =
  d ++ imap (λ i s, (s, next_id + Z.of_nat (k + i))%Z) sps.
Proof.
  induction 1 as [|s sps Hn Hnd IH]; intros k d Hd; cbn; [by rw app_nil_r|].
  rw dset_notin; [|apply Hd; by left]. rw Nat.add_0_r.
  rw (imap_ext ((λ (i : nat) s, (k + i, s)) ∘ S) (λ i s, (S k + i, s))); [|intros i x _; cbn; f_equal; lia].
  rw IH.
  - rw -assoc. cbn. do 2 f_equal. apply imap_ext. intros i x _. cbn. do 2 f_equal. lia.
  - intros x Hx. rw fmap_app not_elem_of_app. split; [apply Hd; by right|]. cbn. intros ->%list_elem_of_singleton. done.
Qed.

Lemma special_ids_wf ms (sps : list (list Z)) :
  NoDup sps → Forall (λ s, s ≠ [] ∧ forallb scalar s = true) sps →
  wf_specials ms (imap (λ i s, (s, 256 + Z.of_nat (length ms) + Z.of_nat (0 + i))%Z) sps).
Proof.
  intros Hnd Hall. split.
  - rw fmap_imap. apply NoDup_alt. intros i j x Hi Hj. rw list_lookup_imap in Hi. rw list_lookup_imap in Hj.
    destruct (sps !! i), (sps !! j); try done. cbn in Hi, Hj. simplify_eq. lia.
  - apply Forall_lookup. intros i x Hi. rw list_lookup_imap in Hi. destruct (sps !! i) as [s|] eqn:Hs; [|done].
    injection Hi as <-. rw Forall_lookup in Hall. destruct (Hall _ _ Hs). cbn. split_and!; [done|done|lia].
Qed.

(** How large the vocabulary is. *)
Lemma add_merges_size ms : ∀ k v v',
  (∀ i m, ms !! i = Some m → m.2 = (k + Z.of_nat i)%Z) → (∀ i, (k ≤ i)%Z → v !! i = None) →
  add_merges ms v = Ok v' →
  size v' = size v + length ms ∧ ∀ i, (k + Z.of_nat (length ms) ≤ i)%Z → v' !! i = None.
Proof.
  induction ms as [|[[a b] n] ms IH]; intros k v v' Hms Hv; cbn [add_merges length].
  { intros [= <-]. split; [lia|]. intros i Hi. apply Hv. lia. }
  destruct (v !! a) as [x|]; [|done]. destruct (v !! b) as [y|]; [|done]. intros Hadd.
  pose proof (Hms 0 _ eq_refl) as Hn. cbn in Hn.
  destruct (IH (k + 1)%Z (<[n := x ++ y]> v) v') as [Hsz Hnone]; [..|exact Hadd|].
  { intros i m Hi. rw (Hms (S i) m Hi). lia. }
  { intros i Hi. rw lookup_insert_ne; [apply Hv|]; lia. }
  split; [|intros i Hi; apply Hnone; lia].
  rw Hsz map_size_insert_None; [lia|]. apply Hv. lia.
Qed.

Lemma add_specials_size sp : ∀ v v',
  NoDup sp.*2 → (∀ i, i ∈ sp.*2 → v !! i = None) → add_specials sp v = Ok v' → size v' = size v + length sp.
Proof.
  induction sp as [|[text tid] sp IH]; intros v v' Hnd Hv; cbn [add_specials length]; [intros [= <-]; lia|].
  apply NoDup_cons in Hnd as [Hn Hnd]. destruct (utf8_encode text) as [b|]; [|done]. intros Hadd.
  rw (IH (<[tid := b]> v) v' Hnd) //.
  - rw map_size_insert_None; [lia|]. apply Hv. by left.
  - intros i Hi. rw lookup_insert_ne; [|by intros ->]. apply Hv. by right.
Qed.

Lemma byte_vocab_none i : (256 ≤ i)%Z → byte_vocab !! i = None.
Proof.
  intros Hi. apply not_elem_of_list_to_map_1. rw -list_fmap_compose. intros Hin.
  apply list_elem_of_fmap in Hin as (j & -> & Hj%elem_of_seq). cbn in Hi. lia.
Qed.

Lemma byte_vocab_size : size byte_vocab = 256.
Proof. vm_compute. reflexivity. Qed.

Lemma new_tokenizer_size ms sp t : wf_merges ms → wf_specials ms sp → new_tokenizer ms sp = Ok t →
  vocab_size t = 256 + length ms + length sp.
Proof.
  intros [_ Hwf] [Hnd Hall]. rw /new_tokenizer /vocab_size.
  destruct (add_merges ms byte_vocab) as [v|] eqn:Hm; [|done].
  destruct (add_specials sp v) as [v'|] eqn:Hs; [|done]. intros [= <-]. cbn.
  destruct (add_merges_size ms 256 byte_vocab v) as [Hsz Hnone]; [|apply byte_vocab_none|done|].
  { intros i m Hi. by destruct (Hwf i m Hi). }
  rw (add_specials_size sp v v' Hnd); [by rw Hsz byte_vocab_size| |exact Hs].
  intros i Hi. apply Hnone. apply list_elem_of_fmap in Hi as (s & -> & Hin).
  rw Forall_forall in Hall. by destruct (Hall _ Hin) as (_ & _ & ?).
Qed.

(** C9: training computes byte-pair encoding, and encoding agrees with training.
    Whatever order sets are iterated in, [train] over encodable text with room for
    the special tokens raises nothing and returns a well-formed tokenizer of at most
    the requested size whose merges are those of the definition (the most frequent
    pair of the whole corpus, counted afresh, merged everywhere, ties to the larger
    pair, until there are enough merges or no pair is frequent enough): the counts
    maintained word by word never drift.  And [_encode_piece] segments every pre-token
    of the corpus exactly as training left it. *)
Theorem train_exact `{UnicodeLaws} set_order corpus vsize specials mf :
  (∀ X, set_order X ≡ₚ elements X) →
  Forall (λ text, forallb scalar text = true) corpus →
  NoDup specials → Forall (λ s, s ≠ [] ∧ forallb scalar s = true) specials →
  (256 + Z.of_nat (length specials) ≤ vsize)%Z →
  ∃ counts t words,
    count_corpus corpus = Ok counts ∧ train set_order corpus vsize specials mf = Ok t ∧ tok_ok t ∧
    (Z.of_nat (vocab_size t) ≤ vsize)%Z ∧
    bpe_run counts.*2 mf (Z.to_nat (vsize - 256 - Z.of_nat (length specials))) 256 counts.*1 (merges t) words ∧
    ∀ i piece segmented, counts.*1 !! i = Some piece → words !! i = Some segmented →
      wp (_encode_piece piece) (λ ids t', ids = segmented ∧ tok_ok t' ∧ same_tok t t') never t.
Proof.
  intros Horder Hcorpus Hnd Hsp Hsize. destruct (count_corpus_ok corpus Hcorpus) as (counts & Hc & Hok).
  assert (Forall (λ f, 0 < f)%Z counts.*2) as Hpos.
  { apply Forall_fmap. eapply Forall_impl; [exact Hok|]. by intros x []. }
  destruct (train_loop_spec counts.*2 Hpos set_order Horder mf (Z.to_nat (vsize - 256 - Z.of_nat (length specials)))
    256 [] (index_words counts.*2 counts.*1)) as (ms & tr & Heq & Hrun & Hwf).
  { apply (index_words_ok _ Hpos set_order Horder). by rw !length_fmap. }
  { split_and!; [split; [constructor|done]|done| |].
    - apply Forall_fmap. eapply Forall_impl; [exact Hok|]. by intros x [].
    - intros w q _ _. apply not_elem_of_nil. }
  cbn [app] in Heq, Hwf. cbn [t_words index_words] in Hrun.
  pose proof (special_ids_wf ms specials Hnd Hsp) as Hws.
  destruct (new_tokenizer_ok ms _ Hwf Hws) as (t & Ht & Htok & Hms & _).
  assert (train set_order corpus vsize specials mf = Ok t) as Htrain.
  { rw /train. destruct (Z.ltb_spec (vsize - BYTE_VOCAB_SIZE - Z.of_nat (length specials)) 0); [rw /BYTE_VOCAB_SIZE in H1; lia|].
    rw Hc Heq. pose proof (special_ids_ok (256 + Z.of_nat (length ms)) specials Hnd 0 []) as Hids. cbn in Hids.
    rw Hids; [|intros s _; apply not_elem_of_nil]. exact Ht. }
  exists counts, t, (t_words tr). rw Hms. split_and!; try done.
  - rw (new_tokenizer_size ms _ t Hwf Hws Ht) length_imap. pose proof (bpe_run_length _ _ _ _ _ _ _ Hrun). lia.
  - intros i piece seg Hi Hj. eapply wp_mono; [by apply encode_piece_spec| |done]. intros ids t' (-> & Ht' & Hs).
    split_and!; try done. rw (bpe_run_replay _ _ _ _ _ _ _ Hrun) list_lookup_fmap Hi in Hj. injection Hj as <-. by rw Hms.
Qed.

(** A corpus: ["the the the cat"]. *)
Definition toy_corpus : list (list Z) := [[116; 104; 101; 32; 116; 104; 101; 32; 116; 104; 101; 32; 99; 97; 116]]%Z.

Lemma train_exact_witness :
  (merges <$> match train elements toy_corpus 260 [END_OF_TEXT] 2 with Ok t => Some t | Raise _ => None end)
    = Some [((116, 104), 256); ((256, 101), 257); ((32, 257), 258)]%Z ∧
  ∃ counts t words,
    count_corpus toy_corpus = Ok counts ∧ train elements toy_corpus 260 [END_OF_TEXT] 2 = Ok t ∧ tok_ok t ∧
    bpe_run counts.*2 2 3 256 counts.*1 (merges t) words.
Proof.
  split; [vm_compute; reflexivity|].
  destruct (train_exact elements toy_corpus 260 [END_OF_TEXT] 2) as (counts & t & words & H1 & H2 & H3 & _ & H4 & _).
  - intros X. reflexivity.
  - repeat constructor.
  - apply NoDup_singleton.
  - repeat constructor. discriminate.
  - vm_compute. discriminate.
  - exists counts, t, words. split_and!; [exact H1|exact H2|exact H3|exact H4].
Defined.

Lemma new_tokenizer_fields ms sp t :
  new_tokenizer ms sp = Ok t → merges t = ms ∧ special_tokens t = sp ∧ _cache t = ∅.
Proof.
  rw /new_tokenizer. destruct (add_merges ms byte_vocab) as [v|]; [|done].
  destruct (add_specials sp v) as [v'|]; [|done]. by intros [= <-].
Qed.

(** C23: a saved tokenizer is the same tokenizer.  Given a serializer that gives back
    the payloads it wrote, [load] of what [save] wrote, at any time and whatever was
    encoded since, returns the tokenizer as it was constructed: the same merges in the
    same order, the same special tokens, the same derived tables, an empty memo table. *)
Theorem save_load {File} (dumps : Payload → File) loads ms sp t0 t :
  (∀ p, loads (dumps p) = Ok p) → NoDup ms.*1 → new_tokenizer ms sp = Ok t0 → same_tok t0 t →
  load loads (save dumps t) = Ok t0.
Proof.
  intros Hser Hnd Hnew Hs. destruct (new_tokenizer_fields _ _ _ Hnew) as (Hms & Hsp & _).
  rw /load /save Hser. cbn [version Z.eqb Pos.eqb pl_merges pl_special_tokens].
  assert (merges t = ms ∧ special_tokens t = sp) as [-> ->] by by rw Hs.
  assert (mapM (λ m, match m with [a; b; i] => Some ((a, b), i) | _ => None end)
    ((λ m : (Z * Z) * Z, [m.1.1; m.1.2; m.2]) <$> ms) = Some ms) as ->.
  { apply mapM_Some. apply Forall2_fmap_l, Forall_Forall2_diag, Forall_true. by intros [[a b] i]. }
  assert (∀ ms d : Merges, NoDup (d ++ ms).*1 → foldl (λ d m, dset m.1 m.2 d) d ms = d ++ ms) as Hdict.
  { clear. induction ms as [|[p i] ms IH]; intros d Hnd; cbn; [by rw app_nil_r|].
    pose proof Hnd as Hnd'. rw fmap_app /= in Hnd. apply NoDup_app in Hnd as (_ & Hd & _).
    rw dset_notin; [|intros Hin; eapply Hd; [exact Hin|by left]]. rw IH -assoc //. }
  rw Hdict //.
Qed.

Lemma save_load_witness :
  load Ok (save (λ p, p) (encode toy_text false toy_tok).2) = Ok toy_tok.
Proof.
  apply (save_load (λ p, p) Ok toy_merges toy_specials).
  - intros p. reflexivity.
  - apply toy_merges_wf.
  - vm_compute. reflexivity.
  - vm_compute. reflexivity.
Defined.
