(* ===== verification/Streaming.v ===== *)
(** * Streaming text (engine/server.py, engine/replica.py, model/generate.py)

    Tokens arrive one by one; the text of all of them is decoded each time, held back
    while it ends in a replacement character (half of a multi-byte character), and
    otherwise whatever is new is sent.  The three streaming loops of the program share
    this step. *)

From Stdlib Require Import ssreflect.
From stdpp Require Import prelude gmap list.
From S2P Require Import Prelude Text Tokenizer.

Record Emitter := mkEmitter { produced : list Z; emitted_chars : nat }.
Definition emitter_init : Emitter := mkEmitter [] 0.

(** [text.endswith("\ufffd")]. *)
Definition held_back (text : list Z) : bool := bool_decide (last text = Some REPLACEMENT).

(** One token: the new state, and the piece to send if there is one. *)
Definition push (t : BPETokenizer) (token : Z) (em : Emitter) : result (Emitter * option (list Z)) :=
  let ids := produced em ++ [token] in
  match decode t ids with
  | Raise e => Raise e
  | Ok text =>
      if held_back text then Ok (mkEmitter ids (emitted_chars em), None)
      else if emitted_chars em <? length text then
        Ok (mkEmitter ids (length text), Some (drop (emitted_chars em) text))
      else Ok (mkEmitter ids (emitted_chars em), None)
  end.

Fixpoint push_all (t : BPETokenizer) (tokens : list Z) (em : Emitter) : result (Emitter * list (list Z)) :=
  match tokens with
  | [] => Ok (em, [])
  | x :: tokens =>
      match push t x em with
      | Raise e => Raise e
      | Ok (em, piece) =>
          match push_all t tokens em with
          | Raise e => Raise e
          | Ok (em, pieces) => Ok (em, match piece with Some p => p :: pieces | None => pieces end)
          end
      end
  end.

Definition known (t : BPETokenizer) (ids : list Z) : Prop := Forall (λ i, is_Some (vocab t !! i)) ids.

Lemma id_bytes_known t ids : known t ids → ∃ b, id_bytes t ids = Ok b.
Proof.
  intros Hk. rw /id_bytes. destruct (mapM (λ i, vocab t !! i) ids) as [bs|] eqn:Hm; [by eexists|].
  exfalso. apply mapM_None in Hm. apply Exists_exists in Hm as (i & Hi & Hn). rw /known Forall_forall in Hk.
  destruct (Hk i Hi) as [x Hx]. congruence.
Qed.

Lemma decode_known t ids b : id_bytes t ids = Ok b → decode t ids = Ok (utf8_decode b).
Proof. by rw /decode => ->. Qed.

(** Everything sent so far is the text of a settled prefix of the tokens. *)
Record settled_at (t : BPETokenizer) (em : Emitter) (sent : list Z) : Prop := {
  sa_known : known t (produced em);
  sa_chars : emitted_chars em = length sent;
  sa_text : ∃ front back, produced em = front ++ back ∧ decode t front = Ok sent ∧ held_back sent = false;
}.

Lemma decode_app t front back sent b :
  decode t front = Ok sent → held_back sent = false → id_bytes t back = Ok b →
  decode t (front ++ back) = Ok (sent ++ utf8_decode b).
Proof.
  rw /decode. destruct (id_bytes t front) as [bf|] eqn:Hf; [|done]. intros [= <-] Hh Hb.
  rw (id_bytes_app t front back bf b) //. f_equal. apply utf8_decode_app. by apply bool_decide_eq_false_1 in Hh.
Qed.

Lemma settled_init t : settled_at t emitter_init [].
Proof.
  split; [constructor|done|]. by exists [], [].
Qed.

Lemma push_settled t em sent token :
  settled_at t em sent → is_Some (vocab t !! token) →
  ∃ em' piece, push t token em = Ok (em', piece) ∧ produced em' = produced em ++ [token] ∧ piece ≠ Some [] ∧
    settled_at t em' (sent ++ default [] piece) ∧
    ∃ text, decode t (produced em') = Ok text ∧ (held_back text = true ∨ text = sent ++ default [] piece).
Proof.
  intros [Hk Hc (front & back & Hp & Hd & Hh)] Htok.
  assert (known t (produced em ++ [token])) as Hk' by (apply Forall_app; split; [done|by constructor]).
  destruct (id_bytes_known t (back ++ [token])) as [b Hb].
  { rw Hp -assoc in Hk'. by apply Forall_app in Hk' as [_ ?]. }
  assert (decode t (produced em ++ [token]) = Ok (sent ++ utf8_decode b)) as Htext.
  { rw Hp -assoc. by apply decode_app. }
  rw /push Htext. destruct (held_back (sent ++ utf8_decode b)) eqn:Hheld.
  - exists (mkEmitter (produced em ++ [token]) (emitted_chars em)), None. cbn. rw app_nil_r.
    split_and!; [done|done|done| |by eexists; eauto]. split; [done|done|]. exists front, (back ++ [token]). cbn.
    by rw Hp -assoc.
  - destruct (utf8_decode b) as [|c l] eqn:Hl.
    + rw app_nil_r Hc Nat.ltb_irrefl. exists (mkEmitter (produced em ++ [token]) (length sent)), None. cbn. rw app_nil_r.
      split_and!; [done|done|done| |by rw app_nil_r in Htext; eauto]. split; [done|done|].
      exists front, (back ++ [token]). cbn. by rw Hp -assoc.
    + rw Hc length_app. cbn [length]. destruct (Nat.ltb_spec (length sent) (length sent + S (length l))); [|lia].
      rw drop_app_length. eexists _, (Some (c :: l)). cbn [default from_option id]. split_and!; [done|done|done| |by eauto].
      split; [done|by rw length_app|]. exists (produced em ++ [token]), []. cbn. by rw app_nil_r.
Qed.

Lemma push_all_snoc t l x em em1 pieces em2 piece :
  push_all t l em = Ok (em1, pieces) → push t x em1 = Ok (em2, piece) →
  push_all t (l ++ [x]) em = Ok (em2, pieces ++ match piece with Some p => [p] | None => [] end).
Proof.
  revert em pieces. induction l as [|y l IH]; intros em pieces; cbn [push_all app].
  { intros [= <- <-] ->. by destruct piece. }
  destruct (push t y em) as [[em' py]|]; [|done]. destruct (push_all t l em') as [[em'' ps]|] eqn:Hl; [|done].
  intros [= <- <-] Hx. rw (IH em' ps Hl Hx). by destruct py.
Qed.

Lemma push_all_snoc_inv t l x em em1 pieces r :
  push_all t l em = Ok (em1, pieces) → push_all t (l ++ [x]) em = Ok r → ∃ em2 piece, push t x em1 = Ok (em2, piece).
Proof.
  revert em pieces r. induction l as [|y l IH]; intros em pieces r; cbn [push_all app].
  { intros [= <- <-]. destruct (push t x em) as [[em2 piece]|]; [by eauto|done]. }
  destruct (push t y em) as [[em' py]|]; [|done]. destruct (push_all t l em') as [[em'' ps]|] eqn:Hl; [|done].
  intros [= <- <-]. destruct (push_all t (l ++ [x]) em') as [r'|] eqn:Hr; [|done]. intros _. by eapply IH.
Qed.

(** Tokens of the vocabulary are always streamed. *)
Lemma push_all_known t l : known t l → ∃ em pieces, push_all t l emitter_init = Ok (em, pieces) ∧ produced em = l ∧
  settled_at t em (concat pieces).
Proof.
  induction l as [|x l IH] using rev_ind; intros Hk; [exists emitter_init, []; split_and!; [done|done|apply settled_init]|].
  apply Forall_app in Hk as [Hk Hx]. apply Forall_cons in Hx as [Hx _]. destruct (IH Hk) as (em & pieces & Hp & Hl & Hs).
  destruct (push_settled t em _ x Hs Hx) as (em' & piece & Hpush & Hprod & _ & Hs' & _).
  eexists em', _. split; [by eapply push_all_snoc|]. split; [by rw Hprod Hl|]. rw concat_app.
  destruct piece; cbn in *; by rw ?app_nil_r in Hs' |- *.
Qed.

(** Pushing tokens keeps what was sent settled; only text still held back is missing. *)
Lemma push_all_settled t tokens : known t tokens → ∀ em sent, settled_at t em sent →
  (∃ text, decode t (produced em) = Ok text ∧ (held_back text = true ∨ text = sent)) →
  ∃ em' pieces, push_all t tokens em = Ok (em', pieces) ∧ produced em' = produced em ++ tokens ∧ Forall (.≠ []) pieces ∧
    settled_at t em' (sent ++ concat pieces) ∧
    ∃ text, decode t (produced em') = Ok text ∧ (held_back text = true ∨ text = sent ++ concat pieces).
Proof.
  induction 1 as [|x tokens Hx Hk IH]; intros em sent Hs Hd; cbn [push_all].
  { exists em, []. cbn. rw !app_nil_r. split_and!; try done. }
  destruct (push_settled t em sent x Hs Hx) as (em1 & piece & Hpush & Hp1 & Hne & Hs1 & Hd1). rw Hpush.
  destruct (IH em1 _ Hs1 Hd1) as (em2 & pieces & Hall & Hp2 & Hnes & Hs2 & Hd2). rw Hall.
  eexists em2, _. split; [reflexivity|]. rw Hp2 Hp1 -assoc in Hd2 |- *. rw -assoc in Hs2, Hd2.
  destruct piece as [piece|]; cbn in *; split_and!; try done. constructor; [|done]. by intros ->.
Qed.

(** What is said after each token, with the token that let it be said: nothing while the
    text of all the tokens so far ends inside a character or adds nothing, and otherwise
    whatever brings the client to exactly that text. *)
Inductive spells (t : BPETokenizer) : list Z → list (Z * list Z) → Prop :=
  | spells_nil : spells t [] []
  | spells_hold tokens said x text :
      spells t tokens said → decode t (tokens ++ [x]) = Ok text →
      held_back text = true ∨ text = concat said.*2 →
      spells t (tokens ++ [x]) said
  | spells_say tokens said x piece :
      spells t tokens said → piece ≠ [] →
      decode t (tokens ++ [x]) = Ok (concat said.*2 ++ piece) → held_back (concat said.*2 ++ piece) = false →
      spells t (tokens ++ [x]) (said ++ [(x, piece)]).

(** The emitter's state after saying [said]. *)
Definition saying (t : BPETokenizer) (em : Emitter) (said : list (Z * list Z)) : Prop :=
  spells t (produced em) said ∧ settled_at t em (concat said.*2).

Lemma saying_init t : saying t emitter_init [].
Proof. split; [constructor|apply settled_init]. Qed.

Definition said_next (x : Z) (piece : option (list Z)) : list (Z * list Z) :=
  match piece with Some p => [(x, p)] | None => [] end.

Lemma push_saying t em said x :
  saying t em said → is_Some (vocab t !! x) →
  ∃ em' piece, push t x em = Ok (em', piece) ∧ produced em' = produced em ++ [x] ∧
    saying t em' (said ++ said_next x piece).
Proof.
  intros [Hsp Hset] Hx. destruct (push_settled t em _ x Hset Hx) as (em' & piece & Hpush & Hprod & Hne & Hset' & text & Hd & Hor).
  exists em', piece. split_and!; [done|done|]. split.
  - rw Hprod in Hd |- *. destruct piece as [piece|]; cbn [said_next default] in *.
    + destruct Hor as [Hheld| ->].
      { rw /push Hd Hheld in Hpush. done. }
      apply spells_say; [done|by intros ->|done|]. destruct (held_back _) eqn:Hh; [|done]. by rw /push Hd Hh in Hpush.
    + cbn in Hor. rw app_nil_r in Hor. rw app_nil_r. eapply spells_hold; [exact Hsp|exact Hd|exact Hor].
  - rw fmap_app concat_app. destruct piece; cbn in *; by rw ?app_nil_r in Hset' |- *.
Qed.

(** What a client receives is the text, never a broken character.  Streaming any
    tokens of the vocabulary raises nothing, and the pieces sent, each non-empty, join
    to a text that does not end in a replacement character and is the decoding of a
    prefix of the tokens; it is the decoding of all of them unless that ends in a
    replacement character, that is, inside a multi-byte character. *)
Theorem stream_text t tokens :
  known t tokens →
  ∃ em pieces text, push_all t tokens emitter_init = Ok (em, pieces) ∧ produced em = tokens ∧
    Forall (.≠ []) pieces ∧ held_back (concat pieces) = false ∧
    (∃ front, front `prefix_of` tokens ∧ decode t front = Ok (concat pieces)) ∧
    decode t tokens = Ok text ∧ (held_back text = false → concat pieces = text).
Proof.
  intros Hk.
  destruct (push_all_settled t tokens Hk emitter_init [] (settled_init t)) as (em & pieces & Hall & Hp & Hne & [_ _ (front & back & Heq & Hd & Hh)] & text & Ht & Hor).
  { exists []. split; [done|by right]. }
  cbn in *. exists em, pieces, text. split_and!; try done.
  - exists front. split; [|done]. rw -Hp Heq. by apply prefix_app_r.
  - by rw -Hp.
  - intros Hf. destruct Hor; congruence.
Qed.

(** The euro sign, three bytes in three tokens, then a letter. *)
Lemma stream_text_witness :
  (∃ em, push_all toy_tok [226; 130; 172; 257]%Z emitter_init = Ok (em, [[8364]; [116; 104; 101]]%Z)) ∧
  ∃ em pieces text, push_all toy_tok [226; 130; 172; 257]%Z emitter_init = Ok (em, pieces) ∧
    decode toy_tok [226; 130; 172; 257]%Z = Ok text ∧ (held_back text = false → concat pieces = text).
Proof.
  split; [eexists; vm_compute; reflexivity|].
  destruct (stream_text toy_tok [226; 130; 172; 257]%Z) as (em & pieces & text & H1 & _ & _ & _ & _ & H2 & H3).
  - repeat constructor; eexists; vm_compute; reflexivity.
  - exists em, pieces, text. split; [exact H1|]. split; [exact H2|exact H3].
Defined.
