(* ===== verification/Metrics.v ===== *)
(** * Prometheus metrics (engine/metrics.py)

    One engine's collectors.  A labelled counter is the map of its children, a
    histogram the list of what it observed (its buckets count that list), a gauge its
    last value.  The engine's cumulative totals are exported as increments. *)

From Stdlib Require Import ssreflect QArith Qcanon.
From stdpp Require Import prelude gmap gmultiset strings list.
From S2P Require Import Prelude Types.

(** [FinishReason(...).value]. *)
Definition reason_value (r : FinishReason) : string :=
  match r with
  | EOS => "eos" | LENGTH => "length" | CANCELLED => "cancelled"
  | REJECTED => "rejected" | PREEMPTED => "preempted"
  end.

Record EngineMetrics := mkMetrics {
  requests_total : gmap string nat;
  requests_rejected : gmap string nat;
  prompt_tokens : nat;
  generation_tokens : nat;
  m_preemptions : nat;
  prefix_hit_blocks : nat;
  prefix_query_blocks : nat;
  g_running : nat;
  g_waiting : nat;
  g_kv_usage : Qc;
  g_kv_blocks_total : Z;
  h_ttft : list Qc;
  h_inter_token : list Qc;
  h_e2e : list Qc;
  h_queue_time : list Qc;
  h_output_tokens : list nat;
  _preemptions : nat;          (* totals already exported *)
  _prefix_hits : nat;
  _prefix_queries : nat;
}.

Definition metrics_init : EngineMetrics := mkMetrics ∅ ∅ 0 0 0 0 0 0 0 0%Qc 0 [] [] [] [] [] 0 0 0.

(** [counter.labels(l).inc()]. *)
Definition inc (l : string) (m : gmap string nat) : gmap string nat := <[l := S (default 0 (m !! l))]> m.

(** [if x is not None: h.observe(x)]. *)
Definition observe (x : option Qc) (h : list Qc) : list Qc := match x with Some v => h ++ [v] | None => h end.
Definition clamp (x : Qc) : Qc := if bool_decide (x < 0)%Qc then 0%Qc else x.

Definition observe_finished (q : Request) (m : EngineMetrics) : EngineMetrics :=
  match finish_reason q with
  | Some REJECTED =>
      let reason := if bool_decide (rejection_reason q = ""%string) then "unknown"%string else rejection_reason q in
      mkMetrics (requests_total m) (inc reason (requests_rejected m)) (prompt_tokens m) (generation_tokens m)
        (m_preemptions m) (prefix_hit_blocks m) (prefix_query_blocks m)
        (g_running m) (g_waiting m) (g_kv_usage m) (g_kv_blocks_total m)
        (h_ttft m) (h_inter_token m) (h_e2e m) (h_queue_time m) (h_output_tokens m)
        (_preemptions m) (_prefix_hits m) (_prefix_queries m)
  | r =>
      let reason := match r with Some r => reason_value r | None => "unknown"%string end in
      mkMetrics (inc reason (requests_total m)) (requests_rejected m)
        (prompt_tokens m + prompt_len q) (generation_tokens m + output_len q)
        (m_preemptions m) (prefix_hit_blocks m) (prefix_query_blocks m)
        (g_running m) (g_waiting m) (g_kv_usage m) (g_kv_blocks_total m)
        (observe (ttft q) (h_ttft m)) (h_inter_token m ++ inter_token_latencies q)
        (observe (e2e_latency q) (h_e2e m)) (observe (clamp <$> queue_time q) (h_queue_time m))
        (h_output_tokens m ++ [output_len q])
        (_preemptions m) (_prefix_hits m) (_prefix_queries m)
  end.

(** [_advance]: the counter and the total it has seen. *)
Definition _advance (counter seen total : nat) : nat * nat :=
  if seen <? total then (counter + (total - seen), total) else (counter, seen).

(** [observe_engine], of a snapshot and the engine's running totals. *)
Definition observe_engine (s : EngineStats) (preemptions hits queries : nat) (m : EngineMetrics) : EngineMetrics :=
  let p := _advance (m_preemptions m) (_preemptions m) preemptions in
  let h := _advance (prefix_hit_blocks m) (_prefix_hits m) hits in
  let q := _advance (prefix_query_blocks m) (_prefix_queries m) queries in
  mkMetrics (requests_total m) (requests_rejected m) (prompt_tokens m) (generation_tokens m) p.1 h.1 q.1
    (num_running s) (num_waiting s) (kv_utilization s) (kv_blocks_total s)
    (h_ttft m) (h_inter_token m) (h_e2e m) (h_queue_time m) (h_output_tokens m) p.2 h.2 q.2.

(** ** Accounting *)

(** What is reported to the collectors, in order. *)
Inductive report :=
  | Finished (q : Request)
  | Sampled (s : EngineStats) (preemptions hits queries : nat).

Definition record (r : report) (m : EngineMetrics) : EngineMetrics :=
  match r with
  | Finished q => observe_finished q m
  | Sampled s p h q => observe_engine s p h q m
  end.

Definition count_all (m : gmap string nat) : nat := map_fold (λ _ n acc, n + acc) 0 m.
Definition is_rejection (q : Request) : bool := bool_decide (finish_reason q = Some REJECTED).
Definition requests_of (rs : list report) : list Request :=
  rs ≫= λ r, match r with Finished q => [q] | Sampled _ _ _ _ => [] end.
Definition snapshots_of (rs : list report) : list (nat * nat * nat) :=
  rs ≫= λ r, match r with Finished _ => [] | Sampled _ p h q => [(p, h, q)] end.
Definition max_of (l : list nat) : nat := foldr Nat.max 0 l.

Lemma count_all_inc l m : count_all (inc l m) = S (count_all m).
Proof.
  rw /count_all /inc. destruct (m !! l) as [n|] eqn:Hl; cbn [default from_option id].
  - rw -(insert_delete_eq m l (S n)) map_fold_insert_L; [..|apply lookup_delete_eq]; [|intros; lia].
    rw -{2}(insert_id m l n Hl) -(insert_delete_eq m l n) map_fold_insert_L; [..|apply lookup_delete_eq]; [|intros; lia]. lia.
  - rw map_fold_insert_L //. intros; lia.
Qed.

Lemma max_of_snoc l x : max_of (l ++ [x]) = max_of l `max` x.
Proof. rw /max_of. induction l as [|y l IH]; cbn; [lia|]. rw IH. lia. Qed.

Lemma advance_max c total : _advance c c total = (c `max` total, c `max` total).
Proof. rw /_advance. destruct (Nat.ltb_spec c total); f_equal; lia. Qed.

Record accounts (rs : list report) (m : EngineMetrics) : Prop := {
  ac_served : count_all (requests_total m) = length (filter (λ q, is_rejection q = false) (requests_of rs));
  ac_rejected : count_all (requests_rejected m) = length (filter (λ q, is_rejection q = true) (requests_of rs));
  ac_prompt : prompt_tokens m = sum_list_with prompt_len (filter (λ q, is_rejection q = false) (requests_of rs));
  ac_output : generation_tokens m = sum_list_with output_len (filter (λ q, is_rejection q = false) (requests_of rs));
  ac_lengths : h_output_tokens m = output_len <$> filter (λ q, is_rejection q = false) (requests_of rs);
  ac_ttft : h_ttft m = omap ttft (filter (λ q, is_rejection q = false) (requests_of rs));
  ac_e2e : h_e2e m = omap e2e_latency (filter (λ q, is_rejection q = false) (requests_of rs));
  ac_gaps : h_inter_token m = filter (λ q, is_rejection q = false) (requests_of rs) ≫= inter_token_latencies;
  ac_totals : (m_preemptions m, prefix_hit_blocks m, prefix_query_blocks m) =
    (max_of ((λ s, s.1.1) <$> snapshots_of rs), max_of ((λ s, s.1.2) <$> snapshots_of rs), max_of ((λ s, s.2) <$> snapshots_of rs));
  ac_seen : (_preemptions m, _prefix_hits m, _prefix_queries m) = (m_preemptions m, prefix_hit_blocks m, prefix_query_blocks m);
}.

Lemma observe_omap (f : Request → option Qc) q l : observe (f q) (omap f l) = omap f (l ++ [q]).
Proof. rw omap_app /=. by destruct (f q); rw ?app_nil_r. Qed.

Lemma sum_snoc (f : Request → nat) l q : sum_list_with f (l ++ [q]) = sum_list_with f l + f q.
Proof. rw sum_list_with_app /=. lia. Qed.

Lemma accounts_finished rs m q : accounts rs m → accounts (rs ++ [Finished q]) (observe_finished q m).
Proof.
  intros [? ? ? ? ? ? ? ? ? ?].
  assert (requests_of (rs ++ [Finished q]) = requests_of rs ++ [q]) as Hr by by rw /requests_of bind_app.
  assert (snapshots_of (rs ++ [Finished q]) = snapshots_of rs) as Hs by (rw /snapshots_of bind_app /= app_nil_r //).
  assert (∀ b, filter (λ q, is_rejection q = b) (requests_of (rs ++ [Finished q])) =
    filter (λ q, is_rejection q = b) (requests_of rs) ++ (if decide (is_rejection q = b) then [q] else [])) as Hf.
  { intros b. by rw Hr filter_app filter_cons filter_nil. }
  rw /observe_finished. destruct (is_rejection q) eqn:Hrej.
  - assert (finish_reason q = Some REJECTED) as Hfr by by apply bool_decide_eq_true_1 in Hrej. rw Hfr.
    split; cbn; rw ?Hf ?Hs ?app_nil_r //. rw length_app count_all_inc /=. lia.
  - assert (finish_reason q ≠ Some REJECTED) as Hfr by by apply bool_decide_eq_false_1 in Hrej.
    destruct (finish_reason q) as [[]|]; try done;
      (split; cbn; rw ?Hf ?Hs ?app_nil_r ?length_app ?count_all_inc ?sum_snoc ?fmap_app ?bind_app //=;
       [lia|congruence|congruence|congruence|rw -observe_omap; congruence|rw -observe_omap; congruence|rw app_nil_r; congruence]).
Qed.

Lemma accounts_sampled rs m s p h q : accounts rs m → accounts (rs ++ [Sampled s p h q]) (observe_engine s p h q m).
Proof.
  intros [? ? ? ? ? ? ? ? Ht Hseen].
  assert (requests_of (rs ++ [Sampled s p h q]) = requests_of rs) as Hr by (rw /requests_of bind_app /= app_nil_r //).
  assert (snapshots_of (rs ++ [Sampled s p h q]) = snapshots_of rs ++ [(p, h, q)]) as Hs by by rw /snapshots_of bind_app.
  injection Hseen as H1 H2 H3. rw /observe_engine H1 H2 H3 !advance_max.
  split; cbn; rw ?Hr //. rw Hs !fmap_app /= !max_of_snoc. injection Ht as -> -> ->. done.
Qed.

(** The collectors account for everything reported and nothing else.  After any
    sequence of finished requests and engine snapshots: the served and rejected
    counters add up to the requests reported, token counters and every latency
    histogram contain exactly the samples of the requests that were not rejected, in
    order, and each counter fed from an engine total equals the largest total seen, so
    it never goes back even when a total does. *)
Theorem metrics_account rs : accounts rs (foldl (λ m r, record r m) metrics_init rs).
Proof.
  induction rs as [|r rs IH] using rev_ind; [by split|]. rw foldl_app /=.
  destruct r; [by apply accounts_finished|by apply accounts_sampled].
Qed.
