(* ===== verification/Server.v ===== *)
(** * The HTTP front end (engine/server.py)

    [AsyncEngine] drives the scheduler from a background task and hands its output to
    one queue per connection; a connection's generator polls its queue, streams text
    and releases the sequence on every way out.  Everything runs on one event loop:
    what happens while a coroutine waits is a function on the state, a [turn], and a
    handler is given the turns that happen at its awaits. *)

From Stdlib Require Import ssreflect QArith Qcanon.
From stdpp Require Import prelude gmap gmultiset strings list.
From S2P Require Import Prelude Text Tokenizer Streaming Config BlockManager KvCache Transformer PrefixCache Types Admission Batch Scheduler Prefill Engine EngineProps Metrics.

(** A connection's view of one request. *)
Record Stream := mkStream {
  st_req : nat;
  st_queue : list Z;
  st_done : bool;
  st_reason : option FinishReason;
}.

Definition put_token (t : Z) (s : Stream) : Stream := mkStream (st_req s) (st_queue s ++ [t]) (st_done s) (st_reason s).
Definition take_token (s : Stream) : Stream := mkStream (st_req s) (drop 1 (st_queue s)) (st_done s) (st_reason s).
Definition conclude_stream (r : option FinishReason) (s : Stream) : Stream :=
  match r with
  | Some _ => if st_done s then s else mkStream (st_req s) (st_queue s) true r
  | None => s
  end.

(** Server-sent events. *)
Inductive sse :=
  | EvStart (request_id : string)
  | EvToken (text : list Z)
  | EvDone (request_id : string) (reason : FinishReason) (output_tokens : nat).

Section server.
Context {R : Type} `{HT : Torch R} `{HS : TorchSampling R}.
#[local] Notation "'KV'" := (list (list R)).
Context (sdpa : list KV → list KV → list KV → option (list (list bool)) → bool → list KV).
Context (w : NanoForCausalLM (R := R)) (hash : Z → list Z → Z) (perf_counter : nat → Qc) (cfg : EngineCfg).

Record AsyncEngine := mkAE {
  ae_engine : Engine (R := R);
  streams : gmap string Stream;
  ae_metrics : option EngineMetrics;
}.

Definition set_engine (e : Engine) (a : AsyncEngine) : AsyncEngine := mkAE e (streams a) (ae_metrics a).
Definition set_streams (m : gmap string Stream) (a : AsyncEngine) : AsyncEngine := mkAE (ae_engine a) m (ae_metrics a).
Definition set_metrics (m : option EngineMetrics) (a : AsyncEngine) : AsyncEngine := mkAE (ae_engine a) (streams a) m.

Definition AM (A : Type) : Type := M AsyncEngine A.
Definition on_eng {A} (m : EM A) : AM A := zoom ae_engine set_engine m.

(** The body of the loop over drained tokens. *)
Definition deliver (rt : nat * Z) : AM unit :=
  modify (λ a, set_streams (alter (put_token rt.2) (req_id (ae_engine a) rt.1) (streams a)) a).

(** The body of the loop over drained requests. *)
Definition conclude (r : nat) : AM unit :=
  let* q := on_eng (get_req r) in
  do* modify (λ a, set_metrics (observe_finished q <$> ae_metrics a) a) in
  modify (λ a, set_streams (alter (conclude_stream (finish_reason q)) (request_id q) (streams a)) a).

(** [if self.metrics is not None: self.metrics.observe_engine(self.engine)]. *)
Definition sample_metrics : AM unit :=
  let* a := get in
  match ae_metrics a with
  | Some m =>
      let* s := on_eng (engine_stats perf_counter) in
      modify (λ a, let e := ae_engine a in
        set_metrics (Some (observe_engine s (e_preemptions e) (hit_blocks (pc_stats (e_prefix e)))
          (query_blocks (pc_stats (e_prefix e))) m)) a)
  | None => ret tt
  end.

Definition _fanout : AM unit :=
  do* sample_metrics in
  let* l := on_eng drain_emitted in
  do* for_each l deliver in
  let* l := on_eng drain_finished in
  for_each l conclude.

(** [submit]: the stream is registered before the engine can say anything about it. *)
Definition submit (r : nat) : AM unit :=
  do* modify (λ a, set_streams (<[req_id (ae_engine a) r := mkStream r [] false None]> (streams a)) a) in
  do* on_eng (add_request perf_counter cfg r) in
  _fanout.

(** One round of [_run], with nothing in between; the step runs in a worker thread, and
    Service takes it in parts. *)
Definition tick : AM unit :=
  let* a := get in
  if has_work (ae_engine a) then
    do* on_eng (step sdpa w hash perf_counter cfg) in _fanout
  else
    do* on_eng (apply_cancellations perf_counter cfg) in _fanout.

Definition turn : Type := AsyncEngine → AsyncEngine.

(** [cancel]: ask, wait for the engine to apply it or for the time to be up. *)
Fixpoint await_cancelled (turns : list turn) : AM unit :=
  let* a := get in
  if bool_decide (e_cancel (ae_engine a) = ∅) then ret tt
  else match turns with
       | [] => ret tt
       | f :: turns => do* modify f in await_cancelled turns
       end.

Definition ae_cancel (turns : list turn) (id : string) : AM bool :=
  let* a := get in
  let known := match streams a !! id with Some s => negb (st_done s) | None => false end in
  do* on_eng (request_cancel id) in
  do* await_cancelled turns in
  do* _fanout in
  ret known.

Definition release (id : string) : AM unit := modify (λ a, set_streams (delete id (streams a)) a).

(** ** The streaming generator *)

(** The state of a response: the engine, and what was sent. *)
Definition HM (A : Type) : Type := M (AsyncEngine * list sse) A.
Definition on_ae {A} (m : AM A) : HM A := zoom fst (λ a s, (a, s.2)) m.
Definition yield (ev : sse) : HM unit := modify (λ s, (s.1, s.2 ++ [ev])).

(** One poll: a turn, whether the client turned out to be gone, and another turn while
    waiting for a token. *)
Record poll := mkPoll { before : turn; gone : bool; waiting : turn }.

(** [while True]; [None] when the coroutine is cancelled at an await. *)
Fixpoint stream_loop (t : BPETokenizer) (id : string) (polls : list poll) (em : Emitter) : HM (option Emitter) :=
  match polls with
  | [] => ret None
  | p :: polls =>
      do* on_ae (modify (before p)) in
      if gone p then ret (Some em)
      else
        do* on_ae (modify (waiting p)) in
        let* s := get in
        let stream := streams s.1 !! id in
        match st_queue <$> stream with
        | Some (token :: _) =>
            do* on_ae (modify (λ a, set_streams (alter take_token id (streams a)) a)) in
            let* (em, piece) := lift_result (push t token em) in
            do* match piece with Some text => yield (EvToken text) | None => ret tt end in
            stream_loop t id polls em
        | _ =>
            (* the wait timed out *)
            if default true (st_done <$> stream) then ret (Some em) else stream_loop t id polls em
        end
  end.

Definition _token_stream (t : BPETokenizer) (id : string) (polls : list poll) (turns : list turn) : HM unit :=
  finally
    (do* yield (EvStart id) in
     let* out := stream_loop t id polls emitter_init in
     match out with
     | None => ret tt
     | Some em =>
         let* s := get in
         let reason := default CANCELLED (streams s.1 !! id ≫= st_reason) in
         yield (EvDone id reason (length (produced em)))
     end)
    (do* on_ae (ae_cancel turns id) in on_ae (release id)).
End server.

Arguments mkAE {R} _ _ _.
Arguments ae_engine {R} _.
Arguments streams {R} _.
Arguments ae_metrics {R} _.
Arguments set_streams {R} _ _.
Arguments set_engine {R} _ _.

(** * Delivery *)

Section delivery.
Context {R : Type} `{HT : Torch R} `{HS : TorchSampling R}.
#[local] Notation "'KV'" := (list (list R)).
Context (perf_counter : nat → Qc).
Implicit Types (e : Engine (R := R)) (a : AsyncEngine (R := R)).

(** The tokens in [l] that belong to the stream of [id], in order. *)
Definition tokens_for e (id : string) (l : list (nat * Z)) : list Z := (filter (λ rt, req_id e rt.1 = id) l).*2.

(** The first reason in [l] for the requests with this id. *)
Fixpoint first_reason e (id : string) (l : list nat) : option FinishReason :=
  match l with
  | [] => None
  | r :: l =>
      match e_reqs e !! r with
      | Some q =>
          if decide (request_id q = id) then
            match finish_reason q with Some fr => Some fr | None => first_reason e id l end
          else first_reason e id l
      | None => first_reason e id l
      end
  end.

Lemma first_reason_ext e e' id l : e_reqs e = e_reqs e' → first_reason e id l = first_reason e' id l.
Proof. intros He. induction l as [|r l IH]; [done|]. cbn. by rw He IH. Qed.

(** A stream after the engine's output [toks] and outcome [fr] reached it. *)
Definition reached (toks : list Z) (fr : option FinishReason) (s : Stream) : Stream :=
  conclude_stream fr (mkStream (st_req s) (st_queue s ++ toks) (st_done s) (st_reason s)).

Lemma deliver_all a l :
  for_each l deliver a =
    (Ok tt, set_streams (foldl (λ m rt, alter (put_token rt.2) (req_id (ae_engine a) rt.1) m) (streams a) l) a).
Proof.
  revert a. induction l as [|rt l IH]; intros a; [by destruct a|]. cbn [for_each foldl]. rw /bind /deliver /modify.
  rw IH. done.
Qed.

Lemma delivered_lookup e l (m : gmap string Stream) id :
  foldl (λ m rt, alter (put_token rt.2) (req_id e rt.1) m) m l !! id =
    (λ s, mkStream (st_req s) (st_queue s ++ tokens_for e id l) (st_done s) (st_reason s)) <$> m !! id.
Proof.
  revert m. induction l as [|[r t] l IH]; intros m.
  { cbn. destruct (m !! id) as [[]|]; cbn; by rw ?app_nil_r. }
  cbn [foldl]. rw IH /tokens_for filter_cons. cbn [fst snd]. destruct (decide (req_id e r = id)) as [->|Hne].
  - rw lookup_alter_eq. destruct (m !! id) as [s|]; [|done]. cbn. by rw -assoc.
  - rw lookup_alter_ne //.
Qed.

Lemma conclude_all l : ∀ a, Forall (λ r, is_Some (e_reqs (ae_engine a) !! r)) l →
  wp (for_each l conclude)
     (λ _ a', ae_engine a' = ae_engine a ∧ ∀ id, streams a' !! id = conclude_stream (first_reason (ae_engine a) id l) <$> streams a !! id)
     never a.
Proof.
  induction l as [|r l IH]; intros a Hl.
  { split; [done|]. intros id. cbn. by destruct (streams a !! id). }
  apply Forall_cons in Hl as [[q Hq] Hl]. wp_step. rw {1}/conclude /on_eng. do 2 wp_step. rw {1}/wp /get_req Hq. do 3 wp_step.
  set (a1 := set_streams _ _). eapply wp_mono; [apply (IH a1 Hl)| |done].
  intros _ a' [He Hs]. cbn in He. split; [done|]. intros id. rw Hs /a1 /= Hq.
  destruct (decide (request_id q = id)) as [<-|Hne]; [rw lookup_alter_eq|by rw lookup_alter_ne].
  destruct (streams a !! request_id q) as [s|]; [|done]. cbn.
  destruct (finish_reason q) as [fr|]; [|done]. f_equal. cbn. destruct (st_done s) eqn:Hd; cbn.
  - destruct (first_reason _ _ l); cbn; by rw ?Hd.
  - destruct (first_reason _ _ l); cbn; by rw ?Hd.
Qed.

(** Draining moves exactly what is there. *)
Definition drained_engine e e' : Prop :=
  e_reqs e' = e_reqs e ∧ e_running e' = e_running e ∧ e_waiting e' = e_waiting e ∧ e_cancel e' = e_cancel e ∧
  e_pool e' = e_pool e ∧ e_prefix e' = e_prefix e ∧ e_emitted e' = [] ∧ e_newly e' = [].

Lemma sample_metrics_spec a :
  wp (sample_metrics perf_counter)
     (λ _ a', ∃ t ms, a' = mkAE (set_counters t (e_seed (ae_engine a)) (e_uid (ae_engine a)) (ae_engine a)) (streams a) ms) never a.
Proof.
  rw /sample_metrics. do 2 wp_step. destruct a as [e ss [ms|]]; cbn [ae_metrics].
  - rw /on_eng. do 2 wp_step. rw /engine_stats /now. wp_step. rw {1}/wp. do 2 wp_step. cbn. by eexists _, _.
  - wp_step. exists (e_ticks e), None. by destruct e.
Qed.

Definition emptied (t : nat) e : Engine (R := R) :=
  set_outcomes (e_done e) (e_num_finished e) [] (set_emitted [] (set_counters t (e_seed e) (e_uid e) e)).

Lemma fanout_exact a :
  Forall (λ r, is_Some (e_reqs (ae_engine a) !! r)) (e_newly (ae_engine a)) →
  wp (_fanout perf_counter)
     (λ _ a', (∃ t, ae_engine a' = emptied t (ae_engine a)) ∧
        ∀ id, streams a' !! id =
          reached (tokens_for (ae_engine a) id (e_emitted (ae_engine a))) (first_reason (ae_engine a) id (e_newly (ae_engine a)))
          <$> streams a !! id) never a.
Proof.
  intros Hnew. rw /_fanout. wp_step. eapply wp_mono; [apply sample_metrics_spec| |done]. intros _ a1 (t & ms & ->).
  wp_step. rw /on_eng. wp_step. rw /drain_emitted. do 6 wp_step. rw {1}/wp deliver_all.
  do 2 wp_step. rw /drain_finished. do 5 wp_step. eapply wp_mono; [apply conclude_all; exact Hnew| |done].
  intros _ a' [He Hs]. cbn in He. split; [by exists t|]. intros id. rw Hs. cbn [streams set_streams set_engine].
  rw delivered_lookup (first_reason_ext _ (ae_engine a)) //. destruct (streams a !! id); [|done]. done.
Qed.

Lemma fanout_spec a :
  Forall (λ r, is_Some (e_reqs (ae_engine a) !! r)) (e_newly (ae_engine a)) →
  wp (_fanout perf_counter)
     (λ _ a', drained_engine (ae_engine a) (ae_engine a') ∧
        ∀ id, streams a' !! id =
          reached (tokens_for (ae_engine a) id (e_emitted (ae_engine a))) (first_reason (ae_engine a) id (e_newly (ae_engine a)))
          <$> streams a !! id) never a.
Proof. intros Hnew. eapply wp_mono; [by apply fanout_exact| |done]. intros _ a' [(t & ->) Hs]. by split. Qed.
End delivery.

(** * A reader of a queue *)

(** How the loop of a reader ends: its coroutine is cancelled at an await, its client is
    gone, or there is nothing more to come. *)
Inductive ending := Interrupted | HungUp | Complete.

(** A reader polls a queue that others fill.  [watch polls s how new s'] follows one, from
    [s] to the state [s'] in which it stops: [new] is what the turns between its polls put
    into the queue, from [s] on; [takes] is its own step, by which the head leaves. *)
Section watch.
Context {St : Type} (queue : St → list Z) (over : St → bool) (takes : St → St → Prop).
Record opening := mkOpening { o_before : St → St; o_gone : bool; o_waiting : St → St }.

(** What [f] adds to the queue. *)
Definition added (f : St → St) (s : St) : list Z := drop (length (queue s)) (queue (f s)).

Inductive watch : list opening → St → ending → list Z → St → Prop :=
  | watch_cut s : watch [] s Interrupted [] s
  | watch_gone p polls s :
      o_gone p = true → watch (p :: polls) s HungUp (added (o_before p) s) (o_before p s)
  | watch_over p polls s s2 :
      o_gone p = false → s2 = o_waiting p (o_before p s) → queue s2 = [] → over s2 = true →
      watch (p :: polls) s Complete (added (o_before p) s ++ added (o_waiting p) (o_before p s)) s2
  | watch_wait p polls s s2 how new s' :
      o_gone p = false → s2 = o_waiting p (o_before p s) → queue s2 = [] → over s2 = false →
      watch polls s2 how new s' →
      watch (p :: polls) s how ((added (o_before p) s ++ added (o_waiting p) (o_before p s)) ++ new) s'
  | watch_take p polls s s2 s3 x rest how new s' :
      o_gone p = false → s2 = o_waiting p (o_before p s) → queue s2 = x :: rest → takes s2 s3 →
      watch polls s3 how new s' →
      watch (p :: polls) s how ((added (o_before p) s ++ added (o_waiting p) (o_before p s)) ++ new) s'.

(** [f] takes nothing out. *)
Definition only_adds (f : St → St) (s : St) : Prop := queue s `prefix_of` queue (f s).

Lemma queue_added f s : only_adds f s → queue (f s) = queue s ++ added f s.
Proof. intros [l Hl]. by rw /added Hl drop_app_length. Qed.

Lemma watch_complete polls s how new s' : watch polls s how new s' → how = Complete → queue s' = [] ∧ over s' = true.
Proof. by induction 1. Qed.
End watch.
Arguments mkOpening {St} _ _ _.

Definition queued {R} (id : string) (a : AsyncEngine (R := R)) : list Z := default [] (st_queue <$> streams a !! id).
Definition stream_over {R} (id : string) (a : AsyncEngine (R := R)) : bool := default true (st_done <$> streams a !! id).
Definition taken {R} (id : string) (a : AsyncEngine (R := R)) : AsyncEngine (R := R) :=
  set_streams (alter take_token id (streams a)) a.
Definition opening_of {R} (p : poll (R := R)) : opening (St := AsyncEngine (R := R)) := mkOpening (before p) (gone p) (waiting p).

Section contract.
Context {R : Type} `{HT : Torch R} `{HS : TorchSampling R}.
Context (perf_counter : nat → Qc) (t : BPETokenizer) (id : string).
Implicit Types (a : AsyncEngine (R := R)).

(** The requests to report exist, and the tokens waiting for [id] can be decoded. *)
Definition sound a : Prop :=
  Forall (λ r, is_Some (e_reqs (ae_engine a) !! r)) (e_newly (ae_engine a)) ∧
  ∀ s, streams a !! id = Some s → known t (st_queue s).

Definition keeps (f : turn (R := R)) : Prop := ∀ a, sound a → sound (f a).

(** A turn that takes nothing out of the stream of [id] either. *)
Definition feeds (f : turn (R := R)) : Prop := ∀ a, sound a → sound (f a) ∧ only_adds (queued id) f a.

Lemma sound_take a : sound a → sound (taken id a).
Proof.
  intros [Hn Hs]. split; [done|]. intros s. cbn. rw lookup_alter_eq. destruct (streams a !! id) as [s0|] eqn:H0; [|done].
  intros [= <-]. cbn. by apply Forall_drop, Hs.
Qed.

Lemma queued_taken a x rest : queued id a = x :: rest → queued id (taken id a) = rest.
Proof. rw /queued /taken /= lookup_alter_eq. destruct (streams a !! id) as [s|]; [|done]. cbn. by intros ->. Qed.

Lemma queued_known a : sound a → known t (queued id a).
Proof. intros [_ Hs]. rw /queued. destruct (streams a !! id) as [s|]; [by apply Hs|constructor]. Qed.

(** The events sent, given what was said. *)
Definition streamed (s : AsyncEngine (R := R) * list sse) (em : Emitter) (said : list (Z * list Z)) : Prop :=
  sound s.1 ∧ saying t em said ∧ s.2 = EvStart id :: (EvToken <$> said.*2).

(** The two turns of a poll, in which only tokens for others are taken. *)
Lemma poll_fed (p : poll (R := R)) a : feeds (before p) → feeds (waiting p) → sound a →
  sound (before p a) ∧ queued id (before p a) = queued id a ++ added (queued id) (before p) a ∧
  sound (waiting p (before p a)) ∧
  queued id (waiting p (before p a)) =
    queued id a ++ (added (queued id) (before p) a ++ added (queued id) (waiting p) (before p a)).
Proof.
  intros Hb Hw Ha. destruct (Hb a Ha) as [Ha1 H1]. destruct (Hw _ Ha1) as [Ha2 H2].
  rw (queue_added _ _ _ H2) (queue_added _ _ _ H1) -assoc. done.
Qed.

Lemma stream_loop_spec polls : Forall (λ p, feeds (before p) ∧ feeds (waiting p)) polls → ∀ em said s,
  streamed s em said →
  wp (stream_loop t id polls em)
     (λ out s', ∃ em' said' how new, streamed s' em' said' ∧
        watch (queued id) (stream_over id) (λ a a', a' = taken id a) (opening_of <$> polls) s.1 how new s'.1 ∧
        produced em' ++ queued id s'.1 = produced em ++ queued id s.1 ++ new ∧
        out = match how with Interrupted => None | _ => Some em' end) never s.
Proof.
  induction 1 as [|p polls [Hb Hw] _ IH]; intros em said s Hs; cbn [stream_loop].
  { wp_step. exists em, said, Interrupted, []. rw app_nil_r. split_and!; [done|constructor|done|done]. }
  pose proof Hs as (Hsound & Hsay & Hev). destruct (poll_fed p s.1 Hb Hw Hsound) as (Ha1 & Hq1 & Ha2 & Hq2).
  rw /on_ae. do 3 wp_step. destruct (gone p) eqn:Hgone.
  { wp_step. exists em, said, HungUp, (added (queued id) (before p) s.1). split_and!; [done| |by cbn; rw Hq1|done].
    by apply (watch_gone _ _ _ (opening_of p)). }
  do 3 wp_step. wp_step. wp_step. cbn [fst snd]. set (a2 := waiting p (before p s.1)) in *.
  set (fresh := added _ (before p) _ ++ _) in Hq2. assert (streamed (a2, s.2) em said) as Hs2 by by split_and!.
  assert (queued id a2 = default [] (st_queue <$> streams a2 !! id) ∧ stream_over id a2 = default true (st_done <$> streams a2 !! id))
    as [Hqd Hov] by done.
  destruct (streams a2 !! id) as [str|] eqn:Hstr; cbn [fmap option_fmap option_map default from_option Datatypes.id] in Hqd, Hov |- *.
  - destruct (st_queue str) as [|x rest] eqn:Hq; [destruct (st_done str) eqn:Hdone|].
    + cbn iota. wp_step. exists em, said, Complete, fresh. split_and!; [done| |by cbn; rw Hq2|done].
      by apply (watch_over _ _ _ (opening_of p)).
    + eapply wp_mono; [apply (IH em said _ Hs2)| |done]. intros out s' (em' & said' & how & new & H1 & H2 & H3 & H4).
      exists em', said', how, (fresh ++ new). split_and!; [done| |by rw H3; cbn [fst]; rw Hq2 -!assoc|done].
      by eapply (watch_wait _ _ _ (opening_of p)).
    + pose proof (queued_known a2 Ha2) as Hkn. rw Hqd in Hkn. apply Forall_cons in Hkn as [Hx _].
      destruct (push_saying t em said x Hsay Hx) as (em1 & piece & Hpush & Hprod & Hsay1).
      do 3 wp_step. wp_step. rw {1}/wp /lift_result Hpush. wp_step.
      assert (streamed (taken id a2, s.2 ++ (EvToken <$> (said_next x piece).*2)) em1 (said ++ said_next x piece)) as Hs3.
      { split_and!; [by apply sound_take|done|]. cbn [snd]. by rw Hev !fmap_app. }
      assert (wp (stream_loop t id polls em1)
        (λ out s', ∃ em' said' how new, streamed s' em' said' ∧
          watch (queued id) (stream_over id) (λ a a', a' = taken id a) (opening_of <$> p :: polls) s.1 how new s'.1 ∧
          produced em' ++ queued id s'.1 = produced em ++ queued id s.1 ++ new ∧
          out = match how with Interrupted => None | _ => Some em' end) never
        (taken id a2, s.2 ++ (EvToken <$> (said_next x piece).*2))) as Hrest.
      { eapply wp_mono; [apply (IH em1 _ _ Hs3)| |done]. intros out s' (em' & said' & how & new & H1 & H2 & H3 & H4).
        exists em', said', how, (fresh ++ new). split_and!; [done| | |done].
        - by eapply (watch_take _ _ _ (opening_of p)).
        - rw H3 Hprod. cbn [fst]. rw (queued_taken a2 x rest Hqd). rw (assoc (++) (queued id s.1)) -Hq2 Hqd. by rw -!assoc. }
      destruct piece as [text|]; cbn [said_next fmap list_fmap] in Hrest.
      * rw /yield. wp_step. exact Hrest.
      * wp_step. by rw app_nil_r in Hrest.
  - wp_step. exists em, said, Complete, fresh. split_and!; [done| |by cbn; rw Hq2|done].
    by apply (watch_over _ _ _ (opening_of p)).
Qed.

(** The turns after [k] of those in which a cancellation is awaited. *)
Definition after_turns (turns : list (turn (R := R))) (k : nat) a : AsyncEngine (R := R) :=
  foldl (λ a f, f a) a (take k turns).

(** [b] is where a caller that asked in state [a] stops waiting: as soon as nothing is left
    to cancel, or when the time is up. *)
Definition waited (turns : list (turn (R := R))) a b : Prop :=
  ∃ k, k ≤ length turns ∧ b = after_turns turns k a ∧
    (k = length turns ∨ e_cancel (ae_engine b) = ∅) ∧
    ∀ j, j < k → e_cancel (ae_engine (after_turns turns j a)) ≠ ∅.

Lemma await_sound turns : Forall keeps turns → ∀ a, sound a →
  wp (await_cancelled turns) (λ _ b, sound b ∧ waited turns a b) never a.
Proof.
  induction 1 as [|f turns Hf _ IH]; intros a Ha; cbn [await_cancelled]; do 2 wp_step; case_bool_decide as He; cbn [bool_decide].
  - wp_step. split; [done|]. exists 0. split_and!; [done|done|by left|lia].
  - wp_step. split; [done|]. exists 0. split_and!; [done|done|by left|lia].
  - wp_step. split; [done|]. exists 0. split_and!; [cbn; lia|done|by right|lia].
  - do 2 wp_step. eapply wp_mono; [apply IH; by apply Hf| |done]. intros _ b (Hb & k & Hk & -> & Hend & Hmin). split; [done|].
    exists (S k). split_and!; [cbn; lia|done|destruct Hend as [->|]; [by left|by right]|].
    intros [|j] Hj; [done|]. apply Hmin. lia.
Qed.

(** The engine once the cancellation of [id] was asked for. *)
Definition asked a : AsyncEngine (R := R) := set_engine (set_cancel ({[id]} ∪ e_cancel (ae_engine a)) (ae_engine a)) a.

(** How a response is wound up. *)
Definition wound_up (turns : list (turn (R := R))) a a' : Prop :=
  ∃ b, waited turns (asked a) b ∧ drained_engine (ae_engine b) (ae_engine a') ∧ streams a' !! id = None.

Lemma cancel_spec turns a : Forall keeps turns → sound a →
  wp (ae_cancel perf_counter turns id)
     (λ _ a', ∃ b, waited turns (asked a) b ∧ drained_engine (ae_engine b) (ae_engine a')) never a.
Proof.
  intros Hturns Ha. rw /ae_cancel /on_eng /request_cancel. do 5 wp_step. wp_step.
  eapply wp_mono; [by apply (await_sound turns Hturns (asked a))| |done]. intros _ b [Hb Hw].
  wp_step. eapply wp_mono; [apply fanout_spec, Hb| |done]. intros _ a3 [Hd _]. wp_step. by exists b.
Qed.

Lemma stream_end turns (s : AsyncEngine (R := R) * list sse) : Forall keeps turns → sound s.1 →
  wp (do* on_ae (ae_cancel perf_counter turns id) in on_ae (release id))
     (λ _ s', wound_up turns s.1 s'.1 ∧ s'.2 = s.2) never s.
Proof.
  intros Hturns Ha. rw /on_ae. do 2 wp_step. eapply wp_mono; [by apply cancel_spec| |done]. intros _ a3 (b & Hw & Hd).
  wp_step. rw /release. wp_step. split; [|done]. exists b. split_and!; [done|done|by rw /= lookup_delete_eq].
Qed.
End contract.

(** C25: a streamed response hands on its stream and leaves nothing behind.  The turns of
    the event loop while the generator waits may be any that report requests that exist and
    tokens of the vocabulary and take nothing out of this stream; the client may disappear
    and the coroutine may be cancelled at any await.  Then [_token_stream] raises nothing
    and sends the start event; the tokens it takes, in order, are the stream's queue and
    what the turns add to it, all but those still queued when it stops, and it says them
    as [spells] requires: after each token exactly the text of all so far, unless that ends
    inside a character.  It stops of itself only when the client is gone or when the queue is
    empty and the stream done, and then closes with the stream's reason and the number of
    tokens; it closes with nothing when its coroutine is cancelled.  In every case it asks
    for the cancellation of the sequence, waits while turns pass until the engine has
    applied it or the time is up, drains the engine's output and forgets the stream. *)
Theorem token_stream_contract {R} `{Torch R, TorchSampling R} clock t id polls turns (a : AsyncEngine (R := R)) :
  sound t id a → Forall (λ p, feeds t id (before p) ∧ feeds t id (waiting p)) polls → Forall (keeps t id) turns →
  wp (_token_stream clock t id polls turns)
     (λ _ s', ∃ how new a1 tokens said,
        watch (queued id) (stream_over id) (λ a a', a' = taken id a) (opening_of <$> polls) a how new a1 ∧
        tokens ++ queued id a1 = queued id a ++ new ∧ spells t tokens said ∧
        (how = Complete → queued id a1 = [] ∧ stream_over id a1 = true) ∧
        s'.2 = EvStart id :: (EvToken <$> said.*2) ++
          match how with
          | Interrupted => []
          | _ => [EvDone id (default CANCELLED (streams a1 !! id ≫= st_reason)) (length tokens)]
          end ∧
        wound_up id turns a1 s'.1) never (a, []).
Proof.
  intros Ha Hpolls Hturns. rw /_token_stream. apply wp_finally.
  wp_step. rw /yield. do 2 wp_step.
  eapply wp_mono; [by eapply (stream_loop_spec t id polls Hpolls emitter_init []); split_and!; [done|apply saying_init|]| |done].
  cbn [fst snd]. intros out [a1 evs] (em & said & how & new & (Ha1 & [Hsp _] & Hev) & Hwatch & Htok & ->). cbn [fst snd] in *.
  assert (how = Complete → queued id a1 = [] ∧ stream_over id a1 = true) as Hc by by eapply watch_complete.
  destruct how.
  - wp_step. eapply wp_mono; [by apply (stream_end clock t id turns (a1, evs))| |done]. intros _ s' [Hw Hs'].
    eexists Interrupted, new, a1, _, said. split_and!; try done. by rw Hs' Hev app_nil_r.
  - do 3 wp_step. eapply wp_mono; [by apply (stream_end clock t id turns (a1, _))| |done]. intros _ s' [Hw Hs'].
    eexists HungUp, new, a1, _, said. split_and!; try done. by rw Hs' /= Hev.
  - do 3 wp_step. eapply wp_mono; [by apply (stream_end clock t id turns (a1, _))| |done]. intros _ s' [Hw Hs'].
    eexists Complete, new, a1, _, said. split_and!; try done. by rw Hs' /= Hev.
Qed.

(** Fan-out loses, repeats and reorders nothing.  Provided the requests to report
    exist, [_fanout] raises nothing (with or without metrics), empties the engine's two
    outboxes and touches nothing else of it; every registered stream gets exactly the
    tokens emitted for its request id, in order, behind what it had queued, and is
    marked done with the first reason reported for it unless it already was. *)
Theorem fanout_delivers {R} `{Torch R, TorchSampling R} clock (a : AsyncEngine (R := R)) :
  Forall (λ r, is_Some (e_reqs (ae_engine a) !! r)) (e_newly (ae_engine a)) →
  wp (_fanout clock)
     (λ _ a', drained_engine (ae_engine a) (ae_engine a') ∧
        ∀ id s, streams a !! id = Some s → ∃ s', streams a' !! id = Some s' ∧ st_req s' = st_req s ∧
          st_queue s' = st_queue s ++ tokens_for (ae_engine a) id (e_emitted (ae_engine a)) ∧
          let fr := first_reason (ae_engine a) id (e_newly (ae_engine a)) in
          st_done s' = st_done s || bool_decide (is_Some fr) ∧
          st_reason s' = if st_done s then st_reason s else match fr with Some _ => fr | None => st_reason s end) never a.
Proof.
  intros Hnew. eapply wp_mono; [by apply fanout_spec| |done]. intros _ a' [Hd Hs]. split; [done|]. intros id s Hid.
  rw Hs Hid. eexists. split; [done|]. rw /reached /conclude_stream. cbn.
  destruct (first_reason (ae_engine a) id (e_newly (ae_engine a))) as [fr|], (st_done s) eqn:Hdn; cbn; by rw ?Hdn ?orb_false_r.
Qed.

(** Two requests with their own ids, three tokens and one outcome to report. *)
Definition toy_outbox : AsyncEngine (R := Z) :=
  let ask id := new_request toy_prompt (mkParams 4 0%Qc None None true) id 0%Qc None in
  let reqs := <[0 := finish LENGTH 1%Qc (ask "a")]> (<[1 := ask "b"]> ∅) in
  mkAE (set_outcomes [0] 1 [0] (set_emitted [(0, 7%Z); (1, 8%Z); (0, 9%Z)] (ToyEngine.engine 9 reqs)))
    (<["a" := mkStream 0 [] false None]> (<["b" := mkStream 1 [5%Z] false None]> ∅))%string (Some metrics_init).

Lemma fanout_delivers_witness :
  wp (_fanout ToyEngine.clock)
     (λ _ a', streams a' !! "a"%string = Some (mkStream 0 [7; 9]%Z true (Some LENGTH)) ∧
              streams a' !! "b"%string = Some (mkStream 1 [5; 8]%Z false None)) never toy_outbox.
Proof.
  eapply wp_mono.
  - apply (fanout_delivers ToyEngine.clock toy_outbox). repeat constructor. eexists. vm_compute. reflexivity.
  - intros _ a' [_ Hs].
    destruct (Hs "a"%string _ eq_refl) as (s1 & E1 & A1 & B1 & C1 & D1).
    destruct (Hs "b"%string _ eq_refl) as (s2 & E2 & A2 & B2 & C2 & D2).
    rw E1 E2. destruct s1, s2. cbn in *. vm_compute in B1, C1, D1, B2, C2, D2. subst. split; reflexivity.
  - intros e s H. exact H.
Defined.

(** While the response is under way another token arrives; its cancellation is applied
    in the second turn that passes meanwhile. *)
Definition still : turn (R := Z) := λ a, a.
Definition arriving : turn (R := Z) := λ a, set_streams (alter (put_token 116%Z) "a"%string (streams a)) a.
Definition applying : turn (R := Z) := λ a, set_engine (set_cancel ∅ (ae_engine a)) a.

Lemma still_feeds : feeds toy_tok "a" still.
Proof. intros a Ha. split; [exact Ha|]. exists []. by rw app_nil_r. Qed.

Lemma arriving_feeds : feeds toy_tok "a" arriving.
Proof.
  intros a [Hn Hs]. rw /arriving /only_adds /queued. split.
  - split; [exact Hn|]. intros st. cbn. rw lookup_alter_eq. destruct (streams a !! "a"%string) as [s0|] eqn:H0; [|done].
    intros [= <-]. cbn. apply Forall_app. split; [by apply Hs|]. repeat constructor. eexists. vm_compute. reflexivity.
  - cbn. rw lookup_alter_eq. destruct (streams a !! "a"%string) as [s0|]; [|done]. by exists [116%Z].
Qed.

Lemma token_stream_contract_witness :
  let a := set_streams (<["a" := mkStream 0 [257%Z] true (Some LENGTH)]> ∅)%string toy_outbox in
  let polls := [mkPoll still false still; mkPoll arriving false still; mkPoll still false still] in
  let turns := [still; applying; still] in
  (_token_stream ToyEngine.clock toy_tok "a" polls turns (a, [])).2.2
    = [EvStart "a"; EvToken [116%Z; 104%Z; 101%Z]; EvToken [116%Z]; EvDone "a" LENGTH 2] ∧
  wp (_token_stream ToyEngine.clock toy_tok "a" polls turns)
     (λ _ s', ∃ how new a1 tokens said, tokens ++ queued "a" a1 = [257%Z] ++ new ∧ spells toy_tok tokens said ∧
        (how = Complete → queued "a" a1 = []) ∧ wound_up "a" turns a1 s'.1) never (a, []).
Proof.
  split; [vm_compute; reflexivity|]. eapply wp_mono.
  - apply (token_stream_contract ToyEngine.clock toy_tok "a" _ [still; applying; still]).
    + split.
      * repeat constructor. eexists. vm_compute. reflexivity.
      * intros s Hs. vm_compute in Hs. injection Hs as <-. repeat constructor; eexists; vm_compute; reflexivity.
    + repeat (apply List.Forall_cons; [split; first [apply still_feeds|apply arriving_feeds]|]). apply List.Forall_nil.
    + repeat (apply List.Forall_cons; [intros b Hb; exact Hb|]). apply List.Forall_nil.
  - intros _ s' (how & new & a1 & tokens & said & _ & H1 & H2 & H3 & _ & H4).
    exists how, new, a1, tokens, said. split; [exact H1|]. split; [exact H2|]. split; [apply H3|exact H4].
  - intros e s H. exact H.
Defined.
