(* ===== verification/Replica.v ===== *)
(** * The replica's RPC service (engine/replica.py)

    [Generate] turns a wire request into an engine request, streams its tokens with
    their positions, and gives everything back on every way out; a second call with
    the id of one in flight is answered from what that one has sent; a draining
    replica refuses.  Turns and polls are those of the HTTP front end. *)

From Stdlib Require Import ssreflect QArith Qcanon.
From stdpp Require Import prelude gmap gmultiset strings list.
From S2P Require Import Prelude Text Tokenizer Streaming Config BlockManager KvCache Transformer PrefixCache Types Admission Batch Scheduler Frame Ledger Prefill Engine EngineProps Metrics Server.

(** The wire messages. *)
Inductive PbReason := PB_UNSPECIFIED | PB_EOS | PB_LENGTH | PB_CANCELLED | PB_REJECTED | PB_PREEMPTED | PB_ERROR.

Definition _FINISH (r : FinishReason) : PbReason :=
  match r with
  | EOS => PB_EOS | LENGTH => PB_LENGTH | CANCELLED => PB_CANCELLED | REJECTED => PB_REJECTED | PREEMPTED => PB_PREEMPTED
  end.

Inductive Chunk :=
  | CToken (text : list Z) (token_id : Z) (index : nat)
  | CFinish (reason : PbReason) (output_tokens : nat) (message : string).

Record GenerateRequest := mkGenerate {
  g_prompt : list Z;
  g_max_tokens : Z;
  g_temperature : Qc;
  g_top_k : Z;
  g_top_p : Qc;
  g_ignore_eos : bool;
  g_request_id : string;
  g_deadline_unix : Qc;
  g_resume_tokens : list Z;
}.

Record InFlight := mkInFlight { if_request : nat; if_emitted : list (Z * list Z) }.
Definition add_emitted (x : Z * list Z) (f : InFlight) : InFlight := mkInFlight (if_request f) (if_emitted f ++ [x]).

(** [int(p.top_k) or None], [float(p.top_p) or None]. *)
Definition or_none_Z (x : Z) : option Z := if (x =? 0)%Z then None else Some x.
Definition or_none_Q (x : Qc) : option Qc := if bool_decide (x = 0%Qc) then None else Some x.

(** The engine request of a call: the tokens the client already has continue its prompt. *)
Definition resumed_request (g : GenerateRequest) (id : string) (prompt_ids : list Z) (arrival : Qc) (dl : option Qc) : Request :=
  new_request (prompt_ids ++ g_resume_tokens g)
    (mkParams (Z.max 1 (g_max_tokens g - Z.of_nat (length (g_resume_tokens g)))) (g_temperature g)
       (or_none_Z (g_top_k g)) (or_none_Q (g_top_p g)) (g_ignore_eos g)) id arrival dl.

Section replica.
Context {R : Type} `{HT : Torch R} `{HS : TorchSampling R} `{HU : Unicode}.
Context (perf_counter time : nat → Qc) (cfg : EngineCfg) (replica_id : string) (started_at : Qc).

Record Servicer := mkServicer {
  sv_ae : AsyncEngine (R := R);
  sv_tok : BPETokenizer;
  draining : bool;
  _inflight : gmap string InFlight;
}.

Definition set_ae (a : AsyncEngine (R := R)) (s : Servicer) : Servicer := mkServicer a (sv_tok s) (draining s) (_inflight s).
Definition set_tok (t : BPETokenizer) (s : Servicer) : Servicer := mkServicer (sv_ae s) t (draining s) (_inflight s).
Definition set_inflight (m : gmap string InFlight) (s : Servicer) : Servicer := mkServicer (sv_ae s) (sv_tok s) (draining s) m.

(** A call's state: the servicer and the chunks sent. *)
Definition RM (A : Type) : Type := M (Servicer * list Chunk) A.
Definition on_servicer {A} (m : M Servicer A) : RM A := zoom fst (λ a s, (a, s.2)) m.
Definition on_replica_ae {A} (m : AM (R := R) A) : RM A := on_servicer (zoom sv_ae set_ae m).
Definition send (c : Chunk) : RM unit := modify (λ s, (s.1, s.2 ++ [c])).

(** [_deadline]: an absolute wall-clock deadline on this process's clock. *)
Definition _deadline (unix_seconds : Qc) : EM (R := R) (option Qc) :=
  if bool_decide (unix_seconds = 0%Qc) then ret None
  else
    let* e := get in
    let* t := now perf_counter in
    ret (Some (t + (unix_seconds - time (e_ticks e)))%Qc).

Fixpoint follow_chunks (index : nat) (l : list (Z * list Z)) : list Chunk :=
  match l with [] => [] | (token_id, piece) :: l => CToken piece token_id index :: follow_chunks (S index) l end.
Definition _follow (entry : InFlight) : RM unit :=
  do* for_each (follow_chunks 0 (if_emitted entry)) send in
  send (CFinish PB_CANCELLED (length (if_emitted entry)) "duplicate request_id").

Definition rturn : Type := Servicer → Servicer.
Record rpoll := mkRPoll { r_before : rturn; r_cancelled : bool; r_waiting : rturn }.

Fixpoint generate_loop (id : string) (base : nat) (polls : list rpoll) (em : Emitter) : RM (option Emitter) :=
  match polls with
  | [] => ret None
  | p :: polls =>
      do* on_servicer (modify (r_before p)) in
      if r_cancelled p then ret (Some em)
      else
        do* on_servicer (modify (r_waiting p)) in
        let* s := get in
        let stream := streams (sv_ae s.1) !! id in
        match st_queue <$> stream with
        | Some (token_id :: _) =>
            do* on_replica_ae (modify (λ a, set_streams (alter take_token id (streams a)) a)) in
            let* (em, piece) := lift_result (push (sv_tok s.1) token_id em) in
            do* match piece with
                | Some text =>
                    let* s := get in
                    let index := base + length (default [] (if_emitted <$> _inflight s.1 !! id)) in
                    do* on_servicer (modify (λ s, set_inflight (alter (add_emitted (token_id, text)) id (_inflight s)) s)) in
                    send (CToken text token_id index)
                | None => ret tt
                end in
            generate_loop id base polls em
        | _ => if default true (st_done <$> stream) then ret (Some em) else generate_loop id base polls em
        end
  end.

(** A new request object. *)
Definition new_object (q : Request) : EM (R := R) nat :=
  let* e := get in
  let r := stdpp.base.fresh (dom (e_reqs e)) in
  do* modify (λ e, set_reqs (<[r := q]> (e_reqs e)) e) in
  ret r.

Definition pop_inflight (id : string) : RM unit := on_servicer (modify (λ s, set_inflight (delete id (_inflight s)) s)).

(** The body of [Generate] once the call is neither refused nor a duplicate. *)
Definition generate_new (g : GenerateRequest) (id : string) (polls : list rpoll) (turns : list (turn (R := R))) : RM unit :=
  let* prompt_ids := on_servicer (zoom sv_tok set_tok (encode (g_prompt g) false)) in
  match prompt_ids with
  | [] => send (CFinish PB_ERROR 0 "prompt encodes to zero tokens")
  | _ =>
      let base := length (g_resume_tokens g) in
      let* r := on_replica_ae (on_eng (
        let* arrival := now perf_counter in
        let* dl := _deadline (g_deadline_unix g) in
        new_object (resumed_request g id prompt_ids arrival dl))) in
      do* on_servicer (modify (λ s, set_inflight (<[id := mkInFlight r []]> (_inflight s)) s)) in
      do* on_replica_ae (submit perf_counter cfg r) in
      let* q := on_replica_ae (on_eng (get_req r)) in
      if bool_decide (finish_reason q = Some REJECTED) then
        do* pop_inflight id in
        do* on_replica_ae (release id) in
        send (CFinish PB_REJECTED 0 (rejection_reason q))
      else
        finally
          (let* out := generate_loop id base polls emitter_init in
           match out with
           | None => ret tt
           | Some em =>
               let* s := get in
               let reason := default CANCELLED (streams (sv_ae s.1) !! id ≫= st_reason) in
               send (CFinish (_FINISH reason) (base + length (produced em)) "")
           end)
          (do* on_replica_ae (ae_cancel perf_counter turns id) in
           do* on_replica_ae (release id) in
           pop_inflight id)
  end.

Definition Generate (g : GenerateRequest) (fresh_id : string) (polls : list rpoll) (turns : list (turn (R := R))) : RM unit :=
  let* s := get in
  if draining s.1 then send (CFinish PB_REJECTED 0 "replica is draining")
  else
    let id := if bool_decide (g_request_id g = ""%string) then fresh_id else g_request_id g in
    match _inflight s.1 !! id with
    | Some existing => _follow existing
    | None => generate_new g id polls turns
    end.

(** [Health] and [Drain]. *)
Record HealthResponse := mkHealth {
  hr_ready : bool; hr_draining : bool; hr_running : nat; hr_waiting : nat;
  hr_kv_utilization : Qc; hr_prefix_hit_rate : Qc; hr_replica_id : string; hr_uptime : Z;
}.
Definition Health : M Servicer HealthResponse :=
  let* st := zoom sv_ae set_ae (on_eng (engine_stats perf_counter)) in
  let* t := zoom sv_ae set_ae (on_eng (now perf_counter)) in
  gets (λ s, mkHealth (negb (draining s)) (draining s) (num_running st) (num_waiting st)
    (kv_utilization st) (prefix_hit_rate st) replica_id
    (let d := this (t - started_at)%Qc in Z.quot (Qnum d) (Zpos (Qden d)))).
Definition Drain : M Servicer nat :=
  do* modify (λ s, mkServicer (sv_ae s) (sv_tok s) true (_inflight s)) in
  gets (λ s, size (_inflight s)).
End replica.

Arguments mkServicer {R} _ _ _ _.
Arguments sv_ae {R} _.
Arguments sv_tok {R} _.
Arguments draining {R} _.
Arguments _inflight {R} _.

(** * What a call does *)

Lemma push_same t t' x em : same_tok t t' → push t' x em = push t x em.
Proof. rw /same_tok => ->. done. Qed.

Section contract.
Context {R : Type} `{HT : Torch R} `{HS : TorchSampling R} `{HU : Unicode}.
Context (clock wall : nat → Qc) (cfg : EngineCfg) (t : BPETokenizer) (id : string).
Implicit Types (e : Engine (R := R)) (a : AsyncEngine (R := R)) (s : Servicer (R := R)).

(** While the call waits: the engine's reports make sense, the tokenizer is the one
    it was up to its memo table. *)
Definition r_sound s : Prop := sound t id (sv_ae s) ∧ same_tok t (sv_tok s).
Definition r_queued s : list Z := queued id (sv_ae s).
Definition r_over s : bool := stream_over id (sv_ae s).

(** The turns in which a call waits: they leave its entry alone and take nothing out of
    its stream. *)
Definition r_feeds (f : rturn (R := R)) : Prop := ∀ s, r_sound s →
  r_sound (f s) ∧ _inflight (f s) !! id = _inflight s !! id ∧ only_adds r_queued f s.

(** The call's own step: the head leaves its stream, and its entry may grow. *)
Definition r_takes s s' : Prop :=
  ∃ m, s' = set_inflight m (set_ae (taken id (sv_ae s)) s) ∧ delete id m = delete id (_inflight s).
Definition r_opening (p : rpoll (R := R)) : opening (St := Servicer (R := R)) := mkOpening (r_before p) (r_cancelled p) (r_waiting p).

(** The two answers to an offer: queued at the back, or finished as rejected. *)
Definition offer_outcome (r : nat) e e' : Prop :=
  e_emitted e' = e_emitted e ∧ e_running e' = e_running e ∧
  ((e_waiting e' = e_waiting e ++ [r] ∧ e_newly e' = e_newly e ∧ e_reqs e' = e_reqs e) ∨
   (e_waiting e' = e_waiting e ∧ e_newly e' = e_newly e ++ [r] ∧
    ∃ q', e_reqs e' = <[r := q']> (e_reqs e) ∧ finish_reason q' = Some REJECTED)).

Lemma add_request_decides e r q : e_reqs e !! r = Some q → offers_ok e →
  wp (add_request clock cfg r) (λ _, offer_outcome r e) never e.
Proof.
  intros Hq Hok. rw /add_request. do 2 wp_step. rw /offers_ok in Hok. destruct (e_admission e) as [c|] eqn:Hc.
  - destruct Hok as [Hinv Hi]. destruct (tokens_per_second_ok c Hinv Hi) as [rate Hrate].
    wp_step. rw {1}/wp /get_req Hq. wp_step. rw {1}/wp /now. wp_step. rw /on_admission. wp_step.
    eapply wp_mono; [by eapply admit_spec| |done]. intros [ok reason] c' _. cbn beta iota zeta. destruct ok; cbn [negb].
    + wp_step. split_and!; [done|done|]. by left.
    + rw /finish_req /upd_req /_record_finished. do 2 wp_step. rw {1}/wp /now. wp_step. do 3 wp_step.
      split_and!; [done|done|]. right. split_and!; [done|done|]. cbn. eexists. split.
      * rw -{1}(insert_id (e_reqs e) r q Hq) !alter_insert_eq. reflexivity.
      * reflexivity.
  - wp_step. split_and!; [done|done|]. by left.
Qed.

Lemma add_request_total e r q : e_reqs e !! r = Some q → offers_ok e →
  wp (add_request clock cfg r)
     (λ _ e', (∀ r', is_Some (e_reqs e !! r') → is_Some (e_reqs e' !! r')) ∧ e_emitted e' = e_emitted e ∧
        (e_newly e' = e_newly e ∨ e_newly e' = e_newly e ++ [r])) never e.
Proof.
  intros Hq Hok. eapply wp_mono; [by eapply add_request_decides| |done].
  intros _ e' (Hem & _ & [(_ & Hn & Hr)|(_ & Hn & q' & Hr & _)]); split_and!; auto; intros r' Hr'; rw Hr //.
  apply lookup_insert_is_Some. destruct (decide (r = r')); auto.
Qed.

Lemma submit_sound a r q :
  e_reqs (ae_engine a) !! r = Some q → offers_ok (ae_engine a) →
  Forall (λ r, is_Some (e_reqs (ae_engine a) !! r)) (e_newly (ae_engine a)) →
  Forall (λ rt, is_Some (vocab t !! rt.2)) (e_emitted (ae_engine a)) → req_id (ae_engine a) r = id →
  wp (submit clock cfg r)
     (λ _ a', sound t id a' ∧ ∃ e1, offer_outcome r (ae_engine a) e1 ∧ drained_engine e1 (ae_engine a') ∧
        queued id a' = tokens_for e1 id (e_emitted (ae_engine a))) never a.
Proof.
  intros Hq Hok Hnew Hem Hid. rw /submit. wp_step. wp_step. rw Hid /on_eng. do 2 wp_step.
  eapply wp_mono; [by eapply (add_request_decides _ r q)| |done]. cbn. intros _ e' Hout.
  set (a1 := set_engine _ _). assert (Forall (λ r, is_Some (e_reqs e' !! r)) (e_newly e')) as Hnew'.
  { destruct Hout as (_ & _ & [(_ & -> & ->)|(_ & -> & q' & -> & _)]); [done|].
    apply Forall_app. split; [|by constructor; [rw lookup_insert_eq|constructor]].
    eapply Forall_impl; [exact Hnew|]. intros r' Hr'. apply lookup_insert_is_Some. destruct (decide (r = r')); auto. }
  eapply wp_mono; [apply (fanout_spec clock a1 Hnew')| |done]. cbn. intros _ a2 [Hd Hs].
  pose proof Hout as (Hemit & _). assert (known t (tokens_for e' id (e_emitted (ae_engine a)))) as Hk.
  { rw /known /tokens_for Forall_fmap. apply Forall_forall. intros rt [_ Hin]%list_elem_of_filter.
    rw Forall_forall in Hem. by apply Hem. }
  assert (queued id a2 = tokens_for e' id (e_emitted (ae_engine a))) as Hqd.
  { rw /queued Hs /a1 /= lookup_insert_eq Hemit. cbn. rw /reached /conclude_stream. by destruct (first_reason _ _ _). }
  split; [|by exists e']. destruct Hd as (_ & _ & _ & _ & _ & _ & _ & Hnil). split; [by rw Hnil|].
  intros st Hst. rw /queued Hst /= in Hqd. by rw Hqd.
Qed.

(** The chunks sent so far are what was said, with consecutive positions, and the entry
    holds it for a duplicate call. *)
Definition r_streamed (base : nat) (x : Servicer (R := R) * list Chunk) (em : Emitter) (said : list (Z * list Z)) : Prop :=
  r_sound x.1 ∧ saying t em said ∧ if_emitted <$> _inflight x.1 !! id = Some said ∧ x.2 = follow_chunks base said.

Lemma follow_snoc k l x : follow_chunks k (l ++ [x]) = follow_chunks k l ++ [CToken x.2 x.1 (k + length l)].
Proof.
  revert k. induction l as [|[i p] l IH]; intros k; destruct x as [j q]; cbn; [by rw Nat.add_0_r|].
  by rw IH Nat.add_succ_r.
Qed.

Lemma r_poll_fed (p : rpoll (R := R)) s : r_feeds (r_before p) → r_feeds (r_waiting p) → r_sound s →
  let s1 := r_before p s in let s2 := r_waiting p s1 in
  r_sound s1 ∧ _inflight s1 !! id = _inflight s !! id ∧ r_queued s1 = r_queued s ++ added r_queued (r_before p) s ∧
  r_sound s2 ∧ _inflight s2 !! id = _inflight s !! id ∧
  r_queued s2 = r_queued s ++ (added r_queued (r_before p) s ++ added r_queued (r_waiting p) s1).
Proof.
  intros Hb Hw Hs s1 s2. destruct (Hb s Hs) as (Hs1 & Hi1 & H1). destruct (Hw _ Hs1) as (Hs2 & Hi2 & H2).
  rw /s2 (queue_added _ _ _ H2) /s1 (queue_added _ _ _ H1) -assoc Hi2 Hi1. done.
Qed.

Definition loop_post (base : nat) polls em s (out : option Emitter) (x' : Servicer (R := R) * list Chunk) : Prop :=
  ∃ em' said' how new, r_streamed base x' em' said' ∧
    watch r_queued r_over r_takes (r_opening <$> polls) s how new x'.1 ∧
    produced em' ++ r_queued x'.1 = produced em ++ r_queued s ++ new ∧
    out = match how with Interrupted => None | _ => Some em' end.

Lemma generate_loop_spec base polls : Forall (λ p, r_feeds (r_before p) ∧ r_feeds (r_waiting p)) polls → ∀ em said x,
  r_streamed base x em said →
  wp (generate_loop id base polls em) (loop_post base polls em x.1) never x.
Proof.
  induction 1 as [|p polls [Hb Hw] _ IH]; intros em said x Hs; cbn [generate_loop].
  { wp_step. exists em, said, Interrupted, []. rw app_nil_r. split_and!; [done|constructor|done|done]. }
  pose proof Hs as (Hsound & Hsay & Hin & Hev).
  destruct (r_poll_fed p x.1 Hb Hw Hsound) as (Hs1 & Hi1 & Hq1 & Hs2 & Hi2 & Hq2).
  rw /on_servicer. do 3 wp_step. destruct (r_cancelled p) eqn:Hgone.
  { wp_step. exists em, said, HungUp, (added r_queued (r_before p) x.1).
    split_and!; [split_and!; [done|done|by cbn; rw Hi1|done]| |by cbn; rw Hq1|done]. by apply (watch_gone _ _ _ (r_opening p)). }
  do 5 wp_step. cbn [fst snd]. set (s2 := r_waiting p (r_before p x.1)) in *.
  set (fresh := added _ (r_before p) _ ++ _) in Hq2.
  assert (r_streamed base (s2, x.2) em said) as Hstr2 by (split_and!; [done|done|by cbn; rw Hi2|done]).
  assert (r_queued s2 = default [] (st_queue <$> streams (sv_ae s2) !! id) ∧ r_over s2 = default true (st_done <$> streams (sv_ae s2) !! id))
    as [Hqd Hov] by done.
  destruct (streams (sv_ae s2) !! id) as [str|] eqn:Hstr; cbn [fmap option_fmap option_map default from_option Datatypes.id] in Hqd, Hov |- *.
  - destruct (st_queue str) as [|y rest] eqn:Hq; [destruct (st_done str) eqn:Hdone|].
    + cbn iota. wp_step. exists em, said, Complete, fresh. split_and!; [done| |by cbn; rw Hq2|done].
      by apply (watch_over _ _ _ (r_opening p)).
    + eapply wp_mono; [apply (IH em said _ Hstr2)| |done]. intros out s' (em' & said' & how & new & H1 & H2 & H3 & H4).
      exists em', said', how, (fresh ++ new). split_and!; [done| |by rw H3; cbn [fst]; rw Hq2 -!assoc|done].
      by eapply (watch_wait _ _ _ (r_opening p)).
    + destruct Hs2 as [Ha2 Htok2]. pose proof (queued_known t id (sv_ae s2) Ha2) as Hkn. change (queued id (sv_ae s2)) with (r_queued s2) in Hkn.
      rw Hqd in Hkn. apply Forall_cons in Hkn as [Hx _].
      destruct (push_saying t em said y Hsay Hx) as (em1 & piece & Hpush & Hprod & Hsay1).
      rw /on_replica_ae /on_servicer. do 4 wp_step. wp_step. rw {1}/wp /lift_result (push_same t) // Hpush. wp_step.
      set (s3 := set_ae (taken id (sv_ae s2)) s2). assert (r_sound s3) as Hs3 by (split; [by apply sound_take|done]).
      assert (∀ s4, r_sound s4 → r_takes s2 s4 → r_queued s4 = rest → if_emitted <$> _inflight s4 !! id = Some (said ++ said_next y piece) →
        wp (generate_loop id base polls em1) (loop_post base (p :: polls) em x.1) never
          (s4, follow_chunks base (said ++ said_next y piece))) as Hrest.
      { intros s4 Hs4 Htk Hr4 Hi4. eapply wp_mono; [eapply (IH em1 _ (s4, _)); by split_and!| |done].
        intros out s' (em' & said' & how & new & H1 & H2 & H3 & H4).
        exists em', said', how, (fresh ++ new). split_and!; [done| | |done].
        - by eapply (watch_take _ _ _ (r_opening p)).
        - rw H3 Hprod. cbn [fst]. rw Hr4 (assoc (++) (r_queued x.1)) -Hq2 Hqd. by rw -!assoc. }
      assert (r_queued s3 = rest) as Hr3 by exact (queued_taken id (sv_ae s2) y rest Hqd).
      destruct piece as [text|]; cbn [said_next] in Hrest.
      * do 2 wp_step. cbn [fst snd]. do 3 wp_step. rw /send. wp_step. cbn [fst snd].
        change (_inflight s3) with (_inflight s2). rw Hi2 Hin Hev. cbn [default from_option Datatypes.id].
        rw -(follow_snoc base said (y, text)). apply Hrest; [done| |done|].
        -- eexists. split; [done|]. by rw delete_alter_eq.
        -- cbn. rw lookup_alter_eq Hi2. destruct (_inflight x.1 !! id) as [entry|]; [|done]. cbn in *. by injection Hin as <-.
      * wp_step. rw Hev -(app_nil_r said). apply Hrest; [done| |done|by rw app_nil_r; cbn; rw Hi2].
        exists (_inflight s2). split; [by destruct s2|done].
  - wp_step. exists em, said, Complete, fresh. split_and!; [done| |by cbn; rw Hq2|done].
    by apply (watch_over _ _ _ (r_opening p)).
Qed.
End contract.

Section outcome.
Context {R : Type} `{HT : Torch R} `{HS : TorchSampling R} `{HU : Unicode}.
Implicit Types (s : Servicer (R := R)).

(** A call that streams, from the state [s0] in which its request is queued: it takes the
    tokens of its stream in order, says them as [spells] requires with the ids of the tokens
    that let each piece be said, at consecutive positions after the resumed ones, and closes
    with the stream's reason and the number of tokens unless its coroutine was cancelled. *)
Definition streamed_call (t : BPETokenizer) (base : nat) (id : string) (polls : list (rpoll (R := R)))
    (turns : list (turn (R := R))) (s0 : Servicer (R := R)) (x' : Servicer (R := R) * list Chunk) : Prop :=
  ∃ how new s1 tokens said,
    watch (r_queued id) (r_over id) (r_takes id) (r_opening <$> polls) s0 how new s1 ∧
    tokens ++ r_queued id s1 = r_queued id s0 ++ new ∧ spells t tokens said ∧
    (how = Complete → r_queued id s1 = [] ∧ r_over id s1 = true) ∧
    if_emitted <$> _inflight s1 !! id = Some said ∧
    x'.2 = follow_chunks base said ++
      match how with
      | Interrupted => []
      | _ => [CFinish (_FINISH (default CANCELLED (streams (sv_ae s1) !! id ≫= st_reason))) (base + length tokens) ""]
      end ∧
    wound_up id turns (sv_ae s1) (sv_ae x'.1).

(** What becomes of a new call: its prompt encodes to nothing, the engine rejects it, or
    exactly one request with the prompt and the resumed tokens joins the queue and is
    streamed. *)
Definition new_call (t : BPETokenizer) (g : GenerateRequest) (id : string) (polls : list (rpoll (R := R)))
    (turns : list (turn (R := R))) s (x' : Servicer (R := R) * list Chunk) : Prop :=
  let e := ae_engine (sv_ae s) in
  ∃ ids, (encode (g_prompt g) false (sv_tok s)).1 = Ok ids ∧
    ((ids = [] ∧ sv_ae x'.1 = sv_ae s ∧ x'.2 = [CFinish PB_ERROR 0 "prompt encodes to zero tokens"]) ∨
     (ids ≠ [] ∧ ∃ r arrival dl, e_reqs e !! r = None ∧
       ((∃ q', finish_reason q' = Some REJECTED ∧ e_reqs (ae_engine (sv_ae x'.1)) !! r = Some q' ∧
           e_waiting (ae_engine (sv_ae x'.1)) = e_waiting e ∧ x'.2 = [CFinish PB_REJECTED 0 (rejection_reason q')]) ∨
        (∃ s0, e_reqs (ae_engine (sv_ae s0)) !! r = Some (resumed_request g id ids arrival dl) ∧
           e_waiting (ae_engine (sv_ae s0)) = e_waiting e ++ [r] ∧
           r_queued id s0 = tokens_for (ae_engine (sv_ae s0)) id (e_emitted e) ∧
           streamed_call t (length (g_resume_tokens g)) id polls turns s0 x')))).

Definition call_id (g : GenerateRequest) (fresh_id : string) : string :=
  if bool_decide (g_request_id g = ""%string) then fresh_id else g_request_id g.

(** A servicer between calls. *)
Record s_ready (t : BPETokenizer) s (id : string) : Prop := {
  sr_tok : tok_ok t ∧ same_tok t (sv_tok s) ∧ tok_ok (sv_tok s);
  sr_newly : Forall (λ r, is_Some (e_reqs (ae_engine (sv_ae s)) !! r)) (e_newly (ae_engine (sv_ae s)));
  sr_emitted : Forall (λ rt, is_Some (vocab t !! rt.2)) (e_emitted (ae_engine (sv_ae s)));
  sr_offers : offers_ok (ae_engine (sv_ae s));
  sr_stream : streams (sv_ae s) !! id = None;
}.

Lemma wind_up clock t id turns (x : Servicer (R := R) * list Chunk) :
  Forall (keeps t id) turns → sound t id (sv_ae x.1) →
  wp (do* on_replica_ae (ae_cancel clock turns id) in do* on_replica_ae (release id) in pop_inflight id)
     (λ _ x', _inflight x'.1 !! id = None ∧ wound_up id turns (sv_ae x.1) (sv_ae x'.1) ∧ x'.2 = x.2) never x.
Proof.
  intros Hturns Hs. rw /on_replica_ae /on_servicer. do 3 wp_step. eapply wp_mono; [by apply (cancel_spec clock t id)| |done].
  intros _ a3 (b & Hw & Hd). do 3 wp_step. rw /release. wp_step. rw /pop_inflight /on_servicer. do 2 wp_step. cbn.
  split_and!; [by rw lookup_delete_eq| |done]. exists b. split_and!; [done|done|by rw /= lookup_delete_eq].
Qed.

Lemma new_object_spec clock wall g id prompt_ids (e : Engine (R := R)) :
  wp (let* arrival := now clock in
      let* dl := _deadline clock wall (g_deadline_unix g) in
      new_object (resumed_request g id prompt_ids arrival dl))
     (λ r e', ∃ arrival dl tk, e_reqs e !! r = None ∧
        e' = set_counters tk (e_seed e) (e_uid e) (set_reqs (<[r := resumed_request g id prompt_ids arrival dl]> (e_reqs e)) e)) never e.
Proof.
  wp_step. rw {1}/wp /now. wp_step. rw /_deadline.
  assert (∀ e1 arrival dl tk, e1 = set_counters tk (e_seed e) (e_uid e) e →
    wp (new_object (resumed_request g id prompt_ids arrival dl))
     (λ r e', ∃ arrival dl tk, e_reqs e !! r = None ∧
        e' = set_counters tk (e_seed e) (e_uid e) (set_reqs (<[r := resumed_request g id prompt_ids arrival dl]> (e_reqs e)) e)) never e1) as Hnew.
  { intros e1 arrival dl tk ->. rw /new_object. do 4 wp_step. wp_step. eexists arrival, dl, tk. split; [|done].
    cbn. apply not_elem_of_dom, is_fresh. }
  destruct (bool_decide (g_deadline_unix g = 0%Qc)).
  - wp_step. by eapply Hnew.
  - do 2 wp_step. wp_step. rw {1}/wp /now. wp_step. by eapply Hnew.
Qed.

Lemma tokens_for_ext (e e' : Engine (R := R)) id l : e_reqs e = e_reqs e' → tokens_for e id l = tokens_for e' id l.
Proof. intros He. by rw /tokens_for /req_id He. Qed.

Lemma call_streams clock t base id polls turns (s0 : Servicer (R := R)) :
  r_sound t id s0 → if_emitted <$> _inflight s0 !! id = Some [] →
  Forall (λ p, r_feeds t id (r_before p) ∧ r_feeds t id (r_waiting p)) polls → Forall (keeps t id) turns →
  wp (finally
        (let* out := generate_loop id base polls emitter_init in
         match out with
         | None => ret tt
         | Some em =>
             let* x := get in
             let reason := default CANCELLED (streams (sv_ae x.1) !! id ≫= st_reason) in
             send (CFinish (_FINISH reason) (base + length (produced em)) "")
         end)
        (do* on_replica_ae (ae_cancel clock turns id) in
         do* on_replica_ae (release id) in
         pop_inflight id))
     (λ _ x', _inflight x'.1 !! id = None ∧ streamed_call t base id polls turns s0 x') never (s0, []).
Proof.
  intros Hs0 Hin Hpolls Hturns. apply wp_finally. wp_step.
  eapply wp_mono; [by eapply (generate_loop_spec t id base polls Hpolls emitter_init []); split_and!; [done|apply saying_init|done|]| |done].
  cbn [fst snd]. intros out [s1 evs] (em & said & how & new & (Hs1 & [Hsp _] & Hi1 & Hev) & Hwatch & Htok & ->). cbn [fst snd] in *.
  assert (how = Complete → r_queued id s1 = [] ∧ r_over id s1 = true) as Hc by by eapply watch_complete.
  destruct Hs1 as [Ha1 _]. destruct how.
  - wp_step. eapply wp_mono; [by apply (wind_up clock t id turns (s1, evs))| |done]. intros _ x' (H1 & H2 & H3). split; [done|].
    eexists Interrupted, new, s1, _, said. split_and!; try done. by rw H3 Hev app_nil_r.
  - do 2 wp_step. rw /send. wp_step. eapply wp_mono; [by apply (wind_up clock t id turns (s1, _))| |done]. intros _ x' (H1 & H2 & H3). split; [done|].
    eexists HungUp, new, s1, _, said. split_and!; try done. by rw H3 Hev.
  - do 2 wp_step. rw /send. wp_step. eapply wp_mono; [by apply (wind_up clock t id turns (s1, _))| |done]. intros _ x' (H1 & H2 & H3). split; [done|].
    eexists Complete, new, s1, _, said. split_and!; try done. by rw H3 Hev.
Qed.

Lemma generate_new_spec clock wall cfg t g id polls turns `{!UnicodeLaws} s :
  s_ready t s id → _inflight s !! id = None → forallb scalar (g_prompt g) = true →
  Forall (λ p, r_feeds t id (r_before p) ∧ r_feeds t id (r_waiting p)) polls → Forall (keeps t id) turns →
  wp (generate_new clock wall cfg g id polls turns)
     (λ _ x', _inflight x'.1 !! id = None ∧ streams (sv_ae x'.1) !! id = None ∧ new_call t g id polls turns s x') never (s, []).
Proof.
  intros [(Ht & Hst & Hts) Hnew Hem Hoff Hstr] Hinf Hsc Hpolls Hturns. rw /generate_new. wp_step.
  rw /on_servicer. do 2 wp_step.
  pose proof (encode_spec (sv_tok s) (g_prompt g) false Hts Hsc (or_introl eq_refl)) as Henc. rw /wp in Henc.
  rw {1}/wp. cbn [fst snd]. destruct (encode (g_prompt g) false (sv_tok s)) as [[ids|x] t1] eqn:He; [|done].
  destruct Henc as (_ & _ & Hs1).
  assert (same_tok t t1) as Hst1 by by eapply same_tok_trans.
  destruct (decide (ids = [])) as [->|Hne].
  { rw /send. wp_step. split_and!; [done|done|]. exists []. rw He. split; [done|]. by left. }
  assert (∀ A (x y : A), match ids with [] => x | _ :: _ => y end = y) as Hids by by destruct ids.
  rw Hids. wp_step. rw /on_replica_ae /on_servicer /on_eng. do 3 wp_step. eapply wp_mono; [apply new_object_spec| |done].
  intros r e1 (arrival & dl & tk & Hr & ->). cbn [fst snd]. set (q := resumed_request _ _ _ _ _).
  do 3 wp_step. wp_step. do 2 wp_step. eapply wp_mono; [eapply (submit_sound clock cfg t id _ r q)| |done]; cbn.
  { by rw lookup_insert_eq. }
  { exact Hoff. }
  { eapply Forall_impl; [exact Hnew|]. intros r' Hr'. cbn. destruct (decide (r = r')) as [->|Hne']; [by rw lookup_insert_eq|].
    by rw lookup_insert_ne. }
  { exact Hem. }
  { by rw /req_id /= lookup_insert_eq. }
  intros _ a2 (Ha2 & e2 & Hout & Hd & Hqd). destruct Hd as (Hd1 & Hd2 & Hd3 & _).
  destruct Hout as (_ & _ & [(Hw & _ & Hreqs)|(Hw & _ & q' & Hreqs & Hrej)]); cbn in Hw, Hreqs.
  - assert (e_reqs (ae_engine a2) !! r = Some q) as Hq2 by by rw Hd1 Hreqs lookup_insert_eq.
    wp_step. do 3 wp_step. rw {1}/wp /get_req Hq2. cbn [fst snd]. rw bool_decide_eq_false_2 //.
    eapply wp_mono; [eapply (call_streams clock t (length (g_resume_tokens g)) id polls turns)| |done]; [by split|by cbn; rw lookup_insert_eq|done|done|].
    intros _ x' [H1 H2]. pose proof H2 as (_ & _ & _ & _ & _ & _ & _ & _ & _ & _ & _ & b & _ & _ & Hno).
    split_and!; [done|done|]. exists ids. rw He. split; [done|]. right. split; [done|]. exists r, arrival, dl. split; [done|]. right.
    eexists. split_and!; [| | |exact H2]; cbn; [done|by rw Hd3 Hw|]. rw /r_queued. etrans; [exact Hqd|]. by apply tokens_for_ext.
  - assert (e_reqs (ae_engine a2) !! r = Some q') as Hq2 by by rw Hd1 Hreqs lookup_insert_eq.
    wp_step. do 3 wp_step. rw {1}/wp /get_req Hq2. cbn [fst snd]. rw bool_decide_eq_true_2 //.
    rw /pop_inflight /on_servicer. do 3 wp_step. do 3 wp_step. rw /release /send. do 2 wp_step. cbn. rw !lookup_delete_eq.
    split_and!; [done|done|]. exists ids. rw He. split; [done|]. right. split; [done|]. exists r, arrival, dl. split; [done|]. left.
    exists q'. split_and!; [done|done|by cbn; rw Hd3 Hw|done].
Qed.
End outcome.

(** C26: the call contract.  [Generate] raises nothing.  A draining replica answers with
    one refusal and changes nothing.  A call whose id is in flight is not attached to that
    generation: it is sent the pieces its entry holds, from position 0, and then closed as
    cancelled, changing nothing.  Any other call, whatever happens while it waits and
    however it ends, leaves neither an in-flight entry nor a stream behind, and one of three
    things happened: its prompt encodes to nothing and it says so; the engine rejected its
    request and it says why; or exactly one request, with the prompt and the resumed
    tokens, joined the queue, and the call took the tokens of its stream in order, sent
    each piece with the id of the token that completed it at consecutive positions after
    the resumed tokens, kept them in its entry, stopped only when cancelled, when its client
    was gone or when the stream was done and empty, closed with the stream's reason and
    the number of tokens, and asked for the cancellation of its sequence. *)
Theorem generate_contract {R} `{Torch R, TorchSampling R, UnicodeLaws} clock wall cfg t g fresh_id polls turns
    (s : Servicer (R := R)) :
  let id := call_id g fresh_id in
  s_ready t s id → forallb scalar (g_prompt g) = true →
  Forall (λ p, r_feeds t id (r_before p) ∧ r_feeds t id (r_waiting p)) polls → Forall (keeps t id) turns →
  wp (Generate clock wall cfg g fresh_id polls turns)
     (λ _ x',
        if draining s then x' = (s, [CFinish PB_REJECTED 0 "replica is draining"])
        else match _inflight s !! id with
             | Some entry => x' = (s, follow_chunks 0 (if_emitted entry)
                                 ++ [CFinish PB_CANCELLED (length (if_emitted entry)) "duplicate request_id"])
             | None => _inflight x'.1 !! id = None ∧ streams (sv_ae x'.1) !! id = None ∧ new_call t g id polls turns s x'
             end) never (s, []).
Proof.
  intros id Hready Hsc Hpolls Hturns. rw /Generate. do 2 wp_step. cbn [fst snd]. destruct (draining s); [by rw /send; wp_step|].
  fold (call_id g fresh_id). fold id. destruct (_inflight s !! id) as [entry|] eqn:Hin; [|by apply generate_new_spec].
  rw /_follow. wp_step.
  assert (∀ l out, for_each l send (s, out) = (Ok tt, (s, out ++ l))) as Hsend.
  { induction l as [|c l IH]; intros out; cbn [for_each]; [by rw app_nil_r|].
    transitivity (for_each l send (s, out ++ [c])); [done|]. by rw IH -assoc. }
  rw {1}/wp Hsend. done.
Qed.

(** A call over the toy engine that resumes one token; while it waits, the engine
    delivers [the]. *)
Definition toy_servicer : Servicer (R := Z) :=
  mkServicer (mkAE (ToyEngine.engine 9 ∅) ∅ None) toy_tok false ∅.
Definition toy_call : GenerateRequest := mkGenerate [116; 104; 101]%Z 4 0%Qc 0 0%Qc true "c" 0%Qc [5%Z].
Definition toy_delivery : rturn (R := Z) := λ s,
  set_ae (set_streams (alter (put_token 257%Z) "c"%string (streams (sv_ae s))) (sv_ae s)) s.

Lemma toy_delivery_feeds : r_feeds toy_tok "c" toy_delivery.
Proof.
  intros s [[Hn Hq] Ht]. rw /only_adds /r_queued /queued /toy_delivery. cbn. rw lookup_alter_eq.
  split; [|split; [done|]].
  - split; [|exact Ht]. split; [exact Hn|]. intros st. cbn. rw lookup_alter_eq.
    destruct (streams (sv_ae s) !! "c"%string) as [s0|] eqn:H0; [|done].
    intros [= <-]. cbn. apply Forall_app. split; [exact (Hq _ eq_refl)|]. repeat constructor. eexists. vm_compute. reflexivity.
  - destruct (streams (sv_ae s) !! "c"%string); [|done]. by exists [257%Z].
Qed.

Lemma idle_feeds : r_feeds toy_tok "c" (λ s : Servicer (R := Z), s).
Proof. intros s Hs. split; [done|]. split; [done|]. by exists []; rw app_nil_r. Qed.

Lemma generate_contract_witness :
  let polls := [mkRPoll toy_delivery false (λ s, s); mkRPoll (λ s, s) true (λ s, s)] in
  (Generate ToyEngine.clock ToyEngine.clock ToyEngine.cfg toy_call "x" polls [] (toy_servicer, [])).2.2
    = [CToken [116; 104; 101]%Z 257%Z 1; CFinish PB_CANCELLED 2 ""] ∧
  wp (Generate ToyEngine.clock ToyEngine.clock ToyEngine.cfg toy_call "x" polls [])
     (λ _ x', _inflight x'.1 !! "c"%string = None ∧ new_call toy_tok toy_call "c" polls [] toy_servicer x') never (toy_servicer, []).
Proof.
  split; [vm_compute; reflexivity|]. eapply wp_mono.
  - apply (generate_contract ToyEngine.clock ToyEngine.clock ToyEngine.cfg toy_tok toy_call "x" _ [] toy_servicer).
    + split; [split; [apply toy_tok_ok|split; [apply same_tok_refl|apply toy_tok_ok]]|constructor|constructor|exact I|reflexivity].
    + reflexivity.
    + repeat (apply List.Forall_cons; [split; first [apply toy_delivery_feeds|apply idle_feeds]|]). apply List.Forall_nil.
    + constructor.
  - intros _ x' (H1 & _ & H2). split; [exact H1|exact H2].
  - intros e s H. exact H.
Defined.

(** A duplicate call while the first one is under way is closed with what was sent so far,
    and its positions ignore the resumed tokens. *)
Example duplicate_is_cancelled :
  let s := set_inflight (<["c" := mkInFlight 0 [(257, [116; 104; 101])]%Z]> ∅)%string toy_servicer in
  (Generate ToyEngine.clock ToyEngine.clock ToyEngine.cfg toy_call "x" [] [] (s, [])).2.2
    = [CToken [116; 104; 101]%Z 257%Z 0; CFinish PB_CANCELLED 1 "duplicate request_id"].
Proof. reflexivity. Qed.

(** A migrated call whose budget the client already holds still asks for one token. *)
Example resumed_budget_exceeded :
  let g := mkGenerate [116]%Z 3 0%Qc 0 0%Qc true "c" 0%Qc [5; 6; 7]%Z in
  max_tokens (params (resumed_request g "c" [116]%Z 0%Qc None)) = 1%Z.
Proof. reflexivity. Qed.
