(* ===== verification/Service.v ===== *)
(** * The service as a whole (engine/server.py over engine/scheduler.py)

    The pieces put together: requests arrive at any time, the engine task works,
    connections poll for tokens, ask for cancellations and leave, in any order.  An event is
    what a coroutine does between two awaits, except that the engine's [step] runs in a
    worker thread while the event loop goes on: it is taken in four parts - cancellations,
    admission, the decode pass, sampling and accepting - with any events in between.  (Within
    a part the handlers only write what it does not hold on to, but Python lets the threads
    take turns there too; that is left out.) *)

From Stdlib Require Import ssreflect QArith Qcanon.
From stdpp Require Import prelude gmap gmultiset strings list.
From S2P Require Import Prelude Text Tokenizer Config BlockManager KvCache Transformer PrefixCache Types Admission Batch Scheduler Frame Ledger Prefill Engine EngineProps Liveness Metrics Server Replica.

Inductive event :=
  | Arrive (id : string) (q : Qc → Request)  (* a request is built with its arrival time, and submitted *)
  | Work                                     (* the engine task does its next piece of work *)
  | Ask (id : string)                        (* [cancel] asks the engine *)
  | Flush                                    (* [cancel] has waited *)
  | Poll (id : string)                       (* a response takes the next token, if there is one *)
  | Leave (id : string).                     (* a response ends *)

Definition arrivals (l : list event) : list (string * (Qc → Request)) :=
  l ≫= λ ev, match ev with Arrive id q => [(id, q)] | _ => [] end.

Definition departures (l : list event) : list string := l ≫= λ ev, match ev with Leave id => [id] | _ => [] end.

Section service.
Context {R : Type} `{HT : Torch R} `{HS : TorchSampling R}.
#[local] Notation "'KV'" := (list (list R)).
Context (sdpa : list KV → list KV → list KV → option (list (list bool)) → bool → list KV).
Context (w : NanoForCausalLM (R := R)) (hash : Z → list Z → Z) (clock : nat → Qc) (cfg : EngineCfg).

(** Where the engine task is: between two steps, or after which part of one, with what it
    holds; [Stepped] is the step done but not yet fanned out. *)
Inductive stage :=
  | Idle
  | Admitting (cancelled : list nat)
  | Decoding (done_in_admit : list nat)
  | Accepting (logits : list (list R)) (started : Qc) (done_in_admit : list nat)
  | Stepped.

(** The server, what each response has taken so far, and the engine task. *)
Record Service := mkService {
  sv_server : AsyncEngine (R := R);
  sv_got : gmap string (list Z);
  sv_stage : stage;
}.

Definition set_server (a : AsyncEngine) (s : Service) : Service := mkService a (sv_got s) (sv_stage s).
Definition to_stage (st : stage) (s : Service) : Service := mkService (sv_server s) (sv_got s) st.
Definition on_server {A} (m : M (AsyncEngine (R := R)) A) : M Service A := zoom sv_server set_server m.
Definition got (m : gmap string (list Z)) (id : string) : list Z := default [] (m !! id).

(** [_run], piece by piece. *)
Definition work_next : M Service unit :=
  let* s := get in
  match sv_stage s with
  | Idle =>
      if has_work (ae_engine (sv_server s)) then
        let* cancelled := on_server (on_eng (apply_cancellations clock cfg)) in
        modify (to_stage (Admitting cancelled))
      else on_server (do* on_eng (apply_cancellations clock cfg) in _fanout clock)
  | Admitting cancelled =>
      let* dn := on_server (on_eng (step_admit sdpa w hash clock cfg cancelled)) in
      modify (to_stage (Decoding dn))
  | Decoding dn =>
      let* o := on_server (on_eng (step_decode sdpa w clock)) in
      modify (to_stage (match o with Some (logits, started) => Accepting logits started dn | None => Stepped end))
  | Accepting logits started dn =>
      do* on_server (on_eng (step_accept clock cfg logits started dn)) in
      modify (to_stage Stepped)
  | Stepped =>
      do* on_server (_fanout clock) in
      modify (to_stage Idle)
  end.

Definition serve_event (ev : event) : M Service unit :=
  match ev with
  | Arrive id q => on_server (let* r := on_eng (let* t := now clock in new_object (q t)) in submit clock cfg r)
  | Work => work_next
  | Ask id => on_server (on_eng (request_cancel id))
  | Flush => on_server (_fanout clock)
  | Poll id =>
      let* s := get in
      match st_queue <$> streams (sv_server s) !! id with
      | Some (t :: _) =>
          modify (λ s, mkService (set_streams (alter take_token id (streams (sv_server s))) (sv_server s))
            (<[id := got (sv_got s) id ++ [t]]> (sv_got s)) (sv_stage s))
      | _ => ret tt
      end
  | Leave id => on_server (release id)
  end.
End service.

Arguments mkService {R} _ _ _.
Arguments sv_server {R} _.
Arguments sv_got {R} _.
Arguments sv_stage {R} _.
Arguments Idle {R}.
Arguments Admitting {R} _.
Arguments Decoding {R} _.
Arguments Accepting {R} _ _ _.
Arguments Stepped {R}.

(** * What the connections receive *)

Section correctness.
Context {R : Type} `{HT : Torch R} `{HS : TorchSampling R} `{HSL : !SamplerLaws R}.
#[local] Notation "'KV'" := (list (list R)).
Context (sdpa : list KV → list KV → list KV → option (list (list bool)) → bool → list KV).
Context (attend : list (list R) → list KV → list KV → list (list R)) (inv : list R).
Context (w : NanoForCausalLM (R := R)) (hash : Z → list Z → Z) (clock : nat → Qc) (seen : list Z → Prop) (cfg : EngineCfg).
Context (asked : nat → list Z → SamplingParams → Prop) (may : FinishReason → Prop).
Context (B bs : nat) (HM : model_ok sdpa attend w).
Implicit Types (e : Engine (R := R)) (a : AsyncEngine (R := R)) (drained all : list nat).
#[local] Abbreviation EI := (Engine.EI sdpa attend inv w hash seen cfg asked may).
#[local] Abbreviation outcome_ok := (Engine.outcome_ok sdpa inv w cfg may).

(** ** The engine's invariant when a request arrives *)

Lemma EI_known drained e live extra fl all r : EI drained e live extra fl all → r ∈ all → r ∉ fl → is_Some (e_reqs e !! r).
Proof.
  intros HI. pose proof HI as [_ _ _ _ _ _ _ Hw Hl Hn _ Ha _]. rw -Ha !elem_of_app. intros [Hr|[Hr|[Hr|Hr]]] Hfl.
  - destruct (Hw r Hr) as (q & -> & _). done.
  - apply list_elem_of_fmap in Hr as (s & -> & Hs). destruct (Hl s Hs) as (q & -> & _). done.
  - done.
  - destruct (Hn r) as (q & -> & _); [by apply elem_of_app|done].
Qed.

(** A new request, in hand. *)
Lemma EI_arrive drained e live extra fl all r q : EI drained e live extra fl all → r ∉ all → e_reqs e !! r = None →
  good w seen q → Engine.fresh q → asked r (prompt_token_ids q) (params q) →
  EI drained (set_reqs (<[r := q]> (e_reqs e)) e) live extra (r :: fl) (r :: all).
Proof.
  intros HI Hra Hr Hg [Ho Hf] Hask. pose proof HI as [? ? ? ? ? Hgd Hnd Hwt Hli Hnw ? Ha ?].
  assert (∀ r', r' ∈ e_waiting e ++ (s_req <$> live) ++ fl ++ drained ++ e_newly e → <[r := q]> (e_reqs e) !! r' = e_reqs e !! r') as Hm.
  { intros r' Hr'. rw lookup_insert_ne //. intros <-. apply Hra. by rw -Ha. }
  rw /Engine.EI. cbn. split; try done; cbn.
  - intros r' q' [[<- <-]|[_ Hq]]%lookup_insert_Some; [|by apply Hgd]. split_and!; [done|by rw /Engine.outcome_ok Hf|done].
  - assert (e_waiting e ++ (s_req <$> live) ++ r :: fl ≡ₚ r :: e_waiting e ++ (s_req <$> live) ++ fl) as -> by solve_Permutation.
    apply NoDup_cons. split; [|done]. intros Hin. apply Hra. rw -Ha !elem_of_app. rw !elem_of_app in Hin. tauto.
  - intros r' Hr'. rw Hm; [by apply Hwt|]. rw !elem_of_app. auto.
  - intros s Hs. rw Hm; [by apply Hli|]. rw !elem_of_app. right. left. by apply list_elem_of_fmap_2.
  - intros r' Hr'. rw Hm; [by apply Hnw|]. rw !elem_of_app. rw elem_of_app in Hr'. tauto.
  - rw -Ha /=. solve_Permutation.
Qed.

(** The request in hand goes to the back of the queue, or is refused. *)
Lemma inv_of_enqueue p c ro wt reqs newly uid canc live extra fl all r q :
  inv_of sdpa attend inv w hash seen cfg asked may p c ro wt reqs newly uid canc live extra (r :: fl) all → reqs !! r = Some q → Engine.fresh q →
  inv_of sdpa attend inv w hash seen cfg asked may p c ro (wt ++ [r]) reqs newly uid canc live extra fl all.
Proof.
  intros [? ? ? ? ? ? Hn Hw ? ? ? Ha ?] Hr Hf. split; try done.
  - assert ((wt ++ [r]) ++ (s_req <$> live) ++ fl ≡ₚ wt ++ (s_req <$> live) ++ r :: fl) as -> by solve_Permutation. done.
  - intros r' [Hr'| ->%list_elem_of_singleton]%elem_of_app; [by apply Hw|by exists q].
  - rw -Ha. solve_Permutation.
Qed.

Lemma inv_of_reject (Hreject : may REJECTED) p c ro wt reqs newly uid canc live extra fl all r q t why :
  inv_of sdpa attend inv w hash seen cfg asked may p c ro wt reqs newly uid canc live extra (r :: fl) all → reqs !! r = Some q → Engine.fresh q →
  inv_of sdpa attend inv w hash seen cfg asked may p c ro wt (<[r := set_rejection why (finish REJECTED t q)]> reqs) (newly ++ [r]) uid canc live extra fl all.
Proof.
  intros HI Hq [Ho Hf]. eapply inv_of_close; [|by rw lookup_insert_eq|done]. eapply inv_of_update; try done.
  split; [done|]. by apply fresh_partial.
Qed.

Lemma offer_spec drained e live extra fl all r q : EI drained e live extra (r :: fl) all → offers_ok e → may REJECTED ∨ e_admission e = None →
  e_reqs e !! r = Some q → Engine.fresh q →
  wp (add_request clock cfg r)
     (λ _ e', EI drained e' live extra fl all ∧ e_running e' = e_running e ∧ e_uid e' = e_uid e ∧ e_pool e' = e_pool e ∧ offers_ok e' ∧
        e_emitted e' = e_emitted e ∧ e_preemptions e' = e_preemptions e ∧ (e_admission e = None → e_admission e' = None) ∧
        ∃ q', e_reqs e' = <[r := q']> (e_reqs e) ∧ same_ask q q' ∧ output_token_ids q' = []) never e.
Proof.
  intros HI Hok Hrej Hq Hf. pose proof Hf as [Ho Hfin]. rw /add_request. do 2 wp_step. pose proof Hok as Hok'. rw /offers_ok in Hok'.
  destruct (e_admission e) as [c|] eqn:Hc.
  - destruct Hrej as [Hrej|]; [|done]. destruct Hok' as [Hinv Hi]. destruct (tokens_per_second_ok c Hinv Hi) as [rate Hrate].
    wp_step. rw {1}/wp /get_req Hq. wp_step. rw {1}/wp /now. wp_step. rw /on_admission. wp_step.
    eapply wp_mono; [by eapply admit_spec| |done]. intros [ok reason] c' (_ & Hcfg & Hst & Hbs & Hof & Had & _). cbn beta iota zeta.
    assert (adm_inv c' ∧ initial_step_seconds (a_cfg c') ≠ 0%Qc) as Hadm.
    { destruct Hinv as [H1 H2 H3 H4 H5]. split; [|by rw Hcfg]. split; rw ?Hst ?Hbs ?Hcfg ?Hof //. lia. }
    destruct ok; cbn [negb].
    + wp_step. cbn. split; [exact (inv_of_enqueue _ _ _ _ _ _ _ _ _ _ _ _ _ _ HI Hq Hf)|]. do 7 (split; [first [done|exact Hadm]|]).
      exists q. rw insert_id //.
    + rw /finish_req /upd_req /_record_finished. do 2 wp_step. rw {1}/wp /now. wp_step. do 3 wp_step. cbn.
      assert (alter (set_rejection reason) r (alter (finish REJECTED (clock (S (e_ticks e)))) r (e_reqs e))
        = <[r := set_rejection reason (finish REJECTED (clock (S (e_ticks e))) q)]> (e_reqs e)) as ->.
      { by rw -{1}(insert_id (e_reqs e) r q Hq) !alter_insert_eq. }
      split; [|do 7 (split; [first [done|exact Hadm]|]); by eexists]. rw /Engine.EI /= assoc. exact (inv_of_reject Hrej _ _ _ _ _ _ _ _ _ _ _ _ _ _ _ _ HI Hq Hf).
  - wp_step. cbn. split; [exact (inv_of_enqueue _ _ _ _ _ _ _ _ _ _ _ _ _ _ HI Hq Hf)|]. do 7 (split; [done|]).
    exists q. rw insert_id //.
Qed.

(** ** The engine's state at each stage *)

Definition engine_at (st : stage) drained e all : Prop :=
  match st with
  | Accepting logits _ _ => Engine.mid_step sdpa attend inv w hash seen cfg asked may drained e all logits
  | _ => EI drained e (e_running e) [] [] all
  end.

(** What holds of the engine's lists and requests at any stage. *)
Record lists_ok drained e all : Prop := {
  lo_all : e_waiting e ++ (s_req <$> e_running e) ++ drained ++ e_newly e ≡ₚ all;
  lo_held r : r ∈ e_waiting e ++ (s_req <$> e_running e) →
    ∃ q, e_reqs e !! r = Some q ∧ finish_reason q = None ∧ partial sdpa inv w cfg q;
  lo_done r : r ∈ drained ++ e_newly e → ∃ q, e_reqs e !! r = Some q ∧ finish_reason q ≠ None;
  lo_outcome r q : e_reqs e !! r = Some q → outcome_ok q;
}.

Lemma engine_at_lists st drained e all : engine_at st drained e all → lists_ok drained e all.
Proof.
  assert (EI drained e (e_running e) [] [] all → lists_ok drained e all) as HEI.
  { intros [_ _ _ _ _ Hg _ Hw Hl Hn _ Ha _]. split; [done| |done|by apply Hg]. intros r [Hr|(s & -> & Hs)%list_elem_of_fmap]%elem_of_app.
    - destruct (Hw r Hr) as (q & Hq & Ho & Hf). exists q. split_and!; [done|done|]. by apply fresh_partial.
    - destruct (Hl s Hs) as (q & Hq & [[_ Hf] Hp _]). by exists q. }
  destruct st as [|c|dn|logits t dn|]; try exact HEI. intros ([_ _ _ _ _ Hg _ Hw _ Hn _ Ha _] & [_ Hdec] & _).
  split; [done| |done|by apply Hg]. intros r [Hr|(s & -> & [j Hj]%list_elem_of_lookup)%list_elem_of_fmap]%elem_of_app.
  - destruct (Hw r Hr) as (q & Hq & Ho & Hf). exists q. split_and!; [done|done|]. by apply fresh_partial.
  - destruct (Hdec j s Hj) as (q & row & Hq & _ & _ & Hf & Hp & _). by exists q.
Qed.

Lemma lists_known drained e all r : lists_ok drained e all → r ∈ all → is_Some (e_reqs e !! r).
Proof.
  intros [Ha Hh Hd _]. rw -Ha assoc. intros [Hr|Hr]%elem_of_app.
  - destruct (Hh r Hr) as (q & -> & _). done.
  - destruct (Hd r Hr) as (q & -> & _). done.
Qed.

Lemma drained_not_owned drained e all r : lists_ok drained e all → r ∈ drained → r ∉ owned e.
Proof.
  intros [_ Hh Hd _] Hr. rw /owned elem_of_list_to_set. intros (q & Hq & Hf & _)%Hh.
  destruct (Hd r) as (q' & Hq' & Hf'); [by apply elem_of_app; left|congruence].
Qed.

(** Whatever happens to a request, its output is a beginning of the reference. *)
Lemma output_prefix drained e all r q : lists_ok drained e all → r ∈ all → e_reqs e !! r = Some q → greedy (params q) = true →
  output_token_ids q `prefix_of` (greedy_gen sdpa inv w (eos_token_id cfg) (ignore_eos (params q)) (budget q) (prompt_token_ids q)).1.
Proof.
  intros [Ha Hh Hd Ho] Hr Hq Hg.
  assert (partial sdpa inv w cfg q ∨ ∃ fr, settled sdpa inv w cfg q fr) as [(_ & _ & Hp)|(fr & _ & _ & Hp)]; [|rw (Hp Hg); by eexists|by rw (Hp Hg)].
  rw -Ha assoc in Hr. apply elem_of_app in Hr as [Hr|Hr].
  - destruct (Hh r Hr) as (q' & Hq' & _ & Hp). simplify_eq. by left.
  - destruct (Hd r Hr) as (q' & Hq' & Hf). simplify_eq. specialize (Ho r q Hq). rw /Engine.outcome_ok in Ho.
    destruct (finish_reason q) as [[]|]; [right; by eexists|right; by eexists|left; by apply Ho..|done].
Qed.

Lemma engine_at_offer st drained e all r q : engine_at st drained e all → r ∉ all → e_reqs e !! r = None →
  good w seen q → Engine.fresh q → asked r (prompt_token_ids q) (params q) → offers_ok e → may REJECTED ∨ e_admission e = None →
  wp (add_request clock cfg r)
     (λ _ e', engine_at st drained e' (r :: all) ∧ e_running e' = e_running e ∧ e_pool e' = e_pool e ∧ offers_ok e' ∧
        e_emitted e' = e_emitted e ∧ e_preemptions e' = e_preemptions e ∧ (e_admission e = None → e_admission e' = None) ∧
        ∃ q', e_reqs e' = <[r := q']> (e_reqs e) ∧ same_ask q q' ∧ output_token_ids q' = []) never (set_reqs (<[r := q]> (e_reqs e)) e).
Proof.
  intros HI Hra Hr Hg Hf Hask Hok Hrej. pose proof (lo_all _ _ _ (engine_at_lists _ _ _ _ HI)) as Ha.
  assert (∀ live extra fl, EI drained e live extra fl all → (∀ e', EI drained e' live extra fl (r :: all) → e_running e' = e_running e → e_uid e' = e_uid e →
      e_pool e' = e_pool e → (∀ r', r' ≠ r → e_reqs e' !! r' = e_reqs e !! r') → engine_at st drained e' (r :: all)) →
    wp (add_request clock cfg r)
     (λ _ e', engine_at st drained e' (r :: all) ∧ e_running e' = e_running e ∧ e_pool e' = e_pool e ∧ offers_ok e' ∧
        e_emitted e' = e_emitted e ∧ e_preemptions e' = e_preemptions e ∧ (e_admission e = None → e_admission e' = None) ∧
        ∃ q', e_reqs e' = <[r := q']> (e_reqs e) ∧ same_ask q q' ∧ output_token_ids q' = []) never (set_reqs (<[r := q]> (e_reqs e)) e)) as Hgen.
  { intros live extra fl HEI Hback. eapply wp_mono; [eapply (offer_spec drained _ live extra fl (r :: all) r q); [by apply EI_arrive|done|done|by rw /= lookup_insert_eq|done]| |done].
    intros _ e' (HI' & Hru & Huid & Hpl & Ho' & Hem & Hpre & Hno & q' & Hrq & Hs & Hout). cbn in *. rw insert_insert_eq in Hrq. split.
    - apply Hback; try done. intros r' Hne. by rw Hrq lookup_insert_ne.
    - do 6 (split; [done|]). by exists q'. }
  destruct st as [|c|dn|logits t dn|].
  1,2,3,5: apply (Hgen _ _ _ HI); intros e' HI' Hru _ _ _; by rw /engine_at Hru.
  destruct HI as (HEI & [Hll Hdec] & Hnu & Hlu). apply (Hgen _ _ _ HEI). intros e' HI' Hru Huid Hpl Hrq. rw /engine_at /Engine.mid_step Hru Huid.
  do 2 (split; [done || idtac|]); [|done]. split; [by rw Hru|]. rw Hru Hpl. intros j s Hj. destruct (Hdec j s Hj) as (q' & row & Hq' & Hrest).
  exists q', row. split; [|done]. rw Hrq //. intros Heq. congruence.
Qed.

Lemma engine_at_fan st drained e all t : engine_at st drained e all → engine_at st (drained ++ e_newly e) (emptied t e) all.
Proof.
  assert (∀ live extra fl, EI drained e live extra fl all → EI (drained ++ e_newly e) (emptied t e) live extra fl all) as HEI.
  { intros live extra fl HI. rw /Engine.EI /= app_nil_r. exact HI. }
  destruct st as [|c|dn|logits t' dn|]; try apply HEI. intros (HI & Hrest). split; [by apply HEI|done].
Qed.

Lemma engine_at_ask st drained e all ids : may CANCELLED → engine_at st drained e all → engine_at st drained (set_cancel ids e) all.
Proof.
  intros Hmay. assert (∀ live extra fl, EI drained e live extra fl all → EI drained (set_cancel ids e) live extra fl all) as HEI.
  { intros live extra fl []. split; try done. by left. }
  destruct st as [|c|dn|logits t' dn|]; try apply HEI. intros (HI & Hrest). split; [by apply HEI|done].
Qed.

(** ** The invariant of the service *)

Implicit Types (arr : list (string * (Qc → Request))) (gone : list string) (G : gmap string (list Z)) (st : Stream) (stg : stage (R := R)).

(** The stream of [id] and its request: what was received, what is queued and what the
    engine is about to send make up the output; it is done when the outcome was drained,
    and then nothing is about to be sent. *)
Definition stream_ok arr drained e G id st : Prop :=
  ∃ q, e_reqs e !! st_req st = Some q ∧ request_id q = id ∧ (∃ q0 t, (id, q0) ∈ arr ∧ same_ask (q0 t) q) ∧
    (e_preemptions e = 0 → got G id ++ st_queue st ++ emitted_for (st_req st) (e_emitted e) = output_token_ids q) ∧
    if st_done st then st_req st ∈ drained ∧ st_reason st = finish_reason q ∧ (e_preemptions e = 0 → emitted_for (st_req st) (e_emitted e) = [])
    else st_req st ∉ drained ∧ st_reason st = None.

Definition quiet stg e : Prop := match stg with Idle => e_newly e = [] ∧ e_emitted e = [] | _ => True end.

(** The books, when the engine task is at [stg]; they need not be [quiet]. *)
Record owing arr gone drained all stg a G : Prop := {
  ow_engine : engine_at stg drained (ae_engine a) all;
  ow_batch : length (e_running (ae_engine a)) ≤ max_batch_size cfg;
  ow_offers : offers_ok (ae_engine a);
  ow_reject : may REJECTED ∨ e_admission (ae_engine a) = None;
  ow_shape : shaped B bs (ae_engine a);
  ow_count : length all = length arr;
  ow_store r : is_Some (e_reqs (ae_engine a) !! r) → r ∈ all;
  ow_emitted : Forall (λ rt, is_Some (e_reqs (ae_engine a) !! rt.1)) (e_emitted (ae_engine a));
  ow_ids r q : e_reqs (ae_engine a) !! r = Some q → request_id q ∈ arr.*1;
  ow_inj r r' q q' : e_reqs (ae_engine a) !! r = Some q → e_reqs (ae_engine a) !! r' = Some q' → request_id q = request_id q' → r = r';
  ow_got id : id ∉ arr.*1 → got G id = [];
  ow_present id : id ∈ arr.*1 → id ∈ gone ∨ is_Some (streams a !! id);
  ow_streams id st : streams a !! id = Some st → stream_ok arr drained (ae_engine a) G id st;
}.

Definition served arr gone drained all (s : Service) : Prop :=
  owing arr gone drained all (sv_stage s) (sv_server s) (sv_got s) ∧ quiet (sv_stage s) (ae_engine (sv_server s)).
Definition serves arr gone (s : Service) : Prop := ∃ drained all, served arr gone drained all s.

(** The engine works: what it adds to a request's output it is about to send. *)
Lemma owing_turn arr gone drained all stg stg' a G e' : owing arr gone drained all stg a G →
  engine_at stg' drained e' all → length (e_running e') ≤ max_batch_size cfg → same_shape (e_pool (ae_engine a)) (e_pool e') → booked (ae_engine a) e' →
  store_moves clock (owned (ae_engine a)) (e_ticks (ae_engine a)) (e_ticks e') (e_reqs (ae_engine a)) (e_reqs e') →
  owing arr gone drained all stg' (set_engine e' a) G.
Proof.
  intros [HI Hb Ho Hrj Hsh Hct Hst Hem Hids Hinj Hgot Hpr Hstr] HI' Hb' Hss [Hbo Hpl Hpre Hdom _ (new & Hnew & Hfn & Hout)] Hmv. cbn in *.
  pose proof (engine_at_lists _ _ _ _ HI) as HL.
  assert (∀ r, is_Some (e_reqs e' !! r) ↔ is_Some (e_reqs (ae_engine a) !! r)) as Hd by (intros r; rw -!elem_of_dom Hdom //).
  assert (∀ r q', e_reqs e' !! r = Some q' → ∃ q, e_reqs (ae_engine a) !! r = Some q ∧ same_ask q q' ∧ (r ∈ drained → q' = q)) as Hback.
  { intros r q' Hq'. specialize (Hmv r). rw Hq' in Hmv. destruct (e_reqs (ae_engine a) !! r) as [q|]; [|done].
    destruct Hmv as [[Hs _] Hx]. exists q. split_and!; [done|done|]. intros Hr. apply Hx. by eapply drained_not_owned. }
  split; cbn; try done.
  - by apply Hbo.
  - destruct Hrj; auto.
  - by eapply shaped_same.
  - intros r Hr%Hd. by apply Hst.
  - rw Hnew. apply Forall_app. split; (eapply Forall_impl; [done|]); intros rt Hrt; apply Hd; [done|by apply elem_of_dom].
  - intros r q' (q & Hq & [_ _ -> _ _] & _)%Hback. by eapply Hids.
  - intros r1 r2 q1' q2' (q1 & Hq1 & [_ _ -> _ _] & _)%Hback (q2 & Hq2 & [_ _ -> _ _] & _)%Hback. by apply Hinj.
  - intros id st Hs. destruct (Hstr id st Hs) as (q & Hq & Hid & (q0 & t & Hin & Hask) & Htok & Hdone).
    destruct (proj2 (Hd (st_req st)) ltac:(by eexists)) as [q' Hq']. destruct (Hback _ _ Hq') as (q1 & Hq1 & Hs1 & Hsame).
    assert (q1 = q) as -> by congruence. exists q'.
    assert (e_preemptions e' = 0 → e_preemptions (ae_engine a) = 0 ∧ output_token_ids q' = output_token_ids q ++ emitted_for (st_req st) new) as Hadd.
    { intros Hp. assert (e_preemptions (ae_engine a) = 0) as Hp0 by lia. specialize (Hout ltac:(lia) (st_req st)). split; [done|].
      by rw /outs Hq' Hq in Hout. }
    split; [done|]. split; [by rw (sa_id _ _ Hs1)|]. split; [exists q0, t; split; [done|by etrans]|]. split.
    + intros [Hp0 ->]%Hadd. by rw -(Htok Hp0) Hnew emitted_for_app !assoc.
    + destruct (st_done st); [|done]. destruct Hdone as (Hdr & Hre & Hno). rw (Hsame Hdr). split_and!; [done|done|].
      intros [Hp0 Heq]%Hadd. rw (Hsame Hdr) in Heq. rw Hnew emitted_for_app (Hno Hp0) /=. by apply (app_inv_head (output_token_ids q)); rw app_nil_r.
Qed.

(** Of requests with distinct ids, the first outcome for an id is the outcome of its request. *)
Lemma first_reason_at e id r q l : e_reqs e !! r = Some q → request_id q = id →
  (∀ r' q', e_reqs e !! r' = Some q' → request_id q' = id → r' = r) →
  first_reason e id l = if bool_decide (r ∈ l) then finish_reason q else None.
Proof.
  intros Hq Hid Hinj. induction l as [|r' l IH]; [done|]. cbn. rw IH. destruct (decide (r' = r)) as [->|Hne].
  - rw Hq decide_True //. rw (bool_decide_true (r ∈ r :: l)); [|by left]. destruct (finish_reason q); [done|]. by case_bool_decide.
  - assert (bool_decide (r ∈ r' :: l) = bool_decide (r ∈ l)) as -> by (apply bool_decide_ext; set_solver).
    destruct (e_reqs e !! r') as [q'|] eqn:Hq'; [|done]. rw decide_False //. intros Hid'. apply Hne. by eapply Hinj.
Qed.

Lemma tokens_for_at e id r q l : e_reqs e !! r = Some q → request_id q = id →
  (∀ r' q', e_reqs e !! r' = Some q' → request_id q' = id → r' = r) →
  Forall (λ rt, is_Some (e_reqs e !! rt.1)) l → tokens_for e id l = emitted_for r l.
Proof.
  intros Hq Hid Hinj Hl. rw /tokens_for /emitted_for. f_equal. apply list_filter_ext_in. intros rt Hrt.
  destruct (proj1 (Forall_forall _ _) Hl rt Hrt) as [q' Hq']. rw /req_id Hq'. split; [by eapply Hinj|].
  intros Hr. rw Hr Hq in Hq'. congruence.
Qed.

Lemma owing_fanout arr gone drained all stg a G : owing arr gone drained all stg a G →
  wp (_fanout clock) (λ _ a', owing arr gone (drained ++ e_newly (ae_engine a)) all stg a' G ∧ ∃ t, ae_engine a' = emptied t (ae_engine a)) never a.
Proof.
  intros [HI Hb Ho Hrj Hsh Hct Hst Hem Hids Hinj Hgot Hpr Hstr]. pose proof (engine_at_lists _ _ _ _ HI) as HL.
  assert (∀ r, r ∈ e_newly (ae_engine a) → ∃ q, e_reqs (ae_engine a) !! r = Some q ∧ finish_reason q ≠ None) as Hfin.
  { intros r Hr. apply (lo_done _ _ _ HL). apply elem_of_app. by right. }
  eapply wp_mono; [apply fanout_exact| |done].
  { apply Forall_forall. intros r Hr. destruct (Hfin r Hr) as (q & -> & _). done. }
  intros _ a' [(t & He) Hs]. split; [|by exists t]. split; cbn; rw ?He /=; try done.
  - by apply engine_at_fan.
  - intros id Hin. rw Hs fmap_is_Some. by apply Hpr.
  - intros id st'. rw Hs. intros (st & Hid & ->)%fmap_Some. destruct (Hstr id st Hid) as (q & Hq & Hqid & Hask & Htok & Hdone).
    assert (∀ r' q', e_reqs (ae_engine a) !! r' = Some q' → request_id q' = id → r' = st_req st) as Hone.
    { intros r' q' Hq' Hid'. eapply Hinj; [done|done|]. by rw Hid'. }
    rw (tokens_for_at _ id (st_req st) q) // (first_reason_at _ id (st_req st) q) //.
    set (toks := emitted_for _ _) in *. exists q. rw /reached /conclude_stream.
    case_bool_decide as Hnew.
    + destruct (Hfin _ Hnew) as (q' & Hq' & Hf). assert (q' = q) as -> by congruence.
      destruct (finish_reason q) as [fr|] eqn:Hfr; [|done]. cbn. destruct (st_done st) eqn:Hd; cbn; rw ?Hd /=.
      * split_and!; try done; [|by apply elem_of_app; left; apply Hdone|by apply Hdone]. intros Hp. by rw app_nil_r Htok.
      * split_and!; try done; [|by apply elem_of_app; right]. intros Hp. by rw app_nil_r Htok.
    + cbn. split_and!; try done; [intros Hp; by rw app_nil_r Htok|]. destruct (st_done st).
      * split; [apply elem_of_app; left|split; [|done]]; apply Hdone.
      * split; [|apply Hdone]. intros [?|?]%elem_of_app; [by apply Hdone|done].
Qed.

Lemma fanout_serves arr gone drained all stg stg' a G : owing arr gone drained all stg a G → (∀ d e, engine_at stg d e all → engine_at stg' d e all) →
  wp (_fanout clock) (λ _ a', served arr gone (drained ++ e_newly (ae_engine a)) all (mkService a' G stg') ∧
    ∃ t, ae_engine a' = emptied t (ae_engine a)) never a.
Proof.
  intros Ho Hstg. eapply wp_mono; [by apply owing_fanout| |done]. intros x a' [[] (t & He)]. split; [|by exists t].
  split; cbn; [split; try done; by apply Hstg|]. rw He. by destruct stg'.
Qed.

(** ** The engine task *)

Lemma part_serves {A} arr gone drained all stg a G (stg' : A → stage) (m : EM A) : owing arr gone drained all stg a G →
  wp m (λ x e', engine_at (stg' x) drained e' all ∧ length (e_running e') ≤ max_batch_size cfg ∧ same_shape (e_pool (ae_engine a)) (e_pool e'))
     never (ae_engine a) →
  books id m → Frame.keeps clock (owned (ae_engine a)) false id (λ _, True) m →
  wp (on_eng m) (λ x a', owing arr gone drained all (stg' x) a' G) never a.
Proof.
  intros Hs Hm Hbk Hkp. apply wp_zoom. eapply wp_mono; [eapply wp_conj; [exact Hm|eapply wp_conj; [apply (Hbk (ae_engine a))|apply (Hkp (ae_engine a)); by split]]| |].
  - intros x e' ((HI' & Hb' & Hss) & Hbo & _ & [_ _ Hst]). by eapply owing_turn.
  - intros x e' ([] & _).
Qed.

Lemma cancellations_part arr gone drained all a G (stg' : list nat → stage) : owing arr gone drained all Idle a G →
  (∀ c e, EI drained e (e_running e) [] [] all → engine_at (stg' c) drained e all) →
  wp (on_eng (apply_cancellations clock cfg)) (λ c a', owing arr gone drained all (stg' c) a' G) never a.
Proof.
  intros Hs Hstg. pose proof (ow_batch _ _ _ _ _ _ _ Hs) as Hb.
  eapply part_serves; [exact Hs| |apply apply_cancellations_books|apply apply_cancellations_keeps].
  eapply wp_mono; [eapply apply_cancellations_spec; [apply HM|exact (ow_engine _ _ _ _ _ _ _ Hs)]| |done].
  intros d e' (HI' & Hru & _ & _ & _ & Hss & _). split; [by apply Hstg|]. split; [|done]. rw Hru. etrans; [apply length_filter|done].
Qed.

Lemma work_serves arr gone s : serves arr gone s → wp (work_next sdpa w hash clock cfg) (λ _, serves arr gone) never s.
Proof.
  intros (drained & all & Hs & Hq). destruct s as [a G stg]. cbn in Hs, Hq. rw /work_next. do 2 wp_step. cbn [sv_stage sv_server].
  pose proof (ow_engine _ _ _ _ _ _ _ Hs) as HI. pose proof (ow_batch _ _ _ _ _ _ _ Hs) as Hb. rw /on_server.
  assert (∀ {A} (m : M AsyncEngine A) (stg' : A → stage) (drained' : list nat), (∀ x e, quiet (stg' x) e) →
    wp m (λ x a', owing arr gone drained' all (stg' x) a' G) never a →
    wp (let* x := zoom sv_server set_server m in modify (to_stage (stg' x))) (λ _, serves arr gone) never (mkService a G stg)) as Hpart.
  { intros A m stg' drained' Hquiet Hm. apply wp_bind, wp_zoom. eapply wp_mono; [exact Hm| |done]. intros x a' Ho. wp_step.
    exists drained', all. split; [exact Ho|]. apply Hquiet. }
  assert (∀ d e, engine_at Stepped d e all → engine_at Idle d e all) as Hidle by done.
  destruct stg as [|c|dn|logits t dn|].
  - destruct (has_work (ae_engine a)).
    + eapply (Hpart _ _ Admitting drained); [done|]. by apply cancellations_part.
    + apply wp_zoom, wp_bind. eapply wp_mono; [by apply (cancellations_part arr gone drained all a G (λ _, Idle))| |done].
      intros c a' Ho. eapply wp_mono; [by apply (fanout_serves arr gone drained all Idle Idle a' G)| |done]. intros x a2 [Ha2 _]. by eexists _, _.
  - eapply (Hpart _ _ Decoding drained); [done|]. eapply part_serves; [exact Hs| |apply step_admit_books|apply step_admit_keeps].
    eapply wp_mono; [destruct HM as [????]; by eapply step_admit_spec| |done]. intros dn e' (HI' & Hb' & Hss & _). done.
  - eapply (Hpart _ _ (λ o, match o with Some (logits, started) => Accepting logits started dn | None => Stepped end) drained); [by intros [[]|]|].
    eapply part_serves; [exact Hs| |apply step_decode_books|apply step_decode_keeps].
    eapply wp_mono; [destruct HM as [????]; by eapply step_decode_spec| |done]. intros [[logits t]|] e' (Hss & Hb' & Ho); split; [apply Ho|done|apply Ho|done].
  - eapply (Hpart _ _ (λ _, Stepped) drained); [done|]. eapply part_serves; [exact Hs| |apply step_accept_books|apply (step_accept_keeps hash)].
    destruct HI as (HI & Hdec & Hnu & Hlu).
    eapply wp_mono; [destruct HM as [????]; by eapply step_accept_spec| |done].
    intros d e' (HI' & (_ & _ & Hl & _) & Hss). split; [done|]. split; [|done]. cbn in Hl. lia.
  - apply wp_bind, wp_zoom. eapply wp_mono; [by apply (fanout_serves arr gone drained all Stepped Idle a G)| |done]. intros x a2 [Ha2 _]. wp_step. by eexists _, _.
Qed.

(** ** The other events *)

Lemma now_object_spec (q : Qc → Request) e :
  wp (let* t := now clock in new_object (q t))
     (λ r e', ∃ t tk, e_reqs e !! r = None ∧ e' = set_counters tk (e_seed e) (e_uid e) (set_reqs (<[r := q t]> (e_reqs e)) e)) never e.
Proof.
  wp_step. rw {1}/wp /now /new_object. do 4 wp_step. wp_step. eexists _, _. split; [|done]. cbn. apply not_elem_of_dom, is_fresh.
Qed.

(** What the client may ask: a prompt the model knows, under an id of its own. *)
Definition arrives (id : string) (q : Qc → Request) : Prop :=
  ∀ t, request_id (q t) = id ∧ good w seen (q t) ∧ Engine.fresh (q t) ∧ ∀ r, asked r (prompt_token_ids (q t)) (params (q t)).

(** A request arrives, whatever the admission control decides. *)
Lemma owing_arrive arr gone drained all stg a G id (q : Qc → Request) q2 t r e2 :
  owing arr gone drained all stg a G → id ∉ arr.*1 → request_id (q t) = id → same_ask (q t) q2 → output_token_ids q2 = [] →
  e_reqs (ae_engine a) !! r = None → r ∉ all → e_reqs e2 = <[r := q2]> (e_reqs (ae_engine a)) →
  engine_at stg drained e2 (r :: all) → e_running e2 = e_running (ae_engine a) → offers_ok e2 →
  e_emitted e2 = e_emitted (ae_engine a) → e_preemptions e2 = e_preemptions (ae_engine a) → e_pool e2 = e_pool (ae_engine a) →
  (e_admission (ae_engine a) = None → e_admission e2 = None) →
  owing (arr ++ [(id, q)]) gone drained (r :: all) stg (set_engine e2 (set_streams (<[id := mkStream r [] false None]> (streams a)) a)) G.
Proof.
  intros [HI Hb Ho Hrj Hsh Hct Hst Hem Hids Hinj Hgot Hpr Hstr] Hid Hq1 Hs2 Hout Hr Hra Hrq HI2 Hru Ho2 Hem2 Hpr2 Hpl2 Hno2. cbn in *.
  assert (∀ r' q', e_reqs e2 !! r' = Some q' → (r' = r ∧ q' = q2) ∨ (r' ≠ r ∧ e_reqs (ae_engine a) !! r' = Some q')) as Hlk.
  { intros r' q'. rw Hrq. intros [[<- <-]|[??]]%lookup_insert_Some; auto. }
  assert (request_id q2 = id) as Hq2 by by rw (sa_id _ _ Hs2).
  assert (r ∉ drained) as Hrd.
  { intros Hin. apply Hra. rw -(lo_all _ _ _ (engine_at_lists _ _ _ _ HI)) !elem_of_app. auto. }
  assert (∀ rt, is_Some (e_reqs (ae_engine a) !! rt) → is_Some (e_reqs e2 !! rt)) as Hkeep.
  { intros rt Hrt. rw Hrq lookup_insert_is_Some. destruct (decide (r = rt)); auto. }
  split; cbn; try done.
  - by rw Hru.
  - destruct Hrj; auto.
  - by rw /shaped Hpl2.
  - by rw length_app Hct Nat.add_comm.
  - intros r' [q' [[-> _]|[_ Hq']]%Hlk]; [by left|right]. apply Hst. by eexists.
  - rw Hem2. eapply Forall_impl; [done|]. intros rt. apply Hkeep.
  - intros r' q' [[-> ->]|[_ Hq']]%Hlk; rw fmap_app elem_of_app; [right; rw Hq2; by left|left; by eapply Hids].
  - intros r1 r2 q1 q3 [[-> ->]|[_ H1]]%Hlk [[-> ->]|[_ H2]]%Hlk Heq; [done| | |by eapply Hinj].
    + destruct Hid. rw -Hq2 Heq. by eapply Hids.
    + destruct Hid. rw -Hq2 -Heq. by eapply Hids.
  - intros id' Hin. apply Hgot. rw fmap_app elem_of_app in Hin. tauto.
  - intros id'. rw fmap_app elem_of_app. intros [Hin| ->%list_elem_of_singleton].
    + destruct (Hpr id' Hin) as [|Hs]; [by left|right]. rw lookup_insert_is_Some. destruct (decide (id = id')); auto.
    + right. by rw lookup_insert_eq.
  - intros id' st. intros [[<- <-]|[Hne Hs]]%lookup_insert_Some.
    + exists q2. rw Hrq lookup_insert_eq. cbn. split_and!; [done|done| | |done|done].
      * exists q, t. split; [|done]. apply elem_of_app. right. by left.
      * intros _. rw Hout (Hgot id Hid) Hem2 /emitted_for list_filter_none; [done|].
        intros rt Hrt Heq. destruct (proj1 (Forall_forall _ _) Hem rt Hrt) as [? ?]. congruence.
    + destruct (Hstr _ _ Hs) as (q' & Hq' & Hqid & (q0 & t0 & Hin & Hask) & Htok & Hdn). exists q'. split_and!; try done.
      * rw Hrq lookup_insert_ne //. congruence.
      * exists q0, t0. split; [|done]. apply elem_of_app. by left.
      * rw Hem2 Hpr2. done.
      * by rw Hem2 Hpr2.
Qed.

Lemma arrive_serves arr gone s id q : serves arr gone s → arrives id q → id ∉ arr.*1 →
  wp (serve_event sdpa w hash clock cfg (Arrive id q)) (λ _, serves (arr ++ [(id, q)]) gone) never s.
Proof.
  intros (drained & all & Hs & _) Hq Hid. destruct s as [[e ss ms] G stg]. cbn [sv_stage sv_server sv_got] in Hs.
  pose proof Hs as [HI Hb Ho Hrj Hsh Hct Hst Hem Hids Hinj Hgot Hpr Hstr]. cbn in HI, Ho, Hrj.
  cbn [serve_event]. rw /on_server. apply wp_zoom, wp_bind, wp_zoom. eapply wp_mono; [apply now_object_spec| |done]. intros r e1 (t & tk & Hr & ->).
  destruct (Hq t) as (Hqid & Hgood & Hfr & Hask). cbn in Hr. rw /submit. do 3 wp_step. apply wp_zoom. cbn. rw {1}/req_id /= lookup_insert_eq Hqid.
  assert (r ∉ all) as Hra. { intros Hin. destruct (lists_known _ _ _ _ (engine_at_lists _ _ _ _ HI) Hin) as [? ?]. congruence. }
  change (set_counters tk (e_seed e) (e_uid e) (set_reqs (<[r := q t]> (e_reqs e)) e))
    with (set_reqs (<[r := q t]> (e_reqs (set_counters tk (e_seed e) (e_uid e) e))) (set_counters tk (e_seed e) (e_uid e) e)).
  eapply wp_mono; [apply (engine_at_offer stg drained (set_counters tk (e_seed e) (e_uid e) e) all r (q t)); try done| |done].
  intros _ e2 (HI2 & Hru2 & Hpl2 & Ho2 & Hem2 & Hpr2 & Hno2 & q2 & Hrq2 & Hs2 & Hout2). cbn in Hru2, Hem2, Hpr2, Hpl2, Hrq2, Hno2.
  eapply wp_mono; [eapply (fanout_serves (arr ++ [(id, q)]) gone drained (r :: all) stg stg _ G); [|done]| |done].
  { by eapply (owing_arrive arr gone drained all stg (mkAE e ss ms) G id q q2 t r e2). }
  intros x a2 [Ha2 _]. by eexists _, _.
Qed.

(** A response takes a token: from the queue to the client. *)
Lemma poll_serves arr gone s id : serves arr gone s → wp (serve_event sdpa w hash clock cfg (Poll id)) (λ _, serves arr gone) never s.
Proof.
  intros Hs. destruct s as [a G stg]. cbn [serve_event]. do 2 wp_step. cbn [sv_server sv_got sv_stage].
  destruct (streams a !! id) as [st|] eqn:Hid; [|by wp_step]. cbn [fmap option_fmap option_map].
  destruct (st_queue st) as [|t l] eqn:Hl; [by wp_step|]. wp_step.
  destruct Hs as (drained & all & [HI Hb Ho Hrj Hsh Hct Hst Hem Hids Hinj Hgot Hpr Hstr] & Hq). cbn in *.
  exists drained, all. split; [|done]. split; cbn; try done.
  - intros id' Hin. rw /got lookup_insert_ne; [by apply Hgot|]. intros <-. destruct (Hstr _ _ Hid) as (q & Hqq & <- & _). apply Hin. by eapply Hids.
  - intros id' Hin. destruct (Hpr id' Hin) as [|Hsome]; [by left|right]. destruct (decide (id' = id)) as [->|Hne].
    + by rw lookup_alter_eq Hid.
    + by rw lookup_alter_ne.
  - intros id' st'. destruct (decide (id' = id)) as [->|Hne].
    + rw lookup_alter_eq Hid. intros [= <-]. destruct (Hstr _ _ Hid) as (q & Hqq & Hqid & Hask & Htok & Hdn). exists q. do 3 (split; [done|]). split; [|done].
      intros Hp. rw -(Htok Hp) /got lookup_insert_eq /= Hl /= -assoc //.
    + rw lookup_alter_ne //. intros Hs'. destruct (Hstr _ _ Hs') as (q & Hqq & Hqid & Hask & Htok & Hdn). exists q. do 3 (split; [done|]). split; [|done].
      intros Hp. rw -(Htok Hp) /got lookup_insert_ne //.
Qed.

Lemma ask_serves arr gone s id : may CANCELLED → serves arr gone s → wp (serve_event sdpa w hash clock cfg (Ask id)) (λ _, serves arr gone) never s.
Proof.
  intros Hmay (drained & all & [HI Hb Ho Hrj Hsh Hct Hst Hem Hids Hinj Hgot Hpr Hstr] & Hq). destruct s as [a G stg]. cbn in *.
  exists drained, all. split; [|by destruct stg]. split; cbn; try done. by apply engine_at_ask.
Qed.

Lemma leave_serves arr gone s id :
  serves arr gone s → wp (serve_event sdpa w hash clock cfg (Leave id)) (λ _, serves arr (gone ++ [id])) never s.
Proof.
  intros (drained & all & [HI Hb Ho Hrj Hsh Hct Hst Hem Hids Hinj Hgot Hpr Hstr] & Hq). destruct s as [a G stg]. cbn in *.
  exists drained, all. split; [|done]. split; cbn; try done.
  - intros id' Hin. rw elem_of_app list_elem_of_singleton. destruct (decide (id' = id)) as [->|Hne]; [by left; right|].
    destruct (Hpr id' Hin) as [|Hs]; [by left; left|right]. by rw lookup_delete_ne.
  - intros id' st' [_ Hs]%lookup_delete_Some. by apply Hstr.
Qed.

Lemma event_serves arr gone s ev : serves arr gone s →
  match ev with Arrive id q => arrives id q ∧ id ∉ arr.*1 | Ask _ => may CANCELLED | _ => True end →
  wp (serve_event sdpa w hash clock cfg ev) (λ _, serves (arr ++ arrivals [ev]) (gone ++ departures [ev])) never s.
Proof.
  intros Hs Hev. destruct ev as [id q| |id| |id|id]; cbn [arrivals departures mbind list_bind]; rw ?app_nil_r.
  - destruct Hev. by apply arrive_serves.
  - by apply work_serves.
  - by apply ask_serves.
  - destruct Hs as (drained & all & Hs & _). destruct s as [a G stg]. apply wp_zoom.
    eapply wp_mono; [by eapply (fanout_serves arr gone drained all stg stg a G)| |done]. intros x a2 [Ha2 _]. by eexists _, _.
  - by apply poll_serves.
  - by apply leave_serves.
Qed.

Lemma events_serve l : ∀ arr gone s, serves arr gone s →
  (∀ id q, (id, q) ∈ arrivals l → arrives id q) → (∀ id, Ask id ∈ l → may CANCELLED) → NoDup (arr.*1 ++ (arrivals l).*1) →
  wp (for_each l (serve_event sdpa w hash clock cfg)) (λ _, serves (arr ++ arrivals l) (gone ++ departures l)) never s.
Proof.
  induction l as [|ev l IH]; intros arr gone s Hs Harr Hmay Hnd; cbn [for_each]; [wp_step; by rw !app_nil_r|].
  assert (arrivals (ev :: l) = arrivals [ev] ++ arrivals l) as Ha by by rw /arrivals -bind_app.
  assert (departures (ev :: l) = departures [ev] ++ departures l) as -> by by rw /departures -bind_app.
  rw Ha in Harr; rw Ha fmap_app in Hnd. apply wp_bind. eapply wp_mono; [apply event_serves; [exact Hs|]| |done].
  { destruct ev as [id q| |id| | |]; try done; [|eapply Hmay; by left]. split; [apply Harr; by left|]. intros Hin. apply NoDup_app in Hnd as (_ & Hd & _).
    by apply (Hd id Hin); left. }
  intros ? s1 Hs1. rw Ha (app_assoc arr) (app_assoc gone). apply IH; [exact Hs1|..|by rw fmap_app -assoc].
  - intros id q Hin. apply Harr. apply elem_of_app. by right.
  - intros id Hin. eapply Hmay. by right.
Qed.

Lemma serves_present arr gone s id : serves arr gone s → id ∈ arr.*1 → id ∈ gone ∨ is_Some (streams (sv_server s) !! id).
Proof. intros (? & ? & Hs & _). apply (ow_present _ _ _ _ _ _ _ Hs). Qed.

(** What a stream says.  Its request is the one that arrived.  If it is done its reason is
    that of the request, and completion unless the reason is one that [may] be; otherwise
    the engine still has the request or is about to report it.  With nothing preempted, what
    the response received and what is queued for it is the output except for what the engine
    is about to send, which is nothing once the stream is done or the engine task idle; for a
    greedy request it is the beginning, and once the stream is done by completion the whole,
    of what decoding without any cache gives. *)
Definition told arr (s : Service (R := R)) id st : Prop :=
  let e := ae_engine (sv_server s) in
  ∃ q0 t q, (id, q0) ∈ arr ∧ e_reqs e !! st_req st = Some q ∧ same_ask (q0 t) q ∧
    (if st_done st then ∃ fr, st_reason st = Some fr ∧ finish_reason q = Some fr ∧ (fr = EOS ∨ fr = LENGTH ∨ may fr)
     else st_reason st = None ∧ st_req st ∈ e_waiting e ++ (s_req <$> e_running e) ++ e_newly e) ∧
    (e_preemptions e = 0 →
       let received := got (sv_got s) id ++ st_queue st in
       (∃ pending, received ++ pending = output_token_ids q ∧ (st_done st = true ∨ sv_stage s = Idle → pending = [])) ∧
       (greedy (params q) = true →
          let reference := greedy_gen sdpa inv w (eos_token_id cfg) (ignore_eos (params q)) (budget q) (prompt_token_ids q) in
          received `prefix_of` reference.1 ∧
          match st_reason st with
          | Some EOS => reference = (received, EOS)
          | Some LENGTH => reference = (received, LENGTH)
          | _ => True
          end)).

Lemma serves_told arr gone s id st : serves arr gone s → streams (sv_server s) !! id = Some st → told arr s id st.
Proof.
  intros (drained & all & Hs & Hquiet) Hid. destruct s as [a G stg]. cbn in Hs, Hquiet, Hid.
  pose proof Hs as [HI Hb Ho Hrj Hsh Hct Hst Hem Hids Hinj Hgot Hpr Hstr]. pose proof (engine_at_lists _ _ _ _ HI) as HL.
  destruct (Hstr id st Hid) as (q & Hq & _ & (q0 & t & Hin & Hask) & Htok & Hdn). exists q0, t, q. cbn [sv_server sv_stage sv_got].
  assert (st_req st ∈ all) as Hall by (apply Hst; by eexists).
  assert (st_done st = true → finish_reason q ≠ None) as Hfin.
  { intros Hd. rw Hd in Hdn. destruct (lo_done _ _ _ HL (st_req st)) as (q' & Hq' & Hf); [apply elem_of_app; left; apply Hdn|congruence]. }
  pose proof (lo_outcome _ _ _ HL _ _ Hq) as Hok. rw /Engine.outcome_ok in Hok. split_and!; [done|done|done| |].
  - destruct (st_done st).
    + destruct Hdn as (_ & Hr & _). specialize (Hfin eq_refl). destruct (finish_reason q) as [fr|]; [|done]. exists fr.
      split_and!; [done|done|]. destruct fr; auto; right; right; apply Hok.
    + destruct Hdn as [Hnd Hr]. split; [done|]. rw -(lo_all _ _ _ HL) !elem_of_app in Hall. rw !elem_of_app. tauto.
  - intros Hp. specialize (Htok Hp). split.
    { exists (emitted_for (st_req st) (e_emitted (ae_engine a))). split; [by rw -assoc|]. intros [Hd| ->].
      - rw Hd in Hdn. by apply Hdn.
      - by rw (proj2 Hquiet). }
    intros Hgr. pose proof (output_prefix _ _ _ _ _ HL Hall Hq Hgr) as Hpre. split.
    { etrans; [|exact Hpre]. rw -Htok assoc. by eexists. }
    destruct (st_done st) eqn:Hd; [|by destruct Hdn as [_ ->]]. destruct Hdn as (_ & -> & Hno). rw (Hno Hp) app_nil_r in Htok.
    rw Htok. destruct (finish_reason q) as [[]|]; try done; by apply Hok.
Qed.

(** ** A whole round *)

(** What a round of the engine task does to the engine before it fans out. *)
Definition worked drained all e e' : Prop :=
  if has_work e then EI drained e' (e_running e') [] [] all ∧ length (e_running e') ≤ max_batch_size cfg ∧
    (e_cancel e = ∅ → stepped sdpa attend inv w hash seen cfg asked may drained e all e')
  else has_work e' = false.

Lemma round_spec arr gone drained all a G : owing arr gone drained all Idle a G →
  wp (tick sdpa w hash clock cfg)
     (λ _ a', ∃ drained', served arr gone drained' all (mkService a' G Idle) ∧ e_cancel (ae_engine a') = ∅ ∧
        ∃ e1 t, ae_engine a' = emptied t e1 ∧ worked drained all (ae_engine a) e1) never a.
Proof.
  intros Hs. pose proof (ow_engine _ _ _ _ _ _ _ Hs) as HI. pose proof (ow_batch _ _ _ _ _ _ _ Hs) as Hb.
  rw /tick. do 2 wp_step.
  assert (∀ m : EM (list nat), wp m (λ _ e', (engine_at Idle drained e' all ∧ length (e_running e') ≤ max_batch_size cfg ∧
      same_shape (e_pool (ae_engine a)) (e_pool e')) ∧ worked drained all (ae_engine a) e') never (ae_engine a) →
    books id m → Frame.keeps clock (owned (ae_engine a)) false id (λ _, True) m → (∀ e, wp m (λ _ e', e_cancel e' = ∅) (λ _ _, True) e) →
    wp (let* _ := on_eng m in _fanout clock) (λ _ a2, ∃ drained', served arr gone drained' all (mkService a2 G Idle) ∧ e_cancel (ae_engine a2) = ∅ ∧
        ∃ e1 t, ae_engine a2 = emptied t e1 ∧ worked drained all (ae_engine a) e1) never a) as Hwork.
  { intros m Hm Hbk Hkp Hcl. apply wp_bind.
    assert (wp m (λ _ e', (engine_at Idle drained e' all ∧ length (e_running e') ≤ max_batch_size cfg ∧ same_shape (e_pool (ae_engine a)) (e_pool e'))) never (ae_engine a)) as Hm1.
    { eapply wp_mono; [exact Hm| |done]. intros x e' [H _]. exact H. }
    assert (wp (on_eng m) (λ _ a', worked drained all (ae_engine a) (ae_engine a') ∧ e_cancel (ae_engine a') = ∅) never a) as Hm2.
    { apply wp_zoom. eapply wp_mono; [eapply wp_conj; [exact Hm|apply Hcl]|by intros x e' [[_ Hw] Hc]|]. intros x e' [[] _]. }
    eapply wp_mono; [eapply wp_conj; [by apply (part_serves arr gone drained all Idle a G (λ _, Idle) m)|exact Hm2]| |].
    - intros x a' [Ho [Hw Hc]]. eapply wp_mono; [by apply (fanout_serves arr gone drained all Idle Idle a' G)| |done].
      intros y a2 [Ha2 (t & He)]. eexists. split; [exact Ha2|]. rw He. split; [exact Hc|]. by exists (ae_engine a'), t.
    - intros x a' [[] _]. }
  destruct (has_work (ae_engine a)) eqn:Hw; apply Hwork.
  - eapply wp_mono; [destruct HM as [????]; by eapply step_spec| |done]. intros d e' (HI' & Hb' & Hss & Hst). split; [done|]. by rw /worked Hw.
  - apply step_books.
  - apply step_keeps.
  - apply step_clears.
  - eapply wp_mono; [eapply apply_cancellations_spec; [apply HM|exact HI]| |done]. intros d e' (HI' & Hru & Hwt & _ & _ & Hss & _).
    split; [split; [done|]; split; [rw Hru; etrans; [apply length_filter|done]|done]|]. rw /worked Hw /has_work Hru Hwt.
    rw /has_work in Hw. by destruct (e_waiting (ae_engine a)), (e_running (ae_engine a)).
  - apply apply_cancellations_books.
  - apply apply_cancellations_keeps.
  - apply apply_cancellations_clears.
Qed.

(** Uninterrupted, at most five pieces of work make a round. *)
Lemma works_make_round a G a' : tick sdpa w hash clock cfg a = (Ok tt, a') → ∃ m, 1 ≤ m ∧ m ≤ 5 ∧
  for_each (replicate m Work) (serve_event sdpa w hash clock cfg) (mkService a G Idle) = (Ok tt, mkService a' G Idle).
Proof.
  rw /tick {1}/bind {1}/get. destruct (has_work (ae_engine a)) eqn:Hw.
  - rw /bind /on_eng /zoom step_in_parts /bind. destruct (apply_cancellations clock cfg (ae_engine a)) as [[c|x] e1] eqn:E1; [|done].
    destruct (step_admit sdpa w hash clock cfg c e1) as [[dn|x] e2] eqn:E2; [|done].
    destruct (step_decode sdpa w clock e2) as [[o|x] e3] eqn:E3; [|done]. intros Ht.
    destruct o as [[logits started]|].
    + destruct (step_accept clock cfg logits started dn e3) as [[d|x] e4] eqn:E4; [|done]. exists 5. split; [lia|]. split; [lia|].
      cbn [replicate for_each]. rw /bind /serve_event /work_next /bind /get /modify /on_server /on_eng /zoom /=. rw Hw E1 /= E2 /= E3 /= E4 /=.
      rw /set_server /=. by rw Ht.
    + exists 4. split; [lia|]. split; [lia|].
      cbn [replicate for_each]. rw /bind /serve_event /work_next /bind /get /modify /on_server /on_eng /zoom /=. rw Hw E1 /= E2 /= E3 /=.
      rw /ret /= in Ht. by rw Ht.
  - intros Ht. exists 1. split; [lia|]. split; [lia|]. cbn [replicate for_each].
    rw /bind /serve_event /work_next /bind /get /on_server /zoom /=. rw Hw /=. rw /bind in Ht. by rw Ht.
Qed.

(** ** The service as it is built *)

Lemma init_serves (zero : KV) rotary enable adm ms : 0 < bs → rot_ok inv rotary → collision_free hash seen bs →
  match adm with Some c => initial_step_seconds c ≠ 0%Qc | None => True end → may REJECTED ∨ adm = None →
  serves [] [] (mkService (mkAE (engine_init (PagedCachePool.init zero (length (layers w)) B bs) rotary enable adm ∅) ∅ ms) ∅ Idle).
Proof.
  intros Hbs Hr Hcf Ha Hrej. exists [], []. split; [|done].
  pose proof (engine_init_ok sdpa attend inv w hash seen cfg asked may rotary zero B bs enable ∅ Hbs Hr Hcf ltac:(by intros ? ? ?)) as HI.
  split; cbn.
  - exact HI.
  - lia.
  - rw /offers_ok /=. destruct adm as [c|]; [|done]. cbn. split; [|done]. split; cbn; [done|done|lia|constructor|constructor].
  - destruct Hrej as [| ->]; [by left|by right].
  - done.
  - done.
  - intros r [? ?]. done.
  - constructor.
  - done.
  - done.
  - done.
  - intros id Hid. by apply elem_of_nil in Hid.
  - done.
Qed.

(** ** Everybody is answered *)

Context (prompts : list (list Z)) (Hseen : ∀ ids, seen ids → ids ∈ prompts) (limit : nat) (Hbatch : 0 < max_batch_size cfg).
Hypothesis Hfits : ∀ r q, asked r (prompt_token_ids q) (params q) → fits cfg prompts B bs limit q.

Definition works k : M Service unit := for_each (replicate k Work) (serve_event sdpa w hash clock cfg).
Definition at_rest arr gone (s : Service) : Prop := serves arr gone s ∧ has_work (ae_engine (sv_server s)) = false ∧ sv_stage s = Idle.

Lemma works_add k1 k2 Q s : wp (works k1) (λ _, wp (works k2) Q never) never s → wp (works (k1 + k2)) Q never s.
Proof. intros H. rw /works replicate_add. by apply wp_for_each_app. Qed.

(** A round, and then the rest of the work. *)
Lemma works_round arr gone drained all a G k Q : owing arr gone drained all Idle a G → 5 ≤ k →
  (∀ drained' a' e1 t k', k ≤ k' + 5 → served arr gone drained' all (mkService a' G Idle) → e_cancel (ae_engine a') = ∅ →
     ae_engine a' = emptied t e1 → worked drained all (ae_engine a) e1 → wp (works k') Q never (mkService a' G Idle)) →
  wp (works k) Q never (mkService a G Idle).
Proof.
  intros Hs Hk HQ. pose proof (round_spec _ _ _ _ _ _ Hs) as Hr. apply wp_never in Hr as ([] & a' & Ht & drained' & Hs' & Hc & e1 & t & He & Hw).
  destruct (works_make_round a G a' Ht) as (m & Hm1 & Hm5 & Hm). replace k with (m + (k - m)) by lia. apply works_add. rw /wp /works Hm.
  eapply HQ; try done. lia.
Qed.

Lemma works_at_rest arr gone k : ∀ a G, serves arr gone (mkService a G Idle) → has_work (ae_engine a) = false →
  wp (works k) (λ _, at_rest arr gone) never (mkService a G Idle).
Proof.
  induction k as [|k IH]; intros a G (drained & all & Hs & Hq) Hw; [by split; [exists drained, all|]|]. rw /works. cbn [replicate for_each].
  apply wp_bind. cbn in Hs. pose proof (round_spec _ _ _ _ _ _ Hs) as Hr.
  rw /serve_event /work_next. do 2 wp_step. cbn [sv_stage sv_server]. rw Hw. apply wp_zoom. rw /tick /wp {1}/bind {1}/get Hw in Hr.
  eapply wp_mono; [exact Hr| |done]. intros x a' (drained' & Hs' & _ & e1 & t & He & Hwk). rw /worked Hw in Hwk. apply IH; [by exists drained', all|by rw He].
Qed.

Lemma measure_pos e : 0 < measure cfg limit e.
Proof. rw /measure /rank. destruct (e_running e); cbn; lia. Qed.

Lemma works_finish n : ∀ arr gone drained all a G k, served arr gone drained all (mkService a G Idle) → e_cancel (ae_engine a) = ∅ →
  measure cfg limit (ae_engine a) ≤ n → 5 * n ≤ k → wp (works k) (λ _, at_rest arr gone) never (mkService a G Idle).
Proof.
  induction n as [|n IH]; intros arr gone drained all a G k Hs Hc Hm Hk; [pose proof (measure_pos (ae_engine a)); lia|].
  destruct (has_work (ae_engine a)) eqn:Hw; [|apply works_at_rest; [by exists drained, all|done]].
  pose proof Hs as [Ho _]. cbn in Ho. eapply works_round; [exact Ho|lia|]. intros drained' a' e1 t k' Hk' Hs' Hc' He Hwk. rw /worked Hw in Hwk.
  eapply IH; [exact Hs'|exact Hc'| |lia]. rw He. destruct Hwk as (HI1 & Hb1 & Hst).
  assert (measure cfg limit e1 < measure cfg limit (ae_engine a)); [|change (measure cfg limit e1 ≤ n); lia].
  eapply (stepped_decreases sdpa attend inv w hash seen cfg asked may HM prompts Hseen B bs limit Hbatch Hfits drained _ all);
    [exact (ow_engine _ _ _ _ _ _ _ Ho)|exact HI1|apply Ho|exact Hb1|exact Hw|by apply Hst].
Qed.

(** A step in progress ends. *)
Definition pieces_left stg : nat := match stg with Idle => 0 | Stepped => 1 | Accepting _ _ _ => 2 | Decoding _ => 3 | Admitting _ => 4 end.

Lemma work_stage s : sv_stage s ≠ Idle → wp (work_next sdpa w hash clock cfg) (λ _ s', pieces_left (sv_stage s') < pieces_left (sv_stage s)) (λ _ _, True) s.
Proof.
  intros Hne. rw /wp /work_next /bind /get. destruct (sv_stage s) as [|c|dn|logits t dn|] eqn:Hs; [done|..].
  - destruct (on_server _ s) as [[]]; [|done]. cbn. lia.
  - destruct (on_server _ s) as [[[[]|]|]]; cbn; lia.
  - destruct (on_server _ s) as [[]]; [|done]. cbn. lia.
  - destruct (on_server _ s) as [[]]; [|done]. cbn. lia.
Qed.

Lemma works_to_idle arr gone Q k : ∀ s, serves arr gone s → pieces_left (sv_stage s) ≤ k →
  (∀ a G k', serves arr gone (mkService a G Idle) → k ≤ k' + pieces_left (sv_stage s) → wp (works k') Q never (mkService a G Idle)) → wp (works k) Q never s.
Proof.
  induction k as [|k IH]; intros s Hs Hk HQ.
  - destruct s as [a G stg]. destruct stg; cbn in Hk; try lia. apply (HQ a G 0); [done|lia].
  - destruct (decide (pieces_left (sv_stage s) = 0)) as [Hz|Hz].
    + destruct s as [a G stg]. destruct stg; cbn in Hz; try lia. apply (HQ a G (S k)); [done|cbn; lia].
    + rw /works. cbn [replicate for_each]. apply wp_bind. eapply wp_mono; [eapply wp_conj; [by apply work_serves|apply work_stage]| |].
      * intros Hi. by rw Hi in Hz.
      * intros x s1 [Hs1 Hlt]. apply IH; [done|lia|]. intros a G k' Ha Hk'. apply HQ; [done|lia].
      * intros x s1 [[] _].
Qed.

Lemma works_serve k arr gone s : serves arr gone s → 5 * (2 + S (length arr) * ((limit + 2) * (max_batch_size cfg + 1))) ≤ k →
  wp (works k) (λ _, at_rest arr gone) never s.
Proof.
  intros Hs Hk. assert (pieces_left (sv_stage s) ≤ 4) as Hl by (destruct (sv_stage s); cbn; lia).
  eapply works_to_idle; [exact Hs|lia|]. intros a G k1 (drained & all & Ho & _) Hk1. cbn in Ho.
  eapply works_round; [exact Ho|lia|]. intros drained' a' e1 t k2 Hk2 Hs' Hc' _ _.
  eapply works_finish; [exact Hs'|exact Hc'|reflexivity|]. pose proof Hs' as [[HI Hb _ _ _ Hct _ _ _ _ _ _ _] _]. cbn in HI, Hb, Hct.
  pose proof (measure_le cfg limit Hbatch (ae_engine a') Hb) as Hm.
  assert (work (ae_engine a') ≤ length arr); [|nia]. rw -Hct -(lo_all _ _ _ (engine_at_lists Idle _ _ _ HI)) /work !length_app length_fmap. lia.
Qed.
End correctness.
(** The reasons other than completion for which a request may end. *)
Definition excused (l : list event) (adm : option AdmissionConfig) (fr : FinishReason) : Prop :=
  match fr with CANCELLED => ∃ id, Ask id ∈ l | REJECTED => adm ≠ None | _ => False end.

Definition service_init {R} `{Torch R} (zero : list (list R)) (w : NanoForCausalLM (R := R)) blocks bs rotary enable adm ms : Service (R := R) :=
  mkService (mkAE (engine_init (PagedCachePool.init zero (length (layers w)) blocks bs) rotary enable adm ∅) ∅ ms) ∅ Idle.

(** C1: every client gets its own answer, and nothing else.  A service with any pool, cache
    setting, admission control and metrics is driven by any sequence of events: requests
    arrive under distinct ids, the engine task works - its step in four parts, with other
    events between two parts but not within one - and responses poll, ask for cancellations
    and end, in any order.  No event raises.  A request that arrived has a stream until its response ends.  A stream belongs to
    the request that arrived under its id, asking what it asked; if it is not done the engine
    still has the request or is about to report it; if it is, the reason is the request's, and
    without a cancellation having been asked for and without admission control that is
    completion.  As long as nothing was preempted, the tokens a response has received followed
    by those queued for it are the request's output, except for what the engine is about to
    hand over; that is nothing once the stream is done or the engine task is between two
    steps.  If, besides, the request is greedy, they are a beginning of what decoding without
    any cache gives, whatever becomes of the request, and all of it once the stream is done
    by completion.  (After a preemption tokens are sent again: [preemption_reemits].) *)
Theorem service_exact {R} `{Torch R, TorchSampling R, !SamplerLaws R} sdpa attend w inv hash clock seen cfg
    zero blocks bs rotary enable adm ms events :
  model_ok sdpa attend w → 0 < bs → rot_ok inv rotary → collision_free hash seen bs →
  match adm with Some c => initial_step_seconds c ≠ 0%Qc | None => True end →
  NoDup (arrivals events).*1 →
  (∀ id q t, (id, q) ∈ arrivals events → request_id (q t) = id ∧ good w seen (q t) ∧ Engine.fresh (q t)) →
  wp (for_each events (serve_event sdpa w hash clock cfg))
     (λ _ s, (∀ id, id ∈ (arrivals events).*1 → id ∈ departures events ∨ is_Some (streams (sv_server s) !! id)) ∧
        ∀ id st, streams (sv_server s) !! id = Some st → told sdpa inv w cfg (excused events adm) (arrivals events) s id st)
     never (service_init zero w blocks bs rotary enable adm ms).
Proof.
  intros HM Hbs Hrot Hcf Hadm Hnd Hq. set (may := excused events adm).
  eapply wp_mono; [eapply (events_serve sdpa attend inv w hash clock seen cfg (λ _ _ _, True) may blocks bs HM events [] [])| |done].
  - apply init_serves; try done. destruct adm; [by left|by right].
  - intros id q Hin t. destruct (Hq id q t Hin) as (? & ? & ?). done.
  - intros id Hin. by exists id.
  - done.
  - cbn. intros _ s Hs. split; [intros id; by eapply serves_present|intros id st; by eapply serves_told].
Qed.

(** C2: every client is answered in bounded time, if the pool is large enough.  If every
    request that arrives can start in
    the idle pool and fits in it at full length beside all the prompts the prefix cache can
    hold, then after any events, with a step in progress or not, the engine task needs at most
    [5 * (2 + (n + 1) * (limit + 2) * (max_batch_size + 1))] pieces of work, [n] being the
    number of requests that arrived and [limit] the largest budget, to have nothing left to
    do: every stream is then done, whatever was preempted, cancelled or rejected on the way. *)
Theorem service_finishes {R} `{Torch R, TorchSampling R, !SamplerLaws R} sdpa attend w inv hash clock seen cfg
    zero blocks bs rotary enable adm ms events prompts limit k :
  model_ok sdpa attend w → 0 < bs → rot_ok inv rotary → collision_free hash seen bs →
  match adm with Some c => initial_step_seconds c ≠ 0%Qc | None => True end →
  NoDup (arrivals events).*1 →
  (∀ id q t, (id, q) ∈ arrivals events →
     request_id (q t) = id ∧ good w seen (q t) ∧ Engine.fresh (q t) ∧ fits cfg prompts blocks bs limit (q t)) →
  0 < max_batch_size cfg → (∀ ids, seen ids → ids ∈ prompts) →
  5 * (2 + S (length (arrivals events)) * ((limit + 2) * (max_batch_size cfg + 1))) ≤ k →
  wp (for_each (events ++ replicate k Work) (serve_event sdpa w hash clock cfg))
     (λ _ s, has_work (ae_engine (sv_server s)) = false ∧ sv_stage s = Idle ∧
        ∀ id, id ∈ (arrivals events).*1 → id ∉ departures events → ∃ st, streams (sv_server s) !! id = Some st ∧
          st_done st = true ∧ told sdpa inv w cfg (excused events adm) (arrivals events) s id st)
     never (service_init zero w blocks bs rotary enable adm ms).
Proof.
  intros HM Hbs Hrot Hcf Hadm Hnd Hq Hmb Hseen Hk. set (may := excused events adm).
  set (asked := λ (_ : nat) prompt p, ∀ q, prompt_token_ids q = prompt → params q = p → fits cfg prompts blocks bs limit q).
  apply wp_for_each_app. eapply wp_mono; [eapply (events_serve sdpa attend inv w hash clock seen cfg asked may blocks bs HM events [] [])| |done].
  - apply init_serves; try done. destruct adm; [by left|by right].
  - intros id q Hin t. destruct (Hq id q t Hin) as (? & ? & ? & [Hs Hg Hl]). split_and!; try done. intros _ q' Hp Hpa.
    split; [by rw /prompt_len Hp|by rw /prompt_len /budget Hp Hpa|by rw /budget Hpa].
  - intros id Hin. by exists id.
  - done.
  - cbn. intros _ s Hs. eapply wp_mono; [eapply (works_serve sdpa attend inv w hash clock seen cfg asked may blocks bs HM prompts Hseen limit Hmb)| |done].
    + intros r q Ha. by apply Ha.
    + exact Hs.
    + done.
    + cbn. intros _ s' (Hs' & Hw & Hidle). split; [done|]. split; [done|]. intros id Hid Hdep.
      assert (id ∈ departures events ∨ is_Some (streams (sv_server s') !! id)) as [|[st Hst]]; [by eapply serves_present|done|].
      assert (told sdpa inv w cfg may (arrivals events) s' id st) as Ht by (by eapply serves_told). exists st. split_and!; [done| |done].
      destruct (st_done st) eqn:Hd; [done|]. destruct Ht as (q0 & t & q & _ & _ & _ & Hin & _). rw Hd in Hin. destruct Hin as [_ Hin].
      destruct Hs' as (? & ? & _ & Hquiet). rw Hidle in Hquiet. rw /has_work in Hw. rw (proj1 Hquiet) in Hin.
      destruct (e_waiting (ae_engine (sv_server s'))), (e_running (ae_engine (sv_server s'))); try done. by apply elem_of_nil in Hin.
Qed.

(** Two clients of the toy model: the second arrives during the first one's admission, and
    its cancellation is asked for during a later step. *)
Definition toy_ask (id : string) (n : Z) (t : Qc) : Request := new_request toy_prompt (mkParams n 0%Qc None None true) id t None.
Definition toy_day : list event :=
  [Arrive "a" (toy_ask "a" 3); Work; Work; Arrive "b" (toy_ask "b" 4); Work; Flush; Poll "a"; Work; Work;
   Work; Work; Work; Ask "b"; Work; Work; Poll "b"; Work; Work; Poll "a"]%string.
Definition toy_service : Service (R := Z) := service_init [] ToyEngine.weights 12 2 (rotary_init [1%Z] 4) true (Some default_admission) None.
Definition toy_serve : list event → M (Service (R := Z)) unit := λ l,
  for_each l (serve_event Toy.sdpa ToyEngine.weights poly_hash ToyEngine.clock ToyEngine.cfg).
Definition seen_by (id : string) (s : Service (R := Z)) : option (list Z * list Z * bool) :=
  (λ st, (got (sv_got s) id, st_queue st, st_done st)) <$> streams (sv_server s) !! id.

Lemma toy_day_good id q t : (id, q) ∈ arrivals toy_day →
  request_id (q t) = id ∧ good ToyEngine.weights (λ ids, ids = toy_prompt) (q t) ∧ Engine.fresh (q t) ∧
  fits ToyEngine.cfg [toy_prompt] 12 2 4 (q t).
Proof.
  assert (arrivals toy_day = [("a", toy_ask "a" 3); ("b", toy_ask "b" 4)]%string) as -> by reflexivity.
  intros [Heq|[Heq|Hin]%elem_of_cons]%elem_of_cons; [| |by apply elem_of_nil in Hin]; injection Heq as -> ->;
    (split; [done|]; split; [split; try done; repeat constructor; cbn; lia|]; split; [done|]; split; vm_compute; lia).
Qed.

Lemma service_exact_witness :
  (seen_by "a" (toy_serve toy_day toy_service).2, seen_by "b" (toy_serve toy_day toy_service).2)
    = (Some ([0; 0]%Z, [0]%Z, true), Some ([0]%Z, [0]%Z, false)) ∧
  wp (toy_serve toy_day)
     (λ _ s, ∀ st, streams (sv_server s) !! "a"%string = Some st →
        told Toy.sdpa [1%Z] ToyEngine.weights ToyEngine.cfg (excused toy_day (Some default_admission)) (arrivals toy_day) s "a" st)
     never toy_service.
Proof.
  split; [vm_compute; reflexivity|]. unfold toy_serve, toy_service. eapply wp_mono.
  - apply (service_exact Toy.sdpa Toy.attend ToyEngine.weights [1%Z] poly_hash ToyEngine.clock (λ ids, ids = toy_prompt) ToyEngine.cfg
      [] 12 2 (rotary_init [1%Z] 4) true (Some default_admission) None toy_day).
    + apply toy_model_ok.
    + lia.
    + split; reflexivity.
    + apply toy_collision_free.
    + vm_compute. discriminate.
    + apply (bool_decide_unpack _). vm_compute. exact I.
    + intros id q t H. destruct (toy_day_good id q t H) as (H1 & H2 & H3 & _). split; [exact H1|]. split; [exact H2|exact H3].
  - intros x s [_ H] st Hst. exact (H "a"%string st Hst).
  - intros e s H. exact H.
Defined.

Lemma service_finishes_witness :
  (seen_by "a" (toy_serve (toy_day ++ replicate 460 Work) toy_service).2, seen_by "b" (toy_serve (toy_day ++ replicate 460 Work) toy_service).2)
    = (Some ([0; 0]%Z, [0]%Z, true), Some ([0]%Z, [0]%Z, true)) ∧
  wp (toy_serve (toy_day ++ replicate 460 Work)) (λ _ s, ∃ st, streams (sv_server s) !! "b"%string = Some st ∧ st_done st = true) never toy_service.
Proof.
  split; [vm_compute; reflexivity|]. unfold toy_serve, toy_service. eapply wp_mono.
  - apply (service_finishes Toy.sdpa Toy.attend ToyEngine.weights [1%Z] poly_hash ToyEngine.clock (λ ids, ids = toy_prompt) ToyEngine.cfg
      [] 12 2 (rotary_init [1%Z] 4) true (Some default_admission) None toy_day [toy_prompt] 4 460).
    + apply toy_model_ok.
    + lia.
    + split; reflexivity.
    + apply toy_collision_free.
    + vm_compute. discriminate.
    + apply (bool_decide_unpack _). vm_compute. exact I.
    + intros id q t H. exact (toy_day_good id q t H).
    + vm_compute. lia.
    + intros ids ->. left.
    + vm_compute. lia.
  - intros x s (_ & _ & H). destruct (H "b"%string) as (st & H1 & H2 & _).
    + right. left.
    + vm_compute. intros Hin. inversion Hin.
    + exists st. split; [exact H1|exact H2].
  - intros e s H. exact H.
Defined.

(** ** A fan-out in the middle of a part *)

Section overtaken.
Context {R : Type} `{HT : Torch R} `{HS : TorchSampling R} (clock : nat → Qc).

(** The two halves of [_fanout]. *)
Definition fanout_tokens : M (AsyncEngine (R := R)) unit :=
  do* sample_metrics clock in
  let* l := on_eng drain_emitted in
  for_each l deliver.
Definition fanout_outcomes : M (AsyncEngine (R := R)) unit :=
  let* l := on_eng drain_finished in
  for_each l conclude.

Lemma fanout_halves a : _fanout clock a = (do* fanout_tokens in fanout_outcomes) a.
Proof.
  rw /_fanout /fanout_tokens bind_assoc /bind. destruct (sample_metrics clock a) as [[[]|x] a1]; [|done].
  by destruct (on_eng drain_emitted a1) as [[l|x] a2].
Qed.
End overtaken.

(** A handler fans out while the worker thread accepts the last token of a request: between
    the two halves the token is emitted and the request finished.  The stream is then done
    with nothing queued, and a response whose wait for a token ends at this moment closes
    without the last token, which the next fan-out queues for nobody. *)
Example fanout_overtaken :
  let begin := [Arrive "a" (toy_ask "a" 2); Work; Work; Flush; Poll "a"; Work]%string in
  let s := (toy_serve begin toy_service).2 in
  let a := (fanout_tokens ToyEngine.clock (sv_server s)).2 in
  match sv_stage s with
  | Accepting logits started dn =>
      let a := (on_eng (step_accept ToyEngine.clock ToyEngine.cfg logits started dn) a).2 in
      let a := (fanout_outcomes a).2 in
      (seen_by "a" (mkService a (sv_got s) Stepped), (e_emitted (ae_engine a)).*2,
       seen_by "a" (mkService (_fanout ToyEngine.clock a).2 (sv_got s) Stepped))
      = (Some ([0]%Z, [], true), [0]%Z, Some ([0]%Z, [0]%Z, true))
  | _ => False
  end.
Proof. vm_compute. reflexivity. Qed.
