(* ===== verification/Discovery.v ===== *)
(** * Registration in etcd (engine/discovery.py)

    Keys on the wire are base64 of their UTF-8 form; a prefix scan is a half-open key
    range; the client rotates over its endpoints; a replica announces itself under a
    lease, renews it, and announces itself again when the lease is lost.  The network with
    the etcd servers behind it, and the JSON library, are parameters; the registration is
    written against the client's calls ([Etcd]), and the client implements them. *)

From Stdlib Require Import ssreflect QArith Qcanon.
From stdpp Require Import prelude gmap strings list.
From S2P Require Import Prelude Text Tokenizer.

(** ** Base64 *)

(** [A-Z a-z 0-9 + /]. *)
Definition b64_char (v : Z) : Z :=
  (if v <? 26 then v + 65 else if v <? 52 then v + 71 else if v <? 62 then v - 4 else if v =? 62 then 43 else 47)%Z.
Definition b64_val (c : Z) : option Z :=
  (if (65 <=? c) && (c <=? 90) then Some (c - 65)
   else if (97 <=? c) && (c <=? 122) then Some (c - 71)
   else if (48 <=? c) && (c <=? 57) then Some (c + 4)
   else if c =? 43 then Some 62 else if c =? 47 then Some 63 else None)%Z.
Definition PAD : Z := 61.

(** [base64.b64encode]. *)
Fixpoint b64encode (b : list Z) : list Z :=
  match b with
  | [] => []
  | [x] => [b64_char (x / 4); b64_char ((x mod 4) * 16); PAD; PAD]
  | [x; y] => [b64_char (x / 4); b64_char ((x mod 4) * 16 + y / 16); b64_char ((y mod 16) * 4); PAD]
  | x :: y :: z :: b =>
      b64_char (x / 4) :: b64_char ((x mod 4) * 16 + y / 16) :: b64_char ((y mod 16) * 4 + z / 64) :: b64_char (z mod 64)
      :: b64encode b
  end%Z.

(** [base64.b64decode]: characters outside the alphabet are skipped; enough padding in
    the right place ends the data; an incomplete group is an error. *)
Fixpoint b64decode_from (s : list Z) (quad : nat) (left : Z) (pads : nat) : result (list Z) :=
  match s with
  | [] => if quad =? 0 then Ok [] else Raise ValueError
  | c :: s =>
      if (c =? PAD)%Z then
        if 2 <=? quad then if 4 <=? quad + S pads then Ok [] else b64decode_from s quad left (S pads)
        else b64decode_from s quad left pads
      else
        match b64_val c with
        | None => b64decode_from s quad left pads
        | Some v =>
            let out b k := match k with Ok l => Ok (b :: l) | Raise e => Raise e end in
            match quad with
            | 0 => b64decode_from s 1 v 0
            | 1 => out (left * 4 + v / 16)%Z (b64decode_from s 2 (v mod 16)%Z 0)
            | 2 => out (left * 16 + v / 4)%Z (b64decode_from s 3 (v mod 4)%Z 0)
            | _ => out (left * 64 + v)%Z (b64decode_from s 0 0%Z 0)
            end
        end
  end.
Definition b64decode (s : list Z) : result (list Z) := b64decode_from s 0 0%Z 0.

(** [b.decode()], strict: only well-formed UTF-8. *)
Definition utf8_decode_strict (b : list Z) : result (list Z) :=
  let s := utf8_decode b in if bool_decide (utf8_encode s = Ok b) then Ok s else Raise ValueError.

Definition _b64 (s : list Z) : result (list Z) :=
  match utf8_encode s with Ok b => Ok (b64encode b) | Raise e => Raise e end.
Definition _unb64 (s : list Z) : result (list Z) :=
  match b64decode s with Ok b => utf8_decode_strict b | Raise e => Raise e end.

(** ** Ranges *)

(** The loop of [_range_end], over the bytes from the last one back. *)
Fixpoint bump (rev_raw : list Z) : option (list Z) :=
  match rev_raw with
  | [] => None
  | x :: l => if (x <? 255)%Z then Some (rev ((x + 1)%Z :: l)) else bump l
  end.

Definition _range_end (prefix : list Z) : result (list Z) :=
  match utf8_encode prefix with
  | Raise e => Raise e
  | Ok raw => match bump (rev raw) with
              | Some r => Ok (b64encode r)
              | None => _b64 [0%Z]
              end
  end.

(** ** Facts *)

#[local] Ltac Zify.zify_post_hook ::= Z.to_euclidean_division_equations.

Lemma b64_val_char v : (0 ≤ v < 64)%Z → b64_val (b64_char v) = Some v ∧ (b64_char v =? PAD)%Z = false.
Proof.
  intros Hv. rw /b64_char /PAD.
  destruct (Z.ltb_spec v 26).
  { rw /b64_val. assert ((65 <=? v + 65) && (v + 65 <=? 90) = true)%Z as -> by lia. split; [f_equal; lia|lia]. }
  destruct (Z.ltb_spec v 52).
  { rw /b64_val. assert ((65 <=? v + 71) && (v + 71 <=? 90) = false)%Z as -> by lia.
    assert ((97 <=? v + 71) && (v + 71 <=? 122) = true)%Z as -> by lia. split; [f_equal; lia|lia]. }
  destruct (Z.ltb_spec v 62).
  { rw /b64_val. assert ((65 <=? v - 4) && (v - 4 <=? 90) = false)%Z as -> by lia.
    assert ((97 <=? v - 4) && (v - 4 <=? 122) = false)%Z as -> by lia.
    assert ((48 <=? v - 4) && (v - 4 <=? 57) = true)%Z as -> by lia. split; [f_equal; lia|lia]. }
  destruct (Z.eqb_spec v 62); [subst; done|]. assert (v = 63)%Z as -> by lia. done.
Qed.

(** One alphabet character of a group. *)
Lemma b64decode_char v s quad left pads : (0 ≤ v < 64)%Z →
  b64decode_from (b64_char v :: s) quad left pads =
    let out b k := match k with Ok l => Ok (b :: l) | Raise e => Raise e end in
    match quad with
    | 0 => b64decode_from s 1 v 0
    | 1 => out (left * 4 + v / 16)%Z (b64decode_from s 2 (v mod 16)%Z 0)
    | 2 => out (left * 16 + v / 4)%Z (b64decode_from s 3 (v mod 4)%Z 0)
    | _ => out (left * 64 + v)%Z (b64decode_from s 0 0%Z 0)
    end.
Proof. intros Hv. destruct (b64_val_char v Hv) as [H1 H2]. cbn [b64decode_from]. by rw H2 H1. Qed.

Lemma list_ind3 {A} (P : list A → Prop) :
  P [] → (∀ x, P [x]) → (∀ x y, P [x; y]) → (∀ x y z l, P l → P (x :: y :: z :: l)) → ∀ l, P l.
Proof.
  intros H0 H1 H2 H3 l. enough (P l ∧ (∀ x, P (x :: l)) ∧ ∀ x y, P (x :: y :: l)) by tauto.
  induction l as [|z l (IH1 & IH2 & IH3)]; [done|]. split_and!; [done|done|]. intros x y. by apply H3.
Qed.

Lemma b64_roundtrip b : Forall (λ x, 0 ≤ x < 256)%Z b → b64decode (b64encode b) = Ok b.
Proof.
  rw /b64decode. induction b as [|x|x y|x y z b IH] using list_ind3; intros Hb; [done|..];
    repeat match goal with H : Forall _ (_ :: _) |- _ => apply Forall_cons in H as [? H] end.
  - cbn [b64encode]. rw !b64decode_char; [|lia|lia]. cbn. repeat f_equal. lia.
  - cbn [b64encode]. rw !b64decode_char; [|lia|lia|lia]. cbn. repeat f_equal; lia.
  - cbn [b64encode]. rw !b64decode_char; [|lia|lia|lia|lia]. cbn zeta iota beta. rw IH //. repeat f_equal; lia.
Qed.

(** Byte strings in etcd's key order. *)
Fixpoint lex_lt (a b : list Z) : bool :=
  match a, b with
  | [], [] => false
  | [], _ :: _ => true
  | _ :: _, [] => false
  | x :: a, y :: b => (x <? y)%Z || (x =? y)%Z && lex_lt a b
  end.

Lemma bump_split l r : Forall (λ x, 0 ≤ x < 256)%Z l → bump (rev l) = Some r →
  ∃ f x n, l = f ++ x :: replicate n 255%Z ∧ (x < 255)%Z ∧ r = f ++ [(x + 1)%Z].
Proof.
  revert r. induction l as [|y l IH] using rev_ind; intros r Hl; [done|]. rw rev_app_distr. cbn.
  apply Forall_app in Hl as [Hl Hy]. apply Forall_cons in Hy as [Hy _].
  destruct (Z.ltb_spec y 255) as [Hlt|Hge].
  - intros [= <-]. exists l, y, 0. cbn. rw rev_involutive. done.
  - intros Hb. destruct (IH r Hl Hb) as (f & x & n & -> & Hx & ->). exists f, x, (S n). split_and!; [|done|done].
    assert (y = 255)%Z as -> by lia. rw -assoc. cbn. by rw -replicate_cons_app.
Qed.

Lemma lex_255 n k : Forall (λ x, 0 ≤ x < 256)%Z k → lex_lt k (replicate n 255%Z) = false ↔ replicate n 255%Z `prefix_of` k.
Proof.
  revert k. induction n as [|n IH]; intros k Hk; cbn.
  { split; [intros _; apply prefix_nil|by destruct k]. }
  destruct k as [|y k]; [split; [done|by intros ?%prefix_nil_not]|]. apply Forall_cons in Hk as [Hy Hk]. cbn.
  split.
  - intros Hl. assert (y = 255)%Z as -> by lia. apply prefix_cons, IH; [done|]. by destruct (lex_lt k (replicate n 255%Z)); [lia|].
  - intros Hp. pose proof (prefix_cons_inv_1 _ _ _ _ Hp) as <-. apply prefix_cons_inv_2, IH in Hp; [|done]. rw Hp. lia.
Qed.

Lemma lex_range f x n k : (x < 255)%Z → Forall (λ x, 0 ≤ x < 256)%Z k →
  lex_lt k (f ++ x :: replicate n 255%Z) = false ∧ lex_lt k (f ++ [(x + 1)%Z]) = true ↔
  f ++ x :: replicate n 255%Z `prefix_of` k.
Proof.
  intros Hx. revert k. induction f as [|y f IH]; intros k Hk; cbn [app].
  - destruct k as [|z k]; [split; [by intros [? _]|by intros ?%prefix_nil_not]|]. apply Forall_cons in Hk as [Hz Hk]. cbn.
    split.
    + intros [H1 H2]. assert (lex_lt k [] = false) as H3 by by destruct k. rw H3 in H2. assert (z = x) as -> by lia.
      apply prefix_cons, lex_255; [done|]. by destruct (lex_lt k (replicate n 255%Z)); [lia|].
    + intros Hp. pose proof (prefix_cons_inv_1 _ _ _ _ Hp) as <-. apply prefix_cons_inv_2, lex_255 in Hp; [|done]. rw Hp. lia.
  - destruct k as [|z k]; [split; [by intros [? _]|by intros ?%prefix_nil_not]|]. apply Forall_cons in Hk as [Hz Hk]. cbn. split.
    + intros [H1 H2]. assert (z = y) as -> by lia. apply prefix_cons, IH; [done|]. split.
      * by destruct (lex_lt k (f ++ x :: replicate n 255%Z)); [lia|].
      * by destruct (lex_lt k (f ++ [(x + 1)%Z])); [|lia].
    + intros Hp. pose proof (prefix_cons_inv_1 _ _ _ _ Hp) as <-. apply prefix_cons_inv_2, IH in Hp as [-> ->]; [|done]. lia.
Qed.

Lemma bump_some l : l ≠ [] → Forall (λ x, x < 255)%Z l → ∃ r, bump (rev l) = Some r.
Proof.
  induction l as [|y l _] using rev_ind; [done|]. intros _ Hl. rw rev_app_distr. cbn.
  apply Forall_app in Hl as [_ Hy]. apply Forall_cons in Hy as [Hy _]. destruct (Z.ltb_spec y 255); [by eexists|lia].
Qed.

Lemma utf8_below s : forallb scalar s = true → Forall (λ x, x < 255)%Z (s ≫= utf8_char).
Proof.
  induction s as [|c s IH]; [by constructor|]. cbn [forallb]. intros [Hc Hs]%andb_true_iff. cbn. apply Forall_app.
  split; [|by apply IH]. rw /scalar in Hc. rw /utf8_char.
  destruct (Z.ltb_spec c 128); [repeat constructor; lia|]. destruct (Z.ltb_spec c 2048); [repeat constructor; lia|].
  destruct (Z.ltb_spec c 65536); repeat constructor; lia.
Qed.

(** A prefix scan reads the prefix's keys and no others.  For a non-empty prefix,
    [_b64] of it and [_range_end] of it decode, as base64, to bounds [lo] and [hi] such
    that exactly the keys that start with the prefix's bytes are in the half-open range
    from [lo] to [hi] in byte order. *)
Theorem range_end_exact prefix :
  prefix ≠ [] → forallb scalar prefix = true →
  ∃ start end_ lo hi,
    _b64 prefix = Ok start ∧ _range_end prefix = Ok end_ ∧ b64decode start = Ok lo ∧ b64decode end_ = Ok hi ∧
    lo = prefix ≫= utf8_char ∧
    ∀ k, Forall (λ x, 0 ≤ x < 256)%Z k → (lex_lt k lo = false ∧ lex_lt k hi = true ↔ lo `prefix_of` k).
Proof.
  intros Hne Hsc. pose proof (utf8_bytes prefix Hsc) as Hb. set (raw := prefix ≫= utf8_char) in *.
  assert (raw ≠ []) as Hraw.
  { subst raw. destruct prefix as [|c l]; [done|]. cbn. rw /utf8_char. by repeat case_match. }
  destruct (bump_some raw Hraw (utf8_below _ Hsc)) as [r Hr]. destruct (bump_split raw r Hb Hr) as (f & x & n & Heq & Hx & ->).
  exists (b64encode raw), (b64encode (f ++ [(x + 1)%Z])), raw, (f ++ [(x + 1)%Z]).
  rw /_b64 /_range_end utf8_encode_ok // -/raw Hr !b64_roundtrip //.
  - split_and!; try done. rw Heq. intros k Hk. by apply lex_range.
  - rw Heq in Hb. apply Forall_app in Hb as [Hf Hxn]. apply Forall_cons in Hxn as [Hx0 _]. apply Forall_app. split; [done|].
    constructor; [lia|constructor].
Qed.

(** ["/r/"] *)
Lemma range_end_exact_witness :
  _range_end [47; 114; 47]%Z = Ok (b64encode [47; 114; 48]%Z) ∧
  ∃ end_ hi, _range_end [47; 114; 47]%Z = Ok end_ ∧ b64decode end_ = Ok hi ∧ lex_lt [47; 114; 47; 49]%Z hi = true.
Proof.
  split; [vm_compute; reflexivity|].
  destruct (range_end_exact [47; 114; 47]%Z) as (start & e & lo & hi & _ & H2 & _ & H4 & H5 & H6).
  - discriminate.
  - reflexivity.
  - exists e, hi. split; [exact H2|]. split; [exact H4|]. destruct (H6 [47; 114; 47; 49]%Z) as [_ H7].
    + repeat constructor; lia.
    + apply H7. rw H5. exists [49%Z]. reflexivity.
Defined.

(** ** The client *)

#[local] Set Warnings "-register-all".

Inductive json :=
  | JNull
  | JNum (n : Z)
  | JStr (s : list Z)
  | JArr (l : list json)
  | JObj (fields : list (string * json)).

(** [obj.get(key)]; anything but an object has no [get]. *)
Definition jget (key : string) (j : json) : result (option json) :=
  match j with JObj fields => Ok (dget key fields) | _ => Raise AttributeError end.

(** How a request ends: with a reply's text; with an error the client expects ([URLError],
    [OSError], [TimeoutError]: no connection, a time-out, an HTTP error status); or with one
    it does not, such as [http.client]'s when the reply is cut off, or [UnicodeDecodeError]. *)
Inductive attempt :=
  | Replied (raw : list Z)
  | Failed
  | Broke (e : exn).

(** The client, and the world its requests go to. *)
Record EtcdClient {W : Type} := mkClient {
  _endpoints : list (list Z);
  _i : nat;
  world : W;
}.
Arguments EtcdClient : clear implicits.
Arguments mkClient {W} _ _ _.
Arguments _endpoints {W} _.
Arguments _i {W} _.
Arguments world {W} _.

(** [sub in s]. *)
Fixpoint contains (sub s : list Z) : bool :=
  bool_decide (sub `prefix_of` s) || match s with [] => false | _ :: s => contains sub s end.
Fixpoint take_until (c : Z) (s : list Z) : list Z :=
  match s with [] => [] | x :: s => if (x =? c)%Z then [] else x :: take_until c s end.

Definition SCHEME : list Z := [58; 47; 47]%Z.                             (* "://" *)
Definition HTTP : list Z := [104; 116; 116; 112; 58; 47; 47]%Z.           (* "http://" *)

Definition _normalise `{Unicode} (endpoint : list Z) : list Z :=
  let endpoint := rstrip (Z.eqb 47) (strip is_space endpoint) in
  if contains SCHEME endpoint then endpoint else HTTP ++ endpoint.

Definition new_client `{Unicode} {W} (w : W) (endpoints : list (list Z)) : result (EtcdClient W) :=
  match endpoints with [] => Raise ValueError | _ => Ok (mkClient (_normalise <$> endpoints) 0 w) end.

Section client.
Context `{Unicode} {W : Type}.
(** The network: a request to a URL; the JSON library; and the two conversions between
    integers and their digits. *)
Context (urlopen : list Z → json → W → attempt * W).
Context (json_loads : list Z → option json).
Context (str_int : Z → list Z) (int_str : list Z → result Z).

Definition CM (A : Type) : Type := M (EtcdClient W) A.

(** The body of the loop of [_post]: one request; [None] for a failure it goes on from. *)
Definition ask (path : list Z) (body : json) (idx : nat) : CM (option (list Z)) := λ c,
  match _endpoints c !! idx with
  | Some base =>
      let (o, w) := urlopen (base ++ path) body (world c) in
      (match o with Replied raw => Ok (Some raw) | Failed => Ok None | Broke e => Raise e end, mkClient (_endpoints c) (_i c) w)
  | None => (Raise IndexError, c)
  end.

Definition first_line (raw : list Z) : list Z :=
  match strip is_space raw with [] => [123; 125]%Z | s => take_until 10 s end.

Fixpoint post_from (path : list Z) (body : json) (attempts : list nat) : CM json :=
  match attempts with
  | [] => raise EtcdError
  | attempt :: attempts =>
      let* c := get in
      let idx := (_i c + attempt) mod length (_endpoints c) in
      let* reply := ask path body idx in
      match reply with
      | None => post_from path body attempts
      | Some raw =>
          do* modify (λ c, mkClient (_endpoints c) idx (world c)) in
          match json_loads (first_line raw) with
          | None => raise EtcdError
          | Some parsed => lift_result (match jget "result" parsed with
                                        | Ok r => Ok (default parsed r)
                                        | Raise e => Raise e
                                        end)
          end
      end
  end.

Definition _post (path : list Z) (body : json) : CM json :=
  let* c := get in post_from path body (seq 0 (length (_endpoints c))).

(** [str(lease)]. *)
Definition str_json (j : json) : list Z := match j with JStr s => s | JNum n => str_int n | _ => [] end.
Definition falsy (j : json) : bool :=
  match j with
  | JNull => true | JNum n => (n =? 0)%Z | JStr s => bool_decide (s = [])
  | JArr l => match l with [] => true | _ => false end | JObj l => match l with [] => true | _ => false end
  end.

Context (paths : string → list Z).
#[local] Notation "'PATH' s" := (paths s%string) (at level 10).

Definition grant (ttl_seconds : Z) : CM json :=
  let* resp := _post (PATH "/v3/lease/grant") (JObj [("TTL"%string, JStr (str_int ttl_seconds))]) in
  let* lease := lift_result (jget "ID" resp) in
  match lease with
  | Some l => if falsy l || (match l with JStr s => bool_decide (s = [48%Z]) | _ => false end)
              then raise EtcdError else ret l
  | None => raise EtcdError
  end.

Definition put (key value : list Z) (lease : option json) : CM unit :=
  let* k := lift_result (_b64 key) in
  let* v := lift_result (_b64 value) in
  let body := [("key"%string, JStr k); ("value"%string, JStr v)] in
  let body := match lease with Some l => body ++ [("lease"%string, JStr (str_json l))] | None => body end in
  do* _post (PATH "/v3/kv/put") (JObj body) in ret tt.

(** [int(resp.get("TTL", 0)) > 0]. *)
Definition int_json (j : json) : result Z :=
  match j with JNum n => Ok n | JStr s => int_str s | _ => Raise TypeError end.
Definition keepalive (lease : json) : CM bool :=
  let* resp := _post (PATH "/v3/lease/keepalive") (JObj [("ID"%string, JStr (str_json lease))]) in
  let* ttl := lift_result (jget "TTL" resp) in
  let* n := lift_result (int_json (default (JNum 0) ttl)) in
  ret (0 <? n)%Z.

Definition revoke (lease : json) : CM unit :=
  do* _post (PATH "/v3/kv/lease/revoke") (JObj [("ID"%string, JStr (str_json lease))]) in ret tt.

(** [_unb64(kv["key"]): _unb64(kv.get("value", ""))]. *)
Definition read_kv (kv : json) : result (list Z * list Z) :=
  match jget "key" kv with
  | Ok (Some (JStr k)) =>
      match jget "value" kv with
      | Ok v =>
          match default (JStr []) v with
          | JStr v => match _unb64 k, _unb64 v with
                      | Ok k, Ok v => Ok (k, v)
                      | Raise e, _ => Raise e
                      | _, Raise e => Raise e
                      end
          | _ => Raise TypeError
          end
      | Raise e => Raise e
      end
  | Ok None => Raise KeyError
  | Ok (Some _) => Raise TypeError
  | Raise e => Raise e
  end.

Definition get_prefix (prefix : list Z) : CM (list (list Z * list Z)) :=
  let* k := lift_result (_b64 prefix) in
  let* e := lift_result (_range_end prefix) in
  let* resp := _post (PATH "/v3/kv/range") (JObj [("key"%string, JStr k); ("range_end"%string, JStr e)]) in
  let* kvs := lift_result (jget "kvs" resp) in
  match default (JArr []) kvs with
  | JArr l => let* kvs := for_list l (λ kv, lift_result (read_kv kv)) in
              ret (foldl (λ d x, dset x.1 x.2 d) [] kvs)
  | _ => raise TypeError
  end.
End client.

(** ["/nanoserve/replicas/"] *)
Definition REGISTRY_PREFIX : list Z :=
  [47; 110; 97; 110; 111; 115; 101; 114; 118; 101; 47; 114; 101; 112; 108; 105; 99; 97; 115; 47]%Z.

(** ** Registration *)

(** What a registration needs of a store: the client's four calls, and time passing. *)
Class Etcd (St Lease : Type) := {
  etcd_grant : Z → M St Lease;
  etcd_put : list Z → list Z → option Lease → M St unit;
  etcd_keepalive : Lease → M St bool;
  etcd_revoke : Lease → M St unit;
  etcd_wait : Qc → St → St;
}.

Record RegistrationConfig := mkRegConfig { rc_replica_id : list Z; rc_addr : list Z; rc_ttl : Z }.

Section registration.
Context {St Lease : Type} `{Etcd St Lease} (cfg : RegistrationConfig).
(** Whether the stop event is set at the nth look, and the jitter drawn at the nth retry. *)
Context (stopped : nat → bool) (random : nat → Qc).

Record Reg := mkReg {
  rg_store : St;
  _lease : option Lease;
  reannounce_count : nat;
  rg_looks : nat;
}.

Definition set_store (st : St) (r : Reg) : Reg := mkReg st (_lease r) (reannounce_count r) (rg_looks r).
Definition set_lease (l : option Lease) (r : Reg) : Reg := mkReg (rg_store r) l (reannounce_count r) (rg_looks r).
Definition on_store {A} (m : M St A) : M Reg A := zoom rg_store set_store m.
Definition _key : list Z := REGISTRY_PREFIX ++ rc_replica_id cfg.

(** [self._stop.is_set()], and [self._stop.wait(d)]. *)
Definition look : M Reg bool := λ r, (Ok (stopped (rg_looks r)), mkReg (rg_store r) (_lease r) (reannounce_count r) (S (rg_looks r))).
Definition wait (d : Qc) : M Reg bool :=
  do* modify (λ r, set_store (etcd_wait d (rg_store r)) r) in look.

Definition _announce : M Reg unit :=
  let* lease := on_store (etcd_grant (rc_ttl cfg)) in
  do* on_store (etcd_put _key (rc_addr cfg) (Some lease)) in
  modify (set_lease (Some lease)).

Definition qhalf : Qc := Q2Qc (1 # 2).
Definition qz (z : Z) : Qc := Q2Qc (inject_Z z).
Definition qmin (a b : Qc) : Qc := if bool_decide (b < a)%Qc then b else a.

(** How the retry loop ends: announced, stopped before a try, stopped while waiting. *)
Inductive retried := Announced | StopSeen | StopWaited.

(** The inner loop; [None] when [fuel] tries were not enough. *)
Fixpoint reannounce (fuel : nat) (backoff : Qc) : M Reg (option (retried * Qc)) :=
  match fuel with
  | O => ret None
  | S fuel =>
      let* stop := look in
      if stop then ret (Some (StopSeen, backoff))
      else
        let* ok := catch (do* _announce in ret true) EtcdError (ret false) in
        if ok then
          do* modify (λ r, mkReg (rg_store r) (_lease r) (S (reannounce_count r)) (rg_looks r)) in
          ret (Some (Announced, qhalf))
        else
          let* r := get in
          let* stop := wait (backoff * (qhalf + random (rg_looks r)))%Qc in
          if stop then ret (Some (StopWaited, backoff))
          else reannounce fuel (qmin (backoff + backoff) (qz (rc_ttl cfg)))
  end.

(** One round of the renewal loop, after its wait. *)
Definition renew_round (fuel : nat) (backoff : Qc) : M Reg (option (retried * Qc)) :=
  let* r := get in
  let* alive := (match _lease r with
                 | Some l => catch (on_store (etcd_keepalive l)) EtcdError (ret false)
                 | None => ret false
                 end) in
  if alive then ret (Some (Announced, qhalf)) else reannounce fuel backoff.

Definition interval : Qc :=
  let third := (qz (rc_ttl cfg) / qz 3)%Qc in if bool_decide (third < 1)%Qc then 1%Qc else third.

(** [_renew_forever], until it is stopped; [None] when [rounds] rounds were not enough. *)
Fixpoint renew_forever (rounds fuel : nat) (backoff : Qc) : M Reg (option unit) :=
  match rounds with
  | O => ret None
  | S rounds =>
      let* stop := wait interval in
      if stop then ret (Some tt)
      else
        let* out := renew_round fuel backoff in
        match out with
        | None => ret None
        | Some (StopWaited, _) => ret (Some tt)
        | Some (_, backoff) => renew_forever rounds fuel backoff
        end
  end.

(** [stop], once the thread has been joined. *)
Definition reg_stop : M Reg unit :=
  let* r := get in
  match _lease r with
  | Some l =>
      do* catch (on_store (etcd_revoke l)) EtcdError (ret tt) in
      modify (set_lease None)
  | None => ret tt
  end.
End registration.

(** [lookup]: the registry as replica id to address. *)
Definition lookup_registry (kvs : list (list Z * list Z)) : list (list Z * list Z) :=
  foldl (λ d kv, dset (drop (length REGISTRY_PREFIX) kv.1) kv.2 d) [] kvs.

(** * Availability *)

Section rotation.
Context `{Unicode} {W : Type}.
Context (urlopen : list Z → json → W → attempt * W) (json_loads : list Z → option json).
Context (path : list Z) (body : json) (c0 : EtcdClient W).
#[local] Abbreviation n := (length (_endpoints c0)).

(** The endpoint [k] places after the current one. *)
Definition place (k : nat) : nat := (_i c0 + k) mod n.
Definition url (k : nat) : list Z := default [] (_endpoints c0 !! place k) ++ path.

(** The world once [k] endpoints were asked, and how asking the next one ends. *)
Fixpoint world_at (k : nat) : W := match k with 0 => world c0 | S k => (urlopen (url k) body (world_at k)).2 end.
Definition outcome (k : nat) : attempt := (urlopen (url k) body (world_at k)).1.

(** The result a reply stands for. *)
Definition parsed_reply (raw : list Z) : result json :=
  match json_loads (first_line raw) with
  | None => Raise EtcdError
  | Some parsed => match jget "result" parsed with Ok r => Ok (default parsed r) | Raise e => Raise e end
  end.

(** What the first answer, at place [k], makes of the call. *)
Definition answered (k : nat) : result json * EtcdClient W :=
  match outcome k with
  | Replied raw => (parsed_reply raw, mkClient (_endpoints c0) (place k) (world_at (S k)))
  | Failed => (Raise EtcdError, mkClient (_endpoints c0) (_i c0) (world_at (S k)))
  | Broke e => (Raise e, mkClient (_endpoints c0) (_i c0) (world_at (S k)))
  end.

Lemma place_url k : 0 < n → ∃ base, _endpoints c0 !! place k = Some base ∧ url k = base ++ path.
Proof.
  clear -c0 path. intros Hn. destruct (lookup_lt_is_Some_2 (_endpoints c0) (place k)) as [base Hb]; [by apply Nat.mod_upper_bound; lia|].
  exists base. by rw /url Hb.
Qed.

Lemma post_from_spec j : ∀ m, m + j = n → 0 < n →
  let r := post_from urlopen json_loads path body (seq m j) (mkClient (_endpoints c0) (_i c0) (world_at m)) in
  ((∀ k, m ≤ k < n → outcome k = Failed) ∧ r = (Raise EtcdError, mkClient (_endpoints c0) (_i c0) (world_at n))) ∨
  ∃ k, m ≤ k < n ∧ (∀ k', m ≤ k' < k → outcome k' = Failed) ∧ outcome k ≠ Failed ∧ r = answered k.
Proof.
  induction j as [|j IH]; intros m Hm Hn; cbn zeta.
  { left. split; [intros k Hk; lia|]. cbn. do 2 f_equal. f_equal. lia. }
  destruct (place_url m Hn) as (base & Hbase & Hurl).
  cbn [seq post_from]. rw /bind /get. cbn [_i _endpoints]. rw /ask. cbn [_i _endpoints world].
  fold (place m). rw !Hbase -Hurl.
  assert (outcome m = (urlopen (url m) body (world_at m)).1 ∧ world_at (S m) = (urlopen (url m) body (world_at m)).2) as [Ho Hw] by done.
  destruct (urlopen (url m) body (world_at m)) as [[raw| |e] w']; cbn [fst snd] in Ho, Hw; subst w'; cbn iota beta.
  - right. exists m. split_and!; [lia|lia|intros k' Hk'; lia|by rw Ho|]. rw /answered Ho /modify /parsed_reply.
    cbn [_endpoints world]. destruct (json_loads (first_line raw)) as [parsed|]; [|reflexivity]. by destruct (jget _ parsed).
  - destruct (IH (S m)) as [[Hall ->]|(k & Hk & Hbefore & Hk2 & ->)]; [lia|done|..].
    + left. split; [|done]. intros k Hk. destruct (decide (k = m)) as [->|]; [done|]. apply Hall. lia.
    + right. exists k. split_and!; [lia|lia| |done|done]. intros k' Hk'. destruct (decide (k' = m)) as [->|]; [done|].
      apply Hbefore. lia.
  - right. exists m. split_and!; [lia|lia|intros k' Hk'; lia|by rw Ho|]. by rw /answered Ho.
Qed.
End rotation.

(** The client survives all endpoints but one.  [_post] asks each endpoint at most
    once, starting with the one that answered last and going round; the first that does
    not fail decides the result, and is remembered if it replied (an exception that is
    not one of the expected ones goes through to the caller); only if all fail does it
    raise [EtcdError], having asked all of them and forgotten nothing. *)
Theorem post_rotates `{Unicode} {W} urlopen json_loads path body (c : EtcdClient W) :
  _endpoints c ≠ [] →
  let n := length (_endpoints c) in
  let r := _post urlopen json_loads path body c in
  ((∀ k, k < n → outcome urlopen path body c k = Failed) ∧
    r = (Raise EtcdError, mkClient (_endpoints c) (_i c) (world_at urlopen path body c n))) ∨
  ∃ k, k < n ∧ (∀ k', k' < k → outcome urlopen path body c k' = Failed) ∧ outcome urlopen path body c k ≠ Failed ∧
    r = answered urlopen json_loads path body c k.
Proof.
  intros Hne. cbn zeta. assert (0 < length (_endpoints c)) by (destruct (_endpoints c); [done|cbn; lia]).
  change (_post urlopen json_loads path body c) with (post_from urlopen json_loads path body (seq 0 (length (_endpoints c))) c).
  pose proof (post_from_spec urlopen json_loads path body c (length (_endpoints c)) 0) as Hp. cbn zeta in Hp. cbn [world_at] in Hp.
  assert (mkClient (_endpoints c) (_i c) (world c) = c) as Hc by by destruct c. rw Hc in Hp.
  destruct Hp as [[Hall Hr]|(k & Hk & Hb & Ho & Hr)]; [done|done|..].
  - left. split; [|done]. intros k Hk. apply Hall. lia.
  - right. exists k. split_and!; [lia|intros k' Hk'; apply Hb; lia|done|done].
Qed.

(** Three endpoints, the second current and down. *)
Definition toy_client : EtcdClient nat := mkClient [[97]; [98]; [99]]%Z 1 0.
Definition toy_net (url : list Z) (body : json) (k : nat) : attempt * nat :=
  (if bool_decide (url = [98; 47]%Z) then Failed else Replied url, S k).

Lemma post_rotates_witness :
  _post toy_net (λ s, Some (JObj [("reply"%string, JStr s)])) [47]%Z JNull toy_client
    = (Ok (JObj [("reply"%string, JStr [99; 47]%Z)]), mkClient [[97]; [98]; [99]]%Z 2 2) ∧
  ∃ k, k < 3 ∧ outcome toy_net [47]%Z JNull toy_client k ≠ Failed.
Proof.
  split; [vm_compute; reflexivity|].
  destruct (post_rotates toy_net (λ s, Some (JObj [("reply"%string, JStr s)])) [47]%Z JNull toy_client) as [[H _]|(k & H1 & _ & H2 & _)].
  - discriminate.
  - specialize (H 1 ltac:(cbn; lia)). vm_compute in H. discriminate.
  - exists k. split; [exact H1|exact H2].
Defined.

(** * Self-healing *)

(** What a registration relies on.  [usable st]: the calls reach the store.
    [present st k v l]: the store holds [k ↦ v] under
    the live lease [l].  [bound]: the same, unless the lease has expired meanwhile; an
    expired lease never revives, so a keepalive that succeeds proves it was alive all
    along.  [granted st l]: the lease [l] can be used.  [outage st]: how many waits until the store answers again. *)
Class EtcdLaws (St Lease : Type) `{Etcd St Lease} := {
  usable : St → Prop;
  present : St → list Z → list Z → Lease → Prop;
  bound : St → list Z → list Z → Lease → Prop;
  granted : St → Lease → Prop;
  outage : St → nat;
  present_bound st k v l : present st k v l → bound st k v l;
  wait_usable d st : usable st → usable (etcd_wait d st);
  wait_bound d st k v l : bound st k v l → bound (etcd_wait d st) k v l;
  wait_outage d st : outage (etcd_wait d st) = pred (outage st);
  keepalive_law l st : usable st →
    wp (etcd_keepalive l)
      (λ alive st', usable st' ∧ outage st' = outage st ∧ (alive = true → ∀ k v, bound st k v l → present st' k v l))
      (λ e st', usable st' ∧ e = EtcdError ∧ outage st' = outage st) st;
  grant_law ttl st : usable st →
    wp (etcd_grant ttl) (λ l st', usable st' ∧ granted st' l ∧ outage st' = outage st)
      (λ e st', usable st' ∧ e = EtcdError ∧ outage st' = outage st ∧ 0 < outage st) st;
  put_law k v l st : usable st → forallb scalar k = true → forallb scalar v = true → granted st l →
    wp (etcd_put k v (Some l)) (λ _ st', usable st' ∧ outage st' = outage st ∧ present st' k v l)
      (λ e st', usable st' ∧ e = EtcdError ∧ outage st' = outage st ∧ 0 < outage st) st;
}.

Section healing.
Context {St Lease : Type} `{EtcdLaws St Lease} (cfg : RegistrationConfig).
Context (stopped : nat → bool) (random : nat → Qc).
#[local] Abbreviation RegS := (@Reg St Lease).
Implicit Types r : RegS.
(** The key and the address can be sent. *)
Context (Hid : forallb scalar (rc_replica_id cfg) = true) (Haddr : forallb scalar (rc_addr cfg) = true).

(** The replica is registered: its key is in the store under the lease it renews. *)
Definition registered r : Prop :=
  ∃ l, _lease r = Some l ∧ present (rg_store r) (_key cfg) (rc_addr cfg) l.
Definition was_registered r : Prop :=
  ∀ l, _lease r = Some l → bound (rg_store r) (_key cfg) (rc_addr cfg) l.

Lemma registered_was r : registered r → was_registered r.
Proof. intros (l & Hl & Hp) l' Hl'. simplify_eq/=. by apply present_bound. Qed.

Lemma wait_was d r : was_registered r → was_registered (set_store (etcd_wait d (rg_store r)) r).
Proof. intros Hw l Hl. by apply wait_bound, Hw. Qed.

Lemma key_text : forallb scalar (_key cfg) = true.
Proof. by rw /_key forallb_app Hid. Qed.

Lemma announce_spec r : usable (rg_store r) →
  wp (_announce cfg)
    (λ _ r', registered r' ∧ reannounce_count r' = reannounce_count r ∧ rg_looks r' = rg_looks r)
    (λ e r', usable (rg_store r') ∧ e = EtcdError ∧ reannounce_count r' = reannounce_count r ∧ rg_looks r' = rg_looks r ∧
             outage (rg_store r') = outage (rg_store r) ∧ 0 < outage (rg_store r)) r.
Proof.
  intros Hu. rw /_announce /on_store. wp_step. wp_step. eapply wp_mono; [by apply grant_law|..]; [|naive_solver].
  intros l st' (Hu' & Hgr & Hst'). wp_step. wp_step. eapply wp_mono; [apply put_law; [exact Hu'|exact key_text|exact Haddr|exact Hgr]|..]; cbn.
  - intros _ st'' (_ & _ & Hp). split; [by exists l|done].
  - intros e st'' (Hu'' & -> & Ho & Hpos). split_and!; try done; congruence || lia.
Qed.

(** The retry loop: with more tries than the outage lasts, it ends registered, or
    because the stop event was seen. *)
Lemma reannounce_spec fuel : ∀ backoff r, usable (rg_store r) → outage (rg_store r) < fuel →
  wp (reannounce cfg stopped random fuel backoff)
    (λ out r', (out = Some (Announced, qhalf) ∧ registered r' ∧ reannounce_count r' = S (reannounce_count r)) ∨
               (∃ how b, out = Some (how, b) ∧ how ≠ Announced ∧ reannounce_count r' = reannounce_count r ∧
                  ∃ k, rg_looks r ≤ k < rg_looks r' ∧ stopped k = true))
    never r.
Proof.
  induction fuel as [|fuel IH]; intros backoff r Hu Hout; [lia|]. cbn [reannounce].
  wp_step. rw {1}/wp {1}/look. destruct (stopped (rg_looks r)) eqn:Hstop.
  { right. eexists _, _. split_and!; [done..|]. exists (rg_looks r). cbn. split; [lia|done]. }
  wp_step. wp_step. wp_step. eapply wp_mono; [by apply announce_spec|..]; cbn.
  - intros _ r' (Hr & Hc & Hl). left. split_and!; [done| |cbn; by f_equal]. by destruct Hr as (l & ? & ?); exists l.
  - intros e r' (Hu' & -> & Hc & Hl & Ho & Hpos).
    rw /wp. cbn. cbn in Hl. rw Hl. destruct (stopped (S (rg_looks r))) eqn:Hstop'; cbn.
    + right. eexists _, _. split_and!; [done..|]. exists (S (rg_looks r)). split; [lia|done].
    + eapply wp_mono; [apply IH; cbn; [by apply wait_usable|rw wait_outage Ho; lia]| |done]. cbn.
      intros out r'' [(-> & Hr & Hc')|(how & b & -> & Hne & Hc' & k & Hk & Hsk)].
      * left. rw Hc' Hc. done.
      * right. exists how, b. split_and!; [done|done|congruence|]. exists k. split; [lia|done].
Qed.

(** How a round may end: registered, or told to stop. *)
Definition healed (r : RegS) (out : option (retried * Qc)) (r' : RegS) : Prop :=
  ∃ how b, out = Some (how, b) ∧
    ((how = Announced ∧ b = qhalf ∧ registered r' ∧
      (reannounce_count r' = S (reannounce_count r) ∨
       reannounce_count r' = reannounce_count r ∧ _lease r' = _lease r)) ∨
     (how ≠ Announced ∧ ∃ k, rg_looks r ≤ k < rg_looks r' ∧ stopped k = true)).

Lemma reannounce_healed fuel backoff r st' :
  usable st' → outage st' = outage (rg_store r) → outage (rg_store r) < fuel →
  wp (reannounce cfg stopped random fuel backoff) (healed r) never (set_store st' r).
Proof.
  intros Hu Hst' Hout. eapply wp_mono; [apply reannounce_spec; cbn; [done|lia]| |done]. cbn.
  intros out r' [(-> & Hr & Hc)|(how & b & -> & Hne & Hc & Hk)].
  - exists Announced, qhalf. auto 10.
  - exists how, b. split; [done|]. right. done.
Qed.

Lemma renew_round_healed fuel backoff r :
  usable (rg_store r) → was_registered r → outage (rg_store r) < fuel →
  wp (renew_round cfg stopped random fuel backoff) (healed r) never r.
Proof.
  intros Hu Hwas Hout. rw /renew_round. do 3 wp_step. destruct (_lease r) as [l|] eqn:Hl.
  - wp_step. rw /on_store. wp_step. eapply wp_mono; [by apply keepalive_law|..]; cbn.
    + intros [] st' (Hu' & Ho & Hp); [|by apply reannounce_healed]. exists Announced, qhalf. split; [done|]. left.
      split_and!; [done..| |by right]. exists l. split; [done|]. cbn. apply Hp; [done|]. by apply Hwas.
    + intros e st' (Hu' & -> & Ho). by apply reannounce_healed.
  - apply wp_ret. replace r with (set_store (rg_store r) r) at 2 by by destruct r. by apply reannounce_healed.
Qed.
End healing.

(** ** The client keeps the laws *)

(** The network and the servers behind it, and time. *)
Class EtcdServer (W : Type) := {
  exchange : list Z → json → W → attempt * W;
  elapse : Qc → W → W;
}.

(** What is true of them: keys held under live leases, leases, which endpoint answers, and
    how many waits until some endpoint does. *)
Class EtcdView (W : Type) := {
  w_present : W → list Z → list Z → list Z → Prop;
  w_bound : W → list Z → list Z → list Z → Prop;
  w_granted : W → list Z → Prop;
  w_reachable : W → list Z → bool;
  w_outage : W → nat;
}.

(** Requests do not change who answers. *)
Record steady `{EtcdView W} (w w' : W) : Prop := {
  sd_outage : w_outage w' = w_outage w;
  sd_reachable base : w_reachable w' base = w_reachable w base;
}.

#[export] Instance steady_preorder `{EtcdView W} : PreOrder steady.
Proof.
  split; [by split|]. intros w1 w2 w3 [H1 H2] [K1 K2]. split; [congruence|intros base; by rw K2].
Qed.

(** What etcd documents of the requests the registration sends: an endpoint that can be
    reached answers them, whole and in JSON; a grant brings a lease id, a put under a lease
    that can be used stores the key, a keepalive brings a TTL only if the lease was alive
    all along. *)
Class EtcdServerLaws (W : Type) `{Unicode, EtcdServer W, EtcdView W} (endpoints : list (list Z)) (json_loads : list Z → option json)
    (str_int : Z → list Z) (int_str : list Z → result Z) (paths : string → list Z) := {
  w_present_bound w k v l : w_present w k v l → w_bound w k v l;
  elapse_bound d w k v l : w_bound w k v l → w_bound (elapse d w) k v l;
  elapse_outage d w : w_outage (elapse d w) = pred (w_outage w);
  somebody_answers w : w_outage w = 0 → ∃ base, base ∈ endpoints ∧ w_reachable w base = true;
  grant_answer base ttl w : base ∈ endpoints →
    match exchange (base ++ paths "/v3/lease/grant"%string) (JObj [("TTL"%string, JStr (str_int ttl))]) w with
    | (Replied raw, w') => steady w w' ∧ ∃ fields l, parsed_reply json_loads raw = Ok (JObj fields) ∧
        dget "ID"%string fields = Some (JStr l) ∧ l ≠ [] ∧ l ≠ [48%Z] ∧ w_granted w' l
    | (Failed, w') => steady w w' ∧ w_reachable w base = false
    | (Broke _, _) => False
    end;
  put_answer base k v kb vb l w : base ∈ endpoints → _b64 k = Ok kb → _b64 v = Ok vb → w_granted w l →
    match exchange (base ++ paths "/v3/kv/put"%string)
            (JObj [("key"%string, JStr kb); ("value"%string, JStr vb); ("lease"%string, JStr l)]) w with
    | (Replied raw, w') => steady w w' ∧ w_present w' k v l ∧ ∃ fields, parsed_reply json_loads raw = Ok (JObj fields)
    | (Failed, w') => steady w w' ∧ w_granted w' l ∧ w_reachable w base = false
    | (Broke _, _) => False
    end;
  keepalive_answer base l w : base ∈ endpoints →
    match exchange (base ++ paths "/v3/lease/keepalive"%string) (JObj [("ID"%string, JStr l)]) w with
    | (Replied raw, w') => steady w w' ∧ ∃ fields, parsed_reply json_loads raw = Ok (JObj fields) ∧
        (dget "TTL"%string fields = None ∨ ∃ s n, dget "TTL"%string fields = Some (JStr s) ∧ int_str s = Ok n ∧
           ((0 < n)%Z → ∀ k v, w_bound w k v l → w_present w' k v l))
    | (Failed, w') => steady w w' ∧ (∀ k v, w_bound w k v l → w_bound w' k v l) ∧ w_reachable w base = false
    | (Broke _, _) => False
    end;
}.

(** Every place is reached by going round. *)
Lemma rounds_reach i n j : j < n → ∃ k, k < n ∧ (i + k) mod n = j.
Proof.
  intros Hj. exists ((j + (n - i mod n)) mod n). split; [apply Nat.mod_upper_bound; lia|].
  rw Nat.Div0.add_mod_idemp_r -Nat.Div0.add_mod_idemp_l.
  pose proof (Nat.mod_upper_bound i n ltac:(lia)). replace (i mod n + (j + (n - i mod n))) with (j + 1 * n) by lia.
  rw Nat.Div0.mod_add. by apply Nat.mod_small.
Qed.

Section client_laws.
Context {W : Type} `{HU : Unicode} `{HE : EtcdServer W} `{HV : EtcdView W}.
Context (endpoints : list (list Z)) (json_loads : list Z → option json).
Context (str_int : Z → list Z) (int_str : list Z → result Z) (paths : string → list Z).
Context {HL : EtcdServerLaws W endpoints json_loads str_int int_str paths}.
Implicit Types (c : EtcdClient W) (w : W).

(** The registration's store is the client. *)
Definition client_etcd : Etcd (EtcdClient W) json := {|
  etcd_grant := grant exchange json_loads str_int paths;
  etcd_put := put exchange json_loads str_int paths;
  etcd_keepalive := keepalive exchange json_loads str_int int_str paths;
  etcd_revoke := revoke exchange json_loads str_int paths;
  etcd_wait d c := mkClient (_endpoints c) (_i c) (elapse d (world c));
|}.

(** A request every endpoint answers, or fails to when it cannot be reached. *)
Definition answers (path : list Z) (body : json) (Inv : W → Prop) (Good : json → W → Prop) : Prop :=
  ∀ base w1, base ∈ endpoints → Inv w1 →
    match exchange (base ++ path) body w1 with
    | (Replied raw, w2) => steady w1 w2 ∧ ∃ j, parsed_reply json_loads raw = Ok j ∧ Good j w2
    | (Failed, w2) => steady w1 w2 ∧ Inv w2 ∧ w_reachable w1 base = false
    | (Broke _, _) => False
    end.

Lemma asked_steady path body Inv Good c k : _endpoints c = endpoints → endpoints ≠ [] → answers path body Inv Good → Inv (world c) →
  (∀ k', k' < k → outcome exchange path body c k' = Failed) →
  steady (world c) (world_at exchange path body c k) ∧ Inv (world_at exchange path body c k).
Proof.
  intros He Hne Ha Hinv. induction k as [|k IH]; intros Hf; [done|].
  destruct IH as [IH Hi]; [intros k' Hk'; apply Hf; lia|].
  pose proof (Hf k ltac:(lia)) as Hk. rw /outcome in Hk. cbn [world_at].
  destruct (place_url path c k) as (base & Hb & Hu); [rw He; destruct endpoints; [done|cbn; lia]|]. rw Hu in Hk |- *.
  pose proof (Ha base (world_at exchange path body c k)) as Hb'. rw He in Hb. apply list_elem_of_lookup_2 in Hb.
  specialize (Hb' Hb Hi). destruct (exchange _ _ _) as [[]]; cbn in *; try done. destruct Hb' as (? & ? & _).
  split; [by etrans|done].
Qed.

Lemma post_answered path body Inv Good c : _endpoints c = endpoints → endpoints ≠ [] → answers path body Inv Good → Inv (world c) →
  wp (_post exchange json_loads path body)
     (λ j c', _endpoints c' = endpoints ∧ steady (world c) (world c') ∧ Good j (world c'))
     (λ e c', e = EtcdError ∧ _endpoints c' = endpoints ∧ steady (world c) (world c') ∧ 0 < w_outage (world c)) c.
Proof.
  intros He Hne Ha Hinv. rw /wp. destruct (post_rotates exchange json_loads path body c) as [[Hf ->]|(k & Hk & Hf & Hok & ->)]; [by rw He|..].
  - rw He in Hf |- *. split_and!; [done|done|exact (proj1 (asked_steady path body Inv Good c _ He Hne Ha Hinv Hf))|].
    destruct (w_outage (world c)) eqn:Ho; [|lia]. exfalso. destruct (somebody_answers _ Ho) as (base & Hb & Hr).
    apply list_elem_of_lookup in Hb as [j Hj]. pose proof (lookup_lt_Some _ _ _ Hj) as Hlt.
    destruct (rounds_reach (_i c) (length endpoints) j Hlt) as (k & Hk & Hkj).
    destruct (asked_steady path body Inv Good c k He Hne Ha Hinv) as [Hst Hi]; [intros k' Hk'; apply Hf; lia|].
    pose proof (Hf k Hk) as Hfk. rw /outcome /url /place He Hkj Hj /= in Hfk.
    pose proof (Ha base _ (list_elem_of_lookup_2 _ _ _ Hj) Hi) as Hbad. destruct (exchange _ _ _) as [[]]; cbn in *; try done.
    destruct Hbad as (_ & _ & Hbad). by rw (sd_reachable _ _ Hst) Hr in Hbad.
  - destruct (asked_steady path body Inv Good c k He Hne Ha Hinv Hf) as [Hst Hi].
    destruct (place_url path c k) as (base & Hb & Hu); [lia|]. rw He in Hb.
    pose proof (Ha base _ (list_elem_of_lookup_2 _ _ _ Hb) Hi) as Hbase.
    rw /answered /outcome in Hok |- *. cbn [world_at]. rw Hu in Hok |- *.
    destruct (exchange _ _ _) as [[raw| |e] w2]; cbn [fst snd] in *; [|done|done].
    destruct Hbase as [Hs2 (j & -> & Hg)]. cbn. rw He. split_and!; [done|by etrans|done].
Qed.

#[local] Abbreviation lease_id := (str_json str_int).

Lemma grant_client ttl c : _endpoints c = endpoints → endpoints ≠ [] →
  wp (grant exchange json_loads str_int paths ttl)
     (λ l c', _endpoints c' = endpoints ∧ w_granted (world c') (lease_id l) ∧ w_outage (world c') = w_outage (world c))
     (λ e c', _endpoints c' = endpoints ∧ e = EtcdError ∧ w_outage (world c') = w_outage (world c) ∧ 0 < w_outage (world c)) c.
Proof.
  intros He Hne. rw /grant. wp_step.
  eapply wp_mono; [eapply (post_answered _ _ (λ _, True) (λ j w', ∃ fields l, j = JObj fields ∧
    dget "ID"%string fields = Some (JStr l) ∧ l ≠ [] ∧ l ≠ [48%Z] ∧ w_granted w' l)); [done|done| |done]|..].
  - intros base w1 Hb _. pose proof (grant_answer base ttl w1 Hb) as Hg. destruct (exchange _ _ w1) as [[raw| |e] w2]; [|naive_solver|done].
    destruct Hg as (Hs & fields & l & Hp & Hid & H1 & H2 & H3). split; [done|]. exists (JObj fields). split; [done|]. by exists fields, l.
  - intros j c' (He' & Hs1 & fields & l & -> & Hid & H1 & H2 & H3). wp_step. rw /wp /lift_result /jget Hid.
    rw /falsy !bool_decide_false //. cbn. split_and!; [done|done|by apply sd_outage].
  - intros e c' (-> & He' & Hs & Hpos). split_and!; [done|done|by apply sd_outage|done].
Qed.

Lemma put_client k v l c : _endpoints c = endpoints → endpoints ≠ [] → forallb scalar k = true → forallb scalar v = true →
  w_granted (world c) (lease_id l) →
  wp (put exchange json_loads str_int paths k v (Some l))
     (λ _ c', _endpoints c' = endpoints ∧ w_outage (world c') = w_outage (world c) ∧ w_present (world c') k v (lease_id l))
     (λ e c', _endpoints c' = endpoints ∧ e = EtcdError ∧ w_outage (world c') = w_outage (world c) ∧ 0 < w_outage (world c)) c.
Proof.
  intros He Hne Hk Hv Hgr. rw /put /_b64 !utf8_encode_ok //. do 2 (wp_step; rw {1}/wp /lift_result). cbn zeta iota. wp_step.
  eapply wp_mono; [eapply (post_answered _ _ (λ w, w_granted w (lease_id l)) (λ _ w', w_present w' k v (lease_id l))); [done|done| |done]|..].
  - intros base w1 Hb Hi. cbn [app]. pose proof (put_answer base k v (b64encode (k ≫= utf8_char)) (b64encode (v ≫= utf8_char)) (lease_id l) w1 Hb) as Hp.
    rw /_b64 !utf8_encode_ok // in Hp. specialize (Hp eq_refl eq_refl Hi). destruct (exchange _ _ w1) as [[raw| |e] w2]; [|done|done].
    destruct Hp as (Hs & Hp & fields & Hf). split; [done|]. by eexists.
  - intros j c' (He' & Hs1 & Hg). wp_step. split_and!; [done|by apply sd_outage|done].
  - intros e c' (-> & He' & Hs & Hpos). split_and!; [done|done|by apply sd_outage|done].
Qed.

Lemma keepalive_client l c : _endpoints c = endpoints → endpoints ≠ [] →
  wp (keepalive exchange json_loads str_int int_str paths l)
     (λ alive c', _endpoints c' = endpoints ∧ w_outage (world c') = w_outage (world c) ∧
        (alive = true → ∀ k v, w_bound (world c) k v (lease_id l) → w_present (world c') k v (lease_id l)))
     (λ e c', _endpoints c' = endpoints ∧ e = EtcdError ∧ w_outage (world c') = w_outage (world c)) c.
Proof.
  intros He Hne. rw /keepalive. wp_step.
  eapply wp_mono; [eapply (post_answered _ _ (λ w, ∀ k v, w_bound (world c) k v (lease_id l) → w_bound w k v (lease_id l))
    (λ j w2, ∃ fields, j = JObj fields ∧
    (dget "TTL"%string fields = None ∨ ∃ s n, dget "TTL"%string fields = Some (JStr s) ∧ int_str s = Ok n ∧
       ((0 < n)%Z → ∀ k v, w_bound (world c) k v (lease_id l) → w_present w2 k v (lease_id l))))); [done|done| |done]|..].
  - intros base w1 Hb Hi. pose proof (keepalive_answer base (lease_id l) w1 Hb) as Hg. destruct (exchange _ _ w1) as [[raw| |e] w2]; [|naive_solver|done].
    destruct Hg as (Hs & fields & Hp & Hor). split; [done|]. exists (JObj fields). split; [done|]. exists fields. split; [done|].
    destruct Hor as [?|(s & n & ? & ? & ?)]; [by left|right; exists s, n; naive_solver].
  - intros j c' (He' & Hs1 & fields & -> & Hor). wp_step. rw {1}/wp /lift_result /jget.
    assert (w_outage (world c') = w_outage (world c)) as Ho by by apply sd_outage.
    destruct Hor as [->|(s & n & -> & Hn & Hpos)]; cbn [default from_option Datatypes.id].
    + wp_step. rw /wp. cbn. done.
    + wp_step. rw {1}/wp /lift_result /= Hn. wp_step. split_and!; [done|done|]. intros H0%Z.ltb_lt k v Hb. by apply Hpos.
  - intros e c' (-> & He' & Hs & Hpos). split_and!; [done|done|by apply sd_outage].
Qed.

Lemma some_endpoint w : endpoints ≠ [].
Proof.
  intros He. assert (∀ n w, w_outage w = n → False) as Hno; [|exact (Hno _ w eq_refl)].
  induction n as [|n IH]; intros w1 Ho.
  - destruct (somebody_answers w1 Ho) as (base & Hb & _). rw He in Hb. set_solver.
  - apply (IH (elapse 0%Qc w1)). by rw elapse_outage Ho.
Qed.

Program Definition client_laws : @EtcdLaws (EtcdClient W) json client_etcd :=
  {| usable c := _endpoints c = endpoints;
     present c k v l := w_present (world c) k v (lease_id l);
     bound c k v l := w_bound (world c) k v (lease_id l);
     granted c l := w_granted (world c) (lease_id l);
     outage c := w_outage (world c) |}.
Next Obligation. intros c k v l. apply w_present_bound. Qed.
Next Obligation. done. Qed.
Next Obligation. intros d c k v l. apply elapse_bound. Qed.
Next Obligation. intros d c. apply elapse_outage. Qed.
Next Obligation. intros l c He. apply keepalive_client; [done|exact (some_endpoint (world c))]. Qed.
Next Obligation. intros ttl c He. apply grant_client; [done|exact (some_endpoint (world c))]. Qed.
Next Obligation. intros k v l c He Hk Hv Hg. by apply put_client; [|exact (some_endpoint (world c))|..]. Qed.
End client_laws.

(** C31: a registration heals itself, through the client it uses.  Let the servers behave
    as etcd documents: requests fail with a connection, time-out or HTTP error, or bring a
    whole reply in etcd's JSON.  Then, however the keepalive ends - renewed, lease gone, no
    endpoint reachable - the round does not raise, and unless it is stopped it ends with
    the replica's key in etcd under the lease the replica will renew next: the old lease
    if it was still alive, a new one (counted as a re-announcement) otherwise.  One try
    more than the waits the outage lasts is enough, whichever of the endpoints comes back.
    A reply that is cut off or is not etcd's ends the thread ([cut_reply_ends_renewal]). *)
Theorem renew_heals {W} `{Unicode, EtcdServer W, EtcdView W} endpoints json_loads str_int int_str paths
    {HL : EtcdServerLaws W endpoints json_loads str_int int_str paths}
    cfg stopped random fuel backoff (r : @Reg (EtcdClient W) json) :
  let store := client_etcd json_loads str_int int_str paths in
  let under (held : W → list Z → list Z → list Z → Prop) (r : @Reg (EtcdClient W) json) (l : json) :=
    held (world (rg_store r)) (_key cfg) (rc_addr cfg) (str_json str_int l) in
  forallb scalar (rc_replica_id cfg) = true → forallb scalar (rc_addr cfg) = true →
  _endpoints (rg_store r) = endpoints → (∀ l, _lease r = Some l → under w_bound r l) →
  w_outage (world (rg_store r)) < fuel →
  ∃ how b r', renew_round (H := store) cfg stopped random fuel backoff r = (Ok (Some (how, b)), r') ∧
    ((how = Announced ∧ b = qhalf ∧ (∃ l, _lease r' = Some l ∧ under w_present r' l) ∧
      (reannounce_count r' = S (reannounce_count r) ∨
       reannounce_count r' = reannounce_count r ∧ _lease r' = _lease r)) ∨
     (how ≠ Announced ∧ ∃ k, rg_looks r ≤ k < rg_looks r' ∧ stopped k = true)).
Proof.
  intros store under Hid Haddr He Hwas Hout.
  pose proof (renew_round_healed (H0 := client_laws endpoints json_loads str_int int_str paths) cfg stopped random Hid Haddr fuel backoff r He Hwas Hout) as Hw.
  apply wp_never in Hw as (out & r' & Heq & how & b & -> & Hr). eauto.
Qed.

(** Two endpoints, of which the first is gone for good; leases expire while the second is
    down, and everything fails. *)
Module ToyEtcd.
Record servers := mkServers {
  kv : list (list Z * (list Z * list Z));
  live : list (list Z);
  next : nat;
  down : nat;
}.

Definition endpoints : list (list Z) := [[97]; [98]]%Z.
Definition paths (s : string) : list Z :=
  if bool_decide (s = "/v3/lease/grant"%string) then [103%Z]
  else if bool_decide (s = "/v3/kv/put"%string) then [112%Z]
  else if bool_decide (s = "/v3/lease/keepalive"%string) then [107%Z] else [120%Z].

Definition answer (path : list Z) (body : json) (w : servers) : attempt * servers :=
  if bool_decide (path = [103%Z]) then
    (Replied [73; 100 + Z.of_nat (next w); 73]%Z, mkServers (kv w) ([100 + Z.of_nat (next w)]%Z :: live w) (S (next w)) (down w))
  else if bool_decide (path = [112%Z]) then
    match body with
    | JObj [(_, JStr k); (_, JStr v); (_, JStr l)] =>
        if bool_decide (l ∈ live w) then (Replied [75%Z], mkServers (dset k (v, l) (kv w)) (live w) (next w) (down w)) else (Failed, w)
    | _ => (Failed, w)
    end
  else
    match body with
    | JObj [(_, JStr l)] => (Replied (if bool_decide (l ∈ live w) then [84; 49; 84] else [84; 84])%Z, w)
    | _ => (Failed, w)
    end.
Definition reached (url : list Z) : option (list Z) :=
  match url with c :: path => if (c =? 98)%Z then Some path else None | [] => None end.

#[global] Instance toy_server : EtcdServer servers := {
  exchange url body w := if down w =? 0 then match reached url with Some path => answer path body w | None => (Failed, w) end else (Failed, w);
  elapse d w := mkServers (kv w) (if down w =? 0 then live w else []) (next w) (pred (down w));
}.

Definition loads (raw : list Z) : option json :=
  Some match raw with
       | c :: x :: rest =>
           if (c =? 73)%Z then JObj [("ID"%string, JStr [x])]
           else JObj [("result"%string, JObj (match rest with [] => [] | _ => [("TTL"%string, JStr [x])] end))]
       | _ => JObj []
       end.
Definition str_int (z : Z) : list Z := [(48 + z)%Z].
Definition int_str (s : list Z) : result Z := match s with [c] => Ok (c - 48)%Z | _ => Raise ValueError end.

Definition stored (w : servers) (k v l : list Z) : Prop :=
  ∃ kb vb, _b64 k = Ok kb ∧ _b64 v = Ok vb ∧ dget kb (kv w) = Some (vb, l).

#[global] Instance toy_view : EtcdView servers := {
  w_present w k v l := l ∈ live w ∧ stored w k v l;
  w_bound w k v l := l ∈ live w → stored w k v l;
  w_granted w l := l ∈ live w;
  w_reachable w base := bool_decide (base = [98%Z]) && (down w =? 0);
  w_outage := down;
}.

Lemma parsed_grant x : x ≠ 10%Z → parsed_reply loads [73%Z; x; 73%Z] = Ok (JObj [("ID"%string, JStr [x])]).
Proof. intros Hx. apply Z.eqb_neq in Hx. rw /parsed_reply /first_line. cbn. by rw Hx. Qed.

Lemma base_cases base : base ∈ endpoints → base = [97%Z] ∨ base = [98%Z].
Proof. rw /endpoints. set_solver. Qed.

#[global] Instance toy_laws : EtcdServerLaws servers endpoints loads str_int int_str paths.
Proof.
  split.
  - naive_solver.
  - intros d w k v l Hb. cbn. destruct (down w =? 0); [done|set_solver].
  - done.
  - intros w Ho. exists [98%Z]. cbn in *. rw Ho /endpoints. split; [set_solver|done].
  - intros base ttl w Hb. cbn. destruct (down w =? 0) eqn:Hd; [|by rw andb_false_r].
    destruct (base_cases base Hb) as [-> | ->]; cbn; [done|]. split; [done|].
    eexists _, _. split; [apply parsed_grant; lia|]. split_and!; [done|done| |by left]. injection 1. lia.
  - intros base k v kb vb l w Hb Hk Hv Hl. cbn [exchange toy_server w_reachable toy_view]. destruct (down w =? 0) eqn:Hd; [|by rw andb_false_r].
    destruct (base_cases base Hb) as [-> | ->]; [done|]. rw /reached /answer. cbn [app Z.eqb Pos.eqb].
    rw (bool_decide_true (l ∈ live w)) //. split; [done|]. split.
    + split; [done|]. exists kb, vb. by rw dget_dset_eq.
    + by eexists.
  - intros base l w Hb. cbn [exchange toy_server w_reachable toy_view]. destruct (down w =? 0) eqn:Hd; [|by rw andb_false_r].
    destruct (base_cases base Hb) as [-> | ->]; [done|]. rw /reached /answer. cbn [app Z.eqb Pos.eqb].
    destruct (decide (l ∈ live w)) as [Hl|Hl]; [rw (bool_decide_true (l ∈ live w)) //|rw (bool_decide_false (l ∈ live w)) //]; (split; [done|]).
    + exists [("TTL"%string, JStr [49%Z])]. split; [done|]. right. exists [49%Z], 1%Z. split_and!; [done|done|]. intros _ k v Hbd. split; [done|by apply Hbd].
    + exists []. split; [done|]. by left.
Qed.

(** The second endpoint has just gone down for two waits, which cost the lease. *)
Definition lost_lease : @Reg (EtcdClient servers) json :=
  mkReg (mkClient endpoints 0 (mkServers [] [] 1 2)) (Some (JStr [100%Z])) 0 0.
End ToyEtcd.

#[local] Abbreviation toy_round server fuel r :=
  (renew_round (H := client_etcd (HE := server) ToyEtcd.loads ToyEtcd.str_int ToyEtcd.int_str ToyEtcd.paths)
     (mkRegConfig [49]%Z [58]%Z 10) (λ _, false) (λ _, qhalf) fuel qhalf r).

Lemma renew_heals_witness :
  ∃ r' l, toy_round ToyEtcd.toy_server 3 ToyEtcd.lost_lease = (Ok (Some (Announced, qhalf)), r') ∧
    _lease r' = Some l ∧ w_present (world (rg_store r')) (_key (mkRegConfig [49]%Z [58]%Z 10)) [58%Z] (str_json ToyEtcd.str_int l) ∧
    reannounce_count r' = 1.
Proof.
  destruct (renew_heals ToyEtcd.endpoints ToyEtcd.loads ToyEtcd.str_int ToyEtcd.int_str ToyEtcd.paths
      (mkRegConfig [49]%Z [58]%Z 10) (λ _, false) (λ _, qhalf) 3 qhalf ToyEtcd.lost_lease)
    as (how & b & r' & Hrun & [(-> & -> & (l & Hl & Hp) & Hc)|(_ & k & _ & Hk)]).
  - reflexivity.
  - reflexivity.
  - reflexivity.
  - intros l Hl Hin. cbn in Hin. set_solver.
  - vm_compute. lia.
  - exists r', l. split; [exact Hrun|]. split; [exact Hl|]. split; [exact Hp|].
    destruct Hc as [Hc|[Hc _]]; [exact Hc|].
    assert (reannounce_count r' = reannounce_count (snd (toy_round ToyEtcd.toy_server 3 ToyEtcd.lost_lease))) as -> by by rw Hrun.
    vm_compute. reflexivity.
  - discriminate.
Defined.

(** A server whose replies are cut off: the exception is not one [_post] expects, nor one
    the renewal thread does, which ends with it while the replica goes on serving. *)
Definition cutting : EtcdServer ToyEtcd.servers := {|
  exchange url body w := (Broke HTTPException, w);
  elapse d w := w;
|}.
Example cut_reply_ends_renewal : (toy_round cutting 3 ToyEtcd.lost_lease).1 = Raise HTTPException.
Proof. reflexivity. Qed.
