(* ===== verification/Lifecycle.v ===== *)
(** * The life of a replica process (engine/replica.py [serve], engine/discovery.py
    [ReplicaRegistration], engine/server.py [AsyncEngine.start/stop])

    [serve] loads a model, starts the engine task, listens, registers in etcd, and undoes
    all of it when it is told to end.  Three threads of control share the state: the
    coroutine [serve] itself, the engine task and the RPC handlers on the same event loop,
    and the thread that renews the registration; [registration.stop] runs on a fourth.
    Each takes its operations one at a time and anything may happen in between.  What
    becomes of a request to etcd, and which library calls fail, are chosen from outside. *)

From Stdlib Require Import ssreflect QArith Qcanon.
From stdpp Require Import prelude list.
From S2P Require Import Prelude Rationals Text Tokenizer.
#[local] Open Scope nat_scope.

(** What becomes of a request: it is answered; it never arrives; it is carried out but the
    answer is lost.  The client raises [EtcdError] in the last two cases. *)
Inductive fate := Answered | NotSent | NoAnswer.

(** What the registration uses of etcd: the live lease this replica's key is attached to,
    the time, and the effect of a request. *)
Class Registry (St Lease : Type) := {
  holder : St → option Lease;
  reg_time : St → Qc;
  reg_grant : Z → St → option Lease * St;
  reg_put : Lease → St → bool * St;             (* whether the lease was found *)
  reg_keepalive : Lease → St → bool * St;       (* whether there is time left on it *)
  reg_revoke : Lease → St → bool * St;
  reg_pass : Qc → St → St;
}.

(** etcd's documented behaviour.  A key is deleted with the lease it is attached to; a
    lease lasts [ttl] beyond its last renewal; putting a key attaches it to the lease
    given and to no other.  Requests are carried out at one moment; the time they take
    passes before them. *)
Class RegistryLaws (St Lease : Type) `{Registry St Lease} (ttl : Z) := {
  grant_holder s : holder (reg_grant ttl s).2 = holder s;
  put_holder l s : holder (reg_put l s).2 = if (reg_put l s).1 then Some l else holder s;
  keepalive_holder l s : holder (reg_keepalive l s).2 = holder s;
  revoke_holder l s : holder (reg_revoke l s).2 ≠ Some l ∧
    (holder (reg_revoke l s).2 = holder s ∨ holder (reg_revoke l s).2 = None);
  pass_holder d s : holder (reg_pass d s) = holder s ∨ holder (reg_pass d s) = None;
  grant_time s : reg_time (reg_grant ttl s).2 = reg_time s;
  put_time l s : reg_time (reg_put l s).2 = reg_time s;
  keepalive_time l s : reg_time (reg_keepalive l s).2 = reg_time s;
  revoke_time l s : reg_time (reg_revoke l s).2 = reg_time s;
  pass_time d s : reg_time (reg_pass d s) = (reg_time s + d)%Qc;
  lapses : St → Qc;
  lapses_soon s : is_Some (holder s) → (reg_time s < lapses s ∧ lapses s <= reg_time s + qc_of_Z ttl)%Qc;
  pass_lapses d s : is_Some (holder (reg_pass d s)) → lapses (reg_pass d s) = lapses s;
}.

(** ** The registration *)

Section lifecycle.
Context {St Lease : Type} `{Registry St Lease}.

(** Where [_renew_forever] stands: in its long wait, sending a keepalive, at the top of
    the retry loop, in [_announce] before its three operations, waiting to retry. *)
Inductive thread :=
  | NotRunning | Waiting | Renewing | Looking
  | Granting | Putting (l : Lease) | Storing (l : Lease)
  | Backing | Ended.

(** Where the caller stands: [start], with [_announce] inside, and [stop]. *)
Inductive caller :=
  | NoReg
  | StartGrant | StartPut (l : Lease) | StartStore (l : Lease) | StartThread | StartFailed
  | Registered
  | StopSet | StopJoin (since : Qc) | StopRevoke | StopSend (l : Lease) (since : Qc) | StopClear | Withdrawn.

(** The object, where its two users stand, and etcd.  The last three fields record what
    the theorems speak of: a put took effect although the client was told otherwise,
    the revocation went unanswered, and the thread was not waited for to the end. *)
Record Reg := mkReg {
  r_caller : caller;
  r_thread : thread;
  r_stop : bool;
  r_lease : option Lease;
  r_reannounced : nat;
  r_etcd : St;
  r_doubt : bool;
  r_unrevoked : bool;
  r_abandoned : bool;
}.

Definition at_caller (c : caller) (r : Reg) : Reg :=
  mkReg c (r_thread r) (r_stop r) (r_lease r) (r_reannounced r) (r_etcd r) (r_doubt r) (r_unrevoked r) (r_abandoned r).
Definition at_thread (t : thread) (r : Reg) : Reg :=
  mkReg (r_caller r) t (r_stop r) (r_lease r) (r_reannounced r) (r_etcd r) (r_doubt r) (r_unrevoked r) (r_abandoned r).
Definition set_stop (r : Reg) : Reg :=
  mkReg (r_caller r) (r_thread r) true (r_lease r) (r_reannounced r) (r_etcd r) (r_doubt r) (r_unrevoked r) (r_abandoned r).
Definition set_lease (l : option Lease) (r : Reg) : Reg :=
  mkReg (r_caller r) (r_thread r) (r_stop r) l (r_reannounced r) (r_etcd r) (r_doubt r) (r_unrevoked r) (r_abandoned r).
Definition count_reannounced (r : Reg) : Reg :=
  mkReg (r_caller r) (r_thread r) (r_stop r) (r_lease r) (S (r_reannounced r)) (r_etcd r) (r_doubt r) (r_unrevoked r) (r_abandoned r).
Definition set_etcd (s : St) (r : Reg) : Reg :=
  mkReg (r_caller r) (r_thread r) (r_stop r) (r_lease r) (r_reannounced r) s (r_doubt r) (r_unrevoked r) (r_abandoned r).
Definition set_doubt (b : bool) (r : Reg) : Reg :=
  mkReg (r_caller r) (r_thread r) (r_stop r) (r_lease r) (r_reannounced r) (r_etcd r) b (r_unrevoked r) (r_abandoned r).
Definition set_unrevoked (b : bool) (r : Reg) : Reg :=
  mkReg (r_caller r) (r_thread r) (r_stop r) (r_lease r) (r_reannounced r) (r_etcd r) (r_doubt r) b (r_abandoned r).
Definition set_abandoned (b : bool) (r : Reg) : Reg :=
  mkReg (r_caller r) (r_thread r) (r_stop r) (r_lease r) (r_reannounced r) (r_etcd r) (r_doubt r) (r_unrevoked r) b.

(** A request with its fate; [None] is [EtcdError]. *)
Definition request {A} (f : fate) (m : St → A * St) (r : Reg) : option A * Reg :=
  let (a, s) := m (r_etcd r) in
  match f with
  | Answered => (Some a, set_etcd s r)
  | NotSent => (None, r)
  | NoAnswer => (None, set_etcd s r)
  end.

Context (ttl : Z).

(** The requests of [_announce]: [grant], refused or not, and [put]. *)
Definition ask_grant (f : fate) (r : Reg) : option Lease * Reg :=
  let (o, r) := request f (reg_grant ttl) r in (mjoin o, r).
Definition ask_put (f : fate) (l : Lease) (r : Reg) : bool * Reg :=
  let done := (reg_put l (r_etcd r)).1 in
  let (o, r) := request f (reg_put l) r in
  match o with
  | Some true => (true, set_doubt false r)
  | _ => (false, if done then match f with NoAnswer => set_doubt true r | _ => r end else r)
  end.

(** The next operation of [_renew_forever]. *)
Definition thread_next (f : fate) (r : Reg) : option Reg :=
  match r_thread r with
  | NotRunning | Ended => None
  | Waiting => Some (at_thread (if r_stop r then Ended else Renewing) r)
  | Renewing =>
      match r_lease r with
      | None => Some (at_thread Looking r)
      | Some l => let (alive, r) := request f (reg_keepalive l) r in
                  Some (at_thread (if default false alive then Waiting else Looking) r)
      end
  | Looking => Some (at_thread (if r_stop r then Waiting else Granting) r)
  | Granting => let (o, r) := ask_grant f r in
                Some (at_thread (match o with Some l => Putting l | None => Backing end) r)
  | Putting l => let (ok, r) := ask_put f l r in Some (at_thread (if ok then Storing l else Backing) r)
  | Storing l => Some (at_thread Waiting (count_reannounced (set_lease (Some l) r)))
  | Backing => Some (at_thread (if r_stop r then Ended else Looking) r)
  end.

Definition join_timeout : Qc := qc_of_Z 5.
Definition ended (t : thread) : bool := match t with Ended => true | _ => false end.

(** A request that has not ended when the last of [n] endpoints is given up: each is given
    [timeout] seconds.  It may have been carried out. *)
Definition request_timeout (n : nat) : Qc := qc_of_Z (5 * Z.of_nat n).
Definition timed_out (f : fate) : fate := match f with Answered => NoAnswer | f => f end.

(** The next operation of [start] or [stop], with [n] endpoints; [ok] says whether the
    revocation has ended by now.  [None] while [join] or the revocation waits. *)
Definition caller_next (n : nat) (ok : bool) (f : fate) (r : Reg) : option Reg :=
  match r_caller r with
  | NoReg | StartFailed | Registered | Withdrawn => None
  | StartGrant => let (o, r) := ask_grant f r in
                  Some (at_caller (match o with Some l => StartPut l | None => StartFailed end) r)
  | StartPut l => let (ok, r) := ask_put f l r in Some (at_caller (if ok then StartStore l else StartFailed) r)
  | StartStore l => Some (at_caller StartThread (set_lease (Some l) r))
  | StartThread => Some (at_caller Registered (at_thread Waiting r))
  | StopSet => Some (at_caller (StopJoin (reg_time (r_etcd r))) (set_stop r))
  | StopJoin since =>
      if ended (r_thread r) then Some (at_caller StopRevoke r)
      else if bool_decide (since + join_timeout <= reg_time (r_etcd r))%Qc
      then Some (at_caller StopRevoke (set_abandoned true r))
      else None
  | StopRevoke => Some (at_caller (match r_lease r with Some l => StopSend l (reg_time (r_etcd r)) | None => Withdrawn end) r)
  | StopSend l since =>
      if ok || bool_decide (since + request_timeout n <= reg_time (r_etcd r))%Qc then
        let (o, r) := request (if ok then f else timed_out f) (reg_revoke l) r in
        Some (at_caller StopClear (match o with Some _ => r | None => set_unrevoked true r end))
      else None
  | StopClear => Some (at_caller Withdrawn (set_lease None r))
  end.

(** ** The process *)

(** Where [serve] stands, in the order of its lines; [Dead] is the process gone. *)
Inductive phase :=
  | Building | Starting | Registering | Serving
  | Finally | Deregistering | StoppingServer | Grace | StoppingEngine | JoiningEngine
  | Returned | Raised | Dead.

#[global] Instance phase_eq_dec : EqDecision phase.
Proof. solve_decision. Defined.

(** The task that runs [AsyncEngine._run]. *)
Inductive task := NoTask | Running | TaskEnded | TaskFailed.

Record Proc := mkProc {
  p_phase : phase;
  p_cancel : bool;         (* the coroutine was asked to end *)
  p_task : task;
  p_ae_stop : bool;
  p_listening : bool;
  p_draining : bool;
  p_calls : nat;           (* calls of Generate in progress *)
  p_since : Qc;            (* when the current wait began *)
  p_reg : Reg;
}.

Definition at_phase (ph : phase) (p : Proc) : Proc :=
  mkProc ph (p_cancel p) (p_task p) (p_ae_stop p) (p_listening p) (p_draining p) (p_calls p) (p_since p) (p_reg p).
Definition set_cancel (p : Proc) : Proc :=
  mkProc (p_phase p) true (p_task p) (p_ae_stop p) (p_listening p) (p_draining p) (p_calls p) (p_since p) (p_reg p).
Definition set_task (t : task) (p : Proc) : Proc :=
  mkProc (p_phase p) (p_cancel p) t (p_ae_stop p) (p_listening p) (p_draining p) (p_calls p) (p_since p) (p_reg p).
Definition set_ae_stop (b : bool) (p : Proc) : Proc :=
  mkProc (p_phase p) (p_cancel p) (p_task p) b (p_listening p) (p_draining p) (p_calls p) (p_since p) (p_reg p).
Definition set_listening (b : bool) (p : Proc) : Proc :=
  mkProc (p_phase p) (p_cancel p) (p_task p) (p_ae_stop p) b (p_draining p) (p_calls p) (p_since p) (p_reg p).
Definition set_draining (p : Proc) : Proc :=
  mkProc (p_phase p) (p_cancel p) (p_task p) (p_ae_stop p) (p_listening p) true (p_calls p) (p_since p) (p_reg p).
Definition set_calls (n : nat) (p : Proc) : Proc :=
  mkProc (p_phase p) (p_cancel p) (p_task p) (p_ae_stop p) (p_listening p) (p_draining p) n (p_since p) (p_reg p).
Definition set_since (t : Qc) (p : Proc) : Proc :=
  mkProc (p_phase p) (p_cancel p) (p_task p) (p_ae_stop p) (p_listening p) (p_draining p) (p_calls p) t (p_reg p).
Definition set_reg (r : Reg) (p : Proc) : Proc :=
  mkProc (p_phase p) (p_cancel p) (p_task p) (p_ae_stop p) (p_listening p) (p_draining p) (p_calls p) (p_since p) r.

Definition proc_time (p : Proc) : Qc := reg_time (r_etcd (p_reg p)).
Definition grace : Qc := qc_of_Z 10.
Definition stop_timeout : Qc := qc_of_Z 10.

(** The process ends, and its daemon thread with it. *)
Definition die (p : Proc) : Proc :=
  at_phase Dead (set_listening false (set_task NoTask (set_calls 0 (set_reg (at_thread Ended (p_reg p)) p)))).

(** [AsyncEngine.start], and the first half of [AsyncEngine.stop]. *)
Definition ae_start (p : Proc) : Proc := set_task Running (set_ae_stop false p).
Definition ae_stop_begin (p : Proc) : Proc := set_since (proc_time p) (set_ae_stop true p).

Section serve.
Context `{Unicode} (etcd : list Z).

(** [[e for e in etcd.split(",") if e.strip()]]. *)
Definition endpoints : list (list Z) := filter (λ e, strip is_space e ≠ []) (str_split [44]%Z etcd).

(** What follows [server.start]: [if etcd: ...], where a client without endpoints raises. *)
Definition begin_registration (p : Proc) : Proc :=
  match etcd with
  | [] => at_phase Serving p
  | _ => match endpoints with
         | [] => at_phase Raised p
         | _ => at_phase Registering (set_reg (at_caller StartGrant (p_reg p)) p)
         end
  end.

(** The next operation of [serve]; [ok] says whether a library call that can fail succeeds,
    and whether a revocation under way has ended.  [None] while it waits. *)
Definition main_next (ok : bool) (f : fate) (p : Proc) : option Proc :=
  match p_phase p with
  | Building => Some (if ok then at_phase Starting (ae_start p) else at_phase Raised p)
  | Starting => Some (if ok && negb (p_cancel p) then begin_registration (set_listening true p) else at_phase Raised p)
  | Registering =>
      match r_caller (p_reg p) with
      | Registered => Some (at_phase Serving p)
      | StartFailed => Some (at_phase Raised p)
      | _ => r ← caller_next (length endpoints) ok f (p_reg p); Some (set_reg r p)
      end
  | Serving => if p_cancel p then Some (at_phase Finally p) else None
  | Finally =>
      let p := set_draining p in
      Some (match r_caller (p_reg p) with
            | NoReg => at_phase StoppingServer p
            | _ => at_phase Deregistering (set_reg (at_caller StopSet (p_reg p)) p)
            end)
  | Deregistering =>
      match r_caller (p_reg p) with
      | Withdrawn => Some (at_phase StoppingServer p)
      | _ => r ← caller_next (length endpoints) ok f (p_reg p); Some (set_reg r p)
      end
  | StoppingServer => Some (at_phase Grace (set_since (proc_time p) (set_listening false p)))
  | Grace =>
      if bool_decide (p_calls p = 0) || bool_decide (p_since p + grace <= proc_time p)%Qc
      then Some (at_phase StoppingEngine (set_calls 0 p)) else None
  | StoppingEngine => Some (at_phase JoiningEngine (ae_stop_begin p))
  | JoiningEngine =>
      match p_task p with
      | TaskEnded => Some (at_phase Returned (set_task NoTask p))
      | TaskFailed => Some (at_phase Raised p)
      | _ => if bool_decide (p_since p + stop_timeout <= proc_time p)%Qc
             then Some (at_phase Raised (set_task TaskEnded p)) else None
      end
  | Returned | Raised => Some (die p)
  | Dead => None
  end.

(** [registration.start] and everything before it keep the event loop to themselves. *)
Definition loop_free (p : Proc) : bool :=
  match p_phase p with Building | Registering | Dead => false | _ => true end.

(** Everything that can happen. *)
Inductive act :=
  | Main (ok : bool) (f : fate)     (* the next operation of [serve] *)
  | Renew (f : fate)                (* of the renewal thread *)
  | Round (ok : bool)               (* of the engine task: one round, which may raise *)
  | Call                            (* a call of [Generate] arrives *)
  | CallEnds
  | DrainCall                       (* a call of [Drain] *)
  | Interrupt                       (* the coroutine is cancelled, as on SIGINT *)
  | Kill                            (* SIGKILL, and SIGTERM, for which no handler is installed *)
  | Pass (d : Qc).

Definition act_next (a : act) (p : Proc) : option Proc :=
  match a with
  | Main ok f => main_next ok f p
  | Renew f => r ← thread_next f (p_reg p); Some (set_reg r p)
  | Round ok =>
      match p_task p with
      | Running => if loop_free p
                   then Some (set_task (if p_ae_stop p then TaskEnded else if ok then Running else TaskFailed) p)
                   else None
      | _ => None
      end
  | Call => if p_listening p && loop_free p
            then Some (if p_draining p then p else set_calls (S (p_calls p)) p) else None
  | CallEnds => if loop_free p then match p_calls p with O => None | S n => Some (set_calls n p) end else None
  | DrainCall => if p_listening p && loop_free p then Some (set_draining p) else None
  | Interrupt => match p_phase p with
                 | Building | Starting | Registering | Serving => Some (set_cancel p)
                 | _ => None
                 end
  | Kill => match p_phase p with Dead => None | _ => Some (die p) end
  | Pass d => if bool_decide (0 <= d)%Qc
              then Some (set_reg (set_etcd (reg_pass d (r_etcd (p_reg p))) (p_reg p)) p) else None
  end.

Fixpoint acts (l : list act) (p : Proc) : option Proc :=
  match l with [] => Some p | a :: l => p' ← act_next a p; acts l p' end.
End serve.

Definition born (s : St) : Proc :=
  mkProc Building false NoTask false false false 0 0%Qc (mkReg NoReg NotRunning false None 0 s false false false).
End lifecycle.

(** * What the registry says of the process *)

Section presence.
Context {St Lease : Type} `{HR : Registry St Lease} (ttl : Z) `{HL : !RegistryLaws St Lease ttl}.
#[local] Abbreviation Reg := (Reg (St := St) (Lease := Lease)).
#[local] Abbreviation Proc := (Proc (St := St) (Lease := Lease)).
Implicit Types (r : Reg) (p : Proc) (l : Lease) (f : fate).

Definition listed r : Prop := is_Some (holder (r_etcd r)).

(** Something went wrong that the client cannot put right. *)
Definition blamed r : Prop := r_doubt r = true ∨ r_unrevoked r = true ∨ r_abandoned r = true.

(** Where the caller's progress leaves the thread, and whose lease holds the key. *)
Definition thread_fits r : Prop :=
  match r_caller r with
  | NoReg | StartGrant | StartPut _ | StartStore _ | StartThread | StartFailed => r_thread r = NotRunning
  | Registered | StopSet | StopJoin _ => r_thread r ≠ NotRunning
  | StopRevoke | StopSend _ _ | StopClear | Withdrawn => r_abandoned r = true ∨ r_thread r = Ended
  end.
Definition lease_fits r : Prop :=
  match r_caller r with
  | NoReg => holder (r_etcd r) = None
  | StopSend l _ => r_abandoned r = true ∨ r_lease r = Some l
  | _ => True
  end.
Definition held_by r l : Prop :=
  match r_caller r with
  | NoReg | StopClear | Withdrawn => False
  | StartStore l' => l = l'
  | _ => match r_thread r with Storing l' => l = l' | _ => r_lease r = Some l end
  end.
Definition stop_fits r : Prop :=
  match r_caller r with StopJoin _ | StopRevoke | StopSend _ _ | StopClear | Withdrawn => r_stop r = true | _ => True end.

Record reg_inv r : Prop := {
  ri_thread : thread_fits r;
  ri_lease : lease_fits r;
  ri_stop : stop_fits r;
  ri_holder l : holder (r_etcd r) = Some l → blamed r ∨ held_by r l;
}.

Lemma ask_grant_effect f r : ∃ s, (ask_grant ttl f r).2 = set_etcd s r ∧ holder s = holder (r_etcd r) ∧ reg_time s = reg_time (r_etcd r).
Proof.
  rw /ask_grant /request. pose proof (grant_holder (ttl := ttl) (r_etcd r)) as Hg. pose proof (grant_time (ttl := ttl) (r_etcd r)) as Ht. destruct (reg_grant ttl (r_etcd r)) as [o s].
  destruct f; cbn; [by exists s| |by exists s]. exists (r_etcd r). by destruct r.
Qed.

Lemma keepalive_effect f l r : ∃ s, (request f (reg_keepalive l) r).2 = set_etcd s r ∧ holder s = holder (r_etcd r) ∧ reg_time s = reg_time (r_etcd r).
Proof.
  rw /request. pose proof (keepalive_holder (ttl := ttl) l (r_etcd r)) as Hg. pose proof (keepalive_time (ttl := ttl) l (r_etcd r)) as Ht. destruct (reg_keepalive l (r_etcd r)) as [o s].
  destruct f; cbn; [by exists s| |by exists s]. exists (r_etcd r). by destruct r.
Qed.

Lemma ask_put_effect f l r : ∃ s b, (ask_put f l r).2 = set_doubt b (set_etcd s r) ∧ reg_time s = reg_time (r_etcd r) ∧
  if (ask_put f l r).1 then b = false ∧ holder s = Some l else b = true ∨ b = r_doubt r ∧ holder s = holder (r_etcd r).
Proof.
  rw /ask_put /request. pose proof (put_holder (ttl := ttl) l (r_etcd r)) as Hg. pose proof (put_time (ttl := ttl) l (r_etcd r)) as Ht.
  destruct (reg_put l (r_etcd r)) as [o s]. cbn in Hg, Ht |- *. destruct f, o; cbn.
  - by exists s, false.
  - exists s, (r_doubt r). auto.
  - exists (r_etcd r), (r_doubt r). destruct r; cbn. auto.
  - exists (r_etcd r), (r_doubt r). destruct r; cbn. auto.
  - exists s, true. auto.
  - exists s, (r_doubt r). auto.
Qed.

Lemma revoke_effect f l r : ∃ s, (request f (reg_revoke l) r).2 = set_etcd s r ∧
  (holder s = holder (r_etcd r) ∨ holder s = None) ∧ reg_time s = reg_time (r_etcd r) ∧
  (is_Some (request f (reg_revoke l) r).1 → holder s ≠ Some l).
Proof.
  rw /request. pose proof (revoke_holder (ttl := ttl) l (r_etcd r)) as [Hn Hg]. pose proof (revoke_time (ttl := ttl) l (r_etcd r)) as Ht.
  destruct (reg_revoke l (r_etcd r)) as [o s].
  destruct f; cbn in *; [by exists s| |].
  - exists (r_etcd r). destruct r; cbn. split_and!; [done|auto|done|by intros [? ?]].
  - exists s. split_and!; [done|done|done|by intros [? ?]].
Qed.

(** A step of the thread: the caller stays where it is. *)
Definition held_here r l : Prop := match r_thread r with Storing l' => l = l' | _ => r_lease r = Some l end.

Lemma thread_move r r' : reg_inv r → r_thread r ≠ NotRunning → r_thread r ≠ Ended → r_thread r' ≠ NotRunning →
  r_caller r' = r_caller r → r_stop r' = r_stop r → r_unrevoked r' = r_unrevoked r → r_abandoned r' = r_abandoned r →
  (∀ l, holder (r_etcd r') = Some l → r_doubt r' = true ∨ held_here r' l ∨
     holder (r_etcd r) = Some l ∧ r_doubt r' = r_doubt r ∧ (held_here r l → held_here r' l)) →
  reg_inv r'.
Proof.
  intros [Ht Hl Hs Hh] Hn He Hn' Hc Hst Hu Ha Hold.
  assert (r_abandoned r = true ∨ r_caller r = Registered ∨ r_caller r = StopSet ∨ ∃ t, r_caller r = StopJoin t) as [Hab|Hcl].
  { rw /thread_fits in Ht. destruct (r_caller r); try done; try (by destruct Ht; [left|]); eauto 6. }
  - rw /thread_fits in Ht. split; rw /thread_fits /lease_fits /stop_fits /blamed ?Hc ?Hst ?Ha; [..|exact Hs|by auto].
    + destruct (r_caller r); try done; by left.
    + destruct (r_caller r); auto. done.
  - assert (∀ l, held_by r l → held_here r l) as Hheld.
    { intros l. rw /held_by. by destruct Hcl as [->|[->|[? ->]]]. }
    assert (∀ l, held_here r' l → held_by r' l) as Hheld'.
    { intros l. rw /held_by Hc. by destruct Hcl as [->|[->|[? ->]]]. }
    split; rw /thread_fits /lease_fits /stop_fits ?Hc ?Hst; [by destruct Hcl as [->|[->|[? ->]]]..|exact Hs|].
    intros l Hl'. rw /blamed Hu Ha. destruct (Hold l Hl') as [?|[?|(H1 & -> & H3)]]; [by auto|by auto|].
    destruct (Hh l H1) as [Hb|Hb%Hheld]; [by left|auto].
Qed.

Lemma thread_next_inv f r r' : thread_next ttl f r = Some r' → reg_inv r → reg_inv r'.
Proof.
  intros Hn Hr. rw /thread_next in Hn. destruct (r_thread r) as [| | | | |l|l| |] eqn:Hthr; try done.
  - injection Hn as <-. apply (thread_move r); rw ?Hthr //=; [by destruct (r_stop r)|].
    intros l ?. do 2 right. rw /held_here Hthr /=. by destruct (r_stop r).
  - destruct (r_lease r) as [l|] eqn:Hle.
    + destruct (keepalive_effect f l r) as (s & Hs & Hh & _). destruct (request f (reg_keepalive l) r) as [o r1]. cbn in Hs. subst r1.
      injection Hn as <-. apply (thread_move r); rw ?Hthr //=; [by destruct (default false o)|].
      intros l' ?. do 2 right. rw -Hh /held_here Hthr /=. by destruct (default false o).
    + injection Hn as <-. apply (thread_move r); rw ?Hthr //=. intros l ?. do 2 right. by rw /held_here Hthr.
  - injection Hn as <-. apply (thread_move r); rw ?Hthr //=; [by destruct (r_stop r)|].
    intros l ?. do 2 right. rw /held_here Hthr /=. by destruct (r_stop r).
  - destruct (ask_grant_effect f r) as (s & Hs & Hh & _). destruct (ask_grant ttl f r) as [o r1]. cbn in Hs. subst r1.
    injection Hn as <-. apply (thread_move r); rw ?Hthr //=; [by destruct o|].
    intros l ?. do 2 right. rw -Hh /held_here Hthr /=. by destruct o.
  - destruct (ask_put_effect f l r) as (s & b & Hs & _ & Hb). destruct (ask_put f l r) as [o r1]. cbn in Hs, Hb. subst r1.
    injection Hn as <-. apply (thread_move r); rw ?Hthr //=; [by destruct o|]. intros l' Hl'. destruct o.
    + destruct Hb as [-> Hb]. right; left. rw /held_here /=. congruence.
    + destruct Hb as [->|[-> Hb]]; [by left|]. do 2 right. rw -Hb /held_here Hthr. done.
  - injection Hn as <-. apply (thread_move r); rw ?Hthr //=. intros l' Hl'. do 2 right. rw /held_here Hthr /=. split_and!; [done..|congruence].
  - injection Hn as <-. apply (thread_move r); rw ?Hthr //=; [by destruct (r_stop r)|].
    intros l ?. do 2 right. rw /held_here Hthr /=. by destruct (r_stop r).
Qed.

(** A step of the caller leaves the thread where it is. *)
Lemma caller_next_inv n ok f r r' : caller_next ttl n ok f r = Some r' → reg_inv r → reg_inv r'.
Proof.
  intros Hn [Ht Hl Hs Hh]. rw /caller_next in Hn. destruct (r_caller r) as [| |l|l| | | | |t| |l t| |] eqn:Hc; try done;
    rw /thread_fits /lease_fits /stop_fits /held_by Hc in Ht; rw /thread_fits /lease_fits /stop_fits /held_by Hc in Hl;
    rw /thread_fits /lease_fits /stop_fits /held_by Hc in Hs; rw /thread_fits /lease_fits /stop_fits /held_by Hc in Hh.
  - destruct (ask_grant_effect f r) as (s & Hs' & Hh' & _). destruct (ask_grant ttl f r) as [o r1]. cbn in Hs'. subst r1.
    injection Hn as <-. split; rw /thread_fits /lease_fits /stop_fits /held_by /=; [by destruct o..|].
    intros l'. rw Hh' Ht. intros [Hb|Hb]%Hh; [by left|]. right. rw Ht in Hb. by destruct o.
  - destruct (ask_put_effect f l r) as (s & b & Hs' & _ & Hb). destruct (ask_put f l r) as [o r1]. cbn in Hs', Hb. subst r1.
    injection Hn as <-. split; rw /thread_fits /lease_fits /stop_fits /held_by /blamed /=; [by destruct o..|].
    intros l' Hl'. destruct o; [right; naive_solver|]. destruct Hb as [->|[-> Hb]]; [by auto|]. rw Hb in Hl'. by apply Hh.
  - injection Hn as <-. split; rw /thread_fits /lease_fits /stop_fits /held_by /= //.
    intros l' [Hb| ->]%Hh; [by left|right]. by rw Ht.
  - injection Hn as <-. split; rw /thread_fits /lease_fits /stop_fits /held_by /= //.
    intros l' Hl'. rw Ht in Hh. exact (Hh _ Hl').
  - injection Hn as <-. by split.
  - destruct (ended (r_thread r)) eqn:He.
    + injection Hn as <-. split; rw /thread_fits /lease_fits /stop_fits /held_by /= //. right. by destruct (r_thread r).
    + destruct (bool_decide _); [|done]. injection Hn as <-. split; rw /thread_fits /lease_fits /stop_fits /held_by /blamed /= //; auto.
  - injection Hn as <-. destruct (r_lease r) as [l|] eqn:Hle; split; rw /thread_fits /lease_fits /stop_fits /held_by /blamed /=; auto.
    + rw Hle. exact Hh.
    + intros l' [Hb|Hb]%Hh; [by left|]. destruct Ht as [Ht|Ht]; [by auto|]. by rw Ht in Hb.
  - destruct (ok || _); [|done]. generalize dependent (if ok then f else timed_out f). intros g Hn.
    destruct (revoke_effect g l r) as (s & Hs' & Hsame & _ & Hgone). destruct (request g (reg_revoke l) r) as [o r1]. cbn in Hs', Hgone. subst r1.
    injection Hn as <-. destruct o as [a|]; split; rw /thread_fits /lease_fits /stop_fits /held_by /blamed /= //; [|by auto].
    intros l' Hl'. left. destruct Hsame as [Hsame|Hsame]; [|congruence]. rw Hsame in Hl'.
    destruct (Hh _ Hl') as [Hb|Hb]; [done|]. destruct Hl as [Hl|Hl]; [by auto|]. destruct Ht as [Ht|Ht]; [by auto|]. rw Ht in Hb.
    destruct (Hgone ltac:(by eexists)). congruence.
  - injection Hn as <-. split; rw /thread_fits /lease_fits /stop_fits /held_by /blamed /= //.
Qed.

Lemma pass_inv d r : reg_inv r → reg_inv (set_etcd (reg_pass d (r_etcd r)) r).
Proof.
  intros [Ht Hl Hs Hh]. split; [exact Ht|idtac|exact Hs|].
  { rw /lease_fits /= in Hl |- *. destruct (r_caller r); auto. destruct (pass_holder (ttl := ttl) d (r_etcd r)); congruence. }
  intros l Hl'. cbn in Hl'.
  destruct (pass_holder (ttl := ttl) d (r_etcd r)) as [Hp|Hp]; [|congruence]. rw Hp in Hl'. exact (Hh _ Hl').
Qed.

(** ** The process *)

Definition up p : Prop := (p_task p = Running ∨ p_task p = TaskFailed) ∧ p_ae_stop p = false.

(** The stages of the caller: nothing to withdraw, inside [start], inside [stop]. *)
Definition away (c : caller (Lease := Lease)) : Prop := match c with NoReg | Withdrawn => True | _ => False end.
Definition beginning (c : caller (Lease := Lease)) : Prop :=
  match c with StartGrant | StartPut _ | StartStore _ | StartThread | StartFailed | Registered => True | _ => False end.
Definition leaving (c : caller (Lease := Lease)) : Prop :=
  match c with StopSet | StopJoin _ | StopRevoke | StopSend _ _ | StopClear | Withdrawn => True | _ => False end.
Definition settled_in (c : caller (Lease := Lease)) : Prop := match c with NoReg | Registered => True | _ => False end.

(** What holds where. *)
Definition shape p : Prop :=
  let c := r_caller (p_reg p) in
  match p_phase p with
  | Building => p_listening p = false ∧ c = NoReg
  | Starting => p_listening p = false ∧ c = NoReg ∧ up p
  | Registering => p_listening p = true ∧ up p ∧ beginning c
  | Serving | Finally => p_listening p = true ∧ up p ∧ settled_in c
  | Deregistering => p_listening p = true ∧ up p ∧ p_draining p = true ∧ leaving c
  | StoppingServer => p_listening p = true ∧ up p ∧ p_draining p = true ∧ away c
  | Grace => p_listening p = false ∧ p_draining p = true ∧ away c
  | StoppingEngine => p_listening p = false ∧ p_draining p = true ∧ p_calls p = 0 ∧ away c
  | JoiningEngine => p_listening p = false ∧ p_draining p = true ∧ p_calls p = 0 ∧ away c ∧ p_ae_stop p = true
  | Returned => p_listening p = false ∧ p_draining p = true ∧ p_calls p = 0 ∧ away c ∧ p_ae_stop p = true ∧ p_task p = NoTask
  | Raised => away c ∨ c = StartFailed ∧ p_listening p = true ∧ up p
  | Dead => p_listening p = false ∧ r_thread (p_reg p) = Ended ∧ p_task p = NoTask
  end.
Definition proc_inv p : Prop := shape p ∧ (p_phase p ≠ Dead → reg_inv (p_reg p)).

Lemma caller_next_stage n ok f r r' : caller_next ttl n ok f r = Some r' →
  (beginning (r_caller r) → beginning (r_caller r')) ∧ (leaving (r_caller r) → leaving (r_caller r')).
Proof.
  rw /caller_next. destruct (r_caller r) as [| |l|l| | | | |t| |l t| |] eqn:Hc; try done; intros Hn; repeat case_match; by simplify_eq/=.
Qed.

Lemma die_inv p : proc_inv (die p).
Proof. by split. Qed.

Lemma inv_parts p : p_phase p ≠ Dead → proc_inv p → shape p ∧ reg_inv (p_reg p).
Proof. intros Hp [Hs Hr]. auto. Qed.

Lemma reg_inv_caller r : reg_inv r → r_caller r = NoReg → reg_inv (at_caller StartGrant r).
Proof.
  intros [Ht Hl Hs Hh] Hc. rw /thread_fits Hc in Ht. split; rw /thread_fits /lease_fits /stop_fits /held_by //=.
  rw /held_by Hc in Hh. intros l [Hb|[]]%Hh. by left.
Qed.

Lemma reg_inv_stop r : reg_inv r → r_caller r = Registered → reg_inv (at_caller StopSet r).
Proof.
  intros [Ht Hl Hs Hh] Hc. rw /thread_fits Hc in Ht. rw /held_by Hc in Hh. by split.
Qed.

(** The steps of [serve] itself. *)
Lemma main_next_inv `{Unicode} etcd ok f p p' : main_next ttl etcd ok f p = Some p' → proc_inv p → proc_inv p'.
Proof.
  intros Hn Hi. rw /main_next in Hn. destruct (p_phase p) eqn:Hph; try done.
  all: destruct (inv_parts p ltac:(by rw Hph) Hi) as [Hs Hr]; rw /shape Hph in Hs.
  - destruct Hs as [Hl Hc]. injection Hn as <-. destruct ok; split; rw /shape //=; auto. 2: by left; rw Hc.
    split_and!; [done..|]. split; [by left|done].
  - destruct Hs as (Hl & Hc & Hu). injection Hn as <-. destruct (ok && _); cbn.
    + rw /begin_registration. destruct etcd as [|c etcd'].
      { split; rw /shape /=; [|done]. rw Hc. by split_and!. }
      destruct (endpoints _); split; rw /shape /= //; [by left; rw Hc|]. intros _. by apply reg_inv_caller.
    + split; [left; by rw /= Hc|done].
  - destruct Hs as (Hl & Hu & Hc).
    assert (∀ r', caller_next ttl (length (endpoints etcd)) ok f (p_reg p) = Some r' → proc_inv (set_reg r' p)) as Hstep.
    { intros r' Hr'. split; [|intros _; by eapply caller_next_inv]. rw /shape /= Hph. split_and!; [done|done|].
      destruct (caller_next_stage _ _ _ _ r' Hr') as [Hb _]. auto. }
    destruct (r_caller (p_reg p)) eqn:Hcl; try done.
    all: try (destruct (caller_next ttl (length (endpoints etcd)) ok f (p_reg p)) as [r'|] eqn:Hr'; [|done]; injection Hn as <-; by apply Hstep).
    + injection Hn as <-. split; [|done]. right. cbn. by rw Hcl.
    + injection Hn as <-. split; [|done]. rw /shape /= Hcl. done.
  - destruct (p_cancel p); [|done]. injection Hn as <-. by split.
  - destruct Hs as (Hl & Hu & Hc). injection Hn as <-. destruct (r_caller (p_reg p)) eqn:Hcl; try done.
    + split; [|done]. by rw /shape /= Hcl.
    + split; [done|]. intros _. by apply reg_inv_stop.
  - destruct Hs as (Hl & Hu & Hd & Hc).
    assert (∀ r', caller_next ttl (length (endpoints etcd)) ok f (p_reg p) = Some r' → proc_inv (set_reg r' p)) as Hstep.
    { intros r' Hr'. split; [|intros _; by eapply caller_next_inv]. rw /shape /= Hph. split_and!; [done|done|done|].
      destruct (caller_next_stage _ _ _ _ r' Hr') as [_ Hb]. auto. }
    destruct (r_caller (p_reg p)) eqn:Hcl; try done.
    all: try (destruct (caller_next ttl (length (endpoints etcd)) ok f (p_reg p)) as [r'|] eqn:Hr'; [|done]; injection Hn as <-; by apply Hstep).
    injection Hn as <-. split; [|done]. by rw /shape /= Hcl.
  - destruct Hs as (Hl & Hu & Hd & Hc). injection Hn as <-. by split.
  - destruct Hs as (Hl & Hd & Hc). destruct (_ || _); [|done]. injection Hn as <-. by split.
  - destruct Hs as (Hl & Hd & Hz & Hc). injection Hn as <-. by split.
  - destruct Hs as (Hl & Hd & Hz & Hc & Ha). destruct (p_task p).
    1, 2: destruct (bool_decide _); [|done].
    all: injection Hn as <-; (split; [|done]); rw /shape /=; auto 10.
  - injection Hn as <-. apply die_inv.
  - injection Hn as <-. apply die_inv.
Qed.

Lemma thread_next_caller f r r' : thread_next ttl f r = Some r' → r_caller r' = r_caller r ∧ r_thread r ≠ NotRunning ∧ r_thread r ≠ Ended.
Proof.
  rw /thread_next. destruct (r_thread r) as [| | | | |l|l| |]; try done; intros Hn.
  - by injection Hn as <-.
  - destruct (r_lease r) as [l|]; [|by injection Hn as <-]. destruct (keepalive_effect f l r) as (s & Hs & _).
    destruct (request f (reg_keepalive l) r) as [o r1]. cbn in Hs. subst r1. by injection Hn as <-.
  - by injection Hn as <-.
  - destruct (ask_grant_effect f r) as (s & Hs & _). destruct (ask_grant ttl f r) as [o r1]. cbn in Hs. subst r1. by injection Hn as <-.
  - destruct (ask_put_effect f l r) as (s & b & Hs & _). destruct (ask_put f l r) as [o r1]. cbn in Hs. subst r1. by injection Hn as <-.
  - by injection Hn as <-.
  - by injection Hn as <-.
Qed.

(** What happens outside [serve] leaves it where it stands. *)
Lemma proc_inv_aside p p' : proc_inv p → p_phase p' = p_phase p → p_phase p ≠ Dead → p_listening p' = p_listening p →
  r_caller (p_reg p') = r_caller (p_reg p) → reg_inv (p_reg p') → (p_draining p = true → p_draining p' = true) →
  (p_calls p = 0 → p_listening p = false → p_calls p' = 0) → (up p → up p') → p_ae_stop p' = p_ae_stop p →
  (p_task p = NoTask → p_task p' = NoTask) → proc_inv p'.
Proof.
  intros [Hs Hr] Hp Hne Hl Hc Hr' Hd Hz Hu Ha Ht. split; [|done]. rw /shape Hp Hc Hl Ha. rw /shape in Hs.
  destruct (p_phase p); naive_solver.
Qed.

Lemma act_next_inv `{Unicode} etcd a p p' : act_next ttl etcd a p = Some p' → proc_inv p → proc_inv p'.
Proof.
  destruct (decide (p_phase p = Dead)) as [Hdead|Hne].
  { intros Hn [Hs _]. rw /shape Hdead in Hs. destruct Hs as (Hl & Ht & Htk).
    destruct a; cbn [act_next] in Hn; rw /main_next ?Hdead ?Hl ?Htk /loop_free ?Hdead /thread_next ?Ht /= in Hn; try done.
    destruct (bool_decide _); [|done]. injection Hn as <-. by split; rw /shape /= Hdead. }
  intros Hn Hi. pose proof (inv_parts p Hne Hi) as [Hs Hr].
  destruct a as [ok f|f|ok| | | | | |d]; cbn [act_next] in Hn.
  - by eapply main_next_inv.
  - destruct (thread_next ttl f (p_reg p)) as [r'|] eqn:Hr'; [|done]. injection Hn as <-.
    pose proof (thread_next_caller f _ r' Hr') as (Hc & _). apply (proc_inv_aside p); auto. by eapply thread_next_inv.
  - destruct (p_task p) eqn:Ht; try done. destruct (loop_free p); [|done]. injection Hn as <-.
    apply (proc_inv_aside p); cbn; rw ?Ht //. intros [_ Ha]. split; [|done]. cbn. rw Ha. destruct ok; auto.
  - destruct (p_listening p) eqn:Hl; [|done]. destruct (loop_free p); [|done]. injection Hn as <-. destruct (p_draining p); [done|].
    apply (proc_inv_aside p); cbn; rw ?Hl //.
  - destruct (loop_free p); [|done]. destruct (p_calls p) eqn:Hz; [done|]. injection Hn as <-.
    apply (proc_inv_aside p); cbn; rw ?Hz //.
  - destruct (p_listening p && _); [|done]. injection Hn as <-. by apply (proc_inv_aside p).
  - assert (p' = set_cancel p) as -> by (destruct (p_phase p); congruence). by apply (proc_inv_aside p).
  - assert (p' = die p) as -> by (destruct (p_phase p); congruence). apply die_inv.
  - destruct (bool_decide _); [|done]. injection Hn as <-. apply (proc_inv_aside p); auto. by apply pass_inv.
Qed.

Lemma acts_inv `{Unicode} etcd (l : list act) : ∀ p p', acts ttl etcd l p = Some p' → proc_inv p → proc_inv p'.
Proof.
  induction l as [|a l IH]; intros p p' Hl Hi; cbn in Hl; [by injection Hl as <-|].
  destruct (act_next ttl etcd a p) as [p1|] eqn:Ha; [|done]. eapply IH; [done|]. by eapply act_next_inv.
Qed.

Lemma born_inv s : holder s = None → proc_inv (born (Lease := Lease) s).
Proof. intros Hs. split; [done|]. intros _. split; try done. cbn. intros l. by rw Hs. Qed.

(** ** After the process has left *)

(** Nothing is sent to etcd any more. *)
Definition silent p : Prop :=
  (r_thread (p_reg p) = Ended ∨ r_thread (p_reg p) = NotRunning) ∧
  match p_phase p with StoppingServer | Grace | StoppingEngine | JoiningEngine | Returned | Raised | Dead => True | _ => False end.

Lemma act_next_silent `{Unicode} etcd a p p' : act_next ttl etcd a p = Some p' → silent p →
  silent p' ∧ (r_etcd (p_reg p') = r_etcd (p_reg p) ∨ ∃ d, (0 <= d)%Qc ∧ r_etcd (p_reg p') = reg_pass d (r_etcd (p_reg p))).
Proof.
  intros Hn [Ht Hp]. destruct a as [ok f|f|ok| | | | | |d]; cbn [act_next] in Hn.
  - rw /main_next in Hn. rw /silent. destruct (p_phase p) eqn:Hph; try done; repeat case_match; simplify_eq/=; auto.
  - destruct (thread_next ttl f (p_reg p)) as [r'|] eqn:Hr'; [|done]. apply thread_next_caller in Hr'. naive_solver.
  - destruct (p_task p); try done. destruct (loop_free p); [|done]. injection Hn as <-. by split; [|left].
  - destruct (p_listening p && _); [|done]. injection Hn as <-. destruct (p_draining p); by split; [|left].
  - destruct (loop_free p); [|done]. destruct (p_calls p); [done|]. injection Hn as <-. by split; [|left].
  - destruct (p_listening p && _); [|done]. injection Hn as <-. by split; [|left].
  - by destruct (p_phase p).
  - assert (p' = die p) as -> by (destruct (p_phase p); congruence). split; [|by left]. split; [by left|done].
  - destruct (bool_decide _) eqn:Hd; [|done]. apply bool_decide_eq_true in Hd. injection Hn as <-. split; [done|]. right. by exists d.
Qed.

Lemma acts_silent `{Unicode} etcd (l : list act) : ∀ p p', acts ttl etcd l p = Some p' → silent p → listed (p_reg p') →
  listed (p_reg p) ∧ lapses (r_etcd (p_reg p')) = lapses (r_etcd (p_reg p)).
Proof.
  induction l as [|a l IH]; intros p p' Hl Hsil Hlst; cbn in Hl; [by injection Hl as <-|].
  destruct (act_next ttl etcd a p) as [p1|] eqn:Ha; [|done]. destruct (act_next_silent etcd a p p1 Ha Hsil) as [Hsil1 Het].
  destruct (IH p1 p' Hl Hsil1 Hlst) as [H1 H2]. rw /listed in H1 |- *. destruct Het as [Het|(d & Hd & Het)]; rw Het in H1; rw Het in H2; [done|].
  rw H2 (pass_lapses (ttl := ttl)) //. split; [|done]. by destruct (pass_holder (ttl := ttl) d (r_etcd (p_reg p))) as [Hx|Hx]; rw Hx in H1; [|destruct H1].
Qed.

(** ** How long it takes to leave *)

Definition shutting p : Prop :=
  match p_phase p with Building | Starting | Registering | Serving => False | _ => True end.
Definition finished p : Prop := match p_phase p with Returned | Raised | Dead => True | _ => False end.

(** The operations of [serve] that are left. *)
Definition stop_rank (c : caller (Lease := Lease)) : nat :=
  match c with StopSet => 6 | StopJoin _ => 5 | StopRevoke => 4 | StopSend _ _ => 3 | StopClear => 2 | Withdrawn => 1 | _ => 0 end.
Definition rank p : nat :=
  match p_phase p with
  | Finally => 12
  | Deregistering => 5 + stop_rank (r_caller (p_reg p))
  | StoppingServer => 5 | Grace => 4 | StoppingEngine => 3 | JoiningEngine => 2
  | Returned | Raised => 1
  | _ => 0
  end.
Definition is_main (a : act) : bool := match a with Main _ _ => true | _ => false end.
Definition mains (l : list act) : nat := length (filter is_main l).

(** No wait began in the future. *)
Definition timed p : Prop :=
  match r_caller (p_reg p) with StopJoin t | StopSend _ t => (t <= proc_time p)%Qc | _ => True end ∧
  match p_phase p with Grace | JoiningEngine => (p_since p <= proc_time p)%Qc | _ => True end.

Lemma caller_next_steps n ok f r r' : caller_next ttl n ok f r = Some r' →
  reg_time (r_etcd r') = reg_time (r_etcd r) ∧
  (leaving (r_caller r) → stop_rank (r_caller r') < stop_rank (r_caller r)) ∧
  match r_caller r' with StopJoin t | StopSend _ t => t = reg_time (r_etcd r) | _ => True end.
Proof.
  rw /caller_next. destruct (r_caller r) as [| |l|l| | | | |t| |l t| |] eqn:Hc; try done; intros Hn.
  - destruct (ask_grant_effect f r) as (s & Hs & _ & Ht). destruct (ask_grant ttl f r) as [o r1]. cbn in Hs. subst r1.
    injection Hn as <-. by destruct o.
  - destruct (ask_put_effect f l r) as (s & b & Hs & Ht & _). destruct (ask_put f l r) as [o r1]. cbn in Hs. subst r1.
    injection Hn as <-. by destruct o.
  - by injection Hn as <-.
  - by injection Hn as <-.
  - injection Hn as <-. cbn. split_and!; [done|lia|done].
  - destruct (ended _); [|destruct (bool_decide _); [|done]]; injection Hn as <-; cbn; split_and!; (done || lia).
  - injection Hn as <-. destruct (r_lease r); cbn; split_and!; (done || lia).
  - destruct (ok || _); [|done]. generalize dependent (if ok then f else timed_out f). intros g Hn.
    destruct (revoke_effect g l r) as (s & Hs & _ & Ht & _). destruct (request g (reg_revoke l) r) as [o r1]. cbn in Hs. subst r1.
    injection Hn as <-. destruct o; cbn; split_and!; (done || lia).
  - injection Hn as <-. cbn. split_and!; (done || lia).
Qed.

Lemma thread_next_time f r r' : thread_next ttl f r = Some r' → reg_time (r_etcd r') = reg_time (r_etcd r).
Proof.
  rw /thread_next. destruct (r_thread r) as [| | | | |l|l| |]; try done; intros Hn.
  - by injection Hn as <-.
  - destruct (r_lease r) as [l|]; [|by injection Hn as <-]. destruct (keepalive_effect f l r) as (s & Hs & _ & Ht).
    destruct (request f (reg_keepalive l) r) as [o r1]. cbn in Hs. subst r1. by injection Hn as <-.
  - by injection Hn as <-.
  - destruct (ask_grant_effect f r) as (s & Hs & _ & Ht). destruct (ask_grant ttl f r) as [o r1]. cbn in Hs. subst r1. by injection Hn as <-.
  - destruct (ask_put_effect f l r) as (s & b & Hs & Ht & _). destruct (ask_put f l r) as [o r1]. cbn in Hs. subst r1. by injection Hn as <-.
  - by injection Hn as <-.
  - by injection Hn as <-.
Qed.

(** Each operation of [serve] on the way out is one less to come. *)
Lemma main_next_rank `{Unicode} etcd ok f p p' : main_next ttl etcd ok f p = Some p' → proc_inv p → shutting p →
  shutting p' ∧ rank p' < rank p.
Proof.
  intros Hn Hi Hsh. rw /main_next in Hn. rw /shutting in Hsh |- *. rw /rank. destruct (p_phase p) eqn:Hph; try done.
  all: destruct (inv_parts p ltac:(by rw Hph) Hi) as [Hs _]; rw /shape Hph in Hs.
  - injection Hn as <-. destruct (r_caller (p_reg p)); cbn; (split; [done|lia]).
  - destruct Hs as (_ & _ & _ & Hc).
    assert (∀ r', caller_next ttl (length (endpoints etcd)) ok f (p_reg p) = Some r' → stop_rank (r_caller r') < stop_rank (r_caller (p_reg p))) as Hstep.
    { intros r' Hr'. by apply (caller_next_steps _ _ _ _ r' Hr'). }
    destruct (r_caller (p_reg p)) eqn:Hcl; try done.
    all: try (destruct (caller_next ttl (length (endpoints etcd)) ok f (p_reg p)) as [r'|] eqn:Hr'; [|done]; injection Hn as <-; cbn; rw Hph;
              split; [done|]; specialize (Hstep r' eq_refl); cbn in Hstep; lia).
    injection Hn as <-. cbn. split; [done|lia].
  - injection Hn as <-. cbn. split; [done|lia].
  - destruct (_ || _); [|done]. injection Hn as <-. cbn. split; [done|lia].
  - injection Hn as <-. cbn. split; [done|lia].
  - destruct (p_task p); try (destruct (bool_decide _); [|done]); injection Hn as <-; cbn; (split; [done|lia]).
  - injection Hn as <-. cbn. split; [done|lia].
  - injection Hn as <-. cbn. split; [done|lia].
Qed.

Lemma act_next_rank `{Unicode} etcd a p p' : act_next ttl etcd a p = Some p' → proc_inv p → shutting p →
  shutting p' ∧ rank p' + (if is_main a then 1 else 0) ≤ rank p.
Proof.
  destruct a as [ok f|f|ok| | | | | |d]; cbn [act_next is_main]; intros Hn Hi Hsh.
  - destruct (main_next_rank etcd ok f p p' Hn Hi Hsh). split; [done|lia].
  - destruct (thread_next ttl f (p_reg p)) as [r'|] eqn:Hr'; [|done]. injection Hn as <-.
    destruct (thread_next_caller f _ r' Hr') as (Hc & _). split; [done|]. rw /rank /= Hc. lia.
  - destruct (p_task p); try done. destruct (loop_free p); [|done]. injection Hn as <-. split; [done|]. rw /rank /=. lia.
  - destruct (p_listening p && _); [|done]. injection Hn as <-. destruct (p_draining p); (split; [done|]); rw /rank /=; lia.
  - destruct (loop_free p); [|done]. destruct (p_calls p); [done|]. injection Hn as <-. split; [done|]. rw /rank /=. lia.
  - destruct (p_listening p && _); [|done]. injection Hn as <-. split; [done|]. rw /rank /=. lia.
  - rw /shutting in Hsh. by destruct (p_phase p).
  - assert (p' = die p) as -> by (destruct (p_phase p); congruence). split; [done|]. rw /rank /=. lia.
  - destruct (bool_decide _); [|done]. injection Hn as <-. split; [done|]. rw /rank /=. lia.
Qed.

Lemma main_next_timed `{Unicode} etcd ok f p p' : main_next ttl etcd ok f p = Some p' → timed p → timed p' ∧ proc_time p' = proc_time p.
Proof.
  intros Hn [Hc Hp]. rw /main_next in Hn. rw /timed.
  assert (∀ r', caller_next ttl (length (endpoints etcd)) ok f (p_reg p) = Some r' →
    (match r_caller r' with StopJoin t | StopSend _ t => (t <= proc_time (set_reg r' p))%Qc | _ => True end ∧ True) ∧
    proc_time (set_reg r' p) = proc_time p) as Hstep.
  { intros r' Hr'. destruct (caller_next_steps _ _ _ _ r' Hr') as (Ht & _ & Hs). rw /proc_time /= Ht. split; [|done]. split; [|done].
    destruct (r_caller r'); try done; subst; apply Qcle_refl. }
  destruct (p_phase p) eqn:Hph; try done.
  - injection Hn as <-. by destruct ok.
  - injection Hn as <-. rw /begin_registration. destruct (ok && _); [|by rw /proc_time /=].
    destruct etcd; [done|]. by destruct (endpoints _).
  - destruct (r_caller (p_reg p)) eqn:Hcl; try done.
    all: try (destruct (caller_next ttl (length (endpoints etcd)) ok f (p_reg p)) as [r'|] eqn:Hr'; [|done]; injection Hn as <-; cbn; rw Hph; by apply Hstep).
    all: injection Hn as <-; cbn; by rw Hcl.
  - destruct (p_cancel p); [|done]. by injection Hn as <-.
  - injection Hn as <-. by destruct (r_caller (p_reg p)) eqn:Hcl; cbn; rw ?Hcl.
  - destruct (r_caller (p_reg p)) eqn:Hcl; try done.
    all: try (destruct (caller_next ttl (length (endpoints etcd)) ok f (p_reg p)) as [r'|] eqn:Hr'; [|done]; injection Hn as <-; cbn; rw Hph; by apply Hstep).
    all: injection Hn as <-; cbn; by rw Hcl.
  - injection Hn as <-. cbn. split; [|done]. split; [done|]. apply Qcle_refl.
  - destruct (_ || _); [|done]. by injection Hn as <-.
  - injection Hn as <-. cbn. split; [|done]. split; [done|]. apply Qcle_refl.
  - destruct (p_task p); try (destruct (bool_decide _); [|done]); by injection Hn as <-.
  - by injection Hn as <-.
  - by injection Hn as <-.
Qed.

Lemma act_next_timed `{Unicode} etcd a p p' : act_next ttl etcd a p = Some p' → timed p → timed p' ∧ (proc_time p <= proc_time p')%Qc.
Proof.
  destruct a as [ok f|f|ok| | | | | |d]; cbn [act_next]; intros Hn Hi.
  - destruct (main_next_timed etcd ok f p p' Hn Hi) as [? ->]. split; [done|apply Qcle_refl].
  - destruct (thread_next ttl f (p_reg p)) as [r'|] eqn:Hr'; [|done]. injection Hn as <-.
    destruct (thread_next_caller f _ r' Hr') as (Hc & _). pose proof (thread_next_time f _ r' Hr') as Ht.
    rw /timed /proc_time /= Hc Ht. split; [exact Hi|apply Qcle_refl].
  - destruct (p_task p); try done. destruct (loop_free p); [|done]. injection Hn as <-. split; [exact Hi|apply Qcle_refl].
  - destruct (p_listening p && _); [|done]. injection Hn as <-. destruct (p_draining p); (split; [exact Hi|apply Qcle_refl]).
  - destruct (loop_free p); [|done]. destruct (p_calls p); [done|]. injection Hn as <-. split; [exact Hi|apply Qcle_refl].
  - destruct (p_listening p && _); [|done]. injection Hn as <-. split; [exact Hi|apply Qcle_refl].
  - assert (p' = set_cancel p) as -> by (destruct (p_phase p); congruence). split; [exact Hi|apply Qcle_refl].
  - assert (p' = die p) as -> by (destruct (p_phase p); congruence). split; [|apply Qcle_refl]. by destruct Hi.
  - destruct (bool_decide _) eqn:Hd; [|done]. apply bool_decide_eq_true in Hd. injection Hn as <-.
    assert (∀ t, t <= proc_time p → t <= proc_time p + d)%Qc as Hle by (intros; qc_lra).
    rw /timed /proc_time /= (pass_time (ttl := ttl)). split; [|by apply Hle, Qcle_refl]. destruct Hi as [Hc Hp].
    split; [destruct (r_caller (p_reg p)); auto|destruct (p_phase p); auto]; by apply Hle.
Qed.

Lemma acts_timed `{Unicode} etcd (l : list act) : ∀ p p', acts ttl etcd l p = Some p' → timed p → timed p' ∧ (proc_time p <= proc_time p')%Qc.
Proof.
  induction l as [|a l IH]; intros p p' Hl Hi; cbn in Hl; [injection Hl as <-; split; [done|apply Qcle_refl]|].
  destruct (act_next ttl etcd a p) as [p1|] eqn:Ha; [|done]. destruct (act_next_timed etcd a p p1 Ha Hi) as [Hi1 H1].
  destruct (IH p1 p' Hl Hi1) as [? H2]. split; [done|]. by eapply Qcle_trans.
Qed.

Lemma acts_rank `{Unicode} etcd (l : list act) : ∀ p p', acts ttl etcd l p = Some p' → proc_inv p → shutting p →
  shutting p' ∧ rank p' + mains l ≤ rank p.
Proof.
  induction l as [|a l IH]; intros p p' Hl Hi Hsh; cbn in Hl; [injection Hl as <-; cbn; split; [done|lia]|].
  destruct (act_next ttl etcd a p) as [p1|] eqn:Ha; [|done]. destruct (act_next_rank etcd a p p1 Ha Hi Hsh) as [Hsh1 H1].
  destruct (IH p1 p' Hl ltac:(by eapply act_next_inv) Hsh1) as [Hsh2 H2]. split; [done|].
  rw /mains in H2 |- *. rw filter_cons. destruct (is_main a); case_decide; try done; cbn; lia.
Qed.

Lemma rank_bound p : rank p ≤ 12.
Proof. rw /rank. destruct (p_phase p); try lia. destruct (r_caller (p_reg p)); cbn; lia. Qed.

(** The longest wait on the way out: ten seconds, or the time the endpoints have to answer. *)
Definition longest_wait `{Unicode} etcd : Qc := qc_of_Z (Z.max 10 (5 * Z.of_nat (length (endpoints etcd)))).

Lemma waits_end `{Unicode} etcd ok f p : proc_inv p → timed p → shutting p → p_phase p ≠ Dead →
  is_Some (acts ttl etcd [Pass (longest_wait etcd); Main ok f] p).
Proof.
  intros Hi [Hc Hp] Hsh Hne. pose proof (inv_parts p Hne Hi) as [Hs _].
  assert (qc_of_Z 10 <= longest_wait etcd)%Qc as H10 by (rw /longest_wait ?/request_timeout qc_of_Z_le; lia).
  assert (request_timeout (length (endpoints etcd)) <= longest_wait etcd)%Qc as Hreq by (rw /longest_wait ?/request_timeout qc_of_Z_le; lia).
  assert (0 <= qc_of_Z 10 ∧ join_timeout <= qc_of_Z 10)%Qc as [H0 Hj] by by vm_compute.
  set (wait := longest_wait etcd) in *. clearbody wait.
  cbn [acts act_next]. rw bool_decide_true; [|qc_lra]. cbn [mbind option_bind]. set (p1 := set_reg _ p). assert (proc_time p1 = proc_time p + wait)%Qc as Ht by apply (pass_time (ttl := ttl)).
  assert (p_phase p1 = p_phase p ∧ r_caller (p_reg p1) = r_caller (p_reg p) ∧ p_since p1 = p_since p) as (H1 & H2 & H3) by done.
  clearbody p1. rw /main_next H1 H2 H3. rw /shutting in Hsh. rw /shape in Hs. destruct (p_phase p) eqn:Hph; try done.
  - destruct Hs as (_ & _ & _ & Hl).
    assert (is_Some (caller_next ttl (length (endpoints etcd)) ok f (p_reg p1)) ∨ r_caller (p_reg p) = Withdrawn) as Hcn.
    { rw /caller_next H2. destruct (r_caller (p_reg p)) as [| |l|l| | | | |t| |l t| |] eqn:Hcl; try done; eauto.
      - left. destruct (ended _); [done|]. rw bool_decide_true //. rw -/(proc_time p1) Ht. qc_lra.
      - left. rw -/(proc_time p1) Ht bool_decide_true; [|qc_lra]. rw orb_true_r. by destruct (request _ (reg_revoke l) (p_reg p1)). }
    destruct Hcn as [[r' Hr']|Hw]; [|by rw Hw]. rw Hr'. by destruct (r_caller (p_reg p)).
  - rw Ht (bool_decide_true (_ <= _)%Qc); [|rw /grace; qc_lra]. by rw orb_true_r.
  - rw Ht (bool_decide_true (_ <= _)%Qc); [|rw /stop_timeout; qc_lra]. by destruct (p_task p1).
Qed.

(** A draining replica takes on no calls. *)
Lemma act_next_drains `{Unicode} etcd a p p' : act_next ttl etcd a p = Some p' → p_draining p = true →
  p_draining p' = true ∧ p_calls p' ≤ p_calls p.
Proof.
  destruct a as [ok f|f|ok| | | | | |d]; cbn [act_next]; intros Hn Hd.
  - rw /main_next /begin_registration in Hn. destruct (p_phase p); try done; repeat case_match; simplify_eq/=; (split; [done|lia]) ||
      (destruct (caller_next ttl (length (endpoints etcd)) ok f (p_reg p)); [|done]; injection Hn as <-; cbn; split; [done|lia]).
  - destruct (thread_next ttl f (p_reg p)); [|done]. injection Hn as <-. cbn. split; [done|lia].
  - destruct (p_task p); try done. destruct (loop_free p); [|done]. injection Hn as <-. cbn. split; [done|lia].
  - destruct (p_listening p && _); [|done]. rw Hd in Hn. injection Hn as <-. split; [done|lia].
  - destruct (loop_free p); [|done]. destruct (p_calls p); [done|]. injection Hn as <-. cbn. split; [done|lia].
  - destruct (p_listening p && _); [|done]. injection Hn as <-. cbn. split; [done|lia].
  - assert (p' = set_cancel p) as -> by (destruct (p_phase p); congruence). cbn. split; [done|lia].
  - assert (p' = die p) as -> by (destruct (p_phase p); congruence). cbn. split; [done|lia].
  - destruct (bool_decide _); [|done]. injection Hn as <-. cbn. split; [done|lia].
Qed.

Lemma acts_drains `{Unicode} etcd (l : list act) : ∀ p p', acts ttl etcd l p = Some p' → p_draining p = true →
  p_draining p' = true ∧ p_calls p' ≤ p_calls p.
Proof.
  induction l as [|a l IH]; intros p p' Hl Hd; cbn in Hl; [by injection Hl as <-|].
  destruct (act_next ttl etcd a p) as [p1|] eqn:Ha; [|done]. destruct (act_next_drains etcd a p p1 Ha Hd) as [Hd1 H1].
  destruct (IH p1 p' Hl Hd1) as [? H2]. split; [done|lia].
Qed.

(** ** Whose fault it is *)

(** An operation of the process whose request is not answered: lost on the way there or
    back, or still under way when the client gives up. *)
Definition unanswered (a : act) : Prop :=
  match a with Main ok f => f ≠ Answered ∨ ok = false | Renew f => f ≠ Answered | _ => False end.

Definition lost r : Prop := r_doubt r = true ∨ r_unrevoked r = true.

Lemma ask_grant_lost f r : lost (ask_grant ttl f r).2 → lost r.
Proof. rw /ask_grant /request. destruct (reg_grant ttl (r_etcd r)), f; by destruct r. Qed.
Lemma keepalive_lost f l r : lost (request f (reg_keepalive l) r).2 → lost r.
Proof. rw /request. destruct (reg_keepalive l (r_etcd r)), f; by destruct r. Qed.
Lemma ask_put_lost f l r : lost (ask_put f l r).2 → lost r ∨ f ≠ Answered.
Proof.
  rw /ask_put /request /lost. destruct (reg_put l (r_etcd r)) as [o s]. destruct f; [|by right..]. left. destruct o, r; naive_solver.
Qed.

Lemma thread_next_lost f r r' : thread_next ttl f r = Some r' → lost r' → lost r ∨ f ≠ Answered.
Proof.
  rw /thread_next. destruct (r_thread r) as [| | | | |l|l| |]; try done; intros Hn Hr'.
  - injection Hn as <-. by left.
  - destruct (r_lease r) as [l|]; [|injection Hn as <-; by left]. pose proof (keepalive_lost f l r) as Hk.
    destruct (request f (reg_keepalive l) r) as [o r1]. injection Hn as <-. left. by apply Hk.
  - injection Hn as <-. by left.
  - pose proof (ask_grant_lost f r) as Hk. destruct (ask_grant ttl f r) as [o r1]. injection Hn as <-. left. by apply Hk.
  - pose proof (ask_put_lost f l r) as Hk. destruct (ask_put f l r) as [o r1]. injection Hn as <-. by apply Hk.
  - injection Hn as <-. by left.
  - injection Hn as <-. by left.
Qed.

Lemma caller_next_lost n ok f r r' : caller_next ttl n ok f r = Some r' → lost r' → lost r ∨ f ≠ Answered ∨ ok = false.
Proof.
  rw /caller_next. destruct (r_caller r) as [| |l|l| | | | |t| |l t| |]; try done; intros Hn Hr'.
  - pose proof (ask_grant_lost f r) as Hk. destruct (ask_grant ttl f r) as [o r1]. injection Hn as <-. left. by apply Hk.
  - pose proof (ask_put_lost f l r) as Hk. destruct (ask_put f l r) as [o r1]. injection Hn as <-. destruct (Hk Hr'); auto.
  - injection Hn as <-. by left.
  - injection Hn as <-. by left.
  - injection Hn as <-. by left.
  - destruct (ended _); [|destruct (bool_decide _); [|done]]; injection Hn as <-; by left.
  - injection Hn as <-. by left.
  - destruct ok; [|by auto]. destruct f; [|by auto..]. cbn [orb] in Hn. rw /request in Hn. destruct (reg_revoke l (r_etcd r)).
    injection Hn as <-. by left.
  - injection Hn as <-. by left.
Qed.

Lemma main_next_lost `{Unicode} etcd ok f p p' : main_next ttl etcd ok f p = Some p' → lost (p_reg p') → lost (p_reg p) ∨ f ≠ Answered ∨ ok = false.
Proof.
  intros Hn Hl. rw /main_next /begin_registration in Hn.
  assert (∀ r', caller_next ttl (length (endpoints etcd)) ok f (p_reg p) = Some r' → p' = set_reg r' p → lost (p_reg p) ∨ f ≠ Answered ∨ ok = false) as Hstep.
  { intros r' Hr' ->. by eapply caller_next_lost. }
  destruct (p_phase p); repeat case_match; simplify_eq/=; auto;
    apply bind_Some in Hn as (r' & Hr' & Hp); injection Hp as <-; by eapply Hstep.
Qed.

Lemma acts_lost `{Unicode} etcd (l : list act) : ∀ p p', acts ttl etcd l p = Some p' → lost (p_reg p') → lost (p_reg p) ∨ Exists unanswered l.
Proof.
  induction l as [|a l IH]; intros p p' Hl Hp'; cbn in Hl; [injection Hl as <-; by left|].
  destruct (act_next ttl etcd a p) as [p1|] eqn:Ha; [|done]. destruct (IH p1 p' Hl Hp') as [H1|H1]; [|by right; right].
  assert (lost (p_reg p) ∨ unanswered a) as [?|?]; [|by left|by right; left].
  destruct a as [ok f|f|ok| | | | | |d]; cbn [act_next unanswered] in Ha |- *.
  - by eapply main_next_lost.
  - destruct (thread_next ttl f (p_reg p)) as [r'|] eqn:Hr'; [|done]. injection Ha as <-. by eapply thread_next_lost.
  - left. destruct (p_task p); try done. destruct (loop_free p); [|done]. by injection Ha as <-.
  - left. destruct (p_listening p && _); [|done]. injection Ha as <-. by destruct (p_draining p).
  - left. destruct (loop_free p); [|done]. destruct (p_calls p); [done|]. by injection Ha as <-.
  - left. destruct (p_listening p && _); [|done]. by injection Ha as <-.
  - left. assert (p1 = set_cancel p) as -> by (destruct (p_phase p); congruence). done.
  - left. assert (p1 = die p) as -> by (destruct (p_phase p); congruence). done.
  - left. destruct (bool_decide _); [|done]. by injection Ha as <-.
Qed.

Lemma acts_failed `{Unicode} etcd (l : list act) : ∀ p p', acts ttl etcd l p = Some p' → p_task p' = TaskFailed →
  p_task p = TaskFailed ∨ Round false ∈ l.
Proof.
  induction l as [|a l IH]; intros p p' Hl Hp'; cbn in Hl; [injection Hl as <-; by left|].
  destruct (act_next ttl etcd a p) as [p1|] eqn:Ha; [|done]. destruct (IH p1 p' Hl Hp') as [H1|H1]; [|by right; right].
  assert (p_task p = TaskFailed ∨ a = Round false) as [?| ->]; [|by left|by right; left].
  destruct a as [ok f|f|ok| | | | | |d]; cbn [act_next] in Ha.
  - left. rw /main_next /begin_registration in Ha. destruct (p_phase p); repeat case_match; simplify_eq/=; try done;
      (apply bind_Some in Ha as (r' & Hr' & Hp); by injection Hp as <-).
  - left. destruct (thread_next ttl f (p_reg p)); [|done]. by injection Ha as <-.
  - destruct (p_task p); try done. destruct (loop_free p); [|done]. injection Ha as <-. cbn in H1.
    destruct (p_ae_stop p); [done|]. destruct ok; [done|by right].
  - left. destruct (p_listening p && _); [|done]. injection Ha as <-. by destruct (p_draining p).
  - left. destruct (loop_free p); [|done]. destruct (p_calls p); [done|]. by injection Ha as <-.
  - left. destruct (p_listening p && _); [|done]. by injection Ha as <-.
  - left. assert (p1 = set_cancel p) as -> by (destruct (p_phase p); congruence). done.
  - left. assert (p1 = die p) as -> by (destruct (p_phase p); congruence). done.
  - left. destruct (bool_decide _); [|done]. by injection Ha as <-.
Qed.
End presence.

(** * The theorems *)

(** C33: presence in the registry means that the replica can serve, but for four cases.
    In every run of the process, whatever becomes of its requests to etcd: while its key is
    listed the server is listening and the engine task is running and has not been told
    to stop, unless the process is gone; or a round of the engine task raised, after
    which nothing runs the engine although the key stays; or the key had been withdrawn
    and one of the process's requests was not answered; or the key had been withdrawn
    although the renewal thread had not ended within the five seconds it was waited for.
    Once the process is on
    its way out and that thread has ended, the key is gone after one [ttl] at the latest.
    And a process that has returned no longer listens, has no call in progress and no
    engine task, and is draining. *)
Theorem listed_means_serving {St Lease} `{Registry St Lease, Unicode} ttl `{!RegistryLaws St Lease ttl} etcd s (l : list act) p :
  holder s = None → acts ttl etcd l (born s) = Some p →
  (listed (p_reg p) →
     p_listening p = true ∧ p_task p = Running ∧ p_ae_stop p = false ∨
     p_phase p = Dead ∨
     p_listening p = true ∧ p_task p = TaskFailed ∧ Round false ∈ l ∨
     r_caller (p_reg p) = Withdrawn ∧ (Exists unanswered l ∨ r_abandoned (p_reg p) = true)) ∧
  (silent p → ∀ l' p', acts ttl etcd l' p = Some p' → listed (p_reg p') → (proc_time p' < proc_time p + qc_of_Z ttl)%Qc) ∧
  (p_phase p = Returned → p_listening p = false ∧ p_calls p = 0 ∧ p_task p = NoTask ∧ p_ae_stop p = true ∧ p_draining p = true ∧
     away (r_caller (p_reg p))).
Proof.
  intros Hs Hl. pose proof (acts_inv ttl etcd l _ p Hl (born_inv s Hs)) as Hi. split_and!.
  - intros [k Hk]. destruct (decide (p_phase p = Dead)) as [|Hne]; [auto|]. destruct (inv_parts p Hne Hi) as [Hsh Hr].
    pose proof (ri_holder _ Hr k Hk) as Hh. rw /shape in Hsh. rw /held_by in Hh.
    assert (away (r_caller (p_reg p)) → r_caller (p_reg p) = Withdrawn ∧ blamed (p_reg p)) as Haway.
    { pose proof (ri_lease _ Hr) as Hn. rw /lease_fits in Hn. destruct (r_caller (p_reg p)); try done; [congruence|]. by destruct Hh. }
    assert (r_caller (p_reg p) ≠ NoReg) as Hno by (intros Hn; rw Hn in Haway; by destruct (Haway I)).
    assert (blamed (p_reg p) → Exists unanswered l ∨ r_abandoned (p_reg p) = true) as Hblame.
    { intros [Hb|[Hb|Hb]]; [| |by right]; left.
      - by destruct (acts_lost ttl etcd l _ p Hl ltac:(by left)) as [[[=]|[=]]|].
      - by destruct (acts_lost ttl etcd l _ p Hl ltac:(by right)) as [[[=]|[=]]|]. }
    assert (p_task p = TaskFailed → Round false ∈ l) as Hfail.
    { intros Hf. by destruct (acts_failed ttl etcd l _ p Hl Hf). }
    assert (p_listening p = true ∧ up p ∨ r_caller (p_reg p) = Withdrawn ∧ blamed (p_reg p)) as [[H1 [[H2|H2] H3]]|[H1 H2]];
      [clear Hh Hr Hi Hblame; destruct (p_phase p) eqn:Hph; naive_solver|..]; auto 10.
  - intros Hsil l' p' Hl' Hk. destruct (acts_silent ttl etcd l' p p' Hl' Hsil Hk) as [Hk0 Hlap].
    destruct (lapses_soon (ttl := ttl) _ Hk) as [H1 _]. destruct (lapses_soon (ttl := ttl) _ Hk0) as [_ H2].
    rw Hlap in H1. by eapply Qclt_le_trans.
  - intros Hret. destruct Hi as [Hsh _]. rw /shape Hret in Hsh. naive_solver.
Qed.

Lemma acts_way_out {St Lease} `{Registry St Lease, Unicode} ttl `{!RegistryLaws St Lease ttl} etcd (l : list act) : ∀ p p',
  acts ttl etcd l p = Some p' → p_phase p = Finally ∨ p_phase p = Dead ∨ p_draining p = true →
  p_phase p' = Finally ∨ p_phase p' = Dead ∨ p_draining p' = true.
Proof.
  induction l as [|a l IH]; intros p p' Hl Hp; cbn in Hl; [by injection Hl as <-|].
  destruct (act_next ttl etcd a p) as [p1|] eqn:Ha; [|done]. apply (IH p1 p' Hl). clear IH Hl.
  destruct Hp as [Hp|[Hp|Hp]]; [| |by right; right; apply (act_next_drains ttl etcd a p p1 Ha)].
  - destruct a; cbn [act_next] in Ha; rw /main_next ?Hp in Ha; repeat case_match; simplify_eq/=; rw ?Hp; auto.
    destruct (thread_next ttl f (p_reg p)); [|done]. injection Ha as <-. by left.
  - destruct a; cbn [act_next] in Ha; rw /main_next ?Hp in Ha; repeat case_match; simplify_eq/=; rw ?Hp; auto.
    destruct (thread_next ttl f (p_reg p)); [|done]. injection Ha as <-. by right; left.
Qed.

Lemma acts_app {St Lease} `{Registry St Lease, Unicode} ttl etcd l1 l2 : ∀ p,
  acts ttl etcd (l1 ++ l2) p = acts ttl etcd l1 p ≫= acts ttl etcd l2.
Proof. induction l1 as [|a l1 IH]; intros p; [done|]. cbn. destruct (act_next ttl etcd a p); [apply IH|done]. Qed.

(** Waiting at most the longest wait before each of at most twelve operations. *)
Lemma can_finish {St Lease} `{Registry St Lease, Unicode} ttl `{!RegistryLaws St Lease ttl} etcd ok f n : ∀ p,
  rank p ≤ n → proc_inv p → timed p → shutting p →
  ∃ k p', k ≤ n ∧ acts ttl etcd (concat (replicate k [Pass (longest_wait etcd); Main ok f])) p = Some p' ∧ finished p'.
Proof.
  induction n as [|n IH]; intros p Hn Hi Ht Hsh.
  { exists 0, p. split_and!; [done..|]. rw /rank in Hn. rw /finished. rw /shutting in Hsh. destruct (p_phase p); done || lia. }
  assert (finished p ∨ p_phase p ≠ Dead) as [Hf|Hne].
  { rw /finished. destruct (p_phase p); auto. }
  { exists 0, p. split_and!; [lia|done|done]. }
  destruct (waits_end ttl etcd ok f p Hi Ht Hsh Hne) as [p1 Hp1].
  destruct (acts_rank ttl etcd _ p p1 Hp1 Hi Hsh) as [Hsh1 Hr]. change (mains _) with 1 in Hr.
  destruct (acts_timed ttl etcd _ p p1 Hp1 Ht) as [Ht1 _].
  destruct (IH p1 ltac:(lia) ltac:(by eapply acts_inv) Ht1 Hsh1) as (k & p' & Hk & Ha & Hf).
  exists (S k), p'. split_and!; [lia| |done]. cbn [replicate concat]. by rw acts_app Hp1.
Qed.

(** C34: the way out is bounded.  Once [serve] has reached its [finally], in every run:
    at most twelve of its operations are left, the end of the process included; none of
    its waits lasts more than ten seconds or, when that is more, five seconds for each
    etcd endpoint, the time the revocation may take when [urlopen]'s timeout is that of
    the whole request (the joins of the renewal thread and of
    the engine task and the grace period take at most five and ten), so that it ends
    whatever becomes of its requests and whatever the renewal
    thread, the engine task and the calls in progress do; and from the moment it drains,
    no call is taken on. *)
Theorem shutdown_bounded {St Lease} `{Registry St Lease, Unicode} ttl `{!RegistryLaws St Lease ttl} etcd s (l : list act) p :
  holder s = None → acts ttl etcd l (born s) = Some p → p_phase p = Finally →
  ∀ l' p', acts ttl etcd l' p = Some p' →
    mains l' ≤ 12 ∧
    (∀ ok f, p_phase p' = Dead ∨ is_Some (acts ttl etcd [Pass (longest_wait etcd); Main ok f] p')) ∧
    (∀ ok f, ∃ k p'', k ≤ 12 ∧ acts ttl etcd (concat (replicate k [Pass (longest_wait etcd); Main ok f])) p' = Some p'' ∧ finished p'') ∧
    (p_phase p' = Finally ∨ p_phase p' = Dead ∨ p_draining p' = true) ∧
    (p_draining p' = true → ∀ l'' p'', acts ttl etcd l'' p' = Some p'' → p_calls p'' ≤ p_calls p').
Proof.
  intros Hs Hl Hph l' p' Hl'. pose proof (acts_inv ttl etcd l _ p Hl (born_inv s Hs)) as Hi.
  assert (timed p) as Ht by (by apply (acts_timed ttl etcd l _ p Hl)).
  assert (shutting p) as Hsh by (by rw /shutting Hph). destruct (acts_rank ttl etcd l' p p' Hl' Hi Hsh) as [Hsh' Hr].
  pose proof (acts_inv ttl etcd l' p p' Hl' Hi) as Hi'. destruct (acts_timed ttl etcd l' p p' Hl' Ht) as [Ht' _].
  pose proof (rank_bound p) as Hb. split_and!.
  - lia.
  - intros ok f. destruct (decide (p_phase p' = Dead)) as [|Hne]; [by left|right]. by apply waits_end.
  - intros ok f. apply can_finish; try done. pose proof (rank_bound p'). lia.
  - eapply (acts_way_out ttl etcd l' p); auto.
  - intros Hd l'' p'' Hl''. by apply (acts_drains ttl etcd l'' p' p'').
Qed.

(** ** A registry *)

(** One key, with the lease it is attached to and what is left of it. *)
Module ToyEtcd.
Record t := mk { clock : Qc; owner : option (nat * Qc); fresh : nat }.
Definition ttl : Z := 10.
Definition alive (s : t) : option nat :=
  match owner s with
  | Some (l, rest_) => if bool_decide (0 < rest_)%Qc && bool_decide (rest_ <= qc_of_Z ttl)%Qc then Some l else None
  | None => None
  end.
Definition touch (l : nat) (s : t) : bool * t :=
  if bool_decide (alive s = Some l) then (true, mk (clock s) (Some (l, qc_of_Z ttl)) (fresh s)) else (false, s).
Definition drop_lease (l : nat) (s : t) : bool * t :=
  if bool_decide (alive s = Some l) then (true, mk (clock s) None (fresh s)) else (false, s).
Definition pass (d : Qc) (s : t) : t :=
  mk (clock s + d)%Qc (match alive s, owner s with Some l, Some (_, rest_) => Some (l, rest_ - d)%Qc | _, _ => None end) (fresh s).
#[global] Instance registry : Registry t nat := {
  holder := alive;
  reg_time := clock;
  reg_grant _ s := (Some (fresh s), mk (clock s) (owner s) (S (fresh s)));
  reg_put l s := (true, mk (clock s) (Some (l, qc_of_Z ttl)) (fresh s));
  reg_keepalive := touch;
  reg_revoke := drop_lease;
  reg_pass := pass;
}.
Definition start : t := mk 0%Qc None 0.

Lemma alive_owner s l : alive s = Some l → ∃ rest_, owner s = Some (l, rest_) ∧ (0 < rest_)%Qc ∧ (rest_ <= qc_of_Z ttl)%Qc.
Proof.
  rw /alive. destruct (owner s) as [[k rest_]|]; [|done]. destruct (bool_decide (0 < rest_)%Qc) eqn:H1; [|done].
  destruct (bool_decide (rest_ <= qc_of_Z ttl)%Qc) eqn:H2; [|done]. apply bool_decide_eq_true in H1. apply bool_decide_eq_true in H2. cbn. intros [= ->]. by exists rest_.
Qed.

#[global] Instance laws : RegistryLaws t nat ttl.
Proof.
  refine {| lapses s := match owner s with Some (_, rest_) => (clock s + rest_)%Qc | None => 0%Qc end |}; cbn; try done.
  - intros l s. rw /touch. destruct (bool_decide _) eqn:Ha; [|done]. apply bool_decide_eq_true in Ha. by rw Ha.
  - intros l s. rw /drop_lease. destruct (bool_decide _) eqn:Ha; [split; [done|by right]|]. apply bool_decide_eq_false in Ha. split; [done|by left].
  - intros d s. rw {1 3}/alive /pass /=. destruct (alive s) as [l|] eqn:Ha; [|by right].
    destruct (alive_owner s l Ha) as (rest_ & -> & _). destruct (_ && _); auto.
  - intros l s. rw /touch. by destruct (bool_decide _).
  - intros l s. rw /drop_lease. by destruct (bool_decide _).
  - intros s [l Hl]. destruct (alive_owner s l Hl) as (rest_ & -> & H1 & H2). split; qc_lra.
  - intros d s [l Hl]. destruct (alive_owner _ l Hl) as (rest_ & Ho & _). cbn in Ho. destruct (alive s) as [k|] eqn:Ha; [|done].
    destruct (alive_owner s k Ha) as (rest_' & Ho' & _). rw Ho'. qc_lra.
Defined.

(** ["etcd:2379"], and a run that ends serving with its key listed. *)
Definition etcd : list Z := [101; 116; 99; 100; 58; 50; 51; 55; 57]%Z.
Definition go : act := Main true Answered.
Definition serving : list act := replicate 7 go.
Definition asked : list act := serving ++ [Interrupt; go].

(** Interrupted while the renewal thread re-announces: it outlasts the five seconds. *)
Definition late : list act :=
  serving ++ [Pass (qc_of_Z 11); Renew Answered; Renew Answered; Renew Answered; Renew Answered; Interrupt; go; go; go; Pass (qc_of_Z 5)] ++
  replicate 5 go ++ [Renew Answered; go].
End ToyEtcd.

#[local] Abbreviation toy_run l := (acts (H := ToyEtcd.registry) ToyEtcd.ttl ToyEtcd.etcd l (born ToyEtcd.start)).

Lemma listed_means_serving_witness : ∃ p,
  toy_run ToyEtcd.serving = Some p ∧ listed (p_reg p) ∧ p_listening p = true ∧ p_task p = Running.
Proof.
  destruct (toy_run ToyEtcd.serving) as [p|] eqn:Hp; [|vm_compute in Hp; discriminate].
  assert (listed (p_reg p) ∧ p_phase p = Serving) as [H1 H2].
  { vm_compute in Hp. injection Hp as <-. split; [eexists|]; reflexivity. }
  destruct (listed_means_serving (H := ToyEtcd.registry) ToyEtcd.ttl ToyEtcd.etcd ToyEtcd.start ToyEtcd.serving p ltac:(reflexivity) Hp) as (Hl & _ & _).
  exists p. split; [reflexivity|]. split; [exact H1|]. vm_compute in Hp. injection Hp as <-.
  destruct (Hl H1) as [[H3 _]|[H3|[(H3 & _)|[H3 _]]]]; [|discriminate|exact (conj H3 eq_refl)|discriminate]. split; [exact H3|reflexivity].
Defined.

Lemma shutdown_bounded_witness : ∃ p p' k,
  toy_run ToyEtcd.asked = Some p ∧ k ≤ 12 ∧
  acts ToyEtcd.ttl ToyEtcd.etcd (concat (replicate k [Pass (longest_wait ToyEtcd.etcd); Main false NotSent])) p = Some p' ∧ finished p'.
Proof.
  destruct (toy_run ToyEtcd.asked) as [p|] eqn:Hp; [|vm_compute in Hp; discriminate].
  assert (p_phase p = Finally) as H1 by (vm_compute in Hp; injection Hp as <-; reflexivity).
  destruct (shutdown_bounded (H := ToyEtcd.registry) ToyEtcd.ttl ToyEtcd.etcd ToyEtcd.start ToyEtcd.asked p ltac:(reflexivity) Hp H1 [] p ltac:(reflexivity)) as (_ & _ & Hf & _).
  destruct (Hf false NotSent) as (k & p' & Hk & Ha & Hfin). exists p, p', k. split; [reflexivity|]. split; [exact Hk|]. split; [exact Ha|exact Hfin].
Defined.

(** Draining is set before the lease is revoked: the router still sends calls, which are
    refused. *)
Theorem refuses_while_listed : ∃ p, toy_run (ToyEtcd.asked ++ [ToyEtcd.go]) = Some p ∧
  listed (p_reg p) ∧ p_listening p = true ∧ act_next ToyEtcd.ttl ToyEtcd.etcd Call p = Some p.
Proof. eexists. split; [vm_compute; reflexivity|]. split; [eexists|split]; reflexivity. Qed.

(** Every request is answered, and yet the key of a replica that no longer listens is
    put back after [stop] has returned. *)
Theorem late_announcement : ∃ p, toy_run ToyEtcd.late = Some p ∧ listed (p_reg p) ∧ p_listening p = false ∧ r_caller (p_reg p) = Withdrawn.
Proof. eexists. split; [vm_compute; reflexivity|]. split; [eexists|split]; reflexivity. Qed.

(** A round of the engine task raises: the replica stays listed and listens, and nothing
    serves its calls. *)
Theorem failed_engine_stays_listed : ∃ p, toy_run (ToyEtcd.serving ++ [Round false; Renew Answered; Renew Answered; Call]) = Some p ∧
  listed (p_reg p) ∧ p_listening p = true ∧ p_task p = TaskFailed ∧ p_calls p = 1.
Proof. eexists. split; [vm_compute; reflexivity|]. split; [eexists|split_and!]; reflexivity. Qed.

(** Three endpoints that do not answer: the revocation alone takes fifteen seconds. *)
Example slow_revocation :
  let etcd := ToyEtcd.etcd ++ [44]%Z ++ ToyEtcd.etcd ++ [44]%Z ++ ToyEtcd.etcd in
  let revoking := ToyEtcd.asked ++ [ToyEtcd.go; ToyEtcd.go; Renew Answered; ToyEtcd.go; ToyEtcd.go] in
  let try d := acts (H := ToyEtcd.registry) ToyEtcd.ttl etcd (revoking ++ [Pass (qc_of_Z d); Main false NotSent]) (born ToyEtcd.start) in
  is_Some (acts (H := ToyEtcd.registry) ToyEtcd.ttl etcd revoking (born ToyEtcd.start)) ∧ try 14%Z = None ∧ is_Some (try 15%Z).
Proof. vm_compute. split; [by eexists|]. split; [done|by eexists]. Qed.

(** SIGTERM leaves the key to its lease. *)
Theorem terminated_stays_listed : ∃ p, toy_run (ToyEtcd.serving ++ [Kill]) = Some p ∧ listed (p_reg p) ∧ p_listening p = false ∧ p_draining p = false.
Proof. eexists. split; [vm_compute; reflexivity|]. split; [eexists|split]; reflexivity. Qed.
