(* ===== verification/Data.v ===== *)
(** * Training data (model/train/data.py)

    A corpus is read in chunks and cut into documents, the documents are tokenised into
    one flat file of 16-bit tokens separated by the end-of-text token, and training
    samples windows of that file.  The properties: where the reads cut the corpus makes
    no difference; the file holds exactly the selected documents, in order, each
    recoverable by splitting at the separator, whenever the buffer was flushed; every
    sampled row is a full window. *)

From Stdlib Require Import ssreflect QArith Qcanon.
From stdpp Require Import prelude gmap list.
From S2P Require Import Prelude Text Tokenizer.

Definition MAX_VOCAB_FOR_UINT16 : Z := 65536.
Definition CHUNK_BYTES : Z := 8 * 1024 * 1024.
Definition FLUSH_TOKENS : Z := 8000000.

(** [f.read(n)] on a text file: what is read, and what is left. *)
Fixpoint read_chars (n : Z) (f : list Z) : list Z * list Z :=
  match f with
  | [] => ([], [])
  | c :: f' => if (n <=? 0)%Z then ([], f) else let (a, b) := read_chars (n - 1) f' in (c :: a, b)
  end.

Section data.
Context `{Unicode}.

(** ** Documents *)

(** [doc = doc.strip(); if doc: yield doc]. *)
Definition emit (doc : list Z) : list (list Z) :=
  match strip is_space doc with [] => [] | doc => [doc] end.

Section stream.
(** The chunk size, the decoded text of the file, and how much of it to read. *)
Context (chunk_bytes : Z) (max_bytes : option Z).

Fixpoint stream_from (fuel : nat) (f : list Z) (read : Z) (tail : list Z) : list (list Z) :=
  match fuel with
  | O => []
  | S fuel =>
      let want := match max_bytes with Some m => Z.min chunk_bytes (m - read) | None => chunk_bytes end in
      if match max_bytes with Some _ => (want <=? 0)%Z | None => false end then emit tail
      else
        match read_chars want f with
        | ([], _) => emit tail
        | (chunk, f) =>
            let parts := str_split END_OF_TEXT (tail ++ chunk) in
            match py_pop parts with
            | Some (tail, parts) => (parts ≫= emit) ++ stream_from fuel f (read + Z.of_nat (length chunk)) tail
            | None => []
            end
        end
  end.
End stream.

Definition stream_documents (text : list Z) (max_bytes : option Z) : list (list Z) :=
  stream_from CHUNK_BYTES max_bytes (S (length text)) text 0 [].

(** ** The token file *)

Record Prep := mkPrep {
  p_tok : BPETokenizer;
  p_file : list Z;
  p_buf : list Z;
  p_tokens : Z;
  p_docs : Z;
  p_pending : option (list Z);
}.

Record Manifest := mkManifest {
  mf_tokens : Z;
  mf_documents : Z;
  mf_vocab_size : nat;
  mf_eos_id : Z;
  mf_source_bytes : Z;
  mf_bytes_per_token : Qc;
  mf_dropped_first : bool;
  mf_dropped_last : bool;
}.

Definition set_tok (t : BPETokenizer) (s : Prep) : Prep :=
  mkPrep t (p_file s) (p_buf s) (p_tokens s) (p_docs s) (p_pending s).

(** [np.asarray(buf, dtype=np.uint16).tofile(f)]. *)
Definition fits (i : Z) : bool := ((0 <=? i) && (i <? MAX_VOCAB_FOR_UINT16))%Z.
Definition write_buf : M Prep unit :=
  let* s := get in
  if forallb fits (p_buf s)
  then modify (λ s, mkPrep (p_tok s) (p_file s ++ p_buf s) (p_buf s) (p_tokens s) (p_docs s) (p_pending s))
  else raise OverflowError.
Definition clear_buf : M Prep unit :=
  modify (λ s, mkPrep (p_tok s) (p_file s) [] (p_tokens s) (p_docs s) (p_pending s)).

Section prepare.
Context (flush_tokens : Z) (eos : Z) (drop_last_document : bool).

(** The body of the loop, once a document is in hand. *)
Definition tokenise (doc : list Z) : M Prep unit :=
  let* ids := zoom p_tok set_tok (encode doc false) in
  let ids := ids ++ [eos] in
  do* modify (λ s, mkPrep (p_tok s) (p_file s) (p_buf s ++ ids)
        (p_tokens s + Z.of_nat (length ids)) (p_docs s + 1) (p_pending s)) in
  let* s := get in
  if (flush_tokens <=? Z.of_nat (length (p_buf s)))%Z then do* write_buf in clear_buf else ret tt.

Definition prepare_doc (doc : list Z) : M Prep unit :=
  if drop_last_document then
    let* s := get in
    do* modify (λ s, mkPrep (p_tok s) (p_file s) (p_buf s) (p_tokens s) (p_docs s) (Some doc)) in
    match p_pending s with
    | None => ret tt
    | Some doc => tokenise doc
    end
  else tokenise doc.
End prepare.

Definition prepare_with (flush_tokens : Z) (text : list Z) (source_bytes : Z)
    (drop_first_document drop_last_document : bool) : M Prep Manifest :=
  let* s := get in
  if (MAX_VOCAB_FOR_UINT16 <? Z.of_nat (vocab_size (p_tok s)))%Z then raise ValueError
  else
    let* eos := lift_result (eos_id (p_tok s)) in
    let docs := stream_documents text None in
    let docs := if drop_first_document then drop 1 docs else docs in
    do* modify (λ s, mkPrep (p_tok s) [] [] 0 0 None) in
    do* for_each docs (prepare_doc flush_tokens eos drop_last_document) in
    let* s := get in
    do* (match p_buf s with [] => ret tt | _ => write_buf end) in
    let* s := get in
    ret (mkManifest (p_tokens s) (p_docs s) (vocab_size (p_tok s)) eos source_bytes
           (Q2Qc (inject_Z source_bytes / inject_Z (Z.max (p_tokens s) 1)))
           drop_first_document drop_last_document).

Definition prepare := prepare_with FLUSH_TOKENS.

(** ** Sampling *)

Record TokenDataset := mkDataset { td_tokens : list Z; td_seq_len : nat }.

Definition new_dataset (tokens : list Z) (seq_len : nat) : result TokenDataset :=
  if length tokens <=? seq_len then Raise ValueError else Ok (mkDataset tokens seq_len).

(** [np.stack]: at least one row, all of one length. *)
Definition stack (rows : list (list Z)) : result (list (list Z)) :=
  match rows with
  | [] => Raise ValueError
  | r :: rows' => if forallb (λ r', length r' =? length r) rows' then Ok rows else Raise ValueError
  end.

(** [randint high n]: the draws of [torch.randint(high, (n,))]. *)
Definition batch (randint : nat → nat → list nat) (d : TokenDataset) (batch_size : nat) : result (list (list Z)) :=
  let high := length (td_tokens d) - td_seq_len d in
  let starts := randint high batch_size in
  stack ((λ i, take (td_seq_len d) (drop i (td_tokens d))) <$> starts).
End data.

(** * Documents do not depend on the chunks *)

Section documents.
Context `{Unicode}.

(** The documents of a text. *)
Definition documents (text : list Z) : list (list Z) := str_split END_OF_TEXT text ≫= emit.

Lemma read_chars_spec n f : ∀ a b, read_chars n f = (a, b) →
  f = a ++ b ∧ a = take (Z.to_nat n) f ∧ ((0 < n)%Z → a = [] → f = []).
Proof.
  revert n. induction f as [|c f IH]; intros n a b; cbn.
  { intros [= <- <-]. by rw take_nil. }
  destruct (Z.leb_spec n 0); [intros [= <- <-]; replace (Z.to_nat n) with 0 by lia; split_and!; [done|done|lia]|].
  destruct (read_chars (n - 1) f) as [a' b'] eqn:Hr. intros [= <- <-].
  destruct (IH _ _ _ Hr) as (-> & Ha & _). split_and!; [done| |done].
  replace (Z.to_nat n) with (S (Z.to_nat (n - 1))) by lia. cbn. by rw -Ha.
Qed.

Lemma sep_ne : END_OF_TEXT ≠ [].
Proof. done. Qed.

(** The last part of a split has nothing left to split. *)
Lemma split_last s parts tail : py_pop (str_split END_OF_TEXT s) = Some (tail, parts) →
  str_split END_OF_TEXT s = parts ++ [tail] ∧ str_split END_OF_TEXT tail = [tail].
Proof.
  intros Hp%py_pop_Some. split; [done|].
  pose proof (split_app END_OF_TEXT sep_ne s []) as Ha. rw !app_nil_r Hp last_snoc /= length_app Nat.add_1_r /= in Ha.
  rw take_app_length in Ha. by apply app_inv_head in Ha.
Qed.

Lemma split_pop s : ∃ tail parts, py_pop (str_split END_OF_TEXT s) = Some (tail, parts).
Proof.
  destruct (py_pop (str_split END_OF_TEXT s)) as [[tail parts]|] eqn:Hp; [eauto|].
  apply py_pop_None in Hp. pose proof (split_app END_OF_TEXT sep_ne s []) as Ha.
  rw !app_nil_r Hp in Ha. done.
Qed.

(** What is still to be read. *)
Definition unread (max_bytes : option Z) (read : Z) (f : list Z) : list Z :=
  match max_bytes with Some m => take (Z.to_nat (m - read)) f | None => f end.

Lemma stream_from_spec chunk max_bytes fuel : ∀ f read tail, (0 < chunk)%Z → length f < fuel →
  str_split END_OF_TEXT tail = [tail] →
  stream_from chunk max_bytes fuel f read tail = documents (tail ++ unread max_bytes read f).
Proof.
  induction fuel as [|fuel IH]; intros f read tail Hchunk Hfuel Htail; [lia|]. cbn [stream_from].
  assert (emit tail = documents tail) as Hemit by by rw /documents Htail /= app_nil_r.
  set (want := match max_bytes with Some m => Z.min chunk (m - read) | None => chunk end).
  destruct (match max_bytes with Some _ => (want <=? 0)%Z | None => false end) eqn:Hstop.
  { rw Hemit /unread. destruct max_bytes as [m|]; [|done]. replace (Z.to_nat (m - read)) with 0; [by rw app_nil_r|].
    cbn in want. apply Z.leb_le in Hstop. subst want. lia. }
  assert (0 < want)%Z as Hwant.
  { subst want. destruct max_bytes as [m|]; [|done]. apply Z.leb_gt in Hstop. done. }
  destruct (read_chars want f) as [chunk' f'] eqn:Hr. destruct (read_chars_spec _ _ _ _ Hr) as (Hf & Hc & Hnil).
  destruct chunk' as [|c chunk'].
  { rw Hnil //. rw Hemit /unread. destruct max_bytes; by rw ?take_nil app_nil_r. }
  set (got := c :: chunk') in *. destruct (split_pop (tail ++ got)) as (tail' & parts & Hp). rw Hp.
  apply split_last in Hp as [Hp Htail'].
  rw IH //; [|subst f got; rw length_app /= in Hfuel; lia].
  rw /documents. assert (unread max_bytes read f = got ++ unread max_bytes (read + Z.of_nat (length got)) f') as Hun.
  { rw /unread Hf. destruct max_bytes as [m|]; [|done].
    assert (Z.of_nat (length got) ≤ m - read)%Z as Hle.
    { rw Hc. rw length_take. cbn in want. subst want. lia. }
    rw take_app_ge; [|lia]. do 2 f_equal. lia. }
  rw Hun assoc (split_app END_OF_TEXT sep_ne (tail ++ got)) Hp last_snoc /= length_app Nat.add_1_r /=.
  by rw take_app_length bind_app.
Qed.
End documents.

(** C29: a document is never cut by a chunk boundary.  Whatever the chunk size, reading the
    corpus chunk by chunk with the last part carried over yields exactly the documents of
    the text split at once: the stripped, non-empty parts between the separators, even
    where a read ended inside a separator; [max_bytes] is honoured to the character.  In
    particular for the chunk size the code uses. *)
Theorem stream_exact `{Unicode} chunk max_bytes text :
  (0 < chunk)%Z →
  stream_from chunk max_bytes (S (length text)) text 0 [] = documents (unread max_bytes 0 text) ∧
  stream_documents text max_bytes = documents (unread max_bytes 0 text).
Proof. intros Hc. split; by apply stream_from_spec; [|lia|]. Qed.

(** ["a <|endoftext|>b"], read three characters at a time. *)
Definition toy_corpus_text : list Z := [97; 32]%Z ++ END_OF_TEXT ++ [98]%Z.
Lemma stream_exact_witness :
  stream_from 3 None 17 toy_corpus_text 0 [] = [[97]; [98]]%Z ∧
  stream_from 3 (Some 14%Z) 17 toy_corpus_text 0 [] = documents ([97; 32]%Z ++ take 12 END_OF_TEXT).
Proof. split; [vm_compute; reflexivity|]. apply (stream_exact 3 (Some 14%Z) toy_corpus_text). lia. Defined.

(** * What the token file holds *)

Section contents.
Context `{UnicodeLaws}.

(** The ids of a document: its pre-tokens one by one, each with the merges replayed. *)
Definition ordinary_ids (ms : Merges) (doc : list Z) : list Z :=
  findall SPLIT_PATTERN doc ≫= λ piece, replay ms (piece ≫= utf8_char).

Lemma encode_plain t doc : tok_ok t → forallb scalar doc = true →
  wp (encode doc false) (λ ids t', ids = ordinary_ids (merges t) doc ∧ tok_ok t' ∧ same_tok t t') never t.
Proof.
  intros Ht Hsc. rw /encode /_encode_ordinary. do 3 wp_step.
  destruct (findall_split doc) as [Hcat _]. pose proof (scalar_filter underscore doc Hsc) as Hsf. rw -Hcat in Hsf.
  rw /ordinary_ids. clear Hcat. revert t Ht. induction (findall SPLIT_PATTERN doc) as [|piece l IH]; intros t Ht.
  { do 2 wp_step. split_and!; [done|done|apply same_tok_refl]. }
  assert (forallb scalar piece = true ∧ forallb scalar (concat l) = true) as [Hp Hl].
  { rw /= forallb_app andb_true_iff in Hsf. done. }
  do 2 wp_step. rw {1}/wp /lift_result utf8_encode_ok //. eapply wp_mono; [by apply encode_piece_spec| |done].
  intros ids t1 (-> & Ht1 & Hs1). wp_step. eapply wp_mono; [apply (IH Hl t1 Ht1)| |done].
  intros out t2 (Hout & Ht2 & Hs2). do 2 wp_step. rw concat_cons.
  split_and!; [|done|by eapply same_tok_trans]. cbn. f_equal. inversion Hout as [Hc]. by rw Hs1 in Hc |- *.
Qed.

(** Ids of ordinary text are below those of the special tokens. *)
Lemma replay_bound ms l n : (∀ m, m ∈ ms → 0 ≤ m.2 < n)%Z → Forall (λ i, 0 ≤ i < n)%Z l → Forall (λ i, 0 ≤ i < n)%Z (replay ms l).
Proof.
  rw /replay. revert l. induction ms as [|m ms IH]; intros l Hm Hl; [done|]. cbn. apply IH.
  - intros m' Hm'. apply Hm. by right.
  - apply Forall_forall. intros x Hx. apply merge_elem in Hx as [->|Hx]; [apply Hm; by left|]. rw Forall_forall in Hl. auto.
Qed.

Lemma ordinary_bound t doc : tok_ok t → forallb scalar doc = true →
  Forall (λ i, 0 ≤ i < 256 + Z.of_nat (length (merges t)))%Z (ordinary_ids (merges t) doc).
Proof.
  intros Ht Hsc. destruct (findall_split doc) as [Hcat _]. pose proof (scalar_filter underscore doc Hsc) as Hsf. rw -Hcat in Hsf.
  apply Forall_bind, Forall_forall. intros piece Hin. apply replay_bound.
  - intros m Hm. apply list_elem_of_lookup in Hm as [i Hi]. destruct (to_merges _ Ht) as [_ Hwf].
    pose proof (lookup_lt_Some _ _ _ Hi). destruct (Hwf i m Hi) as [-> _]. lia.
  - pose proof (utf8_bytes piece (scalar_part _ _ Hsf Hin)) as Hb. eapply Forall_impl; [exact Hb|]. cbn. lia.
Qed.

Lemma vocab_big t : tok_ok t → 256 + length (merges t) ≤ vocab_size t.
Proof.
  intros Ht. rw /vocab_size -size_dom.
  assert (length (seqZ 0 (256 + Z.of_nat (length (merges t)))) = 256 + length (merges t)) as <- by (rw length_seqZ; lia).
  rw -(size_list_to_set (C := gset Z)); [|apply NoDup_seqZ]. apply subseteq_size. intros i Hi.
  apply elem_of_list_to_set, elem_of_seqZ in Hi. apply elem_of_dom.
  destruct (decide (i < 256)%Z); [by rw (to_bytes _ Ht); [|lia]|].
  destruct (lookup_lt_is_Some_2 (merges t) (Z.to_nat (i - 256))) as [m Hm]; [lia|].
  destruct (to_vocab _ Ht m) as (x & y & _ & _ & Hv); [by eapply list_elem_of_lookup_2|].
  destruct (to_merges _ Ht) as [_ Hwf]. destruct (Hwf _ _ Hm) as [Hid _].
  replace i with m.2; [by rw Hv|]. rw Hid. lia.
Qed.

Lemma ordinary_decodes t doc : tok_ok t → forallb scalar doc = true →
  decode t (ordinary_ids (merges t) doc) = Ok (filter (λ c, underscore c = false) doc).
Proof.
  intros Ht Hsc. pose proof (encode_plain t doc Ht Hsc) as H1. pose proof (encode_spec t doc false Ht Hsc (or_introl eq_refl)) as H2.
  apply wp_never in H1 as (ids & t' & Hrun & -> & _). rw /wp Hrun in H2. destruct H2 as (Hb & _).
  rw /decode Hb utf8_roundtrip //. by apply scalar_filter.
Qed.

(** Documents are made of the characters of the text. *)
Lemma strip_Forall (P : Z → Prop) p s : Forall P s → Forall P (strip p s).
Proof.
  assert (∀ s, Forall P s → Forall P (lstrip p s)) as Hl.
  { intros s'. induction 1 as [|c s'' Hc Hs IH]; [done|]. cbn. destruct (p c); [done|by constructor]. }
  intros Hs. rw /strip /rstrip. apply Forall_rev, Hl, Forall_rev, Hl, Hs.
Qed.

Lemma split_Forall (P : Z → Prop) sep s : ∀ n acc, Forall P acc → Forall P s → Forall (Forall P) (str_split_from sep n acc s).
Proof.
  induction s as [|c s IH]; intros n acc Hacc Hs; cbn; [by constructor|]. apply Forall_cons in Hs as [Hc Hs].
  destruct n; [|by apply IH]. case_bool_decide; [constructor; [done|by apply IH]|].
  apply IH; [apply Forall_app; split; [done|by constructor]|done].
Qed.

Lemma documents_scalar text : forallb scalar text = true → Forall (λ d, forallb scalar d = true) (documents text).
Proof.
  rw forallb_Forall. intros Hs. apply Forall_bind. eapply Forall_impl; [apply (split_Forall (λ c, scalar c = true) _ _ 0 []); [constructor|exact Hs]|].
  intros d Hd. rw /emit /compose. apply (strip_Forall _ is_space) in Hd. destruct (strip is_space d) as [|c d']; [constructor|].
  constructor; [|constructor]. by apply forallb_Forall.
Qed.

(** The file of a list of documents, and its segments. *)
Definition content (ms : Merges) (eos : Z) (docs : list (list Z)) : list Z :=
  docs ≫= λ doc, ordinary_ids ms doc ++ [eos].

Fixpoint segments_from (eos : Z) (acc ids : list Z) : list (list Z) :=
  match ids with
  | [] => match acc with [] => [] | _ => [acc] end
  | i :: ids => if (i =? eos)%Z then acc :: segments_from eos [] ids else segments_from eos (acc ++ [i]) ids
  end.
Definition segments (eos : Z) (ids : list Z) : list (list Z) := segments_from eos [] ids.

Lemma segments_cut eos l rest : ∀ acc, eos ∉ l → segments_from eos acc (l ++ eos :: rest) = (acc ++ l) :: segments eos rest.
Proof.
  induction l as [|i l IH]; intros acc Hn; cbn.
  - by rw Z.eqb_refl app_nil_r.
  - apply not_elem_of_cons in Hn as [Hi Hn]. rw (proj2 (Z.eqb_neq i eos)) // IH // -assoc //.
Qed.

Lemma segments_content ms eos docs : Forall (λ d, eos ∉ ordinary_ids ms d) docs →
  segments eos (content ms eos docs) = ordinary_ids ms <$> docs.
Proof.
  induction 1 as [|d docs Hd Hdocs IH]; [done|]. rw /content /= -/(content ms eos docs) -app_assoc /segments segments_cut //=.
  by rw IH.
Qed.

(** The documents kept. *)
Definition selected (drop_first drop_last : bool) (docs : list (list Z)) : list (list Z) :=
  let docs := if drop_first then drop 1 docs else docs in
  if drop_last then take (pred (length docs)) docs else docs.

Section loop.
Context (t : BPETokenizer) (eos : Z) (flush : Z).
Hypothesis Heos : (0 ≤ eos < MAX_VOCAB_FOR_UINT16)%Z.
Hypothesis Hvoc : (Z.of_nat (vocab_size t) ≤ MAX_VOCAB_FOR_UINT16)%Z.

(** Once [D] has been tokenised. *)
Record written (D : list (list Z)) (s : Prep) : Prop := {
  wr_tok : tok_ok (p_tok s);
  wr_same : same_tok t (p_tok s);
  wr_file : p_file s ++ p_buf s = content (merges t) eos D;
  wr_tokens : p_tokens s = Z.of_nat (length (content (merges t) eos D));
  wr_docs : p_docs s = Z.of_nat (length D);
  wr_fits : forallb fits (content (merges t) eos D) = true;
}.

Lemma write_spec D s : written D s →
  wp write_buf (λ _ s', p_file s' = content (merges t) eos D ∧ p_tok s' = p_tok s ∧
    p_tokens s' = p_tokens s ∧ p_docs s' = p_docs s ∧ p_pending s' = p_pending s) never s.
Proof.
  intros Hw. rw /write_buf. do 2 wp_step. rw (_ : forallb fits (p_buf s) = true).
  { wp_step. cbn. split_and!; [apply Hw|done..]. }
  pose proof (wr_fits _ _ Hw) as Hf. rw -(wr_file _ _ Hw) forallb_app andb_true_iff in Hf. apply Hf.
Qed.

Lemma tokenise_spec D doc s : written D s → forallb scalar doc = true →
  wp (tokenise flush eos doc) (λ _ s', written (D ++ [doc]) s' ∧ p_pending s' = p_pending s) never s.
Proof.
  intros Hw Hsc. rw /tokenise. wp_step. wp_step. eapply wp_mono; [apply encode_plain; [apply Hw|done]| |done].
  intros ids t' (-> & Ht' & Hs'). assert (merges (p_tok s) = merges t) as Hms by by rw (wr_same _ _ Hw).
  rw Hms. do 3 wp_step. cbn [p_tok p_file p_buf p_tokens p_docs p_pending set_tok]. wp_step.
  set (s1 := mkPrep _ _ _ _ _ _).
  assert (content (merges t) eos (D ++ [doc]) = content (merges t) eos D ++ ordinary_ids (merges t) doc ++ [eos]) as Hcont.
  { by rw /content bind_app /= app_nil_r. }
  assert (written (D ++ [doc]) s1) as Hw1.
  { split; cbn.
    - done.
    - eapply same_tok_trans; [apply Hw|done].
    - by rw Hcont app_assoc (wr_file _ _ Hw).
    - rw Hcont (wr_tokens _ _ Hw) !length_app /=. lia.
    - rw (wr_docs _ _ Hw) length_app /=. lia.
    - rw Hcont forallb_app (wr_fits _ _ Hw) forallb_app /= andb_true_r. apply andb_true_iff. split; [|rw /fits; lia].
      apply forallb_Forall. rw -Hms. eapply Forall_impl; [apply ordinary_bound; [apply Hw|done]|].
      intros i Hi. rw Hms in Hi. pose proof (vocab_big _ (wr_tok _ _ Hw)) as Hv. rw Hms in Hv.
      assert (vocab_size (p_tok s) = vocab_size t) as Hvs by by rw (wr_same _ _ Hw).
      rw /fits. lia. }
  destruct (flush <=? _)%Z; [|by apply wp_ret].
  wp_step. eapply wp_mono; [by apply (write_spec (D ++ [doc]))| |done]. intros _ s2 (Hf & Ht2 & Htk & Hd & Hp).
  rw /clear_buf. wp_step. split; [|by cbn; rw Hp]. split; cbn; rw ?Ht2 ?Htk ?Hd; try apply Hw1. by rw app_nil_r.
Qed.

(** The whole loop.  With [drop_last], one document is held back. *)
Lemma prepare_docs_spec dl docs s : written [] s → p_pending s = None → Forall (λ d, forallb scalar d = true) docs →
  wp (for_each docs (prepare_doc flush eos dl))
    (λ _ s', written (if dl then take (pred (length docs)) docs else docs) s') never s.
Proof.
  intros Hw Hp Hdocs. rw Forall_forall in Hdocs. eapply wp_mono.
  - apply (wp_for_each (λ rest s, ∃ D, written D s ∧
      docs = D ++ (if dl then match p_pending s with Some d => [d] | None => [] end else []) ++ rest ∧
      (p_pending s = None → dl = true → D = []))).
    { exists []. rw Hp. by destruct dl. }
    intros x rest s1 (D & Hw1 & Heq & Hnone). rw /prepare_doc. destruct dl.
    + do 5 wp_step; cbn [p_pending].
      * eapply wp_mono; [apply (tokenise_spec D); [by destruct Hw1; split|]| |done].
        { apply Hdocs. rw Heq. set_solver. }
        intros _ s2 [Hw2 Hp2]. exists (D ++ [l]). split_and!; [done| |by rw Hp2]. rw Hp2 /= Heq -!assoc. done.
      * exists D. split_and!; [by destruct Hw1; split| |done]. cbn. rw Heq. rw Hnone //.
    + eapply wp_mono; [apply (tokenise_spec D); [done|]| |done].
      { apply Hdocs. rw Heq. set_solver. }
      intros _ s2 [Hw2 _]. exists (D ++ [x]). split_and!; [done| |done]. by rw Heq -assoc.
  - intros _ s' (D & Hw' & Heq & Hnone). rw app_nil_r in Heq. destruct dl; [|by rw app_nil_r in Heq; subst D].
    destruct (p_pending s') as [d|]; subst docs.
    + rw length_app Nat.add_1_r /= take_app_length. done.
    + rw Hnone // in Hw'. rw Hnone //.
  - done.
Qed.
End loop.
End contents.

(** C28: the token file is the corpus, less its underscores.  For a well-formed tokenizer whose vocabulary, its
    end-of-text token included, fits in 16 bits, [prepare] raises nothing and writes
    exactly the ids of the selected documents (the first or last dropped if asked), each
    followed by the separator, however often the buffer was flushed; every id fits, the
    manifest counts the tokens and the documents of the file, and cutting the file at the
    separators and decoding gives the documents back, less their underscores: no document
    can inject a boundary. *)
Theorem prepare_exact `{UnicodeLaws} flush text bytes df dl s eos :
  tok_ok (p_tok s) → forallb scalar text = true →
  eos_id (p_tok s) = Ok eos → (eos < Z.of_nat (vocab_size (p_tok s)) ≤ MAX_VOCAB_FOR_UINT16)%Z →
  let docs := selected df dl (documents text) in
  wp (prepare_with flush text bytes df dl)
    (λ man s',
      p_file s' = content (merges (p_tok s)) eos docs ∧ forallb fits (p_file s') = true ∧
      mf_tokens man = Z.of_nat (length (p_file s')) ∧ mf_documents man = Z.of_nat (length docs) ∧
      Forall2 (λ seg doc, decode (p_tok s') seg = Ok (filter (λ c, underscore c = false) doc))
        (segments eos (p_file s')) docs) never s.
Proof.
  intros Ht Hsc Heos [He Hv] docs. rw /prepare_with. do 2 wp_step. rw (proj2 (Z.ltb_ge _ _) Hv).
  assert (256 + Z.of_nat (length (merges (p_tok s))) ≤ eos)%Z as Hge.
  { rw /eos_id in Heos. destruct (dget _ _) as [i|] eqn:Hd; [|done]. injection Heos as ->.
    apply dget_Some_elem in Hd. destruct (to_specials _ Ht) as [_ Hsp]. rw Forall_forall in Hsp. by apply Hsp in Hd as (_ & _ & ?). }
  wp_step. rw {1}/wp /lift_result Heos. do 2 wp_step. wp_step.
  set (ds := if df then _ else _).
  assert (ds = if df then drop 1 (documents text) else documents text) as Hds.
  { subst ds. rw /stream_documents stream_from_spec //. lia. }
  assert (Forall (λ d, forallb scalar d = true) ds) as Hdsc.
  { rw Hds. destruct df; [apply Forall_drop|]; by apply documents_scalar. }
  eapply wp_mono; [apply (prepare_docs_spec (p_tok s) eos flush ltac:(lia) Hv dl ds); [|done|exact Hdsc]| |done].
  { split; try done. apply same_tok_refl. }
  cbn beta. intros _ s1 Hw. assert ((if dl then take (pred (length ds)) ds else ds) = docs) as Hsel by by rw Hds.
  rw Hsel in Hw. do 3 wp_step. rename s1 into s2.
  assert (wp (match p_buf s2 with [] => ret () | _ => write_buf end) (λ _ s', p_file s' = content (merges (p_tok s)) eos docs ∧
    p_tok s' = p_tok s2 ∧ p_tokens s' = p_tokens s2 ∧ p_docs s' = p_docs s2) never s2) as Hwr.
  { destruct (p_buf s2) eqn:Hb.
    - wp_step. split; [|done]. by rw -(wr_file _ _ _ _ Hw) Hb app_nil_r.
    - eapply wp_mono; [by apply (write_spec (p_tok s) eos docs)| |done]. naive_solver. }
  eapply wp_mono; [exact Hwr| |done]. intros _ s3 (Hf & Ht3 & Htk & Hdc). do 2 wp_step. wp_step.
  cbn. rw Hf Htk Hdc. split_and!; [done|apply Hw|apply Hw|apply Hw|].
  assert (Forall (λ d, forallb scalar d = true) docs) as Hdocs.
  { rw -Hsel. destruct dl; [by apply Forall_take|done]. }
  rw segments_content.
  - apply Forall2_fmap_l, Forall_Forall2_diag. eapply Forall_impl; [exact Hdocs|]. intros d Hd.
    assert (merges (p_tok s) = merges (p_tok s3)) as Hm by by rw Ht3 (wr_same _ _ _ _ Hw).
    rw Hm. apply ordinary_decodes; [rw Ht3; apply Hw|done].
  - eapply Forall_impl; [exact Hdocs|]. intros d Hd Hin. pose proof (ordinary_bound _ _ Ht Hd) as Hb.
    rw Forall_forall in Hb. specialize (Hb _ Hin). lia.
Qed.

(** ["the<|endoftext|> a_b <|endoftext|>the"], the last document dropped, flushed every two tokens. *)
Definition toy_docs : list Z := [116; 104; 101]%Z ++ END_OF_TEXT ++ [32; 97; 95; 98; 32]%Z ++ END_OF_TEXT ++ [116; 104; 101]%Z.
Definition toy_prep : Prep := mkPrep toy_tok [] [] 0 0 None.

Lemma prepare_exact_witness :
  p_file (prepare_with 2 toy_docs 37 false true toy_prep).2 = [257; 258; 97; 98; 258]%Z ∧
  wp (prepare_with 2 toy_docs 37 false true)
    (λ man s', p_file s' = content toy_merges 258 [[116; 104; 101]; [97; 95; 98]]%Z ∧ mf_documents man = 2%Z) never toy_prep.
Proof.
  split; [vm_compute; reflexivity|]. eapply wp_mono.
  - apply (prepare_exact 2 toy_docs 37 false true toy_prep 258).
    + exact toy_tok_ok.
    + vm_compute. reflexivity.
    + vm_compute. reflexivity.
    + vm_compute. split; [reflexivity|discriminate].
  - intros man s' (H1 & _ & _ & H2 & _). split; [exact H1|exact H2].
  - intros e s' H. exact H.
Defined.

(** * Sampling *)

Section sampling.
Context (randint : nat → nat → list nat).

(** [torch.randint(high, (n,))] draws [n] numbers below [high]. *)
Definition draws_in_range : Prop :=
  ∀ high n, 0 < high → length (randint high n) = n ∧ Forall (λ i, i < high) (randint high n).

Lemma stack_same n rows : rows ≠ [] → Forall (λ r, length r = n) rows → stack rows = Ok rows.
Proof.
  intros Hne Hr. destruct rows as [|r rows]; [done|]. rw /stack. apply Forall_cons in Hr as [Hr Hrs].
  rw (_ : forallb _ _ = true) //. apply forallb_Forall. eapply Forall_impl; [exact Hrs|]. intros r' Hr'. by rw Hr' Hr Nat.eqb_refl.
Qed.
End sampling.

(** C30: every row is a whole window.  A dataset that constructs - it refuses a file too
    short for one window - never fails to produce a batch: each of its rows is
    [seq_len] consecutive tokens of the file, none of them cut short by its end.  The
    windows start strictly before [len - seq_len], so the last token of the file is in no
    row. *)
Theorem batch_windows randint tokens seq_len n :
  draws_in_range randint → 0 < n →
  (∀ d, new_dataset tokens seq_len = Ok d →
    ∃ rows, batch randint d n = Ok rows ∧ length rows = n ∧
      Forall (λ row, length row = seq_len ∧
        ∃ before after, tokens = before ++ row ++ after ∧ after ≠ []) rows) ∧
  (new_dataset tokens seq_len = Raise ValueError ↔ length tokens ≤ seq_len).
Proof.
  intros Hd Hn. rw /new_dataset. split.
  - intros d. destruct (Nat.leb_spec (length tokens) seq_len); [done|]. intros [= <-].
    destruct (Hd (length tokens - seq_len) n) as [Hlen Hall]; [lia|].
    set (starts := randint _ n) in *. exists ((λ i, take seq_len (drop i tokens)) <$> starts).
    assert (Forall (λ row, length row = seq_len ∧ ∃ before after, tokens = before ++ row ++ after ∧ after ≠ [])
      ((λ i, take seq_len (drop i tokens)) <$> starts)) as Hrows.
    { apply Forall_fmap. eapply Forall_impl; [exact Hall|]. intros i Hi. cbn in *. split.
      - rw length_take length_drop. lia.
      - exists (take i tokens), (drop seq_len (drop i tokens)). rw !take_drop. split; [done|].
        intros Hnil. apply (f_equal length) in Hnil. rw !length_drop /= in Hnil. lia. }
    split_and!; [|by rw length_fmap|done]. rw /batch /=. fold starts. apply (stack_same seq_len).
    + intros Hnil%fmap_nil_inv. rw Hnil /= in Hlen. lia.
    + eapply Forall_impl; [exact Hrows|]. by intros row [? _].
  - destruct (Nat.leb_spec (length tokens) seq_len); split; try done. lia.
Qed.

Lemma batch_windows_witness :
  batch (λ _ n, replicate n 0) (mkDataset [1; 2; 3; 4]%Z 2) 2 = Ok [[1; 2]; [1; 2]]%Z ∧
  ∃ rows, batch (λ _ n, replicate n 0) (mkDataset [1; 2; 3; 4]%Z 2) 2 = Ok rows ∧ length rows = 2.
Proof.
  split; [vm_compute; reflexivity|]. destruct (batch_windows (λ _ n, replicate n 0) [1; 2; 3; 4]%Z 2 2) as [H _].
  - intros high n Hh. split; [apply length_replicate|]. apply Forall_replicate. exact Hh.
  - lia.
  - destruct (H _ eq_refl) as (rows & H1 & H2 & _). exists rows. split; [exact H1|exact H2].
Defined.
