(* ===== verification/Http.v ===== *)
(** * The HTTP handlers (engine/server.py, [build_app])

    [POST /generate]: the body's constraints, the prompt's tokens, the offer to the
    engine and its answer, a status code or a streamed response; [POST /cancel]; and
    the two read-only endpoints.  The property: what each answer means for the engine. *)

From Stdlib Require Import ssreflect QArith Qcanon.
From stdpp Require Import prelude gmap gmultiset strings list.
From S2P Require Import Prelude Text Tokenizer Streaming Config BlockManager KvCache Transformer PrefixCache Types Admission Batch Scheduler Frame Ledger Prefill Engine EngineProps Metrics Server Replica Data Rationals.

(** The request body and the constraints its fields declare. *)
Record HttpBody := mkBody {
  b_prompt : list Z;
  b_max_tokens : Z;
  b_temperature : Qc;
  b_top_k : option Z;
  b_top_p : option Qc;
  b_ignore_eos : bool;
  b_slo_seconds : option Qc;
}.

Definition qle (a b : Qc) : bool := bool_decide (a ≤ b)%Qc.
Definition body_valid (b : HttpBody) : bool :=
  (1 <=? b_max_tokens b)%Z && (b_max_tokens b <=? 4096)%Z &&
  qle 0 (b_temperature b) && qle (b_temperature b) (1 + 1)%Qc &&
  match b_top_k b with Some k => (1 <=? k)%Z | None => true end &&
  match b_top_p b with Some p => bool_decide (0 < p)%Qc && qle p 1 | None => true end.

Inductive response :=
  | HttpError (status : nat)
  | EventSource (request_id : string).

Section http.
Context {R : Type} `{HT : Torch R} `{HS : TorchSampling R} `{HU : Unicode}.
Context (perf_counter : nat → Qc) (cfg : EngineCfg).

Record App := mkApp { ap_ae : AsyncEngine (R := R); ap_tok : BPETokenizer }.
Definition app_ae (a : AsyncEngine (R := R)) (s : App) : App := mkApp a (ap_tok s).
Definition app_tok (t : BPETokenizer) (s : App) : App := mkApp (ap_ae s) t.

(** The engine request of a body. *)
Definition body_request (b : HttpBody) (ids : list Z) (id : string) (now : Qc) : Request :=
  new_request ids (mkParams (b_max_tokens b) (b_temperature b) (b_top_k b) (b_top_p b) (b_ignore_eos b)) id now
    (match b_slo_seconds b with Some s => Some (now + s)%Qc | None => None end).

Definition http_generate (b : HttpBody) (fresh_id : string) : M App response :=
  if negb (body_valid b) then ret (HttpError 422)
  else
    let* ids := zoom ap_tok app_tok (encode (b_prompt b) false) in
    match ids with
    | [] => ret (HttpError 400)
    | _ =>
        let* r := zoom ap_ae app_ae (on_eng (
          let* t := now perf_counter in new_object (body_request b ids fresh_id t))) in
        do* zoom ap_ae app_ae (submit perf_counter cfg r) in
        let* q := zoom ap_ae app_ae (on_eng (get_req r)) in
        if bool_decide (finish_reason q = Some REJECTED) then
          do* zoom ap_ae app_ae (release fresh_id) in
          ret (HttpError 429)
        else ret (EventSource fresh_id)
    end.

(** [POST /cancel/{request_id}]. *)
Definition http_cancel (turns : list (turn (R := R))) (id : string) : M App (option string) :=
  let* cancelled := zoom ap_ae app_ae (ae_cancel perf_counter turns id) in
  ret (if cancelled then Some id else None).

(** [GET /health] and [GET /stats]: the engine's counters, ratios rounded for display. *)
Record HealthReply := mkHealth {
  hr_running : nat; hr_waiting : nat; hr_blocks_used : Z; hr_blocks_total : Z;
  hr_utilization : Qc; hr_hit_rate : Qc; hr_preemptions : nat;
}.
Definition http_health : M App HealthReply :=
  let* s := zoom ap_ae app_ae (on_eng (engine_stats perf_counter)) in
  let* e := gets (λ a, ae_engine (ap_ae a)) in
  ret (mkHealth (num_running s) (num_waiting s) (kv_blocks_used s) (kv_blocks_total s)
         (py_round (kv_utilization s) 4) (py_round (prefix_hit_rate s) 4) (e_preemptions e)).

(** [PrefixCacheStats.to_dict] and [AdmissionStats.to_dict]. *)
Record PrefixReply := mkPrefixReply {
  pr_queries : nat; pr_hit_blocks : nat; pr_query_blocks : nat; pr_block_hit_rate : Qc;
  pr_tokens_saved : nat; pr_evictions : nat; pr_entries : nat;
}.
Definition prefix_to_dict (block_size : nat) (s : PrefixCacheStats) : PrefixReply :=
  mkPrefixReply (queries s) (hit_blocks s) (query_blocks s) (py_round (block_hit_rate s) 4)
    (prefill_tokens_saved s block_size) (evictions s) (entries_count s).
Record AdmissionReply := mkAdmissionReply {
  ay_offered : nat; ay_admitted : nat; ay_rejected : nat; ay_queue_full : nat; ay_deadline : nat;
  ay_rejection_rate : Qc; ay_tokens_per_s : Qc;
}.
Definition admission_to_dict (s : AdmissionStats) (tokens_per_s : Qc) : AdmissionReply :=
  mkAdmissionReply (offered s) (admitted s) (rejected s) (rejected_queue_full s) (rejected_deadline s)
    (py_round (rejection_rate s) 4) (py_round tokens_per_s 1).

Record StatsReply := mkStatsReply {
  sr_running : nat; sr_waiting : nat; sr_finished : nat; sr_preemptions : nat;
  sr_blocks_used : Z; sr_blocks_total : Z; sr_utilization : Qc;
  sr_prefix : PrefixReply; sr_admission : option AdmissionReply;
}.
Definition http_stats : M App StatsReply :=
  let* s := zoom ap_ae app_ae (on_eng (engine_stats perf_counter)) in
  let* e := gets (λ a, ae_engine (ap_ae a)) in
  let* adm := (match e_admission e with
               | Some c => let* tps := lift_result (tokens_per_second c) in ret (Some (admission_to_dict (a_stats c) tps))
               | None => ret None
               end) in
  ret (mkStatsReply (num_running s) (num_waiting s) (num_finished_ s) (e_preemptions e)
         (kv_blocks_used s) (kv_blocks_total s) (py_round (kv_utilization s) 4)
         (prefix_to_dict (block_size (e_pool e)) (pc_stats (e_prefix e))) adm).

(** [GET /metrics], before rendering. *)
Definition http_metrics : M App (option EngineMetrics) :=
  do* zoom ap_ae app_ae (sample_metrics perf_counter) in gets (λ s, ae_metrics (ap_ae s)).
End http.

Arguments mkApp {R} _ _.
Arguments ap_ae {R} _.
Arguments ap_tok {R} _.

(** * What an answer means *)

Section answers.
Context {R : Type} `{HT : Torch R} `{HS : TorchSampling R} `{UnicodeLaws}.
Context (clock : nat → Qc) (cfg : EngineCfg).
Implicit Types (a : AsyncEngine (R := R)) (s : App (R := R)).

(** A server between requests. *)
Record app_ready s : Prop := {
  ar_tok : tok_ok (ap_tok s);
  ar_newly : Forall (λ r, is_Some (e_reqs (ae_engine (ap_ae s)) !! r)) (e_newly (ae_engine (ap_ae s)));
  ar_offers : offers_ok (ae_engine (ap_ae s));
}.

Lemma ordinary_nil ms doc : tok_ok ms → forallb scalar doc = true →
  ordinary_ids (merges ms) doc = [] ↔ Forall (.= 95%Z) doc.
Proof.
  intros Ht Hsc. destruct (findall_split doc) as [Hcat Hne]. pose proof (ordinary_decodes ms doc Ht Hsc) as Hd.
  assert (Forall (.= 95%Z) doc ↔ filter (λ c, underscore c = false) doc = []) as ->.
  { clear. induction doc as [|c doc IH]; [done|]. rw Forall_cons filter_cons. rw /underscore. case_decide as Hc.
    - apply Z.eqb_neq in Hc. naive_solver.
    - rw IH. apply not_false_is_true, Z.eqb_eq in Hc. naive_solver. }
  split; intros Hn.
  - rw Hn in Hd. cbn in Hd. by injection Hd as <-.
  - rw /ordinary_ids. rw -Hcat in Hn. destruct (findall SPLIT_PATTERN doc) as [|p l]; [done|].
    apply Forall_cons in Hne as [Hp _]. by destruct p.
Qed.

Lemma submit_decides a r q :
  e_reqs (ae_engine a) !! r = Some q → offers_ok (ae_engine a) →
  Forall (λ r, is_Some (e_reqs (ae_engine a) !! r)) (e_newly (ae_engine a)) →
  wp (submit clock cfg r) (λ _ a', ∃ e1, offer_outcome r (ae_engine a) e1 ∧ drained_engine e1 (ae_engine a') ∧
    ∃ st, streams a' !! request_id q = Some st ∧ st_req st = r) never a.
Proof.
  intros Hq Hok Hnew. rw /submit. wp_step. wp_step. rw /on_eng. do 2 wp_step.
  eapply wp_mono; [by eapply (add_request_decides clock cfg _ r q)| |done]. cbn. intros _ e1 Hout.
  set (a1 := set_engine _ _). assert (Forall (λ r, is_Some (e_reqs e1 !! r)) (e_newly e1)) as Hnew1.
  { destruct Hout as (_ & _ & [(_ & -> & ->)|(_ & -> & q' & -> & _)]); [done|].
    apply Forall_app. split; [|by constructor; [rw lookup_insert_eq|constructor]].
    eapply Forall_impl; [exact Hnew|]. intros r' Hr'. apply lookup_insert_is_Some. destruct (decide (r = r')); auto. }
  eapply wp_mono; [apply (fanout_spec clock a1 Hnew1)| |done]. cbn. intros _ a2 [Hd Hs].
  exists e1. split_and!; [done|done|]. rw Hs /a1 /= {1}/req_id Hq lookup_insert_eq. eexists. split; [done|].
  rw /reached /conclude_stream. by destruct (first_reason _ _ _).
Qed.

Lemma new_body_object b ids id (e : Engine (R := R)) :
  wp (let* t := now clock in new_object (body_request b ids id t))
     (λ r e', ∃ t tk, e_reqs e !! r = None ∧
        e' = set_counters tk (e_seed e) (e_uid e) (set_reqs (<[r := body_request b ids id t]> (e_reqs e)) e)) never e.
Proof.
  wp_step. rw {1}/wp /now. rw /new_object. do 4 wp_step. wp_step. eexists _, _. split; [|done].
  cbn. apply not_elem_of_dom, is_fresh.
Qed.

(** ** The read-only endpoints *)

(** The application with one more clock reading taken. *)
Definition ticked s : App (R := R) :=
  let e := ae_engine (ap_ae s) in app_ae (set_engine (set_counters (S (e_ticks e)) (e_seed e) (e_uid e) e) (ap_ae s)) s.

Lemma engine_stats_app {A} (f : EngineStats → M (App (R := R)) A) s Q E :
  (∀ st, num_running st = length (e_running (ae_engine (ap_ae s))) → num_waiting st = length (e_waiting (ae_engine (ap_ae s))) →
     kv_blocks_used st = BlockAllocator.num_allocated (allocator (e_pool (ae_engine (ap_ae s)))) →
     kv_blocks_total st = Z.of_nat (BlockAllocator.num_blocks (allocator (e_pool (ae_engine (ap_ae s))))) →
     wp (f st) Q E (ticked s)) →
  wp (bind (zoom ap_ae app_ae (on_eng (engine_stats clock))) f) Q E s.
Proof. intros Hf. apply wp_bind, wp_zoom, wp_zoom. rw /wp /engine_stats /=. by apply Hf. Qed.

Lemma utilization_fraction (st : EngineStats) : (0 ≤ kv_blocks_used st ≤ kv_blocks_total st)%Z → (0 <= kv_utilization st <= 1)%Qc.
Proof.
  intros [Hu Ht]. rw /kv_utilization. destruct (kv_blocks_total st =? 0)%Z eqn:Hz; [split; discriminate|].
  apply Z.eqb_neq in Hz. pose proof (qc_fraction (Z.to_nat (kv_blocks_used st)) (Z.to_nat (kv_blocks_total st))) as Hf.
  rw /qc_of_nat !Z2Nat.id in Hf; [|lia..]. apply Hf; lia.
Qed.

Lemma blocks_used_bounds s (st : EngineStats) : consistent (allocator (e_pool (ae_engine (ap_ae s)))) →
  kv_blocks_used st = BlockAllocator.num_allocated (allocator (e_pool (ae_engine (ap_ae s)))) →
  kv_blocks_total st = Z.of_nat (BlockAllocator.num_blocks (allocator (e_pool (ae_engine (ap_ae s))))) →
  (0 ≤ kv_blocks_used st ≤ kv_blocks_total st)%Z.
Proof. intros [_ _ Hc] -> ->. split; [rw Hc; lia|]. rw /BlockAllocator.num_allocated. lia. Qed.

(** [GET /health] and [GET /stats] read: apart from the clock nothing changes, the counts
    are the engine's, and the reported utilization is a fraction. *)
Theorem health_reads s : consistent (allocator (e_pool (ae_engine (ap_ae s)))) →
  wp (http_health clock) (λ r s', s' = ticked s ∧ hr_running r = length (e_running (ae_engine (ap_ae s))) ∧
    hr_waiting r = length (e_waiting (ae_engine (ap_ae s))) ∧ (0 <= hr_utilization r <= 1)%Qc) never s.
Proof.
  intros Hc. apply engine_stats_app. intros st H1 H2 H3 H4. apply wp_bind, wp_gets.
  assert ((0 <= py_round (kv_utilization st) 4 <= 1)%Qc) as Hf by (by apply py_round_fraction, utilization_fraction, (blocks_used_bounds s)).
  apply wp_ret. by split; [|split; [|split]].
Qed.

Theorem stats_reads s : consistent (allocator (e_pool (ae_engine (ap_ae s)))) →
  (∀ c, e_admission (ae_engine (ap_ae s)) = Some c → adm_inv c ∧ initial_step_seconds (a_cfg c) ≠ 0%Qc) →
  wp (http_stats clock) (λ r s', s' = ticked s ∧ sr_running r = length (e_running (ae_engine (ap_ae s))) ∧
    sr_waiting r = length (e_waiting (ae_engine (ap_ae s))) ∧ (0 <= sr_utilization r <= 1)%Qc ∧
    (is_Some (sr_admission r) ↔ is_Some (e_admission (ae_engine (ap_ae s))))) never s.
Proof.
  intros Hc Ha. apply engine_stats_app. intros st H1 H2 H3 H4. apply wp_bind, wp_gets.
  assert ((0 <= py_round (kv_utilization st) 4 <= 1)%Qc) as Hf by (by apply py_round_fraction, utilization_fraction, (blocks_used_bounds s)).
  apply wp_bind. change (e_admission (ae_engine (ap_ae (ticked s)))) with (e_admission (ae_engine (ap_ae s))).
  destruct (e_admission (ae_engine (ap_ae s))) as [c|] eqn:Hadm.
  - destruct (Ha c eq_refl) as [Hi Hs]. destruct (tokens_per_second_ok c Hi Hs) as [tps Htps]. apply wp_bind.
    rw /wp /lift_result Htps. cbn. do 3 (split; [done|]). by split; [exact Hf|].
  - apply wp_ret, wp_ret. do 3 (split; [done|]). split; [exact Hf|]. by cbn; split; intros [? [=]].
Qed.
End answers.

(** C27: every answer to [POST /generate] says what happened.  The handler raises nothing
    else.  422: the body violates its declared constraints, and nothing changed; 400: the
    prompt has no character besides underscores, which the tokenizer drops, and the
    engine was not asked; 429: the offer was rejected, the queue is as it was and no
    stream is left; a streamed response: exactly one request with the prompt's tokens
    was appended to the queue and its stream is registered.  What is running is never
    touched. *)
Theorem http_generate_exact {R} `{Torch R, TorchSampling R, UnicodeLaws} clock cfg b id (s : App (R := R)) :
  app_ready s → forallb scalar (b_prompt b) = true →
  wp (http_generate clock cfg b id)
     (λ resp s',
        let e := ae_engine (ap_ae s) in let e' := ae_engine (ap_ae s') in
        same_tok (ap_tok s) (ap_tok s') ∧ e_running e' = e_running e ∧
        match resp with
        | HttpError 422 => body_valid b = false ∧ s' = s
        | HttpError 400 => body_valid b = true ∧ Forall (.= 95%Z) (b_prompt b) ∧ ap_ae s' = ap_ae s
        | HttpError 429 => body_valid b = true ∧ e_waiting e' = e_waiting e ∧ streams (ap_ae s') !! id = None
        | HttpError _ => False
        | EventSource id' => id' = id ∧ body_valid b = true ∧ ∃ r q st,
            e_waiting e' = e_waiting e ++ [r] ∧ e_reqs e !! r = None ∧ e_reqs e' !! r = Some q ∧
            prompt_token_ids q = ordinary_ids (merges (ap_tok s)) (b_prompt b) ∧
            streams (ap_ae s') !! id = Some st ∧ st_req st = r
        end) never s.
Proof.
  intros [Ht Hnew Hoff] Hsc. rw /http_generate. destruct (body_valid b); cbn [negb].
  2: { wp_step. split_and!; [apply same_tok_refl|done|done|done]. }
  do 2 wp_step. eapply wp_mono; [by apply encode_plain| |done]. intros ids t1 (Hids & _ & Hs1).
  destruct ids as [|i0 ids0] eqn:Hi.
  { wp_step. split_and!; [done|done|done| |done]. symmetry in Hids. by apply (ordinary_nil (ap_tok s)) in Hids. }
  rw -Hi in Hids |- *. do 2 wp_step. rw /on_eng. wp_step. eapply wp_mono; [apply new_body_object| |done].
  intros r e1 (t & tk & Hr & ->). set (q := body_request _ _ _ _).
  do 2 wp_step. eapply wp_mono; [eapply (submit_decides clock cfg _ r q)| |done]; cbn.
  { by rw lookup_insert_eq. }
  { exact Hoff. }
  { eapply Forall_impl; [exact Hnew|]. intros r' Hr'. cbn. apply lookup_insert_is_Some. destruct (decide (r = r')); auto. }
  intros _ a2 (e2 & (_ & Hrun & Hout) & (Hreqs & Hrun' & Hwait & _) & st & Hst & Hstr).
  cbn in Hrun, Hout. do 3 wp_step. destruct Hout as [(Hw & _ & Hq)|(Hw & _ & q' & Hq & Hrej)].
  - rw {1}/wp /get_req Hreqs Hq lookup_insert_eq. cbn. split_and!; [done|by rw Hrun' Hrun|done|done|].
    exists r, q, st. split_and!; [by rw Hwait Hw|done|by rw Hreqs Hq lookup_insert_eq|done|done|done].
  - rw {1}/wp /get_req Hreqs Hq lookup_insert_eq bool_decide_true //. do 2 wp_step. rw /release. do 2 wp_step. cbn.
    split_and!; [done|by rw Hrun' Hrun|done|by rw Hwait Hw|by rw lookup_delete_eq].
Qed.

(** The toy engine asked for four tokens after [the], and for a prompt of underscores. *)
Definition toy_app : App (R := Z) := mkApp (mkAE (ToyEngine.engine 9 ∅) ∅ None) toy_tok.
Definition toy_body (prompt : list Z) : HttpBody := mkBody prompt 4 0%Qc None None true None.

Lemma http_generate_exact_witness :
  (http_generate ToyEngine.clock ToyEngine.cfg (toy_body [95; 95]%Z) "h" toy_app).1 = Ok (HttpError 400) ∧
  (http_generate ToyEngine.clock ToyEngine.cfg (toy_body [116; 104; 101]%Z) "h" toy_app).1 = Ok (EventSource "h") ∧
  wp (http_generate ToyEngine.clock ToyEngine.cfg (toy_body [116; 104; 101]%Z) "h")
    (λ resp s', e_running (ae_engine (ap_ae s')) = []) never toy_app.
Proof.
  split; [vm_compute; reflexivity|]. split; [vm_compute; reflexivity|]. eapply wp_mono.
  - apply (http_generate_exact ToyEngine.clock ToyEngine.cfg (toy_body [116; 104; 101]%Z) "h" toy_app).
    + split; [exact toy_tok_ok|constructor|exact I].
    + reflexivity.
  - intros resp s' (_ & H1 & _). exact H1.
  - intros e s' H. exact H.
Defined.
