(* ===== verification/Workload.v ===== *)
(** * Benchmark workloads (bench/workload.py)

    Generation of a reproducible stream of requests: shared prefixes drawn from a
    Zipf distribution, log-normal lengths, Poisson arrivals, deadlines; shifting the
    stream onto the wall clock; descriptive statistics.  NumPy's generator, logarithm,
    power and percentile are parameters with their documented behaviour as laws. *)

From Stdlib Require Import ssreflect QArith Qround Qcanon.
From stdpp Require Import prelude gmap strings pretty sorting list.
From S2P Require Import Prelude Types Text Tokenizer Data Rationals.

(** ** NumPy *)

(** [np.random.Generator]: a state and the draws the workload makes from it. *)
Class NumpyRng (G : Type) := {
  default_rng : Z → G;
  rng_integers : Z → Z → nat → M G (list Z);      (* integers(low, high, size) *)
  rng_integer : Z → Z → M G Z;                    (* integers(low, high) *)
  rng_lognormal : Qc → Qc → nat → M G (list Qc);  (* mean, sigma, size *)
  rng_exponential : Qc → nat → M G (list Qc);     (* scale, size *)
  rng_random : M G Qc;
  rng_choice : nat → list Qc → M G nat;           (* choice(n, p) *)
}.

Class NumpyRngLaws (G : Type) `{NumpyRng G} := {
  law_integers lo hi n g : (lo < hi)%Z →
    wp (rng_integers lo hi n) (λ l _, length l = n ∧ Forall (λ i, lo ≤ i < hi)%Z l) never g;
  law_integer lo hi g : (lo < hi)%Z → wp (rng_integer lo hi) (λ i _, lo ≤ i < hi)%Z never g;
  law_lognormal mean sigma n g : (0 <= sigma)%Qc → wp (rng_lognormal mean sigma n) (λ l _, length l = n) never g;
  law_exponential scale n g : (0 <= scale)%Qc →
    wp (rng_exponential scale n) (λ l _, length l = n ∧ Forall (λ x, 0 <= x)%Qc l) never g;
  law_random g : wp rng_random (λ x _, 0 ≤ x < 1)%Qc never g;
  law_choice n p g : 0 < n → length p = n → Forall (λ x, 0 <= x)%Qc p → qsum p = 1%Qc →
    wp (rng_choice n p) (λ i _, i < n) never g;
}.

(** [np.clip(x, lo, hi)]. *)
Definition np_clip (lo hi x : Qc) : Qc := qc_min (qc_max x lo) hi.

(** [astype(int)] truncates towards zero. *)
Definition astype_int (x : Qc) : Z := if bool_decide (0 <= x)%Qc then Qfloor x else (- Qfloor (- x)%Qc)%Z.

(** [np.cumsum]. *)
Fixpoint cumsum_from (acc : Qc) (l : list Qc) : list Qc :=
  match l with
  | [] => []
  | x :: l => (acc + x)%Qc :: cumsum_from (acc + x)%Qc l
  end.
Definition np_cumsum (l : list Qc) : list Qc := cumsum_from 0%Qc l.

(** [a[i]]. *)
Definition getitem {S A} (l : list A) (i : nat) : M S A :=
  match l !! i with Some x => ret x | None => raise IndexError end.

(** ** Configuration *)

Record WorkloadConfig := mkWorkloadConfig {
  num_requests : nat;
  request_rate : option Qc;
  num_prefixes : nat;
  prefix_len : nat;
  zipf_alpha : Qc;
  prefix_fraction : Qc;
  prompt_len_mean : Z;
  prompt_len_sigma : Qc;
  output_len_mean : Z;
  output_len_sigma : Qc;
  output_len_min : Z;
  output_len_max : Z;
  slo_seconds : option Qc;
  wl_seed : Z;
}.

Definition default_workload : WorkloadConfig :=
  mkWorkloadConfig 200 None 16 128 1%Qc (Q2Qc (4 # 5)) 96 (Q2Qc (3 # 5)) 96 (Q2Qc (7 # 10)) 8 512
    (Some (qc_of_Z 10)) 0.

(** ** Generation *)

Section workload.
Context {G : Type} `{NumpyRng G}.
Context (np_log : Qc → Qc) (np_power : Qc → Qc → Qc).

Definition _lognormal_lengths (n : nat) (mean : Z) (sigma : Qc) (lo hi : Z) : M G (list Z) :=
  let* raw := rng_lognormal (np_log (qc_of_Z mean)) sigma n in
  ret ((λ x, astype_int (np_clip (qc_of_Z lo) (qc_of_Z hi) x)) <$> raw).

(** [doc * k], a list repeated. *)
Definition list_repeat {A} (l : list A) (k : nat) : list A := concat (replicate k l).

Definition _take (pool : option (list (list Z))) (n : nat) (vocab_size eos_token_id : Z) : M G (list Z) :=
  match pool with
  | None | Some [] =>
      let* ids := rng_integers 0 (vocab_size - 1) n in
      ret ((λ i, if (eos_token_id <=? i)%Z then (i + 1)%Z else (i + 0)%Z) <$> ids)
  | Some pool =>
      let* k := rng_integer 0 (Z.of_nat (length pool)) in
      let* doc := getitem pool (Z.to_nat k) in
      if length doc <=? n then
        if length doc =? 0 then raise ZeroDivisionError
        else ret (take n (list_repeat doc (n / length doc + 1)))
      else
        let* start := rng_integer 0 (Z.of_nat (length doc) - Z.of_nat n) in
        ret (take n (drop (Z.to_nat start) doc))
  end.

(** The popularity of each prefix: [ranks ** -alpha], normalised. *)
Definition zipf_weights (n : nat) (alpha : Qc) : list Qc :=
  let weights := (λ r, np_power (qc_of_nat r) (- alpha)%Qc) <$> seq 1 n in
  (λ x, (x / qsum weights)%Qc) <$> weights.

Definition arrival_times (cfg : WorkloadConfig) : M G (list Qc) :=
  match request_rate cfg with
  | None => ret (replicate (num_requests cfg) 0%Qc)
  | Some rate =>
      if bool_decide (rate = 0%Qc) then raise ZeroDivisionError
      else
        let* gaps := rng_exponential (1 / rate)%Qc (num_requests cfg) in
        ret (np_cumsum gaps)
  end.

(** Draws act on the generator; [Request()] takes the next number of [_ids]. *)
Definition draw {A} (m : M G A) : M (G * nat) A := zoom fst (λ g s, (g, s.2)) m.
Definition next_id : M (G * nat) string := λ s, (Ok ("req-" +:+ pretty s.2), (s.1, S s.2)).

Definition workload_params (max : Z) : SamplingParams := mkParams max 0%Qc None None true.

Definition build_request (cfg : WorkloadConfig) (vocab_size eos_token_id : Z) (pool : option (list (list Z)))
    (prefixes : list (list Z)) (weights : list Qc) (prompt_lens output_lens : list Z) (arrivals : list Qc)
    (i : nat) : M (G * nat) Request :=
  let* u := draw rng_random in
  let* tokens := (if bool_decide (u < prefix_fraction cfg)%Qc then
                    let* k := draw (rng_choice (num_prefixes cfg) weights) in
                    getitem prefixes k
                  else ret []) in
  let* plen := getitem prompt_lens i in
  let* more := draw (_take pool (Z.to_nat plen) vocab_size eos_token_id) in
  let* olen := getitem output_lens i in
  let* id := next_id in
  let* arrival := getitem arrivals i in
  ret (new_request (tokens ++ more) (workload_params olen) id arrival
         ((λ slo, (arrival + slo)%Qc) <$> slo_seconds cfg)).

(** The body of [build_workload], once the generator has been seeded. *)
Definition build_stream (cfg : WorkloadConfig) (vocab_size eos_token_id : Z)
    (prompt_pool : option (list (list Z))) : M (G * nat) (list Request) :=
  let* prefixes := for_list (seq 0 (num_prefixes cfg)) (λ _,
     draw (_take prompt_pool (prefix_len cfg) vocab_size eos_token_id)) in
  let weights := zipf_weights (num_prefixes cfg) (zipf_alpha cfg) in
  let* prompt_lens := draw (_lognormal_lengths (num_requests cfg) (prompt_len_mean cfg) (prompt_len_sigma cfg) 4 512) in
  let* output_lens := draw (_lognormal_lengths (num_requests cfg) (output_len_mean cfg) (output_len_sigma cfg)
                              (output_len_min cfg) (output_len_max cfg)) in
  let* arrivals := draw (arrival_times cfg) in
  for_list (seq 0 (num_requests cfg))
    (build_request cfg vocab_size eos_token_id prompt_pool prefixes weights prompt_lens output_lens arrivals).

Definition build_workload (cfg : WorkloadConfig) (vocab_size eos_token_id : Z)
    (prompt_pool : option (list (list Z))) : M nat (list Request) := λ ids,
  match build_stream cfg vocab_size eos_token_id prompt_pool (default_rng (wl_seed cfg), ids) with
  | (r, (_, ids')) => (r, ids')
  end.
End workload.

(** [load_prompt_pool] on the text of the file. *)
Definition load_prompt_pool `{Unicode} (text : list Z) (max_docs : nat) : M BPETokenizer (list (list Z)) :=
  let docs := take max_docs (documents text) in
  for_list docs (λ d, encode d false).

(** ** Shifting the stream onto the clock *)

Definition rebase_one (t0 : Qc) (r : Request) : Request :=
  mkRequest (prompt_token_ids r) (params r) (request_id r) (arrival_time r + t0)%Qc
    ((λ d, (d + t0)%Qc) <$> deadline r) (scheduled_time r) (first_token_time r) (finish_time r) (token_times r)
    (output_token_ids r) (finish_reason r) (rejection_reason r).

(** The list holds references: the objects themselves are changed, each as often as
    it occurs. *)
Definition rebase (t0 : Qc) (requests : list nat) (store : gmap nat Request) : gmap nat Request :=
  foldl (λ m r, alter (rebase_one t0) r m) store requests.

(** ** Descriptive statistics *)

Record LenStats := mkLenStats { ls_mean : Qc; ls_p50 : Qc; ls_p99 : Qc; ls_max : Z }.

Record WorkloadSummary := mkWorkloadSummary {
  ws_num_requests : nat;
  ws_prompt_tokens : Z;
  ws_output_tokens : Z;
  ws_prompt_len : LenStats;
  ws_output_len : LenStats;
  ws_arrival_span : Qc;
  ws_effective_rate : option Qc;
}.

Definition zsum (l : list Z) : Z := foldr Z.add 0%Z l.
Definition zmaximum (x : Z) (l : list Z) : Z := foldr Z.max x l.

Section summarise.
(** [np.percentile(values, p)]. *)
Context (np_percentile : list Qc → Z → Qc).

Definition len_stats (x : Z) (l : list Z) : LenStats :=
  let q := qc_of_Z <$> (x :: l) in
  mkLenStats (qmean q) (np_percentile q 50) (np_percentile q 99) (zmaximum x l).

(** [arr.max()] of an empty array raises [ValueError]. *)
Definition summarise (requests : list Request) : result WorkloadSummary :=
  match requests with
  | [] => Raise ValueError
  | r :: rs =>
      let prompts := (λ q, Z.of_nat (prompt_len q)) <$> rs in
      let outputs := (λ q, max_tokens (params q)) <$> rs in
      let arrivals := arrival_time <$> rs in
      let p0 := Z.of_nat (prompt_len r) in
      let o0 := max_tokens (params r) in
      let a0 := arrival_time r in
      let span := (qmaximum a0 arrivals - qminimum a0 arrivals)%Qc in
      Ok (mkWorkloadSummary (length requests) (zsum (p0 :: prompts)) (zsum (o0 :: outputs))
            (len_stats p0 prompts) (len_stats o0 outputs) span
            (if bool_decide (0 < span)%Qc then Some (qc_of_nat (length requests) / span)%Qc else None))
  end.
End summarise.

(** * Generated streams are well formed *)

(** ** Lengths and arrivals *)

Lemma clip_bounds lo hi x : (lo <= hi)%Qc → (lo <= np_clip lo hi x ∧ np_clip lo hi x <= hi)%Qc.
Proof.
  intros Hlh. rw /np_clip. destruct (qc_max_spec x lo) as [[_ H1] _], (qc_min_spec (qc_max x lo) hi) as [[_ H2] Hor].
  split; [|done]. by destruct Hor as [->| ->].
Qed.

Lemma astype_bounds (lo hi : Z) x : (0 ≤ lo)%Z → (qc_of_Z lo <= x ∧ x <= qc_of_Z hi)%Qc → (lo ≤ astype_int x ≤ hi)%Z.
Proof.
  intros H0 [Hlo Hhi]. rw /astype_int bool_decide_true.
  - rw /Qcle /qc_of_Z !this_Q2Qc in Hlo. rw /Qcle /qc_of_Z !this_Q2Qc in Hhi.
    apply Qfloor_resp_le in Hlo, Hhi. by rw !Qfloor_Z in Hlo Hhi.
  - etrans; [|exact Hlo]. change 0%Qc with (qc_of_Z 0). by apply qc_of_Z_le.
Qed.

(** Cumulative sums of gaps never decrease. *)
Lemma cumsum_sorted l acc : Forall (λ x, 0 <= x)%Qc l →
  StronglySorted Qcle (cumsum_from acc l) ∧ Forall (λ t, acc <= t)%Qc (cumsum_from acc l).
Proof.
  intros Hl. revert acc. induction Hl as [|x l Hx Hl IH]; intros acc; cbn; [by split; constructor|].
  destruct (IH (acc + x)%Qc) as [Hs Hf]. assert (acc <= acc + x)%Qc as Hle by qc_lra. split; constructor; try done.
  eapply Forall_impl; [exact Hf|]. intros t Ht. by etrans.
Qed.

Lemma cumsum_length l acc : length (cumsum_from acc l) = length l.
Proof. revert acc. induction l as [|x l IH]; intros acc; cbn; [done|]. by rw IH. Qed.

Lemma list_repeat_length {A} (l : list A) k : length (list_repeat l k) = k * length l.
Proof. induction k as [|k IH]; [done|]. rw /list_repeat /= length_app -/(list_repeat l k) IH. lia. Qed.

Lemma list_repeat_elem {A} (l : list A) k x : x ∈ list_repeat l k → x ∈ l.
Proof. induction k as [|k IH]; cbn; [by intros ?%not_elem_of_nil|]. intros [|]%elem_of_app; auto. Qed.

Lemma getitem_spec {S A} (l : list A) i x (s : S) (Q : A → S → Prop) :
  l !! i = Some x → Q x s → wp (getitem l i) Q never s.
Proof. intros Hl HQ. rw /getitem Hl. by wp_step. Qed.

(** A loop over a range, with an invariant that counts the rounds. *)
Lemma wp_for_seq {S B} (I : nat → S → Prop) (P : nat → B → Prop) (f : nat → M S B) n : ∀ a s,
  I a s → (∀ i s, a ≤ i < a + n → I i s → wp (f i) (λ y s', P i y ∧ I (1 + i) s') never s) →
  wp (for_list (seq a n) f) (λ ys s', Forall2 P (seq a n) ys ∧ I (a + n) s') never s.
Proof.
  induction n as [|n IH]; intros a s Hs Hf; cbn [seq for_list]; [wp_step; by rw Nat.add_0_r|].
  wp_step. eapply wp_mono; [apply Hf; [lia|done]| |done]. intros y s1 [Hy Hs1]. wp_step.
  eapply wp_mono; [apply (IH (1 + a)); [done|]; intros i s2 Hi; apply Hf; lia| |done].
  intros ys s2 [Hys Hs2]. wp_step. split; [by constructor|]. by rw -Nat.add_succ_comm.
Qed.

Section workload_ok.
Context {G : Type} `{HL : NumpyRngLaws G} (np_log : Qc → Qc) (np_power : Qc → Qc → Qc).
(** [np.power] of a positive base is positive. *)
Hypothesis power_pos : ∀ x y, (0 < x)%Qc → (0 < np_power x y)%Qc.

Definition in_range (vocab_size : Z) (ids : list Z) : Prop := Forall (λ i, 0 ≤ i < vocab_size)%Z ids.

(** What the prompt pool must be: no pool and a vocabulary of at least two, or documents
    that are not empty. *)
Definition pool_ok (vocab_size : Z) (pool : option (list (list Z))) : Prop :=
  match pool with
  | None | Some [] => (1 < vocab_size)%Z
  | Some docs => Forall (λ d, d ≠ [] ∧ in_range vocab_size d) docs
  end.

(** The synthetic tokens avoid the end-of-sequence token. *)
Definition synthetic (pool : option (list (list Z))) : bool := match pool with None | Some [] => true | _ => false end.

Lemma take_spec pool n vocab eos g : pool_ok vocab pool →
  wp (_take pool n vocab eos)
     (λ ids _, length ids = n ∧ in_range vocab ids ∧ (synthetic pool = true → eos ∉ ids)) never g.
Proof.
  intros Hp. rw /_take.
  assert (∀ b : bool, (1 < vocab)%Z → wp (let* ids := rng_integers 0 (vocab - 1) n in
      ret ((λ i, if (eos <=? i)%Z then (i + 1)%Z else (i + 0)%Z) <$> ids))
    (λ ids _, length ids = n ∧ in_range vocab ids ∧ (b = true → eos ∉ ids)) never g) as Hsyn.
  { intros b Hv. wp_step. eapply wp_mono; [apply law_integers; lia| |done]. intros ids g' [Hn Hr]. wp_step.
    rw length_fmap. split_and!; [done|..].
    - apply Forall_fmap. eapply Forall_impl; [exact Hr|]. intros i Hi. cbv [compose]. cbv beta in Hi. destruct (Z.leb_spec eos i); lia.
    - intros _ (i & He & Hi)%list_elem_of_fmap. rw Forall_forall in Hr. specialize (Hr i Hi). cbv beta in Hr, He.
      destruct (Z.leb_spec eos i); lia. }
  destruct pool as [[|d0 docs]|]; [by apply Hsyn| |by apply Hsyn]. clear Hsyn. cbn in Hp.
  set (pool := d0 :: docs) in *. wp_step. eapply wp_mono; [apply law_integer; cbn; lia| |done]. intros k g1 Hk. cbv beta in Hk. wp_step.
  destruct (lookup_lt_is_Some_2 pool (Z.to_nat k) ltac:(lia)) as [doc Hdoc].
  eapply getitem_spec; [exact Hdoc|]. rw Forall_forall in Hp.
  destruct (Hp doc) as [Hne Hin]; [by eapply list_elem_of_lookup_2|]. rw /in_range Forall_forall in Hin.
  destruct (length doc <=? n) eqn:Hle.
  - apply Nat.leb_le in Hle. assert (0 < length doc) by (destruct doc; cbn; [done|lia]).
    destruct (Nat.eqb_spec (length doc) 0); [lia|]. wp_step. split_and!; [|apply Forall_forall|done].
    + rw length_take list_repeat_length. pose proof (Nat.div_mod_eq n (length doc)).
      pose proof (Nat.mod_upper_bound n (length doc) ltac:(lia)). nia.
    + intros x Hx. apply elem_of_take in Hx as (i & Hx & _). apply list_elem_of_lookup_2, list_repeat_elem in Hx. auto.
  - apply Nat.leb_gt in Hle. wp_step. eapply wp_mono; [apply law_integer; lia| |done]. intros start g2 Hs. cbv beta in Hs. wp_step.
    split_and!; [rw length_take length_drop; lia| |done]. apply Forall_forall. intros x Hx.
    apply elem_of_take in Hx as (i & Hx & _). rw lookup_drop in Hx. by eapply Hin, list_elem_of_lookup_2.
Qed.

(** The prefix popularities are a probability distribution. *)
Lemma zipf_weights_ok n alpha : 0 < n →
  length (zipf_weights np_power n alpha) = n ∧ Forall (λ x, 0 <= x)%Qc (zipf_weights np_power n alpha) ∧
  qsum (zipf_weights np_power n alpha) = 1%Qc.
Proof.
  intros Hn. rw /zipf_weights. set (ws := (λ r, _) <$> seq 1 n).
  assert (Forall (λ x, 0 < x)%Qc ws) as Hpos.
  { apply Forall_fmap, Forall_forall. intros r Hr%elem_of_seq. apply power_pos, qc_of_nat_pos. lia. }
  assert (length ws = n) as Hlen by by rw length_fmap length_seq.
  assert (0 < qsum ws)%Qc as Hs by (apply qsum_pos; [intros Hnil; rw Hnil in Hlen; cbn in Hlen; lia|done]).
  split_and!; [by rw length_fmap|..].
  - apply Forall_fmap. eapply Forall_impl; [exact Hpos|]. intros x Hx. apply qc_div_nonneg; [done|by apply Qclt_le_weak].
  - by rw qsum_div qc_div_self.
Qed.

(** Configurations the generator accepts. *)
Record valid_config (cfg : WorkloadConfig) : Prop := {
  vc_out : (0 ≤ output_len_min cfg ≤ output_len_max cfg)%Z;
  vc_sigmas : (0 <= prompt_len_sigma cfg)%Qc ∧ (0 <= output_len_sigma cfg)%Qc;
  vc_rate : match request_rate cfg with None => True | Some r => (0 < r)%Qc end;
  vc_prefixes : 0 < num_prefixes cfg ∨ (prefix_fraction cfg <= 0)%Qc;
}.

(** A request of the stream, with the pool of shared prefixes. *)
Record stream_request (cfg : WorkloadConfig) (vocab eos : Z) (pool : option (list (list Z)))
    (prefixes : list (list Z)) (q : Request) : Prop := {
  sr_prompt : ∃ pre own, prompt_token_ids q = pre ++ own ∧ (pre = [] ∨ pre ∈ prefixes) ∧ 4 ≤ length own ≤ 512;
  sr_vocab : in_range vocab (prompt_token_ids q);
  sr_eos : synthetic pool = true → eos ∉ prompt_token_ids q;
  sr_budget : (output_len_min cfg ≤ max_tokens (params q) ≤ output_len_max cfg)%Z;
  sr_fresh : q = new_request (prompt_token_ids q) (workload_params (max_tokens (params q))) (request_id q)
                   (arrival_time q) ((λ slo, (arrival_time q + slo)%Qc) <$> slo_seconds cfg);
}.

Lemma lognormal_spec n mean sigma lo hi g : (0 ≤ lo ≤ hi)%Z → (0 <= sigma)%Qc →
  wp (_lognormal_lengths np_log n mean sigma lo hi) (λ l _, length l = n ∧ Forall (λ x, lo ≤ x ≤ hi)%Z l) never g.
Proof.
  intros Hlh Hs. rw /_lognormal_lengths. wp_step. eapply wp_mono; [by apply law_lognormal| |done]. intros raw g' Hn. wp_step.
  split; [by rw length_fmap|]. apply Forall_fmap, Forall_forall. intros x _. apply astype_bounds; [lia|].
  apply clip_bounds, qc_of_Z_le. lia.
Qed.

Lemma arrivals_spec cfg g : valid_config cfg →
  wp (arrival_times cfg)
     (λ l _, length l = num_requests cfg ∧ StronglySorted Qcle l ∧ Forall (λ t, 0 <= t)%Qc l) never g.
Proof.
  intros Hc. rw /arrival_times. pose proof (vc_rate _ Hc) as Hr. destruct (request_rate cfg) as [rate|].
  - rw bool_decide_false; [|by apply qc_pos_ne]. wp_step.
    eapply wp_mono; [apply law_exponential, qc_div_nonneg; [done|]; by apply Qclt_le_weak| |done].
    intros gaps g' [Hn Hg]. wp_step. rw /np_cumsum cumsum_length. by destruct (cumsum_sorted gaps 0%Qc Hg).
  - wp_step. rw length_replicate. split_and!; [done| |apply Forall_replicate, Qcle_refl].
    induction (num_requests cfg) as [|n IH]; cbn; constructor; [done|]. apply Forall_replicate, Qcle_refl.
Qed.

Lemma build_request_spec cfg vocab eos pool prefixes plens olens arrivals i s :
  valid_config cfg → pool_ok vocab pool → length prefixes = num_prefixes cfg →
  Forall (λ p, in_range vocab p ∧ (synthetic pool = true → eos ∉ p)) prefixes →
  length plens = num_requests cfg → Forall (λ x, 4 ≤ x ≤ 512)%Z plens →
  length olens = num_requests cfg → Forall (λ x, output_len_min cfg ≤ x ≤ output_len_max cfg)%Z olens →
  length arrivals = num_requests cfg → i < num_requests cfg →
  wp (build_request cfg vocab eos pool prefixes (zipf_weights np_power (num_prefixes cfg) (zipf_alpha cfg)) plens olens arrivals i)
     (λ q s', stream_request cfg vocab eos pool prefixes q ∧ request_id q = "req-" +:+ pretty s.2 ∧
        arrivals !! i = Some (arrival_time q) ∧ s'.2 = S s.2) never s.
Proof.
  intros Hc Hpool Hlp Hp Hpl Hplr Hol Holr Ha Hi. rw /build_request /draw. do 2 wp_step.
  destruct (lookup_lt_is_Some_2 plens i ltac:(lia)) as [plen Hplen]. pose proof (Forall_lookup_1 _ _ _ _ Hplr Hplen) as Hpr.
  destruct (lookup_lt_is_Some_2 olens i ltac:(lia)) as [olen Holen]. pose proof (Forall_lookup_1 _ _ _ _ Holr Holen) as Hor.
  destruct (lookup_lt_is_Some_2 arrivals i ltac:(lia)) as [arr Harr].
  eapply wp_mono; [apply law_random| |done]. intros u g1 [Hu0 Hu1]. wp_step.
  apply (wp_mono _ (λ pre s', (pre = [] ∨ pre ∈ prefixes) ∧ s'.2 = s.2) _ never never); [|
  |done].
  { destruct (bool_decide _) eqn:Hb; [|wp_step; auto]. apply bool_decide_eq_true in Hb. do 2 wp_step.
    assert (0 < num_prefixes cfg) as Hn.
    { destruct (vc_prefixes _ Hc) as [|Hle]; [done|]. exfalso. eapply Qclt_not_le; [exact Hb|]. by etrans. }
    destruct (zipf_weights_ok _ (zipf_alpha cfg) Hn) as (Hw1 & Hw2 & Hw3).
    eapply wp_mono; [by apply law_choice| |done]. intros k g2 Hk. cbv beta in Hk.
    destruct (lookup_lt_is_Some_2 prefixes k ltac:(lia)) as [pre Hpre]. eapply getitem_spec; [exact Hpre|].
    split; [right; by eapply list_elem_of_lookup_2|done]. }
  intros pre s1 [Hpre Hs1]. wp_step. eapply getitem_spec; [exact Hplen|]. do 2 wp_step.
  eapply wp_mono; [by apply take_spec| |done]. intros own g2 (Hown & Hin & Heos). wp_step.
  eapply getitem_spec; [exact Holen|]. wp_step. rw {1}/wp /=. wp_step. eapply getitem_spec; [exact Harr|]. wp_step.
  assert (in_range vocab pre ∧ (synthetic pool = true → eos ∉ pre)) as [Hpin Hpeos].
  { destruct Hpre as [->|Hin']; [split; [constructor|set_solver]|]. rw Forall_forall in Hp. by apply Hp. }
  cbn. split_and!; [|by rw Hs1|done|by rw Hs1]. split; cbn; [|by apply Forall_app_2|set_solver|done|done].
  exists pre, own. cbv beta in Hpr. split_and!; try done; lia.
Qed.

(** The requests of a stream numbered from [ids], against its arrival times. *)
Record stream_of (cfg : WorkloadConfig) (vocab eos : Z) (pool : option (list (list Z))) (ids : nat)
    (prefixes : list (list Z)) (arrivals : list Qc) (qs : list Request) : Prop := {
  so_prefixes : length prefixes = num_prefixes cfg ∧ Forall (λ p, length p = prefix_len cfg) prefixes;
  so_arrivals : length arrivals = num_requests cfg ∧ StronglySorted Qcle arrivals ∧ Forall (λ t, 0 <= t)%Qc arrivals;
  so_requests : Forall2 (λ i q, stream_request cfg vocab eos pool prefixes q ∧
     request_id q = "req-" +:+ pretty (ids + i) ∧ arrivals !! i = Some (arrival_time q)) (seq 0 (num_requests cfg)) qs;
}.

Lemma build_stream_spec cfg vocab eos pool s : valid_config cfg → pool_ok vocab pool →
  wp (build_stream np_log np_power cfg vocab eos pool)
     (λ qs s', (∃ prefixes arrivals, stream_of cfg vocab eos pool s.2 prefixes arrivals qs) ∧ s'.2 = s.2 + num_requests cfg) never s.
Proof.
  intros Hc Hpool. rw /build_stream /draw. wp_step.
  eapply wp_mono; [apply (wp_for_list (λ s', s'.2 = s.2)
    (λ _ p, length p = prefix_len cfg ∧ in_range vocab p ∧ (synthetic pool = true → eos ∉ p))); [done|]| |done].
  { intros _ s1 _ Hs1. wp_step. eapply wp_mono; [by apply take_spec| |done]. by intros p g1 Hp. }
  intros prefixes s1 [Hp Hs1]. pose proof (Forall2_length _ _ _ Hp) as Hlp. rw length_seq in Hlp. cbv zeta.
  apply (Forall2_Forall_r _ (λ p, length p = prefix_len cfg ∧ in_range vocab p ∧ (synthetic pool = true → eos ∉ p))) in Hp;
    [|by apply Forall_forall].
  do 2 wp_step. eapply wp_mono; [apply lognormal_spec; [lia|apply Hc]| |done]. intros plens g2 [Hpl Hplr].
  do 2 wp_step. eapply wp_mono; [apply lognormal_spec; [apply Hc|apply Hc]| |done]. intros olens g3 [Hol Holr].
  do 2 wp_step. eapply wp_mono; [by apply arrivals_spec| |done]. intros arrivals g4 (Ha & Has & Hap).
  eapply wp_mono; [apply (wp_for_seq (λ i s', s'.2 = s.2 + i)
    (λ i q, stream_request cfg vocab eos pool prefixes q ∧ request_id q = "req-" +:+ pretty (s.2 + i) ∧
       arrivals !! i = Some (arrival_time q))); [cbn; by rw Hs1 Nat.add_0_r|]| |done].
  - intros i s5 Hi Hs5. eapply wp_mono; [apply (build_request_spec cfg vocab eos pool prefixes plens olens arrivals i s5); try done; [|lia]| |done].
    { eapply Forall_impl; [exact Hp|]. naive_solver. }
    intros q s6 (Hq & Hid & Harr & Hs6). rw Hs5 in Hid Hs6. split_and!; try done. lia.
  - intros qs s7 [Hqs Hs7]. split; [|done]. exists prefixes, arrivals. split; try done. split; [done|].
    eapply Forall_impl; [exact Hp|]. naive_solver.
Qed.
End workload_ok.

Lemma pretty_ids_NoDup a n : NoDup ((λ i : nat, "req-" +:+ pretty i) <$> seq a n).
Proof. apply NoDup_fmap_2; [|apply NoDup_seq]. intros i j Hij. by apply (inj (String.append "req-")), (inj pretty) in Hij. Qed.

(** C40: generated workloads are well formed.  Whatever the random draws, a valid
    configuration over a pool of non-empty documents (or none) yields exactly
    [num_requests] requests, all fresh, with distinct consecutive ids; each prompt is an
    optional shared prefix, taken verbatim from the pool of [num_prefixes] prefixes, and
    4 to 512 tokens of its own, all within the vocabulary and, if synthetic, never the
    end-of-sequence token; each budget lies within the configured bounds, decoding is greedy and
    ignores end-of-sequence; arrivals are non-negative and in order, and each deadline
    is its arrival plus the SLO.  Nothing is raised. *)
Theorem workload_well_formed {G} `{NumpyRngLaws G} np_log np_power cfg vocab eos pool ids :
  (∀ x y, (0 < x)%Qc → (0 < np_power x y)%Qc) → valid_config cfg → pool_ok vocab pool →
  ∃ qs prefixes, build_workload (G := G) np_log np_power cfg vocab eos pool ids = (Ok qs, ids + num_requests cfg) ∧
    length qs = num_requests cfg ∧ length prefixes = num_prefixes cfg ∧ Forall (λ p, length p = prefix_len cfg) prefixes ∧
    Forall (stream_request cfg vocab eos pool prefixes) qs ∧
    request_id <$> qs = (λ i, "req-" +:+ pretty i) <$> seq ids (num_requests cfg) ∧ NoDup (request_id <$> qs) ∧
    StronglySorted Qcle (arrival_time <$> qs) ∧ Forall (λ q, 0 <= arrival_time q)%Qc qs.
Proof.
  intros Hpow Hc Hpool. pose proof (build_stream_spec np_log np_power Hpow cfg vocab eos pool (default_rng (wl_seed cfg), ids) Hc Hpool) as Hw.
  rw /build_workload. apply wp_never in Hw as (qs & [g ids'] & -> & (prefixes & arrivals & [[Hlp Hp] (Hla & Hsa & Hpa) Hqs]) & Hids).
  cbn in Hids, Hqs. subst ids'. exists qs, prefixes. pose proof (Forall2_length _ _ _ Hqs) as Hlen. rw length_seq in Hlen.
  assert (request_id <$> qs = (λ i, "req-" +:+ pretty i) <$> seq ids (num_requests cfg)) as Hid.
  { apply list_eq_Forall2. rw Forall2_fmap_l -{1}(Nat.add_0_r ids) -fmap_add_seq -list_fmap_compose Forall2_fmap_r Forall2_flip.
    eapply Forall2_impl; [exact Hqs|]. intros i q (_ & Hi & _). by rw /= Hi. }
  assert (arrival_time <$> qs = arrivals) as Harr.
  { apply list_eq. intros i. rw list_lookup_fmap. destruct (decide (i < num_requests cfg)) as [Hi|Hi].
    - destruct (lookup_lt_is_Some_2 qs i ltac:(lia)) as [q Hq]. rw Hq /=.
      assert (seq 0 (num_requests cfg) !! i = Some i) as Hs by (apply lookup_seq; lia).
      by destruct (Forall2_lookup_lr _ _ _ _ _ _ Hqs Hs Hq) as (_ & _ & ->).
    - rw !lookup_ge_None_2 //; lia. }
  split_and!; try done.
  - by eapply Forall2_Forall_r in Hqs; [|apply Forall_forall; intros i _ q Hq; apply Hq].
  - rw Hid. apply pretty_ids_NoDup.
  - by rw Harr.
  - rw -Forall_fmap Harr. done.
Qed.

(** ** A generator to run: every draw is determined by a counter *)
Module ToyRng.
Definition num (g : nat) (lo hi : Z) : Z := (lo + Z.of_nat g mod Z.max 1 (hi - lo))%Z.
#[global] Instance rng : NumpyRng nat := {|
  default_rng := Z.to_nat;
  rng_integers lo hi n := λ g, (Ok ((λ i, num (g + i) lo hi) <$> seq 0 n), S g);
  rng_integer lo hi := λ g, (Ok (num g lo hi), S g);
  rng_lognormal _ _ n := λ g, (Ok ((λ i, qc_of_nat (g + 3 * i)) <$> seq 0 n), S g);
  rng_exponential _ n := λ g, (Ok (qc_of_nat <$> seq g n), S g);
  rng_random := λ g, (Ok (if g mod 3 =? 0 then 0%Qc else Q2Qc (1 # 2)), S g);
  rng_choice n _ := λ g, (Ok (g mod n), S g);
|}.

Lemma num_range g lo hi : (lo < hi)%Z → (lo ≤ num g lo hi < hi)%Z.
Proof. intros Hlt. rw /num Z.max_r; [|lia]. pose proof (Z.mod_pos_bound (Z.of_nat g) (hi - lo) ltac:(lia)). lia. Qed.

#[global] Instance laws : NumpyRngLaws nat.
Proof.
  split; cbn.
  - intros lo hi n g Hlt. rw /wp length_fmap length_seq. split; [done|]. apply Forall_fmap, Forall_forall. intros i _. by apply num_range.
  - intros lo hi g Hlt. by apply num_range.
  - intros _ _ n g _. by rw /wp length_fmap length_seq.
  - intros _ n g _. rw /wp length_fmap length_seq. split; [done|]. apply Forall_fmap, Forall_forall. intros i _. apply qc_of_nat_nonneg.
  - intros g. rw /wp. cbn [fst]. by destruct (_ =? 0).
  - intros n p g Hn _ _ _. rw /wp. apply Nat.mod_upper_bound. lia.
Qed.

(** Five requests over a vocabulary of nine whose end-of-sequence token is 3. *)
Definition cfg : WorkloadConfig :=
  mkWorkloadConfig 5 (Some 1%Qc) 2 3 1%Qc (Q2Qc (1 # 4)) 6 1%Qc 4 1%Qc 2 6 (Some (qc_of_Z 10)) 0.
Definition power (x _ : Qc) : Qc := x.
Definition stream : list Request :=
  match (build_workload (λ x, x) power cfg 9 3 None 7).1 with Ok qs => qs | Raise _ => [] end.
End ToyRng.

Lemma toy_valid_config : valid_config ToyRng.cfg.
Proof. split; cbn; try lia; try done. Qed.

Lemma workload_well_formed_witness :
  (length ToyRng.stream, prompt_token_ids <$> take 3 ToyRng.stream, (λ q, max_tokens (params q)) <$> ToyRng.stream)
  = (5, [[7; 8; 0; 1]; [0; 1; 2; 4; 5]; [0; 1; 2] ++ [4; 5; 6; 7; 8; 0; 1; 2]]%Z, [3; 6; 6; 6; 6]%Z) ∧
  ∃ qs prefixes, build_workload (λ x, x) ToyRng.power ToyRng.cfg 9 3 None 7 = (Ok qs, 12) ∧
    length qs = 5 ∧ length prefixes = 2 ∧ Forall (λ p, length p = 3) prefixes ∧
    Forall (stream_request ToyRng.cfg 9 3 None prefixes) qs ∧
    request_id <$> qs = (λ i, "req-" +:+ pretty i) <$> seq 7 5 ∧ NoDup (request_id <$> qs) ∧
    StronglySorted Qcle (arrival_time <$> qs) ∧ Forall (λ q, 0 <= arrival_time q)%Qc qs.
Proof.
  split; [vm_compute; reflexivity|].
  apply (workload_well_formed (λ x, x) ToyRng.power ToyRng.cfg 9 3 None 7); [done|apply toy_valid_config|cbn; lia].
Defined.

(** ** The prompt pool of a corpus *)

Section corpus.
Context `{UnicodeLaws}.

(** Loading a corpus tokenises its first documents; a document contributes no tokens
    exactly when it consists of underscores. *)
Theorem load_pool_exact t text max_docs : tok_ok t → forallb scalar text = true →
  wp (load_prompt_pool text max_docs)
     (λ pool t', pool = ordinary_ids (merges t) <$> take max_docs (documents text) ∧ tok_ok t' ∧ same_tok t t') never t.
Proof.
  intros Ht Hsc. rw /load_prompt_pool.
  assert (Forall (λ d, forallb scalar d = true) (take max_docs (documents text))) as Hd by by apply Forall_take, documents_scalar.
  eapply wp_mono; [apply (wp_for_list (λ t', tok_ok t' ∧ same_tok t t') (λ d ids, ids = ordinary_ids (merges t) d));
    [split; [done|apply same_tok_refl]|]| |done].
  - intros d t1 Hin [Ht1 Hs1]. rw Forall_forall in Hd. eapply wp_mono; [apply encode_plain; [done|by apply Hd]| |done].
    intros ids t2 (-> & Ht2 & Hs2). assert (merges t1 = merges t) as -> by by rw Hs1.
    split_and!; [done|done|by eapply same_tok_trans].
  - intros pool t1 [Hp [Ht1 Hs1]]. split_and!; [|done|done]. symmetry. apply list_eq_Forall2, Forall2_fmap_l.
    eapply Forall2_impl; [exact Hp|]. by intros d ids ->.
Qed.

Lemma ordinary_nonempty t doc : tok_ok t → forallb scalar doc = true →
  ordinary_ids (merges t) doc = [] ↔ Forall (λ c, underscore c = true) doc.
Proof.
  intros Ht Hsc. pose proof (ordinary_decodes t doc Ht Hsc) as Hdec. split.
  - intros Hnil. rw Hnil in Hdec. cbn in Hdec. injection Hdec as Hf. symmetry in Hf. apply Forall_forall. intros c Hc.
    destruct (underscore c) eqn:Hu; [done|]. assert (c ∈ filter (λ c, underscore c = false) doc) as Hin by by apply list_elem_of_filter.
    rw Hf in Hin. by apply not_elem_of_nil in Hin.
  - intros Hall. rw /ordinary_ids. destruct (findall_split doc) as [Hcat Hne].
    assert (filter (λ c, underscore c = false) doc = []) as Hf.
    { destruct (filter _ doc) as [|c l] eqn:Hf; [done|]. assert (c ∈ filter (λ c, underscore c = false) doc) as Hin by (rw Hf; by left).
      apply list_elem_of_filter in Hin as [Hu Hin]. rw Forall_forall in Hall. rw Hall // in Hu. }
    rw Hf in Hcat. destruct (findall SPLIT_PATTERN doc) as [|piece l]; [done|]. apply Forall_cons in Hne as [Hne _].
    by destruct piece.
Qed.

(** The pool of a corpus suits the generator, unless a document is made of underscores. *)
Theorem corpus_pool_ok t text max_docs : tok_ok t → forallb scalar text = true → documents text ≠ [] → 0 < max_docs →
  Forall (λ d, ¬ Forall (λ c, underscore c = true) d) (take max_docs (documents text)) →
  wp (load_prompt_pool text max_docs)
     (λ pool _, pool_ok (256 + Z.of_nat (length (merges t))) (Some pool)) never t.
Proof.
  intros Ht Hsc Hne Hmax Hu. eapply wp_mono; [by apply load_pool_exact| |done]. intros pool t' (-> & _ & _).
  assert (Forall (λ d, forallb scalar d = true) (take max_docs (documents text))) as Hd by by apply Forall_take, documents_scalar.
  destruct (take max_docs (documents text)) as [|d ds] eqn:Htk.
  { destruct max_docs; [lia|]. by destruct (documents text). }
  change (Forall (λ d, d ≠ [] ∧ in_range (256 + Z.of_nat (length (merges t))) d) (ordinary_ids (merges t) <$> d :: ds)).
  apply Forall_fmap. rw Forall_forall in Hd. rw Forall_forall in Hu. apply Forall_forall. intros x Hx.
  split; [|by apply ordinary_bound, Hd]. intros Hnil. by apply (Hu x Hx), (ordinary_nonempty t x Ht (Hd x Hx)).
Qed.
End corpus.

(** A pool whose only document has no tokens makes [_take] divide by zero. *)
Theorem empty_document_raises {G} `{NumpyRngLaws G} n vocab eos g :
  (_take (Some [[]]) n vocab eos g).1 = Raise ZeroDivisionError.
Proof.
  rw /_take {1}/bind. change (Z.of_nat (length [[]])) with 1%Z. pose proof (law_integer 0 1 g ltac:(lia)) as Hk. rw /wp in Hk.
  destruct (rng_integer 0 1 g) as [[k|x] g1]; [|done]. by assert (k = 0%Z) as -> by lia.
Qed.

(** ** Shifting a stream *)

Lemma rebase_lookup t0 rs : ∀ store r, NoDup rs →
  rebase t0 rs store !! r = if decide (r ∈ rs) then rebase_one t0 <$> store !! r else store !! r.
Proof.
  rw /rebase. induction rs as [|x rs IH]; intros store r Hnd; cbn [foldl]; [by destruct (decide (r ∈ [])) as [?%not_elem_of_nil|]|].
  apply NoDup_cons in Hnd as [Hx Hnd]. rw IH //. destruct (decide (r = x)) as [->|Hne].
  - rw decide_False // lookup_alter_eq decide_True //. by left.
  - rw lookup_alter_ne //. destruct (decide (r ∈ rs)); [rw decide_True //; by right|].
    rw decide_False //. by intros [|]%elem_of_cons.
Qed.

(** Rebasing a stream moves every request once, keeps its SLO interval, its order and
    everything else about it, and touches no other request. *)
Theorem rebase_exact t0 rs store : NoDup rs →
  (∀ r, r ∉ rs → rebase t0 rs store !! r = store !! r) ∧
  ∀ r q, r ∈ rs → store !! r = Some q → ∃ q', rebase t0 rs store !! r = Some q' ∧
    arrival_time q' = (arrival_time q + t0)%Qc ∧
    match deadline q, deadline q' with
    | Some d, Some d' => (d' - arrival_time q' = d - arrival_time q)%Qc
    | None, None => True
    | _, _ => False
    end ∧ prompt_token_ids q' = prompt_token_ids q ∧ params q' = params q ∧ request_id q' = request_id q.
Proof.
  intros Hnd. split; intros r; [intros Hr; by rw rebase_lookup // decide_False|].
  intros q Hr Hq. exists (rebase_one t0 q). rw rebase_lookup // decide_True // Hq. split_and!; try done. cbn.
  destruct (deadline q); cbn; [qc_lra|done].
Qed.

(** ** Statistics *)

(** The summary of a stream adds up: the rate times the span is the number of requests,
    and the means lie within the extremes. *)
Theorem summarise_exact pct requests s : summarise pct requests = Ok s →
  ws_num_requests s = length requests ∧ (0 <= ws_arrival_span s)%Qc ∧
  (ls_mean (ws_prompt_len s) <= qc_of_Z (ls_max (ws_prompt_len s)))%Qc ∧
  (ls_mean (ws_output_len s) <= qc_of_Z (ls_max (ws_output_len s)))%Qc ∧
  match ws_effective_rate s with
  | Some rate => (rate * ws_arrival_span s = qc_of_nat (length requests))%Qc
  | None => Forall (λ q, Some (arrival_time q) = head (arrival_time <$> requests)) requests
  end.
Proof.
  destruct requests as [|r rs]; [done|]. cbn [summarise]. intros [= <-]. cbn [ws_num_requests ws_arrival_span ws_prompt_len
    ws_output_len ws_effective_rate len_stats ls_mean ls_max].
  set (a0 := arrival_time r). set (al := arrival_time <$> rs).
  destruct (qmaximum_spec a0 al) as [H1 _], (qminimum_spec a0 al) as [H2 _].
  pose proof (proj1 (proj1 (Forall_cons _ _ _) H1)) as Hm1. pose proof (proj1 (proj1 (Forall_cons _ _ _) H2)) as Hm2. cbv beta in Hm1, Hm2.
  assert (∀ x l, (qmean (qc_of_Z <$> x :: l) <= qc_of_Z (zmaximum x l))%Qc) as Hmax.
  { intros x l. assert (Forall (λ y, y ≤ zmaximum x l)%Z (x :: l)) as Hb.
    { rw /zmaximum. induction l as [|y l IH]; cbn; [by repeat constructor|]. apply Forall_cons in IH as [Hx Hl].
      repeat constructor; [lia|lia|]. eapply Forall_impl; [exact Hl|]. cbn. lia. }
    rw fmap_cons. eapply Qcle_trans; [exact (proj2 (qmean_between (qc_of_Z x) (qc_of_Z <$> l)))|]. destruct (qmaximum_spec (qc_of_Z x) (qc_of_Z <$> l)) as [_ Hin].
    rw -fmap_cons in Hin.
    apply list_elem_of_fmap in Hin as (z & -> & Hz). apply qc_of_Z_le. rw Forall_forall in Hb. by apply Hb. }
  split_and!; [done|qc_lra|apply Hmax|apply Hmax|]. case_bool_decide as Hs; [by apply qc_div_mul|].
  rw -/a0. apply Forall_cons. split; [done|]. rw Forall_forall in H1. rw Forall_forall in H2. apply Forall_forall. intros q Hq. cbn. f_equal.
  assert (arrival_time q ∈ a0 :: al) as Hin by (right; by apply list_elem_of_fmap_2).
  specialize (H1 _ Hin). specialize (H2 _ Hin). cbv beta in H1, H2. fold a0. clearbody a0 al.
  apply Qcle_antisym; qc_lra.
Qed.
