(* ===== verification/BenchMetrics.v ===== *)
(** * Benchmark results (bench/metrics.py)

    From the requests of a finished run to its numbers: latency percentiles, throughput
    and goodput, and the combination of repeated runs.  [np.percentile], [np.std] and
    [np.median] are parameters, with the documented facts used as laws.  What is printed
    and what describes the machine is not modelled. *)

From Stdlib Require Import ssreflect QArith Qcanon.
From stdpp Require Import prelude strings sorting list.
From S2P Require Import Prelude Types Rationals.

(** ** NumPy *)

Class NumpyStats := {
  np_percentile : list Qc → Z → Qc;
  np_std : list Qc → Qc;
  np_median : list Qc → Qc;
}.

Class NumpyStatsLaws `{NumpyStats} := {
  law_pct_range x l p : (0 ≤ p ≤ 100)%Z →
    (qminimum x l <= np_percentile (x :: l) p ∧ np_percentile (x :: l) p <= qmaximum x l)%Qc;
  law_pct_mono x l p p' : (0 ≤ p ≤ p')%Z → (p' ≤ 100)%Z → (np_percentile (x :: l) p <= np_percentile (x :: l) p')%Qc;
  law_std_nonneg x l : (0 <= np_std (x :: l))%Qc;
}.

Section metrics.
Context `{NumpyStats}.

(** ** Percentiles *)

Record Percentiles := mkPercentiles {
  p50 : option Qc; p90 : option Qc; p95 : option Qc; p99 : option Qc;
  p_mean : option Qc; p_min : option Qc; p_max : option Qc; p_n : nat;
}.

Definition percentiles (values : list Qc) : Percentiles :=
  match values with
  | [] => mkPercentiles None None None None None None None 0
  | x :: l =>
      let pct p := Some (np_percentile values p) in
      mkPercentiles (pct 50%Z) (pct 90%Z) (pct 95%Z) (pct 99%Z) (Some (qmean values))
        (Some (qminimum x l)) (Some (qmaximum x l)) (length values)
  end.

(** ** The summary of a run *)

Definition finished_ok (r : Request) : Prop := finish_reason r = Some EOS ∨ finish_reason r = Some LENGTH.
Definition was_rejected (r : Request) : Prop := finish_reason r = Some REJECTED.
#[export] Instance finished_ok_dec r : Decision (finished_ok r).
Proof. rw /finished_ok. apply _. Defined.
#[export] Instance was_rejected_dec r : Decision (was_rejected r).
Proof. rw /was_rejected. apply _. Defined.

(** [x / wall if wall else 0]. *)
Definition per_second (n : nat) (wall : Qc) : Qc :=
  if bool_decide (wall = 0%Qc) then 0%Qc else (qc_of_nat n / wall)%Qc.
(** [a / b if b else 0.0], for lengths. *)
Definition ratio (a b : nat) : Qc := if b =? 0 then 0%Qc else (qc_of_nat a / qc_of_nat b)%Qc.

Record RunSummary := mkRunSummary {
  sm_wall : Qc;
  sm_submitted : nat; sm_completed : nat; sm_rejected : nat;
  sm_prompt_tokens : nat; sm_output_tokens : nat;
  sm_output_rate : Qc; sm_total_rate : Qc; sm_request_rate : Qc;
  sm_goodput : Qc; sm_fraction_met : Qc; sm_rejection_rate : Qc;
  sm_ttft : Percentiles; sm_e2e : Percentiles; sm_queue : Percentiles;
  sm_inter_token : Percentiles; sm_per_output_token : Percentiles;
}.

(** [r.e2e_latency / r.output_len], where both are known and not zero. *)
Definition normalised (r : Request) : option Qc :=
  match e2e_latency r with
  | Some t => if output_len r =? 0 then None else Some (t / qc_of_nat (output_len r))%Qc
  | None => None
  end.

Definition summary (requests : list Request) (wall : Qc) : RunSummary :=
  let done := filter finished_ok requests in
  let rejected := filter was_rejected requests in
  let out_tokens := sum_list_with output_len done in
  let prompt_tokens := sum_list_with prompt_len done in
  let met := filter (λ r, met_deadline r = true) done in
  mkRunSummary (py_round wall 4)
    (length requests) (length done) (length rejected) prompt_tokens out_tokens
    (per_second out_tokens wall) (per_second (prompt_tokens + out_tokens) wall) (per_second (length done) wall)
    (per_second (length met) wall) (ratio (length met) (length done)) (ratio (length rejected) (length requests))
    (percentiles (omap ttft done)) (percentiles (omap e2e_latency done)) (percentiles (omap queue_time done))
    (percentiles (done ≫= inter_token_latencies)) (percentiles (omap normalised done)).

(** ** Repeated runs *)

Record Spread := mkSpread {
  sp_median : Qc; sp_mean : Qc; sp_std : Qc; sp_min : Qc; sp_max : Qc; sp_cv : Qc; sp_values : list Qc;
}.

Definition spread (x : Qc) (l : list Qc) : Spread :=
  let vals := x :: l in
  let mean := qmean vals in
  let cv := if bool_decide (mean = 0%Qc) then 0%Qc else (np_std vals / mean)%Qc in
  mkSpread (np_median vals) mean (np_std vals) (qminimum x l) (qmaximum x l) cv vals.

(** The tracked quantities, and whether their variation counts towards stability. *)
Definition tracked : list (string * (RunSummary → option Qc)) :=
  [("output_tokens_per_s", λ s, Some (sm_output_rate s)); ("requests_per_s", λ s, Some (sm_request_rate s));
   ("goodput_per_s", λ s, Some (sm_goodput s)); ("ttft_p50", λ s, p50 (sm_ttft s)); ("ttft_p99", λ s, p99 (sm_ttft s));
   ("itl_p50", λ s, p50 (sm_inter_token s)); ("itl_p99", λ s, p99 (sm_inter_token s))].

(** [name.endswith("p99")]. *)
Definition is_tail (name : string) : bool :=
  bool_decide (String.substring (String.length name - 3) 3 name = "p99").

(** [pluck(path)]. *)
Definition pluck (f : RunSummary → option Qc) (summaries : list RunSummary) : list Qc := omap f summaries.

Definition stats_of (summaries : list RunSummary) : list (string * Spread) :=
  tracked ≫= λ '(name, f), match pluck f summaries with [] => [] | x :: l => [(name, spread x l)] end.

Definition worst_cv (stats : list (string * Spread)) : Qc :=
  foldl (λ worst ns, if is_tail ns.1 then worst else qc_max worst (sp_cv ns.2)) 0%Qc stats.

(** [sorted(summaries, key=...)], stable. *)
Fixpoint sort_insert {A} (key : A → Qc) (x : A) (l : list A) : list A :=
  match l with
  | [] => [x]
  | y :: l' => if bool_decide (key x <= key y)%Qc then x :: l else y :: sort_insert key x l'
  end.
Definition sort_by {A} (key : A → Qc) (l : list A) : list A := foldr (sort_insert key) [] l.

Inductive Aggregate :=
  | Single (representative : RunSummary)
  | Repeated (repeats : nat) (representative : RunSummary) (across : list (string * Spread)) (worst : Qc) (stable : bool).

Definition aggregate (summaries : list RunSummary) : result Aggregate :=
  match summaries with
  | [s] => Ok (Single s)
  | _ =>
      let stats := stats_of summaries in
      let worst := worst_cv stats in
      let by_throughput := sort_by sm_output_rate summaries in
      match by_throughput !! (length by_throughput / 2) with
      | None => Raise IndexError
      | Some representative =>
          Ok (Repeated (length summaries) representative stats worst (bool_decide (worst < Q2Qc (5 # 100))%Qc))
      end
  end.
End metrics.

(** * What the numbers mean *)

Lemma sort_insert_perm {A} (key : A → Qc) x l : sort_insert key x l ≡ₚ x :: l.
Proof. induction l as [|y l IH]; cbn; [done|]. case_bool_decide; [done|]. rw IH. constructor. Qed.

Lemma sort_by_perm {A} (key : A → Qc) l : sort_by key l ≡ₚ l.
Proof. induction l as [|x l IH]; [done|]. rw /sort_by /= -/(sort_by key l) sort_insert_perm. by constructor. Qed.

Lemma sort_insert_sorted {A} (key : A → Qc) x l :
  StronglySorted (λ a b, key a <= key b)%Qc l → StronglySorted (λ a b, key a <= key b)%Qc (sort_insert key x l).
Proof.
  induction 1 as [|y l Hl IH Hy]; cbn; [by repeat constructor|]. case_bool_decide as Hle.
  - constructor; [by constructor|]. constructor; [done|]. eapply Forall_impl; [exact Hy|]. intros z Hz. by etrans.
  - constructor; [done|]. rw sort_insert_perm. constructor; [|done]. by apply Qclt_le_weak, Qcnot_le_lt.
Qed.

Lemma sort_by_sorted {A} (key : A → Qc) l : StronglySorted (λ a b, key a <= key b)%Qc (sort_by key l).
Proof. induction l as [|x l IH]; cbn; [constructor|]. by apply sort_insert_sorted. Qed.

(** Everything before a position of a sorted list is below it, everything after above. *)
Lemma sorted_split {A} (key : A → Qc) l k x :
  StronglySorted (λ a b, key a <= key b)%Qc l → l !! k = Some x →
  l = take k l ++ x :: drop (S k) l ∧ Forall (λ y, key y <= key x)%Qc (take k l) ∧ Forall (λ y, key x <= key y)%Qc (drop (S k) l).
Proof.
  intros Hs Hk. pose proof (take_drop_middle l k x Hk) as Heq. split; [done|].
  rw -Heq in Hs. clear Heq. induction (take k l) as [|y t IH]; cbn in Hs.
  - apply StronglySorted_inv in Hs as [_ Hf]. split; [constructor|done].
  - apply StronglySorted_inv in Hs as [Hs Hf]. destruct (IH Hs) as [H1 H2]. split; [|done]. constructor; [|done].
    rw Forall_app in Hf. destruct Hf as [_ [Hx _]%Forall_cons]. done.
Qed.

Lemma worst_from_lt stats (bound : Qc) : ∀ acc,
  (foldl (λ worst ns, if is_tail ns.1 then worst else qc_max worst (sp_cv ns.2)) acc stats < bound)%Qc ↔
  (acc < bound)%Qc ∧ Forall (λ ns, is_tail ns.1 = false → (sp_cv ns.2 < bound)%Qc) stats.
Proof.
  induction stats as [|[name sp] stats IH]; intros acc; cbn [foldl]; [by split; [split; [done|constructor]|intros []]|].
  rw IH Forall_cons. cbn [fst snd]. destruct (is_tail name); [naive_solver|].
  destruct (qc_max_spec acc (sp_cv sp)) as [[H1 H2] Hor]. split.
  - intros [Hlt Hf]. split_and!; [eapply Qcle_lt_trans; done|intros _; eapply Qcle_lt_trans; done|done].
  - intros (Ha & Hc & Hf). split; [|done]. destruct Hor as [->| ->]; auto.
Qed.

Lemma lt_per_second (a b : nat) (wall : Qc) : (0 < wall)%Qc → a ≤ b → (0 <= per_second a wall ∧ per_second a wall <= per_second b wall)%Qc.
Proof.
  intros Hw Hab. rw /per_second bool_decide_false; [|by apply qc_pos_ne]. split.
  - apply qc_div_nonneg; [done|apply qc_of_nat_nonneg].
  - apply qc_div_le; [done|]. by apply qc_of_nat_le.
Qed.

Lemma ratio_bounds a b : a ≤ b → (0 <= ratio a b ∧ ratio a b <= 1)%Qc.
Proof.
  intros Hab. rw /ratio. destruct (Nat.eqb_spec b 0) as [->|Hb]; [by split|].
  apply qc_fraction; [lia|done].
Qed.

Lemma filter_split_le {A} (P Q : A → Prop) `{!∀ x, Decision (P x), !∀ x, Decision (Q x)} l :
  (∀ x, P x → ¬ Q x) → length (filter P l) + length (filter Q l) ≤ length l.
Proof.
  intros Hd. induction l as [|x l IH]; [done|]. rw !filter_cons. specialize (Hd x).
  destruct (decide (P x)), (decide (Q x)); cbn; try lia. exfalso. by apply Hd.
Qed.

(** The headline numbers are consistent.  For any finished run over a positive wall
    time, completed and rejected requests are disjoint and among those submitted; the
    goodput lies between zero and the completed requests per second, and equals it
    exactly when every completed request met its deadline; the fractions lie between
    zero and one; every latency percentile is ordered, min <= p50 <= p90 <= p95 <= p99
    <= max, with the mean between the extremes, and absent exactly when there is no
    sample. *)
Theorem summary_consistent `{NumpyStatsLaws} requests wall :
  (0 < wall)%Qc →
  let s := summary requests wall in
  sm_completed s + sm_rejected s ≤ sm_submitted s ∧ sm_submitted s = length requests ∧
  (0 <= sm_goodput s ∧ sm_goodput s <= sm_request_rate s)%Qc ∧
  (sm_goodput s = sm_request_rate s ↔ Forall (λ r, finished_ok r → met_deadline r = true) requests) ∧
  (0 <= sm_fraction_met s ∧ sm_fraction_met s <= 1)%Qc ∧ (0 <= sm_rejection_rate s ∧ sm_rejection_rate s <= 1)%Qc ∧
  Forall (λ p, match p50 p, p90 p, p95 p, p99 p, p_mean p, p_min p, p_max p with
               | Some a, Some b, Some c, Some d, Some m, Some lo, Some hi =>
                   (lo <= a ∧ a <= b ∧ b <= c ∧ c <= d ∧ d <= hi ∧ lo <= m ∧ m <= hi)%Qc ∧ 0 < p_n p
               | None, None, None, None, None, None, None => p_n p = 0
               | _, _, _, _, _, _, _ => False
               end) [sm_ttft s; sm_e2e s; sm_queue s; sm_inter_token s; sm_per_output_token s].
Proof.
  intros Hw s. cbn [s summary sm_completed sm_rejected sm_submitted sm_goodput sm_request_rate sm_fraction_met sm_rejection_rate
    sm_ttft sm_e2e sm_queue sm_inter_token sm_per_output_token].
  set (done := filter finished_ok requests). set (met := filter _ done).
  assert (length met ≤ length done) as Hmet by apply length_filter.
  split_and!; try done.
  - apply filter_split_le. rw /finished_ok /was_rejected. intros x [->| ->]; done.
  - exact (proj1 (lt_per_second _ _ wall Hw Hmet)).
  - exact (proj2 (lt_per_second _ _ wall Hw Hmet)).
  - assert (length met = length done ↔ Forall (λ r, finished_ok r → met_deadline r = true) requests) as <-.
    { subst met done. clear. induction requests as [|r l IH]; [done|]. rw Forall_cons -IH filter_cons. clear IH.
      pose proof (length_filter (λ r, met_deadline r = true) (filter finished_ok l)). case_decide as Hf.
      - rw filter_cons. case_decide; cbn; [split; [intros [= ->]; done|intros [_ ->]; done]|].
        split; [lia|]. intros [Hm _]. by apply Hm in Hf.
      - naive_solver. }
    rw /per_second bool_decide_false; [|by apply qc_pos_ne]. split; [|by intros ->].
    intros Heq. apply (f_equal (λ x, x * wall)%Qc) in Heq. rw !qc_div_mul // in Heq. apply qc_of_Z_inj in Heq. lia.
  - exact (proj1 (ratio_bounds _ _ Hmet)).
  - exact (proj2 (ratio_bounds _ _ Hmet)).
  - exact (proj1 (ratio_bounds _ _ (length_filter was_rejected requests))).
  - exact (proj2 (ratio_bounds _ _ (length_filter was_rejected requests))).
  - repeat constructor; match goal with |- context [percentiles ?v] => destruct v as [|x l] end; try done; cbn;
      (split; [|lia]); split_and!; first [apply law_pct_range; lia | apply law_pct_mono; lia | apply qmean_between].
Qed.

(** Repeated runs are combined around the median run.  [aggregate] raises
    [IndexError] exactly on no runs; one run is returned as it is; otherwise the
    representative is one of the runs, with half of them (rounded down) no faster and
    the rest no slower, whatever order they ran in; and the result is called stable
    exactly when every tracked quantity that is not a tail percentile varies by less
    than five percent. *)
Theorem aggregate_exact `{NumpyStats} summaries :
  match aggregate summaries with
  | Raise e => e = IndexError ∧ summaries = []
  | Ok (Single s) => summaries = [s]
  | Ok (Repeated n rep across worst stable) =>
      n = length summaries ∧ 2 ≤ n ∧ across = stats_of summaries ∧
      (∃ slower faster, summaries ≡ₚ slower ++ rep :: faster ∧ length slower = n / 2 ∧
         Forall (λ s, sm_output_rate s <= sm_output_rate rep)%Qc slower ∧
         Forall (λ s, sm_output_rate rep <= sm_output_rate s)%Qc faster) ∧
      (stable = true ↔ Forall (λ ns, is_tail ns.1 = false → (sp_cv ns.2 < Q2Qc (5 # 100))%Qc) across)
  end.
Proof.
  pose proof (sort_by_perm sm_output_rate summaries) as Hp. pose proof (sort_by_sorted sm_output_rate summaries) as Hs.
  destruct summaries as [|s1 [|s2 rest]]; [done|done|].
  set (l := s1 :: s2 :: rest) in *. change (aggregate l) with (
    match sort_by sm_output_rate l !! (length (sort_by sm_output_rate l) / 2) with
    | None => Raise IndexError
    | Some rep => Ok (Repeated (length l) rep (stats_of l) (worst_cv (stats_of l)) (bool_decide (worst_cv (stats_of l) < Q2Qc (5 # 100))%Qc))
    end).
  assert (length (sort_by sm_output_rate l) = length l) as Hlen by by rw Hp.
  assert (2 ≤ length l) as Hl2 by (cbn; lia). rw Hlen.
  destruct (lookup_lt_is_Some_2 (sort_by sm_output_rate l) (length l / 2)) as [rep Hrep].
  { rw Hlen. apply Nat.div_lt; lia. }
  rw Hrep. destruct (sorted_split sm_output_rate _ _ _ Hs Hrep) as (Heq & Hlo & Hhi). split_and!; try done.
  - exists (take (length l / 2) (sort_by sm_output_rate l)), (drop (S (length l / 2)) (sort_by sm_output_rate l)).
    split_and!; try done; [by rw -Heq Hp|]. rw length_take Hlen. pose proof (Nat.div_lt (length l) 2). lia.
  - rw bool_decide_eq_true /worst_cv worst_from_lt. split; [by intros []|]. intros Hf. split; [done|exact Hf].
Qed.

(** ** Statistics to run: the lower nearest sample, and the range as a spread *)
Module ToyStats.
Definition pick (l : list Qc) (p : Z) : Qc :=
  nth (Z.to_nat (p * (Z.of_nat (length l) - 1) / 100)) (sort_by id l) 0%Qc.
#[global] Instance stats : NumpyStats := {|
  np_percentile := pick;
  np_std l := match l with [] => 0%Qc | x :: l => (qmaximum x l - qminimum x l)%Qc end;
  np_median l := pick l 50;
|}.

Lemma pick_lookup x l p : (0 ≤ p ≤ 100)%Z →
  let i := Z.to_nat (p * (Z.of_nat (length (x :: l)) - 1) / 100) in
  i < length (x :: l) ∧ sort_by id (x :: l) !! i = Some (pick (x :: l) p).
Proof.
  intros Hp i. assert (i < length (x :: l)) as Hi.
  { subst i. cbn [length]. assert (p * (Z.of_nat (S (length l)) - 1) / 100 ≤ Z.of_nat (length l))%Z; [|lia].
    apply Z.div_le_upper_bound; nia. }
  split; [done|]. rw /pick.
  destruct (lookup_lt_is_Some_2 (sort_by id (x :: l)) i) as [y Hy]; [by rw sort_by_perm|]. rw Hy. f_equal.
  symmetry. by apply nth_lookup_Some.
Qed.

Lemma pick_mono x l p p' : (0 ≤ p ≤ p')%Z → (p' ≤ 100)%Z → (pick (x :: l) p <= pick (x :: l) p')%Qc.
Proof.
  intros Hp Hp'. destruct (pick_lookup x l p ltac:(lia)) as [_ Hi], (pick_lookup x l p' ltac:(lia)) as [_ Hj].
  set (i := Z.to_nat _) in Hi. set (j := Z.to_nat _) in Hj. assert (i ≤ j) as Hij.
  { subst i j. apply Z2Nat.inj_le; [apply Z.div_pos; [cbn [length]; nia|lia]..|]. apply Z.div_le_mono; [lia|]. cbn [length]. nia. }
  destruct (sorted_split id _ _ _ (sort_by_sorted id (x :: l)) Hj) as (_ & Hlo & _).
  destruct (decide (i = j)) as [->|Hne]; [rw Hi in Hj; injection Hj as ->; apply Qcle_refl|].
  rw Forall_forall in Hlo. apply Hlo. apply list_elem_of_lookup. exists i. rw lookup_take_lt //. lia.
Qed.

#[global] Instance laws : NumpyStatsLaws.
Proof.
  split; cbn.
  - intros x l p Hp. destruct (pick_lookup x l p Hp) as [_ Hi]. apply list_elem_of_lookup_2 in Hi. rw sort_by_perm in Hi.
    destruct (qmaximum_spec x l) as [H1 _], (qminimum_spec x l) as [H2 _]. rw Forall_forall in H1. rw Forall_forall in H2. auto.
  - intros x l p p'. apply pick_mono.
  - intros x l. destruct (qmean_between x l) as [H1 H2]. qc_lra.
Qed.

(** Three requests: one in time, one late, one rejected. *)
Definition request (fr : FinishReason) (arrival finish : Z) : Request :=
  set_finish (Some (qc_of_Z finish)) (Some fr)
    (set_output (Some (qc_of_Z finish)) [qc_of_Z finish] [7%Z]
      (new_request [1; 2]%Z default_params "r" (qc_of_Z arrival) (Some (qc_of_Z (arrival + 5))))).
Definition requests : list Request := [request LENGTH 0 3; request EOS 1 9; request REJECTED 2 2].
End ToyStats.

Lemma summary_consistent_witness :
  let s := summary ToyStats.requests (qc_of_Z 2) in
  (sm_completed s, sm_rejected s, sm_submitted s, this (sm_goodput s), this (sm_request_rate s), this <$> p50 (sm_e2e s), this <$> p_max (sm_e2e s))
    = (2, 1, 3, 1 # 2, 1%Q, Some 3%Q, Some 8%Q) ∧
  sm_completed s + sm_rejected s ≤ sm_submitted s ∧ (sm_goodput s <= sm_request_rate s)%Qc.
Proof.
  intros s. split; [vm_compute; reflexivity|].
  destruct (summary_consistent ToyStats.requests (qc_of_Z 2)) as (H1 & _ & [_ H2] & _); [reflexivity|].
  split; [exact H1|exact H2].
Defined.
