(* ===== verification/Runner.v ===== *)
(** * Driving an engine against an arrival schedule (bench/runner.py)

    The runner only knows the methods it calls, the class [BenchEngine]; what it needs of
    them is [BenchLaws], proved against which it submits every request once, not before
    its arrival, and collects every outcome.  The continuous-batching and the sequential
    engine are instances.  Sleeping and printing have no effect on the state; the clock's
    readings are a parameter. *)

From Stdlib Require Import ssreflect QArith Qcanon.
From stdpp Require Import prelude gmap gmultiset strings pretty sorting list.
From S2P Require Import Prelude Config BlockManager KvCache Transformer PrefixCache Types Rationals Admission Batch Scheduler Frame Prefill Engine EngineProps Liveness Workload BenchMetrics.

(** ** What the runner calls *)

Class BenchEngine (S : Type) := {
  bn_reqs : S → gmap nat Request;              (* the request objects *)
  bn_set_reqs : gmap nat Request → S → S;
  bn_ticks : S → nat;                          (* clock readings taken so far *)
  bn_clock : nat → Qc;
  bn_tick : S → S;                             (* the state after one more *)
  bn_add : nat → M S unit;                     (* [engine.add_request] *)
  bn_has_work : S → bool;
  bn_step : M S (list nat);
  bn_clear_finished : M S unit;                (* [engine.finished.clear()] *)
  bn_drains : bool;                            (* [hasattr(engine, "drain_finished")] *)
  bn_drain : M S (list nat);
  bn_clear_emitted : M S unit;
}.

Record RunnerConfig := mkRunnerConfig {
  warmup_requests : nat;
  warmup_prompt_len : nat;
  warmup_output_len : Z;
  poll_seconds : Qc;
  timeout_seconds : Qc;
}.

Definition default_runner : RunnerConfig := mkRunnerConfig 12 128 32 (Q2Qc (1 # 2000)) (qc_of_Z 900).

Record RunResult := mkRunResult {
  rr_wall_seconds : Qc;
  rr_requests : list nat;
  rr_workload : WorkloadSummary;
}.

Section runner.
Context {S : Type} `{BenchEngine S} {G : Type} `{NumpyRng G}.

(** [time.perf_counter()]. *)
Definition perf_counter : M S Qc := λ s, (Ok (bn_clock (bn_ticks s)), bn_tick s).

(** A new request object. *)
Definition new_object (q : Request) : M S nat := λ s,
  let r := base.fresh (dom (bn_reqs s) : gset nat) in (Ok r, bn_set_reqs (<[r := q]> (bn_reqs s)) s).

Definition read_arrival (r : nat) : M S Qc := λ s,
  match bn_reqs s !! r with Some q => (Ok (arrival_time q), s) | None => (Raise KeyError, s) end.

(** The engine, the generator of the warm-up and the request counter. *)
Definition on_bench {A} (m : M S A) : M (S * G * nat) A := zoom (λ s, s.1.1) (λ e s, (e, s.1.2, s.2)) m.
Definition on_rng {A} (m : M G A) : M (S * G * nat) A := zoom (λ s, s.1.2) (λ g s, (s.1.1, g, s.2)) m.
Definition next_request_id : M (S * G * nat) string := λ s, (Ok ("req-" +:+ pretty s.2), (s.1, s.2 + 1)).

Definition warmup_request (cfg : RunnerConfig) (vocab_size : Z) : M (S * G * nat) nat :=
  let* ids := on_rng (rng_integers 1 (vocab_size - 1) (warmup_prompt_len cfg)) in
  let* id := next_request_id in
  let* arrival := on_bench perf_counter in
  on_bench (new_object (new_request ids (mkParams (warmup_output_len cfg) 0%Qc None None true) id arrival None)).

(** [while engine.has_work(): engine.step()]; [None] when [fuel] rounds were not enough. *)
Fixpoint step_until_idle (fuel : nat) : M S (option unit) :=
  let* s := get in
  if bn_has_work s then
    match fuel with
    | O => ret None
    | Datatypes.S fuel => do* bn_step in step_until_idle fuel
    end
  else ret (Some tt).

(** The body of [warmup], once its generator has been seeded. *)
Definition warmup_body (fuel : nat) (cfg : RunnerConfig) (vocab_size : Z) : M (S * G * nat) (option (list nat)) :=
  let* reqs := for_list (seq 0 (warmup_requests cfg)) (λ _, warmup_request cfg vocab_size) in
  do* on_bench (for_each reqs bn_add) in
  let* done := on_bench (step_until_idle fuel) in
  do* on_bench bn_clear_finished in
  ret (match done with Some _ => Some reqs | None => None end).

Definition warmup (fuel : nat) (cfg : RunnerConfig) (vocab_size : Z) : M (S * nat) (option (list nat)) := λ s,
  match warmup_body fuel cfg vocab_size (s.1, default_rng 1234, s.2) with
  | (r, (e, _, ids)) => (r, (e, ids))
  end.

(** [while pending and pending[0].arrival_time <= now: engine.add_request(pending.popleft())]. *)
Fixpoint submit_due (now : Qc) (pending : list nat) : M S (list nat) :=
  match pending with
  | [] => ret []
  | r :: rest =>
      let* arrival := read_arrival r in
      if bool_decide (arrival <= now)%Qc then do* bn_add r in submit_due now rest
      else ret pending
  end.

(** The measured loop; [None] when [fuel] rounds were not enough. *)
Fixpoint drive (fuel : nat) (timeout t0 : Qc) (pending completed : list nat) : M S (option (list nat)) :=
  let* s := get in
  if (match pending with [] => false | _ => true end) || bn_has_work s then
    match fuel with
    | O => ret None
    | Datatypes.S fuel =>
        let* now := perf_counter in
        if bool_decide (timeout < now - t0)%Qc then raise TimeoutError
        else
          let* pending := submit_due now pending in
          let* s := get in
          let* completed :=
            (if bn_has_work s then
               let* stepped := bn_step in
               if bn_drains then
                 let* l := bn_drain in
                 do* bn_clear_emitted in
                 ret (completed ++ l)
               else ret (completed ++ stepped)
             else if bn_drains then
               let* l := bn_drain in ret (completed ++ l)
             else ret completed) in
          drive fuel timeout t0 pending completed
    end
  else ret (Some completed).

(** [run] over the objects [requests] of the store. *)
Definition bench_run (fuel : nat) (requests : list nat) (summary : WorkloadSummary) (cfg : RunnerConfig)
    (vocab_size : Z) : M (S * nat) (option RunResult) :=
  let on_engine {A} (m : M S A) : M (S * nat) A := zoom fst (λ e s, (e, s.2)) m in
  let* warmed := warmup fuel cfg vocab_size in
  match warmed with
  | None => ret None
  | Some _ =>
      let* t0 := on_engine perf_counter in
      do* on_engine (modify (λ s, bn_set_reqs (rebase t0 requests (bn_reqs s)) s)) in
      let* completed := on_engine (drive fuel (timeout_seconds cfg) t0 requests []) in
      match completed with
      | None => ret None
      | Some completed =>
          let* t1 := on_engine perf_counter in
          ret (Some (mkRunResult (t1 - t0)%Qc completed summary))
      end
  end.
End runner.

(** ** What the runner relies on *)

Section effect.
Context {S : Type} `{BenchEngine S}.

(** Time passes, and only requests of [sub] are touched. *)
Record effect (sub : list nat) (s s' : S) : Prop := {
  ef_ticks : bn_ticks s ≤ bn_ticks s';
  ef_store : store_moves bn_clock (list_to_set sub) (bn_ticks s) (bn_ticks s') (bn_reqs s) (bn_reqs s');
}.
End effect.

(** [bl_inv out sub s]: of the submitted requests [sub], the outcomes [out] have been
    collected; [bl_cost] bounds the steps still needed, [bl_unit] of it per request. *)
Class BenchLaws (S : Type) `{BenchEngine S} := {
  bl_inv : list nat → list nat → S → Prop;
  bl_ready : Request → Prop;
  bl_cost : S → nat;
  bl_unit : nat;
  bl_undrained : S → list nat;
  bl_quiet (s s' : S) : Prop :=
    bn_has_work s' = bn_has_work s ∧ bl_cost s' = bl_cost s ∧ bl_undrained s' = bl_undrained s;

  law_unit : 0 < bl_unit;
  law_ready_rebase t q : bl_ready q → bl_ready (rebase_one t q);
  law_tick out sub s : bl_inv out sub s →
    bl_inv out sub (bn_tick s) ∧ bn_reqs (bn_tick s) = bn_reqs s ∧ bn_ticks (bn_tick s) = Datatypes.S (bn_ticks s) ∧
    bl_quiet s (bn_tick s);
  law_store out sub s m : bl_inv out sub s → (∀ r, r ∈ sub → m !! r = bn_reqs s !! r) →
    (∀ r q, r ∉ sub → m !! r = Some q → bl_ready q) →
    bl_inv out sub (bn_set_reqs m s) ∧ bn_reqs (bn_set_reqs m s) = m ∧ bn_ticks (bn_set_reqs m s) = bn_ticks s ∧
    bl_quiet s (bn_set_reqs m s);
  law_add out sub s r q : bl_inv out sub s → r ∉ sub → bn_reqs s !! r = Some q → bl_ready q →
    wp (bn_add r) (λ _ s', bl_inv out (r :: sub) s' ∧ bl_cost s' = bl_cost s + bl_unit ∧ effect (r :: sub) s s') never s;
  law_step out sub s : bl_inv out sub s → bn_has_work s = true →
    wp bn_step (λ l s', bl_inv (out ++ if bn_drains then [] else l) sub s' ∧ bl_cost s' < bl_cost s ∧ effect sub s s') never s;
  law_drain out sub s : bl_inv out sub s → bn_drains = true →
    wp bn_drain (λ l s', bl_inv (out ++ l) sub s' ∧ bl_undrained s' = [] ∧ bn_reqs s' = bn_reqs s ∧
       bn_ticks s' = bn_ticks s ∧ bn_has_work s' = bn_has_work s ∧ bl_cost s' = bl_cost s) never s;
  law_clear_emitted out sub s : bl_inv out sub s → bn_drains = true →
    wp bn_clear_emitted (λ _ s', bl_inv out sub s' ∧ bn_reqs s' = bn_reqs s ∧ bn_ticks s' = bn_ticks s ∧ bl_quiet s s') never s;
  law_clear_finished out sub s : bl_inv out sub s →
    wp bn_clear_finished (λ _ s', bl_inv out sub s' ∧ bn_reqs s' = bn_reqs s ∧ bn_ticks s' = bn_ticks s ∧ bl_quiet s s') never s;
  law_idle out sub s : bl_inv out sub s → bn_has_work s = false → out ++ bl_undrained s ≡ₚ sub;
  law_direct out sub s : bl_inv out sub s → bn_drains = false → bl_undrained s = [];
  law_stored out sub s r q : bl_inv out sub s → r ∉ sub → bn_reqs s !! r = Some q → bl_ready q;
}.

(** ** The runner is exact *)

Section bench.
Context {S : Type} `{HL : BenchLaws S}.
Implicit Types (s : S).

(** A request as it was handed over, not yet submitted. *)
Definition waits (m0 : gmap nat Request) s (r : nat) : Prop :=
  ∃ q, bn_reqs s !! r = Some q ∧ m0 !! r = Some q ∧ stamps q = [].

(** A submitted request: what was asked stands, and no time recorded in it, now or
    later, precedes its arrival. *)
Definition timely (m0 : gmap nat Request) s (r : nat) : Prop :=
  ∃ q0 q, m0 !! r = Some q0 ∧ bn_reqs s !! r = Some q ∧ same_ask q0 q ∧
    (∀ t, t ∈ stamps q → arrival_time q <= t)%Qc ∧ ∀ n, bn_ticks s ≤ n → (arrival_time q <= bn_clock n)%Qc.

Lemma waits_effect m0 sub s s' r : effect sub s s' → r ∉ sub → waits m0 s r → waits m0 s' r.
Proof.
  intros [_ Hst] Hr (q & Hq & H0 & Hs). specialize (Hst r). rw Hq in Hst. destruct (bn_reqs s' !! r) as [q'|] eqn:Hq'; [|done].
  destruct Hst as [_ Hx]. rw Hx in Hq'; [exists q; by split_and!|]. by rw elem_of_list_to_set.
Qed.

Lemma timely_effect m0 sub s s' r : effect sub s s' → timely m0 s r → timely m0 s' r.
Proof.
  intros [Ht Hst] (q0 & q & H0 & Hq & Ha & Hs & Hn). specialize (Hst r). rw Hq in Hst. destruct (bn_reqs s' !! r) as [q'|] eqn:Hq'; [|done].
  destruct Hst as [[Ha' Hm] _]. exists q0, q'. split_and!; try done; [by etrans|..].
  - intros t Htq. rw (sa_arrival _ _ Ha'). destruct (Hm t Htq) as [Hin|(n & Hn1 & _ & ->)]; auto.
  - intros n Hle. rw (sa_arrival _ _ Ha'). apply Hn. lia.
Qed.

Lemma waits_same m0 s s' r : bn_reqs s' = bn_reqs s → waits m0 s r → waits m0 s' r.
Proof. by rw /waits => ->. Qed.
Lemma timely_same m0 s s' r : bn_reqs s' = bn_reqs s → bn_ticks s ≤ bn_ticks s' → timely m0 s r → timely m0 s' r.
Proof.
  intros Hr Ht (q0 & q & H0 & Hq & Ha & Hs & Hn). exists q0, q. rw Hr. split_and!; try done. intros n Hle. apply Hn. lia.
Qed.

(** A request submitted when the clock has passed its arrival. *)
Lemma waits_due m0 s r now : waits m0 s r →
  (∀ q, bn_reqs s !! r = Some q → arrival_time q <= now)%Qc → (∀ n, bn_ticks s ≤ n → (now <= bn_clock n)%Qc) → timely m0 s r.
Proof.
  intros (q & Hq & H0 & Hs) Ha Hn. exists q, q. split_and!; try done; [by rw Hs; intros t ?%not_elem_of_nil|].
  intros n Hle. eapply Qcle_trans; [by apply Ha|by apply Hn].
Qed.

(** ** Submission *)

(** Exactly the requests at the front that have arrived are submitted. *)
Lemma submit_due_spec m0 now pending : ∀ out sub s,
  bl_inv out sub s → NoDup (pending ++ sub) → Forall (waits m0 s) pending → (∀ n, bn_ticks s ≤ n → (now <= bn_clock n)%Qc) →
  wp (submit_due now pending)
     (λ rest s', ∃ gone, pending = gone ++ rest ∧ bl_inv out (rev gone ++ sub) s' ∧
        bl_cost s' = bl_cost s + length gone * bl_unit ∧ bn_ticks s ≤ bn_ticks s' ∧
        Forall (waits m0 s') rest ∧ Forall (timely m0 s') gone ∧ (∀ r, timely m0 s r → timely m0 s' r) ∧
        match rest with [] => True | r :: _ => ∃ q, m0 !! r = Some q ∧ (now < arrival_time q)%Qc end) never s.
Proof.
  induction pending as [|r pending IH]; intros out sub s Hinv Hnd Hw Hn; cbn [submit_due].
  { wp_step. exists []. cbn. split_and!; try done; lia. }
  pose proof Hw as [Hwr Hwp]%Forall_cons. cbn in Hnd. apply NoDup_cons in Hnd as [Hr Hnd].
  destruct Hwr as (q & Hq & H0 & Hs). wp_step. rw {1}/wp /read_arrival Hq. case_bool_decide as Hdue; last first.
  { wp_step. exists []. cbn. split_and!; try done; try lia. exists q. split; [done|]. by apply Qcnot_le_lt. }
  wp_step. assert (r ∉ sub) as Hsub by (intros ?; apply Hr, elem_of_app; by right).
  eapply wp_mono; [eapply (law_add out sub s r q); [done|done|done|by eapply law_stored]| |done].
  intros _ s1 (Hinv1 & Hcost1 & Hef1).
  assert (timely m0 s1 r) as Htr.
  { eapply timely_effect; [done|]. apply (waits_due m0 s r now); [by exists q| |done]. intros q' Hq'. by simplify_eq. }
  eapply wp_mono; [apply (IH out (r :: sub) s1 Hinv1)| |done].
  - assert (pending ++ r :: sub ≡ₚ r :: pending ++ sub) as -> by solve_Permutation. by apply NoDup_cons.
  - rw Forall_forall in Hwp. apply Forall_forall. intros r' Hr'. eapply waits_effect; [done| |by apply Hwp].
    intros [->|Hin]%elem_of_cons; [apply Hr, elem_of_app; by left|]. apply NoDup_app in Hnd as (_ & Hd & _). by apply (Hd r').
  - intros n Hle. apply Hn. destruct Hef1. lia.
  - intros rest s2 (gone & -> & Hinv2 & Hcost2 & Ht2 & Hw2 & Htm2 & Hmono & Hhd). exists (r :: gone). cbn [rev].
    rw -app_assoc. split_and!; try done.
    + rw Hcost2 Hcost1. cbn. lia.
    + destruct Hef1. lia.
    + constructor; [by apply Hmono|done].
    + intros r' Hr'. apply Hmono. by eapply timely_effect.
Qed.

(** ** The measured loop *)

Section drive.
Context (m0 : gmap nat Request) (rs W D : list nat) (timeout t0 : Qc) (n0 N : nat).
Hypothesis clock_mono : ∀ a b, a ≤ b → (bn_clock a <= bn_clock b)%Qc.
Hypothesis arrived : ∀ n r q, N ≤ n → r ∈ rs → m0 !! r = Some q → (arrival_time q <= bn_clock n)%Qc.

(** Between rounds: [gone] has been submitted after the warm-up requests [W], whose
    outcomes [D] have been discarded. *)
Record driving (pending completed : list nat) s : Prop := {
  dr_split : ∃ gone sub, rs = gone ++ pending ∧ sub ≡ₚ gone ++ W ∧ bl_inv (D ++ completed) sub s ∧
    NoDup (pending ++ sub) ∧ Forall (timely m0 s) gone;
  dr_waits : Forall (waits m0 s) pending;
  dr_ticks : n0 ≤ bn_ticks s;
}.

Definition over (e : exn) s : Prop := e = TimeoutError ∧ ∃ n, (timeout < bn_clock n - t0)%Qc.

Lemma drive_idle fuel completed s : bn_has_work s = false → drive fuel timeout t0 [] completed s = (Ok (Some completed), s).
Proof. intros Hw. destruct fuel; cbn [drive]; rw /bind /get /= Hw //. Qed.

(** What a round does after submitting: step if there is work, then collect. *)
Definition collect (completed : list nat) : M S (list nat) :=
  let* s := get in
  if bn_has_work s then
    let* stepped := bn_step in
    if bn_drains then
      let* l := bn_drain in
      do* bn_clear_emitted in
      ret (completed ++ l)
    else ret (completed ++ stepped)
  else if bn_drains then
    let* l := bn_drain in ret (completed ++ l)
  else ret completed.

Lemma collect_spec completed sub s : bl_inv (D ++ completed) sub s →
  wp (collect completed)
     (λ completed' s', bl_inv (D ++ completed') sub s' ∧ bl_undrained s' = [] ∧ effect sub s s' ∧
        if bn_has_work s then bl_cost s' < bl_cost s else bl_cost s' = bl_cost s ∧ bn_has_work s' = false) never s.
Proof.
  intros Hinv. rw /collect. do 2 wp_step.
  assert (∀ s' : S, bn_reqs s' = bn_reqs s → bn_ticks s' = bn_ticks s → effect sub s s') as Hq.
  { intros s' Hr Ht. split; [lia|]. rw Hr. apply store_moves_refl. }
  destruct (bn_has_work s) eqn:Hw.
  - wp_step. eapply wp_mono; [by apply (law_step (D ++ completed) sub)| |done]. intros l s1 (Hinv1 & Hc1 & Hef1).
    destruct bn_drains eqn:Hd; last first.
    { wp_step. rw app_assoc. split_and!; try done. by eapply law_direct. }
    rw app_nil_r in Hinv1. wp_step. eapply wp_mono; [by apply (law_drain (D ++ completed) sub)| |done].
    intros l2 s2 (Hinv2 & Hu2 & Hr2 & Ht2 & Hw2 & Hc2). rw -app_assoc in Hinv2. wp_step.
    eapply wp_mono; [by apply (law_clear_emitted (D ++ completed ++ l2) sub)| |done]. intros _ s3 (Hinv3 & Hr3 & Ht3 & (Hw3 & Hc3 & Hu3)). wp_step.
    split_and!; try done; [by rw Hu3| |lia]. split; [destruct Hef1; lia|]. rw Hr3 Hr2 Ht3 Ht2. by destruct Hef1.
  - destruct bn_drains eqn:Hd; last first.
    { wp_step. split_and!; try done; [by eapply law_direct|by apply Hq]. }
    wp_step. eapply wp_mono; [by apply (law_drain (D ++ completed) sub)| |done].
    intros l2 s2 (Hinv2 & Hu2 & Hr2 & Ht2 & Hw2 & Hc2). wp_step. rw app_assoc. split_and!; try done; [by apply Hq|congruence].
Qed.

Lemma drive_unfold fuel pending completed s :
  (match pending with [] => false | _ => true end) || bn_has_work s = true →
  drive (Datatypes.S fuel) timeout t0 pending completed s =
  (let* now := perf_counter in
   if bool_decide (timeout < now - t0)%Qc then raise TimeoutError
   else let* pending := submit_due now pending in
        let* completed := collect completed in
        drive fuel timeout t0 pending completed) s.
Proof.
  intros Hc. cbn [drive]. rw {1}/bind /get Hc /bind. destruct (perf_counter s) as [[now|] s1]; [|done].
  destruct (bool_decide _); [done|]. destruct (submit_due now pending s1) as [[rest|] s2]; [|done]. done.
Qed.

Lemma drive_spec fuel : ∀ pending completed s,
  driving pending completed s → (pending ≠ [] ∨ bn_has_work s = true ∨ bl_undrained s = []) →
  bl_cost s + length pending * bl_unit + (N - bn_ticks s) ≤ fuel →
  wp (drive fuel timeout t0 pending completed)
     (λ res s', ∃ out, res = Some out ∧ driving [] out s' ∧ bn_has_work s' = false ∧ bl_undrained s' = []) over s.
Proof.
  induction fuel as [|fuel IH]; intros pending completed s Hdr Hun Hfuel;
    (destruct ((match pending with [] => false | _ => true end) || bn_has_work s) eqn:Hc; last first;
     [apply orb_false_iff in Hc as [Hp Hw]; destruct pending; [|done]; rw /wp drive_idle //; exists completed;
      split_and!; try done; by destruct Hun as [|[|]]; [done|congruence|]|]).
  all: destruct Hdr as [(gone & sub & Hrs & Hsub & Hinv & Hnd & Htm) Hwt Hn0].
  { exfalso. pose proof law_unit. destruct pending as [|r pending]; [|cbn in Hfuel; lia]. cbn in Hc.
    pose proof (law_step _ _ _ Hinv Hc) as Hst. apply wp_never in Hst as (? & ? & _ & _ & ? & _). lia. }
  rw /wp drive_unfold // -/(wp _ _ _ _). wp_step. rw {1}/wp /perf_counter.
  destruct (law_tick _ _ _ Hinv) as (Hinv1 & Hr1 & Ht1 & (Hw1 & Hc1 & Hu1)). set (s1 := bn_tick s) in *.
  case_bool_decide as Hto; [wp_step; split; [done|by eexists]|].
  wp_step. eapply wp_mono; [eapply (submit_due_spec m0 _ pending (D ++ completed) sub s1); [done|done|..]| |done].
  { eapply Forall_impl; [exact Hwt|]. intros r. by apply waits_same. }
  { intros n Hle. apply clock_mono. lia. }
  intros rest s2 (new & -> & Hinv2 & Hc2 & Ht2 & Hw2 & Hnew & Hmono & Hhd). wp_step.
  eapply wp_mono; [by apply (collect_spec completed (rev new ++ sub))| |done]. intros completed' s3 (Hinv3 & Hu3 & Hef3 & Hcost3).
  assert (driving rest completed' s3) as Hdr3.
  { rw Forall_forall in Hw2. split.
    - exists (gone ++ new), (rev new ++ sub). split_and!.
      + by rw Hrs app_assoc.
      + rw Hsub -(Permutation_rev new). solve_Permutation.
      + done.
      + rw -(Permutation_rev new). assert (rest ++ new ++ sub ≡ₚ (new ++ rest) ++ sub) as -> by solve_Permutation. done.
      + apply Forall_app. split; [|eapply Forall_impl; [exact Hnew|]; intros r; by eapply timely_effect].
        eapply Forall_impl; [exact Htm|]. intros r Hr. eapply timely_effect; [done|]. apply Hmono. eapply timely_same; [done|lia|done].
    - apply Forall_forall. intros r Hr. eapply waits_effect; [done| |by apply Hw2]. rw elem_of_app.
      intros [Hin|Hin]; apply NoDup_app in Hnd as (Hn1 & Hd & _).
      + apply NoDup_app in Hn1 as (_ & Hn1 & _). apply (Hn1 r); [by rw (Permutation_rev new)|done].
      + apply (Hd r); [apply elem_of_app; by right|done].
    - destruct Hef3. lia. }
  destruct rest as [|r rest].
  { destruct (bn_has_work s2) eqn:Hw.
    - apply IH; [done|by right; right|]. destruct Hef3. rw length_app in Hfuel. cbn in Hfuel |- *. lia.
    - destruct Hcost3 as [_ Hw3]. rw /wp drive_idle //. by exists completed'. }
  apply IH; [done|by left|]. rw length_app in Hfuel. destruct Hef3. destruct (bn_has_work s2); [lia|].
  destruct Hcost3 as [Hcost3 _]. destruct Hhd as (q & Hq & Hlate).
  destruct (decide (N ≤ bn_ticks s)) as [Hle|Hlt]; [|lia].
  exfalso. eapply Qclt_not_le; [exact Hlate|]. eapply arrived; [exact Hle| |done]. rw Hrs !elem_of_app. right. right. by left.
Qed.
End drive.

(** ** Warming up *)

Lemma effect_other sub s s' r : effect sub s s' → r ∉ sub → bn_reqs s' !! r = bn_reqs s !! r.
Proof.
  intros [_ Hst] Hr. specialize (Hst r). destruct (bn_reqs s !! r), (bn_reqs s' !! r); try done.
  f_equal. apply Hst. by rw elem_of_list_to_set.
Qed.

Lemma step_until_idle_spec fuel : ∀ out sub s, bl_inv out sub s → bl_cost s ≤ fuel →
  wp (step_until_idle fuel)
     (λ res s', res = Some tt ∧ (∃ D, bl_inv (out ++ D) sub s' ∧ (bn_drains = true → D = [])) ∧ bn_has_work s' = false ∧
        bl_cost s' ≤ bl_cost s ∧ ∀ r, r ∉ sub → bn_reqs s' !! r = bn_reqs s !! r) never s.
Proof.
  induction fuel as [|fuel IH]; intros out sub s Hinv Hc; cbn [step_until_idle]; do 2 wp_step; destruct (bn_has_work s) eqn:Hw.
  2, 4: wp_step; split_and!; try done; exists []; by rw app_nil_r.
  - exfalso. pose proof (law_step _ _ _ Hinv Hw) as Hst. apply wp_never in Hst as (? & ? & _ & _ & ? & _). lia.
  - wp_step. eapply wp_mono; [by apply (law_step out sub)| |done]. intros l s1 (Hinv1 & Hc1 & Hef1).
    eapply wp_mono; [apply (IH _ sub s1 Hinv1); lia| |done]. intros res s2 (-> & (D & HD & Hdr) & Hw2 & Hc2 & Ho2). split_and!; try done; [|lia|].
    + eexists. rw -app_assoc in HD. split; [exact HD|]. intros Hd. rw Hd Hdr //.
    + intros r Hr. rw Ho2 //. by eapply effect_other.
Qed.

Lemma add_all_bench W : ∀ out sub s, bl_inv out sub s → NoDup (W ++ sub) → Forall (λ r, ∃ q, bn_reqs s !! r = Some q ∧ bl_ready q) W →
  wp (for_each W bn_add) (λ _ s', bl_inv out (rev W ++ sub) s' ∧ bl_cost s' = bl_cost s + length W * bl_unit ∧
    ∀ r, r ∉ W → r ∉ sub → bn_reqs s' !! r = bn_reqs s !! r) never s.
Proof.
  induction W as [|x W IH]; intros out sub s Hinv Hnd HW; [wp_step; split_and!; try done; cbn; lia|].
  apply Forall_cons in HW as [(q & Hq & Hrd) HW]. cbn in Hnd. apply NoDup_cons in Hnd as [Hx Hnd]. wp_step.
  eapply wp_mono; [eapply (law_add out sub s x q); try done; intros ?; apply Hx, elem_of_app; by right| |done].
  intros u s1 (Hinv1 & Hc1 & Hef1). clear u. eapply wp_mono; [apply (IH out (x :: sub) s1 Hinv1)| |done].
  - assert (W ++ x :: sub ≡ₚ x :: W ++ sub) as -> by solve_Permutation. by apply NoDup_cons.
  - rw Forall_forall in HW. apply Forall_forall. intros r Hr. rw (effect_other _ _ _ r Hef1); [by apply HW|].
    intros [->|Hin]%elem_of_cons; [apply Hx, elem_of_app; by left|]. apply NoDup_app in Hnd as (_ & Hd & _). by apply (Hd r).
  - intros u s2 (Hinv2 & Hc2 & Ho2). cbn [rev length]. rw -app_assoc. split_and!; try done; [lia|].
    intros r [Hne Hr]%not_elem_of_cons Hs. assert (r ∉ x :: sub) as Hxs by by apply not_elem_of_cons.
    rw Ho2 //. by apply (effect_other _ _ _ _ Hef1).
Qed.

Section whole.
Context {G : Type} `{HG : NumpyRng G} (cfg : RunnerConfig) (vocab_size : Z).

(** The generator after [k] warm-up prompts. *)
Fixpoint warm_gen (k : nat) : G :=
  match k with
  | O => default_rng 1234
  | Datatypes.S k => (rng_integers 1 (vocab_size - 1) (warmup_prompt_len cfg) (warm_gen k)).2
  end.

(** The engine can serve the prompts the warm-up draws. *)
Hypothesis warm_ready : ∀ k, k < warmup_requests cfg → ∃ ids,
  (rng_integers 1 (vocab_size - 1) (warmup_prompt_len cfg) (warm_gen k)).1 = Ok ids ∧
  ∀ id t, bl_ready (new_request ids (mkParams (warmup_output_len cfg) 0%Qc None None true) id t None).

(** The warm-up objects [W] are new, and nothing else has changed. *)
Definition allocated (s0 : S) (W : list nat) s : Prop :=
  bl_inv [] [] s ∧ bl_quiet s0 s ∧ NoDup W ∧ (∀ r, r ∈ W → bn_reqs s0 !! r = None ∧ ∃ q, bn_reqs s !! r = Some q) ∧
  (∀ r q, bn_reqs s0 !! r = Some q → bn_reqs s !! r = Some q).

Lemma quiet_trans s1 s2 s3 : bl_quiet s1 s2 → bl_quiet s2 s3 → bl_quiet s1 s3.
Proof. intros (? & ? & ?) (? & ? & ?). split_and!; congruence. Qed.

Lemma warmup_request_spec s0 W k (st : S * G * nat) : allocated s0 W st.1.1 → st.1.2 = warm_gen k → k < warmup_requests cfg →
  wp (warmup_request cfg vocab_size) (λ r st', allocated s0 (r :: W) st'.1.1 ∧ st'.1.2 = warm_gen (1 + k)) never st.
Proof.
  intros (Hinv & Hq & Hnd & HW & Hk) Hg Hlt. destruct (warm_ready k Hlt) as (ids & Hids & Hready).
  rw /warmup_request /on_rng /on_bench. do 2 wp_step. rw Hg {1}/wp. cbn [warm_gen Nat.add].
  destruct (rng_integers _ _ _ (warm_gen k)) as [[ids'|x] g1]; [|done]. cbn in Hids. injection Hids as ->. wp_step. rw {1}/wp /=. do 2 wp_step.
  rw {1}/wp /perf_counter /=. wp_step. destruct (law_tick _ _ _ Hinv) as (Hinv1 & Hr1 & _ & Hq1).
  set (s1 := bn_tick st.1.1) in *. rw /wp /new_object. set (r := base.fresh _). set (q := new_request _ _ _ _ _).
  assert (bn_reqs s1 !! r = None) as Hr by apply (not_elem_of_dom (D := gset nat)), is_fresh.
  destruct (law_store [] [] s1 (<[r := q]> (bn_reqs s1)) Hinv1) as (Hinv2 & Hr2 & _ & Hq2).
  { by intros ? ?%not_elem_of_nil. }
  { intros r' q' _ Hq'. apply lookup_insert_Some in Hq' as [[_ <-]|[_ Hq']]; [by apply Hready|].
    eapply law_stored; [exact Hinv1|apply not_elem_of_nil|done]. }
  cbn. rw Hr1 in Hr. split; [|done]. split_and!; try done; [..|].
  - eapply quiet_trans; [|exact Hq2]. by eapply quiet_trans.
  - apply NoDup_cons. split; [|done]. intros Hin. destruct (HW r Hin) as [_ [q' Hq']]. congruence.
  - rw Hr2. intros r' [->|Hin]%elem_of_cons.
    + split; [|exists q; by rw lookup_insert_eq]. destruct (bn_reqs s0 !! r) eqn:Hold; [|done]. apply Hk in Hold. congruence.
    + destruct (HW r' Hin) as [Hold [q' Hq']]. split; [done|]. exists q'. rw lookup_insert_ne ?Hr1 //. intros ->. congruence.
  - intros r' q' Hq'. rw Hr2 lookup_insert_ne ?Hr1; [by apply Hk|]. intros ->. apply Hk in Hq'. congruence.
Qed.

Lemma warmup_objects s0 n : ∀ a W (st : S * G * nat), allocated s0 W st.1.1 → st.1.2 = warm_gen a → a + n ≤ warmup_requests cfg →
  wp (for_list (seq a n) (λ _, warmup_request cfg vocab_size))
     (λ reqs st', length reqs = n ∧ allocated s0 (rev reqs ++ W) st'.1.1) never st.
Proof.
  induction n as [|n IH]; intros a W st HW Hg Hn; cbn [seq for_list]; [by wp_step|].
  wp_step. eapply wp_mono; [apply (warmup_request_spec s0 W a); [done|done|lia]| |done]. intros r st1 [HW1 Hg1]. wp_step.
  eapply wp_mono; [apply (IH (1 + a) (r :: W)); [done|done|lia]| |done]. intros reqs st2 [Hl HW2]. wp_step. cbn. rw -app_assoc. auto.
Qed.

Lemma warmup_spec fuel (st : S * nat) : bl_inv [] [] st.1 → bl_cost st.1 + warmup_requests cfg * bl_unit ≤ fuel →
  wp (warmup (G := G) fuel cfg vocab_size)
     (λ res st', ∃ W D sub, res = Some W ∧ length W = warmup_requests cfg ∧ sub ≡ₚ W ∧ NoDup W ∧
        (∀ r, r ∈ W → bn_reqs st.1 !! r = None) ∧ bl_inv D sub st'.1 ∧ (bn_drains = true → D = []) ∧
        bn_has_work st'.1 = false ∧ bl_cost st'.1 ≤ bl_cost st.1 + warmup_requests cfg * bl_unit ∧
        ∀ r q, bn_reqs st.1 !! r = Some q → bn_reqs st'.1 !! r = Some q) never st.
Proof.
  destruct st as [s ids]. cbn [fst]. intros Hinv Hfuel. rw /warmup {1}/wp.
  assert (wp (warmup_body fuel cfg vocab_size) (λ res st', ∃ W D sub, res = Some W ∧ length W = warmup_requests cfg ∧ sub ≡ₚ W ∧ NoDup W ∧
      (∀ r, r ∈ W → bn_reqs s !! r = None) ∧ bl_inv D sub st'.1.1 ∧ (bn_drains = true → D = []) ∧
      bn_has_work st'.1.1 = false ∧ bl_cost st'.1.1 ≤ bl_cost s + warmup_requests cfg * bl_unit ∧
      ∀ r q, bn_reqs s !! r = Some q → bn_reqs st'.1.1 !! r = Some q) never (s, default_rng 1234, ids)) as Hm; last first.
  { apply wp_never in Hm as (res & [[s' g'] ids'] & Heq & Hm). cbn [fst snd]. rw Heq. exact Hm. }
  rw /warmup_body.
  wp_step. eapply wp_mono; [apply (warmup_objects s (warmup_requests cfg) 0 [] (s, default_rng 1234, ids))| |done].
  { split_and!; try done; [constructor|by intros ? ?%not_elem_of_nil]. }
  { done. }
  { done. }
  intros W st1 [HlW (Hinv1 & (Hw1 & Hc1 & Hu1) & Hnd & HW & Hk)]. rw app_nil_r in Hnd HW.
  assert (NoDup W) as HndW by (by rw (Permutation_rev W)). rw /on_bench. do 2 wp_step.
  eapply wp_mono; [apply (add_all_bench W [] [] st1.1.1 Hinv1); [by rw app_nil_r|]| |done].
  { apply Forall_forall. intros r Hr. destruct (HW r) as [_ [q Hq]]; [by rw -(Permutation_rev W)|]. exists q. split; [done|].
    eapply law_stored; [exact Hinv1|apply not_elem_of_nil|done]. }
  intros u s2 (Hinv2 & Hc2 & Ho2). clear u. rw app_nil_r in Hinv2. do 2 wp_step. cbn.
  eapply wp_mono; [apply (step_until_idle_spec fuel [] (rev W) s2 Hinv2); lia| |done].
  intros res s3 (-> & (D & HD & Hdr) & Hw3 & Hc3 & Ho3). do 2 wp_step. cbn.
  eapply wp_mono; [by apply (law_clear_finished D (rev W))| |done]. intros u s4 (Hinv4 & Hr4 & _ & (Hw4 & Hc4 & _)). clear u. cbn.
  exists W, D, (rev W). split_and!; try done; [by rw -(Permutation_rev W)| |congruence|lia|].
  - intros r Hr. apply HW. by rw -(Permutation_rev W).
  - intros r q Hq. assert (r ∉ W) as HrW.
    { intros Hin. destruct (HW r) as [Hn _]; [by rw -(Permutation_rev W)|]. cbn in Hn. congruence. }
    rw Hr4 Ho3; [|by rw -(Permutation_rev W)]. rw Ho2 //; [by apply Hk|apply not_elem_of_nil].
Qed.

(** Time passes: later readings are not earlier, and [K] readings take [A] seconds. *)
Context (A : Qc) (K : nat).
Hypothesis clock_mono : ∀ a b, a ≤ b → (bn_clock a <= bn_clock b)%Qc.
Hypothesis pace : ∀ n, (bn_clock n + A <= bn_clock (n + K))%Qc.

(** What [run] returns for the objects [rs] of the store [m]. *)
Definition bench_result (m : gmap nat Request) (rs : list nat) (res : option RunResult) s : Prop :=
  ∃ result W D sub t0, res = Some result ∧ length W = warmup_requests cfg ∧ NoDup W ∧ (∀ r, r ∈ W → m !! r = None) ∧
    rr_requests result ≡ₚ rs ++ (if bn_drains then W else []) ∧ (0 <= rr_wall_seconds result)%Qc ∧ bn_has_work s = false ∧
    bl_inv (D ++ rr_requests result) sub s ∧ sub ≡ₚ rs ++ W ∧
    ∀ r q0, r ∈ rs → m !! r = Some q0 → ∃ q, bn_reqs s !! r = Some q ∧ same_ask (rebase_one t0 q0) q ∧
      ∀ t, t ∈ stamps q → (arrival_time q <= t)%Qc.

Lemma bench_run_spec fuel rs summary (st : S * nat) :
  bl_inv [] [] st.1 → NoDup rs → rs ≠ [] →
  (∀ r, r ∈ rs → ∃ q, bn_reqs st.1 !! r = Some q ∧ stamps q = [] ∧ (arrival_time q <= A)%Qc) →
  bl_cost st.1 + (warmup_requests cfg + length rs) * bl_unit + K ≤ fuel →
  wp (bench_run (G := G) fuel rs summary cfg vocab_size) (λ res st', bench_result (bn_reqs st.1) rs res st'.1)
     (λ e _, e = TimeoutError ∧ ∃ a b, (timeout_seconds cfg < bn_clock b - bn_clock a)%Qc) st.
Proof.
  intros Hinv Hnd Hne Hrs Hfuel. rw /bench_run. cbv zeta. wp_step.
  eapply wp_mono; [apply warmup_spec; [done|lia]| |done].
  intros res st1 (W & D & sub & -> & HlW & HsW & HndW & HW & Hinv1 & HD & Hw1 & Hc1 & Hk1). do 2 wp_step.
  rw {1}/wp /perf_counter. set (n0 := bn_ticks st1.1). set (t0 := bn_clock n0).
  destruct (law_tick _ _ _ Hinv1) as (Hinv2 & Hr2 & Ht2 & (Hw2 & Hc2 & Hu2)). set (s2 := bn_tick st1.1) in *.
  do 3 wp_step. cbn [fst snd]. set (m0 := rebase t0 rs (bn_reqs s2)).
  assert (∀ r, r ∈ rs → r ∉ W) as HrW.
  { intros r Hr Hin. destruct (Hrs r Hr) as (q & Hq & _). rw (HW r Hin) in Hq. done. }
  assert (∀ r, r ∈ sub → r ∈ W) as HsubW by (intros r; by rw HsW).
  destruct (law_store D sub s2 m0 Hinv2) as (Hinv3 & Hr3 & Ht3 & (Hw3 & Hc3 & Hu3)).
  { intros r Hr. rw /m0 rebase_lookup // decide_False //. intros Hin. by eapply HrW, HsubW. }
  { intros r q Hr. rw /m0 rebase_lookup //. destruct (decide (r ∈ rs)).
    - intros (q' & Hq' & ->)%fmap_Some. by eapply law_ready_rebase, law_stored.
    - intros Hq. by eapply law_stored. }
  set (s3 := bn_set_reqs m0 s2) in *. rw -/m0 -/s3.
  assert (∀ r q, r ∈ rs → m0 !! r = Some q → ∃ q0, bn_reqs st.1 !! r = Some q0 ∧ q = rebase_one t0 q0) as Hm0.
  { intros r q Hr Hq. destruct (Hrs r Hr) as (q0 & Hq0 & _). exists q0. split; [done|].
    rw /m0 rebase_lookup // decide_True // Hr2 (Hk1 r q0 Hq0) in Hq. by simplify_eq/=. }
  do 2 wp_step.
  eapply wp_mono; [apply (drive_spec m0 rs W D (timeout_seconds cfg) t0 n0 (n0 + K) clock_mono)| |].
  - intros n r q Hn Hr Hq. destruct (Hm0 r q Hr Hq) as (q0 & Hq0 & ->). destruct (Hrs r Hr) as (q1 & Hq1 & _ & Ha).
    simplify_eq. cbn. eapply Qcle_trans; [|by apply clock_mono]. eapply Qcle_trans; [|apply pace]. fold t0. qc_lra.
  - split.
    + exists [], sub. cbn. rw app_nil_r. split_and!; try done. apply NoDup_app. split_and!; [done| |by rw HsW].
      intros r Hr Hin. by eapply HrW, HsubW.
    + apply Forall_forall. intros r Hr. destruct (Hrs r Hr) as (q0 & Hq0 & Hst & _). exists (rebase_one t0 q0).
      assert (m0 !! r = Some (rebase_one t0 q0)) as Hm by by rw /m0 rebase_lookup // decide_True // Hr2 (Hk1 r q0 Hq0).
      cbn [fst]. rw Hr3. by split_and!.
    + cbn [fst]. rw Ht3 Ht2. lia.
  - by left.
  - cbn [fst]. rw Hc3 Hc2 Ht3 Ht2. lia.
  - intros res s4 (out & -> & Hdr & Hw4 & Hu4). do 2 wp_step. rw {1}/wp /perf_counter. wp_step.
    destruct Hdr as [(gone & sub' & Hg & Hsub' & Hinv4 & _ & Htm) _ Hn4]. rw app_nil_r in Hg. subst gone.
    destruct (law_tick _ _ _ Hinv4) as (Hinv5 & Hr5 & Ht5 & (Hw5 & Hc5 & Hu5)).
    pose proof (law_idle _ _ _ Hinv4 Hw4) as Hall. rw Hu4 app_nil_r Hsub' in Hall.
    eexists _, W, D, sub', t0. split; [done|]. cbn [rr_requests rr_wall_seconds fst]. split_and!; try done.
    + destruct bn_drains eqn:Hd; [by rw HD in Hall|]. rw app_nil_r.
      pose proof (law_idle _ _ _ Hinv1 Hw1) as HallD. rw (law_direct _ _ _ Hinv1 Hd) app_nil_r HsW in HallD.
      rw HallD in Hall. apply (Permutation_app_inv_l W). rw Hall. solve_Permutation.
    + pose proof (clock_mono n0 (bn_ticks s4) Hn4) as Hle. fold t0 in Hle. clearbody t0. qc_lra.
    + congruence.
    + intros r q0 Hr Hq0. rw Forall_forall in Htm. destruct (Htm r Hr) as (q1 & q & Hq1 & Hq & Hsa & Hst & _).
      destruct (Hm0 r q1 Hr Hq1) as (q0' & Hq0' & ->). simplify_eq. exists q. by rw Hr5.
  - intros e s4 (-> & n & Hn). split; [done|]. by exists n0, n.
Qed.
End whole.
End bench.

(** * The continuous-batching engine under the runner *)

Section scheduler.
Context {R : Type} `{HT : Torch R} `{HS : TorchSampling R} `{HSL : !SamplerLaws R}.
#[local] Notation "'KV'" := (list (list R)).
Context (sdpa : list KV → list KV → list KV → option (list (list bool)) → bool → list KV).
Context (w : NanoForCausalLM (R := R)) (hash : Z → list Z → Z) (clock : nat → Qc) (cfg : EngineCfg).

Definition scheduler_bench : BenchEngine (Engine (R := R)) := {|
  bn_reqs := e_reqs;
  bn_set_reqs := set_reqs;
  bn_ticks := e_ticks;
  bn_clock := clock;
  bn_tick e := set_counters (S (e_ticks e)) (e_seed e) (e_uid e) e;
  bn_add := add_request clock cfg;
  bn_has_work := has_work;
  bn_step := step sdpa w hash clock cfg;
  bn_clear_finished := modify (λ e, set_outcomes [] (e_num_finished e) (e_newly e) e);
  bn_drains := true;
  bn_drain := drain_finished;
  bn_clear_emitted := modify (set_emitted []);
|}.
#[local] Existing Instance scheduler_bench.

Context (attend : list (list R) → list KV → list KV → list (list R)) (inv : list R) (seen : list Z → Prop).
Context (prompts : list (list Z)) (B bs limit : nat).
Context (HM : model_ok sdpa attend w) (Hseen : ∀ ids, seen ids → ids ∈ prompts) (Hbatch : 0 < max_batch_size cfg).

(** A request the engine can take. *)
Record sched_ready (q : Request) : Prop := {
  sd_good : good w seen q;
  sd_fresh : Engine.fresh q;
  sd_fits : fits cfg prompts B bs limit q;
}.

Definition sched_asked (r : nat) (prompt : list Z) (p : SamplingParams) : Prop :=
  ∃ q, prompt_token_ids q = prompt ∧ params q = p ∧ fits cfg prompts B bs limit q.

#[local] Abbreviation EI := (Engine.EI sdpa attend inv w hash seen cfg sched_asked (λ _, False)).

Record sched_inv (out sub : list nat) (e : Engine (R := R)) : Prop := {
  si_ei : EI out e (e_running e) [] [] sub;
  si_batch : length (e_running e) ≤ max_batch_size cfg;
  si_shape : shaped B bs e;
  si_plain : e_admission e = None;
  si_rest r q : r ∉ sub → e_reqs e !! r = Some q → sched_ready q;
}.

Lemma fits_asked r q : sched_asked r (prompt_token_ids q) (params q) → fits cfg prompts B bs limit q.
Proof.
  intros (q' & Hp & Hpa & [Hs Hg Hl]). split; rw /budget /prompt_len -?Hp -?Hpa; done.
Qed.

Lemma sched_asked_ready r q : sched_ready q → sched_asked r (prompt_token_ids q) (params q).
Proof. intros [_ _ Hf]. by exists q. Qed.

Lemma sched_inside out sub e : sched_inv out sub e → inside (list_to_set sub) true e.
Proof.
  intros [HI _ _ Hp _]. split; [|done]. pose proof HI as [_ _ _ _ _ _ _ _ _ _ _ Ha _]. intros r. rw /owned !elem_of_list_to_set -Ha.
  rw !elem_of_app. naive_solver.
Qed.

(** A step of the engine leaves what has not been submitted alone. *)
Lemma sched_rest sub (e e' : Engine (R := R)) : evolves clock (list_to_set sub) true e e' →
  (∀ r q, r ∉ sub → e_reqs e !! r = Some q → sched_ready q) → ∀ r q, r ∉ sub → e_reqs e' !! r = Some q → sched_ready q.
Proof.
  intros [_ _ Hst] Hr r q Hsub Hq. specialize (Hst r). rw Hq in Hst. destruct (e_reqs e !! r) as [q0|] eqn:Hq0; [|done].
  destruct Hst as [_ Hx]. rw Hx; [by apply (Hr r)|]. by rw elem_of_list_to_set.
Qed.

Lemma sched_step out sub e : sched_inv out sub e → has_work e = true →
  wp (step sdpa w hash clock cfg)
     (λ _ e', sched_inv out sub e' ∧ measure cfg limit e' < measure cfg limit e ∧ evolves clock (list_to_set sub) true e e') never e.
Proof.
  intros Hi Hw. pose proof Hi as [HI Hmax Hsh Hp Hr]. pose proof HM as [????].
  pose proof (step_keeps sdpa w hash clock cfg (list_to_set sub) true e (sched_inside _ _ _ Hi)) as Hk.
  eapply wp_mono; [eapply wp_conj; [by eapply step_spec|exact Hk]| |by intros ?? [? _]].
  intros l e' [(HI' & Hmax' & Hsh' & Hst) [_ Hev]]. split_and!; [|..|done].
  - split; try done; [by eapply shaped_same|by apply (ev_owned _ _ _ _ _ Hev)|by eapply sched_rest].
  - eapply (stepped_decreases sdpa attend inv w hash seen cfg sched_asked (λ _, False) HM prompts Hseen B bs limit Hbatch fits_asked); try done.
    apply Hst. by destruct (ei_cancel _ _ _ _ _ _ _ _ _ _ _ _ _ _ _ _ _ _ _ _ _ HI).
Qed.

(** Replacing the objects of requests that have not been submitted. *)
Lemma EI_store out e m sub : EI out e (e_running e) [] [] sub →
  (∀ r, r ∈ sub → m !! r = e_reqs e !! r) → (∀ r q, r ∉ sub → m !! r = Some q → sched_ready q) →
  EI out (set_reqs m e) (e_running e) [] [] sub.
Proof.
  intros HI Hin Hout. pose proof HI as [? ? ? ? ? Hgd Hnd Hwt Hli Hnw ? Ha ?].
  assert (∀ r, r ∈ e_waiting e ++ (s_req <$> e_running e) ++ out ++ e_newly e → m !! r = e_reqs e !! r) as Hm.
  { intros r Hr. apply Hin. rw -Ha. done. }
  rw /Engine.EI. cbn. split; try done; cbn.
  - intros r q Hq. destruct (decide (r ∈ sub)) as [Hs|Hs]; [rw Hin // in Hq; by apply Hgd|].
    destruct (Hout r q Hs Hq) as [Hg [_ Hf] Hfi]. split_and!; [done|by rw /outcome_ok Hf|by exists q].
  - intros r Hr. rw Hm; [by apply Hwt|]. rw !elem_of_app. auto.
  - intros s Hs. rw Hm; [by apply Hli|]. rw !elem_of_app. right. left. by apply list_elem_of_fmap_2.
  - intros r Hr. rw Hm; [by apply Hnw|]. rw !elem_of_app. rw elem_of_app in Hr. tauto.
Qed.

Lemma measure_store (e : Engine (R := R)) m : (∀ s, s ∈ e_running e → m !! s_req s = e_reqs e !! s_req s) →
  measure cfg limit (set_reqs m e) = measure cfg limit e.
Proof.
  intros Hm. rw /measure /work /rank /outlen /=. destruct (e_running e) as [|s L]; [done|]. cbn. rw Hm //. by left.
Qed.

Lemma evolves_effect sub (e e' : Engine (R := R)) : evolves clock (list_to_set sub) true e e' → effect sub e e'.
Proof. intros [_ Ht Hs]. by split. Qed.

Definition scheduler_laws : BenchLaws (Engine (R := R)).
Proof.
  refine {| bl_inv := sched_inv; bl_ready := sched_ready; bl_cost := measure cfg limit;
            bl_unit := (limit + 2) * (max_batch_size cfg + 1); bl_undrained := e_newly |}; cbn.
  - lia.
  - intros t q [[????] Hf [???]]. by split; [split|..|split].
  - intros out sub e [HI ????]. split_and!; try done; by split.
  - intros out sub e m [HI Hmax Hsh Hp Hr] Hin Hout. split_and!; try done.
    + split; try done. by apply (EI_store out e m sub).
    + apply measure_store. intros s Hs. apply Hin. pose proof HI as [_ _ _ _ _ _ _ _ _ _ _ Ha _]. rw -Ha !elem_of_app. right. left.
      by apply list_elem_of_fmap_2.
  - intros out sub e r q Hi Hr Hq Hrd. pose proof Hi as [HI Hmax Hsh Hp Hrs].
    assert (inside (list_to_set (r :: sub)) true e) as Hins.
    { destruct (sched_inside _ _ _ Hi) as [Ho ?]. split; [|done]. set_solver. }
    pose proof (add_request_keeps clock cfg (list_to_set (r :: sub)) true r ltac:(set_solver) e Hins) as Hk.
    eapply wp_mono; [eapply wp_conj; [eapply (add_request_spec sdpa attend inv w hash clock seen cfg sched_asked (λ _, False) out e sub r q); try done; apply Hrd|exact Hk]| |by intros ?? [? _]].
    intros u e' [[HI' He'] [_ Hev]]. clear u. split_and!; [|subst e'|by apply evolves_effect].
    + subst e'. split; try done. intros r' q' Hr' Hq'. apply (Hrs r'); [|done]. intros ?. apply Hr'. by right.
    + rw /measure /work /rank /= length_app /=. set (K := (limit + 2) * (max_batch_size cfg + 1)).
      set (T := _ * (max_batch_size cfg + 1)). clearbody K T. nia.
  - intros out sub e Hi Hw. rw app_nil_r. eapply wp_mono; [by apply sched_step| |done]. intros _ e' (? & ? & ?).
    split_and!; try done. by apply evolves_effect.
  - intros out sub e [HI Hmax Hsh Hp Hr] _. pose proof (drain_spec sdpa attend inv w hash seen cfg sched_asked (λ _, False) out e sub HI) as (_ & HI' & _).
    by split_and!.
  - intros out sub e [HI ????] _. by split_and!.
  - intros out sub e [HI ????]. by split_and!.
  - intros out sub e [HI ????] Hw. pose proof HI as [_ _ _ _ _ _ _ _ _ _ _ Ha _]. rw /has_work in Hw.
    by destruct (e_waiting e), (e_running e).
  - done.
  - intros out sub e r q [????? ] Hs Hq. eauto.
Defined.
End scheduler.

Lemma latencies_nonneg q : (∀ t, t ∈ stamps q → (arrival_time q <= t)%Qc) →
  ∀ x, Some x ∈ [queue_time q; ttft q; e2e_latency q] → (0 <= x)%Qc.
Proof.
  intros Hs x Hx. rw /stamps in Hs.
  assert (∀ o : option Qc, (∀ t, o = Some t → (arrival_time q <= t)%Qc) →
    Some x = ((λ t, (t - arrival_time q)%Qc) <$> o) → (0 <= x)%Qc) as Hsub.
  { intros [t|] Ht; [|done]. cbn. intros [= ->]. specialize (Ht t eq_refl). qc_lra. }
  rw !elem_of_cons in Hx. destruct Hx as [Hx|[Hx|[Hx|Hx%not_elem_of_nil]]]; [..|done]; (eapply Hsub; [|exact Hx]);
    intros t Ht; apply Hs; rw Ht; set_solver.
Qed.

(** The summary of requests that were all served. *)
Lemma summary_of_outcomes `{NumpyStats} (P : Request → Prop) (m : gmap nat Request) rs wall :
  (∀ q, P q → finished_ok q) → (∀ r, r ∈ rs → ∃ q, m !! r = Some q ∧ P q) →
  ∃ qs, mapM (λ r, m !! r) rs = Some qs ∧
    let s := summary qs wall in sm_submitted s = length rs ∧ sm_completed s = sm_submitted s ∧ sm_rejected s = 0.
Proof.
  intros HP Hrs. assert (is_Some (mapM (λ r, m !! r) rs)) as [qs Hqs].
  { apply mapM_is_Some, Forall_forall. intros r Hr. destruct (Hrs r Hr) as (q & Hq & _). cbn. rw Hq. by eexists. }
  exists qs. split; [done|]. apply mapM_Some in Hqs. pose proof (Forall2_length _ _ _ Hqs) as Hlen.
  assert (Forall finished_ok qs) as Hfin.
  { eapply Forall2_Forall_r; [exact Hqs|]. apply Forall_forall. intros r Hr q Hq. destruct (Hrs r Hr) as (q' & Hq' & Hp).
    apply HP. by simplify_eq. }
  rw Forall_forall in Hfin. cbn. split_and!; [done|by rw list_filter_id|].
  destruct (filter was_rejected qs) as [|q l] eqn:Hf; [done|]. assert (q ∈ filter was_rejected qs) as Hin by (rw Hf; by left).
  apply list_elem_of_filter in Hin as [Hw Hin]. rw /was_rejected in Hw. destruct (Hfin q Hin); congruence.
Qed.

(** C36: a benchmark run measures the engine.  Over a fresh continuous-batching engine
    that can serve the warm-up and the workload, with a clock that moves ([K] readings
    take [A] seconds, the span of the arrivals), [run] ends - or raises [TimeoutError],
    if the clock passed the limit.  When it ends, every request of the workload has been
    submitted and its outcome collected exactly once: finished by end-of-sequence or
    budget, with, if greedy, exactly the reference tokens; it still asks what it asked,
    arrival and deadline shifted by the same instant, and was never submitted before its
    arrival, so queueing time, time to first token and latency are not negative.  The
    result also contains all the warm-up requests, which [warmup] leaves in the engine's
    list of outcomes: the summary counts them as submitted and completed. *)
Theorem bench_run_exact {R} `{Torch R, TorchSampling R, !SamplerLaws R} {G} `{NumpyRng G, NumpyStats} sdpa attend w inv hash clock seen cfg
    zero blocks bs rotary enable reqs rs prompts limit fuel (rcfg : RunnerConfig) vocab_size wsum A K ids :
  let B := scheduler_bench sdpa w hash clock cfg in
  let e := engine_init (PagedCachePool.init zero (length (layers w)) blocks bs) rotary enable None reqs in
  let servable q := good w seen q ∧ Engine.fresh q ∧ fits cfg prompts blocks bs limit q in
  model_ok sdpa attend w → 0 < bs → rot_ok inv rotary → collision_free hash seen bs →
  0 < max_batch_size cfg → (∀ p, seen p → p ∈ prompts) → NoDup rs → rs ≠ [] →
  (∀ r q, reqs !! r = Some q → servable q) →
  (∀ r, r ∈ rs → ∃ q, reqs !! r = Some q ∧ stamps q = [] ∧ (arrival_time q <= A)%Qc) →
  (∀ k, k < warmup_requests rcfg → ∃ p,
     (rng_integers 1 (vocab_size - 1) (warmup_prompt_len rcfg) (warm_gen (G := G) rcfg vocab_size k)).1 = Ok p ∧
     ∀ id t, servable (new_request p (mkParams (warmup_output_len rcfg) 0%Qc None None true) id t None)) →
  (∀ a b, a ≤ b → (clock a <= clock b)%Qc) → (∀ n, (clock n + A <= clock (n + K)%nat)%Qc) →
  S (warmup_requests rcfg + length rs) * ((limit + 2) * (max_batch_size cfg + 1)) + K ≤ fuel →
  wp (bench_run (S := Engine (R := R)) (G := G) fuel rs wsum rcfg vocab_size)
     (λ res st, ∃ result W t0, res = Some result ∧ length W = warmup_requests rcfg ∧ (∀ r, r ∈ W → reqs !! r = None) ∧
        rr_requests result ≡ₚ rs ++ W ∧ NoDup (rr_requests result) ∧ (0 <= rr_wall_seconds result)%Qc ∧ has_work st.1 = false ∧
        BlockAllocator.num_free (allocator (e_pool st.1)) + length (_entries (e_prefix st.1))
          = BlockAllocator.num_blocks (allocator (e_pool st.1)) ∧
        (∃ qs, mapM (λ r, e_reqs st.1 !! r) (rr_requests result) = Some qs ∧
           let s := summary qs (rr_wall_seconds result) in
           sm_submitted s = warmup_requests rcfg + length rs ∧ sm_completed s = sm_submitted s ∧ sm_rejected s = 0) ∧
        ∀ r q0, r ∈ rs → reqs !! r = Some q0 → ∃ q fr,
          e_reqs st.1 !! r = Some q ∧ same_ask (rebase_one t0 q0) q ∧
          (∀ x, Some x ∈ [queue_time q; ttft q; e2e_latency q] → (0 <= x)%Qc) ∧
          finish_reason q = Some fr ∧ (fr = EOS ∨ fr = LENGTH) ∧
          (greedy (params q0) = true →
           greedy_gen sdpa inv w (eos_token_id cfg) (ignore_eos (params q0)) (budget q0) (prompt_token_ids q0)
           = (output_token_ids q, fr)))
     (λ x _, x = TimeoutError ∧ ∃ a b, (timeout_seconds rcfg < clock b - clock a)%Qc) (e, ids).
Proof.
  intros B e servable HM Hbs Hrot Hcf Hmb Hseen Hnd Hne Hq Hrs Hwarm Hmono Hpace Hfuel.
  pose (L := scheduler_laws sdpa w hash clock cfg attend inv seen prompts blocks bs limit HM Hseen Hmb).
  assert (bl_inv (BenchLaws := L) [] [] e) as HI0.
  { split; try done; [|cbn; lia|].
    - apply engine_init_ok; try done. intros r q Hr. destruct (Hq r q Hr) as (? & [? ?] & ?). split_and!; try done. by exists q.
    - intros r q _ Hr. by destruct (Hq r q Hr) as (? & ? & ?). }
  eapply wp_mono; [apply (bench_run_spec (HL := L) rcfg vocab_size) with (A := A) (K := K); try done| |done].
  - intros k Hk. destruct (Hwarm k Hk) as (p & Hp & Hs). exists p. split; [done|]. intros id t.
    by destruct (Hs id t) as (? & ? & ?).
  - cbn [bl_cost L scheduler_laws fst bl_unit]. rw /measure /work /rank /=. nia.
  - intros res [e' ids'] (result & W & D & sub & t0 & -> & HlW & HndW & HW & Hperm & Hwall & Hw & Hinv & Hsub & Hall). cbn [fst] in *.
    exists result, W, t0. cbn in Hperm. change (has_work e' = false) in Hw. split_and!; try done.
    + rw Hperm. apply NoDup_app. split_and!; try done. intros r Hr Hin. destruct (Hrs r Hr) as (q & Hr' & _). by rw (HW r Hin) in Hr'.
    + destruct Hinv as [HI _ _ _ _]. apply idle_pool. pose proof HI as [Hh _ _ _ _ _ _ _ _ _ _ _ _]. rw /has_work in Hw.
      destruct (e_waiting e'), (e_running e'); done.
    + assert (warmup_requests rcfg + length rs = length (rr_requests result)) as -> by (rw Hperm length_app; lia).
      apply (summary_of_outcomes (λ q, outcome_ok sdpa inv w cfg (λ _, False) q ∧ finish_reason q ≠ None)).
      * intros q [Hok Hf]. rw /outcome_ok in Hok. rw /finished_ok. destruct (finish_reason q) as [[]|]; naive_solver.
      * intros r Hr. destruct Hinv as [HI _ _ _ _]. pose proof HI as [_ _ _ _ _ Hgd _ _ _ Hnw _ _ _].
        destruct (Hnw r) as (q & Hrq & Hf); [rw !elem_of_app; auto|]. exists q. split_and!; try done. by apply (Hgd r q).
    + intros r q0 Hr Hq0. destruct (Hall r q0 Hr Hq0) as (q & Hrq & Hsa & Hst). exists q.
      destruct Hinv as [HI _ _ _ _]. pose proof HI as [_ _ _ _ _ Hgd _ _ _ Hnw _ _ _].
      destruct (Hnw r) as (q' & Hq' & Hf). { rw !elem_of_app. left. right. rw Hperm. apply elem_of_app. by left. }
      change (e_reqs e' !! r = Some q) in Hrq. assert (q' = q) as -> by congruence. destruct (Hgd r q Hrq) as (_ & Hok & _).
      rw /outcome_ok in Hok. destruct (finish_reason q) as [fr|]; [|done]. exists fr.
      assert ((fr = EOS ∨ fr = LENGTH) ∧ settled sdpa inv w cfg q fr) as [Hcase (Hle & _ & Hgr)] by (destruct fr; naive_solver).
      split_and!; try done; [by apply latencies_nonneg|]. destruct Hsa as [Hp Hpa _ _ _]. cbn in Hp, Hpa.
      rw -Hpa. intros Hg. specialize (Hgr Hg). rw /budget -Hpa -Hp in Hgr |- *. done.
Qed.

(** ** A run: one warm-up request, then two requests, the second arriving later *)
Module ToyBench.
Definition rcfg : RunnerConfig := mkRunnerConfig 1 1 2 (Q2Qc (1 # 2000)) (qc_of_Z 900).
Definition request (n : Z) (arrival : Qc) : Request :=
  new_request toy_prompt (mkParams n 0%Qc None None true) "r" arrival (Some (arrival + qc_of_Z 100)%Qc).
Definition reqs : gmap nat Request := {[0 := request 4 0%Qc; 1 := request 6 (qc_of_Z 5)]}.
Definition seen (ids : list Z) : Prop := ids = toy_prompt ∨ ids = [1%Z].
Definition summary : WorkloadSummary :=
  mkWorkloadSummary 2 10 10 (mkLenStats 0 0 0 0) (mkLenStats 0 0 0 0) (qc_of_Z 5) None.
Definition run : result (option RunResult) * (Engine (R := Z) * nat) :=
  bench_run (S := Engine (R := Z)) (G := nat) (H := scheduler_bench Toy.sdpa ToyEngine.weights poly_hash ToyEngine.clock ToyEngine.cfg)
    165 [0; 1] summary rcfg 3 (ToyEngine.engine 12 reqs, 0).

Lemma free_of_collisions : collision_free poly_hash seen 2.
Proof.
  assert (PrefixCache.hash_chain poly_hash 2 [1%Z] = []) as Hone by (vm_compute; reflexivity).
  intros ids ids' i i' h [->| ->] [->| ->] Hi Hi'; rw ?Hone in Hi, Hi'; try done.
  by apply (toy_collision_free _ _ i i' h).
Qed.

Lemma clock_le a b : a ≤ b → (ToyEngine.clock a <= ToyEngine.clock b)%Qc.
Proof. intros Hab. apply (qc_of_nat_le a b). done. Qed.

Lemma servable p n id t dl : seen p → (n = 2 ∨ n = 4 ∨ n = 6)%Z →
  let q := new_request p (mkParams n 0%Qc None None true) id t dl in
  good ToyEngine.weights seen q ∧ Engine.fresh q ∧ fits ToyEngine.cfg [toy_prompt; [1%Z]] 12 2 6 q.
Proof.
  intros Hs Hn q. split_and!; [|done|].
  - destruct Hs as [->| ->]; split; try done; try (by left); try (by right); repeat constructor; cbn; lia.
  - destruct Hs as [->| ->], Hn as [->|[->| ->]]; split; vm_compute; lia.
Qed.

Lemma reqs_inv r q : reqs !! r = Some q → ∃ n t, q = request n t ∧ (n = 4 ∨ n = 6)%Z ∧ (t <= qc_of_Z 5)%Qc.
Proof.
  rw /reqs. intros [[_ <-]|[_ Hq]]%lookup_insert_Some; [by exists 4%Z, 0%Qc; auto|].
  apply lookup_singleton_Some in Hq as [_ <-]. exists 6%Z, (qc_of_Z 5). auto.
Qed.

Lemma reqs_servable r q : reqs !! r = Some q →
  good ToyEngine.weights seen q ∧ Engine.fresh q ∧ fits ToyEngine.cfg [toy_prompt; [1%Z]] 12 2 6 q.
Proof. intros (n & t & -> & Hn & _)%reqs_inv. apply servable; [by left|lia]. Qed.

Lemma reqs_timed r : r ∈ [0; 1] → ∃ q, reqs !! r = Some q ∧ stamps q = [] ∧ (arrival_time q <= qc_of_Z 5)%Qc.
Proof.
  intros Hr. assert (is_Some (reqs !! r)) as [q Hq].
  { rw !elem_of_cons in Hr. destruct Hr as [->|[->|Hr%not_elem_of_nil]]; [by eexists..|done]. }
  exists q. destruct (reqs_inv r q Hq) as (n & t & -> & _ & Ht). auto.
Qed.

Lemma warm_servable k : k < warmup_requests rcfg → ∃ p,
  (rng_integers 1 (3 - 1) (warmup_prompt_len rcfg) (warm_gen (G := nat) rcfg 3 k)).1 = Ok p ∧
  ∀ id t, let q := new_request p (mkParams (warmup_output_len rcfg) 0%Qc None None true) id t None in
    good ToyEngine.weights seen q ∧ Engine.fresh q ∧ fits ToyEngine.cfg [toy_prompt; [1%Z]] 12 2 6 q.
Proof.
  intros Hk. exists [1%Z]. assert (k = 0) as -> by (cbn in Hk; lia). split; [done|]. intros id t.
  apply servable; [by right|by left].
Qed.

Lemma clock_pace n : (ToyEngine.clock n + qc_of_Z 5 <= ToyEngine.clock (n + 5)%nat)%Qc.
Proof. change (qc_of_Z (Z.of_nat n) + qc_of_Z 5 <= qc_of_Z (Z.of_nat (n + 5)))%Qc. rw -qc_of_Z_add. apply qc_of_Z_le. lia. Qed.
End ToyBench.

(** The second request waits for its arrival; the warm-up request (object 2) is in the result. *)
Lemma bench_run_exact_witness :
  (rr_requests <$> match ToyBench.run.1 with Ok r => r | Raise _ => None end) = Some [2; 0; 1] ∧
  ∃ result W, ToyBench.run.1 = Ok (Some result) ∧ length W = 1 ∧ rr_requests result ≡ₚ [0; 1] ++ W.
Proof.
  assert (ToyBench.run.1 = Ok (Some (mkRunResult (qc_of_Z 27) [2; 0; 1] ToyBench.summary))) as Hout by (vm_compute; reflexivity).
  split; [rw Hout; reflexivity|].
  pose proof (bench_run_exact (G := nat) Toy.sdpa Toy.attend ToyEngine.weights [1%Z] poly_hash ToyEngine.clock ToyBench.seen
    ToyEngine.cfg [] 12 2 (rotary_init [1%Z] 4) true ToyBench.reqs [0; 1] [toy_prompt; [1%Z]] 6 165 ToyBench.rcfg 3 ToyBench.summary
    (qc_of_Z 5) 5 0) as Hrun. cbv zeta in Hrun.
  specialize (Hrun toy_model_ok ltac:(lia) ltac:(split; reflexivity) ToyBench.free_of_collisions ltac:(cbn; lia)).
  specialize (Hrun ltac:(intros p [->| ->]; [left|right; left]) ltac:(apply (bool_decide_unpack _); vm_compute; exact I) ltac:(discriminate)).
  specialize (Hrun ToyBench.reqs_servable ToyBench.reqs_timed ToyBench.warm_servable ToyBench.clock_le ToyBench.clock_pace ltac:(cbn; lia)).
  unfold wp in Hrun. match type of Hrun with (let (_, _) := ?b in _) => change b with ToyBench.run in Hrun end.
  destruct ToyBench.run as [[[result|]|x] st]; cbn [fst] in Hout; [|discriminate|discriminate].
  destruct Hrun as (res & W & t0 & Hres & HW & _ & Hp & _). injection Hres as <-. exists result, W.
  split; [reflexivity|]. split; [exact HW|exact Hp].
Defined.
