(* ===== verification/Quant.v ===== *)
(** * Weight quantization (engine/quant.py)

    Symmetric 8-bit round-to-nearest with one scale per group of input channels, the
    layer that dequantizes in its forward pass, and the pass over a model that replaces
    its linear layers.  Weights are rationals: what is shown is the error of the method,
    not of 32-bit floats.  The properties: no weight moves by more than half a step of
    its own group, the largest of a group and zeros not at all, and the clamp never
    bites; a model is quantized once, and its byte counts add up. *)

From Stdlib Require Import ssreflect QArith Qround Lqa.
From stdpp Require Import prelude list strings.
From S2P Require Import Prelude.
#[local] Open Scope nat_scope.
#[local] Open Scope Q_scope.

Definition DEFAULT_GROUP_SIZE : nat := 128.
Definition QMAX : Z := 127.

(** ** Rationals *)

Definition qlt (x y : Q) : bool := negb (Qle_bool y x).
Definition qabs (x : Q) : Q := if qlt x 0 then - x else x.
Definition qmax (x y : Q) : Q := if qlt x y then y else x.

(** [torch.round]: to the nearest integer, halves to the even one. *)
Definition round (x : Q) : Z :=
  let f := Qfloor x in
  let d := x - inject_Z f in
  if qlt d (1 # 2) then f
  else if qlt (1 # 2) d then (f + 1)%Z
  else if Z.even f then f else (f + 1)%Z.

(** [clamp(-QMAX, QMAX)]. *)
Definition clamp (v : Z) : Z := Z.max (- QMAX) (Z.min QMAX v).

(** ** Tensors *)

Section quant.
Context (group_size : nat).

(** [reshape(in_features // group_size, group_size)] of a row. *)
Definition grouped {A} (row : list A) : list (list A) := reshape (replicate (length row / group_size) group_size) row.

Definition absmax (group : list Q) : Q := foldr (λ x m, qmax (qabs x) m) 0%Q group.
Definition scale_of (group : list Q) : Q := if qlt 0 (absmax group) then (absmax group / inject_Z QMAX)%Q else 1%Q.
Definition quantize_group (group : list Q) : list Z := (λ x, clamp (round (x / scale_of group)%Q)) <$> group.

Definition quantize_row (row : list Q) : list Z * list Q :=
  (concat (quantize_group <$> grouped row), scale_of <$> grouped row).

Definition quantize_tensor (in_features : nat) (weight : list (list Q)) : result (list (list Z) * list (list Q)) :=
  if group_size =? 0 then Raise ZeroDivisionError
  else if negb (in_features mod group_size =? 0) then Raise ValueError
  else Ok (fst ∘ quantize_row <$> weight, snd ∘ quantize_row <$> weight).

Definition dequantize_row (q : list Z) (scales : list Q) : list Q :=
  concat (zip_with (λ g s, (λ v, (inject_Z v * s)%Q) <$> g) (grouped q) scales).
Definition dequantize_tensor (q : list (list Z)) (scales : list (list Q)) : list (list Q) :=
  zip_with dequantize_row q scales.
End quant.

(** ** Layers and models *)

Record LinearLayer := mkLinear {
  in_features : nat;
  out_features : nat;
  element_size : nat;
  l_weight : list (list Q);
  l_bias : option (list Q);
}.

Record QuantizedLinear := mkQLinear {
  ql_in : nat;
  ql_out : nat;
  ql_group : nat;
  qweight : list (list Z);
  scales : list (list Q);
  ql_bias : option (list Q);
}.

Definition from_linear (group_size : nat) (l : LinearLayer) : result QuantizedLinear :=
  match quantize_tensor group_size (in_features l) (l_weight l) with
  | Ok (q, s) => Ok (mkQLinear (in_features l) (out_features l) group_size q s (l_bias l))
  | Raise e => Raise e
  end.

(** [F.linear(x, W, b)] on one vector; [cast] is the conversion to the compute type. *)
Definition dot (x y : list Q) : Q := foldr Qplus 0%Q (zip_with Qmult x y).
Definition linear (x : list Q) (weight : list (list Q)) (bias : option (list Q)) : list Q :=
  let y := dot x <$> weight in match bias with Some b => zip_with Qplus y b | None => y end.
Definition dequantized_weight (cast : Q → Q) (l : QuantizedLinear) : list (list Q) :=
  (λ row : list Q, cast <$> row) <$> dequantize_tensor (ql_group l) (qweight l) (scales l).
Definition ql_forward (cast : Q → Q) (l : QuantizedLinear) (x : list Q) : list Q :=
  linear x (dequantized_weight cast l) (ql_bias l).

#[local] Set Warnings "-register-all".

(** A model as its tree of named children. *)
Inductive module :=
  | Linear (l : LinearLayer)
  | Quantized (l : QuantizedLinear)
  | Other (children : list (string * module)).

Record QuantStats := mkStats {
  layers_quantized : nat;
  layers_skipped : nat;
  original_bytes : nat;
  quantized_bytes : nat;
}.
Definition no_stats : QuantStats := mkStats 0 0 0 0.
Definition add_stats (a b : QuantStats) : QuantStats :=
  mkStats (layers_quantized a + layers_quantized b) (layers_skipped a + layers_skipped b)
    (original_bytes a + original_bytes b) (quantized_bytes a + quantized_bytes b).
Definition compression (s : QuantStats) : Q :=
  if (quantized_bytes s =? 0)%nat then 1%Q
  else (inject_Z (Z.of_nat (original_bytes s)) / inject_Z (Z.of_nat (quantized_bytes s)))%Q.
Definition saved_bytes (s : QuantStats) : Z := Z.of_nat (original_bytes s) - Z.of_nat (quantized_bytes s).

Definition weight_bytes (l : LinearLayer) : nat := out_features l * in_features l * element_size l.
Definition quantized_size (q : QuantizedLinear) : nat := ql_out q * ql_in q + ql_out q * (ql_in q / ql_group q) * 4.

Section model.
Context (group_size : nat) (skip : list string).

(** [any(s in full for s in skip)]. *)
Definition skipped (full : string) : bool :=
  existsb (λ s, match String.index 0 s full with Some _ => true | None => false end) skip.
Definition full_name (name child : string) : string :=
  if bool_decide (name = ""%string) then child else (name +:+ "." +:+ child)%string.

(** The body of the inner loop, for a linear child. *)
Definition quantize_child (full : string) (l : LinearLayer) : result (module * QuantStats) :=
  if skipped full then Ok (Linear l, mkStats 0 1 (weight_bytes l) (weight_bytes l))
  else if group_size =? 0 then Raise ZeroDivisionError
  else if negb (in_features l mod group_size =? 0) then Ok (Linear l, mkStats 0 1 (weight_bytes l) (weight_bytes l))
  else match from_linear group_size l with
       | Ok q => Ok (Quantized q, mkStats 1 0 (weight_bytes l) (quantized_size q))
       | Raise e => Raise e
       end.

(** The loops over modules and their children; only children are replaced. *)
Fixpoint quantize_module (name : string) (m : module) : result (module * QuantStats) :=
  match m with
  | Other children =>
      match (fix go (children : list (string * module)) : result (list (string * module) * QuantStats) :=
               match children with
               | [] => Ok ([], no_stats)
               | (child_name, child) :: rest =>
                   let full := full_name name child_name in
                   match (match child with Linear l => quantize_child full l | _ => quantize_module full child end), go rest with
                   | Ok (child, s1), Ok (rest, s2) => Ok ((child_name, child) :: rest, add_stats s1 s2)
                   | Raise e, _ => Raise e
                   | _, Raise e => Raise e
                   end
               end) children with
      | Ok (children, s) => Ok (Other children, s)
      | Raise e => Raise e
      end
  | m => Ok (m, no_stats)
  end.

Definition quantize_model (m : module) : result (module * QuantStats) := quantize_module "" m.
End model.

(** * The error of quantization *)

Lemma qlt_spec x y : if qlt x y then x < y else y <= x.
Proof.
  rw /qlt. destruct (Qle_bool y x) eqn:Hb; cbn; [by apply Qle_bool_iff|].
  apply Qnot_le_lt. intros Hle%Qle_bool_iff. congruence.
Qed.

Lemma qabs_bounds x : - qabs x <= x /\ x <= qabs x /\ 0 <= qabs x.
Proof. rw /qabs. pose proof (qlt_spec x 0) as Hx. destruct (qlt x 0); lra. Qed.

Lemma qabs_le x b : - b <= x -> x <= b -> qabs x <= b.
Proof. rw /qabs. pose proof (qlt_spec x 0) as Hx. destruct (qlt x 0); lra. Qed.

(** Rounding moves by at most a half, and never across an integer bound. *)
Lemma round_near x : qabs (x - inject_Z (round x)) <= 1 # 2.
Proof.
  pose proof (Qfloor_le x) as H1. pose proof (Qlt_floor x) as H2. rw inject_Z_plus in H2. change (inject_Z 1) with 1 in H2.
  rw /round. set (f := Qfloor x) in *.
  pose proof (qlt_spec (x - inject_Z f) (1 # 2)) as Ha. pose proof (qlt_spec (1 # 2) (x - inject_Z f)) as Hb.
  destruct (qlt (x - inject_Z f) (1 # 2)); [apply qabs_le; lra|].
  destruct (qlt (1 # 2) (x - inject_Z f)); [apply qabs_le; rw inject_Z_plus; change (inject_Z 1) with 1; lra|].
  destruct (Z.even f); apply qabs_le; rw ?inject_Z_plus; change (inject_Z 1) with 1; lra.
Qed.

Lemma round_le x (n : Z) : x <= inject_Z n -> (round x <= n)%Z.
Proof.
  intros Hx. pose proof (round_near x) as Hr. destruct (qabs_bounds (x - inject_Z (round x))) as (Hlo & Hhi & _).
  apply Z.lt_succ_r. rw Zlt_Qlt /Z.succ inject_Z_plus. change (inject_Z 1) with 1. lra.
Qed.

Lemma round_ge x (n : Z) : inject_Z n <= x -> (n <= round x)%Z.
Proof.
  intros Hx. pose proof (round_near x) as Hr. destruct (qabs_bounds (x - inject_Z (round x))) as (Hlo & Hhi & _).
  apply Z.lt_succ_r. rw Zlt_Qlt /Z.succ inject_Z_plus. change (inject_Z 1) with 1. lra.
Qed.

Lemma round_int x (n : Z) : x == inject_Z n -> round x = n.
Proof. intros Hx. apply Z.le_antisymm; [apply round_le|apply round_ge]; lra. Qed.

Section group.
Implicit Types group : list Q.

Lemma qmax_spec x y : x <= qmax x y /\ y <= qmax x y /\ (qmax x y = x \/ qmax x y = y).
Proof. rw /qmax. pose proof (qlt_spec x y) as H. destruct (qlt x y); split_and!; auto; lra. Qed.

Lemma absmax_bound group x : x ∈ group -> qabs x <= absmax group.
Proof.
  induction group as [|y g IH]; [by intros ?%not_elem_of_nil|]. intros [->|Hin]%elem_of_cons; cbn.
  - apply qmax_spec.
  - eapply Qle_trans; [by apply IH|]. apply qmax_spec.
Qed.

Lemma absmax_nonneg group : 0 <= absmax group.
Proof. induction group as [|y g IH]; cbn; [lra|]. eapply Qle_trans; [exact IH|]. apply qmax_spec. Qed.

Lemma scale_pos group : 0 < scale_of group.
Proof.
  rw /scale_of. pose proof (qlt_spec 0 (absmax group)) as H. destruct (qlt 0 (absmax group)); [|lra].
  apply Qlt_shift_div_l; [reflexivity|]. lra.
Qed.

(** Every weight of the group is at most [QMAX] steps from zero. *)
Lemma steps_bound group x : x ∈ group -> - inject_Z QMAX <= x / scale_of group /\ x / scale_of group <= inject_Z QMAX.
Proof.
  intros Hin. pose proof (scale_pos group) as Hs. pose proof (absmax_bound _ _ Hin) as Hb. destruct (qabs_bounds x) as (H1 & H2 & H3).
  assert (absmax group <= inject_Z QMAX * scale_of group) as Hm.
  { rw /scale_of. pose proof (qlt_spec 0 (absmax group)) as Hq. destruct (qlt 0 (absmax group)).
    - rw Qmult_div_r; [apply Qle_refl|done].
    - change (inject_Z QMAX) with 127. lra. }
  split; [apply Qle_shift_div_l|apply Qle_shift_div_r]; try done; lra.
Qed.

(** One weight: the clamp does not bite, and the error is at most half a step. *)
Lemma weight_error group x : x ∈ group ->
  let v := clamp (round (x / scale_of group)) in
  v = round (x / scale_of group) /\ (- QMAX <= v <= QMAX)%Z /\
  qabs (x - inject_Z v * scale_of group) <= (1 # 2) * scale_of group /\
  (qabs x == absmax group \/ x == 0 -> inject_Z v * scale_of group == x).
Proof.
  intros Hin. cbn zeta. destruct (steps_bound _ _ Hin) as [Hlo Hhi]. pose proof (scale_pos group) as Hs.
  assert (clamp (round (x / scale_of group)) = round (x / scale_of group)) as ->.
  { rw /clamp. apply round_le in Hhi. change (- inject_Z QMAX) with (inject_Z (- QMAX)) in Hlo. apply round_ge in Hlo. lia. }
  split; [done|]. split.
  { apply round_le in Hhi. change (- inject_Z QMAX) with (inject_Z (- QMAX)) in Hlo. by apply round_ge in Hlo. }
  pose proof (round_near (x / scale_of group)) as Hr. set (v := round (x / scale_of group)) in *.
  destruct (qabs_bounds (x / scale_of group - inject_Z v)) as (H1 & H2 & _).
  assert (x == x / scale_of group * scale_of group) as Hx by (rw Qmult_comm Qmult_div_r; [reflexivity|]; intros Hz; rw Hz in Hs; lra).
  set (y := x / scale_of group) in *. split.
  - assert (x - inject_Z v * scale_of group == (y - inject_Z v) * scale_of group) as Heq by (rw {1}Hx; ring).
    apply qabs_le; rw Heq.
    + assert (- ((1 # 2) * scale_of group) == - (1 # 2) * scale_of group) as -> by ring. apply Qmult_le_compat_r; lra.
    + apply Qmult_le_compat_r; lra.
  - intros Hcase. assert (y == inject_Z v) as Hy; [|rw Hx Hy; reflexivity].
    assert (∃ n : Z, y == inject_Z n) as [n Hn]; [|by rw /v (round_int y n Hn)].
    assert (x == 0 → y == inject_Z 0) as Hzero by (intros Hz; rw /y Hz; by rw /Qdiv Qmult_0_l).
    destruct Hcase as [Hmax|Hz]; [|exists 0%Z; auto].
    destruct (Qeq_dec x 0) as [Hz|Hnz]; [exists 0%Z; auto|].
    assert (0 < absmax group) as Hpos by (rw -Hmax /qabs; pose proof (qlt_spec x 0); destruct (qlt x 0); lra).
    assert (scale_of group == absmax group / inject_Z QMAX) as Hsc.
    { rw /scale_of. pose proof (qlt_spec 0 (absmax group)). destruct (qlt 0 (absmax group)); [reflexivity|lra]. }
    assert (x == absmax group ∨ x == - absmax group) as [Hp|Hp].
    { rw -Hmax /qabs. destruct (qlt x 0); [right; ring|by left]. }
    + exists QMAX. rw /y Hsc Hp. field. split; [done|intros Hc; rw Hc in Hpos; lra].
    + exists (- QMAX)%Z. rw /y Hsc Hp inject_Z_opp. field. split; [done|intros Hc; rw Hc in Hpos; lra].
Qed.
End group.

(** ** Groups of a row *)

Section rows.
Context (g : nat) (Hg : (0 < g)%nat).

Lemma concat_lookup_groups {A} (ls : list (list A)) j :
  Forall (λ l, length l = g) ls → concat ls !! j = ls !! (j / g)%nat ≫= (λ l, l !! (j mod g)%nat).
Proof.
  intros Hls. revert j. induction Hls as [|l ls Hl Hls IH]; intros j; [done|]. cbn.
  destruct (decide (j < g)%nat) as [Hlt|Hge].
  - rw lookup_app_l; [|lia]. by rw Nat.div_small // Nat.mod_small.
  - rw lookup_app_r; [|lia]. rw IH Hl. assert (∃ k, j = k + 1 * g)%nat as [k ->] by (exists (j - g)%nat; lia).
    replace (k + 1 * g - g)%nat with k by lia. rw Nat.div_add; [|lia]. by rw Nat.Div0.mod_add Nat.add_1_r.
Qed.

Lemma grouped_concat {A} (ls : list (list A)) : Forall (λ l, length l = g) ls → grouped g (concat ls) = ls.
Proof.
  intros Hls. rw /grouped. assert (length (concat ls) = length ls * g)%nat as ->.
  { induction Hls as [|l ls Hl Hls IH]; [done|]. cbn. rw length_app IH Hl. lia. }
  rw Nat.div_mul; [|lia]. induction Hls as [|l ls Hl Hls IH]; [done|]. cbn. rw -{1 3}Hl take_app_length drop_app_length IH //.
Qed.

Lemma grouped_row {A} (row : list A) : (length row mod g = 0)%nat →
  concat (grouped g row) = row ∧ Forall (λ l, length l = g) (grouped g row).
Proof.
  intros Hm. rw /grouped. assert (length row = length row / g * g)%nat as Hlen.
  { pose proof (Nat.div_mod_eq (length row) g). lia. }
  set (k := (length row / g)%nat) in *. clearbody k. clear Hm. revert row Hlen.
  induction k as [|k IH]; intros row Hlen; cbn.
  - split; [|constructor]. by destruct row.
  - destruct (IH (drop g row)) as [H1 H2]; [rw length_drop; lia|]. rw H1 take_drop. split; [done|].
    constructor; [rw length_take; lia|done].
Qed.

(** A quantized row, weight by weight. *)
Lemma quantize_row_spec (row : list Q) j x : (length row mod g = 0)%nat → row !! j = Some x →
  ∃ group, x ∈ group ∧
    (quantize_row g row).1 !! j = Some (clamp (round (x / scale_of group))) ∧
    (quantize_row g row).2 !! (j / g)%nat = Some (scale_of group) ∧
    dequantize_row g (quantize_row g row).1 (quantize_row g row).2 !! j
      = Some (inject_Z (clamp (round (x / scale_of group))) * scale_of group) ∧
    (∀ y, y ∈ group ↔ ∃ k, (k / g = j / g)%nat ∧ row !! k = Some y).
Proof.
  intros Hm Hx. destruct (grouped_row row Hm) as [Hcat Hall].
  assert (∀ k, row !! k = grouped g row !! (k / g)%nat ≫= (λ l, l !! (k mod g)%nat)) as Hlk.
  { intros k. rw -{1}Hcat. by apply concat_lookup_groups. }
  pose proof Hx as Hx'. rw Hlk in Hx'. destruct (grouped g row !! (j / g)%nat) as [group|] eqn:Hgr; [|done]. cbn in Hx'.
  exists group. assert (Forall (λ l, length l = g) (quantize_group <$> grouped g row)) as Hall'.
  { apply Forall_fmap. eapply Forall_impl; [exact Hall|]. intros l Hl. cbn. by rw /quantize_group length_fmap. }
  split_and!.
  - by eapply list_elem_of_lookup_2.
  - cbn. rw concat_lookup_groups // list_lookup_fmap Hgr /= /quantize_group list_lookup_fmap Hx' //.
  - cbn. by rw list_lookup_fmap Hgr.
  - cbn. rw /dequantize_row grouped_concat //. rw concat_lookup_groups.
    + rw lookup_zip_with !list_lookup_fmap Hgr /= !list_lookup_fmap Hx' //.
    + clear -Hall. induction Hall as [|l ls Hl Hls IH]; [constructor|]. cbn. constructor; [by rw !length_fmap|done].
  - intros y. split.
    + intros [i Hi]%list_elem_of_lookup. exists (j / g * g + i)%nat.
      assert (i < g)%nat as Hi'. { apply lookup_lt_Some in Hi. rw Forall_lookup in Hall. by rw -(Hall _ _ Hgr). }
      assert ((j / g * g + i) / g = j / g)%nat as Hd by (rw Nat.div_add_l; [|lia]; rw (Nat.div_small i); lia).
      split; [done|]. rw Hlk Hd Hgr /= -Hi. f_equal. rw Nat.add_comm Nat.Div0.mod_add Nat.mod_small //.
    + intros (k & Hk & Hy). rw Hlk Hk Hgr /= in Hy. by eapply list_elem_of_lookup_2.
Qed.
End rows.

(** The entries of row [row] in the group of inputs of position [j]. *)
Definition same_group (g : nat) (row : list Q) (j : nat) (y : Q) : Prop := ∃ k, (k / g = j / g)%nat ∧ row !! k = Some y.

(** The step a group should have: 127 of them reach exactly its largest magnitude; a group
    of zeros has step 1. *)
Definition right_step (g : nat) (row : list Q) (j : nat) (sc : Q) : Prop :=
  (∃ y, same_group g row j y ∧ 0 < qabs y ∧ 127 * sc == qabs y ∧ ∀ z, same_group g row j z → qabs z <= qabs y) ∨
  (sc == 1 ∧ ∀ z, same_group g row j z → z == 0).

Lemma absmax_attained group : 0 < absmax group → ∃ y, y ∈ group ∧ qabs y = absmax group.
Proof.
  induction group as [|x l IH]; [intros H; exfalso; cbn in H; lra|]. intros Hpos.
  change (0 < qmax (qabs x) (absmax l)) in Hpos. change (absmax (x :: l)) with (qmax (qabs x) (absmax l)).
  destruct (qmax_spec (qabs x) (absmax l)) as (_ & _ & [Hm|Hm]); rw Hm in Hpos |- *; [exists x; split; [by left|done]|].
  destruct (IH Hpos) as (y & Hy & Hq). exists y. split; [by right|done].
Qed.

Lemma right_step_scale g row j group : (∀ y, y ∈ group ↔ same_group g row j y) → right_step g row j (scale_of group).
Proof.
  intros Hmem. rw /right_step /scale_of. pose proof (qlt_spec 0 (absmax group)) as Hq. destruct (qlt 0 (absmax group)).
  - left. destruct (absmax_attained group Hq) as (y & Hy & Hya). exists y. split; [by apply Hmem|]. rw Hya. split; [done|]. split.
    + change 127 with (inject_Z QMAX). apply Qmult_div_r. done.
    + intros z Hz%Hmem. by apply absmax_bound.
  - right. split; [reflexivity|]. intros z Hz%Hmem. pose proof (absmax_bound _ _ Hz). destruct (qabs_bounds z) as (? & ? & ?). lra.
Qed.

(** C35: quantization is faithful to half a step.  For a weight matrix whose input width is
    a multiple of the group size, the scale [quantize_tensor] stores for a group is the one
    whose 127th multiple is the largest magnitude of that group of inputs (1 when they are
    all zero); every weight is stored as the nearest multiple of it, which lies within
    [-127..127] before the clamp, so that the clamp changes nothing; dequantizing moves no
    weight by more than half the scale of its own group, and a weight of largest magnitude
    in its group, and a zero, come back exactly.  Any other width is refused. *)
Theorem quantize_error g in_f (weight : list (list Q)) :
  (0 < g)%nat → Forall (λ row, length row = in_f) weight →
  if (in_f mod g =? 0)%nat then
    ∃ q s, quantize_tensor g in_f weight = Ok (q, s) ∧ length q = length weight ∧ length s = length weight ∧
      ∀ i j row x, weight !! i = Some row → row !! j = Some x → ∃ qrow srow drow v sc,
        q !! i = Some qrow ∧ s !! i = Some srow ∧ dequantize_tensor g q s !! i = Some drow ∧
        qrow !! j = Some v ∧ srow !! (j / g)%nat = Some sc ∧ drow !! j = Some (inject_Z v * sc) ∧
        right_step g row j sc ∧ v = round (x / sc) ∧ (-127 <= v <= 127)%Z ∧
        qabs (x - inject_Z v * sc) <= (1 # 2) * sc ∧
        ((∀ y, same_group g row j y → qabs y <= qabs x) ∨ x == 0 → inject_Z v * sc == x)
  else quantize_tensor g in_f weight = Raise ValueError.
Proof.
  intros Hg Hw. rw /quantize_tensor. destruct (Nat.eqb_spec g 0) as [|_]; [lia|].
  destruct (Nat.eqb_spec (in_f mod g) 0) as [Hm|Hm]; cbn [negb]; [|done].
  eexists _, _. split; [done|]. rw !length_fmap. split; [done|]. split; [done|]. intros i j row x Hi Hj.
  rw Forall_lookup in Hw. pose proof (Hw _ _ Hi) as Hlen. rw -Hlen in Hm.
  destruct (quantize_row_spec g Hg row j x Hm Hj) as (group & Hin & Hq & Hs & Hd & Hmem).
  destruct (weight_error group x Hin) as (Hnoclamp & Hrange & Herr & Hexact).
  eexists _, _, _, _, _. rw /dequantize_tensor lookup_zip_with !list_lookup_fmap Hi. cbn.
  split; [done|]. split; [done|]. split; [done|]. split; [exact Hq|]. split; [exact Hs|]. split; [exact Hd|].
  split; [by apply right_step_scale|]. split; [exact Hnoclamp|]. split; [exact Hrange|]. split; [exact Herr|].
  intros [Hmax|Hz]; apply Hexact; [left|by right]. apply Qle_antisym; [by apply absmax_bound|].
  assert (∀ y, y ∈ group → qabs y <= qabs x) as Hle by (intros y Hy%Hmem; by apply Hmax).
  pose proof (qabs_bounds x) as (_ & _ & Hnn). clear -Hle Hnn. induction group as [|y l IH]; [done|].
  change (qmax (qabs y) (absmax l) <= qabs x). destruct (qmax_spec (qabs y) (absmax l)) as (_ & _ & [-> | ->]); [apply Hle; by left|apply IH; intros; apply Hle; by right].
Qed.

Lemma quantize_error_witness :
  quantize_tensor 2 4 [[1; - (1 # 2); 0; 0]] = Ok ([[127; -64; 0; 0]]%Z, [[1 / inject_Z 127; 1]]) ∧
  right_step 2 [1; - (1 # 2); 0; 0] 1 (1 / inject_Z 127).
Proof.
  split; [vm_compute; reflexivity|].
  destruct (quantize_error 2 4 [[1; - (1 # 2); 0; 0]]) as (q & s & H1 & _ & _ & H).
  - lia.
  - repeat constructor.
  - destruct (H 0%nat 1%nat [1; - (1 # 2); 0; 0] (- (1 # 2))) as (qr & sr & dr & v & sc & _ & Hs & _ & _ & Hsc & _ & Hr & _); [reflexivity|reflexivity|].
    vm_compute in H1. injection H1 as <- <-. vm_compute in Hs. injection Hs as <-. vm_compute in Hsc. injection Hsc as <-. exact Hr.
Defined.

(** * A model is quantized once *)

Section models.
Context (g : nat) (Hg : (0 < g)%nat) (skip : list string).

Section module_ind.
Context (P : module → Prop) (HL : ∀ l, P (Linear l)) (HQ : ∀ l, P (Quantized l))
  (HO : ∀ children, Forall (λ c, P c.2) children → P (Other children)).
Fixpoint module_nested (m : module) : P m :=
  match m with
  | Linear l => HL l
  | Quantized l => HQ l
  | Other children =>
      HO children ((fix go (cs : list (string * module)) : Forall (λ c, P c.2) cs :=
        match cs with [] => Forall_nil_2 _ | c :: cs => Forall_cons_2 _ c cs (module_nested c.2) (go cs) end) children)
  end.
End module_ind.

(** The linear layers below a module, with their full names. *)
Fixpoint linears (name : string) (m : module) : list (string * LinearLayer) :=
  match m with
  | Other children =>
      (fix go (cs : list (string * module)) := match cs with
       | [] => []
       | (cn, c) :: cs => match c with Linear l => [(full_name name cn, l)] | _ => linears (full_name name cn) c end ++ go cs
       end) children
  | _ => []
  end.

Definition eligible (nl : string * LinearLayer) : bool := negb (skipped skip nl.1) && (in_features nl.2 mod g =? 0)%nat.
Definition size_after (nl : string * LinearLayer) : nat :=
  let l := nl.2 in
  if eligible nl then (out_features l * in_features l + out_features l * (in_features l / g) * 4)%nat else weight_bytes l.

(** The statistics of a list of layers. *)
Definition stats_of (ls : list (string * LinearLayer)) : QuantStats :=
  mkStats (length (filter (λ nl, eligible nl = true) ls)) (length (filter (λ nl, eligible nl = false) ls))
    (sum_list_with (weight_bytes ∘ snd) ls) (sum_list_with size_after ls).

Lemma stats_of_app l1 l2 : stats_of (l1 ++ l2) = add_stats (stats_of l1) (stats_of l2).
Proof. rw /stats_of /add_stats !filter_app !length_app !sum_list_with_app //. Qed.

(** What a pass leaves: the expected statistics, and nothing for another pass to do. *)
Definition settles (name : string) (m : module) : Prop :=
  ∃ m', quantize_module g skip name m = Ok (m', stats_of (linears name m)) ∧
        (∀ l, m' = Linear l → m = Linear l) ∧
        ∃ st, quantize_module g skip name m' = Ok (m', st) ∧ layers_quantized st = 0%nat.

Lemma stats_of_one nl :
  stats_of [nl] = if eligible nl then mkStats 1 0 (weight_bytes nl.2) (size_after nl)
                  else mkStats 0 1 (weight_bytes nl.2) (weight_bytes nl.2).
Proof.
  rw /stats_of /= !Nat.add_0_r !filter_cons !filter_nil /size_after. destruct (eligible nl); by repeat case_decide.
Qed.

Lemma quantize_child_spec full l :
  ∃ m', quantize_child g skip full l = Ok (m', stats_of [(full, l)]) ∧
    ((m' = Linear l ∧ eligible (full, l) = false) ∨ ∃ q, m' = Quantized q).
Proof.
  rw stats_of_one /quantize_child /size_after. cbn [snd].
  assert (eligible (full, l) = negb (skipped skip full) && (in_features l mod g =? 0)%nat) as -> by done.
  destruct (skipped skip full); cbn; [exists (Linear l); split; [done|by left]|].
  rw /from_linear /quantize_tensor. destruct (Nat.eqb_spec g 0) as [|_]; [lia|].
  destruct (Nat.eqb_spec (in_features l mod g) 0) as [Hm|Hm]; cbn.
  - eexists. split; [done|]. right. by eexists.
  - exists (Linear l). split; [done|by left].
Qed.

Lemma quantize_child_again full l : eligible (full, l) = false →
  quantize_child g skip full l = Ok (Linear l, mkStats 0 1 (weight_bytes l) (weight_bytes l)).
Proof.
  rw /eligible /quantize_child. cbn. destruct (skipped skip full); cbn; [done|]. intros ->. cbn.
  by destruct (Nat.eqb_spec g 0) as [|_]; [lia|].
Qed.

(** A child as the inner loop treats it. *)
Definition visit (full : string) (c : module) : result (module * QuantStats) :=
  match c with Linear l => quantize_child g skip full l | _ => quantize_module g skip full c end.

Lemma other_cons name cn c c' s1 cs cs' s2 :
  visit (full_name name cn) c = Ok (c', s1) → quantize_module g skip name (Other cs) = Ok (Other cs', s2) →
  quantize_module g skip name (Other ((cn, c) :: cs)) = Ok (Other ((cn, c') :: cs'), add_stats s1 s2).
Proof.
  intros Hc Hcs. cbn in Hcs |- *. rw /visit in Hc. rw Hc. revert Hcs.
  match goal with |- context [match ?f cs with _ => _ end] => destruct (f cs) as [[??]|] end; [|done]. by intros [= -> ->].
Qed.

(** A child settles as the module it is part of does. *)
Lemma visit_settles full c : settles full c →
  ∃ c' s1, visit full c = Ok (c', stats_of (match c with Linear l => [(full, l)] | _ => linears full c end)) ∧
    visit full c' = Ok (c', s1) ∧ layers_quantized s1 = 0%nat.
Proof.
  intros (m' & Hm & Hnl & s1 & Hs1 & H1). destruct c as [l|l|ch].
  - destruct (quantize_child_spec full l) as (m2 & Hm2 & [[-> He]|[q ->]]).
    + eexists _, _. split; [exact Hm2|]. split; [by apply quantize_child_again|done].
    + eexists _, no_stats. split; [exact Hm2|]. done.
  - eexists _, no_stats. split; [reflexivity|]. split; reflexivity.
  - exists m', s1. split; [exact Hm|]. destruct m' as [l|l|ch']; [by specialize (Hnl l eq_refl)|done|done].
Qed.

Lemma module_settles m : ∀ name, settles name m.
Proof.
  induction m as [l|l|children HF] using module_nested; intros name.
  - exists (Linear l). split; [done|]. split; [done|]. by exists no_stats.
  - exists (Quantized l). split; [done|]. split; [done|]. by exists no_stats.
  - assert (∃ cs', quantize_module g skip name (Other children) = Ok (Other cs', stats_of (linears name (Other children))) ∧
      ∃ st, quantize_module g skip name (Other cs') = Ok (Other cs', st) ∧ layers_quantized st = 0%nat) as (cs' & Hm & Hst).
    { induction HF as [|[cn c] cs Hc HF (cs' & Hgo & st & Hst & H0)].
      { exists []. split; [done|]. by exists no_stats. }
      destruct (visit_settles (full_name name cn) c (Hc _)) as (c' & s1 & Hc1 & Hc2 & H1).
      exists ((cn, c') :: cs'). rw (other_cons _ _ _ _ _ _ _ _ Hc1 Hgo) -stats_of_app. split; [done|].
      exists (add_stats s1 st). rw (other_cons _ _ _ _ _ _ _ _ Hc2 Hst). split; [done|]. cbn. lia. }
    exists (Other cs'). split; [exact Hm|]. split; [done|exact Hst].
Qed.
End models.

(** A model is quantized completely, once, and its bytes are accounted for.  With a
    positive group size [quantize_model] raises nothing; it counts and replaces exactly
    the linear layers that no skip name matches and whose width the group size divides,
    leaves and counts the others, adds up the bytes before and after over all of them,
    and a second pass over the result finds nothing left to quantize and changes
    nothing. *)
Theorem quantize_model_once g skip m :
  (0 < g)%nat →
  let ls := linears "" m in
  ∃ m' st, quantize_model g skip m = Ok (m', st) ∧
    layers_quantized st = length (filter (λ nl, eligible g skip nl = true) ls) ∧
    (layers_quantized st + layers_skipped st = length ls)%nat ∧
    original_bytes st = sum_list_with (weight_bytes ∘ snd) ls ∧
    quantized_bytes st = sum_list_with (size_after g skip) ls ∧
    ∃ st2, quantize_model g skip m' = Ok (m', st2) ∧ layers_quantized st2 = 0%nat.
Proof.
  intros Hg ls. destruct (module_settles g Hg skip m "") as (m' & Hm & _ & st2 & Hst2 & H2).
  exists m', (stats_of g skip ls). split; [exact Hm|]. split; [done|]. split; [|split; [done|split; [done|by exists st2]]].
  cbn. clear. induction ls as [|nl ls IH]; [done|]. rw !filter_cons. destruct (eligible g skip nl); repeat case_decide; cbn; try done; lia.
Qed.

(** One layer to quantize, one skipped by name, one of the wrong width. *)
Definition toy_layer (n : nat) : module := Linear (mkLinear n 1 2 [replicate n 1] None).
Definition toy_model : module :=
  Other [("lm_head"%string, toy_layer 4); ("mlp"%string, Other [("up"%string, toy_layer 4); ("down"%string, toy_layer 3)])].

Lemma quantize_model_once_witness :
  (∃ m', quantize_model 2 ["lm_head"%string] toy_model = Ok (m', mkStats 1 2 22 26)) ∧
  ∃ m' st, quantize_model 2 ["lm_head"%string] toy_model = Ok (m', st) ∧ layers_quantized st = 1%nat.
Proof.
  split; [eexists; vm_compute; reflexivity|].
  destruct (quantize_model_once 2 ["lm_head"%string] toy_model) as (m' & st & H1 & H2 & _).
  - lia.
  - exists m', st. split; [exact H1|]. rw H2. vm_compute. reflexivity.
Defined.
