(* ===== verification/Train.v ===== *)
(** * Training and its checkpoints (model/train/train.py, scripts/train.py)

    The trainer's state, one optimiser step over its micro-batches, evaluation, the
    learning-rate schedule, and the directory of checkpoints: written under a temporary
    name and renamed, pruned, found again by number, and loaded; timing and printing are
    left out.  The process may stop
    between any two operations on the directory and be started again, any number of
    times; the property is that this makes no difference. *)

From Stdlib Require Import ssreflect Ascii QArith Qcanon.
From stdpp Require Import prelude gmap list strings sorting.
From S2P Require Import Prelude Config Text Tokenizer Data.
#[local] Open Scope nat_scope.

(** ** File names *)

Definition codes (s : string) : list Z := (λ c, Z.of_nat (nat_of_ascii c)) <$> String.list_ascii_of_string s.

(** [f"{n:06d}"]: the decimal digits, padded with zeros to six. *)
Fixpoint decimal_from (fuel n : nat) (acc : list Z) : list Z :=
  let acc := (48 + Z.of_nat (n mod 10))%Z :: acc in
  match fuel with
  | O => acc
  | S fuel => if n <? 10 then acc else decimal_from fuel (n / 10) acc
  end.
Definition decimal (n : nat) : list Z := decimal_from n n [].
Definition decimal6 (n : nat) : list Z := let d := decimal n in replicate (6 - length d) 48%Z ++ d.

(** [int(s)] of a string of digits. *)
Definition digit (c : Z) : bool := (48 <=? c)%Z && (c <=? 57)%Z.
Definition int_of (s : list Z) : result nat :=
  match s with
  | [] => Raise ValueError
  | _ => if forallb digit s then Ok (foldl (λ a c, 10 * a + Z.to_nat (c - 48)) 0 s) else Raise ValueError
  end.

(** [f"step_{step:06d}.pt"] and ["best.pt"]. *)
Definition step_file (n : nat) : list Z := codes "step_" ++ decimal6 n ++ codes ".pt".
Definition best_file : list Z := codes "best.pt".

(** [path.stem]: the name before its last dot, unless the dot is first or last. *)
Fixpoint rpartition (s : list Z) : option (list Z * list Z) :=
  match s with
  | [] => None
  | c :: s =>
      match rpartition s with
      | Some (a, b) => Some (c :: a, b)
      | None => if (c =? 46)%Z then Some ([], s) else None
      end
  end.
Definition stem (name : list Z) : list Z :=
  match rpartition name with
  | Some (a :: l, _ :: _) => a :: l
  | _ => name
  end.
Definition with_suffix (suffix name : list Z) : list Z := stem name ++ suffix.

(** [glob("step_*.pt")]. *)
Definition step_glob (name : list Z) : bool :=
  bool_decide (codes "step_" `prefix_of` name) && bool_decide (codes ".pt" `suffix_of` name) && (8 <=? length name).

(** [int(p.stem.split("_")[1])]. *)
Definition step_key (name : list Z) : result nat :=
  match str_split (codes "_") (stem name) !! 1 with
  | None => Raise IndexError
  | Some s => int_of s
  end.

(** Checkpoints with their numbers are ordered by number. *)
Definition key_le (p q : nat * list Z) : Prop := p.1 ≤ q.1.
#[export] Instance key_le_dec : RelDecision key_le.
Proof. intros p q. rw /key_le. apply _. Defined.

(** ** Configuration and schedule *)

Record TrainConfig := mkTrainConfig {
  train_bin : list Z;
  val_bin : list Z;
  seq_len : nat;
  micro_batch : nat;
  grad_accum : nat;
  lr : Qc;
  min_lr : Qc;
  warmup_steps : nat;
  weight_decay : Qc;
  betas : Qc * Qc;
  grad_clip : Qc;
  max_steps : nat;
  eval_every : nat;
  eval_batches : nat;
  log_every : nat;
  ckpt_every : nat;
  keep_last : nat;
  seed : Z;
  tc_model : NanoConfig;
}.

Definition tokens_per_step (cfg : TrainConfig) : nat := micro_batch cfg * grad_accum cfg * seq_len cfg.

Definition of_nat_Qc (n : nat) : Qc := Q2Qc (inject_Z (Z.of_nat n)).

(** [cos_pi x] is [math.cos(math.pi * x)]. *)
Definition cosine_lr (cos_pi : Qc → Qc) (step : nat) (cfg : TrainConfig) : Qc :=
  if step <? warmup_steps cfg then (lr cfg * of_nat_Qc (step + 1) / of_nat_Qc (warmup_steps cfg))%Qc
  else if max_steps cfg <=? step then min_lr cfg
  else
    let progress := (of_nat_Qc (step - warmup_steps cfg) / of_nat_Qc (Nat.max 1 (max_steps cfg - warmup_steps cfg)))%Qc in
    (min_lr cfg + Q2Qc (1 # 2) * (lr cfg - min_lr cfg) * (1 + cos_pi progress))%Qc.

(** ** The trainer *)

(** What the loop gets from torch: weights, optimizer states, gradients, random states
    of the processor and of the device, and generators. *)
Class TorchTraining (W OS Gr Rng Crng Gen : Type) := {
  tt_manual_seed : Z → Rng;
  tt_cuda_seed : Z → option Crng;                     (* [None] without a device *)
  tt_generator : Z → Gen;
  tt_randint : Gen → nat → nat → list nat * Gen;
  tt_init : NanoConfig → Rng → W * Rng;
  tt_adamw : W → Qc → Qc → Qc * Qc → OS;               (* decay on matrices, rate, betas *)
  tt_set_lr : Qc → OS → OS;
  tt_get_lr : OS → Qc;
  tt_zero_grad : Gr;
  tt_backward : W → Gr → Qc → list (list Z) → Rng → option Crng → Qc * Gr * Rng * option Crng;
  tt_clip : Gr → Qc → Gr * Qc;
  tt_step : W → OS → Gr → W * OS;
  tt_loss : W → list (list Z) → Qc;                   (* in evaluation mode *)
  tt_cos_pi : Qc → Qc;
}.

Section train.
Context {W OS Gr Rng Crng Gen : Type} `{TorchTraining W OS Gr Rng Crng Gen}.

Record Checkpoint := mkCheckpoint {
  c_step : nat;
  c_tokens_seen : nat;
  c_best_val : option Qc;
  c_model : W;
  c_optimizer : OS;
  c_data_generator : Gen;
  c_torch_rng : Rng;
  c_cuda_rng : option Crng;
  c_config : TrainConfig;
}.

Record Trainer := mkTrainer {
  t_cfg : TrainConfig;
  t_model : W;
  t_opt : OS;
  t_grads : Gr;
  train_data : TokenDataset;
  val_data : TokenDataset;
  data_gen : Gen;
  t_step : nat;
  best_val : option Qc;        (* [None] is infinity *)
  tokens_seen : nat;
  t_rng : Rng;
  t_cuda : option Crng;
}.

Definition set_progress (s n : nat) (t : Trainer) : Trainer :=
  mkTrainer (t_cfg t) (t_model t) (t_opt t) (t_grads t) (train_data t) (val_data t) (data_gen t) s (best_val t) n (t_rng t) (t_cuda t).
Definition set_best (b : option Qc) (t : Trainer) : Trainer :=
  mkTrainer (t_cfg t) (t_model t) (t_opt t) (t_grads t) (train_data t) (val_data t) (data_gen t) (t_step t) b (tokens_seen t) (t_rng t) (t_cuda t).
Definition set_weights (w : W) (o : OS) (g : Gr) (t : Trainer) : Trainer :=
  mkTrainer (t_cfg t) w o g (train_data t) (val_data t) (data_gen t) (t_step t) (best_val t) (tokens_seen t) (t_rng t) (t_cuda t).
Definition set_random (g : Gen) (r : Rng) (c : option Crng) (t : Trainer) : Trainer :=
  mkTrainer (t_cfg t) (t_model t) (t_opt t) (t_grads t) (train_data t) (val_data t) g (t_step t) (best_val t) (tokens_seen t) r c.

(** The token files, by path. *)
Context (memmap : list Z → list Z).

(** [__init__]: seeds, weights, optimizer, data, counters. *)
Definition new_trainer (cfg : TrainConfig) : result Trainer :=
  let '(w, rng) := tt_init (tc_model cfg) (tt_manual_seed (seed cfg)) in
  let o := tt_adamw w (weight_decay cfg) (lr cfg) (betas cfg) in
  match new_dataset (memmap (train_bin cfg)) (seq_len cfg) with
  | Raise e => Raise e
  | Ok train =>
      match new_dataset (memmap (val_bin cfg)) (seq_len cfg) with
      | Raise e => Raise e
      | Ok val =>
          Ok (mkTrainer cfg w o tt_zero_grad train val (tt_generator (seed cfg)) 0 None 0 rng (tt_cuda_seed (seed cfg)))
      end
  end.

(** [data.batch(n, device, generator)]: the rows, and the generator it advanced. *)
Definition next_batch (d : TokenDataset) (g : Gen) (n : nat) : result (list (list Z)) * Gen :=
  let '(starts, g) := tt_randint g (length (td_tokens d) - td_seq_len d) n in
  (batch (λ _ _, starts) d n, g).

(** One micro-batch: forward, and backward of its share of the loss. *)
Definition micro_step : M Trainer Qc := λ t,
  let cfg := t_cfg t in
  match next_batch (train_data t) (data_gen t) (micro_batch cfg) with
  | (Raise e, g) => (Raise e, set_random g (t_rng t) (t_cuda t) t)
  | (Ok tokens, g) =>
      let '(loss, grads, rng, cuda) :=
        tt_backward (t_model t) (t_grads t) (1 / of_nat_Qc (grad_accum cfg))%Qc tokens (t_rng t) (t_cuda t) in
      (Ok (loss / of_nat_Qc (grad_accum cfg))%Qc, set_random g rng cuda (set_weights (t_model t) (t_opt t) grads t))
  end.

Definition train_step : M Trainer (Qc * Qc) :=
  let* t := get in
  let cfg := t_cfg t in
  let rate := cosine_lr tt_cos_pi (t_step t) cfg in
  do* modify (λ t, set_weights (t_model t) (tt_set_lr rate (t_opt t)) (t_grads t) t) in
  let* losses := for_list (seq 0 (grad_accum cfg)) (λ _, micro_step) in
  let* t := get in
  let '(grads, grad_norm) := tt_clip (t_grads t) (grad_clip cfg) in
  let '(w, o) := tt_step (t_model t) (t_opt t) grads in
  do* modify (set_weights w o tt_zero_grad) in
  do* modify (λ t, set_progress (t_step t + 1) (tokens_seen t + tokens_per_step cfg) t) in
  ret (foldl Qcplus 0%Qc losses, grad_norm).

(** [evaluate]: its own generator, seeded alike on every call; the model is only read. *)
Fixpoint eval_loop (t : Trainer) (n : nat) (g : Gen) (total : Qc) : result Qc :=
  match n with
  | O => Ok total
  | S n =>
      match next_batch (val_data t) g (micro_batch (t_cfg t)) with
      | (Ok tokens, g) => eval_loop t n g (total + tt_loss (t_model t) tokens)%Qc
      | (Raise e, _) => Raise e
      end
  end.
Definition evaluate (t : Trainer) : result Qc :=
  match eval_loop t (eval_batches (t_cfg t)) (tt_generator 0) 0%Qc with
  | Ok total => if eval_batches (t_cfg t) =? 0 then Raise ZeroDivisionError
                else Ok (total / of_nat_Qc (eval_batches (t_cfg t)))%Qc
  | Raise e => Raise e
  end.

Definition state_dict (t : Trainer) : Checkpoint :=
  mkCheckpoint (t_step t) (tokens_seen t) (best_val t) (t_model t) (t_opt t) (data_gen t) (t_rng t) (t_cuda t) (t_cfg t).

Definition load_state_dict (c : Checkpoint) (t : Trainer) : Trainer :=
  mkTrainer (t_cfg t) (c_model c) (c_optimizer c) (t_grads t) (train_data t) (val_data t) (c_data_generator c)
    (c_step c) (c_best_val c) (c_tokens_seen c) (c_torch_rng c)
    (match c_cuda_rng c, t_cuda t with Some r, Some _ => Some r | _, cuda => cuda end).

(** ** The checkpoint directory *)

(** A file being written is [Partial] until the write is complete. *)
Inductive content := Partial | Full (c : Checkpoint).
#[local] Abbreviation FS := (gmap (list Z) content).

Inductive LogEntry :=
  | LogStep (step : nat) (loss rate grad_norm : Qc) (tokens : nat)
  | LogVal (step : nat) (val_loss : Qc).

(** The process and the directory; [w_trace] are the states the directory went through,
    any of which is what a crash leaves behind. *)
Record World := mkWorld {
  w_trainer : Trainer;
  w_fs : FS;
  w_log : list LogEntry;
  w_trace : list FS;
}.
Definition on_trainer {A} (m : M Trainer A) : M World A :=
  zoom w_trainer (λ t w, mkWorld t (w_fs w) (w_log w) (w_trace w)) m.
Definition touch (f : FS → FS) : M World unit :=
  modify (λ w, mkWorld (w_trainer w) (f (w_fs w)) (w_log w) (w_trace w ++ [f (w_fs w)])).
Definition log (e : LogEntry) : M World unit :=
  modify (λ w, mkWorld (w_trainer w) (w_fs w) (w_log w ++ [e]) (w_trace w)).

(** [torch.save(..., tmp)] is not atomic, [tmp.replace(path)] is. *)
Definition save (name : list Z) : M World unit :=
  let tmp := with_suffix (codes ".tmp") name in
  let* w := get in
  do* touch <[tmp := Partial]> in
  do* touch <[tmp := Full (state_dict (w_trainer w))]> in
  touch (λ fs, match fs !! tmp with Some c => <[name := c]> (delete tmp fs) | None => fs end).

(** The files matching [step_*.pt], each with its number. *)
Definition keyed (name : list Z) : result (nat * list Z) :=
  match step_key name with Ok k => Ok (k, name) | Raise e => Raise e end.
Fixpoint mapR {A B} (f : A → result B) (l : list A) : result (list B) :=
  match l with
  | [] => Ok []
  | x :: l => match f x, mapR f l with
              | Ok y, Ok ys => Ok (y :: ys)
              | Raise e, _ => Raise e
              | _, Raise e => Raise e
              end
  end.
Definition step_files (fs : FS) : list (list Z) := filter (λ name, step_glob name = true) (map_to_list fs).*1.

Definition prune_checkpoints : M World unit :=
  let* w := get in
  match mapR keyed (step_files (w_fs w)) with
  | Raise e => raise e
  | Ok l =>
      let ckpts := merge_sort key_le l in
      let k := keep_last (t_cfg (w_trainer w)) in
      let olds := if k =? 0 then [] else take (length ckpts - k) ckpts in
      for_each olds (λ p, touch (delete p.2))
  end.

(** [max(ckpts, key=...)]: the first of the largest. *)
Definition later (best q : nat * list Z) : nat * list Z := if best.1 <? q.1 then q else best.
Definition latest_checkpoint (fs : FS) : result (option (list Z)) :=
  match mapR keyed (step_files fs) with
  | Raise e => Raise e
  | Ok [] => Ok None
  | Ok (p :: l) => Ok (Some (foldl later p l).2)
  end.

Definition resume (fs : FS) (path : list Z) (cfg : option TrainConfig) : result Trainer :=
  match fs !! path with
  | None => Raise FileNotFoundError
  | Some Partial => Raise RuntimeError
  | Some (Full c) =>
      match new_trainer (default (c_config c) cfg) with
      | Ok t => Ok (load_state_dict c t)
      | Raise e => Raise e
      end
  end.

(** ** The loop *)

(** [self.step % n == 0]. *)
Definition every (n step : nat) : M World bool :=
  if n =? 0 then raise ZeroDivisionError else ret (step mod n =? 0).

Definition better (val : Qc) (best : option Qc) : bool :=
  match best with None => true | Some b => bool_decide (val < b)%Qc end.

(** Evaluate, and keep the model if it is the best so far. *)
Definition assess : M World Qc :=
  let* w := get in
  match evaluate (w_trainer w) with
  | Raise e => raise e
  | Ok val =>
      do* (if better val (best_val (w_trainer w)) then
             do* on_trainer (modify (set_best (Some val))) in
             save best_file
           else ret tt) in
      ret val
  end.

Definition fit_body : M World unit :=
  let* (loss, grad_norm) := on_trainer train_step in
  let* t := gets w_trainer in
  let cfg := t_cfg t in
  let* b := every (log_every cfg) (t_step t) in
  do* (if b then log (LogStep (t_step t) loss (tt_get_lr (t_opt t)) grad_norm (tokens_seen t)) else ret tt) in
  let* b := every (eval_every cfg) (t_step t) in
  do* (if b then let* val := assess in log (LogVal (t_step t) val) else ret tt) in
  let* b := every (ckpt_every cfg) (t_step t) in
  if b then do* save (step_file (t_step t)) in prune_checkpoints else ret tt.

(** [while self.step < cfg.max_steps]: every round adds one to the step. *)
Fixpoint fit_loop (n : nat) : M World unit :=
  match n with
  | O => ret tt
  | S n =>
      let* t := gets w_trainer in
      if t_step t <? max_steps (t_cfg t) then do* fit_body in fit_loop n else ret tt
  end.

Definition fit : M World unit :=
  let* t := gets w_trainer in
  do* fit_loop (max_steps (t_cfg t) - t_step t) in
  let* t := gets w_trainer in
  do* save (step_file (t_step t)) in
  do* assess in
  ret tt.

(** scripts/train.py: resume from the latest checkpoint, or start. *)
Definition start (fresh : bool) (cfg : TrainConfig) (fs : FS) : result Trainer :=
  match (if fresh then Ok None else latest_checkpoint fs) with
  | Raise e => Raise e
  | Ok (Some latest) => resume fs latest (Some cfg)
  | Ok None => new_trainer cfg
  end.

Definition main (fresh : bool) (cfg : TrainConfig) (fs : FS) : result (result unit * World) :=
  match start fresh cfg fs with
  | Ok t => Ok (fit (mkWorld t fs [] [fs]))
  | Raise e => Raise e
  end.
End train.

(** * Names *)

Lemma decimal_from_val fuel : ∀ n acc, n ≤ fuel →
  foldl (λ a c, 10 * a + Z.to_nat (c - 48)) 0 (decimal_from fuel n acc) = foldl (λ a c, 10 * a + Z.to_nat (c - 48)) n acc.
Proof.
  assert (∀ m, Z.to_nat (48 + Z.of_nat m - 48) = m) as Hd by lia.
  induction fuel as [|fuel IH]; intros n acc Hn; cbn [decimal_from].
  - cbn [foldl]. rw Hd. replace n with 0 by lia. done.
  - destruct (Nat.ltb_spec n 10).
    + cbn [foldl]. rw Hd Nat.mod_small //.
    + rw IH; [|pose proof (Nat.div_lt n 10 ltac:(lia) ltac:(lia)); lia]. cbn [foldl]. rw Hd.
      f_equal. pose proof (Nat.div_mod_eq n 10). lia.
Qed.

Lemma decimal_from_digits fuel : ∀ n acc, Forall (λ c, digit c = true) acc →
  Forall (λ c, digit c = true) (decimal_from fuel n acc) ∧ decimal_from fuel n acc ≠ [].
Proof.
  induction fuel as [|fuel IH]; intros n acc Ha; cbn [decimal_from];
    (assert (digit (48 + Z.of_nat (n mod 10)) = true) as Hc by
      (rw /digit; pose proof (Nat.mod_upper_bound n 10 ltac:(lia)); apply andb_true_iff; split; apply Z.leb_le; lia)).
  - split; [by constructor|done].
  - destruct (n <? 10); [split; [by constructor|done]|]. apply IH. by constructor.
Qed.

Lemma decimal6_digits n : Forall (λ c, digit c = true) (decimal6 n) ∧ decimal6 n ≠ [].
Proof.
  destruct (decimal_from_digits n n [] ltac:(constructor)) as [Hd Hne]. rw /decimal6 /decimal. split.
  - apply Forall_app. split; [by apply Forall_replicate|done].
  - by intros [_ Hnil]%app_eq_nil.
Qed.

Lemma int_decimal6 n : int_of (decimal6 n) = Ok n.
Proof.
  destruct (decimal6_digits n) as [Hd Hne]. rw /int_of. destruct (decimal6 n) as [|c s] eqn:Hs; [done|]. rw -Hs.
  rw (_ : forallb digit (decimal6 n) = true); [|by apply forallb_Forall; rw Hs; eapply Forall_impl; [exact Hd|intros ? ->]].
  f_equal. rw /decimal6 foldl_app. assert (∀ k, foldl (λ a c, 10 * a + Z.to_nat (c - 48)) 0 (replicate k 48%Z) = 0) as ->.
  { induction k; [done|]. done. }
  by rw decimal_from_val.
Qed.

Lemma rpartition_last a b : 46%Z ∉ b → rpartition (a ++ 46%Z :: b) = Some (a, b).
Proof.
  intros Hb. induction a as [|c a IH]; cbn.
  - assert (rpartition b = None) as ->; [|done]. induction b as [|c b IH]; [done|]. cbn.
    rw not_elem_of_cons in Hb. destruct Hb as [Hc Hb]. rw IH //. destruct (Z.eqb_spec c 46); [by subst|done].
  - by rw IH.
Qed.

Lemma stem_ext c a d b : 46%Z ∉ d :: b → stem ((c :: a) ++ 46%Z :: d :: b) = c :: a.
Proof. intros Hb. by rw /stem rpartition_last. Qed.

Lemma digits_no (c : Z) s : digit c = false → Forall (λ c, digit c = true) s → c ∉ s.
Proof. intros Hc Hs Hin. rw Forall_forall in Hs. apply Hs in Hin. congruence. Qed.

Lemma split_none c acc s : c ∉ s → str_split_from [c] 0 acc s = [acc ++ s].
Proof.
  revert acc. induction s as [|d s IH]; intros acc Hs; cbn; [by rw app_nil_r|].
  rw not_elem_of_cons in Hs. destruct Hs as [Hd Hs]. rw bool_decide_false; [|by intros Hp%prefix_cons_inv_1].
  rw IH //. by rw -app_assoc.
Qed.

Lemma stem_step n : stem (step_file n) = codes "step_" ++ decimal6 n.
Proof.
  rw /step_file app_assoc. change (codes ".pt") with [46; 112; 116]%Z.
  change (codes "step_") with [115; 116; 101; 112; 95]%Z.
  apply (stem_ext 115 ([116; 101; 112; 95]%Z ++ decimal6 n) 112 [116%Z]). rw !not_elem_of_cons. split_and!; [lia|lia|apply not_elem_of_nil].
Qed.

Lemma step_key_file n : step_key (step_file n) = Ok n.
Proof.
  rw /step_key stem_step. assert (str_split (codes "_") (codes "step_" ++ decimal6 n) = [codes "step"; decimal6 n]) as ->.
  - rw /str_split. cbn. rw split_none //. apply digits_no; [done|]. by apply decimal6_digits.
  - cbn. apply int_decimal6.
Qed.

Lemma step_file_inj n m : step_file n = step_file m → n = m.
Proof. intros Hf. apply (f_equal step_key) in Hf. rw !step_key_file in Hf. congruence. Qed.

Lemma step_glob_file n : step_glob (step_file n) = true.
Proof.
  rw /step_glob !andb_true_iff. split_and!.
  - apply bool_decide_eq_true. by exists (decimal6 n ++ codes ".pt").
  - apply bool_decide_eq_true. exists (codes "step_" ++ decimal6 n). by rw /step_file app_assoc.
  - apply Nat.leb_le. rw /step_file !length_app /=. lia.
Qed.

Lemma best_not_glob : step_glob best_file = false.
Proof. done. Qed.

(** The temporary name is neither a checkpoint's nor the best model's. *)
Lemma tmp_other name : step_glob (with_suffix (codes ".tmp") name) = false ∧ with_suffix (codes ".tmp") name ≠ best_file.
Proof.
  assert (last (with_suffix (codes ".tmp") name) = Some 112%Z) as Hl by (by rw /with_suffix last_app).
  split.
  - rw /step_glob. destruct (bool_decide_reflect (codes ".pt" `suffix_of` with_suffix (codes ".tmp") name)) as [[k Hk]|]; [|by rw andb_false_r].
    rw Hk last_app in Hl. done.
  - intros Heq. by rw Heq in Hl.
Qed.

(** * A stopped run is an unstopped one *)

(** Torch's documented behaviour the loop relies on: [randint] draws as many numbers as
    asked for, below the bound, and a device does not come or go. *)
Class TrainingLaws (W OS Gr Rng Crng Gen : Type) `{TorchTraining W OS Gr Rng Crng Gen} := {
  tl_randint g high n : 0 < high →
    length (tt_randint g high n).1 = n ∧ Forall (λ i, i < high) (tt_randint g high n).1;
  tl_cuda w gr s b r c : is_Some (tt_backward w gr s b r c).2 ↔ is_Some c;
}.

Section resume.
Context {W OS Gr Rng Crng Gen : Type} `{HL : TrainingLaws W OS Gr Rng Crng Gen}.
Context (memmap : list Z → list Z) (cfg : TrainConfig).
#[local] Abbreviation Trainer := (Trainer (W := W) (OS := OS) (Gr := Gr) (Rng := Rng) (Crng := Crng) (Gen := Gen)).
#[local] Abbreviation FS := (gmap (list Z) (content (W := W) (OS := OS) (Rng := Rng) (Crng := Crng) (Gen := Gen))).
#[local] Abbreviation World := (World (W := W) (OS := OS) (Gr := Gr) (Rng := Rng) (Crng := Crng) (Gen := Gen)).
Implicit Types (t : Trainer) (fs : FS) (w : World) (n : nat).

(** A configuration the loop can run with. *)
Definition runnable : Prop :=
  0 < micro_batch cfg ∧ 0 < eval_batches cfg ∧ 0 < log_every cfg ∧ 0 < eval_every cfg ∧ 0 < ckpt_every cfg ∧
  seq_len cfg < length (memmap (train_bin cfg)) ∧ seq_len cfg < length (memmap (val_bin cfg)).

Lemma next_batch_ok (d : TokenDataset) (g : Gen) n :
  0 < n → td_seq_len d < length (td_tokens d) → ∃ rows, (next_batch d g n).1 = Ok rows.
Proof.
  intros Hn Hd. rw /next_batch.
  pose proof (tl_randint g (length (td_tokens d) - td_seq_len d) n ltac:(lia)) as [Hlen Hlt].
  destruct (tt_randint g _ n) as [starts g']. cbn in *. eexists. rw /batch. apply (stack_same (td_seq_len d)).
  - intros ->%fmap_nil_inv. cbn in Hlen. lia.
  - apply Forall_fmap. eapply Forall_impl; [exact Hlt|]. intros i Hi. cbn in *. rw length_take length_drop. lia.
Qed.

Section trajectory.
Context (Hrun : runnable) (t0 : Trainer) (Ht0 : new_trainer memmap cfg = Ok t0).

(** What a process that runs this configuration has, whatever step it is at, between
    steps: no gradient is pending. *)
Definition belongs t : Prop :=
  t_cfg t = cfg ∧ t_grads t = tt_zero_grad ∧ train_data t = train_data t0 ∧ val_data t = val_data t0 ∧
  (is_Some (t_cuda t) ↔ is_Some (t_cuda t0)).

Lemma t0_data : td_seq_len (train_data t0) < length (td_tokens (train_data t0)) ∧
  td_seq_len (val_data t0) < length (td_tokens (val_data t0)) ∧ belongs t0 ∧ t_step t0 = 0 ∧ best_val t0 = None.
Proof.
  destruct Hrun as (_ & _ & _ & _ & _ & H1 & H2). move: Ht0. rw /new_trainer /new_dataset.
  destruct (tt_init _ _) as [w rng]. destruct (Nat.leb_spec (length (memmap (train_bin cfg))) (seq_len cfg)); [lia|].
  destruct (Nat.leb_spec (length (memmap (val_bin cfg))) (seq_len cfg)); [lia|]. intros [= Heq]. rw /belongs -Heq. cbn. by split_and!.
Qed.

(** Within a step: gradients accumulate. *)
Definition stepping t t1 : Prop :=
  t_cfg t1 = cfg ∧ train_data t1 = train_data t0 ∧ val_data t1 = val_data t0 ∧
  (is_Some (t_cuda t1) ↔ is_Some (t_cuda t0)) ∧ t_step t1 = t_step t ∧ best_val t1 = best_val t.

Lemma micro_step_ok t t1 : stepping t t1 → wp micro_step (λ _, stepping t) never t1.
Proof.
  intros (Hc & Htr & Hv & Hcu & Hs & Hb). rw {1}/wp /micro_step.
  destruct Hrun as (Hmb & _). destruct t0_data as (Hd & _).
  destruct (next_batch_ok (train_data t1) (data_gen t1) (micro_batch (t_cfg t1))) as [rows Hrows]; [by rw Hc|by rw Htr|].
  destruct (next_batch _ _ _) as [r g]. cbn in Hrows. subst r.
  pose proof (tl_cuda (t_model t1) (t_grads t1) (1 / of_nat_Qc (grad_accum (t_cfg t1)))%Qc rows (t_rng t1) (t_cuda t1)) as Hcb.
  destruct (tt_backward _ _ _ _ _ _) as [[[l gr] rng] cu]. cbn in *. split_and!; try done. tauto.
Qed.

Lemma train_step_ok t : belongs t →
  ∃ r t', train_step t = (Ok r, t') ∧ belongs t' ∧ t_step t' = S (t_step t) ∧ best_val t' = best_val t.
Proof.
  intros (Hc & Hg & Htr & Hv & Hcu). apply wp_never. rw /train_step. do 4 wp_step.
  set (t1 := set_weights _ _ _ t). assert (stepping t t1) as Hst by done. clearbody t1.
  wp_step. assert (∀ l t1, stepping t t1 → wp (for_list l (λ _ : nat, micro_step)) (λ _, stepping t) never t1) as Hloop.
  { intros l. induction l as [|x l IH]; intros t2 H2; [by wp_step|]. wp_step.
    eapply wp_mono; [by apply micro_step_ok| |done]. intros y t3 H3. wp_step.
    eapply wp_mono; [by apply IH| |done]. intros ls t4 H4. by wp_step. }
  eapply wp_mono; [by apply Hloop| |done]. intros ls t2 (Hc2 & Htr2 & Hv2 & Hcu2 & Hs2 & Hb2). do 2 wp_step.
  destruct (tt_clip _ _) as [gr nm]. destruct (tt_step _ _ _) as [w o]. do 5 wp_step. cbn.
  split_and!; try done. lia.
Qed.

Lemma evaluate_ok t : belongs t → ∃ v, evaluate t = Ok v.
Proof.
  intros (Hc & _ & _ & Hv & _). rw /evaluate. destruct Hrun as (Hmb & Heb & _). destruct t0_data as (_ & Hd & _).
  assert (∀ n g total, ∃ v, eval_loop t n g total = Ok v) as Hloop.
  { induction n as [|n IH]; intros g total; cbn; [by eexists|].
    destruct (next_batch_ok (val_data t) g (micro_batch (t_cfg t))) as [rows Hrows]; [by rw Hc|by rw Hv|].
    destruct (next_batch _ _ _) as [r g']. cbn in Hrows. subst r. apply IH. }
  destruct (Hloop (eval_batches (t_cfg t)) (tt_generator 0) 0%Qc) as [v ->]. rw Hc.
  destruct (Nat.eqb_spec (eval_batches cfg) 0); [lia|]. by eexists.
Qed.

(** ** The trajectory: the trainer after each step, and the best model saved by then *)

Definition improved t : bool := match evaluate t with Ok v => better v (best_val t) | Raise _ => false end.
Definition assessed t : Trainer :=
  match evaluate t with Ok v => if better v (best_val t) then set_best (Some v) t else t | Raise _ => t end.
Definition stepped t : Trainer := (train_step t).2.
Definition evals n : bool := n mod eval_every cfg =? 0.

Fixpoint ideal n : Trainer :=
  match n with
  | O => t0
  | S n => let t := stepped (ideal n) in if evals (S n) then assessed t else t
  end.
Fixpoint best_at n : option (content (W := W) (OS := OS) (Rng := Rng) (Crng := Crng) (Gen := Gen)) :=
  match n with
  | O => None
  | S n => let t := stepped (ideal n) in
           if evals (S n) && improved t then Some (Full (state_dict (assessed t))) else best_at n
  end.
Definition last_trainer : Trainer := assessed (ideal (max_steps cfg)).
Definition last_best := if improved (ideal (max_steps cfg)) then Some (Full (state_dict last_trainer)) else best_at (max_steps cfg).

Lemma assessed_belongs t : belongs t → belongs (assessed t) ∧ t_step (assessed t) = t_step t.
Proof. intros Hb. rw /assessed. destruct (evaluate t) as [v|]; [|done]. by destruct (better _ _). Qed.

Lemma stepped_ok t : belongs t → belongs (stepped t) ∧ t_step (stepped t) = S (t_step t).
Proof. intros Hb. rw /stepped. by destruct (train_step_ok t Hb) as (r & t' & -> & ? & ? & _). Qed.

Lemma ideal_ok n : belongs (ideal n) ∧ t_step (ideal n) = n.
Proof.
  induction n as [|n [IH Hs]]; [by destruct t0_data as (_ & _ & ? & ? & _)|]. cbn [ideal].
  destruct (stepped_ok _ IH) as [Hb Hs2]. rw Hs in Hs2. destruct (evals (S n)); [|done].
  destruct (assessed_belongs _ Hb) as [? ->]. done.
Qed.

(** Loading what was saved, in a new process. *)
Lemma load_saved n : load_state_dict (state_dict (ideal n)) t0 = ideal n.
Proof.
  destruct (ideal_ok n) as [(Hc & Hg & Htr & Hv & Hcu) _]. destruct t0_data as (_ & _ & (Hc0 & Hg0 & _) & _).
  rw /load_state_dict /state_dict. destruct (ideal n). cbn in *. subst. rw Hc0 Hg0. f_equal.
  destruct t_cuda0 as [r|], (t_cuda t0) as [r0|]; try done; exfalso; destruct Hcu as [Ha Hb].
  - by destruct (Ha ltac:(eauto)).
  - by destruct (Hb ltac:(eauto)).
Qed.

(** ** The directory *)

(** Checkpoints up to step [n] are on the trajectory. *)
Definition files_ok n fs : Prop := ∀ name c, step_glob name = true → fs !! name = Some c →
  ∃ k, k ≤ n ∧ name = step_file k ∧ c = Full (state_dict (ideal k)).
(** The best model is one the trajectory saves at step [n] or later: a process that
    stopped may have been ahead of the checkpoint it left. *)
Definition ahead n (b : option content) : Prop := (∃ m, n ≤ m ≤ max_steps cfg ∧ b = best_at m) ∨ b = last_best.
Definition intact n fs : Prop := n ≤ max_steps cfg ∧ files_ok n fs ∧ ahead n (fs !! best_file).
Definition crashed fs : Prop := ∃ n, intact n fs.

(** Directories with the same checkpoints and the same best model. *)
Definition agree fs fs' : Prop := ∀ name, step_glob name = true ∨ name = best_file → fs' !! name = fs !! name.

Lemma intact_agree n fs fs' : agree fs fs' → intact n fs → intact n fs'.
Proof.
  intros Ha (Hn & Hf & Hb). split_and!; [done| |by rw Ha; [|by right]].
  intros name c Hg Hc. rw Ha in Hc; [|by left]. by apply Hf.
Qed.

Lemma agree_tmp fs name c : agree fs (<[with_suffix (codes ".tmp") name := c]> fs).
Proof.
  intros x Hx. destruct (tmp_other name) as [Hg Hb]. rw lookup_insert_ne //. intros <-. destruct Hx; congruence.
Qed.

Lemma agree_trans fs1 fs2 fs3 : agree fs1 fs2 → agree fs2 fs3 → agree fs1 fs3.
Proof. intros H1 H2 name Hn. by rw H2 // H1. Qed.

(** What [save] does to the directory, step by step. *)
Lemma save_run name w :
  step_glob name = true ∨ name = best_file →
  let c := Full (state_dict (w_trainer w)) in
  ∃ fs1 fs2 fs3, save name w = (Ok tt, mkWorld (w_trainer w) fs3 (w_log w) (w_trace w ++ [fs1; fs2; fs3])) ∧
    agree (w_fs w) fs1 ∧ agree (w_fs w) fs2 ∧ agree (<[name := c]> (w_fs w)) fs3 ∧ fs3 !! name = Some c.
Proof.
  intros Hname c. destruct (tmp_other name) as [Hg Hb]. set (tmp := with_suffix (codes ".tmp") name) in *.
  eexists _, _, _. split; [|split_and!].
  - rw /save /touch /modify /bind /get. fold tmp. cbn. rw lookup_insert_eq. by rw -!app_assoc.
  - apply agree_tmp.
  - eapply agree_trans; apply agree_tmp.
  - intros x Hx. assert (x ≠ tmp) as Hne by (intros ->; destruct Hx; congruence).
    destruct (decide (x = name)) as [->|Hn]; [by rw !lookup_insert_eq|].
    by rw !lookup_insert_ne // lookup_delete_ne // !lookup_insert_ne.
  - by rw lookup_insert_eq.
Qed.

(** A process at step [n] of the trajectory, whatever happened in the directory so far. *)
Definition on_track n w : Prop := w_trainer w = ideal n ∧ intact n (w_fs w) ∧ Forall crashed (w_trace w).

Lemma save_step_spec n w :
  w_trainer w = ideal n → (∃ m, m ≤ n ∧ intact m (w_fs w)) → ahead n (w_fs w !! best_file) → n ≤ max_steps cfg →
  Forall crashed (w_trace w) →
  wp (save (step_file n)) (λ _ w', on_track n w' ∧ w_fs w' !! step_file n = Some (Full (state_dict (ideal n))) ∧
    w_fs w' !! best_file = w_fs w !! best_file) never w.
Proof.
  intros Ht (m & Hm & Hint) Hah Hn Htr.
  destruct (save_run (step_file n) w) as (fs1 & fs2 & fs3 & Hrun' & H1 & H2 & H3 & H4); [left; apply step_glob_file|].
  rw /wp Hrun' -Ht. cbn.
  assert (step_file n ≠ best_file) as Hne by (intros Heq; pose proof (step_glob_file n) as Hg; by rw Heq in Hg).
  assert (fs3 !! best_file = w_fs w !! best_file) as Hbest by (rw H3; [by rw lookup_insert_ne|by right]).
  assert (intact n fs3) as H5.
  { split_and!; [done| |by rw Hbest]. intros name c Hg Hc. rw H3 in Hc; [|by left].
    destruct (decide (name = step_file n)) as [->|Hx].
    - rw lookup_insert_eq in Hc. simplify_eq. exists n. by rw Ht.
    - rw lookup_insert_ne // in Hc. destruct Hint as (_ & Hf & _). destruct (Hf _ _ Hg Hc) as (k & Hk & Hrest). exists k. split; [lia|done]. }
  split; [split_and!; try done|by split]. cbn. rw Forall_app !Forall_cons. split_and!; try done; [exists m; by eapply intact_agree|exists m; by eapply intact_agree|by exists n].
Qed.

Lemma assess_spec t m w :
  belongs t → w_trainer w = t → intact m (w_fs w) → Forall crashed (w_trace w) →
  (improved t = true → ahead m (Some (Full (state_dict (assessed t))))) →
  wp assess (λ _ w', w_trainer w' = assessed t ∧ intact m (w_fs w') ∧ Forall crashed (w_trace w') ∧
    w_fs w' !! best_file = (if improved t then Some (Full (state_dict (assessed t))) else w_fs w !! best_file) ∧
    ∀ name, step_glob name = true → w_fs w' !! name = w_fs w !! name) never w.
Proof.
  intros Hb Ht Hint Htr. destruct (evaluate_ok t Hb) as [v Hv]. rw /improved /assessed Hv. intros Hah.
  rw /assess. do 2 wp_step. rw Ht Hv. wp_step. destruct (better v (best_val t)); [|by do 2 wp_step].
  wp_step. rw /on_trainer. do 2 wp_step. rw Ht. set (w1 := mkWorld _ _ _ _).
  destruct (save_run best_file w1) as (fs1 & fs2 & fs3 & Hrun' & H1 & H2 & H3 & H4); [by right|].
  rw {1}/wp Hrun'. wp_step. cbn in *. specialize (Hah eq_refl).
  assert (∀ name, step_glob name = true → fs3 !! name = w_fs w !! name) as Hsteps.
  { intros name Hg. rw H3; [|by left]. rw lookup_insert_ne //. intros <-. done. }
  destruct Hint as (Hm & Hf & Ha).
  assert (intact m fs3) as H5 by (split_and!; [done|intros name c Hg; rw Hsteps //; by apply Hf|by rw H4]).
  assert (∀ fs', agree (w_fs w) fs' → crashed fs') as Hc by (intros fs' Hag; exists m; by eapply intact_agree).
  split_and!; try done. rw Forall_app !Forall_cons. split_and!; try done; [by apply Hc|by apply Hc|by exists m].
Qed.

Lemma mapR_keyed (l : list (list Z)) : (∀ name, name ∈ l → ∃ k, name = step_file k) →
  ∃ ks, mapR keyed l = Ok ks ∧ ks.*2 = l ∧ Forall (λ p, p.2 = step_file p.1) ks.
Proof.
  induction l as [|name l IH]; intros Hl; [by exists []|]. destruct (Hl name ltac:(by left)) as [k ->].
  destruct IH as (ks & Hks & H2 & HF); [intros; apply Hl; by right|].
  exists ((k, step_file k) :: ks). cbn. rw {1}/keyed step_key_file Hks H2. split_and!; try done. by constructor.
Qed.

Lemma elem_step_files fs name : name ∈ step_files fs ↔ step_glob name = true ∧ is_Some (fs !! name).
Proof.
  rw /step_files list_elem_of_filter list_elem_of_fmap. split; intros [Hg Hin]; (split; [done|]).
  - destruct Hin as ([k c] & -> & Hin). exists c. by apply (elem_of_map_to_list (M := gmap (list Z))) in Hin.
  - destruct Hin as [c Hc]. exists (name, c). split; [done|]. by apply (elem_of_map_to_list (M := gmap (list Z))).
Qed.

Lemma keyed_files n fs : files_ok n fs →
  ∃ ks, mapR keyed (step_files fs) = Ok ks ∧ ks.*2 = step_files fs ∧ Forall (λ p, p.2 = step_file p.1) ks.
Proof.
  intros Hf. apply mapR_keyed. intros name [Hg [c Hc]]%elem_step_files.
  destruct (Hf _ _ Hg Hc) as (k & _ & -> & _). by exists k.
Qed.

Lemma intact_delete n fs name : name ≠ best_file → intact n fs → intact n (delete name fs).
Proof.
  intros Hne (Hn & Hf & Hb). split_and!; [done| |by rw lookup_delete_ne].
  intros x c Hg [_ Hc]%lookup_delete_Some. by apply Hf.
Qed.

Lemma deletes_spec n (olds : list (nat * list Z)) b : ∀ w,
  Forall (λ p, p.2 = step_file p.1) olds → on_track n w → w_fs w !! best_file = b →
  wp (for_each olds (λ p, touch (delete p.2))) (λ _ w', on_track n w' ∧ w_fs w' !! best_file = b) never w.
Proof.
  induction olds as [|p olds IH]; intros w Ho Hw Hb; [by wp_step|]. wp_step. rw {1}/touch. wp_step.
  apply Forall_cons in Ho as [Hp Ho]. destruct Hw as (Ht & Hint & Htr).
  assert (p.2 ≠ best_file) as Hne.
  { intros Heq. pose proof (step_glob_file p.1) as Hg. by rw -Hp Heq in Hg. }
  pose proof (intact_delete n (w_fs w) p.2 Hne Hint) as Hd.
  apply IH; [done| |by rw /= lookup_delete_ne]. split_and!; [done|done|]. cbn. apply Forall_app. split; [done|].
  constructor; [by exists n|constructor].
Qed.

Lemma prune_spec n w : on_track n w →
  wp prune_checkpoints (λ _ w', on_track n w' ∧ w_fs w' !! best_file = w_fs w !! best_file) never w.
Proof.
  intros Hw. pose proof Hw as (Ht & (Hn & Hf & _) & _). rw /prune_checkpoints. do 2 wp_step.
  destruct (keyed_files n _ Hf) as (ks & -> & H2 & HF). apply deletes_spec; [|done|done].
  destruct (_ =? 0); [constructor|]. apply Forall_take. by rw merge_sort_Permutation.
Qed.

(** ** The loop *)

Lemma every_ok k n Q w : 0 < k → Q (n mod k =? 0) w → wp (every k n) Q never w.
Proof. intros Hk HQ. rw /every. by destruct (Nat.eqb_spec k 0); [lia|]. Qed.

Lemma best_step n : best_at (S n) = (if evals (S n) && improved (stepped (ideal n))
  then Some (Full (state_dict (assessed (stepped (ideal n))))) else best_at n).
Proof. done. Qed.

(** A step that saves no best model leaves the file where the trajectory wants it. *)
Lemma ahead_keep n b : n < max_steps cfg → evals (S n) && improved (stepped (ideal n)) = false → ahead n b → ahead (S n) b.
Proof.
  intros Hn Hno [(m & Hm & ->)| ->]; [|by right]. left. destruct (decide (m = n)) as [->|Hne].
  - exists (S n). split; [lia|]. by rw best_step Hno.
  - exists m. split; [lia|done].
Qed.

Lemma ideal_step n : ideal (S n) = if evals (S n) then assessed (stepped (ideal n)) else stepped (ideal n).
Proof. done. Qed.

Lemma ideal_assessed n : evals (S n) = true → ideal (S n) = assessed (stepped (ideal n)).
Proof. by rw ideal_step => ->. Qed.

(** The middle of the body: evaluation, when it is due. *)
Lemma evaluation_spec n w :
  n < max_steps cfg → w_trainer w = stepped (ideal n) → intact n (w_fs w) → Forall crashed (w_trace w) →
  wp (if S n mod eval_every cfg =? 0 then let* val := assess in log (LogVal (S n) val) else ret tt)
     (λ _ w', w_trainer w' = ideal (S n) ∧ intact n (w_fs w') ∧ ahead (S n) (w_fs w' !! best_file) ∧
        Forall crashed (w_trace w')) never w.
Proof.
  intros Hn Ht Hint Htr. destruct (stepped_ok _ (proj1 (ideal_ok n))) as [Hb _]. pose proof Hint as (_ & _ & Hah).
  rw ideal_step /evals. destruct (S n mod eval_every cfg =? 0) eqn:He.
  - assert (evals (S n) = true) as Hev by exact He.
    wp_step. eapply wp_mono; [apply (assess_spec (stepped (ideal n)) n); try done| |done].
    + intros Hi. left. exists (S n). split; [lia|]. by rw best_step Hev Hi.
    + intros v w' (Ht' & Hint' & Htr' & Hbest & _). rw /log. wp_step. cbn. split_and!; try done. rw Hbest.
      destruct (improved (stepped (ideal n))) eqn:Hi.
      * left. exists (S n). split; [lia|]. by rw best_step Hev Hi.
      * apply ahead_keep; [done| |done]. by rw Hi andb_false_r.
  - assert (evals (S n) = false) as Hev by exact He. wp_step. split_and!; try done.
    apply ahead_keep; [done|by rw Hev|done].
Qed.

Lemma fit_body_spec n w : n < max_steps cfg → on_track n w → wp fit_body (λ _, on_track (S n)) never w.
Proof.
  intros Hn (Ht & Hint & Htr). destruct Hrun as (_ & _ & Hlog & Hev & Hck & _). destruct (ideal_ok n) as [Hb Hs].
  destruct (train_step_ok _ Hb) as ([loss norm] & t' & Hrun' & Hb' & Hs' & _). rw Hs in Hs'.
  assert (stepped (ideal n) = t') as Hst by (by rw /stepped Hrun').
  rw /fit_body. wp_step. rw /on_trainer. wp_step. rw {1}/wp Ht Hrun'. wp_step. wp_step. cbn.
  pose proof Hb' as (Hc' & _). rw Hc' Hs'. set (w1 := mkWorld _ _ _ _).
  wp_step. apply every_ok; [done|]. wp_step.
  assert (wp (if S n mod log_every cfg =? 0 then log (LogStep (S n) loss (tt_get_lr (t_opt t')) norm (tokens_seen t')) else ret tt)
    (λ _ w', w_trainer w' = stepped (ideal n) ∧ intact n (w_fs w') ∧ Forall crashed (w_trace w')) never w1) as Hlogged.
  { rw Hst. by destruct (_ =? 0). }
  eapply wp_mono; [exact Hlogged| |done]. intros _ w2 (Ht2 & Hint2 & Htr2).
  wp_step. apply every_ok; [done|]. wp_step. eapply wp_mono; [by apply (evaluation_spec n)| |done].
  intros _ w3 (Ht3 & Hint3 & Hah3 & Htr3). wp_step. apply every_ok; [done|].
  clear Hlogged. destruct (S n mod ckpt_every cfg =? 0).
  - wp_step. eapply wp_mono; [apply (save_step_spec (S n)); try done; [exists n; split; [lia|done]]| |done].
    intros _ w4 (Hw4 & _). eapply wp_mono; [by apply prune_spec| |done]. by intros _ w5 [? _].
  - wp_step. split; [done|]. split; [|done]. destruct Hint3 as (_ & Hf3 & _). split_and!; [lia| |done]. intros name c Hg Hc.
    destruct (Hf3 _ _ Hg Hc) as (k & Hk & Hrest). exists k. split; [lia|done].
Qed.

Lemma fit_loop_spec m : ∀ n w, n + m = max_steps cfg → on_track n w → wp (fit_loop m) (λ _, on_track (max_steps cfg)) never w.
Proof.
  induction m as [|m IH]; intros n w Hm Hw; cbn [fit_loop].
  - wp_step. by replace (max_steps cfg) with n by lia.
  - do 2 wp_step. pose proof Hw as (Ht & _). destruct (ideal_ok n) as [(Hc & _) Hs]. rw Ht Hs Hc.
    destruct (Nat.ltb_spec n (max_steps cfg)); [|lia]. wp_step.
    eapply wp_mono; [by apply (fit_body_spec n); [lia|]| |done]. intros u w' Hw'. apply (IH (S n)); [lia|done].
Qed.

(** Where every run ends. *)
Definition finished_ok w : Prop :=
  w_trainer w = last_trainer ∧ w_fs w !! best_file = last_best ∧
  w_fs w !! step_file (max_steps cfg) = Some (Full (state_dict (ideal (max_steps cfg)))) ∧ Forall crashed (w_trace w).

Lemma fit_spec n w : on_track n w → wp fit (λ _, finished_ok) never w.
Proof.
  intros Hw. pose proof Hw as (Ht & (Hn & _) & _). destruct (ideal_ok n) as [(Hc & _) Hs]. rw /fit. do 2 wp_step. rw Ht Hc Hs.
  wp_step. eapply wp_mono; [apply (fit_loop_spec _ n); [lia|done]| |done]. intros u w1 Hw1.
  pose proof Hw1 as (Ht1 & Hint1 & Htr1). destruct (ideal_ok (max_steps cfg)) as [Hb1 Hs1]. do 2 wp_step. rw Ht1 Hs1.
  wp_step. eapply wp_mono; [apply save_step_spec; try done; [by exists (max_steps cfg)|apply Hint1]| |done].
  intros _ w2 ((Ht2 & Hint2 & Htr2) & Hfile & Hbest). wp_step.
  eapply wp_mono; [apply (assess_spec _ _ _ Hb1 Ht2 Hint2 Htr2)| |done].
  - intros Hi. right. by rw /last_best Hi.
  - intros v w3 (Ht3 & Hint3 & Htr3 & Hbest3 & Hsteps). wp_step. split_and!; try done.
    + rw Hbest3 /last_best. destruct (improved _) eqn:Hi; [done|]. destruct Hint2 as (_ & _ & [(m & Hm & Hmb)|Hlb]).
      * rw Hmb. by replace m with (max_steps cfg) by lia.
      * by rw Hlb /last_best Hi.
    + by rw Hsteps; [|apply step_glob_file].
Qed.

(** ** Starting again *)

Lemma latest_max (l : list (nat * list Z)) : ∀ p,
  let b := foldl later p l in b ∈ p :: l ∧ ∀ q, q ∈ p :: l → q.1 ≤ b.1.
Proof.
  induction l as [|q l IH]; intros p; cbn [foldl].
  { split; [by left|]. intros q [-> | []%not_elem_of_nil]%elem_of_cons. done. }
  destruct (IH (later p q)) as [Hin Hmax]. cbn zeta in *. set (b := foldl later _ l) in *.
  assert (later p q = p ∧ q.1 ≤ p.1 ∨ later p q = q ∧ p.1 ≤ q.1) as Hl.
  { rw /later. destruct (Nat.ltb_spec p.1 q.1); [right|left]; (split; [done|lia]). }
  pose proof (Hmax _ ltac:(by left)) as H1. split.
  - apply elem_of_cons in Hin as [->|Hin]; [|by right; right]. destruct Hl as [[-> _]|[-> _]]; [by left|right; by left].
  - intros x [->|[->|Hx]%elem_of_cons]%elem_of_cons; [|by destruct Hl as [[Hl ?]|[Hl ?]]; rw Hl in H1; lia|apply Hmax; by right].
    destruct Hl as [[Hl ?]|[Hl ?]]; rw Hl in H1; lia.
Qed.

Lemma start_spec fs : crashed fs → ∃ n, start memmap false cfg fs = Ok (ideal n) ∧ intact n fs.
Proof.
  intros (n & Hn & Hf & Hah). rw /start /latest_checkpoint. destruct (keyed_files n fs Hf) as (ks & -> & H2 & HF).
  destruct ks as [|p ks].
  - exists 0. rw Ht0. split; [done|]. split_and!; [lia| |].
    + intros name c Hg Hc. exfalso. assert (name ∈ step_files fs) as Hin by (apply elem_step_files; by split; [|exists c]).
      rw -H2 in Hin. by apply not_elem_of_nil in Hin.
    + destruct Hah as [(m & Hm & ->)|?]; [|by right]. left. exists m. split; [lia|done].
  - destruct (latest_max ks p) as [Hin Hmax]. set (b := foldl _ p ks) in *.
    rw Forall_forall in HF. pose proof (HF _ Hin) as Hb.
    assert (b.2 ∈ step_files fs) as [Hg [c Hc]]%elem_step_files by (rw -H2; by apply list_elem_of_fmap_2).
    destruct (Hf _ _ Hg Hc) as (k & Hk & Hname & ->). rw Hb in Hname. apply step_file_inj in Hname.
    exists k. rw /resume Hc /= Ht0. split; [by rw load_saved|]. split_and!; [lia| |].
    + intros name c Hg' Hc'. destruct (Hf _ _ Hg' Hc') as (j & Hj & -> & ->). exists j. split_and!; try done.
      assert (step_file j ∈ step_files fs) as Hjf by (apply elem_step_files; eauto). rw -H2 in Hjf.
      apply list_elem_of_fmap in Hjf as (q & Hq & Hqin). pose proof (Hmax _ Hqin) as Hle.
      rw (HF _ Hqin) in Hq. apply step_file_inj in Hq. lia.
    + destruct Hah as [(m & Hm & ->)|?]; [|by right]. left. exists m. split; [lia|done].
Qed.

Lemma main_spec fs : crashed fs → ∃ w, main memmap false cfg fs = Ok (Ok tt, w) ∧ finished_ok w.
Proof.
  intros Hc. destruct (start_spec fs Hc) as (n & Hs & Hint). rw /main Hs.
  assert (on_track n (mkWorld (ideal n) fs [] [fs])) as Hw by (split_and!; [done|done|]; repeat constructor; by exists n).
  apply (fit_spec n), wp_never in Hw as ([] & w & Hf & Hfin). exists w. by rw Hf.
Qed.

Lemma crashed_empty : crashed ∅.
Proof.
  exists 0. split_and!; [lia|by intros name c _ Hc|]. left. exists 0. split; [lia|done].
Qed.
End trajectory.
End resume.

(** What stopped processes leave: each was started on what the one before it left, and
    stopped between two operations on the directory. *)
Inductive left_behind {W OS Gr Rng Crng Gen} `{TorchTraining W OS Gr Rng Crng Gen} (memmap : list Z → list Z) (cfg : TrainConfig) :
    gmap (list Z) (content (W := W) (OS := OS) (Rng := Rng) (Crng := Crng) (Gen := Gen)) → Prop :=
  | nothing_left : left_behind memmap cfg ∅
  | stopped_left fs r w fs' :
      left_behind memmap cfg fs → main (Gr := Gr) memmap false cfg fs = Ok (r, w) → fs' ∈ w_trace w →
      left_behind memmap cfg fs'.

Section left.
Context {W OS Gr Rng Crng Gen : Type} `{HL : TrainingLaws W OS Gr Rng Crng Gen}.
Context (memmap : list Z → list Z) (cfg : TrainConfig) (Hrun : runnable memmap cfg).

Lemma trainer_exists : ∃ t0, new_trainer (W := W) memmap cfg = Ok t0.
Proof.
  destruct Hrun as (_ & _ & _ & _ & _ & H1 & H2). rw /new_trainer /new_dataset. destruct (tt_init _ _) as [w rng].
  destruct (Nat.leb_spec (length (memmap (train_bin cfg))) (seq_len cfg)); [lia|].
  destruct (Nat.leb_spec (length (memmap (val_bin cfg))) (seq_len cfg)); [lia|]. by eexists.
Qed.

Lemma left_crashed t0 fs : new_trainer memmap cfg = Ok t0 → left_behind memmap cfg fs → crashed cfg t0 fs.
Proof.
  intros Ht0. induction 1 as [|fs r w fs' _ IH Hm Hin]; [apply crashed_empty|].
  destruct (main_spec memmap cfg Hrun t0 Ht0 fs IH) as (w' & Hm' & _ & _ & _ & Htr).
  rw Hm in Hm'. simplify_eq. rw Forall_forall in Htr. by apply Htr.
Qed.

Lemma best_full t0 n : best_at cfg t0 n ≠ Some Partial.
Proof. induction n as [|n IH]; [done|]. cbn. by destruct (_ && _). Qed.

Lemma crashed_full t0 fs name : crashed cfg t0 fs → step_glob name = true ∨ name = best_file → fs !! name ≠ Some Partial.
Proof.
  intros (n & _ & Hf & Hah) [Hg| ->] Hp.
  - by destruct (Hf _ _ Hg Hp) as (k & _ & _ & ?).
  - rw Hp in Hah. destruct Hah as [(m & _ & Hb)|Hb]; [by apply (best_full t0 m)|].
    move: Hb. rw /last_best. destruct (improved _); [done|]. intros Hb. by apply (best_full t0 (max_steps cfg)).
Qed.
End left.

(** C11: stopping makes no difference.  Let training be stopped between any two operations
    on the checkpoint directory - in the middle of writing a checkpoint, before its
    rename, while old ones are pruned, between the best model and the step's checkpoint -
    and started again from what it left, any number of times.  The last process then runs
    to the end, without an exception, and ends with the same weights, optimizer state,
    generator and random states, counters and best loss as a run that was never stopped,
    the same best model in [best.pt] and the same final checkpoint; and no directory left
    behind holds a half-written file under a name that is ever loaded. *)
Theorem resume_exact {W OS Gr Rng Crng Gen} `{TrainingLaws W OS Gr Rng Crng Gen} memmap cfg :
  runnable memmap cfg →
  ∃ w0, main (W := W) (Gr := Gr) memmap false cfg ∅ = Ok (Ok tt, w0) ∧ t_step (w_trainer w0) = max_steps cfg ∧
    ∀ fs, left_behind memmap cfg fs →
      (∀ name, step_glob name = true ∨ name = best_file → fs !! name ≠ Some Partial) ∧
      ∃ w, main memmap false cfg fs = Ok (Ok tt, w) ∧ w_trainer w = w_trainer w0 ∧
        w_fs w !! best_file = w_fs w0 !! best_file ∧
        w_fs w !! step_file (max_steps cfg) = w_fs w0 !! step_file (max_steps cfg).
Proof.
  intros Hrun. destruct (trainer_exists memmap cfg Hrun) as [t0 Ht0].
  destruct (main_spec memmap cfg Hrun t0 Ht0 ∅ (crashed_empty cfg t0)) as (w0 & Hm0 & Ht & Hb & Hs & _).
  exists w0. split_and!; [done| |].
  - destruct (ideal_ok memmap cfg Hrun t0 Ht0 (max_steps cfg)) as [Hbel Hst].
    rw Ht /last_trainer. by destruct (assessed_belongs cfg t0 _ Hbel) as [_ ->].
  - intros fs Hl. pose proof (left_crashed memmap cfg Hrun t0 fs Ht0 Hl) as Hc. split; [intros name; by eapply crashed_full|].
    destruct (main_spec memmap cfg Hrun t0 Ht0 fs Hc) as (w & Hm & Ht' & Hb' & Hs' & _).
    exists w. by rw Ht Hb Hs.
Qed.

(** A run of three steps on a toy optimizer, stopped while its first checkpoint is being
    written. *)
Module ToyTraining.
Definition randint (g : Z) (high n : nat) : list nat * Z := (replicate n (Z.to_nat g mod high), (g + 1)%Z).
#[global] Instance torch : TorchTraining Z Z Z Z unit Z := {|
  tt_manual_seed := λ s, s;
  tt_cuda_seed := λ _, None;
  tt_generator := λ s, s;
  tt_randint := randint;
  tt_init := λ _ r, (0, r + 1)%Z;
  tt_adamw := λ _ _ _ _, 0%Z;
  tt_set_lr := λ _ o, o;
  tt_get_lr := λ _, 0%Qc;
  tt_zero_grad := 0%Z;
  tt_backward := λ w g _ b r c, (0%Qc, (g + foldr Z.add 0 (concat b))%Z, (r + 1)%Z, c);
  tt_clip := λ g _, (g, 0%Qc);
  tt_step := λ w o g, (w + g, o + 1)%Z;
  tt_loss := λ w _, Q2Qc (inject_Z (- w));
  tt_cos_pi := λ x, (1 - x - x)%Qc;
|}.
#[global] Instance laws : TrainingLaws Z Z Z Z unit Z.
Proof.
  split; [|done]. intros g high n Hh. cbn. split; [apply length_replicate|]. apply Forall_replicate, Nat.mod_upper_bound. lia.
Qed.
Definition config : TrainConfig :=
  mkTrainConfig [] [] 2 1 2 1%Qc 0%Qc 1 0%Qc (0%Qc, 0%Qc) 1%Qc 3 2 1 1 2 1 7 TINY.
Definition corpus (_ : list Z) : list Z := [1; 2; 3; 4; 5]%Z.
Definition straight := main corpus false config ∅.
(** The directory with a partial checkpoint of step 2 beside the best model. *)
Definition stopped := match straight with Ok (_, w) => default ∅ (w_trace w !! 4) | Raise _ => ∅ end.
End ToyTraining.

Lemma resume_exact_witness :
  ToyTraining.stopped !! with_suffix (codes ".tmp") (step_file 2) = Some Partial ∧
  ToyTraining.stopped !! best_file ≠ None ∧
  ∃ w0 w, ToyTraining.straight = Ok (Ok tt, w0) ∧ main ToyTraining.corpus false ToyTraining.config ToyTraining.stopped = Ok (Ok tt, w) ∧
    w_trainer w = w_trainer w0.
Proof.
  split; [vm_compute; reflexivity|]. split; [vm_compute; discriminate|].
  destruct (resume_exact ToyTraining.corpus ToyTraining.config) as (w0 & H0 & _ & H).
  - cbv. lia.
  - destruct (H ToyTraining.stopped) as (_ & w & Hw & Ht & _).
    + eapply stopped_left; [apply nothing_left|exact H0|]. unfold ToyTraining.stopped, ToyTraining.straight. rw H0.
      apply list_elem_of_lookup_2 with 4. revert H0. vm_compute. intros [= <-]. reflexivity.
    + exists w0, w. split; [exact H0|]. split; [exact Hw|exact Ht].
Defined.

(** ** Pruning *)

Section pruning.
Context {W OS Gr Rng Crng Gen : Type}.
#[local] Abbreviation FS := (gmap (list Z) (content (W := W) (OS := OS) (Rng := Rng) (Crng := Crng) (Gen := Gen))).
#[local] Abbreviation World := (World (W := W) (OS := OS) (Gr := Gr) (Rng := Rng) (Crng := Crng) (Gen := Gen)).
Implicit Types (fs : FS) (w : World) (ks : list (nat * list Z)).

(** How many step files have a number larger than [n]. *)
Definition newer fs (n : nat) : nat :=
  length (filter (λ name, match step_key name with Ok m => n <? m | Raise _ => false end = true) (step_files fs)).

(** All files matching the pattern are checkpoints. *)
Definition only_steps fs : Prop := ∀ name, step_glob name = true → is_Some (fs !! name) → ∃ n, name = step_file n.

Lemma newer_keys fs n ks : ks.*2 = step_files fs → Forall (λ p, p.2 = step_file p.1) ks →
  newer fs n = length (filter (λ p, n < p.1) ks).
Proof.
  rw /newer. intros <-. induction 1 as [|p ks Hp _ IH]; [done|]. rw fmap_cons !filter_cons Hp step_key_file.
  destruct (Nat.ltb_spec n p.1); repeat case_decide; try done; try lia. cbn. by rw IH.
Qed.

(** In a sorted list with distinct keys, what comes after is what is larger. *)
Lemma sorted_after l1 p l2 :
  StronglySorted key_le (l1 ++ p :: l2) → NoDup (l1 ++ p :: l2).*1 → filter (λ q, p.1 < q.1) (l1 ++ p :: l2) = l2.
Proof.
  intros Hs Hnd. rw filter_app filter_cons decide_False; [|lia].
  rw (_ : filter (λ q, p.1 < q.1) l1 = []) /=; last first.
  { apply list_filter_none. intros q Hq Hlt.
    pose proof (StronglySorted_app_1_elem_of _ _ _ q p Hs Hq ltac:(by left)) as Hle. rw /key_le in Hle. lia. }
  apply list_filter_id. intros q Hq. apply StronglySorted_app_1_r, StronglySorted_cons in Hs as [Hall _].
  rw Forall_forall in Hall. pose proof (Hall _ Hq) as Hle. rw /key_le in Hle.
  rw fmap_app fmap_cons NoDup_app NoDup_cons in Hnd. destruct Hnd as (_ & _ & Hni & _).
  assert (p.1 ≠ q.1); [|lia]. intros Heq. apply Hni. rw Heq. by apply list_elem_of_fmap_2.
Qed.

Lemma deletes_run (olds : list (nat * list Z)) : ∀ w, ∃ w',
  for_each olds (λ p, touch (delete p.2)) w = (Ok tt, w') ∧ w_trainer w' = w_trainer w ∧
  ∀ name, w_fs w' !! name = if decide (name ∈ olds.*2) then None else w_fs w !! name.
Proof.
  induction olds as [|p olds IH]; intros w; [by exists w|].
  destruct (IH (mkWorld (w_trainer w) (delete p.2 (w_fs w)) (w_log w) (w_trace w ++ [delete p.2 (w_fs w)]))) as (w' & Hw & Ht & Hl).
  exists w'. split; [exact Hw|]. split; [done|]. intros name. rw Hl. cbn [fmap list_fmap w_fs].
  destruct (decide (name ∈ olds.*2)) as [Hin|Hin]; [rw decide_True //; by right|].
  destruct (decide (name = p.2)) as [->|Hne]; [rw lookup_delete_eq decide_True //; by left|].
  rw lookup_delete_ne // decide_False //. by intros [?|?]%elem_of_cons.
Qed.

Lemma keyed_only fs : only_steps fs →
  ∃ ks, mapR keyed (step_files fs) = Ok ks ∧ ks.*2 = step_files fs ∧ Forall (λ p, p.2 = step_file p.1) ks ∧ NoDup ks.*1.
Proof.
  intros Ho. destruct (mapR_keyed (step_files fs)) as (ks & Hks & H2 & HF).
  { intros name [Hg Hin]%elem_step_files. by apply Ho. }
  exists ks. split_and!; try done.
  assert (NoDup ks.*2) as Hnd by (rw H2; apply NoDup_filter, (NoDup_fst_map_to_list (M := gmap (list Z)))).
  clear -HF Hnd. induction HF as [|p ks Hp HF IH]; [constructor|]. rw !fmap_cons !NoDup_cons in Hnd |- *.
  destruct Hnd as [Hni Hnd]. split; [|by apply IH]. intros (q & Heq & Hq)%list_elem_of_fmap. apply Hni.
  rw Hp Heq. rw Forall_forall in HF. rw -(HF _ Hq). by apply list_elem_of_fmap_2.
Qed.

Lemma olds_newer fs ks k n :
  ks.*2 = step_files fs → Forall (λ p, p.2 = step_file p.1) ks → NoDup ks.*1 →
  let ckpts := merge_sort key_le ks in
  step_file n ∈ (if k =? 0 then [] else take (length ckpts - k) ckpts).*2 ↔
  is_Some (fs !! step_file n) ∧ k ≠ 0 ∧ k ≤ newer fs n.
Proof.
  intros H2 HF Hnd ckpts. assert (ckpts ≡ₚ ks) as Hperm by apply merge_sort_Permutation.
  rw (newer_keys fs n ks H2 HF). destruct (Nat.eqb_spec k 0) as [->|Hk].
  { split; [by intros ?%not_elem_of_nil|by intros (_ & ? & _)]. }
  assert (is_Some (fs !! step_file n) ↔ (n, step_file n) ∈ ckpts) as ->.
  { transitivity (step_file n ∈ ks.*2).
    - rw H2 elem_step_files. by split; [intros; split; [apply step_glob_file|]|intros [_ ?]].
    - rw Hperm list_elem_of_fmap. split; [|by intros; exists (n, step_file n)]. intros ([m s] & Hs & Hin).
      rw Forall_forall in HF. pose proof (HF _ Hin) as Hms. cbn in *. subst. apply step_file_inj in Hms as ->. done. }
  assert (length (filter (λ p, n < p.1) ks) = length (filter (λ p, n < p.1) ckpts)) as -> by by rw Hperm.
  assert (StronglySorted key_le ckpts) as Hs.
  { apply Sorted_StronglySorted; [intros ???; rw /key_le; lia|]. apply Sorted_merge_sort. intros p q. rw /key_le. lia. }
  assert (NoDup ckpts.*1) as Hndc by by rw Hperm. assert (Forall (λ p, p.2 = step_file p.1) ckpts) as HFc by by rw Hperm.
  clearbody ckpts. split.
  - intros (p & Hp & Hin)%list_elem_of_fmap. apply elem_of_take in Hin as (i & Hi & Hlt).
    assert (p = (n, step_file n)) as ->.
    { pose proof (Forall_lookup_1 _ _ _ _ HFc Hi) as Hpf. destruct p as [m s]. cbn in *. subst. by apply step_file_inj in Hpf as ->. }
    split; [by eapply list_elem_of_lookup_2|]. split; [done|].
    pose proof (take_drop_middle _ _ _ Hi) as Hsplit. rw -Hsplit in Hs Hndc. pose proof (sorted_after _ _ _ Hs Hndc) as Hf.
    rw Hsplit in Hf. cbn in Hf. rw Hf length_drop. lia.
  - intros ([i Hi]%list_elem_of_lookup & _ & Hge). apply list_elem_of_fmap. exists (n, step_file n). split; [done|].
    apply elem_of_take. exists i. split; [done|]. pose proof (lookup_lt_Some _ _ _ Hi).
    pose proof (take_drop_middle _ _ _ Hi) as Hsplit. rw -Hsplit in Hs Hndc. pose proof (sorted_after _ _ _ Hs Hndc) as Hf.
    rw Hsplit in Hf. cbn in Hf. rw Hf length_drop in Hge. lia.
Qed.

Lemma latest_newest fs ks n :
  mapR keyed (step_files fs) = Ok ks → ks.*2 = step_files fs → Forall (λ p, p.2 = step_file p.1) ks →
  latest_checkpoint fs = Ok (Some (step_file n)) → newer fs n = 0.
Proof.
  intros Hks H2 HF. rw /latest_checkpoint Hks (newer_keys fs n ks H2 HF). destruct ks as [|p ks]; [done|]. intros [= Hb].
  destruct (latest_max ks p) as [Hin Hmax]. set (b := foldl later p ks) in *.
  rw Forall_forall in HF. rw (HF _ Hin) in Hb. apply step_file_inj in Hb. apply length_zero_iff_nil, list_filter_none.
  intros q Hq Hlt. pose proof (Hmax _ Hq). lia.
Qed.
End pruning.

(** Pruning keeps the newest.  Where every file matching [step_*.pt] is a checkpoint,
    [prune_checkpoints] raises nothing; with [keep_last] zero it removes nothing; otherwise
    a step's checkpoint stays, unchanged, exactly when fewer than [keep_last] have larger
    numbers, so the one a restart would load is never removed; and no other file,
    [best.pt] included, is touched. *)
Theorem prune_exact {W OS Gr Rng Crng Gen} (w : World (W := W) (OS := OS) (Gr := Gr) (Rng := Rng) (Crng := Crng) (Gen := Gen)) :
  only_steps (w_fs w) →
  let k := keep_last (t_cfg (w_trainer w)) in
  ∃ w', prune_checkpoints w = (Ok tt, w') ∧
    (∀ n, w_fs w' !! step_file n = if (k =? 0) || (newer (w_fs w) n <? k) then w_fs w !! step_file n else None) ∧
    (∀ name, step_glob name = false → w_fs w' !! name = w_fs w !! name) ∧
    (∀ n, latest_checkpoint (w_fs w) = Ok (Some (step_file n)) → w_fs w' !! step_file n = w_fs w !! step_file n).
Proof.
  intros Ho k. destruct (keyed_only _ Ho) as (ks & Hks & H2 & HF & Hnd).
  set (ckpts := merge_sort key_le ks). assert (ckpts ≡ₚ ks) as Hperm by apply merge_sort_Permutation.
  set (olds := if k =? 0 then [] else take (length ckpts - k) ckpts).
  destruct (deletes_run olds w) as (w' & Hrun & _ & Hl).
  assert (Forall (λ p, p.2 = step_file p.1) ckpts) as HFc by by rw Hperm.
  assert (∀ n, step_file n ∈ olds.*2 ↔ is_Some (w_fs w !! step_file n) ∧ k ≠ 0 ∧ k ≤ newer (w_fs w) n) as Hold.
  { intros n. by apply (olds_newer (w_fs w) ks). }
  exists w'. split_and!.
  - rw /prune_checkpoints. cbn. rw /bind /get Hks. exact Hrun.
  - intros n. rw Hl. specialize (Hold n). destruct (decide (step_file n ∈ olds.*2)) as [Hin|Hin].
    + apply Hold in Hin as (_ & Hk & Hge). destruct (Nat.eqb_spec k 0), (Nat.ltb_spec (newer (w_fs w) n) k); done || lia.
    + destruct (w_fs w !! step_file n) as [c|] eqn:Hc; [|by destruct (_ || _)].
      destruct (Nat.eqb_spec k 0), (Nat.ltb_spec (newer (w_fs w) n) k); try done. destruct Hin. apply Hold. eauto.
  - intros name Hg. rw Hl decide_False //. intros (p & -> & Hp)%list_elem_of_fmap.
    assert (p ∈ ckpts) as Hpc by (subst olds; destruct (k =? 0); [by apply not_elem_of_nil in Hp|apply elem_of_take in Hp as (i & Hi & _); by eapply list_elem_of_lookup_2]).
    rw Forall_forall in HFc. rw (HFc _ Hpc) step_glob_file in Hg. done.
  - intros n Hlat. rw Hl decide_False //. intros (_ & Hk & Hge)%Hold.
    rw (latest_newest (w_fs w) ks) // in Hge. lia.
Qed.

Lemma prune_exact_witness :
  let files := <[step_file 1 := Partial]> (<[step_file 12 := Partial]> (<[step_file 3 := Partial]> (<[best_file := Partial]> ∅))) in
  match ToyTraining.straight with
  | Ok (_, w) =>
      ∃ w', prune_checkpoints (mkWorld (w_trainer w) files [] []) = (Ok tt, w') ∧
        w_fs w' !! step_file 12 = Some Partial ∧ w_fs w' !! step_file 3 = None
  | Raise _ => False
  end.
Proof.
  intros files. destruct ToyTraining.straight as [[r w]|] eqn:Hw; [|discriminate Hw].
  assert (keep_last (t_cfg (w_trainer w)) = 1) as Hk by (revert Hw; vm_compute; intros [= <- <-]; reflexivity).
  destruct (prune_exact (mkWorld (w_trainer w) files [] [])) as (w' & H1 & H2 & _).
  - intros name Hg [c Hc]. cbn in Hc. unfold files in Hc.
    apply lookup_insert_Some in Hc as [[<- _]|[_ Hc]]; [by exists 1|].
    apply lookup_insert_Some in Hc as [[<- _]|[_ Hc]]; [by exists 12|].
    apply lookup_insert_Some in Hc as [[<- _]|[_ Hc]]; [by exists 3|].
    apply lookup_insert_Some in Hc as [[<- _]|[_ Hc]]; [discriminate Hg|]. discriminate Hc.
  - exists w'. split; [exact H1|]. rw !H2 /= Hk. split; vm_compute; reflexivity.
Defined.
