(* ===== verification/Generate.v ===== *)
(** * Single-sequence generation (model/generate.py)

    Sampling from one prompt with a growing cache, yielding text as it is produced.  The
    module calls itself the reference the engine is checked against; the property says
    exactly which tokens it produces under greedy decoding: those of the uncached model,
    until the text first ends inside a multi-byte character, from where on it samples the
    same logits again. *)

From Stdlib Require Import ssreflect QArith Qcanon.
From stdpp Require Import prelude gmap gmultiset list strings.
From S2P Require Import Prelude Config BlockManager KvCache Transformer Types Batch Scheduler Prefill Engine EngineProps Baseline Text Tokenizer Streaming Data.

(** [SamplingParams] of this module. *)
Record GenParams := mkGenParams {
  max_new_tokens : nat;
  g_temperature : Qc;
  g_top_k : option Z;
  g_top_p : option Qc;
  stop_at_eos : bool;
  g_seed : option Z;
}.
Definition g_greedy (p : GenParams) : bool := bool_decide (g_temperature p = 0%Qc).

Section generate.
Context {R : Type} `{Torch R} `{TorchSampling R} `{Unicode}.
#[local] Notation "'Vec'" := (list R).
#[local] Notation "'KV'" := (list (list R)).
Context (sdpa : list KV → list KV → list KV → option (list (list bool)) → bool → list KV).
Context (w : NanoForCausalLM (R := R)).

(** The [n]-th draw of a generator: seeded, or the global one. *)
Context (draw : option Z → nat → nat).

(** [_filter_logits]: temperature, then top-k, then top-p. *)
Definition _filter_logits (logits : Vec) (p : GenParams) : result Vec :=
  match top_k_filter (g_top_k p) ((λ x, ts_div x (g_temperature p)) <$> logits) with
  | Ok logits => Ok (top_p_filter (g_top_p p) logits)
  | Raise e => Raise e
  end.

(** The model with its cache, the tokenizer, and the number of draws so far. *)
Record GenState := mkGen {
  gs_model : MSt (R := R) (St := DynamicCache.t KV);
  gs_tok : BPETokenizer;
  gs_draws : nat;
}.
Definition on_gmodel {A} (m : M (MSt (R := R) (St := DynamicCache.t KV)) A) : M GenState A := zoom gs_model (λ s g, mkGen s (gs_tok g) (gs_draws g)) m.
Definition on_gtok {A} (m : M BPETokenizer A) : M GenState A := zoom gs_tok (λ t g, mkGen (gs_model g) t (gs_draws g)) m.

(** The next token from the last row. *)
Definition pick (p : GenParams) (step : Vec) : M GenState Z :=
  if g_greedy p then ret (ts_argmax step)
  else
    let* l := lift (_filter_logits step p) in
    let* g := get in
    do* modify (λ g, mkGen (gs_model g) (gs_tok g) (S (gs_draws g))) in
    ret (ts_multinomial (draw (g_seed p) (gs_draws g)) (ts_softmax l)).

(** [model(tokens, cache=cache)]. *)
Definition feed (ids : list Z) : M GenState (list Vec) :=
  let* tokens := lift (token_tensor ids) in
  on_gmodel (lm_forward sdpa w tokens None true None).

(** The loop, and the pieces it yields.  [continue] skips the call of the model. *)
Fixpoint gen_loop (n : nat) (p : GenParams) (logits : list Vec) (em : Emitter) : M GenState (list (list Z)) :=
  match n with
  | O => ret []
  | S n =>
      let* step := lift (last_row logits) in
      let* token := pick p step in
      let* g := get in
      let* stop := (if stop_at_eos p then let* eos := lift (eos_id (gs_tok g)) in ret (token =? eos)%Z else ret false) in
      if stop then ret []
      else
        let ids := produced em ++ [token] in
        let* text := lift (decode (gs_tok g) ids) in
        if held_back text then gen_loop n p logits (mkEmitter ids (emitted_chars em))
        else if emitted_chars em <? length text then
          let* logits := feed [token] in
          let* rest := gen_loop n p logits (mkEmitter ids (length text)) in
          ret (drop (emitted_chars em) text :: rest)
        else
          let* logits := feed [token] in
          gen_loop n p logits (mkEmitter ids (emitted_chars em))
  end.

(** [generate_stream], consumed to its end. *)
Definition generate_stream (prompt : list Z) (p : GenParams) : M GenState (list (list Z)) :=
  let* ids := on_gtok (encode prompt false) in
  let* g := get in
  let* ids := match ids with [] => let* eos := lift (eos_id (gs_tok g)) in ret [eos] | _ => ret ids end in
  do* modify (λ g, mkGen ((gs_model g).1, DynamicCache.init) (gs_tok g) 0) in
  let* logits := feed ids in
  gen_loop (max_new_tokens p) p logits emitter_init.

Definition generate (prompt : list Z) (p : GenParams) : M GenState (list Z) :=
  let* pieces := generate_stream prompt p in ret (concat pieces).
End generate.

(** * What it generates *)

Section exact.
Context {R : Type} `{HT : Torch R} `{HS : TorchSampling R} `{HSL : !SamplerLaws R} `{HU : UnicodeLaws}.
#[local] Notation "'Vec'" := (list R).
#[local] Notation "'KV'" := (list (list R)).
Context (sdpa : list KV → list KV → list KV → option (list (list bool)) → bool → list KV).
Context (attend : list Vec → list (list Vec) → list (list Vec) → list Vec).
Context (inv : Vec) (w : NanoForCausalLM (R := R)) (HM : model_ok sdpa attend w).
Context (draw : option Z → nat → nat) (p : GenParams) (Hgreedy : g_greedy p = true).
Context (t : BPETokenizer) (eos : Z) (Heos : eos_id t = Ok eos).
(** The model was built for the tokenizer: the same ids. *)
Context (Hfits : ∀ i, (0 ≤ i < Z.of_nat (length (embed_tokens w)))%Z ↔ is_Some (vocab t !! i)).
#[local] Abbreviation represents := (represents attend inv (length (layers w)) w (St := DynamicCache.t KV)).
#[local] Abbreviation next := (greedy_next sdpa inv w).
Implicit Types (g : GenState (R := R)) (ids : list Z) (em : Emitter).

(** The tokens of the loop: [fed] is what the model has seen, [made] what was produced. *)
Definition text_held ids : bool := match decode t ids with Ok text => held_back text | Raise _ => false end.
Fixpoint stream_tokens (n : nat) (fed made : list Z) : list Z :=
  match n with
  | O => []
  | S n =>
      let token := next fed in
      if (token =? eos)%Z && stop_at_eos p then []
      else token :: stream_tokens n (if text_held (made ++ [token]) then fed else fed ++ [token]) (made ++ [token])
  end.

(** The model and the tokenizer after [ids]. *)
Definition fed_with g ids : Prop :=
  in_vocab w ids ∧ ids ≠ [] ∧ represents (gs_model g) (nat_ids ids) ∧ same_tok t (gs_tok g).
Definition shows ids (logits : list Vec) : Prop := last logits = last (ref_logits attend inv w (embed w ids)).

Lemma shows_row ids logits : shows ids logits → in_vocab w ids → ids ≠ [] →
  ∃ row, last_row logits = Ok row ∧ next ids = ts_argmax row ∧ in_vocab w [ts_argmax row].
Proof.
  intros Hl Hv Hne. destruct (row_of_Some sdpa attend inv w HM ids logits) as (row & Hlast & Hn & Hw & Hg); [by split|done|].
  exists row. rw /last_row Hlast. split_and!; [done|done|]. constructor; [|constructor].
  pose proof (argmax_range row Hn). by rw -Hw.
Qed.

Lemma feed_spec g past ids :
  in_vocab w past → in_vocab w ids → ids ≠ [] → represents (gs_model g) (nat_ids past) → same_tok t (gs_tok g) →
  wp (feed sdpa w ids) (λ logits g', shows (past ++ ids) logits ∧ fed_with g' (past ++ ids) ∧ gs_tok g' = gs_tok g) never g.
Proof.
  intros Hvp Hv Hne Hrep Hs. rw /feed. wp_step.
  assert (token_tensor ids = Ok (nat_ids ids)) as Htt by (destruct ids; [done|]; by apply (to_indices_ok w)).
  rw {1}/wp /lift Htt /on_gmodel. wp_step. destruct HM as [Hrows _ _ _].
  eapply wp_mono; [eapply (lm_cached sdpa attend Hrows inv (length (layers w)) w (gs_model g) (nat_ids past) (nat_ids ids)
    (embed w past) (embed w ids)); [done|by apply embed_select|by apply embed_select|done]| |done].
  intros logits s' [-> Hrep']. assert (embed w past ++ embed w ids = embed w (past ++ ids)) as Hemb by by rw /embed fmap_app.
  split_and!; [|split_and!|done]; cbn; try done.
  - rw /shows Hemb. apply last_drop_lt.
    rw /ref_logits /nat_ids !length_fmap length_ref_layers /embed length_fmap length_app.
    assert (0 < length ids) by (destruct ids; cbn; [done|lia]). lia.
  - by apply Forall_app.
  - intros [_ ?]%app_eq_nil. done.
  - by rw /nat_ids -fmap_app in Hrep'.
Qed.

Lemma known_vocab ids : in_vocab w ids → known t ids.
Proof. intros Hv. eapply Forall_impl; [exact Hv|]. intros i Hi. by apply Hfits. Qed.

Lemma decode_same t' ids : same_tok t t' → decode t' ids = decode t ids.
Proof. intros Hs. rw /decode. by rw (same_tok_bytes t t'). Qed.

Lemma eos_same t' : same_tok t t' → eos_id t' = Ok eos.
Proof. rw /same_tok => ->. exact Heos. Qed.

Lemma decodes ids : in_vocab w ids → ∃ text, decode t ids = Ok text.
Proof. intros Hv. destruct (id_bytes_known t ids (known_vocab ids Hv)) as [b Hb]. eexists. by apply decode_known. Qed.

Lemma gen_loop_spec n : ∀ g fed em logits,
  fed_with g fed → shows fed logits → in_vocab w (produced em) →
  wp (gen_loop sdpa w draw n p logits em)
     (λ pieces g', (∃ em', push_all t (stream_tokens n fed (produced em)) em = Ok (em', pieces)) ∧
        in_vocab w (stream_tokens n fed (produced em)) ∧ same_tok t (gs_tok g')) never g.
Proof.
  induction n as [|n IH]; intros g fed em logits Hf Hl Hm; cbn [gen_loop stream_tokens].
  { wp_step. destruct Hf as (_ & _ & _ & Hs). split_and!; [by exists em|constructor|done]. }
  pose proof Hf as (Hv & Hne & Hrep & Hs). destruct (shows_row fed logits Hl Hv Hne) as (row & Hrow & Hnext & Hvt).
  wp_step. rw {1}/wp /lift Hrow. wp_step. rw /pick Hgreedy. do 4 wp_step. rw Hnext.
  set (token := ts_argmax row) in *. rw (eos_same _ Hs).
  assert (wp (if stop_at_eos p then let* eos := λ s, (Ok eos, s) in ret (token =? eos)%Z else ret false)
    (λ stop g', stop = (token =? eos)%Z && stop_at_eos p ∧ g' = g) never g) as Hstop.
  { destruct (stop_at_eos p); [by rw andb_true_r|by rw andb_false_r]. }
  eapply wp_mono; [exact Hstop| |done]. intros stop g' [-> ->]. destruct ((token =? eos)%Z && stop_at_eos p).
  { wp_step. split_and!; [by exists em|constructor|done]. }
  assert (in_vocab w (produced em ++ [token])) as Hm' by by apply Forall_app.
  destruct (decodes (produced em ++ [token]) Hm') as [text Htext].
  wp_step. rw {1}/wp (decode_same _ _ Hs) Htext /text_held Htext. cbn [push_all]. rw {1}/push Htext.
  assert (∀ rest, in_vocab w rest → in_vocab w (token :: rest)) as Hcons by (intros; by apply (Forall_app _ [token])).
  destruct (held_back text).
  - eapply wp_mono; [apply (IH g fed (mkEmitter (produced em ++ [token]) (emitted_chars em)) logits Hf Hl Hm')| |done].
    cbn [produced]. intros pieces g' ((em' & ->) & Hvs & Hs'). split_and!; [by exists em'|by apply Hcons|done].
  - destruct (emitted_chars em <? length text); wp_step;
      (eapply wp_mono; [apply (feed_spec g fed [token] Hv Hvt ltac:(done) Hrep Hs)| |done]);
      intros logits' g' (Hl' & Hf' & _).
    + wp_step. eapply wp_mono; [apply (IH g' _ (mkEmitter (produced em ++ [token]) (length text)) logits' Hf' Hl' Hm')| |done].
      cbn [produced]. intros pieces g2 ((em' & ->) & Hvs & Hs'). wp_step. split_and!; [by exists em'|by apply Hcons|done].
    + eapply wp_mono; [apply (IH g' _ (mkEmitter (produced em ++ [token]) (emitted_chars em)) logits' Hf' Hl' Hm')| |done].
      cbn [produced]. intros pieces g2 ((em' & ->) & Hvs & Hs'). split_and!; [by exists em'|by apply Hcons|done].
Qed.

(** As long as no text is held back these are the reference's tokens. *)
Lemma stream_greedy n : ∀ fed made,
  (∀ k, 0 < k → text_held (made ++ take k (greedy_gen sdpa inv w eos (negb (stop_at_eos p)) n fed).1) = false) →
  stream_tokens n fed made = (greedy_gen sdpa inv w eos (negb (stop_at_eos p)) n fed).1.
Proof.
  induction n as [|n IH]; intros fed made Hno; [done|]. cbn [stream_tokens greedy_gen] in *. rw negb_involutive in Hno |- *.
  destruct ((next fed =? eos)%Z && stop_at_eos p); [done|].
  destruct (greedy_gen sdpa inv w eos (negb (stop_at_eos p)) n (fed ++ [next fed])) as [out fr] eqn:Hg. cbn [fst] in *.
  pose proof (Hno 1 ltac:(lia)) as H1. cbn in H1. rw take_0 in H1. rw H1. f_equal.
  rw (IH (fed ++ [next fed]) (made ++ [next fed])); [by rw Hg|]. rw Hg. intros k Hk. cbn [fst].
  specialize (Hno (S k) ltac:(lia)). cbn in Hno. by rw -assoc.
Qed.

Lemma prompt_vocab prompt ids : tok_ok t → forallb scalar prompt = true →
  ids = ordinary_ids (merges t) prompt ∨ ordinary_ids (merges t) prompt = [] ∧ ids = [eos] → in_vocab w ids.
Proof.
  intros Ht Hsc Hor. assert (∀ l text, decode t l = Ok text → in_vocab w l) as Hdec.
  { intros l text. rw /decode /id_bytes. destruct (mapM _ l) as [bs|] eqn:Hm; [|done]. intros _.
    apply mapM_Some in Hm. eapply Forall2_Forall_l; [exact Hm|]. apply Forall_true. intros b i Hi. apply Hfits. by exists b. }
  destruct Hor as [->|[_ ->]].
  - eapply Hdec. by apply ordinary_decodes.
  - constructor; [|constructor]. apply Hfits. move: Heos. rw /eos_id. destruct (dget _ _) as [i|] eqn:Hd; [|done]. intros [= <-].
    apply dget_Some_elem in Hd. pose proof (to_special _ Ht _ Hd) as Hsp. cbn in Hsp. by rw Hsp.
Qed.

Lemma generate_stream_spec g prompt :
  tok_ok t → tok_ok (gs_tok g) → same_tok t (gs_tok g) → forallb scalar prompt = true → rot_ok inv (gs_model g).1 →
  wp (generate_stream sdpa w draw prompt p)
     (λ pieces g', ∃ ids em, ids ≠ [] ∧
        (ids = ordinary_ids (merges t) prompt ∨ ordinary_ids (merges t) prompt = [] ∧ ids = [eos]) ∧
        push_all t (stream_tokens (max_new_tokens p) ids []) emitter_init = Ok (em, pieces) ∧
        known t (stream_tokens (max_new_tokens p) ids [])) never g.
Proof.
  intros Ht Htok Hs Hsc Hr. rw /generate_stream /on_gtok. do 2 wp_step.
  eapply wp_mono; [by apply encode_plain| |done]. intros ids0 t1 (-> & Ht1 & Hs1).
  assert (same_tok t t1) as Hst by by eapply same_tok_trans.
  assert (merges (gs_tok g) = merges t) as Hms by by rw Hs. rw Hms.
  do 2 wp_step. cbn [gs_tok]. wp_step.
  set (g1 := mkGen (gs_model g) t1 (gs_draws g)).
  assert (wp (match ordinary_ids (merges t) prompt with [] => let* eos := lift (eos_id t1) in ret [eos] | _ => ret (ordinary_ids (merges t) prompt) end)
    (λ ids g', g' = g1 ∧ ids ≠ [] ∧ (ids = ordinary_ids (merges t) prompt ∨ ordinary_ids (merges t) prompt = [] ∧ ids = [eos]))
    never g1) as Hids.
  { destruct (ordinary_ids (merges t) prompt) as [|i l] eqn:Ho.
    - wp_step. rw {1}/wp /lift (eos_same t1 Hst). wp_step. split_and!; [done|done|by right].
    - wp_step. split_and!; [done|done|by left]. }
  eapply wp_mono; [exact Hids| |done]. intros ids g2 (-> & Hne & Hor). do 3 wp_step.
  assert (in_vocab w ids) as Hv by (by apply prompt_vocab with prompt).
  eapply wp_mono; [apply (feed_spec _ [] ids)| |done]; [constructor|done|done| |done|].
  { destruct (caches_nil attend inv (layers w)) as [Hk Hvc]. destruct HM as [_ HL0 _ _]. split_and!; [done|done|done|].
    exists []. split; [done|]. cbn. rw Hk Hvc. apply dyn_init. }
  intros logits g2 (Hl & Hf & _). rw app_nil_l in Hl, Hf.
  eapply wp_mono; [apply (gen_loop_spec _ g2 ids emitter_init logits Hf Hl); constructor| |done].
  intros pieces g3 ((em & Hp) & Hvs & _). exists ids, em. split_and!; try done. by apply known_vocab.
Qed.
End exact.

(** C12: the reference generator follows the model until a character is cut in two.  Under
    greedy decoding, for any prompt of scalar values, [generate] raises nothing and
    returns the text of a prefix of the tokens it sampled, where each token is the arg-max
    of an uncached pass over the prompt and the earlier tokens, except that a token after
    which the text ends in a replacement character is never fed to the model, so the next
    one is sampled from the same logits; if that never happens along the reference's
    output, the tokens are exactly the reference's and the result is their whole text. *)
Theorem generate_greedy {R} `{Torch R, TorchSampling R, !SamplerLaws R, HU : UnicodeLaws} sdpa attend inv w draw p t eos rot cache prompt :
  model_ok sdpa attend w → g_greedy p = true → tok_ok t → eos_id t = Ok eos →
  (∀ i, (0 ≤ i < Z.of_nat (length (embed_tokens w)))%Z ↔ is_Some (vocab t !! i)) →
  forallb scalar prompt = true → rot_ok inv rot →
  ∃ enc text, (encode prompt false t).1 = Ok enc ∧ (generate sdpa w draw prompt p (mkGen (rot, cache) t 0)).1 = Ok text ∧
    let ids := match enc with [] => [eos] | _ => enc end in
    let tokens := stream_tokens sdpa inv w p t eos (max_new_tokens p) ids [] in
    let reference := (greedy_gen sdpa inv w eos (negb (stop_at_eos p)) (max_new_tokens p) ids).1 in
    (∃ front, front `prefix_of` tokens ∧ decode t front = Ok text) ∧
    ((∀ k, 0 < k → text_held t (take k reference) = false) → tokens = reference ∧ decode t reference = Ok text).
Proof.
  intros HM Hg Ht Heos Hfits Hsc Hr.
  pose proof (encode_plain t prompt Ht Hsc) as Henc. apply wp_never in Henc as (enc & t' & Henc & -> & _).
  pose proof (generate_stream_spec sdpa attend inv w HM draw p Hg t eos Heos Hfits (mkGen (rot, cache) t 0) prompt
    Ht Ht (same_tok_refl t) Hsc Hr) as Hgen.
  apply wp_never in Hgen as (pieces & g' & Hrun & ids & em & Hne & Hor & Hpush & Hk).
  exists (ordinary_ids (merges t) prompt), (concat pieces). rw Henc /generate /bind Hrun. split; [done|]. split; [done|].
  assert (match ordinary_ids (merges t) prompt with [] => [eos] | _ => ordinary_ids (merges t) prompt end = ids) as ->.
  { destruct Hor as [->|[-> ->]]; [|done]. by destruct (ordinary_ids _ _). }
  cbn zeta. set (tokens := stream_tokens sdpa inv w p t eos (max_new_tokens p) ids []) in *.
  set (reference := (greedy_gen sdpa inv w eos (negb (stop_at_eos p)) (max_new_tokens p) ids).1).
  destruct (push_all_settled t tokens Hk emitter_init [] (settled_init t))
    as (em' & pieces' & Hpush' & Hprod & _ & [_ _ (front & back & Heq & Hd & _)] & text & Htext & Hheld).
  { exists []. split; [done|by right]. }
  rw Hpush in Hpush'. simplify_eq. cbn in *. split.
  - exists front. split; [|done]. rw -Hprod Heq. by apply prefix_app_r.
  - intros Hno. assert (tokens = reference) as Htr by (by apply stream_greedy). split; [done|]. rw -Htr -Hprod Htext. f_equal.
    destruct Hheld as [Hh|]; [|done]. exfalso. rw Hprod in Htext.
    destruct tokens as [|x l] eqn:Htk.
    { cbn in Htext. injection Htext as <-. done. }
    specialize (Hno (length reference)). rw -Htr take_ge // /text_held Htext Hh /= in Hno. by specialize (Hno ltac:(lia)).
Qed.

(** A model over the toy tokenizer's ids whose next token depends on the last one only. *)
Module ToyGenerate.
Definition zero2 (_ : list Z) : list Z := [0; 0]%Z.
Definition layer : DecoderLayer (R := Z) :=
  mkDecoderLayer (mkAttention 1 1 2 1 zero2 zero2 zero2 (λ _, [0]%Z))
    (mkSwiGLU (λ x, x) (λ x, x) (λ _, [0]%Z)) (mkRMSNorm 1 [1])%Z (mkRMSNorm 1 [1])%Z.
Definition weights (after : Z → Z) : NanoForCausalLM (R := Z) :=
  mkNano ((λ i, [Z.of_nat i]) <$> seq 0 259) [layer] (mkRMSNorm 1 [1])%Z
    (λ x, (λ i, if (Z.of_nat i =? after (nth 0 x 0))%Z then 1%Z else 0%Z) <$> seq 0 259).
Definition params : GenParams := mkGenParams 4 0%Qc None None true None.
Definition start : GenState (R := Z) := mkGen (rotary_init [1%Z] 8, DynamicCache.init) toy_tok 0.
(** After the lead byte of [e] with an acute accent its second byte, otherwise the lead byte. *)
Definition accents (i : Z) : Z := (if i =? 195 then 169 else 195)%Z.
Definition letters (i : Z) : Z := (if i =? 97 then 98 else 97)%Z.
End ToyGenerate.

(** The two bytes of one character never follow each other: the model that should write
    two accented letters writes nothing. *)
Example split_character_repeats :
  (generate Toy.sdpa (ToyGenerate.weights ToyGenerate.accents) (λ _ n, n) [97]%Z ToyGenerate.params ToyGenerate.start).1 = Ok [] ∧
  (greedy_gen Toy.sdpa [1%Z] (ToyGenerate.weights ToyGenerate.accents) 258%Z false 4 [97]%Z).1 = [195; 169; 195; 169]%Z ∧
  decode toy_tok [195; 169; 195; 169]%Z = Ok [233; 233]%Z.
Proof. split_and!; vm_compute; reflexivity. Qed.

Lemma generate_greedy_witness :
  (generate Toy.sdpa (ToyGenerate.weights ToyGenerate.letters) (λ _ n, n) [97]%Z ToyGenerate.params ToyGenerate.start).1 = Ok [98; 97; 98; 97]%Z ∧
  ∃ enc text, (encode [97]%Z false toy_tok).1 = Ok enc ∧
    (generate Toy.sdpa (ToyGenerate.weights ToyGenerate.letters) (λ _ n, n) [97]%Z ToyGenerate.params ToyGenerate.start).1 = Ok text.
Proof.
  split; [vm_compute; reflexivity|].
  destruct (generate_greedy Toy.sdpa Toy.attend [1%Z] (ToyGenerate.weights ToyGenerate.letters) (λ _ n, n) ToyGenerate.params toy_tok 258%Z
    (rotary_init [1%Z] 8) DynamicCache.init [97]%Z) as (enc & text & H1 & H2 & _).
  - split; [reflexivity|cbn; lia|intros v; reflexivity|discriminate].
  - reflexivity.
  - apply toy_tok_ok.
  - reflexivity.
  - intros i. rw (_ : length (embed_tokens (ToyGenerate.weights ToyGenerate.letters)) = 259); [|vm_compute; reflexivity]. split.
    + intros Hi. assert (forallb (λ i, bool_decide (is_Some (vocab toy_tok !! i))) (seqZ 0 259) = true) as Hall by (vm_compute; reflexivity).
      apply (bool_decide_eq_true_1 _), (proj1 (forallb_forall _ _) Hall i), list_elem_of_In, elem_of_seqZ. lia.
    + intros [b Hb]. assert (forallb (λ ib : Z * list Z, (0 <=? ib.1)%Z && (ib.1 <? 259)%Z) (map_to_list (vocab toy_tok)) = true) as Hall by (vm_compute; reflexivity).
      apply elem_of_map_to_list, list_elem_of_In in Hb. pose proof (proj1 (forallb_forall _ _) Hall _ Hb) as Hx. cbn in Hx.
      apply andb_true_iff in Hx as [H1%Z.leb_le H2%Z.ltb_lt]. cbn in *. lia.
  - reflexivity.
  - split; reflexivity.
  - exists enc, text. split; [exact H1|exact H2].
Defined.
