(* ===== verification/Sampling.v ===== *)
(** * Sampling (engine/scheduler.py [_sample_with_params], model/generate.py [_filter_logits])

    Which tokens the two samplers can return: temperature, then the [k] most likely
    tokens, then the smallest set of most likely ones that reaches [top_p].  Torch's
    operations are a parameter; [SoftmaxLaws] states them in exact arithmetic. *)

From Stdlib Require Import ssreflect QArith Qcanon Lqa.
From stdpp Require Import prelude gmap list sorting.
From S2P Require Import Prelude Rationals Types Scheduler Workload Streaming Generate.
#[local] Open Scope nat_scope.

(** The weight of a logit is its exponential, zero for minus infinity; the value of a
    probability is the number it stands for. *)
Class SoftmaxLaws (R : Type) `{TorchSampling R} := {
  ts_weight : R → Qc;
  ts_value : R → Qc;
  weight_nonneg r : (0 <= ts_weight r)%Qc;
  weight_neg_inf : ts_weight ts_neg_inf = 0%Qc;
  lt_law a b : ts_lt a b = true ↔ (ts_weight a < ts_weight b)%Qc;
  sort_perm l : (ts_sort_desc l).2 ≡ₚ seq 0 (length l);
  sort_values l : Forall2 (λ v i, l !! i = Some v) (ts_sort_desc l).1 (ts_sort_desc l).2;
  sort_sorted l i j a b : i ≤ j → (ts_sort_desc l).1 !! i = Some a → (ts_sort_desc l).1 !! j = Some b →
    (ts_weight b <= ts_weight a)%Qc;
  softmax_law l : Exists (λ r, 0 < ts_weight r)%Qc l →
    ts_value <$> ts_softmax l = (λ r, ts_weight r / qsum (ts_weight <$> l))%Qc <$> l;
  cumsum_law l : ts_value <$> ts_cumsum l = np_cumsum (ts_value <$> l);
  sub_law a b : ts_value (ts_sub a b) = (ts_value a - ts_value b)%Qc;
  gt_law a p : ts_gt a p = true ↔ (p < ts_value a)%Qc;
  multinomial_law seed l : Forall (λ r, 0 <= ts_value r)%Qc l → Exists (λ r, 0 < ts_value r)%Qc l →
    ∃ i r, ts_multinomial seed l = Z.of_nat i ∧ l !! i = Some r ∧ (0 < ts_value r)%Qc;
}.

(** ** The reference *)

(** How many of the weights exceed [x], and how much they amount to. *)
Definition heavier (w : list Qc) (x : Qc) : nat := length (filter (λ y, x < y)%Qc w).
Definition mass_above (w : list Qc) (x : Qc) : Qc := qsum (filter (λ y, x < y)%Qc w).
Definition mass_from (w : list Qc) (x : Qc) : Qc := qsum (filter (λ y, x <= y)%Qc w).

(** The weights of the [k] most likely tokens, ties included; the others have none. *)
Definition top_weights (k : option Z) (w : list Qc) : list Qc :=
  match k with
  | None | Some 0%Z => w
  | Some k => (λ x, if bool_decide (Z.of_nat (heavier w x) < k)%Z then x else 0%Qc) <$> w
  end.

(** Whether more likely tokens leave room for one of weight [x], not counting and counting
    those it ties with. *)
Definition within_p (p : option Qc) (w : list Qc) (before : Qc) : Prop :=
  match p with Some p => (p < 1)%Qc → (before <= p * qsum w)%Qc | None => True end.

Section sums.
Implicit Types (w : list Qc) (x : Qc).

Lemma qsum_cons x w : qsum (x :: w) = (x + qsum w)%Qc.
Proof. done. Qed.

Lemma qsum_nonneg w : Forall (λ y, 0 <= y)%Qc w → (0 <= qsum w)%Qc.
Proof. induction 1 as [|y w Hy _ IH]; [apply Qcle_refl|]. rw qsum_cons. qc_lra. Qed.

Lemma qsum_perm w w' : w ≡ₚ w' → qsum w = qsum w'.
Proof. induction 1; rw ?qsum_cons; [done|congruence|ring|congruence]. Qed.

Lemma qsum_filter (P : Qc → Prop) `{!∀ y, Decision (P y)} w : Forall (λ y, 0 <= y)%Qc w → (qsum (filter P w) <= qsum w)%Qc.
Proof.
  induction 1 as [|y w Hy _ IH]; [apply Qcle_refl|]. rw filter_cons. case_decide; rw ?qsum_cons; qc_lra.
Qed.

Lemma heavier_perm w w' x : w ≡ₚ w' → heavier w x = heavier w' x.
Proof. intros Hp. rw /heavier. by rw Hp. Qed.

Lemma mass_above_perm w w' x : w ≡ₚ w' → mass_above w x = mass_above w' x.
Proof. intros Hp. by apply qsum_perm, filter_Permutation. Qed.

Lemma mass_from_perm w w' x : w ≡ₚ w' → mass_from w x = mass_from w' x.
Proof. intros Hp. by apply qsum_perm, filter_Permutation. Qed.

(** Prefix sums. *)
Lemma cumsum_from_lookup acc w i x : w !! i = Some x → cumsum_from acc w !! i = Some (acc + qsum (take (S i) w))%Qc.
Proof.
  revert acc i. induction w as [|y w IH]; intros acc [|i] Hi; try done.
  - change (Some (acc + y) = Some (acc + qsum [y]))%Qc. f_equal. rw /qsum /=. ring.
  - change (cumsum_from (acc + y) w !! i = Some (acc + qsum (y :: take (S i) w)))%Qc. rw (IH _ _ Hi) qsum_cons. f_equal. ring.
Qed.

Definition descending w : Prop := ∀ i j a b, i ≤ j → w !! i = Some a → w !! j = Some b → (b <= a)%Qc.

Lemma take_filter_all (P : Qc → Prop) `{!∀ y, Decision (P y)} w : Forall P w → filter P w = w.
Proof. induction 1 as [|y w Hy _ IH]; [done|]. by rw filter_cons decide_True // IH. Qed.

(** In descending order, what precedes a position is at least all that is heavier, and at
    most all that is not lighter, without itself. *)
Lemma prefix_mass w a x : descending w → Forall (λ y, 0 <= y)%Qc w → w !! a = Some x →
  (mass_above w x <= qsum (take a w) ∧ qsum (take a w) <= mass_from w x - x)%Qc.
Proof.
  intros Hd Hn Ha. pose proof (take_drop_middle w a x Ha) as Hw. set (l := take a w) in *. set (r := drop (S a) w) in *.
  assert (Forall (λ y, x <= y)%Qc l) as Hl.
  { apply Forall_lookup. intros i y Hi. apply lookup_take_Some in Hi as [Hi Hlt]. apply (Hd i a); [lia|done|done]. }
  assert (Forall (λ y, ¬ x < y)%Qc r) as Hr.
  { apply Forall_lookup. intros i y Hi. rw lookup_drop in Hi. apply Qcle_not_lt. apply (Hd a (S a + i)); [lia|done|done]. }
  assert (Forall (λ y, 0 <= y)%Qc l ∧ Forall (λ y, 0 <= y)%Qc r) as [Hl0 Hr0] by (split; [by apply Forall_take|by apply Forall_drop]).
  clearbody l r. subst w. split.
  - rw /mass_above filter_app filter_cons decide_False; [|apply Qcle_not_lt, Qcle_refl]. rw (list_filter_none _ r); [|by apply Forall_forall]. rw app_nil_r.
    by apply qsum_filter.
  - rw /mass_from filter_app filter_cons decide_True; [|apply Qcle_refl]. rw (take_filter_all _ l Hl) qsum_app qsum_cons.
    assert (0 <= qsum (filter (λ y, x <= y)%Qc r))%Qc as Hf.
    { apply qsum_nonneg. apply Forall_forall. intros y [_ Hy]%list_elem_of_filter. by eapply Forall_forall in Hr0. }
    qc_lra.
Qed.

(** The weight at place [k] of a descending list decides who is among the first [k]. *)
Lemma rank_threshold w k thr x : descending w → w !! (k - 1) = Some thr → 0 < k → x ∈ w → (thr <= x)%Qc ↔ heavier w x < k.
Proof.
  intros Hd Hthr Hk Hx. apply list_elem_of_lookup in Hx as [a Ha]. split.
  - intros Hle. rw /heavier -(take_drop (k - 1) w) filter_app.
    rw (list_filter_none _ (drop (k - 1) w)).
    + rw app_nil_r. pose proof (length_filter (λ y, x < y)%Qc (take (k - 1) w)) as Hlen. rw length_take in Hlen. lia.
    + intros y [i Hi]%list_elem_of_lookup. rw lookup_drop in Hi. apply Qcle_not_lt.
      eapply Qcle_trans; [|exact Hle]. apply (Hd (k - 1) (k - 1 + i)); [lia|done|done].
  - intros Hh. apply Qcnot_lt_le. intros Hlt. revert Hh. apply Nat.le_ngt. rw /heavier -(take_drop k w) filter_app length_app.
    rw (take_filter_all _ (take k w)).
    + rw length_take. apply lookup_lt_Some in Hthr. lia.
    + apply Forall_lookup. intros i y Hi. apply lookup_take_Some in Hi as [Hi Hik]. eapply Qclt_le_trans; [exact Hlt|].
      apply (Hd i (k - 1)); [lia|done|done].
Qed.
End sums.

(** * The filters *)

Section filters.
Context {R : Type} `{HS : TorchSampling R} `{!SoftmaxLaws R}.
Implicit Types (l : list R).

Definition weights l : list Qc := ts_weight <$> l.

Lemma weights_nonneg l : Forall (λ y, 0 <= y)%Qc (weights l).
Proof. apply Forall_fmap, Forall_forall. intros r _. apply weight_nonneg. Qed.

Lemma sort_length l : length (ts_sort_desc l).1 = length l ∧ length (ts_sort_desc l).2 = length l.
Proof.
  pose proof (Permutation_length (sort_perm l)) as Hp. rw length_seq in Hp. split; [|done].
  rw -Hp. eapply Forall2_length, sort_values.
Qed.

Lemma omap_lookup_seq {A} (l : list A) : omap (λ i, l !! i) (seq 0 (length l)) = l.
Proof.
  induction l as [|x l IH] using rev_ind; [done|]. rw length_app /= seq_app omap_app /= list_lookup_middle //. f_equal.
  rw -{3}IH. apply list_omap_ext. apply Forall2_same_length_lookup_2; [done|]. intros i a b Ha Hb. simplify_eq.
  apply lookup_seq in Ha as [-> Hi]. by rw lookup_app_l.
Qed.

Lemma sort_permutation l : (ts_sort_desc l).1 ≡ₚ l.
Proof.
  assert ((ts_sort_desc l).1 = omap (λ i, l !! i) (ts_sort_desc l).2) as ->.
  { pose proof (sort_values l) as Hv. induction Hv as [|v i vs ids Hi _ IH]; [done|]. cbn. by rw Hi -IH. }
  rw (sort_perm l). by rw omap_lookup_seq.
Qed.

Lemma sort_descending l : descending (weights (ts_sort_desc l).1).
Proof.
  intros i j a b Hij Ha Hb. rw /weights !list_lookup_fmap in Ha Hb.
  destruct ((ts_sort_desc l).1 !! i) as [u|] eqn:Hu, ((ts_sort_desc l).1 !! j) as [v|] eqn:Hv; simplify_eq/=. by eapply sort_sorted.
Qed.

Lemma masked_lookup mask l i r : length mask = length l → l !! i = Some r →
  ∃ m, mask !! i = Some m ∧ masked_fill mask l !! i = Some (if m : bool then ts_neg_inf else r).
Proof.
  intros Hlen Hr. destruct (lookup_lt_is_Some_2 mask i) as [m Hm]; [rw Hlen; by eapply lookup_lt_Some|].
  exists m. split; [done|]. rw /masked_fill lookup_zip_with Hm Hr. done.
Qed.

Lemma masked_length mask l : length mask = length l → length (masked_fill mask l) = length l.
Proof. intros Hlen. rw /masked_fill length_zip_with Hlen. lia. Qed.

Lemma lt_spec a b : ts_lt a b = bool_decide (ts_weight a < ts_weight b)%Qc.
Proof.
  destruct (ts_lt a b) eqn:Hab.
  - apply lt_law in Hab. by rw bool_decide_true.
  - rw bool_decide_false //. intros Hlt%lt_law. congruence.
Qed.

(** Top-k keeps the weights of the [k] most likely, ties included. *)
Lemma top_k_weights k l : l ≠ [] → match k with Some k => 0 ≤ k | None => True end%Z →
  ∃ l', top_k_filter k l = Ok l' ∧ weights l' = top_weights k (weights l).
Proof.
  intros Hne Hk. destruct k as [k|]; [|by exists l]. destruct (decide (k = 0)%Z) as [->|Hk0]; [by exists l|].
  assert (0 < length l) as Hlen by (destruct l; [done|cbn; lia]).
  assert (top_k_filter (Some k) l = match (ts_sort_desc l).1 !! (Z.to_nat (Z.min k (Z.of_nat (length l))) - 1) with
           | Some threshold => Ok (masked_fill ((λ a, ts_lt a threshold) <$> l) l) | None => Raise RuntimeError end) as ->.
  { rw /top_k_filter. destruct k; try lia. cbv zeta. rw (proj2 (Z.leb_gt _ _)); [done|lia]. }
  set (k' := Z.to_nat (Z.min k (Z.of_nat (length l)))). destruct (sort_length l) as [Hl1 _].
  destruct (lookup_lt_is_Some_2 (ts_sort_desc l).1 (k' - 1)) as [thr Hthr]; [rw Hl1; lia|]. rw Hthr.
  eexists. split; [done|]. assert (top_weights (Some k) (weights l) = (λ x, if bool_decide (Z.of_nat (heavier (weights l) x) < k)%Z then x else 0%Qc) <$> weights l) as ->.
  { rw /top_weights. by destruct k. }
  apply list_eq_same_length with (length l); [by rw !length_fmap|by rw length_fmap masked_length ?length_fmap|].
  intros i x y Hi Hx Hy. rw /weights !list_lookup_fmap in Hx Hy. destruct (l !! i) as [r|] eqn:Hr; [|done]. cbn in Hy. simplify_eq.
  destruct (masked_lookup ((λ a, ts_lt a thr) <$> l) l i r) as (m & Hm & Hmask); [by rw length_fmap|done|].
  rw Hmask /= in Hx. rw list_lookup_fmap Hr /= in Hm. simplify_eq. rw lt_spec.
  pose proof (rank_threshold (weights (ts_sort_desc l).1) k' (ts_weight thr) (ts_weight r)) as Hrank.
  rw (heavier_perm _ (weights l)) in Hrank; [|rw /weights sort_permutation //].
  assert (heavier (weights l) (ts_weight r) < length l) as Hlt.
  { rw /heavier. pose proof (length_filter_lt (λ y, ts_weight r < y)%Qc (weights l) (ts_weight r)) as Hf. rw length_fmap in Hf. apply Hf.
    - by apply list_elem_of_fmap_2, (list_elem_of_lookup_2 l i).
    - apply Qcle_not_lt, Qcle_refl. }
  assert ((ts_weight thr <= ts_weight r)%Qc ↔ heavier (weights l) (ts_weight r) < k') as Hiff.
  { apply Hrank; [apply sort_descending|by rw /weights list_lookup_fmap Hthr|lia|].
    rw /weights sort_permutation. by apply list_elem_of_fmap_2, (list_elem_of_lookup_2 l i). }
  case_bool_decide as Hc1; case_bool_decide as Hc2; try done; change (ts_weight <$> l) with (weights l) in Hc2; rw ?weight_neg_inf //.
  - exfalso. apply Qclt_not_le in Hc1. apply Hc1, Hiff. subst k'. lia.
  - exfalso. apply Hc2. apply Qcnot_lt_le, Hiff in Hc1. subst k'. lia.
Qed.
Lemma weights_sum_pos l : Exists (λ r, 0 < ts_weight r)%Qc l → (0 < qsum (weights l))%Qc.
Proof.
  induction 1 as [r l Hr|r l _ IH]; cbn [weights fmap list_fmap]; rw qsum_cons.
  - pose proof (qsum_nonneg _ (weights_nonneg l)). rw /weights in H. qc_lra.
  - pose proof (weight_nonneg r). rw /weights in IH. qc_lra.
Qed.

(** How the place [a] of the descending order is judged. *)
Lemma drop_at p l a r : Exists (λ r, 0 < ts_weight r)%Qc l → (ts_sort_desc l).1 !! a = Some r →
  let probs := ts_softmax (ts_sort_desc l).1 in
  zip_with (λ c q, ts_gt (ts_sub c q) p) (ts_cumsum probs) probs !! a =
    Some (bool_decide (p * qsum (weights l) < qsum (take a (weights (ts_sort_desc l).1)))%Qc).
Proof.
  intros Hex Hr probs. set (v := (ts_sort_desc l).1) in *. set (T := qsum (weights l)).
  assert (v ≡ₚ l) as Hvl by apply sort_permutation.
  assert (qsum (weights v) = T) as HT by (apply qsum_perm; rw /weights; by rw Hvl).
  assert (Exists (λ r, 0 < ts_weight r)%Qc v) as Hexv by (by rw Hvl).
  assert (0 < T)%Qc as HTpos by by apply weights_sum_pos.
  assert (ts_value <$> probs = (λ x, x / T)%Qc <$> weights v) as Hprobs.
  { rw /probs softmax_law // -/(weights v) HT /weights -list_fmap_compose. done. }
  pose proof (cumsum_law probs) as Hcum. rw Hprobs in Hcum.
  assert (weights v !! a = Some (ts_weight r)) as Hwa by by rw /weights list_lookup_fmap Hr.
  assert (((λ x, x / T)%Qc <$> weights v) !! a = Some (ts_weight r / T)%Qc) as Hqa by by rw list_lookup_fmap Hwa.
  pose proof (cumsum_from_lookup 0 _ a _ Hqa) as Hca. rw -/(np_cumsum _) -Hcum in Hca. rw -Hprobs in Hqa.
  rw list_lookup_fmap in Hqa. destruct (probs !! a) as [qa|] eqn:Hq; [|done]. cbn in Hqa. injection Hqa as Hqa.
  rw list_lookup_fmap in Hca. destruct (ts_cumsum probs !! a) as [ca|] eqn:Hc; [|done]. cbn in Hca. injection Hca as Hca.
  rw lookup_zip_with Hc Hq /=. f_equal.
  assert (ts_value (ts_sub ca qa) = qsum (take a (weights v)) / T)%Qc as Hval.
  { rw sub_law Hqa Hca -fmap_take qsum_div (take_S_r _ _ _ Hwa) qsum_app qsum_cons. change (qsum []) with 0%Qc. rw /Qcdiv. ring. }
  destruct (ts_gt (ts_sub ca qa) p) eqn:Hg.
  - apply gt_law in Hg. rw Hval in Hg. rw bool_decide_true //. apply Qcnot_le_lt. intros Hle. apply Qclt_not_le in Hg. apply Hg.
    by apply qc_div_le_iff.
  - rw bool_decide_false //. intros Hlt. assert (ts_gt (ts_sub ca qa) p = true); [|congruence]. apply gt_law. rw Hval.
    apply Qcnot_le_lt. intros Hle. apply qc_div_le_iff in Hle; [|done]. by apply Qclt_not_le in Hlt.
Qed.

(** Top-p drops a token exactly when what precedes it in the order exceeds [p]. *)
Lemma top_p_at p l a i r : Exists (λ r, 0 < ts_weight r)%Qc l → (p < 1)%Qc → (ts_sort_desc l).2 !! a = Some i → l !! i = Some r →
  (ts_sort_desc l).1 !! a = Some r ∧
    top_p_filter (Some p) l !! i =
      Some (if bool_decide (p * qsum (weights l) < qsum (take a (weights (ts_sort_desc l).1)))%Qc then ts_neg_inf else r).
Proof.
  intros Hex Hp Ha Hi. assert (i < length l) as Hlt by (by eapply lookup_lt_Some).
  destruct (ts_sort_desc l) as [v ix] eqn:Hs. pose proof (sort_perm l) as Hperm. pose proof (sort_values l) as Hvals.
  rw Hs /= in Hperm Hvals. cbn in Ha. destruct (Forall2_lookup_r _ _ _ _ _ Hvals Ha) as (r' & Hv & Hr'). cbn in Hr'. simplify_eq.
  split; [done|]. rw /top_p_filter bool_decide_true // Hs.
  pose proof (drop_at p l a r Hex) as Hdrop. rw Hs /= in Hdrop. specialize (Hdrop Hv).
  set (dr := zip_with _ _ _) in Hdrop |- *.
  assert (length v = length l ∧ length ix = length l) as [Hlv Hlx] by (pose proof (sort_length l) as Hl; by rw Hs in Hl).
  assert (length dr = length l) as Hld.
  { rw /dr length_zip_with. assert (length (ts_softmax v) = length v) as Hsl.
    { rw -(length_fmap ts_value (ts_softmax v)) softmax_law; [by rw length_fmap|]. pose proof (sort_permutation l) as Hpp. rw Hs /= in Hpp. by rw Hpp. }
    assert (length (ts_cumsum (ts_softmax v)) = length v) as ->.
    { rw -(length_fmap ts_value) cumsum_law. rw -Hsl -(length_fmap ts_value (ts_softmax v)). generalize (ts_value <$> ts_softmax v).
      intros q. rw /np_cumsum. generalize 0%Qc. induction q as [|x q IH]; intros acc; cbn; [done|]. by rw IH. }
    lia. }
  destruct (masked_lookup (scatter dr ix dr) l i r) as (m & Hm & Hmask); [by rw length_scatter|done|].
  rw Hmask. do 2 f_equal. assert (index_select (scatter dr ix dr) ix = Some dr) as Hsel.
  { apply scatter_select; [|intros j Hj|by rw Hlx Hld].
    - rw Hperm. apply NoDup_seq.
    - rw Hperm in Hj. apply elem_of_seq in Hj. lia. }
  apply index_select_Some in Hsel. destruct (Forall2_lookup_l _ _ _ _ _ Hsel Ha) as (m' & Hm' & Hsc). cbn in Hsc. rw Hm in Hsc.
  rw Hdrop in Hm'. injection Hm' as <-. by injection Hsc as ->.
Qed.
Lemma top_p_spec p l i r : Exists (λ r, 0 < ts_weight r)%Qc l → (p < 1)%Qc → l !! i = Some r →
  ∃ a, (ts_sort_desc l).1 !! a = Some r ∧
    top_p_filter (Some p) l !! i =
      Some (if bool_decide (p * qsum (weights l) < qsum (take a (weights (ts_sort_desc l).1)))%Qc then ts_neg_inf else r).
Proof.
  intros Hex Hp Hi. assert (i ∈ (ts_sort_desc l).2) as Hin.
  { rw (sort_perm l). apply elem_of_seq. apply lookup_lt_Some in Hi. lia. }
  apply list_elem_of_lookup in Hin as [a Ha]. exists a. by apply top_p_at.
Qed.

(** * What can be sampled *)

(** The probabilities the sampler draws from. *)
Definition drawn_from (k : option Z) (p : option Qc) (scaled : list R) : result (list Qc) :=
  match top_k_filter k scaled with
  | Ok scaled => Ok (ts_value <$> ts_softmax (top_p_filter p scaled))
  | Raise e => Raise e
  end.

Lemma top_p_lookup p l i r : Exists (λ r, 0 < ts_weight r)%Qc l → l !! i = Some r →
  ∃ s, top_p_filter p l !! i = Some s ∧ (s = r ∨ ts_weight s = 0%Qc) ∧
    ((0 < ts_weight s)%Qc → s = r ∧ within_p p (weights l) (mass_above (weights l) (ts_weight r))) ∧
    (within_p p (weights l) (mass_from (weights l) (ts_weight r) - ts_weight r)%Qc → s = r).
Proof.
  intros Hex Hi. destruct p as [p|]; [|exists r; cbn; tauto].
  destruct (decide (p < 1)%Qc) as [Hp|Hp]; [|exists r; rw /top_p_filter bool_decide_false //; cbn; tauto].
  destruct (top_p_spec p l i r Hex Hp Hi) as (a & Ha & Hs). eexists. split; [exact Hs|].
  assert (weights (ts_sort_desc l).1 !! a = Some (ts_weight r)) as Hwa by by rw /weights list_lookup_fmap Ha.
  destruct (prefix_mass _ _ _ (sort_descending l) (weights_nonneg _) Hwa) as [Hlo Hhi].
  assert (weights (ts_sort_desc l).1 ≡ₚ weights l) as Hperm by (rw /weights; by rw sort_permutation).
  rw (mass_above_perm _ _ _ Hperm) in Hlo. rw (mass_from_perm _ _ _ Hperm) in Hhi. cbn [within_p].
  case_bool_decide as Hd; rw ?weight_neg_inf; split_and!; try tauto.
  - by intros ?%Qclt_not_eq.
  - intros Hw. exfalso. apply Qclt_not_le in Hd. apply Hd. eapply Qcle_trans; [exact Hhi|]. by apply Hw.
  - intros _. split; [done|]. intros _. apply Qcnot_lt_le in Hd. by eapply Qcle_trans.
Qed.

Lemma top_p_length p l : Exists (λ r, 0 < ts_weight r)%Qc l → length (top_p_filter p l) = length l.
Proof.
  intros Hex. assert (∀ i, is_Some (l !! i) → is_Some (top_p_filter p l !! i)) as H1.
  { intros i [r Hr]. destruct (top_p_lookup p l i r Hex Hr) as (s & -> & _). done. }
  apply Nat.le_antisymm.
  - destruct p as [p|]; [|done]. rw /top_p_filter. destruct (bool_decide _); [|done]. destruct (ts_sort_desc l) as [v ix].
    rw /masked_fill length_zip_with. lia.
  - destruct l as [|x l]; [cbn; lia|].
    destruct (H1 (length l)) as [s Hs]; [by apply lookup_lt_is_Some_2; cbn; lia|]. apply lookup_lt_Some in Hs. cbn. lia.
Qed.

(** The heaviest survivor of top-k is never dropped. *)
Lemma heaviest_kept p l : Exists (λ r, 0 < ts_weight r)%Qc l → match p with Some p => (0 <= p)%Qc | None => True end →
  Exists (λ r, 0 < ts_weight r)%Qc (top_p_filter p l).
Proof.
  intros Hex Hp. destruct p as [p|]; [|done]. destruct (decide (p < 1)%Qc) as [Hp1|Hp1]; [|by rw /top_p_filter bool_decide_false].
  assert (0 < length l) as Hlen by (destruct l; [by apply Exists_nil in Hex|cbn; lia]). destruct (sort_length l) as [Hl1 Hl2].
  destruct (lookup_lt_is_Some_2 (ts_sort_desc l).2 0) as [i Hi]; [lia|].
  destruct (Forall2_lookup_r _ _ _ _ _ (sort_values l) Hi) as (r & Hr & Hir). cbn in Hir.
  destruct (top_p_at p l 0 i r Hex Hp1 Hi Hir) as [_ Hs]. rw bool_decide_false in Hs.
  - apply Exists_exists. exists r. split; [by eapply list_elem_of_lookup_2|].
    rw -(sort_permutation l) in Hex. apply Exists_exists in Hex as (x & Hx & Hxp). apply list_elem_of_lookup in Hx as [j Hj].
    eapply Qclt_le_trans; [exact Hxp|]. eapply (sort_sorted l 0 j); [lia|done|done].
  - rw take_0. change (qsum []) with 0%Qc. apply Qcle_not_lt. pose proof (weights_sum_pos l Hex) as HT.
    replace 0%Qc with (0 * qsum (weights l))%Qc by ring. apply Qcmult_le_compat_r; [done|by apply Qclt_le_weak].
Qed.
Lemma exists_weights l : Exists (λ r, 0 < ts_weight r)%Qc l ↔ Exists (λ x, 0 < x)%Qc (weights l).
Proof. by rw /weights Exists_fmap. Qed.

(** The heaviest token is among the top [k]. *)
Lemma top_weights_pos k l : Exists (λ r, 0 < ts_weight r)%Qc l → match k with Some k => 0 ≤ k | None => True end%Z →
  Exists (λ x, 0 < x)%Qc (top_weights k (weights l)).
Proof.
  intros Hex Hk. destruct k as [k|]; [|by apply exists_weights]. destruct (decide (k = 0)%Z) as [->|Hk0]; [by apply exists_weights|].
  assert (top_weights (Some k) (weights l) = (λ x, if bool_decide (Z.of_nat (heavier (weights l) x) < k)%Z then x else 0%Qc) <$> weights l) as ->.
  { rw /top_weights. by destruct k. }
  pose proof Hex as Hex'. rw -(sort_permutation l) in Hex'. apply Exists_exists in Hex' as (x & Hx & Hxp).
  apply list_elem_of_lookup in Hx as [j Hj]. destruct (lookup_lt_is_Some_2 (ts_sort_desc l).1 0) as [r Hr]; [apply lookup_lt_Some in Hj; lia|].
  apply Exists_fmap, Exists_exists. exists (ts_weight r). split.
  { apply list_elem_of_fmap_2. rw -(sort_permutation l). by eapply list_elem_of_lookup_2. }
  cbn. rw bool_decide_true.
  - eapply Qclt_le_trans; [exact Hxp|]. eapply (sort_sorted l 0 j); [lia|done|done].
  - assert (heavier (weights l) (ts_weight r) = 0) as ->; [|lia]. rw (heavier_perm _ (weights (ts_sort_desc l).1)); [|rw /weights; by rw sort_permutation].
    rw /heavier list_filter_none //. intros y [i Hi]%list_elem_of_lookup. rw /weights list_lookup_fmap in Hi.
    destruct ((ts_sort_desc l).1 !! i) as [z|] eqn:Hz; [|done]. cbn in Hi. injection Hi as <-. apply Qcle_not_lt. eapply (sort_sorted l 0 i); [lia|done|done].
Qed.

(** What survives both filters, token by token. *)
Lemma filters_spec k p l : Exists (λ r, 0 < ts_weight r)%Qc l → match k with Some k => 0 ≤ k | None => True end%Z →
  match p with Some p => (0 <= p)%Qc | None => True end →
  let wk := top_weights k (weights l) in
  ∃ l1, top_k_filter k l = Ok l1 ∧ length (top_p_filter p l1) = length l ∧
    Exists (λ r, 0 < ts_weight r)%Qc (top_p_filter p l1) ∧
    ∀ i x, wk !! i = Some x → ∃ s, top_p_filter p l1 !! i = Some s ∧ (ts_weight s = x ∨ ts_weight s = 0%Qc) ∧
      ((0 < ts_weight s)%Qc → ts_weight s = x ∧ within_p p wk (mass_above wk x)) ∧
      (within_p p wk (mass_from wk x - x)%Qc → ts_weight s = x).
Proof.
  intros Hex Hk Hp wk. assert (l ≠ []) as Hne by (intros ->; by apply Exists_nil in Hex).
  destruct (top_k_weights k l Hne Hk) as (l1 & Hl1 & Hw1). fold wk in Hw1.
  assert (Exists (λ r, 0 < ts_weight r)%Qc l1) as Hex1 by (apply exists_weights; rw Hw1; by apply top_weights_pos).
  exists l1. split; [done|]. split; [|split; [by apply heaviest_kept|]].
  - rw top_p_length // -(length_fmap ts_weight l1) -/(weights l1) Hw1 /wk /top_weights. destruct k as [[]|]; by rw ?length_fmap.
  - intros i x Hx. rw -Hw1 /weights list_lookup_fmap in Hx. destruct (l1 !! i) as [r|] eqn:Hr; [|done]. cbn in Hx. injection Hx as <-.
    destruct (top_p_lookup p l1 i r Hex1 Hr) as (s & Hs & H1 & H2 & H3). rw Hw1 in H2 H3. exists s. split; [done|].
    split; [destruct H1 as [->|]; tauto|]. split.
    + intros Hpos. destruct (H2 Hpos) as [-> Hin]. done.
    + intros Hin. by rw (H3 Hin).
Qed.
End filters.

(** C32: both samplers draw from exactly the documented candidates.  For logits with at least
    one finite entry, a [top_k] and a [top_p] that are not negative: sampling returns a token,
    never an empty choice; the token has positive weight, is among the [top_k] most likely
    (ties included), and the tokens that are strictly more likely do not already exceed
    [top_p] of what top-k left; conversely every token whose predecessors, ties included,
    stay within [top_p] can be drawn (also when they amount to exactly [top_p], so that
    two equally likely tokens are both kept for one half); the tokens that can be drawn keep their relative
    likelihood; and the filter of single-sequence generation leaves the same distribution. *)
Theorem sample_nucleus {R} `{TorchSampling R, !SoftmaxLaws R} seed logits (p : SamplingParams) :
  let scaled := (λ x, ts_div x (temperature p)) <$> logits in
  let w := weights scaled in
  let wk := top_weights (top_k p) w in
  Exists (λ r, 0 < ts_weight r)%Qc scaled →
  match top_k p with Some k => 0 ≤ k | None => True end%Z →
  match top_p p with Some q => (0 <= q)%Qc | None => True end →
  (∃ i x, _sample_with_params seed logits p = Ok (Z.of_nat i) ∧ w !! i = Some x ∧ wk !! i = Some x ∧ (0 < x)%Qc ∧
     within_p (top_p p) wk (mass_above wk x)) ∧
  ∃ probs total, drawn_from (top_k p) (top_p p) scaled = Ok probs ∧ (0 < total)%Qc ∧ length probs = length logits ∧
    (∀ i x, wk !! i = Some x → probs !! i = Some (x / total)%Qc ∨ probs !! i = Some 0%Qc) ∧
    (∀ i x, wk !! i = Some x → (0 < x)%Qc → within_p (top_p p) wk (mass_from wk x - x)%Qc → probs !! i = Some (x / total)%Qc) ∧
    ∀ g, g_temperature g = temperature p → g_top_k g = top_k p → g_top_p g = top_p p →
      ∃ l, _filter_logits logits g = Ok l ∧ ts_value <$> ts_softmax l = probs.
Proof.
  intros scaled w wk Hex Hk Hp. destruct (filters_spec (top_k p) (top_p p) scaled Hex Hk Hp) as (l1 & Hl1 & Hlen & Hpos & Hall).
  fold w wk in Hall. set (l2 := top_p_filter (top_p p) l1) in *. set (total := qsum (weights l2)).
  assert (ts_value <$> ts_softmax l2 = (λ r, ts_weight r / total)%Qc <$> l2) as Hsoft by by apply softmax_law.
  assert (0 < total)%Qc as Htot by by apply weights_sum_pos.
  assert (∀ i s, l2 !! i = Some s → (ts_value <$> ts_softmax l2) !! i = Some (ts_weight s / total)%Qc) as Hprob.
  { intros i s Hs. by rw Hsoft list_lookup_fmap Hs. }
  assert (∀ x : Qc, x = 0%Qc → (x / total)%Qc = 0%Qc) as Hz by (intros x ->; rw /Qcdiv; ring).
  assert (length (ts_softmax l2) = length l2) as Hls by by rw -(length_fmap ts_value (ts_softmax l2)) Hsoft length_fmap.
  assert (length wk = length scaled) as Hlw by (rw /wk /top_weights /w /weights; destruct (top_k p) as [[]|]; by rw ?length_fmap).
  split.
  - destruct (multinomial_law seed (ts_softmax l2)) as (i & r & Hm & Hr & Hrp).
    + apply Forall_lookup. intros i r Hr. assert ((ts_value <$> ts_softmax l2) !! i = Some (ts_value r)) as Hv by by rw list_lookup_fmap Hr.
      rw Hsoft list_lookup_fmap in Hv. destruct (l2 !! i); [|done]. cbn in Hv. injection Hv as <-. apply qc_div_nonneg; [done|apply weight_nonneg].
    + apply Exists_exists in Hpos as (s & Hs & Hsp). apply list_elem_of_lookup in Hs as [i Hs]. pose proof (Hprob i s Hs) as Hv.
      rw list_lookup_fmap in Hv. destruct (ts_softmax l2 !! i) as [r|] eqn:Hr; [|done]. cbn in Hv. injection Hv as Hv.
      apply Exists_exists. exists r. split; [by eapply list_elem_of_lookup_2|]. rw Hv.
      apply Qcnot_le_lt. intros Hle. apply qc_div_le_iff in Hle; [|done]. rw Qcmult_0_l in Hle. by apply Qclt_not_le in Hsp.
    + assert (i < length wk) as Hi by (apply lookup_lt_Some in Hr; lia).
      destruct (lookup_lt_is_Some_2 wk i Hi) as [x Hx]. destruct (Hall i x Hx) as (s & Hs & _ & Hkeep & _).
      assert (ts_value r = ts_weight s / total)%Qc as Hrv.
      { pose proof (Hprob i s Hs) as Hv. rw list_lookup_fmap Hr in Hv. by injection Hv. }
      assert (0 < ts_weight s)%Qc as Hsp.
      { destruct (Qc_eq_dec (ts_weight s) 0%Qc) as [Heq|Hne]; [rw Hrv (Hz _ Heq) in Hrp; by apply Qclt_not_eq in Hrp|].
        pose proof (weight_nonneg s) as Hn. apply Qcle_lt_or_eq in Hn as [|Hn]; [done|]. by destruct Hne. }
      destruct (Hkeep Hsp) as [Hsx Hin]. exists i, x. split; [|split; [|split; [done|split; [by rw -Hsx|done]]]].
      * rw /_sample_with_params -/scaled Hl1 -/l2. by rw Hm.
      * assert (0 < x)%Qc as Hxp by by rw -Hsx. revert Hx Hxp. rw /wk /top_weights. destruct (top_k p) as [[|kk|kk]|]; try done;
          rw list_lookup_fmap; destruct (w !! i); cbn; try done; case_bool_decide; intros [= <-]; done.
  - exists (ts_value <$> ts_softmax l2), total. rw /drawn_from Hl1. split_and!; [done|done|by rw length_fmap Hls Hlen /scaled length_fmap|..].
    + intros i x Hx. destruct (Hall i x Hx) as (s & Hs & Hor & _). rw (Hprob i s Hs). destruct Hor as [->|H0]; [by left|right]. by rw Hz.
    + intros i x Hx Hxp Hin. destruct (Hall i x Hx) as (s & Hs & _ & _ & Hback). by rw (Hprob i s Hs) (Hback Hin).
    + intros g Ht Hgk Hgp. exists l2. split; [|done]. by rw /_filter_logits Ht Hgk Hgp -/scaled Hl1.
Qed.

(** ** An instance *)

(** Numbers that are their own weights, with the negative ones as minus infinity. *)
Module ToyTorch.
Definition weight (x : Qc) : Qc := qc_max 0%Qc x.

Definition heavier_first (a b : Qc * nat) : Prop := (weight b.1 <= weight a.1)%Qc.
#[local] Instance heavier_first_dec : RelDecision heavier_first.
Proof. intros a b. rw /heavier_first. apply _. Defined.
#[local] Instance heavier_first_trans : Transitive heavier_first.
Proof. intros a b c H1 H2. by eapply Qcle_trans. Qed.
#[local] Instance heavier_first_total : Total heavier_first.
Proof. intros a b. destruct (Qclt_le_dec (weight a.1) (weight b.1)) as [Hlt|Hle]; [right; by apply Qclt_le_weak|by left]. Qed.

Definition sorted (l : list Qc) : list (Qc * nat) := merge_sort heavier_first (zip l (seq 0 (length l))).

#[global] Instance torch : TorchSampling Qc := {
  ts_div := λ x t, (x / t)%Qc;
  ts_lt := λ a b, bool_decide (weight a < weight b)%Qc;
  ts_neg_inf := 0%Qc;
  ts_sub := λ a b, (a - b)%Qc;
  ts_gt := λ a p, bool_decide (p < a)%Qc;
  ts_softmax := λ l, (λ x, weight x / qsum (weight <$> l))%Qc <$> l;
  ts_cumsum := np_cumsum;
  ts_sort_desc := λ l, ((sorted l).*1, (sorted l).*2);
  ts_argmax := λ _, 0%Z;
  ts_multinomial := λ _ l, Z.of_nat (default 0 (fst <$> list_find (λ x, 0 < x)%Qc l));
}.

Lemma sorted_perm l : sorted l ≡ₚ zip l (seq 0 (length l)).
Proof. apply merge_sort_Permutation. Qed.

#[global] Program Instance laws : SoftmaxLaws Qc := {| ts_weight := weight; ts_value := λ x, x |}.
Next Obligation. intros r. apply qc_max_spec. Qed.
Next Obligation. done. Qed.
Next Obligation. intros a b. apply bool_decide_eq_true. Qed.
Next Obligation. intros l. cbn. rw (sorted_perm l) snd_zip; [done|]. rw length_seq. lia. Qed.
Next Obligation.
  intros l. cbn. apply Forall2_fmap_2, Forall_Forall2_diag. rw (sorted_perm l). apply Forall_lookup. intros i [v j] Hi.
  apply lookup_zip_with_Some in Hi as (v' & j' & [= -> ->] & Hv & Hj). apply lookup_seq in Hj as [-> _]. done.
Qed.
Next Obligation.
  intros l i j a b Hij Ha Hb. cbn in Ha, Hb. apply list_lookup_fmap_Some in Ha as (pa & -> & Ha). apply list_lookup_fmap_Some in Hb as (pb & -> & Hb).
  assert (StronglySorted heavier_first (sorted l)) as Hs.
  { apply Sorted_StronglySorted; [apply _|]. apply (Sorted_merge_sort heavier_first). }
  destruct (decide (i = j)) as [<-|Hne]; [simplify_eq; apply Qcle_refl|].
  rw -(take_drop (S i) (sorted l)) in Hs. eapply StronglySorted_app_1_elem_of in Hs; [exact Hs|..].
  - eapply (list_elem_of_lookup_2 _ i). rw lookup_take_lt; [done|lia].
  - eapply (list_elem_of_lookup_2 _ (j - S i)). rw lookup_drop. by replace (S i + (j - S i)) with j by lia.
Qed.
Next Obligation. intros l _. by rw list_fmap_id. Qed.
Next Obligation. intros l. by rw !list_fmap_id. Qed.
Next Obligation. done. Qed.
Next Obligation. intros a p. apply bool_decide_eq_true. Qed.
Next Obligation.
  intros seed l _ Hex. cbn. destruct (list_find (λ x, 0 < x)%Qc l) as [[i x]|] eqn:Hf.
  - apply list_find_Some in Hf as (Hi & Hx & _). by exists i, x.
  - apply list_find_None in Hf. apply Exists_exists in Hex as (x & Hx & Hp). eapply Forall_forall in Hf; [|exact Hx]. done.
Qed.

(** Weights 4, 3, 2, 1: three survive top-3, and two of them cover two thirds of the mass. *)
Definition logits : list Qc := [qc_of_Z 3; qc_of_Z 1; qc_of_Z 4; qc_of_Z 2].
Definition ask : SamplingParams := mkParams 8 1%Qc (Some 3%Z) (Some (Q2Qc (2 # 3))) false.
End ToyTorch.

Lemma sample_nucleus_witness :
  match drawn_from (Some 3%Z) (Some (Q2Qc (2 # 3))) ToyTorch.logits with
  | Ok probs => (λ q : Qc, this q) <$> probs = [3 # 7; 0; 4 # 7; 0]%Q
  | Raise _ => False
  end ∧
  ∃ i x, _sample_with_params 0 ToyTorch.logits ToyTorch.ask = Ok (Z.of_nat i) ∧
    weights ((λ x, ts_div x 1%Qc) <$> ToyTorch.logits) !! i = Some x ∧ (0 < x)%Qc.
Proof.
  split; [vm_compute; reflexivity|].
  destruct (sample_nucleus 0 ToyTorch.logits ToyTorch.ask) as [(i & x & H1 & H2 & _ & H3 & _) _].
  - left. reflexivity.
  - discriminate.
  - discriminate.
  - exists i, x. split; [exact H1|]. split; [exact H2|exact H3].
Defined.
