(* ===== verification/Chaos.v ===== *)
(** * The chaos harness (bench/chaos/harness.py)

    What the clients of a cluster observe while it is being broken: the client that
    reads one event stream, the workers that keep a constant number of them going, the
    statistics of their outcomes, polling with a deadline, and the relay that injects
    network faults.  Sockets, processes and the clock are parameters; texts are lists of
    code points, one line at a time. *)

From Stdlib Require Import ssreflect QArith Qround Qcanon Lqa.
From stdpp Require Import prelude gmap list strings sorting.
From S2P Require Import Prelude Types Rationals BenchMetrics Text Tokenizer Data Train.
#[local] Open Scope nat_scope.

(** ** Outcomes *)

Record RequestOutcome := mkOutcome {
  o_ok : bool;
  o_started : Qc;
  o_ttft : option Qc;
  o_total : option Qc;
  o_tokens : nat;
  o_text : list Z;
  o_error : list Z;
  o_status : nat;
}.

Definition new_outcome (started : Qc) : RequestOutcome := mkOutcome false started None None 0 [] [] 0.
Definition set_error (e : list Z) (o : RequestOutcome) : RequestOutcome :=
  mkOutcome (o_ok o) (o_started o) (o_ttft o) (o_total o) (o_tokens o) (o_text o) e (o_status o).
Definition set_status (n : nat) (o : RequestOutcome) : RequestOutcome :=
  mkOutcome (o_ok o) (o_started o) (o_ttft o) (o_total o) (o_tokens o) (o_text o) (o_error o) n.
Definition set_token (ttft : option Qc) (text : list Z) (o : RequestOutcome) : RequestOutcome :=
  mkOutcome (o_ok o) (o_started o) ttft (o_total o) (S (o_tokens o)) text (o_error o) (o_status o).
Definition set_done (total : Qc) (o : RequestOutcome) : RequestOutcome :=
  mkOutcome true (o_started o) (o_ttft o) (Some total) (o_tokens o) (o_text o) (o_error o) (o_status o).

(** ** Statistics *)

(** [int(round(q * n + 0.5)) - 1], clamped to the indices of the list. *)
Definition percentile_index (q : Qc) (n : nat) : Z :=
  Z.max 0 (Z.min (Z.of_nat n - 1) (round_half_even (this q * inject_Z (Z.of_nat n) + (1 # 2)) - 1)).

Definition percentile (values : list Qc) (q : Qc) : Qc :=
  match values with
  | [] => 0%Qc
  | _ =>
      let ordered := sort_by id values in
      nth (Z.to_nat (percentile_index q (length ordered))) ordered 0%Qc
  end.

Record LoadStats := mkLoadStats {
  ls_total : nat;
  ls_ok : nat;
  ls_failed : nat;
  ls_errors : list (list Z * nat);
  ls_ttft_p50 : Qc; ls_ttft_p99 : Qc;
  ls_latency_p50 : Qc; ls_latency_p99 : Qc;
}.

Definition drop_rate (s : LoadStats) : Qc :=
  if ls_total s =? 0 then 0%Qc else (qc_of_nat (ls_failed s) / qc_of_nat (ls_total s))%Qc.

(** [(o.error or f"http {o.status}")[:80]]. *)
Definition error_key (o : RequestOutcome) : list Z :=
  take 80 (match o_error o with [] => codes "http " ++ decimal (o_status o) | e => e end).

(** The accumulators of the loop of [summarise]. *)
Record Tally := mkTally { t_ok : nat; t_failed : nat; t_errors : list (list Z * nat); t_ttfts : list Qc; t_totals : list Qc }.

Definition tally_one (t : Tally) (o : RequestOutcome) : Tally :=
  if o_ok o then
    mkTally (S (t_ok t)) (t_failed t) (t_errors t)
      (t_ttfts t ++ option_list (o_ttft o)) (t_totals t ++ option_list (o_total o))
  else
    let key := error_key o in
    mkTally (t_ok t) (S (t_failed t)) (dset key (default 0 (dget key (t_errors t)) + 1) (t_errors t)) (t_ttfts t) (t_totals t).

Definition tally (outcomes : list RequestOutcome) : Tally := foldl tally_one (mkTally 0 0 [] [] []) outcomes.

Definition q50 : Qc := Q2Qc (1 # 2).
Definition q99 : Qc := Q2Qc (99 # 100).

Definition summarise (outcomes : list RequestOutcome) : LoadStats :=
  let t := tally outcomes in
  mkLoadStats (length outcomes) (t_ok t) (t_failed t) (t_errors t)
    (percentile (t_ttfts t) q50) (percentile (t_ttfts t) q99)
    (percentile (t_totals t) q50) (percentile (t_totals t) q99).

Definition mean (values : list Qc) : Qc := match values with [] => 0%Qc | _ => qmean values end.

(** ** One client *)

Section client.
Context `{Unicode} (clock : nat → Qc).
(** [json.loads(payload).get("text", "")]; a payload that is not JSON raises [ValueError]. *)
Context (json_text : list Z → result (list Z)).

Definition read_clock : M nat Qc := λ n, (Ok (clock n), S n).

Definition event_prefix : list Z := codes "event:".
Definition data_prefix : list Z := codes "data:".
Definition startswith (p s : list Z) : bool := bool_decide (p `prefix_of` s).
(** [raw.decode(...).rstrip("\r\n")]. *)
Definition strip_newline (s : list Z) : list Z := rstrip (λ c, (c =? 13)%Z || (c =? 10)%Z) s.

(** What a line leads to: go on with the current event and outcome, or return. *)
Inductive after_line := Go (event : option (list Z)) (out : RequestOutcome) | Return (out : RequestOutcome).

Definition on_data (event : option (list Z)) (payload : list Z) (out : RequestOutcome) : M nat after_line :=
  if bool_decide (event = Some (codes "error")) then ret (Return (set_error (take 200 payload) out))
  else if bool_decide (event = Some (codes "rejected")) then
    ret (Return (set_error (codes "rejected: " ++ take 120 payload) out))
  else if bool_decide (event = Some (codes "token")) then
    let* ttft := (match o_ttft out with
                  | None => let* t := read_clock in ret (Some (t - o_started out)%Qc)
                  | t => ret t
                  end) in
    match json_text payload with
    | Ok text => ret (Go event (set_token ttft (o_text out ++ text) out))
    | Raise ValueError => ret (Go event (set_token ttft (o_text out) out))
    | Raise e => raise e
    end
  else if bool_decide (event = Some (codes "done")) then
    let* t := read_clock in ret (Return (set_done (t - o_started out)%Qc out))
  else ret (Go event out).

Definition on_line (event : option (list Z)) (raw : list Z) (out : RequestOutcome) : M nat after_line :=
  let line := strip_newline raw in
  if startswith event_prefix line then ret (Go (Some (strip is_space (drop 6 line))) out)
  else if negb (startswith data_prefix line) then ret (Go event out)
  else on_data event (strip is_space (drop 5 line)) out.

(** How the body of a response ends: properly; with an error of the connection ([OSError]
    and its subclasses) and its text; or short of what was announced, as when the connection
    is closed inside a chunk or between two of them, which [http.client] reports with an
    exception of its own, [IncompleteRead]. *)
Inductive stream_end :=
  | Closed
  | CutWith (msg : list Z)
  | CutShort.

(** [for raw in resp]. *)
Fixpoint read_lines (event : option (list Z)) (lines : list (list Z)) (cut : stream_end) (out : RequestOutcome) :
    M nat RequestOutcome :=
  match lines with
  | [] => match cut with
          | Closed => ret (set_error (codes "stream ended without done event") out)
          | CutWith msg => ret (set_error (take 120 msg) out)
          | CutShort => raise HTTPException
          end
  | line :: lines =>
      let* next := on_line event line out in
      match next with
      | Go event out => read_lines event lines cut out
      | Return out => ret out
      end
  end.

(** What the network does with the request; a reply that is not HTTP is reported by
    [http.client] as well ([BadStatusLine]). *)
Inductive Reply :=
  | Streamed (status : nat) (lines : list (list Z)) (cut : stream_end)
  | HttpFailed (code : nat)
  | Unreachable (msg : list Z)
  | NotHttp.

Definition one_request (reply : Reply) : M nat RequestOutcome :=
  let* started := read_clock in
  let out := new_outcome started in
  match reply with
  | Streamed status lines cut => read_lines None lines cut (set_status status out)
  | HttpFailed code => ret (set_error (codes "http " ++ decimal code) (set_status code out))
  | Unreachable msg => ret (set_error (take 120 msg) out)
  | NotHttp => raise HTTPException
  end.
End client.

(** ** The load *)

(** The prompt of the [k]-th request of a worker. *)
Definition worker_prompt {A} (prompts : list A) (concurrency worker k : nat) : option A :=
  prompts !! ((worker + k * concurrency) mod length prompts).

(** A driver: its number of clients, the outcomes its workers have appended, whether
    they have been started and not told to stop, and how many of them an exception ended. *)
Record LoadDriver := mkDriver {
  d_concurrency : nat;
  d_max_tokens : nat;
  d_outcomes : list RequestOutcome;
  d_running : bool;
  d_dead : nat;
}.
Definition new_driver (concurrency max_tokens : nat) : LoadDriver := mkDriver concurrency max_tokens [] false 0.

(** What a worker does with the result of [one_request]: append it, or end. *)
Definition worker_turn (d : LoadDriver) (r : result RequestOutcome) : LoadDriver :=
  match r with
  | Ok o => mkDriver (d_concurrency d) (d_max_tokens d) (d_outcomes d ++ [o]) (d_running d) (d_dead d)
  | Raise _ => mkDriver (d_concurrency d) (d_max_tokens d) (d_outcomes d) (d_running d) (S (d_dead d))
  end.

(** [mark] and [slice], on the list the workers append to. *)
Definition mark (d : LoadDriver) : nat := length (d_outcomes d).
Definition slice_outcomes (d : LoadDriver) (start end_ : nat) : list RequestOutcome :=
  take (end_ - start) (drop start (d_outcomes d)).

Definition default_prompts : list string :=
  let system := ("You are a careful assistant. Answer precisely and admit uncertainty " +:+
                 "rather than guessing. Keep responses grounded in what was asked. ")%string in
  let tail := ["Explain why the sky appears blue."; "Summarise how a hash table works."; "What is the capital of France?";
               "Describe gradient descent in one paragraph."; "Write a haiku about winter."]%string in
  replicate 12 (system +:+ "Tell me a short story about a lighthouse.")%string ++
  ((λ q, system +:+ q) <$> tail) ++ tail.

(** [wait_until]: [None] when [fuel] rounds were not enough. *)
Section wait.
Context {W : Type} (time : M W Qc) (sleep : Qc → M W unit).

Fixpoint poll_until (fuel : nat) (predicate : M W bool) (deadline poll : Qc) : M W (option bool) :=
  match fuel with
  | O => ret None
  | S fuel =>
      let* t := time in
      if bool_decide (t < deadline)%Qc then
        let* yes := predicate in
        if yes then ret (Some true)
        else do* sleep poll in poll_until fuel predicate deadline poll
      else ret (Some false)
  end.

Definition wait_until (fuel : nat) (predicate : M W bool) (timeout poll : Qc) : M W (option bool) :=
  let* t := time in poll_until fuel predicate (t + timeout)%Qc poll.
End wait.

(** * Statistics *)

(** The nearest rank: the least number of samples that make up the fraction [q]. *)
Definition nearest_rank (q : Qc) (n : nat) : Z := Qceiling (this q * inject_Z (Z.of_nat n)).

(** Whether [q * n] is an odd integer. *)
Definition odd_product (q : Qc) (n : nat) : bool :=
  let x := (this q * inject_Z (Z.of_nat n))%Q in Qeq_bool x (inject_Z (Qfloor x)) && Z.odd (Qfloor x).

Lemma Qfloor_unique (x : Q) (n : Z) : (inject_Z n <= x)%Q → (x < inject_Z n + 1)%Q → Qfloor x = n.
Proof.
  intros H1 H2. pose proof (Qfloor_le x) as Hlo. pose proof (Qlt_floor x) as Hhi. rw inject_Z_plus in Hhi. change (inject_Z 1) with 1%Q in Hhi.
  assert (inject_Z n < inject_Z (Qfloor x + 1))%Q as Ha by (rw inject_Z_plus; change (inject_Z 1) with 1%Q; lra).
  assert (inject_Z (Qfloor x) < inject_Z (n + 1))%Q as Hb by (rw inject_Z_plus; change (inject_Z 1) with 1%Q; lra).
  rw -Zlt_Qlt in Ha. rw -Zlt_Qlt in Hb. lia.
Qed.

Lemma Qceiling_unique (x : Q) (n : Z) : (inject_Z n - 1 < x)%Q → (x <= inject_Z n)%Q → Qceiling x = n.
Proof.
  intros H1 H2. rw /Qceiling (Qfloor_unique (- x) (- n)); [lia| |]; rw inject_Z_opp; lra.
Qed.

(** Rounding [x + 1/2] to the even neighbour gives the ceiling of [x], but one more at odd integers. *)
Lemma round_up_half (x : Q) :
  round_half_even (x + (1 # 2)) = (Qceiling x + if Qeq_bool x (inject_Z (Qfloor x)) && Z.odd (Qfloor x) then 1 else 0)%Z.
Proof.
  set (f := Qfloor x). pose proof (Qfloor_le x) as Hlo. pose proof (Qlt_floor x) as Hhi. fold f in Hlo, Hhi.
  rw inject_Z_plus in Hhi. change (inject_Z 1) with 1%Q in Hhi. rw /round_half_even.
  assert (inject_Z (f + 1) == inject_Z f + 1)%Q as Hs by (rw inject_Z_plus; reflexivity).
  destruct (Qeq_bool x (inject_Z f)) eqn:Heq.
  - apply Qeq_bool_iff in Heq. rw (Qfloor_unique _ f); [|lra|lra]. rw (Qceiling_unique x f); [|lra|lra].
    assert (x + (1 # 2) - inject_Z f == 1 # 2)%Q as -> by (rw Heq; ring).
    change ((1 # 2) ?= (1 # 2))%Q with Eq. cbv iota. rw -Z.negb_odd. destruct (Z.odd f); cbn; lia.
  - assert (inject_Z f < x)%Q as Hlt.
    { apply Qle_lteq in Hlo as [|Hx]; [done|]. symmetry in Hx. apply Qeq_bool_iff in Hx. congruence. }
    rw (Qceiling_unique x (f + 1)); [|lra|lra]. cbn [andb]. cbv iota. destruct (Qlt_le_dec (x - inject_Z f) (1 # 2)) as [Hd|Hd].
    + rw (Qfloor_unique _ f); [|lra|lra]. assert ((x + (1 # 2) - inject_Z f ?= 1 # 2)%Q = Gt) as -> by (apply Qgt_alt; lra). cbv iota. lia.
    + rw (Qfloor_unique _ (f + 1)); [|lra|lra]. assert ((x + (1 # 2) - inject_Z (f + 1) ?= 1 # 2)%Q = Lt) as -> by (apply -> Qlt_alt; lra). cbv iota. lia.
Qed.

(** The tail latencies are real samples, at nearly the nearest rank.  For a fraction
    between zero and one of at least one sample, [percentile] returns the sample of rank
    [ceil(q * n)] in ascending order, as documented - except when [q * n] is an odd
    integer, where half-even rounding takes the next larger sample: the 99th percentile
    of a hundred samples is their maximum.  Either way it is one of the samples. *)
Theorem percentile_rank values q : values ≠ [] → (0 <= q)%Qc → (q <= 1)%Qc →
  let n := length values in
  let rank := (nearest_rank q n + if odd_product q n then 1 else 0)%Z in
  (0 ≤ nearest_rank q n ≤ Z.of_nat n)%Z ∧
  sort_by id values !! Z.to_nat (Z.min rank (Z.of_nat n) - 1) = Some (percentile values q) ∧
  percentile values q ∈ values.
Proof.
  intros Hne H0 H1 n rank. assert (0 < n) as Hn by (subst n; destruct values; cbn; [done|lia]).
  assert (0 ≤ nearest_rank q n ≤ Z.of_nat n)%Z as Hr.
  { rw /nearest_rank. set (x := (this q * inject_Z (Z.of_nat n))%Q).
    assert (0 <= x /\ x <= inject_Z (Z.of_nat n))%Q as [Hx0 Hx1].
    { assert (0 <= inject_Z (Z.of_nat n))%Q as Hz by (change 0%Q with (inject_Z 0); rw -Zle_Qle; lia).
      unfold Qcle in H0, H1. change (this 0%Qc) with 0%Q in H0. change (this 1%Qc) with 1%Q in H1. subst x. split; nra. }
    clearbody x. pose proof (Qle_ceiling x) as Ha. pose proof (Qceiling_lt x) as Hb. rw inject_Z_plus in Hb. change (inject_Z (- (1))) with (-1)%Q in Hb.
    assert (inject_Z (-1) < inject_Z (Qceiling x))%Q as H2 by (change (inject_Z (-1)) with (-1)%Q; lra).
    assert (inject_Z (Qceiling x) < inject_Z (Z.of_nat n + 1))%Q as H3 by (rw inject_Z_plus; change (inject_Z 1) with 1%Q; lra).
    rw -Zlt_Qlt in H2. rw -Zlt_Qlt in H3. lia. }
  assert (percentile_index q n = Z.max 0 (Z.min rank (Z.of_nat n) - 1)) as Hidx.
  { rw /percentile_index round_up_half -/(odd_product q n) -/(nearest_rank q n). subst rank. lia. }
  assert (length (sort_by id values) = n) as Hlen by by rw sort_by_perm.
  assert (percentile values q = nth (Z.to_nat (percentile_index q n)) (sort_by id values) 0%Qc) as Hp.
  { rw /percentile Hlen. by destruct values. }
  destruct (lookup_lt_is_Some_2 (sort_by id values) (Z.to_nat (percentile_index q n))) as [v Hv].
  { rw Hlen Hidx. subst rank. destruct (odd_product q n); lia. }
  assert (percentile values q = v) as -> by by rw Hp (nth_lookup_Some _ _ _ _ Hv).
  split_and!; [lia|lia| |by rw -(sort_by_perm id values); eapply list_elem_of_lookup_2].
  rw -Hv Hidx. f_equal. lia.
Qed.

(** The documented rank of the 99th percentile of a hundred samples is 99; the code takes the 100th. *)
Example p99_of_hundred : (nearest_rank q99 100, percentile_index q99 100, percentile_index q50 2) = (99, 99, 1)%Z.
Proof. vm_compute. reflexivity. Qed.

(** The total of the values of a dict of counts. *)
Definition counts_total {K} (d : list (K * nat)) : nat := sum_list_with snd d.

Lemma dset_total {K} `{EqDecision K} (k : K) (d : list (K * nat)) :
  counts_total (dset k (default 0 (dget k d) + 1) d) = S (counts_total d).
Proof. rw /counts_total. induction d as [|[k' v] d IH]; cbn; [done|]. case_decide; cbn; [lia|]. rw IH. lia. Qed.

Lemma dset_same_get {K} `{EqDecision K} (k k' : K) (d : list (K * nat)) :
  default 0 (dget k' (dset k (default 0 (dget k d) + 1) d)) = default 0 (dget k' d) + (if decide (k = k') then 1 else 0).
Proof.
  case_decide as Hk; [subst; by rw dget_dset_eq|]. rw dget_dset_ne; [lia|]. by intros ->.
Qed.

(** The failures of an outcome list with a given key. *)
Definition failures (key : list Z) (outcomes : list RequestOutcome) : list RequestOutcome :=
  filter (λ o, o_ok o = false ∧ error_key o = key) outcomes.

Lemma failures_snoc key l o :
  length (failures key (l ++ [o])) = length (failures key l) + (if decide (o_ok o = false ∧ error_key o = key) then 1 else 0).
Proof. rw /failures filter_app length_app filter_cons filter_nil. by case_decide. Qed.

Lemma filter_ok_snoc l o :
  filter (λ o, o_ok o = true) (l ++ [o]) = filter (λ o, o_ok o = true) l ++ (if o_ok o then [o] else []).
Proof. rw filter_app filter_cons filter_nil. by destruct (o_ok o). Qed.

Lemma tally_snoc outcomes o : tally (outcomes ++ [o]) = tally_one (tally outcomes) o.
Proof. by rw /tally foldl_app. Qed.

(** The statistics of a load count what the clients saw.  Every outcome is counted
    once, as completed or failed; the errors break the failures down by message, each
    message with exactly its number of failures; the drop rate lies between zero and one
    and is zero exactly when every client was served; latencies come from completed
    requests only.  A rejected request counts as failed. *)
Theorem summarise_counts outcomes :
  let s := summarise outcomes in
  ls_total s = length outcomes ∧ ls_ok s = length (filter (λ o, o_ok o = true) outcomes) ∧
  ls_ok s + ls_failed s = ls_total s ∧ counts_total (ls_errors s) = ls_failed s ∧
  (∀ key, default 0 (dget key (ls_errors s)) = length (failures key outcomes)) ∧
  (0 <= drop_rate s ∧ drop_rate s <= 1)%Qc ∧ (drop_rate s = 0%Qc ↔ Forall (λ o, o_ok o = true) outcomes) ∧
  t_ttfts (tally outcomes) = omap o_ttft (filter (λ o, o_ok o = true) outcomes) ∧
  t_totals (tally outcomes) = omap o_total (filter (λ o, o_ok o = true) outcomes).
Proof.
  intros s. assert (t_ok (tally outcomes) = length (filter (λ o, o_ok o = true) outcomes) ∧
    t_ok (tally outcomes) + t_failed (tally outcomes) = length outcomes ∧
    counts_total (t_errors (tally outcomes)) = t_failed (tally outcomes) ∧
    (∀ key, default 0 (dget key (t_errors (tally outcomes))) = length (failures key outcomes)) ∧
    t_ttfts (tally outcomes) = omap o_ttft (filter (λ o, o_ok o = true) outcomes) ∧
    t_totals (tally outcomes) = omap o_total (filter (λ o, o_ok o = true) outcomes)) as (Hok & Hsum & Herr & Hkey & Htt & Hto).
  { clear s. induction outcomes as [|o l IH] using rev_ind; [done|]. destruct IH as (Hok & Hsum & Herr & Hkey & Htt & Hto).
    rw tally_snoc filter_ok_snoc /tally_one !length_app. cbn [length]. destruct (o_ok o) eqn:Ho; cbn [t_ok t_failed t_errors t_ttfts t_totals].
    - split_and!; [rw Hok /=; lia|lia|done|..].
      + intros key. rw Hkey failures_snoc decide_False; [lia|]. by rw Ho; intros [].
      + rw Htt omap_app /=. by destruct (o_ttft o).
      + rw Hto omap_app /=. by destruct (o_total o).
    - rw app_nil_r. split_and!; try done; [cbn; lia|cbn; lia|by rw dset_total Herr|].
      intros key. rw dset_same_get Hkey failures_snoc Ho. do 2 case_decide; naive_solver lia. }
  cbn [s summarise ls_total ls_ok ls_failed ls_errors].
  assert (ls_failed s = t_failed (tally outcomes) ∧ ls_total s = length outcomes) as [Hf Ht] by done.
  assert (ls_failed s = 0 ↔ Forall (λ o, o_ok o = true) outcomes) as Hzero.
  { rw Hf. rw Hok in Hsum. clear -Hsum. generalize dependent (t_failed (tally outcomes)). induction outcomes as [|o l IH]; intros f Hsum.
    - cbn in Hsum. split; [constructor|lia].
    - rw Forall_cons. pose proof (length_filter (λ o, o_ok o = true) l) as Hl. rw filter_cons in Hsum. case_decide as Ho; cbn in Hsum.
      + rw (IH f); [naive_solver|lia].
      + split; [lia|]. by intros []. }
  split_and!; try done.
  - rw /drop_rate. destruct (Nat.eqb_spec (ls_total s) 0); [done|]. apply qc_fraction; lia.
  - rw /drop_rate. destruct (Nat.eqb_spec (ls_total s) 0); [done|]. apply qc_fraction; lia.
  - rw -Hzero /drop_rate. destruct (Nat.eqb_spec (ls_total s) 0); [split; [lia|done]|]. split; [|intros ->; rw /Qcdiv; apply Qcmult_0_l].
    intros Hd. apply (f_equal (λ x, x * qc_of_nat (ls_total s))%Qc) in Hd. rw qc_div_mul in Hd; [|apply qc_of_nat_pos; lia].
    rw Qcmult_0_l in Hd. change 0%Qc with (qc_of_Z 0) in Hd. apply qc_of_Z_inj in Hd. lia.
Qed.

(** * The client reads what was streamed *)

Section stream.
Context `{Unicode} (clock : nat → Qc) (json_text : list Z → result (list Z)).

(** What a stream carries: events and comment lines. *)
Inductive item := Event (name payload : list Z) | Comment (text : list Z).

Definition newline : list Z := [13; 10]%Z.
Definition format_item (i : item) : list (list Z) :=
  match i with
  | Event name payload => [codes "event: " ++ name ++ newline; codes "data: " ++ payload ++ newline; newline]
  | Comment text => [codes ": " ++ text ++ newline; newline]
  end.
Definition format_stream (items : list item) : list (list Z) := items ≫= format_item.

(** A field value that survives the client's stripping. *)
Record tidy (s : list Z) : Prop := {
  td_strip : strip is_space (32%Z :: s) = s;
  td_last : match last s with Some c => c ≠ 13%Z ∧ c ≠ 10%Z | None => False end;
}.

(** The text a token's payload adds. *)
Definition token_text (payload : list Z) : list Z := match json_text payload with Ok t => t | Raise _ => [] end.
Definition readable (payload : list Z) : Prop :=
  tidy payload ∧ match json_text payload with Ok _ | Raise ValueError => True | _ => False end.

Lemma rstrip_snoc p (s : list Z) c : p c = true → rstrip p (s ++ [c]) = rstrip p s.
Proof. intros Hc. rw /rstrip rev_app_distr /= Hc. done. Qed.

Lemma rstrip_id p (s : list Z) : match last s with Some c => p c = false | None => True end → rstrip p s = s.
Proof.
  rw /rstrip. destruct s as [|c s] using rev_ind; [done|]. rw last_snoc rev_app_distr /=. intros ->. cbn.
  by rw rev_involutive.
Qed.

Lemma strip_newline_field (p s : list Z) : match last s with Some c => c ≠ 13%Z ∧ c ≠ 10%Z | None => False end →
  strip_newline (p ++ s ++ newline) = p ++ s.
Proof.
  intros Hl. rw /strip_newline. assert (p ++ s ++ newline = ((p ++ s) ++ [13%Z]) ++ [10%Z]) as -> by by rw -!app_assoc.
  rw !rstrip_snoc // rstrip_id //. rw last_app. destruct (last s) as [c|]; [|done]. destruct Hl as [H1 H2].
  apply orb_false_iff. split; by apply Z.eqb_neq.
Qed.

Lemma startswith_app p s : startswith p (p ++ s) = true.
Proof. apply bool_decide_eq_true. by apply prefix_app_r. Qed.

Lemma on_event_line event name out n : tidy name →
  on_line clock json_text event (codes "event: " ++ name ++ newline) out n = (Ok (Go (Some name) out), n).
Proof.
  intros [Hs Hl]. rw /on_line strip_newline_field //. change (codes "event: ") with (event_prefix ++ [32%Z]).
  rw -app_assoc startswith_app. by rw (_ : drop 6 (event_prefix ++ [32%Z] ++ name) = 32%Z :: name) // Hs.
Qed.

Lemma on_data_line event payload out n : tidy payload →
  on_line clock json_text event (codes "data: " ++ payload ++ newline) out n = on_data clock json_text event payload out n.
Proof.
  intros [Hs Hl]. rw /on_line strip_newline_field //. change (codes "data: ") with (data_prefix ++ [32%Z]).
  rw -app_assoc startswith_app. rw (_ : startswith event_prefix _ = false); [|by apply bool_decide_eq_false; intros [? [=]]].
  cbn [negb]. by rw (_ : drop 5 (data_prefix ++ [32%Z] ++ payload) = 32%Z :: payload) // Hs.
Qed.

Lemma on_other_line event c text out n : c ≠ 101%Z → c ≠ 100%Z → c ≠ 13%Z → c ≠ 10%Z →
  on_line clock json_text event (c :: text) out n = (Ok (Go event out), n).
Proof.
  intros He Hd H13 H10. rw /on_line /startswith /strip_newline.
  assert (∃ t, rstrip (λ c, (c =? 13)%Z || (c =? 10)%Z) (c :: text) = c :: t) as [t ->].
  { rw /rstrip. cbn [rev]. induction (rev text) as [|d l IH]; cbn [app lstrip].
    - rw (proj2 (Z.eqb_neq c 13)) // (proj2 (Z.eqb_neq c 10)) //. by exists [].
    - destruct (_ || _); [done|]. exists (rev (d :: l)). change (d :: l ++ [c]) with ((d :: l) ++ [c]). by rw rev_unit. }
  rw !bool_decide_false; [done|..]; intros [k Hk]; apply (f_equal head) in Hk; cbv in Hk; congruence.
Qed.

Lemma on_blank event out n : on_line clock json_text event newline out n = (Ok (Go event out), n).
Proof. done. Qed.

(** The outcome after some token events, with the clock's next reading. *)
Definition after_tokens (first : option Qc) (payloads : list (list Z)) (out : RequestOutcome) : RequestOutcome :=
  match payloads with
  | [] => out
  | _ => mkOutcome (o_ok out) (o_started out) (match o_ttft out with None => first | t => t end) (o_total out)
           (o_tokens out + length payloads) (o_text out ++ concat (token_text <$> payloads)) (o_error out) (o_status out)
  end.

(** A comment and its blank line leave everything as it is. *)
Lemma read_comment event text items cut out n :
  read_lines clock json_text event (format_stream (Comment text :: items)) cut out n =
  read_lines clock json_text event (format_stream items) cut out n.
Proof.
  rw /format_stream /=. rw {1}/bind on_other_line //.
Qed.

(** An event leads to what its data leads to. *)
Lemma read_event event name payload items cut out n : tidy name → tidy payload →
  read_lines clock json_text event (format_stream (Event name payload :: items)) cut out n =
  (let* next := on_data clock json_text (Some name) payload out in
   match next with
   | Go event out => read_lines clock json_text event (format_stream items) cut out
   | Return out => ret out
   end) n.
Proof.
  intros Hn Hp. rw /format_stream bind_cons /format_item. cbn [app read_lines]. rw {1}/bind on_event_line // {1}/bind on_data_line // {3}/bind.
Qed.

(** The payloads of the token events of a stream. *)
Definition token_payloads (items : list item) : list (list Z) :=
  omap (λ i, match i with Event _ p => Some p | Comment _ => None end) items.

Definition only_tokens (items : list item) : Prop :=
  Forall (λ i, match i with Event name p => name = codes "token" ∧ readable p | Comment _ => True end) items.

Lemma after_tokens_cons first p ps out :
  after_tokens first (p :: ps) out =
  after_tokens first ps (set_token (match o_ttft out with None => first | t => t end) (o_text out ++ token_text p) out).
Proof.
  rw /after_tokens. destruct ps as [|p' ps]; cbn.
  - rw app_nil_r /set_token. f_equal. lia.
  - rw /set_token /=. f_equal; [by destruct (o_ttft out), first|lia|by rw -app_assoc].
Qed.

Lemma on_data_token payload out :
  on_data clock json_text (Some (codes "token")) payload out =
  (let* ttft := (match o_ttft out with
                 | None => let* t := read_clock clock in ret (Some (t - o_started out)%Qc)
                 | t => ret t
                 end) in
   match json_text payload with
   | Ok text => ret (Go (Some (codes "token")) (set_token ttft (o_text out ++ text) out))
   | Raise ValueError => ret (Go (Some (codes "token")) (set_token ttft (o_text out) out))
   | Raise e => raise e
   end).
Proof. reflexivity. Qed.

Lemma read_tokens items : ∀ event out n rest cut, tidy (codes "token") → only_tokens items →
  ∃ event' n', read_lines clock json_text event (format_stream (items ++ rest)) cut out n =
    read_lines clock json_text event' (format_stream rest) cut
      (after_tokens (Some (clock n - o_started out)%Qc) (token_payloads items) out) n' ∧
    n' = n + (match o_ttft out, token_payloads items with None, _ :: _ => 1 | _, _ => 0 end).
Proof.
  induction items as [|[name p|text] items IH]; intros event out n rest cut Ht Hi.
  - exists event, n. split; [done|]. destruct (o_ttft out); cbn; lia.
  - apply Forall_cons in Hi as [[-> [Hp Hj]] Hi]. cbn [app]. rw read_event // on_data_token. rw (_ : token_payloads (Event (codes "token") p :: items) = p :: token_payloads items) // after_tokens_cons.
    set (ttft := match o_ttft out with None => Some (clock n - o_started out)%Qc | t => t end).
    set (out' := set_token ttft (o_text out ++ token_text p) out).
    destruct (IH (Some (codes "token")) out' (n + match o_ttft out with None => 1 | _ => 0 end) rest cut Ht Hi) as (event' & n' & Heq & Hn').
    exists event', n'. split.
    + assert (after_tokens (Some (clock n - o_started out)%Qc) (token_payloads items) out'
        = after_tokens (Some (clock (n + match o_ttft out with None => 1 | _ => 0 end) - o_started out')%Qc) (token_payloads items) out') as ->.
      { rw /after_tokens /out' /ttft. destruct (token_payloads items); [done|]. cbn. by destruct (o_ttft out). }
      rw -Heq /bind /out' /ttft /token_text. destruct (o_ttft out) as [t|]; destruct (json_text p) as [text|[]]; try done;
        rw ?Nat.add_0_r ?Nat.add_1_r ?app_nil_r //.
    + rw Hn' /out' /ttft. cbn. destruct (o_ttft out); cbn; lia.
  - apply Forall_cons in Hi as [_ Hi]. cbn [app]. rw read_comment. by apply IH.
Qed.
End stream.

(** What the client reports of a stream whose tokens are [payloads]. *)
Record reports (clock : nat → Qc) (json_text : list Z → result (list Z)) (n status : nat) (payloads : list (list Z)) (o : RequestOutcome) : Prop := {
  rp_tokens : o_tokens o = length payloads;
  rp_text : o_text o = concat (token_text json_text <$> payloads);
  rp_status : o_status o = status;
  rp_started : o_started o = clock n;
  rp_ttft : o_ttft o = match payloads with [] => None | _ => Some (clock (S n) - clock n)%Qc end;
}.

(** C39: a client's outcome is what was streamed to it.  Whatever comment lines are mixed
    in, the client of a stream of token events counts every token, joins their texts in
    order (one that is not JSON adds none) and times the first, at the next reading of its
    clock; then a [done] event makes it complete, timed at the reading after that, and an
    [error] or [rejected] event or an error of the connection makes it failed
    with that message; a stream that just ends is failed as well: a truncated answer is
    never counted as served.  But a response that stops short of what was announced raises
    out of [one_request]: the worker ends, and its request is not counted at all. *)
Theorem client_reads_stream `{Unicode} clock json_text items payload n status cut :
  tidy (codes "token") → tidy (codes "done") → tidy (codes "error") → tidy (codes "rejected") → tidy payload →
  only_tokens json_text items →
  let read ending := (one_request clock json_text (Streamed status (format_stream (items ++ ending)) cut) n).1 in
  let told := reports clock json_text n status (token_payloads items) in
  let next := match token_payloads items with [] => S n | _ => S (S n) end in
  (∃ o, read [Event (codes "done") payload] = Ok o ∧ o_ok o = true ∧ o_total o = Some (clock next - clock n)%Qc ∧
        o_error o = [] ∧ told o) ∧
  (∃ o, read [Event (codes "error") payload] = Ok o ∧ o_ok o = false ∧ o_total o = None ∧ o_error o = take 200 payload ∧ told o) ∧
  (∃ o, read [Event (codes "rejected") payload] = Ok o ∧ o_ok o = false ∧ o_total o = None ∧
        o_error o = codes "rejected: " ++ take 120 payload ∧ told o) ∧
  match cut with
  | CutShort => read [] = Raise HTTPException ∧
      ∀ d, let d' := worker_turn d (read []) in d_outcomes d' = d_outcomes d ∧ d_dead d' = S (d_dead d)
  | _ => ∃ o, read [] = Ok o ∧ o_ok o = false ∧ o_total o = None ∧ told o ∧
        o_error o = match cut with CutWith msg => take 120 msg | _ => codes "stream ended without done event" end
  end.
Proof.
  intros Ht Hd He Hr Hp Hi read told next.
  set (out := set_status status (new_outcome (clock n))).
  set (o1 := after_tokens json_text (Some (clock (S n) - clock n)%Qc) (token_payloads items) out).
  assert (∀ ending, ∃ event', read ending = (read_lines clock json_text event' (format_stream ending) cut o1 next).1) as Hread.
  { intros ending. destruct (read_tokens clock json_text items None out (S n) ending cut Ht Hi) as (event' & n' & Heq & Hn').
    exists event'. rw /read /one_request {1}/bind /read_clock. rw Heq. do 2 f_equal. rw Hn' /next. cbn.
    destruct (token_payloads items); lia. }
  assert (∀ o, o_tokens o = o_tokens o1 → o_text o = o_text o1 → o_status o = o_status o1 → o_started o = o_started o1 →
    o_ttft o = o_ttft o1 → told o) as Htold.
  { intros o H1 H2 H3 H4 H5. split; rw ?H1 ?H2 ?H3 ?H4 ?H5 /o1 /after_tokens; by destruct (token_payloads items). }
  assert (o_ok o1 = false ∧ o_error o1 = [] ∧ o_total o1 = None ∧ o_started o1 = clock n) as (Hok & Herr & Htot & Hst)
    by (rw /o1 /after_tokens; by destruct (token_payloads items)).
  split_and!.
  - destruct (Hread [Event (codes "done") payload]) as (ev & ->). rw read_event //. eexists. split; [reflexivity|].
    split_and!; try done; [by cbn; rw Hst|by apply Htold].
  - destruct (Hread [Event (codes "error") payload]) as (ev & ->). rw read_event //. eexists. split; [reflexivity|].
    split_and!; try done. by apply Htold.
  - destruct (Hread [Event (codes "rejected") payload]) as (ev & ->). rw read_event //. eexists. split; [reflexivity|].
    split_and!; try done. by apply Htold.
  - destruct (Hread []) as (ev & ->). destruct cut; [| |done]; (eexists; split; [reflexivity|]); cbn; split_and!; try done; by apply Htold.
Qed.

(** Two tokens with a keep-alive between them. *)
Definition toy_json (payload : list Z) : result (list Z) := match payload with 123%Z :: t => Ok t | _ => Raise ValueError end.
Definition toy_items : list item := [Event (codes "token") (codes "{one"); Comment (codes "ping"); Event (codes "token") (codes "bad")].
Lemma toy_only_tokens : only_tokens toy_json toy_items.
Proof.
  apply Forall_cons; split; [|apply Forall_cons; split; [done|apply Forall_cons; split; [|constructor]]];
    (split; [done|]); (split; [|done]); split; by vm_compute.
Qed.
Lemma client_reads_stream_witness :
  let clock n := qc_of_nat n in
  ∃ o, (one_request clock toy_json (Streamed 200 (format_stream (toy_items ++ [Event (codes "done") (codes "{}")])) Closed) 0).1 = Ok o ∧
    o_ok o = true ∧ o_total o = Some (qc_of_nat 2) ∧ o_tokens o = 2 ∧ o_text o = codes "one".
Proof.
  intros clock. destruct (client_reads_stream clock toy_json toy_items (codes "{}") 0 200 Closed) as [(o & Ho & Hok & Htot & _ & Hr) _].
  1-5: split; vm_compute; [reflexivity|split; discriminate].
  - exact toy_only_tokens.
  - exists o. split; [exact Ho|]. split; [exact Hok|]. split; [rw Htot; reflexivity|]. destruct Hr as [H1 H2 _ _ _]. split; [exact H1|exact H2].
Defined.

Lemma percentile_rank_witness :
  let values := qc_of_Z <$> [5; 1; 3]%Z in
  (nearest_rank q50 3, odd_product q50 3, this (percentile values q50)) = (2%Z, false, 3%Q) ∧
  sort_by id values !! 1 = Some (percentile values q50) ∧ percentile values q50 ∈ values.
Proof.
  intros values. split; [vm_compute; reflexivity|].
  destruct (percentile_rank values q50) as (_ & H1 & H2); [discriminate|discriminate|discriminate|]. split; [exact H1|exact H2].
Defined.

(** * Polling *)

Section polling.
Context (clock : nat → Qc) (holds_at : nat → bool).
Definition poll_time : M nat Qc := λ n, (Ok (clock n), S n).
Definition poll_pred : M nat bool := λ n, (Ok (holds_at n), n).

Lemma poll_unfold fuel deadline poll n :
  poll_until poll_time (λ _, ret tt) (S fuel) poll_pred deadline poll n =
  if bool_decide (clock n < deadline)%Qc then
    if holds_at (S n) then (Ok (Some true), S n) else poll_until poll_time (λ _, ret tt) fuel poll_pred deadline poll (S n)
  else (Ok (Some false), S n).
Proof. cbn [poll_until]. rw /bind /poll_time /poll_pred. case_bool_decide; [|done]. by destruct (holds_at (S n)). Qed.

(** Polling stops at the first observation before the deadline, and gives up at the
    first reading at or past it, whichever comes first. *)
Theorem poll_until_exact deadline poll k : ∀ n fuel, k < fuel →
  (∀ i, i < k → (clock (n + i)%nat < deadline)%Qc ∧ holds_at (S (n + i)) = false) →
  ((clock (n + k)%nat < deadline)%Qc → holds_at (S (n + k)) = true →
     poll_until poll_time (λ _, ret tt) fuel poll_pred deadline poll n = (Ok (Some true), S (n + k))) ∧
  ((deadline <= clock (n + k)%nat)%Qc →
     poll_until poll_time (λ _, ret tt) fuel poll_pred deadline poll n = (Ok (Some false), S (n + k))).
Proof.
  induction k as [|k IH]; intros n [|fuel] Hf Hbefore; try lia; rw poll_unfold.
  - rw Nat.add_0_r. split.
    + intros Hlt Hh. by rw bool_decide_true // Hh.
    + intros Hle. rw bool_decide_false //. by apply Qcle_not_lt.
  - destruct (Hbefore 0 ltac:(lia)) as [Hlt Hh]. rw Nat.add_0_r in Hlt Hh. rw bool_decide_true // Hh.
    rw -Nat.add_succ_comm. apply (IH (S n) fuel); [lia|]. intros i Hi. rw Nat.add_succ_comm. apply Hbefore. lia.
Qed.
End polling.

(** * The fault proxy *)

(** A relay in front of a replica: an accept loop and, per connection, one pump in each
    direction, all running as threads; the peers and the operator act in between.  An
    action is one piece of one of them between two reads of what they share (the mode, the
    stop flag, the sockets).  Time is not modelled: a delay only postpones an action, and
    the five second timeout that the upstream socket keeps from its connection attempt is
    an action that may happen whenever that socket is waited on. *)
Module FaultProxy.
Inductive mode_ := Pass | Delay | Blackhole.
#[export] Instance mode_eq_dec : EqDecision mode_.
Proof. solve_decision. Defined.

(** Where a pump is in its loop, with the bytes it has received. *)
Inductive pump := AtCheck | AtRecv | AtSend (data : list Z) | Finished.

(** One direction of a connection: the bytes the peer has sent, those of them not received
    yet, whether the peer is done, and the bytes passed on. *)
Record Direction := mkDir {
  d_sent : list Z;
  d_inbox : list Z;
  d_eof : bool;
  d_pump : pump;
  d_delivered : list Z;
}.

(** Both sockets of a connection are closed together. *)
Record Link := mkLink { l_up : Direction; l_down : Direction; l_open : bool }.

(** Where the accept loop is. *)
Inductive acceptor := Testing | Waiting | Connecting | Ended.

Record t := mk {
  mode : mode_;
  delay_ms : Qc;
  stopping : bool;
  accepting : acceptor;
  links : list Link;
  held : nat;        (* clients accepted and ignored *)
}.

Definition init : t := mk Pass 0%Qc false Testing [] 0.
Definition new_dir : Direction := mkDir [] [] false AtCheck [].

Inductive action :=
  | SetMode (m : mode_) (delay : Qc)
  | Turn                                  (* the accept loop tests the stop flag *)
  | Accepted                              (* a client connects *)
  | AcceptFails                           (* the wait times out *)
  | Connected (ok : bool)                 (* the connection to the target, or its failure *)
  | PeerSends (i : nat) (up : bool) (data : list Z)
  | PeerCloses (i : nat) (up : bool)
  | Run (i : nat) (up : bool) (n : nat)   (* one piece of a pump; [n] bytes if it receives *)
  | Breaks (i : nat) (up : bool) (n : nat) (* its socket call raises, [n] bytes sent *)
  | Stop.

Definition set_mode (m : mode_) (delay : Qc) (p : t) : t :=
  mk m delay (stopping p) (accepting p) (links p) (held p).
Definition set_accepting (a : acceptor) (p : t) : t :=
  mk (mode p) (delay_ms p) (stopping p) a (links p) (held p).

(** One piece of [_accept_loop]. *)
Definition accept_step (a : action) (p : t) : option t :=
  match a, accepting p with
  | Turn, Testing => Some (set_accepting (if stopping p then Ended else Waiting) p)
  | Accepted, Waiting =>
      if bool_decide (mode p = Blackhole)
      then Some (mk (mode p) (delay_ms p) (stopping p) Testing (links p) (S (held p)))
      else Some (set_accepting Connecting p)
  | AcceptFails, Waiting => Some (set_accepting Testing p)
  | Connected ok, Connecting =>
      Some (mk (mode p) (delay_ms p) (stopping p) Testing
              (if ok then links p ++ [mkLink new_dir new_dir true] else links p) (held p))
  | _, _ => None
  end.

Definition set_pump (x : pump) (d : Direction) : Direction := mkDir (d_sent d) (d_inbox d) (d_eof d) x (d_delivered d).

(** What one call of [recv] may return. *)
Definition recv_max : nat := Z.to_nat 65536.
Definition can_recv (n : nat) (d : Direction) : bool := (0 <? n) && (n <=? recv_max) && (n <=? length (d_inbox d)).

(** One piece of [_pump]: the direction afterwards, and whether its [finally] has closed the
    sockets.  [None] when it waits for data. *)
Definition pump_step (m : mode_) (stop open : bool) (n : nat) (d : Direction) : option (Direction * bool) :=
  match d_pump d with
  | Finished => None
  | AtCheck =>
      if stop then Some (set_pump Finished d, true)
      else if bool_decide (m = Blackhole) then Some (set_pump Finished d, true)
      else Some (set_pump AtRecv d, false)
  | AtRecv =>
      if can_recv n d then
        Some (mkDir (d_sent d) (drop n (d_inbox d)) (d_eof d) (AtSend (take n (d_inbox d))) (d_delivered d), false)
      else if bool_decide (d_inbox d = []) && d_eof d then Some (set_pump Finished d, true)
      else None
  | AtSend data =>
      if open then Some (mkDir (d_sent d) (d_inbox d) (d_eof d) AtCheck (d_delivered d ++ data), false)
      else Some (set_pump Finished d, true)
  end.

(** The [except OSError] path: [recv] or [sendall] raises, the latter possibly after part
    of the bytes went out. *)
Definition pump_breaks (n : nat) (d : Direction) : option Direction :=
  match d_pump d with
  | AtRecv => Some (set_pump Finished d)
  | AtSend data => Some (mkDir (d_sent d) (d_inbox d) (d_eof d) Finished (d_delivered d ++ take n data))
  | _ => None
  end.

Definition dir_of (up : bool) (l : Link) : Direction := if up then l_up l else l_down l.
Definition set_dir (up : bool) (d : Direction) (open : bool) (l : Link) : Link :=
  if up then mkLink d (l_down l) open else mkLink (l_up l) d open.

Definition on_link (i : nat) (f : Link → option Link) (p : t) : option t :=
  l ← links p !! i; l' ← f l;
  Some (mk (mode p) (delay_ms p) (stopping p) (accepting p) (<[i := l']> (links p)) (held p)).

Definition step (a : action) (p : t) : option t :=
  match a with
  | SetMode m delay => Some (set_mode m delay p)
  | PeerSends i up data => on_link i (λ l,
      let d := dir_of up l in
      if d_eof d then None
      else Some (set_dir up (mkDir (d_sent d ++ data) (d_inbox d ++ data) (d_eof d) (d_pump d) (d_delivered d)) (l_open l) l)) p
  | PeerCloses i up => on_link i (λ l,
      let d := dir_of up l in
      Some (set_dir up (mkDir (d_sent d) (d_inbox d) true (d_pump d) (d_delivered d)) (l_open l) l)) p
  | Run i up n => on_link i (λ l,
      r ← pump_step (mode p) (stopping p) (l_open l) n (dir_of up l);
      Some (set_dir up r.1 (l_open l && negb r.2) l)) p
  | Breaks i up n => on_link i (λ l, d ← pump_breaks n (dir_of up l); Some (set_dir up d false l)) p
  | Stop => Some (mk (mode p) (delay_ms p) true (accepting p) ((λ l, mkLink (l_up l) (l_down l) false) <$> links p) 0)
  | _ => accept_step a p
  end.

Inductive steps : t → list action → t → Prop :=
  | steps_nil p : steps p [] p
  | steps_cons p a q l r : step a p = Some q → steps q l r → steps p (a :: l) r.
End FaultProxy.

Section proxy.
Import FaultProxy.

(** Nothing a peer sent is repeated or reordered, and nothing is lost but what a pump had
    in hand when its connection broke. *)
Definition relays (d : Direction) : Prop :=
  match d_pump d with
  | AtSend data => d_delivered d ++ data ++ d_inbox d = d_sent d
  | Finished => ∃ lost, length lost ≤ recv_max ∧ d_delivered d ++ lost ++ d_inbox d = d_sent d
  | _ => d_delivered d ++ d_inbox d = d_sent d
  end ∧ match d_pump d with AtSend data => length data ≤ recv_max | _ => True end.

Definition link_ok (l : Link) : Prop := relays (l_up l) ∧ relays (l_down l).

Lemma relays_prefix d : relays d → d_delivered d `prefix_of` d_sent d.
Proof.
  rw /relays. intros [Hd _]. destruct (d_pump d); [rw -Hd; by apply prefix_app_r..|].
  destruct Hd as (lost & _ & <-). by apply prefix_app_r.
Qed.

Lemma relays_finish d : relays d → relays (set_pump Finished d).
Proof.
  rw /relays /=. intros [Hd Hl]. split; [|done]. destruct (d_pump d) as [| |data|].
  1,2: exists []; (split; [cbn; lia|done]).
  - by exists data.
  - done.
Qed.

Lemma pump_step_relays m stop open n d r : relays d → pump_step m stop open n d = Some r → relays r.1.
Proof.
  intros Hd. pose proof (relays_finish d Hd) as Hfin. rw /pump_step. destruct (d_pump d) as [| |data|] eqn:Hp; [..|done].
  - destruct stop; [by intros [= <-]|]. case_bool_decide; intros [= <-]; [done|]. rw /relays Hp in Hd. done.
  - rw /relays Hp in Hd. destruct (can_recv n d) eqn:Hn.
    + intros [= <-]. rw /relays /=. rw take_drop length_take. rw /can_recv !andb_true_iff !Nat.leb_le in Hn. split; [tauto|lia].
    + destruct (_ && _); [|done]. by intros [= <-].
  - rw /relays Hp in Hd. destruct open; intros [= <-]; [|done]. rw /relays /= -app_assoc. tauto.
Qed.

Lemma pump_breaks_relays n d d' : relays d → pump_breaks n d = Some d' → relays d'.
Proof.
  intros Hd. rw /pump_breaks. destruct (d_pump d) as [| |data|] eqn:Hp; [done| | |done]; intros [= <-].
  { by apply relays_finish. }
  rw /relays Hp in Hd. destruct Hd as [Hd Hl]. rw /relays /=. split; [|done]. exists (drop n data).
  split; [rw length_drop; lia|]. rw -app_assoc (app_assoc (take n data)) take_drop. done.
Qed.

Lemma on_link_ok i f p q : Forall link_ok (links p) → (∀ l l', link_ok l → f l = Some l' → link_ok l') →
  on_link i f p = Some q → Forall link_ok (links q).
Proof.
  intros Hp Hf. rw /on_link. destruct (links p !! i) as [l|] eqn:Hl; [|done]. cbn. destruct (f l) as [l'|] eqn:Hfl; [|done]. cbn.
  intros [= <-]. cbn. apply Forall_insert; [done|]. eapply Hf; [|exact Hfl]. by eapply Forall_lookup_1.
Qed.

Lemma set_dir_ok up d open l : link_ok l → relays d → link_ok (set_dir up d open l).
Proof. intros [H1 H2] Hd. by destruct up. Qed.

Lemma dir_ok up l : link_ok l → relays (dir_of up l).
Proof. intros [H1 H2]. by destruct up. Qed.

Lemma new_link_ok : link_ok (mkLink new_dir new_dir true).
Proof. by split. Qed.

Lemma accept_step_ok a p q : Forall link_ok (links p) → accept_step a p = Some q → Forall link_ok (links q).
Proof.
  intros Hp. destruct a; try done; cbn [accept_step]; destruct (accepting p); try done.
  - by intros [= <-].
  - case_bool_decide; by intros [= <-].
  - by intros [= <-].
  - intros [= <-]. cbn. destruct ok; [|done]. apply Forall_app. split; [done|]. constructor; [exact new_link_ok|constructor].
Qed.

Lemma step_ok a p q : Forall link_ok (links p) → step a p = Some q → Forall link_ok (links q).
Proof.
  intros Hp. destruct a as [m dl| | | |ok|i up data|i up|i up n|i up n|]; cbn [step]; try by apply accept_step_ok.
  - by intros [= <-].
  - apply on_link_ok; [done|]. intros l l' Hl. destruct (d_eof _); [done|]. intros [= <-]. apply set_dir_ok; [done|].
    destruct (dir_ok up l Hl) as [Hd Hl2]. split; [|done]. cbn. destruct (d_pump (dir_of up l)); [by rw -Hd -!app_assoc..|].
    destruct Hd as (lost & Hlen & Hd). exists lost. split; [done|]. by rw -Hd -!app_assoc.
  - apply on_link_ok; [done|]. intros l l' Hl [= <-]. apply set_dir_ok; [done|]. apply (dir_ok up l Hl).
  - apply on_link_ok; [done|]. intros l l' Hl. destruct (pump_step _ _ _ _ _) as [r|] eqn:Hr; [|done]. cbn. intros [= <-].
    apply set_dir_ok; [done|]. eapply pump_step_relays; [by apply (dir_ok up)|exact Hr].
  - apply on_link_ok; [done|]. intros l l' Hl. destruct (pump_breaks _ _) as [d|] eqn:Hr; [|done]. cbn. intros [= <-].
    apply set_dir_ok; [done|]. eapply pump_breaks_relays; [by apply (dir_ok up)|exact Hr].
  - intros [= <-]. cbn. apply Forall_fmap. eapply Forall_impl; [exact Hp|]. by intros l [].
Qed.

Lemma steps_ok p acts q : steps p acts q → Forall link_ok (links p) → Forall link_ok (links q).
Proof. induction 1 as [|p a q l r Hs _ IH]; [done|]. intros Hp. apply IH. by eapply step_ok. Qed.

(** ** The partition *)

(** Bytes a direction may still pass on without checking the mode. *)
Definition slack (d : Direction) : nat :=
  match d_pump d with AtRecv => recv_max | AtSend data => length data | _ => 0 end.
Definition passed (d : Direction) : nat := length (d_delivered d) + slack d.
Definition at_link (p : t) (i : nat) (f : Link → nat) : nat := from_option f 0 (links p !! i).

Lemma pump_step_cut stop open n d r : pump_step Blackhole stop open n d = Some r →
  passed r.1 ≤ passed d ∧ (d_pump d = AtCheck → r.2 = true ∧ d_pump r.1 = Finished).
Proof.
  rw /pump_step /passed /slack. destruct (d_pump d) as [| |data|]; [..|done].
  - destruct stop; cbn -[recv_max]; intros [= <-]; cbn -[recv_max]; split; try done; lia.
  - destruct (can_recv n d) eqn:Hn; [|destruct (_ && _); [|done]]; intros [= <-]; cbn -[recv_max]; (split; [|done]); [|lia].
    rw length_take. rw /can_recv !andb_true_iff !Nat.leb_le in Hn. lia.
  - destruct open; intros [= <-]; cbn -[recv_max]; rw ?length_app; (split; [lia|done]).
Qed.

Lemma pump_breaks_cut n d d' : pump_breaks n d = Some d' → passed d' ≤ passed d.
Proof.
  rw /pump_breaks /passed /slack. destruct (d_pump d); [done| | |done]; intros [= <-]; cbn -[recv_max]; [lia|].
  rw length_app length_take. lia.
Qed.

Lemma on_link_cut (g : Link → nat) i f p q : (∀ l l', f l = Some l' → g l' ≤ g l) → on_link i f p = Some q →
  mode q = mode p ∧ ∀ j, at_link q j g ≤ at_link p j g.
Proof.
  intros Hf. rw /on_link. destruct (links p !! i) as [l|] eqn:Hl; [|done]. cbn. destruct (f l) as [l'|] eqn:Hfl; [|done]. cbn.
  intros [= <-]. split; [done|]. intros j. rw /at_link /=. destruct (decide (i = j)) as [->|Hne].
  - rw list_lookup_insert_eq; [|by eapply lookup_lt_Some]. rw Hl. by apply Hf.
  - by rw list_lookup_insert_ne.
Qed.

Lemma passed_set_dir up up' d open l : passed d ≤ passed (dir_of up l) →
  passed (dir_of up' (set_dir up d open l)) ≤ passed (dir_of up' l).
Proof. intros. by destruct up, up'. Qed.

Definition is_set_mode (a : action) : bool := match a with SetMode _ _ => true | _ => false end.

Lemma accept_step_cut a p q : accept_step a p = Some q →
  mode q = mode p ∧ ∀ j up, at_link q j (passed ∘ dir_of up) ≤ at_link p j (passed ∘ dir_of up).
Proof.
  destruct a as [| | | |ok| | | | |]; try done; cbn [accept_step]; destruct (accepting p); try done.
  - by intros [= <-].
  - case_bool_decide; by intros [= <-].
  - by intros [= <-].
  - intros [= <-]. split; [done|]. intros j up. rw /at_link /=. destruct ok; [|done].
    destruct (links p !! j) as [l|] eqn:Hl; [by rw (lookup_app_l_Some _ _ _ _ Hl)|].
    rw lookup_app Hl. cbn. destruct (j - _) as [|[]]; cbn; [destruct up; cbn; lia|lia..].
Qed.

Lemma step_cut a p q : mode p = Blackhole → is_set_mode a = false → step a p = Some q →
  mode q = Blackhole ∧ ∀ j up, at_link q j (passed ∘ dir_of up) ≤ at_link p j (passed ∘ dir_of up).
Proof.
  intros Hm Ha. rw -Hm. assert (∀ i f, (∀ up l l', f l = Some l' → passed (dir_of up l') ≤ passed (dir_of up l)) →
    on_link i f p = Some q → mode q = mode p ∧ ∀ j up, at_link q j (passed ∘ dir_of up) ≤ at_link p j (passed ∘ dir_of up)) as Hlink.
  { intros i f Hf Hq. split; [by apply (on_link_cut (λ _, 0) i f); [|exact Hq]|]. intros j up.
    by apply (on_link_cut (passed ∘ dir_of up) i f); [by apply Hf|]. }
  destruct a as [m dl| | | |ok|i up data|i up|i up n|i up n|]; cbn [step]; try by apply accept_step_cut.
  - done.
  - apply Hlink. intros up' l l'. destruct (d_eof _); [done|]. intros [= <-]. by apply passed_set_dir.
  - apply Hlink. intros up' l l' [= <-]. by apply passed_set_dir.
  - apply Hlink. intros up' l l'. destruct (pump_step _ _ _ _ _) as [r|] eqn:Hr; [|done]. cbn. intros [= <-]. rw Hm in Hr.
    apply passed_set_dir. by apply pump_step_cut in Hr as [Hr _].
  - apply Hlink. intros up' l l'. destruct (pump_breaks _ _) as [d|] eqn:Hr; [|done]. cbn. intros [= <-].
    apply passed_set_dir. by apply pump_breaks_cut in Hr.
  - intros [= <-]. split; [done|]. intros j up. rw /at_link /= list_lookup_fmap. by destruct (links p !! j), up.
Qed.

Lemma steps_cut p acts q : steps p acts q → mode p = Blackhole → Forall (λ a, is_set_mode a = false) acts →
  ∀ j up, at_link q j (passed ∘ dir_of up) ≤ at_link p j (passed ∘ dir_of up).
Proof.
  induction 1 as [|p a q l r Hs _ IH]; [done|]. intros Hm [Ha Hl]%Forall_cons j up.
  destruct (step_cut a p q Hm Ha Hs) as [Hq Hle]. specialize (IH Hq Hl j up). specialize (Hle j up). lia.
Qed.

(** ** The relay as a whole *)

(** The bytes of a direction that has reached its check, passed on in three pieces. *)
Lemma forwards p i up l n : links p !! i = Some l → l_open l = true → stopping p = false → mode p ≠ Blackhole →
  d_pump (dir_of up l) = AtCheck → can_recv n (dir_of up l) = true →
  ∃ q l', steps p (replicate 3 (Run i up n)) q ∧ links q !! i = Some l' ∧
    d_delivered (dir_of up l') = d_delivered (dir_of up l) ++ take n (d_inbox (dir_of up l)) ∧
    d_inbox (dir_of up l') = drop n (d_inbox (dir_of up l)) ∧ d_pump (dir_of up l') = AtCheck.
Proof.
  intros Hl Ho Hs Hm Hp Hn. destruct l as [lu ld o]. cbn in Ho. subst o.
  assert (i < length (links p)) as Hi by (by eapply lookup_lt_Some).
  destruct up; cbn [dir_of l_up l_down] in Hp, Hn |- *; do 2 eexists.
  all: split; [cbn [replicate]; (eapply steps_cons; [|eapply steps_cons; [|eapply steps_cons; [|apply steps_nil]]]);
    [cbn [step]; rw /on_link Hl /= /pump_step Hs /= Hp bool_decide_false //
    |cbn [step]; rw /on_link /= list_lookup_insert_eq // /= /pump_step /=; rw /can_recv /= in Hn |- *; rw Hn //
    |cbn [step]; rw /on_link /= list_lookup_insert_eq ?length_insert //]
  |split; [cbn; rw list_lookup_insert_eq ?length_insert //|done]].
Qed.

Definition relayed (p : t) (i : nat) (up : bool) : nat := at_link p i (length ∘ d_delivered ∘ dir_of up).

Lemma passed_le p i up : Forall link_ok (links p) → at_link p i (passed ∘ dir_of up) ≤ relayed p i up + recv_max.
Proof.
  intros Hp. rw /relayed /at_link. destruct (links p !! i) as [l|] eqn:Hl; [|cbn -[recv_max]; lia]. cbn -[recv_max].
  assert (link_ok l) as Hok by (by eapply Forall_lookup_1). apply (dir_ok up) in Hok as [_ Hok].
  rw /passed /slack. destruct (d_pump _); lia.
Qed.

Lemma relayed_le p i up : relayed p i up ≤ at_link p i (passed ∘ dir_of up).
Proof. rw /relayed /at_link. destruct (links p !! i); [|done]. rw /passed /=. lia. Qed.

(** C38: whatever the accept loop, the pumps, the peers and the operator do, in any
    interleaving, the bytes the fault proxy has passed on in each direction are a prefix of
    those its peer sent; outside a partition a pump that finds data delivers it, in three
    pieces of its loop; once the mode is [blackhole], and until it is changed, no direction,
    of an old connection or a new one, passes more than one further read of 64 KiB; and a
    pump that finds the mode [blackhole] at its check closes the connection, which the peers
    see at once. *)
Theorem proxy_relays acts p : steps init acts p →
  (∀ l up, l ∈ links p → d_delivered (dir_of up l) `prefix_of` d_sent (dir_of up l)) ∧
  (mode p ≠ Blackhole → stopping p = false → ∀ i up l n, links p !! i = Some l → l_open l = true →
     d_pump (dir_of up l) = AtCheck → can_recv n (dir_of up l) = true →
     ∃ q l', steps p (replicate 3 (Run i up n)) q ∧ links q !! i = Some l' ∧
       d_delivered (dir_of up l') = d_delivered (dir_of up l) ++ take n (d_inbox (dir_of up l)) ∧
       d_inbox (dir_of up l') = drop n (d_inbox (dir_of up l)) ∧ d_pump (dir_of up l') = AtCheck) ∧
  (mode p = Blackhole → ∀ acts' q, steps p acts' q → Forall (λ a, is_set_mode a = false) acts' →
     ∀ i up, relayed q i up ≤ relayed p i up + recv_max) ∧
  (mode p = Blackhole → ∀ i up l n, links p !! i = Some l → d_pump (dir_of up l) = AtCheck →
     ∃ q l', step (Run i up n) p = Some q ∧ links q !! i = Some l' ∧ l_open l' = false).
Proof.
  intros Hs. assert (Forall link_ok (links p)) as Hok by (eapply steps_ok; [exact Hs|constructor]). split_and!.
  - intros l up Hl. apply relays_prefix, dir_ok. by eapply Forall_forall in Hok.
  - intros Hm Hst i up l n Hl Ho. by apply forwards.
  - intros Hm acts' q Hq Ha i up. pose proof (steps_cut p acts' q Hq Hm Ha i up).
    pose proof (relayed_le q i up). pose proof (passed_le p i up Hok). lia.
  - intros Hm i up l n Hl Hp. cbn [step]. rw /on_link Hl /= /pump_step Hp Hm.
    assert (i < length (links p)) by (by eapply lookup_lt_Some).
    destruct (stopping p); cbn; do 2 eexists; (split; [reflexivity|]); cbn; (split; [by rw list_lookup_insert_eq|]);
      by destruct up, (l_open l).
Qed.

(** A connection relays five bytes of its client, is cut, and is closed. *)
Definition toy_acts : list action :=
  [Turn; Accepted; Connected true; PeerSends 0 true [104; 101; 108; 108; 111]%Z; Run 0 true 3; Run 0 true 3; Run 0 true 3;
   Run 0 true 2; Run 0 true 2; Run 0 true 2].
Definition run_acts (acts : list action) (p : t) : option t := foldl (λ q a, q ≫= step a) (Some p) acts.

Lemma run_acts_steps acts : ∀ p q, run_acts acts p = Some q → steps p acts q.
Proof.
  rw /run_acts. induction acts as [|a acts IH]; intros p q; cbn.
  { intros [= <-]. constructor. }
  destruct (step a p) as [r|] eqn:Hr.
  - intros Hq. eapply steps_cons; [exact Hr|]. by apply IH.
  - intros Hq. exfalso. clear IH. induction acts as [|b acts IH]; [done|]. by apply IH.
Qed.

Lemma proxy_relays_witness : ∃ p l, steps init (toy_acts ++ [SetMode Blackhole 0%Qc]) p ∧ links p !! 0 = Some l ∧
  d_delivered (dir_of true l) = [104; 101; 108; 108; 111]%Z ∧
  (∀ l up, l ∈ links p → d_delivered (dir_of up l) `prefix_of` d_sent (dir_of up l)) ∧
  ∀ acts' q, steps p acts' q → Forall (λ a, is_set_mode a = false) acts' → relayed q 0 true ≤ 5 + recv_max.
Proof.
  do 2 eexists. split; [|split; [|split; [|split]]].
  - apply run_acts_steps. vm_compute. reflexivity.
  - reflexivity.
  - reflexivity.
  - refine (proj1 (proxy_relays (toy_acts ++ [SetMode Blackhole 0%Qc]) _ _)). apply run_acts_steps. vm_compute. reflexivity.
  - refine (λ acts' q Hq Ha, proj1 (proj2 (proj2 (proxy_relays (toy_acts ++ [SetMode Blackhole 0%Qc]) _ _))) _ acts' q Hq Ha 0 true).
    + apply run_acts_steps. vm_compute. reflexivity.
    + reflexivity.
Defined.
End proxy.
