(* ===== verification/Scenarios.v ===== *)
(** * The chaos scenarios (bench/chaos/scenarios.py, and [Cluster] of bench/chaos/harness.py)

    Seven ways of breaking a cluster, each with the verdict drawn from what the clients
    saw.  The operating system, the clock, the router and the containers are a parameter,
    the class [Machine]; what is documented of them is the class [MachineLaws].  The
    fault proxy and the statistics are those of Chaos.v.  While the main thread waits, the
    clients and the proxy's threads run: [m_elapse] says what they did meanwhile. *)

From Stdlib Require Import ssreflect QArith Qround Qcanon Lqa.
From stdpp Require Import prelude gmap list strings pretty.
From S2P Require Import Prelude Types Rationals BenchMetrics Text Tokenizer Discovery Data Train Chaos.
#[local] Open Scope nat_scope.
#[local] Set Warnings "-register-all".

(** ** The machine *)

(** The command lines that are spawned. *)
Inductive Program :=
  | ServeReplica (port : Z) (id : string) (kv_budget_mb max_batch_size : nat) (advertise : Z) (lease_ttl : nat)
  | RouterBin (exe : string) (addr redis : string)
  | AutoscalerBin (exe : string).

Class Machine (W : Type) := {
  m_time : M W Qc;                                  (* time.time() *)
  m_sleep : Qc → M W unit;
  m_exists : string → M W bool;                     (* Path.exists, under the repository *)
  m_popen : Program → M W nat;
  m_poll : nat → M W bool;                          (* Popen.poll() is None *)
  m_terminate : nat → M W unit;                     (* Popen.terminate, and a graceful signal *)
  m_kill : nat → M W unit;
  m_wait : nat → Qc → M W unit;                     (* Popen.wait(timeout=...) *)
  m_log : string → M W unit;                        (* open a log file, or make its directory *)
  m_stats : M W json;                               (* GET /stats of the router *)
  m_docker : list string → M W bool;                (* whether the command returned 0 *)
  m_connect : Z → M W unit;                       (* a TCP connection, closed again *)
  m_bind : Z → M W unit;                          (* a listening socket *)
  m_range : list Z → M W json;                      (* POST /v3/kv/range of etcd *)
  m_lookup : M W (list string);                     (* the keys of discovery.lookup *)
  (* what happens while the main thread waits: results of the clients, steps of the proxy *)
  m_elapse : nat → option FaultProxy.t → W → (list (result RequestOutcome) * list FaultProxy.action) * W;
}.

(** [int] of a string of digits, and [json.loads]. *)
Class Parsing := { p_int : list Z → result Z; p_loads : list Z → result json }.

(** ** State *)

Record Cluster := mkCluster {
  c_n : nat;
  c_redis : string;
  c_router_addr : string;
  c_base_port : Z;
  c_kv_budget_mb : nat;
  c_lease_ttl : nat;
  c_max_batch_size : nat;
  c_quiet : bool;
  c_replica_procs : list (option nat);
  c_router : option nat;
  c_log_handles : list string;
}.
Definition new_cluster (replicas : nat) (redis : string) : Cluster :=
  mkCluster replicas redis "127.0.0.1:8080" 9101 192 5 8 true [] None [].

(** What a scenario works on: its objects, its local variables that its [finally] reads,
    and two records of what it did: the docker commands, with whether they succeeded,
    and how many outcomes there were when each fault was injected. *)
Record Bench (W : Type) := mkBench {
  world : W;
  cluster : Cluster;
  driver : option LoadDriver;
  proxy : option FaultProxy.t;
  child : option nat;
  stopped : bool;
  dockers : list (list string * bool);
  faults : list nat;
}.
Arguments mkBench {W}.
Arguments world {W}. Arguments cluster {W}. Arguments driver {W}. Arguments proxy {W}. Arguments child {W}.
Arguments stopped {W}. Arguments dockers {W}. Arguments faults {W}.

(** What a scenario reports. *)
Inductive obs :=
  | ONone | ONat (n : nat) | OZ (z : Z) | OQ (q : Qc) | OBool (b : bool) | OZs (l : list Z) | OJson (j : json)
  | OErrors (e : list (list Z * nat)) | ODict (d : list (string * obs)).

Record ScenarioResult := mkResult {
  r_name : string;
  r_assertion : string;
  r_passed : bool;
  r_observed : list (string * obs);
  r_note : string;
}.

Definition line (r : ScenarioResult) : string :=
  "[" +:+ (if r_passed r then "PASS" else "FAIL") +:+ "] " +:+ r_name r +:+ ": " +:+ r_assertion r.

(** [except Exception], and [except OSError] with its subclasses. *)
Definition is_exception (e : exn) : bool := match e with SystemExit => false | _ => true end.
Definition is_oserror (e : exn) : bool :=
  match e with OSError | TimeoutError | FileNotFoundError => true | _ => false end.

Section scenarios.
Context {W : Type} `{!Machine W, !Parsing}.
#[local] Abbreviation BM := (M (Bench W)).

Definition set_world (w : W) (b : Bench W) : Bench W :=
  mkBench w (cluster b) (driver b) (proxy b) (child b) (stopped b) (dockers b) (faults b).
Definition set_cluster (c : Cluster) (b : Bench W) : Bench W :=
  mkBench (world b) c (driver b) (proxy b) (child b) (stopped b) (dockers b) (faults b).
Definition set_driver (d : option LoadDriver) (b : Bench W) : Bench W :=
  mkBench (world b) (cluster b) d (proxy b) (child b) (stopped b) (dockers b) (faults b).
Definition set_proxy (p : option FaultProxy.t) (b : Bench W) : Bench W :=
  mkBench (world b) (cluster b) (driver b) p (child b) (stopped b) (dockers b) (faults b).
Definition set_child (c : option nat) (b : Bench W) : Bench W :=
  mkBench (world b) (cluster b) (driver b) (proxy b) c (stopped b) (dockers b) (faults b).
Definition set_stopped (x : bool) (b : Bench W) : Bench W :=
  mkBench (world b) (cluster b) (driver b) (proxy b) (child b) x (dockers b) (faults b).
Definition add_docker (d : list string * bool) (b : Bench W) : Bench W :=
  mkBench (world b) (cluster b) (driver b) (proxy b) (child b) (stopped b) (dockers b ++ [d]) (faults b).

Definition outcomes (b : Bench W) : list RequestOutcome := from_option d_outcomes [] (driver b).
Definition add_fault (b : Bench W) : Bench W :=
  mkBench (world b) (cluster b) (driver b) (proxy b) (child b) (stopped b) (dockers b) (faults b ++ [length (outcomes b)]).

(** ** Waiting *)

Definition on_world {A} (m : M W A) : BM A := zoom world set_world m.

(** The actions of the proxy's threads and of its peers. *)
Definition of_threads (a : FaultProxy.action) : bool :=
  match a with FaultProxy.SetMode _ _ | FaultProxy.Stop => false | _ => true end.
Definition proxy_runs (acts : list FaultProxy.action) (p : FaultProxy.t) : FaultProxy.t :=
  foldl (λ p a, if of_threads a then default p (FaultProxy.step a p) else p) p acts.

(** The clients append what they saw, or end with an exception, and the proxy's threads make
    progress. *)
Definition append (ended : list (result RequestOutcome)) (d : LoadDriver) : LoadDriver :=
  if d_running d then foldl worker_turn d ended else d.
Definition clients (b : Bench W) : nat :=
  match driver b with Some d => if d_running d then d_concurrency d - d_dead d else 0 | None => 0 end.
Definition elapse : BM unit := modify (λ b,
  let r := m_elapse (clients b) (proxy b) (world b) in
  set_world r.2 (set_proxy (proxy_runs r.1.2 <$> proxy b) (set_driver (append r.1.1 <$> driver b) b))).

(** A call of the machine, during which the rest runs. *)
Definition blocking {A} (m : M W A) : BM A := do* elapse in on_world m.

Definition time : BM Qc := on_world m_time.
Definition sleep (seconds : Qc) : BM unit := blocking (m_sleep seconds).
Definition _settle (seconds : Qc) : BM unit := sleep seconds.

(** ** The load driver *)

Definition on_driver (f : LoadDriver → LoadDriver) : BM unit := modify (λ b, set_driver (f <$> driver b) b).
Definition driver_start : BM unit := on_driver (λ d, mkDriver (d_concurrency d) (d_max_tokens d) (d_outcomes d) true (d_dead d)).
(** The flag is set and the threads are joined, each for a bounded time; what one of them
    still appends after that is read by no scenario. *)
Definition driver_stop : BM unit :=
  do* elapse in on_driver (λ d, mkDriver (d_concurrency d) (d_max_tokens d) (d_outcomes d) false (d_dead d)).
Definition driver_mark : BM nat := gets (length ∘ outcomes).
Definition _phase_stats (start end_ : nat) : BM LoadStats :=
  gets (λ b, summarise (from_option (λ d, slice_outcomes d start end_) [] (driver b))).

(** ** The cluster *)

Definition with_cluster (f : Cluster → Cluster) : BM unit := modify (λ b, set_cluster (f (cluster b)) b).
Definition set_procs (l : list (option nat)) (c : Cluster) : Cluster :=
  mkCluster (c_n c) (c_redis c) (c_router_addr c) (c_base_port c) (c_kv_budget_mb c) (c_lease_ttl c) (c_max_batch_size c)
    (c_quiet c) l (c_router c) (c_log_handles c).
Definition set_router (r : option nat) (c : Cluster) : Cluster :=
  mkCluster (c_n c) (c_redis c) (c_router_addr c) (c_base_port c) (c_kv_budget_mb c) (c_lease_ttl c) (c_max_batch_size c)
    (c_quiet c) (c_replica_procs c) r (c_log_handles c).
Definition set_handles (l : list string) (c : Cluster) : Cluster :=
  mkCluster (c_n c) (c_redis c) (c_router_addr c) (c_base_port c) (c_kv_budget_mb c) (c_lease_ttl c) (c_max_batch_size c)
    (c_quiet c) (c_replica_procs c) (c_router c) l.

(** [f"replica-{index}"]. *)
Definition replica_name (index : nat) : string := "replica-" +:+ pretty index.

Definition _streams (name : string) : BM unit :=
  let* c := gets cluster in
  if negb (c_quiet c) then ret tt
  else do* on_world (m_log name) in with_cluster (λ c, set_handles (c_log_handles c ++ [name]) c).

Definition _spawn_replica (index : nat) : BM nat :=
  let* c := gets cluster in
  let port := (c_base_port c + Z.of_nat index)%Z in
  do* _streams (replica_name index) in
  on_world (m_popen (ServeReplica port (replica_name index) (c_kv_budget_mb c) (c_max_batch_size c) port (c_lease_ttl c))).

Definition stats : BM json := blocking m_stats.

(** [j.get(key, d)]. *)
Definition jget_or (key : string) (d : json) (j : json) : result json :=
  match jget key j with Ok v => Ok (default d v) | Raise e => Raise e end.

Definition ready_count : BM Z :=
  catch_when (λ e, is_oserror e || bool_decide (e = ValueError) || bool_decide (e = KeyError))
    (let* s := stats in
     let* r := lift_result (jget_or "ready" (JNum 0) s) in
     lift_result (int_json p_int r))
    (ret 0%Z).

(** Rounds of polling every [poll] seconds that reach past [timeout]. *)
Definition rounds (timeout poll : Qc) : nat := 2 + Z.to_nat (Qceiling (this (timeout / poll)%Qc)).

Definition cluster_wait_until (predicate : BM bool) (timeout poll : Qc) : BM bool :=
  let* r := wait_until time sleep (rounds timeout poll) predicate timeout poll in ret (default false r).
Definition wait_ready (want : Z) (timeout : Qc) : BM bool :=
  cluster_wait_until (let* r := ready_count in ret (want <=? r)%Z) timeout 1%Qc.

(** [if p is not None and p.poll() is None: p.terminate()]. *)
Definition terminate_if_running (p : option nat) : BM unit :=
  match p with
  | None => ret tt
  | Some pid => let* running := on_world (m_poll pid) in if running then on_world (m_terminate pid) else ret tt
  end.
(** [try: p.wait(timeout=...) except TimeoutExpired: p.kill()]. *)
Definition wait_or_kill (pid : nat) (timeout : Qc) : BM unit :=
  catch (blocking (m_wait pid timeout)) TimeoutExpired (on_world (m_kill pid)).
(** A child process that is running is terminated, and killed if that takes too long. *)
Definition stop_process (p : option nat) (timeout : Qc) : BM unit :=
  match p with
  | None => ret tt
  | Some pid =>
      let* running := on_world (m_poll pid) in
      if running then do* on_world (m_terminate pid) in wait_or_kill pid timeout else ret tt
  end.

Definition q (n : Z) : Qc := qc_of_Z n.

Definition cluster_stop : BM unit :=
  let* c := gets cluster in
  do* stop_process (c_router c) (q 10) in
  do* for_each (c_replica_procs c) terminate_if_running in
  do* for_each (c_replica_procs c) (λ p, match p with None => ret tt | Some pid => wait_or_kill pid (q 15) end) in
  with_cluster (set_handles []).

(** The first of the two names a binary may have. *)
Definition find_bin (name : string) : BM (option string) :=
  let exe := (name +:+ ".exe")%string in
  let* yes := on_world (m_exists exe) in
  if yes then ret (Some exe)
  else let* yes := on_world (m_exists name) in ret (if yes then Some name else None).

Definition cluster_start (ready_timeout : Qc) : BM unit :=
  do* on_world (m_log "nanoserve-chaos-") in
  let* c := gets cluster in
  do* for_each (seq 0 (c_n c)) (λ i,
        let* pid := _spawn_replica i in with_cluster (λ c, set_procs (c_replica_procs c ++ [Some pid]) c)) in
  let* bin := find_bin "router/router" in
  match bin with
  | None => raise SystemExit
  | Some exe =>
      do* _streams "router" in
      let* pid := on_world (m_popen (RouterBin exe (c_router_addr c) (c_redis c))) in
      do* with_cluster (set_router (Some pid)) in
      let* ready := wait_ready (Z.of_nat (c_n c)) ready_timeout in
      if ready then ret tt else do* cluster_stop in raise SystemExit
  end.

(** [self.replica_procs[index]]. *)
Definition replica_proc (index : nat) : BM (option nat) :=
  let* c := gets cluster in
  match c_replica_procs c !! index with Some p => ret p | None => raise IndexError end.
(** The two faults; a graceful signal is [m_terminate]. *)
Definition cluster_sigkill (index : nat) : BM unit :=
  let* p := replica_proc index in
  do* modify add_fault in
  match p with
  | None => ret tt
  | Some pid => let* running := on_world (m_poll pid) in if running then on_world (m_kill pid) else ret tt
  end.
Definition cluster_sigterm (index : nat) : BM unit :=
  let* p := replica_proc index in do* modify add_fault in terminate_if_running p.

(** [restart_replica] passes [_spawn_replica] an argument it does not take. *)
Definition restart_replica (index : nat) : BM unit := raise TypeError.

(** A container command, with whether it succeeded. *)
Definition run_docker (args : list string) : BM bool := λ b,
  match blocking (m_docker args) b with
  | (Ok ok, b) => (Ok ok, add_docker (args, ok) b)
  | (Raise e, b) => (Raise e, add_docker (args, false) b)
  end.
(** [docker(args, check=check)]. *)
Definition docker (args : list string) (check : bool) : BM unit :=
  do* (if bool_decide (head args = Some "stop"%string) then modify add_fault else ret tt) in
  let* ok := run_docker args in
  if check && negb ok then raise RuntimeError else ret tt.
(** ** The fault proxy *)

Definition on_proxy (f : FaultProxy.t → FaultProxy.t) : BM unit := modify (λ b, set_proxy (f <$> proxy b) b).
Definition proxy_start (port : Z) : BM unit := on_world (m_bind port).
Definition proxy_set_mode (m : FaultProxy.mode_) (delay_ms : Qc) : BM unit :=
  do* modify add_fault in on_proxy (FaultProxy.set_mode m delay_ms).
Definition proxy_stop : BM unit := on_proxy (λ p, default p (FaultProxy.step FaultProxy.Stop p)).

(** ** Observations *)

Definition _port_open (port : Z) : BM bool :=
  catch_when is_oserror (do* blocking (m_connect port) in ret true) (ret false).

(** [sum(int(r.get("load", 0)) for r in replicas if ...)]. *)
Fixpoint sum_loads (keep : json → result bool) (replicas : list json) : result Z :=
  match replicas with
  | [] => Ok 0%Z
  | r :: replicas =>
      match keep r with
      | Ok true =>
          match jget_or "load" (JNum 0) r with
          | Ok l => match int_json p_int l, sum_loads keep replicas with
                    | Ok n, Ok total => Ok (n + total)%Z
                    | Raise e, _ => Raise e
                    | _, Raise e => Raise e
                    end
          | Raise e => Raise e
          end
      | Ok false => sum_loads keep replicas
      | Raise e => Raise e
      end
  end.
(** [r.get("id") == replica_id]. *)
Definition has_id (replica_id : string) (r : json) : result bool :=
  match jget "id" r with
  | Ok (Some (JStr s)) => Ok (bool_decide (s = codes replica_id))
  | Ok _ => Ok false
  | Raise e => Raise e
  end.
(** Iterating over a JSON value; only lists are modelled. *)
Definition as_list (j : json) : result (list json) := match j with JArr l => Ok l | _ => Raise TypeError end.

Definition _load_share (replica_id : string) : BM Qc :=
  let* replicas := catch_when is_exception
        (let* s := stats in let* r := lift_result (jget_or "replicas" (JArr []) s) in ret (Some r)) (ret None) in
  match replicas with
  | None => ret 0%Qc
  | Some replicas =>
      let* replicas := lift_result (as_list replicas) in
      let* total := lift_result (sum_loads (λ _, Ok true) replicas) in
      if (total =? 0)%Z then ret 0%Qc
      else let* mine := lift_result (sum_loads (has_id replica_id) replicas) in
           ret (qc_of_Z mine / qc_of_Z total)%Qc
  end.

(** [payload.get("kvs") or []], its first value decoded, and [int(value.get("desired", 0))]. *)
Definition desired_of (payload : json) : result (option Z) :=
  match jget "kvs" payload with
  | Ok (Some (JArr (kv :: _))) =>
      match jget "value" kv with
      | Ok (Some (JStr v)) =>
          match _unb64 v with
          | Ok text =>
              match p_loads text with
              | Ok value => match jget_or "desired" (JNum 0) value with
                            | Ok d => match int_json p_int d with Ok n => Ok (Some n) | Raise e => Raise e end
                            | Raise e => Raise e
                            end
              | Raise e => Raise e
              end
          | Raise e => Raise e
          end
      | Ok (Some _) => Raise TypeError
      | Ok None => Raise KeyError
      | Raise e => Raise e
      end
  | Ok (Some j) => if falsy j then Ok None else Raise TypeError
  | Ok None => Ok None
  | Raise e => Raise e
  end.

Definition _read_desired : BM (option Z) :=
  let key := b64encode (codes "/nanoserve/scale/desired") in
  let* payload := catch_when is_exception (let* p := blocking (m_range key) in ret (Some p)) (ret None) in
  match payload with None => ret None | Some payload => lift_result (desired_of payload) end.

(** Whether a replica is listed as ready: the values of [any(... for r in ...)]. *)
Fixpoint any_ready (replica_id : string) (replicas : list json) : result bool :=
  match replicas with
  | [] => Ok false
  | r :: replicas =>
      match has_id replica_id r with
      | Ok true => match jget "ready" r with
                   | Ok v => if falsy (default JNull v) then any_ready replica_id replicas else Ok true
                   | Raise e => Raise e
                   end
      | Ok false => any_ready replica_id replicas
      | Raise e => Raise e
      end
  end.

(** [round(x, k)], as reported. *)
Definition oround (k : nat) (x : Qc) : obs := OQ (py_round x k).

(** The loop of [for a, b, c in zip(samples, samples[1:], samples[2:])]. *)
Fixpoint flips (samples : list Z) : nat :=
  match samples with
  | a :: ((b :: c :: _) as rest) => (if ((b - a) * (c - b) <? 0)%Z then 1 else 0) + flips rest
  | _ => 0
  end.

(** ** Verdicts *)

Definition half : Qc := Q2Qc (1 # 2).

Definition sigkill_verdict (evicted : bool) (s_before s_during s_after : LoadStats) : bool :=
  evicted && (ls_failed s_during =? 0) && (ls_failed s_after =? 0)
  && bool_decide (ls_ttft_p99 s_after <= qc_max half (ls_ttft_p99 s_before * q 3))%Qc.
Definition sigterm_verdict (removed : bool) (s_before s_during : LoadStats) : bool :=
  removed && (ls_failed s_during =? 0) && bool_decide (ls_ttft_p99 s_during <= qc_max half (ls_ttft_p99 s_before * q 2))%Qc.
Definition partition_verdict (evicted : bool) (s_after : LoadStats) : bool := evicted && (ls_failed s_after =? 0).
Definition redis_verdict (s_after : LoadStats) : bool := (ls_failed s_after =? 0) && (0 <? ls_ok s_after).
Definition etcd_verdict (s_during s_after : LoadStats) : bool :=
  (ls_failed s_during =? 0) && (0 <? ls_ok s_during) && (ls_failed s_after =? 0) && (0 <? ls_ok s_after).
(** [x or d] for an optional integer. *)
Definition or_z (x : option Z) (d : Z) : Z := match x with Some 0%Z | None => d | Some z => z end.
Definition spike_verdict (peak : Z) (baseline : option Z) (samples : list Z) (s : LoadStats) : bool :=
  (or_z baseline 0 <? peak)%Z && (flips samples <=? 1) && (ls_failed s =? 0).
Definition slow_verdict (s_after : LoadStats) (share_before share_during : Qc) : bool :=
  (ls_failed s_after =? 0) && bool_decide (share_during <= qc_max half share_before)%Qc.

(** ** The scenarios *)

Definition ready_timeout : Qc := q 300.
Definition evicted_ : BM bool := let* r := ready_count in ret (r <=? 2)%Z.

Definition sigkill_body (hold : Qc) : BM ScenarioResult :=
  do* cluster_start ready_timeout in
  do* driver_start in
  do* _settle hold in
  let* before := driver_mark in
  do* cluster_sigkill 2 in
  let* kill_at := time in
  do* _settle hold in
  let* during := driver_mark in
  let* evicted := cluster_wait_until evicted_ (q 30) half in
  let* now := time in
  do* _settle hold in
  do* driver_stop in
  let* after := driver_mark in
  let* s_before := _phase_stats 0 before in
  let* s_during := _phase_stats before during in
  let* s_after := _phase_stats during after in
  ret (mkResult "sigkill_replica" "no client-visible drop; p99 recovers after eviction"
    (sigkill_verdict evicted s_before s_during s_after)
    [("evicted_in_seconds", oround 2 (now - kill_at)%Qc);
     ("requests", ODict [("before", ONat (ls_total s_before)); ("during", ONat (ls_total s_during)); ("after", ONat (ls_total s_after))]);
     ("failed", ODict [("before", ONat (ls_failed s_before)); ("during", ONat (ls_failed s_during)); ("after", ONat (ls_failed s_after))]);
     ("ttft_p99", ODict [("before", oround 3 (ls_ttft_p99 s_before)); ("during", oround 3 (ls_ttft_p99 s_during));
                         ("after", oround 3 (ls_ttft_p99 s_after))]);
     ("errors_during", OErrors (ls_errors s_during))]%string "").

Definition sigterm_body (hold : Qc) : BM ScenarioResult :=
  do* cluster_start ready_timeout in
  do* driver_start in
  do* _settle hold in
  let* before := driver_mark in
  do* cluster_sigterm 2 in
  let* term_at := time in
  let* removed := cluster_wait_until evicted_ (q 30) half in
  let* now := time in
  do* _settle hold in
  do* driver_stop in
  let* during := driver_mark in
  let* s_before := _phase_stats 0 before in
  let* s_during := _phase_stats before during in
  ret (mkResult "sigterm_replica" "no client-visible drop and no p99 spike during a drain"
    (sigterm_verdict removed s_before s_during)
    [("removed_in_seconds", oround 2 (now - term_at)%Qc); ("failed_during", ONat (ls_failed s_during));
     ("requests_during", ONat (ls_total s_during)); ("ttft_p99_before", oround 3 (ls_ttft_p99 s_before));
     ("ttft_p99_during", oround 3 (ls_ttft_p99 s_during)); ("errors_during", OErrors (ls_errors s_during))]%string
    "revoking the lease removes the replica before it stops serving, which is what makes this quieter than the SIGKILL case").

Definition partition_body (hold : Qc) : BM ScenarioResult :=
  do* cluster_start ready_timeout in
  do* proxy_start 9201 in
  let* third := on_world (m_popen (ServeReplica 9103 "replica-partitioned" 192 8 9201 30)) in
  do* modify (set_child (Some third)) in
  let* ready := wait_ready 3 (q 240) in
  if negb ready then
    ret (mkResult "network_partition" "router evicts an unreachable replica" false [] "third replica never became ready")
  else
    do* driver_start in
    do* _settle hold in
    let* before := driver_mark in
    do* proxy_set_mode FaultProxy.Blackhole 0 in
    let* cut_at := time in
    let* evicted := cluster_wait_until evicted_ (q 40) half in
    let* now := time in
    do* _settle hold in
    do* driver_stop in
    let* after := driver_mark in
    let* s_after := _phase_stats before after in
    let* registry_still_lists := catch_when is_exception
          (let* ids := blocking m_lookup in ret (bool_decide ("replica-partitioned"%string ∈ ids))) (ret false) in
    ret (mkResult "network_partition"
      "router evicts on health while the lease is still valid; traffic reroutes with no client-visible drop"
      (partition_verdict evicted s_after)
      [("evicted_in_seconds", oround 2 (now - cut_at)%Qc); ("still_in_registry_after_eviction", OBool registry_still_lists);
       ("failed_after_cut", ONat (ls_failed s_after)); ("requests_after_cut", ONat (ls_total s_after));
       ("errors", OErrors (ls_errors s_after))]%string
      "lease TTL was 30s deliberately, so eviction cannot be explained by the registry noticing -- only health can").

Definition redis_body (hold : Qc) : BM ScenarioResult :=
  do* cluster_start ready_timeout in
  do* driver_start in
  do* _settle hold in
  let* before := driver_mark in
  do* docker ["stop"; "nanoserve-redis"]%string true in
  do* modify (set_stopped true) in
  let* open := _port_open 6380 in
  if open then
    ret (mkResult "redis_down" "serving continues with rate limiting degraded, not denied" false []
      "port 6380 still answers after stopping the container; something else is bound to it, so this scenario would report success for an outage that never happened")
  else
    do* _settle hold in
    do* driver_stop in
    let* after := driver_mark in
    let* s_after := _phase_stats before after in
    let* st := catch_when is_exception stats (ret (JObj [])) in
    let* degraded := lift_result (jget "degraded" st) in
    let* throttled := lift_result (jget "throttled" st) in
    ret (mkResult "redis_down" "serving continues with rate limiting degraded, not denied" (redis_verdict s_after)
      [("requests_after_outage", ONat (ls_total s_after)); ("failed_after_outage", ONat (ls_failed s_after));
       ("degraded_admissions", from_option OJson ONone degraded); ("throttled", from_option OJson ONone throttled);
       ("errors", OErrors (ls_errors s_after))]%string "").

Definition etcd_body (hold : Qc) : BM ScenarioResult :=
  do* cluster_start ready_timeout in
  do* driver_start in
  do* _settle hold in
  let* before := driver_mark in
  do* docker ["stop"; "nanoserve-etcd"]%string true in
  do* modify (set_stopped true) in
  do* _settle hold in
  let* during := driver_mark in
  do* docker ["start"; "nanoserve-etcd"]%string true in
  do* modify (set_stopped false) in
  do* _settle hold in
  do* driver_stop in
  let* after := driver_mark in
  let* s_during := _phase_stats before during in
  let* s_after := _phase_stats during after in
  ret (mkResult "etcd_down" "existing routes keep serving through an etcd outage, and discovery resumes afterwards"
    (etcd_verdict s_during s_after)
    [("requests_during_outage", ONat (ls_total s_during)); ("failed_during_outage", ONat (ls_failed s_during));
     ("requests_after_recovery", ONat (ls_total s_after)); ("failed_after_recovery", ONat (ls_failed s_after));
     ("errors_during", OErrors (ls_errors s_during))]%string "").

(** [while time.time() < deadline], with the peak and the samples so far. *)
Fixpoint sample_desired (fuel : nat) (deadline : Qc) (peak : Z) (samples : list Z) : BM (Z * list Z) :=
  match fuel with
  | O => ret (peak, samples)
  | S fuel =>
      let* t := time in
      if bool_decide (t < deadline)%Qc then
        let* d := _read_desired in
        let '(peak, samples) := match d with Some d => (Z.max peak d, samples ++ [d]) | None => (peak, samples) end in
        do* sleep (q 2) in sample_desired fuel deadline peak samples
      else ret (peak, samples)
  end.

Definition spike_body (exe : string) (base multiplier : nat) (hold : Qc) : BM ScenarioResult :=
  do* cluster_start ready_timeout in
  let* scaler := on_world (m_popen (AutoscalerBin exe)) in
  do* modify (set_child (Some scaler)) in
  do* modify (set_driver (Some (new_driver base 64))) in
  do* driver_start in
  do* _settle hold in
  let* baseline := _read_desired in
  do* driver_stop in
  do* modify (add_fault ∘ set_driver (Some (new_driver (base * multiplier) 64))) in
  do* driver_start in
  let* now := time in
  let* seen := sample_desired (rounds (hold * q 2) (q 2)) (now + hold * q 2)%Qc (or_z baseline 1) [] in
  let (peak, samples) := seen : Z * list Z in
  do* driver_stop in
  let* spike_stats := gets (summarise ∘ outcomes) in
  ret (mkResult "traffic_spike"
    (pretty multiplier +:+ "x spike raises the target without oscillating and without dropping requests")
    (spike_verdict peak baseline samples spike_stats)
    [("baseline_desired", from_option OZ ONone baseline); ("peak_desired", OZ peak); ("samples", OZs samples);
     ("direction_changes", ONat (flips samples)); ("requests_during_spike", ONat (ls_total spike_stats));
     ("failed_during_spike", ONat (ls_failed spike_stats)); ("errors", OErrors (ls_errors spike_stats))]%string "").

Definition slow_body (hold delay_ms : Qc) : BM ScenarioResult :=
  do* cluster_start ready_timeout in
  do* proxy_start 9202 in
  let* slow := on_world (m_popen (ServeReplica 9104 "replica-slow" 192 8 9202 10)) in
  do* modify (set_child (Some slow)) in
  let* ready := wait_ready 3 (q 240) in
  if negb ready then
    ret (mkResult "slow_replica" "bounded loads drains a slow replica" false [] "slow replica never became ready")
  else
    do* driver_start in
    do* _settle hold in
    let* before := driver_mark in
    let* share_before := _load_share "replica-slow" in
    do* proxy_set_mode FaultProxy.Delay delay_ms in
    do* _settle hold in
    let* share_during := _load_share "replica-slow" in
    do* driver_stop in
    let* after := driver_mark in
    let* s_after := _phase_stats before after in
    let* still_ready := catch_when is_exception
          (let* s := stats in let* r := lift_result (jget_or "replicas" (JArr []) s) in
           let* l := lift_result (as_list r) in lift_result (any_ready "replica-slow" l)) (ret false) in
    ret (mkResult "slow_replica" "a slow-but-healthy replica is drained by the load cap, not evicted, and drops nothing"
      (slow_verdict s_after share_before share_during)
      [("injected_delay_ms", OQ delay_ms); ("slow_replica_load_share_before", oround 3 share_before);
       ("slow_replica_load_share_during", oround 3 share_during); ("still_reported_ready", OBool still_ready);
       ("failed", ONat (ls_failed s_after)); ("requests", ONat (ls_total s_after)); ("errors", OErrors (ls_errors s_after))]%string
      "health cannot fix this: the replica answers every check").

(** The [finally] of each scenario; [None] is stopped as nothing. *)
Definition finish_plain : BM unit := do* driver_stop in cluster_stop.
Definition finish_child (timeout : Qc) : BM unit :=
  do* driver_stop in do* proxy_stop in
  let* c := gets child in do* stop_process c timeout in cluster_stop.
Definition finish_docker (container : string) (pause : Qc) : BM unit :=
  do* driver_stop in
  do* cluster_stop in
  let* s := gets stopped in
  if s then do* docker ["start"; container]%string false in sleep pause else ret tt.

(** The objects a scenario makes before its [try]. *)
Definition enter (w : W) (replicas : nat) (redis : string) (d : option LoadDriver) (p : option FaultProxy.t) : Bench W :=
  mkBench w (new_cluster replicas redis) d p None false [] [].

Definition sigkill_replica (concurrency : nat) (hold : Qc) (w : W) : result ScenarioResult * Bench W :=
  finally (sigkill_body hold) finish_plain (enter w 3 "" (Some (new_driver concurrency 48)) None).
Definition sigterm_replica (concurrency : nat) (hold : Qc) (w : W) : result ScenarioResult * Bench W :=
  finally (sigterm_body hold) finish_plain (enter w 3 "" (Some (new_driver concurrency 48)) None).
Definition network_partition (concurrency : nat) (hold : Qc) (w : W) : result ScenarioResult * Bench W :=
  finally (partition_body hold) (finish_child (q 15))
    (enter w 2 "" (Some (new_driver concurrency 48)) (Some FaultProxy.init)).
Definition redis_down (concurrency : nat) (hold : Qc) (w : W) : result ScenarioResult * Bench W :=
  finally (redis_body hold) (finish_docker "nanoserve-redis" (q 2))
    (enter w 2 "127.0.0.1:6380" (Some (new_driver concurrency 48)) None).
Definition etcd_down (concurrency : nat) (hold : Qc) (w : W) : result ScenarioResult * Bench W :=
  finally (etcd_body hold) (finish_docker "nanoserve-etcd" (q 3))
    (enter w 2 "" (Some (new_driver concurrency 48)) None).
Definition traffic_spike (base multiplier : nat) (hold : Qc) (w : W) : result ScenarioResult * Bench W :=
  (let* bin := find_bin "router/autoscaler" in
   match bin with
   | None => ret (mkResult "traffic_spike" "autoscaler reacts without oscillating" false [] "autoscaler binary not built")
   | Some exe => finally (spike_body exe base multiplier hold) (finish_child (q 10))
   end) (enter w 2 "" None None).
Definition slow_replica (concurrency : nat) (hold delay_ms : Qc) (w : W) : result ScenarioResult * Bench W :=
  finally (slow_body hold delay_ms) (finish_child (q 15))
    (enter w 2 "" (Some (new_driver concurrency 48)) (Some FaultProxy.init)).

(** [ALL], with the default arguments. *)
Definition ALL : list (string * (W → result ScenarioResult * Bench W)) :=
  [("sigkill_replica", sigkill_replica 12 (q 12)); ("sigterm_replica", sigterm_replica 12 (q 12));
   ("network_partition", network_partition 12 (q 12)); ("redis_down", redis_down 8 (q 10)); ("etcd_down", etcd_down 8 (q 10));
   ("traffic_spike", traffic_spike 4 5 (q 20)); ("slow_replica", slow_replica 12 (q 15) (q 500))]%string.

(** ** The suite (scripts/chaos.py) *)

(** One scenario by name, with the machine it leaves; an exception makes a failed result
    (its message is not modelled), but [SystemExit] is not an [Exception]. *)
Definition add_elapsed (seconds : Qc) (r : ScenarioResult) : ScenarioResult :=
  mkResult (r_name r) (r_assertion r) (r_passed r) (r_observed r ++ [("elapsed_seconds"%string, oround 1 seconds)]) (r_note r).
Definition crashed (name : string) : ScenarioResult := mkResult name "scenario completed" false [] "raised".
Definition run_scenario (name : string) : M W ScenarioResult := λ w,
  match dget name ALL with
  | Some f => let (r, b) := f w in (r, world b)
  | None => (Raise KeyError, w)
  end.

Fixpoint run_scenarios (names : list string) : M W (list ScenarioResult) :=
  match names with
  | [] => ret []
  | name :: names =>
      let* started := m_time in
      let* result := catch_when is_exception (run_scenario name) (ret (crashed name)) in
      let* now := m_time in
      let* results := run_scenarios names in
      ret (add_elapsed (now - started)%Qc result :: results)
  end.

(** [main]: the exit code, and the results it writes, if it gets to write them. *)
Definition chaos_main (only : list string) (list_ : bool) : M W (Z * option (list ScenarioResult)) :=
  if list_ then ret (0%Z, None)
  else
    let names := match only with [] => ALL.*1 | _ => only end in
    if bool_decide (Exists (λ n, n ∉ ALL.*1) names) then ret (2%Z, None)
    else
      let* results := run_scenarios names in
      ret (if forallb r_passed results then 0%Z else 1%Z, Some results).
End scenarios.

(** * What is relied on of the machine *)

(** The child processes that run and have not been sent SIGKILL, and the time. *)
Class MachineView (W : Type) := { alive : W → gset nat; now : W → Qc }.

(** Time passes, and processes may end. *)
Definition calm `{!MachineView W} (w w' : W) : Prop := alive w' ⊆ alive w ∧ (now w <= now w')%Qc.

Class MachineLaws (W : Type) `{!Machine W, !MachineView W} := {
  time_law w : wp m_time (λ t w', t = now w' ∧ calm w w') never w;
  sleep_law d w : wp (m_sleep d) (λ _ w', calm w w' ∧ (now w + d <= now w')%Qc) (λ _ w', calm w w' ∧ (d < 0)%Qc) w;
  exists_law p w : wp (m_exists p) (λ _ w', calm w w') never w;
  popen_law p w : wp (m_popen p) (λ pid w', alive w' ⊆ {[pid]} ∪ alive w ∧ (now w <= now w')%Qc) (λ _ w', calm w w') w;
  poll_law pid w : wp (m_poll pid) (λ running w', calm w w' ∧ (running = false → pid ∉ alive w')) never w;
  terminate_law pid w : wp (m_terminate pid) (λ _ w', calm w w') never w;
  kill_law pid w : wp (m_kill pid) (λ _ w', calm w w' ∧ pid ∉ alive w') never w;
  wait_law pid t w : wp (m_wait pid t) (λ _ w', calm w w' ∧ pid ∉ alive w') (λ e w', e = TimeoutExpired ∧ calm w w') w;
  log_law name w : wp (m_log name) (λ _ w', calm w w') (λ _ w', calm w w') w;
  stats_law w : wp m_stats (λ _ w', calm w w') (λ _ w', calm w w') w;
  docker_law args w : wp (m_docker args) (λ _ w', calm w w') (λ _ w', calm w w') w;
  connect_law port w : wp (m_connect port) (λ _ w', calm w w') (λ _ w', calm w w') w;
  bind_law port w : wp (m_bind port) (λ _ w', calm w w') (λ _ w', calm w w') w;
  range_law key w : wp (m_range key) (λ _ w', calm w w') (λ _ w', calm w w') w;
  lookup_law w : wp m_lookup (λ _ w', calm w w') (λ _ w', calm w w') w;
  elapse_law n p w : calm w (m_elapse n p w).2;
}.

(** * Programs that stay within a relation *)

(** Whether it returns or raises, [m] leaves a state related to the one it started in. *)
Definition within {S A} (R : S → S → Prop) (m : M S A) : Prop := ∀ s, wp m (λ _, R s) (λ _, R s) s.

Section within.
Context {S : Type} (R : S → S → Prop) `{!PreOrder R}.

Lemma within_ret {A} (a : A) : within R (ret a).
Proof. intros s. apply wp_ret. reflexivity. Qed.

Lemma within_raise {A} e : within R (raise e : M S A).
Proof. intros s. apply wp_raise. reflexivity. Qed.

Lemma within_gets {A} (f : S → A) : within R (gets f).
Proof. intros s. apply wp_gets. reflexivity. Qed.

Lemma within_modify (f : S → S) : (∀ s, R s (f s)) → within R (modify f).
Proof. intros Hf s. apply wp_modify, Hf. Qed.

Lemma within_lift {A} (r : result A) : within R (lift_result r).
Proof. intros s. rw /lift_result. destruct r; [apply within_ret|apply within_raise]. Qed.

Lemma within_bind {A B} (m : M S A) (k : A → M S B) : within R m → (∀ a, within R (k a)) → within R (bind m k).
Proof.
  intros Hm Hk s. apply wp_bind. eapply wp_mono; [apply Hm| |done]. intros a s1 H1.
  eapply wp_mono; [apply Hk|..]; intros x s2 H2; by transitivity s1.
Qed.

Lemma within_catch_when {A} p (m h : M S A) : within R m → within R h → within R (catch_when p m h).
Proof.
  intros Hm Hh s. apply wp_catch_when. eapply wp_mono; [apply Hm|done|]. intros e s1 H1. cbv beta. destruct (p e); [|done].
  eapply wp_mono; [apply Hh|..]; intros x s2 H2; by transitivity s1.
Qed.

Lemma within_for_each {A} (l : list A) (f : A → M S unit) : (∀ x, within R (f x)) → within R (for_each l f).
Proof. intros Hf. induction l as [|x l IH]; [apply within_ret|]. by apply within_bind. Qed.

Lemma within_poll_until (time_ : M S Qc) sleep_ pred deadline poll : within R time_ → (∀ d, within R (sleep_ d)) → within R pred →
  ∀ fuel, within R (poll_until time_ sleep_ fuel pred deadline poll).
Proof.
  intros Ht Hs Hp. induction fuel as [|fuel IH]; [apply within_ret|]. cbn. apply within_bind; [done|]. intros t.
  destruct (bool_decide _); [|apply within_ret]. apply within_bind; [done|]. intros []; [apply within_ret|]. by apply within_bind.
Qed.

Lemma within_mono (R' : S → S → Prop) {A} (m : M S A) : (∀ s s', R s s' → R' s s') → within R m → within R' m.
Proof. intros HR Hm s. eapply wp_mono; [apply Hm|..]; intros; by apply HR. Qed.
End within.

Create HintDb within.
#[export] Hint Resolve within_ret within_raise within_gets within_lift : within.

(** Follows the structure of a program, down to the operations the hints know. *)
Ltac solve_within :=
  repeat (intros; lazymatch goal with
  | |- PreOrder _ => apply _
  | |- within _ (bind _ _) => apply within_bind
  | |- within _ (catch_when _ _ _) => apply within_catch_when
  | |- within _ (for_each _ _) => apply within_for_each
  | |- within _ (poll_until _ _ _ _ _ _) => apply within_poll_until
  | |- within _ (if ?b then _ else _) => destruct b
  | |- within _ (match ?x with _ => _ end) => destruct x
  | |- within _ _ => solve [eauto with within typeclass_instances]
  end).

Section laws.
Context {W : Type} `{!Machine W, !MachineView W, !MachineLaws W, !Parsing}.
Implicit Types b : Bench W.

#[export] Instance calm_preorder : PreOrder (calm : W → W → Prop).
Proof.
  split; [intros w; split; [done|apply Qcle_refl]|]. intros w1 w2 w3 [H1 H2] [H3 H4].
  split; [set_solver|by eapply Qcle_trans].
Qed.

(** What can have changed while the scenario's own variables did not. *)
Definition grows (d d' : option LoadDriver) : Prop :=
  match d, d' with None, None => True | Some d, Some d' => ∃ outs, d' = append outs d | _, _ => False end.
Definition same_stop (p p' : option FaultProxy.t) : Prop := (FaultProxy.stopping <$> p') = (FaultProxy.stopping <$> p).

Record later b b' : Prop := mkLater {
  l_cluster : cluster b' = cluster b;
  l_child : child b' = child b;
  l_stopped : stopped b' = stopped b;
  l_dockers : dockers b' = dockers b;
  l_faults : faults b' = faults b;
  l_calm : calm (world b) (world b');
  l_driver : grows (driver b) (driver b');
  l_proxy : same_stop (proxy b) (proxy b');
}.

(** The outcomes among the results of some requests. *)
Definition recorded (ended : list (result RequestOutcome)) : list RequestOutcome :=
  omap (λ r, match r with Ok o => Some o | Raise _ => None end) ended.

Lemma worker_turns d ended : d_running (foldl worker_turn d ended) = d_running d ∧
  d_outcomes (foldl worker_turn d ended) = d_outcomes d ++ recorded ended.
Proof.
  revert d. induction ended as [|[o|e] ended IH]; intros d; [by cbn; rw app_nil_r|..]; cbn [foldl].
  - destruct (IH (worker_turn d (Ok o))) as [-> ->]. cbn. by rw -app_assoc.
  - by destruct (IH (worker_turn d (Raise e))) as [-> ->].
Qed.

Lemma append_nil d : append [] d = d.
Proof. rw /append. by destruct (d_running d). Qed.
Lemma append_append o1 o2 d : append o2 (append o1 d) = append (o1 ++ o2) d.
Proof.
  rw /append. destruct (d_running d) eqn:Hr; [|by rw Hr]. destruct (worker_turns d o1) as [-> _]. by rw Hr foldl_app.
Qed.

#[export] Instance later_preorder : PreOrder later.
Proof.
  split.
  - intros b. split; try done. destruct (driver b) as [d|]; cbn; [|done]. exists []. by rw append_nil.
  - intros b1 b2 b3 [] []. split; try congruence; [by etransitivity|].
    destruct (driver b1) as [d1|], (driver b2) as [d2|], (driver b3) as [d3|]; try done. destruct l_driver0 as [o1 ->].
    destruct l_driver1 as [o2 ->]. exists (o1 ++ o2). apply append_append.
Qed.

Lemma later_world b w : calm (world b) w → later b (set_world w b).
Proof. intros Hw. destruct (reflexivity b : later b b) as []. by split. Qed.

Lemma later_on_world {A} (m : M W A) (P : A → W → Prop) E b :
  wp m (λ a w, calm (world b) w ∧ P a w) (λ e w, calm (world b) w ∧ E e w) (world b) →
  wp (on_world m) (λ a b', later b b' ∧ P a (world b')) (λ e b', later b b' ∧ E e (world b')) b.
Proof.
  intros Hm. apply wp_zoom. eapply wp_mono; [exact Hm|..]; intros x w [Hc HP]; (split; [by apply later_world|done]).
Qed.

Lemma proxy_step_stop a p p' : of_threads a = true → FaultProxy.step a p = Some p' → FaultProxy.stopping p' = FaultProxy.stopping p.
Proof.
  assert (∀ i f, FaultProxy.on_link i f p = Some p' → FaultProxy.stopping p' = FaultProxy.stopping p) as Hl.
  { intros i f. rw /FaultProxy.on_link. destruct (_ !! _) as [l|]; [|done]. cbn. destruct (f l); [|done]. cbn. by intros [= <-]. }
  destruct a; cbn [of_threads FaultProxy.step]; intros Ha; try done; try by apply Hl.
  all: cbn [FaultProxy.accept_step]; destruct (FaultProxy.accepting p); try done; try by intros [= <-].
  case_bool_decide; by intros [= <-].
Qed.

Lemma proxy_runs_stop acts p : FaultProxy.stopping (proxy_runs acts p) = FaultProxy.stopping p.
Proof.
  rw /proxy_runs. revert p. induction acts as [|a acts IH]; intros p; [done|]. cbn. rw IH. destruct (of_threads a) eqn:Ha; [|done].
  destruct (FaultProxy.step a p) as [p'|] eqn:Hs; [|done]. by eapply proxy_step_stop.
Qed.

Lemma later_elapse b : wp elapse (λ _, later b) never b.
Proof.
  apply wp_modify. split; try done.
  - apply elapse_law.
  - cbn. destruct (driver b); cbn; [by eexists|done].
  - rw /same_stop /=. destruct (proxy b); cbn; [by rw proxy_runs_stop|done].
Qed.

Lemma later_blocking {A} (m : M W A) (P : A → W → Prop) E b :
  (∀ w, wp m (λ a w', calm w w' ∧ P a w') (λ e w', calm w w' ∧ E e w') w) →
  wp (blocking m) (λ a b', later b b' ∧ P a (world b')) (λ e b', later b b' ∧ E e (world b')) b.
Proof.
  intros Hm. apply wp_bind. eapply wp_mono; [apply later_elapse| |done]. intros u b1 H1. cbv beta in H1 |- *.
  eapply wp_mono; [by apply later_on_world|..]; intros x b2 [H2 HP]; (split; [by etransitivity|done]).
Qed.

Lemma within_world {A} (m : M W A) : (∀ w, wp m (λ _, calm w) (λ _, calm w) w) → within later (on_world m).
Proof. intros Hm b. apply wp_zoom. eapply wp_mono; [apply Hm|..]; intros; by apply later_world. Qed.

Lemma within_blocking {A} (m : M W A) : (∀ w, wp m (λ _, calm w) (λ _, calm w) w) → within later (blocking m).
Proof.
  intros Hm. apply within_bind; [apply _| |intros _; by apply within_world].
  intros b. eapply wp_mono; [apply later_elapse|done|]. by intros ? ? [].
Qed.
(** ** The operations that only wait and observe *)

Ltac by_law L :=
  intros; eapply wp_mono; [apply L|..]; first [by intros ? ? []|by intros ? ? [? ?]|intros ? ? ?; done].


Lemma later_time : within later time.
Proof. apply within_world. by_law time_law. Qed.
Lemma later_sleep d : within later (sleep d).
Proof. apply within_blocking. by_law sleep_law. Qed.
Lemma later_exists p : within later (on_world (m_exists p)).
Proof. apply within_world. by_law exists_law. Qed.
Lemma later_poll p : within later (on_world (m_poll p)).
Proof. apply within_world. by_law poll_law. Qed.
Lemma later_terminate p : within later (on_world (m_terminate p)).
Proof. apply within_world. by_law terminate_law. Qed.
Lemma later_kill p : within later (on_world (m_kill p)).
Proof. apply within_world. by_law kill_law. Qed.
Lemma later_log name : within later (on_world (m_log name)).
Proof. apply within_world, log_law. Qed.
Lemma later_stats : within later stats.
Proof. apply within_blocking, stats_law. Qed.
Lemma later_connect port : within later (blocking (m_connect port)).
Proof. apply within_blocking. by_law connect_law. Qed.
Lemma later_bind port : within later (proxy_start port).
Proof. apply within_world, bind_law. Qed.
Lemma later_range key : within later (blocking (m_range key)).
Proof. apply within_blocking. by_law range_law. Qed.
Lemma later_lookup : within later (blocking m_lookup).
Proof. apply within_blocking, lookup_law. Qed.
#[local] Hint Resolve later_time later_sleep later_exists later_poll later_terminate later_kill later_log later_stats later_connect later_bind
  later_range later_lookup : within.

Lemma later_ready_count : within later ready_count.
Proof. rw /ready_count. solve_within. Qed.
#[local] Hint Resolve later_ready_count : within.

Lemma later_wait_until pred timeout poll : within later pred → within later (cluster_wait_until pred timeout poll).
Proof. intros Hp. rw /cluster_wait_until /wait_until. solve_within. Qed.
#[local] Hint Resolve later_wait_until : within.

Lemma later_wait_ready want timeout : within later (wait_ready want timeout).
Proof. apply later_wait_until. solve_within. Qed.
Lemma later_evicted : within later evicted_.
Proof. rw /evicted_. solve_within. Qed.
Lemma later_port_open port : within later (_port_open port).
Proof. rw /_port_open. solve_within. Qed.
Lemma later_load_share id : within later (_load_share id).
Proof. rw /_load_share. solve_within. Qed.
Lemma later_read_desired : within later _read_desired.
Proof. rw /_read_desired. solve_within. Qed.
Lemma later_find_bin name : within later (find_bin name).
Proof. rw /find_bin. solve_within. Qed.
#[local] Hint Resolve later_wait_ready later_evicted later_port_open later_load_share later_read_desired later_find_bin : within.

Lemma later_sample fuel deadline : ∀ peak samples, within later (sample_desired fuel deadline peak samples).
Proof. induction fuel as [|fuel IH]; intros peak samples; cbn; solve_within. Qed.
#[local] Hint Resolve later_sample : within.
(** ** Stopping processes *)

Lemma wp_later {A} (m : M (Bench W) A) (P : A → Bench W → Prop) b0 b : later b0 b →
  wp m (λ a b', later b b' ∧ P a b') never b → wp m (λ a b', later b0 b' ∧ P a b') never b.
Proof. intros Hl Hm. eapply wp_mono; [exact Hm| |done]. intros a b' [H1 H2]. split; [by etransitivity|done]. Qed.

Lemma wait_or_kill_spec pid t b :
  wp (wait_or_kill pid t) (λ _ b', later b b' ∧ pid ∉ alive (world b')) never b.
Proof.
  apply wp_catch. eapply wp_mono.
  - apply (later_blocking (m_wait pid t) (λ _ w, pid ∉ alive w) (λ e _, e = TimeoutExpired)).
    intros w. eapply wp_mono; [apply wait_law|naive_solver|naive_solver].
  - done.
  - intros e b1 [H1 ->]. cbn. apply wp_later with (b := b1); [done|].
    eapply wp_mono; [apply (later_on_world (m_kill pid) (λ _ w, pid ∉ alive w) never)|done|by intros ? ? [_ []]].
    eapply wp_mono; [apply kill_law|naive_solver|by intros ? ? []].
Qed.

Lemma poll_spec pid b :
  wp (on_world (m_poll pid)) (λ running b', later b b' ∧ (running = false → pid ∉ alive (world b'))) never b.
Proof.
  eapply wp_mono; [apply (later_on_world (m_poll pid) (λ r w, r = false → pid ∉ alive w) never)|done|by intros ? ? [_ []]].
  eapply wp_mono; [apply poll_law|naive_solver|by intros ? ? []].
Qed.

Lemma terminate_spec pid b : wp (on_world (m_terminate pid)) (λ _ b', later b b' ∧ True) never b.
Proof.
  eapply wp_mono; [apply (later_on_world (m_terminate pid) (λ _ _, True) never)|done|by intros ? ? [_ []]].
  eapply wp_mono; [apply terminate_law|naive_solver|by intros ? ? []].
Qed.

Lemma stop_process_spec p t b :
  wp (stop_process p t) (λ _ b', later b b' ∧ ∀ pid, p = Some pid → pid ∉ alive (world b')) never b.
Proof.
  destruct p as [pid|]; [|by apply wp_ret]. apply wp_bind. eapply wp_mono; [apply poll_spec| |done]. intros running b1 [H1 Hr].
  cbv beta. destruct running; [|apply wp_ret; split; [done|by intros ? [= <-]; apply Hr]]. apply wp_bind.
  eapply wp_mono; [apply terminate_spec| |done]. intros u b2 [H2 _]. cbv beta. apply wp_later with (b := b2); [by etransitivity|].
  eapply wp_mono; [apply wait_or_kill_spec| |done]. intros _ b3 [H3 Hd]. split; [done|]. by intros ? [= <-].
Qed.

Lemma terminate_if_running_spec p b : wp (terminate_if_running p) (λ _ b', later b b' ∧ True) never b.
Proof.
  destruct p as [pid|]; [|by apply wp_ret]. apply wp_bind. eapply wp_mono; [apply poll_spec| |done]. intros running b1 [H1 _].
  cbv beta. destruct running; [|by apply wp_ret]. apply wp_later with (b := b1); [done|]. apply terminate_spec.
Qed.

(** A loop over processes: what each round leaves out of [alive] stays out. *)
Lemma for_each_stop {A} (f : A → M (Bench W) unit) (dead : A → nat → Prop) l b :
  (∀ x b, wp (f x) (λ _ b', later b b' ∧ ∀ pid, dead x pid → pid ∉ alive (world b')) never b) →
  wp (for_each l f) (λ _ b', later b b' ∧ ∀ x pid, x ∈ l → dead x pid → pid ∉ alive (world b')) never b.
Proof.
  intros Hf. revert b. induction l as [|x l IH]; intros b.
  { apply wp_ret. split; [done|]. by intros x pid ?%elem_of_nil. }
  apply wp_bind. eapply wp_mono; [apply Hf| |done]. intros u b1 [H1 Hd]. cbv beta.
  eapply wp_mono; [apply IH| |done]. intros _ b2 [H2 Hd2]. split; [by etransitivity|].
  intros y pid [->|Hy]%elem_of_cons Hp; [|by eapply Hd2]. destruct (l_calm _ _ H2) as [Hsub _]. specialize (Hd pid Hp). set_solver.
Qed.

Definition cluster_pids (c : Cluster) : gset nat :=
  list_to_set (omap id (c_replica_procs c)) ∪ option_to_set (c_router c).

Lemma cluster_stop_spec b :
  wp cluster_stop (λ _ b', ∃ b1, later b b1 ∧ b' = set_cluster (set_handles [] (cluster b1)) b1 ∧
    ∀ pid, pid ∈ cluster_pids (cluster b) → pid ∉ alive (world b')) never b.
Proof.
  apply wp_bind, wp_gets. apply wp_bind. eapply wp_mono; [apply stop_process_spec| |done]. intros _ b1 [H1 Hr]. cbv beta.
  apply wp_bind. eapply wp_mono; [apply (for_each_stop _ (λ _ _, False))| |done].
  { intros p b2. eapply wp_mono; [apply terminate_if_running_spec| |done]. naive_solver. }
  intros _ b2 [H2 _]. cbv beta. apply wp_bind. eapply wp_mono; [apply (for_each_stop _ (λ p pid, p = Some pid))| |done].
  { intros [pid|] b3; [|by apply wp_ret]. eapply wp_mono; [apply wait_or_kill_spec| |done]. naive_solver. }
  intros _ b3 [H3 Hd]. cbv beta. apply wp_modify. exists b3. split; [by do 2 (etransitivity; [eassumption|])|]. split; [done|].
  intros pid [Hp|Hp]%elem_of_union; cbn.
  - apply elem_of_list_to_set, list_elem_of_omap in Hp as (p & Hp & Heq). cbn in Heq. subst p. by eapply Hd.
  - apply elem_of_option_to_set in Hp. specialize (Hr pid Hp).
    destruct (l_calm _ _ H2) as [Ha _], (l_calm _ _ H3) as [Hb _]. set_solver.
Qed.

(** * What holds throughout a scenario *)

(** The processes a scenario has to account for. *)
Definition pids b : gset nat :=
  list_to_set (omap id (c_replica_procs (cluster b))) ∪ option_to_set (c_router (cluster b)) ∪ option_to_set (child b).

(** Whether a container is down after some docker commands, and whether none is. *)
Definition down (c : string) (l : list (list string * bool)) : bool :=
  foldl (λ is_down d,
    if bool_decide (d = (["stop"%string; c], true)) then true
    else if bool_decide (d = (["start"%string; c], true)) then false else is_down) false l.
Definition all_up (l : list (list string * bool)) : Prop := ∀ c, down c l = false.

(** A container that is down is so because the last command, to start it, failed. *)
Definition settled (l : list (list string * bool)) : Prop :=
  ∀ c, down c l = true → last l = Some (["start"%string; c], false).

(** What is known of a scenario's state: the faults injected so far, a lower bound of the
    outcomes (all of them, when the clients have stopped), and its processes. *)
Record key := mkKey {
  k_faults : list nat;
  k_outs : list RequestOutcome;
  k_run : bool;
  k_router : option nat;
  k_child : option nat;
  k_driver : bool;
}.

Section scenario.
(** The processes that were there before, the container the scenario stops, if any, and
    whether it has a child process and a proxy of its own. *)
Context (base : gset nat) (cont : option string) (spawns proxied : bool).

Record st (k : key) b : Prop := mkSt {
  st_alive : alive (world b) ⊆ base ∪ pids b;
  st_settled : (stopped b = true ∧ is_Some cont) ∨ all_up (dockers b);
  st_cont : Forall (λ d, ∀ c, d.1 = ["stop"%string; c] → cont = Some c) (dockers b);
  st_faults : faults b = k_faults k;
  st_run : from_option d_running false (driver b) = k_run k;
  st_outs : if k_run k then k_outs k `prefix_of` outcomes b else outcomes b = k_outs k;
  st_router : c_router (cluster b) = k_router k;
  st_child : child b = k_child k;
  st_driver : k_driver k = true → is_Some (driver b);
  st_spawns : spawns = false → child b = None;
  st_proxied : proxied = false → proxy b = None;
}.

Definition safe b : Prop := ∃ k, st k b.

Lemma append_outs outs d : d_running (append outs d) = d_running d ∧
  d_outcomes (append outs d) = d_outcomes d ++ (if d_running d then recorded outs else []).
Proof. rw /append. destruct (d_running d) eqn:Hr; [|by rw app_nil_r]. destruct (worker_turns d outs) as [-> ->]. done. Qed.

Lemma grows_outs b b' : grows (driver b) (driver b') →
  from_option d_running false (driver b') = from_option d_running false (driver b) ∧
  outcomes b `prefix_of` outcomes b' ∧ (from_option d_running false (driver b) = false → outcomes b' = outcomes b).
Proof.
  rw /outcomes. destruct (driver b) as [d|], (driver b') as [d'|]; try done. intros [outs ->]. cbn.
  destruct (append_outs outs d) as [-> ->]. split; [done|]. split; [by apply prefix_app_r|]. intros ->. by rw app_nil_r.
Qed.

Lemma st_later k b b' : later b b' → st k b → st k b'.
Proof.
  intros [Hc Hch Hs Hd Hf [Ha _] Hg Hpx] [H1 H2 H3 H4 H5 H6 H7 H8 H9 H10 H11]. destruct (grows_outs b b' Hg) as (G1 & G2 & G3).
  split; rw ?Hc ?Hch ?Hs ?Hd ?Hf //.
  - rw /pids Hc Hch -/(pids b). clear -Ha H1. set_solver.
  - by rw G1.
  - destruct (k_run k); [by etransitivity|]. rw -H6. by apply G3.
  - intros Hd'. destruct (H9 Hd') as [d Hd2]. rw Hd2 in Hg. by destruct (driver b').
  - intros Hp. rw /same_stop (H11 Hp) in Hpx. by destruct (proxy b').
Qed.

(** Any step that moves the state with the knowledge of it. *)
Definition carries b b' : Prop := ∀ k, st k b → st k b'.
#[export] Instance carries_preorder : PreOrder carries.
Proof. split; [by intros b k|]. intros b1 b2 b3 H1 H2 k Hk. by apply H2, H1. Qed.

Lemma carries_later {A} (m : M (Bench W) A) : within later m → within carries m.
Proof. apply within_mono. intros b b' Hl k. by apply st_later. Qed.

Lemma st_bind {A B} (m : M (Bench W) A) (f : A → M (Bench W) B) k Q b :
  within carries m → st k b → (∀ a b', st k b' → wp (f a) Q (λ _, safe) b') → wp (bind m f) Q (λ _, safe) b.
Proof.
  intros Hm Hb Hf. apply wp_bind. eapply wp_mono; [apply Hm|..]; intros x b' Hc; [by apply Hf, Hc|by exists k; apply Hc].
Qed.

Lemma wp_popen {B} p (f : nat → M (Bench W) B) k Q b : st k b →
  (∀ pid w, alive w ⊆ {[pid]} ∪ alive (world b) → wp (f pid) Q (λ _, safe) (set_world w b)) →
  wp (bind (on_world (m_popen p)) f) Q (λ _, safe) b.
Proof.
  intros Hb Hf. apply wp_bind, wp_zoom. eapply wp_mono; [apply popen_law|..].
  - intros pid w [Ha _]. by apply Hf.
  - intros e w Hw. exists k. eapply st_later; [by apply later_world|done].
Qed.

(** ** Bringing the cluster up *)

Definition add_proc (pid : nat) (c : Cluster) : Cluster := set_procs (c_replica_procs c ++ [Some pid]) c.

Lemma pids_add_proc pid w b : pids (set_cluster (add_proc pid (cluster b)) (set_world w b)) = {[pid]} ∪ pids b.
Proof. rw /pids /= omap_app list_to_set_app_L /=. set_solver. Qed.

Lemma st_handles k b l : st k b → st k (set_cluster (set_handles l (cluster b)) b).
Proof. by intros []. Qed.

Lemma carries_handles (f : list string → list string) :
  within carries (with_cluster (λ c, set_handles (f (c_log_handles c)) c) : M (Bench W) unit).
Proof. apply within_modify. intros b k. apply st_handles. Qed.

Lemma carries_streams name : within carries (_streams name : M (Bench W) unit).
Proof.
  rw /_streams. apply within_bind; [apply _..|apply within_gets, _|]. intros c. destruct (negb _); [apply within_ret, _|].
  apply within_bind; [apply _|apply carries_later, later_log|]. intros _. apply (carries_handles (λ l, l ++ [name])).
Qed.

Lemma carries_intro {A} (m : M (Bench W) A) :
  (∀ k b, st k b → wp m (λ _, st k) (λ _, st k) b) → within carries m.
Proof.
  intros Hm b. pose proof (λ k, Hm k b) as Hk. revert Hk. rw /wp. destruct (m b) as [[a|e] b']; intros Hk k; apply Hk.
Qed.

Lemma carries_spawn i :
  within carries (let* pid := _spawn_replica i in with_cluster (add_proc pid) : M (Bench W) unit).
Proof.
  apply carries_intro. intros k b Hk. rw /_spawn_replica. apply wp_bind. apply wp_bind, wp_gets. apply wp_bind.
  eapply wp_mono; [apply carries_streams|..]; [|intros e b' Hb'; by apply Hb'].
  intros u b1 H1. specialize (H1 k Hk). apply wp_zoom. eapply wp_mono; [apply popen_law|..].
  - intros pid w [Ha _]. apply wp_modify. destruct H1 as [S1 S2 S3 S4 S5 S6 S7 S8 S9 S10 S11]. split; try done.
    change (cluster (set_world w b1)) with (cluster b1). rw pids_add_proc. cbn. clear -S1 Ha. set_solver.
  - intros e w Hw. eapply st_later; [by apply later_world|done].
Qed.


Lemma carries_cluster_stop : within carries cluster_stop.
Proof.
  apply carries_intro. intros k b Hk. eapply wp_mono; [apply cluster_stop_spec| |by intros ? ? []].
  intros _ b' (b1 & Hl & -> & _). by apply st_handles, (st_later k b).
Qed.

Definition with_router (r : option nat) (k : key) : key := mkKey (k_faults k) (k_outs k) (k_run k) r (k_child k) (k_driver k).
Definition with_child (c : option nat) (k : key) : key := mkKey (k_faults k) (k_outs k) (k_run k) (k_router k) c (k_driver k).

Lemma st_router_set k b w pid : st k b → k_router k = None → alive w ⊆ {[pid]} ∪ alive (world b) →
  st (with_router (Some pid) k) (set_cluster (set_router (Some pid) (cluster b)) (set_world w b)).
Proof.
  intros [H1 H2 H3 H4 H5 H6 H7 H8 H9 H10 H11] Hn Ha. split; try done. rw Hn in H7. rw /pids H7 in H1. rw /pids /=. clear -H1 Ha. set_solver.
Qed.

Lemma st_child_set k b w pid : spawns = true → st k b → k_child k = None → alive w ⊆ {[pid]} ∪ alive (world b) →
  st (with_child (Some pid) k) (set_child (Some pid) (set_world w b)).
Proof.
  intros Hsp [H1 H2 H3 H4 H5 H6 H7 H8 H9 H10 H11] Hn Ha. split; try done; [|by rw Hsp]. rw Hn in H8. rw /pids H8 in H1. rw /pids /=. clear -H1 Ha. set_solver.
Qed.

Lemma cluster_start_spec t k b : st k b → k_router k = None →
  wp (cluster_start t) (λ _ b', ∃ r, st (with_router r k) b') (λ _, safe) b.
Proof.
  intros Hk Hn. rw /cluster_start. eapply st_bind; [apply carries_later, later_log|exact Hk|]. clear b Hk. intros _ b Hk.
  apply wp_bind, wp_gets. eapply st_bind; [apply within_for_each; [apply _|intros i; apply carries_spawn]|exact Hk|].
  generalize (cluster b) as c. clear b Hk. intros c _ b Hk.
  eapply st_bind; [apply carries_later, later_find_bin|exact Hk|]. clear b Hk. intros [exe|] b Hk; [|by apply wp_raise; exists k].
  eapply st_bind; [apply carries_streams|exact Hk|]. clear b Hk. intros _ b Hk.
  eapply wp_popen; [exact Hk|]. intros pid w Ha. apply wp_bind, wp_modify.
  pose proof (st_router_set k b w pid Hk Hn Ha) as Hk'. revert Hk'. change (cluster (set_world w b)) with (cluster b).
  generalize (set_cluster (set_router (Some pid) (cluster b)) (set_world w b)) as b1. intros b1 Hk'.
  eapply st_bind; [apply carries_later, later_wait_ready|exact Hk'|]. intros [] b2 Hk2; [by apply wp_ret; exists (Some pid)|].
  eapply st_bind; [apply carries_cluster_stop|exact Hk2|]. intros _ b3 Hk3. apply wp_raise. by eexists.
Qed.

(** ** Clients and faults *)

Definition with_outs (o : list RequestOutcome) (run : bool) (k : key) : key :=
  mkKey (k_faults k) o run (k_router k) (k_child k) (k_driver k).
Definition with_fault (o : list RequestOutcome) (k : key) : key :=
  mkKey (k_faults k ++ [length o]) o (k_run k) (k_router k) (k_child k) (k_driver k).

Lemma st_outs_prefix k b : st k b → k_outs k `prefix_of` outcomes b.
Proof. intros [_ _ _ _ _ Ho _ _ _ _ _]. destruct (k_run k); [done|by rw Ho]. Qed.

Lemma st_refresh k b : st k b → st (with_outs (outcomes b) (k_run k) k) b.
Proof. intros [H1 H2 H3 H4 H5 H6 H7 H8 H9 H10 H11]. split; try done. cbn. by destruct (k_run k). Qed.

Lemma driver_start_spec k b Q (f : unit → M (Bench W) ScenarioResult) : st k b → k_driver k = true →
  (∀ b', st (with_outs (k_outs k) true k) b' → wp (f tt) Q (λ _, safe) b') →
  wp (bind driver_start f) Q (λ _, safe) b.
Proof.
  intros Hk [d Hd]%(st_driver k b Hk) Hf. apply wp_bind, wp_modify, Hf. pose proof (st_outs_prefix k b Hk) as Hp. destruct Hk as [H1 H2 H3 H4 H5 H6 H7 H8 H9 H10 H11].
  rw /outcomes Hd in Hp. split; try done; cbn; by rw Hd.
Qed.

Lemma driver_stop_wp k b : st k b →
  wp driver_stop (λ _ b', ∃ o, k_outs k `prefix_of` o ∧ (k_run k = false → o = k_outs k) ∧ st (with_outs o false k) b') never b.
Proof.
  intros Hk. apply wp_bind. eapply wp_mono; [apply later_elapse| |done]. intros u b1 Hl. apply (st_later k) in Hl; [|done].
  clear Hk. apply wp_modify. exists (outcomes b1). split; [by apply st_outs_prefix|]. split.
  - intros Hr. pose proof (st_outs k b1 Hl) as Ho. by rw Hr in Ho.
  - destruct Hl as [H1 H2 H3 H4 H5 H6 H7 H8 H9 H10 H11]. split; try done; cbn.
    + by destruct (driver b1).
    + rw /outcomes /=. by destruct (driver b1).
    + intros Hd. by apply fmap_is_Some, H9.
Qed.

Lemma driver_stop_spec k b Q (f : unit → M (Bench W) ScenarioResult) : st k b →
  (∀ o b', k_outs k `prefix_of` o → st (with_outs o false k) b' → wp (f tt) Q (λ _, safe) b') →
  wp (bind driver_stop f) Q (λ _, safe) b.
Proof.
  intros Hk Hf. apply wp_bind. eapply wp_mono; [by apply driver_stop_wp| |by intros ? ? []].
  intros [] b' (o & Hp & _ & Ho). by eapply Hf.
Qed.

Lemma driver_mark_spec k b Q (f : nat → M (Bench W) ScenarioResult) : st k b →
  (∀ o b', k_outs k `prefix_of` o → (k_run k = false → o = k_outs k) → st (with_outs o (k_run k) k) b' → wp (f (length o)) Q (λ _, safe) b') →
  wp (bind driver_mark f) Q (λ _, safe) b.
Proof.
  intros Hk Hf. apply wp_bind, wp_gets. apply Hf; [by apply st_outs_prefix| |by apply st_refresh].
  intros Hr. pose proof (st_outs k b Hk) as Ho. by rw Hr in Ho.
Qed.

Lemma fault_spec {B} k b Q (f : unit → M (Bench W) B) : st k b →
  (∀ o b', k_outs k `prefix_of` o → st (with_fault o k) b' → wp (f tt) Q (λ _, safe) b') →
  wp (bind (modify add_fault) f) Q (λ _, safe) b.
Proof.
  intros Hk Hf. apply wp_bind, wp_modify. apply (Hf (outcomes b)); [by apply st_outs_prefix|].
  destruct (st_refresh k b Hk) as [H1 H2 H3 H4 H5 H6 H7 H8 H9 H10 H11]. split; try done. cbn. by rw H4.
Qed.

(** ** Containers *)

Lemma down_snoc c l d : down c (l ++ [d]) =
  if bool_decide (d = (["stop"%string; c], true)) then true
  else if bool_decide (d = (["start"%string; c], true)) then false else down c l.
Proof. by rw /down foldl_app. Qed.

Lemma up_settled l : all_up l → settled l.
Proof. intros Hl c Hd. by rw Hl in Hd. Qed.

Lemma up_failed l args : all_up l → all_up (l ++ [(args, false)]).
Proof. intros Hl c. rw down_snoc !bool_decide_false //. Qed.

(** Only the scenario's own container is ever stopped. *)
Lemma other_up c c' l : cont = Some c → Forall (λ d, ∀ c, d.1 = ["stop"%string; c] → cont = Some c) l → c' ≠ c → down c' l = false.
Proof.
  intros Hc Hl Hne. induction l as [|d l IH] using rev_ind; [done|]. apply Forall_app in Hl as [Hl Hd]. apply Forall_cons in Hd as [Hd _].
  rw down_snoc bool_decide_false; [case_bool_decide; [done|by apply IH]|]. intros ->. specialize (Hd c' eq_refl). congruence.
Qed.

Lemma started_up c l : cont = Some c → Forall (λ d, ∀ c, d.1 = ["stop"%string; c] → cont = Some c) l → all_up (l ++ [(["start"%string; c], true)]).
Proof.
  intros Hc Hl c'. rw down_snoc bool_decide_false //. case_bool_decide as Hd; [done|]. apply (other_up c); [done|done|]. by intros ->.
Qed.

Lemma started_settled c l ok : cont = Some c → Forall (λ d, ∀ c, d.1 = ["stop"%string; c] → cont = Some c) l →
  settled (l ++ [(["start"%string; c], ok)]).
Proof.
  intros Hc Hl c' Hd. destruct ok; [by rw (started_up c l Hc Hl c') in Hd|]. rw last_snoc. rw down_snoc !bool_decide_false // in Hd.
  destruct (decide (c' = c)) as [->|Hne]; [done|]. by rw (other_up c c' l) in Hd.
Qed.

(** A command was issued: it returned, failed, or could not be run. *)
Lemma run_docker_spec args b :
  wp (run_docker args) (λ ok b', ∃ b1, later b b1 ∧ b' = add_docker (args, ok) b1)
    (λ _ b', ∃ b1, later b b1 ∧ b' = add_docker (args, false) b1) b.
Proof.
  rw /wp /run_docker. pose proof (within_blocking (m_docker args) (docker_law args) b) as Hd. rw /wp in Hd.
  destruct (blocking (m_docker args) b) as [[ok|e] b1]; by exists b1.
Qed.

Lemma st_failed_docker k b args : st k b → (∀ c, args = ["stop"%string; c] → cont = Some c) → st k (add_docker (args, false) b).
Proof.
  intros [H1 H2 H3 H4 H5 H6 H7 H8 H9 H10 H11] Ha. split; try done.
  - destruct H2 as [H2|H2]; [by left|right]. by apply up_failed.
  - apply Forall_app. split; [done|]. by repeat constructor.
Qed.

Lemma docker_stop_spec {B} c k b Q (f : M (Bench W) B) : cont = Some c → st k b →
  (∀ o b', k_outs k `prefix_of` o → st (with_fault o k) b' → wp f Q (λ _, safe) b') →
  wp (do* docker ["stop"%string; c] true in do* modify (set_stopped true) in f) Q (λ _, safe) b.
Proof.
  intros Hc Hk Hf. apply wp_bind. rw /docker. rw bool_decide_true //. eapply fault_spec; [exact Hk|]. clear b Hk. intros o b Ho Hk.
  apply wp_bind. eapply wp_mono; [apply run_docker_spec|..].
  - intros ok b' (b1 & Hl & ->). apply (st_later _ _ _ Hl) in Hk. destruct ok; cbn [negb andb].
    + apply wp_ret. apply wp_bind, wp_modify. apply (Hf o); [done|]. destruct Hk as [H1 H2 H3 H4 H5 H6 H7 H8 H9 H10 H11].
      split; try done; [left; by rw Hc|]. apply Forall_app. split; [done|]. constructor; [|constructor]. by intros ? [= <-].
    + apply wp_raise. eexists. apply st_failed_docker; [exact Hk|]. by intros ? [= <-].
  - intros e b' (b1 & Hl & ->). apply (st_later _ _ _ Hl) in Hk. eexists. apply st_failed_docker; [exact Hk|]. by intros ? [= <-].
Qed.

Lemma docker_start_spec {B} c k b Q (f : M (Bench W) B) : cont = Some c → st k b →
  (∀ b', st k b' → wp f Q (λ _, safe) b') →
  wp (do* docker ["start"%string; c] true in do* modify (set_stopped false) in f) Q (λ _, safe) b.
Proof.
  intros Hc Hk Hf. apply wp_bind. rw /docker. rw bool_decide_false //. apply wp_bind, wp_ret. apply wp_bind.
  eapply wp_mono; [apply run_docker_spec|..].
  - intros ok b' (b1 & Hl & ->). apply (st_later _ _ _ Hl) in Hk. destruct ok; cbn [negb andb].
    + apply wp_ret. apply wp_bind, wp_modify. apply Hf. destruct Hk as [H1 H2 H3 H4 H5 H6 H7 H8 H9 H10 H11].
      split; try done; [right; by apply started_up|]. apply Forall_app. split; [done|]. by repeat constructor.
    + apply wp_raise. eexists. by apply st_failed_docker.
  - intros e b' (b1 & Hl & ->). apply (st_later _ _ _ Hl) in Hk. eexists. by apply st_failed_docker.
Qed.

(** ** Verdicts *)

Definition served (fs : list nat) (outs : list RequestOutcome) : Prop :=
  fs ≠ [] ∧ ∀ n, n ∈ fs → Forall (λ o, o_ok o = true) (drop n outs).

Definition good (r : ScenarioResult) b : Prop :=
  ∃ k, st k b ∧ (r_passed r = true → k_run k = false ∧ served (k_faults k) (k_outs k)).

Lemma failed_count l : ls_failed (summarise l) = length (filter (λ o, o_ok o = false) l).
Proof.
  cbn. induction l as [|o l IH] using rev_ind; [done|]. rw tally_snoc /tally_one filter_app filter_cons filter_nil length_app.
  destruct (o_ok o); case_decide; try done; cbn; lia.
Qed.

Lemma none_failed l : (ls_failed (summarise l) =? 0) = true → Forall (λ o, o_ok o = true) l.
Proof.
  rw Nat.eqb_eq failed_count. intros Hf%nil_length_inv. apply Forall_forall. intros o Ho. destruct (o_ok o) eqn:Hk; [done|].
  exfalso. eapply (filter_nil_not_elem_of (λ o, o_ok o = false)); [exact Hf|..]; done.
Qed.

Lemma phase_stats_spec {B} k b n m Q (f : LoadStats → M (Bench W) B) : st k b → k_run k = false →
  wp (f (summarise (take (m - n) (drop n (k_outs k))))) Q (λ _, safe) b → wp (bind (_phase_stats n m) f) Q (λ _, safe) b.
Proof.
  intros Hk Hr Hf. apply wp_bind, wp_gets. pose proof (st_outs k b Hk) as Ho. rw Hr in Ho. rw -Ho in Hf.
  revert Hf. rw /outcomes /slice_outcomes. destruct (driver b); cbn; [done|]. by rw drop_nil take_nil.
Qed.

Lemma served_from (o0 o1 o : list RequestOutcome) : o0 `prefix_of` o1 → Forall (λ o, o_ok o = true) (drop (length o0) o) →
  served [length o1] o.
Proof.
  intros H1%prefix_length Ho. split; [done|]. intros n Hn%list_elem_of_singleton. subst n.
  replace (length o1) with (length o0 + (length o1 - length o0)) by lia. rw -drop_drop. by apply Forall_drop.
Qed.

Lemma slice_all {A} (P : A → Prop) n l : Forall P (take (length l - n) (drop n l)) → Forall P (drop n l).
Proof. by rw take_ge; [|rw length_drop]. Qed.

Lemma slices_all {A} (P : A → Prop) n m l : n ≤ m → m ≤ length l → Forall P (take (m - n) (drop n l)) →
  Forall P (take (length l - m) (drop m l)) → Forall P (drop n l).
Proof.
  intros Hn Hm H1 H2%slice_all. rw -(take_drop (m - n) (drop n l)). apply Forall_app. split; [done|].
  rw drop_drop. by replace (n + (m - n)) with m by lia.
Qed.

(** ** The bodies *)

Lemma later_settle d : within later (_settle d).
Proof. apply later_sleep. Qed.
#[local] Hint Resolve later_settle : within.

Lemma later_wait_evicted timeout poll : within later (cluster_wait_until evicted_ timeout poll).
Proof. apply later_wait_until, later_evicted. Qed.
#[local] Hint Resolve later_wait_evicted : within.

(** Steps over an operation that only waits and observes. *)
Ltac quiet H := eapply st_bind; [apply carries_later; solve_within|exact H|]; clear H.

Lemma cluster_start_bind {B} t k b Q (f : unit → M (Bench W) B) : st k b → k_router k = None →
  (∀ r b', st (with_router r k) b' → wp (f tt) Q (λ _, safe) b') → wp (bind (cluster_start t) f) Q (λ _, safe) b.
Proof.
  intros Hk Hn Hf. apply wp_bind. eapply wp_mono; [by apply cluster_start_spec|..]; [|done]. intros [] b' [r Hr]. by eapply Hf.
Qed.

Lemma replica_fault {B} (fault : option nat → M (Bench W) unit) i k b Q (f : M (Bench W) B) : st k b →
  (∀ p, within later (fault p)) →
  (∀ o b', k_outs k `prefix_of` o → st (with_fault o k) b' → wp f Q (λ _, safe) b') →
  wp (do* (let* p := replica_proc i in do* modify add_fault in fault p) in f) Q (λ _, safe) b.
Proof.
  intros Hk Hp Hf. apply wp_bind, wp_bind, wp_bind, wp_gets.
  destruct (_ !! i) as [p|]; [apply wp_ret|by apply wp_raise; exists k].
  eapply fault_spec; [exact Hk|]. intros o b' Ho Hk'. eapply wp_mono; [apply Hp|..]; intros x b2 Hl.
  - destruct x. apply (Hf o); [done|]. by apply (st_later _ b').
  - eexists. by apply (st_later _ b').
Qed.

Lemma sigkill_fault {B} i k b Q (f : M (Bench W) B) : st k b →
  (∀ o b', k_outs k `prefix_of` o → st (with_fault o k) b' → wp f Q (λ _, safe) b') →
  wp (do* cluster_sigkill i in f) Q (λ _, safe) b.
Proof. intros Hk. apply (replica_fault (λ p, _)); [done|]. intros p. solve_within. Qed.

Lemma sigterm_fault {B} i k b Q (f : M (Bench W) B) : st k b →
  (∀ o b', k_outs k `prefix_of` o → st (with_fault o k) b' → wp f Q (λ _, safe) b') →
  wp (do* cluster_sigterm i in f) Q (λ _, safe) b.
Proof. intros Hk. apply (replica_fault terminate_if_running); [done|]. intros p. rw /terminate_if_running. solve_within. Qed.

Lemma proxy_fault {B} m d k b Q (f : M (Bench W) B) : st k b →
  (∀ o b', k_outs k `prefix_of` o → st (with_fault o k) b' → wp f Q (λ _, safe) b') →
  wp (do* proxy_set_mode m d in f) Q (λ _, safe) b.
Proof.
  intros Hk Hf. apply wp_bind. eapply fault_spec; [exact Hk|]. intros o b' Ho Hk'. apply wp_modify. apply (Hf o); [done|].
  destruct Hk' as [H1 H2 H3 H4 H5 H6 H7 H8 H9 H10 H11]. split; try done. cbn. by intros ->%H11.
Qed.

Definition entry : key := mkKey [] [] false None None true.

(** The clients are started and run for a while. *)
Lemma load_phase hold k b Q (f : nat → M (Bench W) ScenarioResult) : st k b → k_driver k = true →
  (∀ o b', st (with_outs o true k) b' → wp (f (length o)) Q (λ _, safe) b') →
  wp (do* driver_start in do* _settle hold in let* n := driver_mark in f n) Q (λ _, safe) b.
Proof.
  intros Hk Hd Hf. eapply driver_start_spec; [exact Hk|done|]. clear b Hk. intros b Hk. quiet Hk. intros _ b' Hk.
  eapply driver_mark_spec; [exact Hk|]. intros o b2 _ _ Ho. by apply Hf.
Qed.

Lemma stop_and_mark k b Q (f : nat → M (Bench W) ScenarioResult) : st k b →
  (∀ o b', k_outs k `prefix_of` o → st (with_outs o false k) b' → wp (f (length o)) Q (λ _, safe) b') →
  wp (do* driver_stop in let* n := driver_mark in f n) Q (λ _, safe) b.
Proof.
  intros Hk Hf. eapply driver_stop_spec; [exact Hk|]. intros o b1 Ho Hk1. eapply driver_mark_spec; [exact Hk1|].
  intros o' b2 _ Heq Hk2. rw (Heq eq_refl) in Hk2 |- *. by apply Hf.
Qed.

Lemma sigkill_body_ok hold b : st entry b → wp (sigkill_body hold) good (λ _, safe) b.
Proof.
  intros Hk. rw /sigkill_body. eapply cluster_start_bind; [exact Hk|done|]. clear b Hk. intros r b Hk.
  eapply load_phase; [exact Hk|done|]. clear b Hk. intros o0 b Hk.
  eapply sigkill_fault; [exact Hk|]. clear b Hk. intros o1 b H01 Hk.
  quiet Hk. clear b. intros t0 b Hk. quiet Hk. clear b. intros _ b Hk.
  eapply driver_mark_spec; [exact Hk|]. clear b Hk. intros o2 b H12 _ Hk.
  quiet Hk. clear b. intros evicted b Hk. quiet Hk. clear b. intros t1 b Hk. quiet Hk. clear b. intros _ b Hk.
  eapply stop_and_mark; [exact Hk|]. clear b Hk. intros o3 b H23 Hk.
  do 3 (eapply phase_stats_spec; [exact Hk|done|]). apply wp_ret. eexists. split; [exact Hk|]. cbn in *.
  rw /sigkill_verdict !andb_true_iff. intros [[[_ H1%none_failed] H2%none_failed] _]. split; [done|].
  eapply served_from; [exact H01|]. apply prefix_length in H12 as Hl12, H23 as Hl23, H01 as Hl01. eapply slices_all; [..|exact H1|exact H2]; lia.
Qed.

Lemma sigterm_body_ok hold b : st entry b → wp (sigterm_body hold) good (λ _, safe) b.
Proof.
  intros Hk. rw /sigterm_body. eapply cluster_start_bind; [exact Hk|done|]. clear b Hk. intros r b Hk.
  eapply load_phase; [exact Hk|done|]. clear b Hk. intros o0 b Hk.
  eapply sigterm_fault; [exact Hk|]. clear b Hk. intros o1 b H01 Hk.
  quiet Hk. clear b. intros t0 b Hk. quiet Hk. clear b. intros removed b Hk. quiet Hk. clear b. intros t1 b Hk.
  quiet Hk. clear b. intros _ b Hk. eapply stop_and_mark; [exact Hk|]. clear b Hk. intros o2 b H12 Hk.
  do 2 (eapply phase_stats_spec; [exact Hk|done|]). apply wp_ret. eexists. split; [exact Hk|]. cbn in *.
  rw /sigterm_verdict !andb_true_iff. intros [[_ H1%none_failed] _]. split; [done|].
  eapply served_from; [exact H01|]. by apply slice_all.
Qed.

Lemma child_popen {B} p k b Q (f : M (Bench W) B) : spawns = true → st k b → k_child k = None →
  (∀ pid b', st (with_child (Some pid) k) b' → wp f Q (λ _, safe) b') →
  wp (let* pid := on_world (m_popen p) in do* modify (set_child (Some pid)) in f) Q (λ _, safe) b.
Proof.
  intros Hsp Hk Hn Hf. eapply wp_popen; [exact Hk|]. intros pid w Ha. apply wp_bind, wp_modify. apply (Hf pid). by apply st_child_set.
Qed.

Lemma safe_result r b : safe b → r_passed r = false → good r b.
Proof. intros [k Hk] Hr. exists k. split; [done|]. by rw Hr. Qed.

Lemma partition_body_ok hold b : spawns = true → st entry b → wp (partition_body hold) good (λ _, safe) b.
Proof.
  intros Hsp Hk. rw /partition_body. eapply cluster_start_bind; [exact Hk|done|]. clear b Hk. intros r b Hk.
  quiet Hk. clear b. intros _ b Hk. eapply child_popen; [exact Hsp|exact Hk|done|]. clear b Hk. intros pid b Hk.
  quiet Hk. clear b. intros ready b Hk. destruct (negb ready); [apply wp_ret, safe_result; [by eexists|done]|].
  eapply load_phase; [exact Hk|done|]. clear b Hk. intros o0 b Hk.
  eapply proxy_fault; [exact Hk|]. clear b Hk. intros o1 b H01 Hk.
  quiet Hk. clear b. intros t0 b Hk. quiet Hk. clear b. intros evicted b Hk. quiet Hk. clear b. intros t1 b Hk.
  quiet Hk. clear b. intros _ b Hk. eapply stop_and_mark; [exact Hk|]. clear b Hk. intros o2 b H12 Hk.
  eapply phase_stats_spec; [exact Hk|done|]. quiet Hk. clear b. intros listed b Hk. apply wp_ret. eexists. split; [exact Hk|]. cbn in *.
  rw /partition_verdict !andb_true_iff. intros [_ H1%none_failed]. split; [done|].
  eapply served_from; [exact H01|]. by apply slice_all.
Qed.

Lemma slow_body_ok hold delay b : spawns = true → st entry b → wp (slow_body hold delay) good (λ _, safe) b.
Proof.
  intros Hsp Hk. rw /slow_body. eapply cluster_start_bind; [exact Hk|done|]. clear b Hk. intros r b Hk.
  quiet Hk. clear b. intros _ b Hk. eapply child_popen; [exact Hsp|exact Hk|done|]. clear b Hk. intros pid b Hk.
  quiet Hk. clear b. intros ready b Hk. destruct (negb ready); [apply wp_ret, safe_result; [by eexists|done]|].
  eapply load_phase; [exact Hk|done|]. clear b Hk. intros o0 b Hk. quiet Hk. clear b. intros share b Hk.
  eapply proxy_fault; [exact Hk|]. clear b Hk. intros o1 b H01 Hk.
  quiet Hk. clear b. intros _ b Hk. quiet Hk. clear b. intros share' b Hk.
  eapply stop_and_mark; [exact Hk|]. clear b Hk. intros o2 b H12 Hk.
  eapply phase_stats_spec; [exact Hk|done|]. quiet Hk. clear b. intros still b Hk. apply wp_ret. eexists. split; [exact Hk|]. cbn in *.
  rw /slow_verdict !andb_true_iff. intros [H1%none_failed _]. split; [done|].
  eapply served_from; [exact H01|]. by apply slice_all.
Qed.

Lemma redis_body_ok hold b : cont = Some "nanoserve-redis"%string → st entry b → wp (redis_body hold) good (λ _, safe) b.
Proof.
  intros Hc Hk. rw /redis_body. eapply cluster_start_bind; [exact Hk|done|]. clear b Hk. intros r b Hk.
  eapply load_phase; [exact Hk|done|]. clear b Hk. intros o0 b Hk.
  eapply docker_stop_spec; [exact Hc|exact Hk|]. clear b Hk. intros o1 b H01 Hk.
  quiet Hk. clear b. intros open b Hk. destruct open; [apply wp_ret, safe_result; [by eexists|done]|].
  quiet Hk. clear b. intros _ b Hk. eapply stop_and_mark; [exact Hk|]. clear b Hk. intros o2 b H12 Hk.
  eapply phase_stats_spec; [exact Hk|done|]. quiet Hk. clear b. intros s b Hk. quiet Hk. clear b. intros dg b Hk.
  quiet Hk. clear b. intros th b Hk. apply wp_ret. eexists. split; [exact Hk|]. cbn in *.
  rw /redis_verdict !andb_true_iff. intros [H1%none_failed _]. split; [done|].
  eapply served_from; [exact H01|]. by apply slice_all.
Qed.

Lemma etcd_body_ok hold b : cont = Some "nanoserve-etcd"%string → st entry b → wp (etcd_body hold) good (λ _, safe) b.
Proof.
  intros Hc Hk. rw /etcd_body. eapply cluster_start_bind; [exact Hk|done|]. clear b Hk. intros r b Hk.
  eapply load_phase; [exact Hk|done|]. clear b Hk. intros o0 b Hk.
  eapply docker_stop_spec; [exact Hc|exact Hk|]. clear b Hk. intros o1 b H01 Hk.
  quiet Hk. clear b. intros _ b Hk. eapply driver_mark_spec; [exact Hk|]. clear b Hk. intros o2 b H12 _ Hk.
  eapply docker_start_spec; [exact Hc|exact Hk|]. clear b Hk. intros b Hk. quiet Hk. clear b. intros _ b Hk.
  eapply stop_and_mark; [exact Hk|]. clear b Hk. intros o3 b H23 Hk.
  do 2 (eapply phase_stats_spec; [exact Hk|done|]). apply wp_ret. eexists. split; [exact Hk|]. cbn in *.
  rw /etcd_verdict !andb_true_iff. intros [[[H1%none_failed _] H2%none_failed] _]. split; [done|].
  eapply served_from; [exact H01|]. apply prefix_length in H12 as Hl12, H23 as Hl23, H01 as Hl01. eapply slices_all; [..|exact H1|exact H2]; lia.
Qed.

(** A fresh driver replaces one whose clients have stopped, if any. *)
Definition with_driver (fs : list nat) (k : key) : key := mkKey fs [] false (k_router k) (k_child k) true.

Lemma st_fresh_driver k b c m : st k b → st (with_driver (k_faults k) k) (set_driver (Some (new_driver c m)) b).
Proof. intros []. by split. Qed.

Lemma st_fresh_fault k b c m : st k b →
  st (with_driver (k_faults k ++ [0]) k) (add_fault (set_driver (Some (new_driver c m)) b)).
Proof. intros [H1 H2 H3 H4 H5 H6 H7 H8 H9 H10 H11]. split; try done. cbn. by rw H4. Qed.

Lemma spike_body_ok exe n m hold b : spawns = true → st (mkKey [] [] false None None false) b → wp (spike_body exe n m hold) good (λ _, safe) b.
Proof.
  intros Hsp Hk. rw /spike_body. eapply cluster_start_bind; [exact Hk|done|]. clear b Hk. intros r b Hk.
  eapply child_popen; [exact Hsp|exact Hk|done|]. clear b Hk. intros pid b Hk. apply wp_bind, wp_modify.
  apply (st_fresh_driver _ _ n 64) in Hk. revert Hk. generalize (set_driver (Some (new_driver n 64)) b). clear b. intros b Hk.
  eapply driver_start_spec; [exact Hk|done|]. clear b Hk. intros b Hk. quiet Hk. clear b. intros _ b Hk.
  quiet Hk. clear b. intros baseline b Hk. eapply driver_stop_spec; [exact Hk|]. clear b Hk. intros o b _ Hk. apply wp_bind, wp_modify.
  apply (st_fresh_fault _ _ (n * m) 64) in Hk. revert Hk.
  change ((add_fault ∘ set_driver (Some (new_driver (n * m) 64))) b) with (add_fault (set_driver (Some (new_driver (n * m) 64)) b)).
  generalize (add_fault (set_driver (Some (new_driver (n * m) 64)) b)). clear b. intros b Hk.
  eapply driver_start_spec; [exact Hk|done|]. clear b Hk. intros b Hk. quiet Hk. clear b. intros t b Hk.
  quiet Hk. clear b. intros [peak samples] b Hk. cbv beta iota. eapply driver_stop_spec; [exact Hk|]. clear b Hk. intros o1 b _ Hk.
  apply wp_bind, wp_gets, wp_ret. pose proof (st_outs _ _ Hk) as Ho. cbn in Ho. eexists. split; [exact Hk|]. cbn.
  rw /compose Ho /spike_verdict !andb_true_iff. intros [_ H1%none_failed]. split; [done|]. split; [done|].
  by intros n0 ->%list_elem_of_singleton.
Qed.

(** ** The [finally] blocks *)

(** Nothing of the scenario is left: its processes are gone or killed, its clients and its
    proxy told to stop, its logs closed, and the container it stopped running again unless
    the last command, to start it, failed. *)
Definition tidy b : Prop :=
  alive (world b) ⊆ base ∧ from_option d_running false (driver b) = false ∧
  from_option FaultProxy.stopping true (proxy b) = true ∧ c_log_handles (cluster b) = [] ∧ settled (dockers b).

Definition finished (k : key) b : Prop :=
  tidy b ∧ faults b = k_faults k ∧ (k_run k = false → outcomes b = k_outs k).

Lemma cluster_close k b : st k b → (∀ pid, child b = Some pid → pid ∉ alive (world b)) →
  wp cluster_stop (λ _ b', st k b' ∧ alive (world b') ⊆ base ∧ c_log_handles (cluster b') = [] ∧
    same_stop (proxy b) (proxy b') ∧ stopped b' = stopped b) never b.
Proof.
  intros Hk Hch. eapply wp_mono; [apply cluster_stop_spec| |done]. intros _ b' (b1 & Hl & -> & Hd).
  pose proof (st_later k b b1 Hl Hk) as Hk1. destruct Hl as [Lc Lch Ls Ld Lf [La Ln] Lg Lp].
  split_and!; [by apply st_handles| |done..|exact Lp|exact Ls].
  cbn in Hd |- *. pose proof (st_alive k b1 Hk1) as Ha. intros pid Hp. assert (pid ∈ alive (world b)) as Hp0 by set_solver.
  apply Ha in Hp as Hp1. apply elem_of_union in Hp1 as [|Hp1]; [done|]. exfalso. rw /pids Lc Lch in Hp1.
  apply elem_of_union in Hp1 as [Hc|Hc]; [by apply (Hd pid)|]. apply elem_of_option_to_set in Hc. by apply (Hch pid).
Qed.

Lemma finish_plain_ok k b : st k b → cont = None → spawns = false → proxied = false → wp finish_plain (λ _, finished k) never b.
Proof.
  intros Hk Hc Hs Hp. apply wp_bind. eapply wp_mono; [by apply driver_stop_wp| |done]. intros _ b1 (o & _ & Ho & Hk1). cbv beta.
  eapply wp_mono; [apply (cluster_close _ _ Hk1)| |done].
  { intros pid. by rw (st_spawns _ _ Hk1 Hs). }
  intros _ b2 (Hk2 & Ha & Hh & _ & _). destruct Hk2 as [H1 H2 H3 H4 H5 H6 H7 H8 H9 H10 H11]. rw /finished /tidy. split_and!; try done.
  - by rw (H11 Hp).
  - destruct H2 as [[_ [? ?]]|]; [congruence|by apply up_settled].
  - intros Hr. rw -(Ho Hr). exact H6.
Qed.

Lemma proxy_stop_st k b : st k b →
  wp proxy_stop (λ _ b', st k b' ∧ from_option FaultProxy.stopping true (proxy b') = true) never b.
Proof.
  intros [H1 H2 H3 H4 H5 H6 H7 H8 H9 H10 H11]. apply wp_modify. split; [split; try done; cbn; by intros ->%H11|].
  cbn. by destruct (proxy b).
Qed.

Lemma finish_child_ok t k b : st k b → cont = None → wp (finish_child t) (λ _, finished k) never b.
Proof.
  intros Hk Hc. apply wp_bind. eapply wp_mono; [by apply driver_stop_wp| |done]. intros _ b1 (o & _ & Ho & Hk1). cbv beta.
  apply wp_bind. eapply wp_mono; [by apply proxy_stop_st| |done]. intros _ b2 [Hk2 Hp2]. cbv beta. apply wp_bind, wp_gets.
  apply wp_bind. eapply wp_mono; [apply stop_process_spec| |done]. intros _ b3 [Hl Hd]. cbv beta.
  pose proof (st_later _ _ _ Hl Hk2) as Hk3. eapply wp_mono; [apply (cluster_close _ _ Hk3)| |done].
  { intros pid Hpid. apply Hd. by rw -(l_child _ _ Hl). }
  intros _ b4 (Hk4 & Ha & Hh & Hp & _). destruct Hk4 as [H1 H2 H3 H4 H5 H6 H7 H8 H9 H10 H11]. rw /finished /tidy. split_and!; try done.
  - pose proof (l_proxy _ _ Hl) as Hp3. rw /same_stop in Hp Hp3. rw Hp3 in Hp. destruct (proxy b4), (proxy b2); simplify_eq/=; try done. congruence.
  - destruct H2 as [[_ [? ?]]|]; [congruence|by apply up_settled].
  - intros Hr. rw -(Ho Hr). exact H6.
Qed.

Lemma finished_later k b b' : finished k b → later b b' → finished k b'.
Proof.
  intros ((T1 & T2 & T3 & T4 & T5) & F1 & F2) [Lc Lch Ls Ld Lf [La Ln] Lg Lp]. destruct (grows_outs b b' Lg) as (G1 & G2 & G3).
  rw /finished /tidy Lc Ld Lf G1. split_and!; try done; [set_solver| |].
  - rw /same_stop in Lp. destruct (proxy b), (proxy b'); simplify_eq/=; try done. congruence.
  - intros Hr. rw G3 //. by apply F2.
Qed.

Lemma finish_docker_ok c pause k b : st k b → cont = Some c → spawns = false → proxied = false →
  wp (finish_docker c pause) (λ _, finished k) (λ _, finished k) b.
Proof.
  intros Hk Hc Hs Hp. apply wp_bind. eapply wp_mono; [by apply driver_stop_wp| |by intros ? ? []].
  intros _ b1 (o & _ & Ho & Hk1). cbv beta. apply wp_bind. eapply wp_mono; [apply (cluster_close _ _ Hk1)| |by intros ? ? []].
  { intros pid. by rw (st_spawns _ _ Hk1 Hs). }
  intros _ b2 (Hk2 & Ha & Hh & _ & _). cbv beta. apply wp_bind, wp_gets.
  destruct Hk2 as [H1 H2 H3 H4 H5 H6 H7 H8 H9 H10 H11].
  assert (∀ b', settled (dockers b') → alive (world b') ⊆ alive (world b2) → driver b' = driver b2 → proxy b' = proxy b2 →
    cluster b' = cluster b2 → faults b' = faults b2 → finished k b') as Hfin.
  { intros b' E1 E2 E3 E4 E5 E6. rw /finished /tidy E3 E4 E5 E6 (H11 Hp) /outcomes E3. split_and!; try done; [set_solver|].
    intros Hr. rw -(Ho Hr). exact H6. }
  destruct (stopped b2) eqn:Hst.
  - apply wp_bind. rw /docker. rw bool_decide_false //. apply wp_bind, wp_ret. apply wp_bind.
    assert (∀ ok b3, later b2 b3 → finished k (add_docker (["start"%string; c], ok) b3)) as Hadd.
    { intros ok b3 Hl. eapply (finished_later k (add_docker (["start"%string; c], ok) b2)).
      - apply Hfin; try done. cbn. by apply started_settled.
      - destruct Hl as [Lc Lch Ls Ld Lf La Lg Lp]. split; try done. cbn. by rw Ld. }
    eapply wp_mono; [apply run_docker_spec|..].
    + intros ok b' (b3 & Hl & ->). cbv beta. cbn [andb]. apply wp_ret.
      eapply wp_mono; [apply later_sleep|..]; intros x b4 Hl4; (eapply finished_later; [by apply Hadd|exact Hl4]).
    + intros e b' (b3 & Hl & ->). by apply Hadd.
  - apply wp_ret, Hfin; try done. destruct H2 as [[]|]; [congruence|by apply up_settled].
Qed.
End scenario.
(** ** Waiting ends *)

(** Polling with this many rounds left stops because the predicate held or because the
    deadline has passed. *)
Lemma poll_until_decides pred deadline poll : within later pred → (0 < poll)%Qc → ∀ fuel b, 0 < fuel →
  (deadline <= now (world b) + qc_of_nat (fuel - 1) * poll)%Qc →
  wp (poll_until time sleep fuel pred deadline poll)
    (λ r b', r = Some true ∨ r = Some false ∧ (deadline <= now (world b'))%Qc) (λ _ _, True) b.
Proof.
  intros Hp Hpoll. induction fuel as [|fuel IH]; intros b Hf Hd; [lia|]. cbn [poll_until].
  apply wp_bind. eapply wp_mono; [apply (later_on_world m_time (λ t w, t = now w) never)|..].
  { eapply wp_mono; [apply time_law|naive_solver|by intros ? ? []]. }
  2: done.
  intros t b1 [Hl1 ->]. cbv beta. case_bool_decide as Ht; [|apply wp_ret; right; split; [done|by apply Qcnot_lt_le]].
  destruct (l_calm _ _ Hl1) as [_ Hn1]. apply wp_bind. eapply wp_mono; [apply Hp|..]; [|done]. intros yes b2 Hl2. cbv beta in Hl2.
  destruct yes; [apply wp_ret; by left|]. destruct (l_calm _ _ Hl2) as [_ Hn2].
  apply wp_bind. apply wp_bind. eapply wp_mono; [apply later_elapse| |by intros ? ? []]. intros u b3 Hl3. cbv beta in Hl3.
  destruct (l_calm _ _ Hl3) as [_ Hn3]. apply wp_zoom. eapply wp_mono; [apply sleep_law|..]; [|done]. intros _ w [_ Hn4].
  destruct fuel as [|fuel]. { exfalso. cbn in Hd. change (qc_of_nat 0) with 0%Qc in Hd. qc_lra. }
  apply IH; [lia|]. cbn [world set_world]. replace (S (S fuel) - 1) with (S (S fuel - 1)) in Hd by lia. rw qc_of_nat_S in Hd.
  qc_lra.
Qed.

(** The loop of [traffic_spike] ends because its deadline has passed. *)
Lemma sample_decides deadline fuel : ∀ peak samples b, 0 < fuel →
  (deadline <= now (world b) + qc_of_nat (fuel - 1) * q 2)%Qc →
  wp (sample_desired fuel deadline peak samples) (λ _ b', deadline <= now (world b'))%Qc (λ _ _, True) b.
Proof.
  induction fuel as [|fuel IH]; intros peak samples b Hf Hd; [lia|]. cbn [sample_desired].
  apply wp_bind. eapply wp_mono; [apply (later_on_world m_time (λ t w, t = now w) never)|..].
  { eapply wp_mono; [apply time_law|naive_solver|by intros ? ? []]. }
  2: done.
  intros t b1 [Hl1 ->]. cbv beta. case_bool_decide as Ht; [|apply wp_ret; by apply Qcnot_lt_le].
  destruct (l_calm _ _ Hl1) as [_ Hn1]. apply wp_bind. eapply wp_mono; [apply later_read_desired|..]; [|done]. intros d b2 Hl2. cbv beta in Hl2.
  destruct (match d with Some d => _ | None => _ end) as [peak' samples']. destruct (l_calm _ _ Hl2) as [_ Hn2].
  apply wp_bind. apply wp_bind. eapply wp_mono; [apply later_elapse| |by intros ? ? []]. intros u b3 Hl3. cbv beta in Hl3.
  destruct (l_calm _ _ Hl3) as [_ Hn3]. apply wp_zoom. eapply wp_mono; [apply sleep_law|..]; [|done]. intros _ w [_ Hn4].
  destruct fuel as [|fuel]. { exfalso. cbn in Hd. change (qc_of_nat 0) with 0%Qc in Hd. qc_lra. }
  apply IH; [lia|]. cbn [world set_world]. replace (S (S fuel) - 1) with (S (S fuel - 1)) in Hd by lia. rw qc_of_nat_S in Hd.
  qc_lra.
Qed.

Lemma rounds_enough (timeout poll : Qc) : (0 < poll)%Qc → (timeout <= qc_of_nat (rounds timeout poll - 1) * poll)%Qc.
Proof.
  intros Hp. apply qc_div_le_iff; [done|]. rw /rounds. set (x := (timeout / poll)%Qc). pose proof (Qle_ceiling (this x)) as Hx.
  assert (qc_of_Z (Qceiling (this x)) <= qc_of_nat (S (Z.to_nat (Qceiling (this x)))))%Qc as Hc by (apply qc_of_Z_le; lia).
  replace (2 + Z.to_nat (Qceiling (this x)) - 1) with (S (Z.to_nat (Qceiling (this x)))) by lia.
  eapply Qcle_trans; [|exact Hc]. unfold Qcle. rw /qc_of_Z this_Q2Qc. exact Hx.
Qed.

(** [wait_until] gives up only after its timeout, within the rounds it is given. *)
Theorem wait_until_decides pred timeout poll b : within later pred → (0 < poll)%Qc →
  wp (cluster_wait_until pred timeout poll)
    (λ yes b', yes = false → (now (world b) + timeout <= now (world b'))%Qc) (λ _ _, True) b.
Proof.
  intros Hp Hpoll. rw /cluster_wait_until /wait_until. apply wp_bind. apply wp_bind.
  eapply wp_mono; [apply (later_on_world m_time (λ t w, t = now w) never)|..].
  { eapply wp_mono; [apply time_law|naive_solver|by intros ? ? []]. }
  2: done.
  intros t b1 [Hl ->]. destruct (l_calm _ _ Hl) as [_ Hn]. cbv beta. pose proof (rounds_enough timeout poll Hpoll) as Hr.
  eapply wp_mono; [apply poll_until_decides; [done|done|rw /rounds; lia|]|..]; [| |done].
  - apply Qcplus_le_compat; [apply Qcle_refl|exact Hr].
  - intros r b2 [->|[-> Hd]]; apply wp_ret; [done|]. intros _. cbn. qc_lra.
Qed.

(** * The scenarios as a whole *)

(** Whatever happened, nothing is left behind; and a pass means that some fault was
    injected and every outcome recorded after it is of a request that was served. *)
Definition sound (w : W) (rb : result ScenarioResult * Bench W) : Prop :=
  tidy (alive w) rb.2 ∧
  ∀ r, rb.1 = Ok r → r_passed r = true → served (faults rb.2) (outcomes rb.2).

Lemma scenario_sound w cont spawns proxied body fin b :
  wp body (good (alive w) cont spawns proxied) (λ _, safe (alive w) cont spawns proxied) b →
  (∀ k b', st (alive w) cont spawns proxied k b' → wp fin (λ _, finished (alive w) k) (λ _, finished (alive w) k) b') →
  sound w (finally body fin b).
Proof.
  intros Hb Hf. rw /sound /finally. rw /wp in Hb. destruct (body b) as [[r|e] b1].
  - destruct Hb as (k & Hk & Hr). specialize (Hf k b1 Hk). rw /wp in Hf. destruct (fin b1) as [[u|e] b2]; destruct Hf as (Ht & Hfs & Ho).
    + split; [done|]. cbn. intros r' [= <-] Hp. destruct (Hr Hp) as [Hrun Hs]. by rw Hfs (Ho Hrun).
    + by split.
  - destruct Hb as [k Hk]. specialize (Hf k b1 Hk). rw /wp in Hf. destruct (fin b1) as [[u|e'] b2]; destruct Hf as (Ht & Hfs & Ho); by split.
Qed.

Lemma enter_st w replicas redis d cont spawns proxied px : (proxied = false → px = None) →
  from_option d_running false d = false → from_option d_outcomes [] d = [] →
  st (alive w) cont spawns proxied (mkKey [] [] false None None (bool_decide (is_Some d))) (enter w replicas redis d px).
Proof.
  intros Hp Hr Ho. split; try done; cbn.
  - apply union_subseteq_l.
  - by right.
  - intros Hd. by apply bool_decide_eq_true in Hd.
Qed.

Lemma wp_always {A} (m : M (Bench W) A) (P : Bench W → Prop) b : wp m (λ _, P) never b → wp m (λ _, P) (λ _, P) b.
Proof. intros Hm. eapply wp_mono; [exact Hm|done|by intros ? ? []]. Qed.

Lemma all_sound c hold delay n m run w :
  run ∈ [sigkill_replica c hold; sigterm_replica c hold; network_partition c hold; redis_down c hold; etcd_down c hold;
         traffic_spike n m hold; slow_replica c hold delay] →
  sound w (run w).
Proof.
  intros Hin. repeat (apply elem_of_cons in Hin as [->|Hin]); [..|by apply elem_of_nil in Hin].
  - eapply (scenario_sound w None false false); [apply sigkill_body_ok; by apply (enter_st _ _ _ (Some _))|].
    intros k b Hk. apply wp_always. by eapply finish_plain_ok.
  - eapply (scenario_sound w None false false); [apply sigterm_body_ok; by apply (enter_st _ _ _ (Some _))|].
    intros k b Hk. apply wp_always. by eapply finish_plain_ok.
  - eapply (scenario_sound w None true true); [apply partition_body_ok; [done|]; by apply (enter_st _ _ _ (Some _))|].
    intros k b Hk. apply wp_always. by eapply finish_child_ok.
  - eapply (scenario_sound w (Some _) false false); [apply redis_body_ok; [done|]; by apply (enter_st _ _ _ (Some _))|].
    intros k b Hk. by eapply finish_docker_ok.
  - eapply (scenario_sound w (Some _) false false); [apply etcd_body_ok; [done|]; by apply (enter_st _ _ _ (Some _))|].
    intros k b Hk. by eapply finish_docker_ok.
  - rw /traffic_spike. pose proof (later_find_bin "router/autoscaler" (enter w 2 "" None None)) as Hl. rw /wp in Hl.
    rw /bind. destruct (find_bin _ _) as [[[exe|]|e] b1].
    + eapply (scenario_sound w None true false).
      * apply spike_body_ok; [done|]. eapply st_later; [exact Hl|]. by apply (enter_st _ _ _ None).
      * intros k b Hk. apply wp_always. by eapply finish_child_ok.
    + destruct Hl as [Lc Lch Ls Ld Lf [La Ln] Lg Lp]. split; [|by intros r [= <-]]. cbn.
      rw /tidy Lc Ld. rw /same_stop in Lp. cbn in *. destruct (driver b1), (proxy b1); done.
    + destruct Hl as [Lc Lch Ls Ld Lf [La Ln] Lg Lp]. split; [|done]. cbn.
      rw /tidy Lc Ld. rw /same_stop in Lp. cbn in *. destruct (driver b1), (proxy b1); done.
  - eapply (scenario_sound w None true true); [apply slow_body_ok; [done|]; by apply (enter_st _ _ _ (Some _))|].
    intros k b Hk. apply wp_always. by eapply finish_child_ok.
Qed.
End laws.

(** ** The suite *)

Section suite.
Context {W : Type} `{!Machine W, !MachineView W, !MachineLaws W, !Parsing}.

(** What the suite writes: one result per name, in order, under that name; a pass is the
    pass of a sound run of that scenario. *)
Definition reported (name : string) (r : ScenarioResult) : Prop :=
  r_name r = name ∧ (r_passed r = true → ∃ run w x b, (name, run) ∈ ALL ∧ run w = (Ok x, b) ∧ r_passed x = true ∧ sound w (Ok x, b)).

(** ** Names *)

Definition named (name : string) {S} (m : M S ScenarioResult) : Prop := ∀ b, wp m (λ r _, r_name r = name) (λ _ _, True) b.

Lemma named_bind {S A} name (m : M S A) k : (∀ a, named name (k a)) → named name (bind m k).
Proof. intros Hk b. rw /wp /bind. destruct (m b) as [[a|e] b1]; [apply Hk|done]. Qed.

Lemma named_ret {S} name r : r_name r = name → named name (ret r : M S _).
Proof. by intros Hr b. Qed.

Lemma named_finally {S} name (m : M S ScenarioResult) f : named name m → named name (finally m f).
Proof. intros Hm b. specialize (Hm b). rw /wp /finally in Hm |- *. destruct (m b) as [[r|e] b1], (f b1) as [[u|e'] b2]; done. Qed.

Ltac solve_named := repeat (intros; match goal with
  | |- named _ (bind _ _) => apply named_bind
  | |- named _ (finally _ _) => apply named_finally
  | |- named _ (if ?b then _ else _) => destruct b
  | |- named _ (match ?x with _ => _ end) => destruct x
  | |- named _ (ret _) => by apply named_ret
  end).

Lemma all_named name (run : W → _) w : (name, run) ∈ ALL → match (run w).1 with Ok r => r_name r = name | Raise _ => True end.
Proof.
  intros Hin. assert (∀ (m : M (Bench W) ScenarioResult) b, named name m → match (m b).1 with Ok r => r_name r = name | Raise _ => True end) as Hn.
  { intros m b Hm. specialize (Hm b). rw /wp in Hm. by destruct (m b) as [[r|e] b1]. }
  repeat (apply elem_of_cons in Hin as [[= -> ->]|Hin]); [..|by apply elem_of_nil in Hin]; apply Hn.
  - rw /sigkill_body. solve_named.
  - rw /sigterm_body. solve_named.
  - rw /partition_body. solve_named.
  - rw /redis_body. solve_named.
  - rw /etcd_body. solve_named.
  - rw /spike_body. solve_named.
  - rw /slow_body. solve_named.
Qed.

Lemma dget_ALL name f : dget name (ALL (W := W)) = Some f → (name, f) ∈ ALL (W := W).
Proof. apply dget_Some_elem. Qed.

Lemma in_ALL name (f : W → result ScenarioResult * Bench W) w : (name, f) ∈ ALL → sound w (f w).
Proof.
  intros Hin. repeat (apply elem_of_cons in Hin as [[= -> ->]|Hin]); [..|by apply elem_of_nil in Hin].
  1-3: apply (all_sound 12 (q 12) (q 500) 4 5); set_solver.
  1-2: apply (all_sound 8 (q 10) (q 500) 4 5); set_solver.
  - apply (all_sound 12 (q 20) (q 500) 4 5). set_solver.
  - apply (all_sound 12 (q 15) (q 500) 4 5). set_solver.
Qed.

Lemma run_scenario_spec name w : name ∈ (ALL (W := W)).*1 →
  wp (catch_when is_exception (run_scenario name) (ret (crashed name))) (λ r _, reported name r) (λ e _, e = SystemExit) w.
Proof.
  intros Hin. apply wp_catch_when. rw /wp /run_scenario. destruct (dget name ALL) as [f|] eqn:Hf; [|by apply dget_None in Hf].
  apply dget_ALL in Hf. pose proof (all_named name f w Hf) as Hn. pose proof (in_ALL name f w Hf) as Hs.
  destruct (f w) as [[r|e] b] eqn:Hfw; cbn in Hn.
  - split; [done|]. intros Hp. by exists f, w, r, b.
  - destruct e; cbn; try done; apply wp_ret; (split; [done|]); done.
Qed.

Lemma forallb_Forall_eq {A} (f : A → bool) l : forallb f l = true ↔ Forall (λ x, f x = true) l.
Proof. induction l as [|x l IH]; cbn; [by split|]. by rw andb_true_iff IH Forall_cons. Qed.

Lemma run_scenarios_spec names : ∀ w, Forall (λ n, n ∈ (ALL (W := W)).*1) names →
  wp (run_scenarios names) (λ rs _, Forall2 reported names rs) (λ e _, e = SystemExit) w.
Proof.
  induction names as [|name names IH]; intros w; [intros _; by apply wp_ret|]. intros [Hn Hns]%Forall_cons. cbn [run_scenarios].
  apply wp_bind. eapply wp_mono; [apply time_law| |by intros ? ? []]. intros t w1 _. cbv beta.
  apply wp_bind. eapply wp_mono; [by apply run_scenario_spec| |done]. intros r w2 Hr. cbv beta.
  apply wp_bind. eapply wp_mono; [apply time_law| |by intros ? ? []]. intros t2 w3 _. cbv beta.
  apply wp_bind. eapply wp_mono; [by apply IH| |done]. intros rs w4 Hrs. apply wp_ret. constructor; [|done].
  exact Hr.
Qed.

End suite.

(** ** Oscillation *)

(** Each sample twice in a row. *)
Fixpoint stutter (l : list Z) : list Z := match l with [] => [] | a :: l => a :: a :: stutter l end.

(** A target that is read twice between changes never counts as a change of direction,
    however often it goes up and down. *)
Theorem flips_stutter l : flips (stutter l) = 0.
Proof.
  assert (∀ a b s, flips (a :: a :: b :: b :: s) = flips (b :: b :: s)) as Hf.
  { intros a b s. transitivity ((if ((a - a) * (b - a) <? 0)%Z then 1 else 0) +
      ((if ((b - a) * (b - b) <? 0)%Z then 1 else 0) + flips (b :: b :: s))); [done|]. by rw !Z.sub_diag Z.mul_0_l Z.mul_0_r. }
  induction l as [|a [|b l] IH]; [done..|]. rw -IH. apply Hf.
Qed.

(** Without plateaus every turn is counted. *)
Example flips_zigzag : flips [1; 6; 1; 6; 1]%Z = 3 ∧ flips (stutter [1; 6; 1; 6; 1]%Z) = 0.
Proof. by split. Qed.

(** ** A machine *)

(** A cluster that comes up; what its clients get while the main thread waits is [load], as
    long as there are any.  Once a process has been killed or terminated, the router counts
    two replicas, or does not answer if there is no load. *)
Module ToyMachine.
Record t := mk { clock : Qc; live : gset nat; next : nat; broken : bool; load : list (result RequestOutcome) }.

Definition pure {A} (a : A) : M t A := ret a.
#[global] Instance machine : Machine t := {
  m_time := gets clock;
  m_sleep d := if bool_decide (d < 0)%Qc then raise ValueError
               else modify (λ w, mk (clock w + d)%Qc (live w) (next w) (broken w) (load w));
  m_exists _ := pure true;
  m_popen _ := λ w, (Ok (next w), mk (clock w) ({[next w]} ∪ live w) (S (next w)) (broken w) (load w));
  m_poll pid := gets (λ w, bool_decide (pid ∈ live w));
  m_terminate pid := modify (λ w, mk (clock w) (live w) (next w) true (load w));
  m_kill pid := modify (λ w, mk (clock w) (live w ∖ {[pid]}) (next w) true (load w));
  m_wait pid _ := λ w, if bool_decide (pid ∈ live w) then (Raise TimeoutExpired, w) else (Ok tt, w);
  m_log _ := pure tt;
  m_stats := λ w, if broken w then (match load w with [] => Raise OSError | _ => Ok (JObj [("ready"%string, JNum 2)]) end, w)
             else (Ok (JObj [("ready"%string, JNum 3)]), w);
  m_docker _ := pure true;
  m_connect _ := raise OSError;
  m_bind _ := pure tt;
  m_range _ := raise OSError;
  m_lookup := pure [];
  m_elapse n _ w := ((if n =? 0 then [] else load w, []), w);
}.
#[global] Instance view : MachineView t := { alive := live; now := clock }.
#[global] Instance parsing : Parsing := { p_int _ := Raise ValueError; p_loads _ := Raise ValueError }.

#[global] Instance laws : MachineLaws t.
Proof.
  assert (∀ w : t, calm w w) as Hrefl by (intros w; split; [done|apply Qcle_refl]).
  split; intros; rw /wp /=; try done.
  - destruct (bool_decide (d < 0)%Qc) eqn:Hd; [apply bool_decide_eq_true in Hd; done|]. apply bool_decide_eq_false in Hd.
    cbn. rw /calm /=. split; [|apply Qcle_refl]. split; [done|]. qc_lra.
  - split; [done|]. intros Hr. by apply bool_decide_eq_false in Hr.
  - rw /calm /=. split; [split; [set_solver|apply Qcle_refl]|]. set_solver.
  - by case_bool_decide.
  - destruct (broken w); [by destruct (load w)|done].
Qed.

Definition start (load : list (result RequestOutcome)) : t := mk 0%Qc ∅ 0 false load.
Definition served_one : RequestOutcome := mkOutcome true 0%Qc (Some 0%Qc) (Some 1%Qc) 4 [] [] 200.
End ToyMachine.

(** The hard kill passes on that machine with no request served before, during or after it:
    an unreachable router counts as an eviction, and an unanswered request is not counted. *)
Example silent_cluster_passes :
  let (r, b) := sigkill_replica (W := ToyMachine.t) 12 (q 12) (ToyMachine.start []) in
  (match r with Ok r => Some (r_passed r, line r) | Raise _ => None end, outcomes b, faults b) =
  (Some (true, "[PASS] sigkill_replica: no client-visible drop; p99 recovers after eviction"%string), [], [0]).
Proof. vm_compute. reflexivity. Qed.

(** It passes as well when the stream of every client is cut short: each of them dies, and
    none leaves an outcome. *)
Example dying_clients_pass :
  let (r, b) := sigkill_replica (W := ToyMachine.t) 2 (q 12) (ToyMachine.start [Raise HTTPException]) in
  (match r with Ok r => Some (r_passed r) | Raise _ => None end, outcomes b, d_dead <$> driver b) = (Some true, [], Some 2).
Proof. vm_compute. reflexivity. Qed.

