(* ===== verification/Waste.v ===== *)
(** * What a cache wastes (scripts/measure_kv_waste.py)

    The replay of a workload's sequence lengths through the contiguous pool and through
    the block allocator, sampling each pool's accounting once per step, with the summaries
    and the analytic bound.  Both replays refine one abstract machine, a list of resident
    sequences that grow by a token per step; what the samples add up to follows from it. *)

From Stdlib Require Import ssreflect QArith Qcanon.
From stdpp Require Import prelude gmap gmultiset list.
From S2P Require Import Prelude Config BlockManager KvCache Batch Rationals.

(** [list.remove]: the first equal element; [ValueError] when there is none. *)
Fixpoint py_remove {A} `{!EqDecision A} (x : A) (l : list A) : option (list A) :=
  match l with
  | [] => None
  | y :: l => if decide (y = x) then Some l else cons y <$> py_remove x l
  end.

(** ** What the two replays share

    An entry [(o, target)] of [live] is the list [[cache, target]]: cache objects are
    compared by identity, so two entries are equal when they name the same object. *)

Section rounds.
Context {St A : Type}.
Implicit Types (live : list (nat * nat)).

(** Freeing the finished entries and removing them from [live]. *)
Fixpoint retire (free : nat → M St unit) (finished live : list (nat * nat)) : M St (list (nat * nat)) :=
  match finished with
  | [] => ret live
  | entry :: finished =>
      do* free entry.1 in
      match py_remove entry live with
      | None => raise ValueError
      | Some live => retire free finished live
      end
  end.

(** The outer loop, over a round that returns its sample and the queue and entries it
    leaves: [None] when it has not ended after [fuel] rounds. *)
Fixpoint rounds (round : list nat → list (nat * nat) → M St (A * (list nat * list (nat * nat))))
    (fuel : nat) (queue : list nat) live : M St (option (list A)) :=
  match queue, live with
  | [], [] => ret (Some [])
  | _, _ =>
      match fuel with
      | 0 => ret None
      | S fuel =>
          let* (sample, (queue, live)) := round queue live in
          let* samples := rounds round fuel queue live in
          ret (cons sample <$> samples)
      end
  end.
End rounds.

(** ** The contiguous replay *)

Section static_replay.
Context {T : Type} (zero : T).
Implicit Types (queue : list nat) (live : list (nat * nat)).

(** The admission loop: the queue and the entries it leaves. *)
Fixpoint admit_static (num_slots msl : nat) queue live : M (SPool T) (list nat * list (nat * nat)) :=
  match queue with
  | [] => ret ([], live)
  | n :: rest =>
      if length live <? num_slots then
        let target := n `min` msl in
        let* cache := StaticCachePool.allocate (Some target) in
        match cache with
        | None => ret (rest, live)
        | Some o => admit_static num_slots msl rest (live ++ [(o, target)])
        end
      else ret (queue, live)
  end.

(** One decode step of every entry: the finished ones, in order. *)
Fixpoint advance_static live : M (SPool T) (list (nat * nat)) :=
  match live with
  | [] => ret []
  | (o, target) :: live =>
      let* c := StaticKVCache.this o in
      do* StaticKVCache.set_this o (mkSCache (sc_slot c) ((sc_pos c + 1) `min` target) (sc_start c)) in
      let* c := StaticKVCache.this o in
      let* finished := advance_static live in
      ret (if target <=? sc_pos c then (o, target) :: finished else finished)
  end.

Definition sample_static (cfg : NanoConfig) (itemsize : Z) : M (SPool T) PoolStats := λ p,
  (static_stats cfg itemsize p, p).

Definition static_round (cfg : NanoConfig) (itemsize : Z) (num_slots msl : nat) queue live :
    M (SPool T) (PoolStats * (list nat * list (nat * nat))) :=
  let* (queue, live) := admit_static num_slots msl queue live in
  let* finished := advance_static live in
  let* sample := sample_static cfg itemsize in
  let* live := retire StaticCachePool.free finished live in
  ret (sample, (queue, live)).

Definition replay (fuel : nat) (cfg : NanoConfig) (itemsize : Z) (lengths : list nat) (num_slots msl : nat) :
    result (option (list PoolStats)) :=
  (rounds (static_round cfg itemsize num_slots msl) fuel lengths []
     (StaticCachePool.init zero cfg num_slots (Some msl))).1.
End static_replay.

(** ** The paged replay *)

Section paged_replay.
Context {T : Type} (zero : T).
Implicit Types (queue : list nat) (live : list (nat * nat)).

Definition num_free (s : BSt (T := T)) : nat := BlockAllocator.num_free (allocator s.1).

(** [pool.allocate()]: the new cache is the next object. *)
Definition new_cache : M (BSt (T := T)) (option nat) := λ s,
  match pool_allocate s.1 with
  | None => (Ok None, s)
  | Some c => (Ok (Some (length s.2)), (s.1, s.2 ++ [c]))
  end.

(** [cache.num_tokens] and its assignment. *)
Definition tokens_of (o : nat) : M (BSt (T := T)) nat := on_seq o (let* (_, c) := get in ret (num_tokens c)).
Definition set_tokens (o n : nat) : M (BSt (T := T)) unit := on_seq o (on_cache (modify (set_num_tokens n))).

Fixpoint admit_paged queue live : M (BSt (T := T)) (list nat * list (nat * nat)) :=
  match queue with
  | [] => ret ([], live)
  | target :: rest =>
      let* s := get in
      if 1 <? num_free s then
        let* cache := new_cache in
        match cache with
        | None => raise AttributeError
        | Some o =>
            do* on_seq o (PagedKVCache._ensure_capacity 1) in
            do* set_tokens o 1 in
            admit_paged rest (live ++ [(o, target)])
        end
      else ret (queue, live)
  end.

Fixpoint advance_paged live : M (BSt (T := T)) (list (nat * nat)) :=
  match live with
  | [] => ret []
  | (o, target) :: live =>
      let* n := tokens_of o in
      let* s := get in
      do* (if (n <? target) && (0 <? num_free s) then
             do* on_seq o (PagedKVCache._ensure_capacity 1) in
             let* n := tokens_of o in
             set_tokens o (n + 1)
           else ret tt) in
      let* n := tokens_of o in
      let* finished := advance_paged live in
      ret (if target <=? n then (o, target) :: finished else finished)
  end.

(** [sum(c.num_tokens for c, _ in live)]. *)
Fixpoint used_tokens live : M (BSt (T := T)) nat :=
  match live with
  | [] => ret 0
  | (o, _) :: live => let* n := tokens_of o in let* rest := used_tokens live in ret (n + rest)
  end.

Definition paged_round (cfg : NanoConfig) (itemsize : Z) queue live :
    M (BSt (T := T)) (BlockStats * (list nat * list (nat * nat))) :=
  let* (queue, live) := admit_paged queue live in
  let* finished := advance_paged live in
  let* used := used_tokens live in
  let* sample := gets (λ s, stats cfg itemsize (Z.of_nat used) s.1) in
  let* live := retire (λ o, on_seq o PagedKVCache.free) finished live in
  ret (sample, (queue, live)).

Definition replay_paged (fuel : nat) (cfg : NanoConfig) (itemsize : Z) (lengths : list nat)
    (num_blocks block_size : nat) : result (option (list BlockStats)) :=
  (rounds (paged_round cfg itemsize) fuel lengths []
     (PagedCachePool.init zero (Z.to_nat (Config.num_hidden_layers cfg)) num_blocks block_size, [])).1.
End paged_replay.

(** ** The summaries *)

Definition ratio_or_0 (a b : Z) : Qc := if (b =? 0)%Z then 0%Qc else (qc_of_Z a / qc_of_Z b)%Qc.
Definition bst_utilization (s : BlockStats) : Qc := ratio_or_0 (bst_tokens_used s) (bst_tokens_allocated s).
Definition bst_waste_fraction (s : BlockStats) : Qc := (1 - bst_utilization s)%Qc.
Definition bst_occupancy (s : BlockStats) : Qc := ratio_or_0 (bst_allocated s) (bst_total s).

(** [None] is the empty dictionary. *)
Record StaticSummary := mkStaticSummary {
  ss_steps : nat; ss_slots_allocated : Qc; ss_utilization : Qc; ss_occupancy : Qc; ss_waste_fraction : Qc;
  ss_tokens_used : Qc; ss_internal_frag : Qc; ss_reserved : Qc; ss_external_frag : Qc;
}.

Definition summarise (samples : list PoolStats) : option StaticSummary :=
  match samples with
  | [] => None
  | _ =>
      let mean f := qmean (f <$> samples) in
      let meanZ f := qmean ((λ s, qc_of_Z (f s)) <$> samples) in
      Some (mkStaticSummary (length samples) (meanZ ps_slots_allocated) (mean ps_utilization) (mean ps_occupancy)
              (mean ps_waste_fraction) (meanZ ps_tokens_used) (meanZ ps_internal_fragmentation)
              (meanZ ps_tokens_reserved) (meanZ ps_external_fragmentation))
  end.

(** The ratios of a sample are read from its dictionary, rounded to four digits. *)
Record PagedSummary := mkPagedSummary {
  pg_steps : nat; pg_sequences : Qc; pg_blocks_allocated : Qc; pg_tokens_used : Qc; pg_internal_frag : Qc;
  pg_external_frag : Qc; pg_utilization : Qc; pg_waste_fraction : Qc; pg_peak_occupancy : Qc;
}.

Definition summarise_paged (samples : list BlockStats) : option PagedSummary :=
  match samples with
  | [] => None
  | s :: rest =>
      let rounded f := (λ s, py_round (f s) 4) in
      let mean f := qmean (f <$> samples) in
      let meanZ f := qmean ((λ s, qc_of_Z (f s)) <$> samples) in
      Some (mkPagedSummary (length samples) 0%Qc (meanZ bst_allocated) (meanZ bst_tokens_used)
              (meanZ bst_internal_fragmentation) 0%Qc (mean (rounded bst_utilization))
              (mean (rounded bst_waste_fraction))
              (qmaximum (rounded bst_occupancy s) (rounded bst_occupancy <$> rest)))
  end.

Record PagedBound := mkPagedBound {
  pb_block_size : nat; pb_mean_waste : Qc; pb_max_waste : nat; pb_waste_fraction : Qc; pb_external : nat;
}.

(** [max] of an empty array raises.  When every length is zero the fraction is not a
    number; here it is 0. *)
Definition paged_bound (lengths : list nat) (block_size : nat) : result PagedBound :=
  let allocated := (λ n, ceil_div n block_size * block_size) <$> lengths in
  let waste := (λ n, ceil_div n block_size * block_size - n) <$> lengths in
  match lengths with
  | [] => Raise ValueError
  | _ => Ok (mkPagedBound block_size (qmean (qc_of_nat <$> waste)) (max_list waste)
               (qc_of_nat (sum_list waste) / qc_of_nat (sum_list allocated))%Qc 0)
  end.

(** ** The command (main) *)

Record Report := mkReport {
  rp_slots : Z; rp_static : StaticSummary; rp_paged : PagedSummary; rp_bound : PagedBound;
  rp_gain : Qc; rp_concurrency : Qc;
}.

(** Usable capacity gained, and resident tokens compared. *)
Definition gains (static : StaticSummary) (paged : PagedSummary) : result (Qc * Qc) :=
  if bool_decide ((1 - ss_waste_fraction static)%Qc = 0%Qc) then Raise ZeroDivisionError
  else Ok ((1 - pg_waste_fraction paged) / (1 - ss_waste_fraction static),
           pg_tokens_used paged / qc_max (ss_tokens_used static) 1)%Qc.

(** [reqs] are the prompt and output lengths of the workload.  The summaries of runs
    without samples are empty dictionaries. *)
Definition measure {T} (zero : T) (fuel : nat) (cfg : NanoConfig) (itemsize budget_mb : Z)
    (max_seq_len block_size : nat) (reqs : list (nat * nat)) : result (option Report) :=
  let lengths := (λ '(prompt_len, max_tokens), (prompt_len + max_tokens) `min` max_seq_len) <$> reqs in
  let budget := (budget_mb * 1024 * 1024)%Z in
  let slots := slots_for_budget cfg budget (Some max_seq_len) itemsize in
  match replay zero fuel cfg itemsize lengths (Z.to_nat slots) max_seq_len with
  | Raise e => Raise e
  | Ok None => Ok None
  | Ok (Some samples) =>
      let n_blocks := blocks_for_budget cfg budget (Z.of_nat block_size) itemsize in
      match replay_paged zero fuel cfg itemsize lengths (Z.to_nat n_blocks) block_size with
      | Raise e => Raise e
      | Ok None => Ok None
      | Ok (Some paged_samples) =>
          match paged_bound lengths block_size with
          | Raise e => Raise e
          | Ok bound =>
              match summarise samples, summarise_paged paged_samples with
              | Some static, Some paged =>
                  match gains static paged with
                  | Ok (gain, conc) => Ok (Some (mkReport slots static paged bound gain conc))
                  | Raise e => Raise e
                  end
              | _, _ => Raise KeyError
              end
          end
      end
  end.

(** * The abstract machine *)

(** A resident sequence is how many tokens it holds and how many it will; it grows until
    it holds them all, and then leaves. *)
Definition grow (e : nat * nat) : nat * nat := if e.1 <? e.2 then (S e.1, e.2) else e.
Definition growing (e : nat * nat) : Prop := e.1 < e.2.
#[export] Instance growing_dec e : Decision (growing e).
Proof. rw /growing. apply _. Defined.

(** Who is resident in a round that starts with [live] and room for [room]. *)
Definition resident (room start : nat) (queue : list nat) (live : list (nat * nat)) : list (nat * nat) :=
  grow <$> live ++ (pair start <$> take (room - length live) queue).

(** The residents of every round, until nobody is left. *)
Fixpoint history (fuel room start : nat) (queue : list nat) (live : list (nat * nat)) :
    option (list (list (nat * nat))) :=
  match queue, live with
  | [], [] => Some []
  | _, _ =>
      match fuel with
      | 0 => None
      | S fuel =>
          let now := resident room start queue live in
          cons now <$> history fuel room start (drop (room - length live) queue) (filter growing now)
      end
  end.

(** What a sequence of [n] tokens holds in the rounds it is resident. *)
Definition lifetime (start n : nat) : list (nat * nat) :=
  if start <? n then (λ p, (p, n)) <$> seq (S start) (n - start) else [(start, n)].

Section machine.
Implicit Types (e : nat * nat) (live : list (nat * nat)) (queue : list nat) (h : list (list (nat * nat))).

Lemma history_nil fuel room start : history fuel room start [] [] = Some [].
Proof. by destruct fuel. Qed.
Lemma history_S fuel room start queue live : queue ≠ [] ∨ live ≠ [] →
  history (S fuel) room start queue live
  = cons (resident room start queue live) <$>
      history fuel room start (drop (room - length live) queue) (filter growing (resident room start queue live)).
Proof. intros H. simpl. destruct queue, live; naive_solver. Qed.

(** A sequence's lifetime is its next state and, unless it leaves, the rest. *)
Lemma lifetime_step p n :
  lifetime p n = grow (p, n) :: (if bool_decide (growing (grow (p, n))) then lifetime (S p) n else []).
Proof.
  rw /lifetime /grow /growing /=. destruct (Nat.ltb_spec p n) as [Hlt|Hge]; simpl.
  - replace (n - p) with (S (n - S p)) by lia. simpl. f_equal. case_bool_decide as Hd.
    + by rw (proj2 (Nat.ltb_lt _ _)).
    + by replace (n - S p) with 0 by lia.
  - by rw bool_decide_eq_false_2 //; lia.
Qed.

Definition rest_of (live : list (nat * nat)) : list (nat * nat) := live ≫= λ e, lifetime e.1 e.2.

Lemma rest_of_step live :
  rest_of live ≡ₚ (grow <$> live) ++ rest_of (filter growing (grow <$> live)).
Proof.
  rw /rest_of. induction live as [|[p n] live IH]; [done|]. rw bind_cons IH fmap_cons filter_cons lifetime_step. simpl.
  apply perm_skip. rw /grow /=. destruct (Nat.ltb_spec p n) as [Hlt|Hge].
  - case_bool_decide; destruct (decide _); [|done..|by rw app_nil_l]. rw bind_cons /=. by rw Permutation_app_swap_app.
  - rw bool_decide_eq_false_2; [|rw /growing /=; lia]. by destruct (decide _) as [Hg|_]; [rw /growing /= in Hg; lia|].
Qed.

(** Admitting [k] sequences adds nothing to what is left. *)
Lemma rest_of_admit k start queue live :
  rest_of live ++ (queue ≫= lifetime start)
  = rest_of (live ++ (pair start <$> take k queue)) ++ (drop k queue ≫= lifetime start).
Proof.
  rw -{1}(take_drop k queue) bind_app assoc /rest_of bind_app. do 2 f_equal.
  induction (take k queue) as [|n l IHl]; [done|]. by rw fmap_cons !bind_cons IHl.
Qed.

(** Over a whole run every sequence is seen once in each state of its lifetime. *)
Lemma history_lifetimes fuel room start queue live h :
  history fuel room start queue live = Some h →
  mjoin h ≡ₚ rest_of live ++ (queue ≫= lifetime start).
Proof.
  revert queue live h. induction fuel as [|fuel IH]; intros queue live h.
  { destruct queue, live; simpl; [intros [= <-]|..]; done. }
  destruct (decide (queue = [] ∧ live = [])) as [[-> ->]|Hne]; [rw history_nil; by intros [= <-]|].
  rw history_S; [|destruct queue, live; naive_solver].
  intros (h' & Hh & ->)%fmap_Some. cbn [mjoin list_join]. apply IH in Hh. rw Hh.
  rw (rest_of_admit (room - length live) start queue live) (rest_of_step (_ ++ _)) /resident. by rw assoc.
Qed.

Lemma lifetime_nonempty p n : 1 ≤ length (lifetime p n).
Proof. rw lifetime_step /=. lia. Qed.

(** The rounds left are at most the states left, as somebody is resident in each. *)
Lemma history_ends fuel room start queue live :
  0 < room → length (rest_of live ++ (queue ≫= lifetime start)) ≤ fuel →
  is_Some (history fuel room start queue live).
Proof.
  intros Hr. revert queue live. induction fuel as [|fuel IH]; intros queue live Hf.
  - rw length_app in Hf. destruct live as [|[p n] live].
    + destruct queue as [|n queue]; [done|]. rw bind_cons length_app in Hf. pose proof (lifetime_nonempty start n). simpl in Hf; lia.
    + rw /rest_of bind_cons length_app in Hf. pose proof (lifetime_nonempty p n). simpl in Hf; lia.
  - destruct (decide (queue = [] ∧ live = [])) as [[-> ->]|Hne]; [by rw history_nil|].
    rw history_S; [|destruct queue, live; naive_solver]. apply fmap_is_Some, IH.
    rw (rest_of_admit (room - length live)) in Hf. set (k := room - length live) in *.
    rw length_app rest_of_step length_app in Hf. rw length_app /resident.
    assert (0 < length (grow <$> live ++ (pair start <$> take k queue))); [|rw -/k; lia].
    rw length_fmap length_app length_fmap length_take. subst k.
    destruct live; [|simpl; lia]. destruct queue; [naive_solver|simpl; lia].
Qed.

(** No room, no progress. *)
Lemma history_no_room fuel start queue : queue ≠ [] → history fuel 0 start queue [] = None.
Proof.
  intros Hq. induction fuel as [|fuel IH]; [by destruct queue|]. rw history_S; [|by left]. by rw /resident /= IH.
Qed.

Lemma history_forall (P : list (nat * nat) → Prop) fuel room start queue live h :
  length live ≤ room →
  (∀ queue live, length live ≤ room → (queue ≠ [] ∨ live ≠ []) → P (resident room start queue live)) →
  history fuel room start queue live = Some h → Forall P h.
Proof.
  intros Hl HP. revert queue live h Hl. induction fuel as [|fuel IH]; intros queue live h Hl.
  { destruct queue, live; simpl; [intros [= <-]|..]; done. }
  destruct (decide (queue = [] ∧ live = [])) as [[-> ->]|Hne]; [rw history_nil; by intros [= <-]|].
  assert (queue ≠ [] ∨ live ≠ []) as Hne' by (destruct queue, live; naive_solver).
  rw history_S //. intros (h' & Hh & ->)%fmap_Some. constructor; [by apply HP|]. eapply IH; [|done].
  etrans; [apply length_filter|]. rw /resident length_fmap length_app length_fmap length_take. lia.
Qed.
End machine.

Lemma py_remove_spec {A} `{!EqDecision A} (x : A) l :
  x ∈ l → ∃ l1 l2, l = l1 ++ x :: l2 ∧ py_remove x l = Some (l1 ++ l2).
Proof.
  induction l as [|y l IH]; intros Hx; [by apply not_elem_of_nil in Hx|]. simpl.
  destruct (decide (y = x)) as [->|Hne]; [by exists [], l|].
  apply elem_of_cons in Hx as [->|Hx]; [done|]. destruct (IH Hx) as (l1 & l2 & -> & ->). by exists (y :: l1), l2.
Qed.

Lemma filter_map_comm {A B} (P : B → Prop) `{!∀ x, Decision (P x)} (f : A → B) (l : list A) :
  filter P (f <$> l) = f <$> filter (λ x, P (f x)) l.
Proof. induction l as [|x l IH]; [done|]. rw fmap_cons !filter_cons IH. by destruct (decide (P (f x))). Qed.

Lemma filter_keep {A} (P : A → Prop) `{!∀ x, Decision (P x)} (x : A) l1 l2 :
  ¬ P x → filter P (l1 ++ x :: l2) = filter P (l1 ++ l2).
Proof. intros Hx. rw !filter_app filter_cons. by destruct (decide (P x)). Qed.

Lemma sum_list_with_perm {A} (f : A → nat) l1 l2 : l1 ≡ₚ l2 → sum_list_with f l1 = sum_list_with f l2.
Proof. induction 1; simpl; lia. Qed.

Lemma sum_list_with_ext {A} (f g : A → nat) l : (∀ x, x ∈ l → f x = g x) → sum_list_with f l = sum_list_with g l.
Proof. intros H. induction l as [|x l IH]; [done|]. simpl. rw (H x); [|by left]. rw IH //. intros y Hy. apply H. by right. Qed.

(** ** Programs that refine it *)

Section rounds_refine.
Context {St A : Type} (look : St → nat * nat → nat * nat).

Lemma retire_finished_spec (free : nat → M St unit) (R : St → list (nat * nat) → Prop) fin :
  (∀ s l1 e l2, R s (l1 ++ e :: l2) →
     e ∉ l1 ++ l2 ∧ wp (free e.1) (λ _ s', R s' (l1 ++ l2) ∧ ∀ e', e' ∈ l1 ++ l2 → look s' e' = look s e') never s) →
  ∀ s live, R s live → NoDup fin → (∀ e, e ∈ fin → e ∈ live) →
  wp (retire free fin live)
     (λ live' s', R s' live' ∧ live' = filter (λ e, e ∉ fin) live ∧ ∀ e, e ∈ live' → look s' e = look s e) never s.
Proof.
  intros Hfree. induction fin as [|e fin IH]; intros s live Hr Hnd Hin; simpl.
  { wp_step. split; [done|]. split; [|done]. symmetry. apply list_filter_id. intros x _. apply not_elem_of_nil. }
  apply NoDup_cons in Hnd as [He Hnd]. destruct (py_remove_spec e live) as (l1 & l2 & -> & ->); [apply Hin; by left|].
  destruct (Hfree _ _ _ _ Hr) as [He12 Hwp]. wp_step. eapply wp_mono; [exact Hwp| |done]. intros _ s1 (Hr1 & Hs1).
  eapply wp_mono; [apply (IH s1 (l1 ++ l2) Hr1 Hnd)| |done].
  { intros e' He'. assert (e' ∈ l1 ++ e :: l2) as H by (apply Hin; by right). rw -Permutation_middle in H.
    apply elem_of_cons in H as [->|H]; done. }
  intros live' s2 (Hr2 & -> & Hs2). split; [done|]. split.
  - rw filter_keep; [|intros H; apply H; by left]. apply list_filter_ext_in. intros x Hx. rw not_elem_of_cons.
    split; [|tauto]. intros H. split; [|done]. by intros ->.
  - intros x Hx. rw Hs2 //. apply Hs1. by apply list_elem_of_filter in Hx as [_ Hx].
Qed.

(** Entries that are freed as soon as they are done: those left are the growing ones. *)
Lemma retired_growing s s' (live now fin live' : list (nat * nat)) :
  look s <$> live = now → fin = filter (λ e, ¬ growing (look s e)) live →
  live' = filter (λ e, e ∉ fin) live → (∀ e, e ∈ live' → look s' e = look s e) →
  look s' <$> live' = filter growing now.
Proof.
  intros <- Hfin Hl Hs. rw filter_map_comm. transitivity (look s <$> live').
  { apply list_fmap_ext. intros i e He%list_elem_of_lookup_2. by apply Hs. }
  f_equal. rw Hl. apply list_filter_ext_in. intros e He. rw Hfin list_elem_of_filter /=.
  destruct (decide (growing (look s e))); naive_solver.
Qed.

Lemma rounds_refine (round : list nat → list (nat * nat) → M St (A * (list nat * list (nat * nat))))
    (R : St → list nat → list (nat * nat) → Prop) (sample : list (nat * nat) → A) (cut : nat → nat) room start fuel :
  (∀ queue s live, R s queue live →
     let now := resident room start (cut <$> queue) (look s <$> live) in
     wp (round queue live) (λ r s', R s' r.2.1 r.2.2 ∧ r.1 = sample now ∧
        r.2.1 = drop (room - length live) queue ∧ look s' <$> r.2.2 = filter growing now) never s) →
  ∀ queue s live, R s queue live →
  wp (rounds round fuel queue live)
     (λ samples _, samples = fmap (M := list) sample <$> history fuel room start (cut <$> queue) (look s <$> live)) never s.
Proof.
  intros Hround. induction fuel as [|fuel IH]; intros queue s live Hr.
  { destruct queue, live; simpl; by wp_step. }
  destruct (decide (queue = [] ∧ live = [])) as [[-> ->]|Hne]; [done|].
  assert (wp (let* (sample, (queue, live)) := round queue live in
    let* samples := rounds round fuel queue live in ret (cons sample <$> samples))
    (λ samples _, samples = fmap (M := list) sample <$> (cons (resident room start (cut <$> queue) (look s <$> live)) <$>
       history fuel room start (drop (room - length (look s <$> live)) (cut <$> queue))
         (filter growing (resident room start (cut <$> queue) (look s <$> live))))) never s) as H.
  { wp_step. eapply wp_mono; [apply (Hround queue s live Hr)| |done].
    intros [x [q l]] s1 (Hr1 & Hx & Hq & Hs). simpl in *. wp_step.
    eapply wp_mono; [apply (IH q s1 l Hr1)| |done]. intros samples s2 ->. wp_step.
    rw Hs Hq Hx -fmap_drop length_fmap. by destruct (history _ _ _ _ _). }
  rw history_S; [by destruct queue, live; try (exfalso; naive_solver)|].
  clear -Hne. destruct queue, live; simpl; first [by left|by right|by destruct Hne].
Qed.
End rounds_refine.

(** ** The contiguous pool refines it *)

Section static_refines.
Context {T : Type}.
Implicit Types (p : SPool T) (queue : list nat) (live : list (nat * nat)).

(** What an entry looks like from outside. *)
Definition sees p (e : nat * nat) : nat * nat := (StaticKVCache.len e.1 p, e.2).

(** What a slot of [m] tokens is reserved for when it is taken for [n]. *)
Definition reserve_len (m n : nat) : nat := StaticCachePool.or_default (Some n) m `min` m.
Definition expected_len p (n : nat) : nat := reserve_len (max_seq_len p) n.

(** An entry's object holds a slot registered to it. *)
Definition seated p (e : nat * nat) : Prop := ∃ c, sp_objs p !! e.1 = Some c ∧
  sp_live p !! sc_slot c = Some e.1 ∧ sp_expected p !! sc_slot c = Some (expected_len p e.2) ∧
  sc_pos c ≤ e.2 ≤ max_seq_len p.

Record static_rel (slots : nat) p live : Prop := {
  sr_books : books p;
  sr_slots : num_slots p = slots;
  sr_nodup : NoDup live.*1;
  sr_seated : Forall (seated p) live;
  sr_covered s o : sp_live p !! s = Some o → o ∈ live.*1;
}.

Lemma books_count p : books p → length (sp_free p) + size (sp_live p) = num_slots p.
Proof.
  intros Hb. rw -(size_list_to_set (C := gset nat) (sp_free p)); [|apply Hb]. rw -size_dom -size_union; last first.
  { intros s Hf%elem_of_list_to_set%(bk_free _ Hb) Hl%elem_of_dom. destruct Hf as [_ Hf]. rw Hf in Hl. by destruct Hl. }
  replace (list_to_set (sp_free p) ∪ dom (sp_live p)) with (set_seq 0 (num_slots p) : gset nat); [apply size_set_seq|].
  apply set_eq. intros s. rw elem_of_union elem_of_list_to_set (bk_free _ Hb) elem_of_dom elem_of_set_seq.
  destruct (sp_live p !! s) as [o|] eqn:Hs; [|naive_solver lia].
  destruct (bk_live _ Hb _ _ Hs) as [Hlt _]. split; [intros _; right; by eexists|lia].
Qed.

(** The pool's dictionary lists the entries. *)
Lemma live_entries slots p live : static_rel slots p live →
  ∃ slot : nat → nat, map_to_list (sp_live p) ≡ₚ (λ e, (slot e.1, e.1)) <$> live ∧
    Forall (λ e, sp_expected p !! slot e.1 = Some (expected_len p e.2)) live.
Proof.
  intros [Hb _ Hnd Hs Hc]. set (slot o := from_option sc_slot 0 (sp_objs p !! o)). exists slot. rw Forall_forall in Hs.
  split.
  - apply NoDup_Permutation; [apply NoDup_map_to_list| |].
    + apply (NoDup_fmap_1 snd). rw -list_fmap_compose. exact Hnd.
    + intros [s o]. rw elem_of_map_to_list list_elem_of_fmap. split.
      * intros Hl. destruct (bk_live _ Hb _ _ Hl) as (_ & c & Ho & <-).
        apply Hc, list_elem_of_fmap in Hl as (e & -> & He). exists e. by rw /slot Ho.
      * intros (e & [= -> ->] & He). destruct (Hs _ He) as (c & Ho & Hl & _). by rw /slot Ho.
  - apply Forall_forall. intros e He. destruct (Hs _ He) as (c & Ho & _ & Hx & _). by rw /slot Ho.
Qed.

Lemma live_size slots p live : static_rel slots p live → size (sp_live p) = length live.
Proof.
  intros H. destruct (live_entries _ _ _ H) as (slot & Hp & _).
  by rw -length_map_to_list Hp length_fmap.
Qed.

(** The sample of a round in which [now] are resident. *)
Definition static_sample (cfg : NanoConfig) (itemsize : Z) (slots msl : nat) (now : list (nat * nat)) : PoolStats :=
  mkPoolStats (Z.of_nat slots) (Z.of_nat (length now)) (Z.of_nat msl) (Z.of_nat (sum_list now.*1))
    (Z.of_nat (sum_list ((λ e, reserve_len msl e.2 - e.1) <$> now)))
    (bytes_per_token cfg itemsize).

Lemma static_sample_spec slots p live cfg itemsize : static_rel slots p live →
  static_stats cfg itemsize p = Ok (static_sample cfg itemsize slots (max_seq_len p) (sees p <$> live)).
Proof.
  intros H. destruct (live_entries _ _ _ H) as (slot & Hp & Hx). pose proof (live_size _ _ _ H) as Hn.
  rw /static_stats /live_reserved /static_sample.
  assert (forallb (λ '(slot, _), bool_decide (is_Some (sp_expected p !! slot))) (map_to_list (sp_live p)) = true) as ->.
  { apply List.forallb_forall. intros [s o] Hin%list_elem_of_In. apply bool_decide_eq_true.
    rw Hp in Hin. apply list_elem_of_fmap in Hin as (e & [= -> ->] & He). rw Forall_forall in Hx. by rw (Hx _ He). }
  do 2 f_equal; [by rw (sr_slots _ _ _ H)|by rw length_fmap Hn|..].
  - f_equal. rw /live_used (sum_list_with_perm _ _ _ Hp) /sees. clear. induction live as [|e live IH]; [done|].
    rw !fmap_cons /=. by rw -IH.
  - f_equal. rw (sum_list_with_perm _ _ _ Hp) /sees. clear -Hx. induction Hx as [|e live He _ IH]; [done|].
    rw !fmap_cons /= IH He //.
Qed.

Lemma wp_of_state {S A} (m : M S A) (P : S → Prop) Q E s : P (m s).2 → wp m Q E s → wp m (λ a s', Q a s' ∧ P s') E s.
Proof. rw /wp. by destruct (m s) as [[] s1]. Qed.

Lemma allocate_rel slots p live n : static_rel slots p live → length live < slots → n ≤ max_seq_len p →
  wp (StaticCachePool.allocate (Some n))
     (λ c p', ∃ o, c = Some o ∧ static_rel slots p' (live ++ [(o, n)]) ∧ max_seq_len p' = max_seq_len p ∧
        sees p' <$> live ++ [(o, n)] = (sees p <$> live) ++ [(0, n)]) never p.
Proof.
  intros Hr Hlt Hn. pose proof (live_size _ _ _ Hr) as Hsz. destruct Hr as [Hb Hns Hnd Hs Hc].
  pose proof (books_count _ Hb) as Hcount.
  eapply wp_mono; [apply (wp_of_state _ books); [by apply allocate_books|]| |done].
  2:{ intros c p' [H Hb']. cbn beta in H. exact (H Hb'). }
  rw /StaticCachePool.allocate. wp_step. wp_step. destruct (py_pop (sp_free p)) as [[slot rest]|] eqn:Hpop.
  2:{ apply py_pop_None in Hpop. rw Hpop /= in Hcount. lia. }
  apply py_pop_Some in Hpop. do 4 wp_step. intros Hb'. set (o := length (sp_objs p)) in *.
  assert (∀ e, e ∈ live → e.1 ≠ o ∧ (∃ c, sp_objs p !! e.1 = Some c ∧ sc_slot c ≠ slot)) as Hold.
  { intros e He. rw Forall_forall in Hs. destruct (Hs _ He) as (c & Ho & Hl & _). split; [apply lookup_lt_Some in Ho; lia|].
    exists c. split; [done|]. intros <-. assert (sc_slot c ∈ sp_free p) as Hf by (rw Hpop; apply elem_of_app; right; by left).
    apply (bk_free _ Hb) in Hf as [_ Hf]. congruence. }
  exists o. split; [done|]. split; [split|split]; try done.
  - rw fmap_app NoDup_app. split_and!; [done| |apply NoDup_singleton].
    intros i (e & -> & He)%list_elem_of_fmap Heq%list_elem_of_singleton. by apply (Hold e He).
  - apply Forall_app. split.
    + rw Forall_forall in Hs. apply Forall_forall. intros e He. destruct (Hs _ He) as (c & Ho & Hl & Hx & Hp).
      destruct (Hold _ He) as (_ & c' & Ho' & Hne). assert (c' = c) as -> by congruence.
      exists c. simpl. rw !lookup_insert_ne //. split_and!; try done; [by apply lookup_app_l_Some|lia..].
    + apply Forall_singleton. eexists. simpl. split; [by apply list_lookup_middle|].
      rw !lookup_insert_eq. split_and!; try done; simpl; lia.
  - intros s i. simpl. rw fmap_app elem_of_app. intros [[<- <-]|[Hne Hl]]%lookup_insert_Some; [right; by left|].
    left. by eapply Hc.
  - rw fmap_app. f_equal.
    + apply list_fmap_ext. intros i e He%list_elem_of_lookup_2. destruct (Hold _ He) as (_ & c & Ho & _).
      by rw /sees /StaticKVCache.len /= (lookup_app_l_Some _ _ _ _ Ho) Ho.
    + by rw /sees /StaticKVCache.len /= list_lookup_middle.
Qed.

Lemma admit_static_spec slots msl queue : ∀ p live, static_rel slots p live → msl ≤ max_seq_len p →
  wp (admit_static slots msl queue live)
     (λ ql p', static_rel slots p' ql.2 ∧ max_seq_len p' = max_seq_len p ∧
        ql.1 = drop (slots - length live) queue ∧
        sees p' <$> ql.2 = (sees p <$> live) ++ (pair 0 <$> take (slots - length live) ((λ n, n `min` msl) <$> queue)))
     never p.
Proof.
  induction queue as [|n queue IH]; intros p live Hr Hm; simpl.
  { wp_step. rw take_nil drop_nil app_nil_r. done. }
  destruct (Nat.ltb_spec (length live) slots) as [Hlt|Hge]; last first.
  { wp_step. replace (slots - length live) with 0 by lia. simpl. by rw app_nil_r. }
  wp_step. eapply wp_mono; [apply (allocate_rel _ _ _ _ Hr Hlt); lia| |done].
  intros c p1 (o & -> & Hr1 & Hm1 & Hs1). eapply wp_mono; [apply (IH _ _ Hr1); lia| |done].
  intros [q live'] p2 (Hr2 & Hm2 & Hq & Hs2). simpl in *. split; [done|]. split; [congruence|].
  rw length_app /= in Hq, Hs2. replace (slots - length live) with (S (slots - (length live + 1))) by lia.
  split; [done|]. rw Hs2 Hs1. simpl. by rw -app_assoc.
Qed.

Definition moved p p' (l : list (nat * nat)) : Prop :=
  same_books p p' ∧ ∀ o, o ∉ l.*1 → sp_objs p' !! o = sp_objs p !! o.

Lemma seated_ext p p' e : same_books p p' → sp_objs p' !! e.1 = sp_objs p !! e.1 → seated p e → seated p' e ∧ sees p' e = sees p e.
Proof.
  intros (_ & Hm & _ & Hl & Hx & _) Ho (c & Hc & H). split; [|by rw /sees /StaticKVCache.len Ho].
  exists c. by rw Ho Hl Hx /expected_len Hm.
Qed.

Lemma advance_static_spec l : ∀ p, NoDup l.*1 → Forall (seated p) l →
  wp (advance_static l)
     (λ fin p', moved p p' l ∧ Forall (seated p') l ∧ sees p' <$> l = grow <$> (sees p <$> l) ∧
        fin = filter (λ e, ¬ growing (sees p' e)) l) never p.
Proof.
  induction l as [|[o n] l IH]; intros p Hnd Hs; cbn [advance_static].
  { wp_step. split_and!; try done. }
  rw fmap_cons in Hnd. apply NoDup_cons in Hnd as [Ho Hnd]. apply Forall_cons in Hs as [(c & Hc & Hl & Hx & Hp) Hs]. simpl in Ho, Hc, Hl, Hx, Hp.
  wp_step. rw {1}/wp /StaticKVCache.this Hc. wp_step. rw /StaticKVCache.set_this. wp_step.
  set (c' := mkSCache _ _ _). set (p1 := set_sp_objs _ _). wp_step. rw {1}/wp.
  pose proof (lookup_lt_Some _ _ _ Hc) as Hlt.
  assert (sp_objs p1 !! o = Some c') as Hc' by by rw /p1 /= list_lookup_insert_eq.
  rw Hc'. assert (same_books p p1) as Hsb by by eapply (set_this_books o p c).
  assert (∀ i, i ≠ o → sp_objs p1 !! i = sp_objs p !! i) as Hother by (intros i Hi; by rw /p1 /= list_lookup_insert_ne).
  assert (∀ e, e ∈ l → seated p1 e ∧ sees p1 e = sees p e) as Hl1.
  { intros e He. rw Forall_forall in Hs. apply seated_ext; [done| |by apply Hs]. apply Hother. intros <-.
    by apply Ho, list_elem_of_fmap_2. }
  wp_step. eapply wp_mono; [apply (IH p1 Hnd)| |done].
  { apply Forall_forall. intros e He. by apply Hl1. }
  intros fin p2 ([Hsb2 Ho2] & Hs2 & Hg & Hf). wp_step.
  assert (sp_objs p2 !! o = Some c') as Hc2 by by rw Ho2.
  assert (sees p2 (o, n) = grow (sees p (o, n))) as Hgo.
  { rw /sees /StaticKVCache.len /= Hc2 Hc /grow /=. destruct (Nat.ltb_spec (sc_pos c) n); f_equal; lia. }
  split; [split|split; [|split]].
  - by eapply same_books_trans.
  - intros i Hi. rw fmap_cons not_elem_of_cons in Hi. destruct Hi as [Hi Hi']. rw Ho2 //. by apply Hother.
  - constructor; [|done]. exists c'. simpl. destruct Hsb as (_ & Hm1 & _ & Hl1' & Hx1 & _), Hsb2 as (_ & Hm2 & _ & Hl2 & Hx2 & _).
    rw Hl2 Hx2 Hl1' Hx1 /expected_len Hm2 Hm1. split_and!; try done; simpl; lia.
  - rw !fmap_cons Hg Hgo. f_equal. rw -!list_fmap_compose. apply list_fmap_ext. intros i e He%list_elem_of_lookup_2.
    simpl. f_equal. by apply Hl1.
  - assert (growing (sees p2 (o, n)) ↔ sc_pos c' < n) as Hgr by by rw /growing /sees /StaticKVCache.len /= Hc2.
    rw filter_cons Hf. destruct (Nat.leb_spec n (sc_pos c')), (decide _) as [Hd|Hd]; try done; exfalso; rw Hgr in Hd; lia.
Qed.

Lemma same_books_rel slots p p' live : static_rel slots p live → same_books p p' → Forall (seated p') live → static_rel slots p' live.
Proof.
  intros [Hb Hn Hnd _ Hc] Hsb Hs. split; try done; [by eapply same_books_ok|..];
    destruct Hsb as (Hn' & _ & _ & Hl' & _); [congruence|]. intros s o. rw Hl'. apply Hc.
Qed.

Lemma static_rel_notin slots p l1 e l2 : static_rel slots p (l1 ++ e :: l2) → e ∉ l1 ++ l2.
Proof.
  intros [_ _ Hnd _ _] H. rw -Permutation_middle fmap_cons in Hnd. apply NoDup_cons in Hnd as [Hx _].
  by apply Hx, list_elem_of_fmap_2.
Qed.

(** Freeing an entry's object removes the entry. *)
Lemma free_rel slots p l1 l2 e : static_rel slots p (l1 ++ e :: l2) →
  wp (StaticCachePool.free e.1)
     (λ _ p', static_rel slots p' (l1 ++ l2) ∧ max_seq_len p' = max_seq_len p ∧
        ∀ e', e' ∈ l1 ++ l2 → sees p' e' = sees p e') never p.
Proof.
  intros [Hb Hn Hnd Hs Hc].
  eapply wp_mono; [apply (wp_of_state _ books); [by apply free_books|]| |done].
  2:{ intros u p' [H Hb']. cbn beta in H. exact (H Hb'). }
  assert (e ∈ l1 ++ e :: l2) as He by (apply elem_of_app; right; by left).
  rw Forall_forall in Hs. destruct (Hs _ He) as (c & Ho & Hl & _).
  rw /StaticCachePool.free. wp_step. rw {1}/wp /StaticKVCache.this Ho. do 2 wp_step. rw Hl. wp_step. intros Hb'.
  rw fmap_app fmap_cons in Hnd. assert (Permutation (l1.*1 ++ e.1 :: l2.*1) (e.1 :: (l1 ++ l2).*1)) as Hp.
  { rw fmap_app. symmetry. apply Permutation_middle. }
  rw Hp in Hnd. apply NoDup_cons in Hnd as [He1 Hnd]. split; [split|]; try done.
  - apply Forall_forall. intros e' He'.
    assert (e'.1 ≠ e.1) as Hne by (intros Heq; apply He1; rw -Heq; by apply list_elem_of_fmap_2).
    destruct (Hs e') as (c' & Ho' & Hl' & Hx' & Hp'). { apply elem_of_app. rw elem_of_cons. apply elem_of_app in He'. tauto. }
    exists c'. simpl. rw !lookup_delete_ne; [done|congruence..].
  - simpl. intros s i [Hne Hl']%lookup_delete_Some. pose proof (Hc _ _ Hl') as Hi.
    rw fmap_app fmap_cons Hp in Hi. apply elem_of_cons in Hi as [->|Hi]; [|done].
    destruct (bk_live _ Hb _ _ Hl') as (_ & c' & Ho' & <-). congruence.
Qed.

Lemma static_round_spec slots msl cfg itemsize m queue p live :
  static_rel slots p live ∧ max_seq_len p = m → msl ≤ m →
  let now := resident slots 0 ((λ n, n `min` msl) <$> queue) (sees p <$> live) in
  wp (static_round cfg itemsize slots msl queue live)
     (λ r p', (static_rel slots p' r.2.2 ∧ max_seq_len p' = m) ∧ r.1 = static_sample cfg itemsize slots m now ∧
        r.2.1 = drop (slots - length live) queue ∧ sees p' <$> r.2.2 = filter growing now) never p.
Proof.
  intros [Hr Hmp] Hm now. rw /static_round. wp_step. eapply wp_mono; [apply admit_static_spec; [done|lia]| |done].
  intros [q l] p1 (Hr1 & Hm1 & Hq & Hs1). simpl in *. wp_step.
  eapply wp_mono; [apply (advance_static_spec l p1); [apply (sr_nodup _ _ _ Hr1)|apply (sr_seated _ _ _ Hr1)]| |done].
  intros fin p2 ([Hsb _] & Hse & Hg & Hfin). wp_step. rw {1}/wp /sample_static.
  assert (static_rel slots p2 l) as Hr2 by by eapply same_books_rel.
  assert (max_seq_len p2 = m) as Hm2 by (destruct Hsb as (_ & -> & _); congruence).
  rw (static_sample_spec slots p2 l cfg itemsize Hr2) Hm2. wp_step.
  assert (sees p2 <$> l = now) as Hnow by by rw Hg Hs1 /now /resident length_fmap.
  eapply wp_mono; [apply (retire_finished_spec sees StaticCachePool.free (λ p l, static_rel slots p l ∧ max_seq_len p = m) fin)| |done].
  - intros s l1 e l2 [H HmS]. split; [by eapply static_rel_notin|].
    eapply wp_mono; [by apply free_rel| |done]. intros u p' (? & ? & ?). split; [|done]. split; [done|congruence].
  - done.
  - rw Hfin. apply NoDup_filter. apply (NoDup_fmap_1 fst). apply Hr2.
  - rw Hfin. intros e [_ He]%list_elem_of_filter. done.
  - intros live' p3 (Hr3 & Hl3 & Hs3). wp_step. simpl. split; [done|]. rw Hnow. split; [done|]. split; [done|].
    by eapply retired_growing.
Qed.
End static_refines.

(** The contiguous replay is the machine with a slot for each resident, whatever the fuel. *)
Lemma replay_refines {T} (zero : T) fuel cfg itemsize lengths slots msl :
  replay zero fuel cfg itemsize lengths slots msl
  = Ok (fmap (M:=list) (static_sample cfg itemsize slots (StaticCachePool.or_default (Some msl) (Z.to_nat (max_position_embeddings cfg)))) <$>
      history fuel slots 0 ((λ n, n `min` msl) <$> lengths) []).
Proof.
  set (m := StaticCachePool.or_default (Some msl) (Z.to_nat (max_position_embeddings cfg))).
  assert (msl ≤ m) as Hm by (destruct msl; rw /m /=; lia).
  pose proof (rounds_refine sees (static_round cfg itemsize slots msl) (λ p _ live, static_rel slots p live ∧ max_seq_len p = m)
    (static_sample cfg itemsize slots m) (λ n, n `min` msl) slots 0 fuel
    (λ queue p live Hr, static_round_spec slots msl cfg itemsize m queue p live Hr Hm)
    lengths (StaticCachePool.init zero cfg slots (Some msl)) []) as H.
  lapply H; clear H; [intros H|].
  - apply wp_never in H as (s & p & Heq & Hs). by rw /replay Heq Hs.
  - split; [|done]. split; [apply books_init|done|constructor|constructor|]. intros s o. simpl. by rw lookup_empty.
Qed.

(** ** The block allocator refines it *)

Section paged_refines.
Context {T : Type}.
Implicit Types (s : BSt (T := T)) (queue : list nat) (live : list (nat * nat)).

(** Sequences that share nothing, over a pool of [N] blocks of [bs] tokens. *)
Record unshared_heap (N bs : nat) s : Prop := {
  uh_heap : heap s.1 s.2 ∅;
  uh_nodup : NoDup (s.2 ≫= block_table);
  uh_bs : block_size s.1 = bs;
  uh_blocks : BlockAllocator.num_blocks (allocator s.1) = N;
}.

Lemma size_dom_NoDup (l : list nat) : NoDup l → size (dom (list_to_set_disj l : gmultiset nat) : gset nat) = length l.
Proof.
  intros Hnd. rw -(size_list_to_set (C := gset nat) l) //. f_equal. apply set_eq. intros x.
  by rw gmultiset_elem_of_dom elem_of_list_to_set_disj elem_of_list_to_set.
Qed.

Lemma blocks_conserved N bs s : unshared_heap N bs s → num_free s + length (s.2 ≫= block_table) = N.
Proof.
  intros [[_ HA _] Hnd _ <-]. rw right_id_L in HA. pose proof (accounted_num_free _ _ HA) as H.
  by rw /refs_of size_dom_NoDup in H.
Qed.

(** No block has two owners. *)
Lemma none_shared N bs s : unshared_heap N bs s → BlockAllocator.num_shared (allocator s.1) = 0.
Proof.
  intros [[_ HA _] Hnd _ _]. rw right_id_L in HA. rw /BlockAllocator.num_shared list_filter_none //.
  intros r (b & Hb)%list_elem_of_lookup. destruct (acc_ref_bound _ _ _ _ HA Hb) as [_ ->].
  rw /refs_of multiplicity_NoDup //. case_decide; lia.
Qed.

Lemma table_split (cs : list Cache) i c c' : cs !! i = Some c →
  (cs ≫= block_table) ≡ₚ block_table c ++ (delete i cs ≫= block_table) ∧
  (<[i := c']> cs ≫= block_table) ≡ₚ block_table c' ++ (delete i cs ≫= block_table).
Proof.
  revert i. induction cs as [|c0 cs IH]; intros [|i] Hi; [done..|by injection Hi as ->|].
  change (<[S i := c']> (c0 :: cs)) with (c0 :: <[i := c']> cs). change (delete (S i) (c0 :: cs)) with (c0 :: delete i cs).
  destruct (IH _ Hi) as [H1 H2]. rw !bind_cons H1 H2. split; by rw Permutation_app_swap_app.
Qed.

(** Taking the next block, when one is free, and counting one token more. *)
Lemma grow_cache_spec N bs s o c : unshared_heap N bs s → s.2 !! o = Some c → 0 < num_free s →
  wp (on_seq o (PagedKVCache._ensure_capacity 1))
     (λ _ s', ∃ c', s'.2 = <[o := c']> s.2 ∧ num_tokens c' = num_tokens c ∧
        unshared_heap N bs (s'.1, <[o := set_num_tokens (num_tokens c + 1) c']> s.2)) never s.
Proof.
  intros Hu Ho Hf. pose proof Hu as [HH Hnd Hb HN]. destruct (heap_owned _ _ _ _ _ HH Ho) as [HO Ht].
  pose proof (pwf_bs _ (heap_wf _ _ _ HH)) as Hbs. rw /tight /= in Ht.
  pose proof (ensure_capacity_spec (s.1, c) (others s.2 o ∅) 1 HO) as He. simpl in He.
  set (bz := block_size s.1) in *.
  assert (ceil_div (num_tokens c) bz ≤ ceil_div (num_tokens c + 1) bz ≤ S (ceil_div (num_tokens c) bz)) as Hc.
  { pose proof (ceil_div_mul_ge (num_tokens c) bz Hbs). pose proof (ceil_div_mul_ge (num_tokens c + 1) bz Hbs).
    split; apply ceil_div_le; [done|lia|done|]. simpl. lia. }
  rw /wp /on_seq Ho. rw /wp in He. destruct (PagedKVCache._ensure_capacity 1 (s.1, c)) as [[u|e] [p' c']]; last first.
  { destruct He as (_ & _ & news & _ & Hlt). rw /num_free in Hf. lia. }
  destruct He as (HO' & news & (Hst & Htab & Hnt & Hs) & Hlen & Hnn & Hfr & _). simpl in *.
  exists c'. split; [done|]. split; [done|]. pose proof (same_storage_shape _ _ Hst) as Hsh.
  assert (block_size p' = bz) as Hbz by (by destruct Hsh).
  split; simpl.
  - eapply owned_heap; [done|done| | |done].
    + destruct HO' as [H1 H2 H3]. by split.
    + rw /tight /= Htab length_app Hlen Ht Hbz. lia.
  - destruct (table_split s.2 o c (set_num_tokens (num_tokens c + 1) c') Ho) as [H1 H2]. rw H2 /= Htab. rw H1 in Hnd.
    apply NoDup_app in Hnd as (Hn1 & Hn2 & Hn3). rw -app_assoc (Permutation_app_swap_app (block_table c)).
    apply NoDup_app. split; [done|]. split.
    + intros b Hb' Hin. destruct (Hfr _ Hb') as [Hb1 Hb2]. apply elem_of_app in Hin as [Hin|Hin]; [done|]. apply Hb2.
      rw /others /refs_of right_id_L. by apply elem_of_list_to_set_disj.
    + by apply NoDup_app.
  - congruence.
  - destruct Hsh as (_ & _ & H). congruence.
Qed.

Lemma vacate_spec N bs s o c : unshared_heap N bs s → s.2 !! o = Some c →
  wp (on_seq o PagedKVCache.free)
     (λ _ s', ∃ c', s'.2 = <[o := c']> s.2 ∧ block_table c' = [] ∧ unshared_heap N bs s') never s.
Proof.
  intros Hu Ho. pose proof Hu as [HH Hnd Hb HN]. destruct (heap_owned _ _ _ _ _ HH Ho) as [HO Ht].
  pose proof (free_spec s.1 c _ HO) as Hf. rw /wp /on_seq Ho. rw /wp in Hf.
  destruct (PagedKVCache.free (s.1, c)) as [[u|e] [p' c']]; [|done]. destruct Hf as (Hc & a & Hp & Hn & HA). simpl in Hc, Hp.
  subst c' p'. set (c' := mkCache [] 0 (_start c) []). exists c'. split; [done|]. split; [done|].
  split; simpl; [|destruct (table_split s.2 o c c' Ho) as [H1 H2]|done|congruence].
  - eapply owned_heap; [done|done| | |done].
    + split; simpl; [apply pool_wf_allocator; [done|apply HH]| |done]. by rw left_id_L.
    + by rw /tight /= ceil_div_0.
  - rw H2 /=. rw H1 in Hnd. by apply NoDup_app in Hnd as (_ & _ & Hnd).
Qed.

Lemma new_cache_spec N bs s : unshared_heap N bs s → 0 < num_free s →
  wp new_cache (λ c s', c = Some (length s.2) ∧ s'.2 = s.2 ++ [PagedKVCache.init] ∧ s'.1 = s.1 ∧ unshared_heap N bs s') never s.
Proof.
  intros [[Hwf HA Hcs] Hnd Hb HN] Hf. rw /wp /new_cache /pool_allocate. rw /num_free in Hf.
  destruct (Nat.eqb_spec (BlockAllocator.num_free (allocator s.1)) 0) as [H0|_]; [lia|].
  split; [done|]. split; [done|]. split; [done|]. split; simpl; [split|..]; try done.
  - rw /refs_of bind_app /=. by rw app_nil_r.
  - apply Forall_app. split; [done|]. constructor; [|done]. split; [done|]. by rw /tight /= ceil_div_0.
  - rw bind_app /=. by rw app_nil_r.
Qed.

Lemma set_tokens_spec s o c n (Q : unit → BSt → Prop) : s.2 !! o = Some c →
  Q tt (s.1, <[o := set_num_tokens n c]> s.2) → wp (set_tokens o n) Q never s.
Proof. intros Ho HQ. by rw /wp /set_tokens /on_seq Ho. Qed.

Lemma tokens_of_spec s o c (Q : nat → BSt → Prop) : s.2 !! o = Some c →
  Q (num_tokens c) s → wp (tokens_of o) Q never s.
Proof. intros Ho HQ. rw /wp /tokens_of /on_seq Ho /=. rw list_insert_id //. by destruct s. Qed.

(** What an entry looks like from outside. *)
Definition holds s (e : nat * nat) : nat * nat := (from_option num_tokens 0 (s.2 !! e.1), e.2).

Record paged_rel (N bs : nat) s live : Prop := {
  pr_heap : unshared_heap N bs s;
  pr_nodup : NoDup live.*1;
  pr_seated : Forall (λ e, ∃ c, s.2 !! e.1 = Some c ∧ num_tokens c ≤ 1 `max` e.2) live;
  pr_freed o c : s.2 !! o = Some c → o ∉ live.*1 → block_table c = [];
}.

Lemma length_tables (cs : list Cache) :
  length (cs ≫= block_table) = sum_list_with (λ i, from_option (length ∘ block_table) 0 (cs !! i)) (seq 0 (length cs)).
Proof.
  induction cs as [|c cs IH] using rev_ind; [done|].
  rw bind_app length_app IH length_app seq_app sum_list_with_app /= app_nil_r list_lookup_middle //=. f_equal; [|lia].
  apply sum_list_with_ext. intros i Hi%elem_of_seq. rw lookup_app_l //. lia.
Qed.

Lemma length_tables_live (cs : list Cache) (L : list nat) : NoDup L → Forall (λ i, i < length cs) L →
  (∀ i c, cs !! i = Some c → i ∉ L → block_table c = []) →
  length (cs ≫= block_table) = sum_list_with (λ i, from_option (length ∘ block_table) 0 (cs !! i)) L.
Proof.
  intros Hnd HL Hout. rw length_tables.
  assert (seq 0 (length cs) ≡ₚ L ++ filter (λ i, i ∉ L) (seq 0 (length cs))) as ->%(sum_list_with_perm _ _ _).
  { apply NoDup_Permutation; [apply NoDup_seq| |].
    - apply NoDup_app. split; [done|]. split; [|apply NoDup_filter, NoDup_seq]. intros i Hi [Hn _]%list_elem_of_filter. done.
    - intros i. rw elem_of_app list_elem_of_filter elem_of_seq. rw Forall_forall in HL.
      destruct (decide (i ∈ L)) as [Hi|Hi]; [|tauto]. pose proof (HL _ Hi). split; [by left|lia]. }
  rw sum_list_with_app (sum_list_with_ext _ (λ _, 0) (filter _ _)).
  - rw Nat.add_comm. clear. by induction (filter _ _) as [|i l IH].
  - intros i [Hi _]%list_elem_of_filter. destruct (cs !! i) as [c|] eqn:Hc; [|done]. by rw /= (Hout _ _ Hc Hi).
Qed.

(** The blocks in use are the ones the residents' tokens need. *)
Definition blocks_of (bs : nat) (now : list (nat * nat)) : nat := sum_list_with (λ e, ceil_div e.1 bs) now.

Lemma num_free_eq N bs s live : paged_rel N bs s live → num_free s + blocks_of bs (holds s <$> live) = N.
Proof.
  intros [Hu Hnd Hs Hout]. rw -(blocks_conserved _ _ _ Hu) (length_tables_live s.2 live.*1 Hnd) //.
  - f_equal. rw /blocks_of. clear Hnd Hout. induction Hs as [|e live (c & Hc & _) _ IH]; [done|].
    rw !fmap_cons /= IH Hc /=. f_equal. destruct Hu as [[_ _ Hcs] _ Hbs _]. rw Forall_lookup in Hcs.
    destruct (Hcs _ _ Hc) as [_ Ht]. by rw /tight /= Hbs in Ht.
  - apply Forall_fmap. eapply Forall_impl; [exact Hs|]. intros e (c & Hc & _). by eapply lookup_lt_Some.
Qed.

(** Every sequence at its full length. *)
Definition demand (bs : nat) (lengths : list nat) : nat := sum_list_with (λ n, ceil_div (1 `max` n) bs) lengths.

Lemma ceil_div_mono a b m : 0 < m → a ≤ b → ceil_div a m ≤ ceil_div b m.
Proof. intros Hm Hab. apply ceil_div_le; [done|]. pose proof (ceil_div_mul_ge b m Hm). lia. Qed.

Lemma paged_bs_pos N bs s live : paged_rel N bs s live → 0 < bs.
Proof. intros [[HH _ <- _] _ _ _]. apply HH. Qed.

Lemma demand_covers N bs s live : paged_rel N bs s live → N ≤ num_free s + demand bs live.*2.
Proof.
  intros Hr. pose proof (paged_bs_pos _ _ _ _ Hr) as Hbs. rw -(num_free_eq _ _ _ _ Hr). apply Nat.add_le_mono_l.
  destruct Hr as [_ _ Hs _]. rw /blocks_of /demand. induction Hs as [|e live (c & Hc & Hn) _ IH]; [done|].
  rw !fmap_cons /=. rw Hc /=. pose proof (ceil_div_mono _ _ _ Hbs Hn). lia.
Qed.

Lemma demand_cons bs n l : 0 < bs → S (demand bs l) ≤ demand bs (n :: l).
Proof.
  intros Hbs. rw /demand /=. assert (1 ≤ ceil_div (1 `max` n) bs); [|lia].
  destruct (ceil_div (1 `max` n) bs) eqn:Hc; [|lia]. pose proof (ceil_div_mul_ge (1 `max` n) bs Hbs). lia.
Qed.

Lemma update_rel N bs s live p' o n c : paged_rel N bs s live → (o, n) ∈ live → num_tokens c ≤ 1 `max` n →
  unshared_heap N bs (p', <[o := c]> s.2) →
  paged_rel N bs (p', <[o := c]> s.2) live ∧ holds (p', <[o := c]> s.2) (o, n) = (num_tokens c, n) ∧
  ∀ e, e.1 ≠ o → holds (p', <[o := c]> s.2) e = holds s e.
Proof.
  intros [Hu Hnd Hs Hout] Hin Hc Hu'. rw Forall_forall in Hs. destruct (Hs _ Hin) as (c0 & Ho & _).
  pose proof (lookup_lt_Some _ _ _ Ho) as Hlt. split; [split; [done|done| |]|split].
  - apply Forall_forall. intros e He. simpl. destruct (decide (e.1 = o)) as [Heq|Hne].
    + rw Heq list_lookup_insert_eq //. exists c. split; [done|].
      assert (e = (o, n)) as ->; [|done]. destruct e as [o' n']. simpl in Heq. subst o'.
      apply list_elem_of_lookup in He as [i Hi], Hin as [j Hj].
      assert (i = j) as ->; [|congruence].
      eapply (NoDup_lookup _ i j o Hnd); by rw list_lookup_fmap ?Hi ?Hj.
    + rw list_lookup_insert_ne; [by apply Hs|done].
  - simpl. intros i c1 Hi Hni. destruct (decide (i = o)) as [->|Hne].
    + destruct Hni. by apply (list_elem_of_fmap_2 fst) in Hin.
    + rw list_lookup_insert_ne // in Hi. by eapply Hout.
  - by rw /holds /= list_lookup_insert_eq.
  - intros e He. by rw /holds /= list_lookup_insert_ne.
Qed.


Lemma admit_paged_spec N bs queue : ∀ s live, paged_rel N bs s live → demand bs live.*2 + demand bs queue < N →
  wp (admit_paged queue live)
     (λ ql s', ql.1 = [] ∧ paged_rel N bs s' ql.2 ∧ ql.2.*2 = live.*2 ++ queue ∧
        holds s' <$> ql.2 = (holds s <$> live) ++ (pair 1 <$> queue)) never s.
Proof.
  induction queue as [|n queue IH]; intros s live Hr Hd; cbn [admit_paged].
  { wp_step. simpl. by rw !app_nil_r. }
  pose proof (paged_bs_pos _ _ _ _ Hr) as Hbs. pose proof (demand_covers _ _ _ _ Hr) as Hcov.
  pose proof (demand_cons bs n queue Hbs) as Hc. wp_step. wp_step.
  rw (proj2 (Nat.ltb_lt 1 (num_free s))); [|lia]. destruct Hr as [Hu Hnd Hs Hout].
  wp_step. eapply wp_mono; [apply (new_cache_spec N bs); [done|lia]| |done].
  intros c1 s1 (-> & Hs1 & Hp1 & Hu1). set (o := length s.2) in *.
  assert (s1.2 !! o = Some PagedKVCache.init) as Ho by by rw Hs1 list_lookup_middle.
  wp_step. eapply wp_mono; [apply (grow_cache_spec N bs s1 o _ Hu1 Ho); rw /num_free Hp1 -/(num_free s); lia| |done].
  intros _ s2 (c' & Hs2 & Hn & Hu2). wp_step.
  assert (s2.2 !! o = Some c') as Ho2 by (rw Hs2 list_lookup_insert_eq //; by eapply lookup_lt_Some).
  apply (set_tokens_spec s2 o c' 1 _ Ho2). rw Hs2 list_insert_insert_eq Hs1.
  rw Hs1 /= in Hu2. set (c2 := set_num_tokens 1 c') in *.
  assert (∀ l, <[o := c2]> (s.2 ++ [PagedKVCache.init]) !! l = (s.2 ++ [c2]) !! l) as Hcs.
  { intros l. f_equal. subst o. by rw insert_app_r_alt ?Nat.sub_diag. }
  apply list_eq in Hcs. rw Hcs in Hu2. rw Hcs.
  assert (∀ e, e ∈ live → e.1 ≠ o ∧ (s.2 ++ [c2]) !! e.1 = s.2 !! e.1) as Hold.
  { intros e He. rw Forall_forall in Hs. destruct (Hs _ He) as (c & Hc' & _). pose proof (lookup_lt_Some _ _ _ Hc').
    split; [lia|]. by rw lookup_app_l. }
  assert (paged_rel N bs (s2.1, s.2 ++ [c2]) (live ++ [(o, n)])) as Hr'.
  { split; [done|..]; simpl.
    - rw fmap_app NoDup_app. split_and!; [done| |apply NoDup_singleton].
      intros i (e & -> & He)%list_elem_of_fmap Heq%list_elem_of_singleton. by apply (Hold e He).
    - apply Forall_app. split; [|apply Forall_singleton; exists c2; simpl; rw list_lookup_middle //; split; [done|lia]].
      apply Forall_forall. intros e He. rw (proj2 (Hold _ He)). rw Forall_forall in Hs. by apply Hs.
    - intros i c Hi. rw fmap_app not_elem_of_app /=. intros [Hni Hno]. apply (Hout i); [|done].
      apply lookup_app_Some in Hi as [Hi|[Hge Hi]]; [done|]. apply list_lookup_singleton_Some in Hi as [Hz _].
      destruct Hno. apply list_elem_of_singleton. lia. }
  assert (holds (s2.1, s.2 ++ [c2]) <$> live ++ [(o, n)] = (holds s <$> live) ++ [(1, n)]) as Hh.
  { rw fmap_app /=. f_equal; [|by rw /holds /= list_lookup_middle].
    apply list_fmap_ext. intros i e He%list_elem_of_lookup_2. by rw /holds /= (proj2 (Hold _ He)). }
  eapply wp_mono; [apply (IH _ _ Hr')| |done].
  { rw fmap_app /demand sum_list_with_app /=. rw /demand /= in Hd. lia. }
  intros [q l] s3 (Hq & Hr3 & Hl & Hh3). simpl in *. split; [done|]. split; [done|]. split.
  - rw Hl fmap_app /=. by rw -app_assoc.
  - rw Hh3 Hh. by rw -app_assoc.
Qed.

Lemma advance_paged_spec N bs live l : ∀ s, paged_rel N bs s live → (∀ e, e ∈ l → e ∈ live) → NoDup l.*1 → demand bs live.*2 < N →
  wp (advance_paged l)
     (λ fin s', paged_rel N bs s' live ∧ (∀ e, e.1 ∉ l.*1 → holds s' e = holds s e) ∧
        holds s' <$> l = grow <$> (holds s <$> l) ∧ fin = filter (λ e, ¬ growing (holds s' e)) l) never s.
Proof.
  induction l as [|[o n] l IH]; intros s Hr Hin Hnd Hd; cbn [advance_paged].
  { wp_step. done. }
  rw fmap_cons in Hnd. apply NoDup_cons in Hnd as [Hol Hnd]. simpl in Hol.
  assert ((o, n) ∈ live) as Hon by (apply Hin; by left).
  pose proof (pr_seated _ _ _ _ Hr) as Hs. rw Forall_forall in Hs. destruct (Hs _ Hon) as (c & Ho & Hc). simpl in Ho, Hc.
  pose proof (demand_covers _ _ _ _ Hr) as Hcov.
  wp_step. apply (tokens_of_spec s o c _ Ho). do 2 wp_step.
  apply wp_bind, (wp_mono _ (λ _ s1, paged_rel N bs s1 live ∧ holds s1 (o, n) = grow (num_tokens c, n) ∧
    ∀ e, e.1 ≠ o → holds s1 e = holds s e) _ never); [|..|done].
  { rw /grow. cbn [fst snd]. destruct (Nat.ltb_spec (num_tokens c) n) as [Hlt|Hge]; cbn [andb]; last first.
    { wp_step. split; [done|]. split; [by rw /holds /= Ho|done]. }
    rw (proj2 (Nat.ltb_lt 0 (num_free s))); [|lia].
    wp_step. eapply wp_mono; [apply (grow_cache_spec N bs s o c (pr_heap _ _ _ _ Hr) Ho); lia| |done].
    intros _ s1 (c' & Hs1 & Hn & Hu1). pose proof (lookup_lt_Some _ _ _ Ho) as Hlen.
    assert (s1.2 !! o = Some c') as Ho1 by by rw Hs1 list_lookup_insert_eq.
    wp_step. apply (tokens_of_spec s1 o c' _ Ho1). apply (set_tokens_spec s1 o c' _ _ Ho1). rw Hs1 list_insert_insert_eq Hn.
    destruct (update_rel N bs s live s1.1 o n (set_num_tokens (num_tokens c + 1) c') Hr Hon) as (Hr1 & Hh1 & Hh2); [simpl; lia|done|].
    split; [done|]. split; [|done]. rw Hh1 /=. f_equal. lia. }
  intros _ s1 (Hr1 & Hh & Hother). pose proof (pr_seated _ _ _ _ Hr1) as Hs'. rw Forall_forall in Hs'.
  destruct (Hs' _ Hon) as (c1 & Ho1 & _). simpl in Ho1.
  wp_step. apply (tokens_of_spec s1 o c1 _ Ho1). wp_step.
  eapply wp_mono; [apply (IH s1 Hr1); [intros e He; apply Hin; by right|done..]| |done].
  intros fin s2 (Hr2 & Hk & Hg & Hf). wp_step. assert (holds s2 (o, n) = (num_tokens c1, n)) as H2.
  { rw Hk //. by rw /holds /= Ho1. }
  split; [done|]. split; [|split].
  - intros e He. rw fmap_cons not_elem_of_cons in He. destruct He as [He1 He2]. rw Hk //. by apply Hother.
  - rw !fmap_cons Hg H2. f_equal; [|rw -!list_fmap_compose; apply list_fmap_ext; intros i e He%list_elem_of_lookup_2].
    + rw /holds /= Ho -Hh. by rw /holds /= Ho1.
    + simpl. f_equal. apply Hother. intros Heq. apply Hol. rw -Heq. by apply list_elem_of_fmap_2.
  - assert (growing (holds s2 (o, n)) ↔ num_tokens c1 < n) as Hgr by by rw H2.
    rw filter_cons Hf. destruct (Nat.leb_spec n (num_tokens c1)), (decide _) as [Hx|Hx]; try done; exfalso; rw Hgr in Hx; lia.
Qed.

Lemma used_tokens_spec N bs s live l : paged_rel N bs s live → (∀ e, e ∈ l → e ∈ live) →
  wp (used_tokens l) (λ n s', n = sum_list (holds s <$> l).*1 ∧ s' = s) never s.
Proof.
  intros Hr. induction l as [|[o n] l IH]; intros Hin; cbn [used_tokens]; [by wp_step|].
  pose proof (pr_seated _ _ _ _ Hr) as Hs. rw Forall_forall in Hs. destruct (Hs (o, n)) as (c & Ho & _); [apply Hin; by left|].
  wp_step. apply (tokens_of_spec s o c _ Ho). wp_step.
  eapply wp_mono; [apply IH; intros e He; apply Hin; by right| |done]. intros m s' [-> ->]. wp_step.
  split; [|done]. rw !fmap_cons /=. simpl in Ho. by rw Ho.
Qed.

Lemma free_paged_rel N bs s l1 e l2 : paged_rel N bs s (l1 ++ e :: l2) →
  e ∉ l1 ++ l2 ∧
  wp (on_seq e.1 PagedKVCache.free)
     (λ _ s', paged_rel N bs s' (l1 ++ l2) ∧ ∀ e', e' ∈ l1 ++ l2 → holds s' e' = holds s e') never s.
Proof.
  intros [Hu Hnd Hs Hout].
  assert ((l1 ++ e :: l2).*1 ≡ₚ e.1 :: (l1 ++ l2).*1) as Hp by by rw -Permutation_middle.
  rw Hp in Hnd. apply NoDup_cons in Hnd as [He Hnd].
  assert (∀ e', e' ∈ l1 ++ l2 → e'.1 ≠ e.1) as Hne by (intros e' He' Heq; apply He; rw -Heq; by apply list_elem_of_fmap_2).
  split; [intros H; by apply (Hne _ H)|]. rw -Permutation_middle in Hs. apply Forall_cons in Hs as [(c & Ho & _) Hs].
  eapply wp_mono; [by apply (vacate_spec N bs s e.1 c)| |done]. intros _ s' (c' & Hs' & Ht & Hu').
  split; [split; [done|done| |]|].
  - apply Forall_forall. intros e' He'. rw Forall_forall in Hs. rw Hs' list_lookup_insert_ne; [by apply Hs|].
    intros Heq. by apply (Hne e').
  - intros o c1. rw Hs' list_lookup_insert_Some. intros [(<- & <- & _)|[Hne' Hc]] Hni; [done|].
    apply (Hout _ _ Hc). rw Hp not_elem_of_cons. done.
  - intros e' He'. rw /holds Hs' list_lookup_insert_ne //. intros Heq. by apply (Hne e').
Qed.

Lemma demand_filter bs (P : nat * nat → Prop) `{!∀ e, Decision (P e)} live : demand bs (filter P live).*2 ≤ demand bs live.*2.
Proof.
  rw /demand. induction live as [|e live IH]; [done|]. rw filter_cons. destruct (decide (P e)); rw !fmap_cons /=; lia.
Qed.

(** The sample of a round in which [now] are resident. *)
Definition paged_sample (cfg : NanoConfig) (itemsize : Z) (N bs : nat) (now : list (nat * nat)) : BlockStats :=
  mkBlockStats (Z.of_nat N) (Z.of_nat (blocks_of bs now)) (Z.of_nat bs) (Z.of_nat (sum_list now.*1)) 0 (bytes_per_token cfg itemsize).

Lemma paged_stats_eq N bs s live cfg itemsize : paged_rel N bs s live →
  stats cfg itemsize (Z.of_nat (sum_list (holds s <$> live).*1)) s.1 = paged_sample cfg itemsize N bs (holds s <$> live).
Proof.
  intros Hr. pose proof (num_free_eq _ _ _ _ Hr) as Hn. destruct Hr as [Hu _ _ _].
  rw /stats (none_shared _ _ _ Hu) /paged_sample /BlockAllocator.num_allocated. destruct Hu as [_ _ Hb HN]. rw Hb HN.
  f_equal. rw /num_free /BlockAllocator.num_free in Hn. lia.
Qed.

(** Room for everybody: the invariant of the loop. *)
Definition roomy (N bs K : nat) s queue live : Prop :=
  paged_rel N bs s live ∧ demand bs live.*2 + demand bs queue < N ∧ length live + length queue ≤ K.

Lemma paged_round_spec N bs K cfg itemsize queue s live : roomy N bs K s queue live →
  let now := resident K 1 (id <$> queue) (holds s <$> live) in
  wp (paged_round cfg itemsize queue live)
     (λ r s', roomy N bs K s' r.2.1 r.2.2 ∧ r.1 = paged_sample cfg itemsize N bs now ∧
        r.2.1 = drop (K - length live) queue ∧ holds s' <$> r.2.2 = filter growing now) never s.
Proof.
  intros (Hr & Hd & HK) now. rw /paged_round. wp_step. eapply wp_mono; [by apply admit_paged_spec| |done].
  intros [q l] s1 (Hq & Hr1 & Hl & Hh1). simpl in *. subst q. wp_step.
  assert (demand bs l.*2 < N) as Hd1 by (rw Hl /demand sum_list_with_app -!/(demand bs _); lia).
  eapply wp_mono; [apply (advance_paged_spec N bs l l s1 Hr1); [done|apply Hr1|done]| |done].
  intros fin s2 (Hr2 & _ & Hg & Hfin). wp_step.
  eapply wp_mono; [by apply (used_tokens_spec N bs s2 l l Hr2)| |done]. intros used s2' [-> ->]. do 2 wp_step.
  rw (paged_stats_eq N bs) //.
  assert (holds s2 <$> l = now) as Hnow.
  { rw Hg Hh1 /now /resident list_fmap_id length_fmap take_ge //. lia. }
  wp_step. eapply wp_mono; [apply (retire_finished_spec holds _ (paged_rel N bs) fin)| |done].
  - intros s3 l1 e l2. apply free_paged_rel.
  - done.
  - rw Hfin. apply NoDup_filter, (NoDup_fmap_1 fst). apply Hr1.
  - rw Hfin. intros e [_ He]%list_elem_of_filter. done.
  - intros live' s3 (Hr3 & Hl3 & Hs3). wp_step. cbn [fst snd]. rw Hnow. split; [|split; [done|split]].
    + split; [done|]. split; [rw Hl3; pose proof (demand_filter bs (λ e, e ∉ fin) l); rw {2}/demand /=; lia|].
      rw Hl3 /=. pose proof (length_filter (λ e, e ∉ fin) l) as Hlf. apply (f_equal length) in Hl.
      rw length_app !length_fmap in Hl. lia.
    + rw drop_ge //. lia.
    + by eapply retired_growing.
Qed.
End paged_refines.

(** The paged replay is the machine with a place for everybody, when the pool has room for
    all the sequences at their full lengths and a block to spare. *)
Lemma replay_paged_refines {T} (zero : T) fuel cfg itemsize lengths N bs : 0 < bs → demand bs lengths < N →
  replay_paged zero fuel cfg itemsize lengths N bs
  = Ok (fmap (M := list) (paged_sample cfg itemsize N bs) <$> history fuel (length lengths) 1 lengths []).
Proof.
  intros Hbs Hd.
  pose proof (rounds_refine holds (paged_round cfg itemsize) (roomy (T := T) N bs (length lengths))
    (paged_sample cfg itemsize N bs) id (length lengths) 1 fuel
    (λ queue s live Hr, paged_round_spec N bs (length lengths) cfg itemsize queue s live Hr)
    lengths (PagedCachePool.init zero (Z.to_nat (Config.num_hidden_layers cfg)) N bs, []) []) as H.
  rw list_fmap_id in H. lapply H; clear H; [intros H|].
  - apply wp_never in H as (s & p & Heq & Hs). by rw /replay_paged Heq Hs.
  - split; [|split; [done|done]]. split; [|constructor|constructor|done]. split; [|constructor|done|done].
    destruct (heap_init zero (Z.to_nat (Config.num_hidden_layers cfg)) N bs Hbs) as [H1 H2 _]. by split.
Qed.

(** * What the samples say *)

Section lifetimes.
Implicit Types (e : nat * nat) (h : list (list (nat * nat))).

Lemma elem_of_lifetime p n e : e ∈ lifetime p n → e.2 = n ∧ (p < e.1 ≤ n ∨ e.1 = p ∧ n ≤ p).
Proof.
  rw /lifetime. destruct (Nat.ltb_spec p n) as [Hlt|Hge].
  - intros (q & -> & Hq%elem_of_seq)%list_elem_of_fmap. simpl. lia.
  - intros ->%list_elem_of_singleton. simpl. lia.
Qed.

Lemma length_lifetime p n : length (lifetime p n) = 1 `max` (n - p).
Proof. rw /lifetime. destruct (Nat.ltb_spec p n); [rw length_fmap length_seq|simpl]; lia. Qed.

(** [0 + 1 + ... + n]. *)
Definition triangle (n : nat) : nat := sum_list (seq 0 (S n)).

Lemma triangle_closed n : 2 * triangle n = n * (n + 1).
Proof.
  rw /triangle. induction n as [|n IH]; [done|]. rw seq_S sum_list_with_app Nat.mul_add_distr_l IH. simpl. lia.
Qed.

Lemma lifetime_tokens n : sum_list (lifetime 0 n).*1 = triangle n.
Proof.
  rw /lifetime /triangle. destruct (Nat.ltb_spec 0 n); [|by replace n with 0 by lia].
  rw Nat.sub_0_r -list_fmap_compose /= list_fmap_id //.
Qed.

Lemma sum_join (f : nat * nat → nat) h :
  sum_list ((λ now, sum_list_with f now) <$> h) = sum_list_with f (mjoin h).
Proof. induction h as [|now h IH]; [done|]. rw fmap_cons /= IH. by rw sum_list_with_app. Qed.

Lemma sum_list_fst now : sum_list now.*1 = sum_list_with fst (now : list (nat * nat)).
Proof. induction now as [|e now IH]; [done|]. by rw fmap_cons /= IH. Qed.

Lemma sum_lifetimes (f : nat * nat → nat) start queue :
  sum_list_with f (queue ≫= lifetime start) = sum_list ((λ n, sum_list_with f (lifetime start n)) <$> queue).
Proof. induction queue as [|n queue IH]; [done|]. rw bind_cons sum_list_with_app fmap_cons /= IH //. Qed.

Lemma length_lifetimes start queue : length (queue ≫= lifetime start) = sum_list ((λ n, 1 `max` (n - start)) <$> queue).
Proof. induction queue as [|n queue IH]; [done|]. rw bind_cons length_app length_lifetime fmap_cons /= IH //. Qed.

(** The rounds of a run that starts empty. *)
Lemma history_run fuel room start queue : 0 < room → length (queue ≫= lifetime start) ≤ fuel →
  ∃ h, history fuel room start queue [] = Some h ∧ mjoin h ≡ₚ queue ≫= lifetime start ∧
    Forall (λ now, 0 < length now ≤ room ∧ ∀ e, e ∈ now → e.2 ∈ queue ∧ e ∈ lifetime start e.2) h.
Proof.
  intros Hr Hf. destruct (history_ends fuel room start queue []) as [h Hh]; [done|done|]. exists h. split; [done|].
  pose proof (history_lifetimes _ _ _ _ _ _ Hh) as Hp. split; [done|].
  apply Forall_and. split.
  - eapply (history_forall (λ now, 0 < length now ≤ room)); [..|exact Hh]; [simpl; lia|].
    intros q l Hl Hne. rw /resident length_fmap length_app length_fmap length_take.
    destruct q, l; simpl in *; try lia. naive_solver.
  - apply Forall_forall. intros now Hnow e He. assert (e ∈ mjoin h) as Hin by (apply list_elem_of_join; by exists now).
    rw Hp in Hin. apply list_elem_of_bind in Hin as (n & He' & Hn). destruct (elem_of_lifetime _ _ _ He') as [-> _]. done.
Qed.
End lifetimes.

(** The contiguous replay ends, within a round per token, when the pool has a slot at all;
    its samples then add up to what the lengths say, whatever the order the sequences were
    resident in: each sequence is resident for as many rounds as it has tokens, holding one
    more each time; and in every sample the tokens handed out are the used, the reserved and
    the internally fragmented ones, which with the external ones are the whole pool. *)
Theorem replay_exact {T} (zero : T) fuel cfg itemsize lengths slots msl :
  let targets := (λ n, n `min` msl) <$> lengths in
  0 < slots → sum_list (max 1 <$> targets) ≤ fuel →
  ∃ samples, replay zero fuel cfg itemsize lengths slots msl = Ok (Some samples) ∧
    sum_list ((λ s, Z.to_nat (ps_slots_allocated s)) <$> samples) = sum_list (max 1 <$> targets) ∧
    sum_list ((λ s, Z.to_nat (ps_tokens_used s)) <$> samples) = sum_list (triangle <$> targets) ∧
    Forall (λ s, (0 < ps_slots_allocated s ≤ Z.of_nat slots)%Z ∧
      (ps_tokens_allocated s = ps_tokens_used s + ps_tokens_reserved s + ps_internal_fragmentation s)%Z ∧
      (ps_tokens_capacity s = ps_tokens_allocated s + ps_external_fragmentation s)%Z) samples.
Proof.
  intros targets Hs Hf. rw replay_refines -/targets.
  assert (∀ t, t ∈ targets → t ≤ msl) as Hmsl by (intros t (n & -> & _)%list_elem_of_fmap; lia). clearbody targets.
  destruct (history_run fuel slots 0 targets) as (h & -> & Hp & Hall); [done| |].
  { rw length_lifetimes. erewrite list_fmap_ext; [exact Hf|]. intros i n _. simpl. by rw Nat.sub_0_r. }
  set (m := StaticCachePool.or_default (Some msl) _). eexists. split; [done|]. rw -!list_fmap_compose. split; [|split].
  - transitivity (length (mjoin h)); [|rw Hp length_lifetimes; f_equal; apply list_fmap_ext; intros; lia].
    clear. induction h as [|now h IH]; [done|]. rw fmap_cons /= length_app IH Nat2Z.id //.
  - transitivity (sum_list_with fst (mjoin h)).
    + rw -sum_join. f_equal. apply list_fmap_ext. intros i now _. by rw /= Nat2Z.id sum_list_fst.
    + rw (sum_list_with_perm _ _ _ Hp) sum_lifetimes. f_equal. apply list_fmap_ext. intros i n _. by rw -lifetime_tokens sum_list_fst.
  - apply Forall_fmap. eapply Forall_impl; [exact Hall|]. intros now [Hlen Hin]. simpl. split; [lia|].
    rw /ps_internal_fragmentation /ps_external_fragmentation /ps_tokens_allocated /ps_tokens_capacity /=.
    pose proof (sum_list_with_bound fst (λ e, reserve_len m e.2)
      (λ e, reserve_len m e.2 - e.1) m now) as Hsum.
    assert (∀ f : nat * nat → nat, sum_list (f <$> now) = sum_list_with f now) as Hw.
    { intros f. clear. induction now as [|e now IH]; [done|]. by rw fmap_cons /= IH. }
    rw !Hw. lapply Hsum; [intros Hle; split; [lia|ring]|]. intros e He. destruct (Hin _ He) as [Ht Hl]. apply elem_of_lifetime in Hl as [_ Hl].
    apply Hmsl in Ht. assert (msl ≤ m) by (destruct msl; rw /m /=; lia). split; [lia|]. split; [done|]. rw /reserve_len. lia.
Qed.

Lemma replay_exact_witness :
  ∃ samples, replay 0 7 TINY 2 [3; 9] 1 4 = Ok (Some samples) ∧
    sum_list ((λ s, Z.to_nat (ps_slots_allocated s)) <$> samples) = 7 ∧
    sum_list ((λ s, Z.to_nat (ps_tokens_used s)) <$> samples) = 16.
Proof.
  destruct (replay_exact 0 7 TINY 2 [3; 9] 1 4) as (samples & Hr & Hn & Hu & _); [lia|vm_compute; lia|].
  exists samples. split; [exact Hr|]. split; [exact Hn|exact Hu].
Defined.

(** A budget that does not pay for one slot keeps the replay going for ever. *)
Theorem replay_without_slots {T} (zero : T) fuel cfg itemsize lengths msl :
  lengths ≠ [] → replay zero fuel cfg itemsize lengths 0 msl = Ok None.
Proof. intros Hl. rw replay_refines history_no_room //. by destruct lengths. Qed.

Lemma paged_lifetime_tokens n : sum_list (lifetime 1 n).*1 = if n <=? 1 then 1 else triangle n - 1.
Proof.
  rw /lifetime /triangle. destruct (Nat.ltb_spec 1 n), (Nat.leb_spec n 1); try lia; try done.
  rw -list_fmap_compose /= list_fmap_id. destruct n as [|n]; [lia|]. rw /= Nat.sub_0_r. lia.
Qed.

(** With a place for everybody, the run is as long as its longest lifetime. *)
Lemma longest_step (live : list (nat * nat)) : live ≠ [] →
  max_list ((λ e, length (lifetime e.1 e.2)) <$> live)
  = S (max_list ((λ e, length (lifetime e.1 e.2)) <$> filter growing (grow <$> live))).
Proof.
  induction live as [|[p n] live IH]; [done|]. intros _. rw !fmap_cons filter_cons. cbn [fst snd].
  change (max_list (?x :: ?l)) with (x `max` max_list l).
  assert (length (lifetime p n) = S (if decide (growing (grow (p, n))) then length (lifetime (grow (p, n)).1 (grow (p, n)).2) else 0)) as ->.
  { rw lifetime_step. case_bool_decide as Hg; destruct (decide _); try done. rw /growing /grow /= in Hg |- *.
    destruct (Nat.ltb_spec p n); simpl in *; [done|lia]. }
  set (g := grow (p, n)). destruct live as [|e live]; [|rw IH //]; destruct (decide (growing g));
    rw ?fmap_cons; rw /max_list /=; lia.
Qed.

Lemma history_roomy fuel room start live h : history fuel room start [] live = Some h →
  length h = max_list ((λ e, length (lifetime e.1 e.2)) <$> live).
Proof.
  revert live h. induction fuel as [|fuel IH]; intros live h; [destruct live; [|done]; by intros [= <-]|].
  destruct live as [|e live]; [by intros [= <-]|]. rw history_S; [|by right]. intros (h' & Hh & ->)%fmap_Some.
  rw drop_nil in Hh. apply IH in Hh. rw longest_step //= Hh /resident take_nil app_nil_r //.
Qed.

(** A sequence holds at least as many tokens as blocks, and fills all blocks but its last. *)
Lemma blocks_tokens bs now : 0 < bs →
  blocks_of bs now ≤ sum_list now.*1 ≤ blocks_of bs now * bs ∧ blocks_of bs now * bs ≤ sum_list now.*1 + length now * (bs - 1).
Proof.
  intros Hbs. rw /blocks_of. induction now as [|e now IH]; [simpl; lia|]. rw fmap_cons /=.
  pose proof (ceil_div_mul_ge e.1 bs Hbs). pose proof (ceil_div_mul_lt e.1 bs Hbs).
  assert (ceil_div e.1 bs ≤ e.1) by (apply ceil_div_le; nia). nia.
Qed.

(** The paged replay ends, with as many rounds as the longest sequence has tokens after its
    first, when all the sequences at their full lengths leave a block of the pool to spare.
    Its samples add up to what the lengths say; in each of them no block is shared, the
    blocks in use are no more than the tokens held, what they do not hold is the internal
    fragmentation, and that is less than a block for every block in use. *)
Theorem replay_paged_exact {T} (zero : T) fuel cfg itemsize lengths N bs :
  0 < bs → demand bs lengths < N → sum_list ((λ n, 1 `max` (n - 1)) <$> lengths) ≤ fuel →
  ∃ samples, replay_paged zero fuel cfg itemsize lengths N bs = Ok (Some samples) ∧
    length samples = max_list ((λ n, 1 `max` (n - 1)) <$> lengths) ∧
    sum_list ((λ s, Z.to_nat (bst_tokens_used s)) <$> samples)
      = sum_list ((λ n, if n <=? 1 then 1 else triangle n - 1) <$> lengths) ∧
    Forall (λ s, bst_shared s = 0%Z ∧ (0 < bst_allocated s ≤ bst_tokens_used s)%Z ∧
      (bst_tokens_allocated s = bst_tokens_used s + bst_internal_fragmentation s)%Z ∧
      (bst_internal_fragmentation s ≤ bst_allocated s * (Z.of_nat bs - 1))%Z) samples.
Proof.
  intros Hbs Hd Hf. rw replay_paged_refines //.
  destruct (decide (lengths = [])) as [->|Hne]; [exists []; by destruct fuel|].
  destruct (history_run fuel (length lengths) 1 lengths) as (h & Hh & Hp & Hall);
    [by destruct lengths; simpl; [|lia]|by rw length_lifetimes|].
  rw Hh. eexists. split; [done|]. rw -!list_fmap_compose length_fmap. split; [|split].
  - destruct fuel as [|fuel].
    { destruct lengths as [|n l]; [done|]. rw fmap_cons /= in Hf. lia. }
    rw history_S in Hh; [|by left]. apply fmap_Some in Hh as (h' & Hh' & ->). rw /= Nat.sub_0_r drop_ge // in Hh'.
    apply history_roomy in Hh'. rw /= Hh' /resident /= Nat.sub_0_r take_ge //. rw -longest_step.
    + rw -list_fmap_compose. f_equal. apply list_fmap_ext. intros i n _. by rw /= length_lifetime.
    + by destruct lengths.
  - transitivity (sum_list_with fst (mjoin h)).
    + rw -sum_join. f_equal. apply list_fmap_ext. intros i now _. by rw /= Nat2Z.id sum_list_fst.
    + rw (sum_list_with_perm _ _ _ Hp) sum_lifetimes. f_equal. apply list_fmap_ext. intros i n _.
      by rw -paged_lifetime_tokens sum_list_fst.
  - apply Forall_fmap. eapply Forall_impl; [exact Hall|]. intros now [Hlen Hin]. simpl.
    rw /bst_internal_fragmentation /bst_tokens_allocated /=. destruct (blocks_tokens bs now Hbs) as [[H1 H2] _].
    split; [done|]. split; [|split; nia]. split; [|lia]. destruct now as [|e now]; [simpl in Hlen; lia|].
    destruct (Hin e ltac:(by left)) as [_ [_ He]%elem_of_lifetime].
    destruct (blocks_of bs (e :: now)); [simpl in H2|]; lia.
Qed.

Lemma replay_paged_exact_witness :
  ∃ samples, replay_paged 0 6 TINY 2 [3; 5] 6 2 = Ok (Some samples) ∧ length samples = 4 ∧
    sum_list ((λ s, Z.to_nat (bst_tokens_used s)) <$> samples) = 19.
Proof.
  destruct (replay_paged_exact 0 6 TINY 2 [3; 5] 6 2) as (samples & Hr & Hn & Hu & _); [lia|vm_compute; lia|vm_compute; lia|].
  exists samples. split; [exact Hr|]. split; [exact Hn|exact Hu].
Defined.

(** ** Replays that do not end *)

Section stuck.
Context {St A : Type} (round : list nat → list (nat * nat) → M St (A * (list nat * list (nat * nat)))).

(** The state after [k] rounds of a loop that is not over. *)
Fixpoint after_rounds (k : nat) (queue : list nat) (live : list (nat * nat)) (s : St) : option (list nat * list (nat * nat) * St) :=
  match queue, live with
  | [], [] => None
  | _, _ =>
      match k with
      | 0 => Some (queue, live, s)
      | S k => match round queue live s with
               | (Ok (_, (queue, live)), s) => after_rounds k queue live s
               | _ => None
               end
      end
  end.

Lemma rounds_forever k queue live s queue' live' s' fuel :
  after_rounds k queue live s = Some (queue', live', s') → after_rounds 1 queue' live' s' = Some (queue', live', s') →
  (rounds round fuel queue live s).1 = Ok None.
Proof.
  revert k queue live s. induction fuel as [|fuel IH]; intros k queue live s Hk Hf.
  { destruct k, queue, live; done. }
  assert (∃ x q1 l1 s1 k1, (queue ≠ [] ∨ live ≠ []) ∧ round queue live s = (Ok (x, (q1, l1)), s1) ∧
    after_rounds k1 q1 l1 s1 = Some (queue', live', s')) as (x & q1 & l1 & s1 & k1 & Hne & Hr & H1).
  { assert (∀ k, after_rounds (S k) queue live s = Some (queue', live', s') →
      ∃ x q1 l1 s1, (queue ≠ [] ∨ live ≠ []) ∧ round queue live s = (Ok (x, (q1, l1)), s1) ∧
        after_rounds k q1 l1 s1 = Some (queue', live', s')) as Hstep.
    { clear. intros k Hk. assert (queue ≠ [] ∨ live ≠ []) as Hne by (destruct queue, live; naive_solver).
      simpl in Hk. destruct (round queue live s) as [[[x [q1 l1]]|e] s1]; [|by destruct queue, live].
      exists x, q1, l1, s1. split; [done|]. split; [done|]. by destruct queue, live. }
    destruct k as [|k].
    - assert (queue = queue' ∧ live = live' ∧ s = s') as (-> & -> & ->) by (destruct queue, live; naive_solver).
      destruct (Hstep 0 Hf) as (x & q1 & l1 & s1 & ?). by exists x, q1, l1, s1, 0.
    - destruct (Hstep k Hk) as (x & q1 & l1 & s1 & ?). by exists x, q1, l1, s1, k. }
  pose proof (IH _ _ _ _ H1 Hf) as Hgo. destruct queue, live; simpl; try (by destruct Hne);
    rw /bind Hr; destruct (rounds round fuel q1 l1 s1) as [r ?]; simpl in Hgo; by subst r.
Qed.
End stuck.

(** Two sequences of five tokens, each of which fits a pool of three blocks of two tokens:
    once both hold a full block and one of them the third, none of them grows or leaves
    again. *)
Theorem replay_paged_deadlocks fuel : replay_paged 0 fuel TINY 2 [5; 5] 3 2 = Ok None.
Proof. eapply (rounds_forever _ 3); vm_compute; reflexivity. Qed.

(** ** The bound and the command *)

(** Rounding up to whole blocks wastes less than a block per sequence, and the bound is
    what the pool's own accounting would say of a moment when every sequence is resident
    at its full length. *)
Theorem paged_bound_exact lengths bs cfg itemsize N : 0 < bs → 0 < sum_list lengths →
  ∃ b, paged_bound lengths bs = Ok b ∧ pb_max_waste b ≤ bs - 1 ∧
    pb_waste_fraction b = bst_waste_fraction (paged_sample cfg itemsize N bs ((λ n, (n, n)) <$> lengths)).
Proof.
  intros Hbs Hpos. rw /paged_bound. set (allocated := (λ n, ceil_div n bs * bs) <$> lengths).
  set (waste := (λ n, ceil_div n bs * bs - n) <$> lengths).
  assert (sum_list allocated = blocks_of bs ((λ n, (n, n)) <$> lengths) * bs) as Ha.
  { subst allocated. rw /blocks_of. clear. induction lengths as [|n l IH]; [done|]. rw !fmap_cons /= IH. lia. }
  assert (sum_list waste + sum_list lengths = sum_list allocated) as Hw.
  { subst waste allocated. clear -Hbs. induction lengths as [|n l IH]; [done|]. rw !fmap_cons /=.
    pose proof (ceil_div_mul_ge n bs Hbs). lia. }
  assert (max_list waste ≤ bs - 1) as Hm.
  { subst waste. clear -Hbs. induction lengths as [|n l IH]; [apply Nat.le_0_l|]. apply Nat.max_lub; [|exact IH].
    pose proof (ceil_div_mul_lt n bs Hbs). cbn. lia. }
  assert (((λ n, (n, n)) <$> lengths).*1 = lengths) as Hl by by rw -list_fmap_compose list_fmap_id.
  eexists (mkPagedBound bs _ _ _ 0). split; [destruct lengths; [simpl in Hpos; lia|reflexivity]|]. split; [exact Hm|].
  cbn [pb_waste_fraction]. rw -/allocated -/waste /bst_waste_fraction /bst_utilization /ratio_or_0 /bst_tokens_allocated.
  cbn [paged_sample bst_tokens_used bst_allocated bst_block_size]. rw Hl -Nat2Z.inj_mul -Ha.
  rw (proj2 (Z.eqb_neq _ _)); [|lia].
  assert (0 < qc_of_nat (sum_list allocated))%Qc as Hq by (apply qc_of_nat_pos; lia).
  change (qc_of_Z (Z.of_nat ?n)) with (qc_of_nat n).
  assert (qc_of_nat (sum_list waste) = qc_of_nat (sum_list allocated) - qc_of_nat (sum_list lengths))%Qc as ->.
  { rw -Hw /qc_of_nat Nat2Z.inj_add qc_of_Z_add. ring. }
  rw -(qc_div_self _ Hq) /Qcdiv. ring.
Qed.

Lemma paged_bound_exact_witness :
  ∃ b, paged_bound [3; 8] 4 = Ok b ∧ pb_max_waste b ≤ 3 ∧
    pb_waste_fraction b = bst_waste_fraction (paged_sample TINY 2 9 4 [(3, 3); (8, 8)]).
Proof. apply (paged_bound_exact [3; 8] 4 TINY 2 9); simpl; lia. Defined.

(** A sequence that holds something wastes less than all of its slot. *)
Lemma static_waste_lt cfg itemsize slots m now : 0 < m → 0 < length now → 0 < sum_list now.*1 →
  (ps_waste_fraction (static_sample cfg itemsize slots m now) < 1)%Qc.
Proof.
  intros Hm Hl Hu. rw /ps_waste_fraction /ps_utilization /ps_tokens_allocated /=.
  rw (proj2 (Z.eqb_neq _ _)); [|nia].
  assert (0 < qc_of_nat (sum_list now.*1))%Qc as H1 by by apply qc_of_nat_pos.
  assert (0 < qc_of_nat (length now * m))%Qc as H2 by (apply qc_of_nat_pos; nia).
  rw -Nat2Z.inj_mul. change (Q2Qc (inject_Z (Z.of_nat ?n))) with (qc_of_nat n).
  assert (0 < qc_of_nat (sum_list now.*1) / qc_of_nat (length now * m))%Qc; [|qc_lra].
  apply Qcnot_le_lt. rw qc_div_le_iff // Qcmult_0_l. by apply Qclt_not_le.
Qed.

Lemma qmean_lt (b : Qc) (l : list Qc) : l ≠ [] → Forall (λ x, x < b)%Qc l → (qmean l < b)%Qc.
Proof.
  intros Hl Hb. destruct l as [|x l]; [done|]. destruct (qmaximum_spec x l) as [_ Hin].
  rw Forall_forall in Hb. eapply Qcle_lt_trans; [apply qmean_between|]. by apply Hb.
Qed.

(** The command reports when the budget pays for a slot, the blocks hold every sequence
    with one to spare and every sequence has a token; the rounds it takes are at most the
    workload's tokens. *)
Theorem measure_reports {T} (zero : T) fuel cfg itemsize budget_mb msl bs reqs :
  let lengths := (λ '(prompt_len, max_tokens), (prompt_len + max_tokens) `min` msl) <$> reqs in
  let budget := (budget_mb * 1024 * 1024)%Z in
  reqs ≠ [] → Forall (lt 0) lengths → 0 < bs →
  (0 < slots_for_budget cfg budget (Some msl) itemsize)%Z →
  demand bs lengths < Z.to_nat (blocks_for_budget cfg budget (Z.of_nat bs) itemsize) →
  sum_list lengths ≤ fuel →
  ∃ r, measure zero fuel cfg itemsize budget_mb msl bs reqs = Ok (Some r) ∧
    pg_steps (rp_paged r) = max_list ((λ n, 1 `max` (n - 1)) <$> lengths) ∧
    (pg_external_frag (rp_paged r) = 0)%Qc ∧ pb_max_waste (rp_bound r) ≤ bs - 1.
Proof.
  intros lengths budget Hne Hpos Hbs Hslots Hd Hf. rw /measure -/lengths -/budget.
  set (slots := slots_for_budget _ _ _ _) in *. set (N := Z.to_nat _) in Hd |- *.
  assert (lengths ≠ []) as Hl by (rw /lengths; by destruct reqs).
  assert (∀ n, n ∈ lengths → n ≤ msl) as Hcap by (intros n ([p m] & -> & _)%list_elem_of_fmap; lia).
  assert ((λ n, n `min` msl) <$> lengths = lengths) as Hmin.
  { rw -{2}(list_fmap_id lengths). apply list_fmap_ext. intros i n Hn%list_elem_of_lookup_2%Hcap. rw /id. lia. }
  assert (sum_list lengths = sum_list ((λ n, 1 `max` (n - 0)) <$> lengths)) as Hsum.
  { f_equal. rw -{1}(list_fmap_id lengths). apply list_fmap_ext. rw Forall_forall in Hpos.
    intros i n Hn%list_elem_of_lookup_2%Hpos. rw /id. lia. }
  assert (0 < msl) as Hmsl.
  { destruct lengths as [|n l]; [done|]. apply Forall_cons in Hpos as [Hn _]. pose proof (Hcap n ltac:(by left)). lia. }
  clearbody lengths.
  rw replay_refines Hmin. destruct (history_run fuel (Z.to_nat slots) 0 lengths) as (h & -> & Hp & Hall);
    [lia|by rw length_lifetimes -Hsum|]. cbn [fmap option_fmap option_map].
  assert (StaticCachePool.or_default (Some msl) (Z.to_nat (max_position_embeddings cfg)) = msl) as -> by by destruct msl; [lia|].
  destruct (replay_paged_exact zero fuel cfg itemsize lengths N bs) as (ps & -> & Hlen & _); [done|done| |].
  { etrans; [|exact Hf]. rw Hsum. clear. induction lengths as [|n l IH]; [done|]. rw !fmap_cons /=. lia. }
  destruct (paged_bound_exact lengths bs cfg itemsize N Hbs) as (b & -> & Hb & _).
  { destruct lengths as [|n l]; [done|]. apply Forall_cons in Hpos as [Hn _]. simpl. lia. }
  destruct h as [|now h].
  { apply Permutation_nil_l in Hp. destruct lengths as [|n l]; [done|]. rw bind_cons in Hp.
    pose proof (lifetime_nonempty 0 n). apply (f_equal length) in Hp. rw length_app in Hp. cbn [mjoin list_join length] in Hp. lia. }
  destruct ps as [|p ps].
  { destruct lengths as [|n l]; [done|]. cbn in Hlen. lia. }
  cbn [fmap list_fmap summarise summarise_paged]. rw /gains bool_decide_false.
  - eexists. split; [done|]. cbn [pg_steps rp_paged rp_bound pg_external_frag]. rw -Hlen. done.
  - intros H0. cbn [ss_waste_fraction] in H0. revert H0. apply not_eq_sym, Qclt_not_eq.
    match goal with |- (0 < 1 - qmean ?l)%Qc => assert (qmean l < 1)%Qc; [|qc_lra] end.
    apply qmean_lt; [done|]. change (Forall (λ x, (x < 1)%Qc) (ps_waste_fraction <$> (static_sample cfg itemsize (Z.to_nat slots) msl <$> now :: h))).
    apply Forall_fmap, Forall_fmap. eapply Forall_impl; [exact Hall|]. intros w [Hw Hin]. apply static_waste_lt; [done|lia|].
    destruct w as [|e w]; [simpl in Hw; lia|]. destruct (Hin e ltac:(by left)) as [He [_ Hl1]%elem_of_lifetime].
    rw Forall_forall in Hpos. apply Hpos in He. simpl. lia.
Qed.

Lemma measure_reports_witness :
  ∃ r, measure 0 17 TINY 2 1 8 2 [(2, 4); (3, 9); (1, 2)] = Ok (Some r) ∧ pg_steps (rp_paged r) = 7 ∧ pb_max_waste (rp_bound r) ≤ 1.
Proof.
  destruct (measure_reports 0 17 TINY 2 1 8 2 [(2, 4); (3, 9); (1, 2)]) as (r & Hr & Hs & _ & Hb);
    [done|vm_compute; repeat constructor|lia|vm_compute; reflexivity|vm_compute; lia|vm_compute; lia|].
  exists r. split; [exact Hr|]. split; [exact Hs|exact Hb].
Defined.
